(* ===== verification/_CoqProject ===== *)
-Q . S2P
Prelude.v
Regex.v
Js.v
Dates.v
Ids.v
Unicode.v
PathPolicy.v
ClientPaths.v
ClientTrees.v
NamePortability.v
Json.v
SemanticJson.v
CanvasMerge.v
BasesMerge.v
Frontmatter.v
Git.v
Metadata.v
MetadataStore.v
Auth.v
DirectoryIntents.v
Validators.v
ClientJournals.v
ClientRecovery.v
WorkPool.v
MutationGate.v
GitTrees.v
StructuralMerge.v
MergeDecision.v
WorkTrees.v
ConflictReview.v
Resolution.v
VaultDeletion.v
Programs.v
Operations.v
VaultState.v
Startup.v
VaultFacts.v
Recoverable.v
PushService.v
PushFacts.v
PushSafety.v
StartupSafety.v
PushRecovery.v
DeletionRequests.v
Barriers.v
DeviceLeases.v
DeviceRemoval.v
RemovalSafety.v
RemovalCompletion.v
RateLimits.v
Connections.v
ConnectionSafety.v
ConnectionRuns.v
ConnectionEnrollment.v
