(* ===== verification/Prelude.v ===== *)
(** * obts: a verification development

    obts synchronizes Obsidian vaults. A self-hosted server (src/server/) keeps one bare
    git repository per vault and one metadata document; devices run a plugin
    (obsidian-plugin/src/) that commits local changes and pushes them. The server merges
    a device's commit into the vault's main branch or records a conflict, which a person
    reviews and resolves in the dashboard; directories that git does not store are
    synchronized beside it as intents. This library models the parts of that program a
    kernel can check, as Gallina functions and step relations translated from the
    source, and proves what makes each part correct.

    ** How to read it

    A JavaScript string is its list of UTF-16 code units ([jstring]); a dynamically
    typed value is a [jsval]; a function that throws returns a [result]; a Map or an
    object used as one is an association list in insertion order ([jmap]), a set of
    paths a duplicate-free list ([set_add], [js_set]), or a stdpp [gmap] where order
    cannot be observed. Definitions keep the names of the source. A function of the
    source that awaits is either one function of its inputs (where nothing can
    interleave because it runs under the vault's lock or in one transaction) or a step
    relation whose steps are the code between two awaits.

    What is not in the repository is a parameter: git ([GitReads], [GitTools],
    [GitObjects]), Unicode tables ([Unicode]), the decimal text of wide numbers
    ([Numerals]), date texts other than ISO ([Dates]), digests and password hashing
    ([Sha256], [Crypto]), text decoding ([TextTools], [TextBytes]), the YAML library ([Yaml],
    [YamlDocuments]). A class that ends in
    [Ok] states what the documentation of that service promises and the code relies on;
    each has an instance the examples compute with.

    ** Foundations

    - Prelude: strings, paths, sorting, sets and maps as the source uses them; the
      ancestry of slash-separated paths ([below], [covers]) that most components share.
    - Regex: regular expressions and a matcher proved against their denotation.
    - Js, Json: values, errors, [JSON.stringify] and [JSON.parse], which are inverse on
      plain values, so that comparing texts compares values.
    - Dates, Ids, Unicode: instants and their texts, identifiers and secrets, the Unicode
      services of the engine.

    ** Paths (shared/pathPolicy.ts, shared/namePortability.cjs, plugin main.cjs)

    PathPolicy characterises the paths a vault may hold ([canonical]) and proves that
    normalization returns exactly those; ClientPaths proves that the plugin's own copy
    of the policy agrees with it; NamePortability finds exactly the names a restricted
    platform cannot store; ClientTrees has the plugin's algorithms on trees of paths
    (prefix index, removal batches, topmost roots), each proved against its plain
    statement.

    ** Metadata, accounts (server/metadataStore.ts, server/authService.ts)

    Metadata has the rows of the document and the bookkeeping of transactions;
    MetadataStore publishes the document durably under every combination of failing file
    operations: what is served is what the file holds, or the store stops, and a
    transaction happens wholly or not at all. Auth has every method of the account
    service as a transaction: an enabled administrator always remains, a disabled account
    or revoked device is locked out, reset tokens work once, the login backoff is
    bounded.

    ** Directories (server/syncService.ts, server/app.ts)

    DirectoryIntents: deltas between snapshots of explicit directories, their
    application, compaction and classification against a device's proposal, and the
    historical snapshots rebuilt from the event log.

    ** Requests and journals (shared/validators.ts, plugin main.cjs)

    Validators parses request bodies; ClientJournals and ClientRecovery read the
    checkpoints, journals and decisions the plugin finds on its disk, from arbitrary
    JSON. The theorems connect the two sides: what the plugin builds the server parses,
    the rename pairs one accepts the other accepts, both compact intents alike.

    ** Merging (server/syncService.ts, server/gitService.ts)

    - GitTrees: the comparisons git prints, trees, and the tree of a disjoint merge.
    - StructuralMerge: what each side did to the files of the base, renames inferred
      included, and which actions conflict; a summary accounts for every changed path
      and the verdict does not depend on the order of the sides.
    - MergeDecision: the decision of [mergeDeviceCommit]; a disjoint merge from the natural
      merge base keeps what either side did and is well formed, one from an older base
      can lose a revert.
    - SemanticJson, CanvasMerge, BasesMerge, Frontmatter: the content merges of gitService.ts
      and frontmatterTimestampMerge.ts. An accepted merge of canvases or of bases reads
      back as a three-way merge of their parts; a note settled by timestamp rules holds
      the later value of each field and is otherwise untouched.
    - WorkTrees: trees written through a temporary work tree, with the directories that
      outlive their files and the errors of the file system.
    - ConflictReview: the groups a review shows, when a review has gone stale (through a
      bounded cache of verdicts), and when two trees make the same changes.
    - Resolution: what each kind of resolution writes and deletes, the decision units of
      a per-file resolution, and the candidate applied to a main that has advanced: it
      changes only the conflict, and exactly as reviewed.

    ** Pushing, stopping and starting again (server/syncService.ts, server/app.ts)

    A push crosses two stores, the metadata document and the git repository, that no
    transaction covers together. It is modelled call by call: a function of the service
    is an effect tree ([prog]) whose nodes are the calls another request, a failure or
    the end of the process can come between.

    - Programs: effect trees, the runs of a program among steps of others, and a logic of
      triples in which an assertion holds at every call, hence wherever a run stops.
    - Operations: the rows and encodings of operations, conflicts and directory plans.
    - VaultState: the durable state (metadata, references), the calls and how each can
      fail ([call_step], [Faults]), and what it means that the references are where
      the metadata says ([agrees]).
    - PushService: [integrateDeviceCommit] and all it calls: admission, validation,
      the transactions around each reference, the decision and its three merges,
      [createConflict].
    - Startup: what [createObtsServer] does before it serves: the reconciliation of
      interrupted operations, the protection of conflicts, the check of every vault.
    - Recoverable: the invariant: at most one operation explains where the references and
      the metadata of a vault differ. VaultFacts, PushFacts, PushSafety prove it of a
      push while other methods run, StartupSafety of the startup.
    - PushRecovery: the consequences: wherever a push stops, a start that completes makes
      references and metadata agree - for calls that fail in any way but two: the update
      of the device's own reference after it took effect, and the store while that
      reference is ahead of the metadata. It also runs both programs on a small vault
      ([exec]) and shows by a run why the faults have to be restricted: a reference
      that moves in an update that reports a failure is lost to the next start.

    ** Deleting a vault, removing a device (server/vaultLifecycleCoordinator.ts)

    VaultDeletion: the deletion worker, its transactions and the erasure of the files
    under faults: it resumes after any interruption that leaves the owner markers in place
    and ends with nothing of the vault left; without a marker it never ends. DeletionRequests: the request for a deletion and its repetition. Barriers and
    DeviceLeases: the in-memory barriers as step relations; nothing is erased while a
    request holds an admission, and a removed device's work is over.

    ** Removing a device (server/deviceRemovalService.ts)

    - DeviceRemoval: the removal service call by call ([Programs]): the intent, the
      phases of its journal, the gates (nothing unmerged is lost without the owner's
      grant), the deletion of the reference by compare-and-swap, the cleanup, the
      transaction that completes it, and the resumption of every journal at startup.
      The barrier of a device is its set of closed devices and its lease counts here;
      DeviceLeases has the promises behind it. Checkpoints for tests and log lines are
      omitted.
    - RemovalSafety: the calls over the store, one device's reference and its staged
      transfers ([call_step]), what other methods can do meanwhile ([others]: they
      respect the barrier and a removal's journal; removals of one device are
      serialized by the lock around them), and the proof that every erasure is of
      commits in the history of main or granted by the owner.
    - RemovalCompletion: the safety theorems, and that a start ends every interrupted
      removal with nothing of the device left and everything of others as it was.

    ** Connecting a new device (server/connectionService.ts)

    - RateLimits: the two rate limits: what a window admits, counting the origins the map
      forgets, when it forgets them, and why a request is refused.
    - Connections: the service's methods as programs over the store, the clock, the
      admissions of a vault and git: registration, review, approval, denial, status,
      bootstrap, completion and its repetition, with their transactions. The coordinator
      is an optional argument there as in the code ([lifecycle]).
    - ConnectionSafety: the life of a connection ([progress]), what requests may do to
      each other ([evolves]), and what each transaction does to the document.
    - ConnectionRuns: the calls with their failures ([call_step]) and the triples of the
      methods, by rely and guarantee: the identifiers a request draws are its own.
    - ConnectionEnrollment: the theorems - every method keeps what the others rely on,
      a completion that answers has enrolled its device, only approved connections
      enroll, and an answered completion run again later and alone ([exec]) answers for
      the same device, or is refused in the one case the code forgets.

    ** The plugin's concurrency (work-pool.cjs, path-mutation-gate.cjs)

    WorkPool: a byte budget and the bounded worker pool, which computes the sequential
    map under every interleaving and terminates. MutationGate: operations on overlapping
    paths never run together and none waits forever behind later ones.

    ** Bounds and fuel

    Recursion that is not structural takes fuel that the theorems show to be enough:
    [removal_loop] one unit per path, [lower_bound] the length of the key list,
    [ancestors] the length of the path, [parse_value] the length of the text. The loop
    that deletes a removed device's reference takes [rounds]: when they are spent the
    program waits, which the safety theorems cover, and the completion theorem shows one
    round to be enough when nothing moves the reference. Other loops that
    wait are step relations, with a measure or an explicit run where termination is
    claimed. Byte counts and sequence numbers are unbounded [Z] or [nat] with the
    safe-integer tests of the source written out.

    ** Not modelled

    - Running git, reading history (merge bases, ancestry) and quarantining uploads: they are
      the answers of [git_query] in a push. Of the other writers of references (settings,
      name repair, refreshes and resolutions of conflicts, the restoration of a note) the
      transactions that complete them at startup are modelled, not their live paths.
    - HTTP routing, sessions' cookies, the dashboard and its event stream, logs,
      diagnostics, configuration: input and output.
    - Chunked transfers and operation history.
    - The plugin's pull, push and apply loops; only the predicates, parsers, plans and
      the two concurrency primitives they use.
    - The Rust bridge (crates/), scripts, tests, formal models (architecture/), and the
      bundled obsidian-plugin/main.js, which is generated from obsidian-plugin/src. *)

From stdpp Require Export prelude gmap strings list sorting.
From Stdlib Require Export ZArith.

Open Scope string_scope.
Open Scope nat_scope.
Open Scope list_scope.
Declare Scope js_scope.
Delimit Scope js_scope with js.

(** ** JavaScript strings *)

(** A JavaScript string is its sequence of UTF-16 code units. *)
Definition jstring : Type := list N.

#[export] Instance jstring_eq_dec : EqDecision jstring := _.
#[export] Instance jstring_countable : Countable jstring := _.
#[export] Instance jstring_inhabited : Inhabited jstring := populate [].

(** Source literals are written as Rocq strings; [lit] decodes their UTF-8
    bytes to the UTF-16 code units the literal has in the source. *)
Fixpoint utf8_units (bs : list N) : jstring :=
  match bs with
  | [] => []
  | b0 :: t0 =>
    if (b0 <? 128)%N then b0 :: utf8_units t0 else
    match t0 with
    | [] => [65533%N]
    | b1 :: t1 =>
      if (b0 <? 224)%N then ((b0 mod 32) * 64 + b1 mod 64)%N :: utf8_units t1 else
      match t1 with
      | [] => [65533%N]
      | b2 :: t2 =>
        if (b0 <? 240)%N
        then ((b0 mod 16) * 4096 + (b1 mod 64) * 64 + b2 mod 64)%N :: utf8_units t2
        else match t2 with
             | [] => [65533%N]
             | b3 :: t3 =>
               let v := ((b0 mod 8) * 262144 + (b1 mod 64) * 4096
                         + (b2 mod 64) * 64 + b3 mod 64 - 65536)%N in
               (55296 + v / 1024)%N :: (56320 + v mod 1024)%N :: utf8_units t3
             end
      end
    end
  end.

Definition lit (s : string) : jstring :=
  utf8_units (Ascii.N_of_ascii <$> String.list_ascii_of_string s).

Coercion lit : string >-> jstring.

(** A list of source literals. *)
Definition lits (l : list string) : list jstring := lit <$> l.

(** Concatenation, [a + b] and template literals. *)
Definition japp (a b : jstring) : jstring := a ++ b.
Infix "+:+" := japp (at level 60, right associativity).

(** [a === b] on strings. *)
Fixpoint jeqb (a b : jstring) : bool :=
  match a, b with
  | [], [] => true
  | x :: a, y :: b => N.eqb x y && jeqb a b
  | _, _ => false
  end.
Infix "=s?" := jeqb (at level 70, no associativity) : js_scope.
Open Scope js_scope.

(** [values.includes(s)] on an array of strings. *)
Fixpoint jmem (s : jstring) (l : list jstring) : bool :=
  match l with
  | [] => false
  | x :: l => (s =s? x) || jmem s l
  end.

(** [s.startsWith(p)], [s.endsWith(p)] and [s.includes(c)] for one code unit. *)
Fixpoint starts_with (p s : jstring) : bool :=
  match p, s with
  | [], _ => true
  | x :: p, y :: s => N.eqb x y && starts_with p s
  | _ :: _, [] => false
  end.
Definition ends_with (p s : jstring) : bool := starts_with (rev p) (rev s).
Definition has_unit (c : N) (s : jstring) : bool := existsb (N.eqb c) s.

Definition SLASH : N := 47.
Definition BACKSLASH : N := 92.
Definition DOT : N := 46.
Definition COLON : N := 58.
Definition NUL : N := 0.

(** [s.split(c)] for one code unit: never empty. *)
Fixpoint split_on (c : N) (s : jstring) : list jstring :=
  match s with
  | [] => [[]]
  | x :: s' =>
    if N.eqb x c then [] :: split_on c s'
    else match split_on c s' with
         | [] => [[x]]
         | seg :: segs => (x :: seg) :: segs
         end
  end.

(** [segments.join(c)]. *)
Fixpoint join_with (c : N) (l : list jstring) : jstring :=
  match l with
  | [] => []
  | [s] => s
  | s :: l => s ++ c :: join_with c l
  end.

(** [s.replaceAll(a, b)] for single code units. *)
Definition replace_unit (a b : N) (s : jstring) : jstring :=
  map (λ c, if N.eqb c a then b else c) s.

(** The comparison [a < b] of strings: lexicographic by code unit. *)
Fixpoint jcompare (a b : jstring) : comparison :=
  match a, b with
  | [], [] => Eq
  | [], _ :: _ => Lt
  | _ :: _, [] => Gt
  | x :: a, y :: b =>
    match N.compare x y with Eq => jcompare a b | c => c end
  end.
Definition jltb (a b : jstring) : bool := match jcompare a b with Lt => true | _ => false end.
Definition jleb (a b : jstring) : bool := match jcompare a b with Gt => false | _ => true end.
Infix "<s?" := jltb (at level 70, no associativity) : js_scope.
Infix "<=s?" := jleb (at level 70, no associativity) : js_scope.

(** *** Laws of the string operations *)

Lemma jeqb_eq a b : jeqb a b = true ↔ a = b.
Proof.
  revert b; induction a as [|x a IH]; intros [|y b]; simpl; try (split; done).
  rewrite andb_true_iff, N.eqb_eq, IH. split; [intros [-> ->]|intros [= -> ->]]; auto.
Qed.

Lemma jeqb_refl a : jeqb a a = true.
Proof. by apply jeqb_eq. Qed.

Lemma jeqb_neq a b : jeqb a b = false ↔ a ≠ b.
Proof. rewrite <- jeqb_eq. by destruct (jeqb a b). Qed.

Lemma jeqb_sym a b : jeqb a b = jeqb b a.
Proof. apply eq_true_iff_eq. rewrite !jeqb_eq. done. Qed.

Lemma jeqb_spec a b : reflect (a = b) (jeqb a b).
Proof. apply iff_reflect. symmetry. apply jeqb_eq. Qed.

Lemma jmem_elem s l : jmem s l = true ↔ s ∈ l.
Proof.
  induction l as [|x l IH]; simpl; [set_solver|].
  rewrite orb_true_iff, jeqb_eq, IH, elem_of_cons. done.
Qed.

Lemma jmem_not_elem s l : jmem s l = false ↔ s ∉ l.
Proof. rewrite <- jmem_elem. by destruct (jmem s l). Qed.

Lemma starts_with_spec p s : starts_with p s = true ↔ p `prefix_of` s.
Proof.
  revert s; induction p as [|x p IH]; intros s; simpl.
  - split; [intros _; apply prefix_nil|done].
  - destruct s as [|y s].
    + split; [done|]. intros H. by apply prefix_nil_not in H.
    + rewrite andb_true_iff, N.eqb_eq, IH. split.
      * intros [-> ?]. by apply prefix_cons.
      * intros H. split; [by eapply prefix_cons_inv_1|by eapply prefix_cons_inv_2].
Qed.

Lemma starts_with_app p s : starts_with p (p ++ s) = true.
Proof. apply starts_with_spec. by apply prefix_app_r. Qed.

Lemma starts_with_refl p : starts_with p p = true.
Proof. by apply starts_with_spec. Qed.

Lemma starts_with_trans a b c :
  starts_with a b = true → starts_with b c = true → starts_with a c = true.
Proof. rewrite !starts_with_spec. intros; by etrans. Qed.

Lemma has_unit_spec c s : has_unit c s = true ↔ c ∈ s.
Proof.
  unfold has_unit. rewrite existsb_exists. setoid_rewrite N.eqb_eq.
  split; [intros (?&?&->); by apply list_elem_of_In|].
  intros ?. exists c. by rewrite <- list_elem_of_In.
Qed.

Lemma has_unit_false c s : has_unit c s = false ↔ c ∉ s.
Proof. rewrite <- has_unit_spec. by destruct (has_unit c s). Qed.

Lemma split_on_nonempty c s : split_on c s ≠ [].
Proof. destruct s as [|x s]; simpl; [done|]. repeat case_match; done. Qed.

Lemma split_on_join c s : join_with c (split_on c s) = s.
Proof.
  induction s as [|x s IH]; simpl; [done|].
  destruct (N.eqb_spec x c) as [->|]; simpl.
  - destruct (split_on c s) eqn:E; [by apply split_on_nonempty in E|]. simpl in *. by rewrite IH.
  - destruct (split_on c s) as [|seg segs] eqn:E; [by apply split_on_nonempty in E|].
    destruct segs; simpl in *; congruence.
Qed.

Lemma split_on_no_sep c s : c ∉ s → split_on c s = [s].
Proof.
  induction s as [|x s IH]; simpl; intros Hc; [done|].
  destruct (N.eqb_spec x c) as [->|]; [set_solver|]. rewrite IH; set_solver.
Qed.

Lemma split_on_app c a s : c ∉ a → split_on c (a ++ c :: s) = a :: split_on c s.
Proof.
  induction a as [|x a IH]; simpl; intros Hc.
  - by rewrite N.eqb_refl.
  - destruct (N.eqb_spec x c) as [->|]; [set_solver|]. rewrite IH; set_solver.
Qed.

Lemma split_on_segments c s : Forall (λ seg, c ∉ seg) (split_on c s).
Proof.
  induction s as [|x s IH]; simpl.
  - constructor; [set_solver|done].
  - destruct (N.eqb_spec x c) as [->|].
    + constructor; [set_solver|done].
    + destruct (split_on c s) as [|seg segs]; [repeat constructor; set_solver|].
      inversion IH; subst. constructor; set_solver.
Qed.

Lemma join_split c l : l ≠ [] → Forall (λ seg, c ∉ seg) l → split_on c (join_with c l) = l.
Proof.
  intros Hl Hf. induction Hf as [|s l Hs Hf IH]; [done|].
  destruct l as [|s' l]; [by apply split_on_no_sep|].
  simpl join_with. rewrite split_on_app by done. f_equal. by apply IH.
Qed.

Lemma replace_unit_id a b s : a ∉ s → replace_unit a b s = s.
Proof.
  unfold replace_unit. induction s as [|x s IH]; simpl; intros Ha; [done|].
  destruct (N.eqb_spec x a) as [->|]; [set_solver|]. rewrite IH; set_solver.
Qed.

Lemma replace_unit_gone a b s : a ≠ b → a ∉ replace_unit a b s.
Proof.
  intros Hab. unfold replace_unit. rewrite list_elem_of_In, in_map_iff.
  intros (x & Hx & _). destruct (N.eqb_spec x a); congruence.
Qed.

Lemma replace_unit_fix a b s : a ≠ b → replace_unit a b s = s ↔ a ∉ s.
Proof.
  intros Hab. split; [|apply replace_unit_id].
  intros Hs. rewrite <- Hs. by apply replace_unit_gone.
Qed.

(** [jcompare] is a strict total order, so default [.sort()] is deterministic. *)
Lemma jcompare_refl a : jcompare a a = Eq.
Proof. induction a as [|x a IH]; simpl; [done|]. by rewrite N.compare_refl. Qed.

Lemma jcompare_eq a b : jcompare a b = Eq ↔ a = b.
Proof.
  split; [|intros ->; apply jcompare_refl].
  revert b; induction a as [|x a IH]; intros [|y b]; simpl; try done.
  destruct (N.compare_spec x y) as [->| |]; try done.
  intros H. f_equal. auto.
Qed.

Lemma jcompare_antisym a b : jcompare b a = CompOpp (jcompare a b).
Proof.
  revert b; induction a as [|x a IH]; intros [|y b]; simpl; try done.
  rewrite (N.compare_antisym x y). destruct (N.compare x y); simpl; auto.
Qed.

Lemma jltb_trans a b c : jltb a b = true → jltb b c = true → jltb a c = true.
Proof.
  unfold jltb. revert b c; induction a as [|x a IH]; intros [|y b] [|z c]; simpl; try done.
  destruct (N.compare_spec x y) as [->| |], (N.compare_spec y z) as [->| |]; try done.
  - apply IH.
  - by rewrite (proj2 (N.compare_lt_iff x z)).
  - rewrite (proj2 (N.compare_lt_iff x z)); [done|lia].
Qed.

Lemma jltb_irrefl a : jltb a a = false.
Proof. unfold jltb. by rewrite jcompare_refl. Qed.

Lemma jltb_neq a b : jltb a b = true → a ≠ b.
Proof. intros H ->. by rewrite jltb_irrefl in H. Qed.

Lemma jleb_refl a : jleb a a = true.
Proof. unfold jleb. by rewrite jcompare_refl. Qed.

Lemma jleb_total a b : jleb a b = true ∨ jleb b a = true.
Proof.
  unfold jleb. rewrite (jcompare_antisym a b). destruct (jcompare a b); simpl; auto.
Qed.

Lemma jleb_cases a b : jleb a b = true ↔ jltb a b = true ∨ a = b.
Proof.
  rewrite <- jcompare_eq. unfold jleb, jltb. destruct (jcompare a b); naive_solver.
Qed.

Lemma jleb_ltb a b : jleb a b = negb (jltb b a).
Proof.
  unfold jleb, jltb. rewrite (jcompare_antisym a b). by destruct (jcompare a b).
Qed.

Lemma jleb_trans a b c : jleb a b = true → jleb b c = true → jleb a c = true.
Proof.
  rewrite !jleb_cases. intros [?| ->] [?| ->]; eauto using jltb_trans.
Qed.

Lemma jleb_antisymm a b : jleb a b = true → jleb b a = true → a = b.
Proof.
  rewrite !jleb_cases. intros [H| ->] [H'|H']; try done.
  pose proof (jltb_trans _ _ _ H H') as C. by rewrite jltb_irrefl in C.
Qed.

(** ** Sorting

    [Array.prototype.sort] is stable; [isort leb] is the stable sort with
    [leb a b] standing for [comparator(a, b) <= 0]. *)
Section isort.
Context {A : Type} (leb : A → A → bool).

Fixpoint insert_by (x : A) (l : list A) : list A :=
  match l with
  | [] => [x]
  | y :: l' => if leb x y then x :: y :: l' else y :: insert_by x l'
  end.

Fixpoint isort (l : list A) : list A :=
  match l with
  | [] => []
  | x :: l => insert_by x (isort l)
  end.

Lemma insert_by_perm x l : insert_by x l ≡ₚ x :: l.
Proof.
  induction l as [|y l IH]; simpl; [done|].
  destruct (leb x y); [done|]. rewrite IH. by constructor.
Qed.

Lemma isort_perm l : isort l ≡ₚ l.
Proof. induction l as [|x l IH]; simpl; [done|]. by rewrite insert_by_perm, IH. Qed.

Lemma isort_elem x l : x ∈ isort l ↔ x ∈ l.
Proof. by rewrite isort_perm. Qed.

Lemma isort_NoDup l : NoDup (isort l) ↔ NoDup l.
Proof. by rewrite isort_perm. Qed.

Hypothesis leb_total : ∀ a b, leb a b = true ∨ leb b a = true.
Hypothesis leb_trans : ∀ a b c, leb a b = true → leb b c = true → leb a c = true.

Lemma insert_by_sorted x l :
  StronglySorted (λ a b, leb a b = true) l →
  StronglySorted (λ a b, leb a b = true) (insert_by x l).
Proof.
  induction 1 as [|y l Hl IH Hy]; simpl; [repeat constructor|].
  destruct (leb x y) eqn:E.
  - constructor; [by constructor|]. constructor; [done|].
    eapply Forall_impl; [exact Hy|]. eauto.
  - constructor; [done|]. rewrite insert_by_perm. constructor; [|done].
    destruct (leb_total x y); congruence.
Qed.

Lemma isort_sorted l : StronglySorted (λ a b, leb a b = true) (isort l).
Proof. induction l; simpl; [constructor|by apply insert_by_sorted]. Qed.

Lemma isort_id l : StronglySorted (λ a b, leb a b = true) l → isort l = l.
Proof.
  induction 1 as [|x l Hl IH Hx]; simpl; [done|]. rewrite IH.
  destruct Hx as [|y l Hy]; simpl; [done|]. by rewrite Hy.
Qed.
End isort.

Lemma sorted_lookup {A} (R : A → A → Prop) l i j a b :
  StronglySorted R l → i < j → l !! i = Some a → l !! j = Some b → R a b.
Proof.
  intros Hs. revert i j; induction Hs as [|x l Hl IH Hx]; intros i j Hij Ha Hb; [done|].
  destruct j as [|j]; [lia|]. destruct i as [|i]; simplify_eq/=.
  - eapply Forall_lookup_1; eauto.
  - eapply (IH i j); eauto; lia.
Qed.

Lemma filter_none {A} (f : A → bool) l : (∀ x, x ∈ l → f x = false) → List.filter f l = [].
Proof.
  induction l as [|x l IH]; simpl; intros Hf; [done|].
  rewrite Hf by by left. apply IH. intros y Hy. apply Hf. by right.
Qed.

Lemma filter_all {A} (f : A → bool) l : (∀ x, x ∈ l → f x = true) → List.filter f l = l.
Proof.
  induction l as [|x l IH]; simpl; intros Hf; [done|].
  rewrite Hf by by left. f_equal. apply IH. intros y Hy. apply Hf. by right.
Qed.

Lemma filter_sublist {A} (f : A → bool) l : List.filter f l `sublist_of` l.
Proof. induction l as [|x l IH]; cbn; [constructor|]. destruct (f x); by constructor. Qed.

Lemma filter_NoDup {A} (f : A → bool) l : NoDup l → NoDup (List.filter f l).
Proof. intros H. eapply sublist_NoDup; [exact H|apply filter_sublist]. Qed.

Lemma filter_elem {A} (f : A → bool) l x : x ∈ List.filter f l ↔ x ∈ l ∧ f x = true.
Proof. by rewrite !list_elem_of_In, filter_In. Qed.

(** Strings with a common prefix are contiguous in code-unit order. *)
Lemma starts_with_le p s : starts_with p s = true → jleb p s = true.
Proof.
  unfold jleb. intros [t ->]%starts_with_spec.
  induction p as [|x p IH]; simpl; [by destruct t|]. by rewrite N.compare_refl.
Qed.

Lemma starts_with_between p a b :
  jleb p a = true → jleb a b = true → starts_with p b = true → starts_with p a = true.
Proof.
  unfold jleb. revert a b; induction p as [|x p IH]; intros [|y a] [|z b]; simpl; try done.
  rewrite !andb_true_iff, !N.eqb_eq. intros Hpa Hab [-> Hpb].
  destruct (N.compare_spec z y) as [->|Hlt|]; [|rewrite (proj2 (N.compare_gt_iff y z)) in Hab; done|done].
  rewrite N.compare_refl in Hab. eauto.
Qed.

(** Default [.sort()] of an array of strings. *)
Definition sort_strings : list jstring → list jstring := isort jleb.

(** A list strictly increasing in code-unit order is duplicate free and is
    determined by its elements. *)
Definition strictly_sorted : list jstring → Prop := StronglySorted (λ a b, jltb a b = true).

Lemma strictly_sorted_NoDup l : strictly_sorted l → NoDup l.
Proof.
  induction 1 as [|x l Hl IH Hx]; constructor; [|done].
  intros Hin. rewrite Forall_forall in Hx. apply Hx in Hin. by rewrite jltb_irrefl in Hin.
Qed.

Lemma sort_strings_sorted l :
  StronglySorted (λ a b, jleb a b = true) (sort_strings l).
Proof. apply isort_sorted; [apply jleb_total|apply jleb_trans]. Qed.

Lemma sort_strings_strict l : NoDup l → strictly_sorted (sort_strings l).
Proof.
  intros Hl. assert (NoDup (sort_strings l)) as Hnd by by apply isort_NoDup.
  pose proof (sort_strings_sorted l) as Hs. induction Hs as [|x s Hs IH Hx]; [constructor|].
  apply NoDup_cons in Hnd as [Hnin Hnd]. constructor; [by apply IH|].
  rewrite Forall_forall in Hx |- *. intros y Hy. specialize (Hx y Hy).
  apply jleb_cases in Hx as [?| ->]; done.
Qed.

Lemma strictly_sorted_ext l k :
  strictly_sorted l → strictly_sorted k → (∀ x, x ∈ l ↔ x ∈ k) → l = k.
Proof.
  intros Hl. revert k. induction Hl as [|x l Hl IH Hx]; intros k Hk Hext.
  - destruct k as [|y k]; [done|]. exfalso. eapply not_elem_of_nil, Hext. by left.
  - destruct Hk as [|y k Hk Hy].
    { exfalso. eapply not_elem_of_nil, Hext. by left. }
    rewrite Forall_forall in Hx, Hy.
    assert (x = y) as ->.
    { assert (x ∈ y :: k) as [->|Hxk]%elem_of_cons by (apply Hext; by left); [done|].
      assert (y ∈ x :: l) as [->|Hyl]%elem_of_cons by (apply Hext; by left); [done|].
      pose proof (jltb_trans _ _ _ (Hx _ Hyl) (Hy _ Hxk)) as C. by rewrite jltb_irrefl in C. }
    f_equal. apply IH; [done|]. intros z. specialize (Hext z). rewrite !elem_of_cons in Hext.
    split; intros Hz.
    + destruct (proj1 Hext (or_intror Hz)) as [->|?]; [|done].
      specialize (Hx _ Hz). by rewrite jltb_irrefl in Hx.
    + destruct (proj2 Hext (or_intror Hz)) as [->|?]; [|done].
      specialize (Hy _ Hz). by rewrite jltb_irrefl in Hy.
Qed.

(** Sorting forgets the order and, for duplicate-free lists, nothing else. *)
Lemma sort_strings_ext l k :
  NoDup l → NoDup k → (∀ x, x ∈ l ↔ x ∈ k) → sort_strings l = sort_strings k.
Proof.
  intros Hl Hk H. apply strictly_sorted_ext; [by apply sort_strings_strict..|].
  intros x. unfold sort_strings. by rewrite !isort_elem.
Qed.

Lemma sort_strings_id l : strictly_sorted l → sort_strings l = l.
Proof.
  intros Hl. apply isort_id. induction Hl as [|x l Hl IH Hx]; constructor; [done|].
  eapply Forall_impl; [exact Hx|]. intros y Hy. apply jleb_cases. by left.
Qed.

(** ** Insertion-ordered sets and maps of the language *)

(** [new Set(l)] of strings: first occurrences, in insertion order. *)
Definition set_add (s : list jstring) (x : jstring) : list jstring :=
  if jmem x s then s else s ++ [x].
Definition js_set (l : list jstring) : list jstring := fold_left set_add l [].

(** [new Map()] keyed by strings: [set] keeps the position of a present key. *)
Definition jmap (A : Type) : Type := list (jstring * A).

Section jmap.
Context {A : Type}.

Fixpoint mget (m : jmap A) (k : jstring) : option A :=
  match m with
  | [] => None
  | (k', v) :: m => if k' =s? k then Some v else mget m k
  end.

Fixpoint mset (m : jmap A) (k : jstring) (v : A) : jmap A :=
  match m with
  | [] => [(k, v)]
  | (k', v') :: m => if k' =s? k then (k', v) :: m else (k', v') :: mset m k v
  end.

(** Deletes the keys that satisfy a test. *)
Definition mdel_if (f : jstring → bool) (m : jmap A) : jmap A :=
  List.filter (λ kv, negb (f kv.1)) m.

Definition mkeys (m : jmap A) : list jstring := map fst m.
Definition mvalues (m : jmap A) : list A := map snd m.

Lemma mget_mset m k v j : mget (mset m k v) j = if k =s? j then Some v else mget m j.
Proof.
  induction m as [|[k' v'] m IH]; simpl; [done|].
  destruct (jeqb_spec k' k) as [->|Hk]; simpl.
  - by destruct (jeqb_spec k j).
  - rewrite IH. destruct (jeqb_spec k' j) as [->|]; [|done].
    by destruct (jeqb_spec k j) as [->|].
Qed.

Lemma mget_mdel_if f m j : mget (mdel_if f m) j = if f j then None else mget m j.
Proof.
  induction m as [|[k v] m IH]; simpl; [by destruct (f j)|].
  destruct (f k) eqn:E; simpl.
  - rewrite IH. destruct (jeqb_spec k j) as [->|]; [by rewrite E|done].
  - rewrite IH. destruct (jeqb_spec k j) as [->|]; [by rewrite E|done].
Qed.

Lemma mget_elem m k v : NoDup (mkeys m) → mget m k = Some v ↔ (k, v) ∈ m.
Proof.
  unfold mkeys. induction m as [|[k' v'] m IH]; simpl; intros Hnd.
  - by rewrite elem_of_nil.
  - apply NoDup_cons in Hnd as [Hk Hnd]. rewrite elem_of_cons.
    destruct (jeqb_spec k' k) as [->|Hne].
    + split; [intros [= ->]; by left|]. intros [[= ->]|Hin]; [done|].
      destruct Hk. apply list_elem_of_In, in_map_iff. exists (k, v).
      by rewrite <- list_elem_of_In.
    + rewrite IH by done. naive_solver.
Qed.

Lemma mkeys_mset m k v j : j ∈ mkeys (mset m k v) ↔ j = k ∨ j ∈ mkeys m.
Proof.
  unfold mkeys. induction m as [|[k' v'] m IH]; simpl; [by rewrite list_elem_of_singleton, elem_of_nil; naive_solver|].
  destruct (jeqb_spec k' k) as [->|]; simpl; rewrite !elem_of_cons; [naive_solver|].
  rewrite IH. naive_solver.
Qed.

Lemma NoDup_mset m k v : NoDup (mkeys m) → NoDup (mkeys (mset m k v)).
Proof.
  induction m as [|[k' v'] m IH]; simpl; intros Hnd; [apply NoDup_singleton|].
  apply NoDup_cons in Hnd as [Hk Hnd].
  destruct (jeqb_spec k' k) as [->|Hne]; simpl; [by constructor|].
  constructor; [|by apply IH]. intros [->|?]%mkeys_mset; done.
Qed.

Lemma NoDup_mdel_if f m : NoDup (mkeys m) → NoDup (mkeys (mdel_if f m)).
Proof.
  unfold mkeys, mdel_if. induction m as [|[k v] m IH]; simpl; intros Hnd; [done|].
  apply NoDup_cons in Hnd as [Hk Hnd]. destruct (negb (f k)); simpl; [|by apply IH].
  constructor; [|by apply IH]. intros Hin. apply Hk.
  rewrite list_elem_of_In, in_map_iff in Hin |- *. destruct Hin as (x & ? & Hx%filter_In).
  naive_solver.
Qed.

Lemma mget_keys m k : is_Some (mget m k) ↔ k ∈ mkeys m.
Proof.
  unfold mkeys. induction m as [|[k' v] m IH]; simpl.
  - rewrite elem_of_nil. split; [by intros []|done].
  - rewrite elem_of_cons. destruct (jeqb_spec k' k) as [->|]; [naive_solver|].
    rewrite IH. naive_solver.
Qed.
End jmap.

Lemma mset_length {A} (m : jmap A) k v : (length (mset m k v) ≤ S (length m))%nat.
Proof. induction m as [|[k' v'] m IH]; cbn; [done|]. destruct (k' =s? k); cbn; lia. Qed.

Lemma mset_fresh {A} (m : jmap A) k v : k ∉ mkeys m → mset m k v = m ++ [(k, v)].
Proof.
  unfold mkeys. induction m as [|[k' v'] m IH]; cbn; [done|]. intros [Hk Hm]%not_elem_of_cons.
  rewrite (proj2 (jeqb_neq k' k)) by congruence. by rewrite IH.
Qed.

Lemma fold_mset_NoDup {A} (l m : jmap A) :
  NoDup (mkeys (m ++ l)) → fold_left (λ o kv, mset o kv.1 kv.2) l m = m ++ l.
Proof.
  revert m. induction l as [|[k v] l IH]; intros m H; cbn; [by rewrite app_nil_r|].
  rewrite mset_fresh.
  - rewrite IH; [by rewrite <- app_assoc|]. by rewrite <- app_assoc.
  - unfold mkeys in *. rewrite map_app in H. cbn in H. apply NoDup_app in H as (_ & H & _).
    intros Hk. apply (H k Hk). by left.
Qed.

Lemma set_add_elem s x y : y ∈ set_add s x ↔ y = x ∨ y ∈ s.
Proof.
  unfold set_add. destruct (jmem x s) eqn:E.
  - apply jmem_elem in E. naive_solver.
  - rewrite elem_of_app, list_elem_of_singleton. naive_solver.
Qed.

Lemma set_add_NoDup s x : NoDup s → NoDup (set_add s x).
Proof.
  intros Hs. unfold set_add. destruct (jmem x s) eqn:E; [done|].
  apply jmem_not_elem in E. apply NoDup_app. split; [done|]. split; [|apply NoDup_singleton].
  intros y Hy ->%list_elem_of_singleton. done.
Qed.

Lemma js_set_spec l :
  NoDup (js_set l) ∧ ∀ x, x ∈ js_set l ↔ x ∈ l.
Proof.
  unfold js_set. assert (∀ s, NoDup s →
    NoDup (fold_left set_add l s) ∧ ∀ x, x ∈ fold_left set_add l s ↔ x ∈ s ∨ x ∈ l) as H.
  { induction l as [|y l IH]; simpl; intros s Hs.
    - split; [done|]. intros x. rewrite elem_of_nil. naive_solver.
    - destruct (IH (set_add s y) (set_add_NoDup s y Hs)) as [Hn Hi]. split; [done|].
      intros x. rewrite Hi, set_add_elem, elem_of_cons. naive_solver. }
  destruct (H [] (NoDup_nil_2)) as [Hn Hi]. split; [done|].
  intros x. rewrite Hi, elem_of_nil. naive_solver.
Qed.

Lemma js_set_elem l x : x ∈ js_set l ↔ x ∈ l.
Proof. apply js_set_spec. Qed.

Lemma js_set_NoDup l : NoDup (js_set l).
Proof. apply js_set_spec. Qed.

(** ** Ancestry of slash-separated paths *)

(** [p.startsWith(`${root}/`)] and the test extended to the root itself. *)
Definition below (root p : jstring) : bool := starts_with (root ++ [SLASH]) p.
Definition covers (root p : jstring) : bool := (p =s? root) || below root p.

Lemma below_spec root p : below root p = true ↔ ∃ t, p = root ++ SLASH :: t.
Proof.
  unfold below. rewrite starts_with_spec. unfold prefix.
  split; intros [t ->]; exists t; by rewrite <- app_assoc.
Qed.

Lemma covers_spec root p : covers root p = true ↔ p = root ∨ below root p = true.
Proof. unfold covers. by rewrite orb_true_iff, jeqb_eq. Qed.

Lemma covers_refl p : covers p p = true.
Proof. apply covers_spec. by left. Qed.

Lemma below_trans a b c : below a b = true → below b c = true → below a c = true.
Proof.
  rewrite !below_spec. intros [t ->] [u ->]. exists (t ++ SLASH :: u). by rewrite <- app_assoc.
Qed.

Lemma covers_trans a b c : covers a b = true → covers b c = true → covers a c = true.
Proof.
  rewrite !covers_spec. intros [->|?] [->|?]; eauto using below_trans.
Qed.

Lemma below_length a b : below a b = true → length a < length b.
Proof. intros [t ->]%below_spec. rewrite length_app. simpl. lia. Qed.

Lemma covers_length a b : covers a b = true → length a ≤ length b.
Proof. intros [->|?%below_length]%covers_spec; lia. Qed.

Lemma below_irrefl a : below a a = false.
Proof. apply not_true_iff_false. intros ?%below_length. lia. Qed.

Lemma covers_antisymm a b : covers a b = true → covers b a = true → a = b.
Proof.
  rewrite !covers_spec. intros [->|Hab%below_length] [?|Hba%below_length]; try done. lia.
Qed.

(** Two ancestors of the same path are comparable. *)
Lemma covers_linear a b p :
  covers a p = true → covers b p = true → length a ≤ length b → covers a b = true.
Proof.
  rewrite !covers_spec. intros Ha Hb Hl.
  assert (a `prefix_of` p) as Hpa.
  { destruct Ha as [->|[t ->]%below_spec]; [done|by apply prefix_app_r]. }
  assert (b `prefix_of` p) as Hpb.
  { destruct Hb as [->|[t ->]%below_spec]; [done|by apply prefix_app_r]. }
  destruct Hpb as [u Hu], (prefix_weak_total a b p) as [[t Ht]|[t Ht]]; [done|by exists u|..].
  - destruct t as [|c t]; [left; by rewrite Ht, app_nil_r|]. right.
    apply below_spec. exists t. rewrite Ht. f_equal.
    destruct Ha as [->|[w Hw]%below_spec].
    + rewrite Ht in Hu. apply (f_equal length) in Hu. rewrite !length_app in Hu. simpl in Hu. lia.
    + rewrite Hw, Ht, <- app_assoc in Hu. by simplify_list_eq.
  - subst a. destruct t as [|c t]; [left; by rewrite app_nil_r|].
    rewrite length_app in Hl. simpl in Hl. lia.
Qed.

#[export] Hint Resolve covers_refl jeqb_refl starts_with_refl jleb_refl : core.
