(* ===== verification/Regex.v ===== *)
(** * Regular expressions

    The source validates identifiers, digests and versions with anchored
    regular expressions.  They are transcribed here operator by operator and
    run by a derivative matcher that is proved against the denotation of the
    expressions, so [rtest r s] is the [/^r$/u.test(s)] of the code. *)

From S2P Require Export Prelude.

Inductive regex :=
| RNone
| REps
| RClass (f : N → bool)
| RSeq (a b : regex)
| RAlt (a b : regex)
| RStar (a : regex).

(** ** Denotation *)

Inductive matches : regex → jstring → Prop :=
| MEps : matches REps []
| MClass f c : f c = true → matches (RClass f) [c]
| MSeq a b s t : matches a s → matches b t → matches (RSeq a b) (s ++ t)
| MAltL a b s : matches a s → matches (RAlt a b) s
| MAltR a b s : matches b s → matches (RAlt a b) s
| MStarNil a : matches (RStar a) []
| MStarCons a s t : matches a s → matches (RStar a) t → matches (RStar a) (s ++ t).

(** ** Matcher *)

Fixpoint nullable (r : regex) : bool :=
  match r with
  | RNone | RClass _ => false
  | REps | RStar _ => true
  | RSeq a b => nullable a && nullable b
  | RAlt a b => nullable a || nullable b
  end.

(** Smart constructors keep the derivatives small. *)
Definition mk_seq (a b : regex) : regex :=
  match a, b with
  | RNone, _ | _, RNone => RNone
  | REps, _ => b
  | _, _ => RSeq a b
  end.

Definition mk_alt (a b : regex) : regex :=
  match a, b with
  | RNone, _ => b
  | _, RNone => a
  | _, _ => RAlt a b
  end.

Fixpoint deriv (c : N) (r : regex) : regex :=
  match r with
  | RNone | REps => RNone
  | RClass f => if f c then REps else RNone
  | RSeq a b =>
    if nullable a then mk_alt (mk_seq (deriv c a) b) (deriv c b)
    else mk_seq (deriv c a) b
  | RAlt a b => mk_alt (deriv c a) (deriv c b)
  | RStar a => mk_seq (deriv c a) (RStar a)
  end.

Fixpoint rtest (r : regex) (s : jstring) : bool :=
  match s with
  | [] => nullable r
  | c :: s => rtest (deriv c r) s
  end.

(** ** Pattern notation of the source *)

Definition in_range (lo hi : N) (c : N) : bool := (lo <=? c)%N && (c <=? hi)%N.
Definition is_digit : N → bool := in_range 48 57.
Definition is_lower : N → bool := in_range 97 122.
Definition is_upper : N → bool := in_range 65 90.
Definition is_alpha (c : N) : bool := is_lower c || is_upper c.
Definition is_alnum (c : N) : bool := is_digit c || is_alpha c.
Definition is_hex (c : N) : bool := is_digit c || in_range 97 102 c.

Fixpoint rlit_units (s : jstring) : regex :=
  match s with
  | [] => REps
  | c :: s => RSeq (RClass (N.eqb c)) (rlit_units s)
  end.
Definition rlit (s : string) : regex := rlit_units (lit s).

(** [r{n}], [r{lo,hi}], [r?], [r+]. *)
Fixpoint rrep (n : nat) (r : regex) : regex :=
  match n with O => REps | S n => RSeq r (rrep n r) end.
Definition ropt (r : regex) : regex := RAlt REps r.
Fixpoint rupto (n : nat) (r : regex) : regex :=
  match n with O => REps | S n => ropt (RSeq r (rupto n r)) end.
Definition rrange (lo hi : nat) (r : regex) : regex := RSeq (rrep lo r) (rupto (hi - lo) r).
Definition rplus (r : regex) : regex := RSeq r (RStar r).

(** ** Correctness of the matcher *)

Lemma matches_none s : ¬ matches RNone s.
Proof. inversion 1. Qed.

Lemma matches_eps s : matches REps s ↔ s = [].
Proof. split; [by inversion 1|intros ->; constructor]. Qed.

Lemma matches_class f s : matches (RClass f) s ↔ ∃ c, s = [c] ∧ f c = true.
Proof. split; [inversion 1; eauto|intros (c & -> & ?); by constructor]. Qed.

Lemma matches_seq a b s :
  matches (RSeq a b) s ↔ ∃ s1 s2, s = s1 ++ s2 ∧ matches a s1 ∧ matches b s2.
Proof. split; [inversion 1; eauto|intros (? & ? & -> & ? & ?); by constructor]. Qed.

Lemma matches_alt a b s : matches (RAlt a b) s ↔ matches a s ∨ matches b s.
Proof. split; [inversion 1; eauto|intros [?|?]; by constructor]. Qed.

Lemma matches_mk_seq a b s : matches (mk_seq a b) s ↔ matches (RSeq a b) s.
Proof.
  destruct a; try done; simpl; try (destruct b; try done; rewrite matches_seq;
    split; [by intros ?%matches_none|by intros (?&?&?&?&?%matches_none)]).
  - rewrite matches_seq. split; [by intros ?%matches_none|by intros (?&?&?&?%matches_none&?)].
  - rewrite matches_seq. destruct b; (split; [intros H|intros (s1 & s2 & -> & ->%matches_eps & H)];
      try (exists [], s; split; [done|]; split; [constructor|done]); try done);
      by apply matches_none in H.
Qed.

Lemma matches_mk_alt a b s : matches (mk_alt a b) s ↔ matches (RAlt a b) s.
Proof.
  rewrite matches_alt. assert (¬ matches RNone s) by apply matches_none.
  destruct a, b; simpl; rewrite ?matches_alt; tauto.
Qed.

Lemma nullable_spec r : nullable r = true ↔ matches r [].
Proof.
  induction r as [| |f|a IHa b IHb|a IHa b IHb|a IHa]; simpl.
  - split; [done|]. by intros ?%matches_none.
  - split; [constructor|done].
  - rewrite matches_class. split; [done|]. by intros (?&?&_).
  - rewrite andb_true_iff, IHa, IHb, matches_seq. split.
    + intros [? ?]. by exists [], [].
    + by intros (s1 & s2 & [-> ->]%eq_sym%app_nil & ? & ?).
  - rewrite orb_true_iff, IHa, IHb, matches_alt. done.
  - split; [constructor|done].
Qed.

Lemma matches_star_cons a c s :
  matches (RStar a) (c :: s) ↔ ∃ s1 s2, s = s1 ++ s2 ∧ matches a (c :: s1) ∧ matches (RStar a) s2.
Proof.
  split.
  - remember (RStar a) as r eqn:Hr. remember (c :: s) as t eqn:Ht. intros H.
    induction H as [| | | | | |a' s1 s2 H1 _ H2 IH]; try done. simplify_eq.
    destruct s1 as [|c1 s1]; simpl in *; [by apply IH|]. simplify_eq. eauto.
  - intros (s1 & s2 & -> & ? & ?). by apply (MStarCons a (c :: s1)).
Qed.

Lemma deriv_spec c r s : matches (deriv c r) s ↔ matches r (c :: s).
Proof.
  revert s; induction r as [| |f|a IHa b IHb|a IHa b IHb|a IHa]; intros s; simpl.
  - split; by intros ?%matches_none.
  - rewrite matches_eps. split; [by intros ?%matches_none|done].
  - rewrite matches_class. destruct (f c) eqn:E; [rewrite matches_eps|].
    + split; [intros ->; eauto|]. by intros (? & [= <- ->] & _).
    + split; [by intros ?%matches_none|]. intros (? & [= <- ->] & ?). congruence.
  - rewrite matches_seq. trans (
      (∃ s1 s2, s = s1 ++ s2 ∧ matches a (c :: s1) ∧ matches b s2) ∨
      (nullable a = true ∧ matches b (c :: s))).
    + destruct (nullable a);
        rewrite ?matches_mk_alt, ?matches_alt, matches_mk_seq, matches_seq;
        setoid_rewrite IHa; [rewrite IHb|]; naive_solver.
    + rewrite nullable_spec. split.
      * intros [(s1 & s2 & -> & ? & ?)|[? ?]]; [by exists (c :: s1), s2|by exists [], (c :: s)].
      * intros (s1 & s2 & Hs & ? & ?). destruct s1; simplify_eq/=; [auto|left; eauto].
  - rewrite matches_mk_alt, !matches_alt, IHa, IHb. done.
  - rewrite matches_mk_seq, matches_seq, matches_star_cons. by setoid_rewrite IHa.
Qed.

(** The derivative matcher decides the denotation. *)
Lemma rtest_correct r s : rtest r s = true ↔ matches r s.
Proof.
  revert r; induction s as [|c s IH]; intros r; simpl; [apply nullable_spec|].
  by rewrite IH, deriv_spec.
Qed.

(** ** Derived forms *)

Lemma matches_lit_units u s : matches (rlit_units u) s ↔ s = u.
Proof.
  revert s; induction u as [|c u IH]; intros s; simpl; [apply matches_eps|].
  rewrite matches_seq. setoid_rewrite matches_class. setoid_rewrite IH. split.
  - intros (? & ? & -> & (? & -> & ->%N.eqb_eq) & ->). done.
  - intros ->. exists [c], u. split; [done|]. split; [|done]. exists c. by rewrite N.eqb_refl.
Qed.

Lemma matches_lit u s : matches (rlit u) s ↔ s = lit u.
Proof. apply matches_lit_units. Qed.

Lemma matches_rep_class n f s :
  matches (rrep n (RClass f)) s ↔ length s = n ∧ Forall (λ c, f c = true) s.
Proof.
  revert s; induction n as [|n IH]; intros s; simpl.
  - rewrite matches_eps. split; [by intros ->|]. intros [?%nil_length_inv _]. done.
  - rewrite matches_seq. setoid_rewrite matches_class. setoid_rewrite IH. split.
    + intros (? & s2 & -> & (c & -> & ?) & <- & ?). split; [done|by constructor].
    + intros [Hl Hf]. destruct Hf as [|c s ? Hf]; [done|]. exists [c], s. naive_solver.
Qed.

Lemma matches_upto_class n f s :
  matches (rupto n (RClass f)) s ↔ length s ≤ n ∧ Forall (λ c, f c = true) s.
Proof.
  revert s; induction n as [|n IH]; intros s; simpl.
  - rewrite matches_eps. split; [by intros ->|]. intros [? _].
    apply nil_length_inv. lia.
  - unfold ropt. rewrite matches_alt, matches_eps, matches_seq.
    setoid_rewrite matches_class. setoid_rewrite IH. split.
    + intros [->|(? & s2 & -> & (c & -> & ?) & ? & ?)]; simpl; [auto with lia|].
      split; [lia|by constructor].
    + intros [Hl Hf]. destruct Hf as [|c s ? Hf]; [by left|]. right.
      exists [c], s. simpl in Hl. split; [done|]. split; [eauto|]. split; [lia|done].
Qed.

Lemma matches_star_class f s : matches (RStar (RClass f)) s ↔ Forall (λ c, f c = true) s.
Proof.
  induction s as [|c s IH]; [split; constructor|].
  rewrite matches_star_cons. setoid_rewrite matches_class. split.
  - intros (s1 & s2 & -> & (? & [= <- ->] & ?) & ?). constructor; [done|by apply IH].
  - inversion_clear 1. exists [], s. split; [done|]. split; [eauto|by apply IH].
Qed.

Lemma rtest_rep_class n f s :
  rtest (rrep n (RClass f)) s = true ↔ length s = n ∧ Forall (λ c, f c = true) s.
Proof. rewrite rtest_correct. apply matches_rep_class. Qed.

(** [prefix ^ f{n}]: the shape of the prefixed identifiers. *)
Lemma rtest_lit_rep u n f s :
  rtest (RSeq (rlit u) (rrep n (RClass f))) s = true ↔
  ∃ t, s = lit u ++ t ∧ length t = n ∧ Forall (λ c, f c = true) t.
Proof.
  rewrite rtest_correct, matches_seq. setoid_rewrite matches_lit.
  setoid_rewrite matches_rep_class. naive_solver.
Qed.

Lemma rtest_range_class lo hi f s : lo ≤ hi →
  rtest (rrange lo hi (RClass f)) s = true ↔
  lo ≤ length s ≤ hi ∧ Forall (λ c, f c = true) s.
Proof.
  intros Hle. unfold rrange. rewrite rtest_correct, matches_seq.
  setoid_rewrite matches_rep_class. setoid_rewrite matches_upto_class. split.
  - intros (s1 & s2 & -> & [? ?] & [? ?]). rewrite length_app, Forall_app. split; [lia|done].
  - intros [? Hf]. exists (take lo s), (drop lo s). rewrite take_drop, length_take, length_drop.
    split; [done|]. split; (split; [lia|]); [by apply Forall_take|by apply Forall_drop].
Qed.
