(* ===== verification/Js.v ===== *)
(** * JavaScript values, errors and the result monad

    The dynamically typed data the code receives (parsed JSON, request bodies,
    journals read from disk) and the way functions fail (thrown errors). *)

From S2P Require Export Prelude.

(** ** Numbers *)

(** Every finite double is an integer or an odd multiple of a negative power
    of two; [-0] is identified with [0], which [===] does not distinguish. *)
Inductive jsnum :=
| NInt (z : Z)
| NFrac (m : Z) (k : positive)   (* m / 2^k with m odd *)
| NInf (negative : bool)
| NNaN.

#[export] Instance jsnum_eq_dec : EqDecision jsnum.
Proof. solve_decision. Defined.

Definition MAX_SAFE_INTEGER : Z := 2 ^ 53 - 1.

(** [Number.isFinite], [Number.isInteger], [Number.isSafeInteger]. *)
Definition num_finite (n : jsnum) : bool :=
  match n with NInt _ | NFrac _ _ => true | _ => false end.
Definition num_integer (n : jsnum) : bool := match n with NInt _ => true | _ => false end.
Definition num_safe (n : jsnum) : bool :=
  match n with NInt z => (Z.abs z <=? MAX_SAFE_INTEGER)%Z | _ => false end.

(** [n < 0] and [n > 0]. *)
Definition num_neg (n : jsnum) : bool :=
  match n with NInt z => (z <? 0)%Z | NFrac m _ => (m <? 0)%Z | NInf b => b | NNaN => false end.
Definition num_pos (n : jsnum) : bool :=
  match n with NInt z => (0 <? z)%Z | NFrac m _ => (0 <? m)%Z | NInf b => negb b | NNaN => false end.

(** [a === b] on numbers: [NaN] differs from itself. *)
Definition num_eqb (a b : jsnum) : bool :=
  match a, b with
  | NInt x, NInt y => Z.eqb x y
  | NFrac m k, NFrac n j => Z.eqb m n && Pos.eqb k j
  | NInf x, NInf y => Bool.eqb x y
  | _, _ => false
  end.

(** [a <= b]: never with [NaN]. *)
Definition num_leb (a b : jsnum) : bool :=
  match a, b with
  | NNaN, _ | _, NNaN => false
  | NInf x, NInf y => x || negb y
  | NInf x, _ => x
  | _, NInf y => negb y
  | NInt x, NInt y => (x <=? y)%Z
  | NInt x, NFrac m k => (x * 2 ^ Z.pos k <=? m)%Z
  | NFrac m k, NInt y => (m <=? y * 2 ^ Z.pos k)%Z
  | NFrac m k, NFrac n j => (m * 2 ^ Z.pos j <=? n * 2 ^ Z.pos k)%Z
  end.

(** ** Values *)

(** Own enumerable properties are listed in enumeration order. *)
Inductive jsval :=
| JUndef
| JNull
| JBool (b : bool)
| JNum (n : jsnum)
| JStr (s : jstring)
| JArr (l : list jsval)
| JObj (kvs : list (jstring * jsval)).

Definition record : Type := list (jstring * jsval).

(** Induction with the hypotheses for the elements of arrays and objects. *)
Lemma jsval_rect_nested (P : jsval → Prop) :
  P JUndef → P JNull → (∀ b, P (JBool b)) → (∀ n, P (JNum n)) → (∀ s, P (JStr s)) →
  (∀ l, Forall P l → P (JArr l)) →
  (∀ kvs, Forall (λ kv, P kv.2) kvs → P (JObj kvs)) → ∀ v, P v.
Proof.
  intros Hu Hn Hb Hm Hs Ha Ho.
  refine (fix IH (v : jsval) : P v :=
    match v with
    | JUndef => Hu | JNull => Hn | JBool b => Hb b | JNum n => Hm n | JStr s => Hs s
    | JArr l => Ha l ((fix go l := match l return Forall P l with
                                   | [] => @List.Forall_nil _ _
                                   | x :: l => @List.Forall_cons _ _ _ _ (IH x) (go l) end) l)
    | JObj kvs => Ho kvs ((fix go kvs := match kvs return Forall (λ kv, P kv.2) kvs with
                                         | [] => @List.Forall_nil _ _
                                         | (k, x) :: l => @List.Forall_cons _ _ _ _ (IH x : P (k, x).2) (go l)
                                         end) kvs)
    end).
Qed.

(** [record[field]]: [undefined] when the property is absent. *)
Fixpoint rget (r : record) (field : jstring) : jsval :=
  match r with
  | [] => JUndef
  | (k, v) :: r => if k =s? field then v else rget r field
  end.

(** [Object.prototype.hasOwnProperty.call(record, field)], [Object.keys]. *)
Definition has_own (r : record) (field : jstring) : bool := jmem field (map fst r).
Definition keys (r : record) : list jstring := map fst r.
Definition values (r : record) : list jsval := map snd r.

(** [value.field] on any value that is neither [null] nor [undefined]; the
    fields the code reads are not properties of primitives or arrays.  On the
    two nullish values the code only evaluates it after a guard or with [?.],
    where the result is [undefined] as well. *)
Definition jget (v : jsval) (field : jstring) : jsval :=
  match v with JObj r => rget r field | _ => JUndef end.

(** [typeof value === 'object' && value !== null && !Array.isArray(value)]. *)
Definition as_record (v : jsval) : option record :=
  match v with JObj r => Some r | _ => None end.
Definition is_record (v : jsval) : bool := match v with JObj _ => true | _ => false end.

(** [typeof value === '...'] and [value === null]. *)
Definition is_string (v : jsval) : bool := match v with JStr _ => true | _ => false end.
Definition is_boolean (v : jsval) : bool := match v with JBool _ => true | _ => false end.
Definition is_number (v : jsval) : bool := match v with JNum _ => true | _ => false end.
Definition is_null (v : jsval) : bool := match v with JNull => true | _ => false end.
Definition is_undef (v : jsval) : bool := match v with JUndef => true | _ => false end.
Definition as_string (v : jsval) : option jstring := match v with JStr s => Some s | _ => None end.
Definition as_array (v : jsval) : option (list jsval) := match v with JArr l => Some l | _ => None end.
Definition is_array (v : jsval) : bool := match v with JArr _ => true | _ => false end.

(** [value === true] and [value === 'literal']. *)
Definition is_true (v : jsval) : bool := match v with JBool b => b | _ => false end.
Definition is_lit (v : jsval) (s : jstring) : bool :=
  match v with JStr t => t =s? s | _ => false end.
Definition is_int (v : jsval) (z : Z) : bool :=
  match v with JNum (NInt y) => Z.eqb y z | _ => false end.

(** [allowed.includes(value)] for an array of string literals. *)
Definition is_one_of (v : jsval) (allowed : list jstring) : bool :=
  match v with JStr s => jmem s allowed | _ => false end.

(** [Number.isSafeInteger(value)] and the guard [... && value >= 0]. *)
Definition is_safe_integer (v : jsval) : bool :=
  match v with JNum n => num_safe n | _ => false end.
Definition is_safe_nonneg (v : jsval) : bool :=
  match v with JNum n => num_safe n && negb (num_neg n) | _ => false end.

(** Conversion to boolean. *)
Definition truthy (v : jsval) : bool :=
  match v with
  | JUndef | JNull => false
  | JBool b => b
  | JNum (NInt z) => negb (Z.eqb z 0)
  | JNum NNaN => false
  | JNum _ => true
  | JStr s => match s with [] => false | _ => true end
  | JArr _ | JObj _ => true
  end.

(** [a === b] for values that are not objects; distinct parsed objects and
    arrays are never identical. *)
Definition js_eqb (a b : jsval) : bool :=
  match a, b with
  | JUndef, JUndef | JNull, JNull => true
  | JBool x, JBool y => Bool.eqb x y
  | JNum x, JNum y => num_eqb x y
  | JStr x, JStr y => x =s? y
  | _, _ => false
  end.

(** ** Errors and the result monad *)

(** The error classes of the source ([ValidationError], [PathPolicyViolation],
    [AuthError], [ObtsBlockedError], ...), their codes, messages and details. *)
Inductive error_class :=
| EValidation | EPathPolicy | ERootIgnore | EAuth (status : Z) | EBlocked
| EGitCommand | EGitDurability | EGitMalformedPack | EGitMergeOwnership | EPlain
| ERemovalFailure (status : Z) (retryable : bool) | ERemovalSuperseded.

Record js_error := mk_error {
  err_class : error_class;
  err_code : jstring;
  err_message : jstring;
  err_details : record
}.

Inductive result (A : Type) :=
| Ok (a : A)
| Throw (e : js_error).
Arguments Ok {A} a.
Arguments Throw {A} e.

#[export] Instance Ok_inj A : Inj (=) (=) (@Ok A).
Proof. by intros x y [= ->]. Qed.


#[export] Instance result_ret : MRet result := @Ok.
#[export] Instance result_bind : MBind result := λ A B f m,
  match m with Ok a => f a | Throw e => Throw e end.
#[export] Instance result_fmap : FMap result := λ A B f m,
  match m with Ok a => Ok (f a) | Throw e => Throw e end.

Definition ValidationError (code message : jstring) (details : record) : js_error :=
  mk_error EValidation code message details.

Definition is_ok {A} (m : result A) : bool := match m with Ok _ => true | _ => false end.

(** Forgets how a computation failed. *)
Definition to_option {A} (m : result A) : option A :=
  match m with Ok a => Some a | Throw _ => None end.

Section result_laws.
Context {A B : Type}.

Lemma bind_Ok (m : result A) (f : A → result B) b :
  m ≫= f = Ok b ↔ ∃ a, m = Ok a ∧ f a = Ok b.
Proof. destruct m; cbn; naive_solver. Qed.

Lemma bind_Throw (m : result A) (f : A → result B) e :
  m ≫= f = Throw e ↔ m = Throw e ∨ ∃ a, m = Ok a ∧ f a = Throw e.
Proof. destruct m; cbn; naive_solver. Qed.

Lemma fmap_Ok (m : result A) (f : A → B) b :
  f <$> m = Ok b ↔ ∃ a, m = Ok a ∧ b = f a.
Proof. destruct m; cbn; naive_solver. Qed.

End result_laws.

Section traverse.
Context {A B : Type}.

(** A loop body applied to every element in order, stopping at the first throw. *)
Fixpoint traverse (f : A → result B) (l : list A) : result (list B) :=
  match l with
  | [] => Ok []
  | x :: l => y ← f x; ys ← traverse f l; Ok (y :: ys)
  end.

Lemma traverse_Ok f l k : traverse f l = Ok k ↔ Forall2 (λ x y, f x = Ok y) l k.
Proof.
  revert k; induction l as [|x l IH]; intros k; simpl.
  - split; [intros [= <-]; constructor|by inversion 1].
  - rewrite bind_Ok. setoid_rewrite bind_Ok. split.
    + intros (y & ? & ys & ?%IH & [= <-]). by constructor.
    + inversion 1 as [|? y ? ys ? H2]; subst. apply IH in H2. eauto 6.
Qed.

(** The error that escapes is the one of the first element that fails. *)
Lemma traverse_Throw f l e :
  traverse f l = Throw e ↔
  ∃ l1 x l2, l = l1 ++ x :: l2 ∧ Forall (λ y, is_ok (f y) = true) l1 ∧ f x = Throw e.
Proof.
  induction l as [|x l IH]; simpl.
  - split; [done|]. intros ([|] & ? & ? & ? & _); done.
  - rewrite bind_Throw. split.
    + intros [?|(y & Hy & Ht)]; [by exists [], x, l; auto|].
      apply bind_Throw in Ht as [Ht|(? & _ & [=])].
      apply IH in Ht as (l1 & z & l2 & -> & ? & ?).
      exists (x :: l1), z, l2. split; [done|]. split; [|done].
      constructor; [by rewrite Hy|done].
    + intros ([|w l1] & z & l2 & ? & Hf & ?); simplify_eq/=; [by left|].
      apply Forall_cons in Hf as [Hw Hf]. destruct (f w) eqn:E; [|done].
      right. eexists. split; [done|]. apply bind_Throw. left. apply IH. eauto 6.
Qed.
End traverse.

(** Inverts a hypothesis saying that a monadic computation returned. *)
Ltac inv_ok :=
  repeat match goal with
  | H : _ ≫= _ = Ok _ |- _ => apply bind_Ok in H as (? & ? & ?)
  | H : Ok _ = Ok _ |- _ => injection H as H; subst
  | H : Throw _ = Ok _ |- _ => discriminate H
  | H : (if ?b then _ else _) = Ok _ |- _ => destruct b eqn:?
  | H : match ?x with _ => _ end = Ok _ |- _ => destruct x eqn:?
  end; simplify_eq/=.

(** Splits conjunctions of boolean tests in the hypotheses. *)
Ltac split_tests :=
  repeat match goal with
  | H : _ && _ = true |- _ => apply andb_true_iff in H as [? ?]
  | H : _ || _ = false |- _ => apply orb_false_iff in H as [? ?]
  | H : negb _ = true |- _ => apply negb_true_iff in H
  | H : negb _ = false |- _ => apply negb_false_iff in H
  | H : jeqb _ _ = true |- _ => apply jeqb_eq in H
  | H : jeqb _ _ = false |- _ => apply jeqb_neq in H
  end.

(** ** Laws of records *)

Lemma rget_has_own r k : has_own r k = false → rget r k = JUndef.
Proof.
  unfold has_own. induction r as [|[k' v] r IH]; simpl; [done|].
  rewrite orb_false_iff, jeqb_sym. intros [-> ?]. auto.
Qed.

Lemma has_own_elem r k : has_own r k = true ↔ k ∈ keys r.
Proof. apply jmem_elem. Qed.

Lemma rget_elem r k v : NoDup (keys r) → (k, v) ∈ r → rget r k = v.
Proof.
  induction r as [|[k' v'] r IH]; simpl; intros Hnd Hin; [by apply not_elem_of_nil in Hin|].
  apply NoDup_cons in Hnd as [Hk Hnd].
  apply elem_of_cons in Hin as [[= -> ->]|Hin]; [by rewrite jeqb_refl|].
  destruct (jeqb_spec k' k) as [->|]; [|by apply IH].
  destruct Hk. unfold keys. apply list_elem_of_In, in_map_iff.
  exists (k, v). by rewrite <- list_elem_of_In.
Qed.

Lemma is_lit_eq v s : is_lit v s = true ↔ v = JStr s.
Proof. destruct v; simpl; try done. rewrite jeqb_eq. naive_solver. Qed.

Lemma is_one_of_spec v l : is_one_of v l = true ↔ ∃ s, v = JStr s ∧ s ∈ l.
Proof. destruct v; simpl; try naive_solver. rewrite jmem_elem. naive_solver. Qed.

Lemma is_safe_nonneg_spec v :
  is_safe_nonneg v = true ↔ ∃ z, v = JNum (NInt z) ∧ (0 ≤ z ≤ MAX_SAFE_INTEGER)%Z.
Proof.
  destruct v as [| | |[z| | |]| | |]; simpl; try naive_solver.
  rewrite andb_true_iff, negb_true_iff, Z.leb_le, Z.ltb_ge. split.
  - intros [? ?]. exists z. split; [done|lia].
  - intros (? & [= <-] & ?). lia.
Qed.

Lemma num_eqb_eq a b : num_eqb a b = true ↔ a = b ∧ a ≠ NNaN.
Proof.
  destruct a, b; simpl; rewrite ?andb_true_iff, ?Z.eqb_eq, ?Pos.eqb_eq, ?Bool.eqb_true_iff;
    naive_solver.
Qed.
