(* ===== verification/Dates.v ===== *)
(** * Clock readings and date strings

    The source stores instants as [Date.prototype.toISOString] text and reads
    them back with [Date.parse].  Instants are milliseconds since the epoch in
    [Z]; [to_iso] and [iso_parse] are the language's extended ISO format, whose
    round trip is proved here.  [Date.parse] of any other text is left to the
    engine: [Dates] names the whole function and [DatesOk] says only that it
    agrees with the format the language specifies. *)

From Stdlib Require Export DecimalN.
From S2P Require Export Prelude.

Local Open Scope Z_scope.

(** ** Decimal numerals *)

Fixpoint uint_units (d : Decimal.uint) : jstring :=
  match d with
  | Decimal.Nil => []
  | Decimal.D0 d => 48%N :: uint_units d
  | Decimal.D1 d => 49%N :: uint_units d
  | Decimal.D2 d => 50%N :: uint_units d
  | Decimal.D3 d => 51%N :: uint_units d
  | Decimal.D4 d => 52%N :: uint_units d
  | Decimal.D5 d => 53%N :: uint_units d
  | Decimal.D6 d => 54%N :: uint_units d
  | Decimal.D7 d => 55%N :: uint_units d
  | Decimal.D8 d => 56%N :: uint_units d
  | Decimal.D9 d => 57%N :: uint_units d
  end.

(** [String(n)] for an integer of fewer than 22 digits. *)
Definition dec (z : Z) : jstring :=
  if z <? 0 then 45%N :: uint_units (N.to_uint (Z.to_N (- z)))
  else uint_units (N.to_uint (Z.to_N z)).

Lemma uint_units_inj d e : uint_units d = uint_units e → d = e.
Proof. revert e; induction d; intros [] H; simpl in H; try done; injection H as H; f_equal; auto. Qed.

Lemma uint_units_digits d : Forall (λ c, (48 <= c <= 57)%N) (uint_units d).
Proof. induction d; simpl; constructor; try done; lia. Qed.

Lemma N_to_uint_inj a b : N.to_uint a = N.to_uint b → a = b.
Proof. intros H%(f_equal N.of_uint). by rewrite !DecimalN.Unsigned.of_to in H. Qed.

Lemma dec_inj a b : dec a = dec b → a = b.
Proof.
  unfold dec. intros H.
  assert (∀ d e, 45%N :: uint_units d ≠ uint_units e) as Hneg.
  { intros d e E. pose proof (uint_units_digits e) as Hd. rewrite <- E in Hd.
    inversion Hd; lia. }
  destruct (Z.ltb_spec a 0), (Z.ltb_spec b 0).
  - injection H as H. apply uint_units_inj, N_to_uint_inj in H. lia.
  - by apply Hneg in H.
  - symmetry in H. by apply Hneg in H.
  - apply uint_units_inj, N_to_uint_inj in H. lia.
Qed.

Lemma dec_no_nul z : NUL ∉ dec z.
Proof.
  assert (∀ d, NUL ∉ uint_units d) as Hu.
  { intros d Hin. pose proof (uint_units_digits d) as Hd. rewrite Forall_forall in Hd.
    apply Hd in Hin. unfold NUL in Hin. lia. }
  unfold dec. destruct (z <? 0); [|apply Hu].
  intros [H|H]%elem_of_cons; [done|by apply Hu in H].
Qed.

(** ** Civil dates *)

(** Days since the epoch to (year, month, day) and back, proleptic Gregorian,
    with the year starting in March so that the leap day comes last. *)
Definition civil_of_days (days : Z) : Z * Z * Z :=
  let z := days + 719468 in
  let era := z / 146097 in
  let doe := z mod 146097 in
  let yoe := (doe - doe / 1460 + doe / 36524 - doe / 146096) / 365 in
  let doy := doe - (365 * yoe + yoe / 4 - yoe / 100) in
  let mp := (5 * doy + 2) / 153 in
  let d := doy - (153 * mp + 2) / 5 + 1 in
  let m := if mp <? 10 then mp + 3 else mp - 9 in
  let y := yoe + era * 400 + (if m <=? 2 then 1 else 0) in
  (y, m, d).

Definition days_of_civil (y m d : Z) : Z :=
  let y' := if m <=? 2 then y - 1 else y in
  let era := y' / 400 in
  let yoe := y' mod 400 in
  let mp := if 2 <? m then m - 3 else m + 9 in
  let doy := (153 * mp + 2) / 5 + d - 1 in
  let doe := yoe * 365 + yoe / 4 - yoe / 100 + doy in
  era * 146097 + doe - 719468.

(** Ranges of the intermediate values. *)
Lemma year_of_era_bounds doe (yoe := (doe - doe / 1460 + doe / 36524 - doe / 146096) / 365) :
  0 <= doe < 146097 →
  0 <= yoe < 400 ∧ 0 <= doe - (365 * yoe + yoe / 4 - yoe / 100) <= 365.
Proof. subst yoe. intros H. split; [Z.to_euclidean_division_equations; lia|]. Z.to_euclidean_division_equations. lia. Qed.

Lemma civil_round_trip days :
  let '(y, m, d) := civil_of_days days in
  days_of_civil y m d = days ∧ 1 <= m <= 12 ∧ 1 <= d <= 31.
Proof.
  unfold civil_of_days. set (z := days + 719468).
  pose proof (Z.mod_pos_bound z 146097 ltac:(lia)) as Hdoe.
  pose proof (Z.div_mod z 146097 ltac:(lia)) as Hz.
  set (doe := z mod 146097) in *. set (era := z / 146097) in *.
  destruct (year_of_era_bounds doe Hdoe) as [Hyoe Hdoy].
  set (yoe := (doe - doe / 1460 + doe / 36524 - doe / 146096) / 365) in *.
  set (doy := doe - (365 * yoe + yoe / 4 - yoe / 100)) in *.
  assert (0 <= (5 * doy + 2) / 153 <= 11) as Hmp by (Z.to_euclidean_division_equations; lia).
  assert (0 <= doy - (153 * ((5 * doy + 2) / 153) + 2) / 5 <= 30) as Hd
    by (Z.to_euclidean_division_equations; lia).
  set (mp := (5 * doy + 2) / 153) in *.
  split; [|split; [destruct (Z.ltb_spec mp 10); lia|lia]].
  unfold days_of_civil.
  destruct (Z.ltb_spec mp 10).
  - destruct (Z.leb_spec (mp + 3) 2); [lia|]. destruct (Z.ltb_spec 2 (mp + 3)); [|lia].
    replace (yoe + era * 400 + 0) with (yoe + era * 400) by lia.
    rewrite Z.div_add, Z.mod_add, (Z.div_small yoe), (Z.mod_small yoe) by lia.
    replace (mp + 3 - 3) with mp by lia. subst doy. lia.
  - destruct (Z.leb_spec (mp - 9) 2); [|lia]. destruct (Z.ltb_spec 2 (mp - 9)); [lia|].
    replace (yoe + era * 400 + 1 - 1) with (yoe + era * 400) by lia.
    rewrite Z.div_add, Z.mod_add, (Z.div_small yoe), (Z.mod_small yoe) by lia.
    replace (mp - 9 + 9) with mp by lia. subst doy. lia.
Qed.

(** ** The ISO format *)

(** [n] decimal digits of a natural number, most significant first. *)
Fixpoint pad (n : nat) (z : Z) : jstring :=
  match n with
  | O => []
  | S n => pad n (z / 10) ++ [Z.to_N (48 + z mod 10)]
  end.

Fixpoint read_digits (n : nat) (acc : Z) (s : jstring) : option (Z * jstring) :=
  match n with
  | O => Some (acc, s)
  | S n =>
    match s with
    | c :: s =>
      if ((48 <=? c) && (c <=? 57))%N
      then read_digits n (acc * 10 + (Z.of_N c - 48)) s else None
    | [] => None
    end
  end.

Definition expect (c : N) (s : jstring) : option jstring :=
  match s with x :: s => if N.eqb x c then Some s else None | [] => None end.

(** [new Date(ms).toISOString()]. *)
Definition to_iso (ms : Z) : jstring :=
  let '(y, m, d) := civil_of_days (ms / 86400000) in
  let t := ms mod 86400000 in
  (if (0 <=? y) && (y <=? 9999) then pad 4 y
   else if y <? 0 then 45%N :: pad 6 (- y) else 43%N :: pad 6 y)
  ++ 45%N :: pad 2 m ++ 45%N :: pad 2 d ++ 84%N :: pad 2 (t / 3600000)
  ++ 58%N :: pad 2 (t / 60000 mod 60) ++ 58%N :: pad 2 (t / 1000 mod 60)
  ++ 46%N :: pad 3 (t mod 1000) ++ [90%N].

Definition read_year (s : jstring) : option (Z * jstring) :=
  match s with
  | c :: s' =>
    if N.eqb c 43 then read_digits 6 0 s'
    else if N.eqb c 45 then '(y, r) ← read_digits 6 0 s'; Some (- y, r)
    else read_digits 4 0 s
  | [] => None
  end.

(** [Date.parse] on that format. *)
Definition iso_parse (s : jstring) : option Z :=
  '(y, s) ← read_year s; s ← expect 45%N s;
  '(m, s) ← read_digits 2 0 s; s ← expect 45%N s;
  '(d, s) ← read_digits 2 0 s; s ← expect 84%N s;
  '(h, s) ← read_digits 2 0 s; s ← expect 58%N s;
  '(mi, s) ← read_digits 2 0 s; s ← expect 58%N s;
  '(sec, s) ← read_digits 2 0 s; s ← expect 46%N s;
  '(f, s) ← read_digits 3 0 s;
  if s =s? [90%N] then
    Some (days_of_civil y m d * 86400000 + h * 3600000 + mi * 60000 + sec * 1000 + f)
  else None.

(** Reading continues where a shorter read stopped. *)
Lemma read_digits_app n k acc a r v :
  read_digits n acc a = Some (v, []) →
  read_digits (n + k) acc (a ++ r) = read_digits k v r.
Proof.
  revert acc a. induction n as [|n IH]; intros acc a; simpl.
  - by intros [= -> ->].
  - destruct a as [|c a]; [done|]. simpl. destruct (_ && _); [apply IH|done].
Qed.

Lemma read_digit acc z s :
  0 <= z < 10 → read_digits 1 acc (Z.to_N (48 + z) :: s) = Some (acc * 10 + z, s).
Proof.
  intros Hz. cbn [read_digits].
  replace ((48 <=? Z.to_N (48 + z)) && (Z.to_N (48 + z) <=? 57))%N with true.
  - f_equal. f_equal. lia.
  - symmetry. apply andb_true_iff. split; apply N.leb_le; lia.
Qed.

Lemma read_digits_pad n acc z s :
  0 <= z < 10 ^ Z.of_nat n →
  read_digits n acc (pad n z ++ s) = Some (acc * 10 ^ Z.of_nat n + z, s).
Proof.
  assert (∀ z, 0 <= z < 10 ^ Z.of_nat n →
    read_digits n acc (pad n z) = Some (acc * 10 ^ Z.of_nat n + z, [])) as H.
  { induction n as [|n IH]; intros z' Hz; cbn [pad].
    { change (10 ^ Z.of_nat 0) with 1 in *. simpl. do 2 f_equal. lia. }
    rewrite Nat2Z.inj_succ, Z.pow_succ_r in * by lia.
    pose proof (Z.mod_pos_bound z' 10 ltac:(lia)). pose proof (Z.div_mod z' 10 ltac:(lia)).
    replace (S n) with (n + 1)%nat by lia.
    rewrite (read_digits_app _ _ _ _ _ _ (IH (z' / 10) ltac:(split; [lia|apply Z.div_lt_upper_bound; lia]))), read_digit by lia.
    f_equal. f_equal. lia. }
  intros Hz. replace n with (n + 0)%nat at 1 by lia.
  by rewrite (read_digits_app _ _ _ _ _ _ (H z Hz)).
Qed.

Lemma read_year_digit z s :
  0 <= z <= 9999 → read_year (pad 4 z ++ s) = Some (z, s).
Proof.
  intros Hz. transitivity (read_digits 4 0 (pad 4 z ++ s)); [|by rewrite read_digits_pad by lia].
  cbn [pad app]. unfold read_year.
  pose proof (Z.mod_pos_bound (z / 10 / 10 / 10) 10 ltac:(lia)).
  destruct (N.eqb_spec (Z.to_N (48 + z / 10 / 10 / 10 mod 10)) 43); [lia|].
  destruct (N.eqb_spec (Z.to_N (48 + z / 10 / 10 / 10 mod 10)) 45); [lia|done].
Qed.

(** The instants a [Date] can hold. *)
Definition in_date_range (ms : Z) : Prop := - 8640000000000000 <= ms <= 8640000000000000.

Lemma year_bounds ms : in_date_range ms →
  - 999999 <= (civil_of_days (ms / 86400000)).1.1 <= 999999.
Proof.
  unfold in_date_range, civil_of_days. intros Hms. cbn [fst].
  set (z := ms / 86400000 + 719468).
  assert (- 99280533 <= z <= 100719468) as Hz by (subst z; Z.to_euclidean_division_equations; lia).
  pose proof (Z.mod_pos_bound z 146097 ltac:(lia)) as Hdoe.
  destruct (year_of_era_bounds (z mod 146097) Hdoe) as [Hyoe _].
  assert (- 680 <= z / 146097 <= 690) by (Z.to_euclidean_division_equations; lia).
  destruct (_ <=? 2); lia.
Qed.

Theorem iso_parse_to_iso ms : in_date_range ms → iso_parse (to_iso ms) = Some ms.
Proof.
  intros Hms. pose proof (year_bounds ms Hms) as Hy.
  pose proof (civil_round_trip (ms / 86400000)) as Hc.
  unfold iso_parse, to_iso.
  destruct (civil_of_days (ms / 86400000)) as [[y m] d]. cbn [fst] in Hy.
  destruct Hc as (Hdays & Hm & Hd).
  pose proof (Z.mod_pos_bound ms 86400000 ltac:(lia)) as Ht.
  pose proof (Z.div_mod ms 86400000 ltac:(lia)) as Hdm.
  set (t := ms mod 86400000) in *.
  match goal with |- context [(if ?b then ?u else ?v) ++ ?r] => set (rest := r);
    assert (read_year ((if b then u else v) ++ rest) = Some (y, rest)) as -> end.
  { destruct (Z.leb_spec 0 y), (Z.leb_spec y 9999); cbn [andb]; [by apply read_year_digit| |..];
    destruct (Z.ltb_spec y 0); try lia; cbn [app read_year];
    rewrite read_digits_pad by (change (10 ^ Z.of_nat 6) with 1000000; lia);
    cbn [mbind option_bind]; f_equal; f_equal; lia. }
  subst rest. cbn [mbind option_bind].
  assert (∀ c s, expect c (c :: s) = Some s) as He by (intros; simpl; by rewrite N.eqb_refl).
  rewrite !He; cbn [mbind option_bind].
  assert (0 <= t / 3600000 < 100 ∧ 0 <= t / 60000 mod 60 < 100 ∧ 0 <= t / 1000 mod 60 < 100
    ∧ 0 <= t mod 1000 < 1000) as (? & ? & ? & ?) by (Z.to_euclidean_division_equations; lia).
  do 5 (rewrite read_digits_pad by (change (10 ^ Z.of_nat 2) with 100; lia);
    cbn [mbind option_bind]; rewrite He; cbn [mbind option_bind]).
  rewrite read_digits_pad by (change (10 ^ Z.of_nat 3) with 1000; lia).
  cbn [mbind option_bind]. rewrite jeqb_refl. f_equal.
  rewrite !Z.mul_0_l, !Z.add_0_l, Hdays.
  Z.to_euclidean_division_equations. lia.
Qed.

(** ** The engine's date parser *)

(** [Date.parse(text)]; [None] stands for [NaN]. *)
Class Dates := { date_parse : jstring → option Z }.

Class DatesOk (D : Dates) : Prop := {
  date_parse_iso ms : in_date_range ms → date_parse (to_iso ms) = Some ms
}.

(** An engine that accepts the specified format only. *)
#[export] Instance iso_dates : Dates := {| date_parse := iso_parse |}.
#[export] Instance iso_dates_ok : DatesOk iso_dates.
Proof. split. apply iso_parse_to_iso. Qed.

#[global] Arguments to_iso : simpl never.
#[global] Arguments iso_parse : simpl never.
#[global] Arguments dec : simpl never.
