(* ===== verification/Ids.v ===== *)
(** * Identifiers and secrets (src/shared/ids.ts)

    Identifiers are a prefix, ten base-32 digits of the creation time and ten
    random ones; secrets are base64url text of 32 random bytes.  The clock and
    the random source are the inputs of a transaction: [World] lists, for each
    call site of a transaction, the reading or the bytes it obtains. *)

From S2P Require Export Js Dates.

Local Open Scope Z_scope.

Definition CROCKFORD : jstring := lit "0123456789ABCDEFGHJKMNPQRSTVWXYZ".
Definition crockford (v : Z) : N := nth (Z.to_nat v) CROCKFORD 0%N.

(** The loop of [newId]: [n] digits of [value], most significant first. *)
Fixpoint crockford_time (n : nat) (value : Z) : jstring :=
  match n with
  | O => []
  | S n => crockford_time n (value / 32) ++ [crockford (value mod 32)]
  end.

Definition newId (prefix : jstring) (now : Z) (random : list N) : jstring :=
  prefix +:+ [95%N] +:+ crockford_time 10 now
    +:+ map (λ byte, crockford (Z.shiftr (Z.of_N byte) 3)) random.

(** [buffer.toString('base64url')]. *)
Definition base64url_char (v : N) : N :=
  nth (N.to_nat v) (lit "ABCDEFGHIJKLMNOPQRSTUVWXYZabcdefghijklmnopqrstuvwxyz0123456789-_") 0%N.

Fixpoint base64url (bytes : list N) : jstring :=
  match bytes with
  | a :: b :: c :: rest =>
    [base64url_char (a / 4); base64url_char (a mod 4 * 16 + b / 16);
     base64url_char (b mod 16 * 4 + c / 64); base64url_char (c mod 64)]%N ++ base64url rest
  | [a; b] =>
    [base64url_char (a / 4); base64url_char (a mod 4 * 16 + b / 16);
     base64url_char (b mod 16 * 4)]%N
  | [a] => [base64url_char (a / 4); base64url_char (a mod 4 * 16)]%N
  | [] => []
  end.

Definition newSecretToken (prefix : jstring) (random : list N) : jstring :=
  prefix +:+ [95%N] +:+ base64url random.

(** The readings of a transaction, by call site. *)
Record World := mk_World { w_now : nat → Z; w_random : nat → list N }.

(** [new Date(Date.now()).toISOString()], [newId] and [newSecretToken] at call site [i]. *)
Definition nowIso (w : World) (i : nat) : jstring := to_iso (w_now w i).
Definition new_id (w : World) (i : nat) (prefix : jstring) : jstring :=
  newId prefix (w_now w i) (w_random w i).
Definition new_secret (w : World) (i : nat) (prefix : jstring) : jstring :=
  newSecretToken prefix (w_random w i).

(** ** Identifiers sort by creation time *)

Lemma crockford_monotone a b :
  0 <= a < 32 → 0 <= b < 32 → N.compare (crockford a) (crockford b) = Z.compare a b.
Proof.
  intros Ha Hb.
  assert (forallb (λ a, forallb (λ b,
    match N.compare (crockford a) (crockford b), Z.compare a b with
    | Eq, Eq | Lt, Lt | Gt, Gt => true | _, _ => false end) (map Z.of_nat (seq 0 32)))
    (map Z.of_nat (seq 0 32)) = true) as H by (vm_compute; reflexivity).
  rewrite forallb_forall in H. specialize (H a).
  rewrite forallb_forall in H. specialize (fun h => H h b).
  assert (∀ z, 0 <= z < 32 → In z (map Z.of_nat (seq 0 32))) as Hin.
  { intros z Hz. apply in_map_iff. exists (Z.to_nat z). split; [lia|]. apply in_seq. lia. }
  specialize (H (Hin a Ha) (Hin b Hb)).
  by destruct (N.compare _ _), (Z.compare _ _).
Qed.

Lemma jcompare_app a b c d :
  length a = length b →
  jcompare (a ++ c) (b ++ d) = match jcompare a b with Eq => jcompare c d | r => r end.
Proof.
  revert b; induction a as [|x a IH]; intros [|y b] Hl; simpl in *; try done.
  destruct (N.compare x y); [apply IH; lia|done..].
Qed.

Lemma crockford_time_length n v : length (crockford_time n v) = n.
Proof. revert v; induction n as [|n IH]; intros v; simpl; [done|]. rewrite length_app, IH. simpl. lia. Qed.

Lemma crockford_time_compare n a b :
  0 <= a < 32 ^ Z.of_nat n → 0 <= b < 32 ^ Z.of_nat n →
  jcompare (crockford_time n a) (crockford_time n b) = Z.compare a b.
Proof.
  revert a b. induction n as [|n IH]; intros a b Ha Hb; cbn [crockford_time].
  - change (32 ^ Z.of_nat 0) with 1 in *. assert (a = b) as -> by lia. by rewrite Z.compare_refl.
  - rewrite Nat2Z.inj_succ, Z.pow_succ_r in * by lia.
    pose proof (Z.div_mod a 32 ltac:(lia)). pose proof (Z.div_mod b 32 ltac:(lia)).
    pose proof (Z.mod_pos_bound a 32 ltac:(lia)). pose proof (Z.mod_pos_bound b 32 ltac:(lia)).
    rewrite jcompare_app by by rewrite !crockford_time_length.
    rewrite IH by (split; [lia|apply Z.div_lt_upper_bound; lia]).
    cbn [jcompare]. rewrite crockford_monotone by lia.
    destruct (Z.compare_spec (a / 32) (b / 32)), (Z.compare_spec (a mod 32) (b mod 32)),
      (Z.compare_spec a b); try done; lia.
Qed.

(** [32^10] milliseconds reach past the year 37000. *)
Lemma newId_order prefix t1 t2 r1 r2 :
  0 <= t1 < t2 → t2 < 32 ^ 10 → newId prefix t1 r1 <s? newId prefix t2 r2 = true.
Proof.
  intros H1 H2. unfold newId, japp, jltb.
  rewrite jcompare_app, jcompare_refl, jcompare_app, jcompare_refl by done.
  rewrite jcompare_app by by rewrite !crockford_time_length.
  change (32 ^ 10) with (32 ^ Z.of_nat 10) in H2.
  rewrite crockford_time_compare by lia. by rewrite (proj2 (Z.compare_lt_iff t1 t2)) by lia.
Qed.

#[global] Arguments newId : simpl never.
#[global] Arguments newSecretToken : simpl never.
