(* ===== verification/Unicode.v ===== *)
(** * Unicode services of the JavaScript engine

    The Unicode tables behind [String.prototype.normalize], [toLowerCase],
    [localeCompare] and the property escapes are not part of the repository.
    [Unicode] names the functions the source calls and [UnicodeOk] the
    documented facts it relies on; [ascii_unicode] is a concrete engine on
    which every hypothesis can be discharged.  Surrogate pairs, code points and
    [trim] need no table and are defined outright. *)

From S2P Require Export Prelude.

Class Unicode := {
  nfc : jstring → jstring;                          (* s.normalize('NFC') *)
  to_lower : jstring → jstring;                     (* s.toLowerCase() *)
  locale_compare : jstring → jstring → comparison;  (* a.localeCompare(b) *)
  non_display : jstring → bool                      (* [\p{Cc}\p{Cf}\p{Cs}] occurs *)
}.

Definition is_ascii (s : jstring) : Prop := Forall (λ c, (c < 128)%N) s.

Definition ascii_lower (c : N) : N := if ((65 <=? c) && (c <=? 90))%N then (c + 32)%N else c.

Class UnicodeOk (U : Unicode) : Prop := {
  (** Normalization is idempotent and fixes ASCII text. *)
  nfc_idem s : nfc (nfc s) = nfc s;
  nfc_ascii s : is_ascii s → nfc s = s;
  (** Normalized text is closed under taking suffixes and prefixes. *)
  nfc_suffix a b : nfc (a ++ b) = a ++ b → nfc b = b;
  nfc_prefix a b : nfc (a ++ b) = a ++ b → nfc a = a;
  (** No character normalizes to a backslash except the backslash itself. *)
  nfc_backslash s : BACKSLASH ∈ nfc s → BACKSLASH ∈ s;
  (** A collation is a total preorder. *)
  locale_refl a : locale_compare a a = Eq;
  locale_antisym a b : locale_compare b a = CompOpp (locale_compare a b);
  locale_trans a b c :
    locale_compare a b ≠ Gt → locale_compare b c ≠ Gt → locale_compare a c ≠ Gt;
  (** A path sorts before the paths below it. *)
  locale_below d t : locale_compare d (d ++ SLASH :: t) = Lt;
  to_lower_ascii s : is_ascii s → to_lower s = map ascii_lower s
}.

(** An engine whose tables stop at ASCII. *)
#[export] Instance ascii_unicode : Unicode := {|
  nfc := id;
  to_lower := map ascii_lower;
  locale_compare := jcompare;
  non_display := existsb (λ c, (c <=? 31) || ((127 <=? c) && (c <=? 159)))%N
|}.

#[export] Instance ascii_unicode_ok : UnicodeOk ascii_unicode.
Proof.
  split; try done; simpl.
  - apply jcompare_refl.
  - intros a b. apply jcompare_antisym.
  - intros a b c Hab Hbc Hac.
    assert (jleb a c = true) as H; [|by unfold jleb in H; rewrite Hac in H].
    apply (jleb_trans _ b); unfold jleb.
    + by destruct (jcompare a b).
    + by destruct (jcompare b c).
  - intros d t. induction d as [|c d IH]; simpl; [done|]. by rewrite N.compare_refl.
Qed.

(** ** Code points *)

Definition is_lead (c : N) : bool := ((55296 <=? c) && (c <=? 56319))%N.
Definition is_trail (c : N) : bool := ((56320 <=? c) && (c <=? 57343))%N.

(** [Array.from(s).length]: surrogate pairs count once. *)
Fixpoint code_points (s : jstring) : nat :=
  match s with
  | [] => 0
  | c :: s' =>
    match s' with
    | d :: s'' => if is_lead c && is_trail d then S (code_points s'') else S (code_points s')
    | [] => 1
    end
  end.

(** ** [trim] *)

(** WhiteSpace and LineTerminator of the language specification. *)
Definition is_space (c : N) : bool :=
  ((9 <=? c) && (c <=? 13) || (c =? 32) || (c =? 160) || (c =? 5760) ||
   (8192 <=? c) && (c <=? 8202) || (c =? 8232) || (c =? 8233) || (c =? 8239) ||
   (c =? 8287) || (c =? 12288) || (c =? 65279))%N.

Fixpoint trim_start (s : jstring) : jstring :=
  match s with
  | [] => []
  | c :: s' => if is_space c then trim_start s' else s
  end.
Definition trim (s : jstring) : jstring := rev (trim_start (rev (trim_start s))).

(** [a.localeCompare(b) <= 0]. *)
Definition locale_leb `{Unicode} (a b : jstring) : bool :=
  match locale_compare a b with Gt => false | _ => true end.

Section locale_laws.
Context `{U : Unicode} {UOk : UnicodeOk U}.

Lemma locale_leb_total a b : locale_leb a b = true ∨ locale_leb b a = true.
Proof. unfold locale_leb. rewrite (locale_antisym a b). destruct (locale_compare a b); auto. Qed.

Lemma locale_leb_trans a b c : locale_leb a b = true → locale_leb b c = true → locale_leb a c = true.
Proof.
  unfold locale_leb. pose proof (locale_trans a b c) as H.
  destruct (locale_compare a b), (locale_compare b c), (locale_compare a c); try done;
    intros; exfalso; by apply H.
Qed.
End locale_laws.

Section trim_laws.
Lemma trim_start_suffix s : ∃ t, s = t ++ trim_start s ∧ forallb is_space t = true.
Proof.
  induction s as [|c s (t & Hs & Ht)]; simpl; [by exists []|].
  destruct (is_space c) eqn:E; [|by exists []].
  exists (c :: t). simpl. rewrite E, Ht. split; [by rewrite <- Hs|done].
Qed.

(** The result starts (and, reversed, ends) with a character that is not a space. *)
Lemma trim_start_head s c t : trim_start s = c :: t → is_space c = false.
Proof.
  induction s as [|d s IH]; simpl; [done|].
  destruct (is_space d) eqn:E; [done|]. by intros [= -> ->].
Qed.

Lemma trim_start_id s : (∀ c t, s = c :: t → is_space c = false) → trim_start s = s.
Proof. destruct s as [|c s]; simpl; [done|]. intros H. by rewrite (H c s eq_refl). Qed.

Lemma trim_sub s : ∃ a b, s = a ++ trim s ++ b.
Proof.
  unfold trim. destruct (trim_start_suffix s) as (a & Ha & _).
  destruct (trim_start_suffix (rev (trim_start s))) as (b & Hb & _).
  exists a, (rev b). rewrite <- rev_app_distr, <- Hb, rev_involutive. done.
Qed.

Lemma trim_idem s : trim (trim s) = trim s.
Proof.
  unfold trim at 1. rewrite (trim_start_id (trim s)).
  - unfold trim. rewrite rev_involutive.
    rewrite (trim_start_id (trim_start (rev (trim_start s)))); [done|].
    intros c t. apply trim_start_head.
  - intros c t Ht. unfold trim in Ht.
    destruct (trim_start_suffix (rev (trim_start s))) as (b & Hb & _).
    apply (f_equal (@rev N)) in Hb. rewrite rev_involutive, rev_app_distr in Hb.
    rewrite Ht in Hb. simpl in Hb. by eapply trim_start_head.
Qed.
End trim_laws.
