(* ===== verification/PathPolicy.v ===== *)
(** * Vault path policy (src/shared/pathPolicy.ts)

    Normalization of the paths a device may store in the vault, the exclusions
    of full-vault sync and the check of a whole tree.  A normalized path is
    described by [canonical]; [normalizeVaultPath] is proved to return exactly
    the canonical paths. *)

From S2P Require Export Unicode Regex Js.

Inductive PathPolicyResult :=
| PathOk (path : jstring)
| PathErr (code message : jstring) (details : record).

(** [/^[A-Za-z]:\//.test(p)]. *)
Definition has_drive (p : jstring) : bool :=
  match p with
  | c :: d :: e :: _ => is_alpha c && N.eqb d COLON && N.eqb e SLASH
  | _ => false
  end.

(** [/[\u0000-\u001f\u007f]/u.test(p)]. *)
Definition is_control (c : N) : bool := ((c <=? 31) || (c =? 127))%N.
Definition has_control (p : jstring) : bool := existsb is_control p.

Definition MAX_PATH_LENGTH : nat := 4096.

(** A segment that is empty or a traversal. *)
Definition bad_segment (seg : jstring) : bool :=
  (seg =s? "") || (seg =s? ".") || (seg =s? "..").

Section path_policy.
Context `{U : Unicode}.

Definition slashed (input : jstring) : jstring := nfc (replace_unit BACKSLASH SLASH input).

Definition strip_dot_slash (p : jstring) : jstring :=
  if starts_with "./" p then drop 2 p else p.

Definition normalizeVaultPath (input : jsval) : PathPolicyResult :=
  match input with
  | JStr ((_ :: _) as s) =>
    let slashPath := slashed s in
    let trimmedPrefix := strip_dot_slash slashPath in
    if starts_with "/" trimmedPrefix || has_drive trimmedPrefix
       || (trimmedPrefix =s? ".") || (trimmedPrefix =s? "..")
    then PathErr "invalid_path" "Vault path must be relative." []
    else if has_unit NUL trimmedPrefix || has_control trimmedPrefix
    then PathErr "invalid_path" "Vault path contains a control character." []
    else if (MAX_PATH_LENGTH <? length trimmedPrefix)%nat
    then PathErr "path_too_long" "Vault path exceeds the v1 path length limit." []
    else
      let segments := split_on SLASH trimmedPrefix in
      if existsb bad_segment segments
      then PathErr "invalid_path" "Vault path contains an empty or traversal segment." []
      else if default [] (head segments) =s? ".obts"
      then PathErr "excluded_internal_path" ".obts is client-local state and cannot be synced." []
      else if jmem ".git" segments
      then PathErr "excluded_git_path" "Visible .git directories cannot be synced." []
      else PathOk trimmedPrefix
  | _ => PathErr "invalid_path" "Vault path must be a non-empty string." []
  end.

(** [path.split('/').at(-1)]. *)
Definition basename (path : jstring) : jstring := default path (last (split_on SLASH path)).

Definition isOsOrEditorMetadata (path : jstring) : bool :=
  let b := basename path in
  (b =s? ".DS_Store") || (b =s? "Thumbs.db") || ends_with "~" b ||
  ends_with ".swp" b || ends_with ".tmp" b.

(** The exclusions that follow the metadata test. *)
Definition excluded_config (p : jstring) : bool :=
  (p =s? ".obsidian/workspace.json") || (p =s? ".obsidian/workspace-mobile.json") ||
  (p =s? ".obsidian/cache") || starts_with ".obsidian/cache/" p ||
  (p =s? ".obsidian/plugins/obts") || starts_with ".obsidian/plugins/obts/" p.

Definition isSyncableVaultPath (path : jsval) : bool :=
  match normalizeVaultPath path with
  | PathErr _ _ _ => false
  | PathOk cleanPath => negb (isOsOrEditorMetadata cleanPath) && negb (excluded_config cleanPath)
  end.

Definition PathPolicyViolation (code message : jstring) (details : record) : js_error :=
  mk_error EPathPolicy code message details.

Fixpoint assertSyncableTreePaths (paths : list jstring) : result unit :=
  match paths with
  | [] => Ok ()
  | path :: rest =>
    match normalizeVaultPath (JStr path) with
    | PathErr code message details =>
      Throw (PathPolicyViolation code message (details ++ [(lit "path", JStr path)]))
    | PathOk p =>
      if isSyncableVaultPath (JStr p) then assertSyncableTreePaths rest
      else Throw (PathPolicyViolation "excluded_path" "Vault path is excluded from full-vault sync."
                    [(lit "path", JStr p)])
    end
  end.

(** ** What a normalized path is *)

Record canonical (p : jstring) : Prop := {
  canonical_nfc : nfc p = p;
  canonical_backslash : BACKSLASH ∉ p;
  canonical_control : has_control p = false;
  canonical_length : length p ≤ MAX_PATH_LENGTH;
  canonical_drive : has_drive p = false;
  canonical_segments : Forall (λ seg, bad_segment seg = false) (split_on SLASH p);
  canonical_obts : head (split_on SLASH p) ≠ Some (lit ".obts");
  canonical_git : lit ".git" ∉ split_on SLASH p
}.

(** The tests of [normalizeVaultPath] after slash conversion and stripping. *)
Definition acceptable (p : jstring) : bool :=
  negb (starts_with "/" p || has_drive p || (p =s? ".") || (p =s? "..")) &&
  negb (has_unit NUL p || has_control p) && negb (MAX_PATH_LENGTH <? length p)%nat &&
  negb (existsb bad_segment (split_on SLASH p)) &&
  negb (default [] (head (split_on SLASH p)) =s? ".obts") &&
  negb (jmem ".git" (split_on SLASH p)).

Lemma normalizeVaultPath_acceptable s p :
  normalizeVaultPath (JStr s) = PathOk p ↔
  s ≠ [] ∧ p = strip_dot_slash (slashed s) ∧ acceptable p = true.
Proof.
  destruct s as [|c s]; [by split; [done|intros [? _]]|].
  cbn [normalizeVaultPath]. cbv zeta. set (q := strip_dot_slash _). unfold acceptable. split.
  - intros H.
    do 6 (match type of H with (if ?b then _ else _) = _ => destruct b eqn:? end; [discriminate H|]).
    injection H as <-. by repeat match goal with E : _ = false |- _ => rewrite E; clear E end.
  - intros (_ & -> & H). rewrite !andb_true_iff, !negb_true_iff in H.
    destruct H as [[[[[-> ->] ->] ->] ->] ->]. done.
Qed.

Lemma split_on_head_slash p : starts_with "/" p = true → head (split_on SLASH p) = Some [].
Proof.
  destruct p as [|c p]; [done|].
  change (starts_with "/" (c :: p)) with (N.eqb SLASH c && true).
  rewrite andb_true_r, N.eqb_eq. by intros <-.
Qed.

(** [acceptable] is the part of [canonical] that does not depend on Unicode. *)
Lemma acceptable_spec p :
  acceptable p = true ↔
  has_control p = false ∧ length p ≤ MAX_PATH_LENGTH ∧ has_drive p = false ∧
  Forall (λ seg, bad_segment seg = false) (split_on SLASH p) ∧
  head (split_on SLASH p) ≠ Some (lit ".obts") ∧ lit ".git" ∉ split_on SLASH p.
Proof.
  assert (Hbad : existsb bad_segment (split_on SLASH p) = false ↔
                 Forall (λ seg, bad_segment seg = false) (split_on SLASH p)).
  { induction (split_on SLASH p) as [|x l IH]; simpl; [split; constructor|].
    rewrite orb_false_iff, Forall_cons, IH. done. }
  assert (Hobts : (default [] (head (split_on SLASH p)) =s? ".obts") = false ↔
                  head (split_on SLASH p) ≠ Some (lit ".obts")).
  { rewrite jeqb_neq. destruct (split_on SLASH p) as [|x l] eqn:E; [by apply split_on_nonempty in E|].
    simpl. naive_solver. }
  assert (Hnul : has_control p = false → has_unit NUL p = false).
  { intros Hc. apply has_unit_false. intros Hin. unfold has_control in Hc.
    apply not_true_iff_false in Hc. apply Hc, existsb_exists. exists NUL.
    split; [by apply list_elem_of_In|done]. }
  assert (Hrel : Forall (λ seg, bad_segment seg = false) (split_on SLASH p) →
                 starts_with "/" p = false ∧ ((p =s? ".") = false) ∧ ((p =s? "..") = false)).
  { intros Hf. split; [|split].
    - apply not_true_iff_false. intros Hs. apply split_on_head_slash in Hs.
      destruct (split_on SLASH p); simplify_eq/=. by inversion Hf.
    - apply jeqb_neq. intros ->. by inversion Hf.
    - apply jeqb_neq. intros ->. by inversion Hf. }
  unfold acceptable. rewrite !andb_true_iff, !negb_true_iff, !orb_false_iff.
  rewrite Hbad, Hobts, jmem_not_elem, Nat.ltb_ge. naive_solver.
Qed.

Lemma strip_dot_slash_id p : bad_segment (default [] (head (split_on SLASH p))) = false →
  strip_dot_slash p = p.
Proof.
  unfold strip_dot_slash. destruct (starts_with "./" p) eqn:E; [|done].
  apply starts_with_spec in E as [q ->]. done.
Qed.

Lemma strip_dot_slash_suffix p : ∃ a, p = a ++ strip_dot_slash p.
Proof.
  unfold strip_dot_slash. destruct (starts_with "./" p); [|by exists []].
  exists (take 2 p). by rewrite take_drop.
Qed.

Lemma acceptable_nonempty p : acceptable p = true → p ≠ [].
Proof. intros (_ & _ & _ & Hs & _)%acceptable_spec ->. by inversion Hs. Qed.

Lemma acceptable_head p : acceptable p = true →
  bad_segment (default [] (head (split_on SLASH p))) = false.
Proof.
  intros (_ & _ & _ & Hs & _)%acceptable_spec.
  destruct (split_on SLASH p) eqn:E; [by apply split_on_nonempty in E|]. by inversion Hs.
Qed.

Context `{!UnicodeOk U}.

Lemma slashed_nfc s : nfc (slashed s) = slashed s.
Proof. apply nfc_idem. Qed.

Lemma slashed_backslash s : BACKSLASH ∉ slashed s.
Proof. intros H%nfc_backslash. by apply replace_unit_gone in H. Qed.

Lemma slashed_id p : nfc p = p → BACKSLASH ∉ p → slashed p = p.
Proof. intros Hn Hb. unfold slashed. by rewrite replace_unit_id. Qed.

Lemma canonical_acceptable p :
  canonical p ↔ nfc p = p ∧ BACKSLASH ∉ p ∧ acceptable p = true.
Proof.
  rewrite acceptable_spec. split; [intros []; naive_solver|].
  intros (? & ? & ? & ? & ? & ? & ? & ?). by constructor.
Qed.

(** Only canonical paths are returned. *)
Lemma normalizeVaultPath_canonical s p :
  normalizeVaultPath (JStr s) = PathOk p → canonical p.
Proof.
  intros (_ & -> & Hacc)%normalizeVaultPath_acceptable.
  apply canonical_acceptable. destruct (strip_dot_slash_suffix (slashed s)) as [a Ha].
  split; [|split; [|done]].
  - apply (nfc_suffix a). rewrite <- Ha. apply slashed_nfc.
  - intros Hin. apply (slashed_backslash s). rewrite Ha. set_solver.
Qed.

Lemma canonical_normalize p : canonical p → normalizeVaultPath (JStr p) = PathOk p.
Proof.
  intros (Hn & Hb & Hacc)%canonical_acceptable. apply normalizeVaultPath_acceptable.
  rewrite slashed_id, strip_dot_slash_id by eauto using acceptable_head.
  split; [|done]. by apply acceptable_nonempty.
Qed.

(** The policy's fixed points are the canonical paths. *)
Lemma normalizeVaultPath_fixpoint p :
  normalizeVaultPath (JStr p) = PathOk p ↔ canonical p.
Proof. split; [apply normalizeVaultPath_canonical|apply canonical_normalize]. Qed.

Lemma normalizeVaultPath_idem_aux s p :
  normalizeVaultPath (JStr s) = PathOk p → normalizeVaultPath (JStr p) = PathOk p.
Proof. intros H. by apply canonical_normalize, (normalizeVaultPath_canonical s). Qed.

Lemma isSyncableVaultPath_normalized s p :
  normalizeVaultPath (JStr s) = PathOk p →
  isSyncableVaultPath (JStr p) = isSyncableVaultPath (JStr s).
Proof.
  intros H. unfold isSyncableVaultPath. by rewrite H, (normalizeVaultPath_idem_aux _ _ H).
Qed.

Lemma isSyncableVaultPath_ok s :
  isSyncableVaultPath (JStr s) = true → ∃ p, normalizeVaultPath (JStr s) = PathOk p.
Proof. unfold isSyncableVaultPath. destruct (normalizeVaultPath (JStr s)); [eauto|done]. Qed.
End path_policy.

Arguments normalizeVaultPath {U} input : simpl never.
Arguments isSyncableVaultPath {U} path : simpl never.

(** ** Properties *)

Section properties.
Context {U : Unicode} {UOk : UnicodeOk U}.

(** [C18] Normalization accepts exactly the non-empty inputs whose slash-converted,
    NFC-normalized and ["./"]-stripped form is a canonical vault path (relative, no
    control character, no empty or traversal segment, at most 4096 code units, outside
    [.obts] and [.git]); it returns that form, and a second normalization changes
    nothing. *)
Theorem normalizeVaultPath_exact (s p : jstring) :
  (normalizeVaultPath (JStr s) = PathOk p ↔
   s ≠ [] ∧ p = strip_dot_slash (slashed s) ∧ canonical p) ∧
  (normalizeVaultPath (JStr s) = PathOk p → normalizeVaultPath (JStr p) = PathOk p).
Proof.
  split; [|apply normalizeVaultPath_idem_aux]. split.
  - intros H. pose proof (normalizeVaultPath_canonical _ _ H).
    by apply normalizeVaultPath_acceptable in H as (? & ? & ?).
  - intros (? & ? & (_ & _ & ?)%canonical_acceptable). by apply normalizeVaultPath_acceptable.
Qed.

(** The tree check passes exactly when every path is syncable; otherwise it throws the
    policy violation of the first path that is not, with the code of the path's own
    rejection or [excluded_path], and reports that path. *)
Theorem assertSyncableTreePaths_exact (paths : list jstring) :
  (assertSyncableTreePaths paths = Ok () ↔
   Forall (λ p, isSyncableVaultPath (JStr p) = true) paths) ∧
  (∀ e, assertSyncableTreePaths paths = Throw e →
    ∃ before p after, paths = before ++ p :: after ∧
      Forall (λ q, isSyncableVaultPath (JStr q) = true) before ∧
      isSyncableVaultPath (JStr p) = false ∧
      match normalizeVaultPath (JStr p) with
      | PathErr code message _ => err_code e = code ∧ err_message e = message
      | PathOk _ => err_code e = lit "excluded_path"
      end).
Proof.
  induction paths as [|p paths [IHok IHerr]]; simpl; [split; [split; [constructor|done]|done]|].
  assert (Hp : isSyncableVaultPath (JStr p) =
    match normalizeVaultPath (JStr p) with PathOk q => isSyncableVaultPath (JStr q) | _ => false end).
  { destruct (normalizeVaultPath (JStr p)) eqn:E.
    - symmetry. by apply isSyncableVaultPath_normalized.
    - unfold isSyncableVaultPath. by rewrite E. }
  rewrite Forall_cons, Hp. destruct (normalizeVaultPath (JStr p)) as [q|code message details] eqn:E;
    [destruct (isSyncableVaultPath (JStr q)) eqn:Eq|];
    (split; [first [rewrite IHok; split; [by split|by intros [_ ?]] |
                    split; [intros H; discriminate H|intros [H _]; discriminate H]]|]).
  - intros e (before & r & after & -> & Hb & Hr)%IHerr.
    exists (p :: before), r, after. split; [done|]. split; [|done].
    constructor; [by rewrite Hp|done].
  - intros e [= <-]. exists [], p, paths. split; [done|]. split; [constructor|].
    split; [done|]. by rewrite E.
  - intros e [= <-]. exists [], p, paths. split; [done|]. split; [constructor|].
    split; [done|]. by rewrite E.
Qed.
End properties.

(** Concrete instances of the properties above. *)

Lemma normalizeVaultPath_exact_witness :
  UnicodeOk ascii_unicode ∧
  (normalizeVaultPath (JStr "./notes\a.md") = PathOk "notes/a.md" ↔
   lit "./notes\a.md" ≠ [] ∧ lit "notes/a.md" = strip_dot_slash (slashed "./notes\a.md") ∧
   canonical "notes/a.md").
Proof.
  split; [exact ascii_unicode_ok|].
  exact (proj1 (@normalizeVaultPath_exact ascii_unicode ascii_unicode_ok "./notes\a.md" "notes/a.md")).
Defined.

Lemma assertSyncableTreePaths_exact_witness :
  UnicodeOk ascii_unicode ∧
  (assertSyncableTreePaths (lits ["notes/a.md"; "b.canvas"]) = Ok () ↔
   Forall (λ p, isSyncableVaultPath (JStr p) = true) (lits ["notes/a.md"; "b.canvas"])).
Proof.
  split; [exact ascii_unicode_ok|].
  exact (proj1 (@assertSyncableTreePaths_exact ascii_unicode ascii_unicode_ok
                  (lits ["notes/a.md"; "b.canvas"]))).
Defined.
