(* ===== verification/ClientPaths.v ===== *)
(** * Path predicates of the client (obsidian-plugin/src/main.cjs)

    The plugin carries its own path policy next to the server's
    (src/shared/pathPolicy.ts).  The two are proved to accept the same
    canonical paths, and the differences on raw input are characterised. *)

From S2P Require Export PathPolicy.

Section client_paths.
Context `{U : Unicode}.

Fixpoint strip_leading (c : N) (s : jstring) : jstring :=
  match s with
  | [] => []
  | x :: s' => if N.eqb x c then strip_leading c s' else s
  end.

Definition normalizePath (filePath : jstring) : jstring :=
  nfc (strip_leading SLASH (replace_unit BACKSLASH SLASH filePath)).

Definition isValidVaultPath (filePath : jstring) : bool :=
  if (filePath =s? "") || starts_with "../" filePath || starts_with "/" filePath
     || has_drive filePath
  then false
  else if has_unit NUL filePath || has_control filePath
          || (MAX_PATH_LENGTH <? length filePath)%nat
  then false
  else
    let segments := split_on SLASH filePath in
    if existsb bad_segment segments then false
    else negb (default [] (head segments) =s? ".obts") && negb (jmem ".git" segments).

Definition ObtsBlockedError (code message : jstring) (details : record) : js_error :=
  mk_error EBlocked code message details.

Definition assertValidLocalVaultPath (filePath : jstring) : result unit :=
  if isValidVaultPath filePath then Ok ()
  else Throw (ObtsBlockedError "invalid_path" "Vault path is invalid or cannot be synced."
                [(lit "path", JStr filePath)]).

(** [filePath.split("/").at(-1) || filePath]. *)
Definition basename_or_self (filePath : jstring) : jstring :=
  match last (split_on SLASH filePath) with
  | Some ((_ :: _) as b) => b
  | _ => filePath
  end.

Definition isOsOrEditorMetadata (filePath : jstring) : bool :=
  let b := basename_or_self filePath in
  (b =s? ".DS_Store") || (b =s? "Thumbs.db") || ends_with "~" b ||
  ends_with ".swp" b || ends_with ".tmp" b.

Definition isSyncableVaultPath (filePath : jstring) : bool :=
  let normalized := normalizePath filePath in
  if negb (isValidVaultPath normalized) then false
  else if isOsOrEditorMetadata normalized then false
  else if (normalized =s? ".obsidian/workspace.json")
          || (normalized =s? ".obsidian/workspace-mobile.json") then false
  else if (normalized =s? ".obsidian/cache") || starts_with ".obsidian/cache/" normalized then false
  else if (normalized =s? ".obsidian/plugins/obts")
          || starts_with ".obsidian/plugins/obts/" normalized then false
  else true.

(** [filePath.includes("/.git/")]. *)
Fixpoint includes (p s : jstring) : bool :=
  starts_with p s || match s with [] => false | _ :: s' => includes p s' end.

Definition isRecoverableApplyPath (filePath : jstring) : bool :=
  isSyncableVaultPath filePath ||
  (negb (filePath =s? ".obts") && negb (starts_with ".obts/" filePath) &&
   negb (filePath =s? ".git") && negb (starts_with ".git/" filePath) &&
   negb (includes "/.git/" filePath)).

Definition isSafeJournalPath (filePath : jstring) : bool :=
  (normalizePath filePath =s? filePath) && isValidVaultPath filePath.

(** ** Agreement with the server's policy *)

Lemma isValidVaultPath_acceptable p : isValidVaultPath p = acceptable p.
Proof.
  apply eq_true_iff_eq. unfold isValidVaultPath. split.
  - intros H. destruct (_ || has_drive p) eqn:E1; [done|]. destruct (_ || (_ <? _)) eqn:E2; [done|].
    destruct (existsb _ _) eqn:E3; [done|]. split_tests. unfold acceptable.
    rewrite !andb_true_iff, !negb_true_iff, !orb_false_iff, E3, !jeqb_neq.
    assert (∀ q, q = lit "." ∨ q = lit ".." → existsb bad_segment (split_on SLASH q) = true) as Hdots.
    { intros q [->| ->]; vm_compute; done. }
    assert (p ≠ lit "." ∧ p ≠ lit "..") as [? ?].
    { split; intros ->; rewrite Hdots in E3; eauto; congruence. }
    tauto.
  - intros Hacc. pose proof (acceptable_nonempty p Hacc) as Hne.
    pose proof (acceptable_head p Hacc) as Hh.
    unfold acceptable in Hacc. rewrite !andb_true_iff, !negb_true_iff, !orb_false_iff in Hacc.
    destruct Hacc as [[[[[[[[-> ->] _] _] [-> ->]] ->] ->] ->] ->].
    assert ((p =s? "") = false) as -> by by apply jeqb_neq.
    destruct (starts_with "../" p) eqn:E; [|done].
    apply starts_with_spec in E as [q ->]. done.
Qed.

Context `{!UnicodeOk U}.

Lemma strip_leading_id c s : starts_with [c] s = false → strip_leading c s = s.
Proof.
  destruct s as [|x s]; simpl; [done|]. rewrite andb_true_r, N.eqb_sym. by intros ->.
Qed.

Lemma strip_leading_suffix c s : ∃ a, s = a ++ strip_leading c s.
Proof.
  induction s as [|x s [a IH]]; simpl; [by exists []|].
  destruct (N.eqb x c); [|by exists []]. exists (x :: a). simpl. by rewrite <- IH.
Qed.

Lemma normalizePath_backslash s : BACKSLASH ∉ normalizePath s.
Proof.
  intros H%nfc_backslash. destruct (strip_leading_suffix SLASH (replace_unit BACKSLASH SLASH s)) as [a Ha].
  apply (replace_unit_gone BACKSLASH SLASH s); [done|]. rewrite Ha. set_solver.
Qed.

Lemma canonical_no_leading_slash p : canonical p → starts_with "/" p = false.
Proof.
  intros (_ & _ & Hacc)%canonical_acceptable. unfold acceptable in Hacc.
  rewrite !andb_true_iff, !negb_true_iff, !orb_false_iff in Hacc. tauto.
Qed.

Lemma normalizePath_canonical p : canonical p → normalizePath p = p.
Proof.
  intros Hc. pose proof (canonical_no_leading_slash p Hc) as Hs.
  destruct Hc as [Hn Hb _ _ _ _ _ _]. unfold normalizePath.
  rewrite replace_unit_id, strip_leading_id by done. done.
Qed.

Lemma isSafeJournalPath_canonical p : isSafeJournalPath p = true ↔ canonical p.
Proof.
  unfold isSafeJournalPath. rewrite andb_true_iff, jeqb_eq, isValidVaultPath_acceptable.
  split.
  - intros [Hn Hacc]. apply canonical_acceptable. split; [|split; [|done]].
    + rewrite <- Hn. apply nfc_idem.
    + rewrite <- Hn. apply normalizePath_backslash.
  - intros Hc. split; [by apply normalizePath_canonical|]. by apply canonical_acceptable in Hc as (_ & _ & ?).
Qed.

Lemma isOsOrEditorMetadata_agree p :
  Forall (λ seg, bad_segment seg = false) (split_on SLASH p) →
  isOsOrEditorMetadata p = PathPolicy.isOsOrEditorMetadata p.
Proof.
  intros Hf. unfold isOsOrEditorMetadata, PathPolicy.isOsOrEditorMetadata, basename_or_self, basename.
  destruct (last (split_on SLASH p)) as [b|] eqn:E; [|done]. simpl.
  destruct b; [|done]. apply last_Some in E as [l E]. rewrite E, Forall_app in Hf.
  destruct Hf as [_ Hf]. by inversion Hf.
Qed.

Lemma isSyncableVaultPath_agree p : canonical p →
  isSyncableVaultPath p = PathPolicy.isSyncableVaultPath (JStr p).
Proof.
  intros Hc. unfold isSyncableVaultPath, PathPolicy.isSyncableVaultPath.
  rewrite normalizePath_canonical, canonical_normalize by done.
  rewrite isValidVaultPath_acceptable.
  pose proof Hc as (_ & _ & Hacc)%canonical_acceptable. rewrite Hacc. simpl negb.
  rewrite isOsOrEditorMetadata_agree by apply Hc.
  cbv match. unfold excluded_config.
  destruct (PathPolicy.isOsOrEditorMetadata p); [done|].
  repeat match goal with |- context [(p =s? ?s)] => generalize (p =s? s); intros [] end;
    repeat match goal with |- context [starts_with ?s p] => generalize (starts_with s p); intros [] end;
    reflexivity.
Qed.
End client_paths.

Arguments normalizePath {U} filePath : simpl never.
Arguments isValidVaultPath filePath : simpl never.
Arguments isSyncableVaultPath {U} filePath : simpl never.
Arguments isSafeJournalPath {U} filePath : simpl never.

(** ** Properties *)

Section properties.
Context {U : Unicode} {UOk : UnicodeOk U}.

(** The client's journal-path test and the server's path policy agree: a path is safe
    for a client journal exactly when the server normalizes it to itself. *)
Theorem isSafeJournalPath_server_fixpoint (p : jstring) :
  isSafeJournalPath p = true ↔ normalizeVaultPath (JStr p) = PathOk p.
Proof. by rewrite isSafeJournalPath_canonical, normalizeVaultPath_fixpoint. Qed.

(** Client and server take the same exclusion decision on every path the server
    normalizes, so a file the client uploads is never rejected by the tree check and a
    file of the server's tree is never ignored by the client. *)
Theorem isSyncableVaultPath_client_server (s p : jstring) :
  normalizeVaultPath (JStr s) = PathOk p →
  isSyncableVaultPath p = PathPolicy.isSyncableVaultPath (JStr p) ∧
  PathPolicy.isSyncableVaultPath (JStr p) = PathPolicy.isSyncableVaultPath (JStr s).
Proof.
  intros H. split; [|by apply isSyncableVaultPath_normalized].
  by apply isSyncableVaultPath_agree, (normalizeVaultPath_canonical s).
Qed.
End properties.

(** Concrete instances of the properties above. *)

Lemma isSafeJournalPath_server_fixpoint_witness :
  UnicodeOk ascii_unicode ∧
  (isSafeJournalPath "a/b.md" = true ↔ normalizeVaultPath (JStr "a/b.md") = PathOk "a/b.md").
Proof.
  split; [exact ascii_unicode_ok|].
  exact (@isSafeJournalPath_server_fixpoint ascii_unicode ascii_unicode_ok "a/b.md").
Defined.

Lemma isSyncableVaultPath_client_server_witness :
  UnicodeOk ascii_unicode ∧
  isSyncableVaultPath ".obsidian/cache/x" = PathPolicy.isSyncableVaultPath (JStr ".obsidian/cache/x").
Proof.
  split; [exact ascii_unicode_ok|].
  refine (proj1 (@isSyncableVaultPath_client_server ascii_unicode ascii_unicode_ok
                   "./.obsidian/cache/x" ".obsidian/cache/x" _)).
  vm_compute. reflexivity.
Defined.
