(* ===== verification/ClientTrees.v ===== *)
(** * Path-tree algorithms of the client (obsidian-plugin/src/main.cjs)

    Prefix index, removal planning, topmost roots and materialization
    conflicts: each optimised routine is proved equal to (or a permutation of)
    the plain statement of what it computes. *)

From S2P Require Export ClientPaths.

(** ** Segments and prefixes *)

Definition directoryPrefixes (filePath : jstring) : list jstring :=
  let segments := split_on SLASH filePath in
  map (λ i, join_with SLASH (take i segments)) (seq 1 (length segments - 1)).

Definition changedPathsConflict (left right : jstring) : bool :=
  (left =s? right) || starts_with (right ++ [SLASH]) left || starts_with (left ++ [SLASH]) right.

(** The longest prefix before the last occurrence of a code unit:
    [s.slice(0, s.lastIndexOf(c))], when [c] occurs. *)
Fixpoint before_last (c : N) (s : jstring) : option jstring :=
  match s with
  | [] => None
  | x :: s =>
    match before_last c s with
    | Some t => Some (x :: t)
    | None => if N.eqb x c then Some [] else None
    end
  end.

Lemma split_on_app_sep c a b : split_on c (a ++ c :: b) = split_on c a ++ split_on c b.
Proof.
  induction a as [|x a IH]; simpl; [by rewrite N.eqb_refl|].
  destruct (N.eqb x c); [by rewrite IH|]. rewrite IH.
  destruct (split_on c a) eqn:E; [by apply split_on_nonempty in E|done].
Qed.

Lemma join_with_app c l k : l ≠ [] → k ≠ [] →
  join_with c (l ++ k) = join_with c l ++ c :: join_with c k.
Proof.
  intros Hl Hk. induction l as [|s l IH]; [done|]. destruct l as [|s' l].
  - destruct k; [done|]. done.
  - change (s ++ c :: join_with c ((s' :: l) ++ k) = (s ++ c :: join_with c (s' :: l)) ++ c :: join_with c k).
    rewrite IH by done. by rewrite <- app_assoc.
Qed.

(** The directory prefixes of a path are its proper ancestors. *)
Lemma directoryPrefixes_elem d p : d ∈ directoryPrefixes p ↔ below d p = true.
Proof.
  unfold directoryPrefixes. rewrite list_elem_of_In, in_map_iff, below_spec.
  assert (split_on SLASH p ≠ []) as Hne by apply split_on_nonempty. split.
  - intros (i & <- & Hi%in_seq). exists (join_with SLASH (drop i (split_on SLASH p))).
    rewrite <- join_with_app, take_drop.
    + by rewrite split_on_join.
    + intros E%(f_equal length). rewrite length_take in E. simpl in E. lia.
    + intros E%(f_equal length). rewrite length_drop in E. simpl in E. lia.
  - intros [t ->]. exists (length (split_on SLASH d)). rewrite split_on_app_sep.
    rewrite take_app_length, split_on_join. split; [done|]. apply in_seq.
    rewrite length_app. pose proof (split_on_nonempty SLASH d) as H1.
    pose proof (split_on_nonempty SLASH t) as H2.
    destruct (split_on SLASH d), (split_on SLASH t); simpl; try done; lia.
Qed.

Lemma changedPathsConflict_spec a b :
  changedPathsConflict a b = true ↔ covers a b = true ∨ covers b a = true.
Proof.
  unfold changedPathsConflict, covers. fold (below b a) (below a b).
  rewrite !orb_true_iff, !jeqb_eq. naive_solver.
Qed.

Lemma changedPathsConflict_sym a b : changedPathsConflict a b = changedPathsConflict b a.
Proof. apply eq_true_iff_eq. rewrite !changedPathsConflict_spec. naive_solver. Qed.

Lemma before_last_Some c s t :
  before_last c s = Some t ↔ ∃ u, s = t ++ c :: u ∧ c ∉ u.
Proof.
  revert t; induction s as [|x s IH]; intros t; simpl.
  - split; [done|]. intros (u & H & _). by destruct t.
  - destruct (before_last c s) as [t'|] eqn:E.
    + destruct (proj1 (IH t') eq_refl) as (u & -> & Hu). split.
      * intros [= <-]. by exists u.
      * intros (u' & H & Hu'). destruct t as [|y t]; simplify_list_eq; [set_solver|].
        f_equal. f_equal. apply (inj Some), IH. eauto.
    + assert (c ∉ s) as Hs.
      { intros Hin. apply list_elem_of_split_r in Hin as (l1 & l2 & -> & Hn).
        assert (None = Some l1) as [=]. apply IH. eauto. }
      destruct (N.eqb_spec x c) as [->|Hne]; split.
      * intros [= <-]. by exists s.
      * intros (u & H & Hu). destruct t as [|y t]; simplify_list_eq; [done|set_solver].
      * done.
      * intros (u & H & Hu). destruct t as [|y t]; simplify_list_eq; set_solver.
Qed.

Lemma before_last_None c s : before_last c s = None ↔ c ∉ s.
Proof.
  split.
  - intros E Hin. apply list_elem_of_split_r in Hin as (l1 & l2 & -> & Hn).
    assert (before_last c (l1 ++ c :: l2) = Some l1) by (apply before_last_Some; eauto). congruence.
  - intros Hn. destruct (before_last c s) as [t|] eqn:E; [|done].
    apply before_last_Some in E as (u & -> & _). set_solver.
Qed.

(** ** The sorted prefix index ([indexPaths]) *)

Section index_paths.
Context {A : Type}.

(** [byPath]: the values of each path, in entry order. *)
Definition by_path (entries : list (jstring * A)) : jmap (list A) :=
  fold_left (λ m e, mset m e.1 (default [] (mget m e.1) ++ [e.2])) entries [].

Definition index_keys (m : jmap (list A)) : list jstring := sort_strings (mkeys m).

(** The bisection: the first key that is not below [prefix] in code-unit order. *)
Fixpoint lower_bound (fuel : nat) (keys : list jstring) (prefix : jstring) (lo hi : nat) : nat :=
  match fuel with
  | O => lo
  | S fuel =>
    if (lo <? hi)%nat then
      let mid := ((lo + hi) / 2)%nat in
      if nth mid keys [] <s? prefix then lower_bound fuel keys prefix (S mid) hi
      else lower_bound fuel keys prefix lo mid
    else lo
  end.

Fixpoint take_while (f : jstring → bool) (l : list jstring) : list jstring :=
  match l with
  | [] => []
  | x :: l => if f x then x :: take_while f l else []
  end.

Definition descendants (m : jmap (list A)) (p : jstring) : list (jstring * A) :=
  let keys := index_keys m in
  let prefix := p ++ [SLASH] in
  let lo := lower_bound (S (length keys)) keys prefix 0 (length keys) in
  k ← take_while (starts_with prefix) (drop lo keys);
  pair k <$> default [] (mget m k).

(** The ancestor walk: [p], its parent, ... while non-empty. *)
Fixpoint ancestors (fuel : nat) (p : jstring) : list jstring :=
  match fuel, p with
  | S fuel, _ :: _ => p :: match before_last SLASH p with Some q => ancestors fuel q | None => [] end
  | _, _ => []
  end.

Definition overlap (m : jmap (list A)) (p : jstring) : list A :=
  map snd (descendants m p) ++
  (a ← ancestors (length p) p; default [] (mget m a)).

(** *** The map of entries *)

Lemma by_path_spec entries p v :
  v ∈ default [] (mget (by_path entries) p) ↔ (p, v) ∈ entries.
Proof.
  unfold by_path. assert (∀ m, v ∈ default [] (mget (fold_left (λ m e, mset m e.1
    (default [] (mget m e.1) ++ [e.2])) entries m) p) ↔
    v ∈ default [] (mget m p) ∨ (p, v) ∈ entries) as H; [|rewrite H; simpl; set_solver].
  induction entries as [|[q w] entries IH]; intros m; simpl; [set_solver|].
  rewrite IH, mget_mset, elem_of_cons. destruct (jeqb_spec q p) as [->|Hne]; simpl.
  - rewrite elem_of_app, list_elem_of_singleton. naive_solver.
  - naive_solver.
Qed.

Lemma by_path_NoDup entries : NoDup (mkeys (by_path entries)).
Proof.
  unfold by_path. assert (∀ m, NoDup (mkeys m) → NoDup (mkeys (fold_left (λ (m : jmap (list A)) e,
    mset m e.1 (default [] (mget m e.1) ++ [e.2])) entries m))) as H; [|apply H; constructor].
  induction entries as [|e entries IH]; intros m Hm; simpl; [done|]. by apply IH, NoDup_mset.
Qed.

(** *** Bisection *)

(** [lo] is the partition point of the monotone test [key < prefix]. *)
Lemma lower_bound_spec fuel keys prefix lo hi :
  hi ≤ length keys → hi - lo < fuel → lo ≤ hi →
  StronglySorted (λ a b, jleb a b = true) keys →
  (∀ i k, i < lo → keys !! i = Some k → jltb k prefix = true) →
  (∀ i k, hi ≤ i → keys !! i = Some k → jltb k prefix = false) →
  let r := lower_bound fuel keys prefix lo hi in
  (∀ i k, i < r → keys !! i = Some k → jltb k prefix = true) ∧
  (∀ i k, r ≤ i → keys !! i = Some k → jltb k prefix = false).
Proof.
  intros Hhi Hfuel Hle Hs. revert lo hi Hhi Hfuel Hle.
  induction fuel as [|fuel IH]; intros lo hi Hhi Hfuel Hle Hlo Hup; [lia|].
  cbn [lower_bound]. cbv zeta.
  destruct (Nat.ltb_spec lo hi) as [Hlt|]; [|assert (lo = hi) as -> by lia; done].
  assert (lo ≤ (lo + hi) / 2 < hi) as [Hm1 Hm2].
  { split; [apply Nat.div_le_lower_bound; lia|apply Nat.Div0.div_lt_upper_bound; lia]. }
  set (mid := ((lo + hi) / 2)%nat) in *.
  destruct (lookup_lt_is_Some_2 keys mid) as [km Hkm]; [lia|].
  rewrite (nth_lookup_Some _ _ _ _ Hkm).
  assert (∀ i j a b, i ≤ j → keys !! i = Some a → keys !! j = Some b → jleb a b = true) as Hmono.
  { intros i j a b Hij Ha Hb. destruct (decide (i = j)) as [->|]; [simplify_eq; apply jleb_refl|].
    eapply (sorted_lookup (λ a b, jleb a b = true) keys i j); eauto; lia. }
  destruct (jltb km prefix) eqn:E; apply IH; try lia; try done.
  - intros i k Hi Hk. assert (jleb k km = true) as H%jleb_cases by (eapply (Hmono i mid); eauto; lia).
    destruct H as [H| ->]; eauto using jltb_trans.
  - intros i k Hi Hk. assert (jleb km k = true) as H by (eapply (Hmono mid i); eauto).
    apply not_true_iff_false. intros Hkp. apply jleb_cases in H as [H| ->]; [|congruence].
    rewrite (jltb_trans _ _ _ H Hkp) in E. done.
Qed.

Lemma take_while_filter prefix keys :
  StronglySorted (λ a b, jleb a b = true) keys →
  Forall (λ k, jltb k prefix = false) keys →
  take_while (starts_with prefix) keys = List.filter (starts_with prefix) keys.
Proof.
  induction 1 as [|k keys Hs IH Hk]; simpl; intros Hge; [done|].
  apply Forall_cons in Hge as [Hge Hges].
  destruct (starts_with prefix k) eqn:E; [by rewrite IH|].
  symmetry. apply filter_none. intros k' Hin. rewrite Forall_forall in Hk.
  apply not_true_iff_false. intros E'.
  assert (starts_with prefix k = true); [|congruence].
  apply (starts_with_between prefix k k'); [by rewrite jleb_ltb, Hge|by apply Hk|done].
Qed.

(** The bisection followed by the scan selects exactly the keys under [p]. *)
Lemma descendants_keys keys prefix :
  StronglySorted (λ a b, jleb a b = true) keys →
  take_while (starts_with prefix)
    (drop (lower_bound (S (length keys)) keys prefix 0 (length keys)) keys) =
  List.filter (starts_with prefix) keys.
Proof.
  intros Hs. destruct (lower_bound_spec (S (length keys)) keys prefix 0 (length keys)) as [Hlo Hup];
    try done; try lia.
  { intros i k Hi Hk. apply lookup_lt_Some in Hk. lia. }
  set (r := lower_bound _ _ _ _ _) in *.
  rewrite take_while_filter.
  - rewrite <- (take_drop r keys) at 2. rewrite List.filter_app.
    enough (List.filter (starts_with prefix) (take r keys) = []) as -> by done.
    assert (Forall (λ k, jltb k prefix = true) (take r keys)) as Hf.
    { apply Forall_lookup. intros i k Hk. apply lookup_take_Some in Hk as [Hk Hi]. eauto. }
    rewrite Forall_forall in Hf. apply filter_none. intros k Hk%Hf.
    apply not_true_iff_false. intros E%starts_with_le. by rewrite jleb_ltb, Hk in E.
  - rewrite <- (take_drop r keys) in Hs. by apply StronglySorted_app in Hs as (_ & _ & ?).
  - apply Forall_lookup. intros i k Hk. rewrite lookup_drop in Hk. eapply (Hup (r + i)); eauto; lia.
Qed.

Lemma descendants_filter m p :
  descendants m p =
  (k ← List.filter (below p) (index_keys m); pair k <$> default [] (mget m k)).
Proof. unfold descendants. by rewrite descendants_keys by apply sort_strings_sorted. Qed.

Lemma descendants_elem entries p k v :
  (k, v) ∈ descendants (by_path entries) p ↔ (k, v) ∈ entries ∧ below p k = true.
Proof.
  rewrite descendants_filter, list_elem_of_bind. setoid_rewrite list_elem_of_fmap.
  setoid_rewrite by_path_spec. split.
  - intros (k' & (v' & [= -> ->] & Hin) & Hk). apply filter_elem in Hk. naive_solver.
  - intros [Hin Hb]. exists k. split; [by exists v|].
    apply filter_elem. split; [|done].
    unfold index_keys, sort_strings. rewrite isort_elem.
    apply mget_keys. apply by_path_spec in Hin.
    destruct (mget (by_path entries) k); [done|by apply not_elem_of_nil in Hin].
Qed.

(** The ancestor walk visits the non-empty paths that cover [p]. *)
Lemma ancestors_elem fuel p a : length p ≤ fuel →
  a ∈ ancestors fuel p ↔ a ≠ [] ∧ covers a p = true.
Proof.
  revert p; induction fuel as [|fuel IH]; intros p Hp.
  - destruct p; [|simpl in Hp; lia]. simpl. rewrite elem_of_nil. split; [done|].
    intros [Hne Hc%covers_length]. destruct a; [done|simpl in Hc; lia].
  - destruct p as [|c p].
    { simpl. rewrite elem_of_nil. split; [done|]. intros [Hne Hc%covers_length].
      destruct a; [done|simpl in Hc; lia]. }
    cbn [ancestors]. rewrite elem_of_cons, covers_spec, below_spec.
    destruct (before_last SLASH (c :: p)) as [q|] eqn:E.
    + apply before_last_Some in E as (u & E & Hu). rewrite IH.
      * rewrite covers_spec, below_spec, E. split.
        -- intros [->|(? & [->|(t & ->)])]; [split; [|by left]|split; [done|right]..].
           ++ rewrite <- E. done.
           ++ by exists u.
           ++ exists (t ++ SLASH :: u). by rewrite <- app_assoc.
        -- intros [? [->|(t & Ht)]]; [by left|]. right. split; [done|].
           assert (before_last SLASH (q ++ SLASH :: u) = Some q) as Hq by (apply before_last_Some; eauto).
           rewrite Ht in Hq.
           destruct (decide (SLASH ∈ t)) as [Hin|Hn].
           ++ right. apply list_elem_of_split_r in Hin as (t1 & t2 & -> & Hn).
              exists t1. apply (inj Some). rewrite <- Hq. apply before_last_Some.
              exists t2. split; [|done]. by rewrite <- app_assoc.
           ++ left. apply (inj Some). rewrite <- Hq. apply before_last_Some. eauto.
      * apply (f_equal length) in E. rewrite length_app in E. simpl in E, Hp. lia.
    + apply before_last_None in E. rewrite elem_of_nil. split.
      * intros [->|[]]. auto.
      * intros [? [->|(t & Ht)]]; [by left|]. destruct E. rewrite Ht. set_solver.
Qed.

Lemma overlap_elem entries p v : Forall (λ e, e.1 ≠ []) entries →
  v ∈ overlap (by_path entries) p ↔
  ∃ q, (q, v) ∈ entries ∧ changedPathsConflict q p = true.
Proof.
  intros Hne. unfold overlap. rewrite elem_of_app, list_elem_of_bind.
  setoid_rewrite by_path_spec. setoid_rewrite ancestors_elem; [|done].
  setoid_rewrite changedPathsConflict_spec. setoid_rewrite covers_spec.
  rewrite list_elem_of_In, in_map_iff. setoid_rewrite <- list_elem_of_In.
  rewrite Forall_forall in Hne. split.
  - intros [([k w] & <- & [? ?]%descendants_elem)|(q & ? & ? & ?)]; naive_solver.
  - intros (q & Hq & [[->|?]|[->|?]]); pose proof (Hne _ Hq) as Hq0; simpl in Hq0.
    + right. naive_solver.
    + right. naive_solver.
    + right. naive_solver.
    + left. exists (q, v). split; [done|]. by apply descendants_elem.
Qed.
End index_paths.

(** ** Materialization conflicts and empty directories *)

Definition materializationConflictFiles (targetFiles localVaultFiles : list jstring) : list jstring :=
  sort_strings (js_set
    (targetFile ← targetFiles;
     List.filter (λ localFile, starts_with (targetFile ++ [SLASH]) localFile) localVaultFiles ++
     List.filter (λ prefix, jmem prefix localVaultFiles) (directoryPrefixes targetFile))).

Definition explicitEmptyDirectories (directories files : list jstring) : list jstring :=
  sort_strings (List.filter
    (λ directory, negb (existsb (λ filePath, starts_with (directory ++ [SLASH]) filePath) files))
    directories).

Lemma materializationConflictFiles_elem target local f :
  f ∈ materializationConflictFiles target local ↔
  f ∈ local ∧ ∃ t, t ∈ target ∧ (below t f = true ∨ below f t = true).
Proof.
  unfold materializationConflictFiles, sort_strings.
  rewrite isort_elem, js_set_elem, list_elem_of_bind.
  setoid_rewrite elem_of_app. setoid_rewrite filter_elem.
  setoid_rewrite directoryPrefixes_elem. setoid_rewrite jmem_elem. naive_solver.
Qed.

Lemma materializationConflictFiles_sorted target local :
  strictly_sorted (materializationConflictFiles target local).
Proof. apply sort_strings_strict, js_set_NoDup. Qed.

Lemma explicitEmptyDirectories_elem directories files d :
  d ∈ explicitEmptyDirectories directories files ↔
  d ∈ directories ∧ ∀ f, f ∈ files → below d f = false.
Proof.
  unfold explicitEmptyDirectories, sort_strings. rewrite isort_elem, filter_elem, negb_true_iff.
  apply and_iff_compat_l. rewrite <- not_true_iff_false, existsb_exists. split.
  - intros H f Hf. apply not_true_iff_false. intros Hb. apply H. exists f.
    by rewrite <- list_elem_of_In.
  - intros H (f & Hf & Hb). rewrite <- list_elem_of_In in Hf. specialize (H f Hf).
    unfold below in H. congruence.
Qed.

(** ** Batching *)

(** [chunks(items, size)]: the loop advances by [size]; it does not terminate
    for [size = 0], which is the [None] of the model. *)
Fixpoint chunks_from {A} (fuel : nat) (items : list A) (size : nat) : option (list (list A)) :=
  match items, fuel with
  | [], _ => Some []
  | _, O => None
  | _, S fuel => cons (take size items) <$> chunks_from fuel (drop size items) size
  end.
Definition chunks {A} (items : list A) (size : nat) : option (list (list A)) :=
  chunks_from (length items) items size.

Lemma chunks_from_total {A} fuel (items : list A) size : 0 < size → length items ≤ fuel →
  ∃ bs, chunks_from fuel items size = Some bs ∧ concat bs = items ∧
        Forall (λ b, 0 < length b ≤ size) bs.
Proof.
  intros Hs. revert items; induction fuel as [|fuel IH]; intros items Hf.
  - destruct items; [|simpl in Hf; lia]. by exists [].
  - destruct items as [|x items]; [by exists []|].
    cbn [chunks_from].
    destruct (IH (drop size (x :: items))) as (bs & -> & Hc & Hb).
    { rewrite length_drop. simpl in *. lia. }
    exists (take size (x :: items) :: bs). split; [done|]. split.
    + change (take size (x :: items) ++ concat bs = x :: items). by rewrite Hc, take_drop.
    + constructor; [|done]. rewrite length_take. simpl. lia.
Qed.

Section collated.
Context `{U : Unicode}.

(** ** Topmost directories *)

(** [left.length - right.length || left.localeCompare(right)]. *)
Definition shorter_first (left right : jstring) : bool :=
  match Nat.compare (length left) (length right) with
  | Lt => true | Gt => false | Eq => locale_leb left right
  end.

Definition topmost_step (result : list jstring) (directory : jstring) : list jstring :=
  if existsb (λ parent, (directory =s? parent) || starts_with (parent ++ [SLASH]) directory) result
  then result else result ++ [directory].

Definition topmostDirectories (directories : list jstring) : list jstring :=
  fold_left topmost_step (isort shorter_first (js_set directories)) [].

(** ** Removal order *)

Definition depth (p : jstring) : nat := length (split_on SLASH p).

(** [compareDeepestPathFirst(left, right) <= 0]. *)
Definition deepest_first (left right : jstring) : bool :=
  match Nat.compare (depth right) (depth left) with
  | Lt => true | Gt => false | Eq => locale_leb left right
  end.

Definition is_leaf_in (remaining : list jstring) (candidate : jstring) : bool :=
  negb (existsb (λ other, negb (other =s? candidate) && starts_with (candidate ++ [SLASH]) other)
          remaining).

Fixpoint removal_loop (fuel : nat) (remaining : list jstring) : result (list (list jstring)) :=
  match remaining, fuel with
  | [], _ => Ok []
  | _, O => Throw (mk_error EPlain "out_of_fuel" "" [])
  | _, S fuel =>
    let batch := isort deepest_first (List.filter (is_leaf_in remaining) remaining) in
    if (length batch =? 0)%nat
    then Throw (mk_error EPlain "" "Could not plan dependency-safe apply removals." [])
    else batches ← removal_loop fuel (List.filter (λ p, negb (jmem p batch)) remaining);
         Ok (batch :: batches)
  end.

Definition dependencySafeRemovalBatches (paths : list jstring) : result (list (list jstring)) :=
  removal_loop (length (js_set paths)) (js_set paths).

(** *** Leaves exist *)

Lemma is_leaf_in_spec remaining c :
  is_leaf_in remaining c = true ↔ ∀ o, o ∈ remaining → below c o = false.
Proof.
  unfold is_leaf_in. rewrite negb_true_iff, <- not_true_iff_false, existsb_exists. split.
  - intros H o Ho. apply not_true_iff_false. intros Hb. apply H. exists o.
    rewrite <- list_elem_of_In. split; [done|]. rewrite andb_true_iff. split; [|done].
    apply negb_true_iff, jeqb_neq. intros ->. by rewrite below_irrefl in Hb.
  - intros H (o & Ho & [_ Hb]%andb_true_iff). rewrite <- list_elem_of_In in Ho.
    specialize (H o Ho). unfold below in H. congruence.
Qed.

Lemma longest_exists (l : list jstring) :
  l ≠ [] → ∃ x, x ∈ l ∧ ∀ y, y ∈ l → length y ≤ length x.
Proof.
  induction l as [|x l IH]; [done|]. intros _. destruct l as [|z l].
  - exists x. split; [by left|]. intros y ->%list_elem_of_singleton. done.
  - destruct IH as (w & Hw & Hmax); [done|]. destruct (decide (length w ≤ length x)).
    + exists x. split; [by left|]. intros y [->|Hy]%elem_of_cons; [done|].
      specialize (Hmax y Hy). lia.
    + exists w. split; [by right|]. intros y [->|Hy]%elem_of_cons; [lia|]. by apply Hmax.
Qed.

Lemma leaf_exists remaining : remaining ≠ [] →
  ∃ x, x ∈ List.filter (is_leaf_in remaining) remaining.
Proof.
  intros (x & Hx & Hmax)%longest_exists. exists x. apply filter_elem. split; [done|].
  apply is_leaf_in_spec. intros o Ho. apply not_true_iff_false.
  intros ?%below_length. specialize (Hmax o Ho). lia.
Qed.

(** [a] is scheduled strictly before [b]. *)
Inductive scheduled_before (a b : jstring) : list (list jstring) → Prop :=
| sb_here batch later : a ∈ batch → b ∈ concat later → scheduled_before a b (batch :: later)
| sb_later batch later : scheduled_before a b later → scheduled_before a b (batch :: later).

Lemma removal_loop_spec fuel remaining :
  NoDup remaining → length remaining ≤ fuel →
  ∃ batches, removal_loop fuel remaining = Ok batches ∧
    concat batches ≡ₚ remaining ∧ Forall (λ b, b ≠ []) batches ∧
    ∀ parent child, parent ∈ remaining → child ∈ remaining → below parent child = true →
      scheduled_before child parent batches.
Proof.
  revert remaining; induction fuel as [|fuel IH]; intros remaining Hnd Hf.
  { destruct remaining; [|simpl in Hf; lia]. exists [].
    repeat split; try done. intros ? ? []%not_elem_of_nil. }
  destruct (decide (remaining = [])) as [->|Hne].
  { exists []. repeat split; try done. intros ? ? []%not_elem_of_nil. }
  destruct (leaf_exists remaining Hne) as [leaf Hleaf].
  set (batch := isort deepest_first (List.filter (is_leaf_in remaining) remaining)).
  assert (Hb : ∀ x, x ∈ batch ↔ x ∈ remaining ∧ is_leaf_in remaining x = true).
  { intros x. unfold batch. by rewrite isort_elem, filter_elem. }
  set (rest := List.filter (λ p, negb (jmem p batch)) remaining).
  assert (Hrest : ∀ x, x ∈ rest ↔ x ∈ remaining ∧ x ∉ batch).
  { intros x. unfold rest. rewrite filter_elem, negb_true_iff, jmem_not_elem. done. }
  assert (Hndb : NoDup batch).
  { unfold batch. apply isort_NoDup. rewrite NoDup_ListNoDup in *. by apply List.NoDup_filter. }
  assert (Hndr : NoDup rest).
  { unfold rest. rewrite NoDup_ListNoDup in *. by apply List.NoDup_filter. }
  assert (Hperm : batch ++ rest ≡ₚ remaining).
  { apply NoDup_Permutation; [|done|].
    - apply NoDup_app. split; [done|]. split; [|done]. intros x Hx [_ ?]%Hrest. done.
    - intros x. rewrite elem_of_app, Hb, Hrest, Hb. destruct (is_leaf_in remaining x); naive_solver. }
  assert (batch ≠ []) as Hbne.
  { intros E. assert (leaf ∈ batch) as H; [|by rewrite E in H; apply not_elem_of_nil in H].
    apply Hb. by apply filter_elem in Hleaf. }
  destruct (IH rest) as (batches & Hrun & Hc & Hall & Hsched); [done|..].
  { apply Permutation_length in Hperm. rewrite length_app in Hperm.
    destruct batch; [done|]. simpl in Hperm. lia. }
  exists (batch :: batches). split; [|split; [|split]].
  - destruct remaining; [done|]. cbn [removal_loop]. fold batch. fold rest.
    destruct batch eqn:E; [done|]. cbn [length Nat.eqb]. rewrite <- E. by rewrite Hrun.
  - simpl. by rewrite Hc.
  - by constructor.
  - intros parent child Hp Hch Hbelow.
    assert (parent ∈ rest) as Hpr.
    { apply Hrest. split; [done|]. intros [_ Hl]%Hb. rewrite is_leaf_in_spec in Hl.
      rewrite (Hl child Hch) in Hbelow. done. }
    destruct (decide (child ∈ batch)).
    + apply sb_here; [done|]. by rewrite Hc.
    + apply sb_later, Hsched; [done| |done]. by apply Hrest.
Qed.

(** *** Topmost roots *)

Lemma topmost_step_covered (result : list jstring) d :
  existsb (λ parent, (d =s? parent) || starts_with (parent ++ [SLASH]) d) result = true ↔
  ∃ r, r ∈ result ∧ covers r d = true.
Proof.
  rewrite existsb_exists. setoid_rewrite <- list_elem_of_In. done.
Qed.

Definition antichain (l : list jstring) : Prop :=
  NoDup l ∧ ∀ a b, a ∈ l → b ∈ l → covers a b = true → a = b.

Lemma antichain_snoc l d :
  antichain l → (∀ a, a ∈ l → covers a d = false ∧ covers d a = false) → antichain (l ++ [d]).
Proof.
  intros [Hnd Ha] Hd. split.
  - apply NoDup_app. split; [done|]. split; [|apply NoDup_singleton].
    intros a Hal ->%list_elem_of_singleton. destruct (Hd d Hal) as [H _].
    by rewrite covers_refl in H.
  - intros a b. rewrite !elem_of_app, !list_elem_of_singleton.
    intros [Hal| ->] [Hbl| ->] Hc; auto.
    + destruct (Hd a Hal). congruence.
    + destruct (Hd b Hbl). congruence.
Qed.

Lemma topmost_fold_spec l result :
  StronglySorted (λ a b, length a ≤ length b) l →
  (∀ a d, a ∈ result → d ∈ l → length a ≤ length d) →
  antichain result →
  let out := fold_left topmost_step l result in
  antichain out ∧ (∀ a, a ∈ out → a ∈ result ∨ a ∈ l) ∧ (∀ a, a ∈ result → a ∈ out) ∧
  (∀ d, d ∈ l → ∃ r, r ∈ out ∧ covers r d = true).
Proof.
  intros Hs. revert result; induction Hs as [|d l Hs IH Hd]; intros result Hlen Hanti; simpl.
  { split; [done|]. split; [by left|]. split; [done|]. by intros d ?%not_elem_of_nil. }
  rewrite Forall_forall in Hd. unfold topmost_step at 2 4 6 8.
  destruct (existsb _ result) eqn:E.
  - apply topmost_step_covered in E as (r & Hr & Hc).
    destruct (IH result) as (H1 & H2 & H3 & H4); [|done|].
    { intros a x Ha Hx. apply Hlen; [done|by right]. }
    split; [done|]. split; [|split; [done|]].
    + intros a [?|?]%H2; [by left|right; by right].
    + intros x [->|Hx]%elem_of_cons; [exists r; eauto|by apply H4].
  - assert (∀ a, a ∈ result → covers a d = false) as Hnc.
    { intros a Ha. apply not_true_iff_false. intros Hc. apply not_true_iff_false in E.
      apply E, topmost_step_covered. eauto. }
    destruct (IH (result ++ [d])) as (H1 & H2 & H3 & H4).
    + intros a x. rewrite elem_of_app, list_elem_of_singleton.
      intros [Ha| ->] Hx; [apply Hlen; [done|by right]|by apply Hd].
    + apply antichain_snoc; [done|]. intros a Ha. split; [by apply Hnc|].
      apply not_true_iff_false. intros Hc.
      assert (length a ≤ length d) as Hl by (apply Hlen; [done|by left]).
      assert (covers a d = true) as H; [|by rewrite (Hnc a Ha) in H].
      assert (length d = length a) as Hl' by (apply covers_length in Hc; lia).
      apply covers_spec in Hc as [->|Hb%below_length]; [done|lia].
    + split; [done|]. split; [|split].
      * intros a [Ha|Ha]%H2; [|right; by right].
        apply elem_of_app in Ha as [?| ->%list_elem_of_singleton]; [by left|right; by left].
      * intros a Ha. apply H3. apply elem_of_app. by left.
      * intros x [->|Hx]%elem_of_cons; [|by apply H4].
        exists d. split; [|done]. apply H3. apply elem_of_app. right. by left.
Qed.

Context `{!UnicodeOk U}.

Lemma shorter_first_total a b : shorter_first a b = true ∨ shorter_first b a = true.
Proof.
  unfold shorter_first. rewrite (Nat.compare_antisym (length a) (length b)).
  destruct (Nat.compare _ _); simpl; auto. apply locale_leb_total.
Qed.

Lemma shorter_first_length a b : shorter_first a b = true → length a ≤ length b.
Proof.
  unfold shorter_first. destruct (Nat.compare_spec (length a) (length b)); try done; lia.
Qed.

Lemma shorter_first_trans a b c :
  shorter_first a b = true → shorter_first b c = true → shorter_first a c = true.
Proof.
  unfold shorter_first.
  destruct (Nat.compare_spec (length a) (length b)), (Nat.compare_spec (length b) (length c)),
    (Nat.compare_spec (length a) (length c)); try done; try lia.
  apply locale_leb_trans.
Qed.

Lemma topmostDirectories_spec l :
  antichain (topmostDirectories l) ∧
  (∀ a, a ∈ topmostDirectories l → a ∈ l) ∧
  (∀ d, d ∈ l → ∃ r, r ∈ topmostDirectories l ∧ covers r d = true).
Proof.
  destruct (topmost_fold_spec (isort shorter_first (js_set l)) []) as (H1 & H2 & _ & H4).
  - assert (StronglySorted (λ a b, shorter_first a b = true) (isort shorter_first (js_set l))) as H
      by (apply isort_sorted; [apply shorter_first_total|apply shorter_first_trans]).
    induction H as [|a k Hk IH Ha]; constructor; [done|].
    eapply Forall_impl; [exact Ha|]. intros b. apply shorter_first_length.
  - by intros a d ?%not_elem_of_nil.
  - split; [constructor|]. by intros a b ?%not_elem_of_nil.
  - split; [done|]. split.
    + intros a [?%not_elem_of_nil|Ha]%H2; [done|]. by rewrite isort_elem, js_set_elem in Ha.
    + intros d Hd. apply H4. by rewrite isort_elem, js_set_elem.
Qed.

Lemma topmost_unique l d : d ∈ l → exists! r, r ∈ topmostDirectories l ∧ covers r d = true.
Proof.
  destruct (topmostDirectories_spec l) as (Ha & _ & Hcov). intros (r & Hr & Hc)%Hcov.
  exists r. split; [done|]. intros r' [Hr' Hc'].
  destruct Ha as [_ Ha]. destruct (decide (length r ≤ length r')).
  - apply Ha; [done..|]. by apply (covers_linear _ _ d).
  - symmetry. apply Ha; [done..|]. apply (covers_linear _ _ d); [done..|lia].
Qed.
End collated.

(** ** Properties *)

Section properties.
Context {U : Unicode}.

(** The prefix index answers an overlap query with exactly the values whose path equals,
    contains or lies under the queried path, and its bisected descendant query is the
    filter of the sorted keys by that prefix. *)
Theorem indexPaths_exact {A} (entries : list (jstring * A)) (p : jstring) :
  Forall (λ e, e.1 ≠ []) entries →
  (∀ v, v ∈ overlap (by_path entries) p ↔
     ∃ q, (q, v) ∈ entries ∧ changedPathsConflict q p = true) ∧
  descendants (by_path entries) p =
    (k ← List.filter (below p) (index_keys (by_path entries));
     pair k <$> default [] (mget (by_path entries) k)).
Proof. intros He. split; [intros v; by apply overlap_elem|apply descendants_filter]. Qed.

(** Removal planning never fails: the batches are non-empty, together contain every path
    once, and every path is scheduled in a strictly later batch than each path below it,
    so no directory is removed before its contents. *)
Theorem dependencySafeRemovalBatches_safe (paths : list jstring) :
  ∃ batches, dependencySafeRemovalBatches paths = Ok batches ∧
    concat batches ≡ₚ js_set paths ∧ Forall (λ b, b ≠ []) batches ∧
    ∀ parent child, parent ∈ paths → child ∈ paths → below parent child = true →
      scheduled_before child parent batches.
Proof.
  destruct (removal_loop_spec (length (js_set paths)) (js_set paths)) as (bs & H1 & H2 & H3 & H4);
    [apply js_set_NoDup|done|].
  exists bs. split; [done|]. split; [done|]. split; [done|].
  intros parent child Hp Hc. apply H4; by apply js_set_elem.
Qed.

(** The topmost directories of a set form an antichain of paths of the set, and each path
    of the set is, or lies under, exactly one of them. *)
Theorem topmostDirectories_cover {UOk : UnicodeOk U} (l : list jstring) :
  antichain (topmostDirectories l) ∧
  (∀ a, a ∈ topmostDirectories l → a ∈ l) ∧
  (∀ d, d ∈ l → exists! r, r ∈ topmostDirectories l ∧ covers r d = true).
Proof.
  destruct (topmostDirectories_spec l) as (Ha & Hsub & _). split; [done|]. split; [done|].
  intros d. apply topmost_unique.
Qed.
End properties.

(** Concrete instances of the properties above. *)

Lemma indexPaths_exact_witness :
  let entries := [(lit "a/b", 1); (lit "c", 2)] in
  Forall (λ e : jstring * nat, e.1 ≠ []) entries ∧
  (∀ v, v ∈ overlap (by_path entries) "a" ↔
     ∃ q, (q, v) ∈ entries ∧ changedPathsConflict q "a" = true).
Proof.
  simpl. assert (Forall (λ e : jstring * nat, e.1 ≠ []) [(lit "a/b", 1); (lit "c", 2)]) as He.
  { repeat constructor; discriminate. }
  split; [exact He|]. exact (proj1 (indexPaths_exact [(lit "a/b", 1); (lit "c", 2)] "a" He)).
Defined.

Lemma topmostDirectories_cover_witness :
  UnicodeOk ascii_unicode ∧ antichain (@topmostDirectories ascii_unicode (lits ["a/b"; "a"; "c"])).
Proof.
  split; [exact ascii_unicode_ok|].
  exact (proj1 (@topmostDirectories_cover ascii_unicode ascii_unicode_ok (lits ["a/b"; "a"; "c"]))).
Defined.
