(* ===== verification/NamePortability.v ===== *)
(** * Names a restricted platform can store (src/shared/namePortability.cjs)

    [findUnportablePaths] is shared by the server (readiness of a vault for
    Android devices) and the plugin; [portableNameDecision] of
    obsidian-plugin/src/main.cjs decides how an unrestricted client reacts to a
    new or renamed path. *)

From S2P Require Export ClientTrees.

Definition NAME_RESTRICTION_RULE_VERSION : Z := 1.
Definition RESTRICTED_NAME_PLATFORMS : list jstring := lits ["android"].

(** RESERVED_NAME_CHARACTERS: double quote, * : < > ? backslash | and controls. *)
Definition is_reserved (c : N) : bool :=
  existsb (N.eqb c) [34; 42; 58; 60; 62; 63; 92; 124]%N || (c <=? 31)%N || (c =? 127)%N.

Definition isRestrictedNamePlatform (platform : jsval) : bool :=
  is_string platform && is_one_of platform RESTRICTED_NAME_PLATFORMS.

Definition segmentHasReservedCharacters (segment : jstring) : bool := existsb is_reserved segment.

Definition pathPrefixes (path : jstring) : list jstring :=
  let segments := split_on SLASH path in
  map (λ i, join_with SLASH (take i segments)) (seq 1 (length segments)).

Inductive node_kind := NodeFile | NodeDirectory.
Inductive name_reason := ReservedCharacters | CaseCollision.

#[export] Instance name_reason_eq_dec : EqDecision name_reason.
Proof. solve_decision. Defined.

Record UnportablePath := mk_unportable {
  up_path : jstring;
  up_kind : node_kind;
  up_reasons : list name_reason
}.

Definition has_reason (r : name_reason) (e : UnportablePath) : bool :=
  bool_decide (r ∈ up_reasons e).

Section name_portability.
Context `{U : Unicode}.

Definition foldPathCase (path : jstring) : jstring := to_lower (nfc path).

(** [kinds]: directories first, then files, which override the kind. *)
Definition name_kinds (files directories : list jstring) : jmap node_kind :=
  fold_left (λ m p, match p with [] => m | _ => mset m p NodeFile end) files
    (fold_left (λ m p, match p with [] => m | _ => mset m p NodeDirectory end) directories []).

(** [spellings]: the distinct prefixes seen for each folded key. *)
Definition add_spelling (m : gmap jstring (gset jstring)) (prefix : jstring)
  : gmap jstring (gset jstring) :=
  <[foldPathCase prefix := {[prefix]} ∪ default ∅ (m !! foldPathCase prefix)]> m.

Definition name_spellings (paths : list jstring) : gmap jstring (gset jstring) :=
  fold_left add_spelling (paths ≫= pathPrefixes) ∅.

Definition collides (spellings : gmap jstring (gset jstring)) (path : jstring) : bool :=
  existsb (λ prefix, (1 <? size (default ∅ (spellings !! foldPathCase prefix)))%nat)
    (pathPrefixes path).

Definition reasons_of (spellings : gmap jstring (gset jstring)) (path : jstring) : list name_reason :=
  (if existsb segmentHasReservedCharacters (split_on SLASH path) then [ReservedCharacters] else []) ++
  (if collides spellings path then [CaseCollision] else []).

Definition findUnportablePaths (files directories : list jstring) : list UnportablePath :=
  let kinds := name_kinds files directories in
  let spellings := name_spellings (mkeys kinds) in
  isort (λ l r, jleb (up_path l) (up_path r))
    (kinds ≫= λ kv,
       match reasons_of spellings kv.1 with
       | [] => []
       | reasons => [mk_unportable kv.1 kv.2 reasons]
       end).

(** *** What the tables hold *)

Lemma pathPrefixes_elem d p : d ∈ pathPrefixes p ↔ covers d p = true.
Proof.
  rewrite covers_spec, <- directoryPrefixes_elem. unfold pathPrefixes, directoryPrefixes.
  rewrite !list_elem_of_In, !in_map_iff. setoid_rewrite in_seq.
  pose proof (split_on_nonempty SLASH p) as Hne.
  assert (0 < length (split_on SLASH p)) as Hl by (destruct (split_on SLASH p); [done|simpl; lia]).
  split.
  - intros (i & <- & Hi). destruct (decide (i = length (split_on SLASH p))) as [->|].
    + left. by rewrite firstn_all, split_on_join.
    + right. exists i. split; [done|lia].
  - intros [->|(i & <- & Hi)].
    + exists (length (split_on SLASH d)). rewrite firstn_all, split_on_join. split; [done|lia].
    + exists i. split; [done|lia].
Qed.

Lemma name_kinds_keys files directories p :
  p ∈ mkeys (name_kinds files directories) ↔ p ≠ [] ∧ (p ∈ files ∨ p ∈ directories).
Proof.
  assert (∀ k l (m : jmap node_kind), p ∈ mkeys (fold_left (λ m q, match q with [] => m | _ => mset m q k end) l m) ↔
    p ∈ mkeys m ∨ (p ≠ [] ∧ p ∈ l)) as H.
  { intros k l. induction l as [|q l IH]; intros m; cbn [fold_left].
    - rewrite elem_of_nil. naive_solver.
    - rewrite IH, elem_of_cons. destruct q as [|c q]; [naive_solver|].
      rewrite mkeys_mset. naive_solver. }
  unfold name_kinds. rewrite !H. unfold mkeys at 1. simpl. rewrite elem_of_nil. naive_solver.
Qed.

Lemma name_kinds_NoDup files directories : NoDup (mkeys (name_kinds files directories)).
Proof.
  assert (∀ k l (m : jmap node_kind), NoDup (mkeys m) →
    NoDup (mkeys (fold_left (λ m q, match q with [] => m | _ => mset m q k end) l m))) as H.
  { intros k l. induction l as [|q l IH]; intros m Hm; cbn [fold_left]; [done|].
    apply IH. destruct q; [done|]. by apply NoDup_mset. }
  unfold name_kinds. do 2 apply H. constructor.
Qed.

Lemma name_spellings_elem paths key q :
  q ∈ default ∅ (name_spellings paths !! key) ↔
  foldPathCase q = key ∧ ∃ p, p ∈ paths ∧ covers q p = true.
Proof.
  unfold name_spellings.
  assert (∀ l m, q ∈ default ∅ (fold_left add_spelling l m !! key) ↔
    (foldPathCase q = key ∧ q ∈ l) ∨ q ∈ default ∅ (m !! key)) as H.
  { induction l as [|r l IH]; intros m; cbn [fold_left]; [set_solver|].
    rewrite IH. unfold add_spelling at 1.
    destruct (decide (foldPathCase r = key)) as [<-|Hne].
    - rewrite lookup_insert_eq. simpl. set_solver.
    - rewrite lookup_insert_ne by done. set_solver. }
  rewrite H, lookup_empty, list_elem_of_bind. setoid_rewrite pathPrefixes_elem.
  simpl. rewrite elem_of_empty. naive_solver.
Qed.

(** A path collides when a prefix of it has another spelling among the nodes. *)
Definition case_collision (paths : list jstring) (path : jstring) : Prop :=
  ∃ q q', covers q path = true ∧ q' ≠ q ∧ foldPathCase q' = foldPathCase q ∧
    ∃ p, p ∈ paths ∧ covers q' p = true.

Lemma collides_spec paths path : path ∈ paths →
  collides (name_spellings paths) path = true ↔ case_collision paths path.
Proof.
  intros Hin. unfold collides, case_collision. rewrite existsb_exists.
  setoid_rewrite <- list_elem_of_In. setoid_rewrite pathPrefixes_elem.
  setoid_rewrite Nat.ltb_lt. split.
  - intros (q & Hq & Hs). exists q.
    assert (q ∈ default ∅ (name_spellings paths !! foldPathCase q)) as Hqin.
    { apply name_spellings_elem. eauto. }
    set (S := default ∅ (name_spellings paths !! foldPathCase q)) in *.
    assert (∃ q', q' ∈ S ∖ {[q]}) as (q' & Hq').
    { apply set_choose_L. intros E. assert (S ⊆ {[q]}) as Hsub.
      { intros x Hx. destruct (decide (x = q)) as [->|]; [by apply elem_of_singleton|].
        assert (x ∈ S ∖ {[q]}) as Hd; [|by rewrite E, elem_of_empty in Hd].
        by rewrite elem_of_difference, elem_of_singleton. }
      apply subseteq_size in Hsub. rewrite size_singleton in Hsub. lia. }
    exists q'. apply elem_of_difference in Hq' as [Hq' Hne].
    apply name_spellings_elem in Hq' as [? ?].
    rewrite elem_of_singleton in Hne. naive_solver.
  - intros (q & q' & Hq & Hne & Hf & p & Hp & Hc). exists q. split; [done|].
    set (S := default ∅ (name_spellings paths !! foldPathCase q)).
    assert (({[q]} ∪ {[q']} : gset jstring) ⊆ S) as Hsub%subseteq_size.
    { intros x. rewrite elem_of_union, !elem_of_singleton. intros [->| ->];
        apply name_spellings_elem; eauto. }
    rewrite size_union, !size_singleton in Hsub; [lia|].
    intros x. rewrite !elem_of_singleton. congruence.
Qed.

Lemma findUnportablePaths_elem files directories e :
  e ∈ findUnportablePaths files directories ↔
  (up_path e, up_kind e) ∈ name_kinds files directories ∧
  up_reasons e = reasons_of (name_spellings (mkeys (name_kinds files directories))) (up_path e) ∧
  up_reasons e ≠ [].
Proof.
  unfold findUnportablePaths. rewrite isort_elem, list_elem_of_bind. split.
  - intros ([p k] & He & Hin). destruct (reasons_of _ _) as [|r rs] eqn:E; [by apply not_elem_of_nil in He|].
    apply list_elem_of_singleton in He as ->. simpl in *. by rewrite E.
  - destruct e as [p k rs]. simpl. intros (Hin & -> & Hne). exists (p, k). split; [|done].
    simpl. destruct (reasons_of _ p); [done|]. by apply list_elem_of_singleton.
Qed.

Lemma reasons_of_spec files directories p r :
  p ∈ mkeys (name_kinds files directories) →
  r ∈ reasons_of (name_spellings (mkeys (name_kinds files directories))) p ↔
  match r with
  | ReservedCharacters => ∃ seg, seg ∈ split_on SLASH p ∧ segmentHasReservedCharacters seg = true
  | CaseCollision => case_collision (mkeys (name_kinds files directories)) p
  end.
Proof.
  intros Hp. pose proof (collides_spec _ _ Hp) as Hcol.
  assert (existsb segmentHasReservedCharacters (split_on SLASH p) = true ↔
    ∃ seg, seg ∈ split_on SLASH p ∧ segmentHasReservedCharacters seg = true) as Hres.
  { rewrite existsb_exists. by setoid_rewrite list_elem_of_In. }
  destruct r; [rewrite <- Hres|rewrite <- Hcol]; unfold reasons_of; rewrite elem_of_app;
    destruct (existsb _ _), (collides _ _);
    rewrite ?list_elem_of_singleton, ?elem_of_nil; naive_solver.
Qed.

Lemma findUnportablePaths_sorted files directories :
  strictly_sorted (map up_path (findUnportablePaths files directories)).
Proof.
  unfold findUnportablePaths. 
  match goal with |- context [isort _ ?k] => set (l := k) end.
  assert (NoDup (map up_path l)) as Hnd.
  { subst l. pose proof (name_kinds_NoDup files directories) as H.
    set (sp := name_spellings _). clearbody sp. unfold mkeys in H.
    induction (name_kinds files directories) as [|[p k] m IH]; simpl in *; [constructor|].
    apply NoDup_cons in H as [Hp Hm]. rewrite map_app. apply NoDup_app.
    destruct (reasons_of sp p); simpl; [by split; [constructor|]; split; [|by apply IH]; intros ? ?%not_elem_of_nil|].
    split; [apply NoDup_singleton|]. split; [|by apply IH].
    intros x ->%list_elem_of_singleton Hx. apply Hp.
    rewrite list_elem_of_In, in_map_iff in Hx. destruct Hx as (e & <- & He).
    rewrite <- list_elem_of_In, list_elem_of_bind in He. destruct He as ([p' k'] & He & Hin).
    simpl in He. destruct (reasons_of sp p'); [by apply not_elem_of_nil in He|].
    apply list_elem_of_singleton in He as ->. simpl.
    apply list_elem_of_In, in_map_iff. exists (p', k'). by rewrite <- list_elem_of_In. }
  assert (StronglySorted (λ a b, jleb (up_path a) (up_path b) = true)
    (isort (λ l r, jleb (up_path l) (up_path r)) l)) as Hs.
  { apply isort_sorted; intros; [apply jleb_total|by eapply jleb_trans]. }
  assert (NoDup (map up_path (isort (λ l r, jleb (up_path l) (up_path r)) l))) as Hnd'.
  { by rewrite isort_perm. }
  induction Hs as [|e s Hs IH He]; [constructor|]. simpl in *.
  apply NoDup_cons in Hnd' as [Hnin Hnd']. constructor; [by apply IH|].
  rewrite Forall_forall. intros q Hq. rewrite list_elem_of_In, in_map_iff in Hq.
  destruct Hq as (e' & <- & Hin). rewrite Forall_forall in He.
  rewrite <- list_elem_of_In in Hin. specialize (He e' Hin).
  apply jleb_cases in He as [?|He]; [done|]. destruct Hnin. rewrite He.
  apply list_elem_of_In, in_map_iff. exists e'. by rewrite <- list_elem_of_In.
Qed.

(** ** Reaction of a client to a new or renamed path *)

Inductive NameDecision :=
| Revert (path restorePath : jstring) (reasons : list name_reason)
| Warn (path : jstring) (reasons : list name_reason).

Definition after_last_slash (p : jstring) : jstring :=
  match before_last SLASH p with Some q => drop (S (length q)) p | None => p end.

(** [findUnportablePaths([candidate, ...others]).find(entry => entry.path === candidate)]. *)
Definition problemOf (others : list jstring) (candidate : jstring) : option UnportablePath :=
  List.find (λ e, up_path e =s? candidate) (findUnportablePaths (candidate :: others) []).

(** [otherPaths] after the [typeof value === "string"] filter. *)
Definition portableNameDecision (newPath : jstring) (oldPath : option jstring)
    (otherPaths : list jstring) : option NameDecision :=
  if negb (isSyncableVaultPath newPath) then None else
  let others := List.filter (λ value,
    negb (value =s? "") && negb (value =s? "/") && negb (value =s? newPath) &&
    match oldPath with Some old => negb (value =s? old) | None => true end) otherPaths in
  match problemOf others newPath with
  | None => None
  | Some problem =>
    let parentProblem := match before_last SLASH newPath with
                         | Some ((_ :: _) as parent) => problemOf others parent
                         | _ => None
                         end in
    let ownReserved := segmentHasReservedCharacters (after_last_slash newPath) in
    let ownCollision := has_reason CaseCollision problem &&
      negb (match parentProblem with Some p => has_reason CaseCollision p | None => false end) in
    if negb ownReserved && negb ownCollision then None else
    let reasons := (if ownReserved then [ReservedCharacters] else []) ++
                   (if ownCollision then [CaseCollision] else []) in
    match oldPath with
    | Some old =>
      let renamedLeaf := isSyncableVaultPath old &&
        negb (after_last_slash old =s? after_last_slash newPath) in
      if renamedLeaf && match problemOf others old with None => true | _ => false end
      then Some (Revert newPath old reasons)
      else Some (Warn newPath reasons)
    | None => Some (Warn newPath reasons)
    end
  end.

Lemma problemOf_None others candidate :
  candidate ≠ [] →
  problemOf others candidate = None ↔
  reasons_of (name_spellings (mkeys (name_kinds (candidate :: others) []))) candidate = [].
Proof.
  intros Hne. unfold problemOf.
  assert (candidate ∈ mkeys (name_kinds (candidate :: others) [])) as Hin.
  { apply name_kinds_keys. split; [done|]. left. by left. }
  split.
  - intros Hf. destruct (reasons_of _ candidate) as [|r rs] eqn:E; [done|].
    apply mget_keys in Hin as [k Hk]. apply mget_elem in Hk; [|apply name_kinds_NoDup].
    assert (mk_unportable candidate k (r :: rs) ∈ findUnportablePaths (candidate :: others) []) as He.
    { apply findUnportablePaths_elem. simpl. by rewrite E. }
    rewrite list_elem_of_In in He. apply (find_none _ _ Hf) in He. simpl in He.
    by rewrite jeqb_refl in He.
  - intros E. destruct (List.find _ _) as [e|] eqn:Hf; [|done].
    apply find_some in Hf as [He Hp]. apply jeqb_eq in Hp. rewrite <- list_elem_of_In in He.
    apply findUnportablePaths_elem in He as (_ & Hr & Hne').
    rewrite Hp in Hr. destruct Hne'. exact (eq_trans Hr E).
Qed.

(** A revert restores a name that has no problem of its own. *)
Lemma portableNameDecision_revert newPath oldPath otherPaths path restore reasons :
  portableNameDecision newPath oldPath otherPaths = Some (Revert path restore reasons) →
  path = newPath ∧ oldPath = Some restore ∧ isSyncableVaultPath restore = true ∧
  after_last_slash restore ≠ after_last_slash newPath ∧ reasons ≠ [] ∧
  ∃ others, problemOf others restore = None.
Proof.
  unfold portableNameDecision. cbv zeta. intros H.
  destruct (negb (isSyncableVaultPath newPath)); [done|].
  set (others := List.filter _ _) in H.
  destruct (problemOf others newPath) as [problem|]; [|done].
  set (own := segmentHasReservedCharacters _) in H.
  set (coll := has_reason _ _ && _) in H.
  destruct (negb own && negb coll) eqn:Enone; [done|].
  destruct oldPath as [old|]; [|done].
  match type of H with (if ?b then _ else _) = _ => destruct b eqn:E end; [|discriminate H].
  injection H as <- <- <-. apply andb_true_iff in E as [E Hold]. split_tests.
  destruct (problemOf others old) eqn:Eold; [done|].
  repeat (split; [done|]). split; [by destruct own, coll|eauto].
Qed.
End name_portability.

(** ** Properties *)

Section properties.
Context {U : Unicode}.

(** The report lists, in strictly increasing path order, exactly the files and explicit
    directories with a reserved character in some segment or a prefix that another node
    spells with different letter case, each with exactly those reasons. *)
Theorem findUnportablePaths_exact (files directories : list jstring) :
  strictly_sorted (map up_path (findUnportablePaths files directories)) ∧
  ∀ p r, (∃ e, e ∈ findUnportablePaths files directories ∧ up_path e = p ∧ r ∈ up_reasons e) ↔
    p ≠ [] ∧ (p ∈ files ∨ p ∈ directories) ∧
    match r with
    | ReservedCharacters => ∃ seg, seg ∈ split_on SLASH p ∧ segmentHasReservedCharacters seg = true
    | CaseCollision => case_collision (mkeys (name_kinds files directories)) p
    end.
Proof.
  split; [apply findUnportablePaths_sorted|]. intros p r. split.
  - intros (e & (Hin & Hr & _)%findUnportablePaths_elem & <- & Hre). rewrite Hr in Hre.
    apply mget_elem in Hin; [|apply name_kinds_NoDup].
    assert (up_path e ∈ mkeys (name_kinds files directories)) as Hk by (apply mget_keys; eauto).
    apply reasons_of_spec in Hre; [|done]. apply name_kinds_keys in Hk. naive_solver.
  - intros (Hne & Hin & Hr).
    assert (p ∈ mkeys (name_kinds files directories)) as Hk by (by apply name_kinds_keys).
    apply reasons_of_spec in Hr; [|done]. pose proof Hk as [k Hget]%mget_keys.
    apply mget_elem in Hget; [|apply name_kinds_NoDup].
    eexists (mk_unportable p k _). split; [|split; [done|exact Hr]].
    apply findUnportablePaths_elem. split; [done|]. split; [done|]. simpl.
    intros E. rewrite E in Hr. by apply not_elem_of_nil in Hr.
Qed.

(** An empty report means the tree fits a case-insensitive store: no segment has a
    reserved character and no two nodes, nor any of their ancestor folders, share a case
    folding without being the same path. *)
Theorem findUnportablePaths_empty_portable (files directories : list jstring) :
  findUnportablePaths files directories = [] →
  ∀ p q a b : jstring, p ≠ [] → q ≠ [] → (p ∈ files ∨ p ∈ directories) → (q ∈ files ∨ q ∈ directories) →
    covers a p = true → covers b q = true →
    existsb segmentHasReservedCharacters (split_on SLASH p) = false ∧
    (foldPathCase a = foldPathCase b → a = b).
Proof.
  intros Hempty p q a b Hp Hq Hpin Hqin Ha Hb.
  assert (∀ r, r ∉ reasons_of (name_spellings (mkeys (name_kinds files directories))) p) as Hnone.
  { intros r Hr. assert (p ∈ mkeys (name_kinds files directories)) as Hk by (by apply name_kinds_keys).
    apply mget_keys in Hk as [k Hk]. apply mget_elem in Hk; [|apply name_kinds_NoDup].
    assert (mk_unportable p k (reasons_of (name_spellings (mkeys (name_kinds files directories))) p)
      ∈ findUnportablePaths files directories) as He.
    { apply findUnportablePaths_elem. split; [done|]. split; [done|]. simpl.
      intros E. rewrite E in Hr. by apply not_elem_of_nil in Hr. }
    rewrite Hempty in He. by apply not_elem_of_nil in He. }
  assert (p ∈ mkeys (name_kinds files directories)) as Hk by (by apply name_kinds_keys).
  split.
  - apply not_true_iff_false. intros Hres. apply (Hnone ReservedCharacters), reasons_of_spec; [done|].
    apply existsb_exists in Hres. by setoid_rewrite <- list_elem_of_In in Hres.
  - intros Hf. destruct (decide (b = a)) as [->|Hne]; [done|].
    destruct (Hnone CaseCollision). apply reasons_of_spec; [done|].
    exists a, b. split; [done|]. split; [done|]. split; [done|]. exists q.
    split; [|done]. by apply name_kinds_keys.
Qed.
End properties.

(** Concrete instances of the properties above. *)

Lemma findUnportablePaths_empty_portable_witness :
  @findUnportablePaths ascii_unicode (lits ["a/x.md"; "b.md"]) (lits ["a"]) = [] ∧
  (@foldPathCase ascii_unicode "a" = @foldPathCase ascii_unicode "b.md" → lit "a" = lit "b.md").
Proof.
  assert (@findUnportablePaths ascii_unicode (lits ["a/x.md"; "b.md"]) (lits ["a"]) = []) as He
    by (vm_compute; reflexivity).
  split; [exact He|].
  refine (proj2 (@findUnportablePaths_empty_portable ascii_unicode (lits ["a/x.md"; "b.md"]) (lits ["a"]) He
    "a/x.md" "b.md" "a" "b.md" _ _ _ _ _ _)).
  - discriminate.
  - discriminate.
  - left. apply jmem_elem. reflexivity.
  - left. apply jmem_elem. reflexivity.
  - reflexivity.
  - reflexivity.
Defined.
