(* ===== verification/Json.v ===== *)
(** * JSON text

    [JSON.stringify] and [JSON.parse] on the values of Js.v, as the language
    defines them: the escapes of strings, members that are [undefined], the order
    in which an object lists its members.  The decimal text of a number that is
    not a safe integer, and its reading, are left to the engine ([Numerals]).
    Printed plain values parse back to themselves, so equal texts are equal
    values: what the source relies on when it compares [stableJson] texts. *)

From S2P Require Export Js Dates Regex Unicode.

Local Open Scope N_scope.

Class Numerals := {
  wide_text : jsnum → jstring;      (* String(n), n finite and not a safe integer *)
  wide_value : jstring → jsnum;     (* the value of any other JSON number token *)
  string_number : jstring → jsnum   (* Number(s) *)
}.

(** ** Strings *)

Definition hex_digit (n : N) : N := if n <? 10 then 48 + n else 87 + n.
Definition unicode_escape (c : N) : jstring :=
  [92; 117; hex_digit (c / 4096 mod 16); hex_digit (c / 256 mod 16); hex_digit (c / 16 mod 16); hex_digit (c mod 16)].

(** The escape of one code unit other than a surrogate. *)
Definition quote_unit (c : N) : jstring :=
  if c =? 34 then [92; 34] else if c =? 92 then [92; 92] else
  if c =? 8 then [92; 98] else if c =? 12 then [92; 102] else if c =? 10 then [92; 110] else
  if c =? 13 then [92; 114] else if c =? 9 then [92; 116] else
  if c <? 32 then unicode_escape c else [c].

Fixpoint quote_units (s : jstring) : jstring :=
  match s with
  | [] => []
  | c :: s' =>
    if is_lead c then
      match s' with
      | d :: s'' => if is_trail d then c :: d :: quote_units s'' else unicode_escape c ++ quote_units s'
      | [] => unicode_escape c
      end
    else if is_trail c then unicode_escape c ++ quote_units s'
    else quote_unit c ++ quote_units s'
  end.

Definition quote_json (s : jstring) : jstring := 34 :: quote_units s ++ [34].

Definition hex_value (c : N) : option N :=
  if is_digit c then Some (c - 48) else if in_range 97 102 c then Some (c - 87)
  else if in_range 65 70 c then Some (c - 55) else None.

Definition simple_escape (c : N) : option N :=
  if c =? 34 then Some 34 else if c =? 92 then Some 92 else if c =? 47 then Some 47 else
  if c =? 98 then Some 8 else if c =? 102 then Some 12 else if c =? 110 then Some 10 else
  if c =? 114 then Some 13 else if c =? 116 then Some 9 else None.

(** The rest of a string after its opening quote, and what follows it. *)
Fixpoint unquote (s : jstring) : option (jstring * jstring) :=
  match s with
  | [] => None
  | c :: s' =>
    if c =? 34 then Some ([], s') else
    if c <? 32 then None else
    if c =? 92 then
      match s' with
      | [] => None
      | e :: s'' =>
        if e =? 117 then
          match s'' with
          | h1 :: h2 :: h3 :: h4 :: t =>
            a ← hex_value h1; b ← hex_value h2; x ← hex_value h3; y ← hex_value h4;
            '(text, rest) ← unquote t; Some (a * 4096 + b * 256 + x * 16 + y :: text, rest)
          | _ => None
          end
        else u ← simple_escape e; '(text, rest) ← unquote s''; Some (u :: text, rest)
      end
    else '(text, rest) ← unquote s'; Some (c :: text, rest)
  end.

(** ** Objects *)

Fixpoint undec (acc : Z) (s : jstring) : Z :=
  match s with [] => acc | c :: s => undec (acc * 10 + (Z.of_N c - 48)) s end.

(** [0] or digits without a leading zero. *)
Definition canonical_digits (s : jstring) : bool :=
  match s with
  | [] => false
  | c :: t => forallb is_digit s && (negb (c =? 48) || match t with [] => true | _ => false end)
  end.

(** Array-index keys are listed first, in numeric order. *)
Definition is_index (k : jstring) : bool := canonical_digits k && (undec 0 k <? 2 ^ 32 - 1)%Z.
Definition own_order (kvs : record) : record :=
  isort (λ a b, (undec 0 a.1 <=? undec 0 b.1)%Z) (List.filter (λ kv, is_index kv.1) kvs)
  ++ List.filter (λ kv, negb (is_index kv.1)) kvs.

Definition object_of (members : record) : record :=
  own_order (fold_left (λ o kv, mset o kv.1 kv.2) members []).

Section json.
Context `{Nm : Numerals}.

(** ** [JSON.stringify] *)

Definition num_text (n : jsnum) : jstring :=
  match n with
  | NNaN | NInf _ => lit "null"
  | NInt z => if num_safe n then dec z else wide_text n
  | _ => wide_text n
  end.

Fixpoint json_text (v : jsval) : option jstring :=
  match v with
  | JUndef => None
  | JNull => Some (lit "null")
  | JBool b => Some (lit (if b then "true" else "false"))
  | JNum n => Some (num_text n)
  | JStr s => Some (quote_json s)
  | JArr l => Some (91 :: join_with 44 (map (λ x, default (lit "null") (json_text x)) l) ++ [93])
  | JObj kvs =>
    Some (123 :: join_with 44 ((fix members kvs := match kvs with
        | [] => []
        | (k, x) :: kvs => match json_text x with
                           | Some t => (quote_json k ++ 58 :: t) :: members kvs
                           | None => members kvs
                           end
        end) kvs) ++ [125])
  end.

(** [stableJson] of the plugin: [undefined] when the value has no text. *)
Definition stableJson : jsval → option jstring := json_text.

(** ** [String(v)] and [Number(v)] *)

Definition num_string (n : jsnum) : jstring :=
  match n with
  | NNaN => lit "NaN"
  | NInf negative => lit (if negative then "-Infinity" else "Infinity")
  | _ => num_text n
  end.

(** Elements that are null or undefined print as nothing in an array. *)
Fixpoint to_text (v : jsval) : jstring :=
  match v with
  | JUndef => lit "undefined"
  | JNull => lit "null"
  | JBool b => lit (if b then "true" else "false")
  | JNum n => num_string n
  | JStr s => s
  | JArr l => join_with 44 (map (λ x, match x with JUndef | JNull => [] | _ => to_text x end) l)
  | JObj _ => lit "[object Object]"
  end.

Definition to_number (v : jsval) : jsnum :=
  match v with
  | JUndef => NNaN
  | JNull => NInt 0
  | JBool b => NInt (if b then 1 else 0)
  | JNum n => n
  | JStr s => string_number s
  | _ => string_number (to_text v)
  end.

(** ** [JSON.parse] *)

Definition is_json_space (c : N) : bool := (c =? 32) || (c =? 9) || (c =? 10) || (c =? 13).
Fixpoint skip_ws (s : jstring) : jstring :=
  match s with [] => [] | c :: s' => if is_json_space c then skip_ws s' else s end.

Definition is_num_unit (c : N) : bool :=
  is_digit c || (c =? 45) || (c =? 43) || (c =? 46) || (c =? 101) || (c =? 69).
Fixpoint num_span (s : jstring) : jstring * jstring :=
  match s with
  | [] => ([], [])
  | c :: s' => if is_num_unit c then (let '(a, b) := num_span s' in (c :: a, b)) else ([], s)
  end.

(** Minus, integer part, fraction, exponent. *)
Definition number_token : regex :=
  RSeq (ropt (rlit "-")) (RSeq (RAlt (rlit "0") (RSeq (RClass (in_range 49 57)) (RStar (RClass is_digit))))
    (RSeq (ropt (RSeq (rlit ".") (rplus (RClass is_digit))))
          (ropt (RSeq (RClass (λ c, (c =? 101) || (c =? 69)))
                   (RSeq (ropt (RClass (λ c, (c =? 43) || (c =? 45)))) (rplus (RClass is_digit))))))).

Definition int_token (s : jstring) : option Z :=
  match s with
  | 45 :: t => if canonical_digits t then Some (- undec 0 t)%Z else None
  | _ => if canonical_digits s then Some (undec 0 s) else None
  end.

Definition parse_number (s : jstring) : option (jsval * jstring) :=
  let '(token, rest) := num_span s in
  match int_token token with
  | Some z => Some (JNum (if num_safe (NInt z) then NInt z else wide_value token), rest)
  | None => if rtest number_token token then Some (JNum (wide_value token), rest) else None
  end.

Fixpoint strip_prefix (p s : jstring) : option jstring :=
  match p, s with
  | [], _ => Some s
  | c :: p, d :: s => if c =? d then strip_prefix p s else None
  | _, [] => None
  end.

Definition parse_atom (s : jstring) : option (jsval * jstring) :=
  match strip_prefix (lit "null") s, strip_prefix (lit "true") s, strip_prefix (lit "false") s with
  | Some t, _, _ => Some (JNull, t)
  | _, Some t, _ => Some (JBool true, t)
  | _, _, Some t => Some (JBool false, t)
  | _, _, _ => parse_number s
  end.

Fixpoint parse_value (fuel : nat) (s : jstring) : option (jsval * jstring) :=
  match fuel with
  | O => None
  | S fuel =>
    match skip_ws s with
    | [] => None
    | c :: t =>
      if c =? 34 then '(text, t) ← unquote t; Some (JStr text, t)
      else if c =? 91 then
        match skip_ws t with
        | 93 :: t => Some (JArr [], t)
        | _ => '(l, t) ← parse_elements fuel t; Some (JArr l, t)
        end
      else if c =? 123 then
        match skip_ws t with
        | 125 :: t => Some (JObj [], t)
        | _ => '(members, t) ← parse_members fuel t; Some (JObj (object_of members), t)
        end
      else parse_atom (c :: t)
    end
  end
with parse_elements (fuel : nat) (s : jstring) : option (list jsval * jstring) :=
  match fuel with
  | O => None
  | S fuel =>
    '(v, t) ← parse_value fuel s;
    match skip_ws t with
    | 44 :: t => '(l, t) ← parse_elements fuel t; Some (v :: l, t)
    | 93 :: t => Some ([v], t)
    | _ => None
    end
  end
with parse_members (fuel : nat) (s : jstring) : option (record * jstring) :=
  match fuel with
  | O => None
  | S fuel =>
    match skip_ws s with
    | 34 :: t =>
      '(k, t) ← unquote t;
      match skip_ws t with
      | 58 :: t =>
        '(v, t) ← parse_value fuel t;
        match skip_ws t with
        | 44 :: t => '(l, t) ← parse_members fuel t; Some ((k, v) :: l, t)
        | 125 :: t => Some ([(k, v)], t)
        | _ => None
        end
      | _ => None
      end
    | _ => None
    end
  end.

(** A [SyntaxError] is [None]. *)
Definition json_parse (s : jstring) : option jsval :=
  '(v, t) ← parse_value (S (length s)) s;
  match skip_ws t with [] => Some v | _ => None end.

(** ** Plain values *)

(** Values [JSON.parse] can return with safe integers as its only numbers. *)
Fixpoint plain (v : jsval) : bool :=
  match v with
  | JUndef => false
  | JNum n => num_safe n
  | JArr l => forallb plain l
  | JObj kvs => forallb (λ kv, plain kv.2) kvs && bool_decide (map fst (own_order kvs) = map fst kvs)
                && bool_decide (NoDup (map fst kvs))
  | _ => true
  end.

End json.

(** ** Reading back what was printed *)

Section string_laws.

Lemma hex_value_digit n : n < 16 → hex_value (hex_digit n) = Some n.
Proof.
  intros H. assert (∃ k, (k < 16)%nat ∧ n = N.of_nat k) as (k & Hk & ->) by (exists (N.to_nat n); lia).
  do 16 (destruct k as [|k]; [reflexivity|]). lia.
Qed.

Lemma unquote_escape c t : c < 65536 →
  unquote (unicode_escape c ++ t) = '(text, rest) ← unquote t; Some (c :: text, rest).
Proof.
  intros H. unfold unicode_escape. cbn [app unquote N.eqb Pos.eqb N.ltb N.compare Pos.compare Pos.compare_cont].
  rewrite !hex_value_digit by (apply N.mod_lt; lia). cbn.
  assert (c / 4096 mod 16 * 4096 + c / 256 mod 16 * 256 + c / 16 mod 16 * 16 + c mod 16 = c) as ->; [|done].
  rewrite (N.mod_small (c / 4096)) by (apply N.Div0.div_lt_upper_bound; lia).
  pose proof (N.div_mod c 16). pose proof (N.div_mod (c / 16) 16). pose proof (N.div_mod (c / 256) 16).
  rewrite !N.Div0.div_div in *. change (16 * 16) with 256 in *. change (256 * 16) with 4096 in *. lia.
Qed.

Lemma unquote_plain c t : 32 <= c → c ≠ 34 → c ≠ 92 →
  unquote (c :: t) = '(text, rest) ← unquote t; Some (c :: text, rest).
Proof.
  intros H1 H2 H3. cbn [unquote]. rewrite (proj2 (N.eqb_neq c 34)), (proj2 (N.eqb_neq c 92)) by done.
  by rewrite (proj2 (N.ltb_ge c 32)).
Qed.

Lemma unquote_unit c t :
  unquote (quote_unit c ++ t) = '(text, rest) ← unquote t; Some (c :: text, rest).
Proof.
  unfold quote_unit.
  repeat match goal with |- context [c =? ?k] => destruct (N.eqb_spec c k); [subst; by cbn|] end.
  destruct (N.ltb_spec c 32); [apply unquote_escape; lia|]. by apply unquote_plain.
Qed.

Lemma unquote_quote s rest : unquote (quote_units s ++ 34 :: rest) = Some (s, rest).
Proof.
  assert (∀ n s, (length s < n)%nat → unquote (quote_units s ++ 34 :: rest) = Some (s, rest)) as H;
    [|by eapply H, Nat.lt_succ_diag_r].
  clear s. induction n as [|n IH]; intros s Hn; [lia|].
  destruct s as [|c s]; [done|]. cbn [quote_units length] in *.
  destruct (is_lead c) eqn:El.
  - unfold is_lead in El. apply andb_true_iff in El as [?%N.leb_le ?%N.leb_le].
    destruct s as [|d s]; [by rewrite unquote_escape by lia|]. destruct (is_trail d) eqn:Et.
    + unfold is_trail in Et. apply andb_true_iff in Et as [?%N.leb_le ?%N.leb_le].
      cbn [app]. rewrite unquote_plain by lia. rewrite unquote_plain by lia. cbn [length] in Hn. by rewrite IH by lia.
    + rewrite <- app_assoc, unquote_escape by lia. by rewrite IH by lia.
  - destruct (is_trail c) eqn:Et.
    + unfold is_trail in Et. apply andb_true_iff in Et as [?%N.leb_le ?%N.leb_le].
      rewrite <- app_assoc, unquote_escape by lia. by rewrite IH by lia.
    + rewrite <- app_assoc, unquote_unit. by rewrite IH by lia.
Qed.

End string_laws.

Section number_laws.
Local Open Scope Z_scope.

Lemma undec_of_uint d : ∀ p, undec (Z.pos p) (uint_units d) = Z.pos (Pos.of_uint_acc d p).
Proof. induction d; intros p; cbn [uint_units undec Pos.of_uint_acc]; [done|..]; rewrite <- IHd; f_equal; lia. Qed.

Lemma undec_units n : undec 0 (uint_units (N.to_uint n)) = Z.of_N n.
Proof.
  assert (∀ d, undec 0 (uint_units d) = Z.of_N (N.of_uint d)) as H.
  { induction d; cbn [uint_units undec]; [done|done|..];
      match goal with |- context [N.of_uint (_ ?l)] => apply (undec_of_uint l) end. }
  by rewrite H, DecimalN.Unsigned.of_to.
Qed.

Lemma units_digits d : forallb is_digit (uint_units d) = true.
Proof. induction d; done. Qed.

Lemma units_canonical n : canonical_digits (uint_units (N.to_uint n)) = true.
Proof.
  assert (N.to_uint n = Decimal.unorm (N.to_uint n)) as ->.
  { rewrite <- DecimalN.Unsigned.to_of. by rewrite DecimalN.Unsigned.of_to. }
  unfold Decimal.unorm.
  assert (∀ d, ∀ e, Decimal.nzhead d ≠ Decimal.D0 e) as Hz by (induction d; cbn; done).
  specialize (Hz (N.to_uint n)). destruct (Decimal.nzhead (N.to_uint n)); try done; [by edestruct Hz|..];
    cbn; by rewrite units_digits.
Qed.

Lemma canonical_not_minus s : canonical_digits s = true → ∀ t, s ≠ 45%N :: t.
Proof. intros H t ->. done. Qed.

Lemma int_token_dec z : int_token (dec z) = Some z.
Proof.
  unfold dec, int_token. destruct (Z.ltb_spec z 0).
  - rewrite units_canonical, undec_units. f_equal. lia.
  - pose proof (units_canonical (Z.to_N z)) as Hc. pose proof (undec_units (Z.to_N z)) as Hu.
    destruct (uint_units (N.to_uint (Z.to_N z))) as [|c t]; [done|].
    destruct (N.eqb_spec c 45) as [->|Hne]; [done|].
    rewrite Hc, Hu, Z2N.id by done. clear -Hne.
    destruct c as [|p]; [done|]. repeat (destruct p as [p|p|]; try done).
Qed.

Lemma dec_num_units z : forallb is_num_unit (dec z) = true.
Proof.
  assert (∀ d, forallb is_num_unit (uint_units d) = true) as H by (induction d; done).
  unfold dec. destruct (z <? 0); [|apply H]. cbn [forallb]. by rewrite H.
Qed.

Lemma dec_cons z : ∃ c t, dec z = c :: t ∧ is_num_unit c = true.
Proof.
  pose proof (dec_num_units z) as H. destruct (dec z) as [|c t] eqn:E.
  - pose proof (int_token_dec z) as Hi. by rewrite E in Hi.
  - exists c, t. cbn in H. by apply andb_true_iff in H as [-> _].
Qed.

(** What may follow a value: the end, or a character that ends a number. *)
Definition ended (rest : jstring) : Prop := match rest with [] => True | c :: _ => is_num_unit c = false end.

Lemma num_span_app s rest : forallb is_num_unit s = true → ended rest → num_span (s ++ rest) = (s, rest).
Proof.
  intros Hs Hr. induction s as [|c s IH]; cbn in *.
  - destruct rest as [|d rest]; cbn in *; [done|]. by rewrite Hr.
  - apply andb_true_iff in Hs as [-> Hs]. by rewrite IH.
Qed.

End number_laws.

Lemma is_json_space_num c : is_num_unit c = true → is_json_space c = false.
Proof.
  intros H. apply not_true_iff_false. intros Hs. unfold is_json_space in Hs.
  rewrite !orb_true_iff, !N.eqb_eq in Hs. by destruct Hs as [[[->| ->]| ->]| ->].
Qed.

Lemma strip_prefix_head p s c t : s = c :: t → (∀ d q, p = d :: q → d ≠ c) → p ≠ [] → strip_prefix p s = None.
Proof.
  intros -> H Hp. destruct p as [|d p]; [done|]. cbn. by rewrite (proj2 (N.eqb_neq d c)) by eauto.
Qed.

Lemma keys_perm_eq {A} (l k : jmap A) : Permutation l k → NoDup (mkeys l) → mkeys l = mkeys k → l = k.
Proof.
  intros Hp Hnd Hk. unfold mkeys in *.
  assert (∀ a b, a ∈ l → b ∈ k → a.1 = b.1 → a = b) as Huniq.
  { intros [a x] [b y] Ha Hb; cbn. intros <-. rewrite <- Hp in Hb.
    apply (mget_elem l a) in Ha; [|done]. apply (mget_elem l a) in Hb; [|done]. congruence. }
  clear Hp Hnd. revert k Hk Huniq. induction l as [|a l IH]; intros [|b k] Hk Hu; try done.
  injection Hk as Hab Hk. f_equal; [apply Hu; [by left|by left|done]|].
  apply IH; [done|]. intros. apply Hu; [by right|by right|done].
Qed.

Lemma own_order_perm kvs : Permutation (own_order kvs) kvs.
Proof.
  unfold own_order. rewrite isort_perm. induction kvs as [|kv kvs IH]; cbn; [done|].
  destruct (is_index kv.1); cbn; [by constructor|].
  etransitivity; [symmetry; apply Permutation_middle|]. by constructor.
Qed.

Lemma object_of_plain kvs :
  map fst (own_order kvs) = map fst kvs → NoDup (map fst kvs) → object_of kvs = kvs.
Proof.
  intros Ho Hnd. unfold object_of. rewrite fold_mset_NoDup by done. cbn.
  assert (mkeys (own_order kvs) = mkeys kvs) as Ho' by exact Ho.
  apply keys_perm_eq; [apply own_order_perm| |done].
  refine (eq_ind_r (λ l, NoDup l) Hnd Ho').
Qed.

Section round_trip.
Context `{Nm : Numerals}.

Definition members_text (kvs : record) : list jstring :=
  omap (λ kv, (λ t, quote_json kv.1 ++ 58 :: t) <$> json_text kv.2) kvs.

Lemma json_text_obj kvs : json_text (JObj kvs) = Some (123 :: join_with 44 (members_text kvs) ++ [125]).
Proof.
  cbn [json_text]. do 3 f_equal. f_equal. induction kvs as [|[k x] kvs IH]; cbn; [done|].
  destruct (json_text x) as [t|]; [exact (f_equal (cons _) IH)|exact IH].
Qed.

Lemma plain_text v : plain v = true → is_Some (json_text v).
Proof. destruct v; cbn; try done; eauto. Qed.

Lemma skip_ws_id c s : is_json_space c = false → skip_ws (c :: s) = c :: s.
Proof. intros H. cbn. by rewrite H. Qed.

Lemma parse_atom_number z rest : ended rest →
  num_safe (NInt z) = true → parse_atom (dec z ++ rest) = Some (JNum (NInt z), rest).
Proof.
  intros Hr Hz. unfold parse_atom. destruct (dec_cons z) as (c & t & E & Hc).
  rewrite !(strip_prefix_head _ _ c (t ++ rest)); try (by rewrite E);
    try (by intros d q [= <- <-] <-); try done.
  unfold parse_number. rewrite num_span_app by (done || apply dec_num_units).
  by rewrite int_token_dec, Hz.
Qed.

Lemma join_with_cons2 c (a b : jstring) l : join_with c (a :: b :: l) = a ++ c :: join_with c (b :: l).
Proof. done. Qed.

(** The texts of JSON values: the grammar the printers of the program write in,
    with the blanks [JSON.parse] skips. *)
Definition blank (w : jstring) : Prop := forallb is_json_space w = true.

Inductive reads : jstring → jsval → Prop :=
| reads_null : reads (lit "null") JNull
| reads_bool b : reads (lit (if b : bool then "true" else "false")) (JBool b)
| reads_int z : num_safe (NInt z) = true → reads (dec z) (JNum (NInt z))
| reads_str s : reads (quote_json s) (JStr s)
| reads_arr_nil w : blank w → reads (91 :: w ++ [93]) (JArr [])
| reads_arr t l : reads_list t l → reads (91 :: t ++ [93]) (JArr l)
| reads_obj_nil w : blank w → reads (123 :: w ++ [125]) (JObj [])
| reads_obj t ms : reads_members t ms → reads (123 :: t ++ [125]) (JObj (object_of ms))
with reads_list : jstring → list jsval → Prop :=
| reads_last w t w' x : blank w → reads t x → blank w' → reads_list (w ++ t ++ w') [x]
| reads_more w t w' x ts l : blank w → reads t x → blank w' → reads_list ts l →
    reads_list (w ++ t ++ w' ++ 44 :: ts) (x :: l)
with reads_members : jstring → record → Prop :=
| reads_last_member w k w1 w2 t w' x : blank w → blank w1 → blank w2 → reads t x → blank w' →
    reads_members (w ++ quote_json k ++ w1 ++ 58 :: w2 ++ t ++ w') [(k, x)]
| reads_more_members w k w1 w2 t w' x ts ms : blank w → blank w1 → blank w2 → reads t x → blank w' →
    reads_members ts ms →
    reads_members (w ++ quote_json k ++ w1 ++ 58 :: w2 ++ t ++ w' ++ 44 :: ts) ((k, x) :: ms).

Scheme reads_mut := Induction for reads Sort Prop
with reads_list_mut := Induction for reads_list Sort Prop
with reads_members_mut := Induction for reads_members Sort Prop.
Combined Scheme reads_all_ind from reads_mut, reads_list_mut, reads_members_mut.

Lemma skip_ws_blank w s : blank w → skip_ws (w ++ s) = skip_ws s.
Proof.
  unfold blank. induction w as [|c w IH]; cbn; [done|]. intros [Hc Hw]%andb_true_iff. rewrite Hc. auto.
Qed.

Lemma blank_nil : blank [].
Proof. done. Qed.

Lemma blank_ended w c s : blank w → is_num_unit c = false → ended (w ++ c :: s).
Proof.
  intros Hw Hc. destruct w as [|d w]; cbn in *; [done|]. apply andb_true_iff in Hw as [Hd _].
  destruct (is_num_unit d) eqn:E; [|done]. apply is_json_space_num in E. congruence.
Qed.

Lemma blank_all_ended w : blank w → ended w.
Proof. intros Hw. destruct w as [|c w]; [done|]. by apply (blank_ended (c :: w) 32 []) in Hw. Qed.

(** The first character of a value's text is not a space and opens no other
    kind of value. *)
Lemma reads_head t v : reads t v → ∃ c s, t = c :: s ∧ is_json_space c = false ∧ c ≠ 93 ∧ c ≠ 125.
Proof.
  destruct 1; try (eexists _, _; split_and!; [reflexivity|reflexivity|discriminate|discriminate]).
  - destruct b; (eexists _, _; split_and!; [reflexivity|reflexivity|discriminate|discriminate]).
  - destruct (dec_cons z) as (c & s & -> & Hc). exists c, s. split_and!; [done|by apply is_json_space_num|..];
      by intros ->.
Qed.

Lemma reads_skip t v s : reads t v → skip_ws (t ++ s) = t ++ s.
Proof. intros (c & u & -> & Hc & _)%reads_head. by apply skip_ws_id. Qed.

(** What follows the opening bracket is not the closing one. *)
Lemma reads_list_head ts l : reads_list ts l → ∀ rest, ∃ c s, skip_ws (ts ++ rest) = c :: s ∧ c ≠ 93.
Proof.
  destruct 1 as [w t w' x Hw (c & s & -> & Hc & Hne & _)%reads_head Hw'
                |w t w' x ts l Hw (c & s & -> & Hc & Hne & _)%reads_head Hw' _]; intros rest;
    exists c; eexists; (split; [|done]); rewrite <- !app_assoc, skip_ws_blank by done; by apply skip_ws_id.
Qed.

Lemma reads_members_head ts ms : reads_members ts ms → ∀ rest, ∃ s, skip_ws (ts ++ rest) = 34 :: s.
Proof.
  destruct 1; intros rest; eexists; rewrite <- !app_assoc, skip_ws_blank by done; reflexivity.
Qed.

(** A name, a colon and a value, up to what follows the value. *)
Lemma parse_member n w k w1 w2 t x w' rest : blank w → blank w1 → blank w2 → blank w' →
  parse_value n (w2 ++ t ++ w' ++ rest) = Some (x, w' ++ rest) →
  parse_members (S n) (w ++ quote_json k ++ w1 ++ 58 :: w2 ++ t ++ w' ++ rest) =
  match skip_ws rest with
  | 44 :: t => '(l, t) ← parse_members n t; Some ((k, x) :: l, t)
  | 125 :: t => Some ([(k, x)], t)
  | _ => None
  end.
Proof.
  intros Hw Hw1 Hw2 Hw' Hv. cbn [parse_members]. rewrite skip_ws_blank by done.
  unfold quote_json. cbn [app skip_ws is_json_space N.eqb Pos.eqb orb].
  rewrite <- !app_assoc. cbn [app]. rewrite unquote_quote. cbn [mbind option_bind].
  rewrite skip_ws_blank by done. cbn [skip_ws is_json_space N.eqb Pos.eqb orb].
  rewrite Hv. cbn [mbind option_bind]. by rewrite skip_ws_blank.
Qed.

(** The parser reads the grammar; the length of the text is fuel enough. *)
Lemma reads_parse :
  (∀ t v, reads t v → ∀ w rest n, blank w → ended rest → (length t < n)%nat →
    parse_value n (w ++ t ++ rest) = Some (v, rest)) ∧
  (∀ ts l, reads_list ts l → ∀ rest n, (length ts + 1 < n)%nat →
    parse_elements n (ts ++ 93 :: rest) = Some (l, rest)) ∧
  (∀ ts ms, reads_members ts ms → ∀ rest n, (length ts + 1 < n)%nat →
    parse_members n (ts ++ 125 :: rest) = Some (ms, rest)).
Proof.
  apply (reads_all_ind
    (λ t v _, ∀ w rest n, blank w → ended rest → (length t < n)%nat → parse_value n (w ++ t ++ rest) = Some (v, rest))
    (λ ts l _, ∀ rest n, (length ts + 1 < n)%nat → parse_elements n (ts ++ 93 :: rest) = Some (l, rest))
    (λ ts ms _, ∀ rest n, (length ts + 1 < n)%nat → parse_members n (ts ++ 125 :: rest) = Some (ms, rest))).
  - intros w rest [|n] Hw _ Hn; [lia|]. cbn [parse_value]. by rewrite skip_ws_blank.
  - intros b w rest [|n] Hw _ Hn; [lia|]. cbn [parse_value]. rewrite skip_ws_blank by done. by destruct b.
  - intros z Hz w rest [|n] Hw Hr Hn; [lia|]. cbn [parse_value]. rewrite skip_ws_blank by done.
    pose proof (parse_atom_number z rest Hr Hz) as Hatom.
    destruct (dec_cons z) as (c & s & E & Hc). rewrite E in *. cbn [app]. rewrite skip_ws_id by by apply is_json_space_num.
    repeat match goal with |- context [c =? ?k] => rewrite (proj2 (N.eqb_neq c k)) by (by intros ->) end. done.
  - intros s w rest [|n] Hw _ Hn; [lia|]. cbn [parse_value]. rewrite skip_ws_blank by done.
    unfold quote_json. cbn [app skip_ws is_json_space N.eqb Pos.eqb orb].
    rewrite <- app_assoc. cbn [app]. by rewrite unquote_quote.
  - intros w' Hw' w rest [|n] Hw _ Hn; [lia|]. cbn [parse_value]. rewrite skip_ws_blank by done.
    cbn [app skip_ws is_json_space N.eqb Pos.eqb orb]. rewrite <- app_assoc, skip_ws_blank by done. done.
  - intros ts l Hl IH w rest [|n] Hw _ Hn; [lia|]. cbn [parse_value]. rewrite skip_ws_blank by done.
    cbn [length] in Hn. rewrite length_app in Hn. cbn [length] in Hn.
    cbn [app skip_ws is_json_space N.eqb Pos.eqb orb]. rewrite <- app_assoc. cbn [app].
    destruct (reads_list_head ts l Hl (93 :: rest)) as (c & s & -> & Hne). rewrite IH by lia.
    destruct c as [|p]; [done|]. repeat (destruct p as [p|p|]; try done).
  - intros w' Hw' w rest [|n] Hw _ Hn; [lia|]. cbn [parse_value]. rewrite skip_ws_blank by done.
    cbn [app skip_ws is_json_space N.eqb Pos.eqb orb]. rewrite <- app_assoc, skip_ws_blank by done. done.
  - intros ts ms Hms IH w rest [|n] Hw _ Hn; [lia|]. cbn [parse_value]. rewrite skip_ws_blank by done.
    cbn [length] in Hn. rewrite length_app in Hn. cbn [length] in Hn.
    cbn [app skip_ws is_json_space N.eqb Pos.eqb orb]. rewrite <- app_assoc. cbn [app].
    destruct (reads_members_head ts ms Hms (125 :: rest)) as (s & ->). by rewrite IH by lia.
  - intros w t w' x Hw _ IH Hw' rest [|n] Hn; [lia|]. rewrite !length_app in Hn. cbn [parse_elements].
    rewrite <- !app_assoc, IH by (done || lia || by apply blank_ended).
    cbn [mbind option_bind]. by rewrite skip_ws_blank.
  - intros w t w' x ts l Hw _ IH Hw' _ IHl rest [|n] Hn; [lia|]. rewrite !length_app in Hn. cbn [length] in Hn.
    cbn [parse_elements]. rewrite <- !app_assoc, IH by (done || lia || by apply blank_ended).
    cbn [mbind option_bind]. rewrite skip_ws_blank by done.
    cbn [app skip_ws is_json_space N.eqb Pos.eqb orb]. by rewrite IHl by lia.
  - intros w k w1 w2 t w' x Hw Hw1 Hw2 _ IH Hw' rest [|n] Hn; [lia|].
    rewrite !length_app in Hn. cbn [length] in Hn. rewrite !length_app in Hn.
    rewrite <- !app_assoc. rewrite <- app_comm_cons, <- !app_assoc.
    rewrite (parse_member n w k w1 w2 t x w') by first [done | apply IH; [done|by apply blank_ended|lia]]. done.
  - intros w k w1 w2 t w' x ts ms Hw Hw1 Hw2 _ IH Hw' _ IHl rest [|n] Hn; [lia|].
    rewrite !length_app in Hn. cbn [length] in Hn. rewrite !length_app in Hn. cbn [length] in Hn.
    rewrite <- !app_assoc. rewrite <- app_comm_cons, <- !app_assoc.
    rewrite (parse_member n w k w1 w2 t x w') by first [done | apply IH; [done|by apply blank_ended|lia]].
    cbn [app skip_ws is_json_space N.eqb Pos.eqb orb]. by rewrite IHl by lia.
Qed.

Lemma json_parse_reads w t v w' : blank w → blank w' → reads t v → json_parse (w ++ t ++ w') = Some v.
Proof.
  intros Hw Hw' Hr. unfold json_parse. rewrite !length_app.
  rewrite (proj1 reads_parse t v Hr w w' _ Hw) by (lia || by apply blank_all_ended).
  cbn [mbind option_bind]. rewrite <- (app_nil_r w'), skip_ws_blank by done. done.
Qed.

(** ** What the printer writes *)

Definition padded (u : jstring) (x : jsval) : Prop :=
  ∃ w t w', u = w ++ t ++ w' ∧ blank w ∧ blank w' ∧ reads t x.
Definition padded_member (u : jstring) (kv : jstring * jsval) : Prop :=
  ∃ w w1 w2 t w', u = w ++ quote_json kv.1 ++ w1 ++ 58 :: w2 ++ t ++ w' ∧
    blank w ∧ blank w1 ∧ blank w2 ∧ blank w' ∧ reads t kv.2.

Lemma reads_padded t x : reads t x → padded t x.
Proof. intros H. exists [], t, []. by rewrite app_nil_r. Qed.

Lemma blank_app w w' : blank w → blank w' → blank (w ++ w').
Proof. unfold blank. rewrite forallb_app. by intros -> ->. Qed.

Lemma reads_list_join us l : Forall2 padded us l → l ≠ [] → ∀ w, blank w → reads_list (join_with 44 us ++ w) l.
Proof.
  induction 1 as [|u x us l (v & t & v' & -> & Hv & Hv' & Ht) Hl IH]; [done|]. intros _ w Hw.
  destruct Hl as [|u' y us l Hu Hl].
  - cbn [join_with]. rewrite <- !app_assoc. apply reads_last; auto using blank_app.
  - rewrite join_with_cons2, <- !app_assoc. apply reads_more; auto.
Qed.

Lemma reads_members_join us ms : Forall2 padded_member us ms → ms ≠ [] → ∀ w, blank w →
  reads_members (join_with 44 us ++ w) ms.
Proof.
  induction 1 as [|u [k x] us ms (v & v1 & v2 & t & v' & -> & Hv & Hv1 & Hv2 & Hv' & Ht) Hl IH]; [done|].
  intros _ w Hw. cbn [fst snd] in *. destruct Hl as [|u' y us ms Hu Hl].
  - cbn [join_with]. rewrite <- !app_assoc, <- app_comm_cons, <- !app_assoc.
    apply reads_last_member; auto using blank_app.
  - rewrite join_with_cons2, <- !app_assoc, <- app_comm_cons, <- !app_assoc.
    apply reads_more_members; auto.
Qed.

(** What a value is read back as: [undefined] is [null] in an array and absent in
    an object, whose members are listed in the order of their names' kind. *)
Fixpoint revive (v : jsval) : jsval :=
  match v with
  | JUndef => JNull
  | JArr l => JArr (map revive l)
  | JObj kvs => 
    JObj (object_of (concat (map (λ kv, if is_undef kv.2 then [] else [(kv.1, revive kv.2)]) kvs)))
  | _ => v
  end.

Fixpoint safe_numbers (v : jsval) : bool :=
  match v with
  | JNum n => num_safe n
  | JArr l => forallb safe_numbers l
  | JObj kvs => forallb (λ kv, safe_numbers kv.2) kvs
  | _ => true
  end.

Lemma plain_safe v : plain v = true → safe_numbers v = true.
Proof.
  induction v as [| |b|m|s|l IH|kvs IH] using jsval_rect_nested; cbn; try done.
  - rewrite !forallb_forall. rewrite List.Forall_forall in IH. auto.
  - rewrite !andb_true_iff, !forallb_forall. rewrite List.Forall_forall in IH. intros [[H _] _]. auto.
Qed.

Lemma plain_defined v : plain v = true → is_undef v = false.
Proof. by destruct v. Qed.

Lemma map_id_on {A} (f : A → A) l : (∀ x, x ∈ l → f x = x) → map f l = l.
Proof. induction l as [|x l IH]; intros H; cbn; [done|]. rewrite H, IH; [done|..]; intros; try apply H; set_solver. Qed.

Lemma concat_singletons {A B} (f : A → list B) (g : A → B) l : (∀ x, x ∈ l → f x = [g x]) → concat (map f l) = map g l.
Proof. induction l as [|x l IH]; intros H; cbn; [done|]. rewrite H, IH; [done|..]; intros; try apply H; set_solver. Qed.

Lemma revive_plain v : plain v = true → revive v = v.
Proof.
  induction v as [| |b|m|s|l IH|kvs IH] using jsval_rect_nested; cbn; try done.
  - rewrite forallb_forall. rewrite List.Forall_forall in IH. intros H. f_equal. apply map_id_on.
    intros x Hx%list_elem_of_In. auto.
  - rewrite !andb_true_iff, !bool_decide_eq_true, forallb_forall. rewrite List.Forall_forall in IH.
    intros [[H Ho] Hnd]. f_equal. rewrite (concat_singletons _ id), map_id; [by apply object_of_plain|].
    intros [k x] Hx%list_elem_of_In; cbn. specialize (H _ Hx). specialize (IH _ Hx). cbn in *.
    rewrite plain_defined by done. by rewrite IH.
Qed.

Lemma num_text_reads n : num_safe n = true → reads (num_text n) (JNum n).
Proof. destruct n; try done. intros H. unfold num_text. rewrite H. by apply reads_int. Qed.

Lemma json_text_reads v t : safe_numbers v = true → json_text v = Some t → reads t (revive v).
Proof.
  revert t. induction v as [| |b|m|s|l IH|kvs IH] using jsval_rect_nested; intros t Hs Ht; try done;
    cbn [safe_numbers] in Hs.
  - injection Ht as <-. apply reads_null.
  - injection Ht as <-. apply reads_bool.
  - injection Ht as <-. by apply num_text_reads.
  - injection Ht as <-. apply reads_str.
  - injection Ht as <-. cbn [revive]. destruct l as [|x l]; [by apply (reads_arr_nil [])|].
    apply reads_arr. rewrite <- (app_nil_r (join_with _ _)). apply reads_list_join; [|done|done].
    rewrite forallb_forall in Hs. rewrite List.Forall_forall in IH.
    apply Forall2_fmap, Forall_Forall2_diag, List.Forall_forall. intros y Hy. apply reads_padded.
    destruct (json_text y) as [t|] eqn:E; [by apply IH; auto|]. destruct y; try done. apply reads_null.
  - rewrite json_text_obj in Ht. injection Ht as <-. cbn [revive].
    rewrite forallb_forall in Hs. rewrite List.Forall_forall in IH.
    assert (Forall2 padded_member (members_text kvs)
      (concat (map (λ kv, if is_undef kv.2 then [] else [(kv.1, revive kv.2)]) kvs))) as Hm.
    { clear -IH Hs. induction kvs as [|[k x] kvs IHl]; [constructor|].
      specialize (IHl (λ y Hy, IH y (or_intror Hy)) (λ y Hy, Hs y (or_intror Hy))).
      pose proof (IH (k, x) (or_introl eq_refl)) as Hx. pose proof (Hs (k, x) (or_introl eq_refl)) as Hsx.
      cbn [snd] in *. unfold members_text. cbn [omap list_omap snd fst map concat].
      destruct (json_text x) as [t|] eqn:E.
      - replace (is_undef x) with false by by destruct x. constructor; [|exact IHl].
        exists [], [], [], t, []. split_and!; try done; [by rewrite app_nil_r|]. by apply Hx.
      - destruct x; try done. }
    destruct Hm as [|u kv us ms Hu Hm]; [by apply (reads_obj_nil [])|].
    apply reads_obj. rewrite <- (app_nil_r (join_with _ _)). apply reads_members_join; [by constructor|done|done].
Qed.

Lemma json_parse_text v t : plain v = true → json_text v = Some t → json_parse t = Some v.
Proof.
  intros Hp Ht. rewrite <- (revive_plain v Hp), <- (app_nil_r t). apply (json_parse_reads []); try done.
  apply json_text_reads; [by apply plain_safe|done].
Qed.

(** Equal texts are equal values. *)
Lemma json_text_inj v w : plain v = true → plain w = true → json_text v = json_text w → v = w.
Proof.
  intros Hv Hw H. destruct (plain_text v Hv) as [t Ht]. pose proof (json_parse_text v t Hv Ht) as H1.
  rewrite (json_parse_text w t Hw) in H1 by congruence. congruence.
Qed.

End round_trip.

(** Numerals for examples without numbers. *)
Definition toy_numerals : Numerals :=
  {| wide_text _ := lit "Infinity"; wide_value _ := NInf false; string_number _ := NNaN |}.
