(* ===== verification/SemanticJson.v ===== *)
(** * Comparing and printing JSON for the content merges

    The helpers of gitService.ts that the merges of canvases and of bases share:
    [stableJson], the text two values are compared by, [canonicalizeForJson], the
    form they are written in, [JSON.stringify] with an indentation of two, and the
    three-way rule of one field ([mergeAtomicField]).  Texts are compared to decide
    whether values differ, and that is right: the stable texts of two values are
    equal exactly when their canonical forms are.

    Assigning the key [__proto__] of an object sets its prototype and stores no field,
    and reading an absent one finds the prototype.  The definitions treat it as any
    other key; the theorems on merges are about documents without it ([ordinary]). *)

From S2P Require Export Json.

Local Open Scope N_scope.

(** ** Sorting the members of an object *)

Definition by_key {A} (a b : jstring * A) : bool := jleb a.1 b.1.
Definition sort_members {A} : jmap A → jmap A := isort by_key.

Section sort_members.
Context {A : Type}.
Implicit Types l k : jmap A.

Lemma sort_members_perm l : sort_members l ≡ₚ l.
Proof. apply isort_perm. Qed.

Lemma sort_members_keys l : mkeys (sort_members l) = sort_strings (mkeys l).
Proof.
  unfold sort_members, sort_strings, mkeys. induction l as [|x l IH]; cbn; [done|]. rewrite <- IH.
  generalize (isort by_key l) as s. induction s as [|y s IHs]; cbn; [done|].
  unfold by_key at 1. destruct (jleb x.1 y.1); cbn; [done|]. by rewrite IHs.
Qed.

Lemma mkeys_perm l k : l ≡ₚ k → mkeys l ≡ₚ mkeys k.
Proof. unfold mkeys. intros H. by apply Permutation_map. Qed.

(** With distinct keys the sorted list depends only on the set of members. *)
Lemma sort_members_ext l k : l ≡ₚ k → NoDup (mkeys l) → sort_members l = sort_members k.
Proof.
  intros Hp Hnd. assert (NoDup (mkeys k)) as Hk by (by rewrite <- (mkeys_perm l k Hp)).
  apply keys_perm_eq.
  - by rewrite !sort_members_perm.
  - rewrite sort_members_keys. by apply isort_NoDup.
  - rewrite !sort_members_keys. apply sort_strings_ext; [done|done|]. intros x. by rewrite (mkeys_perm l k Hp).
Qed.

Lemma mget_perm l k x : l ≡ₚ k → NoDup (mkeys l) → mget l x = mget k x.
Proof.
  intros Hp Hnd. assert (NoDup (mkeys k)) as Hk by (by rewrite <- (mkeys_perm l k Hp)).
  apply option_eq. intros v. by rewrite !mget_elem, Hp.
Qed.

End sort_members.

Lemma sort_members_map {A B} (f : A → B) (l : jmap A) :
  map (λ kv, (kv.1, f kv.2)) (sort_members l) = sort_members (map (λ kv, (kv.1, f kv.2)) l).
Proof.
  unfold sort_members. induction l as [|x l IH]; cbn; [done|]. rewrite <- IH.
  generalize (isort by_key l) as s. induction s as [|y s IHs]; cbn; [done|].
  change (by_key (x.1, f x.2) (y.1, f y.2)) with (by_key x y). destruct (by_key x y); cbn; [done|]. by rewrite IHs.
Qed.

Lemma mkeys_map {A B} (f : A → B) (l : jmap A) : mkeys (map (λ kv, (kv.1, f kv.2)) l) = mkeys l.
Proof. unfold mkeys. rewrite map_map. done. Qed.

Lemma mget_map {A B} (f : A → B) (l : jmap A) x : mget (map (λ kv, (kv.1, f kv.2)) l) x = f <$> mget l x.
Proof. induction l as [|[k v] l IH]; cbn; [done|]. by destruct (k =s? x). Qed.

(** ** Objects built by assignment *)

Lemma object_of_perm ms : NoDup (mkeys ms) → object_of ms ≡ₚ ms.
Proof. intros H. unfold object_of. rewrite fold_mset_NoDup by done. apply own_order_perm. Qed.

Lemma object_of_NoDup ms : NoDup (mkeys ms) → NoDup (mkeys (object_of ms)).
Proof. intros H. by rewrite (mkeys_perm _ _ (object_of_perm ms H)). Qed.

Lemma mget_object_of ms x : NoDup (mkeys ms) → mget (object_of ms) x = mget ms x.
Proof. intros H. apply mget_perm; [by apply object_of_perm|by apply object_of_NoDup]. Qed.

Lemma own_order_idem kvs : own_order (own_order kvs) = own_order kvs.
Proof.
  unfold own_order. set (num := λ a b : jstring * jsval, (undec 0 a.1 <=? undec 0 b.1)%Z).
  set (ix := λ kv : jstring * jsval, is_index kv.1). set (other := λ kv : jstring * jsval, negb (is_index kv.1)).
  rewrite !List.filter_app.
  rewrite (filter_all ix) by (intros x Hx%isort_elem; by apply filter_elem in Hx as [_ Hx]).
  rewrite (filter_none ix (List.filter other kvs)) by (intros x [_ Hx]%filter_elem; by apply negb_true_iff).
  rewrite (filter_none other (isort _ _))
    by (intros x Hx%isort_elem; apply filter_elem in Hx as [_ Hx]; by apply negb_false_iff).
  rewrite (filter_all other (List.filter other kvs)) by (by intros x [_ Hx]%filter_elem).
  rewrite app_nil_r. cbn [app]. f_equal. apply isort_id, isort_sorted; unfold num; intros; [|rewrite Z.leb_le in *; lia].
  destruct (Z.leb_spec (undec 0 a.1) (undec 0 b.1)); [by left|right]. apply Z.leb_le. lia.
Qed.

Lemma own_order_object_of ms : own_order (object_of ms) = object_of ms.
Proof. apply own_order_idem. Qed.

Lemma plain_object ms : NoDup (mkeys ms) → (∀ kv, kv ∈ ms → plain kv.2 = true) → plain (JObj (object_of ms)) = true.
Proof.
  intros Hnd Hp. cbn [plain]. rewrite !andb_true_iff, !bool_decide_eq_true, own_order_object_of.
  split_and!; [|done|by apply object_of_NoDup]. apply forallb_forall. intros x Hx%list_elem_of_In.
  apply Hp. by rewrite <- (object_of_perm ms Hnd).
Qed.

Section semantic_json.
Context `{Nm : Numerals}.

(** ** Printing with an indentation of two: [JSON.stringify(value, null, 2)] *)

Definition line (depth : nat) : jstring := 10 :: repeat 32 (2 * depth).

Fixpoint pretty (depth : nat) (v : jsval) : option jstring :=
  match v with
  | JArr [] => Some (lit "[]")
  | JArr l =>
    Some (91 :: join_with 44 (map (λ x, line (S depth) ++ default (lit "null") (pretty (S depth) x)) l)
             ++ line depth ++ [93])
  | JObj kvs =>
    match concat (map (λ kv, match pretty (S depth) kv.2 with
                             | Some t => [line (S depth) ++ quote_json kv.1 ++ 58 :: 32 :: t]
                             | None => []
                             end) kvs) with
    | [] => Some (lit "{}")
    | members => Some (123 :: join_with 44 members ++ line depth ++ [125])
    end
  | _ => json_text v
  end.

(** ** [canonicalizeForJson] and [stableJson] *)

Fixpoint canonicalizeForJson (v : jsval) : jsval :=
  match v with
  | JArr l => JArr (map canonicalizeForJson l)
  | JObj kvs => JObj (object_of (sort_members (map (λ kv, (kv.1, canonicalizeForJson kv.2)) kvs)))
  | _ => v
  end.

(** [undefined] has no text; in a template it prints as a word, in a joined list as nothing. *)
Fixpoint stableJson (v : jsval) : option jstring :=
  match v with
  | JArr l => Some (91 :: join_with 44 (map (λ x, default [] (stableJson x)) l) ++ [93])
  | JObj kvs =>
    Some (123 :: join_with 44 (map (λ kv, quote_json kv.1 ++ 58 :: kv.2)
                  (sort_members (map (λ kv, (kv.1, default (lit "undefined") (stableJson kv.2))) kvs))) ++ [125])
  | _ => json_text v
  end.

(** Plain values none of whose objects has the key [__proto__]. *)
Fixpoint no_proto (v : jsval) : bool :=
  match v with
  | JArr l => forallb no_proto l
  | JObj kvs => forallb (λ kv, negb (kv.1 =s? lit "__proto__") && no_proto kv.2) kvs
  | _ => true
  end.
Definition ordinary (v : jsval) : bool := plain v && no_proto v.

Lemma ordinary_plain v : ordinary v = true → plain v = true.
Proof. by intros [? _]%andb_true_iff. Qed.

(** ** One field on three sides *)

Definition FieldState : Type := option jsval.

Definition fieldState (r : record) (field : jstring) : FieldState :=
  if has_own r field then Some (rget r field) else None.

Definition fieldStatesEqual (left right : FieldState) : bool :=
  match left, right with
  | Some a, Some b => bool_decide (stableJson a = stableJson b)
  | None, None => true
  | _, _ => false
  end.

Definition GitCommandError (message : jstring) : js_error := mk_error EGitCommand [] message [].

Definition mergeAtomicField (label : jstring) (base current device : FieldState) : result FieldState :=
  if fieldStatesEqual current base then Ok device else
  if fieldStatesEqual device base then Ok current else
  if fieldStatesEqual current device then Ok current else
  Throw (GitCommandError (label ++ lit " concurrent edits require review.")).

(** ** Laws *)

Lemma line_blank d : blank (line d).
Proof. unfold blank, line. cbn [forallb]. induction (2 * d)%nat; done. Qed.

Lemma pretty_undef d v : pretty d v = None ↔ v = JUndef.
Proof.
  split; [|by intros ->]. destruct v as [| | | | |[]|kvs]; try done. cbn [pretty].
  by destruct (concat _).
Qed.

Lemma pretty_reads v : ∀ d t, safe_numbers v = true → pretty d v = Some t → reads t (revive v).
Proof.
  induction v as [| |b|m|s|l IH|kvs IH] using jsval_rect_nested; intros d t Hs Ht;
    try (by apply json_text_reads); cbn [safe_numbers] in Hs;
    rewrite forallb_forall in Hs; rewrite List.Forall_forall in IH.
  - destruct l as [|x l]; [injection Ht as <-; by apply (reads_arr_nil [])|].
    cbn [pretty] in Ht. apply (inj Some) in Ht as <-. cbn [revive]. rewrite (app_assoc _ (line d)).
    apply reads_arr, reads_list_join; [|done|apply line_blank].
    apply Forall2_fmap, Forall_Forall2_diag, List.Forall_forall. intros y Hy.
    exists (line (S d)). eexists _, []. rewrite app_nil_r. split_and!; [reflexivity|apply line_blank|done|].
    destruct (pretty (S d) y) as [t|] eqn:E; [by eapply IH; eauto|].
    apply pretty_undef in E as ->. apply reads_null.
  - cbn [pretty revive] in *.
    set (us := concat (map _ kvs)) in *.
    assert (Forall2 padded_member us (concat (map (λ kv, if is_undef kv.2 then [] else [(kv.1, revive kv.2)]) kvs))) as Hm.
    { clear Ht. subst us. induction kvs as [|[k x] kvs IHl]; [constructor|].
      specialize (IHl (λ y Hy, IH y (or_intror Hy)) (λ y Hy, Hs y (or_intror Hy))).
      pose proof (IH (k, x) (or_introl eq_refl)) as Hx. pose proof (Hs (k, x) (or_introl eq_refl)) as Hsx.
      cbn [snd fst map concat] in *. destruct (pretty (S d) x) as [u|] eqn:E.
      - replace (is_undef x) with false by by destruct x. constructor; [|exact IHl].
        exists (line (S d)), [], [32], u, []. cbn [app fst snd].
        split_and!; [by rewrite app_nil_r|apply line_blank|done|done|done|]. by eapply Hx.
      - apply pretty_undef in E as ->. exact IHl. }
    destruct Hm as [|u kv us' ms Hu Hm]; [injection Ht as <-; by apply (reads_obj_nil [])|].
    apply (inj Some) in Ht as <-. rewrite (app_assoc _ (line d)). apply reads_obj, reads_members_join; [by constructor|done|apply line_blank].
Qed.

Lemma json_parse_pretty v t : safe_numbers v = true → pretty 0 v = Some t → json_parse (t ++ [10]) = Some (revive v).
Proof. intros Hs Ht. apply (json_parse_reads []); try done. by eapply pretty_reads. Qed.

(** The members of a canonical object before their order is settled. *)
Definition canonical_members (kvs : record) : record :=
  sort_members (map (λ kv, (kv.1, canonicalizeForJson kv.2)) kvs).

Lemma canonical_members_keys kvs : NoDup (keys kvs) → NoDup (mkeys (canonical_members kvs)).
Proof. intros H. unfold canonical_members. rewrite sort_members_keys, mkeys_map. by apply isort_NoDup. Qed.

Lemma plain_members kvs : plain (JObj kvs) = true →
  NoDup (keys kvs) ∧ own_order kvs = kvs ∧ ∀ kv, kv ∈ kvs → plain kv.2 = true.
Proof.
  cbn [plain]. rewrite !andb_true_iff, !bool_decide_eq_true, forallb_forall. intros [[Hp Ho] Hnd].
  split_and!; [done| |by intros kv ?%list_elem_of_In; auto].
  apply keys_perm_eq; [apply own_order_perm| |exact Ho].
  unfold mkeys. by rewrite Ho.
Qed.

Lemma mget_canonical kvs x : NoDup (keys kvs) →
  mget (object_of (canonical_members kvs)) x = canonicalizeForJson <$> mget kvs x.
Proof.
  intros H. rewrite mget_object_of by by apply canonical_members_keys.
  unfold canonical_members. rewrite (mget_perm _ (map (λ kv, (kv.1, canonicalizeForJson kv.2)) kvs)); [apply mget_map|apply sort_members_perm|].
  rewrite sort_members_keys, mkeys_map. by apply isort_NoDup.
Qed.

Lemma canonical_plain v : plain v = true → plain (canonicalizeForJson v) = true.
Proof.
  induction v as [| |b|m|s|l IH|kvs IH] using jsval_rect_nested; try done; intros Hp;
    rewrite List.Forall_forall in IH.
  - cbn [plain canonicalizeForJson] in *. rewrite forallb_forall in *. intros y (x & <- & Hx)%in_map_iff. auto.
  - apply plain_members in Hp as (Hnd & _ & Hp). cbn [canonicalizeForJson].
    apply plain_object; [by apply canonical_members_keys|]. intros kv Hkv.
    rewrite sort_members_perm in Hkv. apply list_elem_of_In, in_map_iff in Hkv as ([k x] & <- & Hx). cbn.
    by apply (IH (k, x)), (Hp (k, x)), list_elem_of_In.
Qed.

Lemma json_text_plain_reads v : plain v = true → ∃ t, json_text v = Some t ∧ reads t v.
Proof.
  intros Hp. destruct (plain_text v Hp) as [t Ht]. exists t. split; [done|].
  rewrite <- (revive_plain v Hp). apply json_text_reads; [by apply plain_safe|done].
Qed.

(** The stable text of a plain value is a text of its canonical form. *)
Lemma stableJson_reads v : plain v = true → ∃ t, stableJson v = Some t ∧ reads t (canonicalizeForJson v).
Proof.
  induction v as [| |b|m|s|l IH|kvs IH] using jsval_rect_nested; try done; intros Hp; try rewrite List.Forall_forall in IH;
    try exact (json_text_plain_reads _ Hp).
  - cbn [stableJson canonicalizeForJson]. eexists; split; [reflexivity|].
    destruct l as [|x l]; [by apply (reads_arr_nil [])|]. apply reads_arr.
    rewrite <- (app_nil_r (join_with _ _)). apply reads_list_join; [|done|done].
    cbn [plain] in Hp. rewrite forallb_forall in Hp. apply Forall2_fmap, Forall_Forall2_diag, List.Forall_forall.
    intros y Hy. apply reads_padded. destruct (IH y Hy (Hp y Hy)) as (t & -> & Ht). done.
  - apply plain_members in Hp as (Hnd & _ & Hp). cbn [stableJson canonicalizeForJson].
    eexists; split; [reflexivity|].
    change (sort_members (map (λ kv, (kv.1, canonicalizeForJson kv.2)) kvs)) with (canonical_members kvs).
    assert (Forall2 padded_member
      (map (λ kv, quote_json kv.1 ++ 58 :: kv.2)
         (sort_members (map (λ kv, (kv.1, default (lit "undefined") (stableJson kv.2))) kvs)))
      (canonical_members kvs)) as Hm.
    { unfold canonical_members. rewrite <- (sort_members_map canonicalizeForJson).
      rewrite <- (sort_members_map (λ x, default (lit "undefined") (stableJson x))), map_map. apply Forall2_fmap.
      apply Forall_Forall2_diag, List.Forall_forall. intros [k x] Hx%list_elem_of_In.
      rewrite sort_members_perm in Hx. destruct (IH (k, x)) as (t & Ht & Hr); [by apply list_elem_of_In|by apply (Hp (k, x))|].
      cbn in *. rewrite Ht. exists [], [], [], t, []. by rewrite app_nil_r. }
    destruct Hm as [|u kv us ms Hu Hm]; [by apply (reads_obj_nil [])|].
    apply reads_obj. rewrite <- (app_nil_r (join_with _ _)). apply reads_members_join; [by constructor|done|done].
Qed.

(** Canonicalizing does not change the stable text. *)
Lemma stableJson_canonical v : plain v = true → stableJson (canonicalizeForJson v) = stableJson v.
Proof.
  induction v as [| |b|m|s|l IH|kvs IH] using jsval_rect_nested; try done; intros Hp; rewrite List.Forall_forall in IH.
  - cbn [stableJson canonicalizeForJson plain] in *. rewrite forallb_forall in Hp. do 3 f_equal. f_equal.
    rewrite map_map. apply map_ext_in. intros x Hx. by rewrite IH by auto.
  - apply plain_members in Hp as (Hnd & _ & Hp). cbn [stableJson canonicalizeForJson].
    change (sort_members (map (λ kv, (kv.1, canonicalizeForJson kv.2)) kvs)) with (canonical_members kvs).
    set (txt := λ kv : jstring * jsval, (kv.1, default (lit "undefined") (stableJson kv.2))).
    do 3 f_equal. f_equal. f_equal.
    rewrite (sort_members_ext _ (map txt kvs)); [done| |].
    + rewrite (Permutation_map txt (object_of_perm _ (canonical_members_keys kvs Hnd))).
      unfold canonical_members. rewrite (Permutation_map txt (sort_members_perm _)), map_map.
      erewrite map_ext_in; [reflexivity|]. intros [k x] Hx. unfold txt. cbn [fst snd]. do 2 f_equal.
      by apply (IH (k, x) Hx), (Hp (k, x)), list_elem_of_In.
    + unfold txt. rewrite (mkeys_map (λ x, default (lit "undefined") (stableJson x))). by apply object_of_NoDup, canonical_members_keys.
Qed.

(** Comparing stable texts compares canonical forms. *)
Lemma stableJson_eq v w : plain v = true → plain w = true →
  stableJson v = stableJson w ↔ canonicalizeForJson v = canonicalizeForJson w.
Proof.
  intros Hv Hw. split; intros H.
  - destruct (stableJson_reads v Hv) as (t & Et & Ht), (stableJson_reads w Hw) as (u & Eu & Hu).
    assert (t = u) as -> by congruence.
    pose proof (json_parse_reads [] u _ [] blank_nil blank_nil Ht) as H1.
    pose proof (json_parse_reads [] u _ [] blank_nil blank_nil Hu) as H2. congruence.
  - by rewrite <- (stableJson_canonical v Hv), H, stableJson_canonical.
Qed.

Lemma canonical_idem v : plain v = true → canonicalizeForJson (canonicalizeForJson v) = canonicalizeForJson v.
Proof. intros H. apply stableJson_eq; [by apply canonical_plain|done|]. by apply stableJson_canonical. Qed.

Lemma fieldState_mget r k : fieldState r k = mget r k.
Proof.
  unfold fieldState, has_own. induction r as [|[k' v] r IH]; cbn; [done|].
  rewrite jeqb_sym. destruct (k' =s? k); [done|exact IH].
Qed.

(** ** The three-way rule *)

Definition plain_state (s : FieldState) : Prop := ∀ v, s = Some v → plain v = true.

(** Two states agree up to the order of the members of nested objects. *)
Definition same_state (a b : FieldState) : Prop := canonicalizeForJson <$> a = canonicalizeForJson <$> b.

#[export] Instance same_state_equiv : Equivalence same_state.
Proof. unfold same_state. split; [done|by intros a b|intros a b c; congruence]. Qed.

Lemma fieldStatesEqual_spec a b : plain_state a → plain_state b → fieldStatesEqual a b = true ↔ same_state a b.
Proof.
  unfold plain_state, same_state. intros Hv Hw. destruct a as [v|], b as [w|]; cbn; [|by split..].
  rewrite bool_decide_eq_true, stableJson_eq by auto. split; [by intros ->|by intros [= ->]].
Qed.

(** What a field may become: the value of the side that changed it, or the value
    both sides agree on. *)
Definition three_way (base current device merged : FieldState) : Prop :=
  (same_state current base ∧ same_state merged device) ∨
  (same_state device base ∧ same_state merged current) ∨
  (same_state current device ∧ same_state merged current).

#[export] Instance three_way_proper :
  Proper (same_state ==> same_state ==> same_state ==> same_state ==> iff) three_way.
Proof.
  intros b b' Hb c c' Hc d d' Hd m m' Hm. unfold three_way. unfold same_state in *.
  by rewrite Hb, Hc, Hd, Hm.
Qed.

Lemma three_way_sym b c d m : three_way b c d m → three_way b d c m.
Proof. unfold three_way, same_state. intuition congruence. Qed.

Lemma three_way_unique b c d m m' : three_way b c d m → three_way b c d m' → same_state m m'.
Proof. unfold three_way, same_state. intuition congruence. Qed.

Lemma mergeAtomicField_Ok label b c d m :
  plain_state b → plain_state c → plain_state d → mergeAtomicField label b c d = Ok m →
  three_way b c d m ∧ (m = c ∨ m = d).
Proof.
  intros Hb Hc Hd. unfold mergeAtomicField, three_way.
  destruct (fieldStatesEqual c b) eqn:E1; [apply (fieldStatesEqual_spec _ _ Hc Hb) in E1; intros [= <-]; split; [naive_solver|auto]|].
  destruct (fieldStatesEqual d b) eqn:E2; [apply (fieldStatesEqual_spec _ _ Hd Hb) in E2; intros [= <-]; split; [naive_solver|auto]|].
  destruct (fieldStatesEqual c d) eqn:E3; [apply (fieldStatesEqual_spec _ _ Hc Hd) in E3; intros [= <-]; split; [naive_solver|auto]|done].
Qed.

Lemma mergeAtomicField_total label b c d m :
  plain_state b → plain_state c → plain_state d → three_way b c d m →
  is_ok (mergeAtomicField label b c d) = true.
Proof.
  intros Hb Hc Hd H. unfold mergeAtomicField.
  destruct (fieldStatesEqual c b) eqn:E1; [done|]. destruct (fieldStatesEqual d b) eqn:E2; [done|].
  destruct (fieldStatesEqual c d) eqn:E3; [done|]. exfalso.
  destruct H as [[H _]|[[H _]|[H _]]]; apply fieldStatesEqual_spec in H; try done; congruence.
Qed.

End semantic_json.
