(* ===== verification/CanvasMerge.v ===== *)
(** * Merging JSON canvases

    [semanticMergeCanvasFile] of gitService.ts: a canvas is read into its nodes and
    edges by id, the three sides are merged id by id and field by field, the order of
    the ids is merged on its own, and the result is printed and validated again.
    The merge is three-way in the strict sense: presence of every node and edge,
    every field of it, every top-level field and the order of the surviving ids come
    from the side that changed them, and it refuses where both did differently. *)

From S2P Require Export SemanticJson.

Local Open Scope js_scope.

Section canvas.
Context `{Nm : Numerals}.

(** ** Reading a canvas *)

Record JsonCanvasObject := {
  nodes : jmap record;
  edges : jmap record;
  nodeOrder : list jstring;
  edgeOrder : list jstring
}.

Definition numeric (v : jsval) : bool := match v with JNum n => num_finite n | _ => false end.

Definition assertValidCanvasNode (node : record) : result unit :=
  if negb (is_string (rget node (lit "id")) && is_string (rget node (lit "type"))) then
    Throw (GitCommandError (lit "Canvas nodes must contain string id and type fields."))
  else match List.find (λ field, negb (numeric (rget node field))) (lits ["x"; "y"; "width"; "height"]%string) with
       | Some field => Throw (GitCommandError (lit "Canvas nodes must contain numeric " ++ field ++ lit " fields."))
       | None => Ok ()
       end.

(** The ids read so far are the keys of the map and the order at once. *)
Fixpoint read_nodes (values : list jsval) (ns : jmap record) (order : list jstring) : result (jmap record * list jstring) :=
  match values with
  | [] => Ok (ns, order)
  | node :: values =>
    match as_record node with
    | None => Throw (GitCommandError (lit "Merged canvas node must be an object."))
    | Some nodeRecord =>
      _ ← assertValidCanvasNode nodeRecord;
      match rget nodeRecord (lit "id") with
      | JStr id =>
        if jmem id order then Throw (GitCommandError (lit "Merged canvas node IDs must be unique strings."))
        else read_nodes values (mset ns id nodeRecord) (order ++ [id])
      | _ => Throw (GitCommandError (lit "Merged canvas node IDs must be unique strings."))
      end
    end
  end.

Definition endpoint_fields : list jstring := lits ["fromNode"; "fromSide"; "toNode"; "toSide"]%string.

Fixpoint read_edges (nodeIds : list jstring) (values : list jsval) (es : jmap record) (order : list jstring)
  : result (jmap record * list jstring) :=
  match values with
  | [] => Ok (es, order)
  | edge :: values =>
    match as_record edge with
    | None => Throw (GitCommandError (lit "Merged canvas edge must be an object."))
    | Some edgeRecord =>
      match rget edgeRecord (lit "id") with
      | JStr id =>
        if jmem id order then Throw (GitCommandError (lit "Merged canvas edge IDs must be unique strings."))
        else match rget edgeRecord (lit "fromNode"), rget edgeRecord (lit "fromSide"),
                   rget edgeRecord (lit "toNode"), rget edgeRecord (lit "toSide") with
             | JStr fromNode, JStr _, JStr toNode, JStr _ =>
               if negb (jmem fromNode nodeIds && jmem toNode nodeIds) then
                 Throw (GitCommandError (lit "Merged canvas edges must reference existing nodes."))
               else read_edges nodeIds values (mset es id edgeRecord) (order ++ [id])
             | _, _, _, _ => Throw (GitCommandError (lit "Merged canvas edges must contain required endpoint fields."))
             end
      | _ => Throw (GitCommandError (lit "Merged canvas edge IDs must be unique strings."))
      end
    end
  end.

(** [JSON.parse], whose SyntaxError is not told apart by any caller. *)
Definition parse_json (text : jstring) : result jsval :=
  match json_parse text with Some v => Ok v | None => Throw (mk_error EPlain [] (lit "SyntaxError") []) end.

Definition read_canvas (parsed : jsval) : result JsonCanvasObject :=
  match as_record parsed with
  | None => Throw (GitCommandError (lit "Merged canvas must be a JSON object."))
  | Some r =>
    match rget r (lit "nodes"), rget r (lit "edges") with
    | JArr nodeValues, JArr edgeValues =>
      '(ns, nOrder) ← read_nodes nodeValues [] [];
      '(es, eOrder) ← read_edges nOrder edgeValues [] [];
      Ok {| nodes := ns; edges := es; nodeOrder := nOrder; edgeOrder := eOrder |}
    | _, _ => Throw (GitCommandError (lit "Merged canvas must contain nodes and edges arrays."))
    end
  end.

Definition assertValidJsonCanvas (text : jstring) : result JsonCanvasObject :=
  parsed ← parse_json text; read_canvas parsed.

(** ** What changed *)

(** [stableJson(left) !== stableJson(right)]. *)
Definition differ (left right : jsval) : bool := negb (bool_decide (stableJson left = stableJson right)).

Definition changedObjectKeys (base : option record) (side : record) : list jstring :=
  List.filter (λ key, differ (rget (default [] base) key) (rget side key))
    (js_set (keys (default [] base) ++ keys side)).

Definition objectChanged (base side : record) : bool := (0 <? length (changedObjectKeys (Some base) side))%nat.

Definition orderOf (order ids : list jstring) : jstring :=
  join_with NUL (List.filter (λ id, jmem id ids) order).

(** ** Merging entries *)

Fixpoint mergeEntryFields (label id : jstring) (base current device : record) (names : list jstring) : result record :=
  match names with
  | [] => Ok []
  | key :: names =>
    let currentChanged := differ (rget base key) (rget current key) in
    let deviceChanged := differ (rget base key) (rget device key) in
    if currentChanged && deviceChanged && differ (rget current key) (rget device key) then
      Throw (GitCommandError (lit "Canvas " ++ label ++ lit " " ++ id ++ lit " same-field edits require review."))
    else
      merged ← mergeEntryFields label id base current device names;
      Ok (if deviceChanged then (key, rget device key) :: merged
          else if currentChanged then (key, rget current key) :: merged
          else if has_own base key then (key, rget base key) :: merged
          else merged)
  end.

Definition mergeCanvasEntry (label id : jstring) (base current device : option record) : result (option record) :=
  let refuse why := Throw (GitCommandError (lit "Canvas " ++ label ++ lit " " ++ id ++ lit why)) in
  match base with
  | None =>
    match current, device with
    | Some c, Some d => if differ (JObj c) (JObj d) then refuse " concurrent additions require review."%string else Ok (Some c)
    | Some c, None => Ok (Some c)
    | None, _ => Ok device
    end
  | Some b =>
    match current, device with
    | None, None => Ok None
    | None, Some d => if objectChanged b d then refuse " delete-vs-edit requires review."%string else Ok None
    | Some c, None => if objectChanged b c then refuse " edit-vs-delete requires review."%string else Ok None
    | Some c, Some d =>
      if negb (differ (JObj c) (JObj b)) then Ok (Some d) else
      if negb (differ (JObj d) (JObj b)) then Ok (Some c) else
      if negb (differ (JObj c) (JObj d)) then Ok (Some c) else
      members ← mergeEntryFields label id b c d (sort_strings (js_set (keys b ++ keys c ++ keys d)));
      let merged := object_of members in
      _ ← (if label =s? lit "node" then assertValidCanvasNode merged else Ok ());
      Ok (Some merged)
    end
  end.

Fixpoint mergeEntries (label : jstring) (base current device : jmap record) (ids : list jstring) : result (jmap record) :=
  match ids with
  | [] => Ok []
  | id :: ids =>
    entry ← mergeCanvasEntry label id (mget base id) (mget current id) (mget device id);
    rest ← mergeEntries label base current device ids;
    Ok (match entry with Some merged => (id, merged) :: rest | None => rest end)
  end.

Definition mergeCanvasCollection (base current device : jmap record) (label : jstring) : result (jmap record) :=
  mergeEntries label base current device
    (sort_strings (js_set (mkeys base ++ mkeys current ++ mkeys device))).

(** ** Merging the order of the ids *)

Definition indexOf (l : list jstring) (x : jstring) : Z :=
  match list_find (λ y, y = x) l with Some (n, _) => Z.of_nat n | None => -1 end.

(** [list.splice(start, 0, x)]: a negative start counts from the end. *)
Definition splice_in (start : Z) (x : jstring) (l : list jstring) : list jstring :=
  let n := Z.to_nat (if start <? 0 then Z.max 0 (Z.of_nat (length l) + start) else start)%Z in
  firstn n l ++ x :: skipn n l.

Definition nearestPreviousPresent (order : list jstring) (start : nat) (candidates : list jstring) : option jstring :=
  List.find (λ id, jmem id candidates) (rev (firstn start order)).

Definition nearestNextPresent (order : list jstring) (start : nat) (candidates : list jstring) : option jstring :=
  List.find (λ id, jmem id candidates) (skipn (S start) order).

(** An empty id is found but not taken for an anchor. *)
Definition anchor (found : option jstring) : option jstring :=
  match found with Some [] => None | _ => found end.

Definition integrateCanvasAddition (sideOrder baseIds mergedIds : list jstring) (result : list jstring) (index : nat)
  : list jstring :=
  match sideOrder !! index with
  | None => result
  | Some id =>
    if jmem id baseIds || negb (jmem id mergedIds) || jmem id result then result else
    match anchor (nearestPreviousPresent sideOrder index result) with
    | Some before => splice_in (indexOf result before + 1) id result
    | None =>
      match anchor (nearestNextPresent sideOrder index result) with
      | Some after => splice_in (indexOf result after) id result
      | None => result ++ [id]
      end
    end
  end.

Definition integrateCanvasAdditions (result sideOrder baseIds mergedIds : list jstring) : list jstring :=
  fold_left (integrateCanvasAddition sideOrder baseIds mergedIds) (seq 0 (length sideOrder)) result.

Definition mergeCanvasOrder (baseOrder currentOrder deviceOrder mergedIds : list jstring) (label : jstring)
  : result (list jstring) :=
  let survivingBaseIds := js_set (List.filter (λ id, jmem id mergedIds) baseOrder) in
  let baseExistingOrder := orderOf baseOrder survivingBaseIds in
  let currentExistingOrder := orderOf currentOrder survivingBaseIds in
  let deviceExistingOrder := orderOf deviceOrder survivingBaseIds in
  if negb (currentExistingOrder =s? baseExistingOrder) && negb (deviceExistingOrder =s? baseExistingOrder)
     && negb (currentExistingOrder =s? deviceExistingOrder) then
    Throw (GitCommandError (lit "Canvas " ++ label ++ lit " concurrent order changes require review."))
  else
    let surviving := List.filter (λ id, jmem id survivingBaseIds) in
    let orderedExisting :=
      if negb (currentExistingOrder =s? baseExistingOrder) then surviving currentOrder
      else if negb (deviceExistingOrder =s? baseExistingOrder) then surviving deviceOrder
      else surviving baseOrder in
    let baseIds := js_set baseOrder in
    let result := integrateCanvasAdditions orderedExisting currentOrder baseIds mergedIds in
    let result := integrateCanvasAdditions result deviceOrder baseIds mergedIds in
    Ok (map snd (List.filter (λ entry, jmem entry.2 mergedIds && (indexOf result entry.2 =? Z.of_nat entry.1)%Z)
                   (combine (seq 0 (length result)) result))).

(** ** The last check *)

Definition assertCanvasCollectionMergeAllowed (base current device : jmap record) (label : jstring) : result unit :=
  let refuse why := Throw (GitCommandError (lit "Canvas " ++ label ++ lit why)) in
  (fix each ids := match ids with
   | [] => Ok ()
   | id :: ids =>
     match mget base id, mget current id, mget device id with
     | Some b, None, Some d => if objectChanged b d then refuse " delete-vs-edit requires review."%string else each ids
     | Some b, Some c, None => if objectChanged b c then refuse " edit-vs-delete requires review."%string else each ids
     | baseValue, Some c, Some d =>
       if existsb (λ key, jmem key (changedObjectKeys baseValue d) && differ (rget c key) (rget d key))
            (changedObjectKeys baseValue c)
       then refuse " same-field edits require review."%string else each ids
     | _, _, _ => each ids
     end
   end) (js_set (mkeys base ++ mkeys current ++ mkeys device)).

Definition assertCanvasOrderMergeAllowed (baseOrder currentOrder deviceOrder mergedOrder : list jstring) (label : jstring)
  : result unit :=
  let baseIds := js_set baseOrder in
  let baseExistingOrder := orderOf baseOrder baseIds in
  let currentExistingOrder := orderOf currentOrder baseIds in
  let deviceExistingOrder := orderOf deviceOrder baseIds in
  let mergedExistingOrder := orderOf mergedOrder baseIds in
  if negb (currentExistingOrder =s? baseExistingOrder) && negb (deviceExistingOrder =s? baseExistingOrder)
     && negb (currentExistingOrder =s? deviceExistingOrder) then
    Throw (GitCommandError (lit "Canvas " ++ label ++ lit " concurrent order changes require review."))
  else if negb (mergedExistingOrder =s? currentExistingOrder) && negb (mergedExistingOrder =s? deviceExistingOrder)
     && negb (mergedExistingOrder =s? baseExistingOrder) then
    Throw (GitCommandError (lit "Canvas " ++ label ++ lit " order merge could not be validated."))
  else Ok ().

Definition assertCanvasMergeAllowed (base current device merged : JsonCanvasObject) : result unit :=
  _ ← assertCanvasCollectionMergeAllowed (nodes base) (nodes current) (nodes device) (lit "node");
  _ ← assertCanvasCollectionMergeAllowed (edges base) (edges current) (edges device) (lit "edge");
  _ ← assertCanvasOrderMergeAllowed (nodeOrder base) (nodeOrder current) (nodeOrder device) (nodeOrder merged) (lit "node");
  assertCanvasOrderMergeAllowed (edgeOrder base) (edgeOrder current) (edgeOrder device) (edgeOrder merged) (lit "edge").

(** ** The whole file *)

Inductive entry_kind := KNode | KEdge.

Definition preferred_fields (kind : entry_kind) : list jstring :=
  match kind with
  | KNode => lits ["id"; "type"; "x"; "y"; "width"; "height"]%string
  | KEdge => lits ["id"; "fromNode"; "fromSide"; "toNode"; "toSide"]%string
  end.

(** The names of a printed record: the preferred ones first, the others sorted. *)
Definition printed_names (first : list jstring) (r : record) : list jstring :=
  List.filter (has_own r) first ++ sort_strings (List.filter (λ candidate, negb (jmem candidate first)) (keys r)).

Definition preferring (first : list jstring) (r : record) : record :=
  object_of (map (λ key, (key, canonicalizeForJson (rget r key))) (printed_names first r)).

Definition canonicalizeCanvasEntry (kind : entry_kind) (entry : record) : record :=
  preferring (preferred_fields kind) entry.

Definition requiredCanvasEntry (entries : jmap record) (id : jstring) : result record :=
  match mget entries id with
  | Some entry => Ok entry
  | None => Throw (GitCommandError (lit "Merged Canvas order references a missing entry."))
  end.

Definition structural_key (key : jstring) : bool := (key =s? lit "nodes") || (key =s? lit "edges").

Fixpoint mergeRootFields (base current device : record) (names : list jstring) : result record :=
  match names with
  | [] => Ok []
  | key :: names =>
    merged ← mergeAtomicField (lit "Canvas top-level field " ++ key)
               (fieldState base key) (fieldState current key) (fieldState device key);
    rest ← mergeRootFields base current device names;
    Ok (match merged with Some value => (key, value) :: rest | None => rest end)
  end.

Definition mergeCanvasRootFields (base current device : record) : result record :=
  members ← mergeRootFields base current device
    (sort_strings (List.filter (λ key, negb (structural_key key)) (js_set (keys base ++ keys current ++ keys device))));
  Ok (object_of members).

Definition canvas_json (nodeOrder edgeOrder : list jstring) (mergedNodes mergedEdges : jmap record) (root : record)
  : result jsval :=
  ns ← traverse (λ id, canonicalizeCanvasEntry KNode <$> requiredCanvasEntry mergedNodes id) nodeOrder;
  es ← traverse (λ id, canonicalizeCanvasEntry KEdge <$> requiredCanvasEntry mergedEdges id) edgeOrder;
  Ok (JObj (object_of ((lit "nodes", JArr (map JObj ns)) :: (lit "edges", JArr (map JObj es))
    :: map (λ key, (key, canonicalizeForJson (rget root key)))
         (List.filter (λ key, negb (structural_key key)) (sort_strings (keys root)))))).

Definition semanticMergeCanvasFile (baseText currentText deviceText : jstring) : result jstring :=
  base ← assertValidJsonCanvas baseText;
  current ← assertValidJsonCanvas currentText;
  device ← assertValidJsonCanvas deviceText;
  mergedNodes ← mergeCanvasCollection (nodes base) (nodes current) (nodes device) (lit "node");
  mergedEdges ← mergeCanvasCollection (edges base) (edges current) (edges device) (lit "edge");
  nOrder ← mergeCanvasOrder (nodeOrder base) (nodeOrder current) (nodeOrder device) (mkeys mergedNodes) (lit "node");
  eOrder ← mergeCanvasOrder (edgeOrder base) (edgeOrder current) (edgeOrder device) (mkeys mergedEdges) (lit "edge");
  baseRoot ← parse_json baseText;
  currentRoot ← parse_json currentText;
  deviceRoot ← parse_json deviceText;
  root ← mergeCanvasRootFields (default [] (as_record baseRoot)) (default [] (as_record currentRoot))
           (default [] (as_record deviceRoot));
  json ← canvas_json nOrder eOrder mergedNodes mergedEdges root;
  let text := default [] (pretty 0 json) ++ [10%N] in
  merged ← assertValidJsonCanvas text;
  _ ← assertCanvasMergeAllowed base current device merged;
  Ok text.

(** ** Fields *)

(** The value of a field: a field that is [undefined] is one that is absent. *)
Definition defined (v : jsval) : FieldState := if is_undef v then None else Some v.
Definition field_of (entry : option record) (key : jstring) : FieldState := r ← entry; defined (rget r key).

(** What a merge builds from parsed members: plain, or deleted by assigning [undefined]. *)
Definition loose_value (v : jsval) : Prop := v = JUndef ∨ plain v = true.
Definition loose (r : record) : Prop := NoDup (keys r) ∧ ∀ kv, kv ∈ r → loose_value kv.2.
Definition loose_entries (m : jmap record) : Prop := ∀ id r, mget m id = Some r → loose r.

Lemma rget_default r k : rget r k = default JUndef (mget r k).
Proof. induction r as [|[k' v] r IH]; cbn; [done|]. by destruct (k' =s? k). Qed.

Lemma rget_loose r k : loose r → loose_value (rget r k).
Proof.
  intros [Hnd Hr]. rewrite rget_default. destruct (mget r k) as [v|] eqn:E; [|by left]. cbn.
  apply mget_elem in E; [|done]. exact (Hr _ E).
Qed.

Lemma plain_loose r : plain (JObj r) = true → loose r.
Proof. intros (Hnd & _ & Hp)%plain_members. split; [done|]. intros kv Hkv. right. auto. Qed.

Lemma defined_plain v : loose_value v → plain_state (defined v).
Proof. intros [->|Hv] w; [done|]. unfold defined. rewrite plain_defined by done. by intros [= <-]. Qed.

Lemma fieldState_defined r k : plain (JObj r) = true → fieldState r k = defined (rget r k).
Proof.
  intros (Hnd & _ & Hp)%plain_members. rewrite fieldState_mget, rget_default.
  destruct (mget r k) as [v|] eqn:E; [|done]. cbn. unfold defined. rewrite plain_defined; [done|].
  apply mget_elem in E; [|done]. exact (Hp _ E).
Qed.

Lemma stable_defined v w : loose_value v → loose_value w →
  stableJson v = stableJson w ↔ same_state (defined v) (defined w).
Proof.
  unfold same_state, defined. intros [->|Hv] [->|Hw]; cbn; rewrite ?plain_defined by done; cbn.
  - done.
  - destruct (stableJson_reads w Hw) as (t & -> & _). done.
  - destruct (stableJson_reads v Hv) as (t & -> & _). done.
  - rewrite stableJson_eq by done. split; [by intros ->|by intros [= ->]].
Qed.

Lemma differ_false v w : loose_value v → loose_value w → differ v w = false ↔ same_state (defined v) (defined w).
Proof. intros Hv Hw. unfold differ. by rewrite negb_false_iff, bool_decide_eq_true, stable_defined. Qed.

Lemma differ_true v w : loose_value v → loose_value w → differ v w = true ↔ ¬ same_state (defined v) (defined w).
Proof. intros Hv Hw. rewrite <- differ_false by done. by rewrite not_false_iff_true. Qed.

(** Records that agree up to the order of members have the same fields. *)
Lemma same_object_fields (b c : record) : plain (JObj b) = true → plain (JObj c) = true →
  canonicalizeForJson (JObj b) = canonicalizeForJson (JObj c) → ∀ key, same_state (fieldState b key) (fieldState c key).
Proof.
  intros Hb Hc Hd key. apply plain_members in Hb as (Hnb & Hob & Hpb), Hc as (Hnc & Hoc & Hpc).
  assert (object_of (canonical_members b) = object_of (canonical_members c)) as E.
  { change (JObj (object_of (canonical_members b)) = JObj (object_of (canonical_members c))) in Hd. by injection Hd. }
  apply (f_equal (λ r, mget r key)) in E. rewrite !mget_canonical in E by done.
  unfold same_state. by rewrite !fieldState_mget.
Qed.

Lemma mget_ext {A} (l k : jmap A) : mkeys l = mkeys k → NoDup (mkeys l) → (∀ x, mget l x = mget k x) → l = k.
Proof.
  intros Hk Hnd H. assert (NoDup (mkeys k)) as Hnd' by (by rewrite <- Hk).
  apply keys_perm_eq; [|done|done]. apply NoDup_Permutation.
  - unfold mkeys in Hnd. by apply NoDup_fmap_1 in Hnd.
  - unfold mkeys in Hnd'. by apply NoDup_fmap_1 in Hnd'.
  - intros [x v]. by rewrite <- !mget_elem, H.
Qed.

(** And records with the same fields agree up to the order of members. *)
Lemma same_fields_object (b c : record) : plain (JObj b) = true → plain (JObj c) = true →
  (∀ key, same_state (fieldState b key) (fieldState c key)) → canonicalizeForJson (JObj b) = canonicalizeForJson (JObj c).
Proof.
  intros Hb Hc H. apply plain_members in Hb as (Hnb & _ & _), Hc as (Hnc & _ & _). cbn [canonicalizeForJson]. do 2 f_equal.
  change (canonical_members b = canonical_members c). pose proof (canonical_members_keys b Hnb) as Nb.
  pose proof (canonical_members_keys c Hnc) as Nc.
  assert (∀ x, mget (canonical_members b) x = mget (canonical_members c) x) as Hget.
  { intros x. specialize (H x). rewrite !fieldState_mget in H. unfold same_state in H.
    rewrite <- (mget_object_of (canonical_members b)), <- (mget_object_of (canonical_members c)) by done.
    by rewrite !mget_canonical. }
  apply mget_ext; [|done|done]. unfold canonical_members in *. rewrite !sort_members_keys, !mkeys_map in *.
  apply sort_strings_ext; [done|done|]. intros x. specialize (H x). rewrite !fieldState_mget in H.
  change (x ∈ mkeys b ↔ x ∈ mkeys c). rewrite <- !mget_keys. unfold same_state in H.
  destruct (mget b x), (mget c x); try done.
Qed.

Lemma same_record_fields (b c : record) : plain (JObj b) = true → plain (JObj c) = true → differ (JObj b) (JObj c) = false →
  ∀ key, same_state (field_of (Some b) key) (field_of (Some c) key).
Proof.
  intros Hb Hc Hd key. unfold differ in Hd. rewrite negb_false_iff, bool_decide_eq_true, stableJson_eq in Hd by done.
  cbn [field_of mbind option_bind]. rewrite <- !fieldState_defined by done. by apply same_object_fields.
Qed.

Lemma objectChanged_false (b s : record) : plain (JObj b) = true → plain (JObj s) = true → objectChanged b s = false →
  ∀ key, same_state (field_of (Some b) key) (field_of (Some s) key).
Proof.
  intros Hb Hs Ho key. unfold objectChanged in Ho. apply Nat.ltb_ge in Ho.
  assert (changedObjectKeys (Some b) s = []) as E by (apply nil_length_inv; lia).
  apply plain_loose in Hb, Hs. cbn [field_of mbind option_bind].
  apply differ_false; [by apply rget_loose..|]. destruct (differ _ _) eqn:Ed; [|done]. exfalso.
  assert (key ∈ changedObjectKeys (Some b) s) as Hin; [|rewrite E in Hin; by apply not_elem_of_nil in Hin].
  apply filter_elem. split; [|exact Ed]. apply js_set_elem, elem_of_app. cbn [default from_option id].
  destruct (decide (key ∈ keys b)) as [|Hnb]; [by left|]. destruct (decide (key ∈ keys s)) as [|Hns]; [by right|].
  rewrite !rget_has_own in Ed; [done|..]; apply not_true_iff_false; by rewrite has_own_elem.
Qed.

(** ** Entries *)

Definition present (entry : option record) : bool := match entry with Some _ => true | None => false end.

(** An entry merges as its presence and each of its fields do. *)
Definition entry_merged (b c d m : option record) : Prop :=
  ((present c = present b ∧ present m = present d) ∨ (present d = present b ∧ present m = present c) ∨
   (present c = present d ∧ present m = present c)) ∧
  ∀ key, three_way (field_of b key) (field_of c key) (field_of d key) (field_of m key).

Definition plain_entry (entry : option record) : Prop := ∀ r, entry = Some r → plain (JObj r) = true.

Lemma mergeEntryFields_keys label id b c d names members :
  mergeEntryFields label id b c d names = Ok members → keys members `sublist_of` names.
Proof.
  revert members. induction names as [|key names IH]; intros members; cbn [mergeEntryFields]; [by intros [= <-]|].
  destruct (_ && differ (rget c key) _); [done|].
  intros (rest & Hr & E)%bind_Ok. apply IH in Hr. injection E as <-.
  destruct (differ _ (rget d key)); [by constructor|]. destruct (differ _ (rget c key)); [by constructor|].
  destruct (has_own b key); by constructor.
Qed.

Lemma mergeEntryFields_loose label id b c d names members : loose b → loose c → loose d →
  mergeEntryFields label id b c d names = Ok members → ∀ kv, kv ∈ members → loose_value kv.2.
Proof.
  intros Hb Hc Hd. revert members. induction names as [|key names IH]; intros members; cbn [mergeEntryFields];
    [intros [= <-] kv Hkv; by apply not_elem_of_nil in Hkv|].
  destruct (_ && differ (rget c key) _); [done|].
  intros (rest & Hr & E)%bind_Ok. specialize (IH _ Hr). injection E as <-.
  destruct (differ _ (rget d key)); [|destruct (differ _ (rget c key)); [|destruct (has_own b key); [|done]]];
    intros kv [->|?]%elem_of_cons; auto; by apply rget_loose.
Qed.

Lemma mergeEntryFields_value label id b c d names members : loose b → loose c → loose d → NoDup names →
  mergeEntryFields label id b c d names = Ok members → ∀ key, key ∈ names →
  three_way (defined (rget b key)) (defined (rget c key)) (defined (rget d key)) (defined (rget members key)).
Proof.
  intros Hb Hc Hd. revert members. induction names as [|k names IH]; intros members Hnd; cbn [mergeEntryFields];
    [intros _ key Hk; by apply not_elem_of_nil in Hk|].
  apply NoDup_cons in Hnd as [Hk Hnd]. destruct (_ && differ (rget c k) _) eqn:Econf; [done|].
  intros (rest & Hr & E)%bind_Ok. pose proof (mergeEntryFields_keys _ _ _ _ _ _ _ Hr) as Hsub.
  specialize (IH _ Hnd Hr). apply (inj Ok) in E as <-. intros key [->|Hin]%elem_of_cons.
  - assert (rget rest k = JUndef) as Hrest.
    { apply rget_has_own, not_true_iff_false. rewrite has_own_elem. intros Hx. apply Hk.
      by eapply elem_of_sublist. }
    rewrite !andb_false_iff in Econf.
    destruct (differ (rget b k) (rget d k)) eqn:Ed.
    + cbn [rget]. rewrite jeqb_refl. unfold three_way.
      destruct Econf as [[Ec|?]|Ec]; [|done|]; apply differ_false in Ec; try by apply rget_loose.
      * left. split; [by symmetry|done].
      * right. right. split; [done|by symmetry].
    + apply differ_false in Ed; [|by apply rget_loose..]. unfold three_way. right. left. split; [by symmetry|].
      destruct (differ (rget b k) (rget c k)) eqn:Ec; [cbn [rget]; by rewrite jeqb_refl|].
      apply differ_false in Ec; [|by apply rget_loose..].
      destruct (has_own b k) eqn:Eo; [cbn [rget]; by rewrite jeqb_refl|].
      rewrite Hrest. by rewrite rget_has_own in Ec.
  - specialize (IH _ Hin). assert (k =s? key = false) as Hne by (apply jeqb_neq; by intros ->). revert IH.
    destruct (differ (rget b k) (rget d k)); [|destruct (differ (rget b k) (rget c k)); [|destruct (has_own b k)]];
      cbn [rget]; by rewrite ?Hne.
Qed.

Lemma rget_object_of ms key : NoDup (keys ms) → rget (object_of ms) key = rget ms key.
Proof. intros H. by rewrite !rget_default, mget_object_of. Qed.

Lemma rget_absent r key : key ∉ keys r → rget r key = JUndef.
Proof. intros H. apply rget_has_own, not_true_iff_false. by rewrite has_own_elem. Qed.

Lemma object_of_loose ms : loose ms → loose (object_of ms).
Proof.
  intros [Hnd H]. split; [by apply object_of_NoDup|]. intros kv. rewrite (object_of_perm ms Hnd). apply H.
Qed.

(** Of three records the merge of their fields has a field for every name they use. *)
Lemma merged_fields label id (b c d : record) members : loose b → loose c → loose d →
  mergeEntryFields label id b c d (sort_strings (js_set (keys b ++ keys c ++ keys d))) = Ok members →
  loose (object_of members) ∧ entry_merged (Some b) (Some c) (Some d) (Some (object_of members)).
Proof.
  intros Hb Hc Hd Hm. set (names := sort_strings _) in Hm.
  assert (NoDup names) as Hnd by exact (proj2 (isort_NoDup jleb _) (js_set_NoDup _)).
  pose proof (mergeEntryFields_keys _ _ _ _ _ _ _ Hm) as Hsub.
  assert (NoDup (keys members)) as Hnm by by eapply sublist_NoDup.
  split; [apply object_of_loose; split; [done|]; exact (mergeEntryFields_loose _ _ _ _ _ _ _ Hb Hc Hd Hm)|].
  split; [by left|]. intros key. cbn [field_of mbind option_bind]. rewrite rget_object_of by done.
  destruct (decide (key ∈ names)) as [Hk|Hk]; [exact (mergeEntryFields_value _ _ _ _ _ _ _ Hb Hc Hd Hnd Hm key Hk)|].
  assert (key ∉ keys members) as Hkm by (intros H; apply Hk; by eapply elem_of_sublist).
  assert (key ∉ keys b ++ keys c ++ keys d) as Hu.
  { intros H. apply Hk. apply (proj2 (isort_elem jleb _ _)). by apply js_set_elem. }
  rewrite !not_elem_of_app in Hu. rewrite !rget_absent by naive_solver. by left.
Qed.

Lemma mergeCanvasEntry_merged label id b c d m :
  plain_entry b → plain_entry c → plain_entry d → mergeCanvasEntry label id b c d = Ok m →
  entry_merged b c d m ∧ ∀ r, m = Some r → loose r.
Proof.
  intros Hb Hc Hd. unfold mergeCanvasEntry, entry_merged, three_way.
  assert (∀ e, plain_entry e → ∀ r, e = Some r → loose r) as Hl by (intros e He r ->; by apply plain_loose, He).
  destruct b as [b|], c as [c|], d as [d|]; cbn [present].
  - destruct (differ (JObj c) (JObj b)) eqn:E1; cbn [negb];
      [|intros [= <-]; split; [|intros r; by apply Hl]; split; [by left|]; intros key; left; split; [|done];
        apply same_record_fields; [by apply Hc|by apply Hb|done]].
    destruct (differ (JObj d) (JObj b)) eqn:E2; cbn [negb];
      [|intros [= <-]; split; [|intros r; by apply Hl]; split; [by left|]; intros key; right; left; split; [|done];
        apply same_record_fields; [by apply Hd|by apply Hb|done]].
    destruct (differ (JObj c) (JObj d)) eqn:E3; cbn [negb];
      [|intros [= <-]; split; [|intros r; by apply Hl]; split; [by left|]; intros key; right; right; split; [|done];
        apply same_record_fields; [by apply Hc|by apply Hd|done]].
    intros (members & Hm & E)%bind_Ok. apply bind_Ok in E as (_ & _ & E). injection E as <-.
    destruct (merged_fields _ _ _ _ _ _ (Hl _ Hb _ eq_refl) (Hl _ Hc _ eq_refl) (Hl _ Hd _ eq_refl) Hm) as [Hlm Hem].
    split; [exact Hem|]. by intros r [= <-].
  - destruct (objectChanged b c) eqn:E; [done|]. intros [= <-]. split; [|done]. split; [by auto|].
    intros key. left. split; [|done]. symmetry. apply objectChanged_false; [by apply Hb|by apply Hc|done].
  - destruct (objectChanged b d) eqn:E; [done|]. intros [= <-]. split; [|done]. split; [by auto|].
    intros key. right. left. split; [|done]. symmetry. apply objectChanged_false; [by apply Hb|by apply Hd|done].
  - intros [= <-]. split; [|done]. split; [by auto|]. intros key. right. right. done.
  - destruct (differ (JObj c) (JObj d)) eqn:E; [done|]. intros [= <-]. split; [|intros r; by apply Hl]. split; [by auto|].
    intros key. right. right. split; [|done]. apply same_record_fields; [by apply Hc|by apply Hd|done].
  - intros [= <-]. split; [|intros r; by apply Hl]. split; [by auto|]. intros key. right. left. done.
  - intros [= <-]. split; [|intros r; by apply Hl]. split; [by auto|]. intros key. left. done.
  - intros [= <-]. split; [|done]. split; [by auto|]. intros key. left. done.
Qed.

Lemma mergeEntries_keys label b c d ids m : mergeEntries label b c d ids = Ok m → mkeys m `sublist_of` ids.
Proof.
  revert m. induction ids as [|id ids IH]; intros m; cbn [mergeEntries]; [by intros [= <-]|].
  intros (e & _ & (rest & Hr & E)%bind_Ok)%bind_Ok. apply (inj Ok) in E as <-. apply IH in Hr.
  destruct e; cbn; by constructor.
Qed.

Lemma mergeEntries_get label b c d ids m : NoDup ids → mergeEntries label b c d ids = Ok m →
  ∀ id, id ∈ ids → mergeCanvasEntry label id (mget b id) (mget c id) (mget d id) = Ok (mget m id).
Proof.
  revert m. induction ids as [|x ids IH]; intros m Hnd; cbn [mergeEntries];
    [intros _ id Hid; by apply not_elem_of_nil in Hid|].
  apply NoDup_cons in Hnd as [Hx Hnd]. intros (e & He & (rest & Hr & E)%bind_Ok)%bind_Ok.
  apply (inj Ok) in E as <-. pose proof (mergeEntries_keys _ _ _ _ _ _ Hr) as Hsub.
  assert (mget rest x = None) as Hrest.
  { destruct (mget rest x) eqn:Ex; [|done]. exfalso. apply Hx. eapply elem_of_sublist; [|exact Hsub].
    apply mget_keys. by rewrite Ex. }
  intros id [->|Hid]%elem_of_cons.
  - rewrite He. f_equal. destruct e; cbn; by rewrite ?jeqb_refl.
  - rewrite (IH _ Hnd Hr id Hid). f_equal. destruct e; cbn; [|done].
    by rewrite (proj2 (jeqb_neq x id)) by (by intros ->).
Qed.

Lemma mget_None {A} (m : jmap A) k : k ∉ mkeys m → mget m k = None.
Proof. rewrite <- mget_keys. destruct (mget m k); [|done]. intros []. eauto. Qed.

Lemma mergeCanvasCollection_spec b c d label m : mergeCanvasCollection b c d label = Ok m →
  NoDup (mkeys m) ∧ ∀ id, mergeCanvasEntry label id (mget b id) (mget c id) (mget d id) = Ok (mget m id).
Proof.
  unfold mergeCanvasCollection. set (ids := js_set _). intros H.
  assert (NoDup (sort_strings ids)) as Hnd by exact (proj2 (isort_NoDup jleb _) (js_set_NoDup _)).
  pose proof (mergeEntries_keys _ _ _ _ _ _ H) as Hsub.
  split; [by eapply sublist_NoDup|]. intros id. destruct (decide (id ∈ sort_strings ids)) as [Hid|Hid].
  - exact (mergeEntries_get _ _ _ _ _ _ Hnd H id Hid).
  - assert (id ∉ mkeys b ++ mkeys c ++ mkeys d) as Hu.
    { intros Hin. apply Hid. apply (proj2 (isort_elem jleb _ _)). by apply js_set_elem. }
    rewrite !not_elem_of_app in Hu. rewrite !mget_None; [done|..]; try naive_solver.
    intros Hm. apply Hid. by eapply elem_of_sublist.
Qed.

(** ** Order *)

Section order.
Implicit Types l order : list jstring.

Lemma splice_perm n (x : jstring) l : splice_in n x l ≡ₚ x :: l.
Proof. unfold splice_in. rewrite <- Permutation_middle. by rewrite firstn_skipn. Qed.

Lemma splice_filter (f : jstring → bool) n x l : f x = false → List.filter f (splice_in n x l) = List.filter f l.
Proof.
  intros H. unfold splice_in. rewrite List.filter_app. cbn [List.filter]. rewrite H, <- List.filter_app.
  by rewrite firstn_skipn.
Qed.

(** An addition of one side: in the merge, not of the base, not placed yet. *)
Definition addition (baseIds mergedIds : list jstring) (id : jstring) : Prop := id ∉ baseIds ∧ id ∈ mergedIds.

Lemma integrate_one (order baseIds mergedIds result : list jstring) (index : nat) :
  (∃ id, order !! index = Some id ∧ addition baseIds mergedIds id ∧ id ∉ result ∧
     integrateCanvasAddition order baseIds mergedIds result index ≡ₚ id :: result ∧
     ∀ f, f id = false → List.filter f (integrateCanvasAddition order baseIds mergedIds result index) = List.filter f result) ∨
  (integrateCanvasAddition order baseIds mergedIds result index = result ∧
     ∀ id, order !! index = Some id → addition baseIds mergedIds id → id ∈ result).
Proof.
  unfold integrateCanvasAddition, addition. destruct (order !! index) as [id|]; [|by right].
  destruct (jmem id baseIds) eqn:E1; cbn [orb].
  { right. split; [done|]. intros ? [= <-] []. by apply jmem_elem in E1. }
  destruct (jmem id mergedIds) eqn:E2; cbn [negb orb]; [|right; split; [done|]; intros ? [= <-] [_ H]; by apply jmem_elem in H; congruence].
  destruct (jmem id result) eqn:E3; [right; split; [done|]; intros ? [= <-] _; by apply jmem_elem|].
  left. exists id. rewrite <- jmem_not_elem, <- jmem_elem, <- jmem_not_elem. split_and!; try done;
    (destruct (anchor (nearestPreviousPresent _ _ _)); [|destruct (anchor (nearestNextPresent _ _ _))]);
    try apply splice_perm; try (intros; by apply splice_filter).
  - symmetry. apply Permutation_cons_append.
  - intros f Hf. rewrite List.filter_app. cbn [List.filter]. by rewrite Hf, app_nil_r.
Qed.

Lemma integrate_spec (order baseIds mergedIds result : list jstring) : NoDup result →
  let result' := integrateCanvasAdditions result order baseIds mergedIds in
  NoDup result' ∧
  (∀ x, x ∈ result' ↔ x ∈ result ∨ (x ∈ order ∧ addition baseIds mergedIds x)) ∧
  (∀ f, (∀ x, f x = true → x ∈ baseIds) → List.filter f result' = List.filter f result).
Proof.
  unfold integrateCanvasAdditions. intros Hnd. cbn.
  assert (∀ js r, NoDup r → let r' := fold_left (integrateCanvasAddition order baseIds mergedIds) js r in
    NoDup r' ∧
    (∀ x, x ∈ r' ↔ x ∈ r ∨ ∃ j, j ∈ js ∧ order !! j = Some x ∧ addition baseIds mergedIds x) ∧
    (∀ f, (∀ x, f x = true → x ∈ baseIds) → List.filter f r' = List.filter f r)) as H.
  { induction js as [|j js IH]; intros r Hr; cbn.
    - split_and!; [done| |done]. intros x. split; [by left|]. intros [?|(j & Hj & _)]; [done|by apply not_elem_of_nil in Hj].
    - pose proof (integrate_one order baseIds mergedIds r j) as Hone.
      set (r1 := integrateCanvasAddition order baseIds mergedIds r j) in *.
      assert (NoDup r1 ∧ (∀ x, x ∈ r1 ↔ x ∈ r ∨ (order !! j = Some x ∧ addition baseIds mergedIds x)) ∧
        (∀ f, (∀ x, f x = true → x ∈ baseIds) → List.filter f r1 = List.filter f r)) as (H1 & H2 & H3).
      { destruct Hone as [(id & Hj & Ha & Hnr & Hp & Hf)|[-> Hall]].
        - split_and!.
          + rewrite Hp. by constructor.
          + intros x. rewrite Hp, elem_of_cons. naive_solver.
          + intros f Hb. apply Hf. destruct (f id) eqn:E; [|done]. by apply Hb in E; destruct Ha.
        - split_and!; [done| |done]. naive_solver. }
      destruct (IH r1 H1) as (I1 & I2 & I3). split_and!; [done| |].
      + intros x. rewrite I2, H2. setoid_rewrite elem_of_cons. naive_solver.
      + intros f Hf. by rewrite I3, H3. }
  destruct (H (seq 0 (length order)) result Hnd) as (H1 & H2 & H3). split_and!; [done| |done].
  intros x. rewrite H2. f_equiv. split.
  - intros (j & _ & Hj & Ha). split; [|done]. by eapply list_elem_of_lookup_2.
  - intros [[j Hj]%list_elem_of_lookup Ha]. exists j. split; [|done]. apply elem_of_seq.
    apply lookup_lt_Some in Hj. lia.
Qed.

Lemma indexOf_lookup l i x : NoDup l → l !! i = Some x → indexOf l x = Z.of_nat i.
Proof.
  intros Hnd Hi. unfold indexOf. destruct (list_find (λ y, y = x) l) as [[n y]|] eqn:E.
  - apply list_find_Some in E as (Hn & -> & _). f_equal. by eapply NoDup_lookup.
  - exfalso. eapply list_find_None in E. rewrite Forall_forall in E. apply (E x); [|done].
    by eapply list_elem_of_lookup_2.
Qed.

(** The last filter of the merged order removes nothing. *)
Lemma first_occurrences_id l ids : NoDup l → (∀ x, x ∈ l → x ∈ ids) →
  map snd (List.filter (λ entry : nat * jstring, jmem entry.2 ids && (indexOf l entry.2 =? Z.of_nat entry.1)%Z)
    (combine (seq 0 (length l)) l)) = l.
Proof.
  intros Hnd Hids. rewrite filter_all.
  - generalize 0%nat as k. clear. induction l as [|x l IH]; intros k; cbn; [done|]. by rewrite IH.
  - intros [i x] Hix. apply list_elem_of_In, (In_nth _ _ (0%nat, x)) in Hix as (n & Hn & Hx).
    rewrite length_combine, length_seq, Nat.min_id in Hn. rewrite combine_nth in Hx by by rewrite length_seq.
    injection Hx as Hi Hx. rewrite seq_nth in Hi by done. cbn in Hi. subst i.
    destruct (lookup_lt_is_Some_2 l n Hn) as [y Hl]. rewrite nth_lookup, Hl in Hx. cbn in Hx. subst y.
    cbn [fst snd]. rewrite (indexOf_lookup l n x) by done. rewrite Z.eqb_refl, andb_true_r.
    apply jmem_elem, Hids. by eapply list_elem_of_lookup_2.
Qed.

(** The ids of the base that survive the merge, in the order of one side. *)
Definition kept (base merged l : list jstring) : list jstring :=
  List.filter (λ id, jmem id base && jmem id merged) l.

Definition order_merged (b c d m : list jstring) : Prop :=
  (kept b m c = kept b m b ∧ kept b m m = kept b m d) ∨ (kept b m d = kept b m b ∧ kept b m m = kept b m c) ∨
  (kept b m c = kept b m d ∧ kept b m m = kept b m c).

Lemma join_with_inj sep l k : length l = length k →
  Forall (λ s, sep ∉ s) l → Forall (λ s, sep ∉ s) k → join_with sep l = join_with sep k → l = k.
Proof.
  intros Hlen Hl Hk H. destruct l as [|x l], k as [|y k]; try done.
  rewrite <- (join_split sep (x :: l)), <- (join_split sep (y :: k)) by done. by rewrite H.
Qed.

Lemma filter_mem_ext (p q : jstring → bool) l : (∀ x, x ∈ l → p x = q x) → List.filter p l = List.filter q l.
Proof.
  induction l as [|x l IH]; intros H; cbn; [done|]. rewrite (H x) by by left.
  rewrite IH; [done|]. intros. apply H. by right.
Qed.

Lemma orderOf_eq b m side other : NoDup side → NoDup other →
  (∀ x, x ∈ b → x ∈ m → x ∈ side ∧ x ∈ other) → Forall (λ s, NUL ∉ s) b →
  join_with NUL (kept b m side) = join_with NUL (kept b m other) → kept b m side = kept b m other.
Proof.
  intros Hs Ho Hin Hnul. apply join_with_inj.
  - apply Permutation_length, NoDup_Permutation; [by apply filter_NoDup..|]. intros x. unfold kept.
    rewrite !filter_elem, !andb_true_iff, !jmem_elem. naive_solver.
  - rewrite Forall_forall in Hnul |- *. intros x [_ [Hx _]%andb_true_iff]%filter_elem. by apply Hnul, jmem_elem.
  - rewrite Forall_forall in Hnul |- *. intros x [_ [Hx _]%andb_true_iff]%filter_elem. by apply Hnul, jmem_elem.
Qed.

Lemma mergeCanvasOrder_spec b c d ids label o : NoDup b → NoDup c → NoDup d →
  (∀ x, x ∈ b → x ∈ ids → x ∈ c ∧ x ∈ d) → (∀ x, x ∈ ids → x ∈ b ∨ x ∈ c ∨ x ∈ d) →
  mergeCanvasOrder b c d ids label = Ok o →
  NoDup o ∧ (∀ x, x ∈ o ↔ x ∈ ids) ∧ (Forall (λ s, NUL ∉ s) b → order_merged b c d o).
Proof.
  intros Hb Hc Hd Hin Hall. unfold mergeCanvasOrder, orderOf.
  assert (∀ l, List.filter (λ id, jmem id (js_set (List.filter (λ id, jmem id ids) b))) l = kept b ids l) as Hk.
  { intros l. apply filter_mem_ext. intros x _. apply eq_iff_eq_true.
    by rewrite andb_true_iff, !jmem_elem, js_set_elem, filter_elem, jmem_elem. }
  rewrite !Hk. destruct (_ && negb (join_with NUL (kept b ids c) =s? _)) eqn:Econf; [done|].
  set (existing := if negb _ then _ else _).
  assert (∃ side, existing = kept b ids side ∧ NoDup side ∧ (∀ x, x ∈ b → x ∈ ids → x ∈ side) ∧
    (Forall (λ s, NUL ∉ s) b →
      (kept b ids c = kept b ids b ∧ existing = kept b ids d) ∨ (kept b ids d = kept b ids b ∧ existing = kept b ids c) ∨
      (kept b ids c = kept b ids d ∧ existing = kept b ids c))) as (side & -> & Hs & Hside & H3).
  { subst existing. rewrite !andb_false_iff, !negb_false_iff, !jeqb_eq in Econf.
    destruct (jeqb_spec (join_with NUL (kept b ids c)) (join_with NUL (kept b ids b))) as [Ec|Ec]; cbn [negb];
      [destruct (jeqb_spec (join_with NUL (kept b ids d)) (join_with NUL (kept b ids b))) as [Ed|Ed]; cbn [negb]|].
    - exists b. split_and!; [done|done|done|]. intros Hn. right. left.
      apply orderOf_eq in Ec, Ed; try done; naive_solver.
    - exists d. split_and!; [done|done|naive_solver|]. intros Hn. left. apply orderOf_eq in Ec; naive_solver.
    - exists c. split_and!; [done|done|naive_solver|]. intros Hn. right.
      destruct Econf as [[?|Ed]|Ed]; [done|left|right]; apply orderOf_eq in Ed; naive_solver. }
  intros E. apply (inj Ok) in E.
  assert (NoDup (kept b ids side)) as Hk0 by by apply filter_NoDup.
  destruct (integrate_spec c (js_set b) ids (kept b ids side) Hk0) as (N1 & M1 & F1).
  destruct (integrate_spec d (js_set b) ids _ N1) as (N2 & M2 & F2).
  set (r := integrateCanvasAdditions _ d _ _) in *.
  assert (∀ x, x ∈ r ↔ x ∈ ids) as Hr.
  { intros x. rewrite M2, M1. unfold kept, addition. rewrite filter_elem, andb_true_iff, !jmem_elem, js_set_elem.
    specialize (Hside x). specialize (Hall x). specialize (Hin x). destruct (decide (x ∈ b)); naive_solver. }
  rewrite first_occurrences_id in E by (done || by intros x ?%Hr). subst o. split_and!; [done|done|].
  intros Hn. specialize (H3 Hn). unfold order_merged.
  assert (∀ l, kept b r l = kept b ids l) as Hkr.
  { intros l. apply filter_mem_ext. intros x _. f_equal. apply eq_iff_eq_true. by rewrite !jmem_elem. }
  rewrite !Hkr. assert (kept b ids r = kept b ids side) as ->; [|done].
  unfold kept at 1. rewrite F2, F1; [|intros x [Hx _]%andb_true_iff; by apply js_set_elem, jmem_elem..].
  apply filter_all. intros x Hx. by apply filter_elem in Hx as [_ Hx].
Qed.

End order.

(** ** Reading *)

Definition entry_id (r : record) : jstring := match rget r (lit "id") with JStr id => id | _ => [] end.
Definition has_id (r : record) : Prop := rget r (lit "id") = JStr (entry_id r).
Lemma as_record_Some v r : as_record v = Some r → v = JObj r.
Proof. by destruct v; intros [= ->]. Qed.

(** Records read one after the other into a map and the order of its keys. *)
Section keyed.
Context (id_of : record → jstring).

Definition by_id (rs : list record) : jmap record := map (λ r, (id_of r, r)) rs.

Lemma mkeys_by_id rs : mkeys (by_id rs) = map id_of rs.
Proof. unfold mkeys, by_id. by rewrite map_map. Qed.

Lemma mget_by_id rs id r : NoDup (map id_of rs) → mget (by_id rs) id = Some r ↔ r ∈ rs ∧ id_of r = id.
Proof.
  intros H. rewrite mget_elem by by rewrite mkeys_by_id. unfold by_id.
  change (map (λ r, (id_of r, r)) rs) with ((λ r, (id_of r, r)) <$> rs).
  rewrite list_elem_of_fmap. naive_solver.
Qed.

Context (ok : record → Prop).

Definition keyed_by (rs : list record) (m : jmap record) (order : list jstring) : Prop :=
  m = by_id rs ∧ order = map id_of rs ∧ NoDup order ∧ Forall ok rs.

Lemma keyed_nil : keyed_by [] [] [].
Proof. split_and!; [done|done|apply NoDup_nil_2|done]. Qed.

Lemma keyed_step rs m order r : keyed_by rs m order → ok r → id_of r ∉ order →
  keyed_by (rs ++ [r]) (mset m (id_of r) r) (order ++ [id_of r]).
Proof.
  intros (-> & -> & Hnd & Hid) Hr Hm. split_and!.
  - unfold by_id at 2. rewrite map_app. apply mset_fresh. by rewrite mkeys_by_id.
  - by rewrite map_app.
  - apply NoDup_app. split_and!; [done| |apply NoDup_singleton]. intros x Hx ->%list_elem_of_singleton. done.
  - apply Forall_app. split; [done|]. by apply Forall_singleton.
Qed.

Lemma keyed_get rs m order id r : keyed_by rs m order → mget m id = Some r ↔ r ∈ rs ∧ id_of r = id.
Proof. intros (-> & -> & Hnd & _). by apply mget_by_id. Qed.

Lemma keyed_keys rs m order : keyed_by rs m order → mkeys m = order ∧ NoDup order.
Proof. intros (-> & -> & Hnd & _). by rewrite mkeys_by_id. Qed.

End keyed.

(** Both readers of canvases: entries with distinct ids, in order. *)
Definition entries_read : list record → jmap record → list jstring → Prop := keyed_by entry_id has_id.

Lemma entries_read_step rs m order r id : entries_read rs m order → rget r (lit "id") = JStr id → jmem id order = false →
  entries_read (rs ++ [r]) (mset m id r) (order ++ [id]).
Proof.
  intros Hrs Hr Hm. apply jmem_not_elem in Hm.
  assert (entry_id r = id) as E by (unfold entry_id; by rewrite Hr).
  rewrite <- E. apply keyed_step; [done|unfold has_id; by rewrite E|by rewrite E].
Qed.

Lemma read_nodes_spec values : ∀ rs m order m' order', entries_read rs m order →
  read_nodes values m order = Ok (m', order') → ∃ rs', values = map JObj rs' ∧ entries_read (rs ++ rs') m' order'.
Proof.
  induction values as [|v values IH]; intros rs m order m' order' Hrs; cbn [read_nodes].
  - intros E. apply (inj Ok) in E. injection E as <- <-. exists []. by rewrite app_nil_r.
  - destruct (as_record v) as [r|] eqn:Er; [|done]. apply as_record_Some in Er as ->.
    intros (_ & _ & E)%bind_Ok. destruct (rget r (lit "id")) eqn:Eid; try done.
    destruct (jmem s order) eqn:Em; [done|].
    destruct (IH _ _ _ _ _ (entries_read_step _ _ _ _ _ Hrs Eid Em) E) as (rs' & -> & H).
    exists (r :: rs'). by rewrite <- app_assoc in H.
Qed.

Lemma read_edges_spec nodeIds values : ∀ rs m order m' order', entries_read rs m order →
  read_edges nodeIds values m order = Ok (m', order') → ∃ rs', values = map JObj rs' ∧ entries_read (rs ++ rs') m' order'.
Proof.
  induction values as [|v values IH]; intros rs m order m' order' Hrs; cbn [read_edges].
  - intros E. apply (inj Ok) in E. injection E as <- <-. exists []. by rewrite app_nil_r.
  - destruct (as_record v) as [r|] eqn:Er; [|done]. apply as_record_Some in Er as ->.
    destruct (rget r (lit "id")) eqn:Eid; try done. destruct (jmem s order) eqn:Em; [done|].
    destruct (rget r (lit "fromNode")); try done. destruct (rget r (lit "fromSide")); try done.
    destruct (rget r (lit "toNode")); try done. destruct (rget r (lit "toSide")); try done.
    destruct (negb _); [done|]. intros E.
    destruct (IH _ _ _ _ _ (entries_read_step _ _ _ _ _ Hrs Eid Em) E) as (rs' & -> & H).
    exists (r :: rs'). by rewrite <- app_assoc in H.
Qed.

Lemma read_canvas_Ok v canvas : read_canvas v = Ok canvas → ∃ r ns es, v = JObj r ∧
  rget r (lit "nodes") = JArr (map JObj ns) ∧ rget r (lit "edges") = JArr (map JObj es) ∧
  entries_read ns (nodes canvas) (nodeOrder canvas) ∧ entries_read es (edges canvas) (edgeOrder canvas).
Proof.
  unfold read_canvas. destruct (as_record v) as [r|] eqn:Er; [|done]. apply as_record_Some in Er as ->.
  destruct (rget r (lit "nodes")) as [| | | | |nv|] eqn:En; try done.
  destruct (rget r (lit "edges")) as [| | | | |ev|] eqn:Ee; try done.
  intros ([ns no] & Hn & H)%bind_Ok. apply bind_Ok in H as ([es eo] & He & E). apply (inj Ok) in E as <-.
  apply (read_nodes_spec _ [] _ _ _ _ (keyed_nil _ _)) in Hn as (rs & -> & Hrs).
  apply (read_edges_spec _ _ [] _ _ _ _ (keyed_nil _ _)) in He as (rs' & -> & Hrs').
  by exists r, rs, rs'.
Qed.

Lemma entries_read_get rs m order id r : entries_read rs m order → mget m id = Some r →
  r ∈ rs ∧ rget r (lit "id") = JStr id.
Proof.
  intros Hrs [Hr <-]%(keyed_get _ _ _ _ _ _ _ Hrs). split; [done|].
  destruct Hrs as (_ & _ & _ & Hid). rewrite Forall_forall in Hid. by apply Hid.
Qed.

Lemma rget_plain r k : plain (JObj r) = true → rget r k = JUndef ∨ plain (rget r k) = true.
Proof. intros H. by apply rget_loose, plain_loose. Qed.

Lemma entries_plain r k rs m order : plain (JObj r) = true → rget r k = JArr (map JObj rs) → entries_read rs m order →
  ∀ id, plain_entry (mget m id).
Proof.
  intros Hp Hk Hm id e He. destruct (rget_plain r k Hp) as [H|H]; rewrite Hk in H; [done|].
  cbn [plain] in H. rewrite forallb_forall in H. apply H, in_map_iff. exists e. split; [done|].
  apply list_elem_of_In. by eapply entries_read_get.
Qed.

(** ** Writing *)

Definition live (kvs : record) : record :=
  concat (map (λ kv, if is_undef kv.2 then [] else [(kv.1, revive kv.2)]) kvs).

Lemma live_keys kvs : keys (live kvs) `sublist_of` keys kvs.
Proof.
  unfold live, keys. induction kvs as [|[k v] kvs IH]; cbn; [done|].
  destruct (is_undef v); cbn; by constructor.
Qed.

Lemma mget_live kvs k : NoDup (keys kvs) → mget (live kvs) k = v ← mget kvs k; revive <$> defined v.
Proof.
  unfold live, keys. induction kvs as [|[k' v] kvs IH]; cbn; [done|]. intros [Hk Hnd]%NoDup_cons.
  unfold defined. destruct (is_undef v) eqn:Ev; cbn.
  - destruct (jeqb_spec k' k) as [->|]; [|by apply IH]. cbn. rewrite Ev. apply mget_None.
    intros Hin. apply Hk. eapply elem_of_sublist; [exact Hin|]. apply (live_keys kvs).
  - destruct (jeqb_spec k' k) as [->|]; [cbn; by rewrite Ev|]. by apply IH.
Qed.

Lemma mget_revived kvs k : NoDup (keys kvs) →
  mget (object_of (live kvs)) k = v ← mget kvs k; revive <$> defined v.
Proof.
  intros H. rewrite mget_object_of by (eapply sublist_NoDup; [exact H|apply live_keys]). by apply mget_live.
Qed.

Lemma mget_tabulate (f : jstring → jsval) names k : mget (map (λ key, (key, f key)) names) k =
  if jmem k names then Some (f k) else None.
Proof.
  induction names as [|x names IH]; cbn; [done|]. rewrite (jeqb_sym k x).
  destruct (jeqb_spec x k) as [->|]; [done|exact IH].
Qed.

Lemma keys_tabulate (f : jstring → jsval) names : keys (map (λ key, (key, f key)) names) = names.
Proof. unfold keys. rewrite map_map. apply map_id. Qed.

Lemma defined_canonical v : loose_value v → revive <$> defined (canonicalizeForJson v) = canonicalizeForJson <$> defined v.
Proof.
  unfold defined. intros [->|Hv]; [done|]. pose proof (canonical_plain v Hv) as Hc.
  rewrite !plain_defined by done. cbn. by rewrite revive_plain.
Qed.

Lemma canonical_safe v : loose_value v → safe_numbers (canonicalizeForJson v) = true.
Proof. intros [->|Hv]; [done|]. by apply plain_safe, canonical_plain. Qed.

Lemma same_state_canonical s : plain_state s → same_state (canonicalizeForJson <$> s) s.
Proof. destruct s as [v|]; [|done]. intros H. unfold same_state. cbn. by rewrite canonical_idem by by apply H. Qed.

Lemma preferred_NoDup kind : NoDup (preferred_fields kind).
Proof. destruct kind; apply (bool_decide_unpack _); vm_compute; exact I. Qed.

Lemma printed_names_spec first r : NoDup first → NoDup (keys r) →
  NoDup (printed_names first r) ∧ ∀ x, x ∈ printed_names first r ↔ x ∈ keys r.
Proof.
  intros Hf Hnd. unfold printed_names. split.
  - apply NoDup_app. split_and!.
    + by apply filter_NoDup.
    + intros x [Hx _]%filter_elem Hs. apply (proj1 (isort_elem jleb _ _)) in Hs.
      apply filter_elem in Hs as [_ Hs]. apply jmem_elem in Hx. by rewrite Hx in Hs.
    + apply (proj2 (isort_NoDup jleb _)), filter_NoDup, Hnd.
  - intros x. rewrite elem_of_app. unfold sort_strings. rewrite isort_elem, !filter_elem, has_own_elem, negb_true_iff, jmem_not_elem.
    destruct (decide (x ∈ first)); naive_solver.
Qed.

Section preferring.
Context (first : list jstring) (Hfirst : NoDup first) (r : record) (Hr : loose r).

Lemma preferring_names_NoDup : NoDup (keys (map (λ key, (key, canonicalizeForJson (rget r key))) (printed_names first r))).
Proof.
  rewrite (keys_tabulate (λ key, canonicalizeForJson (rget r key))). apply printed_names_spec; [done|apply Hr].
Qed.

Lemma preferring_NoDup : NoDup (keys (preferring first r)).
Proof. apply object_of_NoDup, preferring_names_NoDup. Qed.

Lemma mget_preferring key :
  mget (preferring first r) key = if jmem key (keys r) then Some (canonicalizeForJson (rget r key)) else None.
Proof.
  unfold preferring. rewrite mget_object_of by apply preferring_names_NoDup.
  rewrite (mget_tabulate (λ key, canonicalizeForJson (rget r key))).
  destruct (printed_names_spec first r Hfirst (proj1 Hr)) as [_ Hin].
  assert (jmem key (printed_names first r) = jmem key (keys r)) as -> by (apply eq_iff_eq_true; by rewrite !jmem_elem).
  done.
Qed.

Lemma preferring_values kv : kv ∈ preferring first r → ∃ key, kv = (key, canonicalizeForJson (rget r key)).
Proof.
  unfold preferring. rewrite object_of_perm by apply preferring_names_NoDup.
  intros (key & <- & _)%list_elem_of_In%in_map_iff. by exists key.
Qed.

End preferring.

Definition entry_out (kind : entry_kind) (r : record) : record := object_of (live (canonicalizeCanvasEntry kind r)).

Lemma entry_out_field kind r key : loose r →
  mget (entry_out kind r) key = canonicalizeForJson <$> field_of (Some r) key.
Proof.
  intros Hr. unfold entry_out, canonicalizeCanvasEntry.
  rewrite mget_revived by by apply preferring_NoDup, Hr; apply preferred_NoDup.
  rewrite mget_preferring by done || apply preferred_NoDup. cbn [field_of mbind option_bind].
  destruct (jmem key (keys r)) eqn:E; cbn [option_bind mbind].
  - by apply defined_canonical, rget_loose.
  - apply jmem_not_elem in E. by rewrite rget_absent.
Qed.

Lemma entry_out_same kind r key : loose r → same_state (field_of (Some (entry_out kind r)) key) (field_of (Some r) key).
Proof.
  intros Hr. pose proof (entry_out_field kind r key Hr) as H. cbn [field_of mbind option_bind] in *.
  pose proof (defined_plain _ (rget_loose r key Hr)) as Hp.
  transitivity (canonicalizeForJson <$> defined (rget r key)); [|by apply same_state_canonical].
  rewrite rget_default, H. destruct (defined (rget r key)) as [v|]; [|done]. cbn. unfold defined.
  by rewrite plain_defined by by apply canonical_plain, Hp.
Qed.

Lemma entry_out_id kind r id : loose r → rget r (lit "id") = JStr id → entry_id (entry_out kind r) = id.
Proof.
  intros Hr Hid. pose proof (entry_out_field kind r (lit "id") Hr) as H. cbn [field_of mbind option_bind] in H.
  unfold entry_id. rewrite rget_default, H, Hid. done.
Qed.

Lemma entry_out_revive kind r : revive (JObj (canonicalizeCanvasEntry kind r)) = JObj (entry_out kind r).
Proof. done. Qed.

Lemma canonical_entry_safe kind r : loose r → safe_numbers (JObj (canonicalizeCanvasEntry kind r)) = true.
Proof.
  intros Hr. cbn [safe_numbers]. apply forallb_forall. intros kv Hkv%list_elem_of_In.
  apply preferring_values in Hkv as (key & ->); [|apply preferred_NoDup|done]. by apply canonical_safe, rget_loose.
Qed.

(** A collection is read back in the order it was written, with the same fields. *)
Lemma collection_out kind merged order ns rs m order' :
  (∀ id r, mget merged id = Some r → loose r ∧ rget r (lit "id") = JStr id) →
  (∀ id, id ∈ order ↔ id ∈ mkeys merged) →
  Forall2 (λ id x, canonicalizeCanvasEntry kind <$> requiredCanvasEntry merged id = Ok x) order ns →
  map JObj rs = map revive (map JObj ns) → entries_read rs m order' →
  order' = order ∧ ∀ id, present (mget m id) = present (mget merged id) ∧
    ∀ key, same_state (field_of (mget m id) key) (field_of (mget merged id) key).
Proof.
  intros Hmerged Hkeys Hns Hrs Hread.
  assert (Forall2 (λ id x, ∃ r, mget merged id = Some r ∧ x = entry_out kind r) order rs) as Hf.
  { clear -Hns Hrs. revert rs Hrs. induction Hns as [|id x order ns Hx _ IH]; intros [|y rs] H; try done.
    cbn [map] in H. injection H as Hy H. constructor; [|by apply IH].
    apply fmap_Ok in Hx as (r & Hr & Hx). unfold requiredCanvasEntry in Hr.
    destruct (mget merged id) as [r'|]; [|done]. apply (inj Ok) in Hr as ->. exists r. split; [done|].
    subst x y. done. }
  assert (map entry_id rs = order) as Hids.
  { clear -Hf Hmerged. induction Hf as [|id x order rs (r & Hr & ->) _ IH]; cbn; [done|]. f_equal; [|done].
    apply Hmerged in Hr as [??]. by apply entry_out_id. }
  destruct Hread as (-> & -> & Hnd & _). split; [done|]. intros id.
  destruct (mget merged id) as [r|] eqn:Er.
  - assert (id ∈ order) as Hid by (apply Hkeys, mget_keys; by rewrite Er).
    apply list_elem_of_lookup in Hid as [i Hi].
    destruct (Forall2_lookup_l _ _ _ _ _ Hf Hi) as (x & Hx & r' & Hr' & ->). rewrite Er in Hr'. injection Hr' as <-.
    assert (mget (by_id entry_id rs) id = Some (entry_out kind r)) as ->.
    { apply mget_by_id; [done|]. split; [by eapply list_elem_of_lookup_2|].
      apply Hmerged in Er as [??]. by apply entry_out_id. }
    split; [done|]. intros key. apply entry_out_same. by eapply Hmerged.
  - rewrite mget_None; [done|]. rewrite mkeys_by_id, Hids, Hkeys. rewrite <- mget_keys, Er. by intros [].
Qed.

(** ** Top-level fields *)

Lemma mergeRootFields_spec (b c d : record) names ms : plain (JObj b) = true → plain (JObj c) = true → plain (JObj d) = true →
  NoDup names → mergeRootFields b c d names = Ok ms →
  keys ms `sublist_of` names ∧ (∀ kv, kv ∈ ms → plain kv.2 = true) ∧
  ∀ key, key ∈ names → three_way (fieldState b key) (fieldState c key) (fieldState d key) (mget ms key).
Proof.
  intros Hb Hc Hd. revert ms. induction names as [|k names IH]; intros ms Hnd; cbn [mergeRootFields].
  { intros E. apply (inj Ok) in E as <-. split_and!; [done| |]; intros ? H; by apply not_elem_of_nil in H. }
  apply NoDup_cons in Hnd as [Hk Hnd]. intros (m & Hm & (rest & Hr & E)%bind_Ok)%bind_Ok. apply (inj Ok) in E as <-.
  destruct (IH _ Hnd Hr) as (Hsub & Hp & Hval).
  assert (∀ r, plain (JObj r) = true → plain_state (fieldState r k)) as Hf.
  { intros r Hpl. rewrite fieldState_defined by done. by apply defined_plain, rget_loose, plain_loose. }
  apply mergeAtomicField_Ok in Hm as [Htw Hcd]; [|by apply Hf..].
  assert (plain_state m) as Hpm by (destruct Hcd as [-> | ->]; by apply Hf).
  assert (mget rest k = None) as Hrest.
  { apply mget_None. intros Hin. apply Hk. eapply elem_of_sublist; [exact Hin|exact Hsub]. }
  destruct m as [v|]; split_and!.
  - by constructor.
  - intros kv [->|?]%elem_of_cons; [by apply Hpm|auto].
  - intros key [->|Hin]%elem_of_cons; cbn; [by rewrite jeqb_refl|].
    rewrite (proj2 (jeqb_neq k key)) by (by intros ->). by apply Hval.
  - by constructor.
  - done.
  - intros key [->|Hin]%elem_of_cons; [by rewrite Hrest|by apply Hval].
Qed.

Lemma mergeCanvasRootFields_spec (b c d root : record) : plain (JObj b) = true → plain (JObj c) = true → plain (JObj d) = true →
  mergeCanvasRootFields b c d = Ok root →
  loose root ∧ ∀ key, structural_key key = false →
    three_way (fieldState b key) (fieldState c key) (fieldState d key) (field_of (Some root) key).
Proof.
  intros Hb Hc Hd (ms & Hm & E)%bind_Ok. apply (inj Ok) in E as <-.
  set (names := sort_strings _) in Hm.
  assert (NoDup names) as Hnd by exact (proj2 (isort_NoDup jleb _) (filter_NoDup _ _ (js_set_NoDup _))).
  destruct (mergeRootFields_spec b c d names ms Hb Hc Hd Hnd Hm) as (Hsub & Hp & Hval).
  assert (NoDup (keys ms)) as Hk by by eapply sublist_NoDup.
  split; [apply object_of_loose; split; [done|]; intros kv Hkv; right; by apply Hp|].
  intros key Hs. cbn [field_of mbind option_bind]. rewrite rget_object_of by done.
  destruct (decide (key ∈ names)) as [Hin|Hn].
  { specialize (Hval key Hin). rewrite rget_default. destruct (mget ms key) as [v|] eqn:Ev; [|done]. cbn.
    apply mget_elem in Ev; [|done]. unfold defined. by rewrite plain_defined by exact (Hp _ Ev). }
  rewrite rget_absent by (intros H; apply Hn; eapply elem_of_sublist; [exact H|exact Hsub]).
  assert (∀ r : record, key ∉ keys r → fieldState r key = None) as Hf.
  { intros r Hr. rewrite fieldState_mget. by apply mget_None. }
  assert (key ∉ keys b ++ keys c ++ keys d) as Hu.
  { intros H. apply Hn. apply (proj2 (isort_elem jleb _ _)), filter_elem. by rewrite Hs, js_set_elem. }
  rewrite !not_elem_of_app in Hu. rewrite !Hf by naive_solver. by left.
Qed.

(** ** The text *)

Definition top_names (root : record) : list jstring :=
  List.filter (λ key, negb (structural_key key)) (sort_strings (keys root)).
Definition top_members (ns es : list record) (root : record) : record :=
  (lit "nodes", JArr (map JObj ns)) :: (lit "edges", JArr (map JObj es))
    :: map (λ key, (key, canonicalizeForJson (rget root key))) (top_names root).

Lemma top_names_spec root : NoDup (keys root) →
  NoDup (top_names root) ∧ ∀ x, x ∈ top_names root ↔ x ∈ keys root ∧ structural_key x = false.
Proof.
  intros H. split.
  - apply filter_NoDup. exact (proj2 (isort_NoDup jleb _) H).
  - intros x. unfold top_names. rewrite filter_elem, negb_true_iff. unfold sort_strings. by rewrite isort_elem.
Qed.

Lemma top_keys ns es root : NoDup (keys root) → NoDup (keys (top_members ns es root)).
Proof.
  intros H. destruct (top_names_spec root H) as [Hn Hin]. unfold top_members. cbn [keys map fst].
  fold (keys (map (λ key, (key, canonicalizeForJson (rget root key))) (top_names root))).
  rewrite (keys_tabulate (λ key, canonicalizeForJson (rget root key))).
  constructor; [|constructor; [|done]].
  - intros [E|E%Hin]%elem_of_cons; [by vm_compute in E|destruct E as [_ E]; by vm_compute in E].
  - intros [_ E]%Hin. by vm_compute in E.
Qed.

(** What the printed canvas is read back as. *)
Lemma text_out ns es root : loose root → safe_numbers (JArr (map JObj ns)) = true → safe_numbers (JArr (map JObj es)) = true →
  ∃ r, json_parse (default [] (pretty 0 (JObj (object_of (top_members ns es root)))) ++ [10%N]) = Some (JObj r) ∧
    rget r (lit "nodes") = JArr (map revive (map JObj ns)) ∧ rget r (lit "edges") = JArr (map revive (map JObj es)) ∧
    ∀ key, structural_key key = false → same_state (fieldState r key) (field_of (Some root) key).
Proof.
  intros Hroot Hns Hes. pose proof Hroot as [Hnd _]. set (top := top_members ns es root).
  pose proof (top_keys ns es root Hnd) as Hk. fold top in Hk.
  pose proof (object_of_NoDup top Hk) as Hko.
  exists (object_of (live (object_of top))).
  assert (safe_numbers (JObj (object_of top)) = true) as Hsafe.
  { cbn [safe_numbers]. apply forallb_forall. intros kv Hkv%list_elem_of_In. rewrite object_of_perm in Hkv by done.
    apply elem_of_cons in Hkv as [->|[->|Hkv]%elem_of_cons]; [exact Hns|exact Hes|].
    apply list_elem_of_In, in_map_iff in Hkv as (key & <- & _). by apply canonical_safe, rget_loose. }
  assert (∀ key v, mget top key = Some v → is_undef v = false → mget (object_of (live (object_of top))) key = Some (revive v)) as Hget.
  { intros key v Hv Hu. rewrite mget_revived by done. rewrite mget_object_of by done. rewrite Hv. cbn.
    unfold defined. by rewrite Hu. }
  split_and!.
  - destruct (pretty 0 (JObj (object_of top))) as [t|] eqn:Ht; [|by apply pretty_undef in Ht].
    cbn [default from_option id]. by rewrite (json_parse_pretty _ _ Hsafe Ht).
  - rewrite rget_default, (Hget _ (JArr (map JObj ns))); [done| |done]. reflexivity.
  - rewrite rget_default, (Hget _ (JArr (map JObj es))); [done| |done]. reflexivity.
  - intros key Hs. rewrite fieldState_mget, mget_revived, mget_object_of by done.
    assert (mget top key = if jmem key (top_names root) then Some (canonicalizeForJson (rget root key)) else None) as ->.
    { unfold structural_key in Hs. apply orb_false_iff in Hs as [H1 H2]. rewrite jeqb_sym in H1, H2.
      unfold top, top_members. cbn [mget]. rewrite H1, H2. apply (mget_tabulate (λ key, canonicalizeForJson (rget root key))). }
    assert ((v ← (if jmem key (top_names root) then Some (canonicalizeForJson (rget root key)) else None);
      revive <$> defined v) = canonicalizeForJson <$> defined (rget root key)) as ->.
    { destruct (jmem key (top_names root)) eqn:E; [by apply defined_canonical, rget_loose|].
      apply jmem_not_elem in E. destruct (top_names_spec root Hnd) as [_ Hin]. rewrite Hin in E.
      rewrite rget_absent; [done|]. intros H. by apply E. }
    by apply same_state_canonical, defined_plain, rget_loose.
Qed.

(** ** The merge *)

Definition collection_merged (b c d m : jmap record) : Prop :=
  ∀ id, entry_merged (mget b id) (mget c id) (mget d id) (mget m id).

Lemma entry_merged_same b c d m m' : present m' = present m → (∀ key, same_state (field_of m' key) (field_of m key)) →
  entry_merged b c d m → entry_merged b c d m'.
Proof.
  intros Hp Hf [H1 H2]. split; [by rewrite Hp|]. intros key. rewrite Hf. apply H2.
Qed.

Lemma present_keys {A} (m : jmap A) id : id ∈ mkeys m ↔ is_Some (mget m id).
Proof. symmetry. apply mget_keys. Qed.

Lemma present_Some (e : option record) : present e = true ↔ is_Some e.
Proof. destruct e; split; try done; try (by intros []); eauto. Qed.

(** A merged collection has the keys the merge of the order expects. *)
Lemma merged_keys b c d m : collection_merged b c d m →
  (∀ x, x ∈ mkeys b → x ∈ mkeys m → x ∈ mkeys c ∧ x ∈ mkeys d) ∧
  (∀ x, x ∈ mkeys m → x ∈ mkeys b ∨ x ∈ mkeys c ∨ x ∈ mkeys d).
Proof.
  intros H. split; intros x; rewrite !present_keys, <- !present_Some; destruct (H x) as [Hp _];
    destruct (present (mget b x)), (present (mget c x)), (present (mget d x)), (present (mget m x)); naive_solver.
Qed.

Lemma merged_entries label b c d m : (∀ id, plain_entry (mget b id)) → (∀ id, plain_entry (mget c id)) →
  (∀ id, plain_entry (mget d id)) → mergeCanvasCollection b c d label = Ok m →
  NoDup (mkeys m) ∧ collection_merged b c d m ∧ ∀ id r, mget m id = Some r → loose r.
Proof.
  intros Hb Hc Hd (Hnd & Hm)%mergeCanvasCollection_spec. split_and!; [done| |].
  - intros id. by apply (mergeCanvasEntry_merged label id _ _ _ _ (Hb id) (Hc id) (Hd id) (Hm id)).
  - intros id r Hr. by apply (mergeCanvasEntry_merged label id _ _ _ _ (Hb id) (Hc id) (Hd id) (Hm id)).
Qed.

(** A merged entry keeps its id. *)
Lemma merged_id b c d m rb rc rd ob oc od id r :
  entries_read rb b ob → entries_read rc c oc → entries_read rd d od → collection_merged b c d m →
  (∀ id r, mget m id = Some r → loose r) → mget m id = Some r → rget r (lit "id") = JStr id.
Proof.
  intros Hb Hc Hd Hm Hl Hr. destruct (Hm id) as [Hp Hf]. specialize (Hf (lit "id")). rewrite Hr in Hp, Hf.
  assert (∀ rs (x : jmap record) o, entries_read rs x o →
    field_of (mget x id) (lit "id") = if present (mget x id) then Some (JStr id) else None) as Hid.
  { intros rs x o Hx. destruct (mget x id) as [e|] eqn:Ee; [|done]. apply (entries_read_get _ _ _ _ _ Hx) in Ee as [_ Ee].
    cbn [field_of mbind option_bind present]. by rewrite Ee. }
  rewrite (Hid _ _ _ Hb), (Hid _ _ _ Hc), (Hid _ _ _ Hd) in Hf.
  cbn [field_of mbind option_bind present] in Hf, Hp.
  assert (same_state (defined (rget r (lit "id"))) (Some (JStr id))) as Hs.
  { unfold three_way, same_state in *.
    destruct (present (mget b id)), (present (mget c id)), (present (mget d id));
      cbn [fmap option_fmap option_map canonicalizeForJson] in *; intuition congruence. }
  unfold same_state, defined in Hs. destruct (rget r (lit "id")); cbn in Hs; congruence.
Qed.

Lemma merged_collection_out kind label b c d rb rc rd ob oc od merged order ns rs m om :
  entries_read rb b ob → entries_read rc c oc → entries_read rd d od →
  (∀ id, plain_entry (mget b id)) → (∀ id, plain_entry (mget c id)) → (∀ id, plain_entry (mget d id)) →
  mergeCanvasCollection b c d label = Ok merged → mergeCanvasOrder ob oc od (mkeys merged) label = Ok order →
  traverse (λ id, canonicalizeCanvasEntry kind <$> requiredCanvasEntry merged id) order = Ok ns →
  map JObj rs = map revive (map JObj ns) → entries_read rs m om →
  collection_merged b c d m ∧ (Forall (λ id, NUL ∉ id) ob → order_merged ob oc od om).
Proof.
  intros Hb Hc Hd Pb Pc Pd Hm Ho Ht%traverse_Ok Hrs Hread.
  destruct (merged_entries _ _ _ _ _ Pb Pc Pd Hm) as (Hnd & Hcm & Hl).
  pose proof (merged_keys _ _ _ _ Hcm) as [Hk1 Hk2].
  destruct (keyed_keys _ _ _ _ _ Hb) as [Eb Nb], (keyed_keys _ _ _ _ _ Hc) as [Ec Nc], (keyed_keys _ _ _ _ _ Hd) as [Ed Nd].
  rewrite Eb, Ec, Ed in Hk1, Hk2.
  destruct (mergeCanvasOrder_spec _ _ _ _ _ _ Nb Nc Nd Hk1 Hk2 Ho) as (No & Ino & Hord).
  destruct (collection_out kind merged order ns rs m om) as [-> Hsame]; try done.
  { intros id r Hr. split; [by eapply Hl|]. exact (merged_id _ _ _ _ _ _ _ _ _ _ _ _ Hb Hc Hd Hcm Hl Hr). }
  split; [|exact Hord]. intros id. destruct (Hsame id) as [Hp Hf]. exact (entry_merged_same _ _ _ _ _ Hp Hf (Hcm id)).
Qed.

Lemma written_safe kind merged order ns : (∀ id r, mget merged id = Some r → loose r) →
  traverse (λ id, canonicalizeCanvasEntry kind <$> requiredCanvasEntry merged id) order = Ok ns →
  safe_numbers (JArr (map JObj ns)) = true.
Proof.
  intros Hl Ht%traverse_Ok. cbn [safe_numbers]. apply forallb_forall. intros x (r & <- & Hr)%in_map_iff.
  apply list_elem_of_In, list_elem_of_lookup in Hr as [i Hi].
  destruct (Forall2_lookup_r _ _ _ _ _ Ht Hi) as (id & _ & H). apply fmap_Ok in H as (e & He & ->).
  unfold requiredCanvasEntry in He. destruct (mget merged id) as [e'|] eqn:E; [|done]. apply (inj Ok) in He as ->.
  by eapply canonical_entry_safe, Hl.
Qed.

Lemma assertValidJsonCanvas_parsed text v C : json_parse text = Some v → assertValidJsonCanvas text = Ok C → read_canvas v = Ok C.
Proof. intros Hv. unfold assertValidJsonCanvas, parse_json. by rewrite Hv. Qed.

Definition root_field (v : jsval) (key : jstring) : FieldState := fieldState (default [] (as_record v)) key.

(** The conditions on a merged canvas, part by part. *)
Record canvas_merged (b c d m : jsval) (B C D M : JsonCanvasObject) : Prop := {
  merged_nodes : collection_merged (nodes B) (nodes C) (nodes D) (nodes M);
  merged_edges : collection_merged (edges B) (edges C) (edges D) (edges M);
  merged_node_order : Forall (λ id, NUL ∉ id) (nodeOrder B) → order_merged (nodeOrder B) (nodeOrder C) (nodeOrder D) (nodeOrder M);
  merged_edge_order : Forall (λ id, NUL ∉ id) (edgeOrder B) → order_merged (edgeOrder B) (edgeOrder C) (edgeOrder D) (edgeOrder M);
  merged_root : ∀ key, structural_key key = false → three_way (root_field b key) (root_field c key) (root_field d key) (root_field m key)
}.

(** [C13] Every accepted merge of three canvases (whose numbers are safe integers and that have no key [__proto__]) is a
    valid canvas that merges them three ways: presence and every field of every node
    and edge and every top-level field come from the side that changed them or are
    what both agree on, and so does the order of the surviving ids. *)
Theorem canvas_merge_three_way baseText currentText deviceText text b c d :
  json_parse baseText = Some b → json_parse currentText = Some c → json_parse deviceText = Some d →
  ordinary b = true → ordinary c = true → ordinary d = true →
  semanticMergeCanvasFile baseText currentText deviceText = Ok text →
  ∃ m B C D M, json_parse text = Some m ∧
    read_canvas b = Ok B ∧ read_canvas c = Ok C ∧ read_canvas d = Ok D ∧ read_canvas m = Ok M ∧
    canvas_merged b c d m B C D M.
Proof.
  intros Jb Jc Jd Pb%ordinary_plain Pc%ordinary_plain Pd%ordinary_plain. unfold semanticMergeCanvasFile, parse_json. rewrite Jb, Jc, Jd.
  intros (B & HB%(assertValidJsonCanvas_parsed _ _ _ Jb) & (C & HC%(assertValidJsonCanvas_parsed _ _ _ Jc) &
    (D & HD%(assertValidJsonCanvas_parsed _ _ _ Jd) & (mn & Hmn & (me & Hme & (no & Hno & (eo & Heo & H)%bind_Ok)%bind_Ok)%bind_Ok)%bind_Ok)%bind_Ok)%bind_Ok)%bind_Ok.
  cbn [mbind result_bind] in H.
  apply bind_Ok in H as (root & Hroot & H). apply bind_Ok in H as (json & Hjson & H).
  apply bind_Ok in H as (M & HM & H). apply bind_Ok in H as (_ & _ & H). apply (inj Ok) in H.
  unfold canvas_json in Hjson. apply bind_Ok in Hjson as (ns & Hns & Hjson). apply bind_Ok in Hjson as (es & Hes & Hjson).
  apply (inj Ok) in Hjson. fold (top_names root) in Hjson. fold (top_members ns es root) in Hjson.
  destruct (read_canvas_Ok _ _ HB) as (rb & nb & eb & -> & Hbn & Hbe & HBn & HBe).
  destruct (read_canvas_Ok _ _ HC) as (rc & nc & ec & -> & Hcn & Hce & HCn & HCe).
  destruct (read_canvas_Ok _ _ HD) as (rd & nd & ed & -> & Hdn & Hde & HDn & HDe).
  cbn [as_record default from_option id] in Hroot.
  destruct (mergeCanvasRootFields_spec rb rc rd root Pb Pc Pd Hroot) as [Lroot Hrootf].
  pose proof (entries_plain _ _ _ _ _ Pb Hbn HBn) as PBn. pose proof (entries_plain _ _ _ _ _ Pb Hbe HBe) as PBe.
  pose proof (entries_plain _ _ _ _ _ Pc Hcn HCn) as PCn. pose proof (entries_plain _ _ _ _ _ Pc Hce HCe) as PCe.
  pose proof (entries_plain _ _ _ _ _ Pd Hdn HDn) as PDn. pose proof (entries_plain _ _ _ _ _ Pd Hde HDe) as PDe.
  destruct (text_out ns es root Lroot) as (r & Hr & Hrn & Hre & Hrf).
  { eapply written_safe; [|exact Hns]. by apply (merged_entries _ _ _ _ _ PBn PCn PDn Hmn). }
  { eapply written_safe; [|exact Hes]. by apply (merged_entries _ _ _ _ _ PBe PCe PDe Hme). }
  subst json text. apply (assertValidJsonCanvas_parsed _ _ _ Hr) in HM.
  exists (JObj r), B, C, D, M. split_and!; try done.
  destruct (read_canvas_Ok _ _ HM) as (r' & nm & em & [= <-] & Hmn' & Hme' & HMn & HMe).
  rewrite Hrn in Hmn'. rewrite Hre in Hme'. injection Hmn' as Hmn'. injection Hme' as Hme'.
  destruct (merged_collection_out KNode _ _ _ _ _ _ _ _ _ _ _ _ _ _ _ _ HBn HCn HDn PBn PCn PDn Hmn Hno Hns (eq_sym Hmn') HMn).
  destruct (merged_collection_out KEdge _ _ _ _ _ _ _ _ _ _ _ _ _ _ _ _ HBe HCe HDe PBe PCe PDe Hme Heo Hes (eq_sym Hme') HMe).
  split; try done. intros key Hs. unfold root_field. cbn [as_record default from_option id].
  rewrite (Hrf key Hs). by apply Hrootf.
Qed.

End canvas.

(** ** Examples *)

(** A text written with single quotes. *)
Definition requote (s : string) : jstring := replace_unit 39 34 (lit s).
Definition sample_node (id : string) (x : string) : string :=
  "{'id':'" ++ id ++ "','type':'text','x':" ++ x ++ ",'y':0,'width':9,'height':9}".
Definition sample_canvas (ns es : list string) : jstring :=
  requote ("{'nodes':[" ++ String.concat "," ns ++ "],'edges':[" ++ String.concat "," es ++ "]}").
Definition sample_edge : string := "{'id':'e','fromNode':'a','fromSide':'top','toNode':'b','toSide':'left'}".

Definition sample_base : jstring := sample_canvas [sample_node "a" "0"; sample_node "b" "0"; sample_node "c" "0"] [sample_edge].
(** The server moves a node and removes another, the device adds one and a colour. *)
Definition sample_current : jstring := sample_canvas [sample_node "a" "5"; sample_node "b" "0"] [sample_edge].
Definition sample_device : jstring :=
  sample_canvas [sample_node "n" "1"; sample_node "a" "0"; sample_node "b" "0"; sample_node "c" "0"]
    ["{'id':'e','color':'red','fromNode':'a','fromSide':'top','toNode':'b','toSide':'left'}"%string].

Definition sample_text : jstring :=
  default [] (to_option (semanticMergeCanvasFile (Nm := toy_numerals) sample_base sample_current sample_device)).
Definition sample_value (t : jstring) : jsval := default JUndef (json_parse (Nm := toy_numerals) t).

Lemma canvas_merge_three_way_witness :
  let Nm := toy_numerals in
  let '(b, c, d) := (sample_value sample_base, sample_value sample_current, sample_value sample_device) in
  ∃ m B C D M, json_parse sample_text = Some m ∧
    read_canvas b = Ok B ∧ read_canvas c = Ok C ∧ read_canvas d = Ok D ∧ read_canvas m = Ok M ∧
    canvas_merged b c d m B C D M.
Proof.
  cbv beta zeta. apply (@canvas_merge_three_way toy_numerals sample_base sample_current sample_device);
    vm_compute; reflexivity.
Defined.

(** Each side deletes another node: the sides changed nothing in common, but the
    check of the order compares the ids of the base that each still has. *)
Example concurrent_deletions_refused :
  semanticMergeCanvasFile (Nm := toy_numerals) sample_base
    (sample_canvas [sample_node "a" "0"; sample_node "b" "0"] [sample_edge])
    (sample_canvas [sample_node "b" "0"; sample_node "c" "0"] [])
  = Throw (GitCommandError (lit "Canvas node concurrent order changes require review.")).
Proof. vm_compute. reflexivity. Qed.
