(* ===== verification/BasesMerge.v ===== *)
(** * Merging Obsidian bases

    [semanticMergeBasesFile] of gitService.ts: a base is a YAML mapping with filters,
    three maps (formulas, properties, summaries), a list of views named by type and
    name, and other fields.  Single fields merge as the fields of a canvas do; the
    entries of the maps and the views merge field by field one level down; views may be
    added and deleted but not reordered.  Reading and printing YAML belong to a library
    ([Yaml]) whose documented promise is that what it prints it reads back ([YamlOk]). *)

From S2P Require Export CanvasMerge.

Local Open Scope js_scope.

Class Yaml := {
  parseYaml : jstring → option jsval;        (* [None]: it throws *)
  stringifyYaml : jsval → jstring             (* with [lineWidth: 0] *)
}.

Definition with_newline (output : jstring) : jstring := if ends_with [10%N] output then output else output ++ [10%N].

(** What the YAML library prints, a line break added where it is missing, it reads
    back as it was. *)
Class YamlOk (Nm : Numerals) (Y : Yaml) := {
  yaml_round_trip v : plain v = true → parseYaml (with_newline (stringifyYaml v)) = Some v
}.

Section bases.
Context `{Nm : Numerals} `{Y : Yaml}.

(** ** Reading a base *)

Record ViewCollection := {
  views_present : bool;
  byKey : jmap record;
  view_order : list jstring
}.

Definition BASE_MAP_FIELDS : list jstring := lits ["formulas"; "properties"; "summaries"]%string.
Definition BASE_TOP_LEVEL_ORDER : list jstring := lits ["filters"; "formulas"; "properties"; "summaries"; "views"]%string.
Definition VIEW_KEY_SEPARATOR : N := 0.
Definition RESTRICTED_CONCURRENT_VIEW_KEYS : list jstring := lits ["type"; "name"; "filters"; "order"]%string.
Definition KNOWN_VIEW_KEYS : list jstring :=
  lits ["type"; "name"; "filters"; "order"; "sort"; "limit"; "columns"; "properties"; "formulas"; "summaries";
        "group"; "groupBy"; "image"; "display"]%string.

Definition readOptionalPlainMap (root : record) (field : jstring) : result FieldState :=
  match fieldState root field with
  | None => Ok None
  | Some value =>
    if is_record value then Ok (Some value)
    else Throw (GitCommandError (lit "Obsidian Bases " ++ field ++ lit " must be a mapping."))
  end.

Definition fieldMapValue (field : FieldState) : record :=
  match field with Some (JObj r) => r | _ => [] end.

Definition viewKey (view : record) : jstring :=
  to_text (rget view (lit "type")) ++ VIEW_KEY_SEPARATOR :: to_text (rget view (lit "name")).

Fixpoint read_views (values : list jsval) (views : jmap record) (order : list jstring) : result (jmap record * list jstring) :=
  match values with
  | [] => Ok (views, order)
  | value :: values =>
    match as_record value with
    | None => Throw (GitCommandError (lit "Obsidian Bases views must have string type and name fields."))
    | Some view =>
      if negb (is_string (rget view (lit "type")) && is_string (rget view (lit "name"))) then
        Throw (GitCommandError (lit "Obsidian Bases views must have string type and name fields."))
      else
        let key := viewKey view in
        if bool_decide (is_Some (mget views key)) then
          Throw (GitCommandError (lit "Obsidian Bases views must not duplicate a type/name pair."))
        else read_views values (mset views key view) (order ++ [key])
    end
  end.

Definition parseViews (root : record) : result ViewCollection :=
  match fieldState root (lit "views") with
  | None => Ok {| views_present := false; byKey := []; view_order := [] |}
  | Some (JArr values) =>
    '(views, order) ← read_views values [] [];
    Ok {| views_present := true; byKey := views; view_order := order |}
  | Some _ => Throw (GitCommandError (lit "Obsidian Bases views must be a sequence."))
  end.

Definition parseBasesDocument (text : jstring) : result (record * ViewCollection) :=
  match parseYaml text with
  | None => Throw (GitCommandError (lit "Obsidian Bases YAML could not be parsed."))
  | Some value =>
    match value with
    | JNull | JUndef => Ok ([], {| views_present := false; byKey := []; view_order := [] |})
    | JObj root =>
      _ ← traverse (readOptionalPlainMap root) BASE_MAP_FIELDS;
      views ← parseViews root;
      Ok (root, views)
    | _ => Throw (GitCommandError (lit "Obsidian Bases YAML must be a mapping."))
    end
  end.

(** ** Maps of named entries *)

Definition canonicalizeForYaml : jsval → jsval := canonicalizeForJson.

(** Merges the given names one by one with [merge], keeping those that stay present. *)
Fixpoint merge_names (merge : jstring → result FieldState) (names : list jstring) : result record :=
  match names with
  | [] => Ok []
  | key :: names =>
    merged ← merge key;
    rest ← merge_names merge names;
    Ok (match merged with Some value => (key, canonicalizeForYaml value) :: rest | None => rest end)
  end.

Definition names_of (base current device : record) : list jstring :=
  sort_strings (js_set (keys base ++ keys current ++ keys device)).

Definition mergeNestedObject (label : jstring) (base current device : record) : result FieldState :=
  members ← merge_names (λ key, mergeAtomicField (label ++ lit "." ++ key)
                                  (fieldState base key) (fieldState current key) (fieldState device key))
              (names_of base current device);
  Ok (Some (JObj (object_of members))).

Definition mergeMapEntry (label : jstring) (base current device : FieldState) : result FieldState :=
  if fieldStatesEqual current base then Ok device else
  if fieldStatesEqual device base then Ok current else
  if fieldStatesEqual current device then Ok current else
  match base, current, device with
  | None, _, _ => Throw (GitCommandError (label ++ lit " concurrent additions require review."))
  | _, None, _ | _, _, None => Throw (GitCommandError (label ++ lit " delete-vs-edit requires review."))
  | Some (JObj b), Some (JObj c), Some (JObj d) => mergeNestedObject label b c d
  | _, _, _ => Throw (GitCommandError (label ++ lit " concurrent edits require review."))
  end.

Definition mergeNamedMapField (field : jstring) (base current device : record) : result FieldState :=
  baseMap ← readOptionalPlainMap base field;
  currentMap ← readOptionalPlainMap current field;
  deviceMap ← readOptionalPlainMap device field;
  match baseMap, currentMap, deviceMap with
  | None, None, None => Ok None
  | _, _, _ =>
    let '(b, c, d) := (fieldMapValue baseMap, fieldMapValue currentMap, fieldMapValue deviceMap) in
    members ← merge_names (λ key, mergeMapEntry (lit "Bases " ++ field ++ lit "." ++ key)
                                    (fieldState b key) (fieldState c key) (fieldState d key))
                (names_of b c d);
    Ok (Some (JObj (object_of members)))
  end.

(** ** Views *)

Definition viewState (views : ViewCollection) (key : jstring) : FieldState := JObj <$> mget (byKey views) key.

Definition changedFieldKeys (base side : record) : list jstring :=
  List.filter (λ key, negb (fieldStatesEqual (fieldState base key) (fieldState side key)))
    (js_set (keys base ++ keys side)).

(** [key.replace(VIEW_KEY_SEPARATOR, '/')]: the first occurrence. *)
Fixpoint replace_first (a b : N) (s : jstring) : jstring :=
  match s with [] => [] | c :: s => if (c =? a)%N then b :: s else c :: replace_first a b s end.

Definition mergeViewObject (key : jstring) (base current device : record) : result FieldState :=
  let currentChanged := changedFieldKeys base current in
  let deviceChanged := changedFieldKeys base device in
  let changed := js_set (currentChanged ++ deviceChanged) in
  if (0 <? length currentChanged) && (0 <? length deviceChanged)
     && existsb (λ field, negb (jmem field KNOWN_VIEW_KEYS)) changed then
    Throw (GitCommandError (lit "Obsidian Bases concurrent unknown view-key edits require review."))
  else
    match (if (0 <? length currentChanged) && (0 <? length deviceChanged)
           then List.find (λ field, jmem field changed) RESTRICTED_CONCURRENT_VIEW_KEYS else None) with
    | Some field => Throw (GitCommandError (lit "Obsidian Bases same-view " ++ field ++ lit " edits require review."))
    | None => mergeNestedObject (lit "Obsidian Bases view " ++ replace_first VIEW_KEY_SEPARATOR SLASH key) base current device
    end.

Definition mergeViewEntry (key : jstring) (base current device : FieldState) : result FieldState :=
  if fieldStatesEqual current base then Ok device else
  if fieldStatesEqual device base then Ok current else
  if fieldStatesEqual current device then Ok current else
  match base, current, device with
  | None, _, _ => Throw (GitCommandError (lit "Obsidian Bases concurrent view additions require review."))
  | _, None, _ | _, _, None => Throw (GitCommandError (lit "Obsidian Bases view delete-vs-edit requires review."))
  | Some (JObj b), Some (JObj c), Some (JObj d) => mergeViewObject key b c d
  | _, _, _ => Throw (GitCommandError (lit "Obsidian Bases concurrent view edits require review."))
  end.

Definition assertNoViewReorder (base side : ViewCollection) (label : jstring) : result unit :=
  let expected := List.filter (λ key, bool_decide (is_Some (mget (byKey side) key))) (view_order base) in
  let actual := List.filter (λ key, jmem key (view_order base)) (view_order side) in
  if bool_decide (expected = actual) then Ok ()
  else Throw (GitCommandError (lit "Obsidian Bases " ++ label ++ lit " view reorder requires review.")).

Definition canonicalizeView (view : record) : record := preferring (lits ["type"; "name"]%string) view.

Fixpoint merge_views (base current device : ViewCollection) (names : list jstring) : result (list record) :=
  match names with
  | [] => Ok []
  | key :: names =>
    merged ← mergeViewEntry key (viewState base key) (viewState current key) (viewState device key);
    match merged with
    | None => merge_views base current device names
    | Some (JObj view) => rest ← merge_views base current device names; Ok (canonicalizeView view :: rest)
    | Some _ => Throw (GitCommandError (lit "Merged Obsidian Bases view must be a mapping."))
    end
  end.

Definition view_names (base current device : ViewCollection) : list jstring :=
  view_order base ++ sort_strings (js_set (List.filter (λ key, negb (jmem key (view_order base)))
                                              (view_order current ++ view_order device))).

Definition mergeViews (base current device : ViewCollection) : result FieldState :=
  if negb (views_present base) && negb (views_present current) && negb (views_present device) then Ok None else
  _ ← assertNoViewReorder base current (lit "current main");
  _ ← assertNoViewReorder base device (lit "device commit");
  result ← merge_views base current device (view_names base current device);
  Ok (Some (JArr (map JObj result))).

Definition canonicalizeViews (value : jsval) : jsval :=
  match value with
  | JArr entries => JArr (map (λ entry, match entry with JObj view => JObj (canonicalizeView view)
                                                      | _ => canonicalizeForYaml entry end) entries)
  | _ => value
  end.

(** ** The whole file *)

Definition other_fields (base current device : record) : list jstring :=
  sort_strings (List.filter (λ field, negb (jmem field BASE_TOP_LEVEL_ORDER))
                  (js_set (keys base ++ keys current ++ keys device))).

Definition root_state (label : jstring) (base current device : record) (field : jstring) : result FieldState :=
  mergeAtomicField label (fieldState base field) (fieldState current field) (fieldState device field).

Definition printed_field (field : jstring) (value : jsval) : jsval :=
  if field =s? lit "views" then canonicalizeViews value else canonicalizeForYaml value.

Definition bases_result (merged : list (jstring * FieldState)) : record :=
  object_of (omap (λ '(field, state),
    (λ value, (field, printed_field field value)) <$> state) merged).

Definition semanticMergeBasesValue (base current device : record * ViewCollection) : result jsval :=
  let '(b, c, d) := (base.1, current.1, device.1) in
  filters ← root_state (lit "Bases filters") b c d (lit "filters");
  maps ← traverse (λ field, mergeNamedMapField field b c d) BASE_MAP_FIELDS;
  views ← mergeViews base.2 current.2 device.2;
  others ← traverse (λ field, root_state (lit "Bases top-level field " ++ field) b c d field) (other_fields b c d);
  Ok (JObj (bases_result ((lit "filters", filters) :: combine BASE_MAP_FIELDS maps ++ (lit "views", views)
                            :: combine (other_fields b c d) others))).

Definition semanticMergeBasesFile (baseText currentText deviceText : jstring) : result jstring :=
  base ← parseBasesDocument baseText;
  current ← parseBasesDocument currentText;
  device ← parseBasesDocument deviceText;
  value ← semanticMergeBasesValue base current device;
  Ok (with_newline (stringifyYaml value)).

(** ** Names merged one by one *)

Lemma plain_canonicalize s : plain_state s → plain_state (canonicalizeForYaml <$> s).
Proof. intros H v (w & -> & ->)%fmap_Some. by apply canonical_plain, H. Qed.

Lemma merge_names_spec merge names ms : NoDup names → merge_names merge names = Ok ms →
  keys ms `sublist_of` names ∧
  ∀ key, key ∈ names → ∃ s, merge key = Ok s ∧ mget ms key = canonicalizeForYaml <$> s.
Proof.
  revert ms. induction names as [|k names IH]; intros ms Hnd; cbn [merge_names].
  { intros E. apply (inj Ok) in E as <-. split; [done|]. intros ? H; by apply not_elem_of_nil in H. }
  apply NoDup_cons in Hnd as [Hk Hnd]. intros (m & Hm & (rest & Hr & E)%bind_Ok)%bind_Ok. apply (inj Ok) in E as <-.
  destruct (IH _ Hnd Hr) as (Hsub & Hval).
  assert (mget rest k = None) as Hrest.
  { apply mget_None. intros Hin. apply Hk. eapply elem_of_sublist; [exact Hin|exact Hsub]. }
  split; [destruct m; cbn; by constructor|]. intros key [->|Hin]%elem_of_cons.
  - exists m. split; [done|]. destruct m; cbn; by rewrite ?jeqb_refl.
  - destruct (Hval key Hin) as (s & Hs & E). exists s. split; [done|]. rewrite <- E.
    destruct m; cbn; [|done]. by rewrite (proj2 (jeqb_neq k key)) by (by intros ->).
Qed.

Lemma names_of_spec b c d : NoDup (names_of b c d) ∧
  ∀ x, x ∉ names_of b c d → fieldState b x = None ∧ fieldState c x = None ∧ fieldState d x = None.
Proof.
  split; [exact (proj2 (isort_NoDup jleb _) (js_set_NoDup _))|]. intros x Hx.
  assert (x ∉ keys b ++ keys c ++ keys d) as Hu.
  { intros H. apply Hx. apply (proj2 (isort_elem jleb _ _)). by apply js_set_elem. }
  rewrite !not_elem_of_app in Hu. rewrite !fieldState_mget, !mget_None by naive_solver. done.
Qed.

Lemma plain_field r k : plain (JObj r) = true → plain_state (fieldState r k).
Proof. intros Hp. rewrite fieldState_defined by done. by apply defined_plain, rget_loose, plain_loose. Qed.

(** An object built from names that merge to plain states, in the names' order. *)
Lemma merged_object merge names ms : NoDup names → merge_names merge names = Ok ms →
  (∀ key s, key ∈ names → merge key = Ok s → plain_state s) →
  plain (JObj (object_of ms)) = true ∧
  ∀ key, (key ∈ names → ∃ s, merge key = Ok s ∧ same_state (fieldState (object_of ms) key) s) ∧
         (key ∉ names → fieldState (object_of ms) key = None).
Proof.
  intros Hnd Hm Hp. destruct (merge_names_spec merge names ms Hnd Hm) as [Hsub Hval].
  assert (NoDup (mkeys ms)) as Hk by by eapply sublist_NoDup.
  assert (∀ key, key ∈ names → plain_state (mget ms key)) as Hpm.
  { intros key Hin. destruct (Hval key Hin) as (s & Hs & ->). by eapply plain_canonicalize, Hp. }
  split.
  - apply plain_object; [done|]. intros [k v] Hkv; cbn.
    assert (k ∈ names) as Hin.
    { eapply elem_of_sublist; [|exact Hsub]. apply list_elem_of_In, in_map_iff. exists (k, v). by rewrite <- list_elem_of_In. }
    apply (Hpm k Hin). by apply mget_elem.
  - intros key. rewrite fieldState_mget, mget_object_of by done. split; intros Hin.
    + destruct (Hval key Hin) as (s & Hs & ->). exists s. split; [done|].
      apply same_state_canonical. by eapply Hp.
    + apply mget_None. intros H. apply Hin. by eapply elem_of_sublist.
Qed.

(** ** Entries that merge one level down *)

Definition fields_merged (b c d m : record) : Prop :=
  ∀ key, three_way (fieldState b key) (fieldState c key) (fieldState d key) (fieldState m key).

(** An entry merges as one field, or field by field where both sides changed it. *)
Definition nested_merged (b c d m : FieldState) : Prop :=
  three_way b c d m ∨
  ∃ rb rc rd rm, b = Some (JObj rb) ∧ c = Some (JObj rc) ∧ d = Some (JObj rd) ∧ m = Some (JObj rm) ∧ fields_merged rb rc rd rm.

Lemma mergeNestedObject_spec label b c d m : plain (JObj b) = true → plain (JObj c) = true → plain (JObj d) = true →
  mergeNestedObject label b c d = Ok m → ∃ rm, m = Some (JObj rm) ∧ plain (JObj rm) = true ∧ fields_merged b c d rm.
Proof.
  intros Hb Hc Hd (ms & Hms & E)%bind_Ok. apply (inj Ok) in E as <-.
  destruct (names_of_spec b c d) as [Hnd Habs].
  assert (∀ key s, mergeAtomicField (label ++ lit "." ++ key) (fieldState b key) (fieldState c key) (fieldState d key) = Ok s →
    plain_state s ∧ three_way (fieldState b key) (fieldState c key) (fieldState d key) s) as Hat.
  { intros key s Hs. apply mergeAtomicField_Ok in Hs as [Ht Hcd]; [|by apply plain_field..].
    split; [|done]. destruct Hcd as [-> | ->]; by apply plain_field. }
  destruct (merged_object _ _ _ Hnd Hms) as [Hp Hval]; [intros key s _ Hs; by eapply Hat|].
  eexists; split_and!; [done|exact Hp|]. intros key. destruct (Hval key) as [H1 H2].
  destruct (decide (key ∈ names_of b c d)) as [Hin|Hin].
  - destruct (H1 Hin) as (s & Hs & ->). by eapply Hat.
  - rewrite (H2 Hin). destruct (Habs key Hin) as (-> & -> & ->). by left.
Qed.

(** The cases both merges of entries share. *)
Lemma atomic_cases b c d m rest : plain_state b → plain_state c → plain_state d →
  (if fieldStatesEqual c b then Ok d else if fieldStatesEqual d b then Ok c else if fieldStatesEqual c d then Ok c else rest) = Ok m →
  (three_way b c d m ∧ (m = c ∨ m = d)) ∨ (rest = Ok m ∧ ¬ same_state c b ∧ ¬ same_state d b).
Proof.
  intros Hb Hc Hd. pose proof (fieldStatesEqual_spec c b Hc Hb) as S1.
  pose proof (fieldStatesEqual_spec d b Hd Hb) as S2. pose proof (fieldStatesEqual_spec c d Hc Hd) as S3.
  unfold three_way. destruct (fieldStatesEqual c b); [intros E; apply (inj Ok) in E as <-; left; split; [left; split; [by apply S1|done]|by right]|].
  destruct (fieldStatesEqual d b); [intros E; apply (inj Ok) in E as <-; left; split; [right; left; split; [by apply S2|done]|by left]|].
  destruct (fieldStatesEqual c d); [intros E; apply (inj Ok) in E as <-; left; split; [right; right; split; [by apply S3|done]|by left]|].
  intros ->. right. split_and!; [done|by intros ?%S1|by intros ?%S2].
Qed.

Lemma mergeMapEntry_spec label b c d m : plain_state b → plain_state c → plain_state d →
  mergeMapEntry label b c d = Ok m → nested_merged b c d m ∧ plain_state m.
Proof.
  intros Hb Hc Hd H. apply atomic_cases in H as [[Ht [-> | ->]]|[H _]]; [by split; [left|]..| |done|done|done].
  destruct b as [[]|], c as [[]|], d as [[]|]; try done.
  apply mergeNestedObject_spec in H as (rm & -> & Hp & Hf); [|by apply Hb|by apply Hc|by apply Hd].
  split; [right; by eexists _, _, _, _|]. by intros v [= <-].
Qed.

Lemma nested_merged_same b c d m m' : plain_state m → plain_state m' → same_state m' m →
  nested_merged b c d m → nested_merged b c d m'.
Proof.
  intros Hp Hp' Hs [H|(rb & rc & rd & rm & -> & -> & -> & -> & H)]; [left; by rewrite Hs|right].
  unfold same_state in Hs. destruct m' as [v|]; [|done]. cbn in Hs. apply (inj Some) in Hs.
  destruct v as [| | | | | |rm']; try done. exists rb, rc, rd, rm'. split_and!; try done. intros key.
  rewrite (same_object_fields rm' rm); [apply H|by apply Hp'|by apply Hp|done].
Qed.

(** ** Views *)

Definition is_view (r : record) : Prop := ∃ t n, rget r (lit "type") = JStr t ∧ rget r (lit "name") = JStr n.
Definition views_read : list record → jmap record → list jstring → Prop := keyed_by viewKey is_view.

Lemma is_string_Some v : is_string v = true ↔ ∃ s, v = JStr s.
Proof. destruct v; cbn; naive_solver. Qed.

Lemma read_views_spec values : ∀ rs m order m' order', views_read rs m order →
  read_views values m order = Ok (m', order') → ∃ rs', values = map JObj rs' ∧ views_read (rs ++ rs') m' order'.
Proof.
  induction values as [|v values IH]; intros rs m order m' order' Hrs; cbn [read_views].
  - intros E. apply (inj Ok) in E. injection E as <- <-. exists []. by rewrite app_nil_r.
  - destruct (as_record v) as [r|] eqn:Er; [|done]. apply as_record_Some in Er as ->.
    destruct (is_string _ && is_string _) eqn:Es; cbn [negb]; [|done].
    apply andb_true_iff in Es as [[t Ht]%is_string_Some [n Hn]%is_string_Some].
    case_bool_decide as Hk; [done|]. intros E.
    assert (views_read (rs ++ [r]) (mset m (viewKey r) r) (order ++ [viewKey r])) as Hstep.
    { apply keyed_step; [done|by exists t, n|]. destruct (keyed_keys _ _ _ _ _ Hrs) as [<- _]. by rewrite <- mget_keys. }
    destruct (IH _ _ _ _ _ Hstep E) as (rs' & -> & H). exists (r :: rs'). by rewrite <- app_assoc in H.
Qed.

Lemma read_views_Ok rs' : ∀ rs m order, views_read rs m order → Forall is_view rs' → NoDup (order ++ map viewKey rs') →
  ∃ m' order', read_views (map JObj rs') m order = Ok (m', order') ∧ views_read (rs ++ rs') m' order'.
Proof.
  induction rs' as [|r rs' IH]; intros rs m order Hrs Hv Hnd; cbn [map read_views].
  - exists m, order. by rewrite app_nil_r.
  - apply Forall_cons in Hv as [Hr Hv]. cbn [as_record].
    pose proof Hr as (t & n & Ht & Hn). rewrite Ht, Hn. cbn [is_string andb negb].
    assert (viewKey r ∉ order) as Hnin by (apply NoDup_app in Hnd as (_ & Hnd & _); intros Hin; apply (Hnd _ Hin); by left).
    rewrite bool_decide_eq_false_2 by (rewrite mget_keys; by destruct (keyed_keys _ _ _ _ _ Hrs) as [-> _]).
    destruct (IH (rs ++ [r]) (mset m (viewKey r) r) (order ++ [viewKey r])) as (m' & o' & H1 & H2).
    + by apply keyed_step.
    + done.
    + by rewrite <- app_assoc.
    + exists m', o'. by rewrite <- app_assoc in H2.
Qed.

Lemma canonicalizeView_spec r : plain (JObj r) = true →
  plain (JObj (canonicalizeView r)) = true ∧ ∀ k, fieldState (canonicalizeView r) k = canonicalizeForYaml <$> fieldState r k.
Proof.
  intros Hp. pose proof (plain_loose r Hp) as Hl.
  assert (NoDup (lits ["type"; "name"]%string)) as Hf by (apply (bool_decide_unpack _); vm_compute; exact I).
  assert (∀ k, fieldState (canonicalizeView r) k = canonicalizeForYaml <$> fieldState r k) as Hk.
  { intros k. rewrite fieldState_mget. unfold canonicalizeView. rewrite mget_preferring by done.
    unfold fieldState, has_own, keys. destruct (jmem k _); done. }
  split; [|done]. unfold canonicalizeView, preferring. apply plain_object; [by apply preferring_names_NoDup|].
  intros kv Hkv. apply list_elem_of_In, in_map_iff in Hkv as (k & <- & Hin%list_elem_of_In). cbn.
  apply printed_names_spec in Hin; [|done|apply Hl]. apply canonical_plain.
  destruct (rget_plain r k Hp) as [H|H]; [|done]. exfalso.
  pose proof (fieldState_defined r k Hp) as E. rewrite H in E. unfold fieldState in E.
  by rewrite (proj2 (has_own_elem r k)) in E.
Qed.

Lemma rget_fieldState r k : rget r k = default JUndef (fieldState r k).
Proof. by rewrite fieldState_mget, rget_default. Qed.

Lemma string_state s t : same_state s (Some (JStr t)) → s = Some (JStr t).
Proof. unfold same_state. destruct s as [[]|]; cbn; intros [=]; by subst. Qed.

(** Records that agree on type and name are the same view. *)
Lemma same_view r r' : is_view r → same_state (fieldState r' (lit "type")) (fieldState r (lit "type")) →
  same_state (fieldState r' (lit "name")) (fieldState r (lit "name")) → is_view r' ∧ viewKey r' = viewKey r.
Proof.
  intros (t & n & Ht & Hn) H1 H2. unfold is_view, viewKey. rewrite Ht, Hn.
  rewrite rget_fieldState in Ht, Hn.
  destruct (fieldState r (lit "type")) as [v1|]; [|done]. destruct (fieldState r (lit "name")) as [v2|]; [|done].
  cbn in Ht, Hn. subst v1 v2. apply string_state in H1, H2.
  rewrite !(rget_fieldState r'), H1, H2. cbn [default from_option id]. split; [by exists t, n|done].
Qed.

Lemma canonical_view r : plain (JObj r) = true → is_view r → is_view (canonicalizeView r) ∧ viewKey (canonicalizeView r) = viewKey r.
Proof.
  intros Hp Hv. destruct (canonicalizeView_spec r Hp) as [_ Hf].
  apply same_view; [done|..]; rewrite Hf; by apply same_state_canonical, plain_field.
Qed.

(** The state of a view under its key. *)
Definition view_state (key : jstring) (s : FieldState) : Prop :=
  ∀ v, s = Some v → ∃ r, v = JObj r ∧ plain (JObj r) = true ∧ is_view r ∧ viewKey r = key.

Lemma view_state_plain key s : view_state key s → plain_state s.
Proof. intros H v Hv. by destruct (H v Hv) as (r & -> & Hp & _). Qed.

Lemma changedFieldKeys_not b s key : plain (JObj b) = true → plain (JObj s) = true →
  key ∉ changedFieldKeys b s → same_state (fieldState s key) (fieldState b key).
Proof.
  intros Hb Hs Hk. symmetry. apply fieldStatesEqual_spec; [by apply plain_field..|].
  destruct (fieldStatesEqual _ _) eqn:E; [done|]. exfalso. apply Hk. apply filter_elem. rewrite E. split; [|done].
  apply js_set_elem, elem_of_app. rewrite !fieldState_mget in E.
  destruct (decide (key ∈ keys b)); [by left|]. destruct (decide (key ∈ keys s)); [by right|].
  by rewrite !mget_None in E.
Qed.

Lemma empty_not_elem (l : list jstring) x : (0 <? length l) = false → x ∉ l.
Proof. destruct l; [intros _; apply not_elem_of_nil|done]. Qed.

(** The view two sides changed is still the view of that type and name. *)
Lemma mergeViewObject_spec key b c d m : plain (JObj b) = true → plain (JObj c) = true → plain (JObj d) = true →
  is_view b → is_view c → is_view d → viewKey b = key → viewKey c = key → viewKey d = key →
  mergeViewObject key b c d = Ok m →
  ∃ rm, m = Some (JObj rm) ∧ plain (JObj rm) = true ∧ fields_merged b c d rm ∧ is_view rm ∧ viewKey rm = key.
Proof.
  intros Pb Pc Pd Vb Vc Vd Kb Kc Kd. unfold mergeViewObject. destruct (_ && existsb _ _); [done|].
  match goal with |- context [match ?x with Some _ => _ | None => mergeNestedObject _ _ _ _ end] => destruct x as [f|] eqn:Ef end; [done|].
  intros (rm & -> & Hp & Hf)%mergeNestedObject_spec; [|done..]. exists rm. do 3 (split; [done|]).
  assert ((∀ k, k ∈ lits ["type"; "name"]%string → same_state (fieldState rm k) (fieldState b k)) ∨
          (∀ k, same_state (fieldState rm k) (fieldState d k)) ∨ (∀ k, same_state (fieldState rm k) (fieldState c k))) as H.
  { pose proof (λ k, changedFieldKeys_not b c k Pb Pc) as Hc. pose proof (λ k, changedFieldKeys_not b d k Pb Pd) as Hd.
    destruct (0 <? length (changedFieldKeys b c)) eqn:Ec; [destruct (0 <? length (changedFieldKeys b d)) eqn:Ed|].
    - left. intros k Hk. cbn [andb] in Ef. pose proof (find_none _ _ Ef k) as Hn.
      assert (In k RESTRICTED_CONCURRENT_VIEW_KEYS) as Hin.
      { apply list_elem_of_In. unfold RESTRICTED_CONCURRENT_VIEW_KEYS. cbn [lits fmap list_fmap] in *. set_solver. }
      specialize (Hn Hin). apply jmem_not_elem in Hn. rewrite js_set_elem, not_elem_of_app in Hn. destruct Hn as [H1 H2].
      specialize (Hf k). rewrite (Hc k H1), (Hd k H2) in Hf. unfold three_way in Hf. naive_solver.
    - right. right. intros k. specialize (Hf k). specialize (Hd k (empty_not_elem _ k Ed)). rewrite Hd in Hf.
      unfold three_way, same_state in *. intuition congruence.
    - right. left. intros k. specialize (Hf k). specialize (Hc k (empty_not_elem _ k Ec)). rewrite Hc in Hf.
      unfold three_way, same_state in *. intuition congruence. }
  destruct H as [H|[H|H]].
  - destruct (same_view b rm Vb) as [V K]; [apply H; cbn; set_solver..|]. by rewrite K.
  - destruct (same_view d rm Vd) as [V K]; [apply H..|]. by rewrite K.
  - destruct (same_view c rm Vc) as [V K]; [apply H..|]. by rewrite K.
Qed.

Lemma mergeViewEntry_spec key b c d m : view_state key b → view_state key c → view_state key d →
  mergeViewEntry key b c d = Ok m → nested_merged b c d m ∧ view_state key m.
Proof.
  intros Hb Hc Hd H.
  apply (atomic_cases _ _ _ _ _ (view_state_plain _ _ Hb) (view_state_plain _ _ Hc) (view_state_plain _ _ Hd)) in H.
  destruct H as [[Ht [-> | ->]]|[H _]]; [split; [by left|done]|split; [by left|done]|].
  destruct b as [[]|], c as [[]|], d as [[]|]; try done.
  destruct (Hb _ eq_refl) as (? & [= <-] & Pb & Vb & Kb), (Hc _ eq_refl) as (? & [= <-] & Pc & Vc & Kc),
    (Hd _ eq_refl) as (? & [= <-] & Pd & Vd & Kd).
  apply mergeViewObject_spec in H as (rm & -> & Hp & Hf & V & K); try done.
  split; [right; by eexists _, _, _, _|]. intros v [= <-]. by exists rm.
Qed.

Section merged_views.
Context (B C D : ViewCollection).
Context (HB : ∀ key, view_state key (viewState B key)) (HC : ∀ key, view_state key (viewState C key))
        (HD : ∀ key, view_state key (viewState D key)).

(** The views a merge writes: for each name in order the merged view, if it stays. *)
Lemma merge_views_spec names vs : NoDup names → merge_views B C D names = Ok vs →
  ∃ rs, vs = map canonicalizeView rs ∧ Forall (λ r, plain (JObj r) = true ∧ is_view r) rs ∧
    map viewKey rs `sublist_of` names ∧
    ∀ key, key ∈ names → ∃ m, mergeViewEntry key (viewState B key) (viewState C key) (viewState D key) = Ok m ∧
      match m with
      | None => key ∉ map viewKey rs
      | Some v => ∃ r, v = JObj r ∧ r ∈ rs ∧ viewKey r = key
      end.
Proof.
  revert vs. induction names as [|k names IH]; intros vs Hnd; cbn [merge_views].
  { intros E. apply (inj Ok) in E as <-. exists []. split_and!; [done|done|done|]. intros key H; by apply not_elem_of_nil in H. }
  apply NoDup_cons in Hnd as [Hk Hnd]. intros (m & Hm & H)%bind_Ok.
  destruct (mergeViewEntry_spec _ _ _ _ _ (HB k) (HC k) (HD k) Hm) as [_ Hv].
  destruct m as [v|].
  - destruct (Hv v eq_refl) as (r & -> & Hp & Hr & Hkey). apply bind_Ok in H as (rest & Hrest & E). apply (inj Ok) in E as <-.
    destruct (IH _ Hnd Hrest) as (rs & -> & Hrs & Hsub & Hval). exists (r :: rs). split_and!; [done|by constructor| |].
    + cbn [map]. rewrite Hkey. by constructor.
    + intros key [->|Hin]%elem_of_cons.
      * eexists; split; [exact Hm|]. exists r. split_and!; [done|by left|done].
      * destruct (Hval key Hin) as (m & Hm' & Hcase). exists m. split; [done|]. destruct m as [v|].
        -- destruct Hcase as (r' & -> & Hr' & Hk'). exists r'. split_and!; [done|by right|done].
        -- cbn [map]. rewrite not_elem_of_cons, Hkey. split; [by intros ->|done].
  - destruct (IH _ Hnd H) as (rs & -> & Hrs & Hsub & Hval). exists rs. split_and!; [done|done|by constructor|].
    intros key [->|Hin]%elem_of_cons; [|by apply Hval]. eexists; split; [exact Hm|].
    intros Hin. apply Hk. by eapply elem_of_sublist.
Qed.

End merged_views.

(** ** What a base is read as *)

Lemma parseBasesDocument_Ok text r V : parseBasesDocument text = Ok (r, V) →
  (∀ f, f ∈ BASE_MAP_FIELDS → is_ok (readOptionalPlainMap r f) = true) ∧
  ∃ rs, views_read rs (byKey V) (view_order V) ∧
    fieldState r (lit "views") = (if views_present V then Some (JArr (map JObj rs)) else None) ∧
    (views_present V = false → rs = []).
Proof.
  unfold parseBasesDocument. destruct (parseYaml text) as [[]|]; try done.
  1,2: intros E; apply (inj Ok) in E; injection E as <- <-; split; [by intros f|]; exists [];
    split_and!; [apply keyed_nil|done|done].
  intros (states & Hm%traverse_Ok & (V' & HV & E)%bind_Ok)%bind_Ok. apply (inj Ok) in E. injection E as <- <-.
  split.
  - intros f [i Hi]%list_elem_of_lookup. destruct (Forall2_lookup_l _ _ _ _ _ Hm Hi) as (s & _ & ->). done.
  - unfold parseViews in HV. destruct (fieldState kvs (lit "views")) as [v|].
    + destruct v as [| | | | |values|]; try done. apply bind_Ok in HV as ([m o] & Hr & E). apply (inj Ok) in E as <-.
      apply (read_views_spec _ [] _ _ _ _ (keyed_nil _ _)) in Hr as (rs & -> & Hrs). by exists rs.
    + apply (inj Ok) in HV as <-. exists []. split_and!; [apply keyed_nil|done|done].
Qed.

Lemma parsed_views text r V : plain (JObj r) = true → parseBasesDocument text = Ok (r, V) →
  mkeys (byKey V) = view_order V ∧ NoDup (view_order V) ∧ ∀ key, view_state key (viewState V key).
Proof.
  intros Hp (_ & rs & Hrs & Hf & He)%parseBasesDocument_Ok.
  pose proof (keyed_keys _ _ _ _ _ Hrs) as [Hk Hnd]. split_and!; [done|done|].
  intros key v (w & Hw & ->)%fmap_Some. apply (keyed_get _ _ _ _ _ _ _ Hrs) in Hw as [Hin <-].
  exists w. split; [done|]. destruct Hrs as (_ & _ & _ & Hv). rewrite Forall_forall in Hv.
  split; [|split; [by apply Hv|done]].
  destruct (views_present V); [|rewrite He in Hin by done; by apply not_elem_of_nil in Hin].
  pose proof (plain_field r (lit "views") Hp _ Hf) as H. cbn [plain] in H. rewrite forallb_forall in H.
  apply H, in_map_iff. exists w. split; [done|]. by apply list_elem_of_In.
Qed.

(** ** Named maps *)

Definition map_entry (r : record) (field key : jstring) : FieldState := fieldState (fieldMapValue (fieldState r field)) key.

Lemma readOptionalPlainMap_Ok r f s : readOptionalPlainMap r f = Ok s → s = fieldState r f ∧ ∀ v, s = Some v → ∃ m, v = JObj m.
Proof.
  unfold readOptionalPlainMap. destruct (fieldState r f) as [[]|]; try done; intros E; apply (inj Ok) in E as <-;
    split; try done; intros v [= <-]; eauto.
Qed.

Lemma fieldMapValue_plain r f : plain (JObj r) = true → plain (JObj (fieldMapValue (fieldState r f))) = true.
Proof.
  intros Hp. pose proof (plain_field r f Hp) as H. destruct (fieldState r f) as [[]|]; try done. by apply H.
Qed.

Lemma mergeNamedMapField_spec f b c d m : plain (JObj b) = true → plain (JObj c) = true → plain (JObj d) = true →
  mergeNamedMapField f b c d = Ok m →
  plain_state m ∧ (∀ v, m = Some v → ∃ r, v = JObj r) ∧
  ∀ key, nested_merged (map_entry b f key) (map_entry c f key) (map_entry d f key) (fieldState (fieldMapValue m) key).
Proof.
  intros Hb Hc Hd. unfold mergeNamedMapField, map_entry.
  intros (sb & [-> Sb]%readOptionalPlainMap_Ok & (sc & [-> Sc]%readOptionalPlainMap_Ok & (sd & [-> Sd]%readOptionalPlainMap_Ok & H)%bind_Ok)%bind_Ok)%bind_Ok.
  set (mb := fieldMapValue (fieldState b f)). set (mc := fieldMapValue (fieldState c f)). set (md := fieldMapValue (fieldState d f)).
  assert ((m = None ∧ mb = [] ∧ mc = [] ∧ md = []) ∨
    ∃ ms, merge_names (λ key, mergeMapEntry (lit "Bases " ++ f ++ lit "." ++ key) (fieldState mb key) (fieldState mc key) (fieldState md key))
                (names_of mb mc md) = Ok ms ∧ m = Some (JObj (object_of ms))) as [(-> & -> & -> & ->)|(ms & Hms & ->)].
  { subst mb mc md. destruct (fieldState b f), (fieldState c f), (fieldState d f);
      try (apply bind_Ok in H as (ms & Hms & E); apply (inj Ok) in E as <-; right; by exists ms).
    apply (inj Ok) in H as <-. by left. }
  { split_and!; [done|done|]. intros key. left. by left. }
  assert (plain (JObj mb) = true ∧ plain (JObj mc) = true ∧ plain (JObj md) = true) as (Pb & Pc & Pd)
    by (split_and!; by apply fieldMapValue_plain).
  destruct (names_of_spec mb mc md) as [Hnd Habs].
  destruct (merged_object _ _ _ Hnd Hms) as [Hp Hval].
  { intros key s _ Hs. eapply mergeMapEntry_spec; [| | |exact Hs]; by apply plain_field. }
  split_and!; [by intros v [= <-]|intros v [= <-]; eauto|]. intros key. cbn [fieldMapValue].
  destruct (Hval key) as [H1 H2]. destruct (decide (key ∈ names_of mb mc md)) as [Hin|Hin].
  - destruct (H1 Hin) as (s & Hs & Hsame). apply mergeMapEntry_spec in Hs as [Hn Hps]; [|by apply plain_field..].
    eapply nested_merged_same; [exact Hps|by apply plain_field|exact Hsame|exact Hn].
  - rewrite (H2 Hin). destruct (Habs key Hin) as (-> & -> & ->). left. by left.
Qed.

(** ** The printed value *)

Lemma bases_result_members (states : list (jstring * FieldState)) :
  let ms := omap (λ '(field, state), (λ value, (field, printed_field field value)) <$> state) states in
  keys ms `sublist_of` mkeys states ∧
  (NoDup (mkeys states) → ∀ key, mget ms key = s ← mget states key; printed_field key <$> s).
Proof.
  cbn. induction states as [|[k s] states [IH1 IH2]]; cbn; [done|]. destruct s as [v|]; cbn.
  - split; [by constructor|]. intros [Hk Hnd]%NoDup_cons key.
    destruct (jeqb_spec k key) as [->|]; [done|]. by apply IH2.
  - split; [by constructor|]. intros [Hk Hnd]%NoDup_cons key.
    destruct (jeqb_spec k key) as [->|]; [|by apply IH2]. cbn. apply mget_None.
    intros H. apply Hk. by eapply elem_of_sublist.
Qed.

Lemma bases_result_field states key : NoDup (mkeys states) →
  fieldState (bases_result states) key = s ← mget states key; printed_field key <$> s.
Proof.
  intros Hnd. destruct (bases_result_members states) as [Hsub Hget]. rewrite fieldState_mget. unfold bases_result.
  rewrite mget_object_of by exact (sublist_NoDup _ _ Hnd Hsub). by apply Hget.
Qed.

Lemma bases_result_plain states : NoDup (mkeys states) →
  (∀ key s, mget states key = Some s → plain_state (printed_field key <$> s)) → plain (JObj (bases_result states)) = true.
Proof.
  intros Hnd Hp. destruct (bases_result_members states) as [Hsub Hget].
  assert (NoDup (mkeys (omap (λ '(field, state), (λ value, (field, printed_field field value)) <$> state) states))) as Hk
    by exact (sublist_NoDup _ _ Hnd Hsub).
  apply plain_object; [exact Hk|]. intros [k v] Hkv. cbn. apply mget_elem in Hkv; [|done].
  rewrite (Hget Hnd) in Hkv. apply bind_Some in Hkv as (s & Es & Hv). exact (Hp k s Es v Hv).
Qed.

Lemma mget_combine {A} (f : jstring → result A) names values : traverse f names = Ok values →
  mkeys (combine names values) = names ∧
  ∀ key, (key ∈ names → ∃ v, mget (combine names values) key = Some v ∧ f key = Ok v) ∧
         (key ∉ names → mget (combine names values) key = None).
Proof.
  intros H%traverse_Ok. induction H as [|x v names values Hx _ [IH1 IH2]].
  - split; [done|]. intros key. split; [intros H; by apply not_elem_of_nil in H|done].
  - split; [cbn; by f_equal|]. intros key. cbn. destruct (jeqb_spec x key) as [->|Hne].
    + split; [eauto|]. intros H. destruct H. by left.
    + rewrite elem_of_cons. destruct (IH2 key) as [H1 H2].
      split; [intros [?|?]; [congruence|auto]|intros ?; apply H2; tauto].
Qed.

Lemma other_fields_spec (b c d : record) : NoDup (other_fields b c d) ∧
  (∀ f, f ∈ other_fields b c d → f ∉ BASE_TOP_LEVEL_ORDER) ∧
  ∀ f, f ∉ BASE_TOP_LEVEL_ORDER → f ∉ other_fields b c d →
    fieldState b f = None ∧ fieldState c f = None ∧ fieldState d f = None.
Proof.
  unfold other_fields. split_and!.
  - exact (proj2 (isort_NoDup jleb _) (filter_NoDup _ _ (js_set_NoDup _))).
  - intros f Hf. apply (proj1 (isort_elem jleb _ _)), filter_elem in Hf as [_ Hf]. by apply jmem_not_elem, negb_true_iff.
  - intros f Hf Hn. assert (f ∉ keys b ++ keys c ++ keys d) as Hu.
    { intros H. apply Hn. apply (proj2 (isort_elem jleb _ _)), filter_elem. split; [by apply js_set_elem|].
      by apply negb_true_iff, jmem_not_elem. }
    rewrite !not_elem_of_app in Hu. rewrite !fieldState_mget, !mget_None by naive_solver. done.
Qed.

Lemma view_names_spec B C D : NoDup (view_order B) → NoDup (view_names B C D) ∧
  ∀ k, k ∉ view_names B C D → k ∉ view_order B ∧ k ∉ view_order C ∧ k ∉ view_order D.
Proof.
  intros Hnd. unfold view_names. set (extra := sort_strings _). assert (∀ k, k ∈ extra ↔ k ∉ view_order B ∧ (k ∈ view_order C ∨ k ∈ view_order D)) as Hex.
  { intros k. unfold extra, sort_strings. rewrite isort_elem, js_set_elem, filter_elem, negb_true_iff, jmem_not_elem, elem_of_app. tauto. }
  split.
  - apply NoDup_app. split_and!; [done|intros k Hk; rewrite Hex; tauto|exact (proj2 (isort_NoDup jleb _) (js_set_NoDup _))].
  - intros k. rewrite not_elem_of_app, Hex. intros [H1 H2]. split; [done|]. tauto.
Qed.

(** Printing views twice is printing them once. *)
Lemma canonicalizeViews_spec rs : Forall (λ r, plain (JObj r) = true ∧ is_view r) rs →
  ∀ rs', rs' = map (λ r, canonicalizeView (canonicalizeView r)) rs →
  canonicalizeViews (JArr (map JObj (map canonicalizeView rs))) = JArr (map JObj rs') ∧
  plain (JArr (map JObj rs')) = true ∧ Forall is_view rs' ∧ map viewKey rs' = map viewKey rs ∧
  ∀ r, r ∈ rs → same_state (Some (JObj (canonicalizeView (canonicalizeView r)))) (Some (JObj r)).
Proof.
  intros H ? ->. split; [cbn [canonicalizeViews]; by rewrite !map_map|]. split; [cbn [plain]|split; [|split]].
  - apply forallb_forall. intros v (r' & <- & (r & <- & Hr)%in_map_iff)%in_map_iff. rewrite Forall_forall in H.
    destruct (H r) as [Hp _]; [by apply list_elem_of_In|]. by apply canonicalizeView_spec, canonicalizeView_spec.
  - apply Forall_fmap. eapply Forall_impl; [exact H|]. intros r [Hp Hv].
    apply canonical_view; [by apply canonicalizeView_spec|by apply canonical_view].
  - rewrite map_map. apply map_ext_in. intros r Hr%list_elem_of_In. rewrite Forall_forall in H.
    destruct (H r Hr) as [Hp Hv]. destruct (canonical_view r Hp Hv) as [Hv1 Hk1].
    destruct (canonical_view (canonicalizeView r)) as [_ Hk2]; [by apply canonicalizeView_spec|done|]. exact (eq_trans Hk2 Hk1).
  - intros r Hr. rewrite Forall_forall in H. destruct (H r Hr) as [Hp _].
    assert (∀ r, plain (JObj r) = true → canonicalizeForJson (JObj (canonicalizeView r)) = canonicalizeForJson (JObj r)) as Hc.
    { intros q Hq. destruct (canonicalizeView_spec q Hq) as [Hq' Hf].
      apply same_fields_object; [done..|]. intros k. rewrite Hf. by apply same_state_canonical, plain_field. }
    exact (f_equal Some (eq_trans (Hc _ (proj1 (canonicalizeView_spec r Hp))) (Hc r Hp))).
Qed.

(** ** The merge *)

Definition is_map_field (f : jstring) : bool := jmem f BASE_MAP_FIELDS.

Record bases_merged (b c d m : record) (B C D M : ViewCollection) : Prop := {
  merged_fields : ∀ f, is_map_field f = false → f ≠ lit "views" →
    three_way (fieldState b f) (fieldState c f) (fieldState d f) (fieldState m f);
  merged_maps : ∀ f key, is_map_field f = true →
    nested_merged (map_entry b f key) (map_entry c f key) (map_entry d f key) (map_entry m f key);
  merged_views : ∀ key, nested_merged (viewState B key) (viewState C key) (viewState D key) (viewState M key);
  merged_view_order : view_order M `sublist_of` view_names B C D
}.

(** The states of the fields of the result, in their printed order. *)
Definition result_states (b c d : record) filters maps views others : list (jstring * FieldState) :=
  (lit "filters", filters) :: combine BASE_MAP_FIELDS maps ++ (lit "views", views) :: combine (other_fields b c d) others.

Lemma top_level_NoDup : NoDup BASE_TOP_LEVEL_ORDER.
Proof. apply (bool_decide_unpack _). vm_compute. exact I. Qed.

Lemma mget_app {A} (l k : jmap A) x : mget (l ++ k) x = match mget l x with Some v => Some v | None => mget k x end.
Proof. induction l as [|[y v] l IH]; cbn; [done|]. by destruct (y =s? x). Qed.

Lemma result_states_keys b c d filters maps views others :
  mkeys (combine BASE_MAP_FIELDS maps) = BASE_MAP_FIELDS → mkeys (combine (other_fields b c d) others) = other_fields b c d →
  NoDup (mkeys (result_states b c d filters maps views others)).
Proof.
  intros Hm Ho. unfold result_states, mkeys in *. cbn [map fst]. rewrite map_app. cbn [map fst]. rewrite Hm, Ho.
  change (NoDup (BASE_TOP_LEVEL_ORDER ++ other_fields b c d)).
  destruct (other_fields_spec b c d) as (Hnd & Hdis & _).
  apply NoDup_app. split_and!; [apply top_level_NoDup|intros f Hf Hin; by apply (Hdis f)|done].
Qed.

(** The state of each field of the result. *)
Lemma result_states_get b c d filters maps views others :
  traverse (λ field, mergeNamedMapField field b c d) BASE_MAP_FIELDS = Ok maps →
  traverse (λ field, root_state (lit "Bases top-level field " ++ field) b c d field) (other_fields b c d) = Ok others →
  let get f := s ← mget (result_states b c d filters maps views others) f; s in
  get (lit "filters") = filters ∧ get (lit "views") = views ∧
  (∀ f, is_map_field f = true → mergeNamedMapField f b c d = Ok (get f)) ∧
  (∀ f, f ∈ other_fields b c d → root_state (lit "Bases top-level field " ++ f) b c d f = Ok (get f)) ∧
  (∀ f, f ∉ BASE_TOP_LEVEL_ORDER → f ∉ other_fields b c d → get f = None).
Proof.
  intros [Hkm Hm]%mget_combine [Hko Ho]%mget_combine. cbv zeta. unfold result_states.
  assert (∀ f, lit "filters" ≠ f → ∀ l : list (jstring * FieldState), mget ((lit "filters", filters) :: l) f = mget l f) as Hskip.
  { intros f Hf l. cbn [mget]. by rewrite (proj2 (jeqb_neq _ _) Hf). }
  assert (∀ f, f ∉ BASE_MAP_FIELDS → mget (combine BASE_MAP_FIELDS maps) f = None) as Hnm by (intros f; apply Hm).
  split_and!.
  - cbn [mget]. by rewrite jeqb_refl.
  - rewrite Hskip, mget_app, Hnm by first [by apply jeqb_neq; vm_compute | by apply jmem_not_elem; vm_compute].
    cbn [mget]. by rewrite jeqb_refl.
  - intros f Hf%jmem_elem. rewrite Hskip by (intros <-; apply jmem_elem in Hf; by vm_compute in Hf).
    rewrite mget_app. destruct (proj1 (Hm f) Hf) as (v & -> & Hv). exact Hv.
  - intros f Hf. destruct (other_fields_spec b c d) as (_ & Hdis & _). pose proof (Hdis f Hf) as Hn.
    unfold BASE_TOP_LEVEL_ORDER, BASE_MAP_FIELDS in *. cbn [lits fmap list_fmap] in Hn, Hnm |- *.
    rewrite Hskip by (intros <-; apply Hn; by left). rewrite mget_app, Hnm by set_solver.
    cbn [mget]. rewrite (proj2 (jeqb_neq _ _)) by (intros <-; apply Hn; set_solver).
    destruct (proj1 (Ho f) Hf) as (v & -> & Hv). exact Hv.
  - intros f Hn Hf. unfold BASE_TOP_LEVEL_ORDER, BASE_MAP_FIELDS in *. cbn [lits fmap list_fmap] in Hn, Hnm |- *.
    rewrite Hskip by (intros <-; apply Hn; by left). rewrite mget_app, Hnm by set_solver.
    cbn [mget]. rewrite (proj2 (jeqb_neq _ _)) by (intros <-; apply Hn; set_solver).
    by rewrite (proj2 (Ho f) Hf).
Qed.

Lemma canonical_object_entry r key : plain (JObj r) = true →
  same_state (fieldState (fieldMapValue (Some (canonicalizeForYaml (JObj r)))) key) (fieldState r key).
Proof.
  intros Hp. apply same_object_fields; [by apply (canonical_plain (JObj r))|done|]. by apply (canonical_idem (JObj r)).
Qed.

(** The views of the result, merged key by key and read back. *)
Lemma mergeViews_spec (b c d : record) B C D views :
  plain (JObj b) = true → plain (JObj c) = true → plain (JObj d) = true →
  (mkeys (byKey B) = view_order B ∧ NoDup (view_order B) ∧ ∀ key, view_state key (viewState B key)) →
  (mkeys (byKey C) = view_order C ∧ NoDup (view_order C) ∧ ∀ key, view_state key (viewState C key)) →
  (mkeys (byKey D) = view_order D ∧ NoDup (view_order D) ∧ ∀ key, view_state key (viewState D key)) →
  (views_present B = false → byKey B = []) → (views_present C = false → byKey C = []) → (views_present D = false → byKey D = []) →
  mergeViews B C D = Ok views →
  plain_state (printed_field (lit "views") <$> views) ∧
  ∀ m, fieldState m (lit "views") = printed_field (lit "views") <$> views →
  ∃ M, parseViews m = Ok M ∧ view_order M `sublist_of` view_names B C D ∧
    ∀ key, nested_merged (viewState B key) (viewState C key) (viewState D key) (viewState M key).
Proof.
  intros Pb Pc Pd (KB & NB & SB) (KC & NC & SC) (KD & ND & SD) EB EC ED.
  assert (∀ v, printed_field (lit "views") v = canonicalizeViews v) as Hpf by (intros v; unfold printed_field; by rewrite jeqb_refl).
  assert (∀ V key, mkeys (byKey V) = view_order V → key ∉ view_order V → viewState V key = None) as Habs.
  { intros V key HK Hk. unfold viewState. by rewrite mget_None by by rewrite HK. }
  unfold mergeViews. destruct (negb _ && negb _ && negb _) eqn:Ep.
  - intros E. apply (inj Ok) in E as <-. split; [done|]. intros m Hm. cbn [fmap option_fmap option_map] in Hm. unfold parseViews. rewrite Hm.
    eexists; split; [done|]. cbn [view_order]. split; [apply sublist_nil_l|]. intros key.
    rewrite !andb_true_iff, !negb_true_iff in Ep. destruct Ep as [[E1 E2] E3].
    unfold viewState. rewrite EB, EC, ED by done. left. by left.
  - intros (_ & _ & (_ & _ & (vs & Hvs & E)%bind_Ok)%bind_Ok)%bind_Ok. apply (inj Ok) in E as <-.
    destruct (view_names_spec B C D NB) as [Hnd Hout].
    destruct (merge_views_spec B C D SB SC SD _ _ Hnd Hvs) as (rs & -> & Hrs & Hsub & Hval).
    destruct (canonicalizeViews_spec rs Hrs _ eq_refl) as (Hcv & Hpl & Hiv & Hkeys & Hsame).
    set (rs' := map (λ r, canonicalizeView (canonicalizeView r)) rs) in *. cbn [fmap option_fmap option_map]. rewrite Hpf, Hcv. split; [by intros v [= <-]|].
    intros m Hm. unfold parseViews. rewrite Hm.
    assert (NoDup (map viewKey rs)) as Hndk by exact (sublist_NoDup _ _ Hnd Hsub).
    destruct (read_views_Ok rs' [] [] [] (keyed_nil _ _) Hiv) as (m' & o' & Hread & HM); [by rewrite Hkeys|].
    rewrite Hread. eexists; split; [done|]. cbn [view_order byKey].
    destruct HM as (-> & -> & _ & _). cbn [app]. rewrite Hkeys. split; [done|]. intros key.
    assert (∀ r, r ∈ rs → viewKey r = key → mget (by_id viewKey rs') key = Some (canonicalizeView (canonicalizeView r))) as Hget.
    { intros r Hr Hk. apply mget_by_id; [by rewrite Hkeys|]. split.
      - apply list_elem_of_In, in_map_iff. exists r. split; [done|]. by apply list_elem_of_In.
      - rewrite Forall_forall in Hrs. destruct (Hrs r Hr) as [Hp Hv]. destruct (canonical_view r Hp Hv) as [Hv1 Hk1].
        destruct (canonical_view (canonicalizeView r)) as [_ Hk2]; [by apply canonicalizeView_spec|done|].
        rewrite Hk2, Hk1. exact Hk. }
    unfold viewState at 4. cbn [byKey].
    destruct (decide (key ∈ view_names B C D)) as [Hin|Hin].
    + destruct (Hval key Hin) as (mm & Hm' & Hcase).
      destruct (mergeViewEntry_spec _ _ _ _ _ (SB key) (SC key) (SD key) Hm') as [Hn Hs].
      destruct mm as [v|].
      * destruct Hcase as (r & -> & Hr & Hk). rewrite (Hget r Hr Hk). rewrite Forall_forall in Hrs.
        destruct (Hrs r Hr) as [Hp _].
        eapply nested_merged_same; [by eapply view_state_plain| |exact (Hsame r Hr)|exact Hn].
        intros v [= <-]. by apply canonicalizeView_spec, canonicalizeView_spec.
      * rewrite mget_None; [exact Hn|]. by rewrite mkeys_by_id, Hkeys.
    + destruct (Hout key Hin) as (H1 & H2 & H3). rewrite !Habs by done. rewrite mget_None; [left; by left|].
      rewrite mkeys_by_id, Hkeys. intros H. apply Hin. exact (elem_of_sublist _ _ _ H Hsub).
Qed.

(** [C14] Every accepted merge of three bases (whose numbers are safe integers and that have no key [__proto__]) is a base
    that merges them three ways: filters and other fields as wholes, entries of the
    maps and views as wholes or, where both sides changed them, field by field; the
    views of the base keep their order and additions follow. *)
Theorem bases_merge_three_way `{!YamlOk Nm Y} baseText currentText deviceText text b B c C d D :
  parseBasesDocument baseText = Ok (b, B) → parseBasesDocument currentText = Ok (c, C) →
  parseBasesDocument deviceText = Ok (d, D) →
  ordinary (JObj b) = true → ordinary (JObj c) = true → ordinary (JObj d) = true →
  semanticMergeBasesFile baseText currentText deviceText = Ok text →
  ∃ m M, parseBasesDocument text = Ok (m, M) ∧ bases_merged b c d m B C D M.
Proof.
  intros HB HC HD Pb%ordinary_plain Pc%ordinary_plain Pd%ordinary_plain. unfold semanticMergeBasesFile. rewrite HB, HC, HD. cbn [mbind result_bind].
  intros (value & Hval & E)%bind_Ok. apply (inj Ok) in E as <-. unfold semanticMergeBasesValue in Hval. cbn [fst snd] in Hval.
  apply bind_Ok in Hval as (filters & Hfil & Hval). apply bind_Ok in Hval as (maps & Hmaps & Hval).
  apply bind_Ok in Hval as (views & Hviews & Hval). apply bind_Ok in Hval as (others & Hoth & Hval).
  apply (inj Ok) in Hval. fold (result_states b c d filters maps views others) in Hval.
  set (states := result_states b c d filters maps views others) in *.
  destruct (result_states_get b c d filters maps views others Hmaps Hoth) as (Gf & Gv & Gm & Go & Gn). fold states in Gf, Gv, Gm, Go, Gn.
  assert (NoDup (mkeys states)) as Hnd.
  { apply result_states_keys; [apply (mget_combine _ _ _ Hmaps)|apply (mget_combine _ _ _ Hoth)]. }
  assert (∀ V r t, parseBasesDocument t = Ok (r, V) → views_present V = false → byKey V = []) as Hempty.
  { clear. intros V r t (_ & rs & Hrs & _ & He)%parseBasesDocument_Ok Hp. rewrite He in Hrs by done. by destruct Hrs as (-> & _). }
  destruct (mergeViews_spec b c d B C D views Pb Pc Pd (parsed_views _ _ _ Pb HB) (parsed_views _ _ _ Pc HC) (parsed_views _ _ _ Pd HD)
    (Hempty _ _ _ HB) (Hempty _ _ _ HC) (Hempty _ _ _ HD) Hviews) as [Pviews Hparse].
  assert (∀ f s label, root_state label b c d f = Ok s →
    plain_state s ∧ three_way (fieldState b f) (fieldState c f) (fieldState d f) s) as Hroot.
  { intros f s label [Ht Hcd]%mergeAtomicField_Ok; [|by apply plain_field..]. split; [|done].
    destruct Hcd as [-> | ->]; by apply plain_field. }
  assert (∀ f, f ≠ lit "views" → printed_field f = canonicalizeForYaml) as Hprint.
  { intros f Hf. unfold printed_field. by rewrite (proj2 (jeqb_neq _ _) Hf). }
  set (get := λ f : jstring, s ← mget states f; s).
  change (get (lit "filters") = filters) in Gf. change (get (lit "views") = views) in Gv.
  change (∀ f, is_map_field f = true → mergeNamedMapField f b c d = Ok (get f)) in Gm.
  change (∀ f, f ∈ other_fields b c d → root_state (lit "Bases top-level field " ++ f) b c d f = Ok (get f)) in Go.
  change (∀ f, f ∉ BASE_TOP_LEVEL_ORDER → f ∉ other_fields b c d → get f = None) in Gn.
  assert (∀ f, f ≠ lit "views" → plain_state (get f) ∧
    (is_map_field f = false → three_way (fieldState b f) (fieldState c f) (fieldState d f) (get f))) as Hget.
  { intros f Hf. destruct (is_map_field f) eqn:Em.
    - split; [|done]. exact (proj1 (mergeNamedMapField_spec f b c d _ Pb Pc Pd (Gm f Em))).
    - destruct (decide (f ∈ other_fields b c d)) as [Ho|Ho]; [specialize (Go f Ho); apply Hroot in Go; by destruct Go|].
      destruct (decide (f = lit "filters")) as [->|Hff]; [rewrite Gf; apply Hroot in Hfil; by destruct Hfil|].
      assert (f ∉ BASE_TOP_LEVEL_ORDER) as Hn.
      { unfold is_map_field in Em. apply jmem_not_elem in Em. unfold BASE_MAP_FIELDS, BASE_TOP_LEVEL_ORDER in *.
        cbn [lits fmap list_fmap] in *. set_solver. }
      destruct (other_fields_spec b c d) as (_ & _ & Hout). destruct (Hout f Hn Ho) as (-> & -> & ->).
      rewrite (Gn f Hn Ho). split; [done|]. intros _. by left. }
  set (m := bases_result states) in *.
  assert (∀ f, fieldState m f = printed_field f <$> get f) as Hfield.
  { intros f. subst m. rewrite bases_result_field by done. unfold get. by destruct (mget states f). }
  assert (plain (JObj m) = true) as Pm.
  { apply bases_result_plain; [done|]. intros key s Hs. assert (get key = s) as Hg by exact (f_equal (λ o : option FieldState, x ← o; x) Hs).
    destruct (decide (key = lit "views")) as [->|Hk]; [rewrite <- Hg, Gv; exact Pviews|].
    rewrite Hprint by done. rewrite <- Hg. by apply plain_canonicalize, Hget. }
  destruct (Hparse m) as (M & HM & Hord & Hvw); [by rewrite Hfield, Gv|].
  exists m, M. split.
  - unfold parseBasesDocument. rewrite <- Hval, yaml_round_trip by done.
    assert (∃ l, traverse (readOptionalPlainMap m) BASE_MAP_FIELDS = Ok l) as [l ->]; [|cbn [mbind result_bind]; by rewrite HM].
    exists (map (fieldState m) BASE_MAP_FIELDS). apply traverse_Ok, Forall2_fmap_r, Forall_Forall2_diag, Forall_forall.
    intros f Hf. assert (is_map_field f = true) as Em by by apply jmem_elem.
    change (readOptionalPlainMap m f = Ok (fieldState m f)). unfold readOptionalPlainMap.
    rewrite Hfield, Hprint by (intros ->; by vm_compute in Em).
    destruct (mergeNamedMapField_spec f b c d _ Pb Pc Pd (Gm f Em)) as (_ & Hobj & _).
    destruct (get f) as [v|]; [|done]. destruct (Hobj v eq_refl) as [r ->]. done.
  - split; [| |done|done].
    + intros f Em Hf. rewrite Hfield, Hprint by done. destruct (Hget f Hf) as [Hp Ht].
      change canonicalizeForYaml with canonicalizeForJson. rewrite same_state_canonical by done. by apply Ht.
    + intros f key Em. unfold map_entry at 4. rewrite Hfield, Hprint by (intros ->; by vm_compute in Em).
      destruct (mergeNamedMapField_spec f b c d _ Pb Pc Pd (Gm f Em)) as (Hp & Hobj & Hn). specialize (Hn key).
      destruct (get f) as [v|]; [|done]. destruct (Hobj v eq_refl) as [r ->]. specialize (Hp _ eq_refl).
      eapply nested_merged_same; [| |exact (canonical_object_entry r key Hp)|exact Hn]; apply plain_field; [done|].
      by apply (canonical_plain (JObj r)).
Qed.

End bases.

(** ** Examples *)

(** A YAML library that only knows JSON, which is a part of YAML. *)
Definition json_yaml (Nm : Numerals) : Yaml :=
  {| parseYaml := json_parse; stringifyYaml v := default [] (json_text v) |}.

Lemma json_yaml_ok (Nm : Numerals) : YamlOk Nm (json_yaml Nm).
Proof.
  split. intros v Hv. destruct (json_text_plain_reads v Hv) as (t & Ht & Hr). cbn [parseYaml stringifyYaml json_yaml].
  rewrite Ht. unfold with_newline. cbn [default from_option id].
  destruct (ends_with [10%N] t); [rewrite <- (app_nil_r t)|]; by apply (json_parse_reads []).
Qed.

Definition sample_bases : jstring :=
  requote "{'filters':'f','formulas':{'a':'1','b':{'x':1,'y':2}},'views':[{'type':'table','name':'T','limit':1,'sort':[]}]}".
(** The server edits a formula and the limit of the view, the device adds a formula, a
    view and the grouping of the first view. *)
Definition sample_bases_current : jstring :=
  requote "{'filters':'f','formulas':{'a':'1','b':{'x':5,'y':2}},'views':[{'type':'table','name':'T','limit':9,'sort':[]}]}".
Definition sample_bases_device : jstring :=
  requote "{'filters':'f','formulas':{'a':'1','b':{'x':1,'y':7},'c':'3'},'views':[{'type':'cards','name':'C'},{'type':'table','name':'T','limit':1,'sort':[],'group':'g'}]}".

Definition sample_document (t : jstring) : record * ViewCollection :=
  default ([], {| views_present := false; byKey := []; view_order := [] |})
    (to_option (parseBasesDocument (Nm := toy_numerals) (Y := json_yaml toy_numerals) t)).
Definition sample_bases_text : jstring :=
  default [] (to_option (semanticMergeBasesFile (Nm := toy_numerals) (Y := json_yaml toy_numerals)
                           sample_bases sample_bases_current sample_bases_device)).

Lemma bases_merge_three_way_witness :
  let '(b, c, d) := (sample_document sample_bases, sample_document sample_bases_current, sample_document sample_bases_device) in
  ∃ m M, parseBasesDocument (Nm := toy_numerals) (Y := json_yaml toy_numerals) sample_bases_text = Ok (m, M) ∧
    bases_merged b.1 c.1 d.1 m b.2 c.2 d.2 M.
Proof.
  apply (@bases_merge_three_way toy_numerals (json_yaml toy_numerals) (json_yaml_ok toy_numerals)
           sample_bases sample_bases_current sample_bases_device); vm_compute; reflexivity.
Defined.
