(* ===== verification/Frontmatter.v ===== *)
(** * Merging the frontmatter of notes

    [assertMarkdownMergeAllowed] of gitService.ts, which reviews the top-level keys of
    the YAML block both sides changed, and src/server/frontmatterTimestampMerge.ts, which
    settles configured timestamp fields by the later instant.  The YAML library parses
    the block into nodes with source ranges ([YamlDocuments]); its promise about the
    ranges is [YamlRangesOk]. *)

From S2P Require Export CanvasMerge.

Local Open Scope js_scope.

(** ** Top-level keys *)

(** [text.replace(/\r\n/gu, '\n')]. *)
Fixpoint normalize_breaks (s : jstring) : jstring :=
  match s with
  | [] => []
  | c :: s' =>
    if (c =? 13)%N && starts_with [10%N] s' then normalize_breaks s' else c :: normalize_breaks s'
  end.

Definition is_key_unit (c : N) : bool := is_alnum c || (c =? 95)%N || (c =? 45)%N.

(** A name of letters, digits, [_] and [-], a colon, and a rest without line terminators. *)
Definition is_line_terminator (c : N) : bool := (c =? 10)%N || (c =? 13)%N || (c =? 8232)%N || (c =? 8233)%N.
Fixpoint key_span (s : jstring) : jstring * jstring :=
  match s with
  | c :: s' => if is_key_unit c then (let '(k, r) := key_span s' in (c :: k, r)) else ([], s)
  | [] => ([], [])
  end.
Definition top_level_key (line : jstring) : option (jstring * jstring) :=
  match key_span line with
  | (c :: k, d :: rest) => if (d =? 58)%N && negb (existsb is_line_terminator rest) then Some (c :: k, rest) else None
  | _ => None
  end.

Record frontmatter_state := mk_fm {
  fm_keys : jmap jstring;
  fm_key : option jstring;
  fm_lines : list jstring
}.

(** [finishKey]: [None] when the key occurs twice. *)
Definition finishKey (s : frontmatter_state) : option frontmatter_state :=
  match fm_key s with
  | None => Some s
  | Some k =>
    if bool_decide (is_Some (mget (fm_keys s) k)) then None
    else Some (mk_fm (mset (fm_keys s) k (join_with 10 (fm_lines s))) None [])
  end.

Fixpoint read_lines (lines : list jstring) (s : frontmatter_state) : option frontmatter_state :=
  match lines with
  | [] => Some s
  | line :: lines =>
    match top_level_key line with
    | Some (k, v) => s ← finishKey s; read_lines lines (mk_fm (fm_keys s) (Some k) [v])
    | None =>
      match fm_key s with
      | None =>
        if (trim line =s? []) || starts_with [35%N] (trim_start line) then read_lines lines s else None
      | Some _ => read_lines lines (mk_fm (fm_keys s) (fm_key s) (fm_lines s ++ [line]))
      end
    end
  end.

(** [None] for [{ ok: false }]. *)
Definition parseFrontmatter (text : jstring) : option (jmap jstring) :=
  match split_on 10 (normalize_breaks text) with
  | first :: lines =>
    if negb (first =s? lit "---") then Some []
    else match list_find (λ line, line = lit "---" ∨ line = lit "...") lines with
         | None => None
         | Some (n, _) =>
           s ← read_lines (take n lines) (mk_fm [] None []);
           fm_keys <$> finishKey s
         end
  | [] => Some []
  end.

Definition changedFrontmatterKeys (base side : jmap jstring) : list jstring :=
  List.filter (λ key, negb (bool_decide (mget base key = mget side key))) (js_set (mkeys base ++ mkeys side)).

Definition assertMarkdownMergeAllowed (baseText currentText deviceText : jstring) (resolvedTimestampFields : list jstring) : result unit :=
  match parseFrontmatter baseText, parseFrontmatter currentText, parseFrontmatter deviceText with
  | Some base, Some current, Some device =>
    if existsb (λ key, jmem key (changedFrontmatterKeys base device)
                       && negb (bool_decide (mget current key = mget device key))
                       && negb (jmem key resolvedTimestampFields)) (changedFrontmatterKeys base current)
    then Throw (GitCommandError (lit "Markdown frontmatter same-key edits require review."))
    else Ok ()
  | _, _, _ => Throw (GitCommandError (lit "Markdown frontmatter could not be validated for semantic merge."))
  end.

(** ** Rules *)

Definition FIELD_NAME (s : jstring) : bool := negb (s =s? []) && forallb is_key_unit s.
Definition rule_error (message : jstring) : js_error := mk_error EPlain [] message [].

(** A rule is its field: the only strategy is [latest_timestamp]. *)
Fixpoint read_rules (items : list jsval) (fields : list jstring) : result (list jstring) :=
  match items with
  | [] => Ok []
  | item :: items =>
    match as_record item with
    | None => Throw (rule_error (lit "Metadata conflict rules must be objects."))
    | Some rule =>
      match rget rule (lit "field") with
      | JStr field =>
        if negb (FIELD_NAME field) || (128 <? length field) then
          Throw (rule_error (lit "Metadata conflict fields must be top-level YAML keys."))
        else if negb (is_lit (rget rule (lit "strategy")) (lit "latest_timestamp")) then
          Throw (rule_error (lit "The supported metadata conflict strategy is latest_timestamp."))
        else if jmem field fields then
          Throw (rule_error (lit "Metadata conflict field " ++ field ++ lit " is configured more than once."))
        else (λ rules, field :: rules) <$> read_rules items (fields ++ [field])
      | _ => Throw (rule_error (lit "Metadata conflict fields must be top-level YAML keys."))
      end
    end
  end.

Definition validateMetadataConflictRules (value : jsval) : result (list jstring) :=
  match value with
  | JArr items =>
    if 64 <? length items then Throw (rule_error (lit "Configure at most 64 metadata conflict rules."))
    else read_rules items []
  | _ => Throw (rule_error (lit "Configure at most 64 metadata conflict rules."))
  end.

(** ** Timestamps *)

Definition ISO_OFFSET_TIMESTAMP : regex :=
  let digits n := rrep n (RClass is_digit) in
  RSeq (digits 4) (RSeq (rlit "-") (RSeq (digits 2) (RSeq (rlit "-") (RSeq (digits 2) (RSeq (rlit "T")
  (RSeq (digits 2) (RSeq (rlit ":") (RSeq (digits 2) (RSeq (rlit ":") (RSeq (digits 2)
  (RSeq (ropt (RSeq (rlit ".") (rrange 1 9 (RClass is_digit))))
        (RAlt (rlit "Z") (RSeq (RClass (λ c, (c =? 43)%N || (c =? 45)%N)) (RSeq (digits 2) (RSeq (rlit ":") (digits 2)))))))))))))))).

Definition slice (from until : nat) (s : jstring) : jstring := drop from (take until s).
Definition number_at (from until : nat) (s : jstring) : Z := undec 0 (slice from until s).

Record TimestampInstant := mk_instant { seconds : Z; nanos : Z }.

(** The groups of a match: fixed positions, and the zone at the end. *)
Definition zone_of (value : jstring) : jstring :=
  if ends_with (lit "Z") value then lit "Z" else drop (length value - 6) value.
Definition fraction_of (value : jstring) : jstring := drop 20 (take (length value - length (zone_of value)) value).

Definition parseTimestamp (value : jstring) : option TimestampInstant :=
  if negb (rtest ISO_OFFSET_TIMESTAMP value) then None else
  let year := number_at 0 4 value in let month := number_at 5 7 value in let day := number_at 8 10 value in
  let hour := number_at 11 13 value in let minute := number_at 14 16 value in let second := number_at 17 19 value in
  let zone := zone_of value in
  let fraction := fraction_of value in
  if (month <? 1)%Z || (12 <? month)%Z || (day <? 1)%Z || (23 <? hour)%Z || (59 <? minute)%Z || (59 <? second)%Z then None else
  let days := days_of_civil year month day in
  if negb (bool_decide (civil_of_days days = (year, month, day))) then None else
  if zone =s? lit "-00:00" then None else
  let offsetHours := number_at 1 3 zone in let offsetMinutes := number_at 4 6 zone in
  if negb (zone =s? lit "Z") && ((23 <? offsetHours)%Z || (59 <? offsetMinutes)%Z) then None else
  let sign := if starts_with (lit "+") zone then 1%Z else (-1)%Z in
  let offsetSeconds := if zone =s? lit "Z" then 0%Z else (sign * (offsetHours * 3600 + offsetMinutes * 60))%Z in
  Some (mk_instant (days * 86400 + hour * 3600 + minute * 60 + second - offsetSeconds)%Z
                   (undec 0 (fraction ++ repeat 48%N (9 - length fraction)))).

(** Negative, zero or positive, as the function returns it. *)
Definition compareTimestamp (left right : TimestampInstant) : Z :=
  if negb (seconds left =? seconds right)%Z then (if (seconds right <? seconds left)%Z then 1 else -1)%Z
  else if (nanos left =? nanos right)%Z then 0%Z
  else (if (nanos right <? nanos left)%Z then 1 else -1)%Z.

(** ** The block in the source *)

Inductive yaml_node :=
| YNone                                               (* null, or not a node *)
| YAlias
| YScalar (value : jsval) (tagged anchored : bool) (range : option (nat * nat))
| YSeq (tagged anchored : bool) (items : list yaml_node)
| YMap (tagged anchored : bool) (items : list (yaml_node * yaml_node)).

Record yaml_document := { doc_errors : nat; doc_warnings : nat; doc_contents : yaml_node }.

(** [parseDocument(text, { version: '1.2', uniqueKeys: true, strict: true })]. *)
Class YamlDocuments := { parseDocument : jstring → yaml_document }.

(** An item of a collection that has a [key] or a [value] is taken for a pair. The scalars
    of the library have a [value], the text or number itself: as an item of a sequence a
    scalar is not looked at for its tag and its anchor. *)
Fixpoint hasUnsupportedYamlNode (node : yaml_node) : bool :=
  match node with
  | YNone => false
  | YAlias => true
  | YScalar _ tagged anchored _ => tagged || anchored
  | YSeq tagged anchored items =>
    tagged || anchored || existsb (λ item, match item with YScalar _ _ _ _ => false | _ => hasUnsupportedYamlNode item end) items
  | YMap tagged anchored items =>
    tagged || anchored || existsb (λ '(k, v), hasUnsupportedYamlNode k || hasUnsupportedYamlNode v) items
  end.

Fixpoint blanks (s : jstring) : nat :=
  match s with c :: s => if (c =? 32)%N || (c =? 9)%N then S (blanks s) else 0 | [] => 0 end.

(** The length of a line break at the head. *)
Definition break_length (s : jstring) : option nat :=
  match s with
  | c :: t => if (c =? 13)%N then Some (if starts_with [10%N] t then 2 else 1) else if (c =? 10)%N then Some 1 else None
  | [] => None
  end.

(** [/^(---)[ \t]*(\r\n|\n|\r)/u.exec(source)]: the length of the match. *)
Definition opening_length (source : jstring) : option nat :=
  if starts_with (lit "---") source then
    let n := 3 + blanks (drop 3 source) in
    (λ b, n + b) <$> break_length (drop n source)
  else None.

(** A delimiter, blanks, and a line break or the end of a line; the length of the match. *)
Definition delimiter_length (s : jstring) : option nat :=
  if starts_with (lit "---") s || starts_with (lit "...") s then
    let n := 3 + blanks (drop 3 s) in
    match drop n s with
    | [] => Some n
    | c :: t => match break_length (c :: t) with
                | Some b => Some (n + b)
                | None => if is_line_terminator c then Some n else None
                end
    end
  else None.

(** [/(?:^|\r\n|\n|\r)(---|\.\.\.)[ \t]*(?:\r\n|\n|\r|$)/gmu] from a position on: where the
    match starts, where its delimiter does, and where it ends. *)
Fixpoint closing_match (at_line_start : bool) (position : nat) (s : jstring) : option (nat * nat * nat) :=
  let here := if at_line_start then delimiter_length s else None in
  match here with
  | Some n => Some (position, position, position + n)
  | None =>
    match s with
    | [] => None
    | c :: t =>
      match (b ← break_length s; n ← delimiter_length (drop b s); Some (position, position + b, position + b + n)) with
      | Some found => Some found
      | None => closing_match (is_line_terminator c) (S position) t
      end
    end
  end.

Record FieldSpan := mk_span { sp_start : nat; sp_end : nat; sp_raw : jstring; sp_instant : TimestampInstant }.
Record Frontmatter := { fm_body : jstring; fm_fields : jmap FieldSpan }.

Section timestamps.
Context `{YD : YamlDocuments}.

(** The value of a configured field: a plain string scalar that is an instant. *)
Definition read_span (yamlStart : nat) (yamlText : jstring) (value : yaml_node) : option FieldSpan :=
  match value with
  | YScalar (JStr v) false false (Some (from, until)) =>
    (λ instant, mk_span (yamlStart + from) (yamlStart + until) (slice from until yamlText) instant) <$> parseTimestamp v
  | _ => None
  end.

(** [pairs] holds the configured fields only, so only they are found twice. *)
Fixpoint read_pairs (yamlStart : nat) (yamlText : jstring) (rules : list jstring) (items : list (yaml_node * yaml_node))
  (pairs : jmap FieldSpan) : option (jmap FieldSpan) :=
  match items with
  | [] => Some pairs
  | (k, value) :: items =>
    match k with
    | YScalar (JStr key) _ _ _ =>
      if bool_decide (is_Some (mget pairs key)) then None
      else if jmem key rules then
        span ← read_span yamlStart yamlText value; read_pairs yamlStart yamlText rules items (mset pairs key span)
      else read_pairs yamlStart yamlText rules items pairs
    | _ => read_pairs yamlStart yamlText rules items pairs
    end
  end.

Definition parseMarkdownFrontmatter (source : jstring) (rules : list jstring) : option Frontmatter :=
  yamlStart ← opening_length source;
  '(_, delimiterStart, closingEnd) ← closing_match true yamlStart (drop yamlStart source);
  let yamlText := slice yamlStart delimiterStart source in
  let document := parseDocument yamlText in
  match doc_contents document with
  | YMap tagged anchored items =>
    if (0 <? doc_errors document) || (0 <? doc_warnings document) || hasUnsupportedYamlNode (doc_contents document) then None
    else
      pairs ← read_pairs yamlStart yamlText rules items [];
      spans ← mapM (mget pairs) rules;
      Some {| fm_body := drop closingEnd source; fm_fields := combine rules spans |}
  | _ => None
  end.

(** ** Settling the fields *)

Definition sort_spans (spans : list FieldSpan) : list FieldSpan := isort (λ a b, sp_start a <=? sp_start b) spans.

Fixpoint equal_outside (leftCursor rightCursor : nat) (left right : jstring) (leftSpans rightSpans : list FieldSpan) : bool :=
  match leftSpans, rightSpans with
  | l :: leftSpans, r :: rightSpans =>
    (slice leftCursor (sp_start l) left =s? slice rightCursor (sp_start r) right)
    && equal_outside (sp_end l) (sp_end r) left right leftSpans rightSpans
  | _, _ => drop leftCursor left =s? drop rightCursor right
  end.
Definition equalOutsideSpans (left : jstring) (leftSpans : list FieldSpan) (right : jstring) (rightSpans : list FieldSpan) : bool :=
  equal_outside 0 0 left right (sort_spans leftSpans) (sort_spans rightSpans).

Inductive winner := WServer | WDevice | WTie.

Definition outcome_of (serverField deviceField : FieldSpan) : winner :=
  let comparison := compareTimestamp (sp_instant serverField) (sp_instant deviceField) in
  if (0 <=? comparison)%Z then (if (comparison =? 0)%Z then WTie else WServer) else WDevice.

Definition replacement := (nat * nat * jstring)%type.
Definition replacements (spans : list (FieldSpan * FieldSpan)) : list replacement :=
  omap (λ '(s, d), match outcome_of s d with WDevice => Some (sp_start s, sp_end s, sp_raw d) | _ => None end) spans.

Definition replace_one (content : jstring) (r : replacement) : jstring :=
  take r.1.1 content ++ r.2 ++ drop r.1.2 content.

Definition apply_replacements (source : jstring) (rs : list replacement) : jstring :=
  fold_left replace_one (isort (λ a b, b.1.1 <=? a.1.1) rs) source.

Definition mergeLatestTimestampFrontmatter (serverSource deviceSource : jstring) (rules : list jstring)
  : option (jstring * list (jstring * winner)) :=
  match rules with
  | [] => None
  | _ =>
    server ← parseMarkdownFrontmatter serverSource rules;
    device ← parseMarkdownFrontmatter deviceSource rules;
    if negb (fm_body server =s? fm_body device) then None else
    serverSpans ← mapM (mget (fm_fields server)) rules;
    deviceSpans ← mapM (mget (fm_fields device)) rules;
    if negb (equalOutsideSpans serverSource serverSpans deviceSource deviceSpans) then None
    else
      let spans := combine serverSpans deviceSpans in
      Some (apply_replacements serverSource (replacements spans),
            combine rules (map (λ '(s, d), outcome_of s d) spans))
  end.

End timestamps.

(** ** Accepted frontmatter *)

(** A note's frontmatter is accepted only if no top-level key was changed differently on
    both sides, unless a timestamp rule settles it. *)
Lemma assertMarkdownMergeAllowed_spec b c d resolved :
  assertMarkdownMergeAllowed b c d resolved = Ok () ↔ ∃ B C D,
    parseFrontmatter b = Some B ∧ parseFrontmatter c = Some C ∧ parseFrontmatter d = Some D ∧
    ∀ key, mget C key = mget B key ∨ mget D key = mget B key ∨ mget C key = mget D key ∨ key ∈ resolved.
Proof.
  unfold assertMarkdownMergeAllowed. split.
  - destruct (parseFrontmatter b) as [B|]; [|done]. destruct (parseFrontmatter c) as [C|]; [|done].
    destruct (parseFrontmatter d) as [D|]; [|done]. destruct (existsb _ _) eqn:E; [done|]. intros _.
    exists B, C, D. split_and!; try done. intros key.
    destruct (decide (mget C key = mget B key)) as [|H1]; [by left|]. destruct (decide (mget D key = mget B key)) as [|H2]; [auto|].
    destruct (decide (mget C key = mget D key)) as [|H3]; [auto|]. destruct (decide (key ∈ resolved)) as [|H4]; [auto|]. exfalso.
    rewrite <- not_true_iff_false, existsb_exists in E. apply E. exists key.
    assert (∀ (X : jmap jstring), mget X key ≠ mget B key → key ∈ changedFrontmatterKeys B X) as Hch.
    { intros X HX. apply filter_elem. rewrite bool_decide_eq_false_2 by congruence. split; [|done].
      apply js_set_elem, elem_of_app. rewrite <- !mget_keys. destruct (mget X key), (mget B key); try done; eauto. }
    rewrite <- list_elem_of_In. split; [by apply Hch|]. rewrite (proj2 (jmem_elem _ _)) by by apply Hch.
    rewrite bool_decide_eq_false_2 by done. by rewrite (proj2 (jmem_not_elem _ _)).
  - intros (B & C & D & -> & -> & -> & H). destruct (existsb _ _) eqn:E; [|done]. exfalso.
    apply existsb_exists in E as (key & Hc%list_elem_of_In & E).
    rewrite !andb_true_iff, !negb_true_iff, bool_decide_eq_false, jmem_not_elem, jmem_elem in E.
    destruct E as [[Hd Hne] Hr]. apply filter_elem in Hc as [_ Hc], Hd as [_ Hd].
    rewrite negb_true_iff, bool_decide_eq_false in Hc, Hd. destruct (H key) as [?|[?|[?|?]]]; congruence.
Qed.

(** ** Texts around their fields *)

Fixpoint weave (gaps values : list jstring) (tail : jstring) : jstring :=
  match gaps, values with
  | gap :: gaps, value :: values => gap ++ value ++ weave gaps values tail
  | _, _ => tail
  end.

Fixpoint gaps_of (cursor : nat) (source : jstring) (spans : list FieldSpan) : list jstring :=
  match spans with
  | [] => []
  | span :: spans => slice cursor (sp_start span) source :: gaps_of (sp_end span) source spans
  end.
Fixpoint tail_of (cursor : nat) (source : jstring) (spans : list FieldSpan) : jstring :=
  match spans with [] => drop cursor source | span :: spans => tail_of (sp_end span) source spans end.

(** Spans one after the other from a position on, inside the text, that hold their texts. *)
Inductive laid_out (source : jstring) : nat → list FieldSpan → Prop :=
| laid_nil cursor : cursor ≤ length source → laid_out source cursor []
| laid_cons cursor span spans : cursor ≤ sp_start span → sp_start span < sp_end span →
    sp_raw span = slice (sp_start span) (sp_end span) source →
    laid_out source (sp_end span) spans → laid_out source cursor (span :: spans).

Lemma laid_out_le source cursor spans : laid_out source cursor spans → cursor ≤ length source.
Proof. induction 1; lia. Qed.

Lemma slice_take a b (s : jstring) : a ≤ b → slice a b s = take (b - a) (drop a s).
Proof. intros H. unfold slice. rewrite take_drop_commute. by replace (a + (b - a)) with b by lia. Qed.

Lemma slice_app a b c (s : jstring) : a ≤ b → b ≤ c → slice a b s ++ slice b c s = slice a c s.
Proof.
  intros Hab Hbc. rewrite !slice_take by lia.
  replace (drop b s) with (drop (b - a) (drop a s)) by (rewrite drop_drop; f_equal; lia).
  rewrite take_take_drop. f_equal. lia.
Qed.

Lemma slice_drop a b (s : jstring) : a ≤ b → b ≤ length s → slice a b s ++ drop b s = drop a s.
Proof.
  intros Hab Hb. rewrite <- (take_ge s (length s)) at 2 by done.
  change (drop b (take (length s) s)) with (slice b (length s) s). rewrite slice_app by done.
  unfold slice. by rewrite take_ge.
Qed.

Lemma weave_source source cursor spans : laid_out source cursor spans →
  drop cursor source = weave (gaps_of cursor source spans) (map sp_raw spans) (tail_of cursor source spans).
Proof.
  induction 1 as [cursor H|cursor span spans Hs He Hr Hl IH]; cbn; [done|].
  pose proof (laid_out_le _ _ _ Hl). rewrite <- IH, Hr.
  rewrite (slice_drop (sp_start span)) by lia. by rewrite slice_drop by lia.
Qed.

(** Replacing from the last span to the first leaves what is before a span alone. *)
Lemma replaced_source {A} source (f : FieldSpan * A → option jstring) cursor (ps : list (FieldSpan * A)) :
  laid_out source cursor (map fst ps) →
  foldr (λ r content, replace_one content r) source
    (omap (λ p, (λ v, (sp_start p.1, sp_end p.1, v)) <$> f p) ps)
  = take cursor source ++ weave (gaps_of cursor source (map fst ps)) (map (λ p, default (sp_raw p.1) (f p)) ps)
                                (tail_of cursor source (map fst ps)).
Proof.
  revert cursor. induction ps as [|[span x] ps IH]; intros cursor H; cbn; [by rewrite take_drop|].
  inversion H as [|? ? ? Hs He Hr Hl]; subst. specialize (IH _ Hl). pose proof (laid_out_le _ _ _ Hl) as Hle.
  assert (take (sp_end span) source = take cursor source ++ slice cursor (sp_start span) source ++ sp_raw span) as E.
  { rewrite Hr, slice_app by lia. change (take cursor source) with (slice 0 cursor source).
    by rewrite slice_app by lia. }
  assert (take (sp_start span) source = take cursor source ++ slice cursor (sp_start span) source) as E'.
  { change (take cursor source) with (slice 0 cursor source). by rewrite slice_app by lia. }
  destruct (f (span, x)) as [v|]; cbn [fmap option_fmap option_map foldr default from_option id].
  - rewrite IH. unfold replace_one. cbn [fst snd].
    rewrite take_app_le by (rewrite length_take; lia). rewrite take_take, Nat.min_l by lia.
    rewrite drop_app_length' by (rewrite length_take; lia). by rewrite E', <- !app_assoc.
  - by rewrite IH, E, <- !app_assoc.
Qed.

Lemma equal_outside_gaps cl cr left right ls rs : length ls = length rs →
  equal_outside cl cr left right ls rs = true → gaps_of cl left ls = gaps_of cr right rs ∧ tail_of cl left ls = tail_of cr right rs.
Proof.
  revert cl cr rs. induction ls as [|l ls IH]; intros cl cr [|r rs] Hlen; try done; cbn.
  - by intros ?%jeqb_eq.
  - intros [E H]%andb_true_iff. apply jeqb_eq in E. apply IH in H as [-> ->]; [|by injection Hlen]. by rewrite E.
Qed.

(** ** Spans of one source *)

Definition text_ranges (items : list (yaml_node * yaml_node)) : list (nat * nat) :=
  omap (λ '(_, v), match v with YScalar (JStr (_ :: _)) _ _ range => range | _ => None end) items.

(** The nodes of a parsed document have ranges in its text, one after the other. *)
Class YamlRangesOk (YD : YamlDocuments) := {
  ranges_ordered text tagged anchored items :
    doc_errors (parseDocument text) = 0 → doc_contents (parseDocument text) = YMap tagged anchored items →
    StronglySorted (λ a b, a.2 ≤ b.1) (text_ranges items) ∧
    Forall (λ r, r.1 < r.2 ∧ r.2 ≤ length text) (text_ranges items)
}.

Lemma strict_sort {A} (key : A → Z) (leb : A → A → bool) l k :
  (∀ a b, leb a b = true ↔ (key a <= key b)%Z) → StronglySorted (λ a b, (key a < key b)%Z) k → l ≡ₚ k → isort leb l = k.
Proof.
  intros Hleb Hk Hp. apply (StronglySorted_unique_strong (λ a b, (key a <= key b)%Z)).
  - intros x y Hx Hy Hxy Hyx. assert (x ∈ k) as Hxk by (rewrite <- Hp; by apply (isort_elem leb)).
    clear -Hxk Hy Hxy Hyx Hk. induction Hk as [|z k Hk IH Hz]; [by apply not_elem_of_nil in Hy|].
    rewrite Forall_forall in Hz. apply elem_of_cons in Hxk as [->|Hxk], Hy as [->|Hy]; auto.
    + specialize (Hz _ Hy). lia.
    + specialize (Hz _ Hxk). lia.
  - assert (StronglySorted (λ a b, leb a b = true) (isort leb l)) as Hs.
    { apply isort_sorted; intros; [destruct (decide (key a <= key b)%Z); [left|right]; apply Hleb; lia|].
      rewrite Hleb in *. lia. }
    induction Hs as [|x s Hs IH Hx]; constructor; [done|]. eapply Forall_impl; [exact Hx|]. intros y. apply Hleb.
  - clear -Hk. induction Hk as [|x k Hk IH Hx]; constructor; [done|]. eapply Forall_impl; [exact Hx|]. cbn. lia.
  - by rewrite isort_perm.
Qed.

Lemma StronglySorted_weaken {A} (R R' : A → A → Prop) l : (∀ a b, R a b → R' a b) → StronglySorted R l → StronglySorted R' l.
Proof. intros HR. induction 1 as [|x l Hl IH Hx]; constructor; [done|]. eapply Forall_impl; [exact Hx|]. auto. Qed.

Lemma StronglySorted_rev {A} (R : A → A → Prop) l : StronglySorted R l → StronglySorted (λ a b, R b a) (rev l).
Proof.
  induction 1 as [|x l Hl IH Hx]; cbn; [constructor|]. apply StronglySorted_app. split_and!; [|done|repeat constructor].
  intros a b Ha ->%list_elem_of_singleton. rewrite Forall_forall in Hx. apply Hx. by rewrite list_elem_of_In, in_rev, <- list_elem_of_In.
Qed.

Lemma laid_out_sorted source cursor spans : laid_out source cursor spans →
  Forall (λ s, cursor ≤ sp_start s) spans ∧ StronglySorted (λ a b, sp_start a < sp_start b) spans.
Proof.
  induction 1 as [|cursor span spans Hs He Hr Hl [IH1 IH2]]; [by repeat constructor|]. split.
  - constructor; [done|]. eapply Forall_impl; [exact IH1|]. cbn. lia.
  - constructor; [done|]. eapply Forall_impl; [exact IH1|]. cbn. lia.
Qed.

Section merged.
Context `{YD : YamlDocuments} `{YO : !YamlRangesOk YD}.

(** What the pairs hold after reading some of the items: spans of the ranges read, in order. *)
Lemma read_pairs_spec yamlStart source yamlText rules items : ∀ pairs pairs',
  yamlText = drop yamlStart (take (yamlStart + length yamlText) source) →
  yamlStart + length yamlText ≤ length source →
  (∀ cursor, Forall (λ r, cursor ≤ yamlStart + r.1) (text_ranges items) → 
   StronglySorted (λ a b, a.2 ≤ b.1) (text_ranges items) → Forall (λ r, r.1 < r.2 ∧ r.2 ≤ length yamlText) (text_ranges items) →
   cursor ≤ length source →
   read_pairs yamlStart yamlText rules items pairs = Some pairs' →
   ∃ new, pairs' = pairs ++ new ∧ laid_out source cursor (mvalues new) ∧ (∀ k, k ∈ mkeys new → k ∈ rules) ∧
     (NoDup (mkeys pairs) → NoDup (mkeys pairs'))).
Proof.
  induction items as [|[k v] items IH]; intros pairs pairs' Htext Hlen cursor Hc Hs Hb Hcl; cbn [read_pairs].
  { intros E. apply (inj Some) in E as <-. exists []. rewrite app_nil_r. split_and!; [done|by constructor|by intros k ?%not_elem_of_nil|done]. }
  assert (text_ranges items = text_ranges items ∧ (∃ pre, text_ranges ((k, v) :: items) = pre ++ text_ranges items)) as [_ [pre Hpre]].
  { split; [done|]. cbn. destruct (match v with YScalar (JStr (_ :: _)) _ _ range => range | _ => None end) as [r|]; [by exists [r]|by exists []]. }
  assert (read_pairs yamlStart yamlText rules items pairs = Some pairs' → ∃ new, pairs' = pairs ++ new ∧
    laid_out source cursor (mvalues new) ∧ (∀ k, k ∈ mkeys new → k ∈ rules) ∧ (NoDup (mkeys pairs) → NoDup (mkeys pairs'))) as Hskip.
  { intros E. rewrite Hpre in Hc, Hs, Hb. apply Forall_app in Hc as [_ Hc], Hb as [_ Hb].
    apply StronglySorted_app in Hs as (_ & _ & Hs). by apply (IH pairs pairs'). }
  destruct k as [| |[| | | |key| |] ? ? ?| |]; try exact Hskip.
  case_bool_decide as Hfresh; [done|]. destruct (jmem key rules) eqn:Ek; [|exact Hskip].
  intros (span & Hspan & E)%bind_Some.
  unfold read_span in Hspan. destruct v as [| |[| | | |t| |] [] [] [[from until]|]| |]; try done.
  apply fmap_Some in Hspan as (instant & Hinst & ->).
  assert (∃ c t', t = c :: t') as (c & t' & ->).
  { destruct t; [by vm_compute in Hinst|eauto]. }
  change (text_ranges ((YScalar (JStr key) tagged anchored range, YScalar (JStr (c :: t')) false false (Some (from, until))) :: items))
    with ((from, until) :: text_ranges items) in Hc, Hs, Hb.
  apply Forall_cons in Hc as [Hc1 Hc], Hb as [[Hb1 Hb2] Hb]. inversion Hs as [|? ? Hs' Hs1]; subst. cbn in Hc1, Hb1, Hb2.
  destruct (IH (mset pairs key (mk_span (yamlStart + from) (yamlStart + until) (slice from until yamlText) instant)) pairs'
              Htext Hlen (yamlStart + until)) as (new & -> & Hl & Hk & Hnd); try done.
  { eapply Forall_impl; [exact Hs1|]. intros r. cbn. lia. }
  { lia. }
  assert (key ∉ mkeys pairs) as Hnk by (by rewrite <- mget_keys). rewrite mset_fresh in Hnd |- * by done.
  eexists (_ :: new). rewrite <- app_assoc. split; [done|]. split_and!.
  - cbn. constructor; cbn; [lia|lia| |done]. rewrite Htext. unfold slice.
    rewrite take_drop_commute, drop_drop, take_take. f_equal. f_equal. lia.
  - intros k'. cbn. rewrite elem_of_cons. intros [->|?]; [by apply jmem_elem|auto].
  - intros Hnp. rewrite <- app_assoc in Hnd. apply Hnd. unfold mkeys. rewrite map_app. apply NoDup_app.
    split_and!; [done| |apply NoDup_singleton]. intros x Hx ->%list_elem_of_singleton. done.
Qed.

Lemma break_length_le s n : break_length s = Some n → n ≤ length s.
Proof.
  destruct s as [|c t]; cbn [break_length length]; [done|].
  destruct (c =? 13)%N; [|destruct (c =? 10)%N; [intros [= <-]; lia|done]].
  destruct t as [|d t]; [intros [= <-]; cbn; lia|]. destruct (starts_with _ _); intros [= <-]; cbn; lia.
Qed.

Lemma opening_length_le source n : opening_length source = Some n → n ≤ length source.
Proof.
  unfold opening_length. destruct (starts_with _ _); [|done]. intros (b & Hb & ->)%fmap_Some.
  pose proof (break_length_le _ _ Hb) as H. rewrite length_drop in H.
  destruct (decide (3 + blanks (drop 3 source) ≤ length source)); [lia|].
  rewrite drop_ge in Hb by lia. done.
Qed.

Lemma mapM_mget (m : jmap FieldSpan) rules spans : mapM (mget m) rules = Some spans →
  Forall2 (λ f s, mget m f = Some s) rules spans.
Proof. apply mapM_Some_1. Qed.

Lemma mapM_combine (ks : list jstring) (vs : list FieldSpan) : NoDup ks → length ks = length vs →
  mapM (mget (combine ks vs)) ks = Some vs.
Proof.
  intros Hnd Hlen. apply mapM_Some_2.
  assert (∀ m : jmap FieldSpan, (∀ k, k ∈ ks → k ∉ mkeys m) → Forall2 (λ k v, mget (m ++ combine ks vs) k = Some v) ks vs) as H;
    [|apply (H []); intros; apply not_elem_of_nil].
  revert vs Hlen. induction ks as [|k ks IH]; intros [|v vs] Hlen m Hm; try done.
  apply NoDup_cons in Hnd as [Hk Hnd]. injection Hlen as Hlen. constructor.
  - assert (k ∉ mkeys m) as Hkm by (apply Hm; by left). clear -Hkm.
    induction m as [|[x y] m IH]; cbn in *; [by rewrite jeqb_refl|]. apply not_elem_of_cons in Hkm as [? ?].
    rewrite (proj2 (jeqb_neq x k)) by congruence. by apply IH.
  - specialize (IH Hnd vs Hlen (m ++ [(k, v)])). rewrite <- app_assoc in IH. apply IH. intros x Hx. unfold mkeys.
    rewrite map_app, elem_of_app. intros [H|H]; [by apply (Hm x); [right|]|].
    apply list_elem_of_singleton in H as ->. done.
Qed.

(** Looking up all the keys of a map in another order finds its values in that order. *)
Lemma lookups_perm (m : jmap FieldSpan) ks vs : NoDup ks → NoDup (mkeys m) → (∀ k, k ∈ mkeys m → k ∈ ks) →
  Forall2 (λ k v, mget m k = Some v) ks vs → mvalues m ≡ₚ vs.
Proof.
  intros Hnd Hn Hk Hf.
  assert (ks ≡ₚ mkeys m) as Hperm.
  { apply NoDup_Permutation; [done|done|]. intros x. split; [|apply Hk].
    intros [i Hi]%list_elem_of_lookup. destruct (Forall2_lookup_l _ _ _ _ _ Hf Hi) as (s & _ & Hm).
    apply mget_keys. by rewrite Hm. }
  apply (Permutation_map (mget m)) in Hperm.
  assert (map (mget m) ks = map Some vs) as E1.
  { clear -Hf. induction Hf as [|x s ks vs Hx _ IH]; cbn; [done|]. by rewrite Hx, IH. }
  assert (map (mget m) (mkeys m) = map Some (mvalues m)) as E2.
  { clear -Hn. unfold mkeys, mvalues in *. rewrite !map_map. apply map_ext_in. intros [k v] Hkv%list_elem_of_In. cbn.
    by apply mget_elem. }
  rewrite E1, E2 in Hperm. apply (Permutation_map (default (mk_span 0 0 [] (mk_instant 0 0)))) in Hperm.
  rewrite !map_map in Hperm. cbn in Hperm. rewrite !map_id in Hperm. by symmetry.
Qed.

Lemma slice_text a b (source : jstring) : a ≤ length source → let text := slice a b source in
  text = drop a (take (a + length text) source) ∧ a + length text ≤ length source.
Proof.
  intros Ha. cbv zeta. assert (length (slice a b source) = b `min` length source - a) as Hl
    by (unfold slice; by rewrite length_drop, length_take).
  split; [|lia]. rewrite Hl. unfold slice. destruct (decide (a ≤ b)).
  - f_equal. replace (a + (b `min` length source - a)) with (b `min` length source) by lia. 
    destruct (decide (b ≤ length source)); [by rewrite Nat.min_l by lia|]. rewrite Nat.min_r by lia. by rewrite !take_ge by lia.
  - rewrite !drop_ge; [done|rewrite length_take; lia..].
Qed.

(** The configured spans of a source are laid out in it in some order. *)
Lemma parsed_spans source rules f spans : NoDup rules → parseMarkdownFrontmatter source rules = Some f →
  mapM (mget (fm_fields f)) rules = Some spans →
  fm_fields f = combine rules spans ∧ length rules = length spans ∧ ∃ k, k ≡ₚ spans ∧ laid_out source 0 k.
Proof.
  intros Hnd. unfold parseMarkdownFrontmatter. intros (ys & Hys & H)%bind_Some.
  apply bind_Some in H as ([[ms ds] ce] & _ & H).
  destruct (doc_contents _) as [| | | |tagged anchored items] eqn:Ed; try done.
  destruct (_ || hasUnsupportedYamlNode _) eqn:Ee; [done|].
  rewrite !orb_false_iff in Ee. destruct Ee as [[Ee%Nat.ltb_ge _] _].
  apply bind_Some in H as (pairs & Hpairs & H). apply bind_Some in H as (sp & Hsp%mapM_mget & H). apply (inj Some) in H as <-.
  cbn [fm_fields]. pose proof (Forall2_length _ _ _ Hsp) as Hlen.
  rewrite mapM_combine by done. intros E. apply (inj Some) in E as <-. split; [done|]. split; [done|].
  destruct (slice_text ys ds source (opening_length_le _ _ Hys)) as [Htext Hbound].
  set (text := slice ys ds source) in *.
  destruct (ranges_ordered text _ _ _ ltac:(lia) Ed) as [Hs Hb].
  destruct (read_pairs_spec ys source text rules items [] pairs Htext Hbound 0) as (new & -> & Hl & Hk & Hn); try done.
  { apply Forall_true. intros; lia. }
  { lia. }
  exists (mvalues new). split; [|done]. exact (lookups_perm new rules sp Hnd (Hn NoDup_nil_2) Hk Hsp).
Qed.

(** ** The merge *)

(** An instant is after another by its seconds, then by its nanoseconds. *)
Definition after (i j : TimestampInstant) : Prop :=
  (seconds j < seconds i ∨ seconds i = seconds j ∧ nanos j < nanos i)%Z.
#[export] Instance after_dec i j : Decision (after i j).
Proof. unfold after. apply _. Defined.

(** The later side, and its text of the field. *)
Definition later_side (p : FieldSpan * FieldSpan) : winner :=
  if decide (after (sp_instant p.2) (sp_instant p.1)) then WDevice
  else if decide (after (sp_instant p.1) (sp_instant p.2)) then WServer else WTie.
Definition winning (p : FieldSpan * FieldSpan) : jstring :=
  if decide (after (sp_instant p.2) (sp_instant p.1)) then sp_raw p.2 else sp_raw p.1.

Lemma outcome_later p : outcome_of p.1 p.2 = later_side p.
Proof.
  destruct p as [[? ? ? [s n]] [? ? ? [s' n']]]. unfold outcome_of, later_side, compareTimestamp, after. cbn.
  destruct (Z.eqb_spec s s') as [->|]; cbn.
  - destruct (Z.eqb_spec n n') as [->|]; cbn; [|destruct (Z.ltb_spec n' n); cbn]; repeat case_decide; done || lia.
  - destruct (Z.ltb_spec s' s); cbn; repeat case_decide; done || lia.
Qed.

Lemma winning_later p : winning p = match outcome_of p.1 p.2 with WDevice => sp_raw p.2 | _ => sp_raw p.1 end.
Proof. rewrite outcome_later. unfold winning, later_side. by repeat case_decide. Qed.

(** [C15] A settled note is the server's with some of its configured values exchanged: the
    sources agree outside the fields, and each field holds the value of the later
    instant, the server's on a tie. *)
Theorem latest_timestamp_merge server device rules content outcomes : NoDup rules →
  mergeLatestTimestampFrontmatter server device rules = Some (content, outcomes) →
  ∃ fs fd pairs order device_order gaps tail,
    parseMarkdownFrontmatter server rules = Some fs ∧ parseMarkdownFrontmatter device rules = Some fd ∧
    fm_fields fs = combine rules (map fst pairs) ∧ fm_fields fd = combine rules (map snd pairs) ∧
    outcomes = combine rules (map later_side pairs) ∧
    order ≡ₚ pairs ∧ device_order ≡ₚ map snd pairs ∧ length gaps = length rules ∧
    server = weave gaps (map sp_raw (map fst order)) tail ∧
    device = weave gaps (map sp_raw device_order) tail ∧
    content = weave gaps (map winning order) tail.
Proof.
  intros Hnd. unfold mergeLatestTimestampFrontmatter. destruct rules as [|r0 rs] eqn:Er; [done|]. rewrite <- Er in *. clear r0 rs Er.
  intros (fs & Hfs & H)%bind_Some. apply bind_Some in H as (fd & Hfd & H). destruct (negb _); [done|].
  apply bind_Some in H as (S & HS & H). apply bind_Some in H as (D & HD & H).
  destruct (equalOutsideSpans server S device D) eqn:Eq; [|done]. apply (inj Some) in H. injection H as <- <-.
  destruct (parsed_spans _ _ _ _ Hnd Hfs HS) as (Efs & LS & ks & Pks & Lks).
  destruct (parsed_spans _ _ _ _ Hnd Hfd HD) as (Efd & LD & kd & Pkd & Lkd).
  set (pairs := combine S D). assert (map fst pairs = S ∧ map snd pairs = D) as [Pf Ps].
  { subst pairs. assert (length S = length D) as Hl by congruence. clear -Hl. revert D Hl.
    induction S as [|x S IH]; intros [|y D] H; try done. injection H as H. cbn. destruct (IH D H) as [-> ->]. done. }
  pose proof (laid_out_sorted _ _ _ Lks) as [_ Sks]. pose proof (laid_out_sorted _ _ _ Lkd) as [_ Skd].
  assert (∀ l k, l ≡ₚ k → StronglySorted (λ a b, sp_start a < sp_start b) k → sort_spans l = k) as Hsort.
  { intros l k Hp Hk. apply (strict_sort (λ s, Z.of_nat (sp_start s))); [intros; rewrite Nat.leb_le; lia| |done].
    eapply StronglySorted_weaken; [|exact Hk]. cbn. lia. }
  assert (sort_spans S = ks) as ES by (by apply Hsort). assert (sort_spans D = kd) as ED by (by apply Hsort).
  set (order := isort (λ a b : FieldSpan * FieldSpan, sp_start a.1 <=? sp_start b.1) pairs).
  assert (order ≡ₚ pairs) as Po by apply isort_perm.
  assert (map fst order = ks) as Eo.
  { rewrite <- ES, <- Pf. unfold order, sort_spans. clear. induction pairs as [|p l IH]; cbn; [done|]. rewrite <- IH.
    generalize (isort (λ a b : FieldSpan * FieldSpan, sp_start a.1 <=? sp_start b.1) l) as k.
    induction k as [|q k IHk]; cbn; [done|]. destruct (_ <=? _); cbn; [done|]. by rewrite IHk. }
  unfold equalOutsideSpans in Eq. rewrite ES, ED in Eq. apply equal_outside_gaps in Eq as [Eg Et];
    [|rewrite Pks, Pkd; congruence].
  exists fs, fd, pairs, order, kd, (gaps_of 0 server ks), (tail_of 0 server ks).
  rewrite Pf, Ps, Eo, <- (weave_source server 0 ks), Eg, Et, <- (weave_source device 0 kd) by done.
  assert (length rules = length ks) as Hlen by (rewrite Pks; done).
  split_and!; try done.
  - f_equal. unfold pairs. apply map_ext. intros [s d]. exact (outcome_later (s, d)).
  - rewrite <- Eg, Hlen. clear. generalize 0. induction ks as [|k ks IH]; intros n; cbn; [done|]. by rewrite IH.
  - rewrite <- Eg, <- Et, <- Eo. rewrite <- (app_nil_l (weave _ _ _)).
    change [] with (take 0 server). rewrite <- Eo in Lks.
    rewrite (map_ext winning (λ p, default (sp_raw p.1) (match outcome_of p.1 p.2 with WDevice => Some (sp_raw p.2) | _ => None end)))
      by (intros p; rewrite winning_later; by destruct (outcome_of p.1 p.2)).
    rewrite <- (replaced_source server (λ p, match outcome_of p.1 p.2 with WDevice => Some (sp_raw p.2) | _ => None end) 0 order Lks).
    set (asc := omap _ order).
    assert (replacements order = asc) as Er.
    { unfold replacements, asc. clear. induction order as [|[s d] l IH]; cbn; [done|]. destruct (outcome_of s d); cbn; by rewrite IH. }
    unfold apply_replacements.
    rewrite (strict_sort (λ r : replacement, (- Z.of_nat r.1.1)%Z) _ (replacements pairs) (rev asc)).
    + by rewrite <- fold_left_rev_right, rev_involutive.
    + intros a b. rewrite Nat.leb_le. lia.
    + eapply StronglySorted_weaken; [|apply (StronglySorted_rev (λ a b : replacement, a.1.1 < b.1.1))]; [cbn; lia|].
      unfold asc. clear -Sks Eo. rewrite <- Eo in Sks. clear Eo. induction order as [|p l IH]; [constructor|].
      inversion Sks as [|? ? Hs Hp]; subst. cbn. destruct (outcome_of p.1 p.2); try by apply IH.
      cbn. constructor; [by apply IH|]. pose proof (proj1 (List.Forall_forall _ _) Hp) as Hp'. apply Forall_forall. intros r (q & Hq & E)%list_elem_of_omap.
      destruct (outcome_of q.1 q.2); try done. injection E as <-. cbn. apply Hp'.
      apply in_map, list_elem_of_In, Hq.
    + rewrite <- Permutation_rev, <- Er. unfold replacements. by rewrite Po.
Qed.

End merged.

(** ** Example *)

(** A YAML library that knows lines of a key, a colon, a space and a string. *)
Fixpoint plain_items (position : nat) (lines : list jstring) : list (yaml_node * yaml_node) :=
  match lines with
  | [] => []
  | line :: lines =>
    let '(key, rest) := key_span line in
    let start := position + length key + 2 in
    let pair := (YScalar (JStr key) false false (Some (position, position + length key)),
                 YScalar (JStr (drop 2 rest)) false false (Some (start, position + length line))) in
    if starts_with (lit ": ") rest then pair :: plain_items (S (position + length line)) lines
    else plain_items (S (position + length line)) lines
  end.

Fixpoint ordered_ranges (bound : nat) (ranges : list (nat * nat)) : bool :=
  match ranges with
  | [] => true
  | (a, b) :: ranges =>
    (a <? b) && (b <=? bound) && forallb (λ r, b <=? r.1) ranges && ordered_ranges bound ranges
  end.

Definition plain_documents : YamlDocuments := {|
  parseDocument text :=
    let items := plain_items 0 (split_on 10 text) in
    if ordered_ranges (length text) (text_ranges items)
    then {| doc_errors := 0; doc_warnings := 0; doc_contents := YMap false false items |}
    else {| doc_errors := 1; doc_warnings := 0; doc_contents := YNone |}
|}.

Lemma plain_documents_ok : YamlRangesOk plain_documents.
Proof.
  split. intros text tagged anchored items. cbn [parseDocument plain_documents].
  destruct (ordered_ranges _ _) eqn:E; [|done]. intros _ [= _ _ <-].
  generalize dependent (length text). generalize (text_ranges (plain_items 0 (split_on 10 text))).
  intros rs. induction rs as [|[a b] rs IH]; intros n H; [split; constructor|].
  cbn [ordered_ranges] in H. rewrite !andb_true_iff, Nat.ltb_lt, Nat.leb_le, forallb_forall in H. destruct H as [[[Hab Hb] Hr] H].
  destruct (IH _ H) as [Hs Hf]. split; constructor; try done.
  apply List.Forall_forall. intros r Hin. by apply Nat.leb_le, Hr.
Qed.

Definition note_text (title updated reviewed : string) : jstring :=
  join_with 10 [lit "---"; lit title; lit updated; lit "draft: no"; lit reviewed; lit "---"; lit "Body"].

(** The device updated the note later, both read the same review time in two zones. *)
Definition server_note : jstring :=
  note_text "title: Plan" "updated: 2026-01-02T10:00:00Z" "reviewed: 2026-01-01T08:00:00Z".
Definition device_note : jstring :=
  note_text "title: Plan" "updated: 2026-01-02T10:00:00.5Z" "reviewed: 2026-01-01T09:00:00+01:00".
Definition settled_note : jstring :=
  note_text "title: Plan" "updated: 2026-01-02T10:00:00.5Z" "reviewed: 2026-01-01T08:00:00Z".
Definition sample_rules : list jstring := [lit "reviewed"; lit "updated"].

Lemma latest_timestamp_merge_witness :
  mergeLatestTimestampFrontmatter (YD := plain_documents) server_note device_note sample_rules
    = Some (settled_note, [(lit "reviewed", WTie); (lit "updated", WDevice)]) ∧
  ∃ fs fd pairs order device_order gaps tail,
    parseMarkdownFrontmatter (YD := plain_documents) server_note sample_rules = Some fs ∧
    parseMarkdownFrontmatter (YD := plain_documents) device_note sample_rules = Some fd ∧
    fm_fields fs = combine sample_rules (map fst pairs) ∧ fm_fields fd = combine sample_rules (map snd pairs) ∧
    [(lit "reviewed", WTie); (lit "updated", WDevice)] = combine sample_rules (map later_side pairs) ∧
    order ≡ₚ pairs ∧ device_order ≡ₚ map snd pairs ∧ length gaps = length sample_rules ∧
    server_note = weave gaps (map sp_raw (map fst order)) tail ∧
    device_note = weave gaps (map sp_raw device_order) tail ∧
    settled_note = weave gaps (map winning order) tail.
Proof.
  assert (mergeLatestTimestampFrontmatter (YD := plain_documents) server_note device_note sample_rules
    = Some (settled_note, [(lit "reviewed", WTie); (lit "updated", WDevice)])) as H by (vm_compute; reflexivity).
  split; [exact H|].
  apply (@latest_timestamp_merge plain_documents plain_documents_ok server_note device_note sample_rules); [|exact H].
  apply (bool_decide_unpack _). vm_compute. exact I.
Defined.

(** The same instant in two zones; days that do not exist and the unknown zone. *)
Example parseTimestamp_zones :
  parseTimestamp (lit "2024-02-29T23:30:00.25-01:00") = parseTimestamp (lit "2024-03-01T00:30:00.250Z")
  ∧ is_Some (parseTimestamp (lit "2024-03-01T00:30:00.250Z"))
  ∧ parseTimestamp (lit "2023-02-29T10:00:00Z") = None ∧ parseTimestamp (lit "2024-03-01T00:30:00-00:00") = None.
Proof. split_and!; [vm_compute; reflexivity|vm_compute; eauto|vm_compute; reflexivity..]. Qed.

(** An anchor is refused everywhere but on a scalar in a list. *)
Example scalar_items_unchecked :
  let anchored := YScalar (JStr (lit "x")) false true None in
  hasUnsupportedYamlNode (YMap false false [(YScalar (JStr (lit "tags")) false false None, anchored)]) = true
  ∧ hasUnsupportedYamlNode (YMap false false [(YScalar (JStr (lit "tags")) false false None, YSeq false false [anchored])]) = false.
Proof. by split. Qed.
