(* ===== verification/Git.v ===== *)
(** * What the server asks of its repositories

    The server runs the git program on one bare repository per vault; the
    development takes its answers as parameters. [GitReads] are the queries of an
    unchanging repository that the modelled services make (src/server/gitService.ts
    runs [cat-file -e] and [merge-base --is-ancestor] for them); [GitReadsOk] is
    what git documents of them. *)

From S2P Require Export Js.

(** The queries, by vault. *)
Class GitReads := {
  commitExists : jstring → jstring → bool;
  isAncestor : jstring → jstring → jstring → bool
}.

Class GitReadsOk (G : GitReads) := {
  isAncestor_refl vault commit : commitExists vault commit = true → isAncestor vault commit commit = true;
  isAncestor_trans vault a b c :
    isAncestor vault a b = true → isAncestor vault b c = true → isAncestor vault a c = true;
  isAncestor_exists vault a b :
    isAncestor vault a b = true → commitExists vault a = true ∧ commitExists vault b = true
}.

(** ** A repository whose history is one line of commits *)

(** The commits of every vault, oldest first. *)
Definition linear_git (commits : list jstring) : GitReads := {|
  commitExists _ commit := jmem commit commits;
  isAncestor _ a b := existsb (λ n, jeqb a (nth n commits []) && jmem b (drop n commits)) (seq 0 (length commits))
|}.
