(* ===== verification/Metadata.v ===== *)
(** * The metadata database (src/server/metadataStore.ts)

    The rows of the server's single metadata document, the store that
    serializes every transaction over it, and the bookkeeping its transactions
    share: event sequence numbers, event retention, the revocation invariant
    and the allocation of operation sequence numbers. *)

From S2P Require Export Js Dates Ids.

Local Open Scope Z_scope.

(** ** Rows *)

Inductive StoredPassword :=
| Argon2id (hash : jstring)                    (* PasswordHash *)
| LegacyScrypt (salt hash : jstring).          (* LegacyPasswordHash *)

Inductive VaultStatus := VActive | VBlockedIntegrity | VDeleting.
Inductive DeviceStatus := DPaired | DSynced | DAhead | DReviewNeeded | DBlockedRecovery | DRevoked.
Inductive OnboardingStatus := OnbPending | OnbComplete.
Inductive OnboardingMode := ModeInitialize | ModeUseServer | ModeMerge.
Inductive ProposalKind := NewVaultImport | IndependentVaultMerge | SharedBaselineMerge.
Inductive ConnectionStatus := CPending | CApproved | CConsumed | CDenied | CExpired.
Inductive ConnectionSelection := SelNewVault | SelExistingVault.
Inductive TokenKind := TokDevice | TokPasswordReset.
Inductive OperationType :=
| OpDevicePush | OpServerMerge | OpConflictCreate | OpConflictRefresh | OpConflictResolve
| OpNoteRestore | OpGitMaintenance | OpVaultSettings | OpNameRepair.
Inductive OperationStatus := OpStarted | OpPrepared | OpCommitted | OpAborted.
Inductive ProposalResultStatus := PrAccepted | PrConflicted | PrResolved.
Inductive DeletionErrorCode := StorageUnavailable | UnattributedResidue | MetadataUnavailable.
Inductive DeletionPhase := PhIntent | PhDraining | PhErasing | PhFinalizing.
Inductive RemovalPhase := RpIntent | RpRefDeleting | RpCleanup.
Inductive RemovalState := RsPending | RsFailed.
Inductive DirOp := DirCreate | DirDelete.
Inductive Provenance := PvLegacy | PvLocalV2.
Inductive ConflictStatus := CfOpen | CfResolved.
Inductive ConflictKind := CkContent | CkDirectory | CkMixed.
Inductive ConflictResolutionKind :=
| RkKeepServer | RkUseDevice | RkKeepBothFiles | RkInsertBothBlocks | RkManual | RkPerFile.
Inductive EventType :=
| EvMainAdvanced | EvDeviceRefUpdated | EvDeviceSyncRejected | EvDeviceRecoveryRequired
| EvConflictCreated | EvConflictReviewRefreshed | EvConflictResolved | EvNoteRestored
| EvDeviceStateChanged | EvVaultMaintenanceStarted | EvVaultMaintenanceFinished.

#[export] Instance VaultStatus_eq_dec : EqDecision VaultStatus.
Proof. solve_decision. Defined.
#[export] Instance DeviceStatus_eq_dec : EqDecision DeviceStatus.
Proof. solve_decision. Defined.
#[export] Instance OnboardingStatus_eq_dec : EqDecision OnboardingStatus.
Proof. solve_decision. Defined.
#[export] Instance OnboardingMode_eq_dec : EqDecision OnboardingMode.
Proof. solve_decision. Defined.
#[export] Instance ProposalKind_eq_dec : EqDecision ProposalKind.
Proof. solve_decision. Defined.
#[export] Instance ConnectionStatus_eq_dec : EqDecision ConnectionStatus.
Proof. solve_decision. Defined.
#[export] Instance ConnectionSelection_eq_dec : EqDecision ConnectionSelection.
Proof. solve_decision. Defined.
#[export] Instance TokenKind_eq_dec : EqDecision TokenKind.
Proof. solve_decision. Defined.
#[export] Instance OperationType_eq_dec : EqDecision OperationType.
Proof. solve_decision. Defined.
#[export] Instance OperationStatus_eq_dec : EqDecision OperationStatus.
Proof. solve_decision. Defined.
#[export] Instance ProposalResultStatus_eq_dec : EqDecision ProposalResultStatus.
Proof. solve_decision. Defined.
#[export] Instance DeletionErrorCode_eq_dec : EqDecision DeletionErrorCode.
Proof. solve_decision. Defined.
#[export] Instance DeletionPhase_eq_dec : EqDecision DeletionPhase.
Proof. solve_decision. Defined.
#[export] Instance RemovalPhase_eq_dec : EqDecision RemovalPhase.
Proof. solve_decision. Defined.
#[export] Instance RemovalState_eq_dec : EqDecision RemovalState.
Proof. solve_decision. Defined.
#[export] Instance DirOp_eq_dec : EqDecision DirOp.
Proof. solve_decision. Defined.
#[export] Instance Provenance_eq_dec : EqDecision Provenance.
Proof. solve_decision. Defined.
#[export] Instance ConflictStatus_eq_dec : EqDecision ConflictStatus.
Proof. solve_decision. Defined.
#[export] Instance ConflictKind_eq_dec : EqDecision ConflictKind.
Proof. solve_decision. Defined.
#[export] Instance ConflictResolutionKind_eq_dec : EqDecision ConflictResolutionKind.
Proof. solve_decision. Defined.
#[export] Instance EventType_eq_dec : EqDecision EventType.
Proof. solve_decision. Defined.

Record UserRow := mk_UserRow {
  u_user_id : jstring;
  u_username : jstring;
  u_display_name : jstring;
  u_password_hash : StoredPassword;
  u_is_admin : bool;
  u_disabled : bool;
  u_created_at : jstring;
  u_last_login_at : option jstring
}.
Definition set_u_password_hash (x : StoredPassword) (r : UserRow) : UserRow :=
  mk_UserRow (u_user_id r) (u_username r) (u_display_name r) x (u_is_admin r) (u_disabled r)
    (u_created_at r) (u_last_login_at r).
Definition set_u_is_admin (x : bool) (r : UserRow) : UserRow :=
  mk_UserRow (u_user_id r) (u_username r) (u_display_name r) (u_password_hash r) x (u_disabled
    r) (u_created_at r) (u_last_login_at r).
Definition set_u_disabled (x : bool) (r : UserRow) : UserRow :=
  mk_UserRow (u_user_id r) (u_username r) (u_display_name r) (u_password_hash r) (u_is_admin
    r) x (u_created_at r) (u_last_login_at r).
Definition set_u_last_login_at (x : option jstring) (r : UserRow) : UserRow :=
  mk_UserRow (u_user_id r) (u_username r) (u_display_name r) (u_password_hash r) (u_is_admin
    r) (u_disabled r) (u_created_at r) x.

Record SessionRow := mk_SessionRow {
  s_session_id : jstring;
  s_user_id : jstring;
  s_csrf_token : jstring;
  s_created_at : jstring;
  s_last_seen_at : jstring;
  s_expires_at : jstring;
  s_idle_expires_at : jstring;
  s_recent_auth_at : jstring;
  s_revoked_at : option jstring
}.
Definition set_s_last_seen_at (x : jstring) (r : SessionRow) : SessionRow :=
  mk_SessionRow (s_session_id r) (s_user_id r) (s_csrf_token r) (s_created_at r) x
    (s_expires_at r) (s_idle_expires_at r) (s_recent_auth_at r) (s_revoked_at r).
Definition set_s_idle_expires_at (x : jstring) (r : SessionRow) : SessionRow :=
  mk_SessionRow (s_session_id r) (s_user_id r) (s_csrf_token r) (s_created_at r)
    (s_last_seen_at r) (s_expires_at r) x (s_recent_auth_at r) (s_revoked_at r).
Definition set_s_recent_auth_at (x : jstring) (r : SessionRow) : SessionRow :=
  mk_SessionRow (s_session_id r) (s_user_id r) (s_csrf_token r) (s_created_at r)
    (s_last_seen_at r) (s_expires_at r) (s_idle_expires_at r) x (s_revoked_at r).
Definition set_s_revoked_at (x : option jstring) (r : SessionRow) : SessionRow :=
  mk_SessionRow (s_session_id r) (s_user_id r) (s_csrf_token r) (s_created_at r)
    (s_last_seen_at r) (s_expires_at r) (s_idle_expires_at r) (s_recent_auth_at r) x.

Record VaultRow := mk_VaultRow {
  v_vault_id : jstring;
  v_owner_user_id : jstring;
  v_display_name : jstring;
  v_status : VaultStatus;
  v_root_commit : option jstring;
  v_current_main : jstring;
  v_metadata_conflict_rules : option (list jsval);
  v_created_at : jstring;
  v_updated_at : jstring
}.
Definition set_v_display_name (x : jstring) (r : VaultRow) : VaultRow :=
  mk_VaultRow (v_vault_id r) (v_owner_user_id r) x (v_status r) (v_root_commit r)
    (v_current_main r) (v_metadata_conflict_rules r) (v_created_at r) (v_updated_at r).
Definition set_v_status (x : VaultStatus) (r : VaultRow) : VaultRow :=
  mk_VaultRow (v_vault_id r) (v_owner_user_id r) (v_display_name r) x (v_root_commit r)
    (v_current_main r) (v_metadata_conflict_rules r) (v_created_at r) (v_updated_at r).
Definition set_v_current_main (x : jstring) (r : VaultRow) : VaultRow :=
  mk_VaultRow (v_vault_id r) (v_owner_user_id r) (v_display_name r) (v_status r)
    (v_root_commit r) x (v_metadata_conflict_rules r) (v_created_at r) (v_updated_at r).
Definition set_v_updated_at (x : jstring) (r : VaultRow) : VaultRow :=
  mk_VaultRow (v_vault_id r) (v_owner_user_id r) (v_display_name r) (v_status r)
    (v_root_commit r) (v_current_main r) (v_metadata_conflict_rules r) (v_created_at r) x.

Record DeviceRow := mk_DeviceRow {
  d_device_id : jstring;
  d_vault_id : jstring;
  d_user_id : jstring;
  d_device_name : jstring;
  d_device_ref : jstring;
  d_device_ref_head : option jstring;
  d_status : DeviceStatus;
  d_last_applied_main : option jstring;
  d_last_applied_event_seq : Z;
  d_last_applied_explicit_dirs : option (list jstring);
  d_pending_applied_main : option jstring;
  d_pending_applied_event_seq : Z;
  d_pending_applied_explicit_dirs : option (list jstring);
  d_last_seen_at : option jstring;
  d_last_successful_sync_at : option jstring;
  d_local_status_label : option jstring;
  d_local_error_code : option jstring;
  d_local_queue_status : option jstring;
  d_local_main : option jstring;
  d_local_head : option jstring;
  d_plugin_version : option jstring;
  d_path_capabilities : option record;
  d_last_status_report_at : option jstring;
  d_onboarding_status : option OnboardingStatus;
  d_onboarding_mode : option OnboardingMode;
  d_initial_proposal_kind : option ProposalKind;
  d_initial_proposal_base : option jstring;
  d_onboarding_connection_id : option jstring;
  d_onboarding_completed_at : option jstring;
  d_created_at : jstring;
  d_revoked_at : option jstring
}.
Definition set_d_device_name (x : jstring) (r : DeviceRow) : DeviceRow :=
  mk_DeviceRow (d_device_id r) (d_vault_id r) (d_user_id r) x (d_device_ref r)
    (d_device_ref_head r) (d_status r) (d_last_applied_main r) (d_last_applied_event_seq r)
    (d_last_applied_explicit_dirs r) (d_pending_applied_main r) (d_pending_applied_event_seq
    r) (d_pending_applied_explicit_dirs r) (d_last_seen_at r) (d_last_successful_sync_at r)
    (d_local_status_label r) (d_local_error_code r) (d_local_queue_status r) (d_local_main r)
    (d_local_head r) (d_plugin_version r) (d_path_capabilities r) (d_last_status_report_at r)
    (d_onboarding_status r) (d_onboarding_mode r) (d_initial_proposal_kind r)
    (d_initial_proposal_base r) (d_onboarding_connection_id r) (d_onboarding_completed_at r)
    (d_created_at r) (d_revoked_at r).
Definition set_d_status (x : DeviceStatus) (r : DeviceRow) : DeviceRow :=
  mk_DeviceRow (d_device_id r) (d_vault_id r) (d_user_id r) (d_device_name r) (d_device_ref r)
    (d_device_ref_head r) x (d_last_applied_main r) (d_last_applied_event_seq r)
    (d_last_applied_explicit_dirs r) (d_pending_applied_main r) (d_pending_applied_event_seq
    r) (d_pending_applied_explicit_dirs r) (d_last_seen_at r) (d_last_successful_sync_at r)
    (d_local_status_label r) (d_local_error_code r) (d_local_queue_status r) (d_local_main r)
    (d_local_head r) (d_plugin_version r) (d_path_capabilities r) (d_last_status_report_at r)
    (d_onboarding_status r) (d_onboarding_mode r) (d_initial_proposal_kind r)
    (d_initial_proposal_base r) (d_onboarding_connection_id r) (d_onboarding_completed_at r)
    (d_created_at r) (d_revoked_at r).
Definition set_d_last_seen_at (x : option jstring) (r : DeviceRow) : DeviceRow :=
  mk_DeviceRow (d_device_id r) (d_vault_id r) (d_user_id r) (d_device_name r) (d_device_ref r)
    (d_device_ref_head r) (d_status r) (d_last_applied_main r) (d_last_applied_event_seq r)
    (d_last_applied_explicit_dirs r) (d_pending_applied_main r) (d_pending_applied_event_seq
    r) (d_pending_applied_explicit_dirs r) x (d_last_successful_sync_at r)
    (d_local_status_label r) (d_local_error_code r) (d_local_queue_status r) (d_local_main r)
    (d_local_head r) (d_plugin_version r) (d_path_capabilities r) (d_last_status_report_at r)
    (d_onboarding_status r) (d_onboarding_mode r) (d_initial_proposal_kind r)
    (d_initial_proposal_base r) (d_onboarding_connection_id r) (d_onboarding_completed_at r)
    (d_created_at r) (d_revoked_at r).
Definition set_d_revoked_at (x : option jstring) (r : DeviceRow) : DeviceRow :=
  mk_DeviceRow (d_device_id r) (d_vault_id r) (d_user_id r) (d_device_name r) (d_device_ref r)
    (d_device_ref_head r) (d_status r) (d_last_applied_main r) (d_last_applied_event_seq r)
    (d_last_applied_explicit_dirs r) (d_pending_applied_main r) (d_pending_applied_event_seq
    r) (d_pending_applied_explicit_dirs r) (d_last_seen_at r) (d_last_successful_sync_at r)
    (d_local_status_label r) (d_local_error_code r) (d_local_queue_status r) (d_local_main r)
    (d_local_head r) (d_plugin_version r) (d_path_capabilities r) (d_last_status_report_at r)
    (d_onboarding_status r) (d_onboarding_mode r) (d_initial_proposal_kind r)
    (d_initial_proposal_base r) (d_onboarding_connection_id r) (d_onboarding_completed_at r)
    (d_created_at r) x.

Record ConnectionSummary := mk_ConnectionSummary {
  cs_has_content : bool;
  cs_syncable_file_count : Z;
  cs_syncable_bytes : Z;
  cs_has_detached_baseline : bool
}.

Record ConnectionRequestRow := mk_ConnectionRequestRow {
  c_connection_id : jstring;
  c_secret_lookup_prefix : jstring;
  c_secret_hash : jstring;
  c_credential_salt : jstring;
  c_verification_code : jstring;
  c_status : ConnectionStatus;
  c_plugin_version : jstring;
  c_proposed_device_name : jstring;
  c_local_vault_name : jstring;
  c_local_summary : ConnectionSummary;
  c_approved_user_id : option jstring;
  c_selection : option ConnectionSelection;
  c_selected_vault_id : option jstring;
  c_new_vault_display_name : option jstring;
  c_expected_main : option jstring;
  c_created_device_id : option jstring;
  c_created_at : jstring;
  c_approved_at : option jstring;
  c_consumed_at : option jstring;
  c_expires_at : jstring
}.
Definition set_c_status (x : ConnectionStatus) (r : ConnectionRequestRow) : ConnectionRequestRow :=
  mk_ConnectionRequestRow (c_connection_id r) (c_secret_lookup_prefix r) (c_secret_hash r)
    (c_credential_salt r) (c_verification_code r) x (c_plugin_version r)
    (c_proposed_device_name r) (c_local_vault_name r) (c_local_summary r) (c_approved_user_id
    r) (c_selection r) (c_selected_vault_id r) (c_new_vault_display_name r) (c_expected_main
    r) (c_created_device_id r) (c_created_at r) (c_approved_at r) (c_consumed_at r)
    (c_expires_at r).
Definition set_c_approved_user_id (x : option jstring) (r : ConnectionRequestRow) : ConnectionRequestRow :=
  mk_ConnectionRequestRow (c_connection_id r) (c_secret_lookup_prefix r) (c_secret_hash r)
    (c_credential_salt r) (c_verification_code r) (c_status r) (c_plugin_version r)
    (c_proposed_device_name r) (c_local_vault_name r) (c_local_summary r) x (c_selection r)
    (c_selected_vault_id r) (c_new_vault_display_name r) (c_expected_main r)
    (c_created_device_id r) (c_created_at r) (c_approved_at r) (c_consumed_at r) (c_expires_at
    r).
Definition set_c_selection (x : option ConnectionSelection) (r : ConnectionRequestRow) : ConnectionRequestRow :=
  mk_ConnectionRequestRow (c_connection_id r) (c_secret_lookup_prefix r) (c_secret_hash r)
    (c_credential_salt r) (c_verification_code r) (c_status r) (c_plugin_version r)
    (c_proposed_device_name r) (c_local_vault_name r) (c_local_summary r) (c_approved_user_id
    r) x (c_selected_vault_id r) (c_new_vault_display_name r) (c_expected_main r)
    (c_created_device_id r) (c_created_at r) (c_approved_at r) (c_consumed_at r) (c_expires_at
    r).
Definition set_c_selected_vault_id (x : option jstring) (r : ConnectionRequestRow) : ConnectionRequestRow :=
  mk_ConnectionRequestRow (c_connection_id r) (c_secret_lookup_prefix r) (c_secret_hash r)
    (c_credential_salt r) (c_verification_code r) (c_status r) (c_plugin_version r)
    (c_proposed_device_name r) (c_local_vault_name r) (c_local_summary r) (c_approved_user_id
    r) (c_selection r) x (c_new_vault_display_name r) (c_expected_main r) (c_created_device_id
    r) (c_created_at r) (c_approved_at r) (c_consumed_at r) (c_expires_at r).
Definition set_c_new_vault_display_name (x : option jstring) (r : ConnectionRequestRow) : ConnectionRequestRow :=
  mk_ConnectionRequestRow (c_connection_id r) (c_secret_lookup_prefix r) (c_secret_hash r)
    (c_credential_salt r) (c_verification_code r) (c_status r) (c_plugin_version r)
    (c_proposed_device_name r) (c_local_vault_name r) (c_local_summary r) (c_approved_user_id
    r) (c_selection r) (c_selected_vault_id r) x (c_expected_main r) (c_created_device_id r)
    (c_created_at r) (c_approved_at r) (c_consumed_at r) (c_expires_at r).
Definition set_c_expected_main (x : option jstring) (r : ConnectionRequestRow) : ConnectionRequestRow :=
  mk_ConnectionRequestRow (c_connection_id r) (c_secret_lookup_prefix r) (c_secret_hash r)
    (c_credential_salt r) (c_verification_code r) (c_status r) (c_plugin_version r)
    (c_proposed_device_name r) (c_local_vault_name r) (c_local_summary r) (c_approved_user_id
    r) (c_selection r) (c_selected_vault_id r) (c_new_vault_display_name r) x
    (c_created_device_id r) (c_created_at r) (c_approved_at r) (c_consumed_at r) (c_expires_at
    r).
Definition set_c_created_device_id (x : option jstring) (r : ConnectionRequestRow) : ConnectionRequestRow :=
  mk_ConnectionRequestRow (c_connection_id r) (c_secret_lookup_prefix r) (c_secret_hash r)
    (c_credential_salt r) (c_verification_code r) (c_status r) (c_plugin_version r)
    (c_proposed_device_name r) (c_local_vault_name r) (c_local_summary r) (c_approved_user_id
    r) (c_selection r) (c_selected_vault_id r) (c_new_vault_display_name r) (c_expected_main
    r) x (c_created_at r) (c_approved_at r) (c_consumed_at r) (c_expires_at r).
Definition set_c_approved_at (x : option jstring) (r : ConnectionRequestRow) : ConnectionRequestRow :=
  mk_ConnectionRequestRow (c_connection_id r) (c_secret_lookup_prefix r) (c_secret_hash r)
    (c_credential_salt r) (c_verification_code r) (c_status r) (c_plugin_version r)
    (c_proposed_device_name r) (c_local_vault_name r) (c_local_summary r) (c_approved_user_id
    r) (c_selection r) (c_selected_vault_id r) (c_new_vault_display_name r) (c_expected_main
    r) (c_created_device_id r) (c_created_at r) x (c_consumed_at r) (c_expires_at r).
Definition set_c_consumed_at (x : option jstring) (r : ConnectionRequestRow) : ConnectionRequestRow :=
  mk_ConnectionRequestRow (c_connection_id r) (c_secret_lookup_prefix r) (c_secret_hash r)
    (c_credential_salt r) (c_verification_code r) (c_status r) (c_plugin_version r)
    (c_proposed_device_name r) (c_local_vault_name r) (c_local_summary r) (c_approved_user_id
    r) (c_selection r) (c_selected_vault_id r) (c_new_vault_display_name r) (c_expected_main
    r) (c_created_device_id r) (c_created_at r) (c_approved_at r) x (c_expires_at r).
Definition set_c_expires_at (x : jstring) (r : ConnectionRequestRow) : ConnectionRequestRow :=
  mk_ConnectionRequestRow (c_connection_id r) (c_secret_lookup_prefix r) (c_secret_hash r)
    (c_credential_salt r) (c_verification_code r) (c_status r) (c_plugin_version r)
    (c_proposed_device_name r) (c_local_vault_name r) (c_local_summary r) (c_approved_user_id
    r) (c_selection r) (c_selected_vault_id r) (c_new_vault_display_name r) (c_expected_main
    r) (c_created_device_id r) (c_created_at r) (c_approved_at r) (c_consumed_at r) x.

Record TokenRow := mk_TokenRow {
  t_token_id : jstring;
  t_kind : TokenKind;
  t_lookup_prefix : jstring;
  t_token_hash : jstring;
  t_user_id : jstring;
  t_vault_id : option jstring;
  t_device_id : option jstring;
  t_expires_at : option jstring;
  t_consumed_at : option jstring;
  t_failed_attempts : Z;
  t_revoked_at : option jstring;
  t_metadata : record;
  t_created_at : jstring
}.
Definition set_t_consumed_at (x : option jstring) (r : TokenRow) : TokenRow :=
  mk_TokenRow (t_token_id r) (t_kind r) (t_lookup_prefix r) (t_token_hash r) (t_user_id r)
    (t_vault_id r) (t_device_id r) (t_expires_at r) x (t_failed_attempts r) (t_revoked_at r)
    (t_metadata r) (t_created_at r).
Definition set_t_revoked_at (x : option jstring) (r : TokenRow) : TokenRow :=
  mk_TokenRow (t_token_id r) (t_kind r) (t_lookup_prefix r) (t_token_hash r) (t_user_id r)
    (t_vault_id r) (t_device_id r) (t_expires_at r) (t_consumed_at r) (t_failed_attempts r) x
    (t_metadata r) (t_created_at r).

Record LoginAttemptRow := mk_LoginAttemptRow {
  la_username : jstring;
  la_source_ip : jstring;
  la_failed_count : Z;
  la_window_started_at : jstring;
  la_last_failed_at : jstring;
  la_locked_until : option jstring;
  la_updated_at : jstring
}.

Record SyncOperationRow := mk_SyncOperationRow {
  op_operation_id : jstring;
  op_operation_sequence : option Z;
  op_vault_id : jstring;
  op_device_id : option jstring;
  op_operation_type : OperationType;
  op_expected_refs : list (jstring * option jstring);
  op_target_refs : list (jstring * option jstring);
  op_target_commit : option jstring;
  op_status : OperationStatus;
  op_proposal_base : option (option jstring);
  op_prepared_manifest : option record;
  op_result : option record;
  op_created_at : jstring;
  op_updated_at : jstring
}.
Definition set_op_operation_sequence (x : option Z) (r : SyncOperationRow) : SyncOperationRow :=
  mk_SyncOperationRow (op_operation_id r) x (op_vault_id r) (op_device_id r)
    (op_operation_type r) (op_expected_refs r) (op_target_refs r) (op_target_commit r)
    (op_status r) (op_proposal_base r) (op_prepared_manifest r) (op_result r) (op_created_at
    r) (op_updated_at r).
Definition set_op_status (x : OperationStatus) (r : SyncOperationRow) : SyncOperationRow :=
  mk_SyncOperationRow (op_operation_id r) (op_operation_sequence r) (op_vault_id r)
    (op_device_id r) (op_operation_type r) (op_expected_refs r) (op_target_refs r)
    (op_target_commit r) x (op_proposal_base r) (op_prepared_manifest r) (op_result r)
    (op_created_at r) (op_updated_at r).

Record AuditRow := mk_AuditRow {
  au_audit_id : jstring;
  au_actor_user_id : option jstring;
  au_actor_device_id : option jstring;
  au_vault_id : option jstring;
  au_action : jstring;
  au_resource_class : jstring;
  au_resource_id : option jstring;
  au_created_at : jstring
}.

Record DiagnosticEventRow := mk_DiagnosticEventRow {
  dg_event : record;
  dg_owner_user_id : jstring;
  dg_connection_id : option jstring;
  dg_vault_id : option jstring;
  dg_device_id : option jstring;
  dg_received_at : jstring;
  dg_expires_at : jstring
}.
Definition set_dg_vault_id (x : option jstring) (r : DiagnosticEventRow) : DiagnosticEventRow :=
  mk_DiagnosticEventRow (dg_event r) (dg_owner_user_id r) (dg_connection_id r) x (dg_device_id
    r) (dg_received_at r) (dg_expires_at r).
Definition set_dg_device_id (x : option jstring) (r : DiagnosticEventRow) : DiagnosticEventRow :=
  mk_DiagnosticEventRow (dg_event r) (dg_owner_user_id r) (dg_connection_id r) (dg_vault_id r)
    x (dg_received_at r) (dg_expires_at r).

Record DirectoryStateRow := mk_DirectoryStateRow {
  ds_explicit_dirs : list jstring;
  ds_updated_at : jstring;
  ds_last_event_seq : Z
}.

Record DirectoryIntentAcknowledgement := mk_DirectoryIntentAcknowledgement {
  ack_intent_id : jstring;
  ack_generation : Z
}.

Record DirectoryProposalResultRow := mk_DirectoryProposalResultRow {
  pr_proposal_id : jstring;
  pr_request_sha256 : jstring;
  pr_vault_id : jstring;
  pr_device_id : jstring;
  pr_target_commit : jstring;
  pr_status : ProposalResultStatus;
  pr_conflict_id : option jstring;
  pr_event_seq : Z;
  pr_acknowledged_intents : list DirectoryIntentAcknowledgement;
  pr_created_at : jstring;
  pr_updated_at : jstring
}.
Definition set_pr_status (x : ProposalResultStatus) (r : DirectoryProposalResultRow) : DirectoryProposalResultRow :=
  mk_DirectoryProposalResultRow (pr_proposal_id r) (pr_request_sha256 r) (pr_vault_id r)
    (pr_device_id r) (pr_target_commit r) x (pr_conflict_id r) (pr_event_seq r)
    (pr_acknowledged_intents r) (pr_created_at r) (pr_updated_at r).
Definition set_pr_event_seq (x : Z) (r : DirectoryProposalResultRow) : DirectoryProposalResultRow :=
  mk_DirectoryProposalResultRow (pr_proposal_id r) (pr_request_sha256 r) (pr_vault_id r)
    (pr_device_id r) (pr_target_commit r) (pr_status r) (pr_conflict_id r) x
    (pr_acknowledged_intents r) (pr_created_at r) (pr_updated_at r).
Definition set_pr_created_at (x : jstring) (r : DirectoryProposalResultRow) : DirectoryProposalResultRow :=
  mk_DirectoryProposalResultRow (pr_proposal_id r) (pr_request_sha256 r) (pr_vault_id r)
    (pr_device_id r) (pr_target_commit r) (pr_status r) (pr_conflict_id r) (pr_event_seq r)
    (pr_acknowledged_intents r) x (pr_updated_at r).
Definition set_pr_updated_at (x : jstring) (r : DirectoryProposalResultRow) : DirectoryProposalResultRow :=
  mk_DirectoryProposalResultRow (pr_proposal_id r) (pr_request_sha256 r) (pr_vault_id r)
    (pr_device_id r) (pr_target_commit r) (pr_status r) (pr_conflict_id r) (pr_event_seq r)
    (pr_acknowledged_intents r) (pr_created_at r) x.

Record DerivedHistoryIndexRow := mk_DerivedHistoryIndexRow {
  hx_path : jstring;
  hx_current_main : jstring;
  hx_versions : list record;
  hx_indexed_at : jstring
}.

Record DeletionJob := mk_DeletionJob {
  dj_vault_id : jstring;
  dj_owner_user_id : jstring;
  dj_requested_at : jstring;
  dj_phase : DeletionPhase;
  dj_retry_at : option jstring;
  dj_error_code : option DeletionErrorCode
}.
Definition set_dj_phase (x : DeletionPhase) (r : DeletionJob) : DeletionJob :=
  mk_DeletionJob (dj_vault_id r) (dj_owner_user_id r) (dj_requested_at r) x (dj_retry_at r)
    (dj_error_code r).
Definition set_dj_retry_at (x : option jstring) (r : DeletionJob) : DeletionJob :=
  mk_DeletionJob (dj_vault_id r) (dj_owner_user_id r) (dj_requested_at r) (dj_phase r) x
    (dj_error_code r).
Definition set_dj_error_code (x : option DeletionErrorCode) (r : DeletionJob) : DeletionJob :=
  mk_DeletionJob (dj_vault_id r) (dj_owner_user_id r) (dj_requested_at r) (dj_phase r)
    (dj_retry_at r) x.

Record DeletionReceipt := mk_DeletionReceipt {
  dr_vault_id : jstring;
  dr_owner_user_id : jstring;
  dr_requested_at : jstring;
  dr_completed_at : jstring
}.

Record HistoryBatchRow := mk_HistoryBatchRow {
  hr_operation_id : jstring;
  hr_sequence : Z;
  hr_canonical : jstring;
  hr_sha256 : jstring
}.

Record HistoryBatch := mk_HistoryBatch {
  hb_vault_id : jstring;
  hb_ledger_id : jstring;
  hb_batch_id : jstring;
  hb_parent_generation : Z;
  hb_target_generation : Z;
  hb_rows : list HistoryBatchRow
}.

Record OperationHistoryMetadata := mk_OperationHistoryMetadata {
  oh_ledger_id : jstring;
  oh_generation : Z;
  oh_next_sequence : Z;
  oh_init_pending : bool;
  oh_pending_batch : option HistoryBatch
}.
Definition set_oh_generation (x : Z) (r : OperationHistoryMetadata) : OperationHistoryMetadata :=
  mk_OperationHistoryMetadata (oh_ledger_id r) x (oh_next_sequence r) (oh_init_pending r)
    (oh_pending_batch r).
Definition set_oh_next_sequence (x : Z) (r : OperationHistoryMetadata) : OperationHistoryMetadata :=
  mk_OperationHistoryMetadata (oh_ledger_id r) (oh_generation r) x (oh_init_pending r)
    (oh_pending_batch r).
Definition set_oh_init_pending (x : bool) (r : OperationHistoryMetadata) : OperationHistoryMetadata :=
  mk_OperationHistoryMetadata (oh_ledger_id r) (oh_generation r) (oh_next_sequence r) x
    (oh_pending_batch r).
Definition set_oh_pending_batch (x : option HistoryBatch) (r : OperationHistoryMetadata) : OperationHistoryMetadata :=
  mk_OperationHistoryMetadata (oh_ledger_id r) (oh_generation r) (oh_next_sequence r)
    (oh_init_pending r) x.

Record DeviceRemovalJob := mk_DeviceRemovalJob {
  rj_device_id : jstring;
  rj_vault_id : jstring;
  rj_owner_user_id : jstring;
  rj_requested_at : jstring;
  rj_updated_at : jstring;
  rj_phase : RemovalPhase;
  rj_generation : Z;
  rj_expected_ref_oid : option jstring;
  rj_discard_unmerged : bool;
  rj_state : RemovalState;
  rj_error_code : option jstring;
  rj_retryable : bool
}.
Definition set_rj_updated_at (x : jstring) (r : DeviceRemovalJob) : DeviceRemovalJob :=
  mk_DeviceRemovalJob (rj_device_id r) (rj_vault_id r) (rj_owner_user_id r) (rj_requested_at
    r) x (rj_phase r) (rj_generation r) (rj_expected_ref_oid r) (rj_discard_unmerged r)
    (rj_state r) (rj_error_code r) (rj_retryable r).
Definition set_rj_phase (x : RemovalPhase) (r : DeviceRemovalJob) : DeviceRemovalJob :=
  mk_DeviceRemovalJob (rj_device_id r) (rj_vault_id r) (rj_owner_user_id r) (rj_requested_at
    r) (rj_updated_at r) x (rj_generation r) (rj_expected_ref_oid r) (rj_discard_unmerged r)
    (rj_state r) (rj_error_code r) (rj_retryable r).
Definition set_rj_generation (x : Z) (r : DeviceRemovalJob) : DeviceRemovalJob :=
  mk_DeviceRemovalJob (rj_device_id r) (rj_vault_id r) (rj_owner_user_id r) (rj_requested_at
    r) (rj_updated_at r) (rj_phase r) x (rj_expected_ref_oid r) (rj_discard_unmerged r)
    (rj_state r) (rj_error_code r) (rj_retryable r).
Definition set_rj_expected_ref_oid (x : option jstring) (r : DeviceRemovalJob) : DeviceRemovalJob :=
  mk_DeviceRemovalJob (rj_device_id r) (rj_vault_id r) (rj_owner_user_id r) (rj_requested_at
    r) (rj_updated_at r) (rj_phase r) (rj_generation r) x (rj_discard_unmerged r) (rj_state r)
    (rj_error_code r) (rj_retryable r).
Definition set_rj_discard_unmerged (x : bool) (r : DeviceRemovalJob) : DeviceRemovalJob :=
  mk_DeviceRemovalJob (rj_device_id r) (rj_vault_id r) (rj_owner_user_id r) (rj_requested_at
    r) (rj_updated_at r) (rj_phase r) (rj_generation r) (rj_expected_ref_oid r) x (rj_state r)
    (rj_error_code r) (rj_retryable r).
Definition set_rj_state (x : RemovalState) (r : DeviceRemovalJob) : DeviceRemovalJob :=
  mk_DeviceRemovalJob (rj_device_id r) (rj_vault_id r) (rj_owner_user_id r) (rj_requested_at
    r) (rj_updated_at r) (rj_phase r) (rj_generation r) (rj_expected_ref_oid r)
    (rj_discard_unmerged r) x (rj_error_code r) (rj_retryable r).
Definition set_rj_error_code (x : option jstring) (r : DeviceRemovalJob) : DeviceRemovalJob :=
  mk_DeviceRemovalJob (rj_device_id r) (rj_vault_id r) (rj_owner_user_id r) (rj_requested_at
    r) (rj_updated_at r) (rj_phase r) (rj_generation r) (rj_expected_ref_oid r)
    (rj_discard_unmerged r) (rj_state r) x (rj_retryable r).
Definition set_rj_retryable (x : bool) (r : DeviceRemovalJob) : DeviceRemovalJob :=
  mk_DeviceRemovalJob (rj_device_id r) (rj_vault_id r) (rj_owner_user_id r) (rj_requested_at
    r) (rj_updated_at r) (rj_phase r) (rj_generation r) (rj_expected_ref_oid r)
    (rj_discard_unmerged r) (rj_state r) (rj_error_code r) x.

Record DirectoryProposalIntent := mk_DirectoryProposalIntent {
  pi_op : DirOp;
  pi_path : jstring;
  pi_intent_id : jstring;
  pi_generation : Z;
  pi_provenance : Provenance;
  pi_base_main : option jstring;
  pi_base_event_seq : Z;
  pi_replaces_intent_id : option jstring;
  pi_recreated_after_delete : bool;
  pi_created_at : option jstring
}.

Record DirectoryProposal := mk_DirectoryProposal {
  dp_proposal_id : jstring;
  dp_base_main : option jstring;
  dp_base_event_seq : Z;
  dp_intents : list DirectoryProposalIntent
}.

Record DirectoryConflictContext := mk_DirectoryConflictContext {
  dc_proposal : DirectoryProposal;
  dc_base_explicit_dirs : list jstring;
  dc_server_explicit_dirs : list jstring;
  dc_clean_intent_ids : list jstring;
  dc_conflicting_intent_ids : list jstring;
  dc_affected_roots : list jstring;
  dc_expected_event_seq : Z
}.

Record ConflictRecord := mk_ConflictRecord {
  cf_conflict_id : jstring;
  cf_vault_id : jstring;
  cf_device_id : jstring;
  cf_status : ConflictStatus;
  cf_base_commit : jstring;
  cf_current_main : jstring;
  cf_device_commit : jstring;
  cf_expected_main : jstring;
  cf_affected_paths : list jstring;
  cf_affected_path_count : Z;
  cf_merge_sequence : Z;
  cf_merge_policy_version : jstring;
  cf_conflict_kind : ConflictKind;
  cf_rename_pairs : option (list (jstring * jstring));
  cf_directory_context : option DirectoryConflictContext;
  cf_validator_results : record;
  cf_validator_summary : record;
  cf_created_at : jstring;
  cf_resolved_at : option jstring;
  cf_resolved_by_user_id : option jstring;
  cf_resolution_kind : option ConflictResolutionKind;
  cf_resolution_commit : option jstring;
  cf_resolution_request_hash : option jstring
}.

Record EventEnvelope := mk_EventEnvelope {
  e_event_id : jstring;
  e_event_seq : Z;
  e_event_type : EventType;
  e_vault_id : jstring;
  e_resource_ids : list (jstring * jstring);
  e_commit_cursors : list (jstring * option jstring);
  e_payload : record;
  e_created_at : jstring
}.

Record MetadataDb := mk_MetadataDb {
  db_operation_history_by_vault : jmap OperationHistoryMetadata;
  db_setup_complete : bool;
  db_users : list UserRow;
  db_sessions : list SessionRow;
  db_vaults : list VaultRow;
  db_devices : list DeviceRow;
  db_connections : list ConnectionRequestRow;
  db_tokens : list TokenRow;
  db_login_attempts : list LoginAttemptRow;
  db_sync_operations : list SyncOperationRow;
  db_conflicts : list ConflictRecord;
  db_events : list EventEnvelope;
  db_audit_log : list AuditRow;
  db_diagnostic_events : list DiagnosticEventRow;
  db_event_seq_by_vault : jmap Z;
  db_merge_sequence_by_vault : jmap Z;
  db_directory_state_by_vault : jmap DirectoryStateRow;
  db_directory_proposal_results : list DirectoryProposalResultRow;
  db_derived_history_by_vault : jmap (list DerivedHistoryIndexRow);
  db_deletion_jobs : list DeletionJob;
  db_deletion_receipts : list DeletionReceipt;
  db_device_removal_jobs : list DeviceRemovalJob
}.
Definition set_db_operation_history_by_vault (x : jmap OperationHistoryMetadata) (r : MetadataDb) : MetadataDb :=
  mk_MetadataDb x (db_setup_complete r) (db_users r) (db_sessions r) (db_vaults r) (db_devices
    r) (db_connections r) (db_tokens r) (db_login_attempts r) (db_sync_operations r)
    (db_conflicts r) (db_events r) (db_audit_log r) (db_diagnostic_events r)
    (db_event_seq_by_vault r) (db_merge_sequence_by_vault r) (db_directory_state_by_vault r)
    (db_directory_proposal_results r) (db_derived_history_by_vault r) (db_deletion_jobs r)
    (db_deletion_receipts r) (db_device_removal_jobs r).
Definition set_db_setup_complete (x : bool) (r : MetadataDb) : MetadataDb :=
  mk_MetadataDb (db_operation_history_by_vault r) x (db_users r) (db_sessions r) (db_vaults r)
    (db_devices r) (db_connections r) (db_tokens r) (db_login_attempts r) (db_sync_operations
    r) (db_conflicts r) (db_events r) (db_audit_log r) (db_diagnostic_events r)
    (db_event_seq_by_vault r) (db_merge_sequence_by_vault r) (db_directory_state_by_vault r)
    (db_directory_proposal_results r) (db_derived_history_by_vault r) (db_deletion_jobs r)
    (db_deletion_receipts r) (db_device_removal_jobs r).
Definition set_db_users (x : list UserRow) (r : MetadataDb) : MetadataDb :=
  mk_MetadataDb (db_operation_history_by_vault r) (db_setup_complete r) x (db_sessions r)
    (db_vaults r) (db_devices r) (db_connections r) (db_tokens r) (db_login_attempts r)
    (db_sync_operations r) (db_conflicts r) (db_events r) (db_audit_log r)
    (db_diagnostic_events r) (db_event_seq_by_vault r) (db_merge_sequence_by_vault r)
    (db_directory_state_by_vault r) (db_directory_proposal_results r)
    (db_derived_history_by_vault r) (db_deletion_jobs r) (db_deletion_receipts r)
    (db_device_removal_jobs r).
Definition set_db_sessions (x : list SessionRow) (r : MetadataDb) : MetadataDb :=
  mk_MetadataDb (db_operation_history_by_vault r) (db_setup_complete r) (db_users r) x
    (db_vaults r) (db_devices r) (db_connections r) (db_tokens r) (db_login_attempts r)
    (db_sync_operations r) (db_conflicts r) (db_events r) (db_audit_log r)
    (db_diagnostic_events r) (db_event_seq_by_vault r) (db_merge_sequence_by_vault r)
    (db_directory_state_by_vault r) (db_directory_proposal_results r)
    (db_derived_history_by_vault r) (db_deletion_jobs r) (db_deletion_receipts r)
    (db_device_removal_jobs r).
Definition set_db_vaults (x : list VaultRow) (r : MetadataDb) : MetadataDb :=
  mk_MetadataDb (db_operation_history_by_vault r) (db_setup_complete r) (db_users r)
    (db_sessions r) x (db_devices r) (db_connections r) (db_tokens r) (db_login_attempts r)
    (db_sync_operations r) (db_conflicts r) (db_events r) (db_audit_log r)
    (db_diagnostic_events r) (db_event_seq_by_vault r) (db_merge_sequence_by_vault r)
    (db_directory_state_by_vault r) (db_directory_proposal_results r)
    (db_derived_history_by_vault r) (db_deletion_jobs r) (db_deletion_receipts r)
    (db_device_removal_jobs r).
Definition set_db_devices (x : list DeviceRow) (r : MetadataDb) : MetadataDb :=
  mk_MetadataDb (db_operation_history_by_vault r) (db_setup_complete r) (db_users r)
    (db_sessions r) (db_vaults r) x (db_connections r) (db_tokens r) (db_login_attempts r)
    (db_sync_operations r) (db_conflicts r) (db_events r) (db_audit_log r)
    (db_diagnostic_events r) (db_event_seq_by_vault r) (db_merge_sequence_by_vault r)
    (db_directory_state_by_vault r) (db_directory_proposal_results r)
    (db_derived_history_by_vault r) (db_deletion_jobs r) (db_deletion_receipts r)
    (db_device_removal_jobs r).
Definition set_db_connections (x : list ConnectionRequestRow) (r : MetadataDb) : MetadataDb :=
  mk_MetadataDb (db_operation_history_by_vault r) (db_setup_complete r) (db_users r)
    (db_sessions r) (db_vaults r) (db_devices r) x (db_tokens r) (db_login_attempts r)
    (db_sync_operations r) (db_conflicts r) (db_events r) (db_audit_log r)
    (db_diagnostic_events r) (db_event_seq_by_vault r) (db_merge_sequence_by_vault r)
    (db_directory_state_by_vault r) (db_directory_proposal_results r)
    (db_derived_history_by_vault r) (db_deletion_jobs r) (db_deletion_receipts r)
    (db_device_removal_jobs r).
Definition set_db_tokens (x : list TokenRow) (r : MetadataDb) : MetadataDb :=
  mk_MetadataDb (db_operation_history_by_vault r) (db_setup_complete r) (db_users r)
    (db_sessions r) (db_vaults r) (db_devices r) (db_connections r) x (db_login_attempts r)
    (db_sync_operations r) (db_conflicts r) (db_events r) (db_audit_log r)
    (db_diagnostic_events r) (db_event_seq_by_vault r) (db_merge_sequence_by_vault r)
    (db_directory_state_by_vault r) (db_directory_proposal_results r)
    (db_derived_history_by_vault r) (db_deletion_jobs r) (db_deletion_receipts r)
    (db_device_removal_jobs r).
Definition set_db_login_attempts (x : list LoginAttemptRow) (r : MetadataDb) : MetadataDb :=
  mk_MetadataDb (db_operation_history_by_vault r) (db_setup_complete r) (db_users r)
    (db_sessions r) (db_vaults r) (db_devices r) (db_connections r) (db_tokens r) x
    (db_sync_operations r) (db_conflicts r) (db_events r) (db_audit_log r)
    (db_diagnostic_events r) (db_event_seq_by_vault r) (db_merge_sequence_by_vault r)
    (db_directory_state_by_vault r) (db_directory_proposal_results r)
    (db_derived_history_by_vault r) (db_deletion_jobs r) (db_deletion_receipts r)
    (db_device_removal_jobs r).
Definition set_db_sync_operations (x : list SyncOperationRow) (r : MetadataDb) : MetadataDb :=
  mk_MetadataDb (db_operation_history_by_vault r) (db_setup_complete r) (db_users r)
    (db_sessions r) (db_vaults r) (db_devices r) (db_connections r) (db_tokens r)
    (db_login_attempts r) x (db_conflicts r) (db_events r) (db_audit_log r)
    (db_diagnostic_events r) (db_event_seq_by_vault r) (db_merge_sequence_by_vault r)
    (db_directory_state_by_vault r) (db_directory_proposal_results r)
    (db_derived_history_by_vault r) (db_deletion_jobs r) (db_deletion_receipts r)
    (db_device_removal_jobs r).
Definition set_db_conflicts (x : list ConflictRecord) (r : MetadataDb) : MetadataDb :=
  mk_MetadataDb (db_operation_history_by_vault r) (db_setup_complete r) (db_users r)
    (db_sessions r) (db_vaults r) (db_devices r) (db_connections r) (db_tokens r)
    (db_login_attempts r) (db_sync_operations r) x (db_events r) (db_audit_log r)
    (db_diagnostic_events r) (db_event_seq_by_vault r) (db_merge_sequence_by_vault r)
    (db_directory_state_by_vault r) (db_directory_proposal_results r)
    (db_derived_history_by_vault r) (db_deletion_jobs r) (db_deletion_receipts r)
    (db_device_removal_jobs r).
Definition set_db_events (x : list EventEnvelope) (r : MetadataDb) : MetadataDb :=
  mk_MetadataDb (db_operation_history_by_vault r) (db_setup_complete r) (db_users r)
    (db_sessions r) (db_vaults r) (db_devices r) (db_connections r) (db_tokens r)
    (db_login_attempts r) (db_sync_operations r) (db_conflicts r) x (db_audit_log r)
    (db_diagnostic_events r) (db_event_seq_by_vault r) (db_merge_sequence_by_vault r)
    (db_directory_state_by_vault r) (db_directory_proposal_results r)
    (db_derived_history_by_vault r) (db_deletion_jobs r) (db_deletion_receipts r)
    (db_device_removal_jobs r).
Definition set_db_audit_log (x : list AuditRow) (r : MetadataDb) : MetadataDb :=
  mk_MetadataDb (db_operation_history_by_vault r) (db_setup_complete r) (db_users r)
    (db_sessions r) (db_vaults r) (db_devices r) (db_connections r) (db_tokens r)
    (db_login_attempts r) (db_sync_operations r) (db_conflicts r) (db_events r) x
    (db_diagnostic_events r) (db_event_seq_by_vault r) (db_merge_sequence_by_vault r)
    (db_directory_state_by_vault r) (db_directory_proposal_results r)
    (db_derived_history_by_vault r) (db_deletion_jobs r) (db_deletion_receipts r)
    (db_device_removal_jobs r).
Definition set_db_diagnostic_events (x : list DiagnosticEventRow) (r : MetadataDb) : MetadataDb :=
  mk_MetadataDb (db_operation_history_by_vault r) (db_setup_complete r) (db_users r)
    (db_sessions r) (db_vaults r) (db_devices r) (db_connections r) (db_tokens r)
    (db_login_attempts r) (db_sync_operations r) (db_conflicts r) (db_events r) (db_audit_log
    r) x (db_event_seq_by_vault r) (db_merge_sequence_by_vault r) (db_directory_state_by_vault
    r) (db_directory_proposal_results r) (db_derived_history_by_vault r) (db_deletion_jobs r)
    (db_deletion_receipts r) (db_device_removal_jobs r).
Definition set_db_event_seq_by_vault (x : jmap Z) (r : MetadataDb) : MetadataDb :=
  mk_MetadataDb (db_operation_history_by_vault r) (db_setup_complete r) (db_users r)
    (db_sessions r) (db_vaults r) (db_devices r) (db_connections r) (db_tokens r)
    (db_login_attempts r) (db_sync_operations r) (db_conflicts r) (db_events r) (db_audit_log
    r) (db_diagnostic_events r) x (db_merge_sequence_by_vault r) (db_directory_state_by_vault
    r) (db_directory_proposal_results r) (db_derived_history_by_vault r) (db_deletion_jobs r)
    (db_deletion_receipts r) (db_device_removal_jobs r).
Definition set_db_merge_sequence_by_vault (x : jmap Z) (r : MetadataDb) : MetadataDb :=
  mk_MetadataDb (db_operation_history_by_vault r) (db_setup_complete r) (db_users r)
    (db_sessions r) (db_vaults r) (db_devices r) (db_connections r) (db_tokens r)
    (db_login_attempts r) (db_sync_operations r) (db_conflicts r) (db_events r) (db_audit_log
    r) (db_diagnostic_events r) (db_event_seq_by_vault r) x (db_directory_state_by_vault r)
    (db_directory_proposal_results r) (db_derived_history_by_vault r) (db_deletion_jobs r)
    (db_deletion_receipts r) (db_device_removal_jobs r).
Definition set_db_directory_state_by_vault (x : jmap DirectoryStateRow) (r : MetadataDb) : MetadataDb :=
  mk_MetadataDb (db_operation_history_by_vault r) (db_setup_complete r) (db_users r)
    (db_sessions r) (db_vaults r) (db_devices r) (db_connections r) (db_tokens r)
    (db_login_attempts r) (db_sync_operations r) (db_conflicts r) (db_events r) (db_audit_log
    r) (db_diagnostic_events r) (db_event_seq_by_vault r) (db_merge_sequence_by_vault r) x
    (db_directory_proposal_results r) (db_derived_history_by_vault r) (db_deletion_jobs r)
    (db_deletion_receipts r) (db_device_removal_jobs r).
Definition set_db_directory_proposal_results (x : list DirectoryProposalResultRow) (r : MetadataDb) : MetadataDb :=
  mk_MetadataDb (db_operation_history_by_vault r) (db_setup_complete r) (db_users r)
    (db_sessions r) (db_vaults r) (db_devices r) (db_connections r) (db_tokens r)
    (db_login_attempts r) (db_sync_operations r) (db_conflicts r) (db_events r) (db_audit_log
    r) (db_diagnostic_events r) (db_event_seq_by_vault r) (db_merge_sequence_by_vault r)
    (db_directory_state_by_vault r) x (db_derived_history_by_vault r) (db_deletion_jobs r)
    (db_deletion_receipts r) (db_device_removal_jobs r).
Definition set_db_derived_history_by_vault (x : jmap (list DerivedHistoryIndexRow)) (r : MetadataDb) : MetadataDb :=
  mk_MetadataDb (db_operation_history_by_vault r) (db_setup_complete r) (db_users r)
    (db_sessions r) (db_vaults r) (db_devices r) (db_connections r) (db_tokens r)
    (db_login_attempts r) (db_sync_operations r) (db_conflicts r) (db_events r) (db_audit_log
    r) (db_diagnostic_events r) (db_event_seq_by_vault r) (db_merge_sequence_by_vault r)
    (db_directory_state_by_vault r) (db_directory_proposal_results r) x (db_deletion_jobs r)
    (db_deletion_receipts r) (db_device_removal_jobs r).
Definition set_db_deletion_jobs (x : list DeletionJob) (r : MetadataDb) : MetadataDb :=
  mk_MetadataDb (db_operation_history_by_vault r) (db_setup_complete r) (db_users r)
    (db_sessions r) (db_vaults r) (db_devices r) (db_connections r) (db_tokens r)
    (db_login_attempts r) (db_sync_operations r) (db_conflicts r) (db_events r) (db_audit_log
    r) (db_diagnostic_events r) (db_event_seq_by_vault r) (db_merge_sequence_by_vault r)
    (db_directory_state_by_vault r) (db_directory_proposal_results r)
    (db_derived_history_by_vault r) x (db_deletion_receipts r) (db_device_removal_jobs r).
Definition set_db_deletion_receipts (x : list DeletionReceipt) (r : MetadataDb) : MetadataDb :=
  mk_MetadataDb (db_operation_history_by_vault r) (db_setup_complete r) (db_users r)
    (db_sessions r) (db_vaults r) (db_devices r) (db_connections r) (db_tokens r)
    (db_login_attempts r) (db_sync_operations r) (db_conflicts r) (db_events r) (db_audit_log
    r) (db_diagnostic_events r) (db_event_seq_by_vault r) (db_merge_sequence_by_vault r)
    (db_directory_state_by_vault r) (db_directory_proposal_results r)
    (db_derived_history_by_vault r) (db_deletion_jobs r) x (db_device_removal_jobs r).
Definition set_db_device_removal_jobs (x : list DeviceRemovalJob) (r : MetadataDb) : MetadataDb :=
  mk_MetadataDb (db_operation_history_by_vault r) (db_setup_complete r) (db_users r)
    (db_sessions r) (db_vaults r) (db_devices r) (db_connections r) (db_tokens r)
    (db_login_attempts r) (db_sync_operations r) (db_conflicts r) (db_events r) (db_audit_log
    r) (db_diagnostic_events r) (db_event_seq_by_vault r) (db_merge_sequence_by_vault r)
    (db_directory_state_by_vault r) (db_directory_proposal_results r)
    (db_derived_history_by_vault r) (db_deletion_jobs r) (db_deletion_receipts r) x.

Definition createEmptyDb : MetadataDb :=
  mk_MetadataDb [] false [] [] [] [] [] [] [] [] [] [] [] [] [] [] [] [] [] [] [] [].

(** ** Queries and bookkeeping of a transaction *)

Definition AuthError (status : Z) (code message : jstring) (details : record) : js_error :=
  mk_error (EAuth status) code message details.

(** [rows.find(test)]. *)
Definition find_row {A} (f : A → bool) (l : list A) : option A := List.find f l.

(** Assignment through the reference [rows.find(test)] returned: the first row
    that satisfies the test is replaced. *)
Fixpoint update_first {A} (f : A → bool) (g : A → A) (l : list A) : list A :=
  match l with
  | [] => []
  | x :: l => if f x then g x :: l else x :: update_first f g l
  end.

(** The loop [for (const row of rows) if (test(row)) assign(row)]. *)
Definition update_where {A} (f : A → bool) (g : A → A) (l : list A) : list A :=
  map (λ x, if f x then g x else x) l.

(** [a === b] where either side may be [null]. *)
Definition oeqb (a b : option jstring) : bool :=
  match a, b with
  | Some x, Some y => x =s? y
  | None, None => true
  | _, _ => false
  end.

Definition is_null_or {A} (o : option A) : bool := match o with None => true | Some _ => false end.

(** Truthiness of a nullable string: [null] and the empty string are falsy. *)
Definition otruthy (o : option jstring) : bool :=
  match o with Some (_ :: _) => true | _ => false end.

Definition isDeviceRevoked (device : DeviceRow) : bool :=
  negb (is_null_or (d_revoked_at device)) || bool_decide (d_status device = DRevoked).

(** A device with [revoked_at] set gets status [revoked]; the flag tells
    whether anything was repaired. *)
Definition needs_repair (device : DeviceRow) : bool :=
  negb (is_null_or (d_revoked_at device)) && negb (bool_decide (d_status device = DRevoked)).

Definition enforceRevocationInvariant (db : MetadataDb) : MetadataDb * bool :=
  (set_db_devices (update_where needs_repair (set_d_status DRevoked) (db_devices db)) db,
   existsb needs_repair (db_devices db)).

Definition hasDurableDeletionRecord (db : MetadataDb) (vaultId : jstring) : bool :=
  existsb (λ vault, (v_vault_id vault =s? vaultId) && bool_decide (v_status vault = VDeleting)) (db_vaults db) ||
  existsb (λ job, dj_vault_id job =s? vaultId) (db_deletion_jobs db) ||
  existsb (λ receipt, dr_vault_id receipt =s? vaultId) (db_deletion_receipts db).

Definition nextMergeSequence (db : MetadataDb) (vaultId : jstring) : Z * MetadataDb :=
  let next := default 0 (mget (db_merge_sequence_by_vault db) vaultId) + 1 in
  (next, set_db_merge_sequence_by_vault (mset (db_merge_sequence_by_vault db) vaultId next) db).

Definition EVENT_RETENTION_MS : Z := 30 * 24 * 60 * 60 * 1000.
Definition EVENT_RETENTION_LIMIT : nat := 100 * 1000.

(** [array.slice(-n)]. *)
Definition take_last {A} (n : nat) (l : list A) : list A := drop (length l - n) l.

Section bookkeeping.
Context `{D : Dates} (w : World).

Definition pruneVaultEvents (i : nat) (db : MetadataDb) (vaultId : jstring) : MetadataDb :=
  let cutoff := w_now w i - EVENT_RETENTION_MS in
  let retainedVaultEvents := take_last EVENT_RETENTION_LIMIT
    (List.filter (λ event, match date_parse (e_created_at event) with
                           | None => true | Some createdAt => cutoff <=? createdAt end)
      (List.filter (λ event, e_vault_id event =s? vaultId) (db_events db))) in
  let retainedIds := map e_event_id retainedVaultEvents in
  set_db_events (List.filter (λ event,
    negb (e_vault_id event =s? vaultId) || jmem (e_event_id event) retainedIds) (db_events db)) db.

(** [appendEvent]: the envelope's id, sequence number and time are allocated here. *)
Definition appendEvent (i : nat) (db : MetadataDb) (event_type : EventType) (vault_id : jstring)
    (resource_ids : list (jstring * jstring)) (commit_cursors : list (jstring * option jstring))
    (payload : record) : EventEnvelope * MetadataDb :=
  let eventSeq := default 0 (mget (db_event_seq_by_vault db) vault_id) + 1 in
  let db := set_db_event_seq_by_vault (mset (db_event_seq_by_vault db) vault_id eventSeq) db in
  let envelope := mk_EventEnvelope (new_id w i "evt") eventSeq event_type vault_id
                    resource_ids commit_cursors payload (nowIso w (i + 1)) in
  let db := set_db_events (db_events db ++ [envelope]) db in
  (envelope, pruneVaultEvents (i + 2) db vault_id).

Definition new_history (i : nat) (db : MetadataDb) (vaultId : jstring) : OperationHistoryMetadata :=
  mk_OperationHistoryMetadata (new_id w i "hist") 0
    (Z.of_nat (length (List.filter (λ row, op_vault_id row =s? vaultId) (db_sync_operations db))) + 1)
    true None.

(** [startOperation]: takes the next sequence number of the vault's ledger. *)
Definition startOperation (i : nat) (db : MetadataDb) (vault_id : jstring) (device_id : option jstring)
    (operation_type : OperationType) (expected_refs target_refs : list (jstring * option jstring))
    (target_commit : option jstring) (proposal_base : option (option jstring))
    : SyncOperationRow * MetadataDb :=
  let timestamp := nowIso w i in
  let state := default (new_history (i + 1) db vault_id)
                 (mget (db_operation_history_by_vault db) vault_id) in
  let operation := mk_SyncOperationRow (new_id w (i + 2) "op") (Some (oh_next_sequence state)) vault_id
                     device_id operation_type expected_refs target_refs target_commit OpStarted
                     proposal_base None None timestamp timestamp in
  let state := set_oh_next_sequence (oh_next_sequence state + 1) state in
  let db := set_db_operation_history_by_vault
              (mset (db_operation_history_by_vault db) vault_id state) db in
  (operation, set_db_sync_operations (db_sync_operations db ++ [operation]) db).

(** [prepareOperationHistoryMetadata]: every vault has a ledger descriptor. *)
Definition prepareOperationHistoryMetadata (i : nat) (db : MetadataDb) : MetadataDb :=
  fold_left (λ db '(j, vault),
    match mget (db_operation_history_by_vault db) (v_vault_id vault) with
    | Some _ => db
    | None => set_db_operation_history_by_vault
                (mset (db_operation_history_by_vault db) (v_vault_id vault)
                  (new_history (i + j) db (v_vault_id vault))) db
    end) (zip (seq 0 (length (db_vaults db))) (db_vaults db)) db.

(** The part of [mutate], [mutateDurably] and [readOrMutate] between the clone
    and the persist: the handler runs on the clone, and a throw discards it. *)
Definition transact {A} (i : nat) (fn : MetadataDb → result (A * MetadataDb)) (db : MetadataDb)
    : result (A * MetadataDb) :=
  '(a, candidate) ← fn db;
  Ok (a, prepareOperationHistoryMetadata i (enforceRevocationInvariant candidate).1).

End bookkeeping.

Definition pruneDirectoryProposalResults (db : MetadataDb) (vaultId : jstring) : MetadataDb :=
  set_db_directory_proposal_results (List.filter (λ result,
    if negb (pr_vault_id result =s? vaultId) || bool_decide (pr_status result = PrConflicted) then true else
    (* [new Map(devices.map(...))]: the last row of an id wins *)
    match find_row (λ device, d_device_id device =s? pr_device_id result)
            (rev (List.filter (λ device, d_vault_id device =s? vaultId) (db_devices db))) with
    | None => true
    | Some device => d_last_applied_event_seq device <? pr_event_seq result
    end) (db_directory_proposal_results db)) db.

(** What a caller of the store observes: the returned value or error, and the
    document afterwards. *)
Definition outcome (A : Type) : Type := result A * MetadataDb.

Definition run {A} (w : World) (fn : MetadataDb → result (A * MetadataDb)) (db : MetadataDb) : outcome A :=
  match transact w 1000 fn db with
  | Ok (a, db') => (Ok a, db')
  | Throw e => (Throw e, db)
  end.

Definition push_audit (w : World) (i : nat) (actor device vault : option jstring)
    (action resource_class : jstring) (resource : option jstring) (created_at : jstring)
    (db : MetadataDb) : MetadataDb :=
  set_db_audit_log (db_audit_log db ++
    [mk_AuditRow (new_id w i "aud") actor device vault action resource_class resource created_at]) db.


(** ** Laws of transactions *)

(** What [transact] adds to a handler's document. *)
Lemma prepareOperationHistoryMetadata_frame w i db :
  ∃ h, prepareOperationHistoryMetadata w i db = set_db_operation_history_by_vault h db.
Proof.
  unfold prepareOperationHistoryMetadata.
  generalize (zip (seq 0 (length (db_vaults db))) (db_vaults db)). intros l.
  assert (∃ h, db = set_db_operation_history_by_vault h db) as Hdb.
  { exists (db_operation_history_by_vault db). by destruct db. }
  revert Hdb. generalize db at 1 3. induction l as [|[j vault] l IH]; cbn [fold_left]; intros cur Hdb; [done|].
  apply IH. destruct (mget _ _); [done|]. destruct Hdb as [h ->]. eexists. reflexivity.
Qed.

Definition committed (h : jmap OperationHistoryMetadata) (db : MetadataDb) : MetadataDb :=
  set_db_operation_history_by_vault h (enforceRevocationInvariant db).1.

Section run_laws.

Lemma run_cases {A} w (fn : MetadataDb → result (A * MetadataDb)) db :
  (∃ e, fn db = Throw e ∧ run w fn db = (Throw e, db)) ∨
  (∃ a c h, fn db = Ok (a, c) ∧ run w fn db = (Ok a, committed h c)).
Proof.
  unfold run, transact.
  destruct (fn db) as [[a c]|e]; cbn [mbind result_bind]; [right|left; eauto].
  destruct (prepareOperationHistoryMetadata_frame w 1000 (enforceRevocationInvariant c).1) as [h ->].
  by exists a, c, h.
Qed.

(** A property that reads neither devices nor ledgers holds after a transaction
    when the handler establishes it. *)
Lemma run_preserves {A} (P : MetadataDb → Prop) w (fn : MetadataDb → result (A * MetadataDb)) db :
  (∀ c h, P c → P (committed h c)) →
  P db → (∀ a c, fn db = Ok (a, c) → P c) → P (run w fn db).2.
Proof.
  intros Hc Hdb Hfn. destruct (run_cases w fn db) as [(e & _ & ->)|(a & c & h & Hf & ->)]; cbn; eauto.
Qed.
End run_laws.

Lemma find_row_Some {A} (f : A → bool) l x : find_row f l = Some x → x ∈ l ∧ f x = true.
Proof. intros H%find_some. by rewrite list_elem_of_In. Qed.

Lemma oeqb_iff a b : oeqb a b = true ↔ a = b.
Proof. destruct a, b; cbn; [|done|done|done]. rewrite jeqb_eq. split; [by intros ->|by intros [= ->]]. Qed.

Lemma oeqb_own a : oeqb a a = true.
Proof. by apply oeqb_iff. Qed.

Lemma find_row_None {A} (f : A → bool) l x : find_row f l = None → x ∈ l → f x = false.
Proof. intros H Hx. apply (find_none _ _ H). by apply list_elem_of_In. Qed.

Lemma update_first_elem {A} (f : A → bool) g l y :
  y ∈ update_first f g l → y ∈ l ∨ ∃ x, x ∈ l ∧ f x = true ∧ y = g x.
Proof.
  induction l as [|x l IH]; cbn [update_first]; [by left|].
  destruct (f x) eqn:E.
  - intros [->|?]%elem_of_cons; [|left; by right]. right. exists x. split; [by left|done].
  - intros [->|H]%elem_of_cons; [left; by left|]. destruct (IH H) as [?|(z & ? & ?)]; [left; by right|].
    right. exists z. split; [by right|done].
Qed.

Lemma update_first_elem_first {A} (f : A → bool) g l y :
  y ∈ update_first f g l → y ∈ l ∨ ∃ x, find_row f l = Some x ∧ y = g x.
Proof.
  unfold find_row. induction l as [|x l IH]; cbn [update_first List.find]; [by left|].
  destruct (f x) eqn:E.
  - intros [->|?]%elem_of_cons; [|left; by right]. right. by exists x.
  - intros [->|H]%elem_of_cons; [left; by left|]. destruct (IH H) as [?|?]; [left; by right|by right].
Qed.

Lemma update_first_keeps {A} (f : A → bool) g l x :
  x ∈ l → f x = false → x ∈ update_first f g l.
Proof.
  induction l as [|z l IH]; cbn [update_first]; [by intros ?%not_elem_of_nil|].
  intros [->|Hx]%elem_of_cons Hf; [rewrite Hf; by left|].
  destruct (f z); right; auto.
Qed.

Lemma update_first_existsb {A} (p f : A → bool) g l :
  (∀ x, p (g x) = p x) → existsb p (update_first f g l) = existsb p l.
Proof.
  intros Hp. induction l as [|x l IH]; cbn; [done|]. destruct (f x); cbn; [by rewrite Hp|by rewrite IH].
Qed.

Lemma update_where_elem {A} (f : A → bool) g l y :
  y ∈ update_where f g l ↔ ∃ x, x ∈ l ∧ y = if f x then g x else x.
Proof.
  unfold update_where. rewrite list_elem_of_In, in_map_iff.
  split; intros (x & ? & ?); exists x; rewrite ?list_elem_of_In in *; naive_solver.
Qed.


(** A query survives assignments that do not change what it reads. *)
Lemma find_row_update_first {A} (p f : A → bool) g l x :
  (∀ y, p (g y) = p y) → find_row p l = Some x →
  find_row p (update_first f g l) = Some x ∨ f x = true ∧ find_row p (update_first f g l) = Some (g x).
Proof.
  intros Hp. induction l as [|y l IH]; cbn; [done|].
  destruct (f y) eqn:Ef; cbn; rewrite ?Hp; destruct (p y) eqn:Ep; intros H; simplify_eq; auto.
Qed.

Lemma find_row_update_where {A} (p f : A → bool) g l :
  (∀ y, p (g y) = p y) →
  find_row p (update_where f g l) = (λ x, if f x then g x else x) <$> find_row p l.
Proof.
  intros Hp. induction l as [|y l IH]; cbn; [done|].
  destruct (f y) eqn:Ef; rewrite ?Hp; destruct (p y); cbn; rewrite ?Ef; auto.
Qed.

Lemma find_row_app {A} (p : A → bool) l k x :
  find_row p l = Some x → find_row p (l ++ k) = Some x.
Proof. induction l as [|y l IH]; cbn; [done|]. by destruct (p y). Qed.

(** The first row that satisfies a test is the one an update through it changes. *)
Lemma find_row_update_first_self {A} (p : A → bool) g l x :
  (∀ y, p (g y) = p y) → find_row p l = Some x → find_row p (update_first p g l) = Some (g x).
Proof.
  intros Hp. induction l as [|y l IH]; cbn; [done|].
  destruct (p y) eqn:Ep; cbn; rewrite ?Hp, Ep; [by intros [= ->]|auto].
Qed.

Lemma to_iso_nonempty ms : to_iso ms ≠ [].
Proof.
  unfold to_iso. destruct (civil_of_days _) as [[y m] d]. intros H%app_eq_nil. by destruct H.
Qed.

Lemma otruthy_to_iso ms : otruthy (Some (to_iso ms)) = true.
Proof. pose proof (to_iso_nonempty ms). unfold otruthy. by destruct (to_iso ms). Qed.

#[global] Arguments find_row : simpl never.
#[global] Arguments update_where : simpl never.
