(* ===== verification/MetadataStore.v ===== *)
(** * Durable publication of the metadata document (src/server/metadataStore.ts)

    [mutate] runs a handler on a clone, writes the result to a temporary file,
    renames it over the document and synchronizes the directory.  Every call of
    the persistence adapter may fail; [Faults] lists the outcomes of one
    publication, and the theorems say what the in-memory database, the file and
    the store's flags are after each combination of faults. *)

From S2P Require Export Metadata.

Local Open Scope Z_scope.

(** ** The store *)

Inductive store_error :=
| SePublication                  (* MetadataPublicationError *)
| SeCleanup                      (* MetadataCleanupError *)
| SeAdapter                      (* the error of writeFile or fsyncFile *)
| SeHistory                      (* an operation-history check *)
| SeHandler (e : js_error).      (* thrown by the handler itself *)

#[export] Instance store_error_eq_dec_publication (e : store_error) : Decision (e = SePublication).
Proof. destruct e; first [left; reflexivity | right; discriminate]. Defined.

(** [st_db] is [this.db], [st_disk] the content of the document on disk. *)
Record Store := mk_Store {
  st_db : MetadataDb;
  st_disk : MetadataDb;
  st_durabilityUncertain : bool;
  st_cleanupFailed : bool;
  st_commits : Z
}.
Definition set_st_db (db : MetadataDb) (st : Store) : Store :=
  mk_Store db (st_disk st) (st_durabilityUncertain st) (st_cleanupFailed st) (st_commits st).
Definition set_st_disk (db : MetadataDb) (st : Store) : Store :=
  mk_Store (st_db st) db (st_durabilityUncertain st) (st_cleanupFailed st) (st_commits st).
Definition set_uncertain (st : Store) : Store :=
  mk_Store (st_db st) (st_disk st) true (st_cleanupFailed st) (st_commits st).
Definition set_cleanup_failed (b : bool) (st : Store) : Store :=
  mk_Store (st_db st) (st_disk st) (st_durabilityUncertain st) b (st_commits st).
Definition published (st : Store) : Store :=
  mk_Store (st_db st) (st_disk st) (st_durabilityUncertain st) (st_cleanupFailed st) (st_commits st + 1).

(** A rename that reports failure may or may not have taken effect. *)
Inductive rename_outcome := Renamed | RenameFailed (applied : bool).

Record Faults := mk_Faults {
  mkdir_ok : bool;
  writeFile_ok : bool;
  fsyncFile_ok : bool;
  rename_result : rename_outcome;
  fsyncDirectory_ok : bool;
  remove_ok : bool          (* also when the file is already missing *)
}.
Definition no_faults : Faults := mk_Faults true true true Renamed true true.

Definition removeTemporaryFile (f : Faults) (st : Store) : option store_error * Store :=
  if remove_ok f then (None, st) else (Some SeCleanup, set_cleanup_failed true st).

(** The [try]/[finally] of [persistUnmeasured]; an error thrown by the
    [finally] block replaces the one in flight. *)
Definition persistUnmeasured (f : Faults) (db : MetadataDb) (st : Store) : option store_error * Store :=
  if negb (mkdir_ok f) then (Some SeCleanup, set_cleanup_failed true st)
  else if negb (writeFile_ok f && fsyncFile_ok f) then
    match removeTemporaryFile f st with
    | (Some e, st) => (Some e, st)
    | (None, st) => (Some SeAdapter, st)
    end
  else match rename_result f with
  | RenameFailed applied => (Some SePublication, if applied then set_st_disk db st else st)
  | Renamed =>
    let st := set_st_disk db st in
    let error := if fsyncDirectory_ok f then None else Some SePublication in
    match removeTemporaryFile f st with
    | (Some e, st) => (Some e, st)
    | (None, st) => (error, st)
    end
  end.

Section store.
Context `{D : Dates}.
(** The SQLite ledgers: whether the ledger of a vault opens and agrees with the
    descriptor the document holds for it. *)
Context (ledger_ok : jstring → OperationHistoryMetadata → bool).

Definition being_deleted (db : MetadataDb) (vault : VaultRow) : bool :=
  bool_decide (v_status vault = VDeleting) ||
  existsb (λ job, dj_vault_id job =s? v_vault_id vault) (db_deletion_jobs db).

Definition history_ready (db : MetadataDb) (vault : VaultRow) : bool :=
  being_deleted db vault ||
  match mget (db_operation_history_by_vault db) (v_vault_id vault) with
  | Some state => negb (oh_init_pending state) && is_null_or (oh_pending_batch state)
                  && ledger_ok (v_vault_id vault) state
  | None => false
  end.

(** [assertOperational]; a ledger that does not check marks the store. *)
Definition assertOperational (st : Store) : option store_error * Store :=
  if st_durabilityUncertain st then (Some SePublication, st)
  else if st_cleanupFailed st then (Some SeCleanup, st)
  else if forallb (history_ready (st_db st)) (db_vaults (st_db st)) then (None, st)
  else (Some SePublication, set_uncertain st).

Definition operational (st : Store) : bool := is_null_or (assertOperational st).1.

Definition isReady (st : Store) : bool :=
  negb (st_durabilityUncertain st || st_cleanupFailed st) &&
  forallb (history_ready (st_db st)) (db_vaults (st_db st)).

(** One iteration of [initializePendingHistories]. *)
Definition initialize_history (f : Faults) (vault : VaultRow) (st : Store) : option store_error * Store :=
  if being_deleted (st_db st) vault then (None, st) else
  match mget (db_operation_history_by_vault (st_db st)) (v_vault_id vault) with
  | Some state =>
    if negb (oh_init_pending state) then (None, st)
    else if negb (ledger_ok (v_vault_id vault) state) then (Some SeHistory, set_uncertain st)
    else
      let initialized := set_db_operation_history_by_vault
        (mset (db_operation_history_by_vault (st_db st)) (v_vault_id vault)
          (set_oh_init_pending false state)) (st_db st) in
      match persistUnmeasured f initialized st with
      | (Some e, st) => (Some e, st)
      | (None, st) => (None, set_st_db initialized st)
      end
  | None => (Some SeHistory, st)     (* the non-null assertion: [state] is undefined *)
  end.

Fixpoint initializePendingHistories (f : nat → Faults) (vaults : list VaultRow) (st : Store)
    : option store_error * Store :=
  match vaults with
  | [] => (None, st)
  | vault :: vaults =>
    match initialize_history (f (length vaults)) vault st with
    | (Some e, st) => (Some e, st)
    | (None, st) => initializePendingHistories f vaults st
    end
  end.

(** [mutate] and [mutateDurably]. *)
Definition mutate {A} (w : World) (f : Faults) (g : nat → Faults)
    (fn : MetadataDb → result (A * MetadataDb)) (st : Store) : (A + store_error) * Store :=
  match assertOperational st with
  | (Some e, st) => (inr e, st)
  | (None, st) =>
    match transact w 0 fn (st_db st) with
    | Throw e => (inr (SeHandler e), st)
    | Ok (a, candidate) =>
      match persistUnmeasured f candidate st with
      | (Some e, st) => (inr e, if bool_decide (e = SePublication) then set_uncertain st else st)
      | (None, st) =>
        let st := published (set_st_db candidate st) in
        match initializePendingHistories g (db_vaults candidate) st with
        | (Some e, st) => (inr e, st)
        | (None, st) => (inl a, st)
        end
      end
    end
  end.

(** [removeStalePersistenceTemps] as [cleanupPersistenceTemps] calls it; the
    flag tells whether the directory could be read, cleared and synchronized. *)
Definition cleanupPersistenceTemps (ok : bool) (st : Store) : option store_error * Store :=
  if st_durabilityUncertain st then (Some SePublication, st)
  else if ok then (None, set_cleanup_failed false st)
  else (Some SeCleanup, set_cleanup_failed true st).

(** ** What a publication leaves behind *)

Definition synced (st : Store) : Prop := st_db st = st_disk st.

(** The store refuses every further operation until the process restarts. *)
Definition stopped (st : Store) : Prop :=
  st_durabilityUncertain st = true ∨
  forallb (history_ready (st_db st)) (db_vaults (st_db st)) = false.

Definition consistent (st : Store) : Prop := synced st ∨ stopped st.

Lemma stopped_not_operational st : stopped st → operational st = false.
Proof.
  unfold operational, assertOperational. intros [H|H]; [by rewrite H|].
  destruct (st_durabilityUncertain st); [done|]. destruct (st_cleanupFailed st); [done|]. by rewrite H.
Qed.

Lemma persist_db f db st : st_db (persistUnmeasured f db st).2 = st_db st.
Proof.
  unfold persistUnmeasured, removeTemporaryFile.
  destruct f as [[] [] [] [|[]] [] []]; done.
Qed.

Lemma persist_flags f db st :
  st_durabilityUncertain (persistUnmeasured f db st).2 = st_durabilityUncertain st.
Proof.
  unfold persistUnmeasured, removeTemporaryFile.
  destruct f as [[] [] [] [|[]] [] []]; done.
Qed.

(** Success writes the file; without removal faults every other outcome leaves
    the old file or reports a publication error. *)
Lemma persist_disk f db st :
  match persistUnmeasured f db st with
  | (None, st') => st_disk st' = db
  | (Some e, st') => remove_ok f = true → e = SePublication ∨ st_disk st' = st_disk st
  end.
Proof.
  unfold persistUnmeasured, removeTemporaryFile.
  destruct f as [[] [] [] [|[]] [] []]; naive_solver.
Qed.

Lemma persist_disk_cases f db st :
  st_disk (persistUnmeasured f db st).2 = st_disk st ∨ st_disk (persistUnmeasured f db st).2 = db.
Proof.
  unfold persistUnmeasured, removeTemporaryFile.
  destruct f as [[] [] [] [|[]] [] []]; naive_solver.
Qed.

Lemma history_ready_pending db vault state :
  being_deleted db vault = false →
  mget (db_operation_history_by_vault db) (v_vault_id vault) = Some state →
  oh_init_pending state = true → history_ready db vault = false.
Proof. unfold history_ready. intros -> -> ->. done. Qed.

Lemma not_ready_stopped st vault :
  vault ∈ db_vaults (st_db st) → history_ready (st_db st) vault = false → stopped st.
Proof.
  intros Hin Hr. right. apply not_true_iff_false. intros Hf.
  rewrite forallb_forall in Hf. rewrite Hf in Hr; [done|]. by apply list_elem_of_In.
Qed.

(** Initializing the ledgers keeps the vaults and ends synchronized or stopped. *)
Lemma initialize_history_consistent f vault st :
  vault ∈ db_vaults (st_db st) → synced st →
  match initialize_history f vault st with
  | (None, st') => synced st' ∧ db_vaults (st_db st') = db_vaults (st_db st)
                   ∧ st_durabilityUncertain st' = st_durabilityUncertain st
  | (Some e, st') => stopped st'
  end.
Proof.
  intros Hin Hs. unfold initialize_history.
  destruct (being_deleted (st_db st) vault) eqn:Ed; [done|].
  destruct (mget _ _) as [state|] eqn:Es.
  - destruct (oh_init_pending state) eqn:Ei; [|done]. cbn [negb].
    destruct (ledger_ok _ state) eqn:El; [|by left]. cbn [negb].
    set (initialized := set_db_operation_history_by_vault _ _).
    pose proof (persist_disk f initialized st) as Hd.
    pose proof (persist_db f initialized st) as Hb. pose proof (persist_flags f initialized st) as Hf.
    destruct (persistUnmeasured f initialized st) as [[e|] st'] eqn:Ep; cbn [snd] in *.
    + apply (not_ready_stopped st' vault); rewrite Hb; [done|].
      by eapply history_ready_pending.
    + unfold synced. cbn. by rewrite Hd.
  - apply (not_ready_stopped st vault); [done|]. unfold history_ready. by rewrite Ed, Es.
Qed.

Lemma initializePendingHistories_consistent f vaults st :
  (∀ v, v ∈ vaults → v ∈ db_vaults (st_db st)) → synced st →
  match initializePendingHistories f vaults st with
  | (None, st') => synced st' ∧ st_durabilityUncertain st' = st_durabilityUncertain st
  | (Some e, st') => stopped st'
  end.
Proof.
  revert st. induction vaults as [|v vaults IH]; intros st Hin Hs; cbn [initializePendingHistories]; [done|].
  pose proof (initialize_history_consistent (f (length vaults)) v st (Hin v ltac:(by left)) Hs) as Hi.
  destruct (initialize_history _ v st) as [[e|] st'] eqn:E; [done|].
  destruct Hi as (Hs' & Hv & Hu).
  specialize (IH st'). rewrite Hv in IH. specialize (IH ltac:(intros; apply Hin; by right) Hs').
  destruct (initializePendingHistories _ _ _) as [[e|] st'']; [done|]. destruct IH. split; congruence.
Qed.

Lemma assertOperational_cases st :
  assertOperational st = (None, st) ∧ st_durabilityUncertain st = false ∨
  ∃ e st', assertOperational st = (Some e, st') ∧ st_db st' = st_db st ∧ st_disk st' = st_disk st
           ∧ (st_durabilityUncertain st = true → st_durabilityUncertain st' = true).
Proof.
  unfold assertOperational. destruct (st_durabilityUncertain st) eqn:?; [right; eauto 10|].
  destruct (st_cleanupFailed st); [right; eexists _, _; naive_solver|].
  destruct (forallb _ _); [by left|right; eexists _, _; naive_solver].
Qed.

Lemma mutate_consistent {A} w f g (fn : MetadataDb → result (A * MetadataDb)) st :
  remove_ok f = true → consistent st → consistent (mutate w f g fn st).2.
Proof.
  intros Hf Hc. unfold mutate.
  destruct (assertOperational_cases st) as [[-> Hu]|(e & st' & -> & Hdb & Hdisk & Hu)].
  2:{ cbn. unfold consistent, synced, stopped in *. rewrite Hdb, Hdisk. naive_solver. }
  destruct (transact _ _ _ _) as [[a candidate]|]; [|done].
  pose proof (persist_disk f candidate st) as Hd. pose proof (persist_db f candidate st) as Hb.
  pose proof (persist_flags f candidate st) as Hfl.
  destruct (persistUnmeasured f candidate st) as [[e|] st1]; cbn [snd] in *.
  - destruct (Hd Hf) as [->|Hd'].
    + cbn. right. by left.
    + case_bool_decide; [right; by left|]. cbn. unfold consistent, synced, stopped in *.
      rewrite Hb, Hd', Hfl. done.
  - pose proof (initializePendingHistories_consistent g (db_vaults candidate)
      (published (set_st_db candidate st1)) ltac:(done)) as Hi.
    unfold synced in Hi at 1. cbn [st_db st_disk published set_st_db] in Hi.
    specialize (Hi (eq_sym Hd)).
    destruct (initializePendingHistories _ _ _) as [[e|] st2]; [by right|]. by left; destruct Hi.
Qed.

(** The life of the store between two starts of the process. *)
Inductive store_step (st : Store) : Store → Prop :=
| step_mutate A w f g (fn : MetadataDb → result (A * MetadataDb)) :
    remove_ok f = true → store_step st (mutate w f g fn st).2
| step_cleanup ok : store_step st (cleanupPersistenceTemps ok st).2.

Lemma store_step_consistent st st' : store_step st st' → consistent st → consistent st'.
Proof.
  intros [A w f g fn Hf|ok] Hc; [by apply mutate_consistent|].
  unfold cleanupPersistenceTemps. destruct (st_durabilityUncertain st) eqn:E; [done|].
  destruct ok; done.
Qed.

End store.

Section properties.
Context (ledger_ok : jstring → OperationHistoryMetadata → bool).

(** [C19] As long as no removal of a temporary file fails, a store that still
    accepts operations serves exactly what is on disk, whatever else failed in
    whatever order: every run of transactions and cleanups that starts from a
    synchronized store ends with memory equal to the file, or with a store that
    refuses every operation until the process restarts. *)
Theorem operational_store_serves_the_file st0 st :
  synced st0 → rtc (store_step ledger_ok) st0 st → operational ledger_ok st = true → synced st.
Proof.
  intros H0 Hr Hop. assert (consistent ledger_ok st) as [?|Hs]; [|done|].
  - assert (consistent ledger_ok st0) as Hc by by left.
    clear H0 Hop. induction Hr as [|st1 st2 st3 Hstep _ IH]; [done|].
    apply IH. by eapply store_step_consistent.
  - apply stopped_not_operational in Hs. congruence.
Qed.

(** [C20] A transaction that throws changes neither memory nor the file, or
    leaves a store that refuses further operations; one that returns has written
    what it left in memory.  (A run without removal faults.) *)
Theorem mutate_all_or_nothing {A} w f g (fn : MetadataDb → result (A * MetadataDb)) st :
  synced st → remove_ok f = true →
  match mutate ledger_ok w f g fn st with
  | (inl a, st') => synced st' ∧ st_durabilityUncertain st' = false
                    ∧ ∃ candidate, transact w 0 fn (st_db st) = Ok (a, candidate)
  | (inr e, st') => st_db st' = st_db st ∧ st_disk st' = st_disk st
                    ∨ operational ledger_ok st' = false
  end.
Proof.
  intros Hs Hf. unfold mutate.
  destruct (assertOperational_cases ledger_ok st) as [[-> Hu]|(e & st' & -> & Hdb & Hdisk & _)]; [|by left].
  destruct (transact w 0 fn (st_db st)) as [[a candidate]|] eqn:Et; [|by left].
  pose proof (persist_disk f candidate st) as Hd. pose proof (persist_db f candidate st) as Hb.
  pose proof (persist_flags f candidate st) as Hfl.
  destruct (persistUnmeasured f candidate st) as [[e|] st1]; cbn [snd] in *.
  - case_bool_decide as He; [right; by apply stopped_not_operational; left|].
    left. destruct (Hd Hf) as [->|Hd']; [done|]. split; congruence.
  - pose proof (initializePendingHistories_consistent ledger_ok g (db_vaults candidate)
      (published (set_st_db candidate st1)) ltac:(done)) as Hi.
    unfold synced in Hi at 1. cbn [st_db st_disk published set_st_db] in Hi.
    specialize (Hi (eq_sym Hd)).
    destruct (initializePendingHistories _ _ _ _) as [[e|] st2].
    + right. by apply stopped_not_operational.
    + destruct Hi as [Hsy Hun]. cbn in Hun. rewrite Hfl, Hu in Hun. eauto.
Qed.

End properties.

(** A store over the empty document, with ledgers that always check. *)
Definition sample_store : Store := mk_Store createEmptyDb createEmptyDb false false 0.
Definition sample_world : World := mk_World (λ i, 1000 + Z.of_nat i) (λ i, [N.of_nat i]).

Definition mark_setup (db : MetadataDb) : result (unit * MetadataDb) :=
  Ok ((), set_db_setup_complete true db).

Lemma operational_store_serves_the_file_witness :
  synced (mutate (λ _ _, true) sample_world no_faults (λ _, no_faults) mark_setup sample_store).2.
Proof.
  apply (operational_store_serves_the_file (λ _ _, true) sample_store); [reflexivity| |reflexivity].
  apply rtc_once. apply step_mutate. reflexivity.
Defined.

Lemma mutate_all_or_nothing_witness :
  match mutate (λ _ _, true) sample_world no_faults (λ _, no_faults) mark_setup sample_store with
  | (inl _, st') => synced st' ∧ st_durabilityUncertain st' = false
                    ∧ ∃ candidate, transact sample_world 0 mark_setup (st_db sample_store) = Ok ((), candidate)
  | (inr _, st') => False
  end.
Proof.
  exact (mutate_all_or_nothing (λ _ _, true) sample_world no_faults (λ _, no_faults) mark_setup
           sample_store eq_refl eq_refl).
Defined.

(** The assumption on removals is needed: when the directory cannot be
    synchronized after the rename and the removal of the (already renamed)
    temporary file fails too, the [finally] block replaces the publication error
    by a cleanup error, the store is not marked, and after a successful cleanup
    it accepts operations with a memory that differs from the file. *)
Definition double_fault : Faults := mk_Faults true true true Renamed false false.

Theorem cleanup_unmasks_divergence :
  let st := (mutate (λ _ _, true) sample_world double_fault (λ _, no_faults) mark_setup sample_store).2 in
  let st' := (cleanupPersistenceTemps true st).2 in
  operational (λ _ _, true) st' = true ∧ db_setup_complete (st_db st') = false
  ∧ db_setup_complete (st_disk st') = true.
Proof. vm_compute. auto. Qed.
