(* ===== verification/Auth.v ===== *)
(** * Accounts, sessions and device tokens (src/server/authService.ts)

    Each method of [AuthService] is a transaction on the metadata document: a
    handler that either throws (and the document is unchanged) or returns a
    value with the next document.  [login] is the exception the source makes on
    purpose: it commits the failed attempt and throws afterwards. *)

From S2P Require Export Metadata Unicode.

Local Open Scope Z_scope.

(** ** Cryptography

    Argon2 is a third-party package; scrypt, SHA-256 and base64url decoding are
    the platform's. *)
Class Crypto := {
  argon_hash : jstring → list N → jstring;        (* password, salt bytes *)
  argon_verify : jstring → jstring → bool;        (* stored hash, password *)
  scrypt_64 : jstring → jstring → list N;         (* password, salt *)
  base64url_decode : jstring → list N;
  sha256_hex : jstring → jstring;
  hmac_base64url : jstring → jstring → jstring    (* base64url key, message *)
}.

Class CryptoOk (C : Crypto) : Prop := {
  argon_verify_hash password salt : argon_verify (argon_hash password salt) password = true
}.

(** ** Constants *)

Definition DEVICE_LAST_SEEN_INTERVAL_MS : Z := 60 * 1000.
Definition SESSION_TTL_MS : Z := 30 * 24 * 60 * 60 * 1000.
Definition SESSION_IDLE_TTL_MS : Z := 7 * 24 * 60 * 60 * 1000.
Definition SESSION_TOUCH_INTERVAL_MS : Z := 60 * 1000.
Definition RECENT_AUTH_MS : Z := 15 * 60 * 1000.
Definition PASSWORD_RESET_TTL_MS : Z := 30 * 60 * 1000.
Definition LOGIN_FAILURE_WINDOW_MS : Z := 10 * 60 * 1000.
Definition LOGIN_FAILURE_LIMIT : Z := 5.
Definition LOGIN_BACKOFF_BASE_MS : Z := 60 * 1000.
Definition LOGIN_BACKOFF_MAX_MS : Z := 60 * 60 * 1000.

(** ** The errors the service throws *)

Definition not_found : js_error := AuthError 404 "not_found" "Resource not found." [].
Definition unauthenticated : js_error := AuthError 401 "unauthenticated" "Authentication required." [].
Definition device_token_required : js_error :=
  AuthError 401 "unauthenticated" "Device token is required." [].
Definition admin_required : js_error :=
  AuthError 403 "admin_required" "Admin privileges are required." [].
Definition weak_password : js_error :=
  AuthError 400 "weak_password" "Password must be at least 12 characters." [].
Definition invalid_credentials : js_error :=
  AuthError 401 "invalid_credentials" "Invalid username or password." [].
Definition final_admin_required : js_error :=
  AuthError 409 "final_admin_required" "At least one enabled admin account is required." [].
Definition invalid_reset_token : js_error :=
  AuthError 401 "invalid_password_reset_token" "Password reset token is invalid or expired." [].
Definition rate_limited : js_error :=
  AuthError 429 "auth_rate_limited" "Too many failed login attempts; try again later." [].
Definition vault_deleting : js_error :=
  AuthError 409 "vault_deleting" "Vault deletion is in progress." [].

(** [Date.parse(text) <= now] and [> now]: both false on [NaN]. *)
Section dates.
Context `{D : Dates}.
Definition parsed_le (text : jstring) (now : Z) : bool :=
  match date_parse text with Some t => t <=? now | None => false end.
Definition parsed_gt (text : jstring) (now : Z) : bool :=
  match date_parse text with Some t => now <? t | None => false end.
End dates.

Section auth.
Context `{D : Dates} `{C : Crypto}.

(** ** Helpers at the end of the file *)

Definition isSessionLive (session : SessionRow) (now : Z) : bool :=
  if otruthy (s_revoked_at session) then false
  else match date_parse (s_expires_at session), date_parse (s_idle_expires_at session) with
       | Some expiresAt, Some idleExpiresAt => (now <? expiresAt) && (now <? idleExpiresAt)
       | _, _ => false
       end.

Definition owns_vault (userId vaultId : jstring) (vault : VaultRow) : bool :=
  (v_vault_id vault =s? vaultId) && (v_owner_user_id vault =s? userId).

Definition ownedVaultOrThrow (db : MetadataDb) (userId vaultId : jstring) : result VaultRow :=
  match find_row (owns_vault userId vaultId) (db_vaults db) with
  | None => Throw not_found
  | Some vault => if bool_decide (v_status vault = VDeleting) then Throw vault_deleting else Ok vault
  end.

(** [hashToken]: the lookup prefix and the hash. *)
Definition hashToken (token : jstring) : jstring * jstring :=
  let hash := sha256_hex token in (take 16 hash, hash).

Definition hashPassword (password : jstring) (salt : list N) : StoredPassword :=
  Argon2id (argon_hash password salt).

Definition verifyPassword (password : jstring) (stored : StoredPassword) : bool :=
  match stored with
  | Argon2id hash => argon_verify hash password
  | LegacyScrypt salt hash => bool_decide (base64url_decode hash = scrypt_64 password salt)
  end.

Definition has_user_id (userId : jstring) (user : UserRow) : bool := u_user_id user =s? userId.

Definition requireUser (db : MetadataDb) (userId : jstring) : result UserRow :=
  match find_row (has_user_id userId) (db_users db) with
  | Some user => Ok user | None => Throw not_found end.

Definition requireAdmin (db : MetadataDb) (actorUserId : jstring) : result UserRow :=
  match find_row (has_user_id actorUserId) (db_users db) with
  | Some actor => if u_disabled actor || negb (u_is_admin actor) then Throw admin_required else Ok actor
  | None => Throw admin_required
  end.

Definition enabled_admin (user : UserRow) : bool := u_is_admin user && negb (u_disabled user).

Definition enabledAdminCount (db : MetadataDb) (exceptUserId : jstring) : nat :=
  length (List.filter (λ user, enabled_admin user && negb (u_user_id user =s? exceptUserId)) (db_users db)).

Definition revokeUserAuth (timestamp userId : jstring) (db : MetadataDb) : MetadataDb :=
  let db := set_db_sessions (update_where
    (λ session, (s_user_id session =s? userId) && negb (otruthy (s_revoked_at session)))
    (set_s_revoked_at (Some timestamp)) (db_sessions db)) db in
  let db := set_db_tokens (update_where
    (λ token, (t_user_id token =s? userId) && negb (otruthy (t_revoked_at token)))
    (set_t_revoked_at (Some timestamp)) (db_tokens db)) db in
  set_db_devices (update_where
    (λ device, (d_user_id device =s? userId) && negb (bool_decide (d_status device = DRevoked)))
    (λ device, set_d_revoked_at (Some timestamp) (set_d_status DRevoked device)) (db_devices db)) db.

Definition is_attempt (username sourceIp : jstring) (attempt : LoginAttemptRow) : bool :=
  (la_username attempt =s? username) && (la_source_ip attempt =s? sourceIp).

Definition enforceLoginBackoff (now : Z) (db : MetadataDb) (username sourceIp : jstring) : result unit :=
  match find_row (is_attempt username sourceIp) (db_login_attempts db) with
  | Some attempt =>
    match la_locked_until attempt with
    | Some (c :: s) => if parsed_gt (c :: s) now then Throw rate_limited else Ok ()
    | _ => Ok ()
    end
  | None => Ok ()
  end.

(** [Math.min(LOGIN_BACKOFF_BASE_MS * 2 ** max(0, count - limit), LOGIN_BACKOFF_MAX_MS)]. *)
Definition backoff_ms (failed_count : Z) : Z :=
  Z.min (LOGIN_BACKOFF_BASE_MS * 2 ^ Z.max 0 (failed_count - LOGIN_FAILURE_LIMIT)) LOGIN_BACKOFF_MAX_MS.

(** The three assignments to the attempt row. *)
Definition count_failure (now : Z) (attempt : LoginAttemptRow) : LoginAttemptRow :=
  let timestamp := to_iso now in
  let failed_count := la_failed_count attempt + 1 in
  mk_LoginAttemptRow (la_username attempt) (la_source_ip attempt) failed_count
    (la_window_started_at attempt) timestamp
    (if LOGIN_FAILURE_LIMIT <=? failed_count then Some (to_iso (now + backoff_ms failed_count))
     else la_locked_until attempt) timestamp.

(** [now - Date.parse(window_started_at) > LOGIN_FAILURE_WINDOW_MS]. *)
Definition window_over (now : Z) (attempt : LoginAttemptRow) : bool :=
  match date_parse (la_window_started_at attempt) with
  | Some started => LOGIN_FAILURE_WINDOW_MS <? now - started
  | None => false
  end.

Definition recordFailedLogin (w : World) (i : nat) (db : MetadataDb) (username sourceIp : jstring)
    (userId : option jstring) : MetadataDb :=
  let now := w_now w i in
  let timestamp := to_iso now in
  let fresh := mk_LoginAttemptRow username sourceIp 0 timestamp timestamp None timestamp in
  let restart := set_db_login_attempts
    (List.filter (λ candidate, negb (is_attempt username sourceIp candidate)) (db_login_attempts db)
     ++ [count_failure now fresh]) db in
  let db := match find_row (is_attempt username sourceIp) (db_login_attempts db) with
            | None => restart
            | Some attempt =>
              if window_over now attempt then restart
              else set_db_login_attempts (update_first (is_attempt username sourceIp)
                     (count_failure now) (db_login_attempts db)) db
            end in
  push_audit w (i + 1) userId None None "login_failed" "session" None timestamp db.

Definition clearLoginFailures (db : MetadataDb) (username sourceIp : jstring) : MetadataDb :=
  set_db_login_attempts
    (List.filter (λ candidate, negb (is_attempt username sourceIp candidate)) (db_login_attempts db)) db.

Record AdminUserSummary := mk_summary {
  sum_user_id : jstring; sum_username : jstring; sum_display_name : jstring; sum_is_admin : bool;
  sum_disabled : bool; sum_created_at : jstring; sum_last_login_at : option jstring;
  sum_owned_vault_count : nat
}.

Definition userSummary (db : MetadataDb) (user : UserRow) : AdminUserSummary :=
  mk_summary (u_user_id user) (u_username user) (u_display_name user) (u_is_admin user)
    (u_disabled user) (u_created_at user) (u_last_login_at user)
    (length (List.filter (λ vault, v_owner_user_id vault =s? u_user_id user) (db_vaults db))).

Definition createSession (w : World) (i : nat) (userId : jstring) : SessionRow :=
  let now := w_now w i in
  mk_SessionRow (new_secret w i "sess") userId (new_secret w (i + 1) "csrf") (to_iso now) (to_iso now)
    (to_iso (now + SESSION_TTL_MS)) (to_iso (now + SESSION_IDLE_TTL_MS)) (to_iso now) None.

(** [header.split(' ')] destructured into its first two parts. *)
Definition parseBearer (header : option jstring) : result jstring :=
  match header with
  | None | Some [] => Throw device_token_required
  | Some header =>
    match split_on 32 header with
    | scheme :: (c :: token) :: _ => if scheme =s? "Bearer" then Ok (c :: token) else Throw device_token_required
    | _ => Throw device_token_required
    end
  end.

(** ** Methods *)

Record SessionGrant := mk_grant {
  g_user : UserRow; g_csrf : jstring; g_session : jstring; g_recent_until : option Z
}.

(** [new Date(Date.parse(recent_auth_at) + RECENT_AUTH_MS)]: no instant on [NaN],
    where [toISOString] would throw. *)
Definition recentAuthExpiresAt (session : SessionRow) : option Z :=
  (λ t, t + RECENT_AUTH_MS) <$> date_parse (s_recent_auth_at session).

Definition setupInitialAdmin (w : World) (username password : jstring) (displayName : option jstring)
    (db : MetadataDb) : outcome SessionGrant :=
  if (length password <? 12)%nat then (Throw weak_password, db) else
  run w (λ db,
    if db_setup_complete db
    then Throw (AuthError 409 "setup_complete" "Initial setup is already complete." [])
    else
      let user := mk_UserRow (new_id w 0 "usr") username (default username displayName)
                    (hashPassword password (w_random w 1)) true false (nowIso w 2) (Some (nowIso w 3)) in
      let db := set_db_setup_complete true (set_db_users (db_users db ++ [user]) db) in
      let db := push_audit w 4 (Some (u_user_id user)) None None "initial_admin_created" "user"
                  (Some (u_user_id user)) (nowIso w 5) db in
      let session := createSession w 6 (u_user_id user) in
      let db := set_db_sessions (db_sessions db ++ [session]) db in
      Ok (mk_grant user (s_csrf_token session) (s_session_id session) (recentAuthExpiresAt session), db)) db.

(** The transaction of [login]: [None] stands for [invalid_credentials]. *)
Definition login_txn (w : World) (username password sourceIp : jstring) (db : MetadataDb)
    : result (option SessionGrant * MetadataDb) :=
  _ ← enforceLoginBackoff (w_now w 0) db username sourceIp;
  let found := find_row (λ candidate, u_username candidate =s? username) (db_users db) in
  match found with
  | Some user =>
    if u_disabled user || negb (verifyPassword password (u_password_hash user))
    then Ok (None, recordFailedLogin w 1 db username sourceIp (Some (u_user_id user)))
    else
      let timestamp := nowIso w 3 in
      let login := set_u_last_login_at (Some timestamp) in
      let db := set_db_users (update_first (λ candidate, u_username candidate =s? username) login (db_users db)) db in
      let db := clearLoginFailures db username sourceIp in
      let session := createSession w 4 (u_user_id user) in
      let db := set_db_sessions (db_sessions db ++ [session]) db in
      let db := push_audit w 6 (Some (u_user_id user)) None None "login" "session" None timestamp db in
      Ok (Some (mk_grant (login user) (s_csrf_token session) (s_session_id session)
                 (recentAuthExpiresAt session)), db)
  | None => Ok (None, recordFailedLogin w 1 db username sourceIp None)
  end.

Definition login (w : World) (username password : jstring) (sourceIp : option jstring)
    (db : MetadataDb) : outcome SessionGrant :=
  match run w (login_txn w username password (default (lit "unknown") sourceIp)) db with
  | (Ok (Some grant), db') => (Ok grant, db')
  | (Ok None, db') => (Throw invalid_credentials, db')
  | (Throw e, db') => (Throw e, db')
  end.

Definition has_session_id (sessionId : jstring) (session : SessionRow) : bool :=
  s_session_id session =s? sessionId.

Definition reauthenticateSession (w : World) (sessionId : option jstring) (username password : jstring)
    (sourceIp : option jstring) (db : MetadataDb) : outcome SessionGrant :=
  match sessionId with
  | None | Some [] => (Throw unauthenticated, db)
  | Some sessionId => run w (λ db,
    let sourceIp := default (lit "unknown") sourceIp in
    _ ← enforceLoginBackoff (w_now w 0) db username sourceIp;
    let now := w_now w 1 in
    match find_row (has_session_id sessionId) (db_sessions db) with
    | None => Throw unauthenticated
    | Some session =>
      if negb (isSessionLive session now) then Throw unauthenticated else
      match find_row (has_user_id (s_user_id session)) (db_users db) with
      | None =>
        let db := recordFailedLogin w 2 db username sourceIp None in Throw invalid_credentials
      | Some user =>
        if u_disabled user || negb (u_username user =s? username)
           || negb (verifyPassword password (u_password_hash user))
        then let db := recordFailedLogin w 2 db username sourceIp (Some (u_user_id user)) in
             Throw invalid_credentials
        else
          let timestamp := nowIso w 4 in
          let db := clearLoginFailures db username sourceIp in
          let relogin := set_u_last_login_at (Some timestamp) in
          let db := set_db_users (update_first (has_user_id (s_user_id session)) relogin (db_users db)) db in
          let renew := λ session,
            set_s_recent_auth_at timestamp
              (set_s_idle_expires_at (to_iso (now + SESSION_IDLE_TTL_MS))
                (set_s_last_seen_at timestamp session)) in
          let db := set_db_sessions (update_first (has_session_id sessionId) renew (db_sessions db)) db in
          let db := push_audit w 5 (Some (u_user_id user)) None None "session_reauthenticated" "session"
                      None timestamp db in
          Ok (mk_grant (relogin user) (s_csrf_token session) (s_session_id session)
               (recentAuthExpiresAt (renew session)), db)
      end
    end) db
  end.

Definition createUser (w : World) (actorUserId username password : jstring)
    (displayName : option jstring) (isAdmin : option bool) (db : MetadataDb) : outcome UserRow :=
  if (length password <? 12)%nat then (Throw weak_password, db) else
  run w (λ db,
    actor ← requireAdmin db actorUserId;
    if existsb (λ candidate, u_username candidate =s? username) (db_users db)
    then Throw (AuthError 409 "username_exists" "Username already exists." [])
    else
      let user := mk_UserRow (new_id w 0 "usr") username (default username displayName)
                    (hashPassword password (w_random w 1)) (default false isAdmin) false (nowIso w 2) None in
      let db := set_db_users (db_users db ++ [user]) db in
      let db := push_audit w 3 (Some (u_user_id actor)) None None "user_created" "user"
                  (Some (u_user_id user)) (nowIso w 4) db in
      Ok (user, db)) db.

(** [left.username.localeCompare(right.username) || left.user_id.localeCompare(...)]. *)
Definition summary_leb `{Unicode} (left right : AdminUserSummary) : bool :=
  match locale_compare (sum_username left) (sum_username right) with
  | Lt => true
  | Gt => false
  | Eq => locale_leb (sum_user_id left) (sum_user_id right)
  end.

Definition listUsers `{Unicode} (actorUserId : jstring) (db : MetadataDb) : outcome (list AdminUserSummary) :=
  (_ ← requireAdmin db actorUserId; Ok (isort summary_leb (map (userSummary db) (db_users db))), db).

Definition approved_by (userId : jstring) (connection : ConnectionRequestRow) : bool :=
  oeqb (c_approved_user_id connection) (Some userId) && bool_decide (c_status connection = CApproved).

(** The loop over the connections of a disabled user: deny and audit each. *)
Definition deny_connections (w : World) (i : nat) (actorId userId : jstring) (db : MetadataDb) : MetadataDb :=
  let denied := List.filter (approved_by userId) (db_connections db) in
  let db := set_db_connections
    (update_where (approved_by userId) (set_c_status CDenied) (db_connections db)) db in
  fold_left (λ db '(j, connection),
    push_audit w (i + 2 * j) (Some actorId) None (c_selected_vault_id connection)
      "connection_revoked_user_disabled" "connection" (Some (c_connection_id connection))
      (nowIso w (i + 2 * j + 1)) db) (zip (seq 0 (length denied)) denied) db.

Definition setUserDisabled (w : World) (actorUserId targetUserId : jstring) (disabled : bool)
    (db : MetadataDb) : outcome AdminUserSummary :=
  run w (λ db,
    actor ← requireAdmin db actorUserId;
    target ← requireUser db targetUserId;
    if disabled && u_is_admin target && (enabledAdminCount db (u_user_id target) =? 0)%nat
    then Throw final_admin_required
    else
      let db := set_db_users
        (update_first (has_user_id targetUserId) (set_u_disabled disabled) (db_users db)) db in
      let db := if disabled
                then deny_connections w 10 (u_user_id actor) (u_user_id target)
                       (revokeUserAuth (nowIso w 0) (u_user_id target) db)
                else db in
      let db := push_audit w 1 (Some (u_user_id actor)) None None
                  (if disabled then lit "user_disabled" else lit "user_enabled") "user"
                  (Some (u_user_id target)) (nowIso w 2) db in
      Ok (userSummary db (set_u_disabled disabled target), db)) db.

Definition setUserAdmin (w : World) (actorUserId targetUserId : jstring) (isAdmin : bool)
    (db : MetadataDb) : outcome AdminUserSummary :=
  run w (λ db,
    actor ← requireAdmin db actorUserId;
    target ← requireUser db targetUserId;
    if negb isAdmin && u_is_admin target && (enabledAdminCount db (u_user_id target) =? 0)%nat
    then Throw final_admin_required
    else
      let db := set_db_users
        (update_first (has_user_id targetUserId) (set_u_is_admin isAdmin) (db_users db)) db in
      let db := push_audit w 1 (Some (u_user_id actor)) None None
                  (if isAdmin then lit "admin_granted" else lit "admin_revoked") "user"
                  (Some (u_user_id target)) (nowIso w 2) db in
      Ok (userSummary db (set_u_is_admin isAdmin target), db)) db.

(** An unused reset token of a user, which a new one replaces. *)
Definition open_reset_token (userId : jstring) (token : TokenRow) : bool :=
  bool_decide (t_kind token = TokPasswordReset) && (t_user_id token =s? userId)
  && negb (otruthy (t_consumed_at token)) && negb (otruthy (t_revoked_at token)).

Definition createPasswordResetToken (w : World) (actorUserId targetUserId : jstring)
    (db : MetadataDb) : outcome (jstring * jstring) :=
  let resetToken := new_secret w 0 "obts_reset" in
  let '(lookupPrefix, hash) := hashToken resetToken in
  let expiresAt := to_iso (w_now w 1 + PASSWORD_RESET_TTL_MS) in
  run w (λ db,
    actor ← requireAdmin db actorUserId;
    target ← requireUser db targetUserId;
    let timestamp := nowIso w 2 in
    let db := set_db_tokens (update_where (open_reset_token (u_user_id target))
                (set_t_revoked_at (Some timestamp)) (db_tokens db)) db in
    let token := mk_TokenRow (new_id w 3 "tok") TokPasswordReset lookupPrefix hash (u_user_id target)
                   None None (Some expiresAt) None 0 None [] timestamp in
    let db := set_db_tokens (db_tokens db ++ [token]) db in
    let db := push_audit w 4 (Some (u_user_id actor)) None None "password_reset_token_created" "user"
                (Some (u_user_id target)) timestamp db in
    Ok ((resetToken, expiresAt), db)) db.

Definition reset_token_of (lookupPrefix hash : jstring) (token : TokenRow) : bool :=
  bool_decide (t_kind token = TokPasswordReset) && (t_lookup_prefix token =s? lookupPrefix)
  && (t_token_hash token =s? hash).

(** The disjunction that makes a reset token unusable at [now]. *)
Definition reset_token_invalid (now : Z) (token : TokenRow) : bool :=
  otruthy (t_revoked_at token) || otruthy (t_consumed_at token) || negb (otruthy (t_expires_at token))
  || parsed_le (default [] (t_expires_at token)) now.

Definition resetPassword (w : World) (resetToken newPassword : jstring) (db : MetadataDb) : outcome unit :=
  if (length newPassword <? 12)%nat then (Throw weak_password, db) else
  let '(lookupPrefix, hash) := hashToken resetToken in
  run w (λ db,
    match find_row (reset_token_of lookupPrefix hash) (db_tokens db) with
    | None => Throw invalid_reset_token
    | Some token =>
      if reset_token_invalid (w_now w 0) token then Throw invalid_reset_token else
      user ← requireUser db (t_user_id token);
      let db := set_db_users (update_first (has_user_id (t_user_id token))
                  (set_u_password_hash (hashPassword newPassword (w_random w 1))) (db_users db)) db in
      let db := set_db_tokens (update_first (reset_token_of lookupPrefix hash)
                  (set_t_consumed_at (Some (nowIso w 2))) (db_tokens db)) db in
      let db := set_db_sessions (update_where
                  (λ session, (s_user_id session =s? u_user_id user) && negb (otruthy (s_revoked_at session)))
                  (set_s_revoked_at (Some (nowIso w 3))) (db_sessions db)) db in
      let db := push_audit w 4 (Some (u_user_id user)) None None "password_reset_completed" "user"
                  (Some (u_user_id user)) (nowIso w 5) db in
      Ok ((), db)
    end) db.

Definition renameVault (w : World) (actorUserId vaultId displayName : jstring) (db : MetadataDb)
    : outcome VaultRow :=
  run w (λ db,
    vault ← ownedVaultOrThrow db actorUserId vaultId;
    if v_display_name vault =s? displayName then Ok (vault, db) else
    let timestamp := nowIso w 0 in
    let rename := λ vault, set_v_updated_at timestamp (set_v_display_name displayName vault) in
    let db := set_db_vaults (update_first (owns_vault actorUserId vaultId) rename (db_vaults db)) db in
    let db := push_audit w 1 (Some actorUserId) None (Some (v_vault_id vault)) "vault_renamed" "vault"
                (Some (v_vault_id vault)) timestamp db in
    Ok (rename vault, db)) db.

Definition owned_device (userId vaultId deviceId : jstring) (device : DeviceRow) : bool :=
  (d_device_id device =s? deviceId) && (d_vault_id device =s? vaultId) && (d_user_id device =s? userId).

Definition renameDevice (w : World) (actorUserId : jstring) (actorDeviceId : option jstring)
    (vaultId deviceId deviceName : jstring) (db : MetadataDb) : outcome DeviceRow :=
  run w (λ db,
    vault ← ownedVaultOrThrow db actorUserId vaultId;
    let selected := owned_device actorUserId (v_vault_id vault) deviceId in
    match find_row selected (db_devices db) with
    | None => Throw not_found
    | Some device =>
      if d_device_name device =s? deviceName then Ok (device, db) else
      let timestamp := nowIso w 0 in
      let db := set_db_devices (update_first selected (set_d_device_name deviceName) (db_devices db)) db in
      let db := push_audit w 1 (Some actorUserId) actorDeviceId (Some (v_vault_id vault)) "device_renamed"
                  "device" (Some (d_device_id device)) timestamp db in
      Ok (set_d_device_name deviceName device, db)
    end) db.

Definition device_token_of (deviceId : jstring) (token : TokenRow) : bool :=
  bool_decide (t_kind token = TokDevice) && oeqb (t_device_id token) (Some deviceId).

Definition revokeDevice (w : World) (actorUserId vaultId deviceId : jstring) (db : MetadataDb) : outcome unit :=
  run w (λ db,
    vault ← ownedVaultOrThrow db actorUserId vaultId;
    let selected := owned_device actorUserId (v_vault_id vault) deviceId in
    match find_row selected (db_devices db) with
    | None => Throw not_found
    | Some device =>
      let timestamp := nowIso w 0 in
      let revoke := λ device, set_d_revoked_at (Some (default timestamp (d_revoked_at device)))
                               (set_d_status DRevoked device) in
      let db := set_db_devices (update_first selected revoke (db_devices db)) db in
      let db := set_db_tokens (update_where
                  (λ token, device_token_of (d_device_id device) token && negb (otruthy (t_revoked_at token)))
                  (set_t_revoked_at (Some timestamp)) (db_tokens db)) db in
      let '(_, db) := appendEvent w 1 db EvDeviceStateChanged (v_vault_id vault)
                        [(lit "device_id", d_device_id device)]
                        [(lit "main", Some (v_current_main vault)); (lit "device_ref", d_device_ref_head device)]
                        [(lit "status", JStr (lit "revoked"))] in
      let db := push_audit w 4 (Some actorUserId) None (Some (v_vault_id vault)) "device_revoked" "device"
                  (Some (d_device_id device)) timestamp db in
      Ok ((), db)
    end) db.

(** [store.readOrMutate]: the decision and the value are taken from the current
    document; the update runs as a transaction when [shouldMutate] says so. *)
Definition readOrMutate {A} (w : World) (select : MetadataDb → result A) (shouldMutate : A → bool)
    (update : MetadataDb → result (A * MetadataDb)) (db : MetadataDb) : outcome A :=
  match select db with
  | Throw e => (Throw e, db)
  | Ok selected => if shouldMutate selected then run w update db else (Ok selected, db)
  end.

Definition select_session (now : Z) (sessionId : jstring) (db : MetadataDb) : result (UserRow * SessionRow) :=
  match find_row (has_session_id sessionId) (db_sessions db) with
  | Some session =>
    if negb (isSessionLive session now) then Throw unauthenticated else
    match find_row (has_user_id (s_user_id session)) (db_users db) with
    | Some user => if u_disabled user then Throw unauthenticated else Ok (user, session)
    | None => Throw unauthenticated
    end
  | None => Throw unauthenticated
  end.

Definition session_needs_touch (now : Z) (session : SessionRow) : bool :=
  match date_parse (s_last_seen_at session) with
  | Some lastSeen =>
    let elapsed := now - lastSeen in (SESSION_TOUCH_INTERVAL_MS <=? elapsed) || (elapsed <? 0)
  | None => true
  end.

Definition authenticateSession (w : World) (sessionId : option jstring) (touch : bool) (db : MetadataDb)
    : outcome (UserRow * SessionRow) :=
  match sessionId with
  | None | Some [] => (Throw unauthenticated, db)
  | Some sessionId =>
    if negb touch then (select_session (w_now w 0) sessionId db, db) else
    readOrMutate w (select_session (w_now w 0) sessionId)
      (λ '(_, session), session_needs_touch (w_now w 1) session)
      (λ db,
        '(user, session) ← select_session (w_now w 2) sessionId db;
        let now := w_now w 3 in
        let touched := λ session, set_s_idle_expires_at (to_iso (now + SESSION_IDLE_TTL_MS))
                                   (set_s_last_seen_at (to_iso now) session) in
        let db := set_db_sessions (update_first (has_session_id sessionId) touched (db_sessions db)) db in
        Ok ((user, touched session), db)) db
  end.

Definition logout (w : World) (sessionId : option jstring) (db : MetadataDb) : outcome unit :=
  match sessionId with
  | None | Some [] => (Ok (), db)
  | Some sessionId => run w (λ db,
      Ok ((), set_db_sessions (update_first (has_session_id sessionId)
                (set_s_revoked_at (Some (nowIso w 0))) (db_sessions db)) db)) db
  end.

(** The header is a string, a list of strings or absent. *)
Definition requireCsrf (session : SessionRow) (header : option (jstring + list jstring)) : result unit :=
  let actual := match header with
                | None => None | Some (inl s) => Some s | Some (inr l) => head l end in
  if otruthy actual && oeqb actual (Some (s_csrf_token session)) then Ok ()
  else Throw (AuthError 403 "csrf_required" "A valid CSRF token is required." []).

Definition requireRecentAuth (now : Z) (session : SessionRow) : result unit :=
  match date_parse (s_recent_auth_at session) with
  | Some t => if RECENT_AUTH_MS <? now - t
              then Throw (AuthError 403 "recent_auth_required" "Recent authentication is required." [])
              else Ok ()
  | None => Ok ()
  end.

Record AuthenticatedDevice := mk_auth_device {
  ad_user : UserRow; ad_vault : VaultRow; ad_device : DeviceRow; ad_token : TokenRow
}.

Definition device_token_hash (lookupPrefix hash : jstring) (token : TokenRow) : bool :=
  bool_decide (t_kind token = TokDevice) && (t_lookup_prefix token =s? lookupPrefix)
  && (t_token_hash token =s? hash).

(** [expectedVaultId !== null && id !== expectedVaultId]. *)
Definition unexpected_vault (expectedVaultId id : option jstring) : bool :=
  match expectedVaultId with Some v => negb (oeqb id (Some v)) | None => false end.

Definition select_device (lookupPrefix hash : jstring) (expectedVaultId : option jstring) (db : MetadataDb)
    : result AuthenticatedDevice :=
  match find_row (device_token_hash lookupPrefix hash) (db_tokens db) with
  | None => Throw not_found
  | Some row =>
    if otruthy (t_revoked_at row) || negb (otruthy (t_device_id row))
       || unexpected_vault expectedVaultId (t_vault_id row)
    then Throw not_found else
    match find_row (has_user_id (t_user_id row)) (db_users db),
          find_row (λ vault, oeqb (Some (v_vault_id vault)) (t_vault_id row)) (db_vaults db),
          find_row (λ device, oeqb (Some (d_device_id device)) (t_device_id row)) (db_devices db) with
    | Some user, Some vault, Some device =>
      if u_disabled user || bool_decide (v_status vault = VDeleting)
         || unexpected_vault expectedVaultId (Some (v_vault_id vault))
         || negb (v_owner_user_id vault =s? u_user_id user)
         || otruthy (d_revoked_at device)
         || negb (d_vault_id device =s? v_vault_id vault) || negb (d_user_id device =s? u_user_id user)
      then Throw not_found
      else Ok (mk_auth_device user vault device row)
    | _, _, _ => Throw not_found
    end
  end.

Definition device_needs_touch (now : Z) (device : DeviceRow) : bool :=
  match date_parse (default [] (d_last_seen_at device)) with
  | Some lastSeen => DEVICE_LAST_SEEN_INTERVAL_MS <=? now - lastSeen
  | None => true
  end.

Definition authenticateDeviceToken (w : World) (authorizationHeader : option jstring)
    (expectedVaultId : option jstring) (db : MetadataDb) : outcome AuthenticatedDevice :=
  match parseBearer authorizationHeader with
  | Throw e => (Throw e, db)
  | Ok token =>
    let '(lookupPrefix, hash) := hashToken token in
    readOrMutate w (select_device lookupPrefix hash expectedVaultId)
      (λ authenticated, device_needs_touch (w_now w 0) (ad_device authenticated))
      (λ db,
        authenticated ← select_device lookupPrefix hash expectedVaultId db;
        let id := d_device_id (ad_device authenticated) in
        let db := set_db_devices (update_first (λ device, d_device_id device =s? id)
                    (set_d_last_seen_at (Some (nowIso w 1))) (db_devices db)) db in
        (* [authenticated] refers to the rows of the clone, so it sees the update *)
        Ok (mk_auth_device (ad_user authenticated) (ad_vault authenticated)
              (set_d_last_seen_at (Some (nowIso w 1)) (ad_device authenticated)) (ad_token authenticated), db)) db
  end.

End auth.

(** ** Revocation and consumption are never undone

    [advances db db'] relates a document to a later one: sessions keep their
    owner, and whatever was revoked or consumed still is. *)
Definition adv_sessions (l l' : list SessionRow) : Prop :=
  ∀ sid s, find_row (has_session_id sid) l = Some s →
  ∃ s', find_row (has_session_id sid) l' = Some s' ∧ s_user_id s' = s_user_id s ∧
        (otruthy (s_revoked_at s) = true → otruthy (s_revoked_at s') = true).

Definition same_token (t t' : TokenRow) : Prop :=
  t_kind t' = t_kind t ∧ t_lookup_prefix t' = t_lookup_prefix t ∧ t_token_hash t' = t_token_hash t ∧
  t_device_id t' = t_device_id t ∧ t_user_id t' = t_user_id t ∧
  (otruthy (t_revoked_at t) = true → otruthy (t_revoked_at t') = true) ∧
  (otruthy (t_consumed_at t) = true → otruthy (t_consumed_at t') = true).

Definition adv_device_tokens (l l' : list TokenRow) : Prop :=
  ∀ t', t' ∈ l' → t_kind t' = TokDevice → ∃ t, t ∈ l ∧ same_token t t'.

Definition adv_reset_tokens (l l' : list TokenRow) : Prop :=
  ∀ prefix hash t, find_row (reset_token_of prefix hash) l = Some t →
  ∃ t', find_row (reset_token_of prefix hash) l' = Some t' ∧ same_token t t'.

Definition adv_tokens (l l' : list TokenRow) : Prop := adv_device_tokens l l' ∧ adv_reset_tokens l l'.

Definition advances (db db' : MetadataDb) : Prop :=
  adv_sessions (db_sessions db) (db_sessions db') ∧ adv_tokens (db_tokens db) (db_tokens db').

#[export] Instance same_token_preorder : PreOrder same_token.
Proof. split; [intros t; unfold same_token; naive_solver|]. intros a b c. unfold same_token. intuition congruence. Qed.

#[export] Instance adv_sessions_preorder : PreOrder adv_sessions.
Proof.
  split; [intros l sid s H; eauto|]. intros a b c Hab Hbc sid s H.
  destruct (Hab _ _ H) as (s1 & Hf1 & Hu1 & Hr1), (Hbc _ _ Hf1) as (s2 & Hf2 & Hu2 & Hr2).
  exists s2. split; [done|]. split; [congruence|auto].
Qed.

#[export] Instance adv_tokens_preorder : PreOrder adv_tokens.
Proof.
  split.
  - intros l. split; [intros t Ht _; by exists t|intros p h t H; by exists t].
  - intros a b c [Hd1 Hr1] [Hd2 Hr2]. split.
    + intros t Ht Hk. destruct (Hd2 t Ht Hk) as (t1 & Ht1 & Hs1).
      destruct (Hd1 t1 Ht1) as (t0 & Ht0 & Hs0); [destruct Hs1; congruence|].
      exists t0. split; [done|by etrans].
    + intros p h t H. destruct (Hr1 _ _ _ H) as (t1 & H1 & Hs1), (Hr2 _ _ _ H1) as (t2 & H2 & Hs2).
      exists t2. split; [done|by etrans].
Qed.

#[export] Instance advances_preorder : PreOrder advances.
Proof. split; [done|]. intros a b c [? ?] [? ?]. split; etrans; done. Qed.

(** The shapes of update the methods make. *)
Lemma adv_sessions_app l k : adv_sessions l (l ++ k).
Proof. intros sid s H. exists s. split; [by apply find_row_app|done]. Qed.

Definition session_update (g : SessionRow → SessionRow) : Prop :=
  ∀ s, s_session_id (g s) = s_session_id s ∧ s_user_id (g s) = s_user_id s ∧
       (otruthy (s_revoked_at s) = true → otruthy (s_revoked_at (g s)) = true).

Lemma adv_sessions_update_first f g l : session_update g → adv_sessions l (update_first f g l).
Proof.
  intros Hg sid s H.
  assert (∀ y, has_session_id sid (g y) = has_session_id sid y) as Hp.
  { intros y. unfold has_session_id. by destruct (Hg y) as [-> _]. }
  destruct (find_row_update_first _ f g l s Hp H) as [->|[_ ->]]; [by exists s|].
  exists (g s). destruct (Hg s) as (_ & ? & ?). done.
Qed.

Lemma adv_sessions_update_where f g l : session_update g → adv_sessions l (update_where f g l).
Proof.
  intros Hg sid s H. rewrite find_row_update_where, H by
    (intros y; unfold has_session_id; by destruct (Hg y) as [-> _]).
  cbn. destruct (f s); [|by exists s]. exists (g s). destruct (Hg s) as (_ & ? & ?). done.
Qed.

Definition token_update (g : TokenRow → TokenRow) : Prop := ∀ t, same_token t (g t).

Lemma reset_token_of_update g p h t : token_update g → reset_token_of p h (g t) = reset_token_of p h t.
Proof. intros Hg. unfold reset_token_of. by destruct (Hg t) as (-> & -> & -> & _). Qed.

Lemma adv_tokens_update_first f g l : token_update g → adv_tokens l (update_first f g l).
Proof.
  intros Hg. split.
  - intros t Ht _. apply update_first_elem in Ht as [?|(x & ? & _ & ->)]; [by exists t|by exists x].
  - intros p h t H.
    destruct (find_row_update_first _ f g l t (λ y, reset_token_of_update g p h y Hg) H) as [->|[_ ->]];
      [by exists t|by exists (g t)].
Qed.

Lemma adv_tokens_update_where f g l : token_update g → adv_tokens l (update_where f g l).
Proof.
  intros Hg. split.
  - intros t Ht _. apply update_where_elem in Ht as (x & Hx & ->). exists x. by destruct (f x).
  - intros p h t H. rewrite find_row_update_where, H by (intros; by apply reset_token_of_update).
    cbn. destruct (f t); [by exists (g t)|by exists t].
Qed.

Lemma adv_tokens_app_reset l t : t_kind t = TokPasswordReset → adv_tokens l (l ++ [t]).
Proof.
  intros Hk. split.
  - intros t' [?| ->%list_elem_of_singleton]%elem_of_app Hd; [by exists t'|congruence].
  - intros p h t' H. exists t'. split; [by apply find_row_app|done].
Qed.

Lemma session_update_revoke w i : session_update (set_s_revoked_at (Some (nowIso w i))).
Proof. intros s. cbn [s_revoked_at set_s_revoked_at]. unfold nowIso. by rewrite otruthy_to_iso. Qed.

Lemma token_update_revoke w i : token_update (set_t_revoked_at (Some (nowIso w i))).
Proof. intros t. unfold same_token. cbn [t_revoked_at set_t_revoked_at]. unfold nowIso. by rewrite otruthy_to_iso. Qed.

Lemma token_update_consume w i : token_update (set_t_consumed_at (Some (nowIso w i))).
Proof. intros t. unfold same_token. cbn [t_consumed_at set_t_consumed_at]. unfold nowIso. by rewrite otruthy_to_iso. Qed.

Create HintDb auth.
#[export] Hint Resolve session_update_revoke token_update_revoke token_update_consume
  adv_sessions_app adv_sessions_update_first adv_sessions_update_where
  adv_tokens_update_first adv_tokens_update_where adv_tokens_app_reset : auth.

(** ** The accounts stay administrable *)

Definition has_admin (db : MetadataDb) : Prop := existsb enabled_admin (db_users db) = true.

(** Before setup there is no account; afterwards an enabled administrator. *)
Definition administrable (db : MetadataDb) : Prop :=
  (db_setup_complete db = false ∧ db_users db = []) ∨ has_admin db.

(** What every method guarantees about the next document. *)
Definition sound_step (db c : MetadataDb) : Prop :=
  advances db c ∧ (administrable db → administrable c).

#[export] Instance sound_step_preorder : PreOrder sound_step.
Proof. split; [by split|]. intros a b c [? ?] [? ?]. split; [by etrans|auto]. Qed.

(** A document with the same accounts, and sessions and tokens that only advance. *)
Lemma sound_step_same_users db c :
  adv_sessions (db_sessions db) (db_sessions c) → adv_tokens (db_tokens db) (db_tokens c) →
  db_users c = db_users db → db_setup_complete c = db_setup_complete db → sound_step db c.
Proof. intros ? ? Hu Hs. split; [by split|]. unfold administrable, has_admin. by rewrite Hu, Hs. Qed.

Lemma administrable_users db users :
  existsb enabled_admin users = existsb enabled_admin (db_users db) →
  (db_users db = [] → users = []) →
  administrable db → administrable (set_db_users users db).
Proof. unfold administrable, has_admin. cbn. intros -> H [[? ?]|?]; [left; auto|by right]. Qed.

Lemma update_first_nil {A} (f : A → bool) g l : l = [] → update_first f g l = [].
Proof. by intros ->. Qed.

(** An administrator other than the one being changed is enough. *)
Lemma admin_remains db userId g :
  (∀ u, u_user_id (g u) = u_user_id u) →
  (0 < enabledAdminCount db userId)%nat →
  existsb enabled_admin (update_first (has_user_id userId) g (db_users db)) = true.
Proof.
  intros Hg Hc. unfold enabledAdminCount in Hc.
  destruct (List.filter _ (db_users db)) as [|u l] eqn:E; [simpl in Hc; lia|].
  assert (In u (u :: l)) as Hu by by left. rewrite <- E in Hu. apply filter_In in Hu as [Hu Ht].
  apply andb_true_iff in Ht as [Ha Hn]. apply existsb_exists. exists u. split; [|done].
  apply list_elem_of_In, update_first_keeps; [by apply list_elem_of_In|].
  unfold has_user_id. by apply negb_true_iff.
Qed.

(** Changing an account that is not an enabled administrator, or making one
    more so, keeps the others. *)
Lemma admin_kept db userId g target :
  find_row (has_user_id userId) (db_users db) = Some target →
  (enabled_admin target = true → enabled_admin (g target) = true) →
  has_admin db → existsb enabled_admin (update_first (has_user_id userId) g (db_users db)) = true.
Proof.
  unfold has_admin, find_row. generalize (db_users db) as l. induction l as [|u l IH]; cbn; [done|].
  destruct (has_user_id userId u) eqn:E.
  - intros [= ->] Hg. cbn. destruct (enabled_admin target) eqn:Et; cbn; [by rewrite Hg|intros ->; apply orb_true_r].
  - intros Hf Hg. cbn. destruct (enabled_admin u); [done|]. cbn. auto.
Qed.

Section methods.
Context `{D : Dates} `{C : Crypto}.

Lemma run_sound {A} w (fn : MetadataDb → result (A * MetadataDb)) db :
  (∀ a c, fn db = Ok (a, c) → sound_step db c) → sound_step db (run w fn db).2.
Proof. intros H. apply run_preserves; [|done|done]. intros c h Hc. by etrans. Qed.

Lemma recordFailedLogin_sound w i db username ip userId :
  sound_step db (recordFailedLogin w i db username ip userId).
Proof.
  unfold recordFailedLogin. destruct (find_row _ _) as [a|]; [destruct (window_over _ a)|];
    by apply sound_step_same_users.
Qed.

Lemma deny_connections_sound w i actor user db : sound_step db (deny_connections w i actor user db).
Proof.
  unfold deny_connections. generalize (List.filter (approved_by user) (db_connections db)) as l. intros l.
  transitivity (set_db_connections (update_where (approved_by user) (set_c_status CDenied) (db_connections db)) db);
    [by apply sound_step_same_users|].
  generalize (set_db_connections (update_where (approved_by user) (set_c_status CDenied) (db_connections db)) db).
  generalize (zip (seq 0 (length l)) l) as k. clear l.
  induction k as [|[j c] k IH]; intros cur; cbn [fold_left]; [done|].
  etrans; [|apply IH]. by apply sound_step_same_users.
Qed.

Lemma revokeUserAuth_sound w i user db : sound_step db (revokeUserAuth (nowIso w i) user db).
Proof. apply sound_step_same_users; cbn; auto with auth. Qed.

Lemma setupInitialAdmin_sound w u p d db : sound_step db (setupInitialAdmin w u p d db).2.
Proof.
  unfold setupInitialAdmin. destruct (_ <? _)%nat; [done|]. apply run_sound. intros a c.
  destruct (db_setup_complete db); [done|]. intros [= <- <-]. split.
  - split; cbn; auto with auth. done.
  - intros _. right. unfold has_admin. cbn. rewrite existsb_app. cbn. apply orb_true_r.
Qed.

Lemma login_sound w u p ip db : sound_step db (login w u p ip db).2.
Proof.
  assert (sound_step db (run w (login_txn w u p (default (lit "unknown") ip)) db).2) as H.
  { apply run_sound. intros a c Ht. unfold login_txn in Ht.
    apply bind_Ok in Ht as (_ & _ & Ht). destruct (find_row _ _) as [user|]; [|inv_ok; apply recordFailedLogin_sound].
    destruct (u_disabled user || _); inv_ok; [apply recordFailedLogin_sound|]. split.
    - split; cbn; auto with auth. done.
    - intros Hadm. apply (administrable_users db); [|apply update_first_nil|done].
      by apply update_first_existsb. }
  unfold login. by destruct (run _ _ db) as [[[g|]|e] db'].
Qed.

Lemma reauthenticate_sound w sid u p ip db : sound_step db (reauthenticateSession w sid u p ip db).2.
Proof.
  unfold reauthenticateSession. destruct sid as [[|x sid]|]; [done| |done]. apply run_sound. intros a c Ht.
  apply bind_Ok in Ht as (_ & _ & Ht). destruct (find_row _ _) as [s|]; [|done].
  destruct (negb _); [done|]. destruct (find_row _ _) as [user|]; [|done].
  destruct (u_disabled user || _ || _); [done|]. inv_ok. split.
  - split; cbn; [|done]. apply adv_sessions_update_first. by intros s'.
  - intros Hadm. apply (administrable_users db); [|apply update_first_nil|done].
    by apply update_first_existsb.
Qed.

Lemma createUser_sound w actor u p d adm db : sound_step db (createUser w actor u p d adm db).2.
Proof.
  unfold createUser. destruct (_ <? _)%nat; [done|]. apply run_sound. intros a c Ht.
  apply bind_Ok in Ht as (act & Ha & Ht). destruct (existsb _ _); [done|]. inv_ok.
  split; [by split|]. intros Hadm. right. unfold has_admin. cbn. rewrite existsb_app.
  assert (existsb enabled_admin (db_users db) = true) as ->; [|done].
  destruct Hadm as [[_ Hu]|?]; [|done]. unfold requireAdmin in Ha. by rewrite Hu in Ha.
Qed.

Lemma requireAdmin_users db actor a : requireAdmin db actor = Ok a → db_users db ≠ [].
Proof. unfold requireAdmin. intros H E. by rewrite E in H. Qed.

Lemma find_user_id db id u : find_row (has_user_id id) (db_users db) = Some u → u_user_id u = id.
Proof. intros [_ H]%find_row_Some. by apply jeqb_eq in H. Qed.

Lemma requireUser_Ok db id u : requireUser db id = Ok u → find_row (has_user_id id) (db_users db) = Some u ∧ u_user_id u = id.
Proof.
  unfold requireUser. destruct (find_row _ _) as [v|] eqn:E; [|done]. intros [= <-].
  split; [done|]. by eapply find_user_id.
Qed.

(** Demoting or disabling: the guard leaves another administrator. *)
Lemma guarded_change_administrable db id target g (guard : bool) :
  (∀ u, u_user_id (g u) = u_user_id u) → db_users db ≠ [] →
  find_row (has_user_id id) (db_users db) = Some target → u_user_id target = id →
  guard && u_is_admin target && (enabledAdminCount db (u_user_id target) =? 0)%nat = false →
  (guard = false → enabled_admin target = true → enabled_admin (g target) = true) →
  administrable db →
  existsb enabled_admin (update_first (has_user_id id) g (db_users db)) = true.
Proof.
  intros Hg Hne Hf Hid Hguard Hkeep [[_ ?]|Hadm]; [done|].
  destruct guard; [|by eapply admin_kept; eauto].
  destruct (u_is_admin target) eqn:Ea; cbn in Hguard.
  - apply Nat.eqb_neq in Hguard. rewrite Hid in Hguard. apply admin_remains; [done|lia].
  - eapply admin_kept; [done| |done]. unfold enabled_admin. by rewrite Ea.
Qed.

Lemma setUserDisabled_sound w actor target b db : sound_step db (setUserDisabled w actor target b db).2.
Proof.
  unfold setUserDisabled. apply run_sound. intros a c Ht.
  apply bind_Ok in Ht as (act & Ha & Ht). apply bind_Ok in Ht as (u & Hu & Ht).
  destruct (b && _ && _) eqn:Eg; [done|]. inv_ok.
  apply requireUser_Ok in Hu as [Hf Hid]. apply requireAdmin_users in Ha.
  assert (sound_step db (set_db_users (update_first (has_user_id target) (set_u_disabled b) (db_users db)) db)) as H1.
  { split; [by split|]. intros Hadm. right.
    apply (guarded_change_administrable db target u (set_u_disabled b) b); try done.
    intros ->. unfold enabled_admin. cbn. by destruct (u_is_admin u). }
  etrans; [apply H1|]. etrans; [|by apply sound_step_same_users].
  destruct b; [|done]. etrans; [|apply deny_connections_sound]. apply revokeUserAuth_sound.
Qed.

Lemma setUserAdmin_sound w actor target b db : sound_step db (setUserAdmin w actor target b db).2.
Proof.
  unfold setUserAdmin. apply run_sound. intros a c Ht.
  apply bind_Ok in Ht as (act & Ha & Ht). apply bind_Ok in Ht as (u & Hu & Ht).
  destruct (negb b && _ && _) eqn:Eg; [done|]. inv_ok.
  apply requireUser_Ok in Hu as [Hf Hid]. apply requireAdmin_users in Ha.
  split; [by split|]. intros Hadm. right.
  eapply (guarded_change_administrable db target u (set_u_is_admin b) (negb b)); try done.
  destruct b; [|done]. intros _. unfold enabled_admin. cbn. by intros [_ ->]%andb_true_iff.
Qed.

Lemma createPasswordResetToken_sound w actor target db :
  sound_step db (createPasswordResetToken w actor target db).2.
Proof.
  unfold createPasswordResetToken. destruct (hashToken _) as [prefix hash]. apply run_sound. intros a c Ht.
  apply bind_Ok in Ht as (act & Ha & Ht). apply bind_Ok in Ht as (u & Hu & Ht). inv_ok.
  apply sound_step_same_users; try done. cbn.
  etrans; [|by apply adv_tokens_app_reset]. auto with auth.
Qed.

Lemma resetPassword_sound w tok pw db : sound_step db (resetPassword w tok pw db).2.
Proof.
  unfold resetPassword. destruct (_ <? _)%nat; [done|]. destruct (hashToken _) as [prefix hash].
  apply run_sound. intros a c Ht. destruct (find_row _ _) as [t|]; [|done].
  destruct (reset_token_invalid _ t); [done|]. apply bind_Ok in Ht as (u & Hu & Ht). inv_ok. split.
  - split; cbn; auto with auth.
  - intros Hadm. apply (administrable_users db); [|apply update_first_nil|done].
    by apply update_first_existsb.
Qed.

Lemma renameVault_sound w a v n db : sound_step db (renameVault w a v n db).2.
Proof.
  unfold renameVault. apply run_sound. intros r c Ht. apply bind_Ok in Ht as (x & _ & Ht).
  destruct (_ =s? n); inv_ok; by apply sound_step_same_users.
Qed.

Lemma renameDevice_sound w a ad v d n db : sound_step db (renameDevice w a ad v d n db).2.
Proof.
  unfold renameDevice. apply run_sound. intros r c Ht. apply bind_Ok in Ht as (x & _ & Ht).
  destruct (find_row _ _) as [y|]; [|done]. destruct (_ =s? n); inv_ok; by apply sound_step_same_users.
Qed.

Lemma revokeDevice_sound w a v d db : sound_step db (revokeDevice w a v d db).2.
Proof.
  unfold revokeDevice. apply run_sound. intros r c Ht. apply bind_Ok in Ht as (x & _ & Ht).
  destruct (find_row _ _) as [y|]; [|done]. unfold appendEvent in Ht. inv_ok.
  apply sound_step_same_users; cbn; auto with auth; done.
Qed.

Lemma authenticateSession_sound w sid touch db : sound_step db (authenticateSession w sid touch db).2.
Proof.
  unfold authenticateSession. destruct sid as [[|x sid]|]; [done| |done]. destruct touch; [|done]. cbn [negb].
  unfold readOrMutate. destruct (select_session _ _ db) as [[u s]|]; [|done].
  destruct (session_needs_touch _ s); [|done]. apply run_sound. intros r c Ht.
  apply bind_Ok in Ht as ([u' s'] & _ & Ht). inv_ok. apply sound_step_same_users; cbn; try done.
  apply adv_sessions_update_first. by intros ?.
Qed.

Lemma logout_sound w sid db : sound_step db (logout w sid db).2.
Proof.
  unfold logout. destruct sid as [[|x sid]|]; [done| |done]. apply run_sound. intros r c [= <- <-].
  apply sound_step_same_users; cbn; auto with auth. done.
Qed.

Lemma authenticateDeviceToken_sound w h v db : sound_step db (authenticateDeviceToken w h v db).2.
Proof.
  unfold authenticateDeviceToken. destruct (parseBearer h) as [t|]; [|done].
  destruct (hashToken t) as [p hs]. unfold readOrMutate. destruct (select_device _ _ _ db); [|done].
  destruct (device_needs_touch _ _); [|done]. apply run_sound. intros r c Ht.
  apply bind_Ok in Ht as (x & _ & Ht). inv_ok. by apply sound_step_same_users.
Qed.

(** One call of any method of the service. *)
Inductive auth_step (db : MetadataDb) : MetadataDb → Prop :=
| st_setup w u p d : auth_step db (setupInitialAdmin w u p d db).2
| st_login w u p ip : auth_step db (login w u p ip db).2
| st_reauthenticate w sid u p ip : auth_step db (reauthenticateSession w sid u p ip db).2
| st_create_user w actor u p d adm : auth_step db (createUser w actor u p d adm db).2
| st_set_disabled w actor target b : auth_step db (setUserDisabled w actor target b db).2
| st_set_admin w actor target b : auth_step db (setUserAdmin w actor target b db).2
| st_create_reset w actor target : auth_step db (createPasswordResetToken w actor target db).2
| st_reset w tok pw : auth_step db (resetPassword w tok pw db).2
| st_rename_vault w a v n : auth_step db (renameVault w a v n db).2
| st_rename_device w a ad v d n : auth_step db (renameDevice w a ad v d n db).2
| st_revoke_device w a v d : auth_step db (revokeDevice w a v d db).2
| st_auth_session w sid touch : auth_step db (authenticateSession w sid touch db).2
| st_logout w sid : auth_step db (logout w sid db).2
| st_auth_device w h v : auth_step db (authenticateDeviceToken w h v db).2.

#[local] Hint Resolve setupInitialAdmin_sound login_sound reauthenticate_sound createUser_sound
  setUserDisabled_sound setUserAdmin_sound createPasswordResetToken_sound resetPassword_sound
  renameVault_sound renameDevice_sound revokeDevice_sound authenticateSession_sound logout_sound
  authenticateDeviceToken_sound : auth.

Lemma auth_step_sound db db' : auth_step db db' → sound_step db db'.
Proof. destruct 1; auto with auth. Qed.

Lemma auth_steps_sound db db' : rtc auth_step db db' → sound_step db db'.
Proof. induction 1; [done|]. etrans; [by apply auth_step_sound|done]. Qed.

End methods.

(** ** Failed logins *)

(** The least time between the first failure of a window and the [n]-th, as the
    locks of failures 5, 6 and 7 (one, two and four minutes) force it. *)
Definition lock_debt (n : Z) : Z :=
  if n <=? 5 then 0 else if n =? 6 then 60000 else if n =? 7 then 180000 else 420000.

Definition clock_range (t : Z) : Prop := 0 <= t <= 8640000000000000 - LOGIN_BACKOFF_MAX_MS.

Lemma clock_range_date t d : clock_range t → 0 <= d <= LOGIN_BACKOFF_MAX_MS → in_date_range (t + d).
Proof. unfold clock_range, in_date_range. lia. Qed.

(** An attempt row as the code writes it, at time [now] or before. *)
Definition attempt_ok (now : Z) (a : LoginAttemptRow) : Prop :=
  ∃ t0 last, clock_range t0 ∧ clock_range last ∧ t0 <= last <= now
  ∧ la_window_started_at a = to_iso t0 ∧ la_last_failed_at a = to_iso last
  ∧ 1 <= la_failed_count a <= 8 ∧ t0 + lock_debt (la_failed_count a) <= last
  ∧ last <= t0 + LOGIN_FAILURE_WINDOW_MS
  ∧ la_locked_until a = if LOGIN_FAILURE_LIMIT <=? la_failed_count a
                        then Some (to_iso (last + backoff_ms (la_failed_count a))) else None.

Lemma backoff_small n : 5 <= n <= 8 →
  backoff_ms n = if n =? 5 then 60000 else if n =? 6 then 120000 else if n =? 7 then 240000 else 480000.
Proof. intros H. assert (n = 5 ∨ n = 6 ∨ n = 7 ∨ n = 8) as [->|[->|[->| ->]]] by lia; reflexivity. Qed.

Section failures.
Context `{D : Dates} `{DO : !DatesOk D} `{C : Crypto}.

Lemma date_parse_to_iso t d : clock_range t → 0 <= d <= LOGIN_BACKOFF_MAX_MS →
  date_parse (to_iso (t + d)) = Some (t + d).
Proof. intros. by apply date_parse_iso, clock_range_date. Qed.

Lemma date_parse_to_iso0 t : clock_range t → date_parse (to_iso t) = Some t.
Proof. intros Ht. rewrite <- (Z.add_0_r t). by apply date_parse_to_iso. Qed.

(** A first failure, and one more failure after a wait the lock allowed. *)
Lemma attempt_ok_fresh username ip now :
  clock_range now →
  attempt_ok now (count_failure now (mk_LoginAttemptRow username ip 0 (to_iso now) (to_iso now) None (to_iso now))).
Proof.
  intros Hn. exists now, now. cbn. change (lock_debt (0 + 1)) with 0.
  unfold LOGIN_FAILURE_WINDOW_MS. split_and!; try done; lia.
Qed.

Lemma attempt_ok_again past now0 now a :
  attempt_ok past a → past <= now0 <= now → clock_range now0 → clock_range now →
  (∀ until, la_locked_until a = Some until → parsed_gt until now0 = false) →
  window_over now a = false → attempt_ok now (count_failure now a).
Proof.
  intros (t0 & last & Ht0 & Hlast & Hle & Hw & Hl & Hc & Hdebt & Hwin & Hlock) Hnow Hr0 Hr Hfree Hover.
  unfold window_over in Hover. rewrite Hw, date_parse_to_iso0 in Hover by done.
  apply Z.ltb_ge in Hover.
  assert (LOGIN_FAILURE_LIMIT <= la_failed_count a → last + backoff_ms (la_failed_count a) <= now) as Hwait.
  { intros H5. rewrite (proj2 (Z.leb_le _ _) H5) in Hlock. specialize (Hfree _ Hlock).
    unfold LOGIN_FAILURE_LIMIT in H5. pose proof (backoff_small (la_failed_count a) ltac:(lia)) as Hb.
    unfold parsed_gt in Hfree. rewrite date_parse_to_iso in Hfree; [apply Z.ltb_ge in Hfree; lia|done|].
    rewrite Hb. unfold LOGIN_BACKOFF_MAX_MS. repeat case_match; lia. }
  unfold LOGIN_FAILURE_LIMIT in Hwait. set (n := la_failed_count a) in *.
  assert (n <= 7 ∧ t0 + lock_debt (n + 1) <= now) as [Hn Hd].
  { unfold LOGIN_FAILURE_WINDOW_MS in *.
    assert (n <= 4 ∨ n = 5 ∨ n = 6 ∨ n = 7 ∨ n = 8) as [H|[H|[H|[H|H]]]] by lia;
      [unfold lock_debt; rewrite (proj2 (Z.leb_le (n + 1) 5)) by lia; lia|..];
      specialize (Hwait ltac:(lia)); rewrite H in *.
    - change (backoff_ms 5) with 60000 in Hwait. change (lock_debt (5 + 1)) with 60000.
      change (lock_debt 5) with 0 in Hdebt. lia.
    - change (backoff_ms 6) with 120000 in Hwait. change (lock_debt (6 + 1)) with 180000.
      change (lock_debt 6) with 60000 in Hdebt. lia.
    - change (backoff_ms 7) with 240000 in Hwait. change (lock_debt (7 + 1)) with 420000.
      change (lock_debt 7) with 180000 in Hdebt. lia.
    - change (backoff_ms 8) with 480000 in Hwait.
      change (lock_debt 8) with 420000 in Hdebt. lia. }
  exists t0, now. cbn. fold n. split_and!; try done; try lia.
  rewrite Hlock. destruct (Z.leb_spec LOGIN_FAILURE_LIMIT n), (Z.leb_spec LOGIN_FAILURE_LIMIT (n + 1));
    try done; lia.
Qed.

Lemma attempt_ok_later past now a : past <= now → attempt_ok past a → attempt_ok now a.
Proof. intros ? (t0 & last & H). exists t0, last. intuition lia. Qed.

(** Runs of the service up to a time, as the login failures see them: logins at
    non-decreasing clock readings, and anything that adds no attempt. *)
Inductive login_history : Z → MetadataDb → Prop :=
| lh_start now db : db_login_attempts db = [] → login_history now db
| lh_login past db w username password ip now :
    login_history past db → past <= w_now w 0 → w_now w 0 <= w_now w 1 → w_now w 1 <= now →
    clock_range (w_now w 0) → clock_range (w_now w 1) →
    login_history now (login w username password ip db).2
| lh_other past db now db' :
    login_history past db → past <= now →
    (∀ a, a ∈ db_login_attempts db' → a ∈ db_login_attempts db) → login_history now db'.

Lemma recordFailedLogin_attempts past w i db username ip user a now0 :
  (∀ a, a ∈ db_login_attempts db → attempt_ok past a) →
  past <= now0 <= w_now w i → clock_range now0 → clock_range (w_now w i) →
  enforceLoginBackoff now0 db username ip = Ok () →
  a ∈ db_login_attempts (recordFailedLogin w i db username ip user) → attempt_ok (w_now w i) a.
Proof.
  intros Hall Hnow Hr0 Hr Hfree Ha.
  set (restart := List.filter (λ c, negb (is_attempt username ip c)) (db_login_attempts db)
     ++ [count_failure (w_now w i) (mk_LoginAttemptRow username ip 0 (to_iso (w_now w i))
           (to_iso (w_now w i)) None (to_iso (w_now w i)))]).
  assert (a ∈ restart → attempt_ok (w_now w i) a) as Hrestart.
  { intros [Hf%filter_elem| ->%list_elem_of_singleton]%elem_of_app; [|by apply attempt_ok_fresh].
    destruct Hf as [Hf _]. eapply attempt_ok_later; [|by apply Hall]. lia. }
  unfold recordFailedLogin in Ha. cbn in Ha. unfold enforceLoginBackoff in Hfree.
  destruct (find_row (is_attempt username ip) (db_login_attempts db)) as [b|] eqn:Ef; [|by apply Hrestart].
  destruct (window_over (w_now w i) b) eqn:Eo; [by apply Hrestart|].
  apply update_first_elem_first in Ha as [Ha|(x & Hx & ->)].
  - eapply attempt_ok_later; [|by apply Hall]. lia.
  - rewrite Hx in Ef. injection Ef as ->. apply find_row_Some in Hx as [Hx _].
    apply (attempt_ok_again past now0); [by apply Hall|done|done|done| |done].
    intros lock Hu. rewrite Hu in Hfree. destruct lock as [|c s]; [|by destruct (parsed_gt _ _)].
    destruct (Hall b Hx) as (t0 & last & _ & _ & _ & _ & _ & _ & _ & _ & Hlock).
    rewrite Hu in Hlock. destruct (_ <=? _) in Hlock; [|done].
    injection Hlock as Hlock. symmetry in Hlock. by apply to_iso_nonempty in Hlock.
Qed.

Lemma login_history_ok now db a :
  login_history now db → a ∈ db_login_attempts db → attempt_ok now a.
Proof.
  intros Hh. revert a. induction Hh as [now db Hnil|past db w u p ip now Hh IH H1 H2 H3 Hr0 Hr1|past db now db' Hh IH Hle Hsub]; intros a Ha.
  - rewrite Hnil in Ha. by apply not_elem_of_nil in Ha.
  - assert (∀ o : outcome (option SessionGrant),
      o = run w (login_txn w u p (default (lit "unknown") ip)) db →
      a ∈ db_login_attempts o.2 → attempt_ok now a) as Hgoal.
    { intros o ->. destruct (run_cases w (login_txn w u p (default (lit "unknown") ip)) db)
        as [(e & _ & ->)|(r & c & h & Hf & ->)]; cbn [snd].
      - intros ?. eapply attempt_ok_later; [|by apply IH]. lia.
      - intros Hc. change (a ∈ db_login_attempts c) in Hc. unfold login_txn in Hf.
        apply bind_Ok in Hf as ([] & Hfree & Hf). eapply attempt_ok_later; [exact H3|].
        assert (∀ user, a ∈ db_login_attempts (recordFailedLogin w 1 db u (default (lit "unknown") ip) user) →
                attempt_ok (w_now w 1) a) as Hrec.
        { intros user. eapply recordFailedLogin_attempts; eauto. }
        destruct (find_row _ (db_users db)) as [user|]; [|inv_ok; by eapply Hrec].
        destruct (u_disabled user || _); inv_ok; [by eapply Hrec|].
        apply filter_elem in Hc as [Hc _]. eapply attempt_ok_later; [|by apply IH]. lia. }
    apply (Hgoal _ eq_refl). unfold login in Ha.
    by destruct (run w (login_txn w u p (default (lit "unknown") ip)) db) as [[[g|]|e] db1].
  - eapply attempt_ok_later; eauto.
Qed.

End failures.

(** ** Consequences for authentication *)

Section consequences.
Context `{D : Dates} `{C : Crypto}.

Definition session_revoked (sid : jstring) (db : MetadataDb) : Prop :=
  ∃ s, find_row (has_session_id sid) (db_sessions db) = Some s ∧ otruthy (s_revoked_at s) = true.

Lemma session_revoked_advances sid db db' :
  advances db db' → session_revoked sid db → session_revoked sid db'.
Proof. intros [Hs _] (s & Hf & Hr). destruct (Hs _ _ Hf) as (s' & ? & _ & ?). exists s'. auto. Qed.

Lemma session_revoked_rejected w sid touch db :
  session_revoked sid db → authenticateSession w (Some sid) touch db = (Throw unauthenticated, db).
Proof.
  intros (s & Hf & Hr). unfold authenticateSession. destruct sid as [|c sid]; [done|].
  assert (∀ now, select_session now (c :: sid) db = Throw unauthenticated) as Hsel.
  { intros now. unfold select_session, isSessionLive. by rewrite Hf, Hr. }
  unfold readOrMutate. rewrite Hsel. by destruct touch.
Qed.

Lemma session_revoked_committed sid h db :
  session_revoked sid db → session_revoked sid (committed h db).
Proof. done. Qed.

(** [deny_connections] changes neither sessions nor tokens. *)
Lemma deny_connections_frame w i actor user db :
  db_sessions (deny_connections w i actor user db) = db_sessions db ∧
  db_tokens (deny_connections w i actor user db) = db_tokens db.
Proof.
  unfold deny_connections. generalize (List.filter (approved_by user) (db_connections db)) as l. intros l.
  set (start := set_db_connections _ db).
  change (db_sessions db) with (db_sessions start). change (db_tokens db) with (db_tokens start).
  generalize (zip (seq 0 (length l)) l) as k. generalize start. clear.
  intros cur k. revert cur. induction k as [|[j c] k IH]; intros cur; cbn [fold_left]; [done|].
  destruct (IH (push_audit w (i + 2 * j) (Some actor) None (c_selected_vault_id c)
    "connection_revoked_user_disabled" "connection" (Some (c_connection_id c)) (nowIso w (i + 2 * j + 1)) cur)) as [-> ->].
  done.
Qed.

(** Disabling an account revokes its sessions and tokens. *)
Lemma setUserDisabled_revokes w actor target db r db1 :
  setUserDisabled w actor target true db = (Ok r, db1) →
  (∀ sid s, find_row (has_session_id sid) (db_sessions db) = Some s → s_user_id s = target →
            session_revoked sid db1) ∧
  (∀ t, t ∈ db_tokens db1 → t_user_id t = target → otruthy (t_revoked_at t) = true).
Proof.
  unfold setUserDisabled. intros H.
  match type of H with run w ?fn db = _ =>
    destruct (run_cases w fn db) as [(e & _ & Hr)|(a & c & h & Hf & Hr)] end; rewrite Hr in H; [done|].
  injection H as _ <-. clear Hr.
  apply bind_Ok in Hf as (act & _ & Hf). apply bind_Ok in Hf as (u & Hu & Hf).
  apply requireUser_Ok in Hu as [_ Hid]. destruct (true && _ && _); [done|]. inv_ok.
  set (db1 := revokeUserAuth _ _ _).
  destruct (deny_connections_frame w 10 (u_user_id act) (u_user_id u) db1) as [Hs Ht]. split.
  - intros sid s Hf Hown. unfold session_revoked. cbn -[deny_connections]. rewrite Hs. subst db1. cbn.
    rewrite find_row_update_where, Hf by done. cbn. eexists. split; [done|].
    destruct (otruthy (s_revoked_at s)) eqn:Er; cbn.
    + by rewrite andb_false_r.
    + rewrite (proj2 (jeqb_eq _ _) Hown). cbn. apply otruthy_to_iso.
  - intros t Hin Hown. cbn -[deny_connections] in Hin. rewrite Ht in Hin. subst db1. cbn in Hin.
    apply update_where_elem in Hin as (x & _ & ->).
    destruct (t_user_id x =s? u_user_id u) eqn:Eu; cbn in Hown |- *.
    + destruct (otruthy (t_revoked_at x)) eqn:Er; cbn; [done|apply otruthy_to_iso].
    + rewrite Hown in Eu. by rewrite jeqb_refl in Eu.
Qed.

(** What a successful device authentication says about the document. *)
Lemma select_device_Ok p h v db x :
  select_device p h v db = Ok x →
  ad_token x ∈ db_tokens db ∧ t_kind (ad_token x) = TokDevice
  ∧ (t_lookup_prefix (ad_token x), t_token_hash (ad_token x)) = (p, h)
  ∧ otruthy (t_revoked_at (ad_token x)) = false
  ∧ ad_user x ∈ db_users db ∧ u_user_id (ad_user x) = t_user_id (ad_token x) ∧ u_disabled (ad_user x) = false
  ∧ ad_vault x ∈ db_vaults db ∧ v_status (ad_vault x) ≠ VDeleting
  ∧ Some (v_vault_id (ad_vault x)) = t_vault_id (ad_token x)
  ∧ v_owner_user_id (ad_vault x) = u_user_id (ad_user x)
  ∧ ad_device x ∈ db_devices db ∧ Some (d_device_id (ad_device x)) = t_device_id (ad_token x)
  ∧ otruthy (d_revoked_at (ad_device x)) = false
  ∧ d_vault_id (ad_device x) = v_vault_id (ad_vault x) ∧ d_user_id (ad_device x) = u_user_id (ad_user x)
  ∧ (∀ vault, v = Some vault → v_vault_id (ad_vault x) = vault).
Proof.
  assert (∀ a b, oeqb a b = true → a = b) as Ho.
  { intros [a|] [b|]; cbn; try done. by intros ->%jeqb_eq. }
  unfold select_device. destruct (find_row (device_token_hash p h) _) as [t|] eqn:Et; [|done].
  destruct (otruthy (t_revoked_at t) || _ || _) eqn:E1; [done|].
  destruct (find_row (has_user_id _) _) as [u|] eqn:Eu; [|done].
  destruct (find_row _ (db_vaults db)) as [vt|] eqn:Ev; [|done].
  destruct (find_row _ (db_devices db)) as [d|] eqn:Ed; [|done].
  destruct (u_disabled u || _ || _ || _ || _ || _ || _) eqn:E2; [done|]. intros [= <-]. cbn.
  split_tests.
  apply find_row_Some in Et as [Et1 Et2], Eu as [Eu1 Eu2], Ev as [Ev1 Ev2], Ed as [Ed1 Ed2].
  unfold device_token_hash, has_user_id in *. split_tests. apply Ho in Ev2, Ed2.
  repeat match goal with H : bool_decide _ = _ |- _ => first [apply bool_decide_eq_true in H|apply bool_decide_eq_false in H] end.
  split_and!; try done; [by f_equal|]. intros vault ->. cbn in *. split_tests. done.
Qed.

(** The row found by a successful authentication, before or after the touch. *)
Lemma authenticateDeviceToken_selected w header vault db x db' :
  authenticateDeviceToken w header vault db = (Ok x, db') →
  ∃ token y, parseBearer header = Ok token ∧ select_device (hashToken token).1 (hashToken token).2 vault db = Ok y ∧ ad_user x = ad_user y ∧ ad_vault x = ad_vault y ∧
           ad_token x = ad_token y ∧ d_device_id (ad_device x) = d_device_id (ad_device y).
Proof.
  unfold authenticateDeviceToken. destruct (parseBearer header) as [tok|]; [|done].
  rewrite (surjective_pairing (hashToken tok)). unfold readOrMutate.
  destruct (select_device _ _ vault db) as [y|] eqn:Es; [|done].
  destruct (device_needs_touch _ _); [|intros [= <- _]; exists tok, y; done]. intros H.
  match type of H with run w ?fn db = _ =>
    destruct (run_cases w fn db) as [(e & _ & Hr)|(a & c & k & Hf & Hr)] end; rewrite Hr in H; [done|].
  injection H as <- <-. rewrite Es in Hf. cbn in Hf. injection Hf as <- _.
  exists tok, y. done.
Qed.

(** Tokens that are all revoked stay unusable. *)
Lemma revoked_tokens_rejected (P : TokenRow → Prop) w header vault db1 db2 x db3 :
  (∀ t t', same_token t t' → P t' → P t) →
  (∀ t, t ∈ db_tokens db1 → t_kind t = TokDevice → P t → otruthy (t_revoked_at t) = true) →
  advances db1 db2 → authenticateDeviceToken w header vault db2 = (Ok x, db3) → ¬ P (ad_token x).
Proof.
  intros HP Hall [_ [Hadv _]] (token & y & _ & Hsel & _ & _ & -> & _)%authenticateDeviceToken_selected Hp.
  apply select_device_Ok in Hsel as (Hin & Hk & _ & Hrev & _).
  destruct (Hadv _ Hin Hk) as (t & Ht & Hs). pose proof (HP _ _ Hs Hp) as Hpt.
  destruct Hs as (Hk' & _ & _ & _ & _ & Hmono & _).
  rewrite (Hmono (Hall t Ht ltac:(congruence) Hpt)) in Hrev. done.
Qed.

Lemma revokeDevice_revokes w actor vault device db db1 :
  revokeDevice w actor vault device db = (Ok (), db1) →
  ∀ t, t ∈ db_tokens db1 → t_kind t = TokDevice → t_device_id t = Some device →
       otruthy (t_revoked_at t) = true.
Proof.
  unfold revokeDevice. intros H.
  match type of H with run w ?fn db = _ =>
    destruct (run_cases w fn db) as [(e & _ & Hr)|(a & c & h & Hf & Hr)] end; rewrite Hr in H; [done|].
  injection H as _ <-. clear Hr. apply bind_Ok in Hf as (v & _ & Hf).
  destruct (find_row _ _) as [d|] eqn:Ed; [|done]. unfold appendEvent in Hf. inv_ok.
  apply find_row_Some in Ed as [_ Ed]. unfold owned_device in Ed. split_tests.
  intros t Hin Hk Hd. cbn in Hin. apply update_where_elem in Hin as (x & _ & ->).
  destruct (device_token_of _ x) eqn:Ex; cbn in *.
  - destruct (otruthy (t_revoked_at x)) eqn:Er; cbn; [done|apply otruthy_to_iso].
  - unfold device_token_of in Ex. rewrite bool_decide_eq_true_2, Hd in Ex by done.
    cbn in Ex. split_tests. congruence.
Qed.

Lemma resetPassword_consumes w tok pw db db1 :
  resetPassword w tok pw db = (Ok (), db1) →
  ∃ t, find_row (reset_token_of (hashToken tok).1 (hashToken tok).2) (db_tokens db1) = Some t
       ∧ otruthy (t_consumed_at t) = true.
Proof.
  unfold resetPassword. destruct (_ <? _)%nat; [done|]. destruct (hashToken tok) as [p hs]. intros H.
  match type of H with run w ?fn db = _ =>
    destruct (run_cases w fn db) as [(e & _ & Hr)|(a & c & h & Hf & Hr)] end; rewrite Hr in H; [done|].
  injection H as _ <-. clear Hr. destruct (find_row _ _) as [t|] eqn:Et; [|done].
  destruct (reset_token_invalid _ t); [done|]. apply bind_Ok in Hf as (u & _ & Hf). inv_ok.
  exists (set_t_consumed_at (Some (nowIso w 2)) t). split; [|apply otruthy_to_iso]. cbn.
  by apply find_row_update_first_self.
Qed.

End consequences.

Section properties.
Context `{D : Dates} `{C : Crypto}.

(** [C21] From the empty document, after any sequence of calls of the service
    (setup, logins, account changes, resets, revocations, ...), once setup is
    complete some account is an enabled administrator. *)
Theorem final_administrator_kept db :
  rtc auth_step createEmptyDb db → db_setup_complete db = true →
  ∃ u, u ∈ db_users db ∧ u_is_admin u = true ∧ u_disabled u = false.
Proof.
  intros Hr Hs. apply auth_steps_sound in Hr as [_ Hadm].
  destruct (Hadm ltac:(by left)) as [[H _]|H]; [congruence|].
  apply existsb_exists in H as (u & Hin & Hu). exists u. unfold enabled_admin in Hu. split_tests.
  by rewrite list_elem_of_In.
Qed.

(** Once an account is disabled, no session it had is accepted again and no
    device token it had authenticates again, whatever calls of the service
    follow (also after the account is enabled again). *)
Theorem disabled_account_locked_out w actor (target : jstring) db r db1 db2 :
  setUserDisabled w actor target true db = (Ok r, db1) → rtc auth_step db1 db2 →
  (∀ (sid : jstring) s, find_row (has_session_id sid) (db_sessions db) = Some s → s_user_id s = target →
     ∀ w' touch, authenticateSession w' (Some sid) touch db2 = (Throw unauthenticated, db2)) ∧
  (∀ w' header vault x db3, authenticateDeviceToken w' header vault db2 = (Ok x, db3) →
     u_user_id (ad_user x) ≠ target).
Proof.
  intros Hd [Hadv _]%auth_steps_sound. apply setUserDisabled_revokes in Hd as [Hs Ht]. split.
  - intros sid s Hf Ho w' touch. apply session_revoked_rejected.
    eapply session_revoked_advances; eauto.
  - intros w' header vault x db3 Hx Hu.
    apply (revoked_tokens_rejected (λ t, t_user_id t = target) w' header vault db1 db2 x db3); try done.
    + intros t t' (_ & _ & _ & _ & <- & _). done.
    + intros t Hin _. auto.
    + apply authenticateDeviceToken_selected in Hx as (token & y & _ & Hsel & Eu & _ & -> & _).
      apply select_device_Ok in Hsel as (_ & _ & _ & _ & _ & Hid & _). congruence.
Qed.

(** [C22] After a device is revoked no token authenticates as it again, whatever
    calls of the service follow. *)
Theorem revoked_device_locked_out w actor vault (device : jstring) db db1 db2 :
  revokeDevice w actor vault device db = (Ok (), db1) → rtc auth_step db1 db2 →
  ∀ w' header vault' x db3, authenticateDeviceToken w' header vault' db2 = (Ok x, db3) →
    d_device_id (ad_device x) ≠ device.
Proof.
  intros Hd [Hadv _]%auth_steps_sound w' header vault' x db3 Hx Hdev.
  apply (revoked_tokens_rejected (λ t, t_device_id t = Some device) w' header vault' db1 db2 x db3); try done.
  - intros t t' (_ & _ & _ & <- & _). done.
  - intros t Hin Hk Ht. eapply revokeDevice_revokes; eauto.
  - apply authenticateDeviceToken_selected in Hx as (token & y & _ & Hsel & _ & _ & -> & Ed).
    apply select_device_Ok in Hsel as (_ & _ & _ & _ & _ & _ & _ & _ & _ & _ & _ & _ & Hid & _). congruence.
Qed.

(** [C24] A password reset token works once: after it has been used, every later
    use is refused, whatever calls of the service happen in between. *)
Theorem reset_token_single_use w (token password : jstring) db db1 db2 :
  resetPassword w token password db = (Ok (), db1) → rtc auth_step db1 db2 →
  ∀ w' password', resetPassword w' token password' db2 =
    (Throw (if (length password' <? 12)%nat then weak_password else invalid_reset_token), db2).
Proof.
  intros Hd [[_ [_ Hadv]] _]%auth_steps_sound w' pw'.
  apply resetPassword_consumes in Hd as (t & Hf & Hc).
  destruct (Hadv _ _ _ Hf) as (t' & Hf' & Hs). destruct Hs as (_ & _ & _ & _ & _ & _ & Hmono).
  unfold resetPassword. destruct (_ <? _)%nat; [done|].
  destruct (hashToken token) as [p h]. cbn [fst snd] in Hf'.
  unfold run, transact. rewrite Hf'. unfold reset_token_invalid. rewrite (Hmono Hc), orb_true_r. done.
Qed.

(** [C23] A request authenticates as a device only with a token the document has: the
    bearer token of its header has the lookup prefix and the hash of an unrevoked token of
    that device, whose account is enabled and owns the (not deleting) vault the
    device belongs to, and only in the vault the request names. *)
Theorem device_authentication_authorized w header vault db x db' :
  authenticateDeviceToken w header vault db = (Ok x, db') →
  (∃ token, parseBearer header = Ok token ∧ (t_lookup_prefix (ad_token x), t_token_hash (ad_token x)) = hashToken token)
  ∧ ad_token x ∈ db_tokens db ∧ t_kind (ad_token x) = TokDevice ∧ otruthy (t_revoked_at (ad_token x)) = false
  ∧ t_device_id (ad_token x) = Some (d_device_id (ad_device x))
  ∧ ad_user x ∈ db_users db ∧ u_disabled (ad_user x) = false
  ∧ ad_vault x ∈ db_vaults db ∧ v_status (ad_vault x) ≠ VDeleting
  ∧ v_owner_user_id (ad_vault x) = u_user_id (ad_user x)
  ∧ (∃ d, d ∈ db_devices db ∧ d_device_id d = d_device_id (ad_device x)
          ∧ d_vault_id d = v_vault_id (ad_vault x) ∧ d_user_id d = u_user_id (ad_user x)
          ∧ otruthy (d_revoked_at d) = false)
  ∧ (∀ v, vault = Some v → v_vault_id (ad_vault x) = v).
Proof.
  intros (token & y & Htok & Hsel & -> & -> & -> & ->)%authenticateDeviceToken_selected.
  apply select_device_Ok in Hsel as (? & ? & Hhash & ?). rewrite <- surjective_pairing in Hhash.
  split; [by exists token|]. split_and!; naive_solver.
Qed.

(** The login throttle, for a clock that does not run backwards: a row
    never counts more than eight failures, and from the fifth on it locks the
    account and source for 1, 2, 4 and at most 8 minutes after the last one;
    the cap of one hour is never reached, because the ten-minute window is over
    by then and the count restarts. *)
Theorem login_throttle_bounds `{!DatesOk D} now db a :
  login_history now db → a ∈ db_login_attempts db →
  1 <= la_failed_count a <= 8 ∧
  ∃ last, last <= now ∧ la_last_failed_at a = to_iso last ∧
    la_locked_until a =
      (if la_failed_count a <? 5 then None
       else Some (to_iso (last + 60000 * 2 ^ (la_failed_count a - 5)))) ∧
    60000 * 2 ^ (la_failed_count a - 5) <= 480000.
Proof.
  intros Hh Ha. destruct (login_history_ok now db a Hh Ha)
    as (t0 & last & _ & _ & Hle & _ & Hl & Hc & _ & _ & Hlock).
  split; [done|]. exists last. split; [lia|]. split; [done|].
  assert (la_failed_count a < 5 ∨ la_failed_count a = 5 ∨ la_failed_count a = 6 ∨
          la_failed_count a = 7 ∨ la_failed_count a = 8) as [H|[H|[H|[H|H]]]] by lia.
  { rewrite (Z.pow_neg_r 2) by lia. rewrite Hlock. unfold LOGIN_FAILURE_LIMIT.
    rewrite (proj2 (Z.leb_gt _ _)), (proj2 (Z.ltb_lt _ _)) by lia. done. }
  all: rewrite Hlock, H; done.
Qed.

(** A refused reauthentication changes nothing, in particular not the
    login-failure counters: after any number of wrong passwords the next attempt
    is judged exactly as the first one. *)
Theorem refused_reauthentication_uncounted (attempts : list (World * jstring)) sid username ip db :
  Forall (λ '(w, password), is_ok (reauthenticateSession w sid username password ip db).1 = false) attempts →
  fold_left (λ db '(w, password), (reauthenticateSession w sid username password ip db).2) attempts db = db.
Proof.
  induction attempts as [|[w pw] attempts IH]; intros Hf; cbn [fold_left]; [done|].
  apply Forall_cons in Hf as [Hw Hf].
  assert ((reauthenticateSession w sid username pw ip db).2 = db) as ->; [|by apply IH].
  revert Hw. unfold reauthenticateSession. destruct sid as [[|c sid]|]; [done| |done].
  match goal with |- context [run w ?fn db] =>
    destruct (run_cases w fn db) as [(e & _ & ->)|(a & c' & h & _ & ->)] end; done.
Qed.

End properties.

(** ** Concrete inputs *)

(** Toy primitives on which the hypotheses can be evaluated. *)
#[export] Instance toy_crypto : Crypto := {|
  argon_hash password salt := password;
  argon_verify hash password := hash =s? password;
  scrypt_64 password salt := password;
  base64url_decode text := text;
  sha256_hex text := text;
  hmac_base64url key message := key ++ message
|}.
#[export] Instance toy_crypto_ok : CryptoOk toy_crypto.
Proof. split. intros. by apply jeqb_eq. Qed.

Definition world_at (t : Z) : World := mk_World (λ i, t + Z.of_nat i) (λ i, [N.of_nat i]).

Definition day1 : Z := 1700000000000.
Definition sample_user (id : jstring) (admin : bool) : UserRow :=
  mk_UserRow id id id (Argon2id "correct horse") admin false (to_iso day1) None.
Definition sample_session (sid user : jstring) : SessionRow :=
  mk_SessionRow sid user "csrf" (to_iso day1) (to_iso day1) (to_iso (day1 + SESSION_TTL_MS))
    (to_iso (day1 + SESSION_IDLE_TTL_MS)) (to_iso day1) None.
Definition sample_vault : VaultRow :=
  mk_VaultRow "v1" "bob" "Notes" VActive (Some (lit "r0")) "r0" None (to_iso day1) (to_iso day1).
Definition sample_device : DeviceRow :=
  mk_DeviceRow "d1" "v1" "bob" "Phone" "refs/obts/devices/d1" None DPaired None 0 (Some []) None 0 None
    None None None None None None None None None None None None None None None None (to_iso day1) None.
Definition sample_token (kind : TokenKind) (secret : jstring) (device : option jstring) : TokenRow :=
  mk_TokenRow secret kind (take 16 secret) secret "bob" (Some (lit "v1")) device
    (Some (to_iso (day1 + PASSWORD_RESET_TTL_MS))) None 0 None [] (to_iso day1).

Definition sample_db : MetadataDb :=
  set_db_setup_complete true
  (set_db_users [sample_user "root" true; sample_user "bob" false]
  (set_db_sessions [sample_session "s1" "bob"]
  (set_db_vaults [sample_vault]
  (set_db_devices [sample_device]
  (set_db_tokens [sample_token TokDevice "tok" (Some (lit "d1")); sample_token TokPasswordReset "rst" None]
    createEmptyDb))))).

Definition sample_header : option jstring := Some (lit "Bearer tok").

Lemma final_administrator_kept_witness :
  ∃ u, u ∈ db_users (setupInitialAdmin (world_at day1) "root" "correct horse" None createEmptyDb).2
       ∧ u_is_admin u = true ∧ u_disabled u = false.
Proof.
  apply (final_administrator_kept (setupInitialAdmin (world_at day1) "root" "correct horse" None createEmptyDb).2).
  - apply rtc_once, st_setup.
  - reflexivity.
Defined.

Definition disabled_db : MetadataDb := (setUserDisabled (world_at day1) "root" "bob" true sample_db).2.

Lemma disabled_account_locked_out_witness :
  is_ok (authenticateSession (world_at day1) (Some (lit "s1")) true sample_db).1 = true ∧
  is_ok (authenticateDeviceToken (world_at day1) sample_header None sample_db).1 = true ∧
  (∀ w' touch, let db := (setUserDisabled (world_at day1) "root" "bob" false disabled_db).2 in
     authenticateSession w' (Some (lit "s1")) touch db = (Throw unauthenticated, db)) ∧
  ∃ r, setUserDisabled (world_at day1) "root" "bob" true sample_db = (Ok r, disabled_db).
Proof.
  split; [vm_compute; reflexivity|]. split; [vm_compute; reflexivity|].
  assert (∃ r, setUserDisabled (world_at day1) "root" "bob" true sample_db = (Ok r, disabled_db)) as [r Hr].
  { eexists. vm_compute. reflexivity. }
  split; [|by exists r]. intros w' touch.
  refine (proj1 (disabled_account_locked_out (world_at day1) "root" "bob" sample_db r disabled_db
    (setUserDisabled (world_at day1) "root" "bob" false disabled_db).2 Hr _)
    "s1" (sample_session "s1" "bob") _ _ w' touch); [|reflexivity..].
  apply rtc_once, st_set_disabled.
Defined.

Lemma revoked_device_locked_out_witness :
  let db1 := (revokeDevice (world_at day1) "bob" "v1" "d1" sample_db).2 in
  (revokeDevice (world_at day1) "bob" "v1" "d1" sample_db).1 = Ok () ∧
  ∀ x db3, authenticateDeviceToken (world_at day1) sample_header None db1 = (Ok x, db3) →
    d_device_id (ad_device x) ≠ lit "d1".
Proof.
  intros db1. split; [vm_compute; reflexivity|]. intros x db3.
  apply (revoked_device_locked_out (world_at day1) "bob" "v1" "d1" sample_db db1 db1); [|apply rtc_refl].
  vm_compute. reflexivity.
Defined.

Lemma reset_token_single_use_witness :
  let db1 := (resetPassword (world_at day1) "rst" "a new password" sample_db).2 in
  resetPassword (world_at day1) "rst" "another password" db1 = (Throw invalid_reset_token, db1).
Proof.
  intros db1.
  apply (reset_token_single_use (world_at day1) "rst" "a new password" sample_db db1 db1); [|apply rtc_refl].
  vm_compute. reflexivity.
Defined.

Lemma device_authentication_authorized_witness :
  ∃ x db', authenticateDeviceToken (world_at day1) sample_header (Some (lit "v1")) sample_db = (Ok x, db')
  ∧ t_device_id (ad_token x) = Some (d_device_id (ad_device x)).
Proof.
  eexists _, _. split; [vm_compute; reflexivity|].
  apply (device_authentication_authorized (world_at day1) sample_header (Some (lit "v1")) sample_db _
    (authenticateDeviceToken (world_at day1) sample_header (Some (lit "v1")) sample_db).2).
  vm_compute. reflexivity.
Defined.

(** Six failures, the last one after the first lock is over. *)
Definition failing_login (db : MetadataDb) (t : Z) : MetadataDb :=
  (login (world_at t) "bob" "wrong" None db).2.
Definition six_failures : MetadataDb :=
  fold_left failing_login [day1; day1 + 10; day1 + 20; day1 + 30; day1 + 40; day1 + 70000] sample_db.

Lemma login_history_failing past db t :
  login_history past db → past <= t → 0 <= t <= day1 + 100000 → login_history (t + 1) (failing_login db t).
Proof.
  intros Hh Hp Ht. unfold failing_login, day1 in *.
  apply (lh_login past); [done|..]; unfold world_at, w_now, clock_range, LOGIN_BACKOFF_MAX_MS; lia.
Qed.

Lemma six_failures_history : login_history (day1 + 70001) six_failures.
Proof.
  unfold six_failures. cbn [fold_left].
  replace (day1 + 70001) with (day1 + 70000 + 1) by lia.
  apply (login_history_failing (day1 + 40 + 1)); [|unfold day1; lia..].
  apply (login_history_failing (day1 + 30 + 1)); [|unfold day1; lia..].
  apply (login_history_failing (day1 + 20 + 1)); [|unfold day1; lia..].
  apply (login_history_failing (day1 + 10 + 1)); [|unfold day1; lia..].
  apply (login_history_failing (day1 + 1)); [|unfold day1; lia..].
  apply (login_history_failing 0); [|unfold day1; lia..].
  apply lh_start. reflexivity.
Qed.

Lemma login_throttle_bounds_witness :
  ∃ a, db_login_attempts six_failures = [a] ∧ la_failed_count a = 6 ∧ 1 <= la_failed_count a <= 8.
Proof.
  eexists. split; [vm_compute; reflexivity|]. split; [reflexivity|].
  apply (login_throttle_bounds (day1 + 70001) six_failures); [apply six_failures_history|].
  apply list_elem_of_In. vm_compute. left. reflexivity.
Defined.

Lemma refused_reauthentication_uncounted_witness :
  let attempt := (world_at day1, lit "wrong") in
  fold_left (λ db '(w, password), (reauthenticateSession w (Some (lit "s1")) "bob" password None db).2)
    (replicate 100 attempt) sample_db = sample_db.
Proof.
  intros attempt.
  apply (refused_reauthentication_uncounted (replicate 100 attempt) (Some (lit "s1")) "bob" None sample_db).
  apply Forall_replicate. vm_compute. reflexivity.
Defined.
