(* ===== verification/DirectoryIntents.v ===== *)
(** * Explicit directories and their intents (src/server/syncService.ts, src/server/app.ts)

    Git does not store empty directories, so the server keeps the explicit
    directories of a vault as a snapshot and the changes to it as intents:
    deltas between snapshots, their application, their compaction, the
    classification of a device's proposal against the server's changes, and the
    reconstruction of a historical snapshot from the event log. *)

From S2P Require Export Metadata ClientTrees Git.

Local Open Scope Z_scope.

Record DirectoryIntent := mk_intent { in_op : DirOp; in_path : jstring }.

#[export] Instance DirectoryIntent_eq_dec : EqDecision DirectoryIntent.
Proof. solve_decision. Defined.

Definition op_string (op : DirOp) : jstring :=
  match op with DirCreate => lit "create" | DirDelete => lit "delete" end.

Definition is_delete (op : DirOp) : bool := match op with DirDelete => true | _ => false end.

(** [pathsOverlapWithinRoot] and [pathsOverlap]. *)
Definition pathsOverlapWithinRoot (path root : jstring) : bool := covers root path.
Definition pathsOverlap (left right : jstring) : bool :=
  (left =s? right) || below right left || below left right.

Definition snapshotContainsDirectory (snapshot : list jstring) (root : jstring) : bool :=
  existsb (λ path, pathsOverlapWithinRoot path root) snapshot.

Definition intents_of (l : list DirectoryProposalIntent) : list DirectoryIntent :=
  map (λ intent, mk_intent (pi_op intent) (pi_path intent)) l.

(** ** Application *)

(** One iteration over the set of explicit directories. *)
Definition apply_intent (explicit : list jstring) (intent : DirectoryIntent) : list jstring :=
  match in_op intent with
  | DirDelete => List.filter (λ path, negb (pathsOverlapWithinRoot path (in_path intent))) explicit
  | DirCreate => set_add (fold_left set_add (directoryPrefixes (in_path intent)) explicit) (in_path intent)
  end.

Definition applyDirectoryIntentsToSnapshot (previous : list jstring) (intents : list DirectoryIntent)
    : list jstring :=
  sort_strings (fold_left apply_intent intents (js_set previous)).

(** [applyDirectoryIntents] on the database; [w] gives the time of the update. *)
Definition applyDirectoryIntents (w : World) (i : nat) (db : MetadataDb) (vaultId : jstring)
    (intents : list DirectoryIntent) (eventSeq : Z) : MetadataDb :=
  match intents with
  | [] => db
  | _ =>
    let existing := default (mk_DirectoryStateRow [] (nowIso w i) 0)
                      (mget (db_directory_state_by_vault db) vaultId) in
    set_db_directory_state_by_vault
      (mset (db_directory_state_by_vault db) vaultId
        (mk_DirectoryStateRow
          (sort_strings (fold_left apply_intent intents (js_set (ds_explicit_dirs existing))))
          (nowIso w (i + 1)) eventSeq)) db
  end.

Section intents.
Context `{U : Unicode}.

(** [left.path.localeCompare(right.path) || left.op.localeCompare(right.op)]. *)
Definition intent_leb (left right : DirectoryIntent) : bool :=
  match locale_compare (in_path left) (in_path right) with
  | Lt => true
  | Gt => false
  | Eq => locale_leb (op_string (in_op left)) (op_string (in_op right))
  end.

(** The loop of [compactDirectoryIntents] over the map. *)
Definition compact_step (byPath : jmap DirectoryIntent) (intent : DirectoryIntent) : jmap DirectoryIntent :=
  let byPath := if is_delete (in_op intent)
                then mdel_if (λ path, covers (in_path intent) path) byPath else byPath in
  mset byPath (in_path intent) intent.

Definition compactDirectoryIntents (intents : list DirectoryIntent) : list DirectoryIntent :=
  isort intent_leb (mvalues (fold_left compact_step intents [])).

Definition deleted_paths (previous current : list jstring) : list jstring :=
  List.filter (λ path, negb (existsb (λ candidate,
      negb (candidate =s? path) && below candidate path && negb (jmem candidate current)) previous))
    (List.filter (λ path, negb (jmem path current)) previous).

Definition created_paths (previous current : list jstring) : list jstring :=
  List.filter (λ path, negb (jmem path previous)) current.

Definition directoryIntentsBetweenSnapshots (previous current : list jstring) : list DirectoryIntent :=
  compactDirectoryIntents (map (mk_intent DirDelete) (deleted_paths previous current) ++
                           map (mk_intent DirCreate) (created_paths previous current)).

(** ** Reading intents back from event payloads *)

(** The [op] and [path] of one raw intent. *)
Definition read_intent (rawIntent : jsval) : option DirectoryIntent :=
  match as_record rawIntent with
  | None => None
  | Some raw =>
    match rget raw (lit "path") with
    | JStr path =>
      if is_lit (rget raw (lit "op")) "create" then Some (mk_intent DirCreate path)
      else if is_lit (rget raw (lit "op")) "delete" then Some (mk_intent DirDelete path)
      else None
    | _ => None
    end
  end.

Definition read_intents (payload : record) : list DirectoryIntent :=
  match rget payload (lit "directory_intents") with
  | JArr rawIntents => omap read_intent rawIntents
  | _ => []
  end.

Definition directoryIntentsFromEvents (events : list EventEnvelope) : list DirectoryIntent :=
  compactDirectoryIntents (events ≫= λ event, read_intents (e_payload event)).

(** ** Classification of a proposal *)

Definition opposed (intent : DirectoryProposalIntent) (serverIntent : DirectoryIntent) : bool :=
  negb (bool_decide (in_op serverIntent = pi_op intent)) && pathsOverlap (in_path serverIntent) (pi_path intent).

Definition unknownLegacyOutcome (serverExplicitDirs : list jstring) (intent : DirectoryProposalIntent) : bool :=
  let serverHasPath := existsb (covers (pi_path intent)) serverExplicitDirs in
  match pi_provenance intent with
  | PvLegacy => if is_delete (pi_op intent) then serverHasPath else negb serverHasPath
  | PvLocalV2 => false
  end.

Definition intent_conflicts (serverExplicitDirs : list jstring) (serverIntents : list DirectoryIntent)
    (intent : DirectoryProposalIntent) : bool :=
  unknownLegacyOutcome serverExplicitDirs intent || existsb (opposed intent) serverIntents.

(** [left.length - right.length || left.localeCompare(right)]. *)
Definition shorter_then_locale (left right : jstring) : bool :=
  if (length left =? length right)%nat then locale_leb left right else (length left <? length right)%nat.

Definition topmostDirectoryPaths (paths : list jstring) : list jstring :=
  let sorted := isort shorter_then_locale (js_set paths) in
  map snd (List.filter (λ '(index, path),
    negb (existsb (λ candidate, below candidate path) (take index sorted)))
    (zip (seq 0 (length sorted)) sorted)).

Definition affected_roots (serverIntents : list DirectoryIntent) (conflicting : list DirectoryProposalIntent)
    : list jstring :=
  topmostDirectoryPaths (conflicting ≫= λ intent,
    pi_path intent :: map in_path (List.filter (opposed intent) serverIntents)).

Record DirectoryMergePlan := mk_plan {
  pl_proposal : DirectoryProposal;
  pl_requestSha256 : jstring;
  pl_baseExplicitDirs : list jstring;
  pl_serverExplicitDirs : list jstring;
  pl_cleanIntents : list DirectoryProposalIntent;
  pl_conflictingIntents : list DirectoryProposalIntent;
  pl_affectedRoots : list jstring;
  pl_expectedEventSeq : Z
}.

(** [classifyDirectoryProposal] after its checks of the device's baseline. *)
Definition classify_intents (db : MetadataDb) (vaultId : jstring) (proposal : DirectoryProposal)
    (requestSha256 : jstring) (last_applied_explicit_dirs : list jstring) : DirectoryMergePlan :=
  let baseExplicitDirs := sort_strings last_applied_explicit_dirs in
  let serverState := mget (db_directory_state_by_vault db) vaultId in
  let serverExplicitDirs := sort_strings (default [] (ds_explicit_dirs <$> serverState)) in
  let serverIntents := directoryIntentsBetweenSnapshots baseExplicitDirs serverExplicitDirs in
  let conflictingIntents := List.filter (intent_conflicts serverExplicitDirs serverIntents) (dp_intents proposal) in
  let conflictingIds := map pi_intent_id conflictingIntents in
  mk_plan proposal requestSha256 baseExplicitDirs serverExplicitDirs
    (List.filter (λ intent, negb (jmem (pi_intent_id intent) conflictingIds)) (dp_intents proposal))
    conflictingIntents (affected_roots serverIntents conflictingIntents)
    (default 0 (ds_last_event_seq <$> serverState)).

Definition reclassifyDirectoryContext (context : DirectoryConflictContext) (serverExplicitDirs : list jstring)
    (expectedEventSeq : Z) : DirectoryConflictContext :=
  let serverIntents := directoryIntentsBetweenSnapshots (dc_base_explicit_dirs context) serverExplicitDirs in
  let conflicting := List.filter (intent_conflicts serverExplicitDirs serverIntents)
                       (dp_intents (dc_proposal context)) in
  let conflictingIds := map pi_intent_id conflicting in
  mk_DirectoryConflictContext (dc_proposal context) (dc_base_explicit_dirs context)
    (sort_strings serverExplicitDirs)
    (map pi_intent_id (List.filter (λ intent, negb (jmem (pi_intent_id intent) conflictingIds))
       (dp_intents (dc_proposal context))))
    (map pi_intent_id conflicting) (affected_roots serverIntents conflicting) expectedEventSeq.

(** ** Resolution of a directory conflict *)

Definition resolvedConflictDirectoryIntents (conflict : ConflictRecord)
    (resolutionKind : ConflictResolutionKind) : list DirectoryIntent :=
  match cf_directory_context conflict with
  | None => []
  | Some context =>
    let intents := dp_intents (dc_proposal context) in
    if bool_decide (resolutionKind = RkUseDevice) then intents_of intents else
    let cleanIntents := intents_of (List.filter (λ intent, jmem (pi_intent_id intent) (dc_clean_intent_ids context)) intents) in
    let deviceExplicitDirs := applyDirectoryIntentsToSnapshot (dc_base_explicit_dirs context) (intents_of intents) in
    let serverReassertions := List.filter (λ intent,
        existsb (λ root, pathsOverlap root (in_path intent)) (dc_affected_roots context))
      (directoryIntentsBetweenSnapshots deviceExplicitDirs (dc_server_explicit_dirs context)) in
    compactDirectoryIntents (cleanIntents ++ serverReassertions)
  end.

(** ** The event log *)

Definition DIRECTORY_NEUTRAL_EVENT_TYPES : list EventType :=
  [EvDeviceRefUpdated; EvDeviceSyncRejected; EvDeviceRecoveryRequired; EvConflictCreated;
   EvConflictReviewRefreshed; EvConflictResolved; EvNoteRestored; EvDeviceStateChanged;
   EvVaultMaintenanceStarted; EvVaultMaintenanceFinished].

Definition by_event_seq (left right : EventEnvelope) : bool := e_event_seq left <=? e_event_seq right.

Definition event_in_vault (vaultId : jstring) (event : EventEnvelope) : bool := e_vault_id event =s? vaultId.

(** The [every] callback: position [index] of the sorted gap. *)
Definition neutral_event (afterEventSeq : Z) (index : nat) (event : EventEnvelope) : bool :=
  (e_event_seq event =? afterEventSeq + Z.of_nat index + 1) &&
  match rget (e_payload event) (lit "directory_intents") with
  | JUndef | JArr [] => true
  | _ => false
  end &&
  (bool_decide (e_event_type event = EvMainAdvanced) ||
   bool_decide (e_event_type event ∈ DIRECTORY_NEUTRAL_EVENT_TYPES)).

Definition hasContiguousDirectoryNeutralEventGap (db : MetadataDb) (vaultId : jstring)
    (afterEventSeq throughEventSeq : Z) : bool :=
  if negb (num_safe (NInt afterEventSeq)) || negb (num_safe (NInt throughEventSeq))
     || (afterEventSeq <? 0) || (throughEventSeq <=? afterEventSeq) then false else
  let expectedCount := throughEventSeq - afterEventSeq in
  let events := isort by_event_seq (List.filter (λ event,
      event_in_vault vaultId event && (afterEventSeq <? e_event_seq event)
      && (e_event_seq event <=? throughEventSeq)) (db_events db)) in
  if negb (Z.of_nat (length events) =? expectedCount) then false
  else forallb (λ '(index, event), neutral_event afterEventSeq index event)
         (zip (seq 0 (length events)) events).

(** ** The classification handler *)

Definition directory_error (code message : jstring) : js_error := AuthError 409 code message [].

(** [requireDevice]: a plain Error, the routes have authenticated the device. *)
Definition requireDevice (db : MetadataDb) (deviceId : jstring) : result DeviceRow :=
  match find_row (λ candidate, d_device_id candidate =s? deviceId) (db_devices db) with
  | Some device => Ok device
  | None => Throw (mk_error EPlain "" (lit "Device not found: " ++ deviceId) [])
  end.

Definition is_none {A} (x : option A) : bool := match x with None => true | _ => false end.

Section classify.
Context `{G : GitReads}.
(** SHA-256 of the proposal's canonical JSON text. *)
Variable directoryProposalRequestSha256 : DirectoryProposal → jstring.

Definition hasUsableDirectoryProposalBaseline (db : MetadataDb) (device : DeviceRow)
    (proposal : DirectoryProposal) : bool :=
  if is_none (d_last_applied_explicit_dirs device) then false else
  let same_main := oeqb (dp_base_main proposal) (d_last_applied_main device) in
  if same_main && (dp_base_event_seq proposal =? d_last_applied_event_seq device) then true else
  if negb (num_safe (NInt (dp_base_event_seq proposal))) || (dp_base_event_seq proposal <? 0)
     || (d_last_applied_event_seq device <=? dp_base_event_seq proposal)
     || negb (hasContiguousDirectoryNeutralEventGap db (d_vault_id device)
                (dp_base_event_seq proposal) (d_last_applied_event_seq device)) then false else
  if same_main then true else
  match dp_base_main proposal, d_last_applied_main device with
  | Some base, Some applied =>
    if negb (otruthy (Some base)) || negb (otruthy (Some applied)) then false else
    commitExists (d_vault_id device) base && isAncestor (d_vault_id device) base applied
  | _, _ => false
  end.

Definition findDirectoryProposalResult (db : MetadataDb) (vaultId deviceId : jstring)
    (proposal : DirectoryProposal) : result (option DirectoryProposalResultRow) :=
  match find_row (λ candidate, pr_proposal_id candidate =s? dp_proposal_id proposal)
          (db_directory_proposal_results db) with
  | None => Ok None
  | Some row =>
    if negb (pr_vault_id row =s? vaultId) || negb (pr_device_id row =s? deviceId)
       || negb (pr_request_sha256 row =s? directoryProposalRequestSha256 proposal)
    then Throw (directory_error "directory_proposal_mismatch"
                  "Directory proposal ID was reused with different content.")
    else Ok (Some row)
  end.

Definition classifyDirectoryProposal (db : MetadataDb) (vaultId deviceId : jstring)
    (proposal : DirectoryProposal) : result DirectoryMergePlan :=
  device ← requireDevice db deviceId;
  let stale := Throw (directory_error "stale_directory_proposal_base"
      "Directory proposal does not match the device acknowledged baseline.") in
  match d_last_applied_explicit_dirs device with
  | None => stale
  | Some last_applied_explicit_dirs =>
    if negb (hasUsableDirectoryProposalBaseline db device proposal) then stale else
    _ ← findDirectoryProposalResult db vaultId deviceId proposal;
    Ok (classify_intents db vaultId proposal (directoryProposalRequestSha256 proposal)
          last_applied_explicit_dirs)
  end.

End classify.

(** One acknowledgement entry of a payload, if it is for this device. *)
Definition read_acknowledgement (deviceId : jstring) (entry : jsval) : option DirectoryIntentAcknowledgement :=
  match as_record entry with
  | Some value =>
    match rget value (lit "intent_id"), rget value (lit "generation") with
    | JStr intent_id, JNum (NInt generation) =>
      if is_lit (rget value (lit "device_id")) deviceId && num_safe (NInt generation) && (0 <=? generation)
      then Some (mk_DirectoryIntentAcknowledgement intent_id generation) else None
    | _, _ => None
    end
  | None => None
  end.

Definition acknowledgement_key (ack : DirectoryIntentAcknowledgement) : jstring :=
  ack_intent_id ack +:+ [NUL] +:+ dec (ack_generation ack).

Definition settled_for (vaultId deviceId : jstring) (afterEventSeq throughEventSeq : Z)
    (result : DirectoryProposalResultRow) : bool :=
  (pr_vault_id result =s? vaultId) && (pr_device_id result =s? deviceId)
  && negb (pr_event_seq result <=? afterEventSeq) && negb (throughEventSeq <? pr_event_seq result)
  && (bool_decide (pr_status result = PrAccepted) || bool_decide (pr_status result = PrResolved)).

Definition directoryAcknowledgementsForDevice (db : MetadataDb) (events : list EventEnvelope)
    (vaultId deviceId : jstring) (afterEventSeq throughEventSeq : Z) : list DirectoryIntentAcknowledgement :=
  let fromEvents := events ≫= λ event,
    match rget (e_payload event) (lit "directory_acknowledgements") with
    | JArr raw => omap (read_acknowledgement deviceId) raw
    | _ => []
    end in
  let fromResults := List.filter (settled_for vaultId deviceId afterEventSeq throughEventSeq)
    (db_directory_proposal_results db) ≫= pr_acknowledged_intents in
  mvalues (fold_left (λ m ack, mset m (acknowledgement_key ack) ack) (fromEvents ++ fromResults) []).

Record EventSnapshot := mk_snapshot {
  sn_eventSeq : Z;
  sn_directoryIntents : list DirectoryIntent;
  sn_explicitDirectories : list jstring;
  sn_directoryAcknowledgements : list DirectoryIntentAcknowledgement
}.

Definition directory_snapshot_unavailable (message : jstring) : js_error :=
  AuthError 409 "directory_snapshot_unavailable" message [].

(** The loop that checks the sequence numbers after the baseline. *)
Fixpoint check_contiguous (expectedEventSeq : Z) (events : list EventEnvelope) : result Z :=
  match events with
  | [] => Ok expectedEventSeq
  | event :: events =>
    if e_event_seq event =? expectedEventSeq then check_contiguous (expectedEventSeq + 1) events
    else Throw (directory_snapshot_unavailable
           "Historical directory evidence is not contiguous through the requested main.")
  end.

(** The replay of [eventSnapshotForTarget]; it adds the path alone. *)
Definition replay_intent (explicit : list jstring) (intent : DirectoryIntent) : list jstring :=
  match in_op intent with
  | DirDelete => List.filter (λ path, negb (covers (in_path intent) path)) explicit
  | DirCreate => set_add explicit (in_path intent)
  end.

Definition main_advanced_to (targetMain : jstring) (event : EventEnvelope) : bool :=
  bool_decide (e_event_type event = EvMainAdvanced) &&
  match mget (e_commit_cursors event) (lit "main") with
  | Some (Some main) => main =s? targetMain
  | _ => false
  end.

(** The rest of [eventSnapshotForTarget] once [eventSeq] dates the target: the
    checks of the evidence and the replay. *)
Definition snapshotThrough (db : MetadataDb) (vaultId deviceId : jstring) (vaultEvents : list EventEnvelope)
    (eventSeq afterEventSeq : Z) (baseExplicitDirectories : option (list jstring)) : result EventSnapshot :=
  let throughTarget := List.filter (λ event, e_event_seq event <=? eventSeq) vaultEvents in
  let eventsAfterBaseline := List.filter (λ event, afterEventSeq <? e_event_seq event) throughTarget in
  _ ← (if afterEventSeq <? eventSeq then
         expectedEventSeq ← check_contiguous (afterEventSeq + 1) eventsAfterBaseline;
         if expectedEventSeq =? eventSeq + 1 then Ok () else
         Throw (directory_snapshot_unavailable
                  "Historical directory evidence ends before the requested main.")
       else Ok ());
  if is_null_or baseExplicitDirectories && (0 <? eventSeq)
     && negb (match throughTarget with event :: _ => e_event_seq event =? 1 | [] => false end)
  then Throw (directory_snapshot_unavailable
                "Historical directory evidence does not include the initial directory baseline.")
  else
    let directoryIntents := directoryIntentsFromEvents eventsAfterBaseline in
    let explicit := fold_left replay_intent
      (directoryIntentsFromEvents (if is_null_or baseExplicitDirectories then throughTarget else eventsAfterBaseline))
      (js_set (default [] baseExplicitDirectories)) in
    Ok (mk_snapshot eventSeq directoryIntents (sort_strings explicit)
         (directoryAcknowledgementsForDevice db
           (List.filter (λ event, afterEventSeq <? e_event_seq event) throughTarget)
           vaultId deviceId afterEventSeq eventSeq)).

Definition eventSnapshotForTarget (db : MetadataDb) (vaultId deviceId targetMain : jstring)
    (afterEventSeq : Z) (baseExplicitDirectories : option (list jstring)) : result EventSnapshot :=
  let vault := find_row (λ candidate, v_vault_id candidate =s? vaultId) (db_vaults db) in
  let currentDirectoryState := mget (db_directory_state_by_vault db) vaultId in
  if match vault with Some v => v_current_main v =s? targetMain | None => false end then
    let explicitDirectories := sort_strings (default [] (ds_explicit_dirs <$> currentDirectoryState)) in
    let eventSeq := default (default 0 (ds_last_event_seq <$> currentDirectoryState))
                      (mget (db_event_seq_by_vault db) vaultId) in
    let relevantEvents := List.filter (λ event,
      event_in_vault vaultId event && (afterEventSeq <? e_event_seq event) && (e_event_seq event <=? eventSeq))
      (db_events db) in
    let eventDirectoryIntents := directoryIntentsFromEvents relevantEvents in
    let directoryIntents := match baseExplicitDirectories with
      | None => eventDirectoryIntents
      | Some base => compactDirectoryIntents
          (directoryIntentsBetweenSnapshots base explicitDirectories ++ eventDirectoryIntents)
      end in
    Ok (mk_snapshot eventSeq directoryIntents explicitDirectories
         (directoryAcknowledgementsForDevice db relevantEvents vaultId deviceId afterEventSeq eventSeq))
  else
    let vaultEvents := isort by_event_seq (List.filter (event_in_vault vaultId) (db_events db)) in
    let mainEvent := find_row (main_advanced_to targetMain) (rev vaultEvents) in
    if is_null_or mainEvent && negb (oeqb (Some targetMain) (vault ≫= v_root_commit))
    then Throw (directory_snapshot_unavailable
                  "Historical directory evidence for the requested main is unavailable.")
    else
      let eventSeq := default 0 (e_event_seq <$> mainEvent) in
      snapshotThrough db vaultId deviceId vaultEvents eventSeq afterEventSeq baseExplicitDirectories.

(** [historicalAcknowledgementSnapshot]: any failure becomes [null]. *)
Definition historicalAcknowledgementSnapshot (db : MetadataDb) (vaultId : jstring) (device : DeviceRow)
    (appliedMain : jstring) : option EventSnapshot :=
  match eventSnapshotForTarget db vaultId (d_device_id device) appliedMain
          (d_last_applied_event_seq device) (d_last_applied_explicit_dirs device) with
  | Ok snapshot => Some (mk_snapshot (sn_eventSeq snapshot) [] (sn_explicitDirectories snapshot) [])
  | Throw _ => None
  end.

End intents.

(** ** Laws of application *)

Definition same_set (l k : list jstring) : Prop := ∀ x, x ∈ l ↔ x ∈ k.
Definition prefix_closed (l : list jstring) : Prop := ∀ d p, p ∈ l → below d p = true → d ∈ l.

#[export] Instance same_set_equivalence : Equivalence same_set.
Proof. split; [by intros l x|by intros l k H x; symmetry|intros a b c H1 H2 x; by rewrite (H1 x)]. Qed.

Lemma fold_set_add_elem l s x : x ∈ fold_left set_add l s ↔ x ∈ s ∨ x ∈ l.
Proof.
  revert s. induction l as [|y l IH]; intros s; cbn [fold_left]; [rewrite elem_of_nil; naive_solver|].
  rewrite IH, set_add_elem, elem_of_cons. naive_solver.
Qed.

Lemma fold_set_add_NoDup l s : NoDup s → NoDup (fold_left set_add l s).
Proof. revert s. induction l as [|y l IH]; intros s Hs; cbn [fold_left]; [done|]. by apply IH, set_add_NoDup. Qed.

Lemma apply_intent_elem S i x :
  x ∈ apply_intent S i ↔
  match in_op i with
  | DirDelete => x ∈ S ∧ covers (in_path i) x = false
  | DirCreate => x ∈ S ∨ covers x (in_path i) = true
  end.
Proof.
  unfold apply_intent, pathsOverlapWithinRoot. destruct (in_op i).
  - rewrite set_add_elem, fold_set_add_elem, directoryPrefixes_elem, covers_spec. naive_solver.
  - rewrite filter_elem, negb_true_iff. done.
Qed.

Lemma apply_intent_NoDup S i : NoDup S → NoDup (apply_intent S i).
Proof.
  intros HS. unfold apply_intent. destruct (in_op i).
  - by apply set_add_NoDup, fold_set_add_NoDup.
  - rewrite NoDup_ListNoDup in *. by apply List.NoDup_filter.
Qed.

Lemma apply_intents_NoDup l S : NoDup S → NoDup (fold_left apply_intent l S).
Proof. revert S. induction l as [|i l IH]; intros S HS; cbn; [done|]. by apply IH, apply_intent_NoDup. Qed.

#[export] Instance apply_intent_proper : Proper (same_set ==> eq ==> same_set) apply_intent.
Proof.
  intros S T H i j -> x. rewrite !apply_intent_elem. destruct (in_op j); by rewrite (H x).
Qed.

#[export] Instance apply_intents_proper l : Proper (same_set ==> same_set) (fold_left apply_intent l).
Proof. induction l as [|i l IH]; intros S T H; cbn; [done|]. apply IH. by rewrite H. Qed.

Lemma apply_intent_prefix_closed S i : prefix_closed S → prefix_closed (apply_intent S i).
Proof.
  intros HS d p. rewrite !apply_intent_elem. destruct (in_op i).
  - intros [Hp|Hp] Hd; [left; by eapply HS|]. right. eapply covers_trans; [|exact Hp].
    apply covers_spec. by right.
  - intros [Hp Hc] Hd. split; [by eapply HS|]. apply not_true_iff_false. intros Hcd.
    apply not_true_iff_false in Hc. apply Hc. eapply covers_trans; [exact Hcd|].
    apply covers_spec. by right.
Qed.

Lemma apply_intents_prefix_closed l S : prefix_closed S → prefix_closed (fold_left apply_intent l S).
Proof. revert S. induction l as [|i l IH]; intros S HS; cbn; [done|]. by apply IH, apply_intent_prefix_closed. Qed.

(** The snapshot is determined by its elements. *)
Lemma snapshot_elem S l x :
  x ∈ applyDirectoryIntentsToSnapshot S l ↔ x ∈ fold_left apply_intent l S.
Proof.
  unfold applyDirectoryIntentsToSnapshot, sort_strings. rewrite isort_elem.
  apply (apply_intents_proper l). intros y. apply js_set_elem.
Qed.

Lemma snapshot_ext S T l k :
  same_set (fold_left apply_intent l S) (fold_left apply_intent k T) →
  applyDirectoryIntentsToSnapshot S l = applyDirectoryIntentsToSnapshot T k.
Proof.
  intros H. apply sort_strings_ext; [apply apply_intents_NoDup, js_set_NoDup..|].
  intros x. etrans; [|etrans; [apply (H x)|]];
    [|symmetry]; apply (apply_intents_proper _); intros y; apply js_set_elem.
Qed.

Lemma snapshot_idem S l k :
  applyDirectoryIntentsToSnapshot (applyDirectoryIntentsToSnapshot S l) k =
  applyDirectoryIntentsToSnapshot S (l ++ k).
Proof.
  apply snapshot_ext. rewrite fold_left_app. apply apply_intents_proper.
  intros x. apply snapshot_elem.
Qed.

Lemma sorted_snapshot_id S : strictly_sorted S → applyDirectoryIntentsToSnapshot S [] = S.
Proof.
  intros HS. apply strictly_sorted_ext; [|done|].
  - apply sort_strings_strict, apply_intents_NoDup, js_set_NoDup.
  - intros x. apply snapshot_elem.
Qed.

(** No delete of [l] covers [x]. *)
Definition spared (l : list DirectoryIntent) (x : jstring) : Prop :=
  ∀ i, i ∈ l → in_op i = DirDelete → covers (in_path i) x = false.

Lemma spared_app l k x : spared (l ++ k) x ↔ spared l x ∧ spared k x.
Proof. unfold spared. setoid_rewrite elem_of_app. naive_solver. Qed.

Lemma spared_singleton i x :
  spared [i] x ↔ (in_op i = DirDelete → covers (in_path i) x = false).
Proof. unfold spared. setoid_rewrite list_elem_of_singleton. naive_solver. Qed.

(** What is left after a sequence of intents: the old paths no delete covers and
    the paths created (or implied) after the last delete that covers them. *)
Lemma apply_intents_elem l S x :
  x ∈ fold_left apply_intent l S ↔
  (x ∈ S ∧ spared l x) ∨
  ∃ l1 i l2, l = l1 ++ i :: l2 ∧ in_op i = DirCreate ∧ covers x (in_path i) = true ∧ spared l2 x.
Proof.
  induction l as [|j l IH] using rev_ind.
  - cbn. split; [left; split; [done|intros i Hi; by apply not_elem_of_nil in Hi]|].
    intros [[? _]|([|] & ? & ? & ? & _)]; done.
  - rewrite fold_left_app. cbn [fold_left]. rewrite apply_intent_elem, spared_app, spared_singleton.
    destruct (in_op j) eqn:Ej; rewrite IH.
    + split.
      * intros [[[Hx Hs]|(l1 & i & l2 & -> & Hi & Hc & Hs)]|Hx].
        -- left. split; [done|]. split; [done|]. intros [=].
        -- right. exists l1, i, (l2 ++ [j]). rewrite <- app_assoc. split; [done|].
           rewrite spared_app, spared_singleton. split; [done|]. split; [done|].
           split; [done|]. rewrite Ej. intros [=].
        -- right. exists l, j, []. split; [done|]. split; [done|]. split; [done|].
           intros i Hi. by apply not_elem_of_nil in Hi.
      * intros [[Hx [Hs _]]|(l1 & i & l2 & Heq & Hi & Hc & Hs)]; [left; by left|].
        destruct l2 as [|j' l2 _] using rev_ind.
        -- apply app_inj_tail in Heq as [-> <-]. by right.
        -- rewrite app_comm_cons, app_assoc in Heq. apply app_inj_tail in Heq as [-> <-].
           left. right. exists l1, i, l2. apply spared_app in Hs as [Hs _]. done.
    + split.
      * intros [[[Hx Hs]|(l1 & i & l2 & -> & Hi & Hc & Hs)] Hj].
        -- left. split; [done|]. split; [done|]. done.
        -- right. exists l1, i, (l2 ++ [j]). rewrite <- app_assoc. split; [done|].
           rewrite spared_app, spared_singleton. done.
      * intros [[Hx [Hs Hj]]|(l1 & i & l2 & Heq & Hi & Hc & Hs)].
        { split; [by left|]. by apply Hj. }
        destruct l2 as [|j' l2 _] using rev_ind.
        -- apply app_inj_tail in Heq as [-> <-]. congruence.
        -- rewrite app_comm_cons, app_assoc in Heq. apply app_inj_tail in Heq as [-> <-].
           rewrite spared_app, spared_singleton in Hs. destruct Hs as [Hs Hj]. split; [|by apply Hj].
           right. exists l1, i, l2. done.
Qed.

(** When no delete covers a created path the order of the intents is irrelevant. *)
Lemma apply_separated l S x :
  (∀ i j, i ∈ l → j ∈ l → in_op i = DirDelete → in_op j = DirCreate → covers (in_path i) (in_path j) = false) →
  x ∈ fold_left apply_intent l S ↔
  (x ∈ S ∧ spared l x) ∨ ∃ i, i ∈ l ∧ in_op i = DirCreate ∧ covers x (in_path i) = true.
Proof.
  intros Hsep. rewrite apply_intents_elem. split.
  - intros [?|(l1 & i & l2 & -> & Hi & Hc & _)]; [by left|]. right. exists i.
    split; [rewrite elem_of_app, elem_of_cons; auto|done].
  - intros [?|(i & Hin & Hi & Hc)]; [by left|]. right.
    apply list_elem_of_split in Hin as (l1 & l2 & ->). exists l1, i, l2. split; [done|]. split; [done|].
    split; [done|]. intros j Hj Hjd. apply not_true_iff_false. intros Hcov.
    assert (covers (in_path j) (in_path i) = false) as Hf.
    { apply Hsep; [..|done|done]; rewrite elem_of_app, elem_of_cons; auto. }
    by rewrite (covers_trans _ _ _ Hcov Hc) in Hf.
Qed.

(** Intents that agree or do not overlap commute. *)
Definition independent (i j : DirectoryIntent) : Prop :=
  in_op i = in_op j ∨ pathsOverlap (in_path i) (in_path j) = false.

Lemma pathsOverlap_covers a b :
  pathsOverlap a b = true ↔ covers a b = true ∨ covers b a = true.
Proof.
  unfold pathsOverlap, covers. rewrite !orb_true_iff, !jeqb_eq. naive_solver.
Qed.

Lemma apply_intent_comm S i j :
  independent i j → same_set (apply_intent (apply_intent S i) j) (apply_intent (apply_intent S j) i).
Proof.
  intros Hind x. rewrite (apply_intent_elem (apply_intent S i) j), (apply_intent_elem (apply_intent S j) i).
  assert (∀ a b, in_op a = DirCreate → in_op b = DirDelete → independent a b →
            covers x (in_path a) = true → covers (in_path b) x = false) as Hno.
  { intros a b Ha Hb [Hab|Hab] Hx; [congruence|]. apply not_true_iff_false. intros Hc.
    apply not_true_iff_false in Hab. apply Hab, pathsOverlap_covers. right. by eapply covers_trans. }
  assert (independent j i) as Hind'.
  { destruct Hind as [?|Ho]; [by left|right]. apply not_true_iff_false in Ho. apply not_true_iff_false.
    intros H. apply Ho. rewrite pathsOverlap_covers in *. naive_solver. }
  pose proof (Hno i j) as H1. pose proof (Hno j i) as H2.
  destruct (in_op i) eqn:Ei, (in_op j) eqn:Ej;
    rewrite (apply_intent_elem S i), (apply_intent_elem S j), Ei, Ej; intuition.
Qed.

Lemma apply_intents_comm l k S :
  (∀ i j, i ∈ l → j ∈ k → independent i j) →
  same_set (fold_left apply_intent k (fold_left apply_intent l S))
           (fold_left apply_intent l (fold_left apply_intent k S)).
Proof.
  assert (∀ i k S, (∀ j, j ∈ k → independent i j) →
    same_set (fold_left apply_intent k (apply_intent S i)) (apply_intent (fold_left apply_intent k S) i)) as Hone.
  { clear. intros i k. induction k as [|j k IH]; intros S H; cbn [fold_left]; [done|].
    rewrite (apply_intent_comm S i j) by (apply H; by left).
    apply IH. intros j' Hj'. apply H. by right. }
  revert S. induction l as [|i l IH]; intros S H; cbn [fold_left]; [done|].
  rewrite IH by (intros; apply H; [by right|done]).
  apply apply_intents_proper, Hone. intros j Hj. apply H; [by left|done].
Qed.

(** ** Laws of compaction *)

(** No later intent replaces [i] or deletes above it. *)
Definition survives (i : DirectoryIntent) (later : list DirectoryIntent) : Prop :=
  ∀ j, j ∈ later → in_path j ≠ in_path i ∧ (in_op j = DirDelete → covers (in_path j) (in_path i) = false).

Lemma survives_app i l k : survives i (l ++ k) ↔ survives i l ∧ survives i k.
Proof. unfold survives. setoid_rewrite elem_of_app. naive_solver. Qed.

Lemma compact_step_get m j p :
  mget (compact_step m j) p =
  if in_path j =s? p then Some j
  else if is_delete (in_op j) && covers (in_path j) p then None else mget m p.
Proof.
  unfold compact_step. rewrite mget_mset. destruct (in_path j =s? p); [done|].
  destruct (is_delete (in_op j)); [|done]. by rewrite mget_mdel_if.
Qed.

Lemma compact_step_NoDup m j : NoDup (mkeys m) → NoDup (mkeys (compact_step m j)).
Proof. intros Hm. unfold compact_step. apply NoDup_mset. destruct (is_delete _); [by apply NoDup_mdel_if|done]. Qed.

Definition compact_map (l : list DirectoryIntent) : jmap DirectoryIntent := fold_left compact_step l [].

Lemma compact_map_NoDup l : NoDup (mkeys (compact_map l)).
Proof.
  unfold compact_map. assert (NoDup (mkeys ([] : jmap DirectoryIntent))) as H by constructor.
  revert H. generalize ([] : jmap DirectoryIntent). induction l as [|j l IH]; intros m Hm; cbn; [done|].
  by apply IH, compact_step_NoDup.
Qed.

Lemma compact_map_get l p i :
  mget (compact_map l) p = Some i ↔ ∃ l1 l2, l = l1 ++ i :: l2 ∧ in_path i = p ∧ survives i l2.
Proof.
  unfold compact_map. revert p i. induction l as [|j l IH] using rev_ind; intros p i.
  { cbn. split; [done|]. by intros ([|] & ? & ? & _). }
  rewrite fold_left_app. cbn [fold_left]. rewrite compact_step_get.
  assert (∀ l1 l2, l ++ [j] = l1 ++ i :: l2 →
    (l2 = [] ∧ i = j) ∨ ∃ l2', l2 = l2' ++ [j] ∧ l = l1 ++ i :: l2') as Hsplit.
  { intros l1 l2 Heq. destruct l2 as [|j' l2 _] using rev_ind.
    - apply app_inj_tail in Heq as [_ Heq]. by left.
    - rewrite app_comm_cons, app_assoc in Heq. apply app_inj_tail in Heq as [-> ->]. right. eauto. }
  destruct (jeqb_spec (in_path j) p) as [Hp|Hp].
  - split.
    + intros [= <-]. exists l, []. split; [done|]. split; [done|]. intros k Hk. by apply not_elem_of_nil in Hk.
    + intros (l1 & l2 & Heq & Hi & Hs). destruct (Hsplit l1 l2 Heq) as [[_ ->]|(l2' & -> & _)]; [done|].
      destruct (Hs j) as [Hne _]; [rewrite elem_of_app, list_elem_of_singleton; auto|]. congruence.
  - destruct (is_delete (in_op j) && covers (in_path j) p) eqn:Ed.
    + split; [done|]. intros (l1 & l2 & Heq & Hi & Hs).
      destruct (Hsplit l1 l2 Heq) as [[_ ->]|(l2' & -> & _)]; [congruence|].
      destruct (Hs j) as [_ Hd]; [rewrite elem_of_app, list_elem_of_singleton; auto|].
      apply andb_true_iff in Ed as [E1 E2]. destruct (in_op j); [done|]. rewrite Hi, E2 in Hd. by discriminate Hd.
    + rewrite IH. split.
      * intros (l1 & l2 & -> & Hi & Hs). exists l1, (l2 ++ [j]). rewrite <- app_assoc.
        split; [done|]. split; [done|]. rewrite survives_app. split; [done|].
        intros k ->%list_elem_of_singleton. split; [congruence|]. intros Hk.
        rewrite Hk in Ed. cbn in Ed. by rewrite Hi.
      * intros (l1 & l2 & Heq & Hi & Hs). destruct (Hsplit l1 l2 Heq) as [[_ ->]|(l2' & -> & ->)]; [congruence|].
        apply survives_app in Hs as [Hs _]. eauto.
Qed.

Lemma mvalues_elem {A} (m : jmap A) v : v ∈ mvalues m ↔ ∃ k, (k, v) ∈ m.
Proof.
  unfold mvalues. rewrite list_elem_of_In, in_map_iff. setoid_rewrite list_elem_of_In.
  split; [intros ([k v'] & <- & ?); eauto|intros [k ?]; exists (k, v); auto].
Qed.

Section compaction.
Context `{U : Unicode}.

Lemma compact_elem l i :
  i ∈ compactDirectoryIntents l ↔ ∃ l1 l2, l = l1 ++ i :: l2 ∧ survives i l2.
Proof.
  unfold compactDirectoryIntents. rewrite isort_elem, mvalues_elem.
  fold (compact_map l). setoid_rewrite <- mget_elem; [|apply compact_map_NoDup].
  setoid_rewrite compact_map_get. naive_solver.
Qed.

Lemma compact_subset l i : i ∈ compactDirectoryIntents l → i ∈ l.
Proof. intros (l1 & l2 & -> & _)%compact_elem. rewrite elem_of_app, elem_of_cons. auto. Qed.

Lemma compact_length l : (length (compactDirectoryIntents l) ≤ length l)%nat.
Proof.
  unfold compactDirectoryIntents. rewrite isort_perm. unfold mvalues. rewrite length_map.
  change l with ([] ++ l) at 2.
  enough (∀ m, length (fold_left compact_step l m) ≤ length m + length l)%nat as H by apply (H []).
  induction l as [|j l IH]; intros m; cbn; [lia|]. etransitivity; [apply IH|].
  enough (length (compact_step m j) ≤ S (length m))%nat by lia.
  unfold compact_step. etransitivity; [apply mset_length|]. apply le_n_S.
  destruct (is_delete _); [|done]. unfold mdel_if. apply filter_length_le.
Qed.

Lemma compact_paths_NoDup l : NoDup (map in_path (compactDirectoryIntents l)).
Proof.
  unfold compactDirectoryIntents. change (fold_left compact_step l []) with (compact_map l).
  assert (map in_path (isort intent_leb (mvalues (compact_map l))) ≡ₚ mkeys (compact_map l)) as ->;
    [|apply compact_map_NoDup].
  rewrite isort_perm. unfold mvalues, mkeys. rewrite map_map.
  assert (∀ kv, In kv (compact_map l) → in_path kv.2 = kv.1) as H; [|by erewrite map_ext_in].
  intros [p i] Hin. cbn. rewrite <- list_elem_of_In in Hin. apply mget_elem in Hin; [|apply compact_map_NoDup].
  apply compact_map_get in Hin as (_ & _ & _ & Hp & _). done.
Qed.

(** At most one intent per path is left. *)
Lemma compact_path_unique l i j :
  i ∈ compactDirectoryIntents l → j ∈ compactDirectoryIntents l → in_path i = in_path j → i = j.
Proof.
  rewrite !compact_elem. intros (l1 & l2 & H1 & Hs1) (k1 & k2 & H2 & Hs2) Hp.
  assert (mget (compact_map l) (in_path i) = Some i) as Hi by (apply compact_map_get; eauto).
  assert (mget (compact_map l) (in_path i) = Some j) as Hj by (apply compact_map_get; eauto).
  congruence.
Qed.

Context {UOk : UnicodeOk U}.

Lemma op_leb_refl op : locale_leb (op_string op) (op_string op) = true.
Proof. unfold locale_leb. by rewrite locale_refl. Qed.

Lemma intent_leb_spec a b :
  intent_leb a b = true ↔
  locale_leb (in_path a) (in_path b) = true ∧
  (locale_leb (in_path b) (in_path a) = true → locale_leb (op_string (in_op a)) (op_string (in_op b)) = true).
Proof.
  unfold intent_leb. unfold locale_leb at 2 3. rewrite (locale_antisym (in_path a) (in_path b)).
  destruct (locale_compare (in_path a) (in_path b)); cbn;
    destruct (locale_leb (op_string _) _); naive_solver.
Qed.

Lemma intent_leb_total a b : intent_leb a b = true ∨ intent_leb b a = true.
Proof.
  unfold intent_leb. rewrite (locale_antisym (in_path a) (in_path b)).
  destruct (locale_compare (in_path a) (in_path b)); cbn; auto using locale_leb_total.
Qed.

Lemma intent_leb_trans a b c : intent_leb a b = true → intent_leb b c = true → intent_leb a c = true.
Proof.
  rewrite !intent_leb_spec. intros [H1 H2] [H3 H4]. split; [by eapply locale_leb_trans|].
  intros H5. eapply locale_leb_trans; [apply H2|apply H4]; eapply locale_leb_trans; eauto.
Qed.

Lemma compact_sorted l : StronglySorted (λ a b, intent_leb a b = true) (compactDirectoryIntents l).
Proof. apply isort_sorted; [apply intent_leb_total|apply intent_leb_trans]. Qed.

(** An intent on a directory comes before the intents below it. *)
Lemma compact_parent_first l l1 i l2 j :
  compactDirectoryIntents l = l1 ++ i :: l2 → j ∈ l2 → below (in_path j) (in_path i) = false.
Proof.
  intros Heq Hj. apply not_true_iff_false. intros [t Ht]%below_spec.
  pose proof (compact_sorted l) as Hs. rewrite Heq in Hs.
  apply StronglySorted_app in Hs as (_ & _ & Hs).
  apply StronglySorted_inv in Hs as [_ Hs]. rewrite Forall_forall in Hs. specialize (Hs j Hj).
  unfold intent_leb in Hs. rewrite Ht, locale_antisym, locale_below in Hs. done.
Qed.

(** *** When compaction is harmless

    [explicit_creations S l]: an intent creates a directory only where its
    ancestors are already present; [no_recreation l]: no path is created again
    after an intent of [l] deleted that very path. *)
Definition explicit_creations (S : list jstring) (l : list DirectoryIntent) : Prop :=
  ∀ l1 i l2 d, l = l1 ++ i :: l2 → in_op i = DirCreate → below d (in_path i) = true →
    d ∈ fold_left apply_intent l1 S.

Definition no_recreation (l : list DirectoryIntent) : Prop :=
  ∀ l1 i l2 j l3, l = l1 ++ i :: l2 ++ j :: l3 → in_op i = DirDelete → in_op j = DirCreate →
    in_path i ≠ in_path j.

Lemma explicit_creations_prefix S l k : explicit_creations S (l ++ k) → explicit_creations S l.
Proof.
  intros H l1 i l2 d -> Hi Hd. apply (H l1 i (l2 ++ k)); [|done|done]. by rewrite <- app_assoc.
Qed.

(** Under explicit creation what is present was there or created by name. *)
Lemma explicit_elem l S x :
  explicit_creations S l → x ∈ fold_left apply_intent l S →
  (x ∈ S ∧ spared l x) ∨ ∃ l1 l2, l = l1 ++ mk_intent DirCreate x :: l2 ∧ spared l2 x
                                  ∧ mk_intent DirCreate x ∉ l2.
Proof.
  induction l as [|j l IH] using rev_ind; intros Hex.
  - cbn. left. split; [done|]. intros i Hi. by apply not_elem_of_nil in Hi.
  - rewrite fold_left_app. cbn [fold_left]. rewrite apply_intent_elem. intros Hx.
    assert (x ∈ fold_left apply_intent l S → spared [j] x → mk_intent DirCreate x ≠ j →
      (x ∈ S ∧ spared (l ++ [j]) x) ∨ ∃ l1 l2, l ++ [j] = l1 ++ mk_intent DirCreate x :: l2
        ∧ spared l2 x ∧ mk_intent DirCreate x ∉ l2) as Hkeep.
    { intros Hin Hsp Hne. destruct (IH (explicit_creations_prefix _ _ _ Hex) Hin) as [[? ?]|(l1 & l2 & -> & ? & ?)].
      - left. by rewrite spared_app.
      - right. exists l1, (l2 ++ [j]). rewrite <- app_assoc, spared_app, not_elem_of_app.
        split; [done|]. split; [done|]. split; [done|]. by intros ?%list_elem_of_singleton. }
    destruct j as [[] p]; cbn in Hx.
    + destruct (decide (p = x)) as [->|Hne].
      { right. exists l, []. split; [done|]. split; [|apply not_elem_of_nil].
        intros i Hi. by apply not_elem_of_nil in Hi. }
      apply Hkeep; [|by intros i ->%list_elem_of_singleton|congruence].
      destruct Hx as [?|Hc]; [done|]. apply covers_spec in Hc as [?|Hb]; [done|].
      by apply (Hex l (mk_intent DirCreate p) []).
    + destruct Hx as [Hx Hc]. apply Hkeep; [done| |done]. by intros i ->%list_elem_of_singleton.
Qed.

(** The last delete that covers a path. *)
Lemma last_delete l x :
  ¬ spared l x → ∃ l1 q l2, l = l1 ++ q :: l2 ∧ in_op q = DirDelete ∧ covers (in_path q) x = true ∧ spared l2 x.
Proof.
  induction l as [|j l IH] using rev_ind; intros Hn.
  - destruct Hn. intros i Hi. by apply not_elem_of_nil in Hi.
  - destruct (is_delete (in_op j) && covers (in_path j) x) eqn:E.
    + apply andb_true_iff in E as [E1 E2]. exists l, j, []. split; [done|].
      split; [by destruct (in_op j)|]. split; [done|]. intros i Hi. by apply not_elem_of_nil in Hi.
    + assert (spared [j] x) as Hj.
      { intros i ->%list_elem_of_singleton Hd. by rewrite Hd in E. }
      destruct IH as (l1 & q & l2 & -> & ? & ? & ?).
      { intros Hs. apply Hn. by rewrite spared_app. }
      exists l1, q, (l2 ++ [j]). rewrite <- app_assoc, spared_app. done.
Qed.

Lemma compact_same_set S l :
  prefix_closed S → explicit_creations S l → no_recreation l →
  same_set (fold_left apply_intent (compactDirectoryIntents l) S) (fold_left apply_intent l S).
Proof.
  intros HS Hex Hre x. split.
  - rewrite (apply_intents_elem (compactDirectoryIntents l)).
    intros [[Hx Hsp]|(c1 & i & c2 & Hc & Hi & Hcov & Hsp)].
    + (* an old path no surviving delete covers *)
      destruct (decide (x ∈ fold_left apply_intent l S)) as [|Hno]; [done|]. exfalso.
      assert (¬ spared l x) as (l1 & q & l2 & -> & Hq & Hqx & Hl2)%last_delete.
      { intros Hs. apply Hno, apply_intents_elem. by left. }
      assert (q ∈ compactDirectoryIntents (l1 ++ q :: l2)) as Hqc.
      { apply compact_elem. exists l1, l2. split; [done|]. intros j Hj. split.
        - intros Hp. destruct (in_op j) eqn:Ej.
          + apply list_elem_of_split in Hj as (a & b & ->). by apply (Hre l1 q a j b).
          + specialize (Hl2 j Hj Ej). by rewrite Hp, Hqx in Hl2.
        - intros Ej. apply not_true_iff_false. intros Hc. specialize (Hl2 j Hj Ej).
          by rewrite (covers_trans _ _ _ Hc Hqx) in Hl2. }
      specialize (Hsp q Hqc Hq). by rewrite Hqx in Hsp.
    + (* created, or implied by a creation that survives *)
      assert (i ∈ compactDirectoryIntents l) as (l1 & l2 & -> & Hsv)%compact_elem.
      { rewrite Hc, elem_of_app, elem_of_cons. auto. }
      assert (in_path i ∈ fold_left apply_intent (l1 ++ i :: l2) S) as Hin.
      { apply apply_intents_elem. right. exists l1, i, l2. split; [done|]. split; [done|].
        split; [done|]. intros j Hj Hd. by apply (Hsv j Hj). }
      apply covers_spec in Hcov as [<-|Hb]; [done|].
      eapply (apply_intents_prefix_closed (l1 ++ i :: l2) S HS); eauto.
  - intros [[Hx Hsp]|(l1 & l2 & -> & Hsp & Hlast)]%explicit_elem; [| |done].
    + apply apply_intents_elem. left. split; [done|]. intros i Hi. by apply Hsp, compact_subset.
    + apply apply_intents_elem. right.
      assert (mk_intent DirCreate x ∈ compactDirectoryIntents (l1 ++ mk_intent DirCreate x :: l2)) as Hin.
      { apply compact_elem. exists l1, l2. split; [done|]. intros j Hj. split; [|intros Hd; by apply Hsp].
        intros Hp. destruct j as [[] p]; cbn in Hp; subst p; [done|].
        specialize (Hsp _ Hj eq_refl). by rewrite covers_refl in Hsp. }
      apply list_elem_of_split in Hin as (c1 & c2 & Hc).
      exists c1, (mk_intent DirCreate x), c2. split; [done|]. split; [done|]. split; [done|].
      intros j Hj Hd. apply not_true_iff_false. intros [Heq|Hb]%covers_spec.
      * assert (mk_intent DirCreate x = j) as <-; [|done].
        eapply compact_path_unique; [| |by cbn]; rewrite Hc, elem_of_app, elem_of_cons; auto.
      * pose proof (compact_parent_first _ _ _ _ _ Hc Hj) as Hf. cbn in Hf. congruence.
Qed.

(** *** The delta between two snapshots *)

Lemma deleted_paths_elem prev cur p :
  p ∈ deleted_paths prev cur ↔
  p ∈ prev ∧ p ∉ cur ∧ ∀ c, c ∈ prev → c ∉ cur → below c p = false.
Proof.
  unfold deleted_paths. rewrite !filter_elem, !negb_true_iff, jmem_not_elem.
  assert (existsb (λ candidate, negb (candidate =s? p) && below candidate p && negb (jmem candidate cur)) prev = false
          ↔ ∀ c, c ∈ prev → c ∉ cur → below c p = false) as ->.
  - rewrite <- not_true_iff_false, existsb_exists. split.
    + intros H c Hc Hn. apply not_true_iff_false. intros Hb. apply H. exists c.
      rewrite <- list_elem_of_In. split; [done|]. rewrite Hb, (proj2 (jmem_not_elem _ _) Hn).
      destruct (jeqb_spec c p) as [->|]; [|done]. by rewrite below_irrefl in Hb.
    + intros H (c & Hc & Ht). rewrite <- list_elem_of_In in Hc. split_tests.
      match goal with H1 : jmem c cur = false |- _ => apply jmem_not_elem in H1; rewrite (H c Hc H1) in * end.
      done.
  - tauto.
Qed.

Lemma created_paths_elem prev cur p : p ∈ created_paths prev cur ↔ p ∈ cur ∧ p ∉ prev.
Proof. unfold created_paths. by rewrite filter_elem, negb_true_iff, jmem_not_elem. Qed.

(** Every removed path lies under a removed path that is reported. *)
Lemma deleted_paths_cover prev cur p :
  p ∈ prev → p ∉ cur → ∃ d, d ∈ deleted_paths prev cur ∧ covers d p = true.
Proof.
  remember (length p) as n eqn:Hn. revert p Hn.
  induction (Nat.lt_wf_0 n) as [n _ IH]; intros p -> Hp Hc.
  destruct (existsb (λ c, below c p && negb (jmem c cur)) prev) eqn:E.
  - apply existsb_exists in E as (c & Hin & Ht). rewrite <- list_elem_of_In in Hin. split_tests.
    match goal with H : jmem c cur = false |- _ => apply jmem_not_elem in H end.
    destruct (IH (length c) (below_length c p ltac:(done)) c eq_refl) as (d & Hd & Hdc); [done..|].
    exists d. split; [done|]. eapply covers_trans; [done|]. apply covers_spec. by right.
  - exists p. split; [|apply covers_refl]. apply deleted_paths_elem. split; [done|]. split; [done|].
    intros c Hcp Hcn. apply not_true_iff_false. intros Hb.
    apply not_true_iff_false in E. apply E, existsb_exists. exists c. rewrite <- list_elem_of_In.
    by rewrite Hb, (proj2 (jmem_not_elem _ _) Hcn).
Qed.

Lemma between_elem prev cur i :
  NoDup prev → NoDup cur → prefix_closed cur →
  i ∈ directoryIntentsBetweenSnapshots prev cur ↔
  match in_op i with
  | DirDelete => in_path i ∈ deleted_paths prev cur
  | DirCreate => in_path i ∈ created_paths prev cur
  end.
Proof.
  intros Hp Hc Hcl. unfold directoryIntentsBetweenSnapshots.
  set (dels := map (mk_intent DirDelete) (deleted_paths prev cur)).
  set (crs := map (mk_intent DirCreate) (created_paths prev cur)).
  assert (∀ i, i ∈ dels ↔ in_op i = DirDelete ∧ in_path i ∈ deleted_paths prev cur) as Hdels.
  { intros [op p]. subst dels. rewrite list_elem_of_In, in_map_iff. setoid_rewrite <- list_elem_of_In.
    cbn. split; [intros (x & [= <- <-] & ?); done|intros [-> ?]; by exists p]. }
  assert (∀ i, i ∈ crs ↔ in_op i = DirCreate ∧ in_path i ∈ created_paths prev cur) as Hcrs.
  { intros [op p]. subst crs. rewrite list_elem_of_In, in_map_iff. setoid_rewrite <- list_elem_of_In.
    cbn. split; [intros (x & [= <- <-] & ?); done|intros [-> ?]; by exists p]. }
  assert (NoDup (map in_path (dels ++ crs))) as Hnd.
  { subst dels crs. rewrite map_app, !map_map. cbn. rewrite !map_id. apply NoDup_app. split; [|split].
    - unfold deleted_paths. rewrite NoDup_ListNoDup in *. by do 2 apply List.NoDup_filter.
    - intros x Hx Hy. apply deleted_paths_elem in Hx. apply created_paths_elem in Hy. tauto.
    - unfold created_paths. rewrite NoDup_ListNoDup in *. by apply List.NoDup_filter. }
  assert (i ∈ compactDirectoryIntents (dels ++ crs) ↔ i ∈ dels ++ crs) as ->.
  - split; [apply compact_subset|]. intros Hin. apply compact_elem.
    apply list_elem_of_split in Hin as (l1 & l2 & Heq). exists l1, l2. split; [done|].
    intros j Hj. split.
    + intros Hpath. rewrite Heq, map_app in Hnd. cbn in Hnd. apply NoDup_app in Hnd as (_ & _ & Hnd).
      apply NoDup_cons in Hnd as [Hnin _]. apply Hnin. rewrite <- Hpath.
      rewrite list_elem_of_In, in_map_iff. exists j. by rewrite <- list_elem_of_In.
    + intros Hjd. assert (j ∈ dels ++ crs) as Hjin by (rewrite Heq, elem_of_app, elem_of_cons; auto).
      apply elem_of_app in Hjin as [Hjin|Hjin]; [|apply Hcrs in Hjin as [? _]; congruence].
      apply Hdels in Hjin as [_ Hjp]. apply deleted_paths_elem in Hjp as (Hj1 & Hj2 & _).
      assert (in_path j ≠ in_path i) as Hne.
      { intros Heqp. rewrite Heq, map_app in Hnd. cbn in Hnd. apply NoDup_app in Hnd as (_ & _ & Hnd).
        apply NoDup_cons in Hnd as [Hnin _]. apply Hnin. rewrite <- Heqp.
        rewrite list_elem_of_In, in_map_iff. exists j. by rewrite <- list_elem_of_In. }
      apply not_true_iff_false. intros [Heqp|Hb]%covers_spec; [congruence|].
      assert (i ∈ dels ++ crs) as Hi by (rewrite Heq, elem_of_app, elem_of_cons; auto).
      apply elem_of_app in Hi as [[_ Hi]%Hdels|[_ Hi]%Hcrs].
      * apply deleted_paths_elem in Hi as (_ & _ & Hi). by rewrite (Hi _ Hj1 Hj2) in Hb.
      * apply created_paths_elem in Hi as [Hi _]. by destruct Hj2; eapply Hcl.
  - rewrite elem_of_app, Hdels, Hcrs. destruct (in_op i); intuition congruence.
Qed.

(** Applying the delta turns the previous snapshot into the current one. *)
Lemma between_apply_same_set prev cur :
  NoDup prev → NoDup cur → prefix_closed cur →
  same_set (fold_left apply_intent (directoryIntentsBetweenSnapshots prev cur) prev) cur.
Proof.
  intros Hp Hc Hcl x.
  set (l := directoryIntentsBetweenSnapshots prev cur).
  assert (∀ i, i ∈ l ↔ _) as Hl by (intros i; by apply between_elem).
  rewrite apply_separated.
  - split.
    + intros [[Hx Hsp]|(i & Hi & Hcr & Hcov)].
      * destruct (decide (x ∈ cur)) as [|Hn]; [done|]. exfalso.
        destruct (deleted_paths_cover prev cur x Hx Hn) as (d & Hd & Hdx).
        assert (mk_intent DirDelete d ∈ l) as Hdl by (apply Hl; done).
        specialize (Hsp _ Hdl eq_refl). cbn in Hsp. congruence.
      * apply Hl in Hi. rewrite Hcr in Hi. apply created_paths_elem in Hi as [Hi _].
        apply covers_spec in Hcov as [<-|Hb]; [done|]. by eapply Hcl.
    + intros Hx. destruct (decide (x ∈ prev)) as [Hxp|Hxp].
      * left. split; [done|]. intros i Hi Hd. apply Hl in Hi. rewrite Hd in Hi.
        apply deleted_paths_elem in Hi as (_ & Hi & _).
        apply not_true_iff_false. intros [Heq|Hb]%covers_spec; [congruence|]. destruct Hi. by eapply Hcl.
      * right. exists (mk_intent DirCreate x). split; [|by cbn].
        apply Hl. cbn. by apply created_paths_elem.
  - intros i j Hi Hj Hid Hjc. apply Hl in Hi, Hj. rewrite Hid in Hi. rewrite Hjc in Hj.
    apply deleted_paths_elem in Hi as (_ & Hi & _). apply created_paths_elem in Hj as [Hj _].
    apply not_true_iff_false. intros [Heq|Hb]%covers_spec; [congruence|]. destruct Hi. by eapply Hcl.
Qed.

Lemma between_apply prev cur :
  NoDup prev → strictly_sorted cur → prefix_closed cur →
  applyDirectoryIntentsToSnapshot prev (directoryIntentsBetweenSnapshots prev cur) = cur.
Proof.
  intros Hp Hc Hcl. rewrite <- (sorted_snapshot_id cur) at 2 by done.
  apply snapshot_ext. cbn [fold_left]. apply between_apply_same_set; [done| |done].
  by apply strictly_sorted_NoDup.
Qed.

End compaction.

(** ** Laws of the event log *)

Lemma check_contiguous_Ok e l e' :
  check_contiguous e l = Ok e' ↔
  map e_event_seq l = seqZ e (Z.of_nat (length l)) ∧ e' = e + Z.of_nat (length l).
Proof.
  revert e. induction l as [|event l IH]; intros e; cbn [check_contiguous].
  - cbn. split; [intros [= ->]; split; [done|lia]|intros [_ ->]; f_equal; lia].
  - cbn [map length]. rewrite Nat2Z.inj_succ, <- Z.add_1_r.
    rewrite (seqZ_cons e (Z.of_nat (length l) + 1)) by lia.
    replace (Z.pred (Z.of_nat (length l) + 1)) with (Z.of_nat (length l)) by lia.
    destruct (Z.eqb_spec (e_event_seq event) e) as [->|Hne].
    + rewrite IH. replace (Z.succ e) with (e + 1) by lia. split.
      * intros [-> ->]. split; [done|lia].
      * intros [[= ->] ->]. split; [done|lia].
    + split; [done|]. by intros [[= ? _] _].
Qed.

(** The vault's events between two sequence numbers, in order. *)
Definition vault_events_between (db : MetadataDb) (vaultId : jstring) (after through : Z) : list EventEnvelope :=
  List.filter (λ event, after <? e_event_seq event)
    (List.filter (λ event, e_event_seq event <=? through)
      (isort by_event_seq (List.filter (event_in_vault vaultId) (db_events db)))).

(** The directory row of a vault as the code writes it. *)
Definition explicit_dirs (db : MetadataDb) (vaultId : jstring) : list jstring :=
  default [] (ds_explicit_dirs <$> mget (db_directory_state_by_vault db) vaultId).

Definition well_formed_snapshot (l : list jstring) : Prop := strictly_sorted l ∧ prefix_closed l.

Lemma snapshot_well_formed S l :
  prefix_closed S → well_formed_snapshot (applyDirectoryIntentsToSnapshot S l).
Proof.
  intros HS. split.
  - apply sort_strings_strict, apply_intents_NoDup, js_set_NoDup.
  - intros d p. rewrite !snapshot_elem. by apply apply_intents_prefix_closed.
Qed.

(** [applyDirectoryIntents] writes the applied snapshot of its vault only. *)
Lemma applyDirectoryIntents_row w i db vaultId l eventSeq v :
  strictly_sorted (explicit_dirs db vaultId) →
  explicit_dirs (applyDirectoryIntents w i db vaultId l eventSeq) v =
  if v =s? vaultId then applyDirectoryIntentsToSnapshot (explicit_dirs db vaultId) l else explicit_dirs db v.
Proof.
  intros Hs. unfold applyDirectoryIntents. destruct l as [|a l].
  - rewrite sorted_snapshot_id by done. by destruct (jeqb_spec v vaultId) as [->|].
  - unfold explicit_dirs. cbn [db_directory_state_by_vault set_db_directory_state_by_vault].
    rewrite mget_mset, (jeqb_sym v vaultId). destruct (vaultId =s? v); [|done]. cbn.
    by destruct (mget (db_directory_state_by_vault db) vaultId) as [row|].
Qed.

Lemma prefix_closed_nil : prefix_closed [].
Proof. intros d p H. by apply not_elem_of_nil in H. Qed.

Lemma replay_NoDup l k : NoDup k → NoDup (fold_left replay_intent l k).
Proof.
  revert k. induction l as [|j l IH]; intros k Hk; cbn [fold_left]; [done|]. apply IH. unfold replay_intent.
  destruct (in_op j); [by apply set_add_NoDup|]. rewrite NoDup_ListNoDup in *. by apply List.NoDup_filter.
Qed.

Lemma snapshotThrough_Ok `{U : Unicode} db vaultId deviceId eventSeq after base snapshot :
  snapshotThrough db vaultId deviceId
    (isort by_event_seq (List.filter (event_in_vault vaultId) (db_events db))) eventSeq after base = Ok snapshot →
  sn_eventSeq snapshot = eventSeq ∧
  (after < eventSeq →
   map e_event_seq (vault_events_between db vaultId after eventSeq) = seqZ (after + 1) (eventSeq - after)) ∧
  strictly_sorted (sn_explicitDirectories snapshot).
Proof.
  unfold snapshotThrough, vault_events_between.
  set (events := List.filter (λ event, e_event_seq event <=? eventSeq) _).
  intros (u & Hcheck & H)%bind_Ok. destruct (_ && _ && _) in H; [done|]. injection H as <-.
  split; [done|]. split; [|apply sort_strings_strict, replay_NoDup, js_set_NoDup].
  intros Hlt. rewrite (proj2 (Z.ltb_lt _ _) Hlt) in Hcheck.
  apply bind_Ok in Hcheck as (e & Hc & Hend). apply check_contiguous_Ok in Hc as [Hmap He].
  destruct (Z.eqb_spec e (eventSeq + 1)) as [Heq|]; [|done].
  rewrite Hmap. f_equal. lia.
Qed.

Section properties.
Context `{U : Unicode} {UOk : UnicodeOk U}.

(** [C26] The intents computed between two snapshots turn the first into the
    second: for a duplicate-free previous snapshot and a sorted current one that
    contains the ancestors of its paths, application after difference is the
    identity, whatever order compaction puts the intents in. *)
Theorem directory_delta_round_trip (previous current : list jstring) :
  NoDup previous → well_formed_snapshot current →
  applyDirectoryIntentsToSnapshot previous (directoryIntentsBetweenSnapshots previous current) = current.
Proof. intros Hp [Hs Hc]. by apply between_apply. Qed.

Lemma classify_Ok `{G : GitReads} (sha : DirectoryProposal → jstring) db vaultId deviceId proposal plan :
  classifyDirectoryProposal sha db vaultId deviceId proposal = Ok plan →
  ∃ device baseline, requireDevice db deviceId = Ok device ∧ d_last_applied_explicit_dirs device = Some baseline
    ∧ plan = classify_intents db vaultId proposal (sha proposal) baseline.
Proof.
  unfold classifyDirectoryProposal. rewrite bind_Ok. intros (device & Hd & H).
  destruct (d_last_applied_explicit_dirs device) as [baseline|] eqn:Hb; [|done].
  destruct (hasUsableDirectoryProposalBaseline _ _ _); [|done]. cbn [negb] in H.
  apply bind_Ok in H as (? & _ & [= <-]). eauto.
Qed.

Lemma clean_intents_merge (db : MetadataDb) (vaultId : jstring) proposal requestSha256 baseline w i eventSeq :
  let plan := classify_intents db vaultId proposal requestSha256 baseline in
  let device := intents_of (dp_intents proposal) in
  let server := directoryIntentsBetweenSnapshots (pl_baseExplicitDirs plan) (pl_serverExplicitDirs plan) in
  let db' := applyDirectoryIntents w i db vaultId device eventSeq in
  well_formed_snapshot (explicit_dirs db vaultId) → NoDup baseline → pl_conflictingIntents plan = [] →
  explicit_dirs db' vaultId =
    applyDirectoryIntentsToSnapshot (applyDirectoryIntentsToSnapshot (pl_baseExplicitDirs plan) device) server
  ∧ well_formed_snapshot (explicit_dirs db' vaultId)
  ∧ ∀ v, v ≠ vaultId → explicit_dirs db' v = explicit_dirs db v.
Proof.
  intros plan device server db' [Hsort Hcl] Hnd Hclean.
  assert (pl_serverExplicitDirs plan = explicit_dirs db vaultId) as Hserver.
  { by apply sort_strings_id. }
  assert (NoDup (pl_baseExplicitDirs plan)) as Hbase by by apply isort_NoDup.
  assert (∀ a b, a ∈ device → b ∈ server → independent a b) as Hind.
  { intros a b Ha Hb. unfold device, intents_of in Ha. rewrite list_elem_of_In, in_map_iff in Ha.
    destruct Ha as (p & <- & Hp). rewrite <- list_elem_of_In in Hp.
    destruct (decide (in_op b = pi_op p)) as [Hop|Hop]; [left; by cbn|right].
    apply not_true_iff_false. intros Ho.
    assert (p ∈ pl_conflictingIntents plan) as Hin; [|rewrite Hclean in Hin; by apply not_elem_of_nil in Hin].
    cbn [pl_conflictingIntents plan classify_intents]. apply filter_elem. split; [done|].
    unfold intent_conflicts. apply orb_true_iff. right. apply existsb_exists. exists b.
    rewrite <- list_elem_of_In. split; [done|]. unfold opposed.
    rewrite bool_decide_eq_false_2 by done. cbn. rewrite pathsOverlap_covers in *. cbn in Ho. tauto. }
  assert (∀ v, explicit_dirs db' v = if v =s? vaultId then applyDirectoryIntentsToSnapshot (explicit_dirs db vaultId) device
            else explicit_dirs db v) as Hrow by (intros; by apply applyDirectoryIntents_row).
  split; [|split].
  - rewrite Hrow, jeqb_refl, snapshot_idem. apply snapshot_ext.
    rewrite fold_left_app. rewrite apply_intents_comm by done.
    apply apply_intents_proper. symmetry. unfold server. rewrite Hserver.
    apply between_apply_same_set; [done|by apply strictly_sorted_NoDup|done].
  - rewrite Hrow, jeqb_refl. by apply snapshot_well_formed.
  - intros v Hv. rewrite Hrow. by rewrite (proj2 (jeqb_neq _ _) Hv).
Qed.

(** [C25] Merging a device's directory proposal: when classification of the
    proposal succeeds and finds no conflicting intent, committing it on the
    server's directories gives the directories the device would reach from its
    acknowledged baseline by first applying its own intents and then the server's
    changes since; the row stays sorted and closed under ancestors, and no other
    vault's row changes. *)
Theorem clean_proposal_merges (G : GitReads) (sha : DirectoryProposal → jstring) (db : MetadataDb)
    (vaultId deviceId : jstring) proposal plan device w i eventSeq :
  let intents := intents_of (dp_intents proposal) in
  let server := directoryIntentsBetweenSnapshots (pl_baseExplicitDirs plan) (pl_serverExplicitDirs plan) in
  let db' := applyDirectoryIntents w i db vaultId intents eventSeq in
  classifyDirectoryProposal sha db vaultId deviceId proposal = Ok plan →
  requireDevice db deviceId = Ok device → NoDup (default [] (d_last_applied_explicit_dirs device)) →
  well_formed_snapshot (explicit_dirs db vaultId) → pl_conflictingIntents plan = [] →
  explicit_dirs db' vaultId =
    applyDirectoryIntentsToSnapshot (applyDirectoryIntentsToSnapshot (pl_baseExplicitDirs plan) intents) server
  ∧ pl_baseExplicitDirs plan = sort_strings (default [] (d_last_applied_explicit_dirs device))
  ∧ well_formed_snapshot (explicit_dirs db' vaultId)
  ∧ ∀ v, v ≠ vaultId → explicit_dirs db' v = explicit_dirs db v.
Proof.
  intros intents server db' Hplan Hdev Hnd Hwf Hclean.
  apply classify_Ok in Hplan as (row & baseline & Hrow & Hb & ->).
  rewrite Hdev in Hrow. injection Hrow as <-. rewrite Hb in Hnd |- *. cbn [default from_option] in *.
  destruct (clean_intents_merge db vaultId proposal (sha proposal) baseline w i eventSeq Hwf Hnd Hclean)
    as (? & ? & ?). by split_and!.
Qed.

(** Compacting a list of intents does not change what applying it gives,
    provided the snapshot contains the ancestors of its paths, every creation
    names its missing ancestors first, and no path is created again after it was
    deleted. *)
Theorem compaction_preserves_outcome (S : list jstring) (l : list DirectoryIntent) :
  prefix_closed S → explicit_creations S l → no_recreation l →
  applyDirectoryIntentsToSnapshot S (compactDirectoryIntents l) = applyDirectoryIntentsToSnapshot S l.
Proof. intros. apply snapshot_ext. by apply compact_same_set. Qed.

(** A historical snapshot is only given on complete evidence: it is dated
    by an event that advanced main to the requested commit (or is the vault's
    root commit, at sequence 0), and the vault's events after the baseline carry
    exactly the sequence numbers up to that event, each once. *)
Theorem historical_snapshot_contiguous (db : MetadataDb) (vaultId deviceId targetMain : jstring) after base snapshot :
  (∀ v, find_row (λ candidate, v_vault_id candidate =s? vaultId) (db_vaults db) = Some v → v_current_main v ≠ targetMain) →
  eventSnapshotForTarget db vaultId deviceId targetMain after base = Ok snapshot →
  ((∃ event, event ∈ db_events db ∧ e_vault_id event = vaultId ∧ main_advanced_to targetMain event = true
             ∧ e_event_seq event = sn_eventSeq snapshot) ∨ sn_eventSeq snapshot = 0) ∧
  (after < sn_eventSeq snapshot →
   map e_event_seq (vault_events_between db vaultId after (sn_eventSeq snapshot)) =
   seqZ (after + 1) (sn_eventSeq snapshot - after)) ∧
  strictly_sorted (sn_explicitDirectories snapshot).
Proof.
  intros Hmain. unfold eventSnapshotForTarget.
  destruct (match find_row _ (db_vaults db) with Some v => _ | None => false end) eqn:Ev.
  { destruct (find_row _ (db_vaults db)) as [v|] eqn:Ef; [|done]. apply jeqb_eq in Ev. by destruct (Hmain v). }
  set (events := isort by_event_seq (List.filter (event_in_vault vaultId) (db_events db))).
  destruct (find_row (main_advanced_to targetMain) (rev events)) as [event|] eqn:Ee.
  - cbn [is_null_or andb fmap option_fmap option_map from_option default].
    intros [Hseq [Hc Hs]]%snapshotThrough_Ok. rewrite Hseq. split; [|done].
    left. exists event. apply find_row_Some in Ee as [Hin Ha].
    rewrite list_elem_of_In, <- in_rev, <- list_elem_of_In in Hin. unfold events in Hin.
    apply isort_elem, filter_elem in Hin as [Hin Hv]. apply jeqb_eq in Hv. auto.
  - cbn [is_null_or andb]. destruct (negb (oeqb _ _)); [done|].
    cbn [fmap option_fmap option_map from_option default].
    intros [Hseq [Hc Hs]]%snapshotThrough_Ok. rewrite Hseq. split; [by right|done].
Qed.

End properties.

(** ** Concrete inputs *)

Lemma strictly_sorted_by l : Sorted (λ a b, jltb a b = true) l → strictly_sorted l.
Proof. apply Sorted_StronglySorted. intros a b c. apply jltb_trans. Qed.

Lemma prefix_closed_by l : forallb (λ p, forallb (λ d, jmem d l) (directoryPrefixes p)) l = true → prefix_closed l.
Proof.
  rewrite forallb_forall. intros H d p Hp Hd. rewrite list_elem_of_In in Hp. specialize (H p Hp).
  rewrite forallb_forall in H. apply jmem_elem, H. by rewrite <- list_elem_of_In, directoryPrefixes_elem.
Qed.

Definition sample_previous : list jstring := lits ["a"; "a/b"; "c"].
Definition sample_current : list jstring := lits ["a"; "d"; "d/e"].

Lemma directory_delta_round_trip_witness :
  @directoryIntentsBetweenSnapshots ascii_unicode sample_previous sample_current =
    [mk_intent DirDelete "a/b"; mk_intent DirDelete "c"; mk_intent DirCreate "d"; mk_intent DirCreate "d/e"] ∧
  applyDirectoryIntentsToSnapshot sample_previous
    (@directoryIntentsBetweenSnapshots ascii_unicode sample_previous sample_current) = sample_current.
Proof.
  split; [vm_compute; reflexivity|].
  apply (@directory_delta_round_trip ascii_unicode sample_previous sample_current).
  - apply strictly_sorted_NoDup, strictly_sorted_by. repeat constructor.
  - split; [apply strictly_sorted_by; repeat constructor|apply prefix_closed_by; reflexivity].
Defined.

Definition dir_db (dirs : list jstring) : MetadataDb :=
  set_db_directory_state_by_vault [(lit "v1", mk_DirectoryStateRow dirs (lit "t") 7)] createEmptyDb.

Definition sample_dir_device : DeviceRow :=
  mk_DeviceRow "d1" "v1" "bob" "Phone" "refs/obts/devices/d1" None DPaired None 3 (Some (lits ["a"; "c"])) None 0 None
    None None None None None None None None None None None None None None None None "t" None.

Definition sample_dir_db : MetadataDb := set_db_devices [sample_dir_device] (dir_db (lits ["a"; "c"; "s"])).

Definition sample_proposal : DirectoryProposal :=
  mk_DirectoryProposal "p1" None 3
    [mk_DirectoryProposalIntent DirCreate "b" "i1" 1 PvLocalV2 None 3 None false None;
     mk_DirectoryProposalIntent DirDelete "c" "i2" 1 PvLocalV2 None 3 None false None].

Lemma clean_proposal_merges_witness :
  ∃ plan, @classifyDirectoryProposal ascii_unicode (linear_git []) dp_proposal_id sample_dir_db "v1" "d1" sample_proposal
            = Ok plan ∧
  explicit_dirs (applyDirectoryIntents (mk_World (λ _, 0) (λ _, [])) 0 sample_dir_db "v1"
                   (intents_of (dp_intents sample_proposal)) 8) "v1" = lits ["a"; "b"; "s"] ∧
  well_formed_snapshot (explicit_dirs (applyDirectoryIntents (mk_World (λ _, 0) (λ _, [])) 0
    sample_dir_db "v1" (intents_of (dp_intents sample_proposal)) 8) "v1").
Proof.
  eexists. split; [vm_compute; reflexivity|]. split; [vm_compute; reflexivity|].
  refine (proj1 (proj2 (proj2 (@clean_proposal_merges ascii_unicode (linear_git []) dp_proposal_id sample_dir_db
    "v1" "d1" sample_proposal _ sample_dir_device (mk_World (λ _, 0) (λ _, [])) 0 8 _ _ _ _ _)))).
  - vm_compute. reflexivity.
  - vm_compute. reflexivity.
  - apply strictly_sorted_NoDup, strictly_sorted_by. repeat constructor.
  - split; [apply strictly_sorted_by; repeat constructor|apply prefix_closed_by; reflexivity].
  - reflexivity.
Defined.

Definition sample_intents : list DirectoryIntent :=
  [mk_intent DirCreate "a"; mk_intent DirCreate "a/b"; mk_intent DirDelete "a/b"].

Lemma compaction_preserves_outcome_witness :
  applyDirectoryIntentsToSnapshot [] (@compactDirectoryIntents ascii_unicode sample_intents) =
  applyDirectoryIntentsToSnapshot [] sample_intents.
Proof.
  apply (@compaction_preserves_outcome ascii_unicode ascii_unicode_ok [] sample_intents).
  - apply prefix_closed_nil.
  - intros l1 i l2 d Heq Hi Hd. apply directoryPrefixes_elem in Hd.
    destruct l1 as [|? [|? [|? l1]]]; injection Heq as <-; subst; cbn in Hi; try discriminate.
    + vm_compute in Hd. by apply not_elem_of_nil in Hd.
    + vm_compute in Hd. apply jmem_elem. apply list_elem_of_singleton in Hd. subst d. reflexivity.
    + by destruct l1.
  - intros l1 i l2 j l3 Heq Hi Hj.
    destruct l1 as [|? [|? [|? l1]]]; injection Heq as <-; subst; cbn in Hi; try discriminate;
      try (by destruct l2); by destruct l1.
Defined.

(** A vault whose history is two advances of main, the first creating [a]. *)
Definition main_event (seq : Z) (main : jstring) (intents : list jsval) : EventEnvelope :=
  mk_EventEnvelope "e" seq EvMainAdvanced "v1" [] [(lit "main", Some main)]
    [(lit "directory_intents", JArr intents)] (lit "t").
Definition raw_intent (op path : jstring) : jsval := JObj [(lit "op", JStr op); (lit "path", JStr path)].

Definition history_db (intents : list jsval) : MetadataDb :=
  set_db_vaults [mk_VaultRow "v1" "u" "N" VActive (Some (lit "m0")) "m2" None (lit "t") (lit "t")]
    (set_db_events [main_event 1 "m1" intents; main_event 2 "m2" []] createEmptyDb).

Lemma historical_snapshot_contiguous_witness :
  ∃ snapshot, @eventSnapshotForTarget ascii_unicode (history_db [raw_intent "create" "a"]) "v1" "d1" "m1" 0 None
                = Ok snapshot
  ∧ sn_explicitDirectories snapshot = lits ["a"] ∧ strictly_sorted (sn_explicitDirectories snapshot).
Proof.
  eexists. split; [vm_compute; reflexivity|]. split; [reflexivity|].
  refine (proj2 (proj2 (@historical_snapshot_contiguous ascii_unicode (history_db [raw_intent "create" "a"])
    "v1" "d1" "m1" 0 None _ _ _))).
  - intros v [= <-]. discriminate.
  - vm_compute. reflexivity.
Defined.

(** Without the condition on re-creation compaction loses a deletion: the
    intents [delete a; create a] empty the directory, their compaction keeps
    what was below it. *)
Theorem compaction_loses_deletion :
  let l := [mk_intent DirDelete "a"; mk_intent DirCreate "a"] in
  applyDirectoryIntentsToSnapshot (lits ["a"; "a/b"]) l = lits ["a"] ∧
  applyDirectoryIntentsToSnapshot (lits ["a"; "a/b"]) (@compactDirectoryIntents ascii_unicode l) = lits ["a"; "a/b"].
Proof. vm_compute. auto. Qed.

(** The replay of a historical snapshot creates the named directory only, where
    the live state of the same event also holds its ancestors. *)
Theorem historical_snapshot_drops_ancestors :
  (∃ snapshot, @eventSnapshotForTarget ascii_unicode (history_db [raw_intent "create" "a/b"]) "v1" "d1" "m1" 0 None
                 = Ok snapshot ∧ sn_explicitDirectories snapshot = lits ["a/b"]) ∧
  explicit_dirs (applyDirectoryIntents (mk_World (λ _, 0) (λ _, [])) 0 createEmptyDb "v1"
                   [mk_intent DirCreate "a/b"] 1) "v1" = lits ["a"; "a/b"].
Proof. split; [eexists; split|]; vm_compute; reflexivity. Qed.
