(* ===== verification/Validators.v ===== *)
(** * Request validation (src/shared/validators.ts)

    The parsers that turn the JSON body of a request into a typed request: every
    field read in the order of the source, with the error the first failing field
    raises.  The theorems show that a parsed request, sent again, parses to
    itself, and what a list of rename pairs that passes guarantees. *)

From S2P Require Export DirectoryIntents Json.

Local Open Scope Z_scope.

Definition API_VERSION : jstring := lit "2026-07-12.browser-onboarding".
Definition DISPLAY_NAME_MAX_LENGTH : Z := 80.

Definition COMMIT_ID_PATTERN : regex := rrep 40 (RClass is_hex).
Definition SHA256_PATTERN : regex := rrep 64 (RClass is_hex).

#[global] Arguments rtest : simpl never.
#[global] Arguments COMMIT_ID_PATTERN : simpl never.
#[global] Arguments SHA256_PATTERN : simpl never.

Definition field_detail (field : jstring) : record := [(lit "field", JStr field)].
Definition invalid_request (message : jstring) (details : record) : js_error :=
  ValidationError "invalid_request" message details.
Definition invalid_field (what field : jstring) : js_error :=
  invalid_request (what ++ field ++ lit ".") (field_detail field).

#[global] Arguments invalid_request : simpl never.
#[global] Arguments invalid_field : simpl never.

(** ** Fields *)

Definition assertRecord (value : jsval) : result record :=
  match as_record value with
  | Some r => Ok r
  | None => Throw (invalid_request "Expected a JSON object." [])
  end.

Definition readString (record : record) (field : jstring) : result jstring :=
  match rget record field with
  | JStr ((_ :: _) as s) => Ok s
  | _ => Throw (invalid_field "Missing or invalid field: " field)
  end.

Definition readOptionalString (record : record) (field : jstring) : result (option jstring) :=
  match rget record field with
  | JUndef => Ok None
  | JStr ((_ :: _) as s) => Ok (Some s)
  | _ => Throw (invalid_field "Invalid field: " field)
  end.

Definition readNullableString (record : record) (field : jstring) : result (option jstring) :=
  if negb (has_own record field) then Throw (invalid_field "Missing field: " field) else
  match rget record field with
  | JNull | JStr [] => Ok None
  | JStr s => Ok (Some s)
  | _ => Throw (invalid_field "Invalid field: " field)
  end.

Definition readNumber (record : record) (field : jstring) : result jsnum :=
  match rget record field with
  | JNum n => if num_finite n then Ok n else Throw (invalid_field "Missing or invalid field: " field)
  | _ => Throw (invalid_field "Missing or invalid field: " field)
  end.

Definition readNonNegativeInteger (record : record) (field : jstring) : result Z :=
  value ← readNumber record field;
  match value with
  | NInt z => if z <? 0 then Throw (invalid_field "Invalid field: " field) else Ok z
  | _ => Throw (invalid_field "Invalid field: " field)
  end.

Definition readOptionalBoolean (record : record) (field : jstring) : result (option bool) :=
  match rget record field with
  | JUndef => Ok None
  | JBool b => Ok (Some b)
  | _ => Throw (invalid_field "Invalid field: " field)
  end.

Definition readCommitId (record : record) (field : jstring) : result jstring :=
  value ← readString record field;
  if rtest COMMIT_ID_PATTERN value then Ok value else Throw (invalid_field "Invalid commit ID: " field).

Definition readNullableCommitId (record : record) (field : jstring) : result (option jstring) :=
  value ← readNullableString record field;
  match value with
  | Some v => if rtest COMMIT_ID_PATTERN v then Ok value else Throw (invalid_field "Invalid commit ID: " field)
  | None => Ok value
  end.

Definition readSha256 (record : record) (field : jstring) : result jstring :=
  value ← readString record field;
  if rtest SHA256_PATTERN value then Ok value else Throw (invalid_field "Invalid SHA-256 digest: " field).

(** A commit ID read only when the record has the field. *)
Definition readOwnCommitId (record : record) (field : jstring) : result (option (option jstring)) :=
  if has_own record field then Some <$> readNullableCommitId record field else Ok None.

Section display_names.
Context `{U : Unicode}.

Definition normalizeDisplayName (value : jsval) : option jstring :=
  match value with
  | JStr s =>
    let normalized := trim (nfc s) in
    if (length normalized =? 0)%nat || (DISPLAY_NAME_MAX_LENGTH <? Z.of_nat (code_points normalized))
       || non_display normalized then None else Some normalized
  | _ => None
  end.

Definition readDisplayName (record : record) (field : jstring) : result jstring :=
  match normalizeDisplayName (rget record field) with
  | Some normalized => Ok normalized
  | None => Throw (ValidationError "invalid_display_name" "Name must contain 1 to 80 visible characters."
      [(lit "field", JStr field); (lit "max_length", JNum (NInt DISPLAY_NAME_MAX_LENGTH))])
  end.

End display_names.

(** ** Root ignore attestation *)

Definition ROOT_IGNORE_V1 : jstring := lit "root-ignore-v1".
Definition unsupported_capability : js_error := invalid_request "Unsupported root ignore capability." [].

Definition readOptionalRootIgnoreCapability (record : record) : result bool :=
  match rget record "root_ignore_capability" with
  | JUndef => Ok false
  | v => if is_lit v ROOT_IGNORE_V1 then Ok true else Throw unsupported_capability
  end.

(** [{}] is [None]; [root_ignore_oid] is nullable. *)
Definition readRootIgnoreAttestation (record : record) : result (option (option jstring)) :=
  let capability := rget record "root_ignore_capability" in
  if negb (is_undef capability) && negb (is_lit capability ROOT_IGNORE_V1) then Throw unsupported_capability else
  oid ← readOwnCommitId record "root_ignore_oid";
  match is_undef capability, oid with
  | true, None => Ok None
  | false, Some oid => Ok (Some oid)
  | _, _ => Throw (invalid_request "Root ignore capability and identity must be supplied together." [])
  end.

Section validators.
Context `{U : Unicode}.

(** ** Rename pairs *)

Record RenamePair := mk_pair { rp_source_path : jstring; rp_destination_path : jstring }.

Definition rename_pairs_field : record := field_detail "rename_pairs".

Definition readCanonicalSyncPath (record : record) (field : jstring) : result jstring :=
  input ← readString record field;
  match normalizeVaultPath (JStr input) with
  | PathOk path =>
    if (path =s? input) && PathPolicy.isSyncableVaultPath (JStr input) then Ok input
    else Throw (invalid_request "Rename endpoint must be a canonical sync path." (field_detail field))
  | _ => Throw (invalid_request "Rename endpoint must be a canonical sync path." (field_detail field))
  end.

Definition pair_key (sourcePath destinationPath : jstring) : jstring :=
  sourcePath ++ NUL :: destinationPath.

Definition overlap_error : js_error := invalid_request "Rename pair footprints overlap." rename_pairs_field.

(** The inner loop: a path against every endpoint so far. *)
Definition add_endpoint (endpoints : list jstring) (path : jstring) : result (list jstring) :=
  if existsb (changedPathsConflict path) endpoints then Throw overlap_error else Ok (set_add endpoints path).

Definition unsupported_fields : js_error := invalid_request "Rename pair has unsupported fields." rename_pairs_field.

(** The loop over the pairs, from the endpoints and the key seen so far. *)
Fixpoint read_pairs (endpoints : list jstring) (previous : jstring) (items : list jsval)
    : result (list RenamePair) :=
  match items with
  | [] => Ok []
  | item :: items =>
    item ← assertRecord item;
    if negb (join_with 44 (sort_strings (keys item)) =s? "destination_path,source_path")
    then Throw unsupported_fields else
    sourcePath ← readCanonicalSyncPath item "source_path";
    destinationPath ← readCanonicalSyncPath item "destination_path";
    if sourcePath =s? destinationPath
    then Throw (invalid_request "Rename endpoints must differ." rename_pairs_field) else
    let key := pair_key sourcePath destinationPath in
    if negb (previous =s? "") && jleb key previous
    then Throw (invalid_request "Rename pairs must be uniquely sorted." rename_pairs_field) else
    endpoints ← add_endpoint endpoints sourcePath;
    endpoints ← add_endpoint endpoints destinationPath;
    pairs ← read_pairs endpoints key items;
    Ok (mk_pair sourcePath destinationPath :: pairs)
  end.

Definition readOptionalRenamePairs (record : record) : result (option (list RenamePair)) :=
  match rget record "rename_pairs" with
  | JUndef => Ok None
  | JArr items =>
    if (length items =? 0)%nat || (5000 <? Z.of_nat (length items))
    then Throw (invalid_request "Invalid rename pairs." rename_pairs_field)
    else Some <$> read_pairs [] [] items
  | _ => Throw (invalid_request "Invalid rename pairs." rename_pairs_field)
  end.

Definition parseRenamePairs (value : jsval) : result (list RenamePair) :=
  parsed ← readOptionalRenamePairs [(lit "rename_pairs", value)];
  match parsed with
  | Some pairs => Ok pairs
  | None => Throw (invalid_request "Rename pairs are required." rename_pairs_field)
  end.

(** ** Directory intents and proposals *)

Definition readDirOp (record : record) : result DirOp :=
  op ← readString record "op";
  if op =s? "create" then Ok DirCreate else if op =s? "delete" then Ok DirDelete
  else Throw (invalid_request "Invalid directory intent operation." (field_detail "op")).

Definition readSyncPath (record : record) : result jstring :=
  input ← readString record "path";
  match normalizeVaultPath (JStr input) with
  | PathOk path => if PathPolicy.isSyncableVaultPath (JStr path) then Ok path
                   else Throw (invalid_request "Invalid directory intent path." (field_detail "path"))
  | _ => Throw (invalid_request "Invalid directory intent path." (field_detail "path"))
  end.

Definition readDirectoryIntent (item : jsval) : result DirectoryIntent :=
  item ← assertRecord item; op ← readDirOp item; path ← readSyncPath item; Ok (mk_intent op path).

Definition readOptionalDirectoryIntents (record : record) (field : jstring)
    : result (option (list DirectoryIntent)) :=
  match rget record field with
  | JUndef => Ok None
  | JArr value =>
    if 5000 <? Z.of_nat (length value)
    then Throw (invalid_request (lit "Too many directory intents: " ++ field ++ lit ".") (field_detail field))
    else intents ← traverse readDirectoryIntent value; Ok (Some (compactDirectoryIntents intents))
  | _ => Throw (invalid_field "Invalid field: " field)
  end.

Definition PROPOSAL_ID_PATTERN : regex := RSeq (rlit "dirprop_") (rrep 64 (RClass is_hex)).
Definition INTENT_ID_PATTERN : regex :=
  RAlt (RSeq (rlit "dir_") (RSeq (rplus (RClass is_digit)) (RSeq (rlit "_")
          (RSeq (rplus (RClass is_digit)) (RSeq (rlit "_") (rrep 12 (RClass is_hex)))))))
       (RSeq (rlit "legacy_") (rrep 24 (RClass is_hex))).

Definition readProvenance (record : record) : result Provenance :=
  provenance ← readString record "provenance";
  if provenance =s? "legacy" then Ok PvLegacy else if provenance =s? "local_v2" then Ok PvLocalV2
  else Throw (invalid_request "Invalid directory intent provenance." (field_detail "provenance")).

(** [item.created_at]: null or a string. *)
Definition readCreatedAt (v : jsval) : option (option jstring) :=
  match v with JNull => Some None | JStr s => Some (Some s) | _ => None end.
Definition as_boolean (v : jsval) : option bool := match v with JBool b => Some b | _ => None end.

Definition intent_identity (intentId : jstring) (generation : Z) : jstring := intentId ++ NUL :: dec generation.

(** The callback of the proposal's [map], from the identities seen so far. *)
Definition readProposalIntent (baseMain : option jstring) (baseEventSeq : Z) (identities : list jstring)
    (item : jsval) : result DirectoryProposalIntent :=
  item ← assertRecord item;
  op ← readDirOp item;
  path ← readSyncPath item;
  intentId ← readString item "intent_id";
  if negb (rtest INTENT_ID_PATTERN intentId)
  then Throw (invalid_request "Invalid directory intent ID." (field_detail "intent_id")) else
  generation ← readNonNegativeInteger item "generation";
  provenance ← readProvenance item;
  intentBaseMain ← readNullableCommitId item "base_main";
  intentBaseEventSeq ← readNonNegativeInteger item "base_event_seq";
  replacesIntentId ← (if is_null (rget item "replaces_intent_id") then Ok None
                      else Some <$> readString item "replaces_intent_id");
  match as_boolean (rget item "recreated_after_delete"), readCreatedAt (rget item "created_at") with
  | Some recreatedAfterDelete, Some createdAt =>
    if negb (oeqb intentBaseMain baseMain) || negb (intentBaseEventSeq =? baseEventSeq)
    then Throw (invalid_request "Directory intent base does not match its proposal." []) else
    if jmem (intent_identity intentId generation) identities
    then Throw (invalid_request "Directory proposal contains duplicate intent generations." []) else
    Ok (mk_DirectoryProposalIntent op path intentId generation provenance intentBaseMain intentBaseEventSeq
          replacesIntentId recreatedAfterDelete createdAt)
  | _, _ => Throw (invalid_request "Invalid directory intent provenance fields." [])
  end.

Fixpoint readProposalIntents (baseMain : option jstring) (baseEventSeq : Z) (identities : list jstring)
    (items : list jsval) : result (list DirectoryProposalIntent) :=
  match items with
  | [] => Ok []
  | item :: items =>
    intent ← readProposalIntent baseMain baseEventSeq identities item;
    intents ← readProposalIntents baseMain baseEventSeq
      (intent_identity (pi_intent_id intent) (pi_generation intent) :: identities) items;
    Ok (intent :: intents)
  end.

Definition parse_proposal (value : jsval) : result DirectoryProposal :=
  value ← assertRecord value;
  if negb (is_int (rget value "schema_version") 2)
  then Throw (invalid_request "Unsupported directory proposal schema." (field_detail "schema_version")) else
  proposalId ← readString value "proposal_id";
  if negb (rtest PROPOSAL_ID_PATTERN proposalId)
  then Throw (invalid_request "Invalid directory proposal ID." (field_detail "proposal_id")) else
  baseMain ← readNullableCommitId value "base_main";
  baseEventSeq ← readNonNegativeInteger value "base_event_seq";
  let invalid := Throw (invalid_request "Invalid directory proposal intents." (field_detail "intents")) in
  match rget value "intents" with
  | JArr items =>
    if (length items =? 0)%nat || (5000 <? Z.of_nat (length items)) then invalid else
    intents ← readProposalIntents baseMain baseEventSeq [] items;
    Ok (mk_DirectoryProposal proposalId baseMain baseEventSeq intents)
  | _ => invalid
  end.

Definition readOptionalDirectoryProposal (record : record) (field : jstring) : result (option DirectoryProposal) :=
  match rget record field with
  | JUndef => Ok None
  | value => Some <$> parse_proposal value
  end.

(** ** Requests *)

Definition checkApiVersion (value : record) : result unit :=
  apiVersion ← readString value "api_version";
  if apiVersion =s? API_VERSION then Ok tt
  else Throw (ValidationError "unsupported_client" "Unsupported client API version." []).

Record DevicePushManifest := mk_push {
  pm_vault_id : jstring;
  pm_device_id : jstring;
  pm_expected_device_ref : option jstring;
  pm_target_commit : jstring;
  pm_packfile_sha256 : jstring;
  pm_packfile_bytes : Z;
  pm_client_known_main : option jstring;
  pm_plugin_version : option jstring;
  pm_base_commit : option (option jstring);
  pm_rename_pairs : option (list RenamePair);
  pm_attempt_id : option jstring;
  pm_root_ignore : option (option jstring);
  pm_directory_intents : option (list DirectoryIntent);
  pm_directory_proposal : option DirectoryProposal
}.

(** [renamePairs !== undefined && !baseCommit]: a commit ID is never empty. *)
Definition rename_base_missing (pairs : option (list RenamePair)) (baseCommit : option (option jstring)) : bool :=
  match pairs, baseCommit with
  | None, _ | _, Some (Some _) => false
  | _, _ => true
  end.
Definition both_given {A B} (a : option A) (b : option B) : bool :=
  match a, b with Some _, Some _ => true | _, _ => false end.

Definition base_required : js_error :=
  invalid_request "Rename pairs require an explicit base_commit." (field_detail "base_commit").
Definition one_directory_form : js_error :=
  invalid_request "Use either legacy directory intents or a directory proposal, not both." [].

Definition parseDevicePushManifest (value : jsval) : result DevicePushManifest :=
  value ← assertRecord value;
  _ ← checkApiVersion value;
  vault_id ← readString value "vault_id";
  device_id ← readString value "device_id";
  expected_device_ref ← readNullableCommitId value "expected_device_ref";
  target_commit ← readCommitId value "target_commit";
  packfile_sha256 ← readSha256 value "packfile_sha256";
  packfile_bytes ← readNonNegativeInteger value "packfile_bytes";
  client_known_main ← readNullableCommitId value "client_known_main";
  pluginVersion ← readOptionalString value "plugin_version";
  baseCommit ← readOwnCommitId value "base_commit";
  attemptId ← readOptionalString value "attempt_id";
  rootIgnoreAttestation ← readRootIgnoreAttestation value;
  renamePairs ← readOptionalRenamePairs value;
  if rename_base_missing renamePairs baseCommit then Throw base_required else
  directoryIntents ← readOptionalDirectoryIntents value "directory_intents";
  directoryProposal ← readOptionalDirectoryProposal value "directory_proposal";
  if both_given directoryIntents directoryProposal then Throw one_directory_form else
  Ok (mk_push vault_id device_id expected_device_ref target_commit packfile_sha256 packfile_bytes client_known_main
        pluginVersion baseCommit renamePairs attemptId rootIgnoreAttestation directoryIntents directoryProposal).

Record DevicePullRequest := mk_pull {
  pl_plugin_version : option jstring;
  pl_vault_id : jstring;
  pl_device_id : jstring;
  pl_current_local_main : option jstring;
  pl_requested_target : jstring;
  pl_root_ignore_capability : bool;
  pl_current_event_seq : option Z
}.

Definition readRequestedTarget (value : record) : result jstring :=
  requested ← readString value "requested_target";
  if (requested =s? "latest") || rtest COMMIT_ID_PATTERN requested then Ok requested
  else Throw (invalid_request "Invalid requested target." (field_detail "requested_target")).

Definition parseDevicePullRequest (value : jsval) : result DevicePullRequest :=
  value ← assertRecord value;
  _ ← checkApiVersion value;
  requested ← readRequestedTarget value;
  pluginVersion ← readOptionalString value "plugin_version";
  currentEventSeq ← (if has_own value "current_event_seq"
                     then Some <$> readNonNegativeInteger value "current_event_seq" else Ok None);
  vault_id ← readString value "vault_id";
  device_id ← readString value "device_id";
  current_local_main ← readNullableCommitId value "current_local_main";
  capability ← readOptionalRootIgnoreCapability value;
  Ok (mk_pull pluginVersion vault_id device_id current_local_main requested capability currentEventSeq).

Record ChunkPushCreateRequest := mk_chunk_push {
  cp_plugin_version : option jstring;
  cp_vault_id : jstring;
  cp_device_id : jstring;
  cp_expected_device_ref : option jstring;
  cp_target_commit : jstring;
  cp_client_known_main : option jstring;
  cp_base_commit : option (option jstring);
  cp_rename_pairs : option (list RenamePair);
  cp_root_ignore : option (option jstring);
  cp_directory_intents : option (list DirectoryIntent);
  cp_directory_proposal : option DirectoryProposal;
  cp_attempt_id : jstring;
  cp_chunk_count : Z;
  cp_plan_sha256 : jstring
}.

Definition is_id_unit (c : N) : bool := is_alnum c || N.eqb c 95 || N.eqb c 45.
Definition ATTEMPT_ID_PATTERN : regex := rrange 8 128 (RClass is_id_unit).

Definition parseChunkPushCreateRequest (value : jsval) : result ChunkPushCreateRequest :=
  value ← assertRecord value;
  _ ← checkApiVersion value;
  attemptId ← readString value "attempt_id";
  if negb (rtest ATTEMPT_ID_PATTERN attemptId)
  then Throw (invalid_request "Invalid attempt ID." (field_detail "attempt_id")) else
  planSha256 ← readSha256 value "plan_sha256";
  chunkCount ← readNonNegativeInteger value "chunk_count";
  if 4096 <? chunkCount then Throw (invalid_request "Invalid chunk count." (field_detail "chunk_count")) else
  pluginVersion ← readOptionalString value "plugin_version";
  baseCommit ← readOwnCommitId value "base_commit";
  renamePairs ← readOptionalRenamePairs value;
  directoryIntents ← readOptionalDirectoryIntents value "directory_intents";
  directoryProposal ← readOptionalDirectoryProposal value "directory_proposal";
  rootIgnoreAttestation ← readRootIgnoreAttestation value;
  if rename_base_missing renamePairs baseCommit then Throw base_required else
  if both_given directoryIntents directoryProposal then Throw one_directory_form else
  vault_id ← readString value "vault_id";
  device_id ← readString value "device_id";
  expected_device_ref ← readNullableCommitId value "expected_device_ref";
  target_commit ← readCommitId value "target_commit";
  client_known_main ← readNullableCommitId value "client_known_main";
  Ok (mk_chunk_push pluginVersion vault_id device_id expected_device_ref target_commit client_known_main baseCommit
        renamePairs rootIgnoreAttestation directoryIntents directoryProposal attemptId chunkCount planSha256).

Definition parseChunkPullRequest (value : jsval) : result (DevicePullRequest * Z) :=
  base ← parseDevicePullRequest value;
  value ← assertRecord value;
  cursor ← readNonNegativeInteger value "cursor";
  Ok (base, cursor).

Record ChunkBootstrapRequest := mk_bootstrap {
  cb_plugin_version : option jstring;
  cb_cursor : Z;
  cb_requested_target : jstring;
  cb_root_ignore_capability : bool
}.

Definition parseChunkBootstrapRequest (value : jsval) : result ChunkBootstrapRequest :=
  value ← assertRecord value;
  _ ← checkApiVersion value;
  requested ← readRequestedTarget value;
  pluginVersion ← readOptionalString value "plugin_version";
  cursor ← readNonNegativeInteger value "cursor";
  capability ← readOptionalRootIgnoreCapability value;
  Ok (mk_bootstrap pluginVersion cursor requested capability).

End validators.

(** [JSON.parse] then a record. *)
Definition parseJsonObject `{Nm : Numerals} (text : jstring) : result record :=
  match json_parse text with
  | Some parsed => assertRecord parsed
  | None => Throw (ValidationError "invalid_json" "Expected valid JSON." [])
  end.

(** ** Requests as JSON *)

Definition text_or_null (v : option jstring) : jsval := match v with Some s => JStr s | None => JNull end.
Definition optional {A} (field : jstring) (f : A → jsval) (v : option A) : record :=
  match v with Some a => [(field, f a)] | None => [] end.

Definition encode_pair (pair : RenamePair) : jsval :=
  JObj [(lit "source_path", JStr (rp_source_path pair)); (lit "destination_path", JStr (rp_destination_path pair))].

Definition provenance_string (p : Provenance) : jstring :=
  match p with PvLegacy => lit "legacy" | PvLocalV2 => lit "local_v2" end.

Definition encode_intent (intent : DirectoryIntent) : jsval :=
  JObj [(lit "op", JStr (op_string (in_op intent))); (lit "path", JStr (in_path intent))].

Definition encode_proposal_intent (intent : DirectoryProposalIntent) : jsval :=
  JObj [(lit "op", JStr (op_string (pi_op intent))); (lit "path", JStr (pi_path intent));
        (lit "intent_id", JStr (pi_intent_id intent)); (lit "generation", JNum (NInt (pi_generation intent)));
        (lit "provenance", JStr (provenance_string (pi_provenance intent)));
        (lit "base_main", text_or_null (pi_base_main intent));
        (lit "base_event_seq", JNum (NInt (pi_base_event_seq intent)));
        (lit "replaces_intent_id", text_or_null (pi_replaces_intent_id intent));
        (lit "recreated_after_delete", JBool (pi_recreated_after_delete intent));
        (lit "created_at", text_or_null (pi_created_at intent))].

Definition encode_proposal (proposal : DirectoryProposal) : jsval :=
  JObj [(lit "schema_version", JNum (NInt 2)); (lit "proposal_id", JStr (dp_proposal_id proposal));
        (lit "base_main", text_or_null (dp_base_main proposal));
        (lit "base_event_seq", JNum (NInt (dp_base_event_seq proposal)));
        (lit "intents", JArr (map encode_proposal_intent (dp_intents proposal)))].

(** The members of [root_ignore_capability] and [root_ignore_oid]. *)
Definition encode_root_ignore (attestation : option (option jstring)) : record :=
  match attestation with
  | Some oid => [(lit "root_ignore_capability", JStr ROOT_IGNORE_V1); (lit "root_ignore_oid", text_or_null oid)]
  | None => []
  end.

Definition encode_push (m : DevicePushManifest) : jsval :=
  JObj ([(lit "api_version", JStr API_VERSION); (lit "vault_id", JStr (pm_vault_id m));
         (lit "device_id", JStr (pm_device_id m)); (lit "expected_device_ref", text_or_null (pm_expected_device_ref m));
         (lit "target_commit", JStr (pm_target_commit m)); (lit "packfile_sha256", JStr (pm_packfile_sha256 m));
         (lit "packfile_bytes", JNum (NInt (pm_packfile_bytes m)));
         (lit "client_known_main", text_or_null (pm_client_known_main m))]
    ++ optional "plugin_version" JStr (pm_plugin_version m)
    ++ optional "base_commit" text_or_null (pm_base_commit m)
    ++ optional "rename_pairs" (λ l, JArr (map encode_pair l)) (pm_rename_pairs m)
    ++ optional "attempt_id" JStr (pm_attempt_id m)
    ++ encode_root_ignore (pm_root_ignore m)
    ++ optional "directory_intents" (λ l, JArr (map encode_intent l)) (pm_directory_intents m)
    ++ optional "directory_proposal" encode_proposal (pm_directory_proposal m)).

Definition encode_chunk_push (m : ChunkPushCreateRequest) : jsval :=
  JObj ([(lit "api_version", JStr API_VERSION)]
    ++ optional "plugin_version" JStr (cp_plugin_version m)
    ++ [(lit "vault_id", JStr (cp_vault_id m)); (lit "device_id", JStr (cp_device_id m));
        (lit "expected_device_ref", text_or_null (cp_expected_device_ref m));
        (lit "target_commit", JStr (cp_target_commit m));
        (lit "client_known_main", text_or_null (cp_client_known_main m))]
    ++ optional "base_commit" text_or_null (cp_base_commit m)
    ++ optional "rename_pairs" (λ l, JArr (map encode_pair l)) (cp_rename_pairs m)
    ++ encode_root_ignore (cp_root_ignore m)
    ++ optional "directory_intents" (λ l, JArr (map encode_intent l)) (cp_directory_intents m)
    ++ optional "directory_proposal" encode_proposal (cp_directory_proposal m)
    ++ [(lit "attempt_id", JStr (cp_attempt_id m)); (lit "chunk_count", JNum (NInt (cp_chunk_count m)));
        (lit "plan_sha256", JStr (cp_plan_sha256 m))]).

(** ** Laws: reading a field again *)

Section again.
Context (r r' : record) (f f' : jstring).

Lemma readString_again s : readString r f = Ok s → rget r' f' = JStr s → readString r' f' = Ok s.
Proof.
  unfold readString. intros H ->. destruct (rget r f) as [| | | |[|c t]| |]; try discriminate H.
  injection H as <-. reflexivity.
Qed.

(** A string that passed a test. *)
Lemma tested_again (P : jstring → bool) e e' s :
  (value ← readString r f; if P value then Ok value else Throw e) = Ok s → rget r' f' = JStr s →
  (value ← readString r' f'; if P value then Ok value else Throw e') = Ok s.
Proof.
  intros (t & Ht & H)%bind_Ok Hr. destruct (P t) eqn:E; [|discriminate H]. injection H as ->.
  rewrite (readString_again s Ht Hr). cbn [mbind result_bind]. rewrite E. reflexivity.
Qed.

Lemma readCommitId_again s : readCommitId r f = Ok s → rget r' f' = JStr s → readCommitId r' f' = Ok s.
Proof. apply tested_again. Qed.

Lemma readSha256_again s : readSha256 r f = Ok s → rget r' f' = JStr s → readSha256 r' f' = Ok s.
Proof. apply tested_again. Qed.

Lemma readNullableString_again v :
  readNullableString r f = Ok v → has_own r' f' = true → rget r' f' = text_or_null v →
  readNullableString r' f' = Ok v.
Proof.
  unfold readNullableString. intros H -> ->. destruct (has_own r f); [|discriminate H]. cbn [negb] in *.
  destruct (rget r f) as [| | | |[|c s]| |]; try discriminate H; injection H as <-; reflexivity.
Qed.

Lemma readNullableCommitId_again v :
  readNullableCommitId r f = Ok v → has_own r' f' = true → rget r' f' = text_or_null v →
  readNullableCommitId r' f' = Ok v.
Proof.
  unfold readNullableCommitId. intros (u & Hu & H)%bind_Ok Ho Hr. assert (u = v) as ->.
  { destruct u; [destruct (rtest _ _); [|discriminate H]|]; by injection H. }
  rewrite (readNullableString_again v Hu Ho Hr). cbn [mbind result_bind].
  destruct v; [|reflexivity]. destruct (rtest _ _); [reflexivity|discriminate H].
Qed.

Lemma readNonNegativeInteger_again z :
  readNonNegativeInteger r f = Ok z → rget r' f' = JNum (NInt z) → readNonNegativeInteger r' f' = Ok z.
Proof.
  unfold readNonNegativeInteger. intros (n & _ & H)%bind_Ok Hr. unfold readNumber. rewrite Hr.
  cbn [num_finite mbind result_bind]. destruct n as [y| | |]; try discriminate H.
  destruct (y <? 0) eqn:E; [discriminate H|]. injection H as <-. rewrite E. reflexivity.
Qed.

Lemma readOptionalString_again v :
  readOptionalString r f = Ok v → rget r' f' = default JUndef (JStr <$> v) → readOptionalString r' f' = Ok v.
Proof.
  unfold readOptionalString. intros H ->.
  destruct (rget r f) as [| | | |[|c s]| |]; try discriminate H; injection H as <-; reflexivity.
Qed.

Lemma readOwnCommitId_again v :
  readOwnCommitId r f = Ok v → has_own r' f' = bool_decide (is_Some v) →
  rget r' f' = default JUndef (text_or_null <$> v) → readOwnCommitId r' f' = Ok v.
Proof.
  intros H Ho Hr. unfold readOwnCommitId in *. rewrite Ho. destruct (has_own r f).
  - apply fmap_Ok in H as (x & H & ->). rewrite bool_decide_eq_true_2 in Ho |- * by eauto.
    by rewrite (readNullableCommitId_again x H Ho Hr).
  - injection H as <-. reflexivity.
Qed.

End again.

(** ** Laws: members of an encoded request *)

Section members.

Lemma rget_cons k x (r : record) f : rget ((k, x) :: r) f = if k =s? f then x else rget r f.
Proof. done. Qed.
Lemma rget_opt {A} k (g : A → jsval) v (r : record) f :
  rget (optional k g v ++ r) f =
  if k =s? f then match v with Some a => g a | None => rget r f end else rget r f.
Proof. destruct v; cbn; by destruct (k =s? f). Qed.
Lemma rget_opt_last {A} k (g : A → jsval) v f :
  rget (optional k g v) f = if k =s? f then match v with Some a => g a | None => JUndef end else JUndef.
Proof. destruct v; cbn; by destruct (k =s? f). Qed.
Lemma rget_root v (r : record) f :
  rget (encode_root_ignore v ++ r) f =
  if lit "root_ignore_capability" =s? f
  then match v with Some _ => JStr ROOT_IGNORE_V1 | None => rget r f end
  else if lit "root_ignore_oid" =s? f
  then match v with Some oid => text_or_null oid | None => rget r f end
  else rget r f.
Proof.
  destruct v; cbn [encode_root_ignore app].
  - rewrite !rget_cons. by destruct (lit "root_ignore_capability" =s? f).
  - by destruct (lit "root_ignore_capability" =s? f), (lit "root_ignore_oid" =s? f).
Qed.

Lemma has_own_cons k x (r : record) f : has_own ((k, x) :: r) f = if k =s? f then true else has_own r f.
Proof. unfold has_own. cbn. rewrite (jeqb_sym f k). by destruct (k =s? f). Qed.
Lemma has_own_opt {A} k (g : A → jsval) v (r : record) f :
  has_own (optional k g v ++ r) f =
  if k =s? f then bool_decide (is_Some v) || has_own r f else has_own r f.
Proof.
  destruct v; cbn [optional app]; [rewrite has_own_cons|by destruct (k =s? f)].
  rewrite bool_decide_eq_true_2 by eauto. by destruct (k =s? f).
Qed.
Lemma has_own_root v (r : record) f :
  has_own (encode_root_ignore v ++ r) f =
  if lit "root_ignore_capability" =s? f then bool_decide (is_Some v) || has_own r f
  else if lit "root_ignore_oid" =s? f then bool_decide (is_Some v) || has_own r f
  else has_own r f.
Proof.
  destruct v; cbn [encode_root_ignore app].
  - rewrite !has_own_cons, bool_decide_eq_true_2 by eauto.
    by destruct (lit "root_ignore_capability" =s? f), (lit "root_ignore_oid" =s? f).
  - by destruct (lit "root_ignore_capability" =s? f), (lit "root_ignore_oid" =s? f).
Qed.
Lemma has_own_opt_last {A} k (g : A → jsval) v f :
  has_own (optional k g v) f = if k =s? f then bool_decide (is_Some v) else false.
Proof. rewrite <- (app_nil_r (optional k g v)), has_own_opt. destruct (k =s? f); [by rewrite orb_false_r|done]. Qed.

End members.

(** Evaluates [rget] and [has_own] of a literal field in an encoded record. *)
Ltac get_step :=
  first [ rewrite rget_cons | rewrite rget_opt | rewrite rget_root | rewrite rget_opt_last
        | rewrite has_own_cons | rewrite has_own_opt | rewrite has_own_root | rewrite has_own_opt_last ];
  repeat match goal with |- context [if ?k =s? ?f then _ else _] =>
    let b := eval vm_compute in (k =s? f) in change (k =s? f) with b; cbv iota end.
Ltac get_field := repeat get_step; try reflexivity;
  match goal with
  | |- match ?v with _ => _ end = _ => destruct v; repeat get_step; reflexivity
  | |- bool_decide (is_Some ?v) || _ = _ => destruct v; repeat get_step; reflexivity
  end.

Section round_trip.
Context `{U : Unicode} {UOk : UnicodeOk U}.

(** Binds the result of the first reader of the goal. *)
Ltac next := cbn [mbind result_bind].

Lemma readCanonicalSyncPath_Ok r f s : readCanonicalSyncPath r f = Ok s →
  rget r f = JStr s ∧ s ≠ [] ∧ normalizeVaultPath (JStr s) = PathOk s
  ∧ PathPolicy.isSyncableVaultPath (JStr s) = true.
Proof.
  unfold readCanonicalSyncPath. intros (t & Ht & H)%bind_Ok.
  destruct (normalizeVaultPath (JStr t)) as [p|] eqn:Hn; [|discriminate H].
  destruct (p =s? t) eqn:Hp; [|discriminate H]. apply jeqb_eq in Hp as ->.
  destruct (PathPolicy.isSyncableVaultPath (JStr t)) eqn:Hs; [|discriminate H]. injection H as <-.
  unfold readString in Ht. destruct (rget r f) as [| | | |[|c u]| |]; try discriminate Ht. by injection Ht as <-.
Qed.

Lemma readCanonicalSyncPath_intro r f s : rget r f = JStr s → s ≠ [] →
  normalizeVaultPath (JStr s) = PathOk s → PathPolicy.isSyncableVaultPath (JStr s) = true →
  readCanonicalSyncPath r f = Ok s.
Proof.
  intros Hr Hs Hn Hy. unfold readCanonicalSyncPath, readString. rewrite Hr. destruct s as [|c s]; [done|].
  next. rewrite Hn, jeqb_refl, Hy. reflexivity.
Qed.

Lemma readCanonicalSyncPath_again r f r' f' s :
  readCanonicalSyncPath r f = Ok s → rget r' f' = JStr s → readCanonicalSyncPath r' f' = Ok s.
Proof. intros (? & ? & ? & ?)%readCanonicalSyncPath_Ok Hr. by apply readCanonicalSyncPath_intro. Qed.

Lemma assertRecord_Ok v r : assertRecord v = Ok r → v = JObj r.
Proof. unfold assertRecord. destruct v; try discriminate. by intros [= <-]. Qed.

Lemma read_pairs_again eps prev items pairs :
  read_pairs eps prev items = Ok pairs → read_pairs eps prev (map encode_pair pairs) = Ok pairs.
Proof.
  revert eps prev pairs. induction items as [|item items IH]; intros eps prev pairs H; cbn [read_pairs] in H.
  { by injection H as <-. }
  apply bind_Ok in H as (r & _ & H). destruct (negb _); [discriminate H|].
  apply bind_Ok in H as (src & Hsrc & H). apply bind_Ok in H as (dst & Hdst & H).
  destruct (src =s? dst) eqn:E1; [discriminate H|]. destruct (negb (prev =s? _) && _) eqn:E2; [discriminate H|].
  apply bind_Ok in H as (e1 & He1 & H). apply bind_Ok in H as (e2 & He2 & H).
  apply bind_Ok in H as (rest & Hrest & H). injection H as <-.
  cbn [map encode_pair read_pairs rp_source_path rp_destination_path assertRecord as_record]. next.
  match goal with |- context [negb (join_with ?c ?l =s? ?t)] => change (join_with c l =s? t) with true end. cbn [negb].
  rewrite (readCanonicalSyncPath_again _ _ _ "source_path" _ Hsrc) by get_field. next.
  rewrite (readCanonicalSyncPath_again _ _ _ "destination_path" _ Hdst) by get_field. next.
  rewrite E1, E2, He1. next. rewrite He2. next. by rewrite (IH _ _ _ Hrest).
Qed.

Lemma read_pairs_length eps prev items pairs : read_pairs eps prev items = Ok pairs → length pairs = length items.
Proof.
  revert eps prev pairs. induction items as [|item items IH]; intros eps prev pairs H; cbn [read_pairs] in H.
  { by injection H as <-. }
  apply bind_Ok in H as (r & _ & H). destruct (negb _); [discriminate H|].
  apply bind_Ok in H as (src & _ & H). apply bind_Ok in H as (dst & _ & H).
  destruct (src =s? dst); [discriminate H|]. destruct (negb (prev =s? _) && _); [discriminate H|].
  apply bind_Ok in H as (e1 & _ & H). apply bind_Ok in H as (e2 & _ & H).
  apply bind_Ok in H as (rest & Hrest & H). injection H as <-. cbn. by rewrite (IH _ _ _ Hrest).
Qed.

Lemma readOptionalRenamePairs_again r r' v :
  readOptionalRenamePairs r = Ok v →
  rget r' "rename_pairs" = default JUndef ((λ l, JArr (map encode_pair l)) <$> v) →
  readOptionalRenamePairs r' = Ok v.
Proof.
  unfold readOptionalRenamePairs. intros H ->. destruct (rget r _) as [| | | | |items|]; try discriminate H.
  { by injection H as <-. }
  destruct (_ || _) eqn:E; [discriminate H|]. apply fmap_Ok in H as (pairs & Hp & ->). cbn [fmap option_fmap option_map default from_option id].
  rewrite length_map, (read_pairs_length _ _ _ _ Hp), E. by rewrite (read_pairs_again _ _ _ _ Hp).
Qed.

(** ** Intents *)

Lemma readDirOp_again r r' op : readDirOp r = Ok op → rget r' "op" = JStr (op_string op) → readDirOp r' = Ok op.
Proof. intros _ H. unfold readDirOp, readString. rewrite H. destruct op; reflexivity. Qed.

Lemma readSyncPath_Ok r p : readSyncPath r = Ok p →
  p ≠ [] ∧ normalizeVaultPath (JStr p) = PathOk p ∧ PathPolicy.isSyncableVaultPath (JStr p) = true.
Proof.
  unfold readSyncPath. intros (t & Ht & H)%bind_Ok.
  destruct (normalizeVaultPath (JStr t)) as [q|] eqn:Hn; [|discriminate H].
  destruct (PathPolicy.isSyncableVaultPath (JStr q)) eqn:Hs; [|discriminate H]. injection H as <-.
  split_and!; [|by apply (normalizeVaultPath_idem_aux t)|done].
  apply normalizeVaultPath_acceptable in Hn as (_ & _ & Ha). by apply acceptable_nonempty.
Qed.

Lemma readSyncPath_again r r' p : readSyncPath r = Ok p → rget r' "path" = JStr p → readSyncPath r' = Ok p.
Proof.
  intros (Hne & Hn & Hs)%readSyncPath_Ok Hr. unfold readSyncPath, readString. rewrite Hr.
  destruct p as [|c p]; [done|]. next. by rewrite Hn, Hs.
Qed.

Lemma readDirectoryIntent_again item intent :
  readDirectoryIntent item = Ok intent → readDirectoryIntent (encode_intent intent) = Ok intent.
Proof.
  unfold readDirectoryIntent. intros H. apply bind_Ok in H as (r & _ & H).
  apply bind_Ok in H as (op & Hop & H). apply bind_Ok in H as (path & Hpath & H). injection H as <-.
  cbn [encode_intent assertRecord as_record in_op in_path]. next.
  rewrite (readDirOp_again r _ op) by (done || get_field). next.
  by rewrite (readSyncPath_again r _ path) by (done || get_field).
Qed.

Lemma compact_map_id l :
  (∀ l1 i l2 j, l = l1 ++ i :: l2 → j ∈ l2 → covers (in_path j) (in_path i) = false) →
  compact_map l = map (λ i, (in_path i, i)) l.
Proof.
  unfold compact_map. induction l as [|j l IH] using rev_ind; intros H; [done|].
  assert (∀ i, i ∈ l → covers (in_path j) (in_path i) = false) as Hj.
  { intros i (l1 & l2 & ->)%list_elem_of_split. apply (H l1 i (l2 ++ [j])); [by rewrite <- app_assoc|].
    apply elem_of_app. right. by left. }
  rewrite fold_left_app, map_app, IH.
  2: { intros l1 i l2 k -> Hk. apply (H l1 i (l2 ++ [j])); [by rewrite <- app_assoc|]. apply elem_of_app. by left. }
  cbn [fold_left map]. unfold compact_step.
  set (m := map (λ i, (in_path i, i)) l : jmap DirectoryIntent).
  assert (mdel_if (λ path, covers (in_path j) path) m = m) as Hdel.
  { unfold mdel_if. apply filter_all. intros kv Hkv. unfold m in Hkv. rewrite list_elem_of_In, in_map_iff in Hkv.
    destruct Hkv as (i & <- & Hi). rewrite <- list_elem_of_In in Hi. cbn. by rewrite Hj. }
  rewrite Hdel. assert (mset m (in_path j) j = m ++ [(in_path j, j)]) as Hset; [|by destruct (is_delete _); rewrite Hset].
  apply mset_fresh. unfold mkeys, m. rewrite map_map. cbn. rewrite list_elem_of_In, in_map_iff. intros (i & Hp & Hi).
  rewrite <- list_elem_of_In in Hi. specialize (Hj i Hi). unfold covers in Hj. by rewrite Hp, jeqb_refl in Hj.
Qed.

Lemma compact_idem l : compactDirectoryIntents (compactDirectoryIntents l) = compactDirectoryIntents l.
Proof.
  set (k := compactDirectoryIntents l). unfold compactDirectoryIntents at 1.
  change (fold_left compact_step k []) with (compact_map k). rewrite compact_map_id.
  - unfold mvalues. rewrite map_map. rewrite map_id. apply isort_id, compact_sorted.
  - intros l1 i l2 j Hk Hj. unfold covers. apply orb_false_iff. split.
    + apply jeqb_neq. intros Heq. pose proof (compact_paths_NoDup l) as Hnd. fold k in Hnd. rewrite Hk in Hnd.
      rewrite map_app in Hnd. apply NoDup_app in Hnd as (_ & _ & Hnd). cbn in Hnd.
      apply NoDup_cons in Hnd as [Hnd _]. apply Hnd. rewrite Heq. apply list_elem_of_In, in_map.
      by apply list_elem_of_In.
    + by apply (compact_parent_first l l1 i l2).
Qed.


Lemma readOptionalDirectoryIntents_again r f r' v :
  readOptionalDirectoryIntents r f = Ok v →
  rget r' f = default JUndef ((λ l, JArr (map encode_intent l)) <$> v) →
  readOptionalDirectoryIntents r' f = Ok v.
Proof.
  unfold readOptionalDirectoryIntents. intros H ->. destruct (rget r f) as [| | | | |items|]; try discriminate H.
  { by injection H as <-. }
  destruct (5000 <? _) eqn:E; [discriminate H|]. apply bind_Ok in H as (intents & Hi & H). injection H as <-.
  cbn [fmap option_fmap option_map default from_option id]. rewrite length_map.
  assert (length (compactDirectoryIntents intents) ≤ length items)%nat as Hlen.
  { apply traverse_Ok in Hi as Hl. apply Forall2_length in Hl. rewrite Hl. apply compact_length. }
  destruct (Z.ltb_spec 5000 (Z.of_nat (length (compactDirectoryIntents intents)))) as [H|_].
  { apply Z.ltb_ge in E. lia. }
  assert (traverse readDirectoryIntent (map encode_intent (compactDirectoryIntents intents))
          = Ok (compactDirectoryIntents intents)) as ->; [|next; by rewrite compact_idem].
  apply traverse_Ok in Hi. apply traverse_Ok.
  assert (∀ i, i ∈ compactDirectoryIntents intents → readDirectoryIntent (encode_intent i) = Ok i) as Hall.
  { intros i Hin%compact_subset. clear -Hi Hin UOk. induction Hi as [|a b l k Ha _ IH]; [by apply not_elem_of_nil in Hin|].
    apply elem_of_cons in Hin as [->|Hin]; [by apply (readDirectoryIntent_again a)|by apply IH]. }
  revert Hall. clear. induction (compactDirectoryIntents intents) as [|i l IH]; intros Hall; cbn [map]; constructor.
  - apply Hall. by left.
  - apply IH. intros j Hj. apply Hall. by right.
Qed.

Lemma readProvenance_again r p : rget r "provenance" = JStr (provenance_string p) → readProvenance r = Ok p.
Proof. intros H. unfold readProvenance, readString. rewrite H. destruct p; reflexivity. Qed.

Lemma readDirOp_intro r op : rget r "op" = JStr (op_string op) → readDirOp r = Ok op.
Proof. intros H. unfold readDirOp, readString. rewrite H. destruct op; reflexivity. Qed.

Lemma readProposalIntent_again main seq ids item intent :
  readProposalIntent main seq ids item = Ok intent →
  readProposalIntent main seq ids (encode_proposal_intent intent) = Ok intent.
Proof.
  unfold readProposalIntent. intros H. apply bind_Ok in H as (r & _ & H).
  apply bind_Ok in H as (op & _ & H). apply bind_Ok in H as (path & Hpath & H).
  apply bind_Ok in H as (iid & Hiid & H). destruct (rtest INTENT_ID_PATTERN iid) eqn:Ei; [|discriminate H]. cbn [negb] in H.
  apply bind_Ok in H as (gen & Hgen & H). apply bind_Ok in H as (prov & _ & H).
  apply bind_Ok in H as (bm & Hbm & H). apply bind_Ok in H as (bs & Hbs & H).
  apply bind_Ok in H as (repl & Hrepl & H).
  destruct (as_boolean _) as [rec|]; [|discriminate H]. destruct (readCreatedAt _) as [ca|]; [|discriminate H].
  destruct (_ || _) eqn:Eb; [discriminate H|]. destruct (jmem _ _) eqn:Ej; [discriminate H|]. injection H as <-.
  unfold encode_proposal_intent, assertRecord, as_record.
  cbn [pi_op pi_path pi_intent_id pi_generation pi_provenance pi_base_main pi_base_event_seq
       pi_replaces_intent_id pi_recreated_after_delete pi_created_at]. next.
  rewrite (readDirOp_intro _ op) by get_field. next.
  rewrite (readSyncPath_again r _ path Hpath) by get_field. next.
  rewrite (readString_again r _ _ "intent_id" iid Hiid) by get_field. next. rewrite Ei. cbn [negb].
  rewrite (readNonNegativeInteger_again r _ _ "generation" gen Hgen) by get_field. next.
  rewrite (readProvenance_again _ prov) by get_field. next.
  rewrite (readNullableCommitId_again r _ _ "base_main" bm Hbm) by get_field. next.
  rewrite (readNonNegativeInteger_again r _ _ "base_event_seq" bs Hbs) by get_field. next.
  repeat get_step.
  match goal with |- (?m ≫= _) = _ => assert (m = Ok repl) as Hr; [|rewrite Hr] end.
  2: { next. repeat get_step. cbn [as_boolean]. assert (readCreatedAt (text_or_null ca) = Some ca) as -> by (by destruct ca).
       by rewrite Eb, Ej. }
  destruct (is_null (rget r _)); [by injection Hrepl as <-|].
  apply fmap_Ok in Hrepl as (s & Hs & ->). cbn [text_or_null is_null].
  by rewrite (readString_again r _ _ "replaces_intent_id" s Hs) by get_field.
Qed.

Lemma readProposalIntents_again main seq ids items intents :
  readProposalIntents main seq ids items = Ok intents →
  readProposalIntents main seq ids (map encode_proposal_intent intents) = Ok intents ∧ length intents = length items.
Proof.
  revert ids intents. induction items as [|item items IH]; intros ids intents H; cbn [readProposalIntents] in H.
  { by injection H as <-. }
  apply bind_Ok in H as (i & Hi & H). apply bind_Ok in H as (l & Hl & H). injection H as <-.
  apply IH in Hl as [Hl Hlen]. cbn [map readProposalIntents].
  rewrite (readProposalIntent_again _ _ _ _ _ Hi). next. rewrite Hl. cbn. by rewrite Hlen.
Qed.

Lemma parse_proposal_again v p : parse_proposal v = Ok p → parse_proposal (encode_proposal p) = Ok p.
Proof.
  unfold parse_proposal at 1. intros H. apply bind_Ok in H as (r & _ & H).
  destruct (is_int _ _); [|discriminate H]. cbn [negb] in H.
  apply bind_Ok in H as (pid & Hpid & H). destruct (rtest PROPOSAL_ID_PATTERN pid) eqn:Ep; [|discriminate H]. cbn [negb] in H.
  apply bind_Ok in H as (bm & Hbm & H). apply bind_Ok in H as (bs & Hbs & H).
  destruct (rget r "intents") as [| | | | |items|]; try discriminate H.
  destruct (_ || _) eqn:El; [discriminate H|]. apply bind_Ok in H as (intents & Hi & H). injection H as <-.
  apply readProposalIntents_again in Hi as [Hi Hlen].
  unfold parse_proposal, encode_proposal, assertRecord, as_record.
  cbn [dp_proposal_id dp_base_main dp_base_event_seq dp_intents]. next. repeat get_step. cbn [is_int Z.eqb Pos.eqb negb].
  rewrite (readString_again r _ _ "proposal_id" pid Hpid) by get_field. next. rewrite Ep. cbn [negb].
  rewrite (readNullableCommitId_again r _ _ "base_main" bm Hbm) by get_field. next.
  rewrite (readNonNegativeInteger_again r _ _ "base_event_seq" bs Hbs) by get_field. next.
  repeat get_step. rewrite length_map, Hlen, El, Hi. reflexivity.
Qed.

Lemma readOptionalDirectoryProposal_again r f r' v :
  readOptionalDirectoryProposal r f = Ok v → rget r' f = default JUndef (encode_proposal <$> v) →
  readOptionalDirectoryProposal r' f = Ok v.
Proof.
  unfold readOptionalDirectoryProposal. intros H ->.
  destruct (rget r f); [by injection H as <-|..]; apply fmap_Ok in H as (p & Hp & ->);
    cbn [fmap option_fmap option_map default from_option id]; unfold encode_proposal at 1;
    change (JObj _) with (encode_proposal p); by rewrite (parse_proposal_again _ _ Hp).
Qed.

Lemma readRootIgnoreAttestation_again r r' v :
  readRootIgnoreAttestation r = Ok v →
  rget r' "root_ignore_capability" = match v with Some _ => JStr ROOT_IGNORE_V1 | None => JUndef end →
  rget r' "root_ignore_oid" = default JUndef (text_or_null <$> v) →
  has_own r' "root_ignore_oid" = bool_decide (is_Some v) → readRootIgnoreAttestation r' = Ok v.
Proof.
  unfold readRootIgnoreAttestation at 1. intros H Hc Ho Hh.
  destruct (negb _ && negb _); [discriminate H|]. apply bind_Ok in H as (oid & Hoid & H).
  assert (oid = v) as ->.
  { destruct (is_undef _), oid; try discriminate H; by injection H. }
  unfold readRootIgnoreAttestation. rewrite Hc. rewrite (readOwnCommitId_again r r' _ _ v Hoid Hh Ho).
  by destruct v.
Qed.

Lemma checkApiVersion_intro r : rget r "api_version" = JStr API_VERSION → checkApiVersion r = Ok tt.
Proof. intros H. unfold checkApiVersion, readString. rewrite H. reflexivity. Qed.

Lemma bind_intro {A B} (m : result A) (f : A → result B) a b : m = Ok a → f a = Ok b → m ≫= f = Ok b.
Proof. by intros ->. Qed.

(** The first reader of the goal returns what a lemma says. *)
Tactic Notation "step" open_constr(lemma) := eapply bind_intro; [eapply lemma; get_field|]; cbv beta.

Lemma parseDevicePushManifest_again v m :
  parseDevicePushManifest v = Ok m → parseDevicePushManifest (encode_push m) = Ok m.
Proof.
  unfold parseDevicePushManifest at 1. intros H. apply bind_Ok in H as (r & _ & H).
  apply bind_Ok in H as (? & _ & H). apply bind_Ok in H as (vid & Hvid & H). apply bind_Ok in H as (did & Hdid & H).
  apply bind_Ok in H as (xref & Hxref & H). apply bind_Ok in H as (tc & Htc & H).
  apply bind_Ok in H as (ps & Hps & H). apply bind_Ok in H as (pb & Hpb & H).
  apply bind_Ok in H as (ckm & Hckm & H). apply bind_Ok in H as (pv & Hpv & H).
  apply bind_Ok in H as (bc & Hbc & H). apply bind_Ok in H as (aid & Haid & H).
  apply bind_Ok in H as (ria & Hria & H). apply bind_Ok in H as (rp & Hrp & H).
  destruct (rename_base_missing rp bc) eqn:E1; [discriminate H|].
  apply bind_Ok in H as (di & Hdi & H). apply bind_Ok in H as (dp & Hdp & H).
  destruct (both_given di dp) eqn:E2; [discriminate H|]. injection H as <-.
  unfold parseDevicePushManifest, encode_push, assertRecord, as_record.
  cbn [pm_vault_id pm_device_id pm_expected_device_ref pm_target_commit pm_packfile_sha256 pm_packfile_bytes
       pm_client_known_main pm_plugin_version pm_base_commit pm_rename_pairs pm_attempt_id pm_root_ignore
       pm_directory_intents pm_directory_proposal app]. next.
  step checkApiVersion_intro.
  step (readString_again r _ _ "vault_id" vid Hvid).
  step (readString_again r _ _ "device_id" did Hdid).
  step (readNullableCommitId_again r _ _ "expected_device_ref" xref Hxref).
  step (readCommitId_again r _ _ "target_commit" tc Htc).
  step (readSha256_again r _ _ "packfile_sha256" ps Hps).
  step (readNonNegativeInteger_again r _ _ "packfile_bytes" pb Hpb).
  step (readNullableCommitId_again r _ _ "client_known_main" ckm Hckm).
  step (readOptionalString_again r _ _ "plugin_version" pv Hpv).
  step (readOwnCommitId_again r _ _ "base_commit" bc Hbc).
  step (readOptionalString_again r _ _ "attempt_id" aid Haid).
  step (readRootIgnoreAttestation_again r _ ria Hria).
  step (readOptionalRenamePairs_again r _ rp Hrp). rewrite E1.
  step (readOptionalDirectoryIntents_again r "directory_intents" _ di Hdi).
  step (readOptionalDirectoryProposal_again r "directory_proposal" _ dp Hdp).
  by rewrite E2.
Qed.

Lemma parseChunkPushCreateRequest_again v m :
  parseChunkPushCreateRequest v = Ok m → parseChunkPushCreateRequest (encode_chunk_push m) = Ok m.
Proof.
  unfold parseChunkPushCreateRequest at 1. intros H. apply bind_Ok in H as (r & _ & H).
  apply bind_Ok in H as (? & _ & H). apply bind_Ok in H as (aid & Haid & H).
  destruct (rtest ATTEMPT_ID_PATTERN aid) eqn:Ea; [|discriminate H]. cbn [negb] in H.
  apply bind_Ok in H as (ps & Hps & H). apply bind_Ok in H as (cc & Hcc & H).
  destruct (4096 <? cc) eqn:Ec; [discriminate H|].
  apply bind_Ok in H as (pv & Hpv & H). apply bind_Ok in H as (bc & Hbc & H). apply bind_Ok in H as (rp & Hrp & H).
  apply bind_Ok in H as (di & Hdi & H). apply bind_Ok in H as (dp & Hdp & H). apply bind_Ok in H as (ria & Hria & H).
  destruct (rename_base_missing rp bc) eqn:E1; [discriminate H|].
  destruct (both_given di dp) eqn:E2; [discriminate H|].
  apply bind_Ok in H as (vid & Hvid & H). apply bind_Ok in H as (did & Hdid & H).
  apply bind_Ok in H as (xref & Hxref & H). apply bind_Ok in H as (tc & Htc & H).
  apply bind_Ok in H as (ckm & Hckm & H). injection H as <-.
  unfold parseChunkPushCreateRequest, encode_chunk_push, assertRecord, as_record.
  cbn [cp_plugin_version cp_vault_id cp_device_id cp_expected_device_ref cp_target_commit cp_client_known_main
       cp_base_commit cp_rename_pairs cp_root_ignore cp_directory_intents cp_directory_proposal cp_attempt_id
       cp_chunk_count cp_plan_sha256 app]. next.
  step checkApiVersion_intro.
  step (readString_again r _ _ "attempt_id" aid Haid). rewrite Ea. cbn [negb].
  step (readSha256_again r _ _ "plan_sha256" ps Hps).
  step (readNonNegativeInteger_again r _ _ "chunk_count" cc Hcc). rewrite Ec.
  step (readOptionalString_again r _ _ "plugin_version" pv Hpv).
  step (readOwnCommitId_again r _ _ "base_commit" bc Hbc).
  step (readOptionalRenamePairs_again r _ rp Hrp).
  step (readOptionalDirectoryIntents_again r "directory_intents" _ di Hdi).
  step (readOptionalDirectoryProposal_again r "directory_proposal" _ dp Hdp).
  step (readRootIgnoreAttestation_again r _ ria Hria). rewrite E1, E2.
  step (readString_again r _ _ "vault_id" vid Hvid).
  step (readString_again r _ _ "device_id" did Hdid).
  step (readNullableCommitId_again r _ _ "expected_device_ref" xref Hxref).
  step (readCommitId_again r _ _ "target_commit" tc Htc).
  step (readNullableCommitId_again r _ _ "client_known_main" ckm Hckm). done.
Qed.

(** A request the server accepted parses again to the same request: sending
    (or storing and rereading) the parsed push manifest, chunked push or directory
    proposal loses and changes nothing, so parsing normalizes in one step. *)
Theorem accepted_requests_reparse :
  (∀ v m, parseDevicePushManifest v = Ok m → parseDevicePushManifest (encode_push m) = Ok m) ∧
  (∀ v m, parseChunkPushCreateRequest v = Ok m → parseChunkPushCreateRequest (encode_chunk_push m) = Ok m) ∧
  (∀ v p, parse_proposal v = Ok p → parse_proposal (encode_proposal p) = Ok p).
Proof.
  split_and!; [apply parseDevicePushManifest_again|apply parseChunkPushCreateRequest_again|apply parse_proposal_again].
Qed.

End round_trip.

(** ** Rename pairs *)

Definition pair_endpoints (pairs : list RenamePair) : list jstring :=
  pairs ≫= λ pair, [rp_source_path pair; rp_destination_path pair].

(** No path conflicts with an earlier one of the list or with one of [seen]. *)
Fixpoint disjoint_from (seen paths : list jstring) : Prop :=
  match paths with
  | [] => True
  | p :: paths => existsb (changedPathsConflict p) seen = false ∧ disjoint_from (set_add seen p) paths
  end.

Fixpoint keys_increase (previous : jstring) (pairs : list RenamePair) : Prop :=
  match pairs with
  | [] => True
  | rename :: pairs =>
    let key := pair_key (rp_source_path rename) (rp_destination_path rename) in
    (previous ≠ [] → jltb previous key = true) ∧ keys_increase key pairs
  end.

Section rename_pairs.
Context `{U : Unicode} {UOk : UnicodeOk U}.

(** An element of the list and the pair it spells. *)
Definition wire_pair (item : jsval) (pair : RenamePair) : Prop :=
  ∃ r, item = JObj r ∧ (join_with 44 (sort_strings (keys r)) =s? "destination_path,source_path") = true
  ∧ readCanonicalSyncPath r "source_path" = Ok (rp_source_path pair)
  ∧ readCanonicalSyncPath r "destination_path" = Ok (rp_destination_path pair).

Lemma changedPathsConflict_refl p : changedPathsConflict p p = true.
Proof. unfold changedPathsConflict. by rewrite jeqb_refl. Qed.

Lemma jleb_not_ltb a b : jleb a b = negb (jltb b a).
Proof. unfold jleb, jltb. rewrite (jcompare_antisym a b). by destruct (jcompare a b). Qed.

Lemma add_endpoint_Ok seen p k :
  add_endpoint seen p = Ok k ↔ existsb (changedPathsConflict p) seen = false ∧ k = set_add seen p.
Proof.
  unfold add_endpoint. destruct (existsb _ _); split; [done|by intros [? _]|by intros [= <-]|by intros [_ ->]].
Qed.

Lemma read_pairs_Ok seen prev items pairs :
  read_pairs seen prev items = Ok pairs ↔
  Forall2 wire_pair items pairs ∧ keys_increase prev pairs ∧ disjoint_from seen (pair_endpoints pairs).
Proof.
  revert seen prev pairs. induction items as [|item items IH]; intros seen prev pairs; cbn [read_pairs].
  { split; [intros [= <-]; split_and!; [constructor|done|done]|]. intros (H & _). by inversion H. }
  split.
  - intros H. apply bind_Ok in H as (r & Hr & H). apply assertRecord_Ok in Hr as ->.
    destruct (_ =s? _) eqn:Ek; [|discriminate H]. cbn [negb] in H.
    apply bind_Ok in H as (src & Hsrc & H). apply bind_Ok in H as (dst & Hdst & H).
    destruct (src =s? dst) eqn:E1; [discriminate H|]. destruct (negb (prev =s? _) && _) eqn:E2; [discriminate H|].
    apply bind_Ok in H as (e1 & He1 & H). apply bind_Ok in H as (e2 & He2 & H).
    apply bind_Ok in H as (rest & Hrest & H). injection H as <-.
    apply add_endpoint_Ok in He1 as [He1 ->]. apply add_endpoint_Ok in He2 as [He2 ->].
    apply IH in Hrest as (Hw & Hk & Hd). split_and!.
    + constructor; [|done]. exists r. auto.
    + cbn [keys_increase rp_source_path rp_destination_path]. split; [|done]. intros Hne.
      apply andb_false_iff in E2 as [E2|E2]; [by apply negb_false_iff, jeqb_eq in E2|].
      rewrite jleb_not_ltb in E2. by apply negb_false_iff in E2.
    + cbn. auto.
  - intros (Hw & Hk & Hd). inversion Hw as [|? pair ? rest (r & -> & Ek & Hsrc & Hdst) Hrest]; subst.
    cbn [keys_increase] in Hk. destruct Hk as [Hkey Hk]. cbn in Hd. destruct Hd as (He1 & He2 & Hd).
    cbn [assertRecord as_record]. cbn [mbind result_bind]. rewrite Ek. cbn [negb].
    rewrite Hsrc. cbn [mbind result_bind]. rewrite Hdst. cbn [mbind result_bind].
    rewrite (proj2 (jeqb_neq _ _)); [|intros Heq].
    2: { apply not_true_iff_false in He2. apply He2, existsb_exists. exists (rp_source_path pair).
         rewrite <- list_elem_of_In, set_add_elem, Heq. split; [by left|]. apply changedPathsConflict_refl. }
    assert (negb (prev =s? "") && jleb (pair_key (rp_source_path pair) (rp_destination_path pair)) prev = false) as ->.
    { destruct (jeqb_spec prev "") as [->|Hne]; [done|]. cbn [negb andb].
      rewrite jleb_not_ltb. by rewrite Hkey. }
    rewrite (proj2 (add_endpoint_Ok _ _ _) (conj He1 eq_refl)). cbn [mbind result_bind].
    rewrite (proj2 (add_endpoint_Ok _ _ _) (conj He2 eq_refl)). cbn [mbind result_bind].
    rewrite (proj2 (IH _ _ _)) by done. by destruct pair.
Qed.

Lemma disjoint_from_spec seen paths :
  disjoint_from seen paths →
  ForallOrdPairs (λ p q, changedPathsConflict p q = false) paths ∧
  ∀ p s, p ∈ paths → s ∈ seen → changedPathsConflict p s = false.
Proof.
  revert seen. induction paths as [|p paths IH]; intros seen; cbn.
  { intros _. split; [constructor|]. by intros p s ?%not_elem_of_nil. }
  intros [Hp Hd]. destruct (IH _ Hd) as [Hord Hseen].
  split; [constructor; [|done]|].
  - apply List.Forall_forall. intros q Hq. rewrite <- list_elem_of_In in Hq.
    rewrite changedPathsConflict_sym. apply Hseen; [done|]. apply set_add_elem. by left.
  - intros q s [->|Hq]%elem_of_cons Hs.
    + apply not_true_iff_false. intros Hc. apply not_true_iff_false in Hp. apply Hp, existsb_exists.
      exists s. by rewrite <- list_elem_of_In.
    + apply Hseen; [done|]. apply set_add_elem. by right.
Qed.

Lemma keys_increase_sorted prev pairs : prev ≠ [] → keys_increase prev pairs →
  StronglySorted (λ a b, jltb a b = true) (prev :: map (λ p, pair_key (rp_source_path p) (rp_destination_path p)) pairs).
Proof.
  intros Hne H. apply Sorted_StronglySorted; [intros a b c; apply jltb_trans|].
  revert prev Hne H. induction pairs as [|p pairs IH]; intros prev Hne; cbn; [repeat constructor|].
  intros [Hk H]. constructor; [|constructor; by apply Hk]. apply IH; [|done].
  unfold pair_key. by destruct (rp_source_path p).
Qed.

Lemma parseRenamePairs_Ok v pairs :
  parseRenamePairs v = Ok pairs ↔
  ∃ items, v = JArr items ∧ (1 ≤ length items ≤ 5000)%nat ∧ read_pairs [] [] items = Ok pairs.
Proof.
  unfold parseRenamePairs, readOptionalRenamePairs.
  assert (∀ x, rget [(lit "rename_pairs", x)] "rename_pairs" = x) as Hget by reflexivity.
  rewrite Hget. destruct v as [| | | | |items|]; try (split; [intros H|intros (? & [=] & _)];
    cbn [mbind result_bind] in H; discriminate H).
  split.
  - destruct ((length items =? 0)%nat || _) eqn:E; [intros H; discriminate H|].
    apply orb_false_iff in E as [E1 E2]. apply Nat.eqb_neq in E1. apply Z.ltb_ge in E2.
    intros H. apply bind_Ok in H as (o & Ho & H). apply fmap_Ok in Ho as (l & Hl & ->). injection H as <-.
    exists items. split_and!; [done|lia|lia|done].
  - intros (? & [= <-] & Hlen & Hr). rewrite (proj2 (Nat.eqb_neq _ _)) by lia.
    rewrite (proj2 (Z.ltb_ge _ _)) by lia. cbn [orb]. by rewrite Hr.
Qed.

(** [C27] Rename pairs the server accepts describe independent moves: between one
    and 5000 pairs in strictly increasing order, every endpoint a canonical path
    of the sync tree, and no two endpoints of the whole list equal or nested, so
    the moves can be applied in any order without one touching another's files. *)
Theorem accepted_rename_pairs_independent (v : jsval) (pairs : list RenamePair) :
  parseRenamePairs v = Ok pairs →
  (1 ≤ length pairs ≤ 5000)%nat ∧
  StronglySorted (λ a b, jltb a b = true) (map (λ p, pair_key (rp_source_path p) (rp_destination_path p)) pairs) ∧
  ForallOrdPairs (λ p q, changedPathsConflict p q = false) (pair_endpoints pairs) ∧
  ∀ p, p ∈ pair_endpoints pairs →
    normalizeVaultPath (JStr p) = PathOk p ∧ PathPolicy.isSyncableVaultPath (JStr p) = true.
Proof.
  intros (items & -> & Hlen & Hr)%parseRenamePairs_Ok. pose proof (read_pairs_length _ _ _ _ Hr) as Hl.
  apply read_pairs_Ok in Hr as (Hw & Hk & Hd). split_and!; [lia|lia| |by apply (disjoint_from_spec [])|].
  - destruct pairs as [|p pairs]; [constructor|]. destruct Hk as [_ Hk].
    apply keys_increase_sorted; [|done]. unfold pair_key. by destruct (rp_source_path p).
  - intros p Hp. clear -Hw Hp. unfold pair_endpoints in Hp. apply list_elem_of_bind in Hp as (pair & Hp & Hin).
    apply list_elem_of_lookup in Hin as [i Hi]. destruct (Forall2_lookup_r _ _ _ _ _ Hw Hi) as (item & _ & r & _ & _ & Hs & Hdst).
    apply readCanonicalSyncPath_Ok in Hs as (_ & _ & Hs). apply readCanonicalSyncPath_Ok in Hdst as (_ & _ & Hdst).
    apply elem_of_cons in Hp as [->|Hp]; [done|]. by apply list_elem_of_singleton in Hp as ->.
Qed.

End rename_pairs.

(** ** Concrete inputs *)

Definition sample_commit : jstring := repeat 97%N 40.
Definition sample_digest : jstring := repeat 48%N 64.

Definition sample_pair (source destination : jstring) : jsval :=
  JObj [(lit "source_path", JStr source); (lit "destination_path", JStr destination)].

Definition sample_push : jsval :=
  JObj [(lit "packfile_sha256", JStr sample_digest); (lit "packfile_bytes", JNum (NInt 12));
        (lit "vault_id", JStr "v1"); (lit "device_id", JStr "d1"); (lit "expected_device_ref", JStr "");
        (lit "target_commit", JStr sample_commit); (lit "client_known_main", JNull);
        (lit "api_version", JStr API_VERSION); (lit "base_commit", JStr sample_commit);
        (lit "rename_pairs", JArr [sample_pair "a.md" "b.md"; sample_pair "c" "d"]);
        (lit "directory_intents", JArr [JObj [(lit "op", JStr "create"); (lit "path", JStr "x\y")]])].

Lemma accepted_requests_reparse_witness :
  ∃ m, @parseDevicePushManifest ascii_unicode sample_push = Ok m ∧ pm_expected_device_ref m = None ∧
  pm_directory_intents m = Some [mk_intent DirCreate "x/y"] ∧
  @parseDevicePushManifest ascii_unicode (encode_push m) = Ok m.
Proof.
  eexists. split; [vm_compute; reflexivity|]. split; [reflexivity|]. split; [reflexivity|].
  apply (proj1 (@accepted_requests_reparse ascii_unicode ascii_unicode_ok) sample_push). vm_compute. reflexivity.
Defined.

Lemma accepted_rename_pairs_independent_witness :
  @parseRenamePairs ascii_unicode (JArr [sample_pair "a.md" "b.md"; sample_pair "c" "d"])
    = Ok [mk_pair "a.md" "b.md"; mk_pair "c" "d"] ∧
  ForallOrdPairs (λ p q, changedPathsConflict p q = false) (pair_endpoints [mk_pair "a.md" "b.md"; mk_pair "c" "d"]).
Proof.
  split; [vm_compute; reflexivity|].
  refine (proj1 (proj2 (proj2 (@accepted_rename_pairs_independent ascii_unicode
    (JArr [sample_pair "a.md" "b.md"; sample_pair "c" "d"]) [mk_pair "a.md" "b.md"; mk_pair "c" "d"] _)))).
  vm_compute. reflexivity.
Defined.
