(* ===== verification/ClientJournals.v ===== *)
(** * Journals and checkpoints the plugin reads back (obsidian-plugin/src/main.cjs)

    The plugin resumes interrupted work from files it wrote itself: transfer
    checkpoints, the upload hand-off, rename pairs, the apply journal, the
    directory recovery decision.  Each reader is a predicate or a parser on
    arbitrary JSON; the theorems say what a document that passes guarantees, and
    relate the rename-pair check to the server's parser. *)

From S2P Require Export Validators.

Local Open Scope Z_scope.

(** SHA-256 of a text's UTF-8 bytes, in lower-case hexadecimal. *)
Class Sha256 := { sha256 : jstring → jstring }.
Definition toy_sha256 : Sha256 := {| sha256 _ := repeat 97%N 64 |}.

(** ** Expressions *)

(** [a || b]. *)
Definition js_or (a b : jsval) : jsval := if truthy a then a else b.

(** [Object.assign({}, a, b)] on records with distinct keys. *)
Definition assign (a b : record) : record := fold_left (λ r kv, mset r kv.1 kv.2) b a.

(** [value && typeof value === "object" && !Array.isArray(value)] is [is_record];
    [stableJson(a) === stableJson(b)] compares texts, [undefined] included. *)
Definition same_json `{Nm : Numerals} (a b : jsval) : bool :=
  match stableJson a, stableJson b with
  | Some s, Some t => s =s? t
  | None, None => true
  | _, _ => false
  end.

Definition hex_of (n : nat) (v : jsval) : bool :=
  match v with JStr s => rtest (rrep n (RClass is_hex)) s | _ => false end.

Definition isGitObjectId (value : jsval) : bool := hex_of 40 value.
Definition isNullableString (value : jsval) : bool := is_null value || is_string value.
Definition isNullableSha256 (value : jsval) : bool := is_null value || hex_of 64 value.
Definition isNullableNonNegativeNumber (value : jsval) : bool :=
  is_null value || match value with JNum n => num_finite n && negb (num_neg n) | _ => false end.
Definition nullableOid (oid : jsval) : bool := is_null oid || isGitObjectId oid.
Definition isApplyId (value : jsval) : bool :=
  match value with JStr s => rtest (RSeq (rlit "apply_") (rrange 1 120 (RClass is_id_unit))) s | _ => false end.

Definition isPreflightFingerprint (value : jsval) : bool :=
  if negb (is_record value) then false else
  if negb (is_one_of (jget value "kind") (lits ["missing"; "file"; "directory"; "other"])) then false else
  if is_lit (jget value "kind") "file"
  then hex_of 64 (jget value "sha256") && hex_of 40 (jget value "oid")
  else is_null (jget value "sha256") && is_null (jget value "oid").

(** A property read from a value that has none, or a method called on a value
    that is not a string. *)
Definition TypeError : js_error := mk_error EPlain "" "TypeError" [].

(** [a && b] and [items.every(test)] where an operand can throw. *)
Definition and_then (a : result bool) (b : result bool) : result bool :=
  match a with Ok true => b | _ => a end.
Notation "a &&& b" := (and_then a b) (at level 40, left associativity).
Fixpoint every (test : jsval → result bool) (items : list jsval) : result bool :=
  match items with [] => Ok true | item :: items => test item &&& every test items end.

Section client_journals.
Context `{U : Unicode} `{Nm : Numerals} `{Sha : Sha256}.

Definition sha256_json (v : jsval) : jstring := sha256 (default [] (stableJson v)).
Definition transferManifestSha256 (manifest : jsval) : jstring := sha256_json manifest.

(** A string that is a safe journal path. *)
Definition safe_path (v : jsval) : bool := match v with JStr p => isSafeJournalPath p | _ => false end.

(** [isSafeJournalPath] of any value: [normalizePath] calls a string method. *)
Definition guard_path (v : jsval) : result bool :=
  match v with JStr p => Ok (isSafeJournalPath p) | _ => Throw TypeError end.

(** [items.every(item => typeof item === "string" && isSafeJournalPath(item)) &&
    new Set(items).size === items.length]. *)
Definition strings_of (items : list jsval) : list jstring := omap as_string items.
Definition all_distinct (items : list jstring) : bool := (length (js_set items) =? length items)%nat.
Definition safe_path_set (v : jsval) : bool :=
  match v with JArr items => forallb safe_path items && all_distinct (strings_of items) | _ => false end.

Definition isTransferPathArray (value : jsval) : bool :=
  match value with
  | JArr items => forallb (λ v, match v with JStr p => isSafeJournalPath p && ClientPaths.isSyncableVaultPath p | _ => false end) items
                  && all_distinct (strings_of items)
  | _ => false
  end.

Definition isTargetFileSizeMap (value : jsval) : bool :=
  match value with
  | JObj kvs => forallb (λ '(filePath, bytes), isSafeJournalPath filePath && ClientPaths.isSyncableVaultPath filePath
                                               && is_safe_nonneg bytes) kvs
  | _ => false
  end.

(** [intent.op] and [intent.path] of a directory intent in a journal. *)
Definition is_intent (intent : jsval) : bool :=
  is_record intent && (is_lit (jget intent "op") "create" || is_lit (jget intent "op") "delete")
  && safe_path (jget intent "path").
Definition is_intent_array (v : jsval) : bool := match v with JArr l => forallb is_intent l | _ => false end.

(** ** Transfer checkpoints *)

Definition isCompleteTransferManifest (value : jsval) : bool :=
  is_record value && is_lit (jget value "api_version") API_VERSION
  && is_lit (jget value "capability") "git-object-pack-chunks-v1" && is_true (jget value "complete")
  && isGitObjectId (jget value "target_main")
  && is_safe_nonneg (jget value "cursor") && is_safe_integer (jget value "next_cursor")
  && match jget value "cursor", jget value "next_cursor" with
     | JNum (NInt cursor), JNum (NInt next_cursor) => (next_cursor =? cursor) || (next_cursor =? cursor + 1)
     | _, _ => false
     end
  && hex_of 64 (jget value "chunk_sha256") && is_safe_nonneg (jget value "chunk_bytes")
  && isTransferPathArray (jget value "changed_paths") && isTargetFileSizeMap (jget value "target_file_sizes")
  && isTransferPathArray (jget value "explicit_directories").

Definition is_safe_positive (v : jsval) : bool :=
  match v with JNum n => num_safe n && num_pos n | _ => false end.

Definition isCompleteBootstrapCheckpoint (value : jsval) : bool :=
  let manifest := jget value "manifest" in
  is_record value && is_string (jget value "connection_id") && is_true (jget value "complete")
  && isGitObjectId (jget value "target_main") && is_safe_nonneg (jget value "next_cursor")
  && is_safe_positive (jget value "received_chunks") && is_safe_nonneg (jget value "transferred_bytes")
  && isCompleteTransferManifest manifest && hex_of 64 (jget value "manifest_sha256")
  && js_eqb (jget manifest "connection_id") (jget value "connection_id")
  && is_string (jget manifest "vault_id") && is_string (jget manifest "vault_name")
  && isGitObjectId (jget manifest "root_commit")
  && js_eqb (jget manifest "target_main") (jget value "target_main")
  && js_eqb (jget manifest "next_cursor") (jget value "next_cursor").

Definition is_acknowledgement (v : jsval) : bool :=
  is_record v && match jget v "intent_id" with JStr (_ :: _) => true | _ => false end
  && is_safe_nonneg (jget v "generation").

Definition isCompletePullCheckpoint (value : jsval) : bool :=
  let manifest := jget value "manifest" in
  is_record value && is_string (jget value "vault_id") && is_string (jget value "device_id")
  && nullableOid (jget value "current_local_main") && is_safe_nonneg (jget value "current_event_seq")
  && is_true (jget value "complete") && isGitObjectId (jget value "target_main")
  && is_safe_nonneg (jget value "next_cursor") && is_safe_positive (jget value "received_chunks")
  && is_safe_nonneg (jget value "transferred_bytes")
  && isCompleteTransferManifest manifest && hex_of 64 (jget value "manifest_sha256")
  && js_eqb (jget manifest "vault_id") (jget value "vault_id")
  && js_eqb (jget manifest "device_id") (jget value "device_id")
  && js_eqb (jget manifest "target_main") (jget value "target_main")
  && js_eqb (jget manifest "next_cursor") (jget value "next_cursor")
  && (is_null (jget manifest "current_local_main_is_ancestor") || is_boolean (jget manifest "current_local_main_is_ancestor"))
  && is_safe_nonneg (jget manifest "event_seq")
  && is_intent_array (jget manifest "directory_intents")
  && match jget manifest "directory_acknowledgements" with JArr l => forallb is_acknowledgement l | _ => false end.

(** ** Rename pairs *)

(** [value === undefined || test(value)]. *)
Definition absent_or (test : jsval → bool) (v : jsval) : bool := is_undef v || test v.

Definition is_rename_event (event : jsval) : result bool :=
  match event with
  | JObj _ | JArr _ =>
    guard_path (jget event "source_path") &&& guard_path (jget event "destination_path")
    &&& Ok (negb (js_eqb (jget event "source_path") (jget event "destination_path")))
  | _ => Ok false
  end.

Definition path_text (v : jsval) : jstring := default [] (as_string v).
Definition pair_source (pair : jsval) : jstring := path_text (jget pair "source_path").
Definition pair_destination (pair : jsval) : jstring := path_text (jget pair "destination_path").

(** One element, without its comparison with the previous one. *)
Definition is_pair (item : jsval) : result bool :=
  if negb (is_record item) then Ok false else
  guard_path (jget item "source_path") &&& guard_path (jget item "destination_path")
  &&& Ok (negb (pair_source item =s? pair_destination item)
          && negb (to_lower (pair_source item) =s? to_lower (pair_destination item))
          && absent_or is_safe_nonneg (jget item "generation")
          && absent_or isGitObjectId (jget item "base")
          && absent_or isGitObjectId (jget item "blocked_commit")
          && absent_or is_boolean (jget item "lineage_confirmed"))
  &&& match jget item "events" with
      | JUndef => Ok true
      | JArr events => every is_rename_event events
      | _ => Ok false
      end.

(** [previous.source_path > pair.source_path || ... ] of two neighbours, negated. *)
Definition pair_before (previous pair : jsval) : bool :=
  negb (jltb (pair_source pair) (pair_source previous))
  && negb ((pair_source previous =s? pair_source pair) && jleb (pair_destination pair) (pair_destination previous)).

Fixpoint pairs_sorted (previous : option jsval) (pairs : list jsval) : result bool :=
  match pairs with
  | [] => Ok true
  | item :: pairs =>
    is_pair item &&& Ok (match previous with Some p => pair_before p item | None => true end)
    &&& pairs_sorted (Some item) pairs
  end.

(** The double loop over [i < j]. *)
Fixpoint no_conflicts (endpoints : list jstring) : bool :=
  match endpoints with
  | [] => true
  | p :: endpoints => negb (existsb (changedPathsConflict p) endpoints) && no_conflicts endpoints
  end.

Definition client_endpoints (pairs : list jsval) : list jstring :=
  pairs ≫= λ pair, [pair_source pair; pair_destination pair].

Definition isValidRenamePairs (value : jsval) : result bool :=
  match value with
  | JArr pairs =>
    if 5000 <? Z.of_nat (length pairs) then Ok false else
    pairs_sorted None pairs &&& Ok (no_conflicts (client_endpoints pairs))
  | _ => Ok false
  end.

Definition array_elements (v : jsval) : list jsval := default [] (as_array v).

Definition isValidStoredRenamePairs (value : jsval) : result bool :=
  isValidRenamePairs value &&& Ok (forallb (λ pair,
    isGitObjectId (jget pair "base") && is_safe_nonneg (jget pair "generation")
    && match jget pair "events" with JArr (_ :: _) => true | _ => false end) (array_elements value)).

Definition record_keys (v : jsval) : list jstring := match v with JObj r => keys r | _ => [] end.

Definition isValidWireRenamePairs (value : jsval) : result bool :=
  isValidRenamePairs value &&& Ok (forallb (λ pair,
    join_with 44 (sort_strings (record_keys pair)) =s? "destination_path,source_path") (array_elements value)).

(** [value === undefined || isValidWireRenamePairs(value)]. *)
Definition absent_or_wire_pairs (v : jsval) : result bool :=
  if is_undef v then Ok true else isValidWireRenamePairs v.

(** ** Upload checkpoints *)

Definition capture_id_text (v : jsval) : bool := hex_of 16 (js_or v (JStr [])).
Definition nullable_capture_id (v : jsval) : bool := is_undef v || is_null v || hex_of 16 v.
Definition some_pairs (v : jsval) : bool := match js_or v (JArr []) with JArr (_ :: _) => true | _ => false end.

Definition isUploadRecoveryQueue (value : jsval) : result bool :=
  Ok (is_record value && nullableOid (jget value "pending_commit") && nullableOid (jget value "expected_device_ref")
      && absent_or nullableOid (jget value "pending_proposal_base")
      && absent_or nullableOid (jget value "pending_upload_base"))
  &&& absent_or_wire_pairs (jget value "pending_rename_pairs")
  &&& Ok (nullable_capture_id (jget value "pending_capture_id")
  && (negb (some_pairs (jget value "pending_rename_pairs"))
      || (negb (is_null (jget value "pending_commit")) && isGitObjectId (jget value "pending_proposal_base")
          && capture_id_text (jget value "pending_capture_id")))
  && is_one_of (jget value "status")
       (lits ["idle"; "queued_local"; "uploading"; "uploaded"; "merged"; "conflicted"; "blocked_recovery"])
  && is_safe_nonneg (jget value "attempts") && is_safe_nonneg (jget value "change_seq")
  && match jget value "changed_paths" with JArr l => forallb safe_path l | _ => false end).

Definition nonempty_string (v : jsval) : bool := match v with JStr (_ :: _) => true | _ => false end.

Definition isUploadRecoveryResult (value : jsval) : bool :=
  is_one_of (jget value "status") (lits ["merged"; "noop"; "conflicted"])
  && isGitObjectId (jget value "device_ref") && isGitObjectId (jget value "main")
  && is_safe_nonneg (jget value "event_seq")
  && (negb (is_lit (jget value "status") "merged") || isGitObjectId (jget value "merge_commit"))
  && (negb (is_lit (jget value "status") "conflicted") || nonempty_string (jget value "conflict_id")).

Definition isUploadTransferCheckpoint (value : jsval) : result bool :=
  let request := jget value "transfer_request" in
  let groups := jget value "groups" in
  Ok (is_record value && is_int (jget value "version") 1 && hex_of 64 (jget value "identity")
  && isGitObjectId (jget value "target_commit")
  && match groups with
     | JArr l => forallb (λ group, match group with JArr oids => forallb isGitObjectId oids | _ => false end) l
     | _ => false
     end
  && is_record request
  && js_eqb (jget request "target_commit") (jget value "target_commit")
  && is_int (jget request "chunk_count") (Z.of_nat (length (array_elements groups)))
  && is_lit (jget request "plan_sha256") (sha256_json groups)
  && match jget value "attempt_id" with JStr s => rtest ATTEMPT_ID_PATTERN s | _ => false end
  && is_lit (jget value "attempt_id") (lit "xfer_" ++ take 32 (sha256_json request))
  && (is_null (jget value "transfer_id")
      || match jget value "transfer_id" with
         | JStr s => rtest (RSeq (rlit "trn_") (rplus (RClass is_alnum))) s
         | _ => false
         end))
  &&& absent_or_wire_pairs (jget value "rename_pairs")
  &&& Ok (nullable_capture_id (jget value "capture_id")
  && (negb (some_pairs (jget value "rename_pairs"))
      || (isGitObjectId (jget request "base_commit") && capture_id_text (jget value "capture_id")))
  && same_json (js_or (jget value "rename_pairs") (JArr [])) (js_or (jget request "rename_pairs") (JArr []))
  && (is_null (jget value "directory_proposal") || is_record (jget value "directory_proposal"))).

Definition isModernUploadCheckpoint (value : jsval) : result bool :=
  isUploadTransferCheckpoint value
  &&& Ok (is_lit (jget (jget value "transfer_request") "root_ignore_capability") "root-ignore-v1"
          && jmem "root_ignore_oid" (record_keys (jget value "transfer_request"))).

Definition or_null (v : jsval) : jsval := js_or v JNull.
Definition or_empty (v : jsval) : jsval := js_or v (JArr []).

Definition isUploadRecoveryReplay (value original : jsval) : result bool :=
  let request := jget value "transfer_request" in
  let original_request := jget original "transfer_request" in
  isModernUploadCheckpoint value
  &&& Ok (js_eqb (jget value "target_commit") (jget original "target_commit")
  && forallb (λ field, js_eqb (jget request field) (jget original_request field))
       (lits ["vault_id"; "device_id"; "expected_device_ref"; "client_known_main"])
  && js_eqb (or_null (jget request "base_commit")) (or_null (jget original_request "base_commit"))
  && same_json (or_empty (jget value "rename_pairs")) (or_empty (jget original "rename_pairs"))
  && js_eqb (or_null (jget value "capture_id")) (or_null (jget original "capture_id"))
  && same_json (jget value "directory_proposal") (jget original "directory_proposal")).

Definition sameUploadAttempt (first second : jsval) : bool :=
  js_eqb (jget first "identity") (jget second "identity")
  && js_eqb (jget first "attempt_id") (jget second "attempt_id")
  && same_json (jget first "transfer_request") (jget second "transfer_request")
  && same_json (jget first "groups") (jget second "groups")
  && same_json (jget first "directory_proposal") (jget second "directory_proposal").

(** [delete record[key]]. *)
Definition without (r : record) (key : jstring) : record := List.filter (λ kv, negb (kv.1 =s? key)) r.

(** The raw text of the checkpoint reads back as the checkpoint. *)
Definition raw_agrees (raw checkpoint : jsval) : result bool :=
  match json_parse (path_text raw) with
  | Some v => Ok (same_json v checkpoint)
  | None => Throw (mk_error EPlain "" "SyntaxError" [])
  end.

(** The body of the [try] block. *)
Definition handoff_body (r : record) : result bool :=
  let value := JObj r in
  let checkpoint := jget value "checkpoint" in
  let request := jget checkpoint "transfer_request" in
  let old_queue := jget value "old_queue" in
  let successor_queue := jget value "successor_queue" in
  Ok (is_int (jget value "version") 1
      && is_lit (jget value "journal_sha256") (sha256_json (JObj (without r "journal_sha256"))))
  &&& isUploadTransferCheckpoint checkpoint
  &&& Ok (is_string (jget value "checkpoint_raw")
          && is_lit (jget value "checkpoint_sha256") (sha256 (path_text (jget value "checkpoint_raw"))))
  &&& raw_agrees (jget value "checkpoint_raw") checkpoint
  &&& Ok (js_eqb (jget value "vault_id") (jget request "vault_id")
          && js_eqb (jget value "device_id") (jget request "device_id")
          && js_eqb (jget value "old_commit") (jget checkpoint "target_commit")
          && js_eqb (jget value "original_base") (or_null (jget request "base_commit")))
  &&& isUploadRecoveryQueue old_queue
  &&& Ok (js_eqb (jget old_queue "pending_commit") (jget value "old_commit")
          && js_eqb (jget old_queue "expected_device_ref") (jget request "expected_device_ref")
          && js_eqb (jget old_queue "pending_upload_base") (jget value "original_base")
          && same_json (or_empty (jget old_queue "pending_rename_pairs")) (or_empty (jget checkpoint "rename_pairs"))
          && js_eqb (or_null (jget old_queue "pending_capture_id")) (or_null (jget checkpoint "capture_id"))
          && (negb (truthy (jget old_queue "pending_proposal_base"))
              || js_eqb (jget old_queue "pending_proposal_base") (jget value "original_base")))
  &&& isUploadRecoveryQueue successor_queue
  &&& Ok (js_eqb (jget successor_queue "pending_commit") (jget value "successor_commit"))
  &&& (if is_lit (jget value "phase") "prepared" && is_null (jget value "result") then Ok true else
       if is_lit (jget value "phase") "result" && isUploadRecoveryResult (jget value "result")
       then if is_null (jget value "replay_checkpoint") then Ok true
            else isUploadRecoveryReplay (jget value "replay_checkpoint") checkpoint
       else Ok false).

Definition isUploadCheckpointHandoff (value : jsval) : bool :=
  match value with
  | JObj r => match handoff_body r with Ok b => b | Throw _ => false end
  | _ => false
  end.

End client_journals.

(** ** Agreement with the server's parser *)

Section key_order.

Lemma jcompare_pair_key a b c d : NUL ∉ a → NUL ∉ c →
  jcompare (pair_key a b) (pair_key c d) = match jcompare a c with Eq => jcompare b d | o => o end.
Proof.
  unfold pair_key. revert c. induction a as [|x a IH]; intros [|y c] Ha Hc; cbn.
  - done.
  - apply not_elem_of_cons in Hc as [Hy _]. unfold NUL in *. by destruct y.
  - apply not_elem_of_cons in Ha as [Hx _]. unfold NUL in *. by destruct x.
  - apply not_elem_of_cons in Ha as [_ Ha]. apply not_elem_of_cons in Hc as [_ Hc].
    destruct (N.compare x y); [by apply IH|done|done].
Qed.

Lemma join_member c x l : x ∈ l → c ∉ x → x ∈ split_on c (join_with c l).
Proof.
  intros Hx Hc. induction l as [|y l IH]; [by apply not_elem_of_nil in Hx|].
  destruct l as [|z l].
  - cbn. apply list_elem_of_singleton in Hx as <-. rewrite split_on_no_sep by done. by left.
  - cbn [join_with]. rewrite split_on_app_sep. apply elem_of_app.
    apply elem_of_cons in Hx as [<-|Hx]; [left; rewrite split_on_no_sep by done; by left|right; by apply IH].
Qed.

Lemma no_comma f : has_unit 44 f = false → 44%N ∉ f.
Proof. apply has_unit_false. Qed.

Definition wire_keys : list jstring := lits ["destination_path"; "source_path"].

(** A record with exactly the wire fields has no other field. *)
Lemma wire_keys_only (r : record) f :
  (join_with 44 (sort_strings (keys r)) =s? "destination_path,source_path") = true →
  44%N ∉ f → f ∉ wire_keys → rget r f = JUndef.
Proof.
  intros Hk%jeqb_eq Hc Hf. apply rget_has_own, not_true_iff_false. intros H%has_own_elem. apply Hf.
  assert (f ∈ sort_strings (keys r)) as Hs by by apply isort_elem.
  apply (join_member 44 f) in Hs; [|done]. by rewrite Hk in Hs.
Qed.

Lemma no_conflicts_spec l :
  no_conflicts l = true ↔ ForallOrdPairs (λ p q, changedPathsConflict p q = false) l.
Proof.
  induction l as [|p l IH]; cbn; [split; [constructor|done]|].
  rewrite andb_true_iff, negb_true_iff, IH. split.
  - intros [Hp Hl]. constructor; [|done]. apply List.Forall_forall. intros q Hq.
    apply not_true_iff_false. intros Hc. apply not_true_iff_false in Hp. apply Hp, existsb_exists. eauto.
  - inversion 1 as [|? ? Hp Hl]; subst. split; [|done]. apply not_true_iff_false.
    intros (q & Hq & Hc)%existsb_exists. rewrite List.Forall_forall in Hp. by rewrite Hp in Hc.
Qed.

Lemma disjoint_from_iff l : ∀ seen, disjoint_from seen l ↔
  no_conflicts l = true ∧ ∀ p s, p ∈ l → s ∈ seen → changedPathsConflict p s = false.
Proof.
  intros seen. rewrite no_conflicts_spec. split; [apply disjoint_from_spec|].
  revert seen. induction l as [|p l IH]; intros seen; [done|]. intros [Hl Hs]. inversion Hl as [|? ? Hp Hl']; subst.
  cbn. split.
  - apply not_true_iff_false. intros (q & Hq & Hc)%existsb_exists. rewrite <- list_elem_of_In in Hq.
    rewrite Hs in Hc; [done|by left|done].
  - apply IH. split; [done|]. intros q s Hq [->|Hin]%set_add_elem.
    + rewrite changedPathsConflict_sym. rewrite List.Forall_forall in Hp. apply Hp. by rewrite <- list_elem_of_In.
    + apply Hs; [by right|done].
Qed.

End key_order.

Section agreement.
Context `{U : Unicode} {UOk : UnicodeOk U}.

Definition wire_fields (item : jsval) : bool :=
  join_with 44 (sort_strings (record_keys item)) =s? "destination_path,source_path".
Definition syncable_pair (item : jsval) : bool :=
  PathPolicy.isSyncableVaultPath (JStr (pair_source item)) && PathPolicy.isSyncableVaultPath (JStr (pair_destination item)).
Definition case_only (item : jsval) : bool := to_lower (pair_source item) =s? to_lower (pair_destination item).
Definition to_pair (item : jsval) : RenamePair := mk_pair (pair_source item) (pair_destination item).

Lemma safe_path_canonical v : safe_path v = true ↔ v = JStr (path_text v) ∧ canonical (path_text v).
Proof.
  destruct v; cbn; try (split; [done|by intros [? _]]).
  rewrite isSafeJournalPath_canonical. naive_solver.
Qed.

Lemma canonical_no_nul p : canonical p → NUL ∉ p.
Proof.
  intros (_ & _ & (Hc & _)%acceptable_spec)%canonical_acceptable Hn.
  apply not_true_iff_false in Hc. apply Hc, existsb_exists. exists NUL. by rewrite <- list_elem_of_In.
Qed.

Lemma readCanonicalSyncPath_iff r f s : readCanonicalSyncPath r f = Ok s ↔
  rget r f = JStr s ∧ canonical s ∧ PathPolicy.isSyncableVaultPath (JStr s) = true.
Proof.
  split.
  - intros (? & ? & ? & ?)%readCanonicalSyncPath_Ok. by rewrite <- normalizeVaultPath_fixpoint.
  - intros (? & Hc & ?). apply readCanonicalSyncPath_intro; try done.
    + intros ->. apply canonical_acceptable in Hc as (_ & _ & Hc). by apply acceptable_nonempty in Hc.
    + by apply canonical_normalize.
Qed.

Lemma and_then_true a b : a &&& b = Ok true ↔ a = Ok true ∧ b = Ok true.
Proof. unfold and_then. destruct a as [[]|]; (split; [intros H; try discriminate H; by split|intros [Ha Hb]; by try discriminate Ha]). Qed.

Lemma guard_path_true v : guard_path v = Ok true ↔ safe_path v = true.
Proof. destruct v; cbn; (split; [by try intros [= ->]|by intros H; rewrite ?H]). Qed.

Lemma Ok_bool_true (b : bool) : Ok b = Ok true ↔ b = true.
Proof. split; [by intros [=]|by intros ->]. Qed.

(** A valid pair with only the wire fields is what the server reads. *)
Lemma wire_pair_client item p :
  wire_pair item p ∧ case_only item = false ↔
  is_pair item = Ok true ∧ wire_fields item = true ∧ syncable_pair item = true ∧ p = to_pair item.
Proof.
  unfold wire_pair, wire_fields, syncable_pair, case_only. split.
  - intros [(r & -> & Hk & (Hs & Hcs & Hys)%readCanonicalSyncPath_iff & (Hd & Hcd & Hyd)%readCanonicalSyncPath_iff) Hcase].
    assert (∀ f, 44%N ∉ f → f ∉ wire_keys → rget r f = JUndef) as Habs by (intros; by apply wire_keys_only).
    unfold pair_source, pair_destination in *. cbn [jget record_keys] in *. rewrite Hs, Hd in *. cbn [path_text as_string default from_option id] in *.
    split_and!; [|done|by rewrite Hys, Hyd|].
    2: { unfold to_pair, pair_source, pair_destination. cbn [jget]. rewrite Hs, Hd. by destruct p. }
    unfold is_pair, pair_source, pair_destination. cbn [jget is_record negb]. rewrite Hs, Hd.
    assert (rget r "generation" = JUndef) as -> by (by apply Habs; [apply no_comma|apply jmem_not_elem]).
    assert (rget r "base" = JUndef) as -> by (by apply Habs; [apply no_comma|apply jmem_not_elem]).
    assert (rget r "blocked_commit" = JUndef) as -> by (by apply Habs; [apply no_comma|apply jmem_not_elem]).
    assert (rget r "lineage_confirmed" = JUndef) as -> by (by apply Habs; [apply no_comma|apply jmem_not_elem]).
    assert (rget r "events" = JUndef) as -> by (by apply Habs; [apply no_comma|apply jmem_not_elem]).
    cbn [guard_path path_text as_string default from_option id absent_or is_undef orb].
    rewrite !(proj2 (isSafeJournalPath_canonical _)) by done. rewrite Hcase. cbn [and_then mbind result_bind andb negb].
    rewrite !andb_true_r. assert (negb (rp_source_path p =s? rp_destination_path p) = true) as ->; [|done].
    apply negb_true_iff, jeqb_neq. intros Heq. rewrite Heq in Hcase. by rewrite jeqb_refl in Hcase.
  - intros (Hp & Hk & Hy & ->). apply andb_true_iff in Hy as [Hys Hyd]. destruct item as [| | | | | |r]; try done.
    unfold is_pair in Hp. cbn [is_record negb] in Hp. rewrite !and_then_true, !guard_path_true, Ok_bool_true in Hp.
    destruct Hp as [[[Hs Hd] Hb] _]. rewrite !andb_true_iff in Hb. destruct Hb as [[[[[_ Hcase] _] _] _] _].
    apply negb_true_iff in Hcase.
    apply safe_path_canonical in Hs as [Hs Hcs]. apply safe_path_canonical in Hd as [Hd Hcd].
    split; [|done]. exists r. split_and!; [done|done| |];
      apply readCanonicalSyncPath_iff; split_and!; done.
Qed.

End agreement.

Section agreement_lists.
Context `{U : Unicode} {UOk : UnicodeOk U}.

Definition item_key (item : jsval) : jstring := pair_key (pair_source item) (pair_destination item).

Lemma pair_before_key p q : is_pair p = Ok true → is_pair q = Ok true →
  pair_before p q = jltb (item_key p) (item_key q).
Proof.
  assert (∀ x, is_pair x = Ok true → NUL ∉ pair_source x) as Hnul.
  { unfold is_pair. intros x Hx. destruct (is_record x); [|done]. cbn [negb] in Hx.
    rewrite !and_then_true, !guard_path_true in Hx. destruct Hx as [[[Hs _] _] _].
    by apply safe_path_canonical in Hs as [_ ?%canonical_no_nul]. }
  intros Hp%Hnul Hq%Hnul. unfold pair_before, item_key, jltb. rewrite jcompare_pair_key by done.
  rewrite (jcompare_antisym (pair_source p) (pair_source q)). unfold jleb.
  rewrite (jcompare_antisym (pair_destination p) (pair_destination q)).
  destruct (jeqb_spec (pair_source p) (pair_source q)) as [Heq|Hne].
  - rewrite Heq, jcompare_refl. by destruct (jcompare (pair_destination p) _).
  - destruct (jcompare (pair_source p) (pair_source q)) eqn:E; [by apply jcompare_eq in E|done|done].
Qed.

Lemma item_key_nonempty item : item_key item ≠ [].
Proof. unfold item_key, pair_key. by destruct (pair_source item). Qed.

Lemma pairs_sorted_spec prev items : (∀ p, prev = Some p → is_pair p = Ok true) →
  pairs_sorted prev items = Ok true ↔
  Forall (λ item, is_pair item = Ok true) items ∧
  keys_increase (match prev with Some p => item_key p | None => [] end) (map to_pair items).
Proof.
  revert prev. induction items as [|item items IH]; intros prev Hprev; cbn [pairs_sorted map keys_increase].
  { split; [by split; [constructor|]|done]. }
  rewrite !and_then_true, Ok_bool_true. unfold to_pair at 1 2; cbn [rp_source_path rp_destination_path]. fold (item_key item).
  split.
  - intros [[Hi Hb] Hrest]. apply IH in Hrest as [Hall Hk]; [|by intros p [= <-]].
    split; [by constructor|]. split; [|done]. intros Hne. destruct prev as [p|]; [|done].
    by rewrite pair_before_key in Hb by auto.
  - intros [Hall [Hkey Hk]]. inversion Hall as [|? ? Hi Hall']; subst. split_and!; [done| |].
    + destruct prev as [p|]; [|done]. rewrite pair_before_key by auto. apply Hkey, item_key_nonempty.
    + apply IH; [by intros p [= <-]|done].
Qed.

Lemma client_endpoints_pairs items : client_endpoints items = pair_endpoints (map to_pair items).
Proof. unfold client_endpoints, pair_endpoints. induction items as [|item items IH]; [done|]. cbn in *. by rewrite IH. Qed.

Lemma wire_items_pairs items pairs :
  Forall2 wire_pair items pairs ∧ Forall (λ item, case_only item = false) items ↔
  Forall (λ item, is_pair item = Ok true ∧ wire_fields item = true ∧ syncable_pair item = true) items
  ∧ pairs = map to_pair items.
Proof.
  split.
  - intros [Hw Hc]. induction Hw as [|item p items pairs Hi _ IH]; [done|]. inversion Hc; subst.
    destruct (proj1 (wire_pair_client item p) (conj Hi H1)) as (? & ? & ? & ->).
    destruct (IH H2) as [? ->]. split; [by constructor|done].
  - intros [Hall ->]. induction Hall as [|item items (Hi & Hw & Hs) _ [IH1 IH2]]; [done|].
    destruct (proj2 (wire_pair_client item (to_pair item))) as [H1 H2]; [done|]. by split; constructor.
Qed.

(** [C28] The plugin's check of rename pairs on the wire and the server's parser
    accept the same lists: a non-empty list of syncable paths passes the
    plugin's check exactly when the server parses it and none of its renames
    changes letter case only (the plugin never sends those), and the server reads
    the very pairs the plugin wrote. *)
Theorem rename_pairs_client_server (items : list jsval) :
  (isValidWireRenamePairs (JArr items) = Ok true ∧ items ≠ [] ∧ Forall (λ item, syncable_pair item = true) items) ↔
  (parseRenamePairs (JArr items) = Ok (map to_pair items) ∧ Forall (λ item, case_only item = false) items).
Proof.
  unfold isValidWireRenamePairs, isValidRenamePairs, array_elements. cbn [as_array default from_option id].
  rewrite and_then_true, Ok_bool_true, forallb_forall, parseRenamePairs_Ok. split.
  - intros ([Hv Hw] & Hne & Hs). destruct (5000 <? _) eqn:Hlen; [done|]. apply Z.ltb_ge in Hlen.
    apply and_then_true in Hv as [Hsort Hd]. apply Ok_bool_true in Hd. apply pairs_sorted_spec in Hsort as [Hp Hk]; [|done].
    assert (Forall (λ item, is_pair item = Ok true ∧ wire_fields item = true ∧ syncable_pair item = true) items) as Hall.
    { rewrite List.Forall_forall in Hp, Hs |- *. intros x Hx. split_and!; [by apply Hp|by apply Hw|by apply Hs]. }
    destruct (proj2 (wire_items_pairs items (map to_pair items)) (conj Hall eq_refl)) as [Hwire Hcase].
    split; [|done]. exists items. split_and!; [done| |lia|].
    + destruct items; [done|cbn; lia].
    + apply read_pairs_Ok. split_and!; [done|done|]. rewrite <- client_endpoints_pairs. apply disjoint_from_iff.
      split; [done|]. by intros p s _ ?%not_elem_of_nil.
  - intros [(? & [= <-] & Hlen & Hr) Hcase]. apply read_pairs_Ok in Hr as (Hw & Hk & Hd).
    destruct (proj1 (wire_items_pairs items _) (conj Hw Hcase)) as [Hall _].
    rewrite List.Forall_forall in Hall. split; [|split; [by intros ->; cbn in Hlen; lia|]].
    + split; [|intros x Hx; by apply Hall]. rewrite (proj2 (Z.ltb_ge _ _)) by lia. apply and_then_true. rewrite Ok_bool_true. split.
      * apply pairs_sorted_spec; [done|]. split; [|done]. apply List.Forall_forall. intros x Hx. by apply Hall.
      * rewrite client_endpoints_pairs. by apply (disjoint_from_iff _ []) in Hd as [? _].
    + apply List.Forall_forall. intros x Hx. by apply Hall.
Qed.

End agreement_lists.

(** ** Concrete inputs *)

Lemma rename_pairs_client_server_witness :
  let items := [sample_pair "a.md" "b.md"; sample_pair "c" "d"] in
  @isValidWireRenamePairs ascii_unicode (JArr items) = Ok true ∧
  @parseRenamePairs ascii_unicode (JArr items) = Ok [mk_pair "a.md" "b.md"; mk_pair "c" "d"].
Proof.
  intros items. split; [vm_compute; reflexivity|].
  refine (proj1 (proj1 (@rename_pairs_client_server ascii_unicode ascii_unicode_ok items) _)).
  split; [vm_compute; reflexivity|]. split; [discriminate|]. repeat constructor.
Defined.
