(* ===== verification/ClientRecovery.v ===== *)
(** * Directory intents, recovery decisions and the apply journal of the plugin
    (obsidian-plugin/src/main.cjs)

    The plugin's own directory intents (stored, compacted, sent as a proposal),
    the evidence checks of the legacy settlement, the directory recovery decision
    and the apply journal.  The theorems connect them to the server: the plugin's
    compaction is the server's, a proposal the plugin builds is one the server
    parses; and they state what the parsers guarantee of a journal. *)

From S2P Require Export ClientJournals.

Local Open Scope Z_scope.

Section client_recovery.
Context `{U : Unicode} `{Nm : Numerals} `{Sha : Sha256}.

(** ** Directory intents *)

Definition is_create (intent : jsval) : bool := is_lit (jget intent "op") "create".
Definition is_delete_op (intent : jsval) : bool := is_lit (jget intent "op") "delete".
Definition op_text (intent : jsval) : jstring := path_text (jget intent "op").
Definition intent_path (intent : jsval) : jstring := path_text (jget intent "path").

(** [isSyncableVaultPath] of any value. *)
Definition guard_syncable (v : jsval) : result bool :=
  match v with JStr p => Ok (ClientPaths.isSyncableVaultPath p) | _ => Throw TypeError end.

(** [!intent || (intent.op !== "create" && intent.op !== "delete") || !isSyncableVaultPath(intent.path)], negated. *)
Definition usable_intent (intent : jsval) : result bool :=
  if negb (truthy intent) then Ok false else
  if negb (is_create intent) && negb (is_delete_op intent) then Ok false else
  guard_syncable (jget intent "path").

(** [Object.assign({}, intent, fields)]: the own properties of any value. *)
Definition own_entries (v : jsval) : record :=
  match v with
  | JObj r => r
  | JArr l => imap (λ i x, (dec (Z.of_nat i), x)) l
  | JStr s => imap (λ i c, (dec (Z.of_nat i), JStr [c])) s
  | _ => []
  end.
Definition assign_fields (intent : jsval) (fields : record) : jsval := JObj (assign (own_entries intent) fields).

Definition has_identity (intent : jsval) : bool :=
  nonempty_string (jget intent "intent_id") && is_safe_nonneg (jget intent "generation")
  && (is_lit (jget intent "provenance") "legacy" || is_lit (jget intent "provenance") "local_v2").

Definition legacy_identity (intent : jsval) : record :=
  [(lit "intent_id", JStr (lit "legacy_" ++ take 24 (sha256 (op_text intent ++ NUL :: intent_path intent))));
   (lit "generation", JNum (NInt 0)); (lit "provenance", JStr "legacy"); (lit "base_main", JNull);
   (lit "base_event_seq", JNum (NInt 0)); (lit "replaces_intent_id", JNull);
   (lit "recreated_after_delete", JBool false); (lit "created_at", JNull)].

Definition normalize_stored_intent (intent : jsval) : result jsval :=
  usable ← usable_intent intent;
  if negb usable then Ok intent else
  if has_identity intent then Ok intent else Ok (assign_fields intent (legacy_identity intent)).

Definition normalizeStoredDirectoryIntents (intents : jsval) : result (list jsval) :=
  traverse normalize_stored_intent (match intents with JArr l => l | _ => [] end).

(** The keys of an intent. *)
Definition directoryIntentOperationKey (intent : jsval) : jstring :=
  to_text (jget intent "op") ++ NUL :: to_text (jget intent "path").
Definition directoryIntentGenerationKey (intent : jsval) : jstring :=
  to_text (js_or (jget intent "intent_id") (JStr "legacy")) ++ NUL
    :: to_text (js_or (jget intent "generation") (JNum (NInt 0))).
Definition directoryIntentIdentityKey (intent : jsval) : jstring :=
  directoryIntentGenerationKey intent ++ NUL :: directoryIntentOperationKey intent.

Definition record_key_fields : list jstring :=
  lits ["intent_id"; "generation"; "op"; "path"; "provenance"; "base_main"; "base_event_seq";
        "replaces_intent_id"; "recreated_after_delete"; "created_at"].
Definition directoryIntentRecordKey (intent : jsval) : option jstring :=
  stableJson (JArr (map (jget intent) record_key_fields)).

Definition buildDirectoryProposal (state : jsval) (targetCommit : jsval) (pendingIntents : jsval) : result record :=
  let baseMain := or_null (jget state "local_main") in
  let baseEventSeq := if is_safe_integer (jget state "last_applied_event_seq")
                      then jget state "last_applied_event_seq" else JNum (NInt 0) in
  normalized ← normalizeStoredDirectoryIntents pendingIntents;
  let intents := map (λ intent, assign_fields intent
      [(lit "base_main", baseMain); (lit "base_event_seq", baseEventSeq)]) normalized in
  let proposalBody := [(lit "schema_version", JNum (NInt 2)); (lit "base_main", baseMain);
      (lit "base_event_seq", baseEventSeq); (lit "intents", JArr intents)] in
  Ok (assign proposalBody [(lit "proposal_id", JStr (lit "dirprop_" ++
        sha256_json (JArr [jget state "device_id"; targetCommit; JObj proposalBody])))]).

(** One step of the plugin's [compactDirectoryIntents]. *)
Definition recreated (byPath : jmap jsval) (intent : jsval) : jsval :=
  match mget byPath (intent_path intent) with
  | Some replaced =>
    if is_create intent && is_delete_op replaced && negb (truthy (jget intent "recreated_after_delete"))
    then assign_fields intent
      [(lit "replaces_intent_id", js_or (jget intent "replaces_intent_id") (js_or (jget replaced "intent_id") JNull));
       (lit "recreated_after_delete", JBool true)]
    else intent
  | None => intent
  end.

Definition client_compact_step (byPath : jmap jsval) (original : jsval) : result (jmap jsval) :=
  usable ← usable_intent original;
  if negb usable then Ok byPath else
  let intent := recreated byPath original in
  let byPath := if is_delete_op intent then mdel_if (λ dirPath, covers (intent_path intent) dirPath) byPath
                else byPath in
  Ok (mset byPath (intent_path intent) intent).

Fixpoint client_compact_loop (byPath : jmap jsval) (intents : list jsval) : result (jmap jsval) :=
  match intents with
  | [] => Ok byPath
  | intent :: intents => byPath ← client_compact_step byPath intent; client_compact_loop byPath intents
  end.

Definition client_intent_leb (left right : jsval) : bool :=
  match locale_compare (intent_path left) (intent_path right) with
  | Lt => true
  | Gt => false
  | Eq => locale_leb (op_text left) (op_text right)
  end.

Definition compactDirectoryIntents (intents : list jsval) : result (list jsval) :=
  byPath ← client_compact_loop [] intents; Ok (isort client_intent_leb (mvalues byPath)).

(** ** Legacy settlement *)

(** [current >= saved]. *)
Definition at_least (current saved : jsval) : bool := num_leb (to_number saved) (to_number current).

Definition legacySettlementStateAgrees (saved current : jsval) : bool :=
  truthy saved && truthy current
  && forallb (λ key, js_eqb (jget saved key) (jget current key))
       (lits ["vault_id"; "device_id"; "device_ref"; "local_main"; "local_head"; "server_device_ref"])
  && is_safe_integer (jget current "last_event_seq")
  && at_least (jget current "last_event_seq") (jget saved "last_event_seq")
  && is_safe_integer (jget current "last_applied_event_seq")
  && at_least (jget current "last_applied_event_seq") (jget saved "last_applied_event_seq").

Definition legacySettlementQueueAgrees (saved current : jsval) (allowNewCommit : bool) : bool :=
  truthy saved && truthy current && is_array (jget saved "changed_paths") && is_array (jget current "changed_paths")
  && is_lit (jget current "status") "queued_local" && is_lit (jget saved "status") "queued_local"
  && js_eqb (jget current "expected_device_ref") (jget saved "expected_device_ref")
  && is_safe_integer (jget current "change_seq") && at_least (jget current "change_seq") (jget saved "change_seq")
  && forallb (λ filePath, existsb (js_eqb filePath) (array_elements (jget current "changed_paths")))
       (array_elements (jget saved "changed_paths"))
  && (allowNewCommit || js_eqb (jget current "pending_commit") (jget saved "pending_commit")).

Definition settlement_directory_keys : list jstring :=
  lits ["pending_intents"; "observed_dirs"; "observed_directory_ctimes"; "explicit_empty_dirs"; "next_generation"].

Definition legacySettlementDirectoryAgrees (saved current : jsval) : bool :=
  truthy saved && truthy current
  && forallb (λ key, same_json (jget saved key) (jget current key)) settlement_directory_keys.

Definition legacySettlementEvidenceAgrees (saved current : jsval) : bool :=
  truthy saved && truthy current && same_json (jget saved "journal") (jget current "journal")
  && legacySettlementStateAgrees (jget saved "state") (jget current "state")
  && legacySettlementQueueAgrees (jget saved "queue") (jget current "queue") false
  && legacySettlementDirectoryAgrees (jget saved "directoryState") (jget current "directoryState")
  && same_json (jget saved "upload") (jget current "upload")
  && same_json (jget saved "pull") (jget current "pull").

(** ** The directory recovery decision *)

Definition isStoredDirectoryIntent (value : jsval) : bool :=
  is_record value && (is_create value || is_delete_op value) && safe_path (jget value "path")
  && match jget value "intent_id" with JStr s => rtest INTENT_ID_PATTERN s | _ => false end
  && is_safe_nonneg (jget value "generation")
  && (is_lit (jget value "provenance") "legacy" || is_lit (jget value "provenance") "local_v2")
  && nullableOid (jget value "base_main") && is_safe_nonneg (jget value "base_event_seq")
  && isNullableString (jget value "replaces_intent_id")
  && is_boolean (jget value "recreated_after_delete") && isNullableString (jget value "created_at").

Definition covered (roots : list jstring) (filePath : jstring) : bool := existsb (λ root, covers root filePath) roots.

(** The two loops over an inventory: one entry per path, all below the roots. *)
Definition positive_or_null (v : jsval) : bool :=
  is_null v || match v with JNum n => num_finite n && num_pos n | _ => false end.

Definition directory_entry (roots : list jstring) (entry : jsval) : bool :=
  is_record entry && safe_path (jget entry "path") && covered roots (intent_path entry)
  && positive_or_null (jget entry "creation_time").
Definition file_entry (roots : list jstring) (entry : jsval) : bool :=
  is_record entry && safe_path (jget entry "path") && covered roots (intent_path entry)
  && isPreflightFingerprint (jget entry "fingerprint").

(** The paths of the entries, when each passes and none comes twice. *)
Fixpoint entry_paths (test : jsval → bool) (seen : list jstring) (entries : list jsval) : option (list jstring) :=
  match entries with
  | [] => Some seen
  | entry :: entries =>
    if negb (test entry) || jmem (intent_path entry) seen then None
    else entry_paths test (set_add seen (intent_path entry)) entries
  end.

Definition isValidDirectoryRecoveryInventory (inventory : jsval) (roots : list jstring) : bool :=
  match inventory, jget inventory "directories", jget inventory "files" with
  | JObj _, JArr directories, JArr files =>
    match entry_paths (directory_entry roots) [] directories with
    | None => false
    | Some _ => match entry_paths (file_entry roots) [] files with Some _ => true | None => false end
    end
  | _, _, _ => false
  end.

Definition recovery_failure : js_error :=
  ObtsBlockedError "directory_recovery_journal_invalid" "The directory recovery journal is invalid." [].

Definition RECOVERY_ID_PATTERN : regex :=
  RSeq (rlit "dirrec_") (RSeq (rplus (RClass is_digit)) (RSeq (rlit "_") (rrep 16 (RClass is_hex)))).
Definition RECOVERY_STEPS : list jstring :=
  lits ["decision_recorded"; "intent_state_written"; "apply_completed"; "acknowledged"].

Definition is_stored_intents (v : jsval) : bool :=
  match v with JArr l => forallb isStoredDirectoryIntent l | _ => false end.
Definition is_safe_at_least (lo : Z) (v : jsval) : bool :=
  match v with JNum (NInt z) => num_safe (NInt z) && (lo <=? z) | _ => false end.

(** The shape of the journal. *)
Definition recovery_shape (value : jsval) : bool :=
  is_record value && is_int (jget value "version") 1
  && is_one_of (jget value "phase") (lits ["awaiting_decision"; "executing"])
  && match jget value "recovery_id" with JStr s => rtest RECOVERY_ID_PATTERN s | _ => false end
  && isGitObjectId (jget value "target_main") && isGitObjectId (jget value "local_main_at_decision")
  && isGitObjectId (jget value "local_head_at_decision") && nullableOid (jget value "base_main")
  && is_safe_nonneg (jget value "event_seq") && safe_path_set (jget value "changed_paths")
  && isTargetFileSizeMap (js_or (jget value "target_file_sizes") (JObj []))
  && safe_path_set (jget value "explicit_directories") && safe_path_set (jget value "ambiguous_roots")
  && is_intent_array (jget value "directory_intents")
  && is_stored_intents (jget value "original_pending_intents")
  && is_stored_intents (jget value "ambiguous_intents") && is_stored_intents (jget value "superseded_intents")
  && is_safe_at_least 1 (jget value "next_generation")
  && is_boolean (jget value "archived") && is_one_of (jget value "last_completed_step") RECOVERY_STEPS
  && is_string (jget value "created_at") && is_string (jget value "updated_at")
  && is_record (jget value "inventory") && is_array (jget (jget value "inventory") "directories")
  && is_array (jget (jget value "inventory") "files").

Definition intent_id (intent : jsval) : jstring := path_text (jget intent "intent_id").

(** [originalById.get(id)]: the last intent with the ID. *)
Definition original_by_id (originals : list jsval) (id : jstring) : option jsval :=
  find_row (λ intent, intent_id intent =s? id) (rev originals).

Definition coveredByRemoteDelete (deletePaths : list jstring) (intent : jsval) : bool :=
  is_create intent && covered deletePaths (intent_path intent).

Definition same_key (a b : jsval) : bool :=
  match directoryIntentRecordKey a, directoryIntentRecordKey b with
  | Some s, Some t => s =s? t
  | _, _ => false
  end.

Definition strings_json (l : list jstring) : jsval := JArr (map JStr l).
Definition record_of (v : jsval) : record := match v with JObj r => r | _ => [] end.

(** The classification of the pending intents against the remote deletions. *)
Definition recovery_classified (value : jsval) : bool :=
  let originals := array_elements (jget value "original_pending_intents") in
  let classified := array_elements (jget value "ambiguous_intents") ++ array_elements (jget value "superseded_intents") in
  let deletePaths := map intent_path (List.filter is_delete_op (array_elements (jget value "directory_intents"))) in
  all_distinct (map intent_id originals)
  && forallb (λ intent, match original_by_id originals (intent_id intent) with
                        | Some original => same_key original intent
                        | None => false
                        end) classified
  && all_distinct (map intent_id classified)
  && forallb (coveredByRemoteDelete deletePaths) classified
  && same_json (strings_json (sort_strings (map intent_id (List.filter (coveredByRemoteDelete deletePaths) originals))))
               (strings_json (sort_strings (map intent_id classified))).

(** The roots offered for a decision and the inventory below them. *)
Definition recovery_inventory (value : jsval) : bool :=
  let ambiguous := array_elements (jget value "ambiguous_intents") in
  let superseded := array_elements (jget value "superseded_intents") in
  let ambiguous_roots := strings_of (array_elements (jget value "ambiguous_roots")) in
  let inventory := jget value "inventory" in
  same_json (strings_json (topmostDirectories (map intent_path ambiguous))) (strings_json ambiguous_roots)
  && let inventoryRoots := topmostDirectories (ambiguous_roots ++ map intent_path superseded) in
     match entry_paths (directory_entry inventoryRoots) [] (array_elements (jget inventory "directories")) with
     | None => false
     | Some directoryPaths =>
       match entry_paths (file_entry inventoryRoots) [] (array_elements (jget inventory "files")) with
       | None => false
       | Some filePaths =>
         forallb (λ intent, jmem (intent_path intent) directoryPaths) ambiguous
         && forallb (λ intent, negb (existsb (covers (intent_path intent)) (directoryPaths ++ filePaths))) superseded
       end
     end.

(** The decisions recorded once the phase is [executing]. *)
Definition recovery_decided (value : jsval) : bool :=
  if is_lit (jget value "phase") "executing" then
    is_record (jget value "decisions")
    && (is_lit (jget value "last_completed_step") "decision_recorded" || is_true (jget value "archived"))
    && same_json (strings_json (sort_strings (keys (record_of (jget value "decisions")))))
                 (strings_json (sort_strings (strings_of (array_elements (jget value "ambiguous_roots")))))
    && forallb (λ choice, is_lit choice "keep_local" || is_lit choice "accept_server")
         (values (record_of (jget value "decisions")))
  else is_null (jget value "decisions") && is_lit (jget value "last_completed_step") "decision_recorded"
       && negb (is_true (jget value "archived")).

Definition parseDirectoryRecoveryDecision (value : jsval) : result jsval :=
  if recovery_shape value && recovery_classified value && recovery_inventory value && recovery_decided value
  then Ok value else Throw recovery_failure.

(** ** The apply journal *)

Definition sameStringArray (left : list jsval) (right : list jstring) : bool :=
  (length left =? length right)%nat && forallb (λ '(value, other), is_lit value other) (zip left right).

(** [regex.test(value)] converts its argument to a string. *)
Definition oid_text (v : jsval) : bool := rtest COMMIT_ID_PATTERN (to_text v).

(** A list of safe paths and whether it has duplicates, as the journal tests them. *)
Definition safe_paths (v : jsval) : bool := match v with JArr items => forallb safe_path items | _ => false end.
Definition recoverable_path (v : jsval) : bool :=
  match v with JStr p => isSafeJournalPath p && isRecoverableApplyPath p | _ => false end.
Definition recoverable_paths (v : jsval) : bool := match v with JArr items => forallb recoverable_path items | _ => false end.
Definition paths_of (v : jsval) : list jstring := strings_of (array_elements v).
Definition sorted_distinct (v : jsval) : bool := sameStringArray (array_elements v) (sort_strings (js_set (paths_of v))).

Definition journal_version (value : record) : option Z :=
  match rget value "journal_version" with
  | JUndef => Some 1
  | JNum (NInt z) => if (1 <=? z) && (z <=? 7) then Some z else None
  | _ => None
  end.

Definition APPLY_OPERATIONS : list jstring :=
  lits ["pull_apply"; "initial_import"; "replace_local_with_server"; "rebuild_from_server"].
Definition APPLY_PHASES : list jstring :=
  lits ["planned"; "recovery_bundle_written"; "writing_files"; "verifying"; "committed"; "blocked_recovery"].

(** [value.field === undefined ? otherwise : value.field]. *)
Definition or_default (v otherwise : jsval) : jsval := if is_undef v then otherwise else v.

(** Every path of a list has an own entry that passes a test. *)
Definition each_has (paths : list jstring) (entries : jsval) (test : jsval → bool) : bool :=
  forallb (λ filePath, has_own (record_of entries) filePath && test (rget (record_of entries) filePath)) paths.

Definition journal_v1 (value : record) : bool :=
  let affectedPaths := paths_of (rget value "affected_paths") in
  isApplyId (rget value "apply_id") && is_one_of (rget value "operation_type") APPLY_OPERATIONS
  && isGitObjectId (rget value "target_main")
  && isNullableString (rget value "expected_prior_local_main")
  && isNullableString (rget value "expected_prior_local_device_ref")
  && is_one_of (rget value "phase") APPLY_PHASES
  && safe_path_set (rget value "affected_paths")
  && is_record (rget value "preflight_sha256") && each_has affectedPaths (rget value "preflight_sha256") isNullableSha256.

Definition journal_v2 (value : record) : bool :=
  is_record (rget value "preflight_fingerprints")
  && each_has (paths_of (rget value "affected_paths")) (rget value "preflight_fingerprints") isPreflightFingerprint.

Definition journal_v3 (value : record) : bool :=
  let preApplyDirectories := rget value "pre_apply_directories" in
  let ctimes := rget value "pre_apply_directory_ctimes" in
  let roots := or_default (rget value "confirmed_directory_roots") (JArr []) in
  let inventory := or_default (rget value "confirmed_directory_inventory") JNull in
  is_intent_array (rget value "directory_intents") && safe_path_set (rget value "explicit_directories")
  && safe_path_set preApplyDirectories && is_record ctimes
  && (length (record_of ctimes) =? length (array_elements preApplyDirectories))%nat
  && each_has (paths_of preApplyDirectories) ctimes isNullableNonNegativeNumber
  && safe_path_set roots
  && (is_null inventory || isValidDirectoryRecoveryInventory inventory (paths_of roots))
  && negb (is_null inventory && negb (length (array_elements roots) =? 0)%nat)
  && is_boolean (rget value "preserve_local_changes")
  && (is_null (rget value "event_seq") || is_safe_nonneg (rget value "event_seq")).

Definition journal_v5 (value : record) : bool :=
  let local_only_paths := rget value "local_only_paths" in
  let presence := rget value "local_only_presence" in
  (is_null (rget value "target_root_ignore_oid") || oid_text (rget value "target_root_ignore_oid"))
  && recoverable_paths local_only_paths && sorted_distinct local_only_paths
  && is_record presence
  && sameStringArray (map JStr (sort_strings (keys (record_of presence)))) (paths_of local_only_paths)
  && forallb is_boolean (values (record_of presence))
  && negb (existsb (λ filePath, existsb (λ affected, changedPathsConflict affected filePath)
             (paths_of (rget value "affected_paths"))) (paths_of local_only_paths)).

Definition journal_v6 (value : record) : bool :=
  recoverable_paths (rget value "deferred_local_paths") && sorted_distinct (rget value "deferred_local_paths").

Definition journal_v7 (value : record) : bool :=
  (is_null (rget value "authoring_base") || oid_text (rget value "authoring_base"))
  && safe_paths (rget value "touched_paths").

Definition journal_tail (value : record) : bool :=
  isNullableString (rget value "recovery_bundle_id") && isNullableString (rget value "last_completed_step")
  && isNullableString (rget value "redacted_error_category").

Definition APPLY_JOURNAL_DEFAULTS : record :=
  [(lit "directory_intents", JArr []); (lit "explicit_directories", JArr []); (lit "pre_apply_directories", JArr []);
   (lit "pre_apply_directory_ctimes", JObj []); (lit "confirmed_directory_roots", JArr []);
   (lit "confirmed_directory_inventory", JNull); (lit "target_file_sizes", JObj []);
   (lit "preserve_local_changes", JBool false); (lit "event_seq", JNull); (lit "target_root_ignore_oid", JNull);
   (lit "local_only_paths", JArr []); (lit "local_only_presence", JObj []); (lit "deferred_local_paths", JArr [])].

Definition journal_valid (value : record) : bool :=
  match journal_version value with
  | None => false
  | Some version =>
    let from v test := negb (v <=? version) || test in
    journal_v1 value && from 2 (journal_v2 value) && from 3 (journal_v3 value)
    && from 4 (isTargetFileSizeMap (or_default (rget value "target_file_sizes") (JObj [])))
    && from 5 (journal_v5 value) && from 6 (journal_v6 value) && from 7 (journal_v7 value) && journal_tail value
  end.

Definition invalid_journal : js_error := mk_error EPlain "" "Apply journal is invalid." [].

Definition parseApplyJournal (value : jsval) : result record :=
  match value with
  | JObj value => if journal_valid value then Ok (assign APPLY_JOURNAL_DEFAULTS value) else Throw invalid_journal
  | _ => Throw invalid_journal
  end.

(** ** Apply locks *)

Definition isLegacyApplyLockMarker `{Dates} (value : jsval) (applyId : jstring) : bool :=
  is_record value && is_lit (jget value "apply_id") applyId && isApplyId (jget value "apply_id")
  && (length (record_keys value) =? 2)%nat
  && (join_with 44 (sort_strings (record_keys value)) =s? "apply_id,created_at")
  && match jget value "created_at" with
     | JStr created_at => match date_parse created_at with Some parsed => to_iso parsed =s? created_at | None => false end
     | _ => false
     end.

(** A version 4 UUID. *)
Definition uuid_pattern : regex :=
  RSeq (rrep 8 (RClass is_hex)) (RSeq (rlit "-") (RSeq (rrep 4 (RClass is_hex)) (RSeq (rlit "-4")
   (RSeq (rrep 3 (RClass is_hex)) (RSeq (rlit "-") (RSeq (RClass (λ c, N.eqb c 56 || N.eqb c 57 || N.eqb c 97 || N.eqb c 98))
   (RSeq (rrep 3 (RClass is_hex)) (RSeq (rlit "-") (rrep 12 (RClass is_hex)))))))))).

Definition isManagedApplyLockMarker (value : jsval) (applyId : jstring) (generation : jsval) : bool :=
  is_record value && (length (record_keys value) =? 4)%nat
  && (join_with 44 (sort_strings (record_keys value)) =s? "apply_id,domain,generation,version")
  && is_int (jget value "version") 2 && is_lit (jget value "domain") "obts-managed-linux-headless"
  && js_eqb (jget value "generation") generation
  && match generation with JStr g => rtest uuid_pattern g | _ => false end
  && is_lit (jget value "apply_id") applyId && isApplyId (jget value "apply_id").

End client_recovery.

(** ** Laws *)

Section record_laws.

Lemma rget_mset (r : record) k v f : rget (mset r k v) f = if k =s? f then v else rget r f.
Proof.
  induction r as [|[k' v'] r IH]; cbn; [done|].
  destruct (jeqb_spec k' k) as [->|Hne]; cbn; [by destruct (k =s? f)|].
  rewrite IH. destruct (jeqb_spec k' f) as [->|]; [|done]. by rewrite (proj2 (jeqb_neq k f)).
Qed.

Lemma has_own_mset (r : record) k v f : has_own (mset r k v) f = (k =s? f) || has_own r f.
Proof.
  apply eq_true_iff_eq. rewrite orb_true_iff, !has_own_elem, jeqb_eq. unfold keys.
  change (map fst (mset r k v)) with (mkeys (mset r k v)). rewrite mkeys_mset. unfold mkeys. naive_solver.
Qed.

Lemma isort_map {A B} (f : A → B) (leb : A → A → bool) (leb' : B → B → bool) (P : A → Prop) l :
  (∀ a b, P a → P b → leb a b = leb' (f a) (f b)) → Forall P l → map f (isort leb l) = isort leb' (map f l).
Proof.
  intros Hleb. induction 1 as [|a l Ha Hl IH]; [done|]. cbn [isort map]. rewrite <- IH.
  assert (Forall P (isort leb l)) as Hs.
  { rewrite List.Forall_forall in Hl |- *. intros x Hx. apply Hl. rewrite <- list_elem_of_In in Hx |- *.
    by apply isort_elem in Hx. }
  clear IH Hl. induction Hs as [|b k Hb Hk IH]; [done|]. cbn. rewrite (Hleb a b) by done.
  destruct (leb' (f a) (f b)); [done|]. cbn. by rewrite IH.
Qed.

End record_laws.

Section compaction_agreement.
Context `{U : Unicode}.

(** An intent as the server reads it. *)
Definition intent_of (intent : jsval) : DirectoryIntent :=
  mk_intent (if is_create intent then DirCreate else DirDelete) (intent_path intent).

Definition usable (intent : jsval) : Prop := usable_intent intent = Ok true.
Definition is_usable (intent : jsval) : bool := match usable_intent intent with Ok b => b | Throw _ => false end.

Definition project (m : jmap jsval) : jmap DirectoryIntent := map (λ kv, (kv.1, intent_of kv.2)) m.

Lemma usable_cases i : usable i → (is_create i = true ∧ is_delete_op i = false ∨ is_create i = false ∧ is_delete_op i = true)
  ∧ ∃ r, i = JObj r ∧ is_string (rget r "path") = true.
Proof.
  unfold usable, usable_intent. destruct (truthy i); [|done]. cbn [negb].
  destruct (negb (is_create i) && negb (is_delete_op i)) eqn:E; [done|]. intros Hp. split.
  - destruct (is_create i) eqn:Ec, (is_delete_op i) eqn:Ed; try done; [|by left|by right].
    unfold is_create, is_delete_op in *. apply is_lit_eq in Ec. rewrite Ec in Ed. done.
  - destruct i as [| | | | | |r]; try done. exists r. split; [done|]. cbn in Hp. by destruct (rget r _).
Qed.

Lemma usable_op i : usable i → op_text i = op_string (in_op (intent_of i)).
Proof.
  intros [[[Hc _]|[Hc Hd]] _]%usable_cases; unfold intent_of; rewrite Hc; cbn [in_op op_string].
  - unfold is_create in Hc. apply is_lit_eq in Hc. unfold op_text. by rewrite Hc.
  - unfold is_delete_op in Hd. apply is_lit_eq in Hd. unfold op_text. by rewrite Hd.
Qed.

Lemma usable_delete i : usable i → is_delete (in_op (intent_of i)) = is_delete_op i.
Proof. intros [[[Hc Hd]|[Hc Hd]] _]%usable_cases; unfold intent_of; by rewrite Hc, Hd. Qed.

Lemma recreated_same m i : usable i →
  intent_of (recreated m i) = intent_of i ∧ usable (recreated m i) ∧ is_delete_op (recreated m i) = is_delete_op i
  ∧ intent_path (recreated m i) = intent_path i.
Proof.
  intros Hu. unfold recreated. destruct (mget m (intent_path i)) as [rep|]; [|done].
  destruct (_ && _); [|done]. destruct (usable_cases i Hu) as (_ & r & -> & _).
  assert (∀ f, f ≠ lit "replaces_intent_id" → f ≠ lit "recreated_after_delete" → ∀ v w,
    jget (assign_fields (JObj r) [(lit "replaces_intent_id", v); (lit "recreated_after_delete", w)]) f = rget r f) as Hget.
  { intros f H1 H2 v w. cbn [assign_fields own_entries jget assign fold_left fst snd]. rewrite !rget_mset.
    by rewrite (proj2 (jeqb_neq _ _) (not_eq_sym H1)), (proj2 (jeqb_neq _ _) (not_eq_sym H2)). }
  unfold intent_of, is_create, is_delete_op, intent_path, usable, usable_intent, is_create, is_delete_op.
  rewrite !Hget by discriminate. cbn [assign_fields truthy negb]. done.
Qed.

Lemma project_mset m k v : project (mset m k v) = mset (project m) k (intent_of v).
Proof.
  unfold project. induction m as [|[k' v'] m IH]; [done|]. cbn. destruct (k' =s? k); cbn; [done|]. by rewrite IH.
Qed.

Lemma project_mdel f m : project (mdel_if f m) = mdel_if f (project m).
Proof.
  unfold project, mdel_if. induction m as [|[k v] m IH]; [done|]. cbn. destruct (negb (f k)); cbn; by rewrite IH.
Qed.

Definition usable_values (m : jmap jsval) : Prop := Forall (λ kv, usable kv.2) m.

Lemma usable_mset m k v : usable_values m → usable v → usable_values (mset m k v).
Proof.
  unfold usable_values. intros Hm Hv. induction Hm as [|[k' v'] m Hk Hrest IH]; cbn; [by repeat constructor|].
  destruct (k' =s? k); by constructor.
Qed.

Lemma client_step_server m i : usable i → usable_values m →
  ∃ m', client_compact_step m i = Ok m' ∧ project m' = compact_step (project m) (intent_of i) ∧ usable_values m'.
Proof.
  intros Hu Hm. pose proof (recreated_same m i Hu) as (Hp & Hr & Hd & Hpath).
  unfold client_compact_step. unfold usable in Hu. rewrite Hu. cbn [mbind result_bind negb]. eexists. split; [done|].
  rewrite Hd, Hpath. split.
  - rewrite project_mset, Hp. unfold compact_step. rewrite usable_delete by done.
    change (in_path (intent_of i)) with (intent_path i).
    destruct (is_delete_op i); [by rewrite project_mdel|done].
  - apply usable_mset; [|done]. destruct (is_delete_op i); [|done].
    unfold usable_values, mdel_if in *. rewrite List.Forall_forall in Hm |- *. intros kv [Hin _]%filter_In. by apply Hm.
Qed.

Lemma client_loop_server l : ∀ m, usable_values m → Forall usable l →
  ∃ m', client_compact_loop m l = Ok m' ∧ project m' = fold_left compact_step (map intent_of l) (project m) ∧ usable_values m'.
Proof.
  induction l as [|i l IH]; intros m Hm Hl; cbn [client_compact_loop map fold_left]; [by exists m|].
  inversion Hl as [|? ? Hi Hl']; subst. destruct (client_step_server m i Hi Hm) as (m1 & -> & <- & Hm1).
  cbn [mbind result_bind]. by apply IH.
Qed.

Lemma client_loop_skips l : Forall (λ i, ∃ b, usable_intent i = Ok b) l →
  ∀ m, client_compact_loop m l = client_compact_loop m (List.filter is_usable l).
Proof.
  induction 1 as [|i l [b Hb] Hl IH]; intros m; [done|]. cbn [List.filter]. unfold is_usable at 1. rewrite Hb.
  cbn [client_compact_loop]. unfold client_compact_step at 1. rewrite Hb. cbn [mbind result_bind]. destruct b; cbn [negb].
  - cbn [client_compact_loop]. unfold client_compact_step at 1. rewrite Hb. cbn [mbind result_bind negb]. apply IH.
  - apply IH.
Qed.

(** [C29] The plugin and the server compact directory intents alike: on any list
    whose entries have a string path, the plugin's [compactDirectoryIntents] skips
    the entries it could not act on and returns records that, read as the server
    reads them, are the server's compaction of the others, in the same order. *)
Theorem client_compaction_agrees l : Forall (λ i, ∃ b, usable_intent i = Ok b) l →
  ∃ k, compactDirectoryIntents l = Ok k ∧
  map intent_of k = DirectoryIntents.compactDirectoryIntents (map intent_of (List.filter is_usable l)) ∧
  Forall usable k.
Proof.
  intros Hl. pose proof (client_loop_skips l Hl []) as Hskip.
  destruct (client_loop_server (List.filter is_usable l) [] (List.Forall_nil _)) as (m & Hm & Hp & Hu).
  { rewrite List.Forall_forall. intros i [_ Hi]%filter_In. unfold is_usable in Hi. unfold usable.
    destruct (usable_intent i) as [[]|]; done. }
  unfold compactDirectoryIntents. rewrite Hskip, Hm. cbn [mbind result_bind]. eexists. split; [done|].
  assert (Forall usable (mvalues m)) as Hv.
  { unfold mvalues, usable_values in *. rewrite List.Forall_forall in Hu |- *. intros i [kv [<- Hkv]]%in_map_iff. by apply Hu. }
  split.
  - rewrite (isort_map intent_of client_intent_leb intent_leb usable); [|..|done].
    + unfold DirectoryIntents.compactDirectoryIntents. change (project []) with ([] : jmap DirectoryIntent) in Hp.
      rewrite <- Hp. unfold mvalues, project. by rewrite !map_map.
    + intros a b Ha Hb. unfold client_intent_leb, intent_leb. cbn [in_path intent_of].
      by rewrite (usable_op a), (usable_op b).
  - rewrite List.Forall_forall in Hv |- *. intros x Hx. apply Hv. rewrite <- list_elem_of_In in Hx |- *.
    by apply isort_elem in Hx.
Qed.

End compaction_agreement.

Section proposals.
Context `{U : Unicode} {UOk : UnicodeOk U} `{Nm : Numerals} `{Sha : Sha256}.

(** A pending intent as the plugin stores it. *)
Definition sendable (intent : jsval) : bool :=
  isStoredDirectoryIntent intent && ClientPaths.isSyncableVaultPath (intent_path intent)
  && negb (is_lit (jget intent "replaces_intent_id") []).

Definition identity_of (intent : jsval) : jstring * Z :=
  (intent_id intent, match jget intent "generation" with JNum (NInt z) => z | _ => 0 end).

(** The typed intent the server reads for it. *)
Definition sent_intent (main : option jstring) (seq : Z) (intent : jsval) : DirectoryProposalIntent :=
  mk_DirectoryProposalIntent (if is_create intent then DirCreate else DirDelete) (intent_path intent)
    (identity_of intent).1 (identity_of intent).2
    (if is_lit (jget intent "provenance") "legacy" then PvLegacy else PvLocalV2) main seq
    (as_string (jget intent "replaces_intent_id")) (is_true (jget intent "recreated_after_delete"))
    (as_string (jget intent "created_at")).

Definition nullable_text (v : jsval) : option jstring := as_string v.
Definition int_of (v : jsval) : Z := match v with JNum (NInt z) => z | _ => 0 end.

Lemma rget_string_read r f s : rget r f = JStr s → s ≠ [] → readString r f = Ok s.
Proof. intros H Hs. unfold readString. rewrite H. by destruct s. Qed.

Lemma safe_nonneg_read r f : is_safe_nonneg (rget r f) = true → readNonNegativeInteger r f = Ok (int_of (rget r f)).
Proof.
  intros (z & Hz & Hr & _)%is_safe_nonneg_spec. unfold readNonNegativeInteger, readNumber. rewrite Hz.
  cbn [num_finite mbind result_bind int_of]. by rewrite (proj2 (Z.ltb_ge z 0)).
Qed.

Lemma nullable_oid_read r f : has_own r f = true → nullableOid (rget r f) = true →
  readNullableCommitId r f = Ok (nullable_text (rget r f)).
Proof.
  intros Ho Hn. unfold readNullableCommitId, readNullableString. rewrite Ho. cbn [negb].
  unfold nullableOid, isGitObjectId in Hn.
  destruct (rget r f) as [| | | |s| |]; try discriminate Hn; [done|]. cbn [is_null orb hex_of] in Hn.
  destruct s as [|c s]; [done|]. cbn [mbind result_bind nullable_text as_string].
  unfold COMMIT_ID_PATTERN. by rewrite Hn.
Qed.

Lemma intent_id_nonempty s : rtest INTENT_ID_PATTERN s = true → s ≠ [].
Proof. intros H ->. discriminate H. Qed.

Lemma sendable_normal i : sendable i = true → normalize_stored_intent i = Ok i.
Proof.
  unfold sendable, isStoredDirectoryIntent. rewrite !andb_true_iff.
  intros [[[[[[[[[[[[Hr Ho] Hp] Hid] Hg] Hpv] _] _] _] _] _] Hs] _].
  unfold normalize_stored_intent, usable_intent.
  destruct i as [| | | | | |r]; try done. cbn [truthy negb].
  assert (negb (is_create (JObj r)) && negb (is_delete_op (JObj r)) = false) as ->.
  { by apply orb_true_iff in Ho as [->| ->]; rewrite ?andb_false_r. }
  apply safe_path_canonical in Hp as [Hp Hc]. unfold intent_path in Hs. rewrite Hp. cbn [guard_syncable mbind result_bind].
  rewrite Hs. cbn [negb]. unfold has_identity. rewrite Hg, Hpv, !andb_true_r.
  cbn [jget] in *. destruct (rget r "intent_id") as [| | | |[|c s]| |]; done.
Qed.

Lemma readSyncPath_intro r p : rget r "path" = JStr p → canonical p → ClientPaths.isSyncableVaultPath p = true →
  readSyncPath r = Ok p.
Proof.
  intros Hr Hc Hs. unfold readSyncPath. rewrite (rget_string_read r _ p) by
    (done || (intros ->; apply canonical_acceptable in Hc as (_ & _ & Hc); by apply acceptable_nonempty in Hc)).
  cbn [mbind result_bind]. rewrite (canonical_normalize p Hc).
  by rewrite <- (isSyncableVaultPath_agree p Hc), Hs.
Qed.

(** Evaluates a field of a record with the two base fields assigned. *)
Lemma rget_based r main seq f :
  rget (assign r [(lit "base_main", main); (lit "base_event_seq", seq)]) f =
  if lit "base_event_seq" =s? f then seq else if lit "base_main" =s? f then main else rget r f.
Proof. cbn [assign fold_left fst snd]. by rewrite !rget_mset. Qed.

Lemma has_own_based r main seq f :
  has_own (assign r [(lit "base_main", main); (lit "base_event_seq", seq)]) f =
  (lit "base_event_seq" =s? f) || ((lit "base_main" =s? f) || has_own r f).
Proof. cbn [assign fold_left fst snd]. by rewrite !has_own_mset. Qed.

Lemma op_read r : is_create (JObj r) || is_delete_op (JObj r) = true →
  rget r "op" = JStr (op_string (if is_create (JObj r) then DirCreate else DirDelete)).
Proof.
  unfold is_create, is_delete_op. cbn [jget]. rewrite orb_true_iff, !is_lit_eq.
  intros [H|H]; rewrite H; done.
Qed.

Lemma provenance_read v : is_lit v "legacy" || is_lit v "local_v2" = true →
  v = JStr (provenance_string (if is_lit v "legacy" then PvLegacy else PvLocalV2)).
Proof. rewrite orb_true_iff, !is_lit_eq. intros [->| ->]; done. Qed.

(** The first reader of the goal returns what a lemma says, its premises left. *)
Tactic Notation "reads" open_constr(lemma) := eapply bind_intro; [eapply lemma|cbv beta].

Lemma sent_intent_read main seq ids i : sendable i = true → nullableOid main = true → is_safe_nonneg seq = true →
  let sent := sent_intent (nullable_text main) (int_of seq) i in
  jmem (intent_identity (pi_intent_id sent) (pi_generation sent)) ids = false →
  readProposalIntent (nullable_text main) (int_of seq) ids
    (assign_fields i [(lit "base_main", main); (lit "base_event_seq", seq)]) = Ok sent.
Proof.
  intros Hsend Hmain Hseq sent Hids. unfold sendable, isStoredDirectoryIntent in Hsend. rewrite !andb_true_iff in Hsend.
  destruct Hsend as [[[[[[[[[[[[Hr Ho] Hp] Hid] Hg] Hpv] _] _] Hrep] Hre] Hca] Hs] Hne].
  destruct i as [| | | | | |r]; try done. cbn [assign_fields own_entries jget is_record intent_path] in *.
  apply safe_path_canonical in Hp as [Hp Hc]. unfold intent_path in Hs. cbn [jget] in Hs.
  set (r' := assign r [(lit "base_main", main); (lit "base_event_seq", seq)]).
  assert (∀ f, (lit "base_event_seq" =s? f) = false → (lit "base_main" =s? f) = false → rget r' f = rget r f) as Hget.
  { intros f H1 H2. unfold r'. by rewrite rget_based, H1, H2. }
  unfold readProposalIntent, assign_fields, own_entries, assertRecord, as_record. fold r'. cbn [mbind result_bind].
  reads (readDirOp_intro _ (if is_create (JObj r) then DirCreate else DirDelete)). { rewrite Hget by reflexivity. by apply op_read. }
  reads (readSyncPath_intro _ (path_text (rget r "path"))). { by rewrite Hget by reflexivity. } { done. } { done. }
  destruct (rget r "intent_id") as [| | | |iid| |] eqn:Ei; try discriminate Hid.
  reads (rget_string_read _ "intent_id" iid). { by rewrite Hget by reflexivity. } { by apply intent_id_nonempty. }
  rewrite Hid. cbn [negb].
  reads (safe_nonneg_read _ "generation"). { by rewrite Hget by reflexivity. } rewrite Hget by reflexivity.
  reads (readProvenance_again _ (if is_lit (rget r "provenance") "legacy" then PvLegacy else PvLocalV2)).
  { rewrite Hget by reflexivity. by apply provenance_read. }
  assert (rget r' "base_main" = main) as Hm by (unfold r'; by rewrite rget_based).
  assert (rget r' "base_event_seq" = seq) as Hq by (unfold r'; by rewrite rget_based).
  reads (nullable_oid_read _ "base_main"). { unfold r'. by rewrite has_own_based. } { by rewrite Hm. } rewrite Hm.
  reads (safe_nonneg_read _ "base_event_seq"). { by rewrite Hq. } rewrite Hq.
  rewrite !Hget by reflexivity.
  eapply (bind_intro _ _ (as_string (rget r "replaces_intent_id"))).
  { destruct (rget r "replaces_intent_id") as [| | | |s| |] eqn:E; try discriminate Hrep; cbn [is_null as_string]; [done|].
    rewrite (rget_string_read r' _ s); [done|by rewrite Hget by reflexivity|]. intros ->. discriminate Hne. }
  cbv beta. destruct (rget r "recreated_after_delete") as [| |b| | | |] eqn:Eb; try discriminate Hre. cbn [as_boolean].
  assert (readCreatedAt (rget r "created_at") = Some (as_string (rget r "created_at"))) as ->.
  { by destruct (rget r "created_at"). }
  assert (∀ o, oeqb o o = true) as Hoeqb by (intros [o|]; [apply jeqb_refl|done]).
  rewrite Hoeqb, Z.eqb_refl. cbn [negb orb].
  assert (sent = mk_DirectoryProposalIntent (if is_create (JObj r) then DirCreate else DirDelete) (path_text (rget r "path"))
    iid (int_of (rget r "generation")) (if is_lit (rget r "provenance") "legacy" then PvLegacy else PvLocalV2)
    (nullable_text main) (int_of seq) (as_string (rget r "replaces_intent_id")) b (as_string (rget r "created_at"))) as Hsent.
  { unfold sent, sent_intent, identity_of, intent_id, intent_path. cbn [jget fst snd]. by rewrite Ei, Eb. }
  rewrite Hsent in Hids |- *. cbn [pi_intent_id pi_generation] in Hids. by rewrite Hids.
Qed.

(** The text of an identity determines it: numerals contain no separator. *)
Lemma identity_text_inj a x b y : a ++ NUL :: dec x = b ++ NUL :: dec y → a = b ∧ x = y.
Proof.
  intros H. apply (f_equal (@rev N)) in H. rewrite !rev_app_distr in H. cbn in H. rewrite <- !app_assoc in H. cbn in H.
  assert (∀ u v w z : jstring, NUL ∉ u → NUL ∉ v → u ++ NUL :: w = v ++ NUL :: z → u = v ∧ w = z) as Hsep.
  { clear. induction u as [|c u IH]; intros [|d v] w z Hu Hv E; cbn in E.
    - by injection E.
    - injection E as <- _. destruct Hv. by left.
    - injection E as -> _. destruct Hu. by left.
    - injection E as -> E. apply not_elem_of_cons in Hu as [_ Hu]. apply not_elem_of_cons in Hv as [_ Hv].
      destruct (IH v w z Hu Hv E) as [-> ->]. done. }
  apply Hsep in H as [Hx Ha].
  - apply (f_equal (@rev N)) in Hx, Ha. rewrite !rev_involutive in Hx, Ha. split; [done|by apply dec_inj].
  - rewrite list_elem_of_In, <- in_rev, <- list_elem_of_In. apply dec_no_nul.
  - rewrite list_elem_of_In, <- in_rev, <- list_elem_of_In. apply dec_no_nul.
Qed.

Lemma sent_intents_read main seq l : Forall (λ i, sendable i = true) l →
  nullableOid main = true → is_safe_nonneg seq = true →
  ∀ ids, NoDup (map (λ i, intent_identity (identity_of i).1 (identity_of i).2) l) →
  (∀ i, i ∈ l → jmem (intent_identity (identity_of i).1 (identity_of i).2) ids = false) →
  readProposalIntents (nullable_text main) (int_of seq) ids
    (map (λ i, assign_fields i [(lit "base_main", main); (lit "base_event_seq", seq)]) l)
  = Ok (map (sent_intent (nullable_text main) (int_of seq)) l).
Proof.
  intros Hl Hm Hs. induction Hl as [|i l Hi Hl IH]; intros ids Hnd Hids; [done|].
  cbn [map] in Hnd. apply NoDup_cons in Hnd as [Hn Hnd]. cbn [map readProposalIntents].
  eapply bind_intro; [apply sent_intent_read; try done; apply Hids; by left|].
  eapply bind_intro; [apply IH; [done|]|done].
  intros j Hj. cbn [jmem]. apply orb_false_iff. split; [|apply Hids; by right].
  apply jeqb_neq. intros Heq. apply Hn. apply list_elem_of_In, in_map_iff. exists j.
  rewrite <- list_elem_of_In. done.
Qed.

Lemma normalize_sendable l : Forall (λ i, sendable i = true) l →
  normalizeStoredDirectoryIntents (JArr l) = Ok l.
Proof.
  intros Hl. unfold normalizeStoredDirectoryIntents. apply traverse_Ok.
  induction Hl as [|i l Hi _ IH]; constructor; [by apply sendable_normal|done].
Qed.

Lemma identities_distinct l : NoDup (map identity_of l) → NoDup (map (λ i, intent_identity (identity_of i).1 (identity_of i).2) l).
Proof.
  induction l as [|i l IH]; cbn [map]; [constructor|].
  intros [Hn Hnd]%NoDup_cons. constructor; [|by apply IH]. intros Hin. apply Hn.
  apply list_elem_of_In, in_map_iff in Hin as (j & Hj & Hin). apply list_elem_of_In, in_map_iff. exists j.
  split; [|done]. unfold intent_identity in Hj.
  destruct (identity_of j) as [a x], (identity_of i) as [b y]. cbn [fst snd] in Hj.
  by apply identity_text_inj in Hj as [-> ->].
Qed.

Lemma proposal_read (r : record) main seq id items intents :
  rget r "schema_version" = JNum (NInt 2) → rget r "proposal_id" = JStr id → rtest PROPOSAL_ID_PATTERN id = true →
  has_own r "base_main" = true → rget r "base_main" = main → rget r "base_event_seq" = seq →
  rget r "intents" = JArr items → items ≠ [] → nullableOid main = true → is_safe_nonneg seq = true →
  readProposalIntents (nullable_text main) (int_of seq) [] items = Ok intents →
  parse_proposal (JObj r) =
    if 5000 <? Z.of_nat (length items) then Throw (invalid_request "Invalid directory proposal intents." (field_detail "intents"))
    else Ok (mk_DirectoryProposal id (nullable_text main) (int_of seq) intents).
Proof.
  intros Hv Hid Hpat Hown Hm Hs Hi Hne Hmain Hseq Hread. unfold parse_proposal, assertRecord, as_record.
  cbn [mbind result_bind]. rewrite Hv. cbn [is_int Z.eqb Pos.eqb negb].
  rewrite (rget_string_read _ _ id) by (done || (intros ->; discriminate Hpat)). cbn [mbind result_bind]. rewrite Hpat. cbn [negb].
  rewrite (nullable_oid_read _ "base_main") by (done || by rewrite Hm). cbn [mbind result_bind]. rewrite Hm.
  rewrite (safe_nonneg_read _ "base_event_seq") by by rewrite Hs. cbn [mbind result_bind]. rewrite Hs, Hi.
  rewrite (proj2 (Nat.eqb_neq _ _)) by by destruct items. cbn [orb].
  destruct (5000 <? _); [done|]. by rewrite Hread.
Qed.

(** [C30] A directory proposal the plugin builds is one the server's parser reads,
    up to 5000 intents: for any pending intents as the plugin stores them, at least one
    and all of distinct identities, and a recorded state whose main is an object name or
    null and whose event sequence is a non-negative safe integer,
    [buildDirectoryProposal] succeeds. With at most 5000 intents its JSON parses to
    a proposal with the device's baseline and exactly the pending intents, in
    order; with more, which the plugin does not prevent, the server refuses it. *)
Theorem built_proposal_accepted (state targetCommit : jsval) (pending : list jsval) :
  let main := or_null (jget state "local_main") in
  let seq := if is_safe_integer (jget state "last_applied_event_seq")
             then jget state "last_applied_event_seq" else JNum (NInt 0) in
  (∀ text, rtest SHA256_PATTERN (sha256 text) = true) →
  Forall (λ i, sendable i = true) pending → NoDup (map identity_of pending) →
  pending ≠ [] → nullableOid main = true → is_safe_nonneg seq = true →
  ∃ built, buildDirectoryProposal state targetCommit (JArr pending) = Ok built ∧
    (Z.of_nat (length pending) <= 5000 → ∃ proposal, parse_proposal (JObj built) = Ok proposal ∧
      dp_base_main proposal = nullable_text main ∧ dp_base_event_seq proposal = int_of seq ∧
      dp_intents proposal = map (sent_intent (nullable_text main) (int_of seq)) pending) ∧
    (5000 < Z.of_nat (length pending) →
      parse_proposal (JObj built) = Throw (invalid_request "Invalid directory proposal intents." (field_detail "intents"))).
Proof.
  intros main seq Hsha Hall Hnd Hne Hmain Hseq. unfold buildDirectoryProposal. fold main seq.
  rewrite (normalize_sendable pending Hall). cbn [mbind result_bind]. cbv zeta.
  set (items := map _ pending). set (digest := sha256_json _).
  set (built := assign _ [(lit "proposal_id", _)]). exists built. split; [done|].
  assert (parse_proposal (JObj built) =
    if 5000 <? Z.of_nat (length items) then Throw (invalid_request "Invalid directory proposal intents." (field_detail "intents"))
    else Ok (mk_DirectoryProposal (lit "dirprop_" ++ digest) (nullable_text main) (int_of seq)
      (map (sent_intent (nullable_text main) (int_of seq)) pending))) as Hp.
  { apply proposal_read; try (unfold built; cbn [assign fold_left fst snd]; rewrite rget_mset; reflexivity); try done.
    - unfold PROPOSAL_ID_PATTERN. apply rtest_lit_rep. exists digest. split; [done|].
      pose proof (Hsha (default [] (stableJson (JArr [jget state "device_id"; targetCommit;
        JObj [(lit "schema_version", JNum (NInt 2)); (lit "base_main", main); (lit "base_event_seq", seq);
              (lit "intents", JArr items)]])))) as Hd.
      unfold SHA256_PATTERN in Hd. by rewrite rtest_rep_class in Hd.
    - unfold items. by destruct pending.
    - apply sent_intents_read; try done. by apply identities_distinct. }
  rewrite Hp. unfold items. rewrite length_map. split.
  - intros Hle. rewrite (proj2 (Z.ltb_ge _ _)) by done. by eexists.
  - intros Hlt. by rewrite (proj2 (Z.ltb_lt _ _)).
Qed.

End proposals.

Section recovery_decisions.
Context `{U : Unicode} {UOk : UnicodeOk U} `{Nm : Numerals} `{Sha : Sha256}.

Lemma same_json_plain a b : plain a = true → plain b = true → same_json a b = true → a = b.
Proof.
  intros Ha Hb. unfold same_json, stableJson. destruct (plain_text a Ha) as [s Hs]. destruct (plain_text b Hb) as [t Ht].
  rewrite Hs, Ht. intros <-%jeqb_eq. apply json_text_inj; [done|done|congruence].
Qed.

Lemma same_json_strings l k : same_json (strings_json l) (strings_json k) = true → l = k.
Proof.
  assert (∀ m, plain (strings_json m) = true) as Hplain.
  { intros m. cbn. apply forallb_forall. by intros v (s & <- & _)%in_map_iff. }
  intros H%same_json_plain; [|done..]. injection H as H. revert k H.
  induction l as [|s l IH]; intros [|t k] H; try done. cbn in H. injection H as -> H. by rewrite (IH k).
Qed.

Lemma all_distinct_NoDup l : all_distinct l = true ↔ NoDup l.
Proof.
  unfold all_distinct. rewrite Nat.eqb_eq. split.
  - intros Hlen. assert (js_set l ⊆+ l) as Hsub.
    { apply NoDup_submseteq; [apply js_set_NoDup|]. intros x. by rewrite js_set_elem. }
    apply submseteq_length_Permutation in Hsub; [|lia]. rewrite <- Hsub. apply js_set_NoDup.
  - intros Hnd. apply Permutation_length, NoDup_Permutation; [apply js_set_NoDup|done|]. intros x. apply js_set_elem.
Qed.

Lemma sort_strings_elem x l : x ∈ sort_strings l ↔ x ∈ l.
Proof. apply isort_elem. Qed.

(** Equal sorted lists have the same elements. *)
Lemma same_sorted_elem l k x : sort_strings l = sort_strings k → x ∈ l ↔ x ∈ k.
Proof. intros H. by rewrite <- (sort_strings_elem x l), H, sort_strings_elem. Qed.

Lemma original_by_id_Some originals id i :
  original_by_id originals id = Some i → i ∈ originals ∧ intent_id i = id.
Proof.
  intros (Hin & Hid)%find_row_Some. split; [|by apply jeqb_eq].
  by rewrite list_elem_of_In, in_rev, <- list_elem_of_In.
Qed.

Lemma strings_of_paths l : forallb isStoredDirectoryIntent l = true → ∀ i, i ∈ l → is_record i = true.
Proof.
  rewrite forallb_forall. intros H i Hi. rewrite list_elem_of_In in Hi. specialize (H i Hi).
  unfold isStoredDirectoryIntent in H. by destruct i.
Qed.

Lemma rget_values (r : record) k : k ∈ keys r → rget r k ∈ values r.
Proof.
  unfold keys, values. induction r as [|[k' v] r IH]; cbn; [by intros ?%not_elem_of_nil|].
  destruct (jeqb_spec k' k) as [->|Hne]; [intros _; by left|].
  intros [->|Hk]%elem_of_cons; [done|]. right. by apply IH.
Qed.

(** The intents a recovery decision classifies, and the paths deleted remotely. *)
Definition recovery_list (value : jsval) (field : jstring) : list jsval := array_elements (jget value field).
Definition recovery_deletes (value : jsval) : list jstring :=
  map intent_path (List.filter is_delete_op (recovery_list value "directory_intents")).

(** [C31] A directory recovery decision that parses is complete. Every pending
    creation below a remotely deleted directory is classified, exactly once, as
    ambiguous or superseded, and nothing else is classified; a classified intent
    is the recorded pending intent, field for field. Once the decision is being
    executed, each ambiguous intent lies below exactly one offered root, and that
    root has a recorded choice, to keep the local directory or accept the
    server's deletion. *)
Theorem recovery_decision_complete (value parsed : jsval) :
  let originals := recovery_list value "original_pending_intents" in
  let ambiguous := recovery_list value "ambiguous_intents" in
  let classified := ambiguous ++ recovery_list value "superseded_intents" in
  let roots := strings_of (recovery_list value "ambiguous_roots") in
  parseDirectoryRecoveryDecision value = Ok parsed →
  parsed = value ∧ NoDup (map intent_id originals) ∧ NoDup (map intent_id classified) ∧
  (∀ i, i ∈ originals → coveredByRemoteDelete (recovery_deletes value) i = true →
    intent_id i ∈ map intent_id classified) ∧
  (∀ j, j ∈ classified → ∃ i, i ∈ originals ∧ intent_id i = intent_id j ∧ same_key i j = true
    ∧ coveredByRemoteDelete (recovery_deletes value) j = true) ∧
  (jget value "phase" = JStr "executing" → ∀ i, i ∈ ambiguous →
    exists! root, root ∈ roots ∧ covers root (intent_path i) = true ∧
      (rget (record_of (jget value "decisions")) root = JStr "keep_local" ∨
       rget (record_of (jget value "decisions")) root = JStr "accept_server")).
Proof.
  intros originals ambiguous classified roots H. unfold parseDirectoryRecoveryDecision in H.
  destruct (recovery_shape value && recovery_classified value && recovery_inventory value && recovery_decided value)
    eqn:E; [|discriminate H]. injection H as <-. rewrite !andb_true_iff in E. destruct E as [[[_ Hcls] Hinv] Hdec].
  unfold recovery_classified in Hcls. fold ambiguous classified in Hcls.
  change (array_elements (jget value "original_pending_intents")) with originals in Hcls.
  change (array_elements (jget value "ambiguous_intents") ++ array_elements (jget value "superseded_intents"))
    with classified in Hcls.
  change (map intent_path (List.filter is_delete_op (array_elements (jget value "directory_intents"))))
    with (recovery_deletes value) in Hcls.
  rewrite !andb_true_iff in Hcls. destruct Hcls as [[[[Ho Horig] Hc] Hcov] Hsame].
  apply all_distinct_NoDup in Ho, Hc. rewrite forallb_forall in Horig, Hcov. apply same_json_strings in Hsame.
  split_and!; [done|done|done| | |].
  - intros i Hi Hcv. rewrite <- (same_sorted_elem _ _ _ Hsame). apply list_elem_of_In, in_map.
    apply filter_In. by rewrite <- list_elem_of_In.
  - intros j Hj. rewrite list_elem_of_In in Hj. specialize (Horig j Hj). specialize (Hcov j Hj).
    destruct (original_by_id originals (intent_id j)) as [i|] eqn:Ei; [|discriminate Horig].
    apply original_by_id_Some in Ei as [Hi Hid]. by exists i.
  - intros Hphase i Hi. unfold recovery_decided in Hdec. rewrite Hphase in Hdec.
    change (is_lit (JStr "executing") "executing") with true in Hdec. cbv iota in Hdec.
    rewrite !andb_true_iff in Hdec. destruct Hdec as [[_ Hkeys] Hvals]. apply same_json_strings in Hkeys.
    rewrite forallb_forall in Hvals.
    unfold recovery_inventory in Hinv. apply andb_true_iff in Hinv as [Hroots _]. apply same_json_strings in Hroots.
    destruct (topmost_unique (map intent_path ambiguous) (intent_path i)) as (root & [Hr Hcv] & Huniq).
    { apply list_elem_of_In, in_map. by apply list_elem_of_In. }
    change (array_elements (jget value "ambiguous_intents")) with ambiguous in Hroots. rewrite Hroots in Hr, Huniq.
    exists root. split; [|intros r (Hin & Hc' & _); by apply Huniq]. split_and!; [done|done|].
    assert (root ∈ keys (record_of (jget value "decisions"))) as Hk by by apply (same_sorted_elem _ _ _ Hkeys).
    apply rget_values in Hk. rewrite list_elem_of_In in Hk. specialize (Hvals _ Hk).
    apply orb_true_iff in Hvals as [Hv|Hv]; apply is_lit_eq in Hv; auto.
Qed.

End recovery_decisions.

Section apply_journals.
Context `{U : Unicode} {UOk : UnicodeOk U} `{Nm : Numerals}.

Lemma rget_assign a b f : rget (assign a b) f = if has_own b f then rget (rev b) f else rget a f.
Proof.
  unfold assign. rewrite <- (rev_involutive b) at 1. rewrite <- fold_left_rev_right.
  rewrite rev_involutive. replace (has_own b f) with (has_own (rev b) f).
  2: { apply eq_true_iff_eq. rewrite !has_own_elem. unfold keys. rewrite map_rev, !list_elem_of_In. symmetry. apply in_rev. }
  induction (rev b) as [|[k v] l IH]; cbn [fold_right rget]; [done|].
  rewrite rget_mset. unfold has_own. cbn [map fst snd jmem]. rewrite (jeqb_sym f k).
  destruct (k =s? f); [done|]. cbn [orb]. apply IH.
Qed.

Lemma has_own_assign a b f : has_own (assign a b) f = has_own b f || has_own a f.
Proof.
  unfold assign. revert a. induction b as [|[k v] b IH]; intros a; [done|]. cbn [fold_left fst snd].
  rewrite IH, has_own_mset. unfold has_own. cbn [map fst jmem]. rewrite (jeqb_sym f k).
  by destruct (jmem f (map fst b)), (k =s? f).
Qed.

Lemma rget_rev (r : record) f : NoDup (keys r) → rget (rev r) f = rget r f.
Proof.
  intros Hnd. destruct (has_own r f) eqn:Ho.
  - apply has_own_elem in Ho. unfold keys in *. apply list_elem_of_In, in_map_iff in Ho as ([k v] & Hk & Hin).
    cbn in Hk. subst k. rewrite (rget_elem r f v) by (done || by apply list_elem_of_In). apply rget_elem.
    + unfold keys. rewrite map_rev. by rewrite <- Permutation_rev.
    + apply list_elem_of_In. by rewrite <- in_rev.
  - rewrite (rget_has_own r) by done. apply rget_has_own. apply not_true_iff_false. intros H%has_own_elem.
    apply not_true_iff_false in Ho. apply Ho, has_own_elem. unfold keys in *. rewrite map_rev in H.
    by rewrite list_elem_of_In, in_rev, <- list_elem_of_In.
Qed.

(** Assigning on defaults keeps the document's fields and fills in the others. *)
Lemma rget_defaults (d r : record) f : NoDup (keys r) →
  rget (assign d r) f = if has_own r f then rget r f else rget d f.
Proof. intros H. by rewrite rget_assign, rget_rev. Qed.

Lemma mset_same (r : record) k v : NoDup (keys r) → (k, v) ∈ r → mset r k v = r.
Proof.
  unfold keys. induction r as [|[k' v'] r IH]; cbn; intros Hnd Hin; [by apply not_elem_of_nil in Hin|].
  apply NoDup_cons in Hnd as [Hk Hnd]. destruct (jeqb_spec k' k) as [->|Hne].
  - apply elem_of_cons in Hin as [[= ->]|Hin]; [done|]. destruct Hk. apply list_elem_of_In, in_map_iff. exists (k, v).
    by rewrite <- list_elem_of_In.
  - apply elem_of_cons in Hin as [[= -> ->]|Hin]; [done|]. by rewrite IH.
Qed.

Lemma keys_mset (r : record) k v : keys (mset r k v) = if has_own r k then keys r else keys r ++ [k].
Proof.
  unfold keys, has_own. induction r as [|[k' v'] r IH]; cbn; [done|]. rewrite (jeqb_sym k k').
  destruct (jeqb_spec k' k) as [->|Hne]; cbn; [done|]. rewrite IH. by destruct (jmem k _).
Qed.

Lemma NoDup_assign d r : NoDup (keys d) → NoDup (keys (assign d r)).
Proof.
  unfold assign. revert d. induction r as [|[k v] r IH]; intros d Hd; [done|]. cbn. by apply IH, NoDup_mset.
Qed.

Lemma mset_in_assign (r d : record) : ∀ k, k ∈ keys d → k ∈ keys (assign d r).
Proof.
  intros k Hk. apply has_own_elem. rewrite has_own_assign. apply orb_true_iff. right. by apply has_own_elem.
Qed.

(** Records with the same distinct keys in the same order and the same fields. *)
Lemma record_ext (a b : record) : keys a = keys b → NoDup (keys a) → (∀ f, rget a f = rget b f) → a = b.
Proof.
  intros Hk Hnd Hf. apply (keys_perm_eq (A:=jsval)); [|done|done].
  apply NoDup_Permutation.
  - by apply (NoDup_fmap_1 fst).
  - apply (NoDup_fmap_1 fst). change (NoDup (keys b)). by rewrite <- Hk.
  - assert (∀ (x y : record), keys x = keys y → NoDup (keys x) → (∀ f, rget x f = rget y f) →
      ∀ kv, kv ∈ x → kv ∈ y) as Hsub.
    { clear. intros x y Hk Hnd Hf [k v] Hin. assert (k ∈ keys y) as Hky.
      { rewrite <- Hk. unfold keys. apply list_elem_of_In, in_map_iff. exists (k, v). by rewrite <- list_elem_of_In. }
      unfold keys in Hky. apply list_elem_of_In, in_map_iff in Hky as ([k' w] & Hkk & Hiny). cbn in Hkk. subst k'.
      rewrite <- list_elem_of_In in Hiny. apply (rget_elem x k v Hnd) in Hin.
      rewrite Hk in Hnd. pose proof (rget_elem y k w Hnd Hiny) as Hw. rewrite <- Hf, Hin in Hw. by subst w. }
    intros kv. split; apply Hsub; try done. by rewrite <- Hk.
Qed.

Lemma keys_assign (d r : record) : NoDup (keys r) →
  keys (assign d r) = keys d ++ List.filter (λ k, negb (has_own d k)) (keys r).
Proof.
  revert d. induction r as [|[k v] r IH]; intros d Hnd; [cbn; by rewrite app_nil_r|].
  change (keys ((k, v) :: r)) with (k :: keys r) in *. apply NoDup_cons in Hnd as [Hk Hnd].
  change (assign d ((k, v) :: r)) with (assign (mset d k v) r). rewrite (IH (mset d k v) Hnd), keys_mset.
  cbn [List.filter].
  assert (List.filter (λ k0, negb (has_own (mset d k v) k0)) (keys r) = List.filter (λ k0, negb (has_own d k0)) (keys r)) as ->.
  { apply filter_ext_in. intros x Hx. rewrite has_own_mset. destruct (jeqb_spec k x) as [->|]; [|done].
    destruct Hk. by rewrite list_elem_of_In. }
  destruct (has_own d k); [done|]. cbn [negb]. by rewrite <- app_assoc.
Qed.

(** Defaults assigned twice. *)
Lemma assign_idem (d r : record) : NoDup (keys d) → NoDup (keys r) → assign d (assign d r) = assign d r.
Proof.
  intros Hd Hr. pose proof (NoDup_assign d r Hd) as Ha. apply record_ext.
  - rewrite (keys_assign d (assign d r) Ha), (keys_assign d r Hr), List.filter_app.
    assert (List.filter (λ k, negb (has_own d k)) (keys d) = []) as ->.
    { apply filter_none. intros k Hk. rewrite list_elem_of_In in *. apply negb_false_iff, has_own_elem. by apply list_elem_of_In. }
    f_equal. cbn [app]. apply filter_all. intros k Hk. apply list_elem_of_In, filter_In in Hk. tauto.
  - by apply NoDup_assign.
  - intros f. rewrite (rget_defaults d (assign d r) f Ha). destruct (has_own (assign d r) f) eqn:Ho; [done|].
    rewrite has_own_assign in Ho. apply orb_false_iff in Ho as [H1 H2].
    rewrite (rget_defaults d r f Hr), H1. done.
Qed.

Lemma oid_text_undef : oid_text JUndef = false.
Proof. vm_compute. reflexivity. Qed.

Section reparse.
Context (r : record) (Hr : NoDup (keys r)).
Let j : record := assign APPLY_JOURNAL_DEFAULTS r.

Lemma journal_other f : has_own APPLY_JOURNAL_DEFAULTS f = false → rget j f = rget r f.
Proof.
  intros H. unfold j. rewrite (rget_defaults _ _ _ Hr). destruct (has_own r f) eqn:E; [done|].
  by rewrite !rget_has_own.
Qed.

Lemma journal_given f : rget r f ≠ JUndef → rget j f = rget r f.
Proof.
  intros H. unfold j. rewrite (rget_defaults _ _ _ Hr). destruct (has_own r f) eqn:E; [done|].
  by rewrite rget_has_own in H.
Qed.

(** A field whose absence means its default. *)
Lemma journal_optional f d : rget APPLY_JOURNAL_DEFAULTS f = d → or_default (rget j f) d = or_default (rget r f) d.
Proof.
  intros <-. unfold j. rewrite (rget_defaults _ _ _ Hr). destruct (has_own r f) eqn:E; [done|].
  rewrite (rget_has_own r) by done. unfold or_default. cbn [is_undef].
  by destruct (rget APPLY_JOURNAL_DEFAULTS f).
Qed.

Ltac other f := rewrite (journal_other f) by reflexivity.
(** A field a passed test shows to be present. *)
Lemma journal_tested (test : jsval → bool) f :
  test (rget r f) = true → test JUndef = false → rget j f = rget r f.
Proof. intros H HU. apply journal_given. intros E. rewrite E, HU in H. discriminate H. Qed.

Ltac tested H := rewrite (journal_tested _ _ H) by reflexivity.

Lemma journal_v1_again : journal_v1 j = journal_v1 r.
Proof.
  unfold journal_v1. other (lit "affected_paths"). other (lit "apply_id"). other (lit "operation_type").
  other (lit "target_main"). other (lit "expected_prior_local_main"). other (lit "expected_prior_local_device_ref").
  other (lit "phase"). by other (lit "preflight_sha256").
Qed.

Lemma journal_v2_again : journal_v2 j = journal_v2 r.
Proof. unfold journal_v2. other (lit "preflight_fingerprints"). by other (lit "affected_paths"). Qed.

Lemma journal_v3_again : journal_v3 r = true → journal_v3 j = true.
Proof.
  intros H. pose proof H as H'. unfold journal_v3 in H'. rewrite !andb_true_iff in H'.
  destruct H' as [[[[[[[[[[H1 H2] H3] H4] _] _] _] _] _] H5] H6].
  rewrite <- H. unfold journal_v3. tested H1. tested H2. tested H3. tested H4. tested H5.
  rewrite (journal_tested (λ v, is_null v || is_safe_nonneg v) _ H6) by reflexivity.
  rewrite (journal_optional (lit "confirmed_directory_roots") (JArr [])) by reflexivity.
  by rewrite (journal_optional (lit "confirmed_directory_inventory") JNull) by reflexivity.
Qed.

Lemma journal_v5_again : journal_v5 r = true → journal_v5 j = true.
Proof.
  intros H. pose proof H as H'. unfold journal_v5 in H'. rewrite !andb_true_iff in H'.
  destruct H' as [[[[[[H1 H2] _] H3] _] _] _].
  rewrite <- H. unfold journal_v5. other (lit "affected_paths"). tested H2. tested H3.
  rewrite (journal_tested (λ v, is_null v || oid_text v) _ H1); [done|apply oid_text_undef].
Qed.

Lemma journal_v6_again : journal_v6 r = true → journal_v6 j = true.
Proof.
  intros H. pose proof H as H'. unfold journal_v6 in H'. apply andb_true_iff in H' as [H1 _].
  rewrite <- H. unfold journal_v6. by tested H1.
Qed.

Lemma journal_v7_again : journal_v7 j = journal_v7 r.
Proof. unfold journal_v7. other (lit "authoring_base"). by other (lit "touched_paths"). Qed.

Lemma journal_tail_again : journal_tail j = journal_tail r.
Proof.
  unfold journal_tail. other (lit "recovery_bundle_id"). other (lit "last_completed_step").
  by other (lit "redacted_error_category").
Qed.

Lemma journal_valid_again : journal_valid r = true → journal_valid j = true.
Proof.
  unfold journal_valid, journal_version. other (lit "journal_version").
  destruct (match rget r "journal_version" with JUndef => _ | _ => _ end) as [version|]; [|done].
  rewrite !andb_true_iff, !orb_true_iff.
  rewrite journal_v1_again, journal_v2_again, journal_v7_again, journal_tail_again.
  rewrite (journal_optional (lit "target_file_sizes") (JObj [])) by reflexivity.
  intros [[[[[[[H1 H2] H3] H4] H5] H6] H7] H8].
  split_and!; try done.
  - destruct H3 as [H3|H3]; [by left|right; by apply journal_v3_again].
  - destruct H5 as [H5|H5]; [by left|right; by apply journal_v5_again].
  - destruct H6 as [H6|H6]; [by left|right; by apply journal_v6_again].
Qed.

End reparse.

Lemma safe_path_set_canonical v : safe_path_set v = true →
  NoDup (paths_of v) ∧ ∀ p, p ∈ paths_of v → canonical p.
Proof.
  unfold safe_path_set, paths_of, array_elements. destruct v as [| | | | |items|]; try discriminate.
  cbn [as_array default from_option id]. intros [Hs Hd]%andb_true_iff. split; [by apply all_distinct_NoDup|].
  intros p Hp. rewrite forallb_forall in Hs. unfold strings_of in Hp.
  apply list_elem_of_omap in Hp as (v & Hv & Hp). rewrite list_elem_of_In in Hv. specialize (Hs v Hv).
  apply safe_path_canonical in Hs as [Hv' Hc]. destruct v; try discriminate Hp. injection Hp as <-. exact Hc.
Qed.

(** [C32] An apply journal that parses can be acted on and written back. Parsing
    the journal it returns gives that journal again; the paths it names as
    affected are distinct canonical vault paths, each with a recorded
    pre-apply hash (and, from version 2, a recorded fingerprint); and from
    version 5 on no path kept local conflicts with an affected one, so restoring
    local-only files never touches what the apply writes. *)
Theorem apply_journal_sound (r journal : record) :
  NoDup (keys r) → parseApplyJournal (JObj r) = Ok journal →
  parseApplyJournal (JObj journal) = Ok journal ∧
  NoDup (paths_of (rget journal "affected_paths")) ∧
  (∀ p, p ∈ paths_of (rget journal "affected_paths") →
    canonical p ∧ isNullableSha256 (rget (record_of (rget journal "preflight_sha256")) p) = true) ∧
  (∀ version, journal_version journal = Some version → 2 ≤ version →
    ∀ p, p ∈ paths_of (rget journal "affected_paths") →
      isPreflightFingerprint (rget (record_of (rget journal "preflight_fingerprints")) p) = true) ∧
  (∀ version, journal_version journal = Some version → 5 ≤ version →
    ∀ p q, p ∈ paths_of (rget journal "affected_paths") → q ∈ paths_of (rget journal "local_only_paths") →
      changedPathsConflict p q = false).
Proof.
  intros Hr H. unfold parseApplyJournal in H. destruct (journal_valid r) eqn:Hv; [|discriminate H].
  injection H as <-. pose proof (journal_valid_again r Hr Hv) as Hj.
  assert (NoDup (keys APPLY_JOURNAL_DEFAULTS)) as Hd by (vm_compute; repeat constructor; set_solver).
  split.
  { unfold parseApplyJournal. rewrite Hj. by rewrite assign_idem. }
  set (journal := assign APPLY_JOURNAL_DEFAULTS r) in *. clearbody journal. unfold journal_valid in Hj.
  destruct (journal_version journal) as [version|]; [|discriminate Hj]. rewrite !andb_true_iff, !orb_true_iff in Hj.
  destruct Hj as [[[[[[[H1 H2] _] _] H5] _] _] _].
  unfold journal_v1 in H1. rewrite !andb_true_iff in H1. destruct H1 as [[[_ Hset] _] Hhash].
  apply safe_path_set_canonical in Hset as [Hnd Hcan]. split_and!; [done| | |].
  - intros p Hp. split; [by apply Hcan|]. unfold each_has in Hhash. rewrite forallb_forall in Hhash.
    rewrite list_elem_of_In in Hp. specialize (Hhash p Hp). by apply andb_true_iff in Hhash as [_ ?].
  - intros v [= <-] Hle p Hp. destruct H2 as [H2|H2]; [apply negb_true_iff, Z.leb_gt in H2; lia|].
    unfold journal_v2 in H2. apply andb_true_iff in H2 as [_ H2]. unfold each_has in H2. rewrite forallb_forall in H2.
    rewrite list_elem_of_In in Hp. specialize (H2 p Hp). by apply andb_true_iff in H2 as [_ ?].
  - intros v [= <-] Hle p q Hp Hq. destruct H5 as [H5|H5]; [apply negb_true_iff, Z.leb_gt in H5; lia|].
    unfold journal_v5 in H5. apply andb_true_iff in H5 as [_ H5]. apply negb_true_iff in H5.
    apply not_true_iff_false. intros Hc. apply not_true_iff_false in H5. apply H5, existsb_exists.
    exists q. rewrite <- list_elem_of_In. split; [done|]. apply existsb_exists. exists p. by rewrite <- list_elem_of_In.
Qed.

End apply_journals.

(** ** Concrete inputs *)

Definition sample_intent (op path id : string) : jsval :=
  JObj [(lit "op", JStr (lit op)); (lit "path", JStr (lit path)); (lit "intent_id", JStr (lit id));
        (lit "generation", JNum (NInt 1)); (lit "provenance", JStr "local_v2"); (lit "base_main", JNull);
        (lit "base_event_seq", JNum (NInt 0)); (lit "replaces_intent_id", JNull);
        (lit "recreated_after_delete", JBool false); (lit "created_at", JNull)].

Lemma client_compaction_agrees_witness :
  ∃ k, @compactDirectoryIntents ascii_unicode
    [sample_intent "create" "a" "x"; JNull; sample_intent "create" "a/b" "y"; sample_intent "delete" "a" "z"] = Ok k ∧
  map intent_of k = [mk_intent DirDelete "a"].
Proof.
  destruct (@client_compaction_agrees ascii_unicode
    [sample_intent "create" "a" "x"; JNull; sample_intent "create" "a/b" "y"; sample_intent "delete" "a" "z"])
    as (k & Hk & He & _).
  - repeat constructor; eexists; vm_compute; reflexivity.
  - exists k. split; [exact Hk|]. rewrite He. vm_compute. reflexivity.
Defined.

Definition sample_id : string := "dir_12_1_0123456789ab".
Definition sample_state : jsval := JObj [(lit "local_main", JNull); (lit "last_applied_event_seq", JNum (NInt 7))].

Lemma built_proposal_accepted_witness :
  ∃ built proposal,
    @buildDirectoryProposal ascii_unicode toy_numerals toy_sha256 sample_state (JStr "c") (JArr [sample_intent "create" "a/b" sample_id]) = Ok built ∧
    @parse_proposal ascii_unicode (JObj built) = Ok proposal ∧ dp_base_event_seq proposal = 7.
Proof.
  destruct (@built_proposal_accepted ascii_unicode ascii_unicode_ok toy_numerals toy_sha256 sample_state (JStr "c")
    [sample_intent "create" "a/b" sample_id]) as (built & Hb & H & _).
  - intros text. vm_compute. reflexivity.
  - constructor; [vm_compute; reflexivity|constructor].
  - constructor; [apply not_elem_of_nil|constructor].
  - discriminate.
  - reflexivity.
  - reflexivity.
  - destruct H as (proposal & Hp & _ & Hs & _); [cbn; lia|]. exists built, proposal. split; [exact Hb|]. split; [exact Hp|]. rewrite Hs. reflexivity.
Defined.

Definition oid (c : string) : jsval := JStr (concat (repeat (lit c) 40)).

Definition sample_recovery : jsval :=
  let i := sample_intent "create" "a/b" sample_id in
  JObj [(lit "version", JNum (NInt 1)); (lit "phase", JStr "executing"); (lit "recovery_id", JStr "dirrec_12_0123456789abcdef");
    (lit "target_main", oid "a"); (lit "local_main_at_decision", oid "b"); (lit "local_head_at_decision", oid "c");
    (lit "base_main", JNull); (lit "event_seq", JNum (NInt 3)); (lit "changed_paths", JArr []);
    (lit "target_file_sizes", JObj []); (lit "explicit_directories", JArr []);
    (lit "ambiguous_roots", JArr [JStr "a/b"]);
    (lit "directory_intents", JArr [JObj [(lit "op", JStr "delete"); (lit "path", JStr "a")]]);
    (lit "original_pending_intents", JArr [i]); (lit "ambiguous_intents", JArr [i]); (lit "superseded_intents", JArr []);
    (lit "next_generation", JNum (NInt 2)); (lit "archived", JBool false);
    (lit "last_completed_step", JStr "decision_recorded"); (lit "created_at", JStr "t"); (lit "updated_at", JStr "t");
    (lit "inventory", JObj [(lit "directories", JArr [JObj [(lit "path", JStr "a/b"); (lit "creation_time", JNull)]]);
                            (lit "files", JArr [])]);
    (lit "decisions", JObj [(lit "a/b", JStr "keep_local")])].

Lemma recovery_decision_complete_witness :
  @parseDirectoryRecoveryDecision ascii_unicode toy_numerals sample_recovery = Ok sample_recovery ∧
  NoDup (map intent_id (recovery_list sample_recovery "original_pending_intents")).
Proof.
  assert (@parseDirectoryRecoveryDecision ascii_unicode toy_numerals sample_recovery = Ok sample_recovery) as H
    by (vm_compute; reflexivity).
  split; [exact H|].
  exact (proj1 (proj2 (@recovery_decision_complete ascii_unicode ascii_unicode_ok toy_numerals _ _ H))).
Defined.

Definition sample_journal : record :=
  [(lit "journal_version", JNum (NInt 2)); (lit "apply_id", JStr "apply_12_0123456789abcdef");
   (lit "operation_type", JStr "pull_apply"); (lit "target_main", oid "a");
   (lit "expected_prior_local_main", JNull); (lit "expected_prior_local_device_ref", JNull);
   (lit "phase", JStr "planned"); (lit "affected_paths", JArr [JStr "a.md"]);
   (lit "preflight_sha256", JObj [(lit "a.md", JNull)]);
   (lit "preflight_fingerprints", JObj [(lit "a.md", JObj [(lit "kind", JStr "missing"); (lit "sha256", JNull); (lit "oid", JNull)])]);
   (lit "recovery_bundle_id", JNull); (lit "last_completed_step", JNull); (lit "redacted_error_category", JNull)].

Lemma apply_journal_sound_witness :
  @parseApplyJournal ascii_unicode toy_numerals (JObj sample_journal) = Ok (assign APPLY_JOURNAL_DEFAULTS sample_journal) ∧
  NoDup (paths_of (rget (assign APPLY_JOURNAL_DEFAULTS sample_journal) "affected_paths")).
Proof.
  assert (@parseApplyJournal ascii_unicode toy_numerals (JObj sample_journal)
    = Ok (assign APPLY_JOURNAL_DEFAULTS sample_journal)) as H by (vm_compute; reflexivity).
  split; [exact H|].
  refine (proj1 (proj2 (@apply_journal_sound ascii_unicode ascii_unicode_ok toy_numerals _ _ _ H))).
  apply (bool_decide_unpack _). vm_compute. reflexivity.
Defined.
