(* ===== verification/WorkPool.v ===== *)
(** * Bounded work: byte budgets and the worker pool (obsidian-plugin/src/work-pool.cjs)

    [ByteBudget] hands out reservations of a shared byte count and queues the
    requests that do not fit; [runBoundedWork] maps an asynchronous worker over a
    list with a bounded number of workers. Both are single-threaded: a step is the
    code that runs between two awaits. *)

From S2P Require Export Js.
#[local] Open Scope Z_scope.

(** [Math.floor]. *)
Definition num_floor (n : jsnum) : jsnum :=
  match n with NFrac m k => NInt (m / 2 ^ Z.pos k) | _ => n end.

(** ** Byte budgets *)

Module Budget.

(** A request carries the bytes asked for; [held] are the reservations whose
    release has not run. [issued] numbers the calls of [acquire]. *)
Record budget := mk_budget {
  maxBytes : option Z;              (* None is Number.POSITIVE_INFINITY *)
  reservedBytes : Z;
  waiters : list (nat * Z);
  held : list (nat * Z);
  issued : nat
}.

(** [Number.isFinite(n) && n > 0 ? Math.floor(n) : otherwise]. *)
Definition whole_positive (n : jsnum) : option Z :=
  if num_finite n && num_pos n then match num_floor n with NInt z => Some z | _ => None end else None.

Definition createByteBudget (maxBytes : jsnum) : budget := mk_budget (whole_positive maxBytes) 0 [] [] 0.

Definition requested (requestedBytes : jsnum) : Z := default 0 (whole_positive requestedBytes).

Definition canAcquire (b : budget) (bytes : Z) : bool :=
  match maxBytes b with None => true | Some maxBytes => reservedBytes b + bytes <=? maxBytes end.

Definition reserve (request : nat * Z) (b : budget) : budget :=
  mk_budget (maxBytes b) (reservedBytes b + request.2) (waiters b) (held b ++ [request]) (issued b).

Definition set_waiters (w : list (nat * Z)) (b : budget) : budget :=
  mk_budget (maxBytes b) (reservedBytes b) w (held b) (issued b).

(** [drain], from the waiters it has not looked at yet. *)
Fixpoint drain_from (w : list (nat * Z)) (b : budget) : budget :=
  match w with
  | waiter :: rest => if canAcquire b waiter.2 then drain_from rest (reserve waiter b) else set_waiters w b
  | [] => set_waiters [] b
  end.
Definition drain (b : budget) : budget := drain_from (waiters b) b.

Inductive admission := Granted | Waits | Refused.

Definition issue (b : budget) : budget :=
  mk_budget (maxBytes b) (reservedBytes b) (waiters b) (held b) (S (issued b)).

Definition acquire (requestedBytes : jsnum) (b : budget) : admission * budget :=
  let bytes := requested requestedBytes in
  let id := issued b in
  let b := issue b in
  if match maxBytes b with Some maxBytes => maxBytes <? bytes | None => false end then (Refused, b)
  else if canAcquire b bytes then (Granted, reserve (id, bytes) b)
  else (Waits, drain (set_waiters (waiters b ++ [(id, bytes)]) b)).

(** The release function of a reservation; the second call does nothing. *)
Definition release (id : nat) (b : budget) : budget :=
  match list_find (λ request, request.1 = id) (held b) with
  | Some (i, request) =>
    drain (mk_budget (maxBytes b) (reservedBytes b - request.2) (waiters b) (delete i (held b)) (issued b))
  | None => b
  end.

Inductive call := Acquire (requestedBytes : jsnum) | Release (id : nat).

Definition step (b : budget) (c : call) : budget :=
  match c with Acquire n => snd (acquire n b) | Release id => release id b end.
Definition run (calls : list call) (b : budget) : budget := fold_left step calls b.

(** *** The invariant *)

Fixpoint bytes_of (l : list (nat * Z)) : Z :=
  match l with [] => 0 | request :: l => request.2 + bytes_of l end.

Definition fits (b : budget) (bytes : Z) : Prop := ∀ m, maxBytes b = Some m → bytes ≤ m.

(** The waiter at the head never fits: what waits waits for a release. *)
Definition head_blocked (b : budget) : Prop :=
  ∀ waiter rest, waiters b = waiter :: rest → canAcquire b waiter.2 = false.

Record sound (b : budget) : Prop := {
  s_sum : reservedBytes b = bytes_of (held b);
  s_nonneg : Forall (λ request, 0 ≤ request.2) (held b ++ waiters b);
  s_within : fits b (reservedBytes b);
  s_each : Forall (λ request, fits b request.2) (waiters b);
  s_ids : Forall (λ request, (request.1 < issued b)%nat) (held b ++ waiters b);
  s_distinct : NoDup (map fst (held b ++ waiters b))
}.

Lemma bytes_app l k : bytes_of (l ++ k) = bytes_of l + bytes_of k.
Proof. induction l as [|x l IH]; cbn; [lia|]. rewrite IH. lia. Qed.

Lemma bytes_delete l i x : l !! i = Some x → bytes_of (delete i l) = bytes_of l - x.2.
Proof.
  intros H. pose proof (f_equal bytes_of (take_drop_middle l i x H)) as E. rewrite bytes_app in E. cbn in E.
  rewrite delete_take_drop, bytes_app. lia.
Qed.

Lemma sublist_Forall {A} (P : A → Prop) l k : Forall P k → l `sublist_of` k → Forall P l.
Proof. rewrite !Forall_forall. intros Hk Hs x Hx. by apply Hk, (elem_of_sublist l). Qed.

Lemma drain_sound w : ∀ b, sound (set_waiters w b) → sound (drain_from w b) ∧ head_blocked (drain_from w b).
Proof.
  induction w as [|x w IH]; intros b Hb; cbn [drain_from]; [by split; [|intros ?? [=]]|].
  destruct (canAcquire b x.2) eqn:Hc; [|split; [done|intros ?? [= <- <-]; done]].
  apply IH. destruct Hb as [Hsum Hnn Hin Hea Hid Hnd]. cbn in *. split; cbn; try done.
  - rewrite bytes_app. cbn. lia.
  - by rewrite <- app_assoc.
  - intros m Hm. unfold canAcquire in Hc. cbn in Hm. rewrite Hm in Hc. cbn. lia.
  - by inversion Hea.
  - by rewrite <- app_assoc.
  - by rewrite <- app_assoc.
Qed.

Lemma drain_fixed w b : maxBytes (drain_from w b) = maxBytes b ∧ issued (drain_from w b) = issued b ∧
  held (drain_from w b) ++ waiters (drain_from w b) = held b ++ w.
Proof.
  revert b. induction w as [|x w IH]; intros b; cbn [drain_from]; [done|].
  destruct (canAcquire b x.2); [|done]. destruct (IH (reserve x b)) as (-> & -> & ->). cbn. by rewrite <- app_assoc.
Qed.

Lemma whole_positive_nonneg n z : whole_positive n = Some z → 0 ≤ z.
Proof.
  unfold whole_positive. destruct n as [y|m k| |]; cbn; try done.
  - destruct (0 <? y) eqn:E; [intros [= <-]; lia|done].
  - destruct (0 <? m) eqn:E; [|done]. intros [= <-]. apply Z.div_pos; [lia|]. apply Z.pow_pos_nonneg; lia.
Qed.

Lemma requested_nonneg n : 0 ≤ requested n.
Proof. unfold requested. destruct (whole_positive n) eqn:E; cbn; [by apply whole_positive_nonneg in E|lia]. Qed.

Lemma acquire_sound n b : sound b → head_blocked b → sound (snd (acquire n b)) ∧ head_blocked (snd (acquire n b)).
Proof.
  intros [Hsum Hnn Hin Hea Hid Hnd] Hh. unfold acquire. pose proof (requested_nonneg n) as Hn.
  assert (∀ l, Forall (λ request : nat * Z, (request.1 < issued b)%nat) l →
    Forall (λ request : nat * Z, (request.1 < S (issued b))%nat) l) as Hmore.
  { intros l Hl. eapply Forall_impl; [exact Hl|]. intros; cbn in *; lia. }
  assert (issued b ∉ map fst (held b ++ waiters b)) as Hfresh.
  { intros ([i z] & Hi & Hr)%list_elem_of_fmap. rewrite List.Forall_forall in Hid. cbn in Hi. subst i.
    apply list_elem_of_In in Hr. specialize (Hid _ Hr). cbn in Hid. lia. }
  cbn [maxBytes issue]. destruct (match maxBytes b with Some m => m <? _ | None => _ end) eqn:Hover; cbn [snd].
  { split; [split; cbn; auto|exact Hh]. }
  destruct (canAcquire (issue b) (requested n)) eqn:Hc; cbn [snd].
  - split; [split; cbn|].
    + rewrite bytes_app. cbn. lia.
    + rewrite <- app_assoc. apply Forall_app in Hnn as [H1 H2]. apply Forall_app. split; [done|]. by constructor.
    + intros m Hm. unfold canAcquire in Hc. cbn in Hc, Hm. rewrite Hm in Hc. lia.
    + done.
    + rewrite <- app_assoc. specialize (Hmore _ Hid). apply Forall_app in Hmore as [H1 H2]. apply Forall_app.
      split; [done|]. constructor; [cbn; lia|done].
    + rewrite <- app_assoc. cbn. rewrite map_app in Hnd, Hfresh |- *. cbn.
      rewrite NoDup_app in Hnd |- *. rewrite elem_of_app in Hfresh. destruct Hnd as (H1 & H2 & H3).
      split_and!; [done| |constructor; [tauto|done]]. intros x Hx [->|Hy]%elem_of_cons; [tauto|]. by apply (H2 x).
    + intros waiter rest Hw. specialize (Hh waiter rest Hw). unfold canAcquire in Hh |- *. cbn.
      destruct (maxBytes b); [|done]. lia.
  - apply drain_sound. cbn. split; cbn; try done.
    + rewrite app_assoc. apply Forall_app. split; [done|]. by repeat constructor.
    + apply Forall_app. split; [done|]. constructor; [|constructor]. intros m Hm. cbn in Hm |- *. rewrite Hm in Hover. lia.
    + rewrite app_assoc. apply Forall_app. split; [by apply Hmore|]. constructor; [cbn; lia|constructor].
    + rewrite app_assoc, map_app. apply NoDup_app. split_and!; [done| |apply NoDup_singleton].
      by intros x Hx ->%list_elem_of_singleton.
Qed.

Lemma find_held id b i request : list_find (λ request : nat * Z, request.1 = id) (held b) = Some (i, request) →
  held b !! i = Some request ∧ request.1 = id.
Proof. intros (H1 & H2 & _)%list_find_Some. done. Qed.

Lemma release_sound id b : sound b → head_blocked b → sound (release id b) ∧ head_blocked (release id b).
Proof.
  intros [Hsum Hnn Hin Hea Hid Hnd] Hh. unfold release.
  destruct (list_find _ (held b)) as [[i request]|] eqn:Hf; [|by split; [split|]].
  apply find_held in Hf as [Hi _]. unfold drain. apply drain_sound. cbn.
  assert (delete i (held b) ++ waiters b `sublist_of` held b ++ waiters b) as Hsub
    by (apply sublist_app; [apply sublist_delete|done]).
  apply Forall_app in Hnn as Hnn2. destruct Hnn2 as [Hheld _].
  split; cbn; try done.
  - rewrite (bytes_delete _ _ _ Hi). lia.
  - apply (sublist_Forall _ _ _ Hnn Hsub).
  - intros m Hm. specialize (Hin m Hm). rewrite Forall_lookup in Hheld. specialize (Hheld _ _ Hi). cbn in Hheld. lia.
  - apply (sublist_Forall _ _ _ Hid Hsub).
  - eapply sublist_NoDup; [exact Hnd|]. exact (fmap_sublist fst _ _ Hsub).
Qed.

Lemma budget_run_sound calls b : sound b → head_blocked b → sound (run calls b) ∧ head_blocked (run calls b).
Proof.
  revert b. induction calls as [|c calls IH]; intros b Hb Hh; [done|]. cbn. destruct c; cbn.
  - destruct (acquire_sound requestedBytes b Hb Hh). by apply IH.
  - destruct (release_sound id b Hb Hh). by apply IH.
Qed.

Lemma create_sound n : sound (createByteBudget n) ∧ head_blocked (createByteBudget n).
Proof.
  split; [split; cbn; try constructor|by intros ?? [=]]. intros m Hm. by apply whole_positive_nonneg in Hm.
Qed.

Lemma bytes_nonneg l : Forall (λ request : nat * Z, 0 ≤ request.2) l → 0 ≤ bytes_of l.
Proof. induction 1; cbn; lia. Qed.

(** The requests not served to the end. *)
Definition outstanding (b : budget) : nat := length (held b ++ waiters b).

Lemma release_shrinks id b : id ∈ map fst (held b) → outstanding b = S (outstanding (release id b)).
Proof.
  intros (x & -> & Hx)%list_elem_of_fmap. unfold release.
  destruct (list_find_elem_of (λ request, request.1 = x.1) (held b) x Hx eq_refl) as [[i y] Hf]. rewrite Hf.
  apply find_held in Hf as [Hi _]. unfold outstanding, drain.
  edestruct drain_fixed as (_ & _ & ->). cbn. rewrite !length_app, length_delete by eauto.
  apply lookup_lt_Some in Hi. lia.
Qed.

(** A released reservation is gone: its identifier is not held again. *)
Lemma release_gone id b : sound b → id ∉ map fst (waiters b) → id ∉ map fst (held (release id b)).
Proof.
  intros Hb Hw. unfold release. destruct (list_find _ (held b)) as [[i y]|] eqn:Hf.
  - apply find_held in Hf as [Hi Hy]. intros Hin.
    set (b' := mk_budget _ _ _ _ _) in Hin. pose proof (drain_fixed (waiters b) b') as (_ & _ & He).
    assert (id ∈ map fst (delete i (held b) ++ waiters b)) as H.
    { change (delete i (held b) ++ waiters b) with (held b' ++ waiters b). rewrite <- He, map_app. apply elem_of_app. by left. }
    rewrite map_app in H. apply elem_of_app in H as [H|H]; [|done].
    destruct Hb as [_ _ _ _ _ Hnd]. rewrite map_app in Hnd. apply NoDup_app in Hnd as [Hnd _].
    rewrite <- (take_drop_middle (held b) i y Hi), map_app in Hnd. cbn in Hnd. rewrite Hy in Hnd.
    apply NoDup_app in Hnd as (_ & H2 & H3). apply NoDup_cons in H3 as [H3 _].
    rewrite delete_take_drop, map_app in H. apply elem_of_app in H as [H|H]; [|done].
    apply (H2 id H). by left.
  - apply list_find_None in Hf. intros (x & -> & Hx)%list_elem_of_fmap. rewrite Forall_forall in Hf. by apply (Hf x Hx).
Qed.

Lemma release_twice id b : sound b → id ∈ map fst (held b) → release id (release id b) = release id b.
Proof.
  intros Hb Hin. assert (id ∉ map fst (waiters b)) as Hw.
  { destruct Hb as [_ _ _ _ _ Hnd]. rewrite map_app in Hnd. apply NoDup_app in Hnd as (_ & H & _). by apply H. }
  pose proof (release_gone id b Hb Hw) as Hg. unfold release at 1.
  destruct (list_find _ (held (release id b))) as [[i y]|] eqn:Hf; [|done].
  apply find_held in Hf as [Hi <-]. destruct Hg. apply list_elem_of_fmap. exists y. split; [done|]. by eapply list_elem_of_lookup_2.
Qed.

(** A byte budget never hands out more than its limit, counts exactly what is
    held, and never leaves a request waiting for nothing: for any sequence of
    calls, the reserved bytes are the sum of the unreleased reservations and
    within the limit; the first waiter does not fit; when nothing is held nothing
    waits; and every release that is the first of its reservation brings one
    request closer to its end, releasing it again changes nothing. *)
Theorem byte_budget_exact (limit : jsnum) (calls : list call) :
  let b := run calls (createByteBudget limit) in
  reservedBytes b = bytes_of (held b) ∧
  (∀ m, maxBytes b = Some m → 0 ≤ reservedBytes b ≤ m) ∧
  (∀ waiter rest, waiters b = waiter :: rest → canAcquire b waiter.2 = false) ∧
  (held b = [] → waiters b = []) ∧
  (∀ id, id ∈ map fst (held b) → outstanding b = S (outstanding (release id b)) ∧
    release id (release id b) = release id b).
Proof.
  intros b. destruct (create_sound limit) as [H0 H1].
  destruct (budget_run_sound calls _ H0 H1) as [[Hsum Hnn Hin Hea Hid Hnd] Hh]. fold b in Hsum, Hnn, Hin, Hea, Hid, Hnd, Hh.
  split_and!; [done| |done| |].
  - intros m Hm. split; [|by apply Hin]. rewrite Hsum. apply Forall_app in Hnn as [Hheld _].
    by apply bytes_nonneg.
  - intros He. destruct (waiters b) as [|w rest] eqn:Ew; [done|]. specialize (Hh w rest Ew).
    unfold canAcquire in Hh. destruct (maxBytes b) as [m|] eqn:Em; [|done].
    rewrite Hsum, He in Hh. apply Forall_cons in Hea as [Hw _]. specialize (Hw m Em). cbn in Hh. lia.
  - intros id Hin'. split; [by apply release_shrinks|]. by apply release_twice.
Qed.

End Budget.

(** ** The worker pool *)

Module Pool.

Section pool.
Context {B E : Type}.

(** [null_error] is a thrown [null], which the code does not tell from no error. *)
Variable null_error : E → bool.
(** What the promise of item [i] settles with. *)
Variable outcome : nat → B + E.
(** What [options.onProgress(completed, total)] throws, when it is given and throws. *)
Variable onProgress : nat → nat → option E.
(** [Math.max(0, Math.floor(options.yieldEvery || 0))]. *)
Variable yieldEvery : nat.
(** [values.length]. *)
Variable total : nat.

(** Where a worker is: at the head of its loop, awaiting an item, awaiting the
    timer, or returned. *)
Inductive phase := AtLoop | Working (index : nat) | Yielding | Returned.

Record pool := mk_pool {
  nextIndex : nat;
  firstError : option E;
  completed : nat;
  results : list (option B);
  workers : list phase
}.

Definition start (concurrency : nat) : pool :=
  mk_pool 0 None 0 (repeat None total) (repeat AtLoop concurrency).

Definition set_worker (w : nat) (p : phase) (s : pool) : pool :=
  mk_pool (nextIndex s) (firstError s) (completed s) (results s) (<[w := p]> (workers s)).
Definition take_index (s : pool) : pool :=
  mk_pool (S (nextIndex s)) (firstError s) (completed s) (results s) (workers s).
Definition set_result (i : nat) (v : B) (s : pool) : pool :=
  mk_pool (nextIndex s) (firstError s) (S (completed s)) (<[i := Some v]> (results s)) (workers s).

(** [if (firstError === null) firstError = error]. *)
Definition record_error (error : E) (s : pool) : pool :=
  match firstError s with
  | None => mk_pool (nextIndex s) (if null_error error then None else Some error) (completed s) (results s) (workers s)
  | Some _ => s
  end.

(** [yieldEvery > 0 && completed % yieldEvery === 0]. *)
Definition yields (completed : nat) : bool := (0 <? yieldEvery)%nat && (completed mod yieldEvery =? 0)%nat.

(** The loop head of [runWorker]: the test, and the item it takes. *)
Definition at_loop (w : nat) (s : pool) : pool :=
  match firstError s with
  | Some _ => set_worker w Returned s
  | None =>
    let index := nextIndex s in
    let s := take_index s in
    if (total <=? index)%nat then set_worker w Returned s else set_worker w (Working index) s
  end.

(** The rest of the loop body, once the worker's promise has settled. *)
Definition settled (w index : nat) (s : pool) : pool :=
  match outcome index with
  | inr error => set_worker w AtLoop (record_error error s)
  | inl value =>
    let s := set_result index value s in
    match onProgress (completed s) total with
    | Some error => set_worker w AtLoop (record_error error s)
    | None => set_worker w (if yields (completed s) then Yielding else AtLoop) s
    end
  end.

(** One step of worker [w]. *)
Definition advance (w : nat) (s : pool) : option pool :=
  match workers s !! w with
  | Some AtLoop => Some (at_loop w s)
  | Some (Working index) => Some (settled w index s)
  | Some Yielding => Some (set_worker w AtLoop s)
  | Some Returned | None => None
  end.

(** The pool runs its workers in any order the event loop chooses. *)
Definition pool_step (s s' : pool) : Prop := ∃ w, advance w s = Some s'.

#[local] Instance phase_eq_dec : EqDecision phase.
Proof. solve_decision. Defined.

Definition finished (s : pool) : Prop := Forall (λ p, p = Returned) (workers s).

#[global] Instance finished_dec s : Decision (finished s).
Proof. apply Forall_dec. intros p. apply _. Defined.

(** [if (firstError !== null) throw firstError; return results]. *)
Definition returns (s : pool) : list (option B) + E :=
  match firstError s with Some error => inr error | None => inl (results s) end.

(** *** Every run ends *)

Definition weight (p : phase) : nat :=
  match p with AtLoop => 1 | Working _ => 3 | Yielding => 2 | Returned => 0 end.
#[local] Arguments weight : simpl nomatch.
Fixpoint weights (ps : list phase) : nat := match ps with [] => 0 | p :: ps => weight p + weights ps end.
Definition remaining (s : pool) : nat := 3 * (total - nextIndex s) + weights (workers s).

Lemma weights_insert ps w p q : ps !! w = Some p → (weights (<[w := q]> ps) + weight p = weights ps + weight q)%nat.
Proof.
  revert w. induction ps as [|r ps IH]; intros [|w] H; try discriminate H; [injection H as ->; cbn; lia|].
  specialize (IH w H). change (<[S w:=q]> (r :: ps)) with (r :: <[w:=q]> ps). cbn [weights]. lia.
Qed.

Lemma record_error_same error s : workers (record_error error s) = workers s ∧ nextIndex (record_error error s) = nextIndex s
  ∧ results (record_error error s) = results s.
Proof. unfold record_error. by destruct (firstError s). Qed.

Ltac fields := cbn [workers nextIndex set_worker take_index set_result weight results completed firstError].

Lemma advance_decreases w s s' : advance w s = Some s' → (remaining s' < remaining s)%nat.
Proof.
  unfold advance, remaining. destruct (workers s !! w) as [p|] eqn:Hw; [|done].
  pose proof (weights_insert _ _ _ Returned Hw) as HR. pose proof (weights_insert _ _ _ AtLoop Hw) as HA.
  pose proof (weights_insert _ _ _ Yielding Hw) as HY. cbn [weight] in HR, HA, HY.
  destruct p as [|i| |]; intros [= <-]; cbn [weight] in *.
  - unfold at_loop. destruct (firstError s); fields; [lia|].
    destruct (total <=? nextIndex s)%nat eqn:Hn; fields; [lia|].
    apply Nat.leb_gt in Hn. pose proof (weights_insert _ _ _ (Working (nextIndex s)) Hw) as HW. cbn [weight] in HW. lia.
  - unfold settled. destruct (outcome i) as [v|e].
    + destruct (onProgress _ _) as [e|]; fields.
      * destruct (record_error_same e (set_result i v s)) as (-> & -> & _). fields. lia.
      * destruct (yields _); fields; lia.
    + fields. destruct (record_error_same e s) as (-> & -> & _). lia.
  - fields. lia.
Qed.

Lemma unfinished_step s : ¬ finished s → ∃ s', pool_step s s'.
Proof.
  intros H. unfold finished in H.
  assert (∃ w p, workers s !! w = Some p ∧ p ≠ Returned) as (w & p & Hw & Hp).
  { induction (workers s) as [|p ps IH]; [by destruct H|]. destruct p; [exists 0%nat, AtLoop; done| | |].
    - by exists 0%nat, (Working index). - by exists 0%nat, Yielding.
    - destruct IH as (w & q & ? & ?); [|by exists (S w), q]. intros Hps. apply H. by constructor. }
  unfold pool_step, advance. destruct p; try done; eexists; exists w; by rewrite Hw.
Qed.

(** *** What a run keeps *)

Definition working (s : pool) (i : nat) : Prop := Working i ∈ workers s.

(** Where a reported error comes from. *)
Definition failure (e : E) : Prop :=
  (∃ i, (i < total)%nat ∧ outcome i = inr e) ∨ ∃ c, (c ≤ total)%nat ∧ onProgress c total = Some e.

Definition done_count (rs : list (option B)) : nat := length (List.filter (λ r, match r with Some _ => true | None => false end) rs).

Record kept (s : pool) : Prop := {
  k_length : length (results s) = total;
  k_count : completed s = done_count (results s);
  k_result i v : results s !! i = Some (Some v) → (i < nextIndex s)%nat ∧ outcome i = inl v;
  k_working i : working s i → (i < nextIndex s)%nat ∧ results s !! i = Some None;
  k_alone w w' i : workers s !! w = Some (Working i) → workers s !! w' = Some (Working i) → w = w';
  k_covered : firstError s = None → ∀ i, (i < nextIndex s)%nat → (i < total)%nat →
    working s i ∨ ∃ v, results s !! i = Some (Some v);
  k_error e : firstError s = Some e → failure e;
  k_progress : firstError s = None → ∀ c, (0 < c)%nat → (c ≤ completed s)%nat → onProgress c total = None;
  k_returned : firstError s = None → Returned ∈ workers s → (total ≤ nextIndex s)%nat
}.

Lemma done_count_insert rs i v : rs !! i = Some None → done_count (<[i := Some v]> rs) = S (done_count rs).
Proof.
  unfold done_count. revert i. induction rs as [|r rs IH]; intros [|i] H; try discriminate H; [by injection H as ->|].
  specialize (IH i H). change (<[S i:=Some v]> (r :: rs)) with (r :: <[i:=Some v]> rs). cbn [List.filter].
  destruct r; cbn [length]; by rewrite IH.
Qed.

Lemma done_count_le rs : (done_count rs ≤ length rs)%nat.
Proof. unfold done_count. induction rs as [|[v|] rs IH]; cbn; lia. Qed.

Lemma start_kept c : kept (start c).
Proof.
  assert (∀ p, p ∈ workers (start c) → p = AtLoop) as Hw by (intros p Hp; apply list_elem_of_In, repeat_spec in Hp; done).
  assert (∀ w p, workers (start c) !! w = Some p → p = AtLoop) as Hl by (intros w p Hp; by eapply Hw, list_elem_of_lookup_2).
  split; cbn; try done.
  - apply repeat_length.
  - unfold done_count. by induction total.
  - intros i v H. apply list_elem_of_lookup_2, list_elem_of_In, repeat_spec in H. done.
  - intros i H. by apply Hw in H.
  - intros w w' i H. by apply Hl in H.
  - intros; lia.
  - intros; lia.
  - intros _ H. by apply Hw in H.
Qed.

(** A worker that is not working and does not start to. *)
Lemma working_other s w q i : (∀ j, q ≠ Working j) → (∀ j, workers s !! w ≠ Some (Working j)) →
  working (set_worker w q s) i ↔ working s i.
Proof.
  intros Hq Hs. unfold working. cbn. rewrite !list_elem_of_lookup. split; intros [k Hk].
  - apply list_lookup_insert_Some in Hk as [(_ & Hk & _)|[_ Hk]]; [by destruct (Hq i)|by exists k].
  - exists k. rewrite list_lookup_insert_ne; [done|]. intros ->. by destruct (Hs i).
Qed.

Lemma workers_insert (ps : list phase) w q p : p ∈ <[w := q]> ps → p = q ∨ p ∈ ps.
Proof.
  rewrite !list_elem_of_lookup. intros [k Hk]. apply list_lookup_insert_Some in Hk as [(_ & -> & _)|[_ Hk]]; [by left|].
  right. by exists k.
Qed.

Lemma kept_park s w p q : kept s → workers s !! w = Some p → (∀ j, p ≠ Working j) → (∀ j, q ≠ Working j) →
  (q = Returned → firstError s = None → (total ≤ nextIndex s)%nat) → kept (set_worker w q s).
Proof.
  intros [H1 H2 H3 H4 H5 H6 H7 H8 H9] Hw Hp Hq Hr.
  assert (∀ i, working (set_worker w q s) i ↔ working s i) as Hwk.
  { intros i. apply working_other; [done|]. rewrite Hw. intros j [= Ej]. by apply (Hp j). }
  split; fields; try done.
  - intros i Hi. by apply H4, Hwk.
  - intros a b i Ha Hb. apply list_lookup_insert_Some in Ha as [(_ & Ha & _)|[_ Ha]]; [by destruct (Hq i)|].
    apply list_lookup_insert_Some in Hb as [(_ & Hb & _)|[_ Hb]]; [by destruct (Hq i)|]. by apply (H5 a b i).
  - intros He i Hi Ht. destruct (H6 He i Hi Ht) as [Hk|Hk]; [left; by apply Hwk|by right].
  - intros He [Hq'|Hin]%workers_insert; [by apply Hr|by apply H9].
Qed.

Lemma kept_exhausted s : kept s → (total ≤ nextIndex s)%nat → kept (take_index s).
Proof.
  intros [H1 H2 H3 H4 H5 H6 H7 H8 H9] Hn. split; fields; try done.
  - intros i v Hi. destruct (H3 i v Hi). split; [lia|done].
  - intros i Hi. destruct (H4 i Hi). split; [lia|done].
  - intros He i _ Ht. apply H6; [done|lia|done].
  - lia.
Qed.

Lemma kept_take s w : kept s → workers s !! w = Some AtLoop → firstError s = None → (nextIndex s < total)%nat →
  kept (set_worker w (Working (nextIndex s)) (take_index s)).
Proof.
  intros [H1 H2 H3 H4 H5 H6 H7 H8 H9] Hw He Hn.
  assert (∀ i, working s i → working (set_worker w (Working (nextIndex s)) (take_index s)) i) as Hmono.
  { intros i (k & Hk)%list_elem_of_lookup. apply list_elem_of_lookup. exists k. fields.
    rewrite list_lookup_insert_ne; [done|]. intros ->. by rewrite Hw in Hk. }
  split; fields; try done.
  - intros i v Hi. destruct (H3 i v Hi). split; [lia|done].
  - intros i [[= ->]|Hi]%workers_insert; [|destruct (H4 i Hi); split; [lia|done]]. split; [lia|].
    rewrite <- H1 in Hn. apply lookup_lt_is_Some in Hn as [[v|] Hv]; [|done]. apply H3 in Hv as [Hv _]. lia.
  - intros a b i Ha Hb. apply list_lookup_insert_Some in Ha as [(-> & Ha & _)|[Hna Ha]];
      apply list_lookup_insert_Some in Hb as [(-> & Hb & _)|[Hnb Hb]]; try done.
    + injection Ha as <-. apply list_elem_of_lookup_2, H4 in Hb as [Hb _]. lia.
    + injection Hb as <-. apply list_elem_of_lookup_2, H4 in Ha as [Ha _]. lia.
    + by apply (H5 a b i).
  - intros _ i Hi Ht. destruct (decide (i = nextIndex s)) as [->|].
    + left. apply list_elem_of_lookup. exists w. fields. apply list_lookup_insert_eq. by eapply lookup_lt_Some.
    + destruct (H6 He i) as [Hk|Hk]; [lia|done|left; by apply Hmono|by right].
  - intros _ [|Hin]%workers_insert; [done|]. specialize (H9 He Hin). lia.
Qed.

(** A worker done with item [i]: the result, if any, and the first error after it. *)
Lemma kept_settle s w i q (v : option B) (fe : option E) :
  kept s → workers s !! w = Some (Working i) → (∀ j, q ≠ Working j) → q ≠ Returned →
  (∀ b, v = Some b → outcome i = inl b) →
  (∀ e, fe = Some e → failure e) →
  (fe = None → firstError s = None ∧ is_Some v ∧ onProgress (S (completed s)) total = None) →
  kept (mk_pool (nextIndex s) fe (match v with Some _ => S (completed s) | None => completed s end)
         (match v with Some b => <[i := Some b]> (results s) | None => results s end) (<[w := q]> (workers s))).
Proof.
  intros [H1 H2 H3 H4 H5 H6 H7 H8 H9] Hw Hq Hqr Hv Hfe Hnone.
  destruct (H4 i) as [Hi Hri]; [by eapply list_elem_of_lookup_2|].
  assert (∀ j, Working j ∈ <[w := q]> (workers s) → working s j ∧ j ≠ i) as Hwk.
  { intros j (k & Hk)%list_elem_of_lookup. apply list_lookup_insert_Some in Hk as [(_ & Hk & _)|[Hne Hk]]; [by destruct (Hq j)|].
    split; [by eapply list_elem_of_lookup_2|]. intros ->. apply Hne. by apply (H5 w k i). }
  split; fields; try done.
  - destruct v; [|done]. by rewrite length_insert.
  - destruct v; [|done]. by rewrite done_count_insert, H2.
  - intros j b Hj. destruct v as [v|]; [|by apply H3].
    apply list_lookup_insert_Some in Hj as [(<- & [= <-] & _)|[_ Hj]]; [split; [done|by apply Hv]|by apply H3].
  - intros j Hj. apply Hwk in Hj as [Hj Hne]. destruct (H4 j Hj). split; [done|]. destruct v; [|done].
    by rewrite list_lookup_insert_ne.
  - intros a b j Ha Hb. apply list_lookup_insert_Some in Ha as [(_ & Ha & _)|[_ Ha]]; [by destruct (Hq j)|].
    apply list_lookup_insert_Some in Hb as [(_ & Hb & _)|[_ Hb]]; [by destruct (Hq j)|]. by apply (H5 a b j).
  - intros He j Hj Ht. destruct (Hnone He) as (Hs & [b ->] & _). destruct (decide (j = i)) as [->|Hne].
    + right. exists b. apply list_lookup_insert_eq. by eapply lookup_lt_Some.
    + destruct (H6 Hs j Hj Ht) as [Hk|[b' Hk]].
      * left. apply list_elem_of_lookup in Hk as [k Hk]. apply list_elem_of_lookup. exists k. fields.
        rewrite list_lookup_insert_ne; [done|]. intros <-. rewrite Hw in Hk. by injection Hk.
      * right. exists b'. by rewrite list_lookup_insert_ne.
  - intros He c Hc Hle. destruct (Hnone He) as (Hs & [b ->] & Hp). destruct (decide (c = S (completed s))) as [->|]; [done|].
    apply H8; [done|done|lia].
  - intros He [Hq'|Hin]%workers_insert; [done|]. destruct (Hnone He) as (Hs & _). by apply H9.
Qed.

(** A schedule names the worker of each step. *)
Fixpoint follow (schedule : list nat) (s : pool) : option pool :=
  match schedule with [] => Some s | w :: ws => s ← advance w s; follow ws s end.

Lemma follow_run ws s s' : follow ws s = Some s' → rtc pool_step s s'.
Proof.
  revert s. induction ws as [|w ws IH]; intros s; cbn; [intros [= <-]; apply rtc_refl|].
  intros (s1 & H1 & H2)%bind_Some. eapply rtc_l; [by exists w|by apply IH].
Qed.

Hypothesis errors_not_null : ∀ e, null_error e = false.

Lemma record_error_first e s : ∃ e', firstError (record_error e s) = Some e' ∧ (e' = e ∨ firstError s = Some e').
Proof.
  unfold record_error. destruct (firstError s) as [e'|] eqn:Hs; [exists e'; auto|]. cbn. rewrite errors_not_null. exists e. auto.
Qed.

Lemma record_error_shape e s e' : firstError (record_error e s) = Some e' →
  record_error e s = mk_pool (nextIndex s) (Some e') (completed s) (results s) (workers s).
Proof.
  unfold record_error. destruct s as [n fe c rs ws]. cbn. destruct fe as [e0|]; cbn; [by intros ->|].
  by intros ->.
Qed.

Lemma kept_step s s' : kept s → pool_step s s' → kept s'.
Proof.
  intros Hk [w Hs]. unfold advance in Hs. destruct (workers s !! w) as [[|i| |]|] eqn:Hw; try done; injection Hs as <-.
  - unfold at_loop. destruct (firstError s) eqn:He; [apply (kept_park s w AtLoop); try done; intros _ Hn; by rewrite He in Hn|].
    destruct (total <=? nextIndex s)%nat eqn:Hn.
    + apply Nat.leb_le in Hn. apply (kept_park _ w AtLoop); try done; [by apply kept_exhausted|]. fields. lia.
    + apply Nat.leb_gt in Hn. by apply kept_take.
  - assert (i < total)%nat as Hi.
    { destruct (k_working s Hk i) as [_ Hi]; [by eapply list_elem_of_lookup_2|]. apply lookup_lt_Some in Hi.
      by rewrite (k_length s Hk) in Hi. }
    unfold settled. destruct (outcome i) as [v|e] eqn:Ho.
    + destruct (onProgress (completed (set_result i v s)) total) as [e|] eqn:Hp.
      * destruct (record_error_first e (set_result i v s)) as (e' & He' & Hor).
        pose proof (kept_settle s w i AtLoop (Some v) (Some e') Hk Hw) as H.
        replace (set_worker w AtLoop (record_error e (set_result i v s))) with
          (mk_pool (nextIndex s) (Some e') (S (completed s)) (<[i := Some v]> (results s)) (<[w := AtLoop]> (workers s))).
        -- apply H; try done; [by intros b [= <-]|]. intros e0 [= <-]. destruct Hor as [->|Hor]; [|by apply (k_error s Hk)].
           right. exists (S (completed s)). split; [|done]. rewrite (k_count s Hk), <- (k_length s Hk).
           destruct (k_working s Hk i) as [_ Hr]; [by eapply list_elem_of_lookup_2|].
           rewrite <- (done_count_insert _ _ v Hr), <- (length_insert (results s) i (Some v)). apply done_count_le.
        -- by rewrite (record_error_shape _ _ _ He').
      * apply (kept_settle s w i _ (Some v) (firstError s) Hk Hw);
          [intros j; by destruct (yields _)|by destruct (yields _)|by intros b [= <-]|apply (k_error s Hk)|].
        intros Hf. by split_and!; [|exists v|].
    + destruct (record_error_first e s) as (e' & He' & Hor).
      replace (set_worker w AtLoop (record_error e s)) with
          (mk_pool (nextIndex s) (Some e') (completed s) (results s) (<[w := AtLoop]> (workers s))).
      * apply (kept_settle s w i AtLoop None (Some e') Hk Hw); try done. intros e0 [= <-].
        destruct Hor as [->|Hor]; [left; by exists i|by apply (k_error s Hk)].
      * by rewrite (record_error_shape _ _ _ He').
  - by apply (kept_park s w Yielding).
Qed.

Lemma kept_run c s : rtc pool_step (start c) s → kept s.
Proof. intros H. revert s H. apply (rtc_ind_r (R:=pool_step) kept); [apply start_kept|]. intros a b _ H1 H2. by eapply kept_step. Qed.

Lemma workers_step s s' : pool_step s s' → length (workers s') = length (workers s).
Proof.
  intros [w Hs]. unfold advance in Hs. destruct (workers s !! w) as [[|i| |]|]; try done; injection Hs as <-.
  - unfold at_loop. destruct (firstError s); [fields; apply length_insert|].
    destruct (_ <=? _)%nat; fields; apply length_insert.
  - unfold settled. destruct (outcome i) as [v|e]; [destruct (onProgress _ _) as [e|]|]; fields; rewrite length_insert; try done;
      by rewrite (proj1 (record_error_same _ _)).
  - fields. apply length_insert.
Qed.

(** What the callers are promised: the values in the order of the items, or one
    of the failures. *)
Definition maps_in_order (r : list (option B) + E) : Prop :=
  match r with
  | inl vs => length vs = total ∧ ∀ i, (i < total)%nat → ∃ v, outcome i = inl v ∧ vs !! i = Some (Some v)
  | inr e => failure e
  end.

(** [C33] The worker pool implements a map: however the event loop interleaves its
    workers, at most [concurrency] items are in progress, each in one worker and
    none twice, and when every worker has returned, the pool returns the value of
    every item, in the order of the items, or throws the failure of one item or
    of the progress callback; and it returns values exactly when nothing failed. *)
Theorem pool_refines_map (concurrency : nat) (s : pool) :
  (0 < concurrency)%nat → rtc pool_step (start concurrency) s →
  length (workers s) = concurrency ∧
  (∀ w w' i, workers s !! w = Some (Working i) → workers s !! w' = Some (Working i) → w = w') ∧
  (∀ i, working s i → results s !! i = Some None) ∧
  (finished s → maps_in_order (returns s) ∧
    ((∀ i, (i < total)%nat → ∃ v, outcome i = inl v) → (∀ c, onProgress c total = None) →
      ∃ vs, returns s = inl vs)).
Proof.
  intros Hc Hrun. pose proof (kept_run _ _ Hrun) as Hk. assert (length (workers s) = concurrency) as Hlen.
  { clear Hk. revert s Hrun. apply (rtc_ind_r (R:=pool_step)); [apply repeat_length|].
    intros s1 s2 _ Hs IH. by rewrite (workers_step _ _ Hs). }
  split; [done|]. split; [apply (k_alone s Hk)|]. split; [intros i Hi; by apply (k_working s Hk)|].
  intros Hf. unfold finished in Hf. rewrite Forall_forall in Hf. split.
  - unfold maps_in_order, returns. destruct (firstError s) eqn:He; [by apply (k_error s Hk)|].
    split; [apply (k_length s Hk)|]. intros i Hi.
    assert (total ≤ nextIndex s)%nat as Hn.
    { apply (k_returned s Hk He). destruct (workers s) as [|p ps] eqn:Ew; [cbn in Hlen; lia|].
      rewrite (Hf p); by left. }
    destruct (k_covered s Hk He i) as [Hw|[v Hv]]; [lia|done| |].
    + apply Hf in Hw. discriminate Hw.
    + exists v. split; [by apply (k_result s Hk i v)|done].
  - intros Hall Hprog. unfold returns. destruct (firstError s) as [e|] eqn:He; [|by eexists].
    destruct (k_error s Hk e He) as [(i & Hi & Ho)|(c & _ & Hcp)].
    + destruct (Hall i Hi) as [v Hv]. by rewrite Hv in Ho.
    + by rewrite Hprog in Hcp.
Qed.

End pool.

Lemma weights_repeat c : weights (repeat AtLoop c) = c.
Proof. induction c as [|c IH]; cbn; [done|by rewrite IH]. Qed.

(** The call: [Math.max(1, Math.min(values.length, Math.floor(options.concurrency || 1)))] workers. *)
Definition concurrency_of (option : option jsnum) (total : nat) : nat :=
  match num_floor (default (NInt 1) option) with
  | NInt z => Nat.max 1 (Nat.min total (Z.to_nat z))
  | NInf false => Nat.max 1 total
  | _ => 1
  end.

Definition runBoundedWork {B E} (null_error : E → bool) (outcome : nat → B + E) (onProgress : nat → nat → option E)
    (yieldEvery total : nat) (concurrency : option jsnum) (r : list (option B) + E) : Prop :=
  if (total =? 0)%nat then r = inl [] else
  ∃ s, rtc (pool_step null_error outcome onProgress yieldEvery total) (start total (concurrency_of concurrency total)) s
    ∧ finished s ∧ r = returns s.

(** [C34] The pool always returns: whatever its items settle with, a run over [total]
    items has at most [3 * total] steps and one per worker, and
    [runBoundedWork] has a result. *)
Theorem pool_terminates {B E} (null_error : E → bool) (outcome : nat → B + E) (onProgress : nat → nat → option E)
    (yieldEvery total : nat) (concurrency : option jsnum) :
  let workers := concurrency_of concurrency total in
  (∀ n s, nsteps (pool_step null_error outcome onProgress yieldEvery total) n (start total workers) s →
    (n ≤ 3 * total + workers)%nat) ∧
  ∃ r, runBoundedWork null_error outcome onProgress yieldEvery total concurrency r.
Proof.
  intros c. split.
  - intros n s Hn.
    assert (∀ n a b, nsteps (pool_step null_error outcome onProgress yieldEvery total) n a b →
      n + remaining total b ≤ remaining total a)%nat as H.
    { clear. intros n a b H. induction H as [|n a b c [w Hs] _ IH]; [lia|].
      apply advance_decreases in Hs. lia. }
    specialize (H _ _ _ Hn). unfold remaining at 2, start in H. cbn [nextIndex Pool.workers] in H.
    rewrite weights_repeat in H. lia.
  - unfold runBoundedWork. destruct (total =? 0)%nat; [by eexists|].
    assert (∀ m s, (remaining total s ≤ m)%nat →
      ∃ s', rtc (pool_step null_error outcome onProgress yieldEvery total) s s' ∧ finished s') as H.
    { clear. induction m as [|m IH]; intros s Hm; (destruct (decide (finished s)) as [Hf|Hf]; [by exists s|]);
        destruct (unfinished_step null_error outcome onProgress yieldEvery total s Hf) as [s1 [w H1]];
        pose proof (advance_decreases _ _ _ _ _ _ _ _ H1); [lia|].
      destruct (IH s1) as (s2 & H2 & Hf2); [lia|]. exists s2. split; [|done]. eapply rtc_l; [by exists w|done]. }
    destruct (H _ (start total c) (le_n _)) as (s & Hs & Hf). exists (returns s), s. done.
Qed.

(** Two workers, three items, the second of which fails; a schedule in which the
    other worker has taken the last item before it does. *)
Definition sample_outcome (i : nat) : nat + string := if (i =? 1)%nat then inr "boom" else inl (10 * i)%nat.

Lemma pool_refines_map_witness :
  ∃ s, follow (λ _, false) sample_outcome (λ _ _, None) 0 3 [0; 1; 0; 0; 1; 0; 1; 0]%nat (start 3 2) = Some s ∧
    returns s = inr "boom"%string ∧ failure sample_outcome (λ _ _, None) 3 "boom"%string.
Proof.
  destruct (follow (λ _, false) sample_outcome (λ _ _, None) 0 3 [0; 1; 0; 0; 1; 0; 1; 0]%nat (start 3 2)) as [s|] eqn:H;
    [|vm_compute in H; discriminate H].
  exists s. split; [reflexivity|].
  assert (returns s = inr "boom"%string) as Hr by (vm_compute in H; injection H as <-; reflexivity).
  split; [exact Hr|].
  destruct (@pool_refines_map nat string (λ _, false) sample_outcome (λ _ _, None) 0 3 (λ _, eq_refl) 2 s) as (_ & _ & _ & Hf).
  - lia.
  - exact (follow_run _ _ _ _ _ _ _ _ H).
  - destruct Hf as [Hm _]; [vm_compute in H; injection H as <-; repeat constructor|]. by rewrite Hr in Hm.
Defined.

End Pool.
