(* ===== verification/MutationGate.v ===== *)
(** * The path mutation gate (obsidian-plugin/src/path-mutation-gate.cjs)

    The plugin wraps the methods of the vault adapter that change files, so that
    two operations on overlapping paths never run together. A claim on a set of
    paths waits until no running claim and no earlier waiting claim overlaps it.
    A step is the code that runs between two awaits; steps of different
    operations interleave freely. *)

From S2P Require Export ClientTrees Js.

Section gate.
Context `{U : Unicode}.

(** ** Footprints *)

(** [segments.pop()] for a dot-dot segment, nothing for an empty or a dot one. *)
Fixpoint resolve_segments (segments kept : list jstring) : list jstring :=
  match segments with
  | [] => rev kept
  | segment :: segments =>
    if (segment =s? []) || (segment =s? ".") then resolve_segments segments kept
    else if segment =s? ".." then resolve_segments segments (tail kept)
    else resolve_segments segments (segment :: kept)
  end.

Definition normalize (value : jstring) : jstring :=
  join_with SLASH (resolve_segments (split_on SLASH (nfc (replace_unit BACKSLASH SLASH value))) []).

Definition claimable (key : jstring) : bool := negb ((key =s? ".obts") || starts_with (lit ".obts/") key).

Definition footprint (paths : list jstring) : list jstring :=
  js_set (map to_lower (List.filter claimable (map normalize paths))).

Definition overlaps (a b : jstring) : bool :=
  (a =s? []) || (b =s? []) || (a =s? b) || starts_with (b ++ [SLASH]) a || starts_with (a ++ [SLASH]) b.
Definition conflicts (left right : list jstring) : bool :=
  existsb (λ a, existsb (λ b, overlaps a b) right) left.

(** The wrapped methods of the adapter, and the paths a wrapper claims. *)
Definition METHODS : list jstring :=
  lits ["write"; "writeBinary"; "append"; "appendBinary"; "process"; "mkdir"; "remove"; "rmdir"; "rename"; "copy";
        "trashLocal"; "trashSystem"; "writeBinaryExclusive"].
Definition wrapper_paths (method : jstring) (args : list jstring) : list jstring :=
  if (method =s? "rename") || (method =s? "copy") then take 2 args else take 1 args.

(** ** The gate *)

(** An operation, by the number of its call, and the paths it asks for. *)
Record claim := mk_claim { c_id : nat; c_keys : list jstring }.

#[export] Instance claim_eq_dec : EqDecision claim.
Proof. solve_decision. Defined.

(** [entering] are the calls before [await ready] returns, [unclaimed] the running
    operations that needed no claim, [calls] the number of calls of
    [withExclusive] so far. [installed] tells whether the adapter still carries the
    wrappers. *)
Record gate := mk_gate {
  active : list claim;
  pending : list claim;
  owners : list nat;
  retiring : bool;
  admitted : Z;
  entering : list (nat * list jstring);
  unclaimed : list nat;
  calls : nat;
  installed : bool
}.

Definition set_queues (a p : list claim) (g : gate) : gate :=
  mk_gate a p (owners g) (retiring g) (admitted g) (entering g) (unclaimed g) (calls g) (installed g).
Definition set_owners (o : list nat) (r : bool) (g : gate) : gate :=
  mk_gate (active g) (pending g) o r (admitted g) (entering g) (unclaimed g) (calls g) (installed g).
Definition set_calls (a : Z) (e : list (nat * list jstring)) (u : list nat) (g : gate) : gate :=
  mk_gate (active g) (pending g) (owners g) (retiring g) a e u (calls g) (installed g).

Definition createGate : gate := mk_gate [] [] [] false 0 [] [] 0 true.

Definition finishRetirement (g : gate) : gate :=
  if negb (retiring g) || negb (length (owners g) =? 0)%nat || negb (admitted g =? 0)%Z
     || negb (length (active g) =? 0)%nat || negb (length (pending g) =? 0)%nat then g
  else mk_gate (active g) (pending g) (owners g) (retiring g) (admitted g) (entering g) (unclaimed g) (calls g) false.

(** The loop of [pump] from index [index]: [before] are the claims it has passed,
    which stay pending, and [rest] the others. *)
Fixpoint pump_from (before rest : list claim) (act : list claim) : list claim * list claim :=
  match rest with
  | [] => (act, before)
  | c :: rest =>
    if existsb (λ other, conflicts (c_keys c) (c_keys other)) act
       || existsb (λ other, conflicts (c_keys c) (c_keys other)) before
    then pump_from (before ++ [c]) rest act
    else pump_from before rest (act ++ [c])
  end.
Definition pump (g : gate) : gate :=
  let '(a, p) := pump_from [] (pending g) (active g) in set_queues a p g.

Definition remove_id (id : nat) (l : list claim) : list claim := List.filter (λ c, negb (c_id c =? id)%nat) l.

(** [withExclusive], up to [await ready]. *)
Definition enter (paths : list jstring) (g : gate) : gate :=
  mk_gate (active g) (pending g) (owners g) (retiring g) (admitted g + 1) (entering g ++ [(calls g, paths)])
    (unclaimed g) (S (calls g)) (installed g).

(** The claim it makes then, or none. *)
Definition admit_claim (id : nat) (paths : list jstring) (g : gate) : gate :=
  let keys := footprint paths in
  let left := List.filter (λ e, negb (e.1 =? id)%nat) (entering g) in
  if (length keys =? 0)%nat then set_calls (admitted g) left (unclaimed g ++ [id]) g
  else pump (set_queues (active g) (pending g ++ [mk_claim id keys]) (set_calls (admitted g) left (unclaimed g) g)).

(** The [finally] block, after the operation returned or threw. *)
Definition release_claim (id : nat) (g : gate) : gate :=
  finishRetirement (pump (set_queues (remove_id id (active g)) (pending g) g)).
Definition leave (g : gate) : gate := finishRetirement (set_calls (admitted g - 1) (entering g) (unclaimed g) g).

Definition acquire (owner : nat) (g : gate) : gate := set_owners (owners g ++ [owner]) false g.
Definition release_owner (owner : nat) (g : gate) : gate :=
  if existsb (Nat.eqb owner) (owners g)
  then let left := List.filter (λ o, negb (o =? owner)%nat) (owners g) in
       finishRetirement (set_owners left (length left =? 0)%nat g)
  else g.

(** ** Interleavings *)

Definition ids (g : gate) : list nat :=
  map c_id (active g) ++ map c_id (pending g) ++ map fst (entering g) ++ unclaimed g.

Inductive event :=
| Enter (paths : list jstring)
| Admit (id : nat)
| Finish (id : nat)
| Acquire (owner : nat)
| Release (owner : nat).

(** What the event loop may run next. [installPathMutationGate] finds the gate of
    an adapter in a registry, from which a retired gate is deleted. *)
Inductive gate_step : gate → event → gate → Prop :=
| step_enter g paths : gate_step g (Enter paths) (enter paths g)
| step_admit g id paths : (id, paths) ∈ entering g → gate_step g (Admit id) (admit_claim id paths g)
| step_finish_claim g c : c ∈ active g → gate_step g (Finish (c_id c)) (leave (release_claim (c_id c) g))
| step_finish_free g id : id ∈ unclaimed g →
    gate_step g (Finish id)
      (leave (set_calls (admitted g) (entering g) (List.filter (λ i, negb (i =? id)%nat) (unclaimed g)) g))
| step_acquire g owner : installed g = true → owner ∉ owners g → gate_step g (Acquire owner) (acquire owner g)
| step_release g owner : gate_step g (Release owner) (release_owner owner g).

Inductive gate_run : gate → list event → gate → Prop :=
| run_nil g : gate_run g [] g
| run_cons g e g' es g'' : gate_step g e g' → gate_run g' es g'' → gate_run g (e :: es) g''.

(** The same, as a function. *)
Definition exec (e : event) (g : gate) : option gate :=
  match e with
  | Enter paths => Some (enter paths g)
  | Admit id =>
    match find (λ x, (x.1 =? id)%nat) (entering g) with Some x => Some (admit_claim id x.2 g) | None => None end
  | Finish id =>
    if existsb (λ c, (c_id c =? id)%nat) (active g) then Some (leave (release_claim id g))
    else if existsb (Nat.eqb id) (unclaimed g)
    then Some (leave (set_calls (admitted g) (entering g) (List.filter (λ i, negb (i =? id)%nat) (unclaimed g)) g))
    else None
  | Acquire owner => if installed g && negb (existsb (Nat.eqb owner) (owners g)) then Some (acquire owner g) else None
  | Release owner => Some (release_owner owner g)
  end.
Fixpoint execs (es : list event) (g : gate) : option gate :=
  match es with [] => Some g | e :: es => match exec e g with Some g => execs es g | None => None end end.

Lemma exec_step e g g' : exec e g = Some g' → gate_step g e g'.
Proof.
  destruct e as [paths|id|id|owner|owner]; cbn.
  - intros [= <-]. constructor.
  - destruct (find _ _) as [[i paths]|] eqn:E; [|done]. intros [= <-]. apply find_some in E as [Hin E].
    apply Nat.eqb_eq in E. cbn in E. subst i. constructor. by rewrite list_elem_of_In.
  - destruct (existsb _ (active g)) eqn:E.
    + intros [= <-]. apply existsb_exists in E as (c & Hin & E). apply Nat.eqb_eq in E. subst id. constructor.
      by rewrite list_elem_of_In.
    + destruct (existsb _ (unclaimed g)) eqn:E'; [|done]. intros [= <-]. apply existsb_exists in E' as (i & Hin & E').
      apply Nat.eqb_eq in E'. subst i. constructor. by rewrite list_elem_of_In.
  - destruct (installed g) eqn:Ei; [|done]. destruct (existsb _ _) eqn:E; [done|]. intros [= <-]. constructor; [done|].
    intros Hin. apply not_true_iff_false in E. apply E, existsb_exists. exists owner. rewrite list_elem_of_In in Hin.
    split; [done|apply Nat.eqb_refl].
  - intros [= <-]. constructor.
Qed.

Lemma execs_run es g g' : execs es g = Some g' → gate_run g es g'.
Proof.
  revert g. induction es as [|e es IH]; intros g; cbn; [intros [= <-]; constructor|].
  destruct (exec e g) as [g1|] eqn:E; [|done]. intros H. econstructor; [by apply exec_step|by apply IH].
Qed.

(** ** The invariant *)

(** Claims that may run together. *)
Definition apart (a b : claim) : Prop := conflicts (c_keys a) (c_keys b) = false.

(** A waiting claim overlaps a running one or one that waits before it. *)
Fixpoint all_blocked (act before rest : list claim) : Prop :=
  match rest with
  | [] => True
  | c :: rest => (∃ other, other ∈ act ++ before ∧ conflicts (c_keys c) (c_keys other) = true)
                 ∧ all_blocked act (before ++ [c]) rest
  end.

Record sound (g : gate) : Prop := {
  g_apart : ∀ a b, a ∈ active g → b ∈ active g → a ≠ b → apart a b;
  g_blocked : all_blocked (active g) [] (pending g);
  g_ids : NoDup (ids g);
  g_calls : Forall (λ id, (id < calls g)%nat) (ids g);
  g_admitted : admitted g = Z.of_nat (length (ids g))
}.

Lemma overlaps_sym a b : overlaps a b = overlaps b a.
Proof.
  unfold overlaps. rewrite (jeqb_sym a b). destruct (a =s? []), (b =s? []), (b =s? a); cbn; try done.
  apply orb_comm.
Qed.

Lemma conflicts_spec l k : conflicts l k = true ↔ ∃ a b, a ∈ l ∧ b ∈ k ∧ overlaps a b = true.
Proof.
  unfold conflicts. rewrite existsb_exists. setoid_rewrite existsb_exists. setoid_rewrite <- list_elem_of_In. naive_solver.
Qed.

Lemma conflicts_sym l k : conflicts l k = conflicts k l.
Proof.
  apply eq_true_iff_eq. rewrite !conflicts_spec. split; intros (a & b & Ha & Hb & H); exists b, a; by rewrite overlaps_sym.
Qed.

Lemma apart_sym a b : apart a b → apart b a.
Proof. unfold apart. by rewrite conflicts_sym. Qed.

Lemma all_blocked_snoc act before l c : all_blocked act before (l ++ [c]) ↔
  all_blocked act before l ∧ ∃ other, other ∈ act ++ before ++ l ∧ conflicts (c_keys c) (c_keys other) = true.
Proof.
  revert before. induction l as [|x l IH]; intros before; cbn [all_blocked app].
  - rewrite app_nil_r. tauto.
  - rewrite IH, <- app_assoc. cbn [app]. tauto.
Qed.

Lemma all_blocked_more act act' before l : (∀ o, o ∈ act → o ∈ act') → all_blocked act before l → all_blocked act' before l.
Proof.
  intros H. revert before. induction l as [|c l IH]; intros before; cbn; [done|].
  intros [(o & Ho & Hc) Hl]. split; [|by apply IH]. exists o. split; [|done]. rewrite elem_of_app in *. naive_solver.
Qed.

(** *** The pump *)

Definition all_apart (l : list claim) : Prop := ∀ a b, a ∈ l → b ∈ l → a ≠ b → apart a b.

Lemma not_conflicting c l : existsb (λ other, conflicts (c_keys c) (c_keys other)) l = false → ∀ o, o ∈ l → apart c o.
Proof.
  intros H o Ho. unfold apart. apply not_true_iff_false. intros Hc. apply not_true_iff_false in H. apply H, existsb_exists.
  exists o. by rewrite <- list_elem_of_In.
Qed.

Lemma pump_from_spec rest : ∀ before act, all_apart act → all_blocked act [] before →
  let '(a, p) := pump_from before rest act in
  all_apart a ∧ all_blocked a [] p ∧ a ++ p ≡ₚ act ++ before ++ rest.
Proof.
  induction rest as [|c rest IH]; intros before act Ha Hb; cbn [pump_from].
  { by rewrite app_nil_r. }
  destruct (existsb _ act || existsb _ before) eqn:E.
  - specialize (IH (before ++ [c]) act Ha). destruct (pump_from (before ++ [c]) rest act) as [a p].
    destruct IH as (H1 & H2 & H3).
    { apply all_blocked_snoc. split; [done|]. apply orb_true_iff in E.
      destruct E as [E|E]; apply existsb_exists in E as (o & Ho & Hc); rewrite <- list_elem_of_In in Ho; exists o;
        cbn [app]; rewrite elem_of_app; tauto. }
    split_and!; try done. rewrite H3. by rewrite <- !app_assoc.
  - apply orb_false_iff in E as [E1 E2]. pose proof (not_conflicting _ _ E1) as Hc1. pose proof (not_conflicting _ _ E2) as Hc2.
    specialize (IH before (act ++ [c])). destruct (pump_from before rest (act ++ [c])) as [a p].
    destruct IH as (H1 & H2 & H3).
    + intros x y Hx Hy Hne. rewrite elem_of_app, list_elem_of_singleton in Hx, Hy.
      destruct Hx as [Hx| ->], Hy as [Hy| ->]; [by apply Ha|by apply apart_sym, Hc1|by apply Hc1|done].
    + eapply all_blocked_more; [|exact Hb]. intros. apply elem_of_app. by left.
    + split_and!; try done.
      rewrite H3. rewrite <- !app_assoc. cbn [app]. apply Permutation_app_head. apply (Permutation_middle before rest c).
Qed.

Lemma pump_sound g : all_apart (active g) →
  all_apart (active (pump g)) ∧ all_blocked (active (pump g)) [] (pending (pump g)) ∧
  active (pump g) ++ pending (pump g) ≡ₚ active g ++ pending g.
Proof.
  intros Ha. unfold pump. pose proof (pump_from_spec (pending g) [] (active g) Ha I) as H.
  destruct (pump_from [] (pending g) (active g)) as [a p]. cbn. tauto.
Qed.

Lemma pump_fields g : owners (pump g) = owners g ∧ retiring (pump g) = retiring g ∧ admitted (pump g) = admitted g ∧
  entering (pump g) = entering g ∧ unclaimed (pump g) = unclaimed g ∧ calls (pump g) = calls g ∧ installed (pump g) = installed g.
Proof. unfold pump. by destruct (pump_from [] (pending g) (active g)). Qed.

Lemma pump_ids g : all_apart (active g) → ids (pump g) ≡ₚ ids g.
Proof.
  intros Ha. destruct (pump_sound g Ha) as (_ & _ & H). destruct (pump_fields g) as (_ & _ & _ & He & Hu & _).
  unfold ids. rewrite He, Hu, !app_assoc, <- !map_app. by rewrite H.
Qed.

(** [finishRetirement] changes nothing but the wrappers. *)
Lemma finish_fields g : active (finishRetirement g) = active g ∧ pending (finishRetirement g) = pending g ∧
  owners (finishRetirement g) = owners g ∧ admitted (finishRetirement g) = admitted g ∧
  entering (finishRetirement g) = entering g ∧ unclaimed (finishRetirement g) = unclaimed g ∧
  calls (finishRetirement g) = calls g.
Proof. unfold finishRetirement. by destruct (_ || _). Qed.

Lemma finish_sound g : sound g → sound (finishRetirement g).
Proof.
  intros [H1 H2 H3 H4 H5]. destruct (finish_fields g) as (E1 & E2 & E3 & E4 & E5 & E6 & E7).
  split; unfold ids; rewrite ?E1, ?E2, ?E3, ?E4, ?E5, ?E6, ?E7; done.
Qed.

Lemma remove_perm {A} (key : A → nat) (l : list A) x : NoDup (map key l) → x ∈ l →
  map key l ≡ₚ key x :: map key (List.filter (λ y, negb (key y =? key x)%nat) l).
Proof.
  induction l as [|y l IH]; cbn [map]; intros Hnd Hx; [by apply not_elem_of_nil in Hx|].
  apply NoDup_cons in Hnd as [Hy Hnd]. apply elem_of_cons in Hx as [->|Hx].
  - cbn [List.filter]. rewrite Nat.eqb_refl. cbn [negb]. rewrite filter_all; [done|].
    intros z Hz. apply negb_true_iff, Nat.eqb_neq. intros E. apply Hy. rewrite <- E. by apply list_elem_of_fmap_2.
  - cbn [List.filter]. destruct (key y =? key x)%nat eqn:E; cbn [negb].
    + apply Nat.eqb_eq in E. destruct Hy. rewrite E. by apply list_elem_of_fmap_2.
    + cbn [map]. rewrite (IH Hnd Hx) at 1. constructor.
Qed.

(** A gate whose queues are about to be pumped. *)
Lemma pumped_sound g g0 : all_apart (active g0) → ids g0 ≡ₚ ids g → calls g0 = calls g → admitted g0 = admitted g →
  NoDup (ids g) → Forall (λ id, (id < calls g)%nat) (ids g) → admitted g = Z.of_nat (length (ids g)) → sound (pump g0).
Proof.
  intros Ha Hids Hc Had H3 H4 H5. destruct (pump_sound g0 Ha) as (P1 & P2 & _).
  destruct (pump_fields g0) as (_ & _ & P3 & _ & _ & P4 & _). pose proof (pump_ids g0 Ha) as P5. rewrite Hids in P5.
  split; [done|done|by rewrite P5| |].
  - rewrite P4, Hc. by rewrite P5.
  - by rewrite P3, Had, P5.
Qed.

Lemma ids_of_parts g : NoDup (ids g) →
  NoDup (map c_id (active g)) ∧ NoDup (map c_id (pending g)) ∧ NoDup (map fst (entering g)) ∧ NoDup (unclaimed g).
Proof. unfold ids. rewrite !NoDup_app. tauto. Qed.

Lemma step_sound g e g' : sound g → gate_step g e g' → sound g'.
Proof.
  intros [H1 H2 H3 H4 H5] Hs. pose proof (ids_of_parts g H3) as (Na & Np & Ne & Nu).
  destruct Hs as [g paths|g id paths Hin|g c Hin|g id Hin|g owner|g owner].
  - assert (ids (enter paths g) ≡ₚ calls g :: ids g) as Hids.
    { unfold ids, enter. cbn. rewrite map_app. cbn. rewrite <- !app_assoc. cbn. by rewrite !Permutation_middle. }
    split; try done.
    + rewrite Hids. apply NoDup_cons. split; [|done]. intros Hc. rewrite Forall_forall in H4. apply H4 in Hc. lia.
    + rewrite Hids. cbn. constructor; [lia|]. eapply Forall_impl; [exact H4|]. cbn. lia.
    + rewrite Hids. cbn [admitted enter length]. lia.
  - pose proof (remove_perm fst _ _ Ne Hin) as Hp. cbn [fst] in Hp. unfold admit_claim.
    destruct (length (footprint paths) =? 0)%nat.
    + set (g' := set_calls _ _ _ _). assert (ids g' ≡ₚ ids g) as Hids.
      { unfold ids, g', set_calls. cbn. rewrite Hp. rewrite (app_assoc (map fst _)). rewrite <- Permutation_cons_append.
        cbn. done. }
      split; try done; rewrite Hids; done.
    + apply (pumped_sound g); try done. unfold ids. cbn. rewrite map_app, Hp. cbn. rewrite <- !app_assoc. cbn.
      by rewrite !Permutation_middle.
  - pose proof (remove_perm c_id _ _ Na Hin) as Hp. fold (remove_id (c_id c) (active g)) in Hp.
    apply finish_sound. unfold leave.
    set (g0 := set_queues (remove_id (c_id c) (active g)) (pending g) g).
    assert (all_apart (active g0)) as Ha.
    { intros a b Ha Hb. cbn in Ha, Hb. unfold remove_id in Ha, Hb. rewrite filter_elem in Ha, Hb. apply H1; tauto. }
    assert (ids g ≡ₚ c_id c :: ids g0) as Hids by (unfold ids; cbn; by rewrite Hp).
    rewrite Hids in H3, H4, H5. apply NoDup_cons in H3 as [_ H3]. apply Forall_cons in H4 as [_ H4].
    destruct (pump_sound g0 Ha) as (P1 & P2 & _). pose proof (pump_ids g0 Ha) as P5.
    destruct (pump_fields g0) as (_ & _ & P3 & P6 & P7 & P4 & _).
    unfold release_claim. fold g0. destruct (finish_fields (pump g0)) as (E1 & E2 & E3 & E4 & E5 & E6 & E7).
    split; unfold ids; cbn; rewrite ?E1, ?E2, ?E3, ?E4, ?E5, ?E6, ?E7, ?P3; fold (ids (pump g0)); try done.
    + by rewrite P5.
    + rewrite P4. by rewrite P5.
    + rewrite P5. cbn [length] in H5. change (admitted g0) with (admitted g). lia.
  - apply finish_sound. set (left := List.filter _ (unclaimed g)).
    assert (unclaimed g ≡ₚ id :: left) as Hp.
    { pose proof (remove_perm (λ i : nat, i) (unclaimed g) id) as Hr. rewrite !map_id in Hr. by apply Hr. }
    assert (ids g ≡ₚ id :: ids (set_calls (admitted g - 1) (entering g) left g)) as Hids.
    { unfold ids, set_calls. cbn. rewrite Hp. by rewrite !Permutation_middle. }
    rewrite Hids in H3, H4, H5. apply NoDup_cons in H3 as [_ H3]. apply Forall_cons in H4 as [_ H4].
    set (g1 := set_calls (admitted g - 1) (entering g) left g) in *. change (sound g1).
    split; try done. cbn [length] in H5. change (admitted g1) with (admitted g - 1)%Z. lia.
  - done.
  - unfold release_owner. destruct (existsb _ _); [apply finish_sound|]; done.
Qed.

Lemma gate_run_sound es g g' : sound g → gate_run g es g' → sound g'.
Proof. intros Hg H. induction H as [|g e g1 es g2 Hs Hr IH]; [done|]. by apply IH, (step_sound g e). Qed.

Lemma gate_create_sound : sound createGate.
Proof. split; cbn; try constructor. intros a b Ha. by apply not_elem_of_nil in Ha. Qed.

(** *** Calls come and go once *)

Lemma step_ids g e g' : sound g → gate_step g e g' →
  match e with
  | Enter _ => ids g' ≡ₚ calls g :: ids g ∧ calls g' = S (calls g)
  | Finish id => ids g ≡ₚ id :: ids g' ∧ calls g' = calls g
  | _ => ids g' ≡ₚ ids g ∧ calls g' = calls g
  end.
Proof.
  intros [H1 H2 H3 H4 H5] Hs. pose proof (ids_of_parts g H3) as (Na & Np & Ne & Nu).
  destruct Hs as [g paths|g id paths Hin|g c Hin|g id Hin|g owner|g owner].
  - split; [|done]. unfold ids, enter. cbn. rewrite map_app. cbn. rewrite <- !app_assoc. cbn. by rewrite !Permutation_middle.
  - pose proof (remove_perm fst _ _ Ne Hin) as Hp. cbn [fst] in Hp. unfold admit_claim.
    destruct (length (footprint paths) =? 0)%nat.
    + split; [|done]. unfold ids, set_calls. cbn. rewrite Hp, (app_assoc (map fst _)), <- Permutation_cons_append. done.
    + destruct (pump_fields (set_queues (active g) (pending g ++ [mk_claim id (footprint paths)])
        (set_calls (admitted g) (List.filter (λ e, negb (e.1 =? id)%nat) (entering g)) (unclaimed g) g)))
        as (_ & _ & _ & _ & _ & -> & _).
      split; [|done]. rewrite pump_ids by done. unfold ids. cbn. rewrite map_app, Hp. cbn. rewrite <- !app_assoc. cbn.
      by rewrite !Permutation_middle.
  - pose proof (remove_perm c_id _ _ Na Hin) as Hp. fold (remove_id (c_id c) (active g)) in Hp.
    unfold leave, release_claim. set (g0 := set_queues (remove_id (c_id c) (active g)) (pending g) g).
    assert (all_apart (active g0)) as Ha.
    { intros a b Ha Hb. cbn in Ha, Hb. unfold remove_id in Ha, Hb. rewrite filter_elem in Ha, Hb. apply H1; tauto. }
    pose proof (pump_ids g0 Ha) as P5. destruct (pump_fields g0) as (_ & _ & _ & _ & _ & P4 & _).
    destruct (finish_fields (pump g0)) as (E1 & E2 & E3 & E4 & E5 & E6 & E7).
    set (g1 := finishRetirement (pump g0)) in *. destruct (finish_fields (set_calls (admitted g1 - 1) (entering g1) (unclaimed g1) g1))
      as (F1 & F2 & F3 & F4 & F5 & F6 & F7).
    split; [|rewrite F7; cbn; by rewrite E7, P4]. unfold ids at 2. rewrite F1, F2, F5, F6. cbn [set_calls active pending entering unclaimed].
    rewrite E1, E2, E5, E6. fold (ids (pump g0)). rewrite P5. unfold ids. cbn. by rewrite Hp.
  - set (left := List.filter _ (unclaimed g)).
    assert (unclaimed g ≡ₚ id :: left) as Hp.
    { pose proof (remove_perm (λ i : nat, i) (unclaimed g) id) as Hr. rewrite !map_id in Hr. by apply Hr. }
    set (g1 := set_calls (admitted g - 1) (entering g) left g).
    change (ids g ≡ₚ id :: ids (finishRetirement g1) ∧ calls (finishRetirement g1) = calls g).
    destruct (finish_fields g1) as (F1 & F2 & F3 & F4 & F5 & F6 & F7). rewrite F7. split; [|done].
    unfold ids. rewrite F1, F2, F5, F6. cbn. rewrite Hp. by rewrite !Permutation_middle.
  - done.
  - unfold release_owner. destruct (existsb _ _); [|done]. unfold ids.
    match goal with |- context [finishRetirement ?x] => destruct (finish_fields x) as (F1 & F2 & F3 & F4 & F5 & F6 & F7) end.
    by rewrite F1, F2, F5, F6, F7.
Qed.

Definition gone (id : nat) (g : gate) : Prop := (id < calls g)%nat ∧ id ∉ ids g.

Lemma gone_step id g e g' : sound g → gate_step g e g' → gone id g → gone id g'.
Proof.
  intros Hg Hs [H1 H2]. pose proof (step_ids g e g' Hg Hs) as H.
  destruct e; destruct H as [H Hc]; unfold gone; rewrite Hc; (split; [lia|]); try (by rewrite H).
  - rewrite H, elem_of_cons. intros [->|Hi]; [lia|done].
  - intros Hi. apply H2. rewrite H. by right.
Qed.

Lemma finished_gone es g g' id : sound g → gate_run g es g' → Finish id ∈ es → gone id g'.
Proof.
  intros Hg Hr. revert Hg. induction Hr as [|g e g1 es g2 Hs Hr IH]; intros Hg Hin; [by apply not_elem_of_nil in Hin|].
  pose proof (step_sound g e g1 Hg Hs) as Hg1. apply elem_of_cons in Hin as [<-|Hin]; [|by apply IH].
  assert (gone id g1) as H0.
  { destruct (step_ids g _ g1 Hg Hs) as [Hp Hc]. pose proof (g_calls g Hg) as H4. pose proof (g_ids g Hg) as H3.
    rewrite Hp in H3, H4. apply NoDup_cons in H3 as [H3 _]. apply Forall_cons in H4 as [H4 _]. split; [by rewrite Hc|done]. }
  clear IH Hs Hg. induction Hr as [|g1 e g3 es g2 Hs Hr IH]; [done|]. apply IH; [by apply (step_sound g1 e)|by apply (gone_step id g1 e)].
Qed.

(** *** What a waiting claim waits for *)

Lemma blocked_by act before l c k : all_blocked act before (l ++ c :: k) →
  ∃ other, other ∈ act ++ before ++ l ∧ conflicts (c_keys c) (c_keys other) = true.
Proof.
  revert before. induction l as [|x l IH]; intros before; cbn [all_blocked app]; [rewrite app_nil_r; tauto|].
  intros [_ H]. destruct (IH _ H) as (o & Ho & Hc). exists o. by rewrite <- app_assoc in Ho.
Qed.

Lemma pump_from_keeps rest : ∀ before act, let '(a, p) := pump_from before rest act in ∀ o, o ∈ act → o ∈ a.
Proof.
  induction rest as [|c rest IH]; intros before act; cbn [pump_from]; [done|]. destruct (_ || _); [apply IH|].
  specialize (IH before (act ++ [c])). destruct (pump_from before rest (act ++ [c])). intros o Ho. apply IH, elem_of_app. by left.
Qed.

Lemma pump_from_passed rest : ∀ before act, let '(a, p) := pump_from before rest act in
  (∃ k, p = before ++ k) ∧ ∀ o c, o ∈ a → c ∈ before → o ∈ act ∨ apart o c.
Proof.
  induction rest as [|c rest IH]; intros before act; cbn [pump_from].
  { split; [exists []; by rewrite app_nil_r|by left]. }
  destruct (existsb _ act || existsb _ before) eqn:E.
  - specialize (IH (before ++ [c]) act). destruct (pump_from (before ++ [c]) rest act) as [a p].
    destruct IH as ([k ->] & H). split; [exists (c :: k); by rewrite <- app_assoc|].
    intros o d Ho Hd. apply H; [done|]. apply elem_of_app. by left.
  - apply orb_false_iff in E as [_ E]. specialize (IH before (act ++ [c])).
    destruct (pump_from before rest (act ++ [c])) as [a p]. destruct IH as (Hk & H). split; [done|].
    intros o d Ho Hd. destruct (H o d Ho Hd) as [Hin|]; [|by right]. apply elem_of_app in Hin as [|Hin]; [by left|].
    apply list_elem_of_singleton in Hin as ->. right. by apply (not_conflicting c before).
Qed.

Lemma pump_from_perm rest : ∀ before act, let '(a, p) := pump_from before rest act in a ++ p ≡ₚ act ++ before ++ rest.
Proof.
  induction rest as [|c rest IH]; intros before act; cbn [pump_from]; [by rewrite app_nil_r|]. destruct (_ || _).
  - specialize (IH (before ++ [c]) act). destruct (pump_from (before ++ [c]) rest act). rewrite IH. by rewrite <- !app_assoc.
  - specialize (IH before (act ++ [c])). destruct (pump_from before rest (act ++ [c])). rewrite IH, <- !app_assoc. cbn [app].
    apply Permutation_app_head. apply (Permutation_middle before rest c).
Qed.

(** A claim that stays pending through a pump: it waits behind the claims it
    waited behind, and what passed it does not overlap it. *)
Lemma pump_from_behind c k : ∀ l before act, c ∉ act → c ∉ l ++ k →
  let '(a, p) := pump_from before (l ++ c :: k) act in
  c ∈ a ∨ (∃ l' k', p = l' ++ c :: k' ∧ (∀ o, o ∈ l' → o ∈ before ++ l)) ∧ (∀ o, o ∈ a → o ∈ act ∨ o ∈ l ∨ apart o c).
Proof.
  induction l as [|x l IH]; intros before act Hact Hl; cbn [pump_from app].
  - destruct (existsb _ act || existsb _ before) eqn:E.
    + pose proof (pump_from_passed k (before ++ [c]) act) as H.
      destruct (pump_from (before ++ [c]) k act) as [a p]. destruct H as ([k' ->] & H). right. split.
      * exists before, k'. split; [by rewrite <- app_assoc|]. intros o Ho. by rewrite app_nil_r.
      * intros o Ho. destruct (H o c Ho) as [|]; [|by left|by right; right]. apply elem_of_app. right. by left.
    + pose proof (pump_from_keeps k before (act ++ [c])) as H. destruct (pump_from before k (act ++ [c])) as [a p].
      left. apply H, elem_of_app. right. by left.
  - apply not_elem_of_cons in Hl as [Hx Hl]. destruct (existsb _ act || existsb _ before) eqn:E.
    + specialize (IH (before ++ [x]) act Hact Hl). destruct (pump_from (before ++ [x]) (l ++ c :: k) act) as [a p].
      destruct IH as [|[(l' & k' & -> & H) H']]; [by left|right]. split.
      * exists l', k'. split; [done|]. intros o Ho. specialize (H o Ho). rewrite <- app_assoc in H. exact H.
      * intros o Ho. destruct (H' o Ho) as [|[|]]; [by left|right; left; by right|by right; right].
    + specialize (IH before (act ++ [x])). destruct (pump_from before (l ++ c :: k) (act ++ [x])) as [a p].
      destruct IH as [|[(l' & k' & -> & H) H']]; [rewrite elem_of_app, list_elem_of_singleton; tauto|done|by left|right]. split.
      * exists l', k'. split; [done|]. intros o Ho. specialize (H o Ho). rewrite elem_of_app in *. rewrite elem_of_cons. tauto.
      * intros o Ho. destruct (H' o Ho) as [Hin|[|]]; [|right; left; by right|by right; right].
        apply elem_of_app in Hin as [|Hin]; [by left|]. apply list_elem_of_singleton in Hin as ->. right. left. by left.
Qed.

(** [ahead] are the claims that were ahead of [c] at some time; while [c] waits,
    whatever else runs does not overlap it. *)
Definition tracked (ahead : list claim) (c : claim) (g : gate) : Prop :=
  c_id c ∉ map fst (entering g) ∧ (c_id c < calls g)%nat ∧
  (c ∈ pending g → (∃ l k, pending g = l ++ c :: k ∧ ∀ o, o ∈ l → o ∈ ahead) ∧
                   ∀ o, o ∈ active g → o ∈ ahead ∨ apart o c).

Lemma pump_tracked ahead c g : NoDup (map c_id (active g) ++ map c_id (pending g)) → tracked ahead c g → tracked ahead c (pump g).
Proof.
  intros Hnd (H1 & H2 & H3). destruct (pump_fields g) as (_ & _ & _ & E1 & _ & E2 & _).
  unfold tracked. rewrite E1, E2. split; [done|]. split; [done|].
  unfold pump. pose proof (pump_from_spec (pending g) [] (active g)) as Hspec.
  destruct (decide (c ∈ pending g)) as [Hin|Hin].
  - destruct (H3 Hin) as [(l & k & Hp & Hl) Ha]. rewrite Hp in *.
    assert (c ∉ active g ∧ c ∉ l ++ k) as [Hca Hcl].
    { rewrite map_app in Hnd. cbn in Hnd. rewrite <- Permutation_middle, <- Permutation_middle in Hnd.
      apply NoDup_cons in Hnd as [Hnd _]. rewrite !elem_of_app in Hnd.
      split; intros Hc; apply Hnd; [left; by apply list_elem_of_fmap_2|right].
      apply elem_of_app in Hc as [Hc|Hc]; [left|right]; by apply list_elem_of_fmap_2. }
    pose proof (pump_from_behind c k l [] (active g) Hca Hcl) as Hb. clear Hspec.
    destruct (pump_from [] (l ++ c :: k) (active g)) as [a p] eqn:Epump. cbn. intros Hcp.
    destruct Hb as [Hca'|[(l' & k' & -> & Hl') Ho]].
    + exfalso. pose proof (pump_from_perm (l ++ c :: k) [] (active g)) as Hperm. rewrite Epump in Hperm.
      assert (NoDup (map c_id (a ++ p))) as Hnd'.
      { rewrite Hperm. by rewrite map_app. }
      rewrite map_app in Hnd'. apply NoDup_app in Hnd' as (_ & Hd & _). apply (Hd (c_id c)); by apply list_elem_of_fmap_2.
    + split.
      * exists l', k'. split; [done|]. intros o Hol. apply Hl. specialize (Hl' o Hol). exact Hl'.
      * intros o Hoa. destruct (Ho o Hoa) as [Hx|[Hx|Hx]]; [by apply Ha|left; by apply Hl|by right].
  - pose proof (pump_from_perm (pending g) [] (active g)) as Hperm.
    destruct (pump_from [] (pending g) (active g)) as [a p] eqn:Epump. cbn. intros Hcp. exfalso.
    assert (c ∈ active g ++ [] ++ pending g) as Hc by (rewrite <- Hperm; apply elem_of_app; by right).
    cbn in Hc. apply elem_of_app in Hc as [Hc|Hc]; [|done].
    pose proof (pump_from_keeps (pending g) [] (active g)) as Hkeep. rewrite Epump in Hkeep.
    assert (NoDup (map c_id (a ++ p))) as Hnd' by (rewrite Hperm; by rewrite map_app).
    rewrite map_app in Hnd'. apply NoDup_app in Hnd' as (_ & Hd & _). apply (Hd (c_id c)); apply list_elem_of_fmap_2; [by apply Hkeep|done].
Qed.

Lemma finish_tracked ahead c g : tracked ahead c g → tracked ahead c (finishRetirement g).
Proof. unfold tracked. destruct (finish_fields g) as (-> & -> & _ & _ & -> & _ & ->). done. Qed.

Lemma queue_ids g : NoDup (ids g) → NoDup (map c_id (active g) ++ map c_id (pending g)).
Proof. unfold ids. rewrite app_assoc. by intros [? _]%NoDup_app. Qed.

Lemma step_tracked ahead c g e g' : sound g → gate_step g e g' → tracked ahead c g → tracked ahead c g'.
Proof.
  intros Hg Hs (H1 & H2 & H3). pose proof (g_ids g Hg) as Hnd.
  destruct Hs as [g paths|g id paths Hin|g o Hin|g id Hin|g owner|g owner].
  - split; [|split; [cbn; lia|done]]. cbn. rewrite map_app, elem_of_app. cbn. rewrite list_elem_of_singleton. intros [?|E]; [done|].
    lia.
  - assert (id ≠ c_id c) as Hne.
    { intros ->. apply H1. by apply (list_elem_of_fmap_2 fst _ (c_id c, paths)). }
    assert (∀ x, x ∉ map fst (entering g) → x ∉ map fst (List.filter (λ e, negb (e.1 =? id)%nat) (entering g))) as Hsub.
    { intros x Hx (y & -> & [Hy _]%filter_elem)%list_elem_of_fmap. apply Hx. by apply list_elem_of_fmap_2. }
    unfold admit_claim. destruct (_ =? 0)%nat; [split; [by apply Hsub|done]|].
    apply pump_tracked.
    + cbn. rewrite map_app. cbn. rewrite app_assoc. apply NoDup_app. split; [by apply queue_ids|]. split; [|apply NoDup_singleton].
      intros x Hx ->%list_elem_of_singleton. unfold ids in Hnd. rewrite app_assoc in Hnd. apply NoDup_app in Hnd as (_ & Hd & _).
      apply (Hd id Hx), elem_of_app. left. by apply (list_elem_of_fmap_2 fst _ (id, paths)).
    + split; [by apply Hsub|]. split; [done|]. cbn. intros Hc.
      assert (c ∈ pending g) as Hcp.
      { apply elem_of_app in Hc as [|Hc]; [done|]. apply list_elem_of_singleton in Hc as ->. done. }
      destruct (H3 Hcp) as [(l & k & -> & Hl) Ha]. split; [|done]. exists l, (k ++ [mk_claim id (footprint paths)]).
      by rewrite <- app_assoc.
  - apply finish_tracked. unfold leave, release_claim.
    assert (tracked ahead c (pump (set_queues (remove_id (c_id o) (active g)) (pending g) g))) as H.
    { apply pump_tracked.
      - cbn. apply queue_ids in Hnd. eapply sublist_NoDup; [exact Hnd|]. apply sublist_app; [|done].
        apply fmap_sublist. unfold remove_id. clear. induction (active g) as [|x l IH]; cbn; [done|].
        destruct (negb _); by constructor.
      - split; [done|]. split; [done|]. cbn. intros Hc. destruct (H3 Hc) as [Hl Ha]. split; [done|].
        intros x [Hx _]%filter_elem. by apply Ha. }
    apply finish_tracked in H. exact H.
  - apply finish_tracked. done.
  - done.
  - unfold release_owner. destruct (existsb _ _); [apply finish_tracked|]; done.
Qed.

Lemma run_tracked ahead c es g g' : sound g → gate_run g es g' → tracked ahead c g → tracked ahead c g'.
Proof.
  intros Hg H. revert Hg. induction H as [|g e g1 es g2 Hs Hr IH]; intros Hg Ht; [done|].
  apply IH; [by apply (step_sound g e)|by apply (step_tracked ahead c g e)].
Qed.

Lemma finish_retires g : installed g = true → installed (finishRetirement g) = false →
  owners g = [] ∧ admitted g = 0%Z.
Proof.
  unfold finishRetirement. destruct (_ || _) eqn:E; [congruence|]. intros _ _. rewrite !orb_false_iff, !negb_false_iff in E.
  destruct E as [[[[_ E1] E2] _] _]. apply Nat.eqb_eq, length_zero_iff_nil in E1. by apply Z.eqb_eq in E2.
Qed.

(** The wrappers are taken off by a step that leaves the gate idle. *)
Lemma retire_idle g e g' : sound g → sound g' → gate_step g e g' → installed g = true → installed g' = false → ids g' = [] ∧ owners g' = [].
Proof.
  intros Hg Hg' Hs Hi Hi'. assert (admitted g' = 0%Z ∧ owners g' = []) as [Ha Ho].
  { destruct Hs as [g paths|g id paths Hin|g c Hin|g id Hin|g owner|g owner]; cbn in Hi'; try congruence.
    - unfold admit_claim in Hi'. destruct (_ =? 0)%nat; [cbn in Hi'; congruence|].
      match type of Hi' with installed (pump ?x) = _ => destruct (pump_fields x) as (_ & _ & _ & _ & _ & _ & E) end.
      rewrite E in Hi'. cbn in Hi'. congruence.
    - unfold leave in *. match goal with |- admitted (finishRetirement ?x) = _ ∧ _ => set (g1 := x) in * end.
      destruct (finish_fields g1) as (_ & _ & E1 & E2 & _). rewrite E1, E2.
      assert (installed (release_claim (c_id c) g) = true) as Hr.
      { unfold release_claim. match goal with |- installed (finishRetirement ?x) = _ => set (g2 := x) end.
        assert (installed g2 = true) as H2 by (unfold g2; by destruct (pump_fields (set_queues (remove_id (c_id c) (active g)) (pending g) g)) as (_ & _ & _ & _ & _ & _ & ->)).
        destruct (installed (finishRetirement g2)) eqn:E; [done|].
        destruct (finish_retires g2 H2 E) as [_ Hz]. exfalso. unfold g2 in Hz.
        destruct (pump_fields (set_queues (remove_id (c_id c) (active g)) (pending g) g)) as (_ & _ & E3 & _).
        rewrite E3 in Hz. cbn in Hz. pose proof (g_admitted g Hg) as Had. rewrite Hz in Had.
        assert (c_id c ∈ ids g) as Hc by (unfold ids; apply elem_of_app; left; by apply list_elem_of_fmap_2).
        destruct (ids g); [by apply not_elem_of_nil in Hc|]. cbn in Had. lia. }
      by destruct (finish_retires g1 Hr Hi').
    - unfold leave in *. match goal with |- admitted (finishRetirement ?x) = _ ∧ _ => set (g1 := x) in * end.
      destruct (finish_fields g1) as (_ & _ & E1 & E2 & _). rewrite E1, E2. by destruct (finish_retires g1 Hi Hi').
    - unfold release_owner in *. destruct (existsb _ _); [|congruence].
      match goal with |- admitted (finishRetirement ?x) = _ ∧ _ => set (g1 := x) in * end.
      destruct (finish_fields g1) as (_ & _ & E1 & E2 & _). rewrite E1, E2. by destruct (finish_retires g1 Hi Hi'). }
  split; [|done]. pose proof (g_admitted g' Hg') as H. rewrite Ha in H. destruct (ids g'); [done|cbn in H; lia].
Qed.

(** [C35] The gate excludes overlapping changes: in every interleaving, no two
    running operations have paths one of which is the other or lies below it
    (compared without case); a claim waits only while it overlaps a running
    claim or one that waits before it, so nothing waits when nothing runs; the
    gate counts exactly the operations under way, and it takes its wrappers off
    the adapter only when there are none and nobody owns it. *)
Theorem gate_excludes (es : list event) (g : gate) : gate_run createGate es g →
  (∀ a b p q, a ∈ active g → b ∈ active g → a ≠ b → p ∈ c_keys a → q ∈ c_keys b →
    p ≠ [] ∧ q ≠ [] ∧ covers p q = false ∧ covers q p = false) ∧
  (∀ l c k, pending g = l ++ c :: k →
    ∃ other, other ∈ active g ++ l ∧ conflicts (c_keys c) (c_keys other) = true) ∧
  (active g = [] → pending g = []) ∧
  admitted g = Z.of_nat (length (ids g)) ∧
  (∀ e g', gate_step g e g' → installed g = true → installed g' = false → ids g' = [] ∧ owners g' = []).
Proof.
  intros Hr. pose proof (gate_run_sound es _ g gate_create_sound Hr) as Hg. destruct Hg as [H1 H2 H3 H4 H5].
  split_and!; [| |intros He; destruct (pending g) as [|c k] eqn:Ep; [done|]|done|].
  - intros a b p q Ha Hb Hne Hp Hq. specialize (H1 a b Ha Hb Hne). unfold apart in H1.
    assert (overlaps p q = false) as Ho.
    { apply not_true_iff_false. intros Ho. apply not_true_iff_false in H1. apply H1, conflicts_spec. naive_solver. }
    unfold overlaps in Ho. rewrite !orb_false_iff in Ho. destruct Ho as [[[[Ep Eq] Epq] E1] E2].
    apply jeqb_neq in Ep, Eq. split_and!; [done|done| |].
    + unfold covers, below. by rewrite jeqb_sym, Epq, E2.
    + unfold covers, below. by rewrite Epq, E1.
  - intros l c k Ep. rewrite Ep in H2. destruct (blocked_by _ _ _ _ _ H2) as (o & Ho & Hc). by exists o.
  - destruct H2 as [(o & Ho & _) _]. rewrite He in Ho. by apply not_elem_of_nil in Ho.
  - intros e g' Hs Hi Hi'. assert (sound g') as Hg' by (eapply step_sound; [split|]; done).
    apply (retire_idle g e); [by split|done..].
Qed.

(** [C36] No claim starves: once the claims that were running or waiting ahead of a
    waiting claim have all finished, it no longer waits, however many later claims
    have come and gone in between. *)
Theorem gate_no_starvation (es es' : list event) (g g' : gate) (l k : list claim) (c : claim) :
  gate_run createGate es g → pending g = l ++ c :: k → gate_run g es' g' →
  (∀ o, o ∈ active g ++ l → Finish (c_id o) ∈ es') → c ∉ pending g'.
Proof.
  intros Hr Hp Hr' Hfin Hc. pose proof (gate_run_sound es _ g gate_create_sound Hr) as Hg.
  pose proof (gate_run_sound es' _ g' Hg Hr') as Hg'.
  assert (tracked (active g ++ l) c g) as Ht.
  { assert (c_id c ∈ map c_id (pending g)) as Hcp.
    { rewrite Hp, map_app. apply elem_of_app. right. by left. }
    split; [|split].
    - intros Hin. pose proof (g_ids g Hg) as Hnd. unfold ids in Hnd. rewrite app_assoc in Hnd.
      apply NoDup_app in Hnd as (_ & Hd & _). apply (Hd (c_id c)); apply elem_of_app; [by right|by left].
    - pose proof (g_calls g Hg) as Hcalls. rewrite Forall_forall in Hcalls. apply Hcalls. unfold ids.
      rewrite !elem_of_app. tauto.
    - intros _. split; [exists l, k; split; [done|]|]; intros o Ho; rewrite elem_of_app; tauto. }
  destruct (run_tracked _ c es' g g' Hg Hr' Ht) as (_ & _ & H). destruct (H Hc) as [(l' & k' & Hp' & Hl') Ha'].
  pose proof (g_blocked g' Hg') as Hb. rewrite Hp' in Hb. apply blocked_by in Hb as (o & Ho & Hconf).
  assert (o ∉ active g ++ l) as Hno.
  { intros Hin. destruct (finished_gone es' g g' (c_id o) Hg Hr' (Hfin o Hin)) as [_ Hgone]. apply Hgone. unfold ids.
    rewrite !elem_of_app. apply elem_of_app in Ho as [Ho|Ho]; [left; by apply list_elem_of_fmap_2|].
    right. left. rewrite Hp', map_app. apply elem_of_app. left. by apply list_elem_of_fmap_2. }
  apply elem_of_app in Ho as [Ho|Ho].
  - destruct (Ha' o Ho) as [|Hap]; [done|]. apply apart_sym in Hap. unfold apart in Hap. by rewrite Hap in Hconf.
  - by apply Hno, Hl'.
Qed.

End gate.

(** ** A run with a claim that has to wait *)

Definition sample_events : list event :=
  [Acquire 7; Enter [lit "Notes"]; Admit 0; Enter [lit "notes/a.md"; lit "b.md"]; Admit 1; Enter [lit "/c/./d"]; Admit 2].
Definition sample_gate : gate :=
  mk_gate [mk_claim 0 [lit "notes"]; mk_claim 2 [lit "c/d"]] [mk_claim 1 [lit "notes/a.md"; lit "b.md"]] [7] false 3 [] [] 3 true.

Lemma gate_excludes_witness :
  @execs ascii_unicode sample_events createGate = Some sample_gate ∧ admitted sample_gate = 3%Z.
Proof.
  assert (@execs ascii_unicode sample_events createGate = Some sample_gate) as H by (vm_compute; reflexivity).
  split; [exact H|]. exact (proj1 (proj2 (proj2 (proj2 (@gate_excludes ascii_unicode _ _ (execs_run _ _ _ H)))))).
Defined.

Lemma gate_no_starvation_witness :
  ∃ g', @execs ascii_unicode [Finish 2; Finish 0] sample_gate = Some g' ∧ mk_claim 1 [lit "notes/a.md"; lit "b.md"] ∉ pending g'.
Proof.
  destruct (@execs ascii_unicode [Finish 2; Finish 0] sample_gate) as [g'|] eqn:H; [|vm_compute in H; discriminate H].
  exists g'. split; [reflexivity|].
  assert (@execs ascii_unicode sample_events createGate = Some sample_gate) as H0 by (vm_compute; reflexivity).
  apply (@gate_no_starvation ascii_unicode sample_events [Finish 2; Finish 0] sample_gate g' [] [] _
    (execs_run _ _ _ H0) eq_refl (execs_run _ _ _ H)).
  intros o Ho. apply elem_of_cons in Ho as [->|Ho]; [right; left|].
  apply elem_of_cons in Ho as [->|Ho]; [left|]. destruct (not_elem_of_nil o Ho).
Defined.
