(* ===== verification/GitTrees.v ===== *)
(** * Trees, tree differences and the disjoint merge (src/server/gitService.ts, syncService.ts)

    A tree of a repository is the finite map from its file paths to their entries.
    Git itself is a parameter ([GitTools]): it compares trees and applies index
    updates. The module models how the server reads the comparisons, which paths it
    takes for changed, and the tree it builds when two sides changed different paths. *)

From S2P Require Export ClientTrees Regex PathPolicy.

(** ** Sets of paths *)

(** [[...new Set(paths)].sort()]. *)
Definition sorted_set (paths : list jstring) : list jstring := sort_strings (js_set paths).

Lemma sorted_set_elem paths p : p ∈ sorted_set paths ↔ p ∈ paths.
Proof. unfold sorted_set, sort_strings. by rewrite isort_elem, js_set_elem. Qed.

Lemma sorted_set_nil paths : sorted_set paths = [] ↔ paths = [].
Proof.
  split; [|by intros ->]. intros E. destruct paths as [|p paths]; [done|].
  assert (p ∈ sorted_set (p :: paths)) as H by (apply sorted_set_elem; by left). rewrite E in H. by apply not_elem_of_nil in H.
Qed.

(** ** Differences *)

(** [GitDiffEntry]. *)
Record GitDiffEntry := mk_diff { g_status : jstring; g_path : jstring; g_oldPath : option jstring }.

Definition malformed (message : string) : js_error := mk_error EPlain [] (lit message) [].

(** [changedPathsInRepo]: the fields of [git diff --name-status -M -z]. *)
Fixpoint read_name_status (parts : list jstring) : result (list GitDiffEntry) :=
  match parts with
  | [] => Ok []
  | status :: rest =>
      if starts_with "R" status || starts_with "C" status then
        match rest with
        | oldPath :: path :: rest => entries ← read_name_status rest; mret (mk_diff status path (Some oldPath) :: entries)
        | _ => Throw (malformed "Malformed git diff output.")
        end
      else
        match rest with
        | path :: rest => entries ← read_name_status rest; mret (mk_diff status path None :: entries)
        | [] => Throw (malformed "Malformed git diff output.")
        end
  end.

Definition changedPathsInRepo (parts : list jstring) : result (list GitDiffEntry) :=
  read_name_status (List.filter (λ entry, negb (bool_decide (entry = []))) parts).

(** What git documents of that format. *)
Definition print_name_status (e : GitDiffEntry) : list jstring :=
  match g_oldPath e with Some oldPath => [g_status e; oldPath; g_path e] | None => [g_status e; g_path e] end.
Definition renaming (e : GitDiffEntry) : bool := starts_with "R" (g_status e) || starts_with "C" (g_status e).
Definition printable (e : GitDiffEntry) : Prop :=
  g_status e ≠ [] ∧ g_path e ≠ [] ∧
  match g_oldPath e with Some oldPath => renaming e = true ∧ oldPath ≠ [] | None => renaming e = false end.

(** [createDisjointMergeTree]: the fields of [git diff-tree -r --raw -z --no-renames]. *)
Record raw_change := mk_raw { r_status : N; r_mode : jstring; r_oid : jstring; r_path : jstring }.

Definition RAW_HEADER : regex :=
  RSeq (rlit ":") (RSeq (rrep 6 (RClass is_digit)) (RSeq (rlit " ") (RSeq (rrep 6 (RClass is_digit))
  (RSeq (rlit " ") (RSeq (rrep 40 (RClass is_hex)) (RSeq (rlit " ") (RSeq (rrep 40 (RClass is_hex))
  (RSeq (rlit " ") (RClass is_upper))))))))).

(** The groups of the expression stand at fixed places. *)
Definition read_header (header path : jstring) : option raw_change :=
  if rtest RAW_HEADER header
  then Some (mk_raw (nth 97 header 0%N) (take 6 (drop 8 header)) (take 40 (drop 56 header)) path)
  else None.

Fixpoint read_raw (parts : list jstring) : result (list raw_change) :=
  match parts with
  | [] => Ok []
  | [_] => Throw (malformed "Malformed raw Git tree diff.")
  | header :: path :: rest =>
      match (if bool_decide (path = []) then None else read_header header path) with
      | None => Throw (malformed "Malformed raw Git tree diff.")
      | Some change => changes ← read_raw rest; mret (change :: changes)
      end
  end.

(** What git documents of that format; the old mode and object are not read. *)
Definition print_raw (old : jstring * jstring) (c : raw_change) : list jstring :=
  [lit ":" ++ old.1 ++ lit " " ++ r_mode c ++ lit " " ++ old.2 ++ lit " " ++ r_oid c ++ lit " " ++ [r_status c]; r_path c].

(** *** Round trips *)

Lemma read_print_name_status entries : Forall printable entries →
  changedPathsInRepo (flat_map print_name_status entries) = Ok entries.
Proof.
  intros H. unfold changedPathsInRepo. rewrite filter_all.
  - induction H as [|e entries (Hs & Hp & Ho) _ IH]; [done|]. cbn [flat_map]. destruct e as [status path [old|]]; cbn in *.
    + destruct Ho as [Hr Ho]. unfold renaming in Hr. cbn in Hr. rewrite Hr, IH. done.
    + unfold renaming in Ho. cbn in Ho. rewrite Ho, IH. done.
  - intros x Hx. apply negb_true_iff, bool_decide_eq_false. intros ->. apply list_elem_of_In, in_flat_map in Hx as (e & He & Hx).
    rewrite Forall_forall in H. rewrite <- list_elem_of_In in He. destruct (H e He) as (Hs & Hp & Ho). unfold print_name_status in Hx.
    destruct (g_oldPath e) as [old|]; cbn in Hx; [|naive_solver]. destruct Ho as [_ Ho]. naive_solver.
Qed.

Definition mode_text (s : jstring) : Prop := length s = 6 ∧ Forall (λ c, is_digit c = true) s.
Definition oid_text (s : jstring) : Prop := length s = 40 ∧ Forall (λ c, is_hex c = true) s.
Definition raw_ok (old : jstring * jstring) (c : raw_change) : Prop :=
  mode_text old.1 ∧ oid_text old.2 ∧ mode_text (r_mode c) ∧ oid_text (r_oid c) ∧ is_upper (r_status c) = true ∧ r_path c ≠ [].

Lemma take_after {A} (before l after : list A) n k : length before = n → length l = k → take k (drop n (before ++ l ++ after)) = l.
Proof. intros <- <-. by rewrite drop_app_length, take_app_length. Qed.

Lemma matches_seq_intro a b s t : matches a s → matches b t → matches (RSeq a b) (s ++ t).
Proof. intros. by apply MSeq. Qed.

Lemma read_print_header old c : raw_ok old c → 
  read_header (lit ":" ++ old.1 ++ lit " " ++ r_mode c ++ lit " " ++ old.2 ++ lit " " ++ r_oid c ++ lit " " ++ [r_status c]) (r_path c) = Some c.
Proof.
  intros ([Lm Fm] & [Lo Fo] & [Lm' Fm'] & [Lo' Fo'] & Hs & _). unfold read_header.
  set (header := lit ":" ++ _). assert (rtest RAW_HEADER header = true) as ->.
  { apply rtest_correct. unfold header, RAW_HEADER. repeat (apply matches_seq_intro); try by apply matches_lit.
    all: try (apply matches_rep_class; by split). by constructor. }
  assert (take 6 (drop 8 header) = r_mode c) as ->.
  { unfold header. rewrite (app_assoc (lit ":")), (app_assoc (lit ":" ++ old.1)). apply take_after; [|done]. rewrite !length_app, Lm. done. }
  assert (take 40 (drop 56 header) = r_oid c) as ->.
  { unfold header. rewrite (app_assoc (lit ":")), (app_assoc (lit ":" ++ old.1)), (app_assoc ((lit ":" ++ old.1) ++ lit " ")).
    rewrite (app_assoc _ (lit " ") (old.2 ++ _)), (app_assoc _ old.2), (app_assoc _ (lit " ") (r_oid c ++ _)).
    apply take_after; [|done]. rewrite !length_app, Lm, Lm', Lo. done. }
  assert (nth 97 header 0%N = r_status c) as ->; [|by destruct c].
  unfold header. rewrite !app_assoc. rewrite app_nth2; rewrite !length_app, Lm, Lm', Lo, Lo'; [done|exact (le_n 97)].
Qed.

Lemma read_print_raw (old : raw_change → jstring * jstring) changes : Forall (λ c, raw_ok (old c) c) changes →
  read_raw (flat_map (λ c, print_raw (old c) c) changes) = Ok changes.
Proof.
  induction 1 as [|c changes Hc _ IH]; [done|]. cbn [flat_map print_raw app read_raw].
  pose proof Hc as (_ & _ & _ & _ & _ & Hp). rewrite bool_decide_false by done. rewrite read_print_header by done. by rewrite IH.
Qed.

(** ** Trees *)

Record tree_entry := mk_entry { t_mode : jstring; t_oid : jstring }.
#[export] Instance tree_entry_eq_dec : EqDecision tree_entry.
Proof. solve_decision. Defined.

(** Files by path; [git] lists the other entries of [ls-tree -t] from them. *)
Abbreviation tree := (gmap jstring tree_entry).

(** No file is a directory of another file, and the entries print as git prints them. *)
Definition tree_ok (t : tree) : Prop :=
  (∀ p q, is_Some (t !! p) → is_Some (t !! q) → below p q = false) ∧
  (∀ p e, t !! p = Some e → p ≠ [] ∧ mode_text (t_mode e) ∧ oid_text (t_oid e)).

(** A line for [update-index --index-info]. *)
Inductive index_info := IndexRemove (path : jstring) | IndexSet (e : tree_entry) (path : jstring).
Definition info_path (i : index_info) : jstring := match i with IndexRemove p => p | IndexSet _ p => p end.
Definition apply_info (t : tree) (i : index_info) : tree :=
  match i with IndexRemove p => delete p t | IndexSet e p => <[p := e]> t end.

(** Changed paths. *)
Definition changedPathSet (entries : list GitDiffEntry) : list jstring :=
  fold_left (λ paths entry,
    let paths := set_add paths (g_path entry) in
    match g_oldPath entry with Some (c :: old) => set_add paths (c :: old) | _ => paths end) entries [].

Definition no_object : jstring := lit "0000000000000000000000000000000000000000".

(** What a raw comparison prints of the entry before the change. *)
Definition old_fields (t : tree) (p : jstring) : jstring * jstring :=
  match t !! p with Some e => (t_mode e, t_oid e) | None => (lit "000000", no_object) end.

(** Git: comparisons of trees, the index, and the object name of a directory. *)
Class GitTools := {
  git_raw_diff : tree → tree → list raw_change;          (* diff-tree -r --raw -z --no-renames *)
  git_name_status : tree → tree → list GitDiffEntry;     (* diff --name-status -M -z *)
  git_update_index : tree → list index_info → tree;      (* read-tree, update-index --index-info, write-tree *)
  git_directory : tree → jstring → option jstring        (* the tree entries of ls-tree -t *)
}.

(** What git documents of them, for well-formed trees. *)
Class GitToolsOk (G : GitTools) : Prop := {
  raw_diff_paths a b : tree_ok a → tree_ok b → NoDup (map r_path (git_raw_diff a b)) ∧
    ∀ p, p ∈ map r_path (git_raw_diff a b) ↔ a !! p ≠ b !! p;
  raw_diff_entry a b c : tree_ok a → tree_ok b → c ∈ git_raw_diff a b → is_upper (r_status c) = true ∧
    match b !! r_path c with
    | None => r_status c = 68%N ∧ (r_mode c, r_oid c) = (lit "000000", no_object)
    | Some e => r_status c ≠ 68%N ∧ e = mk_entry (r_mode c) (r_oid c)
    end;
  name_status_paths a b p : tree_ok a → tree_ok b → p ∈ changedPathSet (git_name_status a b) ↔ a !! p ≠ b !! p;
  name_status_printable a b : tree_ok a → tree_ok b → Forall printable (git_name_status a b);
  directory_of_files t p : tree_ok t → is_Some (git_directory t p) ↔ ∃ q, is_Some (t !! q) ∧ below p q = true;
  update_index_apply t infos : tree_ok t → tree_ok (fold_left apply_info infos t) →
    git_update_index t infos = fold_left apply_info infos t
}.

Section merging.
Context `{G : GitTools} `{U : Unicode}.

(** [validateTreePathPolicyInRepo], without the sizes. *)
Definition entry_supported (e : tree_entry) : bool :=
  negb (bool_decide (t_mode e = lit "120000")) && negb (bool_decide (t_mode e = lit "160000")).
Definition validateTreePathPolicy (t : tree) : result unit :=
  _ ← assertSyncableTreePaths (map fst (map_to_list t));
  if forallb (λ pe, entry_supported pe.2) (map_to_list t) then mret tt
  else Throw (mk_error EPathPolicy "unsupported_file_mode"
                "Git tree entries must be regular files; symlinks and submodules cannot be synced." []).

Definition raw_stdout (a b : tree) : list jstring := flat_map (λ c, print_raw (old_fields a (r_path c)) c) (git_raw_diff a b).

Definition index_entry (c : raw_change) : index_info :=
  if bool_decide (r_status c = 68%N) then IndexRemove (r_path c) else IndexSet (mk_entry (r_mode c) (r_oid c)) (r_path c).

(** The entries of [ls-tree -r -t] as [mergeDeviceCommit] compares them. *)
Definition kind_of (e : tree_entry) : jstring := if bool_decide (t_mode e = lit "160000") then lit "commit" else lit "blob".
Definition value_of (e : tree_entry) : jstring * jstring := (kind_of e, t_oid e).
Definition valueAt (t : tree) (p : jstring) : option (jstring * jstring) :=
  match t !! p with
  | Some e => Some (value_of e)
  | None => match git_directory t p with Some oid => Some (lit "tree", oid) | None => None end
  end.
Definition identical (main device : tree) (p : jstring) : bool := bool_decide (valueAt main p = valueAt device p).

Definition createDisjointMergeTree (base currentMain deviceCommit : tree) (selectedPaths : option (list jstring)) : result tree :=
  changes ← read_raw (raw_stdout base deviceCommit);
  let selected := List.filter (λ c, match selectedPaths with Some paths => jmem (r_path c) paths | None => true end) changes in
  let t := git_update_index currentMain (map index_entry selected) in
  _ ← validateTreePathPolicy t; mret t.

(** ** What the merge tree holds *)

Context `{GK : !GitToolsOk G}.

Lemma apply_infos_other infos : ∀ t p, p ∉ map info_path infos → fold_left apply_info infos t !! p = t !! p.
Proof.
  induction infos as [|i infos IH]; intros t p Hp; [done|]. cbn in Hp |- *. apply not_elem_of_cons in Hp as [Hne Hp].
  rewrite IH by done. destruct i as [q|e q]; cbn in *; [by rewrite lookup_delete_ne|by rewrite lookup_insert_ne].
Qed.

Lemma apply_infos_lookup infos : NoDup (map info_path infos) → ∀ t i, i ∈ infos →
  fold_left apply_info infos t !! info_path i = match i with IndexRemove _ => None | IndexSet e _ => Some e end.
Proof.
  induction infos as [|j infos IH]; intros Hnd t i Hi; [by apply not_elem_of_nil in Hi|].
  cbn in Hnd |- *. apply NoDup_cons in Hnd as [Hj Hnd]. apply elem_of_cons in Hi as [->|Hi]; [|by apply IH].
  rewrite apply_infos_other by done. destruct j as [q|e q]; cbn; [apply lookup_delete_eq|apply lookup_insert_eq].
Qed.

Definition chosen (selectedPaths : option (list jstring)) (p : jstring) : bool :=
  match selectedPaths with Some paths => jmem p paths | None => true end.

(** The device's entry where the device changed it, the server's elsewhere. *)
Definition overlay (selectedPaths : option (list jstring)) (base main device : tree) (p : jstring) : option tree_entry :=
  if bool_decide (base !! p = device !! p) || negb (chosen selectedPaths p) then main !! p else device !! p.

Lemma index_path c : info_path (index_entry c) = r_path c.
Proof. unfold index_entry. by destruct (bool_decide _). Qed.

Lemma Forall_forallb {A} (f : A → bool) l : forallb f l = true → Forall (λ x, f x = true) l.
Proof. intros H. apply List.Forall_forall. by apply forallb_forall. Qed.

Lemma zero_fields : mode_text (lit "000000") ∧ oid_text no_object.
Proof. split; (split; [reflexivity|apply Forall_forallb; vm_compute; reflexivity]). Qed.

Lemma raw_changes_ok a b : tree_ok a → tree_ok b → Forall (λ c, raw_ok (old_fields a (r_path c)) c) (git_raw_diff a b).
Proof.
  intros Ha Hb. apply Forall_forall. intros c Hc. destruct (raw_diff_entry a b c Ha Hb Hc) as [Hs He].
  destruct zero_fields as [Hm Ho].
  assert (a !! r_path c ≠ b !! r_path c) as Hne.
  { apply (proj2 (raw_diff_paths a b Ha Hb)). by apply list_elem_of_fmap_2. }
  assert (mode_text (old_fields a (r_path c)).1 ∧ oid_text (old_fields a (r_path c)).2) as [Hm1 Ho1].
  { unfold old_fields. destruct (a !! r_path c) as [e|] eqn:E; [|done]. by apply (proj2 Ha) in E as (_ & ? & ?). }
  assert (r_path c ≠ []) as Hp.
  { destruct (a !! r_path c) as [e|] eqn:Ea; [by apply (proj2 Ha) in Ea as [? _]|].
    destruct (b !! r_path c) as [e|] eqn:Eb; [by apply (proj2 Hb) in Eb as [? _]|done]. }
  destruct (b !! r_path c) as [e|] eqn:Eb.
  - destruct He as [_ ->]. apply (proj2 Hb) in Eb as (_ & Hm2 & Ho2). by split_and!.
  - destruct He as [_ [= Em Eo]]. unfold raw_ok. rewrite Em, Eo. by split_and!.
Qed.

Lemma merge_infos_overlay sel base main device : tree_ok base → tree_ok device →
  let infos := map index_entry (List.filter (λ c, chosen sel (r_path c)) (git_raw_diff base device)) in
  ∀ p, fold_left apply_info infos main !! p = overlay sel base main device p.
Proof.
  intros Hb Hd infos p. destruct (raw_diff_paths base device Hb Hd) as [Hnd Hp]. unfold overlay.
  assert (map info_path infos = map r_path (List.filter (λ c, chosen sel (r_path c)) (git_raw_diff base device))) as Em.
  { unfold infos. rewrite map_map. apply map_ext. intros c. apply index_path. }
  assert (NoDup (map info_path infos)) as Hnd'.
  { rewrite Em. eapply sublist_NoDup; [exact Hnd|]. apply (fmap_sublist r_path). clear.
    induction (git_raw_diff base device) as [|c l IH]; cbn; [done|]. destruct (chosen _ _); by constructor. }
  destruct (bool_decide (base !! p = device !! p) || negb (chosen sel p)) eqn:E.
  - apply apply_infos_other. rewrite Em. intros (c & -> & [Hc Hs]%filter_elem)%list_elem_of_fmap.
    rewrite Hs, orb_false_r in E. apply bool_decide_eq_true in E. eapply Hp; [|exact E]. by apply list_elem_of_fmap_2.
  - apply orb_false_iff in E as [E Hs]. apply bool_decide_eq_false in E. apply negb_false_iff in Hs.
    apply Hp, list_elem_of_fmap in E as (c & -> & Hc).
    assert (index_entry c ∈ infos) as Hi by (by apply (list_elem_of_fmap_2 index_entry), filter_elem).
    rewrite <- (index_path c), (apply_infos_lookup infos Hnd' main (index_entry c) Hi), index_path.
    destruct (raw_diff_entry base device c Hb Hd Hc) as [_ He]. unfold index_entry.
    destruct (device !! r_path c) as [e|]; [destruct He as [Hst ->]; by rewrite bool_decide_false|destruct He as [Hst _]; by rewrite bool_decide_true].
Qed.

(** The merge tree is the overlay, when that is a tree. *)
Lemma createDisjointMergeTree_overlay sel base main device t : tree_ok base → tree_ok main → tree_ok device → tree_ok t →
  (∀ p, t !! p = overlay sel base main device p) →
  createDisjointMergeTree base main device sel = (_ ← validateTreePathPolicy t; mret t).
Proof.
  intros Hb Hm Hd Ht Hov. unfold createDisjointMergeTree, raw_stdout.
  rewrite (read_print_raw (λ c, old_fields base (r_path c))) by (by apply raw_changes_ok). cbn [mbind result_bind].
  change (λ c, match sel with Some paths => jmem (r_path c) paths | None => true end) with (λ c, chosen sel (r_path c)).
  pose proof (merge_infos_overlay sel base main device Hb Hd) as Ho. cbn zeta in Ho.
  set (infos := map index_entry _) in *. assert (fold_left apply_info infos main = t) as Et.
  { apply map_eq. intros p. by rewrite Ho, Hov. }
  rewrite update_index_apply; [by rewrite Et|done|by rewrite Et].
Qed.

(** *** Both sides are kept *)

Lemma kind_not_tree e oid : value_of e ≠ (lit "tree", oid).
Proof. unfold value_of, kind_of. destruct (bool_decide _); intros [= ]. Qed.

(** An identical path holds the same object of the same type on both sides. *)
Lemma identical_agree main device p : identical main device p = true → value_of <$> main !! p = value_of <$> device !! p.
Proof.
  unfold identical, valueAt. intros H%bool_decide_eq_true.
  destruct (main !! p) as [e|], (device !! p) as [e'|]; cbn; [congruence| | |done].
  - destruct (git_directory device p) as [oid|]; [|discriminate]. apply (inj Some) in H. by apply kind_not_tree in H.
  - destruct (git_directory main p) as [oid|]; [|discriminate]. apply (inj Some) in H. symmetry in H. by apply kind_not_tree in H.
Qed.

Lemma identical_sym main device p : identical device main p = identical main device p.
Proof. unfold identical. apply bool_decide_ext. split; intros; by symmetry. Qed.

(** A file on one side that is a directory on the other, and what is below it, differ. *)
Lemma file_directory_differ main device p q : tree_ok main → tree_ok device →
  is_Some (main !! p) → is_Some (device !! q) → below p q = true →
  device !! p = None ∧ main !! q = None ∧ identical main device p = false ∧ identical main device q = false.
Proof.
  intros Hm Hd Hp Hq Hb.
  assert (device !! p = None) as Ep.
  { apply eq_None_not_Some. intros Hs. pose proof (proj1 Hd p q Hs Hq). congruence. }
  assert (main !! q = None) as Eq.
  { apply eq_None_not_Some. intros Hs. pose proof (proj1 Hm p q Hp Hs). congruence. }
  split_and!; [done|done| |]; apply not_true_iff_false; intros H%identical_agree; rewrite ?Ep, ?Eq in H; cbn in H.
  - destruct Hp as [e He]. by rewrite He in H.
  - destruct Hq as [e He]. by rewrite He in H.
Qed.

(** The server and the device changed different paths since [base]. *)
Definition disjoint_changes (base main device : tree) : Prop :=
  ∀ p q, base !! p ≠ main !! p → base !! q ≠ device !! q →
    identical main device p = false → identical main device q = false → changedPathsConflict p q = false.

Lemma overlay_tree_ok base main device t : tree_ok base → tree_ok main → tree_ok device → disjoint_changes base main device →
  (∀ p, t !! p = overlay None base main device p) → tree_ok t.
Proof.
  intros Hb Hm Hd Hdis Ht. unfold overlay in Ht. cbn in Ht. split.
  - intros p q Hp Hq. apply not_true_iff_false. intros Hbel. rewrite Ht, orb_false_r in Hp, Hq.
    assert (∀ r s, changedPathsConflict r s = false → below r s = true ∨ below s r = true → False) as Hconf.
    { intros r s Hrs Hbs. apply not_true_iff_false in Hrs. apply Hrs, changedPathsConflict_spec. rewrite !covers_spec. tauto. }
    destruct (bool_decide_reflect (base !! p = device !! p)) as [Ep|Ep], (bool_decide_reflect (base !! q = device !! q)) as [Eq|Eq].
    + pose proof (proj1 Hm p q Hp Hq). congruence.
    + destruct (file_directory_differ main device p q Hm Hd Hp Hq Hbel) as (E1 & E2 & I1 & I2).
      apply (Hconf p q); [|by left]. apply Hdis; [|done..]. rewrite Ep, E1. destruct Hp as [e ->]. done.
    + destruct (file_directory_differ device main p q Hd Hm Hp Hq Hbel) as (E1 & E2 & I1 & I2).
      rewrite identical_sym in I1, I2. apply (Hconf q p); [|by right]. apply Hdis; [|done..]. rewrite Eq, E2. destruct Hq as [e ->]. done.
    + pose proof (proj1 Hd p q Hp Hq). congruence.
  - intros p e. rewrite Ht. destruct (_ || _); [apply Hm|apply Hd].
Qed.

(** What either side changed is in the overlay. *)
Lemma overlay_keeps base main device p : disjoint_changes base main device →
  (base !! p ≠ device !! p → overlay None base main device p = device !! p) ∧
  (base !! p ≠ main !! p → value_of <$> overlay None base main device p = value_of <$> main !! p) ∧
  (base !! p = main !! p → base !! p = device !! p → overlay None base main device p = base !! p).
Proof.
  intros Hdis. unfold overlay. cbn. rewrite orb_false_r. split_and!.
  - intros H. by rewrite bool_decide_false.
  - intros Hm. destruct (bool_decide_reflect (base !! p = device !! p)) as [E|E]; [done|].
    symmetry. apply identical_agree. apply not_false_iff_true. intros Hi. specialize (Hdis p p Hm E Hi Hi).
    apply not_true_iff_false in Hdis. apply Hdis, changedPathsConflict_spec. left. apply covers_refl.
  - intros -> E. by rewrite bool_decide_true.
Qed.

Lemma overlay_exists sel base main device : tree_ok base → tree_ok device → ∃ t : tree, ∀ p, t !! p = overlay sel base main device p.
Proof. intros Hb Hd. eexists. by apply merge_infos_overlay. Qed.

Lemma disjoint_changes_sym base main device : disjoint_changes base main device → disjoint_changes base device main.
Proof. intros H p q Hp Hq Ip Iq. rewrite identical_sym in Ip, Iq. rewrite changedPathsConflict_sym. by apply H. Qed.

Lemma overlay_sym base main device p : disjoint_changes base main device →
  value_of <$> overlay None base device main p = value_of <$> overlay None base main device p.
Proof.
  intros Hdis. destruct (overlay_keeps base main device p Hdis) as (K1 & K2 & K3).
  destruct (overlay_keeps base device main p (disjoint_changes_sym _ _ _ Hdis)) as (L1 & L2 & L3).
  destruct (decide (base !! p = device !! p)) as [Ed|Ed].
  - destruct (decide (base !! p = main !! p)) as [Em|Em]; [by rewrite K3, L3|]. by rewrite L1, K2.
  - by rewrite L2, K1.
Qed.

End merging.

(** ** A git without rename detection *)

Definition differing (a b : tree) : list jstring :=
  List.filter (λ p, negb (bool_decide (a !! p = b !! p))) (elements (dom a ∪ dom b : gset jstring)).

Definition simple_git : GitTools := {|
  git_raw_diff a b := map (λ p, match b !! p with
    | None => mk_raw 68 "000000" no_object p
    | Some e => mk_raw (if bool_decide (a !! p = None) then 65 else 77) (t_mode e) (t_oid e) p
    end) (differing a b);
  git_name_status a b := map (λ p, mk_diff
    (if bool_decide (b !! p = None) then lit "D" else if bool_decide (a !! p = None) then lit "A" else lit "M") p None) (differing a b);
  git_update_index t infos := fold_left apply_info infos t;
  git_directory t p := if existsb (below p) (map fst (map_to_list t)) then Some p else None
|}.

Lemma differing_elem a b p : p ∈ differing a b ↔ a !! p ≠ b !! p.
Proof.
  unfold differing. rewrite filter_elem, (elem_of_elements (C:=gset jstring)), elem_of_union, !elem_of_dom, negb_true_iff, bool_decide_eq_false.
  split; [by intros [_ H]|]. intros H. split; [|done].
  destruct (a !! p) as [e|] eqn:Ea; [left; by eexists|]. destruct (b !! p) as [e|] eqn:Eb; [right; by eexists|done].
Qed.

Lemma differing_NoDup a b : NoDup (differing a b).
Proof. apply filter_NoDup, NoDup_elements. Qed.

Lemma changedPathSet_plain (f : jstring → jstring) paths p :
  p ∈ changedPathSet (map (λ p, mk_diff (f p) p None) paths) ↔ p ∈ paths.
Proof.
  unfold changedPathSet. assert (∀ acc, p ∈ fold_left (λ paths entry,
    let paths := set_add paths (g_path entry) in
    match g_oldPath entry with Some (c :: old) => set_add paths (c :: old) | _ => paths end)
    (map (λ p, mk_diff (f p) p None) paths) acc ↔ p ∈ acc ∨ p ∈ paths) as H.
  - induction paths as [|q paths IH]; intros acc; cbn [map fold_left]; [rewrite elem_of_nil; tauto|].
    rewrite IH. cbn. rewrite set_add_elem, elem_of_cons. tauto.
  - rewrite H. rewrite elem_of_nil. tauto.
Qed.

#[export] Instance simple_git_ok : GitToolsOk simple_git.
Proof.
  split; cbv [git_raw_diff git_name_status git_update_index git_directory simple_git].
  - intros a b _ _. rewrite map_map. rewrite (map_ext _ id) by (intros p; by destruct (b !! p)). rewrite map_id.
    split; [apply differing_NoDup|]. apply differing_elem.
  - intros a b c _ _ Hc. apply list_elem_of_fmap in Hc as (p & -> & _).
    destruct (b !! p) as [e|] eqn:E; cbn [r_path r_status r_mode r_oid]; rewrite E.
    + destruct (bool_decide _); (split; [reflexivity|]); (split; [discriminate|by destruct e]).
    + split; [reflexivity|]. split; reflexivity.
  - intros a b p _ _. rewrite changedPathSet_plain. apply differing_elem.
  - intros a b Ha Hb. apply Forall_forall. intros e (p & -> & Hp)%list_elem_of_fmap. apply differing_elem in Hp.
    unfold printable, renaming. cbn [g_path g_status g_oldPath]. split_and!.
    + destruct (bool_decide _); [discriminate|]. destruct (bool_decide _); discriminate.
    + destruct (a !! p) as [x|] eqn:Ea; [by apply (proj2 Ha) in Ea as [? _]|].
      destruct (b !! p) as [x|] eqn:Eb; [by apply (proj2 Hb) in Eb as [? _]|done].
    + destruct (bool_decide _); [reflexivity|]. destruct (bool_decide _); reflexivity.
  - intros t p _. destruct (existsb _ _) eqn:E.
    + split; [|by eexists]. intros _. apply existsb_exists in E as (q & Hq & Hb). exists q. split; [|done].
      apply list_elem_of_In, list_elem_of_fmap in Hq as ([q' e] & -> & He). apply elem_of_map_to_list in He. by eexists.
    + split; [intros [x [=]]|]. intros (q & [e He] & Hb). apply not_true_iff_false in E. destruct E. apply existsb_exists.
      exists q. split; [|done]. apply list_elem_of_In. apply (list_elem_of_fmap_2 fst _ (q, e)). by apply elem_of_map_to_list.
  - done.
Qed.

(** A decision procedure for concrete trees. *)
Definition entry_okb (e : tree_entry) : bool :=
  (length (t_mode e) =? 6)%nat && forallb is_digit (t_mode e) && (length (t_oid e) =? 40)%nat && forallb is_hex (t_oid e).
Definition tree_okb (t : tree) : bool :=
  let entries := map_to_list t in
  forallb (λ pe, forallb (λ qe, negb (below pe.1 qe.1)) entries && negb (bool_decide (pe.1 = [])) && entry_okb pe.2) entries.

Lemma tree_okb_ok t : tree_okb t = true → tree_ok t.
Proof.
  unfold tree_okb. rewrite forallb_forall. intros H.
  assert (∀ p e, t !! p = Some e → forallb (λ qe, negb (below p qe.1)) (map_to_list t) = true ∧ p ≠ [] ∧ entry_okb e = true) as Hp.
  { intros p e He. apply elem_of_map_to_list, list_elem_of_In in He. specialize (H _ He). cbn [fst snd] in H.
    apply andb_true_iff in H as [[H1 H2]%andb_true_iff H3]. split_and!; [done| |done].
    apply negb_true_iff in H2. by apply bool_decide_eq_false in H2. }
  split.
  - intros p q [e He] [e' He']. destruct (Hp p e He) as (Hb & _). rewrite forallb_forall in Hb.
    apply elem_of_map_to_list, list_elem_of_In in He'. specialize (Hb _ He'). cbn in Hb. by apply negb_true_iff in Hb.
  - intros p e He. destruct (Hp p e He) as (_ & Hne & Hok). unfold entry_okb in Hok.
    apply andb_true_iff in Hok as [[[M1 M2]%andb_true_iff O1]%andb_true_iff O2]. apply Nat.eqb_eq in M1, O1.
    split; [done|]. split; (split; [done|]); by apply Forall_forallb.
Qed.

Definition sample_file (c : N) : tree_entry := mk_entry "100644" (repeat c 40).
Definition sample_base : tree := list_to_map [(lit "a.md", sample_file 97); (lit "b.md", sample_file 98)].
Definition sample_main : tree := <[lit "c/d.md" := sample_file 100]> (<[lit "a.md" := sample_file 99]> sample_base).
Definition sample_device : tree := <[lit "b.md" := sample_file 101]> sample_base.
