(* ===== verification/StructuralMerge.v ===== *)
(** * Structural summaries and conflicts (src/server/syncService.ts)

    What each side of a merge did to the files of the common base: renames given by
    git, renames inferred from equal or similar contents, edits, deletions and
    additions; and which pairs of such actions are a conflict a person must settle. *)

From S2P Require Export GitTrees Unicode.

(** ** Actions *)

Inductive RenameConfidence := ConfGit | ConfExactBlob | ConfSimilarContent | ConfExplicit.
Inductive StructuralActionKind := ActAdd | ActEdit | ActDelete | ActRename.
#[export] Instance action_kind_eq_dec : EqDecision StructuralActionKind.
Proof. solve_decision. Defined.

Record StructuralAction := mk_action {
  a_kind : StructuralActionKind;
  a_basePath : option jstring;
  a_targetPath : option jstring;
  a_baseOid : option jstring;
  a_targetOid : option jstring;
  a_confidence : option RenameConfidence
}.

Record StructuralSummary := mk_summary {
  s_actions : list StructuralAction;
  s_byBasePath : jmap StructuralAction;
  s_addsByPath : jmap StructuralAction;
  s_candidates : jmap (list jstring)
}.

Record StructuralConflict := mk_conflict { sc_reason : jstring; sc_affectedPaths : list jstring }.

(** A pair of the inference, with its confidence. *)
Record InferredPair := mk_inferred { ip_base : jstring; ip_target : jstring; ip_confidence : RenameConfidence }.

(** The blobs of a tree by path. *)
Abbreviation blob_map := (gmap jstring jstring).

(** ** Similar contents *)

Definition SIMILAR_RENAME_MAX_BYTES : nat := 256 * 1024.

(** Services of the runtime: UTF-8 decoding, locale lower case, and the matches of
    the expression of runs of letters, digits, underscores and hyphens. *)
Class TextTools := {
  utf8_decode : list N → jstring;
  to_locale_lower : jstring → jstring;
  word_runs : jstring → list jstring
}.

(** [posix.extname] of a path without trailing slashes. *)
Definition extname (path : jstring) : jstring :=
  let base := basename path in
  if base =s? lit ".." then [] else
  match before_last 46 base with
  | None | Some [] => []
  | Some stem => drop (length stem) base
  end.

(** [text.replace(/\s+/gu, ' ')]. *)
Fixpoint collapse_spaces (after_space : bool) (s : jstring) : jstring :=
  match s with
  | [] => []
  | c :: s => if is_space c then (if after_space then collapse_spaces true s else 32%N :: collapse_spaces true s)
              else c :: collapse_spaces false s
  end.

(** [[...s]]: the code points of a string. *)
Fixpoint characters (s : jstring) : list jstring :=
  match s with
  | [] => []
  | c :: s' =>
    match s' with
    | d :: s'' => if is_lead c && is_trail d then [c; d] :: characters s'' else [c] :: characters s'
    | [] => [[c]]
    end
  end.

Fixpoint trigrams (chars : list jstring) : list jstring :=
  match chars with
  | a :: ((b :: c :: _) as rest) => (a ++ b ++ c) :: trigrams rest
  | _ => []
  end.

Section similarity.
Context `{TextTools}.

Definition sameRenameExtension (left right : jstring) : bool :=
  to_locale_lower (extname left) =s? to_locale_lower (extname right).

Definition similarityText (blob : list N) : option jstring :=
  if (SIMILAR_RENAME_MAX_BYTES <? length blob)%nat || has_unit 0 blob then None
  else let text := utf8_decode blob in if has_unit 65533 text then None else Some text.

Definition similarityTokens (text : jstring) : list jstring :=
  let normalized := trim (collapse_spaces false (to_locale_lower text)) in
  if bool_decide (normalized = []) then [] else
  let words := word_runs normalized in
  if (8 <=? length words)%nat then words else
  let chars := characters normalized in
  if (length chars <=? 3)%nat then [normalized] else trigrams chars.

(** The tokens that find one of theirs left in [counts]. *)
Fixpoint intersection (counts : jmap nat) (tokens : list jstring) : nat :=
  match tokens with
  | [] => 0
  | token :: tokens =>
      let count := default 0 (mget counts token) in
      if (0 <? count)%nat then S (intersection (mset counts token (count - 1)) tokens) else intersection counts tokens
  end.

Definition token_counts (tokens : list jstring) : jmap nat :=
  fold_left (λ counts token, mset counts token (S (default 0 (mget counts token)))) tokens [].

(** [contentSimilarity], as the numerator and denominator of the score. *)
Definition contentSimilarity (left right : list N) : nat * nat :=
  match similarityText left, similarityText right with
  | Some leftText, Some rightText =>
      if leftText =s? rightText then (1, 1) else
      let leftTokens := similarityTokens leftText in
      let rightTokens := similarityTokens rightText in
      if bool_decide (leftTokens = []) || bool_decide (rightTokens = []) then (0, 1) else
      (2 * intersection (token_counts leftTokens) rightTokens, length leftTokens + length rightTokens)
  | _, _ => (0, 1)
  end.

(** [score >= SIMILAR_RENAME_THRESHOLD], which is 0.72; sizes are below the bound
    where the quotient of the language could round to the threshold. *)
Definition similar_enough (score : nat * nat) : bool := (72 * score.2 <=? 100 * score.1)%nat.

End similarity.

(** ** Renames *)

Definition recordRenameCandidate (candidates : jmap (list jstring)) (basePath targetPath : jstring) : jmap (list jstring) :=
  mset candidates basePath (set_add (default [] (mget candidates basePath)) targetPath).

Definition groupPathsByOid (paths : list jstring) (oidByPath : blob_map) : jmap (list jstring) :=
  fold_left (λ groups path,
    match oidByPath !! path with
    | None | Some [] => groups
    | Some oid => mset groups oid (default [] (mget groups oid) ++ [path])
    end) paths [].

(** One object: every pair is a candidate, and the only pair is a rename. *)
Definition infer_exact (addsByOid : jmap (list jstring)) (found : list InferredPair * jmap (list jstring)) (group : jstring * list jstring) :
    list InferredPair * jmap (list jstring) :=
  let '(oid, deleted) := group in
  let added := default [] (mget addsByOid oid) in
  let candidates := fold_left (λ candidates basePath,
      fold_left (λ candidates targetPath, recordRenameCandidate candidates basePath targetPath) added candidates) deleted found.2 in
  match deleted, added with
  | [basePath], [targetPath] => (found.1 ++ [mk_inferred basePath targetPath ConfExactBlob], candidates)
  | _, _ => (found.1, candidates)
  end.

Definition inferExactRenamePairs (deletePaths addPaths : list jstring) (baseBlobs targetBlobs : blob_map)
    (candidates : jmap (list jstring)) : list InferredPair * jmap (list jstring) :=
  fold_left (infer_exact (groupPathsByOid addPaths targetBlobs)) (groupPathsByOid deletePaths baseBlobs) ([], candidates).

(** The lists of a map to which pairs are pushed in order. *)
Definition push_pair (m : jmap (list jstring)) (kv : jstring * jstring) : jmap (list jstring) :=
  mset m kv.1 (default [] (mget m kv.1) ++ [kv.2]).
Definition collect (kvs : list (jstring * jstring)) : jmap (list jstring) := fold_left push_pair kvs [].

Section inference.
Context `{TextTools}.

(** [readBase] and [readTarget] read the blobs of the two commits. *)
Definition similar_pair (readBase readTarget : jstring → option (list N)) (basePath targetPath : jstring) : bool :=
  sameRenameExtension basePath targetPath &&
  match readBase basePath, readTarget targetPath with
  | Some baseBlob, Some targetBlob => similar_enough (contentSimilarity baseBlob targetBlob)
  | _, _ => false
  end.

Definition similar_pairs (readBase readTarget : jstring → option (list N)) (deletePaths addPaths : list jstring) : list (jstring * jstring) :=
  flat_map (λ basePath, map (pair basePath) (List.filter (similar_pair readBase readTarget basePath) addPaths)) deletePaths.

Definition inferSimilarRenamePairs (readBase readTarget : jstring → option (list N)) (deletePaths addPaths : list jstring)
    (candidates : jmap (list jstring)) : list InferredPair * jmap (list jstring) :=
  let found := similar_pairs readBase readTarget deletePaths addPaths in
  let candidates := fold_left (λ candidates bt, recordRenameCandidate candidates bt.1 bt.2) found candidates in
  let candidatesByBase := collect found in
  let candidatesByTarget := collect (map (λ bt, (bt.2, bt.1)) found) in
  (flat_map (λ '(basePath, targets),
     match targets with
     | [targetPath] => if (length (default [] (mget candidatesByTarget targetPath)) =? 1)%nat
                       then [mk_inferred basePath targetPath ConfSimilarContent] else []
     | _ => []
     end) candidatesByBase, candidates).

End inference.

(** ** Summaries *)

Record gathered := mk_gathered {
  k_explicit : list InferredPair;
  k_deletes : list jstring;
  k_adds : list jstring;
  k_edits : list jstring;
  k_candidates : jmap (list jstring)
}.

Definition has_blob (blobs : blob_map) (path : jstring) : bool := bool_decide (is_Some (blobs !! path)).

(** One turn of the first loop of [summarizeStructuralChanges]. *)
Definition gather (baseBlobs targetBlobs : blob_map) (k : gathered) (entry : GitDiffEntry) : gathered :=
  let status := take 1 (g_status entry) in
  let path := g_path entry in
  let '(mk_gathered explicit deletes adds edits candidates) := k in
  let delete := mk_gathered explicit (set_add deletes path) adds edits candidates in
  let add := mk_gathered explicit deletes (set_add adds path) edits candidates in
  match match g_oldPath entry with
        | Some (c :: old) => if starts_with "R" (g_status entry) && negb ((c :: old) =s? path) then Some (c :: old) else None
        | _ => None
        end with
  | Some oldPath => mk_gathered (explicit ++ [mk_inferred oldPath path ConfGit]) deletes adds edits (recordRenameCandidate candidates oldPath path)
  | None =>
    if status =s? "D" then delete
    else if (status =s? "A") || (status =s? "C") then add
    else if has_blob baseBlobs path && has_blob targetBlobs path then mk_gathered explicit deletes adds (set_add edits path) candidates
    else if has_blob baseBlobs path then delete
    else if has_blob targetBlobs path then add
    else k
  end.

(** The actions by base path, and the additions by target path, in their order. *)
Definition index_base (actions : list StructuralAction) : jmap StructuralAction :=
  fold_left (λ m action, match a_basePath action with Some path => mset m path action | None => m end) actions [].
Definition index_adds (actions : list StructuralAction) : jmap StructuralAction :=
  fold_left (λ m action, match a_targetPath action with
                         | Some path => if bool_decide (a_kind action = ActAdd) then mset m path action else m
                         | None => m
                         end) actions [].

Definition rename_action (baseBlobs targetBlobs : blob_map) (pair : InferredPair) : StructuralAction :=
  mk_action ActRename (Some (ip_base pair)) (Some (ip_target pair)) (baseBlobs !! ip_base pair) (targetBlobs !! ip_target pair)
    (Some (ip_confidence pair)).
Definition edit_action (baseBlobs targetBlobs : blob_map) (path : jstring) : StructuralAction :=
  mk_action ActEdit (Some path) (Some path) (baseBlobs !! path) (targetBlobs !! path) None.
Definition delete_action (baseBlobs : blob_map) (path : jstring) : StructuralAction :=
  mk_action ActDelete (Some path) None (baseBlobs !! path) None None.
Definition add_action (targetBlobs : blob_map) (path : jstring) : StructuralAction :=
  mk_action ActAdd None (Some path) None (targetBlobs !! path) None.

Definition without_paths (paths : list jstring) (set : list jstring) : list jstring := List.filter (λ p, negb (jmem p paths)) set.

Section summaries.
Context `{TextTools}.

Definition summarizeStructuralChanges (changes : list GitDiffEntry) (baseBlobs targetBlobs : blob_map)
    (readBase readTarget : jstring → option (list N)) : StructuralSummary :=
  let k := fold_left (gather baseBlobs targetBlobs) changes (mk_gathered [] [] [] [] []) in
  let '(exactRenames, candidates) := inferExactRenamePairs (k_deletes k) (k_adds k) baseBlobs targetBlobs (k_candidates k) in
  let deletes := without_paths (map ip_base exactRenames) (k_deletes k) in
  let adds := without_paths (map ip_target exactRenames) (k_adds k) in
  let '(similarRenames, candidates) := inferSimilarRenamePairs readBase readTarget deletes adds candidates in
  let deletes := without_paths (map ip_base similarRenames) deletes in
  let adds := without_paths (map ip_target similarRenames) adds in
  let actions :=
    map (rename_action baseBlobs targetBlobs) (k_explicit k ++ exactRenames ++ similarRenames)
    ++ map (edit_action baseBlobs targetBlobs) (sort_strings (k_edits k))
    ++ map (delete_action baseBlobs) (sort_strings deletes)
    ++ map (add_action targetBlobs) (sort_strings adds) in
  mk_summary actions (index_base actions) (index_adds actions) candidates.

End summaries.

(** ** Conflicts *)

Definition actionTouchesPath (action : StructuralAction) (path : jstring) : bool :=
  match a_targetPath action with Some (c :: target) => changedPathsConflict (c :: target) path | _ => false end
  || bool_decide (a_kind action = ActDelete) && match a_basePath action with Some base => changedPathsConflict base path | None => false end.

Definition nonempty_path (path : option jstring) : list jstring := match path with Some (c :: p) => [c :: p] | _ => [] end.
Definition structuralActionPaths (actions : list StructuralAction) : list jstring :=
  sorted_set (flat_map (λ action, nonempty_path (a_basePath action) ++ nonempty_path (a_targetPath action)) actions).

Definition structuralConflict (reason : string) (paths : list jstring) : StructuralConflict :=
  mk_conflict (lit reason) (sorted_set paths).

Definition singleSamePath (left right : list jstring) : bool :=
  match left, right with [p], [q] => p =s? q | _, _ => false end.

Definition renameEditPathCollision (basePath : jstring) (renameAction : StructuralAction) (editingSide : StructuralSummary) : option StructuralConflict :=
  match a_targetPath renameAction with
  | Some (c :: target) =>
      match List.find (λ action, negb (bool_decide (a_basePath action = Some basePath)) && actionTouchesPath action (c :: target)) (s_actions editingSide) with
      | Some action => Some (structuralConflict "rename_path_collision" (structuralActionPaths [renameAction; action]))
      | None => None
      end
  | _ => None
  end.

Definition structuralBasePathConflict (basePath : jstring) (leftAction rightAction : StructuralAction) (left right : StructuralSummary) : option StructuralConflict :=
  let both := structuralActionPaths [leftAction; rightAction] in
  match a_kind leftAction, a_kind rightAction with
  | ActRename, ActRename =>
      if bool_decide (a_targetPath leftAction = a_targetPath rightAction) then None
      else Some (structuralConflict "rename_rename_conflict" both)
  | ActRename, ActDelete | ActDelete, ActRename => Some (structuralConflict "rename_delete_conflict" both)
  | ActDelete, ActEdit | ActEdit, ActDelete => Some (structuralConflict "delete_edit_conflict" both)
  | ActRename, ActEdit => renameEditPathCollision basePath leftAction right
  | ActEdit, ActRename => renameEditPathCollision basePath rightAction left
  | ActDelete, ActDelete =>
      let leftTargets := default [] (mget (s_candidates left) basePath) in
      let rightTargets := default [] (mget (s_candidates right) basePath) in
      if bool_decide (leftTargets = []) && bool_decide (rightTargets = []) then None
      else if singleSamePath leftTargets rightTargets then None
      else Some (structuralConflict "ambiguous_rename_conflict" (basePath :: leftTargets ++ rightTargets))
  | _, _ => None
  end.

Definition is_rename (action : StructuralAction) : bool := bool_decide (a_kind action = ActRename).

(** The same rename on both sides. *)
Definition same_rename (other action : StructuralAction) : bool :=
  is_rename other && bool_decide (a_basePath other = a_basePath action) && bool_decide (a_targetPath other = a_targetPath action).

Definition collides (renameAction otherAction : StructuralAction) : bool :=
  match a_targetPath renameAction with
  | Some (c :: target) => negb (same_rename otherAction renameAction) && actionTouchesPath otherAction (c :: target)
  | _ => false
  end.

(** The first [Some] of a loop that returns from its body. *)
Fixpoint first_some {A B} (f : A → option B) (l : list A) : option B :=
  match l with [] => None | x :: l => match f x with Some y => Some y | None => first_some f l end end.

Definition renameTargetCollision (left right : StructuralSummary) : option StructuralConflict :=
  first_some (λ renameAction, first_some (λ otherAction,
      if collides renameAction otherAction
      then Some (structuralConflict "rename_path_collision" (structuralActionPaths [renameAction; otherAction])) else None)
    (s_actions right)) (List.filter is_rename (s_actions left)).

Definition structuralMergeConflict (left right : StructuralSummary) : option StructuralConflict :=
  match first_some (λ '(basePath, leftAction),
          match mget (s_byBasePath right) basePath with
          | None => None
          | Some rightAction => structuralBasePathConflict basePath leftAction rightAction left right
          end) (s_byBasePath left) with
  | Some conflict => Some conflict
  | None => match renameTargetCollision left right with Some conflict => Some conflict | None => renameTargetCollision right left end
  end.

(** ** Stripping what both sides did *)

(** [structuralSummaryWithoutIdentities]. *)
Definition strip_action (identities : list jstring) (action : StructuralAction) : list StructuralAction :=
  match a_kind action, a_basePath action, a_targetPath action with
  | ActRename, Some (b :: base), Some (c :: target) =>
      if negb (jmem (c :: target) identities) then [action]
      else if jmem (b :: base) identities then []
      else [mk_action ActDelete (a_basePath action) None (a_baseOid action) None None]
  | _, _, _ =>
      match match a_targetPath action with Some p => Some p | None => a_basePath action end with
      | Some (c :: path) => if jmem (c :: path) identities then [] else [action]
      | _ => [action]
      end
  end.

Definition structuralSummaryWithoutIdentities (summary : StructuralSummary) (identities : list jstring) : StructuralSummary :=
  let actions := flat_map (strip_action identities) (s_actions summary) in
  mk_summary actions (index_base actions) (index_adds actions)
    (map (λ '(path, targets), (path, without_paths identities targets))
       (List.filter (λ pt, negb (jmem pt.1 identities)) (s_candidates summary))).

(** [applyExplicitRenamePairsToSummary]. *)
Definition apply_explicit_pair (baseBlobs targetBlobs : blob_map) (summary : list StructuralAction * jmap (list jstring))
    (pair : jstring * jstring) : list StructuralAction * jmap (list jstring) :=
  let '(actions, candidates) := summary in
  match baseBlobs !! pair.1, targetBlobs !! pair.2 with
  | Some baseOid, Some targetOid =>
      (List.filter (λ action, negb (bool_decide (a_basePath action = Some pair.1)) && negb (bool_decide (a_targetPath action = Some pair.2))) actions
         ++ [mk_action ActRename (Some pair.1) (Some pair.2) (Some baseOid) (Some targetOid) (Some ConfExplicit)],
       mset candidates pair.1 [pair.2])
  | _, _ => (actions, candidates)
  end.

Definition action_key (action : StructuralAction) : jstring :=
  match a_basePath action with Some p => p | None => default [] (a_targetPath action) end.

Section explicit.
Context `{U : Unicode}.

Definition applyExplicitRenamePairsToSummary (summary : StructuralSummary) (pairs : list (jstring * jstring))
    (baseBlobs targetBlobs : blob_map) : StructuralSummary :=
  let '(actions, candidates) := fold_left (apply_explicit_pair baseBlobs targetBlobs) pairs (s_actions summary, s_candidates summary) in
  let actions := isort (λ a b, locale_leb (action_key a) (action_key b)) actions in
  mk_summary actions (index_base actions) (index_adds actions) candidates.

End explicit.

(** ** The order of the sides *)

Lemma first_some_None {A B} (f : A → option B) l : first_some f l = None ↔ ∀ x, x ∈ l → f x = None.
Proof.
  induction l as [|x l IH]; cbn; [split; [by intros _ y Hy%not_elem_of_nil|done]|].
  destruct (f x) eqn:E.
  - split; [done|]. intros H. rewrite <- E. apply H. by left.
  - rewrite IH. split; [|intros H y Hy; apply H; by right]. intros H y [->|Hy]%elem_of_cons; auto.
Qed.

Lemma singleSamePath_sym l k : singleSamePath l k = singleSamePath k l.
Proof. destruct l as [|p [|]], k as [|q [|]]; cbn; try done. apply jeqb_sym. Qed.

Lemma base_conflict_sym base l r left right :
  structuralBasePathConflict base l r left right = None ↔ structuralBasePathConflict base r l right left = None.
Proof.
  unfold structuralBasePathConflict. destruct (a_kind l), (a_kind r); try done.
  - rewrite (andb_comm (bool_decide (default [] (mget (s_candidates left) base) = []))), singleSamePath_sym.
    destruct (_ && _); [done|]. destruct (singleSamePath _ _); done.
  - rewrite (bool_decide_ext (a_targetPath l = a_targetPath r) (a_targetPath r = a_targetPath l)) by (split; intros; by symmetry).
    destruct (bool_decide _); done.
Qed.

Lemma mget_in {A} (m : jmap A) k v : mget m k = Some v → (k, v) ∈ m.
Proof.
  induction m as [|[k' v'] m IH]; cbn; [done|]. destruct (jeqb_spec k' k) as [->|]; [intros [= ->]; by left|]. intros. right. by apply IH.
Qed.

Lemma mget_unique {A} (m : jmap A) k v : NoDup (mkeys m) → (k, v) ∈ m → mget m k = Some v.
Proof. intros Hnd H. by apply mget_elem. Qed.

(** The verdict does not depend on which side comes first. For any two
    summaries whose actions are indexed by base path, the server finds a structural
    conflict between its changes and the device's exactly when it finds one between
    the device's and its own: who is asked first decides only which conflict is named. *)
Theorem structural_conflict_symmetric (left right : StructuralSummary) :
  NoDup (mkeys (s_byBasePath left)) → NoDup (mkeys (s_byBasePath right)) →
  structuralMergeConflict left right = None ↔ structuralMergeConflict right left = None.
Proof.
  intros Hl Hr.
  assert (∀ a b, NoDup (mkeys (s_byBasePath a)) → NoDup (mkeys (s_byBasePath b)) →
    structuralMergeConflict a b = None → structuralMergeConflict b a = None) as H; [|split; by apply H].
  intros a b Ha Hb Hab. unfold structuralMergeConflict in *.
  destruct (first_some _ (s_byBasePath a)) eqn:E1 in Hab; [done|]. rewrite first_some_None in E1.
  destruct (first_some _ (s_byBasePath b)) as [c|] eqn:E2.
  { exfalso. apply (eq_None_not_Some (Some c)); [|by eexists]. rewrite <- E2. apply first_some_None. intros [base action] Hin.
    destruct (mget (s_byBasePath a) base) as [action'|] eqn:Ea; [|done]. apply base_conflict_sym.
    specialize (E1 (base, action') (mget_in _ _ _ Ea)). cbn in E1. by rewrite (mget_unique _ _ _ Hb Hin) in E1. }
  destruct (renameTargetCollision a b); [done|]. by rewrite Hab.
Qed.

(** ** Every change is accounted for once *)

(** *** Grouping by object *)

Definition has_oid (oids : blob_map) (oid : jstring) (p : jstring) : bool := bool_decide (oids !! p = Some oid).

Lemma group_lookup oids oid paths : ∀ groups, oid ≠ [] →
  default [] (mget (fold_left (λ groups path,
    match oids !! path with
    | None | Some [] => groups
    | Some oid => mset groups oid (default [] (mget groups oid) ++ [path])
    end) paths groups) oid) = default [] (mget groups oid) ++ List.filter (has_oid oids oid) paths.
Proof.
  induction paths as [|p paths IH]; intros groups Ho; cbn [fold_left List.filter]; [by rewrite app_nil_r|].
  rewrite IH by done. unfold has_oid at 2. destruct (oids !! p) as [[|c o]|] eqn:E.
  - rewrite bool_decide_false by congruence. done.
  - destruct (decide (c :: o = oid)) as [<-|Hne].
    + rewrite bool_decide_true, mget_mset, jeqb_refl by done. cbn -[List.filter mget]. by rewrite <- app_assoc.
    + rewrite bool_decide_false by congruence. rewrite mget_mset. by apply jeqb_neq in Hne as ->.
  - rewrite bool_decide_false by congruence. done.
Qed.

Lemma group_entries (oids : blob_map) (paths : list jstring) : ∀ groups, NoDup (mkeys groups) → (∀ o l, (o, l) ∈ groups → o ≠ [] ∧ l ≠ []) →
  let g := fold_left (λ groups path,
    match oids !! path with
    | None | Some [] => groups
    | Some oid => mset groups oid (default [] (mget groups oid) ++ [path])
    end) paths groups in
  NoDup (mkeys g) ∧ ∀ o l, (o, l) ∈ g → o ≠ [] ∧ l ≠ [].
Proof.
  induction paths as [|p paths IH]; intros groups Hnd Hg; [done|]. cbn [fold_left]. apply IH.
  - destruct (oids !! p) as [[|c o]|]; [done|by apply NoDup_mset|done].
  - destruct (oids !! p) as [[|c o]|]; [done| |done]. intros o' l Hin.
    apply mget_elem in Hin; [|by apply NoDup_mset]. rewrite mget_mset in Hin. destruct (jeqb_spec (c :: o) o') as [<-|Hne].
    + injection Hin as <-. split; [done|]. intros E. by apply app_eq_nil in E as [_ E].
    + apply Hg. by apply mget_elem.
Qed.

Lemma group_spec (oids : blob_map) (paths : list jstring) : NoDup (mkeys (groupPathsByOid paths oids)) ∧
  (∀ o, o ≠ [] → default [] (mget (groupPathsByOid paths oids) o) = List.filter (has_oid oids o) paths) ∧
  ∀ o l, (o, l) ∈ groupPathsByOid paths oids → o ≠ [] ∧ l = List.filter (has_oid oids o) paths.
Proof.
  destruct (group_entries oids paths [] (NoDup_nil_2) ltac:(intros o l H; by apply not_elem_of_nil in H)) as [Hnd Hg].
  assert (∀ o, o ≠ [] → default [] (mget (groupPathsByOid paths oids) o) = List.filter (has_oid oids o) paths) as Hl.
  { intros o Ho. exact (group_lookup oids o paths [] Ho). }
  split_and!; [done|done|]. intros o l Hin. destruct (Hg o l Hin) as [Ho _]. split; [done|].
  rewrite <- Hl by done. assert (NoDup (mkeys (groupPathsByOid paths oids))) as Hnd' by exact Hnd. by rewrite (mget_unique _ _ _ Hnd' Hin).
Qed.

(** *** Exact renames *)

Definition exact_of (adds : list jstring) (targetBlobs : blob_map) (group : jstring * list jstring) : list InferredPair :=
  match group.2, default [] (mget (groupPathsByOid adds targetBlobs) group.1) with
  | [basePath], [targetPath] => [mk_inferred basePath targetPath ConfExactBlob]
  | _, _ => []
  end.

Lemma infer_exact_pairs adds targetBlobs groups : ∀ found,
  (fold_left (infer_exact (groupPathsByOid adds targetBlobs)) groups found).1 = found.1 ++ flat_map (exact_of adds targetBlobs) groups.
Proof.
  induction groups as [|[o l] groups IH]; intros found; cbn [fold_left flat_map]; [by rewrite app_nil_r|]. rewrite IH.
  unfold infer_exact, exact_of. cbn [fst snd]. destruct l as [|b [|]]; [done| |done].
  destruct (default [] _) as [|t [|]]; [done| |done]. cbn [fst]. by rewrite <- app_assoc.
Qed.

Lemma inferExact_pairs deletes adds baseBlobs targetBlobs candidates :
  (inferExactRenamePairs deletes adds baseBlobs targetBlobs candidates).1 =
  flat_map (exact_of adds targetBlobs) (groupPathsByOid deletes baseBlobs).
Proof. apply infer_exact_pairs. Qed.

(** What an exact pair is: the only deleted and the only added file with an object. *)
Definition exact_pair (deletes adds : list jstring) (baseBlobs targetBlobs : blob_map) (x : InferredPair) : Prop :=
  ip_confidence x = ConfExactBlob ∧ ∃ o, o ≠ [] ∧
    List.filter (has_oid baseBlobs o) deletes = [ip_base x] ∧ List.filter (has_oid targetBlobs o) adds = [ip_target x].

Lemma exact_of_spec deletes adds baseBlobs targetBlobs o l x : o ≠ [] → l = List.filter (has_oid baseBlobs o) deletes →
  x ∈ exact_of adds targetBlobs (o, l) → 
  List.filter (has_oid baseBlobs o) deletes = [ip_base x] ∧ List.filter (has_oid targetBlobs o) adds = [ip_target x] ∧ ip_confidence x = ConfExactBlob.
Proof.
  intros Ho -> Hx. unfold exact_of in Hx. cbn [fst snd] in Hx. destruct (group_spec targetBlobs adds) as (_ & Hl & _). rewrite Hl in Hx by done.
  destruct (List.filter (has_oid baseBlobs o) deletes) as [|b [|]]; try by apply not_elem_of_nil in Hx.
  destruct (List.filter (has_oid targetBlobs o) adds) as [|t [|]]; try by apply not_elem_of_nil in Hx.
  apply list_elem_of_singleton in Hx as ->. done.
Qed.

Lemma inferExact_spec deletes adds baseBlobs targetBlobs candidates :
  let pairs := (inferExactRenamePairs deletes adds baseBlobs targetBlobs candidates).1 in
  Forall (exact_pair deletes adds baseBlobs targetBlobs) pairs ∧ NoDup (map ip_base pairs) ∧ NoDup (map ip_target pairs).
Proof.
  cbn zeta. rewrite inferExact_pairs. destruct (group_spec baseBlobs deletes) as (Hnd & _ & Hg).
  induction (groupPathsByOid deletes baseBlobs) as [|[o l] groups IH]; [by repeat constructor|].
  cbn [mkeys map fst] in Hnd. apply NoDup_cons in Hnd as [Ho Hnd]. destruct IH as (I1 & I2 & I3); [done|intros o' l' H; apply Hg; by right|].
  destruct (Hg o l ltac:(left)) as [Hoe Hl]. cbn [flat_map].
  assert (∀ x y, x ∈ exact_of adds targetBlobs (o, l) → y ∈ flat_map (exact_of adds targetBlobs) groups →
    ip_base x ≠ ip_base y ∧ ip_target x ≠ ip_target y) as Hdis.
  { intros x y Hx Hy. apply list_elem_of_In, in_flat_map in Hy as ([o' l'] & Hin & Hy).
    apply list_elem_of_In in Hin. apply list_elem_of_In in Hy. destruct (Hg o' l' ltac:(by right)) as [Hoe' Hl'].
    destruct (exact_of_spec deletes adds baseBlobs targetBlobs o l x Hoe Hl Hx) as (X1 & X2 & _).
    destruct (exact_of_spec deletes adds baseBlobs targetBlobs o' l' y Hoe' Hl' Hy) as (Y1 & Y2 & _).
    assert (o ≠ o') as Hne. { intros <-. apply Ho. by apply (list_elem_of_fmap_2 fst _ (o, l')). }
    assert (∀ (blobs : blob_map) set p q, List.filter (has_oid blobs o) set = [p] → List.filter (has_oid blobs o') set = [q] → p ≠ q) as H.
    { intros blobs set p q Hp Hq <-. assert (p ∈ List.filter (has_oid blobs o) set) as H1 by (rewrite Hp; left).
      assert (p ∈ List.filter (has_oid blobs o') set) as H2 by (rewrite Hq; left).
      apply filter_elem in H1 as [_ H1], H2 as [_ H2]. unfold has_oid in H1, H2. apply bool_decide_eq_true in H1, H2. congruence. }
    split; by eapply H. }
  assert (length (exact_of adds targetBlobs (o, l)) ≤ 1) as Hlen.
  { unfold exact_of. cbn [fst snd]. destruct l as [|b [|]]; cbn; try lia. destruct (default [] _) as [|t [|]]; cbn; lia. }
  assert (∀ (f : InferredPair → jstring), NoDup (map f (exact_of adds targetBlobs (o, l)))) as Hone.
  { intros f. destruct (exact_of adds targetBlobs (o, l)) as [|x [|]]; cbn in Hlen |- *; [constructor|apply NoDup_singleton|lia]. }
  split_and!.
  - apply Forall_app. split; [|done]. apply Forall_forall. intros x Hx.
    destruct (exact_of_spec deletes adds baseBlobs targetBlobs o l x Hoe Hl Hx) as (X1 & X2 & X3). split; [done|]. by exists o.
  - rewrite map_app. apply NoDup_app. split_and!; [apply Hone| |done].
    intros p (x & -> & Hx)%list_elem_of_fmap (y & E & Hy)%list_elem_of_fmap. by destruct (Hdis x y Hx Hy).
  - rewrite map_app. apply NoDup_app. split_and!; [apply Hone| |done].
    intros p (x & -> & Hx)%list_elem_of_fmap (y & E & Hy)%list_elem_of_fmap. by destruct (Hdis x y Hx Hy).
Qed.

(** *** Similar renames *)

Definition keyed (k : jstring) (kvs : list (jstring * jstring)) : list jstring :=
  map snd (List.filter (λ kv, kv.1 =s? k) kvs).

Lemma collect_acc kvs : ∀ m, NoDup (mkeys m) → NoDup (mkeys (fold_left push_pair kvs m)) ∧
  ∀ k, default [] (mget (fold_left push_pair kvs m) k) = default [] (mget m k) ++ keyed k kvs.
Proof.
  induction kvs as [|[k v] kvs IH]; intros m Hm; [split; [done|]; intros k; by rewrite app_nil_r|]. cbn [fold_left].
  destruct (IH (push_pair m (k, v))) as [I1 I2]; [by apply NoDup_mset|]. split; [done|]. intros j. rewrite I2.
  unfold push_pair, keyed. cbn [fst snd List.filter]. rewrite mget_mset. destruct (jeqb_spec k j) as [->|]; [|done].
  cbn -[List.filter mget]. by rewrite <- app_assoc.
Qed.

Lemma collect_spec kvs : NoDup (mkeys (collect kvs)) ∧ (∀ k, default [] (mget (collect kvs) k) = keyed k kvs) ∧
  ∀ k l, (k, l) ∈ collect kvs → l = keyed k kvs.
Proof.
  destruct (collect_acc kvs [] (NoDup_nil_2)) as [H1 H2]. split_and!; [exact H1|exact H2|].
  intros k l Hin. pose proof (H2 k) as E. change (fold_left push_pair kvs []) with (collect kvs) in E, H1.
  by rewrite (mget_unique _ _ _ H1 Hin) in E.
Qed.

Lemma keyed_elem k kvs v : v ∈ keyed k kvs ↔ (k, v) ∈ kvs.
Proof.
  unfold keyed. rewrite list_elem_of_fmap. split.
  - intros ([k' v'] & -> & [H E]%filter_elem). cbn in *. by apply jeqb_eq in E as ->.
  - intros H. exists (k, v). split; [done|]. apply filter_elem. split; [done|]. apply jeqb_refl.
Qed.

Section similar.
Context `{TextTools}.

Definition similar_of (kvs : list (jstring * jstring)) (group : jstring * list jstring) : list InferredPair :=
  match group.2 with
  | [targetPath] => if (length (default [] (mget (collect (map (λ bt, (bt.2, bt.1)) kvs)) targetPath)) =? 1)%nat
                    then [mk_inferred group.1 targetPath ConfSimilarContent] else []
  | _ => []
  end.

Lemma inferSimilar_pairs readBase readTarget deletes adds candidates :
  (inferSimilarRenamePairs readBase readTarget deletes adds candidates).1 =
  flat_map (similar_of (similar_pairs readBase readTarget deletes adds)) (collect (similar_pairs readBase readTarget deletes adds)).
Proof. unfold inferSimilarRenamePairs. cbn [fst]. apply flat_map_ext. by intros [b l]. Qed.

(** What a similar pair is: each is the only candidate of the other. *)
Lemma similar_of_spec kvs b l x : l = keyed b kvs → x ∈ similar_of kvs (b, l) →
  ip_confidence x = ConfSimilarContent ∧ ip_base x = b ∧ keyed b kvs = [ip_target x] ∧ keyed (ip_target x) (map (λ bt, (bt.2, bt.1)) kvs) = [b].
Proof.
  intros El Hx. unfold similar_of in Hx. cbn [fst snd] in Hx. destruct l as [|t [|]]; try by apply not_elem_of_nil in Hx.
  destruct (collect_spec (map (λ bt, (bt.2, bt.1)) kvs)) as (_ & E & _). rewrite E in Hx.
  destruct (length _ =? 1)%nat eqn:El1; [|by apply not_elem_of_nil in Hx]. apply list_elem_of_singleton in Hx as ->. cbn.
  split_and!; [done|done|done|]. apply Nat.eqb_eq in El1.
  assert (b ∈ keyed t (map (λ bt, (bt.2, bt.1)) kvs)) as Hb.
  { apply keyed_elem. assert ((b, t) ∈ kvs) as Hin by (apply keyed_elem; rewrite <- El; left).
    by apply (list_elem_of_fmap_2 (λ bt : jstring * jstring, (bt.2, bt.1)) _ (b, t)). }
  destruct (keyed t _) as [|c [|]]; cbn in El1; try lia. apply list_elem_of_singleton in Hb as ->. done.
Qed.

Lemma inferSimilar_spec readBase readTarget deletes adds candidates :
  let pairs := (inferSimilarRenamePairs readBase readTarget deletes adds candidates).1 in
  Forall (λ x, ip_confidence x = ConfSimilarContent ∧ ip_base x ∈ deletes ∧ ip_target x ∈ adds ∧
    similar_pair readBase readTarget (ip_base x) (ip_target x) = true) pairs ∧
  NoDup (map ip_base pairs) ∧ NoDup (map ip_target pairs).
Proof.
  cbn zeta. rewrite inferSimilar_pairs. set (kvs := similar_pairs readBase readTarget deletes adds).
  destruct (collect_spec kvs) as (Hnd & _ & Hg). 
  assert (∀ b t, (b, t) ∈ kvs → b ∈ deletes ∧ t ∈ adds ∧ similar_pair readBase readTarget b t = true) as Hkvs.
  { intros b t Hin. apply list_elem_of_In, in_flat_map in Hin as (b' & Hb & Hin). apply in_map_iff in Hin as (t' & [= <- <-] & Hin).
    apply filter_In in Hin as [Ht Hs]. by rewrite !list_elem_of_In. }
  induction (collect kvs) as [|[b l] groups IH]; [by repeat constructor|].
  cbn [mkeys map fst] in Hnd. apply NoDup_cons in Hnd as [Hb Hnd]. destruct IH as (I1 & I2 & I3); [done|intros b' l' H'; apply Hg; by right|].
  pose proof (Hg b l ltac:(left)) as El. cbn [flat_map].
  assert (∀ x y, x ∈ similar_of kvs (b, l) → y ∈ flat_map (similar_of kvs) groups → ip_base x ≠ ip_base y ∧ ip_target x ≠ ip_target y) as Hdis.
  { intros x y Hx Hy. apply list_elem_of_In, in_flat_map in Hy as ([b' l'] & Hin & Hy).
    apply list_elem_of_In in Hin. apply list_elem_of_In in Hy. pose proof (Hg b' l' ltac:(by right)) as El'.
    destruct (similar_of_spec kvs b l x El Hx) as (_ & -> & _ & Xt). destruct (similar_of_spec kvs b' l' y El' Hy) as (_ & -> & _ & Yt).
    assert (b ≠ b') as Hne. { intros <-. apply Hb. by apply (list_elem_of_fmap_2 fst _ (b, l')). }
    split; [done|]. intros E. rewrite E, Yt in Xt. congruence. }
  assert (length (similar_of kvs (b, l)) ≤ 1) as Hlen.
  { unfold similar_of. cbn [fst snd]. destruct l as [|t [|]]; cbn; try lia. destruct (_ =? 1)%nat; cbn; lia. }
  assert (∀ (f : InferredPair → jstring), NoDup (map f (similar_of kvs (b, l)))) as Hone.
  { intros f. destruct (similar_of kvs (b, l)) as [|x [|]]; cbn in Hlen |- *; [constructor|apply NoDup_singleton|lia]. }
  split_and!.
  - apply Forall_app. split; [|done]. apply Forall_forall. intros x Hx. destruct (similar_of_spec kvs b l x El Hx) as (Ec & -> & Et & _).
    split; [done|]. apply Hkvs, keyed_elem. rewrite Et. left.
  - rewrite map_app. apply NoDup_app. split_and!; [apply Hone| |done].
    intros p (x & -> & Hx)%list_elem_of_fmap (y & E & Hy)%list_elem_of_fmap. by destruct (Hdis x y Hx Hy).
  - rewrite map_app. apply NoDup_app. split_and!; [apply Hone| |done].
    intros p (x & -> & Hx)%list_elem_of_fmap (y & E & Hy)%list_elem_of_fmap. by destruct (Hdis x y Hx Hy).
Qed.

End similar.

(** *** Every changed path *)

Definition diff_endpoints (changes : list GitDiffEntry) : list jstring :=
  flat_map (λ e, match g_oldPath e with Some old => [old; g_path e] | None => [g_path e] end) changes.

(** What [git diff --name-status -M] gives between trees with these blobs: a path is
    named once, an entry with two paths is a rename, and the path of any other entry is
    deleted, added, or a blob on some side. *)
Record diff_ok (baseBlobs targetBlobs : blob_map) (changes : list GitDiffEntry) : Prop := {
  d_once : NoDup (diff_endpoints changes);
  d_entries : Forall (λ e, match g_oldPath e with
    | Some old => starts_with "R" (g_status e) = true ∧ old ≠ []
    | None => take 1 (g_status e) = lit "D" ∨ take 1 (g_status e) = lit "A" ∨ has_blob baseBlobs (g_path e) = true ∨ has_blob targetBlobs (g_path e) = true
    end) changes
}.

Definition gathered_paths (k : gathered) : list jstring :=
  map ip_base (k_explicit k) ++ map ip_target (k_explicit k) ++ k_deletes k ++ k_adds k ++ k_edits k.

Lemma set_add_fresh s x : x ∉ s → set_add s x = s ++ [x].
Proof. intros H. unfold set_add. destruct (jmem x s) eqn:E; [by apply jmem_elem in E|done]. Qed.

Lemma gather_paths baseBlobs targetBlobs k e :
  (match g_oldPath e with
   | Some old => starts_with "R" (g_status e) = true ∧ old ≠ []
   | None => take 1 (g_status e) = lit "D" ∨ take 1 (g_status e) = lit "A" ∨ has_blob baseBlobs (g_path e) = true ∨ has_blob targetBlobs (g_path e) = true
   end) →
  NoDup (gathered_paths k ++ diff_endpoints [e]) →
  gathered_paths (gather baseBlobs targetBlobs k e) ≡ₚ gathered_paths k ++ diff_endpoints [e].
Proof.
  intros He Hnd. destruct k as [ex del add edit cand]. unfold gathered_paths, diff_endpoints in *. cbn [flat_map k_explicit k_deletes k_adds k_edits] in *.
  rewrite app_nil_r in *. unfold gather. cbn [k_explicit k_deletes k_adds k_edits].
  destruct (g_oldPath e) as [old|].
  - destruct He as [Hr Hold]. destruct old as [|c old]; [done|]. rewrite Hr.
    assert (((c :: old) =s? g_path e) = false) as ->.
    { apply jeqb_neq. intros E. apply NoDup_app in Hnd as (_ & _ & Hnd). rewrite E in Hnd. apply NoDup_cons in Hnd as [Hnd _].
      apply Hnd. left. }
    cbn [negb andb k_explicit k_deletes k_adds k_edits]. rewrite !map_app. cbn [map ip_base ip_target]. solve_Permutation.
  - assert (∀ s, s ⊆ map ip_base ex ++ map ip_target ex ++ del ++ add ++ edit → set_add s (g_path e) = s ++ [g_path e]) as Hfresh.
    { intros s Hs. apply set_add_fresh. intros Hin. apply NoDup_app in Hnd as (_ & Hnd & _). apply (Hnd (g_path e)); [by apply Hs|left]. }
    rewrite !Hfresh by (intros x Hx; rewrite !elem_of_app; tauto).
    repeat (match goal with |- context [if ?c then _ else _] => destruct c eqn:? end; cbn [k_explicit k_deletes k_adds k_edits]; try solve_Permutation).
    exfalso. destruct He as [E|[E|[E|E]]]; rewrite ?E in *; try discriminate; congruence.
Qed.

Lemma gather_all baseBlobs targetBlobs changes : diff_ok baseBlobs targetBlobs changes →
  gathered_paths (fold_left (gather baseBlobs targetBlobs) changes (mk_gathered [] [] [] [] [])) ≡ₚ diff_endpoints changes.
Proof.
  intros [Hnd He]. assert (∀ k, NoDup (gathered_paths k ++ diff_endpoints changes) →
    gathered_paths (fold_left (gather baseBlobs targetBlobs) changes k) ≡ₚ gathered_paths k ++ diff_endpoints changes) as H; [|by apply H].
  clear Hnd. induction He as [|e changes He _ IH]; intros k Hk; [by rewrite app_nil_r|]. cbn [fold_left].
  assert (diff_endpoints (e :: changes) = diff_endpoints [e] ++ diff_endpoints changes) as E.
  { unfold diff_endpoints. cbn [flat_map]. by rewrite app_nil_r. }
  rewrite E, app_assoc in Hk |- *. assert (gathered_paths (gather baseBlobs targetBlobs k e) ≡ₚ gathered_paths k ++ diff_endpoints [e]) as Hp.
  { apply gather_paths; [done|]. by apply NoDup_app in Hk as (? & _ & _). }
  rewrite IH by (by rewrite Hp). by rewrite Hp.
Qed.

(** Taking out what was paired. *)
Lemma without_perm_paths paths set : NoDup set → NoDup paths → paths ⊆ set → paths ++ without_paths paths set ≡ₚ set.
Proof.
  intros Hs Hp Hsub. apply NoDup_Permutation; [|done|].
  - apply NoDup_app. split_and!; [done| |].
    + intros x Hx (_ & H)%filter_elem. apply negb_true_iff, not_true_iff_false in H. by apply H, jmem_elem.
    + unfold without_paths. eapply sublist_NoDup; [exact Hs|]. clear. induction set as [|x set IH]; cbn; [done|].
      destruct (negb _); by constructor.
  - intros x. unfold without_paths. rewrite elem_of_app, filter_elem, negb_true_iff. split; [intros [?|[? _]]; [by apply Hsub|done]|].
    intros Hx. destruct (jmem x paths) eqn:E; [left; by apply jmem_elem|by right].
Qed.

(** The paths an action names. *)
Definition action_paths (action : StructuralAction) : list jstring :=
  match a_kind action, a_basePath action with
  | ActEdit, Some p => [p]
  | _, _ => option_list (a_basePath action) ++ option_list (a_targetPath action)
  end.

Lemma flat_map_perm {A B} (f : A → list B) l k : l ≡ₚ k → flat_map f l ≡ₚ flat_map f k.
Proof. intros H. induction H; cbn; [done|by rewrite IHPermutation| |by etrans]. rewrite !app_assoc. by rewrite (Permutation_app_comm (f y)). Qed.

Lemma rename_paths baseBlobs targetBlobs pairs :
  flat_map action_paths (map (rename_action baseBlobs targetBlobs) pairs) ≡ₚ map ip_base pairs ++ map ip_target pairs.
Proof. induction pairs as [|x pairs IH]; cbn; [done|]. rewrite IH. by rewrite Permutation_middle. Qed.

Lemma singleton_paths (f : jstring → StructuralAction) paths : (∀ p, action_paths (f p) = [p]) → flat_map action_paths (map f paths) = paths.
Proof. intros H. induction paths as [|p paths IH]; cbn; [done|]. by rewrite H, IH. Qed.

Lemma flat_map_unique {A B} (f : A → list B) l x y p : NoDup (flat_map f l) → x ∈ l → y ∈ l → p ∈ f x → p ∈ f y → x = y.
Proof.
  assert (∀ z k, z ∈ k → p ∈ f z → p ∈ flat_map f k) as Hin.
  { intros z k Hz Hp. apply list_elem_of_In, in_flat_map. exists z. by rewrite <- !list_elem_of_In. }
  induction l as [|z l IH]; cbn; intros Hnd Hx Hy Px Py; [by apply not_elem_of_nil in Hx|].
  apply NoDup_app in Hnd as (_ & Hdis & Hnd).
  apply elem_of_cons in Hx as [->|Hx], Hy as [->|Hy]; [done| | |by apply IH].
  - destruct (Hdis p Px). by apply (Hin y).
  - destruct (Hdis p Py). by apply (Hin x).
Qed.

Lemma index_base_NoDup actions : NoDup (mkeys (index_base actions)).
Proof.
  unfold index_base. assert (∀ m, NoDup (mkeys m) → NoDup (mkeys (fold_left (λ m action,
    match a_basePath action with Some path => mset m path action | None => m end) actions m))) as H; [|apply H; constructor].
  induction actions as [|a actions IH]; intros m Hm; [done|]. cbn [fold_left]. apply IH. destruct (a_basePath a); [by apply NoDup_mset|done].
Qed.

Section accounts.
Context `{TextTools} (changes : list GitDiffEntry) (baseBlobs targetBlobs : blob_map) (readBase readTarget : jstring → option (list N)).

Lemma summary_paths : diff_ok baseBlobs targetBlobs changes →
  flat_map action_paths (s_actions (summarizeStructuralChanges changes baseBlobs targetBlobs readBase readTarget)) ≡ₚ diff_endpoints changes.
Proof.
  intros Hok. pose proof (gather_all baseBlobs targetBlobs changes Hok) as Hg. unfold summarizeStructuralChanges.
  set (k := fold_left _ changes _) in *.
  pose proof (inferExact_spec (k_deletes k) (k_adds k) baseBlobs targetBlobs (k_candidates k)) as He. cbn zeta in He.
  destruct (inferExactRenamePairs _ _ _ _ _) as [exact cands] eqn:Ee. cbn [fst] in He. destruct He as (He & Heb & Het).
  set (deletes1 := without_paths (map ip_base exact) (k_deletes k)). set (adds1 := without_paths (map ip_target exact) (k_adds k)).
  pose proof (inferSimilar_spec readBase readTarget deletes1 adds1 cands) as Hs. cbn zeta in Hs.
  destruct (inferSimilarRenamePairs _ _ _ _ _) as [similar cands'] eqn:Es. cbn [fst] in Hs. destruct Hs as (Hs & Hsb & Hst).
  cbn [s_actions]. assert (NoDup (gathered_paths k)) as Hnd by (rewrite Hg; apply Hok).
  unfold gathered_paths in Hnd. apply NoDup_app in Hnd as (_ & _ & Hnd). apply NoDup_app in Hnd as (_ & _ & Hnd).
  apply NoDup_app in Hnd as (Hd & _ & Hnd). apply NoDup_app in Hnd as (Ha & _ & _).
  assert (map ip_base exact ++ deletes1 ≡ₚ k_deletes k) as Pd1.
  { apply without_perm_paths; [done|done|]. intros p (x & -> & Hx)%list_elem_of_fmap. rewrite Forall_forall in He.
    destruct (He x Hx) as (_ & o & _ & E & _). assert (ip_base x ∈ List.filter (has_oid baseBlobs o) (k_deletes k)) as Hin by (rewrite E; left).
    by apply filter_elem in Hin as [? _]. }
  assert (map ip_target exact ++ adds1 ≡ₚ k_adds k) as Pa1.
  { apply without_perm_paths; [done|done|]. intros p (x & -> & Hx)%list_elem_of_fmap. rewrite Forall_forall in He.
    destruct (He x Hx) as (_ & o & _ & _ & E). assert (ip_target x ∈ List.filter (has_oid targetBlobs o) (k_adds k)) as Hin by (rewrite E; left).
    by apply filter_elem in Hin as [? _]. }
  assert (map ip_base similar ++ without_paths (map ip_base similar) deletes1 ≡ₚ deletes1) as Pd2.
  { apply without_perm_paths; [|done|].
    - rewrite <- Pd1 in Hd. by apply NoDup_app in Hd as (_ & _ & ?).
    - intros p (x & -> & Hx)%list_elem_of_fmap. rewrite Forall_forall in Hs. by destruct (Hs x Hx) as (_ & ? & _). }
  assert (map ip_target similar ++ without_paths (map ip_target similar) adds1 ≡ₚ adds1) as Pa2.
  { apply without_perm_paths; [|done|].
    - rewrite <- Pa1 in Ha. by apply NoDup_app in Ha as (_ & _ & ?).
    - intros p (x & -> & Hx)%list_elem_of_fmap. rewrite Forall_forall in Hs. by destruct (Hs x Hx) as (_ & _ & ? & _). }
  rewrite !flat_map_app, rename_paths. rewrite !singleton_paths by done. unfold sort_strings. rewrite !isort_perm.
  rewrite <- Hg. unfold gathered_paths. rewrite !map_app.
  transitivity (map ip_base (k_explicit k) ++ map ip_target (k_explicit k)
    ++ (map ip_base exact ++ map ip_base similar ++ without_paths (map ip_base similar) deletes1)
    ++ (map ip_target exact ++ map ip_target similar ++ without_paths (map ip_target similar) adds1) ++ k_edits k); [solve_Permutation|].
  apply Permutation_app_head, Permutation_app_head, Permutation_app; [|apply Permutation_app_tail].
  - etrans; [apply Permutation_app_head, Pd2|exact Pd1].
  - etrans; [apply Permutation_app_head, Pa2|exact Pa1].
Qed.

Lemma gather_git : Forall (λ x, ip_confidence x = ConfGit)
  (k_explicit (fold_left (gather baseBlobs targetBlobs) changes (mk_gathered [] [] [] [] []))).
Proof.
  assert (∀ k, Forall (λ x, ip_confidence x = ConfGit) (k_explicit k) →
    Forall (λ x, ip_confidence x = ConfGit) (k_explicit (fold_left (gather baseBlobs targetBlobs) changes k))) as Hk; [|by apply Hk].
  induction changes as [|e l IH]; intros k Hk; [done|]. cbn [fold_left]. apply IH. destruct k as [ex d ad ed ca]. cbn [k_explicit] in Hk.
  unfold gather. repeat (match goal with |- context [match ?x with _ => _ end] => destruct x end; try exact Hk).
  cbn [k_explicit]. apply Forall_app. split; [done|]. by repeat constructor.
Qed.

(** The actions with a confidence are the renames. *)
Lemma summary_renames a : a ∈ s_actions (summarizeStructuralChanges changes baseBlobs targetBlobs readBase readTarget) →
  a_confidence a = None ∨ ∃ x, a = rename_action baseBlobs targetBlobs x ∧
    (ip_confidence x = ConfGit ∨ (∃ deletes adds, exact_pair deletes adds baseBlobs targetBlobs x) ∨
     ip_confidence x = ConfSimilarContent ∧ similar_pair readBase readTarget (ip_base x) (ip_target x) = true).
Proof.
  unfold summarizeStructuralChanges. pose proof gather_git as Hgit. set (k := fold_left _ changes _) in *.
  pose proof (inferExact_spec (k_deletes k) (k_adds k) baseBlobs targetBlobs (k_candidates k)) as He. cbn zeta in He.
  destruct (inferExactRenamePairs _ _ _ _ _) as [exact cands]. cbn [fst] in He. destruct He as (He & _).
  set (deletes1 := without_paths _ _). set (adds1 := without_paths (map ip_target exact) _).
  pose proof (inferSimilar_spec readBase readTarget deletes1 adds1 cands) as Hs. cbn zeta in Hs.
  destruct (inferSimilarRenamePairs _ _ _ _ _) as [similar cands']. cbn [fst] in Hs. destruct Hs as (Hs & _). cbn [s_actions].
  rewrite !elem_of_app, !list_elem_of_fmap. rewrite !Forall_forall in Hgit, He, Hs.
  intros [(x & -> & Hx)|[(p & -> & _)|[(p & -> & _)|(p & -> & _)]]]; [right|by left..]. exists x. split; [done|].
  rewrite !elem_of_app in Hx. destruct Hx as [Hx|[Hx|Hx]]; [left; by apply Hgit|right; left|right; right].
  - exists (k_deletes k), (k_adds k). by apply He.
  - by destruct (Hs x Hx) as (? & _ & _ & ?).
Qed.

(** The summary accounts for every changed path exactly once. From any
    comparison git can give, every path it names is named by exactly one action (as
    its base or its target), no action names any other path, at most one action starts
    from a base path, and a rename that git did not report is inferred only between
    files whose objects are equal or whose contents pass the similarity test. *)
Theorem summary_accounts : diff_ok baseBlobs targetBlobs changes →
  let s := summarizeStructuralChanges changes baseBlobs targetBlobs readBase readTarget in
  (∀ p, p ∈ diff_endpoints changes ↔ ∃ a, a ∈ s_actions s ∧ p ∈ action_paths a) ∧
  (∀ p a b, a ∈ s_actions s → b ∈ s_actions s → p ∈ action_paths a → p ∈ action_paths b → a = b) ∧
  NoDup (mkeys (s_byBasePath s)) ∧
  (∀ a, a ∈ s_actions s → a_confidence a = Some ConfExactBlob → a_kind a = ActRename ∧ a_baseOid a = a_targetOid a ∧ is_Some (a_baseOid a)) ∧
  (∀ a, a ∈ s_actions s → a_confidence a = Some ConfSimilarContent → 
    ∃ b t, a_basePath a = Some b ∧ a_targetPath a = Some t ∧ similar_pair readBase readTarget b t = true).
Proof.
  intros Hok s. pose proof (summary_paths Hok) as Hp. fold s in Hp.
  assert (NoDup (flat_map action_paths (s_actions s))) as Hnd by (rewrite Hp; apply Hok).
  split_and!.
  - intros p. rewrite <- Hp. rewrite list_elem_of_In, in_flat_map. by setoid_rewrite <- list_elem_of_In.
  - intros p a b. by apply flat_map_unique.
  - unfold s, summarizeStructuralChanges. destruct (inferExactRenamePairs _ _ _ _ _). destruct (inferSimilarRenamePairs _ _ _ _ _). apply index_base_NoDup.
  - intros a Ha Hc. destruct (summary_renames a Ha) as [E|(x & -> & Hx)]; [congruence|]. cbn in Hc. injection Hc as Hc. split; [done|].
    destruct Hx as [E|[(deletes & adds & _ & o & _ & Eb & Et)|[E _]]]; try congruence. cbn.
    assert (ip_base x ∈ List.filter (has_oid baseBlobs o) deletes) as Hb by (rewrite Eb; left).
    assert (ip_target x ∈ List.filter (has_oid targetBlobs o) adds) as Ht by (rewrite Et; left).
    apply filter_elem in Hb as [_ Hb], Ht as [_ Ht]. unfold has_oid in Hb, Ht. apply bool_decide_eq_true in Hb, Ht. by rewrite Hb, Ht.
  - intros a Ha Hc. destruct (summary_renames a Ha) as [E|(x & -> & Hx)]; [congruence|]. cbn in Hc. injection Hc as Hc.
    destruct Hx as [E|[(deletes & adds & E & _)|[_ Hsim]]]; try congruence. by exists (ip_base x), (ip_target x).
Qed.

End accounts.

(** ** Examples *)

Definition plain_text : TextTools := {| utf8_decode := id; to_locale_lower := map ascii_lower; word_runs _ := [] |}.
Definition no_contents (p : jstring) : option (list N) := None.

(** One side renames [a.md] (git saw it), moves [b.md] (equal contents) and edits [c.md]. *)
Definition left_base : blob_map := list_to_map [(lit "a.md", lit "1"); (lit "b.md", lit "2"); (lit "c.md", lit "3")].
Definition left_target : blob_map := list_to_map [(lit "x.md", lit "1"); (lit "d/b.md", lit "2"); (lit "c.md", lit "4")].
Definition left_changes : list GitDiffEntry :=
  [mk_diff "R100" "x.md" (Some (lit "a.md")); mk_diff "D" "b.md" None; mk_diff "A" "d/b.md" None; mk_diff "M" "c.md" None].
Definition left_summary : StructuralSummary := @summarizeStructuralChanges plain_text left_changes left_base left_target no_contents no_contents.

(** The other deletes [a.md]. *)
Definition right_target : blob_map := list_to_map [(lit "b.md", lit "2"); (lit "c.md", lit "3")].
Definition right_summary : StructuralSummary :=
  @summarizeStructuralChanges plain_text [mk_diff "D" "a.md" None] left_base right_target no_contents no_contents.

Lemma left_changes_ok : diff_ok left_base left_target left_changes.
Proof.
  split; [apply (bool_decide_unpack _); vm_compute; exact I|]. unfold left_changes.
  apply Forall_cons_2; [split; [reflexivity|discriminate]|]. apply Forall_cons_2; [left; reflexivity|].
  apply Forall_cons_2; [right; left; reflexivity|]. apply Forall_cons_2; [right; right; left; vm_compute; reflexivity|]. constructor.
Qed.

Lemma summary_accounts_witness :
  (∃ a, a ∈ s_actions left_summary ∧ lit "d/b.md" ∈ action_paths a) ∧
  map a_confidence (s_actions left_summary) = [Some ConfGit; Some ConfExactBlob; None].
Proof.
  split; [|vm_compute; reflexivity].
  destruct (@summary_accounts plain_text left_changes left_base left_target no_contents no_contents left_changes_ok) as (H & _).
  apply H. vm_compute. do 3 right. left.
Defined.

Lemma structural_conflict_symmetric_witness :
  structuralMergeConflict left_summary right_summary ≠ None ∧ structuralMergeConflict right_summary left_summary ≠ None.
Proof.
  assert (structuralMergeConflict left_summary right_summary ≠ None) as H by (vm_compute; discriminate).
  split; [exact H|]. intros E. apply H.
  apply (structural_conflict_symmetric left_summary right_summary); [apply index_base_NoDup..|exact E].
Defined.
