(* ===== verification/MergeDecision.v ===== *)
(** * How a device's commit is merged (src/server/syncService.ts)

    The decision part of [mergeDeviceCommit]: from the trees of the common base, the
    server and the device it concludes that the merge is a conflict, that the changes
    overlap (and a content merge is tried), that they are identical where they meet, or
    that they are disjoint; and what the merge tree of the last case holds. Reading
    the history (merge bases, ancestors) and the content merges are not part of it. *)

From S2P Require Export StructuralMerge.

Section decision.
Context `{G : GitTools} `{U : Unicode} `{X : TextTools}.

(** [readOptionalBlob]. *)
Variable readBlob : tree → jstring → option (list N).

(** ** Changes and identities *)

Definition hasDestructiveChanges (entries : list GitDiffEntry) : bool :=
  existsb (λ entry, starts_with "D" (g_status entry) || starts_with "R" (g_status entry)) entries.

Definition destructiveChangedPaths (entries : list GitDiffEntry) : list jstring :=
  sorted_set (flat_map (λ entry,
    (if starts_with "D" (g_status entry) then [g_path entry] else []) ++
    (if starts_with "R" (g_status entry) then [default (g_path entry) (g_oldPath entry); g_path entry] else [])) entries).

Definition changesWithoutIdentities (changes : list GitDiffEntry) (identities : list jstring) : list GitDiffEntry :=
  flat_map (λ entry,
    match g_oldPath entry with
    | Some oldPath =>
        if negb (jmem (g_path entry) identities) && negb (jmem oldPath identities) then [entry]
        else (if negb (jmem oldPath identities) then [mk_diff "D" oldPath None] else []) ++
             (if negb (jmem (g_path entry) identities) then [mk_diff "A" (g_path entry) None] else [])
    | None => if jmem (g_path entry) identities then [] else [entry]
    end) changes.

Definition intersectChangedPaths (left right : list GitDiffEntry) : list jstring :=
  let rightPaths := changedPathSet right in
  sorted_set (flat_map (λ leftPath, flat_map (λ rightPath,
      if changedPathsConflict leftPath rightPath then [leftPath; rightPath] else []) rightPaths) (changedPathSet left)).

Definition blobOidMap (t : tree) : blob_map := omap (λ e, if kind_of e =s? lit "blob" then Some (t_oid e) else None) t.

(** ** Structural conflicts of a merge *)

Record GitMergeRename := mk_merge_rename { mr_sourcePath : jstring; mr_targetPath : jstring }.

Definition summarize (base target : tree) (changes : list GitDiffEntry) : StructuralSummary :=
  summarizeStructuralChanges changes (blobOidMap base) (blobOidMap target) (readBlob base) (readBlob target).

(** The identities that stay identities: sources of renames to divergent
    destinations are taken out. *)
Definition structural_identities (identicalPaths : list jstring) (summaries : list StructuralSummary) : list jstring :=
  fold_left (λ identities '(source, targets),
      if existsb (λ target, negb (jmem target identicalPaths)) targets then without_paths [source] identities else identities)
    (flat_map s_candidates summaries) identicalPaths.

Definition base_action_kinds (summary : StructuralSummary) : list (option jstring) :=
  map a_basePath (List.filter (λ action, negb (bool_decide (a_kind action = ActAdd))) (s_actions summary)).

(** [deviceBase] is the base of the device's own changes. *)
Definition classifyStructuralMergeConflict (base currentMain deviceCommit deviceBase : tree)
    (mainChanges deviceChanges : list GitDiffEntry) (identicalPaths : list jstring) : option StructuralConflict * list GitMergeRename :=
  let mainSummary := summarize base currentMain mainChanges in
  let deviceSummary := summarize deviceBase deviceCommit deviceChanges in
  let identities := structural_identities identicalPaths [mainSummary; deviceSummary] in
  let authorizationSummary :=
    if bool_decide (deviceBase = base) then mainSummary
    else summarize deviceBase currentMain (git_name_status deviceBase currentMain) in
  let changedExistingSources := base_action_kinds deviceSummary in
  (structuralMergeConflict (structuralSummaryWithoutIdentities mainSummary identities)
                           (structuralSummaryWithoutIdentities deviceSummary identities),
   flat_map (λ action, match a_kind action, a_basePath action, a_targetPath action with
     | ActRename, Some source, Some target =>
         if has_blob (blobOidMap deviceBase) source && bool_decide (Some source ∈ changedExistingSources)
         then [mk_merge_rename source target] else []
     | _, _, _ => []
     end) (s_actions authorizationSummary)).

(** ** The decision *)

Inductive decision :=
| DConflict (affectedPaths : list jstring) (reason : jstring)
| DIdentity (overlaps : list jstring)
| DOverlap (overlapping : list jstring) (mainRenames : list GitMergeRename)
| DDisjoint.

Definition present (t : tree) (p : jstring) : bool := bool_decide (is_Some (valueAt t p)).

(** The loop over the rename pairs the device confirmed. *)
Fixpoint check_rename_pairs (base currentMain : tree) (mainChanges : list GitDiffEntry) (renamePairs : list (jstring * jstring)) :
    option decision :=
  match renamePairs with
  | [] => None
  | (source, destination) :: rest =>
      let atSource := present currentMain source in
      let atDestination := present currentMain destination in
      if eqb atSource atDestination then
        let competing := match List.find (λ entry, bool_decide (g_oldPath entry = Some source)) mainChanges with
                         | Some entry => nonempty_path (Some (g_path entry)) | None => [] end in
        Some (DConflict (sorted_set ([source; destination] ++ competing)) (if atSource then lit "rename_destination_occupied" else lit "competing_rename"))
      else if negb atSource && atDestination then
        let lineage := default [] (mget (s_candidates (summarize base currentMain mainChanges)) source) in
        let samePairLineage := bool_decide (lineage = [destination]) &&
          match valueAt currentMain destination with Some (kind, _) => kind =s? lit "blob" | None => false end in
        if samePairLineage then check_rename_pairs base currentMain mainChanges rest
        else Some (DConflict (sorted_set ([source; destination] ++ lineage)) "competing_rename")
      else check_rename_pairs base currentMain mainChanges rest
  end.

Definition touches_endpoint (endpoints : list jstring) (entry : GitDiffEntry) : bool :=
  jmem (g_path entry) endpoints || match g_oldPath entry with Some (c :: old) => jmem (c :: old) endpoints | _ => false end.

(** [mergeDeviceCommit] between the reading of the trees and the writing of the
    merge. [affectedRoots] are the conflicting directories of the directory plan. *)
Definition mergeDeviceCommit (base naturalBase currentMain deviceCommit : tree) (renamePairs : list (jstring * jstring))
    (detachedProposal : bool) (affectedRoots : list jstring) : decision :=
  let mainChanges := git_name_status base currentMain in
  let deviceChanges := git_name_status naturalBase deviceCommit in
  match check_rename_pairs base currentMain mainChanges renamePairs with
  | Some conflict => conflict
  | None =>
    let identicalPaths := List.filter (identical currentMain deviceCommit) (changedPathSet deviceChanges) in
    let divergentDeviceChanges := changesWithoutIdentities deviceChanges identicalPaths in
    let divergentMainChanges := changesWithoutIdentities mainChanges identicalPaths in
    if detachedProposal && hasDestructiveChanges deviceChanges
    then DConflict (destructiveChangedPaths deviceChanges) "detached_proposal_deletes"
    else
      let endpoints := flat_map (λ pair, [pair.1; pair.2]) renamePairs in
      let structural entries := List.filter (λ entry, negb (touches_endpoint endpoints entry)) entries in
      let '(conflict, mainRenames) :=
        classifyStructuralMergeConflict base currentMain deviceCommit naturalBase (structural mainChanges) (structural deviceChanges) identicalPaths in
      match conflict with
      | Some conflict =>
          if bool_decide (affectedRoots = []) then DConflict (sc_affectedPaths conflict) (sc_reason conflict)
          else DConflict (sorted_set (sc_affectedPaths conflict ++ affectedRoots)) "mixed_directory_overlap"
      | None =>
        let overlapping := intersectChangedPaths divergentMainChanges divergentDeviceChanges in
        if negb (bool_decide (affectedRoots = []))
        then DConflict (sorted_set (overlapping ++ affectedRoots)) (if bool_decide (overlapping = []) then lit "directory_overlap" else lit "mixed_directory_overlap")
        else
          let identicalOverlaps := List.filter (λ path, jmem path identicalPaths) (intersectChangedPaths mainChanges deviceChanges) in
          if bool_decide (overlapping = []) then
            if negb (bool_decide (identicalOverlaps = [])) && bool_decide (renamePairs = []) then DIdentity identicalOverlaps else DDisjoint
          else DOverlap overlapping mainRenames
      end
  end.

(** ** What a disjoint decision means *)

Context `{GK : !GitToolsOk G}.

Lemma changedPathSet_acc entries : ∀ acc p,
  p ∈ fold_left (λ paths entry,
    let paths := set_add paths (g_path entry) in
    match g_oldPath entry with Some (c :: old) => set_add paths (c :: old) | _ => paths end) entries acc ↔
  p ∈ acc ∨ ∃ e, e ∈ entries ∧ (p = g_path e ∨ p ≠ [] ∧ g_oldPath e = Some p).
Proof.
  induction entries as [|e entries IH]; intros acc p; cbn [fold_left].
  - split; [by left|]. intros [?|(e & He & _)]; [done|by apply not_elem_of_nil in He].
  - rewrite IH. assert (p ∈ (let paths := set_add acc (g_path e) in
        match g_oldPath e with Some (c :: old) => set_add paths (c :: old) | _ => paths end) ↔
      p ∈ acc ∨ p = g_path e ∨ p ≠ [] ∧ g_oldPath e = Some p) as ->.
    { cbv zeta. destruct (g_oldPath e) as [[|c old]|]; rewrite ?set_add_elem; naive_solver. }
    split.
    + intros [[H|H]|(e' & He & H)]; [by left|right; exists e; split; [left|done]|right; exists e'; split; [by right|done]].
    + intros [H|(e' & [->|He]%elem_of_cons & H)]; [by left; left|by left; right|right; by exists e'].
Qed.

Lemma changedPathSet_elem entries p : p ∈ changedPathSet entries ↔
  ∃ e, e ∈ entries ∧ (p = g_path e ∨ p ≠ [] ∧ g_oldPath e = Some p).
Proof.
  unfold changedPathSet. rewrite changedPathSet_acc. split; [intros [H|H]; [by apply not_elem_of_nil in H|done]|by right].
Qed.

Lemma without_identities_elem changes ids p : p ∈ changedPathSet changes → p ∉ ids → p ∈ changedPathSet (changesWithoutIdentities changes ids).
Proof.
  rewrite !changedPathSet_elem. intros (e & He & Hp) Hids.
  assert (jmem p ids = false) as Ep by (apply not_true_iff_false; by rewrite jmem_elem).
  assert (∀ e', In e' (match g_oldPath e with
    | Some oldPath =>
        if negb (jmem (g_path e) ids) && negb (jmem oldPath ids) then [e]
        else (if negb (jmem oldPath ids) then [mk_diff "D" oldPath None] else []) ++
             (if negb (jmem (g_path e) ids) then [mk_diff "A" (g_path e) None] else [])
    | None => if jmem (g_path e) ids then [] else [e]
    end) → e' ∈ changesWithoutIdentities changes ids) as Hin.
  { intros e' H. apply list_elem_of_In, in_flat_map. exists e. rewrite <- list_elem_of_In. done. }
  destruct Hp as [->|[Hne Ho]].
  - rewrite Ep in Hin. destruct (g_oldPath e) as [old|] eqn:Eo.
    + cbn [negb andb] in Hin. destruct (jmem old ids) eqn:Eold; cbn [negb andb app] in Hin.
      * exists (mk_diff "A" (g_path e) None). split; [apply Hin; by left|by left].
      * exists e. split; [apply Hin; by left|by left].
    + exists e. split; [apply Hin; by left|by left].
  - rewrite Ho, Ep in Hin. destruct (jmem (g_path e) ids); cbn [negb andb app] in Hin.
    + exists (mk_diff "D" p None). split; [apply Hin; by left|by left].
    + exists e. split; [apply Hin; by left|by right].
Qed.

Lemma intersect_nil left right p q : intersectChangedPaths left right = [] →
  p ∈ changedPathSet left → q ∈ changedPathSet right → changedPathsConflict p q = false.
Proof.
  unfold intersectChangedPaths. rewrite sorted_set_nil. intros E Hp Hq. apply not_true_iff_false. intros Hc.
  assert (p ∈ flat_map (λ leftPath, flat_map (λ rightPath,
    if changedPathsConflict leftPath rightPath then [leftPath; rightPath] else []) (changedPathSet right)) (changedPathSet left)) as H.
  { apply list_elem_of_In, in_flat_map. exists p. rewrite <- list_elem_of_In. split; [done|]. apply in_flat_map. exists q.
    rewrite <- list_elem_of_In. split; [done|]. rewrite Hc. by left. }
  rewrite E in H. by apply not_elem_of_nil in H.
Qed.

(** The paths both sides changed to the same object are set aside; the others do not meet. *)
Lemma divergent_disjoint base main device : tree_ok base → tree_ok main → tree_ok device →
  let deviceChanges := git_name_status base device in
  let identicalPaths := List.filter (identical main device) (changedPathSet deviceChanges) in
  intersectChangedPaths (changesWithoutIdentities (git_name_status base main) identicalPaths)
                        (changesWithoutIdentities deviceChanges identicalPaths) = [] →
  disjoint_changes base main device.
Proof.
  intros Hb Hm Hd deviceChanges identicalPaths Hi p q Hp Hq Ip Iq.
  apply (intersect_nil _ _ p q Hi); apply without_identities_elem.
  - by apply name_status_paths.
  - intros [_ H]%filter_elem. congruence.
  - by apply name_status_paths.
  - intros [_ H]%filter_elem. congruence.
Qed.

Lemma decision_disjoint base naturalBase main device pairs detached roots :
  mergeDeviceCommit base naturalBase main device pairs detached roots = DDisjoint →
  let deviceChanges := git_name_status naturalBase device in
  let identicalPaths := List.filter (identical main device) (changedPathSet deviceChanges) in
  intersectChangedPaths (changesWithoutIdentities (git_name_status base main) identicalPaths)
                        (changesWithoutIdentities deviceChanges identicalPaths) = [].
Proof.
  unfold mergeDeviceCommit. destruct (check_rename_pairs _ _ _ _) as [d|] eqn:Ec.
  - intros ->. exfalso. revert Ec. induction pairs as [|[source destination] rest IH]; cbn [check_rename_pairs]; [done|].
    destruct (eqb _ _); [discriminate|]. destruct (negb _ && _); [|exact IH]. destruct (_ && _); [exact IH|discriminate].
  - cbv zeta. destruct (detached && _); [discriminate|]. destruct (classifyStructuralMergeConflict _ _ _ _ _ _ _) as [[c|] renames].
    + destruct (bool_decide _); discriminate.
    + destruct (negb _); [discriminate|]. destruct (bool_decide_reflect (intersectChangedPaths
        (changesWithoutIdentities (git_name_status base main) (List.filter (identical main device) (changedPathSet (git_name_status naturalBase device))))
        (changesWithoutIdentities (git_name_status naturalBase device) (List.filter (identical main device) (changedPathSet (git_name_status naturalBase device)))) = [])); [done|discriminate].
Qed.

(** [C12] A disjoint merge keeps both sides, where the proposal's base is the natural merge base
    of the two histories (with an older base it need not: [older_base_loses_revert]). Whenever
    the server then decides that its changes and the device's are disjoint, the tree it merges is well formed (no file
    is also a directory), holds exactly the device's entry at every path the device
    changed, the server's object of the same type at every path the server changed
    (including those both changed alike), and the common base's entry everywhere else;
    merging with the sides exchanged gives the same objects. *)
Theorem disjoint_merge_keeps_both (base main device : tree) (pairs : list (jstring * jstring)) (detached : bool) (roots : list jstring) :
  tree_ok base → tree_ok main → tree_ok device →
  mergeDeviceCommit base base main device pairs detached roots = DDisjoint →
  ∃ t, tree_ok t ∧ createDisjointMergeTree base main device None = (_ ← validateTreePathPolicy t; mret t) ∧
    (∀ p, (base !! p ≠ device !! p → t !! p = device !! p) ∧
          (base !! p ≠ main !! p → value_of <$> t !! p = value_of <$> main !! p) ∧
          (base !! p = main !! p → base !! p = device !! p → t !! p = base !! p)) ∧
    ∃ t', createDisjointMergeTree base device main None = (_ ← validateTreePathPolicy t'; mret t') ∧
      ∀ p, value_of <$> t' !! p = value_of <$> t !! p.
Proof.
  intros Hb Hm Hd Hdec. pose proof (divergent_disjoint base main device Hb Hm Hd (decision_disjoint _ _ _ _ _ _ _ Hdec)) as Hdis.
  destruct (overlay_exists None base main device) as [t Ht]; [done..|].
  destruct (overlay_exists None base device main) as [t' Ht']; [done..|].
  pose proof (disjoint_changes_sym _ _ _ Hdis) as Hdis'.
  exists t. split_and!.
  - by apply (overlay_tree_ok base main device).
  - apply createDisjointMergeTree_overlay; [done..| |done]. by apply (overlay_tree_ok base main device).
  - intros p. rewrite Ht. by apply overlay_keeps.
  - exists t'. split.
    + apply createDisjointMergeTree_overlay; [done..| |done]. by apply (overlay_tree_ok base device main).
    + intros p. rewrite Ht, Ht'. by apply overlay_sym.
Qed.

End decision.

(** ** Examples *)

Definition toy_text : TextTools := {| utf8_decode := id; to_locale_lower := map ascii_lower; word_runs _ := [] |}.
Definition no_blobs (t : tree) (p : jstring) : option (list N) := None.

(** The server edits a note and adds one; the device edits another. *)
Lemma disjoint_merge_keeps_both_witness :
  @mergeDeviceCommit simple_git toy_text no_blobs sample_base sample_base sample_main sample_device [] false [] = DDisjoint ∧
  ∃ t, tree_ok t ∧ value_of <$> t !! lit "a.md" = Some (lit "blob", repeat 99%N 40) ∧ t !! lit "b.md" = Some (sample_file 101).
Proof.
  assert (tree_ok sample_base) as H1 by (apply tree_okb_ok; vm_compute; reflexivity).
  assert (tree_ok sample_main) as H2 by (apply tree_okb_ok; vm_compute; reflexivity).
  assert (tree_ok sample_device) as H3 by (apply tree_okb_ok; vm_compute; reflexivity).
  assert (@mergeDeviceCommit simple_git toy_text no_blobs sample_base sample_base sample_main sample_device [] false [] = DDisjoint) as H
    by (vm_compute; reflexivity).
  split; [exact H|].
  destruct (@disjoint_merge_keeps_both simple_git ascii_unicode toy_text no_blobs simple_git_ok sample_base sample_main sample_device
    [] false [] H1 H2 H3 H) as (t & Ht & _ & Hp & _).
  exists t. split; [exact Ht|]. destruct (Hp (lit "a.md")) as (_ & Ha & _). destruct (Hp (lit "b.md")) as (Hb & _ & _). split.
  - rewrite Ha; [vm_compute; reflexivity|vm_compute; discriminate].
  - rewrite Hb; [reflexivity|vm_compute; discriminate].
Defined.

(** Where a proposal names an older base than the history's, the comparison with the
    server starts from the older one: an edit the server took back since the natural
    base is not seen, and the device's version, made on the edit, replaces it. *)
Definition edited (c : N) : tree := list_to_map [(lit "a.md", sample_file c)].

Lemma older_base_loses_revert :
  @mergeDeviceCommit simple_git toy_text no_blobs (edited 97) (edited 98) (edited 97) (edited 99) [] false [] = DDisjoint ∧
  @mergeDeviceCommit simple_git toy_text no_blobs (edited 98) (edited 98) (edited 97) (edited 99) [] false [] = DOverlap [lit "a.md"] [] ∧
  @createDisjointMergeTree simple_git ascii_unicode (edited 98) (edited 97) (edited 99) None = Ok (edited 99).
Proof. split_and!; vm_compute; reflexivity. Qed.
