(* ===== verification/WorkTrees.v ===== *)
(** * Trees written through a work tree (src/server/gitService.ts)

    [createTreeWithFileContents] and [createOverlayTree] check a tree out into a
    temporary directory, remove and write files there, and stage the result. The work
    tree is its files and its directories, which outlive the files removed from them. *)

From S2P Require Export GitTrees.

(** Objects by name, what [git show] prints of a directory, and the paths the ignore
    files of a work tree exclude. *)
Class GitObjects := {
  oid_content : jstring → list N;
  hash_object : list N → jstring;
  show_directory : tree → jstring → list N;
  git_ignored : gmap jstring (jstring * list N) → jstring → bool
}.

(** The contents of a tree were stored. *)
Definition stored `{O : GitObjects} (t : tree) : Prop := ∀ p e, t !! p = Some e → hash_object (oid_content (t_oid e)) = t_oid e.

(** ** Work trees *)

(** Files with their modes and contents; directories, empty ones included. *)
Record worktree := mk_worktree { w_files : gmap jstring (jstring * list N); w_dirs : gset jstring }.

Definition filesystem_error (code : string) : js_error := mk_error EPlain (lit code) [] [].

Section worktrees.
Context `{O : GitObjects}.

Definition file_of (e : tree_entry) : jstring * list N := (t_mode e, oid_content (t_oid e)).
Definition directories (paths : list jstring) : gset jstring := list_to_set (flat_map directoryPrefixes paths).

(** [read-tree] and [checkout-index -a] into an empty directory. *)
Definition checkout (t : tree) : worktree := mk_worktree (file_of <$> t) (directories (map fst (map_to_list t))).

Definition blocked_by_file (path : jstring) (w : worktree) : bool :=
  existsb (λ d, bool_decide (is_Some (w_files w !! d))) (directoryPrefixes path).

(** [rm(path, { recursive: true, force: true })]: a missing path is passed over, a path below
    a file is not. *)
Definition without (path : jstring) (w : worktree) : worktree :=
  mk_worktree (base.filter (λ kv, covers path kv.1 = false) (w_files w)) (base.filter (λ d, covers path d = false) (w_dirs w)).
Definition rm_rf (path : jstring) (w : worktree) : result worktree :=
  if blocked_by_file path w then Throw (filesystem_error "ENOTDIR") else Ok (without path w).
Fixpoint rm_all (paths : list jstring) (w : worktree) : result worktree :=
  match paths with
  | [] => Ok w
  | path :: paths => w ← rm_rf path w; rm_all paths w
  end.

(** [mkdir(dirname(path), { recursive: true })], then [writeFile(path, content)]. *)
Definition new_file (path : jstring) (content : list N) (w : worktree) : jstring * list N :=
  (match w_files w !! path with Some (mode, _) => mode | None => lit "100644" end, content).
Definition write_file (path : jstring) (content : list N) (w : worktree) : result worktree :=
  if blocked_by_file path w then Throw (filesystem_error "ENOTDIR")
  else if bool_decide (path ∈ w_dirs w ∨ path = []) then Throw (filesystem_error "EISDIR")
  else Ok (mk_worktree (<[path := new_file path content w]> (w_files w)) (w_dirs w ∪ directories [path])).

Fixpoint write_files (files : jmap (list N)) (w : worktree) : result worktree :=
  match files with
  | [] => Ok w
  | (path, content) :: files => w ← write_file path content w; write_files files w
  end.

(** [git add] and [write-tree]. *)
Definition entry_of (file : jstring * list N) : tree_entry := mk_entry file.1 (hash_object file.2).
Definition stage_all (w : worktree) : tree := entry_of <$> w_files w.
Definition stage (index : tree) (w : worktree) : tree :=
  entry_of <$> base.filter (λ kv, is_Some (index !! kv.1) ∨ git_ignored (w_files w) kv.1 = false) (w_files w).

Definition createTreeWithFileContents (sourceTree : tree) (files : jmap (list N)) (deletes : list jstring) : result tree :=
  w ← rm_all deletes (checkout sourceTree);
  w ← write_files files w;
  mret (stage_all w).

(** [readBlobAtPath]: [git show commit:path]. *)
Definition is_directory (t : tree) (path : jstring) : bool := existsb (λ kv, below path kv.1) (map_to_list t).
Definition readBlobAtPath (t : tree) (path : jstring) : result (list N) :=
  match t !! path with
  | Some e => Ok (oid_content (t_oid e))
  | None => if is_directory t path then Ok (show_directory t path) else Throw (malformed "path does not exist")
  end.
Definition readOptionalBlob (t : tree) (path : jstring) : option (list N) := to_option (readBlobAtPath t path).

(** The device's changes one after the other. *)
Definition overlay_change (deviceCommit : tree) (contentOverrides : jmap (list N)) (w : worktree) (entry : GitDiffEntry) : result worktree :=
  w ← match g_oldPath entry with Some old => if old =s? g_path entry then Ok w else rm_rf old w | None => Ok w end;
  if starts_with "D" (g_status entry) then rm_rf (g_path entry) w
  else
    content ← match mget contentOverrides (g_path entry) with Some content => Ok content | None => readBlobAtPath deviceCommit (g_path entry) end;
    write_file (g_path entry) content w.
Fixpoint overlay_changes (deviceCommit : tree) (contentOverrides : jmap (list N)) (changes : list GitDiffEntry) (w : worktree) : result worktree :=
  match changes with
  | [] => Ok w
  | entry :: changes => w ← overlay_change deviceCommit contentOverrides w entry; overlay_changes deviceCommit contentOverrides changes w
  end.

Definition createOverlayTree (currentMain deviceCommit : tree) (deviceChanges : list GitDiffEntry) (contentOverrides : jmap (list N)) : result tree :=
  w ← overlay_changes deviceCommit contentOverrides deviceChanges (checkout currentMain);
  let remaining := List.filter (λ '(path, _), negb (existsb (λ entry, (g_path entry =s? path) && negb (starts_with "D" (g_status entry))) deviceChanges)) contentOverrides in
  w ← write_files remaining w;
  mret (stage currentMain w).

(** ** What a work tree holds *)

Lemma directories_elem paths d : d ∈ directories paths ↔ ∃ p, p ∈ paths ∧ below d p = true.
Proof.
  unfold directories. rewrite elem_of_list_to_set, list_elem_of_In, in_flat_map. setoid_rewrite <- list_elem_of_In.
  by setoid_rewrite directoryPrefixes_elem.
Qed.

Lemma checkout_dirs t d : d ∈ w_dirs (checkout t) ↔ ∃ p, is_Some (t !! p) ∧ below d p = true.
Proof.
  cbn. rewrite directories_elem. split.
  - intros (p & (kv & -> & Hp)%list_elem_of_fmap & Hd). destruct kv as [p e]. exists p. split; [|done]. apply elem_of_map_to_list in Hp. by exists e.
  - intros (p & [e He] & Hd). exists p. split; [|done]. apply list_elem_of_fmap. exists (p, e). by rewrite elem_of_map_to_list.
Qed.

Definition removed (deletes : list jstring) (p : jstring) : bool := existsb (λ d, covers d p) deletes.

Lemma without_file path w p : w_files (without path w) !! p = if covers path p then None else w_files w !! p.
Proof.
  cbn. destruct (covers path p) eqn:E.
  - apply map_lookup_filter_None. right. intros x _. cbn. congruence.
  - destruct (w_files w !! p) as [f|] eqn:Ef; [apply map_lookup_filter_Some; by cbn|apply map_lookup_filter_None; by left].
Qed.

Lemma without_dir path w d : d ∈ w_dirs (without path w) ↔ d ∈ w_dirs w ∧ covers path d = false.
Proof. cbn. rewrite elem_of_filter. naive_solver. Qed.

Lemma rm_rf_Ok path w w' : rm_rf path w = Ok w' → w' = without path w.
Proof. unfold rm_rf. destruct (blocked_by_file _ _); [done|]. by intros [= <-]. Qed.

Lemma removals deletes : ∀ w w', rm_all deletes w = Ok w' → ∀ p,
  w_files w' !! p = (if removed deletes p then None else w_files w !! p) ∧
  (p ∈ w_dirs w' ↔ p ∈ w_dirs w ∧ removed deletes p = false).
Proof.
  induction deletes as [|d deletes IH]; intros w w'; cbn [rm_all removed existsb]; [intros [= <-]; naive_solver|].
  rewrite bind_Ok. intros (w1 & ->%rm_rf_Ok & H) p. destruct (IH _ _ H p) as [-> ->].
  rewrite without_file, without_dir. fold (removed deletes p).
  destruct (covers d p), (removed deletes p); cbn; naive_solver.
Qed.

(** ** Writing files that do not meet *)

(** Nothing the work tree keeps is in the way of the file. *)
Definition clear (path : jstring) (w : worktree) : Prop :=
  (∀ q, is_Some (w_files w !! q) → below q path = false) ∧ ¬ (path ∈ w_dirs w ∨ path = []).

Lemma blocked_by_file_spec path w : blocked_by_file path w = false ↔ ∀ q, is_Some (w_files w !! q) → below q path = false.
Proof.
  unfold blocked_by_file. rewrite <- not_true_iff_false, existsb_exists. setoid_rewrite <- list_elem_of_In.
  setoid_rewrite directoryPrefixes_elem. setoid_rewrite bool_decide_eq_true. split.
  - intros H q Hq. apply not_true_iff_false. intros Hb. apply H. by exists q.
  - intros H (q & Hb & Hq). specialize (H q Hq). congruence.
Qed.

Lemma write_file_clear path content w : clear path w →
  write_file path content w = Ok (mk_worktree (<[path := new_file path content w]> (w_files w)) (w_dirs w ∪ directories [path])).
Proof. intros [Hf Hd]. unfold write_file. apply blocked_by_file_spec in Hf as ->. by rewrite bool_decide_false. Qed.

Definition apart (paths : list jstring) : Prop := ∀ p q, p ∈ paths → q ∈ paths → below p q = false.

Lemma write_files_clear files : ∀ w, NoDup (mkeys files) → apart (mkeys files) → (∀ p, p ∈ mkeys files → clear p w) →
  ∃ w', write_files files w = Ok w' ∧
    ∀ p, w_files w' !! p = match mget files p with Some content => Some (new_file p content w) | None => w_files w !! p end.
Proof.
  induction files as [|[path content] files IH]; intros w Hnd Ha Hc; [by exists w|].
  cbn [mkeys map fst] in Hnd. apply NoDup_cons in Hnd as [Hn Hnd]. fold (mkeys files) in *.
  cbn [write_files]. rewrite write_file_clear by (apply Hc; left). cbn [mbind result_bind].
  set (w1 := mk_worktree _ _). destruct (IH w1 Hnd) as (w' & Hw & Hf).
  - intros p q Hp Hq. apply Ha; by right.
  - intros p Hp. destruct (Hc p) as [H1 H2]; [by right|]. split.
    + intros q. unfold w1. cbn [w_files]. destruct (decide (q = path)) as [->|Hne]; [intros _; apply Ha; [left|by right]|].
      rewrite lookup_insert_ne by done. apply H1.
    + unfold w1. cbn [w_dirs]. rewrite elem_of_union, directories_elem. intros [[H|(q & ->%list_elem_of_singleton & Hb)]|H]; [apply H2; by left| |apply H2; by right].
      rewrite (Ha p path) in Hb; [done|by right|left].
  - exists w'. split; [exact Hw|]. intros p. rewrite Hf. cbn [mget]. destruct (jeqb_spec path p) as [->|Hne].
    + assert (mget files p = None) as ->. { apply eq_None_not_Some. rewrite mget_keys. done. }
      unfold w1. cbn [w_files]. by rewrite lookup_insert_eq.
    + unfold new_file, w1. cbn [w_files]. rewrite !lookup_insert_ne by done. done.
Qed.

(** What the tree holds at a path afterwards. *)
Definition written (sourceTree : tree) (files : jmap (list N)) (deletes : list jstring) (p : jstring) : option tree_entry :=
  let kept := if removed deletes p then None else sourceTree !! p in
  match mget files p with
  | Some content => Some (mk_entry (match kept with Some e => t_mode e | None => lit "100644" end) (hash_object content))
  | None => kept
  end.

(** Whatever succeeds writes what it was given. *)
Lemma write_files_Ok files : ∀ w w', NoDup (mkeys files) → write_files files w = Ok w' →
  ∀ p, w_files w' !! p = match mget files p with Some content => Some (new_file p content w) | None => w_files w !! p end.
Proof.
  induction files as [|[path content] files IH]; intros w w' Hnd; [by intros [= ->]|].
  cbn [mkeys map fst] in Hnd. apply NoDup_cons in Hnd as [Hn Hnd]. fold (mkeys files) in *.
  cbn [write_files]. rewrite bind_Ok. unfold write_file. intros (w1 & H1 & H2).
  destruct (blocked_by_file path w); [done|]. destruct (bool_decide _); [done|]. injection H1 as <-.
  intros p. rewrite (IH _ _ Hnd H2 p). cbn [mget w_files]. destruct (jeqb_spec path p) as [->|Hne].
  - assert (mget files p = None) as -> by (apply eq_None_not_Some; by rewrite mget_keys). by rewrite lookup_insert_eq.
  - unfold new_file. cbn [w_files]. by rewrite !lookup_insert_ne by done.
Qed.

Lemma createTreeWithFileContents_Ok sourceTree files deletes t : stored sourceTree → NoDup (mkeys files) →
  createTreeWithFileContents sourceTree files deletes = Ok t → ∀ p, t !! p = written sourceTree files deletes p.
Proof.
  intros Hst Hnd. unfold createTreeWithFileContents. rewrite bind_Ok. intros (w0 & Hw0 & H) p. apply bind_Ok in H as (w & Hw & [= <-]).
  unfold stage_all, written. rewrite lookup_fmap, (write_files_Ok _ _ _ Hnd Hw).
  unfold new_file. destruct (removals deletes _ _ Hw0 p) as [-> _]. cbn [checkout w_files]. rewrite lookup_fmap.
  destruct (mget files p) as [content|]; destruct (removed deletes p); try done; destruct (sourceTree !! p) as [e|] eqn:E; try done.
  cbn. f_equal. destruct e as [m o] eqn:Ee. unfold entry_of. cbn. f_equal. by apply (Hst p (mk_entry m o)).
Qed.

(** No file is written over a directory that keeps a file, or kept an entry for one;
    no file is written, and none removed, below a file. *)
Definition fits (sourceTree : tree) (files : jmap (list N)) (deletes : list jstring) : Prop :=
  apart (mkeys files) ∧ [] ∉ mkeys files ∧
  (∀ d q, d ∈ deletes → is_Some (sourceTree !! q) → below q d = false) ∧
  ∀ p q, p ∈ mkeys files → is_Some (sourceTree !! q) →
    (below q p = true → removed deletes q = true) ∧ (below p q = true → removed deletes p = true).

Lemma rm_all_clear deletes : ∀ w, (∀ d q, d ∈ deletes → is_Some (w_files w !! q) → below q d = false) → ∃ w', rm_all deletes w = Ok w'.
Proof.
  induction deletes as [|d deletes IH]; intros w H; [by exists w|]. cbn [rm_all]. unfold rm_rf.
  rewrite (proj2 (blocked_by_file_spec d w)) by (intros q Hq; apply (H d q); [left|done]). apply IH. intros e q He.
  rewrite without_file. destruct (covers d q); [by intros []|]. apply H. by right.
Qed.

(** A tree changed through a work tree is the tree it was changed from, without
    the deleted files and directories, with the written files: where no written file
    meets another file or a directory, the function succeeds, and the tree it returns
    holds the new contents at the written paths (under the mode the file had), nothing
    at or below a deleted path that is not written, and the source's entries elsewhere. *)
Theorem createTreeWithFileContents_exact (sourceTree : tree) (files : jmap (list N)) (deletes : list jstring) :
  stored sourceTree → NoDup (mkeys files) → fits sourceTree files deletes →
  ∃ t, createTreeWithFileContents sourceTree files deletes = Ok t ∧ ∀ p, t !! p = written sourceTree files deletes p.
Proof.
  intros Hst Hnd (Ha & Hne & Hdel & Hfit).
  destruct (rm_all_clear deletes (checkout sourceTree)) as [w0 E0].
  { intros d q Hd. cbn [checkout w_files]. rewrite lookup_fmap, fmap_is_Some. by apply Hdel. }
  destruct (write_files_clear files w0 Hnd Ha) as (w & E & _).
  - intros p Hp. split.
    + intros q. destruct (removals deletes _ _ E0 q) as [-> _]. destruct (removed deletes q) eqn:Er; [by intros []|].
      cbn [checkout w_files]. rewrite lookup_fmap, fmap_is_Some. intros Hq. apply not_true_iff_false. intros Hb.
      destruct (Hfit p q Hp Hq) as [H _]. specialize (H Hb). congruence.
    + destruct (removals deletes _ _ E0 p) as [_ ->]. rewrite checkout_dirs. intros [[(q & Hq & Hb) Hr]|Hp']; [|by subst p].
      destruct (Hfit p q Hp Hq) as [_ H]. specialize (H Hb). congruence.
  - assert (createTreeWithFileContents sourceTree files deletes = Ok (stage_all w)) as Ht
      by (unfold createTreeWithFileContents; rewrite E0; cbn [mbind result_bind]; by rewrite E).
    eexists. split; [exact Ht|]. by apply createTreeWithFileContents_Ok.
Qed.

(** Removing the files of a directory one by one leaves the directory, and a file
    written over it is refused. *)
Lemma file_over_directory_fails (sourceTree : tree) (path q : jstring) (content : list N) (deletes : list jstring) :
  tree_ok sourceTree → is_Some (sourceTree !! q) → below path q = true → removed deletes path = false →
  (∀ d f, d ∈ deletes → is_Some (sourceTree !! f) → below f d = false) →
  createTreeWithFileContents sourceTree [(path, content)] deletes = Throw (filesystem_error "EISDIR").
Proof.
  intros [Hok _] Hq Hb Hr Hdel. destruct (rm_all_clear deletes (checkout sourceTree)) as [w0 E0].
  { intros d f Hd. cbn [checkout w_files]. rewrite lookup_fmap, fmap_is_Some. by apply Hdel. }
  unfold createTreeWithFileContents. rewrite E0. cbn [mbind result_bind write_files]. unfold write_file.
  destruct (blocked_by_file path _) eqn:E.
  - exfalso. apply (eq_true_false_abs _ E). apply blocked_by_file_spec. intros r.
    destruct (removals deletes _ _ E0 r) as [-> _]. destruct (removed deletes r); [by intros []|]. cbn [checkout w_files].
    rewrite lookup_fmap, fmap_is_Some. intros Hr'. apply not_true_iff_false. intros Hb'.
    pose proof (below_trans _ _ _ Hb' Hb) as H. by rewrite (Hok r q) in H.
  - rewrite bool_decide_true; [done|]. left. apply (removals deletes _ _ E0). split; [|done]. apply checkout_dirs. by exists q.
Qed.

(** *** Well-formed trees *)

(** The object stored under a content's name has that name; names are object names. *)
Class GitObjectsOk : Prop := {
  rehash c : hash_object (oid_content (hash_object c)) = hash_object c;
  hash_text c : oid_text (hash_object c)
}.

(** The directories of the files are there and are not files. *)
Record wt_ok (w : worktree) : Prop := {
  wo_dirs q d : is_Some (w_files w !! q) → below d q = true → d ∈ w_dirs w;
  wo_apart d : d ∈ w_dirs w → w_files w !! d = None;
  wo_files p f : w_files w !! p = Some f → p ≠ [] ∧ mode_text f.1
}.

Lemma checkout_ok t : tree_ok t → wt_ok (checkout t).
Proof.
  intros [Hb He]. split.
  - intros q d Hq Hd. apply checkout_dirs. exists q. split; [|done]. cbn in Hq. by rewrite lookup_fmap, fmap_is_Some in Hq.
  - intros d (p & Hp & Hd)%checkout_dirs. cbn. rewrite lookup_fmap. destruct (t !! d) as [e|] eqn:E; [|done].
    rewrite (Hb d p) in Hd; [done|by exists e|done].
  - intros p f. cbn. rewrite lookup_fmap. destruct (t !! p) as [e|] eqn:E; [|done]. intros [= <-]. destruct (He p e E) as (? & ? & _). done.
Qed.

Lemma without_ok path w : wt_ok w → wt_ok (without path w).
Proof.
  intros [H1 H2 H3]. split.
  - intros q d. rewrite without_file, without_dir. destruct (covers path q) eqn:E; [by intros []|]. intros Hq Hd. split; [by eapply H1|].
    apply not_true_iff_false. intros Hc. rewrite (covers_trans path d q) in E; [done|done|]. apply covers_spec. by right.
  - intros d [Hd _]%without_dir. rewrite without_file. destruct (covers path d); auto.
  - intros p f. rewrite without_file. destruct (covers path p); [done|]. apply H3.
Qed.

Lemma write_file_ok path content w w' : wt_ok w → write_file path content w = Ok w' → wt_ok w'.
Proof.
  intros [H1 H2 H3]. unfold write_file. destruct (blocked_by_file path w) eqn:Eb; [done|].
  destruct (bool_decide_reflect (path ∈ w_dirs w ∨ path = [])) as [|Hn]; [done|]. intros [= <-].
  pose proof (proj1 (blocked_by_file_spec path w) Eb) as Hb. split; cbn [w_files w_dirs].
  - intros q d Hq Hd. rewrite elem_of_union, directories_elem. destruct (decide (q = path)) as [->|Hne].
    + right. exists path. split; [left|done].
    + left. rewrite lookup_insert_ne in Hq by done. by eapply H1.
  - intros d. rewrite elem_of_union, directories_elem. intros [Hd|(q & ->%list_elem_of_singleton & Hd)].
    + rewrite lookup_insert_ne; [by apply H2|]. intros ->. apply Hn. by left.
    + rewrite lookup_insert_ne; [|intros ->; by rewrite below_irrefl in Hd]. apply eq_None_not_Some. intros Hs. by rewrite (Hb d Hs) in Hd.
  - intros p f. destruct (decide (p = path)) as [->|Hne]; [|rewrite lookup_insert_ne by done; apply H3].
    rewrite lookup_insert_eq. intros [= <-]. split; [intros ->; apply Hn; by right|]. unfold new_file.
    destruct (w_files w !! path) as [[m c]|] eqn:E; [by destruct (H3 _ _ E)|]. split; [reflexivity|]. apply Forall_forallb. reflexivity.
Qed.

Lemma write_files_wt files : ∀ w w', wt_ok w → write_files files w = Ok w' → wt_ok w'.
Proof.
  induction files as [|[p c] files IH]; intros w w' Hw; cbn [write_files]; [by intros [= <-]|].
  rewrite bind_Ok. intros (w1 & H1 & H2). eapply IH; [|exact H2]. by eapply write_file_ok.
Qed.

Lemma staged_ok `{OK : GitObjectsOk} (f : jstring → bool) w : wt_ok w → tree_ok (entry_of <$> base.filter (λ kv, f kv.1 = true) (w_files w)).
Proof.
  intros [H1 H2 H3].
  assert (∀ p, is_Some ((entry_of <$> base.filter (λ kv, f kv.1 = true) (w_files w)) !! p) → is_Some (w_files w !! p)) as Hs.
  { intros p. rewrite lookup_fmap, fmap_is_Some. intros [x Hx]. apply map_lookup_filter_Some in Hx as [Hx _]. by exists x. }
  split.
  - intros p q Hp%Hs Hq%Hs. apply not_true_iff_false. intros Hb. specialize (H1 q p Hq Hb). apply H2 in H1. destruct Hp. congruence.
  - intros p e. rewrite lookup_fmap. destruct (base.filter _ (w_files w) !! p) as [x|] eqn:E; [|done]. intros [= <-].
    apply map_lookup_filter_Some in E as [E _]. destruct (H3 p x E) as [? ?]. split_and!; [done|done|]. apply hash_text.
Qed.

Lemma stage_ok `{OK : GitObjectsOk} index w : wt_ok w → tree_ok (stage index w).
Proof.
  intros Hw. unfold stage.
  assert (base.filter (λ kv, is_Some (index !! kv.1) ∨ git_ignored (w_files w) kv.1 = false) (w_files w) =
    base.filter (λ kv, bool_decide (is_Some (index !! kv.1) ∨ git_ignored (w_files w) kv.1 = false) = true) (w_files w)) as ->.
  { apply map_filter_ext. intros p x _. by rewrite bool_decide_eq_true. }
  exact (staged_ok (λ p, bool_decide (is_Some (index !! p) ∨ git_ignored (w_files w) p = false)) w Hw).
Qed.

Lemma stage_all_ok `{OK : GitObjectsOk} w : wt_ok w → tree_ok (stage_all w).
Proof.
  intros Hw. unfold stage_all. rewrite <- (map_filter_id (λ _ : jstring * (jstring * list N), true = true) (w_files w)) by done.
  exact (staged_ok (λ _, true) w Hw).
Qed.

Lemma rm_rf_ok path w w' : wt_ok w → rm_rf path w = Ok w' → wt_ok w'.
Proof. intros Hw ->%rm_rf_Ok. by apply without_ok. Qed.

Lemma removals_ok deletes : ∀ w w', wt_ok w → rm_all deletes w = Ok w' → wt_ok w'.
Proof.
  induction deletes as [|d deletes IH]; intros w w' Hw; cbn [rm_all]; [by intros [= <-]|].
  rewrite bind_Ok. intros (w1 & H1 & H2). eapply IH; [|exact H2]. by eapply rm_rf_ok.
Qed.

Lemma createTreeWithFileContents_ok `{OK : GitObjectsOk} sourceTree files deletes t : tree_ok sourceTree →
  createTreeWithFileContents sourceTree files deletes = Ok t → tree_ok t.
Proof.
  intros Hs. unfold createTreeWithFileContents. rewrite bind_Ok. intros (w0 & Hw0 & H). apply bind_Ok in H as (w & Hw & [= <-]).
  apply stage_all_ok. eapply write_files_wt; [|exact Hw]. eapply removals_ok; [by apply checkout_ok|exact Hw0].
Qed.

Lemma overlay_change_ok device overrides w entry w' : wt_ok w → overlay_change device overrides w entry = Ok w' → wt_ok w'.
Proof.
  intros Hw. unfold overlay_change. rewrite bind_Ok. intros (w1 & H1 & H).
  assert (wt_ok w1) as Hw1.
  { revert H1. destruct (g_oldPath entry) as [old|]; [|by intros [= <-]]. destruct (old =s? g_path entry); [by intros [= <-]|by apply rm_rf_ok]. }
  revert H. destruct (starts_with _ _); [by apply rm_rf_ok|]. rewrite bind_Ok. intros (c & _ & H). by eapply write_file_ok.
Qed.

Lemma createOverlayTree_ok `{OK : GitObjectsOk} main device changes overrides t : tree_ok main →
  createOverlayTree main device changes overrides = Ok t → tree_ok t.
Proof.
  intros Hm. unfold createOverlayTree. rewrite bind_Ok. intros (w & Hw & H). apply bind_Ok in H as (w' & Hw' & [= <-]).
  apply stage_ok. eapply write_files_wt; [|exact Hw'].
  assert (∀ changes w0 w1, wt_ok w0 → overlay_changes device overrides changes w0 = Ok w1 → wt_ok w1) as Hov.
  { clear. induction changes as [|e l IH]; intros w0 w1 H0; cbn [overlay_changes]; [by intros [= <-]|].
    rewrite bind_Ok. intros (w2 & H2 & H3). eapply IH; [|exact H3]. by eapply overlay_change_ok. }
  eapply Hov; [|exact Hw]. by apply checkout_ok.
Qed.

Lemma staged_stored `{OK : GitObjectsOk} index w : stored (stage index w).
Proof.
  intros p e. unfold stage. rewrite lookup_fmap. destruct (base.filter _ (w_files w) !! p) as [f|]; [|done].
  intros [= <-]. cbn. apply rehash.
Qed.

Lemma createOverlayTree_stored `{OK : GitObjectsOk} main device changes overrides t : createOverlayTree main device changes overrides = Ok t → stored t.
Proof.
  unfold createOverlayTree. rewrite bind_Ok. intros (w & _ & H). apply bind_Ok in H as (w' & _ & [= <-]). apply staged_stored.
Qed.

End worktrees.

(** ** Examples *)

(** Objects named by the first forty digits of their contents, and holding them. *)
Definition digits_of (c : list N) : jstring := take 40 (List.filter is_hex c ++ repeat 48%N 40).
Definition plain_objects : GitObjects :=
  {| oid_content o := o; hash_object := digits_of; show_directory _ _ := lit "tree"; git_ignored _ _ := false |}.

Lemma digits_of_id o : oid_text o → digits_of o = o.
Proof.
  intros [Hl Hd]. unfold digits_of. rewrite filter_all by by apply Forall_forall. by apply take_app_length'.
Qed.

#[export] Instance plain_objects_ok : @GitObjectsOk plain_objects.
Proof.
  assert (∀ c, oid_text (digits_of c)) as H.
  { intros c. unfold digits_of. split; [rewrite length_take, length_app, repeat_length; lia|].
    apply Forall_take, Forall_app. split; [apply Forall_forall; intros x [_ Hx]%filter_elem; exact Hx|].
    apply Forall_forall. intros x Hx. apply list_elem_of_In, repeat_spec in Hx as ->. reflexivity. }
  split; [|exact H]. intros c. cbn [oid_content hash_object plain_objects]. by apply digits_of_id.
Qed.

Lemma plain_objects_stored t : tree_ok t → @stored plain_objects t.
Proof. intros [_ He] p e Hp. destruct (He p e Hp) as (_ & _ & Ho). by apply digits_of_id. Qed.

Lemma createTreeWithFileContents_exact_witness :
  ∃ t, @createTreeWithFileContents plain_objects sample_main [(lit "c/e.md", repeat 100%N 40)] [lit "c/d.md"] = Ok t ∧
    t !! lit "c/e.md" = Some (sample_file 100) ∧ t !! lit "c/d.md" = None ∧ t !! lit "a.md" = Some (sample_file 99).
Proof.
  destruct (@createTreeWithFileContents_exact plain_objects sample_main [(lit "c/e.md", repeat 100%N 40)] [lit "c/d.md"]) as (t & Ht & Hp).
  - apply plain_objects_stored, tree_okb_ok. vm_compute. reflexivity.
  - apply NoDup_singleton.
  - assert (∀ q, is_Some (sample_main !! q) → q ∈ [lit "a.md"; lit "b.md"; lit "c/d.md"]) as Hpaths.
    { intros q [e Hq]. apply elem_of_map_to_list in Hq.
      assert (map fst (map_to_list sample_main) ≡ₚ [lit "a.md"; lit "b.md"; lit "c/d.md"]) as <- by (vm_compute; solve_Permutation).
      apply list_elem_of_fmap. by exists (q, e). }
    split; [intros p q ->%list_elem_of_singleton ->%list_elem_of_singleton; reflexivity|].
    split; [intros H%list_elem_of_singleton; discriminate|]. split.
    + intros d q ->%list_elem_of_singleton H%Hpaths.
      repeat (apply elem_of_cons in H as [->|H]; [reflexivity|]). by apply not_elem_of_nil in H.
    + intros p q ->%list_elem_of_singleton H%Hpaths.
      repeat (apply elem_of_cons in H as [->|H]; [split; vm_compute; discriminate|]). by apply not_elem_of_nil in H.
  - exists t. split; [exact Ht|]. rewrite !Hp. split_and!; vm_compute; reflexivity.
Defined.
