(* ===== verification/ConflictReview.v ===== *)
(** * Reviewing a conflict (src/server/syncService.ts)

    A conflict is reviewed against the server's main branch of that moment. The paths
    it affects are shown in groups ([buildConflictReviewPaths]); the review stays
    current while main advances only outside everything it covers
    ([isConflictReviewStale], whose verdicts are kept in a bounded cache); and a
    resolution applied to a main that has advanced must make exactly the changes that
    were reviewed ([sameTreeChanges]). *)

From S2P Require Export MergeDecision ClientJournals.

(** ** Review groups *)

Record ConflictReviewPath := mk_review_path {
  rv_group_id : jstring;
  rv_kind : jstring;
  rv_base_path : option jstring;
  rv_server_path : option jstring;
  rv_device_path : option jstring;
  rv_server_operation : jstring;
  rv_device_operation : jstring;
  rv_affected_paths : list jstring
}.

Definition null_or_string (s : option jstring) : jsval := match s with Some s => JStr s | None => JNull end.
Definition strings (l : list jstring) : jsval := JArr (map JStr l).

Definition reviewSide (basePath : jstring) (action : option StructuralAction) : option jstring * jstring :=
  match action with
  | None => (Some basePath, lit "unchanged")
  | Some action =>
      match a_kind action with
      | ActRename => (a_targetPath action, lit "renamed")
      | ActDelete => (None, lit "deleted")
      | ActEdit => (match a_targetPath action with Some p => Some p | None => a_basePath action end, lit "modified")
      | ActAdd => (a_targetPath action, lit "added")
      end
  end.

Definition reviewOperation (baseOid targetOid : option jstring) : jstring :=
  match baseOid, targetOid with
  | None, None => "absent"
  | None, Some _ => "added"
  | Some _, None => "deleted"
  | Some base, Some target => if base =s? target then lit "unchanged" else lit "modified"
  end.

Definition reviewPathKind (reason : jstring) (mainAction deviceAction : option StructuralAction) (basePath : jstring)
    (serverPath devicePath : option jstring) : jstring :=
  if reason =s? "rename_rename_conflict" then "rename_rename" else
  if reason =s? "rename_delete_conflict" then "rename_delete" else
  if reason =s? "delete_edit_conflict" then "delete_edit" else
  if (reason =s? "rename_path_collision") || (reason =s? "ambiguous_rename_conflict") then "path_collision" else
  if existsb is_rename (option_list mainAction) || existsb is_rename (option_list deviceAction) then "rename_edit" else
  if bool_decide (Some basePath = serverPath) && bool_decide (Some basePath = devicePath) then "same_path" else "path_overlap".

Definition affectedPathsForReviewGroup (affectedPaths : list jstring) (anchors : list (option jstring)) : list jstring :=
  sort_strings (List.filter (λ path, existsb (changedPathsConflict path) (omap id anchors)) affectedPaths).

Section groups.
Context `{Nm : Numerals} `{Sha : Sha256}.

(** The text whose digest names the group. *)
Definition group_text (basePath serverPath devicePath : option jstring) (affectedPaths : list jstring) : jstring :=
  default [] (json_text (JArr [null_or_string basePath; null_or_string serverPath; null_or_string devicePath; strings (sort_strings affectedPaths)])).
Definition reviewGroupId (basePath serverPath devicePath : option jstring) (affectedPaths : list jstring) : jstring :=
  take 20 (sha256 (group_text basePath serverPath devicePath affectedPaths)).

Definition fallbackConflictReviewPaths (affectedPaths : list jstring) (baseBlobs currentBlobs deviceBlobs : blob_map) : list ConflictReviewPath :=
  map (λ path,
    let here (oid : option jstring) := match oid with Some _ => Some path | None => None end in
    let baseOid := baseBlobs !! path in
    let serverOid := currentBlobs !! path in
    let deviceOid := deviceBlobs !! path in
    mk_review_path (reviewGroupId (here baseOid) (here serverOid) (here deviceOid) [path])
      (if bool_decide (here baseOid = here serverOid) && bool_decide (here baseOid = here deviceOid) then lit "same_path" else lit "path_overlap")
      (here baseOid) (here serverOid) (here deviceOid)
      (reviewOperation baseOid serverOid) (reviewOperation baseOid deviceOid) [path]) affectedPaths.

Section building.
Variables (reason : jstring) (affectedPaths : list jstring) (baseBlobs currentBlobs deviceBlobs : blob_map).
Variables (mainSummary deviceSummary : StructuralSummary).

(** The body of the loop over the base paths; nothing where no path is affected. *)
Definition base_group (basePath : jstring) : list ConflictReviewPath :=
  let mainAction := mget (s_byBasePath mainSummary) basePath in
  let deviceAction := mget (s_byBasePath deviceSummary) basePath in
  let server := reviewSide basePath mainAction in
  let device := reviewSide basePath deviceAction in
  let affected := affectedPathsForReviewGroup affectedPaths [Some basePath; server.1; device.1] in
  if bool_decide (affected = []) then []
  else [mk_review_path (reviewGroupId (Some basePath) server.1 device.1 affected)
          (reviewPathKind reason mainAction deviceAction basePath server.1 device.1)
          (Some basePath) server.1 device.1 server.2 device.2 affected].

Definition base_groups : list ConflictReviewPath :=
  flat_map base_group (sorted_set (mkeys (s_byBasePath mainSummary) ++ mkeys (s_byBasePath deviceSummary))).

Definition buildConflictReviewPaths : list ConflictReviewPath :=
  let groupedPaths := flat_map rv_affected_paths base_groups in
  let fallbackPaths := List.filter (λ path, negb (jmem path groupedPaths)) affectedPaths in
  base_groups ++ fallbackConflictReviewPaths fallbackPaths baseBlobs currentBlobs deviceBlobs.

(** *** What the groups cover *)

Lemma affected_group_elem anchors p : p ∈ affectedPathsForReviewGroup affectedPaths anchors ↔
  p ∈ affectedPaths ∧ ∃ a, Some a ∈ anchors ∧ changedPathsConflict p a = true.
Proof.
  unfold affectedPathsForReviewGroup, sort_strings. rewrite isort_elem, filter_elem, existsb_exists.
  setoid_rewrite <- list_elem_of_In. setoid_rewrite list_elem_of_omap. cbn. naive_solver.
Qed.

Lemma base_group_elem basePath g : g ∈ base_group basePath →
  rv_base_path g = Some basePath ∧ rv_affected_paths g ≠ [] ∧
  rv_server_path g = (reviewSide basePath (mget (s_byBasePath mainSummary) basePath)).1 ∧
  rv_device_path g = (reviewSide basePath (mget (s_byBasePath deviceSummary) basePath)).1 ∧
  rv_affected_paths g = affectedPathsForReviewGroup affectedPaths [rv_base_path g; rv_server_path g; rv_device_path g].
Proof.
  unfold base_group. cbv zeta. destruct (bool_decide_reflect (affectedPathsForReviewGroup affectedPaths
    [Some basePath; (reviewSide basePath (mget (s_byBasePath mainSummary) basePath)).1; (reviewSide basePath (mget (s_byBasePath deviceSummary) basePath)).1] = [])) as [|Hne].
  - by intros ?%not_elem_of_nil.
  - intros ->%list_elem_of_singleton. by cbn.
Qed.

Lemma base_groups_elem g : g ∈ base_groups ↔ ∃ basePath,
  (basePath ∈ mkeys (s_byBasePath mainSummary) ∨ basePath ∈ mkeys (s_byBasePath deviceSummary)) ∧ g ∈ base_group basePath.
Proof.
  unfold base_groups. rewrite list_elem_of_In, in_flat_map. setoid_rewrite <- list_elem_of_In.
  setoid_rewrite sorted_set_elem. setoid_rewrite elem_of_app. done.
Qed.

(** The text naming a group says everything about it. *)
Definition text_of (g : ConflictReviewPath) : jstring :=
  group_text (rv_base_path g) (rv_server_path g) (rv_device_path g) (rv_affected_paths g).

Lemma strings_plain l : plain (strings l) = true.
Proof. cbn. by induction l. Qed.

Lemma null_or_string_plain s : plain (null_or_string s) = true.
Proof. by destruct s. Qed.

Lemma strings_inj l k : strings l = strings k → l = k.
Proof. intros [= H]. revert k H. induction l as [|x l IH]; intros [|y k]; try done. intros [= -> H]. f_equal. by apply IH. Qed.

Lemma null_or_string_inj s t : null_or_string s = null_or_string t → s = t.
Proof. destruct s, t; cbn; intros E; (discriminate || reflexivity || (injection E as ->; reflexivity)). Qed.

Lemma json_text_default_inj v w : plain v = true → plain w = true → default [] (json_text v) = default [] (json_text w) → v = w.
Proof.
  intros Hv Hw E. destruct (plain_text v Hv) as [s Hs], (plain_text w Hw) as [t Ht]. rewrite Hs, Ht in E. cbn in E. subst t.
  apply json_text_inj; congruence.
Qed.

Lemma group_text_inj b s d l b' s' d' l' : group_text b s d l = group_text b' s' d' l' → b = b' ∧ sort_strings l = sort_strings l'.
Proof.
  intros E. apply json_text_default_inj in E.
  - injection E as E1 _ _ E2. split; [by apply null_or_string_inj|by apply strings_inj; unfold strings; f_equal].
  - cbn [plain forallb]. by rewrite !null_or_string_plain, strings_plain.
  - cbn [plain forallb]. by rewrite !null_or_string_plain, strings_plain.
Qed.

Lemma fallback_elem paths g : g ∈ fallbackConflictReviewPaths paths baseBlobs currentBlobs deviceBlobs →
  ∃ p, p ∈ paths ∧ rv_affected_paths g = [p] ∧ (rv_base_path g = None ∨ rv_base_path g = Some p) ∧ rv_group_id g = take 20 (sha256 (text_of g)).
Proof.
  unfold fallbackConflictReviewPaths. intros (p & -> & Hp)%list_elem_of_fmap. exists p. cbn. split_and!; [done|done| |done].
  destruct (baseBlobs !! p); [by right|by left].
Qed.

Lemma fallback_texts_NoDup paths : NoDup paths → NoDup (map text_of (fallbackConflictReviewPaths paths baseBlobs currentBlobs deviceBlobs)).
Proof.
  intros Hnd. unfold fallbackConflictReviewPaths. rewrite map_map. apply (NoDup_fmap_2_strong _ _); [|done].
  intros p q _ _ E. unfold text_of in E. cbn [rv_affected_paths rv_base_path rv_server_path rv_device_path] in E.
  apply group_text_inj in E as [_ E]. cbn in E. congruence.
Qed.

Lemma base_texts_NoDup : NoDup (map text_of base_groups).
Proof.
  unfold base_groups. pose proof (sort_strings_strict _ (js_set_NoDup (mkeys (s_byBasePath mainSummary) ++ mkeys (s_byBasePath deviceSummary)))) as Hs.
  apply strictly_sorted_NoDup in Hs. fold (sorted_set (mkeys (s_byBasePath mainSummary) ++ mkeys (s_byBasePath deviceSummary))) in Hs.
  induction Hs as [|b bs Hb _ IH]; cbn; [constructor|]. rewrite map_app. apply NoDup_app. split_and!; [|
    |exact IH].
  - unfold base_group. cbv zeta. destruct (bool_decide _); [constructor|apply NoDup_singleton].
  - intros x (g & -> & Hg)%list_elem_of_fmap (g' & E & Hg')%list_elem_of_fmap.
    apply list_elem_of_In, in_flat_map in Hg' as (b' & Hb' & Hg'). apply list_elem_of_In in Hb'. apply list_elem_of_In in Hg'.
    apply base_group_elem in Hg as (Eb & _), Hg' as (Eb' & _). apply group_text_inj in E as [E _]. congruence.
Qed.

(** The files one action of a side ties together: its base path and where it left it. *)
Definition anchored (basePath p : jstring) : Prop :=
  ∃ a, Some a ∈ [Some basePath; (reviewSide basePath (mget (s_byBasePath mainSummary) basePath)).1;
                 (reviewSide basePath (mget (s_byBasePath deviceSummary) basePath)).1] ∧ changedPathsConflict p a = true.

Lemma group_of_rest p rest : p ∈ rest → ∃ g,
  g ∈ base_groups ++ fallbackConflictReviewPaths rest baseBlobs currentBlobs deviceBlobs ∧ p ∈ rv_affected_paths g.
Proof.
  intros Hp. eexists. split; [apply elem_of_app; right; unfold fallbackConflictReviewPaths; apply list_elem_of_fmap; exists p; split; [reflexivity|done]|].
  cbn. left.
Qed.

Lemma anchored_group b p : p ∈ affectedPaths → anchored b p → ∃ g, g ∈ base_group b ∧ p ∈ rv_affected_paths g.
Proof.
  intros Hp Ha. unfold base_group. cbv zeta. destruct (bool_decide_reflect (affectedPathsForReviewGroup affectedPaths
    [Some b; (reviewSide b (mget (s_byBasePath mainSummary) b)).1; (reviewSide b (mget (s_byBasePath deviceSummary) b)).1] = [])) as [E|Hne].
  - exfalso. assert (p ∈ affectedPathsForReviewGroup affectedPaths
      [Some b; (reviewSide b (mget (s_byBasePath mainSummary) b)).1; (reviewSide b (mget (s_byBasePath deviceSummary) b)).1]) as H
      by by apply affected_group_elem.
    rewrite E in H. by apply not_elem_of_nil in H.
  - eexists. split; [by apply list_elem_of_singleton|]. by apply affected_group_elem.
Qed.

(** The review shows every affected path, in a group of its own kind. The groups
    name exactly the affected paths and none is empty; the paths tied together by what
    a side did to one file of the base (where it was, where a rename took it) are
    together in one group; and no two groups hash the same text into their
    identifiers, so that a group is identified as long as the digests do not collide. *)
Theorem review_groups_cover : NoDup affectedPaths →
  let groups := buildConflictReviewPaths in
  (∀ p, p ∈ affectedPaths ↔ ∃ g, g ∈ groups ∧ p ∈ rv_affected_paths g) ∧
  (∀ g, g ∈ groups → rv_affected_paths g ≠ [] ∧ rv_group_id g = take 20 (sha256 (text_of g))) ∧
  (∀ basePath p q, basePath ∈ mkeys (s_byBasePath mainSummary) ∨ basePath ∈ mkeys (s_byBasePath deviceSummary) →
    p ∈ affectedPaths → q ∈ affectedPaths → anchored basePath p → anchored basePath q →
    ∃ g, g ∈ groups ∧ p ∈ rv_affected_paths g ∧ q ∈ rv_affected_paths g) ∧
  NoDup (map text_of groups).
Proof.
  intros Hnd groups.
  set (grouped := flat_map rv_affected_paths base_groups).
  set (rest := List.filter (λ path, negb (jmem path grouped)) affectedPaths).
  assert (groups = base_groups ++ fallbackConflictReviewPaths rest baseBlobs currentBlobs deviceBlobs) as Eg by done.
  assert (∀ p, p ∈ grouped ↔ ∃ g, g ∈ base_groups ∧ p ∈ rv_affected_paths g) as Hgrouped.
  { intros p. unfold grouped. rewrite list_elem_of_In, in_flat_map. by setoid_rewrite <- list_elem_of_In. }
  assert (∀ p, p ∈ rest ↔ p ∈ affectedPaths ∧ p ∉ grouped) as Hrest.
  { intros p. unfold rest. by rewrite filter_elem, negb_true_iff, jmem_not_elem. }
  rewrite Eg. split_and!.
  - intros p. split.
    + intros Hp. destruct (decide (p ∈ grouped)) as [(g & Hg & Hpg)%Hgrouped|Hn]; [exists g; split; [apply elem_of_app; by left|done]|].
      apply (group_of_rest p rest), Hrest. done.
    + intros (g & [Hg|Hg]%elem_of_app & Hp).
      * apply base_groups_elem in Hg as (b & _ & Hg). apply base_group_elem in Hg as (_ & _ & _ & _ & Ea). rewrite Ea in Hp.
        by apply affected_group_elem in Hp as [].
      * apply fallback_elem in Hg as (q & Hq & Ea & _). rewrite Ea in Hp. apply list_elem_of_singleton in Hp as ->. by apply Hrest.
  - intros g [Hg|Hg]%elem_of_app.
    + apply base_groups_elem in Hg as (b & _ & Hg). split; [by apply base_group_elem in Hg as (_ & ? & _)|].
      unfold base_group in Hg. cbv zeta in Hg. destruct (bool_decide _); [by apply not_elem_of_nil in Hg|]. by apply list_elem_of_singleton in Hg as ->.
    + apply fallback_elem in Hg as (q & _ & Ea & _ & Ei). split; [by rewrite Ea|done].
  - intros b p q Hb Hp Hq Ap Aq. destruct (anchored_group b p Hp Ap) as (g & Hg & Hpg).
    exists g. split_and!; [apply elem_of_app; left; apply base_groups_elem; by exists b|done|].
    apply base_group_elem in Hg as (Eb & _ & Es & Ed & Ea). rewrite Ea, Eb, Es, Ed. by apply affected_group_elem.
  - rewrite map_app. apply NoDup_app. split_and!; [apply base_texts_NoDup| |apply fallback_texts_NoDup, filter_NoDup, Hnd].
    intros x (g & -> & Hg)%list_elem_of_fmap (g' & E & Hg')%list_elem_of_fmap.
    apply fallback_elem in Hg' as (p & [_ Hp]%Hrest & Ea & _). apply group_text_inj in E as [_ E]. apply Hp, Hgrouped. exists g. split; [done|].
    rewrite Ea in E. change (sort_strings [p]) with [p] in E. apply (isort_elem jleb). change (p ∈ sort_strings (rv_affected_paths g)). rewrite E. left.
Qed.

End building.
End groups.

(** ** Reviews that went stale *)

(** The commits of a repository and what git says of its history. *)
Record repository := mk_repository {
  r_trees : gmap jstring tree;
  r_is_ancestor : jstring → jstring → result bool;
  r_merge_base : jstring → jstring → result (option jstring)
}.

Definition MAX_REVIEW_ADVANCE_VERDICTS : nat := 512.
Definition ROOT_IGNORE_PATH : jstring := ".gitignore".

Section staleness.
Context `{G : GitTools} `{Nm : Numerals}.

Definition no_commit : js_error := mk_error EPlain [] "bad object" [].
Definition commit_tree (R : repository) (commit : jstring) : result tree :=
  match r_trees R !! commit with Some t => Ok t | None => Throw no_commit end.
Definition commitExists (R : repository) (commit : jstring) : bool := bool_decide (is_Some (r_trees R !! commit)).
Definition changedPaths (R : repository) (base commit : jstring) : result (list GitDiffEntry) :=
  a ← commit_tree R base; b ← commit_tree R commit; mret (git_name_status a b).

Definition affected_roots (conflict : ConflictRecord) : list jstring :=
  match cf_directory_context conflict with Some context => dc_affected_roots context | None => [] end.

(** Where the device's own changes start. *)
Definition authored_base (R : repository) (conflict : ConflictRecord) (currentMain : jstring) : result jstring :=
  base ← r_merge_base R currentMain (cf_device_commit conflict); mret (default (cf_base_commit conflict) base).

Definition meets (paths reviewed : list jstring) : bool :=
  existsb (λ path, existsb (λ reviewedPath, changedPathsConflict path reviewedPath) reviewed) paths.

Definition computeReviewedMainAdvanceOverlap (R : repository) (conflict : ConflictRecord) (currentMain : jstring) : result bool :=
  if negb (forallb (commitExists R) [cf_expected_main conflict; currentMain; cf_device_commit conflict]) then mret true else
  ancestor ← r_is_ancestor R (cf_expected_main conflict) currentMain;
  if negb ancestor then mret true else
  advance ← changedPaths R (cf_expected_main conflict) currentMain;
  let advanced := changedPathSet advance in
  if bool_decide (advanced = []) then mret false else
  base ← authored_base R conflict currentMain;
  authored ← changedPaths R base (cf_device_commit conflict);
  mret (meets advanced ([ROOT_IGNORE_PATH] ++ cf_affected_paths conflict ++ affected_roots conflict ++ changedPathSet authored)).

(** The key of a verdict, and the verdicts kept so far. *)
Definition verdict_key (conflict : ConflictRecord) (currentMain : jstring) : jstring :=
  default [] (json_text (JArr [JStr (cf_vault_id conflict); JStr (cf_conflict_id conflict); JStr (cf_expected_main conflict);
    JStr (cf_device_commit conflict); JStr currentMain; strings (cf_affected_paths conflict); strings (affected_roots conflict)])).

Definition reviewedMainAdvanceOverlaps (repos : jstring → repository) (verdicts : jmap bool) (conflict : ConflictRecord) (currentMain : jstring) :
    bool * jmap bool :=
  if cf_expected_main conflict =s? currentMain then (false, verdicts) else
  let key := verdict_key conflict currentMain in
  match mget verdicts key with
  | Some cached => (cached, verdicts)
  | None =>
      match computeReviewedMainAdvanceOverlap (repos (cf_vault_id conflict)) conflict currentMain with
      | Throw _ => (true, verdicts)
      | Ok overlaps =>
          let verdicts := if (MAX_REVIEW_ADVANCE_VERDICTS <=? length verdicts)%nat then [] else verdicts in
          (overlaps, mset verdicts key overlaps)
      end
  end.

Definition directory_event_seq (states : jmap DirectoryStateRow) (vaultId : jstring) : Z :=
  match mget states vaultId with Some row => ds_last_event_seq row | None => 0 end.

Definition isConflictReviewStale (repos : jstring → repository) (verdicts : jmap bool) (states : jmap DirectoryStateRow)
    (vaultId currentMain : jstring) (conflict : ConflictRecord) : bool * jmap bool :=
  if negb (bool_decide (cf_status conflict = CfOpen)) then (false, verdicts) else
  if match cf_directory_context conflict with
     | Some context => negb (dc_expected_event_seq context =? directory_event_seq states vaultId)%Z
     | None => false
     end then (true, verdicts)
  else reviewedMainAdvanceOverlaps repos verdicts conflict currentMain.

Fixpoint staleConflictReviewIds (repos : jstring → repository) (verdicts : jmap bool) (states : jmap DirectoryStateRow)
    (vaultId currentMain : jstring) (conflicts : list ConflictRecord) : list jstring * jmap bool :=
  match conflicts with
  | [] => ([], verdicts)
  | conflict :: rest =>
      let '(stale, verdicts) :=
        if cf_vault_id conflict =s? vaultId then isConflictReviewStale repos verdicts states vaultId currentMain conflict else (false, verdicts) in
      let '(ids, verdicts) := staleConflictReviewIds repos verdicts states vaultId currentMain rest in
      (if stale then set_add ids (cf_conflict_id conflict) else ids, verdicts)
  end.

(** *** Verdicts survive the growth of the repository *)

(** A later repository: commits are added, none changes, and what git said of the
    history of existing commits stays true. *)
Record grows (R R' : repository) : Prop := {
  grow_trees : r_trees R ⊆ r_trees R';
  grow_ancestor a b v : r_is_ancestor R a b = Ok v → r_is_ancestor R' a b = Ok v;
  grow_base a b v : r_merge_base R a b = Ok v → r_merge_base R' a b = Ok v
}.

#[export] Instance grows_preorder : PreOrder grows.
Proof.
  split.
  - intros R. by split.
  - intros R1 R2 R3 H1 H2. split; [etrans; by apply grow_trees|intros; by eapply grow_ancestor, grow_ancestor|intros; by eapply grow_base, grow_base].
Qed.

Lemma changedPaths_grows R R' a b l : grows R R' → changedPaths R a b = Ok l → changedPaths R' a b = Ok l.
Proof.
  intros HR. unfold changedPaths, commit_tree.
  destruct (r_trees R !! a) as [ta|] eqn:Ea; [|done]. destruct (r_trees R !! b) as [tb|] eqn:Eb; [|done].
  by rewrite (lookup_weaken _ _ _ _ Ea (grow_trees _ _ HR)), (lookup_weaken _ _ _ _ Eb (grow_trees _ _ HR)).
Qed.

Lemma commitExists_grows R R' a : grows R R' → commitExists R a = true → commitExists R' a = true.
Proof.
  unfold commitExists. rewrite !bool_decide_eq_true. intros HR [t H]. exists t. by eapply lookup_weaken, grow_trees.
Qed.

(** A verdict "no overlap" is only reached when all it depends on was read. *)
Lemma clear_verdict_grows R R' conflict main : grows R R' →
  computeReviewedMainAdvanceOverlap R conflict main = Ok false → computeReviewedMainAdvanceOverlap R' conflict main = Ok false.
Proof.
  intros HR. unfold computeReviewedMainAdvanceOverlap. cbn [forallb].
  destruct (commitExists R (cf_expected_main conflict)) eqn:E1; [|done].
  destruct (commitExists R main) eqn:E2; [|done]. destruct (commitExists R (cf_device_commit conflict)) eqn:E3; [|done].
  rewrite (commitExists_grows _ _ _ HR E1), (commitExists_grows _ _ _ HR E2), (commitExists_grows _ _ _ HR E3). cbn [andb negb].
  destruct (r_is_ancestor R _ _) as [v|] eqn:Ea; [|done]. rewrite (grow_ancestor _ _ HR _ _ _ Ea).
  destruct v; [|done]. cbn [mbind result_bind negb].
  destruct (changedPaths R (cf_expected_main conflict) main) as [l|] eqn:Ec; [|done]. rewrite (changedPaths_grows _ _ _ _ _ HR Ec). cbn [mbind result_bind].
  destruct (bool_decide (changedPathSet l = [])); [done|]. unfold authored_base.
  destruct (r_merge_base R main (cf_device_commit conflict)) as [b|] eqn:Eb; [|done]. rewrite (grow_base _ _ HR _ _ _ Eb). cbn [mbind result_bind mret result_ret].
  destruct (changedPaths R (default (cf_base_commit conflict) b) (cf_device_commit conflict)) as [k|] eqn:Ek; [|done].
  by rewrite (changedPaths_grows _ _ _ _ _ HR Ek).
Qed.

(** The base commit recorded for each conflict never changes. *)
Variable base_of : jstring → jstring → jstring.
Definition recorded (conflict : ConflictRecord) : Prop := cf_base_commit conflict = base_of (cf_vault_id conflict) (cf_conflict_id conflict).

Lemma verdict_key_inj c m c' m' : verdict_key c m = verdict_key c' m' →
  cf_vault_id c = cf_vault_id c' ∧ cf_conflict_id c = cf_conflict_id c' ∧ cf_expected_main c = cf_expected_main c' ∧
  cf_device_commit c = cf_device_commit c' ∧ m = m' ∧ cf_affected_paths c = cf_affected_paths c' ∧ affected_roots c = affected_roots c'.
Proof.
  intros E. apply json_text_default_inj in E; [|cbn [plain forallb]; by rewrite !strings_plain..].
  injection E as E1 E2 E3 E4 E5 E6 E7. split_and!; try done; apply strings_inj; unfold strings; by f_equal.
Qed.

Lemma verdict_of_key R c m c' m' : recorded c → recorded c' → verdict_key c m = verdict_key c' m' →
  computeReviewedMainAdvanceOverlap R c m = computeReviewedMainAdvanceOverlap R c' m'.
Proof.
  unfold recorded. intros Hc Hc' (E1 & E2 & E3 & E4 & E5 & E6 & E7)%verdict_key_inj.
  unfold computeReviewedMainAdvanceOverlap, authored_base. by rewrite E3, E4, E5, E6, E7, Hc, Hc', E1, E2.
Qed.

(** A kept verdict "no overlap" is still what the computation says. *)
Definition verdicts_ok (repos : jstring → repository) (verdicts : jmap bool) : Prop :=
  NoDup (mkeys verdicts) ∧ (length verdicts ≤ MAX_REVIEW_ADVANCE_VERDICTS)%nat ∧
  ∀ c m, recorded c → mget verdicts (verdict_key c m) = Some false → computeReviewedMainAdvanceOverlap (repos (cf_vault_id c)) c m = Ok false.

Lemma call_verdict repos verdicts c m : recorded c → verdicts_ok repos verdicts →
  let '(overlaps, verdicts') := reviewedMainAdvanceOverlaps repos verdicts c m in
  verdicts_ok repos verdicts' ∧
  (overlaps = false → cf_expected_main c = m ∨ computeReviewedMainAdvanceOverlap (repos (cf_vault_id c)) c m = Ok false).
Proof.
  intros Hc (Hnd & Hlen & Hok). unfold reviewedMainAdvanceOverlaps.
  destruct (jeqb_spec (cf_expected_main c) m); [split; [done|by left]|].
  destruct (mget verdicts (verdict_key c m)) as [v|] eqn:Em; [split; [done|intros ->; right; by apply Hok]|].
  destruct (computeReviewedMainAdvanceOverlap _ c m) as [v|] eqn:Ec; [|done].
  split; [|intros ->; by right].
  set (kept := if (MAX_REVIEW_ADVANCE_VERDICTS <=? length verdicts)%nat then [] else verdicts).
  assert (NoDup (mkeys kept) ∧ (length kept < MAX_REVIEW_ADVANCE_VERDICTS)%nat ∧ ∀ k w, mget kept k = Some w → mget verdicts k = Some w) as (Hk1 & Hk2 & Hk3).
  { unfold kept. destruct (Nat.leb_spec MAX_REVIEW_ADVANCE_VERDICTS (length verdicts)); [|done]. split_and!; [constructor|unfold MAX_REVIEW_ADVANCE_VERDICTS; cbn; lia|done]. }
  split_and!; [by apply NoDup_mset|pose proof (mset_length kept (verdict_key c m) v); lia|].
  intros c' m' Hc'. rewrite mget_mset. destruct (jeqb_spec (verdict_key c m) (verdict_key c' m')) as [Ek|_].
  - intros [= ->]. rewrite <- Ec. symmetry. destruct (verdict_key_inj _ _ _ _ Ek) as [-> _]. by apply verdict_of_key.
  - intros H. by apply Hok, Hk3.
Qed.

(** The states of the cache while repositories grow and reviews are looked at. *)
Inductive verdicts_reachable : (jstring → repository) → jmap bool → Prop :=
| verdicts_start repos : verdicts_reachable repos []
| verdicts_grow repos repos' verdicts :
    verdicts_reachable repos verdicts → (∀ vaultId, grows (repos vaultId) (repos' vaultId)) → verdicts_reachable repos' verdicts
| verdicts_call repos verdicts conflict currentMain :
    verdicts_reachable repos verdicts → recorded conflict →
    verdicts_reachable repos (reviewedMainAdvanceOverlaps repos verdicts conflict currentMain).2.

Lemma reachable_verdicts_ok repos verdicts : verdicts_reachable repos verdicts → verdicts_ok repos verdicts.
Proof.
  induction 1 as [repos|repos repos' verdicts _ (Hnd & Hlen & Hok) Hg|repos verdicts c m _ IH Hc].
  - split_and!; [constructor|cbn; lia|done].
  - split_and!; [done..|]. intros c m Hc H. eapply clear_verdict_grows; [apply Hg|]. by apply Hok.
  - pose proof (call_verdict repos verdicts c m Hc IH) as H. destruct (reviewedMainAdvanceOverlaps _ _ _ _). by destruct H.
Qed.

(** What a review covers. *)
Definition covered (R : repository) (conflict : ConflictRecord) (currentMain q : jstring) : Prop :=
  q = ROOT_IGNORE_PATH ∨ q ∈ cf_affected_paths conflict ∨ q ∈ affected_roots conflict ∨
  ∃ base from to, authored_base R conflict currentMain = Ok base ∧ r_trees R !! base = Some from ∧
    r_trees R !! cf_device_commit conflict = Some to ∧ from !! q ≠ to !! q.

Context `{GK : !GitToolsOk G}.

Lemma changedPaths_Ok R a b l : changedPaths R a b = Ok l → ∃ ta tb, r_trees R !! a = Some ta ∧ r_trees R !! b = Some tb ∧ l = git_name_status ta tb.
Proof.
  unfold changedPaths, commit_tree. destruct (r_trees R !! a) as [ta|]; [|done]. destruct (r_trees R !! b) as [tb|]; [|done].
  intros [= <-]. by exists ta, tb.
Qed.

Lemma meets_false paths reviewed p q : meets paths reviewed = false → p ∈ paths → q ∈ reviewed → changedPathsConflict p q = false.
Proof.
  unfold meets. intros H Hp Hq. apply not_true_iff_false. intros Hc. apply (eq_true_false_abs _ (eq_refl true)). rewrite <- H. symmetry.
  apply existsb_exists. exists p. rewrite <- list_elem_of_In. split; [done|]. apply existsb_exists. exists q. by rewrite <- list_elem_of_In.
Qed.

Lemma clear_verdict_covers R c m te tm : map_Forall (λ _, tree_ok) (r_trees R) → computeReviewedMainAdvanceOverlap R c m = Ok false →
  r_trees R !! cf_expected_main c = Some te → r_trees R !! m = Some tm →
  ∀ p q, covered R c m q → changedPathsConflict p q = true → te !! p = tm !! p.
Proof.
  intros Hok. unfold computeReviewedMainAdvanceOverlap. destruct (negb _); [done|].
  destruct (r_is_ancestor R _ _) as [[|]|]; try done. cbn [mbind result_bind negb].
  destruct (changedPaths R _ m) as [advance|] eqn:Ea; [|done]. cbn [mbind result_bind]. apply changedPaths_Ok in Ea as (te' & tm' & E1 & E2 & ->).
  intros H Hte Htm p q Hq Hpq. assert (te' = te) as -> by congruence. assert (tm' = tm) as -> by congruence.
  assert (tree_ok te) as Ote by by apply (Hok (cf_expected_main c)). assert (tree_ok tm) as Otm by by apply (Hok m).
  destruct (decide (te !! p = tm !! p)) as [|Hne]; [done|exfalso]. apply (name_status_paths te tm p Ote Otm) in Hne.
  destruct (bool_decide_reflect (changedPathSet (git_name_status te tm) = [])) as [E|_]; [rewrite E in Hne; by apply not_elem_of_nil in Hne|].
  destruct (authored_base R c m) as [base|] eqn:Eb; [|done]. cbn [mbind result_bind] in H.
  destruct (changedPaths R base _) as [authored|] eqn:Ek; [|done]. injection H as H. apply changedPaths_Ok in Ek as (tb & td & E3 & E4 & ->).
  assert (changedPathsConflict p q = false); [|congruence]. apply (meets_false _ _ p q H Hne).
  destruct Hq as [->|[Hq|[Hq|(b & from & to & Hb & Hfrom & Hto & Hd)]]]; [by left|right..].
  - apply elem_of_app. by left.
  - apply elem_of_app. right. apply elem_of_app. by left.
  - apply elem_of_app. right. apply elem_of_app. right. rewrite Eb in Hb. injection Hb as <-.
    assert (from = tb) as -> by congruence. assert (to = td) as -> by congruence.
    apply name_status_paths; [by apply (Hok base)|by apply (Hok (cf_device_commit c))|done].
Qed.

(** A review that is not stale is still right. Whatever reviews were looked at
    while the repositories grew, and whatever verdicts the bounded cache kept or
    dropped meanwhile: when an open review is found current, the directory state is the
    one it was made in, and the main branch holds what it held in the review at every
    path that equals, contains or lies below a path the review covers: the affected
    paths and directory roots, what the device changed, and the root ignore file. *)
Theorem current_review_covers (repos : jstring → repository) (verdicts : jmap bool) (states : jmap DirectoryStateRow)
    (vaultId currentMain : jstring) (conflict : ConflictRecord) (te tm : tree) :
  verdicts_reachable repos verdicts → recorded conflict → cf_vault_id conflict = vaultId → cf_status conflict = CfOpen →
  map_Forall (λ _, tree_ok) (r_trees (repos vaultId)) →
  r_trees (repos vaultId) !! cf_expected_main conflict = Some te → r_trees (repos vaultId) !! currentMain = Some tm →
  let '(stale, verdicts') := isConflictReviewStale repos verdicts states vaultId currentMain conflict in
  (length verdicts' ≤ MAX_REVIEW_ADVANCE_VERDICTS)%nat ∧
  (stale = false →
    (∀ context, cf_directory_context conflict = Some context → dc_expected_event_seq context = directory_event_seq states vaultId) ∧
    ∀ p q, covered (repos vaultId) conflict currentMain q → changedPathsConflict p q = true → te !! p = tm !! p).
Proof.
  intros Hr Hc <- Hopen Hok Hte Htm. apply reachable_verdicts_ok in Hr as Hv. unfold isConflictReviewStale.
  rewrite bool_decide_true by done. cbn [negb]. destruct (match cf_directory_context conflict with Some _ => _ | None => _ end) eqn:Ed.
  { split; [by destruct Hv as (_ & ? & _)|done]. }
  pose proof (call_verdict repos verdicts conflict currentMain Hc Hv) as H. destruct (reviewedMainAdvanceOverlaps _ _ _ _) as [v verdicts'].
  destruct H as [Hv' H]. split; [by destruct Hv' as (_ & ? & _)|]. intros Hf. split.
  - intros context Econ. rewrite Econ in Ed. by apply negb_false_iff, Z.eqb_eq in Ed.
  - destruct (H Hf) as [E|E]; [|by apply clear_verdict_covers]. intros p q _ _. congruence.
Qed.

End staleness.

(** ** The same changes on an advanced main *)

Definition entry_text (e : tree_entry) : jstring := t_mode e ++ lit ":" ++ t_oid e.
Definition treeEntryIdentities (t : tree) : gmap jstring jstring := entry_text <$> t.

Definition change_text (before after : option jstring) : option jstring :=
  let before := default (lit "absent") before in
  let after := default (lit "absent") after in
  if before =s? after then None else Some (before ++ lit "->" ++ after).
Definition treeChanges (base target : gmap jstring jstring) : gmap jstring jstring := merge change_text base target.

Definition sameTreeChanges (reviewedBase reviewedTree appliedBase appliedTree : tree) : bool :=
  let reviewedChanges := treeChanges (treeEntryIdentities reviewedBase) (treeEntryIdentities reviewedTree) in
  let appliedChanges := treeChanges (treeEntryIdentities appliedBase) (treeEntryIdentities appliedTree) in
  (size reviewedChanges =? size appliedChanges)%nat
  && forallb (λ '(path, identity), bool_decide (appliedChanges !! path = Some identity)) (map_to_list reviewedChanges).

Lemma treeChanges_lookup a b p :
  treeChanges (treeEntryIdentities a) (treeEntryIdentities b) !! p = change_text (entry_text <$> a !! p) (entry_text <$> b !! p).
Proof.
  unfold treeChanges, treeEntryIdentities. rewrite lookup_merge, !lookup_fmap. by destruct (a !! p), (b !! p).
Qed.

Lemma same_maps (m k : gmap jstring jstring) :
  (size m =? size k)%nat && forallb (λ '(path, identity), bool_decide (k !! path = Some identity)) (map_to_list m) = true ↔ m = k.
Proof.
  rewrite andb_true_iff, Nat.eqb_eq, forallb_forall. split.
  - intros [Hs H]. apply map_subseteq_size_eq; [|lia]. apply map_subseteq_spec. intros p v Hp.
    apply (bool_decide_eq_true (k !! p = Some v)), (H (p, v)), list_elem_of_In, elem_of_map_to_list, Hp.
  - intros ->. split; [done|]. intros [p v] Hp. apply bool_decide_eq_true, elem_of_map_to_list, list_elem_of_In, Hp.
Qed.

(** Printed entries are read apart by their lengths and their first character. *)
Definition entry_ok (e : option tree_entry) : Prop := ∀ x, e = Some x → mode_text (t_mode x) ∧ oid_text (t_oid x).
Definition shown (e : option tree_entry) : jstring := default (lit "absent") (entry_text <$> e).

Lemma entry_text_inj e f rest rest' : mode_text (t_mode e) → oid_text (t_oid e) → mode_text (t_mode f) → oid_text (t_oid f) →
  entry_text e ++ rest = entry_text f ++ rest' → e = f ∧ rest = rest'.
Proof.
  destruct e as [m o], f as [m' o']. cbn. intros [Hm _] [Ho _] [Hm' _] [Ho' _]. unfold entry_text. cbn [t_mode t_oid]. rewrite <- !app_assoc.
  intros E. apply app_inj_1 in E as [-> E]; [|congruence]. apply app_inv_head in E. apply app_inj_1 in E as [-> ->]; [done|congruence].
Qed.

Lemma shown_inj e f rest rest' : entry_ok e → entry_ok f → shown e ++ rest = shown f ++ rest' → e = f ∧ rest = rest'.
Proof.
  intros He Hf. assert (∀ x r r', entry_ok (Some x) → lit "absent" ++ r ≠ entry_text x ++ r') as Hne.
  { intros x r r' Hx E. destruct (Hx x eq_refl) as [[Hl Hd] _]. unfold entry_text in E. destruct (t_mode x) as [|c m]; [done|].
    apply Forall_cons in Hd as [Hd _]. injection E as E _. subst c. by vm_compute in Hd. }
  destruct e as [e|], f as [f|]; unfold shown; cbn [fmap option_fmap option_map default from_option id]; intros E.
  - destruct (He e eq_refl), (Hf f eq_refl). apply entry_text_inj in E as [-> ->]; done.
  - symmetry in E. by apply Hne in E.
  - by apply Hne in E.
  - split; [done|]. by apply app_inv_head in E.
Qed.

Lemma change_text_spec a b c d : entry_ok a → entry_ok b → entry_ok c → entry_ok d →
  change_text (entry_text <$> a) (entry_text <$> b) = change_text (entry_text <$> c) (entry_text <$> d) ↔
  (a ≠ b → a = c ∧ b = d) ∧ (a = b → c = d).
Proof.
  intros Ha Hb Hc Hd. unfold change_text. fold (shown a) (shown b) (shown c) (shown d).
  assert (∀ x y, entry_ok x → entry_ok y → shown x = shown y → x = y) as Hinj.
  { intros x y Hx Hy E. apply (shown_inj x y [] []); [done..|]. by rewrite E. }
  destruct (jeqb_spec (shown a) (shown b)) as [E|E], (jeqb_spec (shown c) (shown d)) as [F|F].
  - apply Hinj in E, F; naive_solver.
  - apply Hinj in E; [|done..]. split; [done|]. intros [_ H]. by destruct F; rewrite (H E).
  - apply Hinj in F; [|done..]. split; [done|]. intros [H _]. destruct (decide (a = b)) as [->|Hne]; [done|]. destruct (H Hne) as [-> ->]. by subst.
  - split; [|intros [H _]; destruct (decide (a = b)) as [->|Hne]; [done|by destruct (H Hne) as [-> ->]]].
    intros H. apply (inj Some) in H. apply shown_inj in H as [-> H]; [|done..]. apply app_inv_head in H. apply Hinj in H as ->; [|done..].
    split; [done|]. by intros ->.
Qed.

(** A resolution is applied to an advanced main only as it was reviewed. The test
    passes exactly when, at every path the reviewed resolution changes, the advanced
    main still holds what the review saw and the applied tree holds what was reviewed,
    and the applied tree is the advanced main at every other path: later changes on
    main are neither undone nor mixed into the resolution. *)
Theorem same_tree_changes_exact (reviewedBase reviewedTree appliedBase appliedTree : tree) :
  tree_ok reviewedBase → tree_ok reviewedTree → tree_ok appliedBase → tree_ok appliedTree →
  sameTreeChanges reviewedBase reviewedTree appliedBase appliedTree = true ↔
  ∀ p, (reviewedBase !! p ≠ reviewedTree !! p → reviewedBase !! p = appliedBase !! p ∧ reviewedTree !! p = appliedTree !! p) ∧
       (reviewedBase !! p = reviewedTree !! p → appliedBase !! p = appliedTree !! p).
Proof.
  intros H1 H2 H3 H4. unfold sameTreeChanges. cbv zeta. rewrite same_maps.
  assert (∀ t p, tree_ok t → entry_ok (t !! p)) as Hok by (intros t p [_ H] e He; by destruct (H p e He)).
  rewrite map_eq_iff. setoid_rewrite treeChanges_lookup.
  split; intros H p; apply change_text_spec; auto.
Qed.

(** ** Examples *)

(** A note edited on both sides; the device also moved another. *)
Definition review_base : blob_map := list_to_map [(lit "a.md", lit "1"); (lit "b.md", lit "2")].
Definition review_main : StructuralSummary :=
  @summarizeStructuralChanges StructuralMerge.plain_text [mk_diff "M" "a.md" None; mk_diff "M" "b.md" None] review_base
    (list_to_map [(lit "a.md", lit "3"); (lit "b.md", lit "4")]) no_contents no_contents.
Definition review_device : StructuralSummary :=
  @summarizeStructuralChanges StructuralMerge.plain_text [mk_diff "M" "a.md" None; mk_diff "D" "b.md" None; mk_diff "A" "c.md" None] review_base
    (list_to_map [(lit "a.md", lit "5"); (lit "c.md", lit "2")]) no_contents no_contents.

Definition review_paths : list jstring := [lit "a.md"; lit "b.md"; lit "c.md"; lit "d.md"].

Lemma review_groups_cover_witness :
  let groups := @buildConflictReviewPaths toy_numerals toy_sha256 "overlapping_paths" review_paths review_base ∅ ∅ review_main review_device in
  map rv_affected_paths groups = [[lit "a.md"]; [lit "b.md"; lit "c.md"]; [lit "d.md"]] ∧
  map rv_kind groups = [lit "same_path"; lit "rename_edit"; lit "same_path"] ∧
  ∃ g, g ∈ groups ∧ lit "b.md" ∈ rv_affected_paths g ∧ lit "c.md" ∈ rv_affected_paths g.
Proof.
  intros groups. split; [vm_compute; reflexivity|]. split; [vm_compute; reflexivity|].
  assert (NoDup review_paths) as Hnd by (apply (bool_decide_eq_true (NoDup review_paths)); vm_compute; reflexivity).
  destruct (@review_groups_cover toy_numerals toy_sha256 "overlapping_paths" review_paths review_base ∅ ∅ review_main review_device Hnd) as (_ & _ & H & _).
  apply (H (lit "b.md")).
  - left. apply jmem_elem. vm_compute. reflexivity.
  - apply jmem_elem. vm_compute. reflexivity.
  - apply jmem_elem. vm_compute. reflexivity.
  - exists (lit "b.md"). split; [left|vm_compute; reflexivity].
  - exists (lit "c.md"). split; [right; right; left|vm_compute; reflexivity].
Defined.

(** Main advances on another file: the resolution made before is still applied. *)
Lemma same_changes_example :
  let reviewed := <[lit "b.md" := sample_file 102]> sample_base in
  let applied := <[lit "b.md" := sample_file 102]> sample_main in
  sameTreeChanges sample_base reviewed sample_main applied = true ∧ sameTreeChanges sample_base reviewed sample_main reviewed = false ∧
  applied !! lit "c/d.md" = Some (sample_file 100).
Proof.
  intros reviewed applied. split; [vm_compute; reflexivity|]. split; [vm_compute; reflexivity|].
  destruct (same_tree_changes_exact sample_base reviewed sample_main applied) as [H _]; [apply tree_okb_ok; vm_compute; reflexivity..|].
  destruct (H ltac:(vm_compute; reflexivity) (lit "c/d.md")) as [_ E]. rewrite <- E by (vm_compute; reflexivity). vm_compute. reflexivity.
Defined.

(** Main advanced on other files since the review; the cache remembers it. *)
Definition sample_conflict : ConflictRecord :=
  mk_ConflictRecord "cfl_1" "vlt_1" "dev_1" CfOpen "m1" "m1" "d1" "m1" [lit "b.md"] 1 1 "1" CkContent None None [] [] "t0" None None None None None.
Definition sample_trees : gmap jstring tree :=
  list_to_map [(lit "m1", sample_base); (lit "m2", sample_main); (lit "d1", sample_device)].
Definition sample_repository (vaultId : jstring) : repository :=
  mk_repository sample_trees (λ _ _, Ok true) (λ _ _, Ok (Some (lit "m1"))).

Lemma current_review_covers_witness :
  let verdicts := (@reviewedMainAdvanceOverlaps simple_git toy_numerals sample_repository [] sample_conflict "m2").2 in
  map snd verdicts = [false] ∧
  (@isConflictReviewStale simple_git toy_numerals sample_repository verdicts [] "vlt_1" "m2" sample_conflict).1 = false ∧
  sample_base !! lit "b.md" = sample_main !! lit "b.md".
Proof.
  intros verdicts. assert (@verdicts_reachable simple_git toy_numerals (λ _ _, lit "m1") sample_repository verdicts) as Hr
    by (apply verdicts_call; [constructor|reflexivity]).
  assert (map_Forall (λ _, tree_ok) sample_trees) as Hok.
  { unfold sample_trees. cbn [list_to_map foldr uncurry curry]. repeat apply map_Forall_insert_2; try apply map_Forall_empty;
      apply tree_okb_ok; vm_compute; reflexivity. }
  pose proof (@current_review_covers simple_git toy_numerals (λ _ _, lit "m1") simple_git_ok sample_repository verdicts []
    (lit "vlt_1") (lit "m2") sample_conflict sample_base sample_main Hr eq_refl eq_refl eq_refl Hok
    ltac:(vm_compute; reflexivity) ltac:(vm_compute; reflexivity)) as H.
  split; [vm_compute; reflexivity|].
  destruct (@isConflictReviewStale simple_git toy_numerals sample_repository verdicts [] (lit "vlt_1") (lit "m2") sample_conflict) as [stale verdicts'] eqn:E.
  assert (stale = false) as ->.
  { change stale with (stale, verdicts').1. rewrite <- E. vm_compute. reflexivity. }
  split; [reflexivity|]. destruct H as [_ H]. destruct (H eq_refl) as [_ Hp].
  apply (Hp (lit "b.md") (lit "b.md")); [right; left; left|vm_compute; reflexivity].
Defined.
