(* ===== verification/Resolution.v ===== *)
(** * Resolving a conflict (src/server/syncService.ts)

    The tree a resolution makes: the server's reviewed tree with the device's changes
    outside the conflict, and on top of it what the chosen resolution decides for the
    affected paths ([buildResolutionArtifacts]); the decision units of a per-file
    resolution ([validatePerFileDecisionUnits]); and the candidate applied to a main
    that has advanced ([buildResolutionCandidate]). *)

From S2P Require Export ConflictReview WorkTrees.

(** UTF-8: encoding, and decoding that refuses malformed bytes. *)
Class TextBytes := {
  utf8_encode : jstring → list N;
  utf8_strict : list N → option jstring
}.

(** ** Requests and artifacts *)

Inductive PerFileResolutionChoice := PcKeepServer | PcUseDevice | PcKeepBothFiles | PcInsertBothBlocks | PcManual.
#[export] Instance choice_eq_dec : EqDecision PerFileResolutionChoice.
Proof. solve_decision. Defined.

(** A plan's entry: a path and its final content, none to delete it. *)
Definition ManualFilePlanEntry : Type := jstring * option jstring.
Record PerFileResolutionEntry := mk_per_file {
  pf_paths : list jstring;
  pf_choice : PerFileResolutionChoice;
  pf_manual_file_plan : option (list ManualFilePlanEntry)
}.

Record ResolutionRequest := mk_request {
  rq_resolutionKind : ConflictResolutionKind;
  rq_manualFiles : option (jmap (option jstring));
  rq_manualFilePlan : option (list ManualFilePlanEntry);
  rq_perFile : option (list PerFileResolutionEntry)
}.

Record ResolutionArtifacts := mk_artifacts {
  ra_tree : tree;
  ra_sourceTree : tree;
  ra_fileAffectedPaths : list jstring;
  ra_writes : jmap (list N);
  ra_deletes : list jstring;
  ra_copySources : jmap jstring;
  ra_choiceByPath : option (jmap PerFileResolutionChoice)
}.

Definition invalid_resolution (message : string) : js_error := AuthError 400 "invalid_resolution" (lit message) [].
Definition stale_review : js_error := AuthError 409 "stale_conflict_review" "Conflict review is stale; refresh before resolving." [].

(** ** Paths *)

(** [conflictCopyPath]: the parts of [posix.parse] put together again. *)
Definition last_units (n : nat) (s : jstring) : jstring := drop (length s - n) s.
Definition conflictCopyPath (path conflictId deviceId : jstring) : jstring :=
  let base := basename path in
  let ext := extname path in
  let suffix := lit "device-" ++ last_units 8 deviceId ++ lit "-" ++ last_units 8 conflictId in
  let fileName := if bool_decide (ext = []) then base ++ lit "." ++ suffix
                  else take (length base - length ext) base ++ lit "." ++ suffix ++ ext in
  match before_last SLASH path with
  | Some dir => dir ++ [SLASH] ++ fileName
  | None => fileName
  end.

Definition changesOutsideAffectedPaths (entries : list GitDiffEntry) (affectedPaths : list jstring) : list GitDiffEntry :=
  List.filter (λ entry,
    negb (existsb (λ entryPath, existsb (changedPathsConflict entryPath) affectedPaths)
      (g_path entry :: nonempty_path (g_oldPath entry)))) entries.

Section resolution.
Context `{G : GitTools} `{U : Unicode} `{X : TextTools} `{O : GitObjects} `{B : TextBytes} `{Nm : Numerals} `{Sha : Sha256}.

Definition decodeReviewText (blob : option (list N)) : option jstring :=
  match blob with
  | None => None
  | Some bytes => if existsb (N.eqb 0) bytes then None else utf8_strict bytes
  end.

(** The repository of the conflict's vault. *)
Variable R : repository.

Definition read_commit (commit path : jstring) : option (list N) :=
  match commit_tree R commit with Ok t => readOptionalBlob t path | Throw _ => None end.
Definition read_commit_text (commit path : jstring) : option jstring := utf8_decode <$> read_commit commit path.
Definition listTreePaths (t : tree) : list jstring := map fst (map_to_list t).

(** ** Review paths of a recorded conflict *)

Definition conflict_reason (conflict : ConflictRecord) : jstring :=
  match rget (cf_validator_results conflict) "reason" with JStr reason => reason | _ => "overlapping_paths" end.

Definition conflictReviewPaths (conflict : ConflictRecord) : list ConflictReviewPath :=
  match r_trees R !! cf_base_commit conflict, r_trees R !! cf_current_main conflict, r_trees R !! cf_device_commit conflict with
  | Some base, Some current, Some device =>
      let mainSummary := summarize readOptionalBlob base current (git_name_status base current) in
      let deviceSummary := summarize readOptionalBlob base device (git_name_status base device) in
      let deviceSummary := applyExplicitRenamePairsToSummary deviceSummary (default [] (cf_rename_pairs conflict)) (blobOidMap base) (blobOidMap device) in
      buildConflictReviewPaths (conflict_reason conflict) (cf_affected_paths conflict)
        (blobOidMap base) (blobOidMap current) (blobOidMap device) mainSummary deviceSummary
  | _, _, _ => fallbackConflictReviewPaths (cf_affected_paths conflict) ∅ ∅ ∅
  end.

(** ** The tree under the resolution *)

Definition conflictFileAffectedPaths (conflict : ConflictRecord) : result (list jstring) :=
  base ← commit_tree R (cf_base_commit conflict);
  main ← commit_tree R (cf_expected_main conflict);
  device ← commit_tree R (cf_device_commit conflict);
  mret (List.filter (λ path, existsb (λ t : tree, bool_decide (is_Some (t !! path))) [base; main; device]) (cf_affected_paths conflict)).

Definition resolutionSourceTree (conflict : ConflictRecord) : result tree :=
  if negb (commitExists R (cf_base_commit conflict)) then commit_tree R (cf_expected_main conflict) else
  fileAffectedPaths ← conflictFileAffectedPaths conflict;
  if bool_decide (cf_directory_context conflict = None) && bool_decide (fileAffectedPaths = []) then commit_tree R (cf_expected_main conflict) else
  authoredBase ← authored_base R conflict (cf_current_main conflict);
  deviceChanges ← changedPaths R authoredBase (cf_device_commit conflict);
  let nonConflicting := changesOutsideAffectedPaths deviceChanges fileAffectedPaths in
  main ← commit_tree R (cf_expected_main conflict);
  if bool_decide (nonConflicting = []) then mret main else
  device ← commit_tree R (cf_device_commit conflict);
  createOverlayTree main device nonConflicting [].

(** ** What each choice writes and deletes *)

Record changes := mk_changes { ch_writes : jmap (list N); ch_deletes : list jstring; ch_copies : jmap jstring }.
Definition no_changes : changes := mk_changes [] [] [].
Definition add_write (path : jstring) (content : list N) (c : changes) : changes :=
  mk_changes (mset (ch_writes c) path content) (ch_deletes c) (ch_copies c).
Definition add_delete (path : jstring) (c : changes) : changes := mk_changes (ch_writes c) (ch_deletes c ++ [path]) (ch_copies c).
Definition add_copy (target path : jstring) (c : changes) : changes := mk_changes (ch_writes c) (ch_deletes c) (mset (ch_copies c) target path).

Definition device_version (conflict : ConflictRecord) (c : changes) (path : jstring) : changes :=
  match read_commit (cf_device_commit conflict) path with None => add_delete path c | Some blob => add_write path blob c end.
Definition addDeviceVersionChanges (conflict : ConflictRecord) (paths : list jstring) : changes :=
  fold_left (device_version conflict) paths no_changes.

Definition keep_both (conflict : ConflictRecord) (sourceTree : tree) (c : changes) (path : jstring) : changes :=
  match read_commit (cf_device_commit conflict) path with
  | None => c
  | Some deviceBlob =>
      match readOptionalBlob sourceTree path with
      | None => add_write path deviceBlob c
      | Some _ =>
          let target := conflictCopyPath path (cf_conflict_id conflict) (cf_device_id conflict) in
          let c := add_write target deviceBlob c in
          if target =s? path then c else add_copy target path c
      end
  end.
Definition addKeepBothChanges (conflict : ConflictRecord) (sourceTree : tree) (paths : list jstring) : changes :=
  fold_left (keep_both conflict sourceTree) paths no_changes.

Definition both_blocks (serverLabel deviceLabel serverText deviceText : jstring) : jstring :=
  join_with 10 [lit "## Server version (" ++ take 12 serverLabel ++ lit ")"; []; serverText; [];
                lit "## Device version (" ++ take 12 deviceLabel ++ lit ")"; []; deviceText].
Definition insert_both (conflict : ConflictRecord) (serverLabelMain : option jstring) (c : changes) (path : jstring) : changes :=
  match read_commit_text (cf_expected_main conflict) path, read_commit_text (cf_device_commit conflict) path with
  | None, None => add_delete path c
  | serverText, deviceText =>
      add_write path (utf8_encode (both_blocks (default (cf_expected_main conflict) serverLabelMain) (cf_device_commit conflict)
                                     (default [] serverText) (default [] deviceText))) c
  end.
Definition addInsertBothBlocksChanges (conflict : ConflictRecord) (paths : list jstring) (serverLabelMain : option jstring) : changes :=
  fold_left (insert_both conflict serverLabelMain) paths no_changes.

Definition conflictContainsBinary (conflict : ConflictRecord) (paths : list jstring) : bool :=
  existsb (λ path, existsb (λ commit,
      let blob := read_commit commit path in bool_decide (is_Some blob) && bool_decide (decodeReviewText blob = None))
    [cf_base_commit conflict; cf_expected_main conflict; cf_device_commit conflict]) paths.

(** *** Manual plans *)

Fixpoint read_plan (decided otherAffected unrelatedPaths : list jstring) (plan : list ManualFilePlanEntry) (seen : list jstring) (c : changes) :
    result (list jstring * changes) :=
  match plan with
  | [] => Ok (seen, c)
  | (path, content) :: plan =>
      if jmem path seen then Throw (invalid_resolution "Manual file plan contains duplicate paths.") else
      let seen := set_add seen path in
      match content with
      | None =>
          if negb (jmem path decided) then Throw (invalid_resolution "Manual file plan can only delete affected conflict paths.")
          else read_plan decided otherAffected unrelatedPaths plan seen (add_delete path c)
      | Some text =>
          if jmem path otherAffected then Throw (invalid_resolution "Manual file plan cannot write a path decided separately.") else
          if existsb (λ unrelated, changedPathsConflict unrelated path) unrelatedPaths
          then Throw (invalid_resolution "Manual file plan target collides with an unrelated path.")
          else read_plan decided otherAffected unrelatedPaths plan seen (add_write path (utf8_encode text) c)
      end
  end.

Definition buildManualFilePlanChanges (conflict : ConflictRecord) (sourceTree : tree) (manualFilePlan : list ManualFilePlanEntry)
    (decidedPaths : list jstring) : result changes :=
  if bool_decide (manualFilePlan = []) then Throw (invalid_resolution "Manual file plan requires at least one path.") else
  let otherAffected := List.filter (λ path, negb (jmem path decidedPaths)) (cf_affected_paths conflict) in
  let unrelatedPaths := List.filter (λ path, negb (jmem path (cf_affected_paths conflict))) (listTreePaths sourceTree) ++ otherAffected in
  '(seen, c) ← read_plan decidedPaths otherAffected unrelatedPaths manualFilePlan [] no_changes;
  if existsb (λ path, negb (jmem path seen)) decidedPaths
  then Throw (invalid_resolution "Manual file plan must include every affected conflict path.") else
  _ ← assertSyncableTreePaths seen;
  mret c.

(** ** Decision units *)

Definition mentions_plan (entry : PerFileResolutionEntry) : bool := bool_decide (is_Some (pf_manual_file_plan entry)).

Fixpoint assign_units (affected : list jstring) (index : nat) (paths : list jstring) (unitByPath : jmap nat) : result (jmap nat) :=
  match paths with
  | [] => Ok unitByPath
  | path :: paths =>
      if negb (jmem path affected) then Throw (invalid_resolution "Per-file resolution can only decide affected conflict paths.") else
      if bool_decide (is_Some (mget unitByPath path)) then Throw (invalid_resolution "Per-file resolution decides a path more than once.") else
      assign_units affected index paths (mset unitByPath path index)
  end.

Fixpoint read_units (affected : list jstring) (index : nat) (perFile : list PerFileResolutionEntry) (unitByPath : jmap nat) : result (jmap nat) :=
  match perFile with
  | [] => Ok unitByPath
  | entry :: perFile =>
      unitByPath ← assign_units affected index (pf_paths entry) unitByPath;
      if bool_decide (pf_choice entry = PcManual) && negb (mentions_plan entry)
      then Throw (invalid_resolution "A manual per-file decision requires its final file plan.") else
      if negb (bool_decide (pf_choice entry = PcManual)) && mentions_plan entry
      then Throw (invalid_resolution "Only a manual per-file decision carries a final file plan.") else
      read_units affected (S index) perFile unitByPath
  end.

Definition splitsLinkedPaths (unitByPath : jmap nat) (paths : list jstring) : bool :=
  (1 <? length (remove_dups (map (mget unitByPath) paths)))%nat.

Definition validatePerFileDecisionUnits (conflict : ConflictRecord) (perFile : option (list PerFileResolutionEntry)) : result unit :=
  match perFile with
  | None | Some [] => Throw (invalid_resolution "Per-file resolution requires a decision for every affected path.")
  | Some perFile =>
      let affected := cf_affected_paths conflict in
      unitByPath ← read_units affected 0 perFile [];
      if existsb (λ path, negb (bool_decide (is_Some (mget unitByPath path)))) affected
      then Throw (invalid_resolution "Per-file resolution requires a decision for every affected path.") else
      let overlappingPaths := flat_map (λ path, map (λ ancestor, [ancestor; path])
        (List.filter (λ ancestor, jmem ancestor affected) (directoryPrefixes path))) affected in
      if existsb (λ group, splitsLinkedPaths unitByPath (rv_affected_paths group)) (conflictReviewPaths conflict)
         || existsb (splitsLinkedPaths unitByPath) overlappingPaths
      then Throw (invalid_resolution "Per-file resolution must decide linked paths together.")
      else mret tt
  end.

(** ** The artifacts of a resolution *)

Record merged := mk_merged { mg_changes : changes; mg_owners : jmap nat; mg_choices : jmap PerFileResolutionChoice }.

(** The changes of one entry. *)
Definition entry_changes (conflict : ConflictRecord) (sourceTree : tree) (fileAffectedPaths : list jstring) (serverLabelMain : option jstring)
    (entry : PerFileResolutionEntry) : result changes :=
  match pf_choice entry with
  | PcKeepServer => mret no_changes
  | PcUseDevice => mret (addDeviceVersionChanges conflict (List.filter (λ path, jmem path fileAffectedPaths) (pf_paths entry)))
  | PcKeepBothFiles => mret (addKeepBothChanges conflict sourceTree (pf_paths entry))
  | PcInsertBothBlocks | PcManual =>
      if conflictContainsBinary conflict (pf_paths entry)
      then Throw (invalid_resolution "Binary files require a whole-file server, device, or keep-both decision.") else
      if bool_decide (pf_choice entry = PcInsertBothBlocks) then mret (addInsertBothBlocksChanges conflict (pf_paths entry) serverLabelMain)
      else buildManualFilePlanChanges conflict sourceTree (default [] (pf_manual_file_plan entry)) (pf_paths entry)
  end.

Fixpoint merge_writes (entryIndex : nat) (choice : PerFileResolutionChoice) (writes : jmap (list N)) (m : merged) : result merged :=
  match writes with
  | [] => Ok m
  | (path, content) :: writes =>
      if existsb (λ '(writtenPath, owner), negb (owner =? entryIndex)%nat && changedPathsConflict writtenPath path) (mg_owners m)
      then Throw (invalid_resolution "Per-file decisions write colliding final paths.") else
      merge_writes entryIndex choice writes
        (mk_merged (add_write path content (mg_changes m)) (mset (mg_owners m) path entryIndex) (mset (mg_choices m) path choice))
  end.

Fixpoint merge_entries (conflict : ConflictRecord) (sourceTree : tree) (fileAffectedPaths : list jstring) (serverLabelMain : option jstring)
    (entryIndex : nat) (perFile : list PerFileResolutionEntry) (m : merged) : result merged :=
  match perFile with
  | [] => Ok m
  | entry :: perFile =>
      c ← entry_changes conflict sourceTree fileAffectedPaths serverLabelMain entry;
      let m := mk_merged (mg_changes m) (mg_owners m) (fold_left (λ choices path, mset choices path (pf_choice entry)) (pf_paths entry) (mg_choices m)) in
      m ← merge_writes entryIndex (pf_choice entry) (ch_writes c) m;
      let all := mg_changes m in
      let all := mk_changes (ch_writes all) (ch_deletes all ++ ch_deletes c)
                   (fold_left (λ copies '(copyPath, path), mset copies copyPath path) (ch_copies c) (ch_copies all)) in
      merge_entries conflict sourceTree fileAffectedPaths serverLabelMain (S entryIndex) perFile (mk_merged all (mg_owners m) (mg_choices m))
  end.

(** The writes and deletions of a manual resolution by whole files. *)
Definition manual_changes (files : jmap (option jstring)) : changes :=
  fold_left (λ c '(path, content), match content with None => add_delete path c | Some text => add_write path (utf8_encode text) c end) files no_changes.

Definition buildResolutionArtifacts (conflict : ConflictRecord) (request : ResolutionRequest) (serverLabelMain : option jstring) : result ResolutionArtifacts :=
  sourceTree ← resolutionSourceTree conflict;
  fileAffectedPaths ← conflictFileAffectedPaths conflict;
  let artifacts (c : changes) choices :=
    t ← createTreeWithFileContents sourceTree (ch_writes c) (ch_deletes c);
    mret (mk_artifacts t sourceTree fileAffectedPaths (ch_writes c) (ch_deletes c) (ch_copies c) choices) in
  let affected := cf_affected_paths conflict in
  let binary := conflictContainsBinary conflict affected in
  match rq_resolutionKind request with
  | RkKeepServer => mret (mk_artifacts sourceTree sourceTree fileAffectedPaths [] [] [] None)
  | RkUseDevice =>
      if bool_decide (fileAffectedPaths = []) then
        t ← (if bool_decide (cf_directory_context conflict = None) then commit_tree R (cf_device_commit conflict) else Ok sourceTree);
        mret (mk_artifacts t sourceTree fileAffectedPaths [] [] [] None)
      else artifacts (addDeviceVersionChanges conflict fileAffectedPaths) None
  | RkKeepBothFiles =>
      let c := addKeepBothChanges conflict sourceTree affected in
      _ ← assertSyncableTreePaths (mkeys (ch_writes c));
      artifacts c None
  | RkInsertBothBlocks =>
      if binary then Throw (invalid_resolution "Binary conflicts require a whole-file server, device, or keep-both resolution.")
      else artifacts (addInsertBothBlocksChanges conflict affected serverLabelMain) None
  | RkManual =>
      if binary then Throw (invalid_resolution "Binary conflicts require a whole-file server, device, or keep-both resolution.") else
      match rq_manualFiles request, rq_manualFilePlan request with
      | Some _, Some _ => Throw (invalid_resolution "Manual resolution must use either manual_files or manual_file_plan.")
      | None, Some plan => c ← buildManualFilePlanChanges conflict sourceTree plan affected; artifacts c None
      | None, None | Some [], None => Throw (invalid_resolution "Manual resolution requires final file content.")
      | Some files, None =>
          if existsb (λ path, negb (jmem path affected)) (mkeys files)
          then Throw (invalid_resolution "Manual resolution can only edit affected conflict paths.") else
          if existsb (λ path, negb (jmem path (mkeys files))) affected
          then Throw (invalid_resolution "Manual resolution must include every affected conflict path.") else
          _ ← assertSyncableTreePaths (mkeys files);
          artifacts (manual_changes files) None
      end
  | RkPerFile =>
      if bool_decide (is_Some (rq_manualFiles request)) || bool_decide (is_Some (rq_manualFilePlan request))
      then Throw (invalid_resolution "Per-file resolution carries manual content inside its per_file decisions.") else
      match rq_perFile request with
      | None | Some [] => Throw (invalid_resolution "Per-file resolution requires a decision for every affected path.")
      | Some perFile =>
          m ← merge_entries conflict sourceTree fileAffectedPaths serverLabelMain 0 perFile (mk_merged no_changes [] []);
          _ ← assertSyncableTreePaths (mkeys (ch_writes (mg_changes m)));
          artifacts (mg_changes m) (Some (mg_choices m))
      end
  end.

(** The candidate reviewed on the recorded main, and the tree applied to the main of
    the moment. *)
Definition is_invalid_resolution (e : js_error) : bool :=
  match err_class e with EAuth _ => err_code e =s? lit "invalid_resolution" | _ => false end.

Definition advanced_conflict (conflict : ConflictRecord) (main : jstring) : ConflictRecord :=
  mk_ConflictRecord (cf_conflict_id conflict) (cf_vault_id conflict) (cf_device_id conflict) (cf_status conflict) (cf_base_commit conflict)
    main (cf_device_commit conflict) main (cf_affected_paths conflict) (cf_affected_path_count conflict) (cf_merge_sequence conflict)
    (cf_merge_policy_version conflict) (cf_conflict_kind conflict) (cf_rename_pairs conflict) (cf_directory_context conflict)
    (cf_validator_results conflict) (cf_validator_summary conflict) (cf_created_at conflict) (cf_resolved_at conflict)
    (cf_resolved_by_user_id conflict) (cf_resolution_kind conflict) (cf_resolution_commit conflict) (cf_resolution_request_hash conflict).

Definition buildResolutionCandidate (conflict : ConflictRecord) (effectiveMain : jstring) (request : ResolutionRequest) :
    result (ResolutionArtifacts * tree) :=
  _ ← (if bool_decide (rq_resolutionKind request = RkPerFile) then validatePerFileDecisionUnits conflict (rq_perFile request)
       else if bool_decide (is_Some (rq_perFile request)) then Throw (invalid_resolution "Per-file decisions require the per_file resolution kind.")
       else mret tt);
  reviewed ← buildResolutionArtifacts conflict request None;
  if effectiveMain =s? cf_expected_main conflict then mret (reviewed, ra_tree reviewed) else
  match buildResolutionArtifacts (advanced_conflict conflict effectiveMain) request (Some (cf_expected_main conflict)) with
  | Throw e => if is_invalid_resolution e then Throw stale_review else Throw e
  | Ok applied =>
      reviewedBase ← commit_tree R (cf_expected_main conflict);
      appliedBase ← commit_tree R effectiveMain;
      if sameTreeChanges reviewedBase (ra_tree reviewed) appliedBase (ra_tree applied) then mret (reviewed, ra_tree applied)
      else Throw stale_review
  end.

(** ** Decision units are consistent *)

Lemma assign_units_spec affected i paths : ∀ u u', assign_units affected i paths u = Ok u' →
  NoDup paths ∧ (∀ p, p ∈ paths → p ∈ affected ∧ mget u p = None) ∧
  ∀ p, mget u' p = if jmem p paths then Some i else mget u p.
Proof.
  induction paths as [|path paths IH]; intros u u'; cbn [assign_units].
  - intros [= <-]. split_and!; [constructor|by intros p ?%not_elem_of_nil|done].
  - destruct (jmem path affected) eqn:Ea; [|done]. cbn [negb]. destruct (bool_decide_reflect (is_Some (mget u path))) as [|Hn]; [done|].
    intros (Hnd & Hin & Hg)%IH. apply jmem_elem in Ea. apply eq_None_not_Some in Hn. split_and!.
    + constructor; [|done]. intros H. apply Hin in H as [_ H]. rewrite mget_mset, jeqb_refl in H. done.
    + intros p [->|Hp]%elem_of_cons; [done|]. apply Hin in Hp as [? H]. split; [done|]. rewrite mget_mset in H. by destruct (path =s? p).
    + intros p. rewrite Hg, mget_mset. cbn [jmem]. rewrite (jeqb_sym p path). destruct (path =s? p), (jmem p paths); done.
Qed.

Lemma read_units_spec affected perFile : ∀ i u u', read_units affected i perFile u = Ok u' →
  NoDup (flat_map pf_paths perFile) ∧ (∀ p, p ∈ flat_map pf_paths perFile → p ∈ affected ∧ mget u p = None) ∧
  ∀ p k, mget u' p = Some k ↔ mget u p = Some k ∨ ∃ j entry, perFile !! j = Some entry ∧ p ∈ pf_paths entry ∧ k = (i + j)%nat.
Proof.
  induction perFile as [|entry perFile IH]; intros i u u'; cbn [read_units flat_map].
  - intros [= <-]. split_and!; [constructor|by intros p ?%not_elem_of_nil|]. intros p k. split; [by left|]. intros [?|(j & e & ? & _)]; done.
  - rewrite bind_Ok. intros (u1 & (Hnd1 & Hin1 & Hg1)%assign_units_spec & H). destruct (_ && _); [done|]. destruct (_ && _); [done|].
    apply IH in H as (Hnd & Hin & Hg). split_and!.
    + apply NoDup_app. split_and!; [done| |done]. intros p Hp Hp'. apply Hin in Hp' as [_ H]. rewrite Hg1 in H.
      apply jmem_elem in Hp. by rewrite Hp in H.
    + intros p [Hp|Hp]%elem_of_app; [by apply Hin1|]. apply Hin in Hp as [? H]. split; [done|]. rewrite Hg1 in H. by destruct (jmem p (pf_paths entry)).
    + intros p k. rewrite Hg, Hg1. split.
      * intros [H|(j & e & Hj & Hp & ->)]; [|right; exists (S j), e; split_and!; [done|done|lia]].
        destruct (jmem p (pf_paths entry)) eqn:E; [|by left]. injection H as <-. right. exists 0%nat, entry. apply jmem_elem in E. split_and!; [done|done|lia].
      * intros [H|([|j] & e & Hj & Hp & ->)].
        -- left. destruct (jmem p (pf_paths entry)) eqn:E; [|done]. apply jmem_elem in E. apply Hin1 in E as [_ E]. congruence.
        -- left. injection Hj as <-. apply jmem_elem in Hp as ->. f_equal. lia.
        -- right. exists j, e. split_and!; [done|done|lia].
Qed.

Lemma splits_false u paths : splitsLinkedPaths u paths = false → ∀ p q, p ∈ paths → q ∈ paths → mget u p = mget u q.
Proof.
  unfold splitsLinkedPaths. rewrite Nat.ltb_ge. intros Hlen p q Hp Hq.
  assert (mget u p ∈ remove_dups (map (mget u) paths)) as H1 by (apply elem_of_remove_dups, list_elem_of_fmap; by exists p).
  assert (mget u q ∈ remove_dups (map (mget u) paths)) as H2 by (apply elem_of_remove_dups, list_elem_of_fmap; by exists q).
  destruct (remove_dups _) as [|x [|y l]]; [by apply not_elem_of_nil in H1| |cbn in Hlen; lia].
  apply list_elem_of_singleton in H1, H2. congruence.
Qed.

Lemma review_path_affected conflict g p : g ∈ conflictReviewPaths conflict → p ∈ rv_affected_paths g → p ∈ cf_affected_paths conflict.
Proof.
  intros Hg Hp. assert (∀ paths b c d, g ∈ fallbackConflictReviewPaths paths b c d → p ∈ paths) as Hfall.
  { intros paths b c d (q & Hq & Ea & _)%fallback_elem. rewrite Ea in Hp. by apply list_elem_of_singleton in Hp as ->. }
  unfold conflictReviewPaths in Hg.
  destruct (r_trees R !! cf_base_commit conflict); [|by apply Hfall in Hg].
  destruct (r_trees R !! cf_current_main conflict); [|by apply Hfall in Hg].
  destruct (r_trees R !! cf_device_commit conflict); [|by apply Hfall in Hg].
  cbv zeta in Hg. unfold buildConflictReviewPaths in Hg. apply elem_of_app in Hg as [Hg|Hg].
  - apply base_groups_elem in Hg as (b & _ & Hg). apply base_group_elem in Hg as (_ & _ & _ & _ & Ea). rewrite Ea in Hp.
    by apply affected_group_elem in Hp as [].
  - apply Hfall in Hg. by apply filter_elem in Hg as [].
Qed.

(** Two paths are decided by the same entry. *)
Definition together (perFile : list PerFileResolutionEntry) (p q : jstring) : Prop :=
  ∃ entry, entry ∈ perFile ∧ p ∈ pf_paths entry ∧ q ∈ pf_paths entry.

(** An accepted per-file resolution decides everything once and splits nothing.
    The entries' paths are exactly the affected paths, each decided by a single entry;
    the paths of one review group are decided by the same entry, and so are a file and
    a path below it; and exactly the manual entries carry a plan. *)
Theorem per_file_decisions_consistent (conflict : ConflictRecord) (perFile : list PerFileResolutionEntry) :
  validatePerFileDecisionUnits conflict (Some perFile) = Ok tt →
  NoDup (flat_map pf_paths perFile) ∧
  (∀ p, p ∈ cf_affected_paths conflict ↔ ∃ entry, entry ∈ perFile ∧ p ∈ pf_paths entry) ∧
  (∀ g p q, g ∈ conflictReviewPaths conflict → p ∈ rv_affected_paths g → q ∈ rv_affected_paths g → together perFile p q) ∧
  (∀ p q, p ∈ cf_affected_paths conflict → q ∈ cf_affected_paths conflict → below p q = true → together perFile p q).
Proof.
  unfold validatePerFileDecisionUnits. destruct perFile as [|first rest]; [done|]. set (perFile := first :: rest). rewrite bind_Ok.
  intros (u & (Hnd & Hin & Hg)%read_units_spec & H).
  destruct (existsb _ (cf_affected_paths conflict)) eqn:Ec in H; [done|]. destruct (_ || _) eqn:Es in H; [done|]. apply orb_false_iff in Es as [Eg Eo].
  assert (∀ p, p ∈ cf_affected_paths conflict → is_Some (mget u p)) as Hall.
  { intros p Hp. apply (bool_decide_eq_true (is_Some (mget u p))), negb_false_iff, not_true_iff_false. intros Hn.
    rewrite <- not_true_iff_false in Ec. apply Ec, existsb_exists. exists p. by rewrite <- list_elem_of_In. }
  assert (∀ p q, p ∈ cf_affected_paths conflict → mget u p = mget u q → together perFile p q) as Htog.
  { intros p q Hp E. destruct (Hall p Hp) as [k Hk]. assert (mget u q = Some k) as Hk' by congruence.
    apply Hg in Hk as [Hk|(j & entry & Hj & Hpe & Ek)]; [done|]. apply Hg in Hk' as [Hk|(j' & entry' & Hj' & Hqe & Ek')]; [done|].
    assert (j' = j) as -> by lia. exists entry. split; [by eapply list_elem_of_lookup_2|]. split; [done|]. congruence. }
  split_and!; [done| | |].
  - intros p. split.
    + intros Hp. destruct (Htog p p Hp eq_refl) as (entry & ? & ? & _). by exists entry.
    + intros (entry & He & Hp). apply Hin. apply list_elem_of_In, in_flat_map. exists entry. by rewrite <- !list_elem_of_In.
  - intros g p q Hgr Hp Hq. apply Htog; [by eapply review_path_affected|]. apply (splits_false u (rv_affected_paths g)); [|done..].
    apply not_true_iff_false. intros Hs. rewrite <- not_true_iff_false in Eg. apply Eg, existsb_exists. exists g. by rewrite <- list_elem_of_In.
  - intros p q Hp Hq Hb. apply Htog; [done|]. apply (splits_false u [p; q]); [|left|right; left].
    apply not_true_iff_false. intros Hs. rewrite <- not_true_iff_false in Eo. apply Eo, existsb_exists. exists [p; q]. split; [|done].
    apply in_flat_map. exists q. rewrite <- list_elem_of_In. split; [done|]. apply in_map_iff. exists p. split; [done|].
    rewrite <- list_elem_of_In. apply filter_elem. split; [by apply directoryPrefixes_elem|by apply jmem_elem].
Qed.

(** ** A resolution stays within the conflict *)

Context {OK : GitObjectsOk}.

Definition repository_stored : Prop := ∀ commit t, r_trees R !! commit = Some t → stored t.

Lemma commit_tree_Ok commit t : commit_tree R commit = Ok t → r_trees R !! commit = Some t.
Proof. unfold commit_tree. destruct (r_trees R !! commit); congruence. Qed.

Lemma source_stored conflict t : repository_stored → resolutionSourceTree conflict = Ok t → stored t.
Proof.
  intros HR. unfold resolutionSourceTree. destruct (negb _); [intros H%commit_tree_Ok; by eapply HR|].
  rewrite bind_Ok. intros (paths & _ & H). destruct (_ && _); [apply commit_tree_Ok in H; by eapply HR|].
  apply bind_Ok in H as (base & _ & H). apply bind_Ok in H as (l & _ & H). apply bind_Ok in H as (main & Hm & H).
  destruct (bool_decide _); [injection H as <-; apply commit_tree_Ok in Hm; by eapply HR|].
  apply bind_Ok in H as (device & _ & H). by eapply createOverlayTree_stored.
Qed.

(** Changes that write and delete only certain paths. *)
Record within (W D : jstring → Prop) (c : changes) : Prop := {
  wi_NoDup : NoDup (mkeys (ch_writes c));
  wi_writes p : p ∈ mkeys (ch_writes c) → W p;
  wi_deletes p : p ∈ ch_deletes c → D p
}.

Lemma within_none W D : within W D no_changes.
Proof. split; [constructor|by intros p ?%not_elem_of_nil..]. Qed.

Lemma within_write W D c p content : within W D c → W p → within W D (add_write p content c).
Proof. intros [H1 H2 H3] Hp. split; cbn; [by apply NoDup_mset|intros q [->|Hq]%mkeys_mset; auto|done]. Qed.

Lemma within_delete W D c p : within W D c → D p → within W D (add_delete p c).
Proof. intros [H1 H2 H3] Hp. split; cbn; [done..|]. intros q [Hq| ->%list_elem_of_singleton]%elem_of_app; auto. Qed.

Lemma within_copy W D c t p : within W D c → within W D (add_copy t p c).
Proof. by intros [H1 H2 H3]. Qed.

Lemma within_mono (W W' D D' : jstring → Prop) c : within W D c → (∀ p, W p → W' p) → (∀ p, D p → D' p) → within W' D' c.
Proof. intros [H1 H2 H3] HW HD. split; auto. Qed.

Lemma within_fold {A} (f : changes → A → changes) W D l : (∀ c x, x ∈ l → within W D c → within W D (f c x)) →
  ∀ c, within W D c → within W D (fold_left f l c).
Proof.
  induction l as [|x l IH]; intros Hf c Hc; [done|]. cbn. apply IH; [intros c' y Hy; apply Hf; by right|]. apply Hf; [left|done].
Qed.

Definition affected (conflict : ConflictRecord) (p : jstring) : Prop := p ∈ cf_affected_paths conflict.
Definition copy_of (conflict : ConflictRecord) (p : jstring) : Prop :=
  ∃ q, q ∈ cf_affected_paths conflict ∧ p = conflictCopyPath q (cf_conflict_id conflict) (cf_device_id conflict).

(** A path that meets no file outside the conflict. *)
Definition free (conflict : ConflictRecord) (sourceTree : tree) (p : jstring) : Prop :=
  ∀ q, is_Some (sourceTree !! q) → q ∉ cf_affected_paths conflict → changedPathsConflict q p = false.

Lemma device_within conflict paths : (∀ p, p ∈ paths → affected conflict p) → within (affected conflict) (affected conflict) (addDeviceVersionChanges conflict paths).
Proof.
  intros Hp. apply within_fold; [|apply within_none]. intros c p Hin Hc. unfold device_version.
  destruct (read_commit _ p); [apply within_write|apply within_delete]; auto.
Qed.

Lemma keep_both_within conflict sourceTree paths : (∀ p, p ∈ paths → affected conflict p) →
  within (λ p, affected conflict p ∨ copy_of conflict p) (λ _, False) (addKeepBothChanges conflict sourceTree paths).
Proof.
  intros Hp. apply within_fold; [|apply within_none]. intros c p Hin Hc. unfold keep_both.
  destruct (read_commit _ p); [|done]. destruct (readOptionalBlob sourceTree p); [|apply within_write; auto].
  assert (within (λ p, affected conflict p ∨ copy_of conflict p) (λ _, False)
    (add_write (conflictCopyPath p (cf_conflict_id conflict) (cf_device_id conflict)) l c)) as H.
  { apply within_write; [done|]. right. exists p. split; [by apply Hp|done]. }
  destruct (_ =s? p); [done|by apply within_copy].
Qed.

Lemma insert_both_within conflict paths label : (∀ p, p ∈ paths → affected conflict p) →
  within (affected conflict) (affected conflict) (addInsertBothBlocksChanges conflict paths label).
Proof.
  intros Hp. apply within_fold; [|apply within_none]. intros c p Hin Hc. unfold insert_both.
  destruct (read_commit_text _ p); [apply within_write; auto|]. destruct (read_commit_text _ p); [apply within_write|apply within_delete]; auto.
Qed.

Lemma read_plan_within decided others unrelated plan : ∀ seen c seen' c', read_plan decided others unrelated plan seen c = Ok (seen', c') →
  within (λ p, ∀ q, q ∈ unrelated → changedPathsConflict q p = false) (λ p, p ∈ decided) c →
  within (λ p, ∀ q, q ∈ unrelated → changedPathsConflict q p = false) (λ p, p ∈ decided) c'.
Proof.
  induction plan as [|[path [text|]] plan IH]; intros seen c seen' c'; cbn [read_plan]; [intros H Hc; congruence|..]; destruct (jmem path seen); try done.
  - destruct (jmem path others); [done|]. destruct (existsb _ unrelated) eqn:E; [done|]. intros H Hc. apply (IH _ _ _ _ H).
    apply within_write; [done|]. intros q Hq. apply not_true_iff_false. intros Hb. rewrite <- not_true_iff_false in E. apply E, existsb_exists.
    exists q. by rewrite <- list_elem_of_In.
  - destruct (jmem path decided) eqn:E; [|done]. cbn [negb]. intros H Hc. apply (IH _ _ _ _ H). apply within_delete; [done|]. by apply jmem_elem.
Qed.

Lemma manual_plan_within conflict sourceTree plan decided c : (∀ p, p ∈ decided → affected conflict p) →
  buildManualFilePlanChanges conflict sourceTree plan decided = Ok c → within (free conflict sourceTree) (affected conflict) c.
Proof.
  intros Hd. unfold buildManualFilePlanChanges. destruct (bool_decide _); [done|]. rewrite bind_Ok. intros ([seen c'] & H & Hc).
  destruct (existsb _ decided); [done|]. apply bind_Ok in Hc as (_ & _ & [= <-]).
  apply read_plan_within in H; [|apply within_none]. eapply within_mono; [exact H| |done].
  intros p Hp q [e Hq] Ha. apply Hp. apply elem_of_app. left. apply filter_elem. split; [|by apply negb_true_iff, jmem_not_elem].
  unfold listTreePaths. apply list_elem_of_fmap. exists (q, e). by rewrite elem_of_map_to_list.
Qed.

Definition may_write (conflict : ConflictRecord) (sourceTree : tree) (p : jstring) : Prop :=
  affected conflict p ∨ copy_of conflict p ∨ free conflict sourceTree p.

Lemma entry_within conflict sourceTree files label entry c : (∀ p, p ∈ pf_paths entry → affected conflict p) →
  entry_changes conflict sourceTree files label entry = Ok c → within (may_write conflict sourceTree) (affected conflict) c.
Proof.
  intros Hp. unfold entry_changes, may_write. destruct (pf_choice entry).
  - intros [= <-]. apply within_none.
  - intros [= <-]. eapply within_mono; [apply device_within; intros p [H _]%filter_elem; by apply Hp|intros p ?; by left|intros p ?; done].
  - intros [= <-]. eapply within_mono; [apply keep_both_within, Hp|intros p [?|?]; [by left|by right; left]|done].
  - destruct (conflictContainsBinary _ _); [done|]. intros [= <-]. eapply within_mono; [apply insert_both_within, Hp|by left|done].
  - destruct (conflictContainsBinary _ _); [done|]. intros H. eapply within_mono; [eapply manual_plan_within; [exact Hp|exact H]|intros p ?; by right; right|intros p ?; done].
Qed.

Lemma merge_writes_within W D i choice writes : ∀ m m', merge_writes i choice writes m = Ok m' → (∀ p, p ∈ mkeys writes → W p) →
  within W D (mg_changes m) → within W D (mg_changes m').
Proof.
  induction writes as [|[p content] writes IH]; intros m m'; cbn [merge_writes]; [by intros [= <-]|].
  destruct (existsb _ _); [done|]. intros H Hw Hm. apply (IH _ _ H); [intros q Hq; apply Hw; by right|]. cbn. apply within_write; [done|]. apply Hw. left.
Qed.

Lemma merge_entries_within conflict sourceTree files label perFile : (∀ entry p, entry ∈ perFile → p ∈ pf_paths entry → affected conflict p) →
  ∀ i m m', merge_entries conflict sourceTree files label i perFile m = Ok m' →
  within (may_write conflict sourceTree) (affected conflict) (mg_changes m) → within (may_write conflict sourceTree) (affected conflict) (mg_changes m').
Proof.
  induction perFile as [|entry perFile IH]; intros Hp i m m'; cbn [merge_entries]; [by intros [= <-]|].
  rewrite bind_Ok. intros (c & Hc & H) Hm. apply bind_Ok in H as (m1 & H1 & H).
  apply entry_within in Hc; [|intros p; apply Hp; left].
  eapply IH in H; [done|intros e p He; apply Hp; by right|]. cbn.
  eapply (merge_writes_within _ (affected conflict)) in H1; [|apply Hc|exact Hm].
  destruct H1 as [N1 N2 N3]. split; cbn; [done..|]. intros p [Hd|Hd]%elem_of_app; [auto|]. by apply Hc.
Qed.

(** ** The tree of a resolution *)

Lemma manual_within conflict files : forallb (λ p, jmem p (cf_affected_paths conflict)) (mkeys files) = true →
  within (affected conflict) (affected conflict) (manual_changes files).
Proof.
  intros Hf. apply within_fold; [|apply within_none]. intros c [p text] Hin Hc.
  assert (affected conflict p).
  { apply jmem_elem. rewrite forallb_forall in Hf. apply Hf, list_elem_of_In, list_elem_of_fmap. by exists (p, text). }
  destruct text; [by apply within_write|by apply within_delete].
Qed.

(** The paths a request may write: besides the affected paths and the copies beside
    them, the targets of a manual plan, which meet no file outside the conflict. *)
Definition writable (conflict : ConflictRecord) (request : ResolutionRequest) (sourceTree : tree) (p : jstring) : Prop :=
  affected conflict p ∨ copy_of conflict p ∨
  free conflict sourceTree p ∧ (rq_resolutionKind request = RkManual ∨ rq_resolutionKind request = RkPerFile).

(** How the tree of the artifacts came about. *)
Inductive origin (conflict : ConflictRecord) (request : ResolutionRequest) (a : ResolutionArtifacts) : Prop :=
| origin_source : ra_tree a = ra_sourceTree a → origin conflict request a
| origin_device : rq_resolutionKind request = RkUseDevice → cf_directory_context conflict = None → ra_fileAffectedPaths a = [] →
    r_trees R !! cf_device_commit conflict = Some (ra_tree a) → origin conflict request a
| origin_changes c : within (writable conflict request (ra_sourceTree a)) (affected conflict) c → ch_writes c = ra_writes a → ch_deletes c = ra_deletes a →
    createTreeWithFileContents (ra_sourceTree a) (ra_writes a) (ra_deletes a) = Ok (ra_tree a) → origin conflict request a.

(** The requests that reach the artifacts decide affected paths only. *)
Definition decides_affected (conflict : ConflictRecord) (request : ResolutionRequest) : Prop :=
  rq_resolutionKind request = RkPerFile →
  ∀ entry p, entry ∈ default [] (rq_perFile request) → p ∈ pf_paths entry → affected conflict p.

Lemma artifacts_origin conflict request label a : decides_affected conflict request →
  buildResolutionArtifacts conflict request label = Ok a →
  resolutionSourceTree conflict = Ok (ra_sourceTree a) ∧ conflictFileAffectedPaths conflict = Ok (ra_fileAffectedPaths a) ∧ origin conflict request a.
Proof.
  intros Hper. unfold buildResolutionArtifacts. rewrite bind_Ok. intros (src & Hsrc & H). apply bind_Ok in H as (files & Hfiles & H).
  assert (∀ c choices W, within W (affected conflict) c → (∀ p, W p → writable conflict request src p) →
    (t ← createTreeWithFileContents src (ch_writes c) (ch_deletes c); mret (mk_artifacts t src files (ch_writes c) (ch_deletes c) (ch_copies c) choices)) = Ok a →
    resolutionSourceTree conflict = Ok (ra_sourceTree a) ∧ conflictFileAffectedPaths conflict = Ok (ra_fileAffectedPaths a) ∧ origin conflict request a) as Hart.
  { intros c choices W Hc HW Ha. apply bind_Ok in Ha as (t & Ht & [= <-]). cbn. split_and!; [done..|].
    eapply (origin_changes _ _ _ c); cbn; [|done..]. eapply within_mono; [exact Hc|exact HW|done]. }
  assert (∀ p, p ∈ files → affected conflict p) as Hfa.
  { intros p Hp. unfold conflictFileAffectedPaths in Hfiles. apply bind_Ok in Hfiles as (? & _ & Hfiles).
    apply bind_Ok in Hfiles as (? & _ & Hfiles). apply bind_Ok in Hfiles as (? & _ & [= <-]). by apply filter_elem in Hp as []. }
  cbv zeta in H. destruct (rq_resolutionKind request) eqn:Ek.
  - injection H as <-. cbn. split_and!; [done..|]. by apply origin_source.
  - destruct (bool_decide_reflect (files = [])) as [->|_].
    + apply bind_Ok in H as (t & Ht & [= <-]). cbn. split_and!; [done..|].
      destruct (bool_decide_reflect (cf_directory_context conflict = None)); [apply origin_device; [done..|by apply commit_tree_Ok]|].
      injection Ht as ->. by apply origin_source.
    + eapply Hart; [apply device_within, Hfa|by left|exact H].
  - apply bind_Ok in H as (_ & _ & H). apply (Hart (addKeepBothChanges conflict src (cf_affected_paths conflict)) None (λ p, affected conflict p ∨ copy_of conflict p)); [|
      intros p [?|?]; [by left|by right; left]|exact H].
    by eapply within_mono; [by apply keep_both_within| |].
  - destruct (conflictContainsBinary _ _); [done|]. apply (Hart (addInsertBothBlocksChanges conflict (cf_affected_paths conflict) label) None (affected conflict)); [by apply insert_both_within|by left|exact H].
  - destruct (conflictContainsBinary _ _); [done|]. destruct (rq_manualFiles request) as [[|f fs]|], (rq_manualFilePlan request) as [plan|]; try done.
    + destruct (existsb _ (mkeys (f :: fs))) eqn:Ex; [done|]. destruct (existsb _ (cf_affected_paths conflict)); [done|]. apply bind_Ok in H as (_ & _ & H).
      apply (Hart (manual_changes (f :: fs)) None (affected conflict)); [apply manual_within|by left|exact H]. apply forallb_forall. intros p Hp. apply negb_false_iff, not_true_iff_false. intros Hn.
      apply not_true_iff_false in Ex. apply Ex, existsb_exists. by exists p.
    + apply bind_Ok in H as (c & Hc & H). apply manual_plan_within in Hc; [|done]. eapply Hart; [exact Hc| |exact H].
      intros p Hp. right. right. split; [exact Hp|]. by left.
  - destruct (_ || _); [done|]. destruct (rq_perFile request) as [[|e es]|] eqn:Ep; try done. apply bind_Ok in H as (m & Hm & H). apply bind_Ok in H as (_ & _ & H).
    apply merge_entries_within in Hm; [|intros entry p He; apply (Hper Ek); by rewrite Ep|apply within_none].
    eapply Hart; [exact Hm| |exact H]. intros p [Hp|[Hp|Hp]]; [by left|by right; left|]. right. right. split; [exact Hp|]. by right.
Qed.

Definition repository_ok : Prop := repository_stored ∧ ∀ commit t, r_trees R !! commit = Some t → tree_ok t.

Lemma source_ok conflict t : repository_ok → resolutionSourceTree conflict = Ok t → stored t ∧ tree_ok t.
Proof.
  intros [HR Hok] H. split; [by eapply source_stored|]. unfold resolutionSourceTree in H.
  destruct (negb _); [apply commit_tree_Ok in H; by eapply Hok|].
  apply bind_Ok in H as (paths & _ & H). destruct (_ && _); [apply commit_tree_Ok in H; by eapply Hok|].
  apply bind_Ok in H as (base & _ & H). apply bind_Ok in H as (l & _ & H). apply bind_Ok in H as (main & Hm%commit_tree_Ok & H).
  destruct (bool_decide _); [injection H as <-; by eapply Hok|].
  apply bind_Ok in H as (device & _ & H). eapply createOverlayTree_ok; [by eapply Hok|exact H].
Qed.

Lemma artifacts_ok conflict request label a : repository_ok → decides_affected conflict request →
  buildResolutionArtifacts conflict request label = Ok a → tree_ok (ra_tree a).
Proof.
  intros HR Hd (Hs & _ & Ho)%artifacts_origin; [|done]. apply source_ok in Hs as [_ Hs]; [|done]. destruct Ho as [->|_ _ _ Ht|c _ _ _ Ht]; [done| |].
  - by eapply (proj2 HR).
  - by eapply createTreeWithFileContents_ok.
Qed.

Lemma candidate_decides conflict main request x : buildResolutionCandidate conflict main request = Ok x → decides_affected conflict request.
Proof.
  unfold buildResolutionCandidate. rewrite bind_Ok. intros (u & Hu & _) Hk entry p He Hp. rewrite bool_decide_true in Hu by done.
  unfold validatePerFileDecisionUnits in Hu. destruct (rq_perFile request) as [[|e es]|]; try done.
  apply bind_Ok in Hu as (units & (_ & Hin & _)%read_units_spec & _). apply Hin, list_elem_of_In, in_flat_map. exists entry. by rewrite <- !list_elem_of_In.
Qed.

(** [C17] A resolution changes only the conflict. Whatever kind of resolution is
    accepted, a file outside the affected paths (neither one of them, nor below one, nor
    the name of a conflict copy) is in the resulting tree exactly as in the tree under
    the resolution; and such a path gets a file only from a manual plan, and only where
    it meets no file outside the conflict. (The one other case: the device's whole tree
    replaces a tree in which no affected path is a file.) *)
Theorem resolution_confined (conflict : ConflictRecord) (main : jstring) (request : ResolutionRequest) (a : ResolutionArtifacts) (t : tree) :
  repository_ok → buildResolutionCandidate conflict main request = Ok (a, t) →
  rq_resolutionKind request = RkUseDevice ∧ ra_fileAffectedPaths a = [] ∧ r_trees R !! cf_device_commit conflict = Some (ra_tree a) ∨
  ∀ p, (∀ q, affected conflict q → covers q p = false) → ¬ copy_of conflict p →
    (∀ e, ra_sourceTree a !! p = Some e → ra_tree a !! p = Some e) ∧
    (ra_sourceTree a !! p = None → is_Some (ra_tree a !! p) →
      free conflict (ra_sourceTree a) p ∧ (rq_resolutionKind request = RkManual ∨ rq_resolutionKind request = RkPerFile)).
Proof.
  intros HR H. pose proof (candidate_decides _ _ _ _ H) as Hd. unfold buildResolutionCandidate in H. apply bind_Ok in H as (_ & _ & H).
  apply bind_Ok in H as (a' & Ha & H).
  assert (a' = a) as ->. { destruct (main =s? _); [by injection H|]. destruct (buildResolutionArtifacts (advanced_conflict _ _) _ _); [|by destruct (is_invalid_resolution _)].
    apply bind_Ok in H as (? & _ & H). apply bind_Ok in H as (? & _ & H). destruct (sameTreeChanges _ _ _ _); [by injection H|done]. }
  apply artifacts_origin in Ha as (Hs & _ & Ho); [|done]. apply source_ok in Hs as [Hs _]; [|done].
  destruct Ho as [E|Hk _ Hf Ht|c Hc Ew Ed Ht]; [right; intros p _ _; rewrite E; split; [done|by intros -> []]|by left|right].
  intros p Hp Hcopy. assert (NoDup (mkeys (ra_writes a))) as Hnd by (rewrite <- Ew; apply Hc).
  rewrite (createTreeWithFileContents_Ok _ _ _ _ Hs Hnd Ht p). unfold written.
  assert (removed (ra_deletes a) p = false) as ->.
  { unfold removed. rewrite <- Ed. apply not_true_iff_false. rewrite existsb_exists. intros (q & Hq & Hcov). apply list_elem_of_In in Hq.
    rewrite Hp in Hcov; [done|]. by apply Hc. }
  destruct (mget (ra_writes a) p) as [content|] eqn:E; [|split; [done|by intros -> []]].
  assert (writable conflict request (ra_sourceTree a) p) as [Ha|[Ha|[Hfree Hk]]].
  { apply Hc. rewrite Ew. apply mget_keys. by exists content. }
  - apply Hp in Ha. by rewrite covers_refl in Ha.
  - done.
  - split; [|done]. intros e He. exfalso. assert (changedPathsConflict p p = false) as Hf; [|by rewrite (proj2 (changedPathsConflict_spec p p)) in Hf; auto].
    apply Hfree; [by exists e|]. intros Ha. apply Hp in Ha. by rewrite covers_refl in Ha.
Qed.

(** [C16] What is applied is what was reviewed. Whatever main has become since the
    review, an accepted candidate changes main exactly as the reviewed tree changes the
    reviewed main: at every path the resolution changes, main still holds what was
    reviewed and gets what was reviewed; every other file of main stays as it is. *)
Theorem resolution_candidate_exact (conflict : ConflictRecord) (main : jstring) (request : ResolutionRequest) (a : ResolutionArtifacts)
    (t reviewedMain currentMain : tree) :
  repository_ok → buildResolutionCandidate conflict main request = Ok (a, t) →
  r_trees R !! cf_expected_main conflict = Some reviewedMain → r_trees R !! main = Some currentMain →
  tree_ok t ∧
  ∀ p, (reviewedMain !! p ≠ ra_tree a !! p → reviewedMain !! p = currentMain !! p ∧ ra_tree a !! p = t !! p) ∧
       (reviewedMain !! p = ra_tree a !! p → currentMain !! p = t !! p).
Proof.
  intros HR H Hrev Hcur. pose proof (candidate_decides _ _ _ _ H) as Hd. unfold buildResolutionCandidate in H. apply bind_Ok in H as (_ & _ & H).
  apply bind_Ok in H as (a' & Ha & H). destruct (jeqb_spec main (cf_expected_main conflict)) as [->|Hne].
  - injection H as -> <-. assert (currentMain = reviewedMain) as -> by congruence. split; [by eapply artifacts_ok|]. done.
  - destruct (buildResolutionArtifacts (advanced_conflict conflict main) request _) as [b|e] eqn:Eb; [|by destruct (is_invalid_resolution _)].
    apply bind_Ok in H as (rb & Hrb%commit_tree_Ok & H). apply bind_Ok in H as (ab & Hab%commit_tree_Ok & H).
    assert (rb = reviewedMain) as -> by congruence. assert (ab = currentMain) as -> by congruence.
    destruct (sameTreeChanges _ _ _ _) eqn:Es; [|done]. injection H as -> <-.
    assert (tree_ok (ra_tree b)) as Hb by (eapply (artifacts_ok (advanced_conflict conflict main)); [exact HR|exact Hd|exact Eb]).
    split; [exact Hb|]. apply same_tree_changes_exact; [by eapply (proj2 HR)|by eapply artifacts_ok|by eapply (proj2 HR)|exact Hb|exact Es].
Qed.

(** ** What the whole-file choices leave *)

Lemma device_fold conflict paths : ∀ c p,
  mget (ch_writes (fold_left (device_version conflict) paths c)) p =
    (if jmem p paths then match read_commit (cf_device_commit conflict) p with Some blob => Some blob | None => mget (ch_writes c) p end
     else mget (ch_writes c) p) ∧
  (p ∈ ch_deletes (fold_left (device_version conflict) paths c) ↔
    p ∈ ch_deletes c ∨ p ∈ paths ∧ read_commit (cf_device_commit conflict) p = None).
Proof.
  induction paths as [|q paths IH]; intros c p; cbn [fold_left jmem].
  - split; [done|]. split; [by left|]. intros [?|[?%not_elem_of_nil _]]; done.
  - destruct (IH (device_version conflict c q) p) as [-> ->]. unfold device_version. rewrite elem_of_cons. rewrite (jeqb_sym p q).
    destruct (read_commit (cf_device_commit conflict) q) as [blob|] eqn:E; cbn [add_write add_delete ch_writes ch_deletes].
    + rewrite mget_mset. destruct (jeqb_spec q p) as [->|Hne]; cbn [orb].
      * rewrite E. split; [by destruct (jmem p paths)|]. naive_solver.
      * split; [done|]. naive_solver.
    + rewrite elem_of_app, list_elem_of_singleton. destruct (jeqb_spec q p) as [->|Hne]; cbn [orb].
      * rewrite E. split; [by destruct (jmem p paths)|]. naive_solver.
      * split; [done|]. naive_solver.
Qed.

(** Where keep-both puts the device's version. *)
Definition keep_target (conflict : ConflictRecord) (sourceTree : tree) (p : jstring) : jstring :=
  match readOptionalBlob sourceTree p with
  | None => p
  | Some _ => conflictCopyPath p (cf_conflict_id conflict) (cf_device_id conflict)
  end.

Lemma keep_both_step conflict sourceTree c p q : mget (ch_writes (keep_both conflict sourceTree c p)) q =
  match read_commit (cf_device_commit conflict) p with
  | Some blob => if keep_target conflict sourceTree p =s? q then Some blob else mget (ch_writes c) q
  | None => mget (ch_writes c) q
  end.
Proof.
  unfold keep_both, keep_target. destruct (read_commit _ p); [|done]. destruct (readOptionalBlob sourceTree p); [|cbn; by rewrite mget_mset].
  cbv zeta. destruct (_ =s? p); cbn; by rewrite mget_mset.
Qed.

Lemma keep_both_fold conflict sourceTree paths p : p ∈ paths →
  (∀ q, q ∈ paths → keep_target conflict sourceTree q = keep_target conflict sourceTree p → q = p) →
  ∀ blob, read_commit (cf_device_commit conflict) p = Some blob → ∀ c,
  mget (ch_writes (fold_left (keep_both conflict sourceTree) paths c)) (keep_target conflict sourceTree p) = Some blob.
Proof.
  intros Hp Hinj blob Hb. induction paths as [|q paths IH] using rev_ind; intros c; [by apply not_elem_of_nil in Hp|].
  rewrite fold_left_app. cbn [fold_left]. rewrite keep_both_step.
  destruct (decide (q = p)) as [->|Hne]; [by rewrite Hb, jeqb_refl|].
  assert (keep_target conflict sourceTree q ≠ keep_target conflict sourceTree p) as Ht.
  { intros E. apply Hne, Hinj; [apply elem_of_app; right; left|done]. }
  apply jeqb_neq in Ht. apply elem_of_app in Hp as [Hp| ->%list_elem_of_singleton]; [|done].
  assert (mget (ch_writes (fold_left (keep_both conflict sourceTree) paths c)) (keep_target conflict sourceTree p) = Some blob) as E.
  { apply IH; [done|]. intros r Hr. apply Hinj, elem_of_app. by left. }
  rewrite E. destruct (read_commit (cf_device_commit conflict) q); [by rewrite Ht|done].
Qed.

Lemma device_NoDup conflict paths : NoDup (mkeys (ch_writes (addDeviceVersionChanges conflict paths))).
Proof.
  unfold addDeviceVersionChanges. assert (within (λ _, True) (λ _, True) (fold_left (device_version conflict) paths no_changes)) as H; [|apply H].
  apply within_fold; [|apply within_none]. intros c p _ Hc. unfold device_version. destruct (read_commit _ p); [by apply within_write|by apply within_delete].
Qed.

(** A file of the server is not written by keep-both. *)
Lemma keep_both_other conflict sourceTree p e content paths : sourceTree !! p = Some e →
  (∀ q, q ∈ paths → conflictCopyPath q (cf_conflict_id conflict) (cf_device_id conflict) ≠ p) → ∀ c, mget (ch_writes c) p = None →
  mget (ch_writes (fold_left (keep_both conflict sourceTree) paths c)) p ≠ Some content.
Proof.
  intros He. induction paths as [|q paths IH]; intros Hq c Hc; cbn [fold_left]; [congruence|].
  apply IH; [intros r Hr; apply Hq; by right|]. rewrite keep_both_step. destruct (read_commit _ q); [|done].
  assert (keep_target conflict sourceTree q ≠ p) as Ht; [|apply jeqb_neq in Ht; by rewrite Ht].
  unfold keep_target. destruct (readOptionalBlob sourceTree q) eqn:E; [apply Hq; left|]. intros ->.
  unfold readOptionalBlob, readBlobAtPath in E. by rewrite He in E.
Qed.

Lemma read_commit_file commit D p e : r_trees R !! commit = Some D → D !! p = Some e → read_commit commit p = Some (oid_content (t_oid e)).
Proof. intros H1 H2. unfold read_commit, commit_tree, readOptionalBlob, readBlobAtPath. by rewrite H1, H2. Qed.

Lemma read_commit_absent commit D p : r_trees R !! commit = Some D → D !! p = None → is_directory D p = false → read_commit commit p = None.
Proof. intros H1 H2 H3. unfold read_commit, commit_tree, readOptionalBlob, readBlobAtPath. by rewrite H1, H2, H3. Qed.

(** The copies have names of their own. *)
Definition copies_apart (conflict : ConflictRecord) : Prop :=
  ∀ p q, affected conflict p → affected conflict q →
    conflictCopyPath p (cf_conflict_id conflict) (cf_device_id conflict) ≠ q ∧
    (conflictCopyPath p (cf_conflict_id conflict) (cf_device_id conflict) = conflictCopyPath q (cf_conflict_id conflict) (cf_device_id conflict) → p = q).

(** The whole-file choices do what they say. Keeping the server's version leaves
    the tree as it was; taking the device's gives every affected file the device's
    object, and removes what the device does not have; keeping both leaves every
    affected file of the server as it was, and the device's object is there as well, at
    the path itself or, where the server has something there, in a copy beside it. *)
Theorem whole_file_choices (conflict : ConflictRecord) (request : ResolutionRequest) (label : option jstring) (a : ResolutionArtifacts) (D : tree) :
  repository_ok → r_trees R !! cf_device_commit conflict = Some D → buildResolutionArtifacts conflict request label = Ok a →
  match rq_resolutionKind request with
  | RkKeepServer => ra_tree a = ra_sourceTree a
  | RkUseDevice => ∀ p, p ∈ ra_fileAffectedPaths a →
      (∀ e, D !! p = Some e → t_oid <$> ra_tree a !! p = Some (t_oid e)) ∧
      (D !! p = None → is_directory D p = false → ra_tree a !! p = None)
  | RkKeepBothFiles => copies_apart conflict → ∀ p, affected conflict p →
      (∀ e, ra_sourceTree a !! p = Some e → ra_tree a !! p = Some e) ∧
      (∀ e, D !! p = Some e → t_oid <$> ra_tree a !! keep_target conflict (ra_sourceTree a) p = Some (t_oid e))
  | _ => True
  end.
Proof.
  intros HR HD. assert (stored D) as HsD by by eapply (proj1 HR).
  unfold buildResolutionArtifacts. rewrite bind_Ok. intros (src & Hsrc & H). apply bind_Ok in H as (files & Hfiles & H).
  apply source_ok in Hsrc as [Hst _]; [|done]. cbv zeta in H. destruct (rq_resolutionKind request); try done.
  - by injection H as <-.
  - destruct (bool_decide_reflect (files = [])) as [->|_].
    { apply bind_Ok in H as (t & Ht & [= <-]). cbn. by intros p ?%not_elem_of_nil. }
    apply bind_Ok in H as (t & Ht & [= <-]). cbn [ra_tree ra_fileAffectedPaths]. intros p Hp.
    assert (NoDup (mkeys (ch_writes (addDeviceVersionChanges conflict files)))) as Hnd by apply device_NoDup.
    rewrite (createTreeWithFileContents_Ok _ _ _ _ Hst Hnd Ht p). unfold written, addDeviceVersionChanges.
    destruct (device_fold conflict files no_changes p) as [-> Hdel]. apply jmem_elem in Hp as Hm. rewrite Hm. split.
    + intros e He. rewrite (read_commit_file _ _ _ _ HD He). cbn. f_equal. by apply (HsD p).
    + intros Hn Hdir. rewrite (read_commit_absent _ _ _ HD Hn Hdir). cbn [mget no_changes ch_writes].
      assert (removed (ch_deletes (fold_left (device_version conflict) files no_changes)) p = true) as ->; [|done].
      unfold removed. apply existsb_exists. exists p. rewrite <- list_elem_of_In, covers_refl. split; [|done].
      apply Hdel. right. split; [done|]. by apply (read_commit_absent _ D).
  - apply bind_Ok in H as (_ & _ & H). apply bind_Ok in H as (t & Ht & [= <-]). cbn [ra_tree ra_sourceTree]. intros Hap p Hp.
    pose proof (keep_both_within conflict src (cf_affected_paths conflict) (λ p H, H)) as [Hnd _ Hdel].
    assert (∀ q, removed (ch_deletes (addKeepBothChanges conflict src (cf_affected_paths conflict))) q = false) as Hrem.
    { intros q. apply not_true_iff_false. intros (d & Hd & _)%existsb_exists. apply list_elem_of_In in Hd. by apply Hdel in Hd. }
    assert (∀ q, affected conflict q → keep_target conflict src q = keep_target conflict src p → q = p) as Hinj.
    { intros q Hq. unfold keep_target. destruct (Hap q p Hq Hp) as [H1 H2], (Hap p q Hp Hq) as [H3 _].
      destruct (readOptionalBlob src q), (readOptionalBlob src p); intros E; [by apply H2|done|by destruct H3|done]. }
    split; intros e He.
    + rewrite (createTreeWithFileContents_Ok _ _ _ _ Hst Hnd Ht p). unfold written. rewrite Hrem.
      destruct (mget _ p) as [content|] eqn:E; [exfalso|done].
      revert E. unfold addKeepBothChanges. apply (keep_both_other conflict src p e content _ He); [|done]. intros q Hq. by destruct (Hap q p Hq Hp).
    + rewrite (createTreeWithFileContents_Ok _ _ _ _ Hst Hnd Ht). unfold written, addKeepBothChanges.
      rewrite (keep_both_fold conflict src _ p Hp Hinj _ (read_commit_file _ _ _ _ HD He) no_changes). cbn. f_equal. by apply (HsD p).
Qed.

(** ** Conflicts no resolution settles *)

(** A conflict recorded without a base ([no_merge_base], [invalid_proposal_base]): the
    affected files are read from the missing base, whatever the resolution. *)
Lemma baseless_conflict_unresolvable (conflict : ConflictRecord) (request : ResolutionRequest) (label : option jstring) :
  r_trees R !! cf_base_commit conflict = None → ∃ e, buildResolutionArtifacts conflict request label = Throw e.
Proof.
  intros Hb. unfold buildResolutionArtifacts, conflictFileAffectedPaths. destruct (resolutionSourceTree conflict) as [t|e]; [|by exists e].
  assert (commit_tree R (cf_base_commit conflict) = Throw no_commit) as -> by (unfold commit_tree; by rewrite Hb). by eexists.
Qed.

End resolution.

(** ** Examples *)

Definition toy_bytes : TextBytes := {| utf8_encode := id; utf8_strict := Some |}.

Abbreviation sample_candidate := (@buildResolutionCandidate simple_git ascii_unicode toy_text plain_objects toy_bytes toy_numerals toy_sha256).
Abbreviation sample_artifacts := (@buildResolutionArtifacts simple_git ascii_unicode toy_text plain_objects toy_bytes).

(** Both sides edited [b.md]; since the review the server changed [a.md]. *)
Definition server_edit : tree := <[lit "b.md" := sample_file 99]> sample_base.
Definition edit_conflict : ConflictRecord :=
  mk_ConflictRecord "conf_12345678" "vlt_1" "dev_87654321" CfOpen "m1" "s1" "d1" "s1" [lit "b.md"] 1 1 "1" CkContent None None [] [] "t0" None None None None None.
Definition edit_trees : gmap jstring tree :=
  list_to_map [(lit "m1", sample_base); (lit "s1", server_edit); (lit "s2", <[lit "a.md" := sample_file 102]> server_edit); (lit "d1", sample_device)].
Definition edit_repository : repository := mk_repository edit_trees (λ _ _, Ok true) (λ _ _, Ok (Some (lit "m1"))).
Definition choose (kind : ConflictResolutionKind) : ResolutionRequest := mk_request kind None None None.
Definition keep_both_tree : tree := <[lit "b.device-87654321-12345678.md" := sample_file 101]> server_edit.

Lemma edit_repository_ok : @repository_ok plain_objects edit_repository.
Proof.
  assert (map_Forall (λ _ t, tree_ok t) edit_trees) as H.
  { unfold edit_trees. cbn [list_to_map foldr uncurry curry]. repeat apply map_Forall_insert_2; try apply map_Forall_empty;
      apply tree_okb_ok; vm_compute; reflexivity. }
  split; [intros c t Hc; apply plain_objects_stored|intros c t Hc]; exact (H c t Hc).
Qed.

Lemma keep_both_candidate : to_option ((λ x, (ra_tree x.1, ra_sourceTree x.1, x.2)) <$> sample_candidate edit_repository edit_conflict "s2" (choose RkKeepBothFiles)) =
  Some (keep_both_tree, server_edit, <[lit "a.md" := sample_file 102]> keep_both_tree).
Proof. vm_compute. reflexivity. Qed.

Lemma resolution_confined_witness :
  match sample_candidate edit_repository edit_conflict "s2" (choose RkKeepBothFiles) with
  | Ok (a, t) => ra_tree a !! lit "a.md" = Some (sample_file 97)
  | Throw _ => False
  end.
Proof.
  pose proof keep_both_candidate as Hc.
  destruct (sample_candidate edit_repository edit_conflict "s2" (choose RkKeepBothFiles)) as [[a t]|] eqn:E; [|discriminate Hc].
  cbn in Hc. injection Hc as Ht Hs Hm.
  destruct (@resolution_confined simple_git ascii_unicode toy_text plain_objects toy_bytes toy_numerals toy_sha256 edit_repository plain_objects_ok
    edit_conflict "s2" (choose RkKeepBothFiles) a t edit_repository_ok E) as [(Hk & _)|H]; [discriminate Hk|].
  destruct (H (lit "a.md")) as [H1 _].
  - intros q Hq. unfold affected in Hq. apply list_elem_of_singleton in Hq as ->. reflexivity.
  - intros (q & Hq & Eq). apply list_elem_of_singleton in Hq as ->. apply (f_equal length) in Eq. vm_compute in Eq. discriminate Eq.
  - apply H1. rewrite Hs. vm_compute. reflexivity.
Defined.

Lemma resolution_candidate_exact_witness :
  match sample_candidate edit_repository edit_conflict "s2" (choose RkKeepBothFiles) with
  | Ok (a, t) => t !! lit "a.md" = Some (sample_file 102) ∧ t !! lit "b.device-87654321-12345678.md" = Some (sample_file 101)
  | Throw _ => False
  end.
Proof.
  pose proof keep_both_candidate as Hc.
  destruct (sample_candidate edit_repository edit_conflict "s2" (choose RkKeepBothFiles)) as [[a t]|] eqn:E; [|discriminate Hc].
  cbn in Hc. injection Hc as Ht Hs Hm.
  destruct (@resolution_candidate_exact simple_git ascii_unicode toy_text plain_objects toy_bytes toy_numerals toy_sha256 edit_repository plain_objects_ok
    edit_conflict "s2" (choose RkKeepBothFiles) a t server_edit (<[lit "a.md" := sample_file 102]> server_edit) edit_repository_ok E) as [_ H].
  - vm_compute. reflexivity.
  - vm_compute. reflexivity.
  - split.
    + destruct (H (lit "a.md")) as [_ H1]. rewrite <- H1; [vm_compute; reflexivity|]. rewrite Ht. vm_compute. reflexivity.
    + destruct (H (lit "b.device-87654321-12345678.md")) as [H1 _]. destruct H1 as [_ H1]; [rewrite Ht; vm_compute; discriminate|].
      rewrite <- H1, Ht. vm_compute. reflexivity.
Defined.

Lemma whole_file_choices_witness :
  match sample_artifacts edit_repository edit_conflict (choose RkKeepBothFiles) None with
  | Ok a => ra_tree a !! lit "b.md" = Some (sample_file 99) ∧
            t_oid <$> ra_tree a !! lit "b.device-87654321-12345678.md" = Some (repeat 101%N 40)
  | Throw _ => False
  end.
Proof.
  assert (to_option (ra_sourceTree <$> sample_artifacts edit_repository edit_conflict (choose RkKeepBothFiles) None) = Some server_edit) as Hc by (vm_compute; reflexivity).
  destruct (sample_artifacts edit_repository edit_conflict (choose RkKeepBothFiles) None) as [a|] eqn:E; [|discriminate Hc]. cbn in Hc. injection Hc as Hs.
  assert (r_trees edit_repository !! cf_device_commit edit_conflict = Some sample_device) as HD by (vm_compute; reflexivity).
  pose proof (@whole_file_choices simple_git ascii_unicode toy_text plain_objects toy_bytes edit_repository plain_objects_ok
    edit_conflict (choose RkKeepBothFiles) None a sample_device edit_repository_ok HD E) as H.
  cbn [rq_resolutionKind choose] in H. destruct (H ltac:(intros p q Hp%list_elem_of_singleton Hq%list_elem_of_singleton; subst p q;
    split; [vm_compute; discriminate|intros _; reflexivity]) (lit "b.md") ltac:(left)) as [H1 H2]. rewrite Hs in H1, H2. split.
  - apply H1. vm_compute. reflexivity.
  - refine (eq_trans _ (H2 (sample_file 101) _)); vm_compute; reflexivity.
Defined.

Definition per_file_request : list PerFileResolutionEntry := [mk_per_file [lit "b.md"] PcKeepBothFiles None].
Lemma per_file_decisions_consistent_witness :
  NoDup (flat_map pf_paths per_file_request) ∧
  @validatePerFileDecisionUnits simple_git ascii_unicode toy_text plain_objects toy_numerals toy_sha256 edit_repository edit_conflict
    (Some [mk_per_file [lit "a.md"] PcKeepServer None]) ≠ Ok tt.
Proof.
  split; [|vm_compute; discriminate].
  apply (@per_file_decisions_consistent simple_git ascii_unicode toy_text plain_objects toy_numerals toy_sha256 edit_repository edit_conflict per_file_request).
  vm_compute. reflexivity.
Defined.

(** A file on one side is a directory on the other: the device's version cannot be
    chosen, nor both versions where the device has the directory, because the work tree
    refuses the file or the directory. *)
Definition note : tree := list_to_map [(lit "n", sample_file 97)].
Definition note_edited : tree := list_to_map [(lit "n", sample_file 98)].
Definition folder : tree := list_to_map [(lit "n/m.md", sample_file 97)].
Definition folder_edited : tree := list_to_map [(lit "n/m.md", sample_file 98)].
Definition kind_trees : gmap jstring tree := list_to_map [(lit "b1", note); (lit "s1", note_edited); (lit "b2", folder); (lit "s2", folder_edited)].
Definition kind_repository (base : string) : repository := mk_repository kind_trees (λ _ _, Ok true) (λ _ _, Ok (Some (lit base))).
Definition kind_conflict (base main device : string) : ConflictRecord :=
  mk_ConflictRecord "conf_12345678" "vlt_1" "dev_87654321" CfOpen (lit base) (lit main) (lit device) (lit main)
    [lit "n"; lit "n/m.md"] 2 1 "1" CkContent None None [] [] "t0" None None None None None.

Lemma file_directory_conflict_stuck :
  let attempt base main device kind := sample_artifacts (kind_repository base) (kind_conflict base main device) (choose kind) None in
  attempt "b1" "s1" "b2" RkUseDevice = Throw (filesystem_error "ENOTDIR") ∧
  attempt "b1" "s1" "b2" RkKeepBothFiles = Throw (filesystem_error "ENOTDIR") ∧
  attempt "b2" "s2" "b1" RkUseDevice = Throw (filesystem_error "EISDIR").
Proof. split_and!; vm_compute; reflexivity. Qed.
