(* ===== verification/VaultDeletion.v ===== *)
(** * Durable deletion of a vault (src/server/vaultLifecycleCoordinator.ts)

    The transactions of the deletion lifecycle on the metadata document, the
    erasure of the vault's files, and the worker that repeats its attempts until
    one succeeds. What the file system, git and the transfer service do is an
    input of each attempt ([faults]); the barriers that keep requests out
    meanwhile are modelled in Barriers.v. *)

From S2P Require Export MetadataStore Unicode Regex.

Local Open Scope Z_scope.

(** ** Transactions *)

Definition RECEIPT_RETENTION_MS : Z := 30 * 24 * 60 * 60 * 1000.
Definition RETRY_DELAY_MS : Z := 1000.
Definition VAULT_ID_PATTERN : regex := rplus (RClass (λ c, is_alnum c || N.eqb c 95)).
Definition MAX_DATE : Z := 8640000000000000.

Definition is_job (vaultId : jstring) (job : DeletionJob) : bool := dj_vault_id job =s? vaultId.
Definition is_receipt (vaultId : jstring) (receipt : DeletionReceipt) : bool := dr_vault_id receipt =s? vaultId.

Definition hasDeletionJobOrReceipt (db : MetadataDb) (vaultId : jstring) : bool :=
  existsb (is_job vaultId) (db_deletion_jobs db) || existsb (is_receipt vaultId) (db_deletion_receipts db).

Section lifecycle.
Context `{D : Dates} `{U : Unicode}.

Definition receiptExpiryTimestamp (completedAtValue : jstring) : option Z :=
  match date_parse completedAtValue with
  | None => None
  | Some completedAt =>
    if MAX_DATE - RECEIPT_RETENTION_MS <? completedAt then None
    else let expiry := completedAt + RECEIPT_RETENTION_MS in if expiry <? - MAX_DATE then None else Some expiry
  end.

(** [value ?? otherwise]. *)
Definition or_else (value : option jstring) (otherwise : jstring) : option jstring :=
  match value with Some _ => value | None => Some otherwise end.

(** What both [beginDeletion] and [reconcileDeletingVaultRows] do to the vault's
    devices, tokens and connections. *)
Definition device_ids (vaultId : jstring) (db : MetadataDb) : list jstring :=
  map d_device_id (List.filter (λ device, d_vault_id device =s? vaultId) (db_devices db)).
Definition of_devices (ids : list jstring) (device : option jstring) : bool :=
  match device with Some id => jmem id ids | None => false end.

Definition revoke_vault (vaultId at_ : jstring) (db : MetadataDb) : MetadataDb :=
  let deviceIds := device_ids vaultId db in
  let db := set_db_devices (update_where (λ device, jmem (d_device_id device) deviceIds)
              (λ device, set_d_revoked_at (or_else (d_revoked_at device) at_) (set_d_status DRevoked device))
              (db_devices db)) db in
  let db := set_db_tokens (update_where
              (λ token, oeqb (t_vault_id token) (Some vaultId) || of_devices deviceIds (t_device_id token))
              (λ token, set_t_revoked_at (or_else (t_revoked_at token) at_) token) (db_tokens db)) db in
  set_db_connections (update_where
    (λ connection, oeqb (c_selected_vault_id connection) (Some vaultId)
       && (bool_decide (c_status connection = CPending) || bool_decide (c_status connection = CApproved)))
    (set_c_status CDenied) (db_connections db)) db.

Definition drop_removal_jobs (vaultId : jstring) (db : MetadataDb) : MetadataDb :=
  set_db_device_removal_jobs
    (List.filter (λ job, negb (rj_vault_id job =s? vaultId)) (db_device_removal_jobs db)) db.

Definition new_job (vaultId owner requestedAt : jstring) : DeletionJob :=
  mk_DeletionJob vaultId owner requestedAt PhIntent None None.

Definition has_vault_id (vaultId : jstring) (vault : VaultRow) : bool := v_vault_id vault =s? vaultId.

(** The transaction of [beginDeletion]. *)
Definition begin_tx (ownerUserId vaultId requestedAt : jstring) (db : MetadataDb) : result (unit * MetadataDb) :=
  match find_row (has_vault_id vaultId) (db_vaults db) with
  | None => Throw (AuthError 404 "not_found" "Resource not found." [])
  | Some current =>
    if negb (v_owner_user_id current =s? ownerUserId) then Throw (AuthError 404 "not_found" "Resource not found." [])
    else if bool_decide (v_status current = VDeleting)
    then Throw (AuthError 503 "deletion_unavailable" "Vault deletion has no durable lifecycle record." [])
    else
      let db := set_db_vaults (update_first (has_vault_id vaultId)
                  (λ vault, set_v_updated_at requestedAt (set_v_status VDeleting vault)) (db_vaults db)) db in
      let db := drop_removal_jobs vaultId db in
      let db := set_db_deletion_jobs (db_deletion_jobs db ++ [new_job vaultId ownerUserId requestedAt]) db in
      Ok ((), revoke_vault vaultId requestedAt db)
  end.

(** The transaction of [reconcileDeletingVaultRows]. *)
Definition reconcile_tx (vaultId requestedAt : jstring) (db : MetadataDb) : MetadataDb :=
  match find_row (has_vault_id vaultId) (db_vaults db) with
  | None => db
  | Some current =>
    if negb (bool_decide (v_status current = VDeleting)) then db else
    if hasDeletionJobOrReceipt db vaultId then db else
    let db := drop_removal_jobs vaultId db in
    let db := set_db_deletion_jobs
                (db_deletion_jobs db ++ [new_job vaultId (v_owner_user_id current) requestedAt]) db in
    revoke_vault vaultId requestedAt db
  end.

Definition setPhase (vaultId : jstring) (phase : DeletionPhase) (errorCode : option DeletionErrorCode) (db : MetadataDb)
    : MetadataDb :=
  set_db_deletion_jobs (update_first (is_job vaultId)
    (λ job, set_dj_error_code errorCode (set_dj_retry_at None (set_dj_phase phase job))) (db_deletion_jobs db)) db.

Definition recordRetry (vaultId : jstring) (code : DeletionErrorCode) (retryAt : jstring) (db : MetadataDb) : MetadataDb :=
  set_db_deletion_jobs (update_first (is_job vaultId)
    (λ job, set_dj_error_code (Some code) (set_dj_retry_at (Some retryAt) job)) (db_deletion_jobs db)) db.

(** [finalizeDb]: every row of the vault is dropped and a receipt is left. *)
Definition connection_ids (vaultId : jstring) (deviceIds : list jstring) (db : MetadataDb) : list jstring :=
  map c_connection_id (List.filter (λ connection,
    oeqb (c_selected_vault_id connection) (Some vaultId) || of_devices deviceIds (c_created_device_id connection))
    (db_connections db)).

(** [!ids.has(id ?? '')]. *)
Definition not_of (ids : list jstring) (id : option jstring) : bool := negb (jmem (default [] id) ids).
Definition not_vault (vaultId : jstring) (id : option jstring) : bool := negb (oeqb id (Some vaultId)).

Definition forget_vault (vaultId : jstring) (db : MetadataDb) : MetadataDb :=
  let deviceIds := device_ids vaultId db in
  let connectionIds := connection_ids vaultId deviceIds db in
  let other id := negb (id =s? vaultId) in
  mk_MetadataDb
    (mdel_if (λ k, k =s? vaultId) (db_operation_history_by_vault db))
    (db_setup_complete db) (db_users db) (db_sessions db)
    (List.filter (λ vault, other (v_vault_id vault)) (db_vaults db))
    (List.filter (λ device, negb (jmem (d_device_id device) deviceIds)) (db_devices db))
    (List.filter (λ connection, negb (jmem (c_connection_id connection) connectionIds)) (db_connections db))
    (List.filter (λ token, not_vault vaultId (t_vault_id token) && negb (of_devices deviceIds (t_device_id token))) (db_tokens db))
    (db_login_attempts db)
    (List.filter (λ operation, other (op_vault_id operation)) (db_sync_operations db))
    (List.filter (λ conflict, other (cf_vault_id conflict)) (db_conflicts db))
    (List.filter (λ event, other (e_vault_id event)) (db_events db))
    (List.filter (λ audit, not_vault vaultId (au_vault_id audit) && not_of deviceIds (au_actor_device_id audit)) (db_audit_log db))
    (List.filter (λ event, not_vault vaultId (dg_vault_id event) && not_of deviceIds (dg_device_id event)
                           && not_of connectionIds (dg_connection_id event)) (db_diagnostic_events db))
    (mdel_if (λ k, k =s? vaultId) (db_event_seq_by_vault db))
    (mdel_if (λ k, k =s? vaultId) (db_merge_sequence_by_vault db))
    (mdel_if (λ k, k =s? vaultId) (db_directory_state_by_vault db))
    (List.filter (λ result, other (pr_vault_id result)) (db_directory_proposal_results db))
    (mdel_if (λ k, k =s? vaultId) (db_derived_history_by_vault db))
    (List.filter (λ job, negb (is_job vaultId job)) (db_deletion_jobs db))
    (db_deletion_receipts db)
    (List.filter (λ job, other (rj_vault_id job)) (db_device_removal_jobs db)).

Definition finalizeDb (vaultId completedAt : jstring) (db : MetadataDb) : DeletionErrorCode + (DeletionReceipt * MetadataDb) :=
  match find_row (is_job vaultId) (db_deletion_jobs db) with
  | None =>
    match find_row (is_receipt vaultId) (db_deletion_receipts db) with
    | Some existing => inr (existing, db)
    | None => inl MetadataUnavailable
    end
  | Some job =>
    let db := forget_vault vaultId db in
    let receipt := mk_DeletionReceipt vaultId (dj_owner_user_id job) (dj_requested_at job) completedAt in
    inr (receipt, set_db_deletion_receipts
                    (List.filter (λ candidate, negb (is_receipt vaultId candidate)) (db_deletion_receipts db) ++ [receipt]) db)
  end.

(** [expireReceipts]: the receipts that are over, whether some timestamp is
    invalid, and the transaction. *)
Definition expired (now : Z) (receipt : DeletionReceipt) : bool :=
  match receiptExpiryTimestamp (dr_completed_at receipt) with Some expiry => expiry <=? now | None => false end.
Definition invalidReceipts (db : MetadataDb) : bool :=
  existsb (λ receipt, is_null_or (receiptExpiryTimestamp (dr_completed_at receipt))) (db_deletion_receipts db).
Definition expire_tx (now : Z) (db : MetadataDb) : MetadataDb :=
  if existsb (expired now) (db_deletion_receipts db)
  then set_db_deletion_receipts (List.filter (λ receipt, negb (expired now receipt)) (db_deletion_receipts db)) db
  else db.

(** What the clients are told. *)
Record VaultDeletionStatus := mk_status {
  vs_vault_id : jstring;
  vs_deleted : bool;                     (* status: deleting or deleted *)
  vs_requested_at : jstring;
  vs_completed_at : option jstring;
  vs_receipt_expires_at : option jstring;
  vs_retry_at : option jstring;
  vs_error_code : option DeletionErrorCode
}.

Definition publicJob (job : DeletionJob) : VaultDeletionStatus :=
  mk_status (dj_vault_id job) false (dj_requested_at job) None None (dj_retry_at job) (dj_error_code job).
Definition publicReceipt (receipt : DeletionReceipt) : VaultDeletionStatus :=
  let expiry := receiptExpiryTimestamp (dr_completed_at receipt) in
  mk_status (dr_vault_id receipt) true (dr_requested_at receipt) (Some (dr_completed_at receipt)) (to_iso <$> expiry) None
    (match expiry with None => Some MetadataUnavailable | Some _ => None end).

Definition status_leb (left right : VaultDeletionStatus) : bool :=
  match locale_compare (vs_requested_at right) (vs_requested_at left) with
  | Lt => true
  | Gt => false
  | Eq => locale_leb (vs_vault_id left) (vs_vault_id right)
  end.

(** [listDeletions] and [getDeletion], after the receipts have expired and the rows
    are reconciled. *)
Definition listDeletions (ownerUserId : jstring) (db : MetadataDb) : list VaultDeletionStatus :=
  isort status_leb
    (map publicJob (List.filter (λ job, dj_owner_user_id job =s? ownerUserId) (db_deletion_jobs db)) ++
     map publicReceipt (List.filter (λ receipt, dr_owner_user_id receipt =s? ownerUserId) (db_deletion_receipts db))).

Definition getDeletion (ownerUserId vaultId : jstring) (db : MetadataDb) : result VaultDeletionStatus :=
  let refused owner := negb (otruthy (Some owner)) || negb (owner =s? ownerUserId) in
  match find_row (is_job vaultId) (db_deletion_jobs db), find_row (is_receipt vaultId) (db_deletion_receipts db) with
  | Some job, _ => if refused (dj_owner_user_id job) then Throw (AuthError 404 "not_found" "Resource not found." [])
                   else Ok (publicJob job)
  | None, Some receipt => if refused (dr_owner_user_id receipt)
                          then Throw (AuthError 404 "not_found" "Resource not found." []) else Ok (publicReceipt receipt)
  | None, None => Throw (AuthError 404 "not_found" "Resource not found." [])
  end.

(** ** The files of a vault *)

(** Entries of the git store directory and of the temporary directory; [te_owner]
    is the vault id the entry's owner marker names, when it can be read. *)
Record git_entry := mk_git_entry { ge_name : jstring; ge_symlink : bool; ge_directory : bool; ge_bare : bool }.
Record temp_entry := mk_temp_entry { te_name : jstring; te_symlink : bool; te_directory : bool; te_owner : option jstring }.

(** The document and the two directories; the temporary one may be missing. *)
Record system := mk_system { s_db : MetadataDb; s_git : list git_entry; s_temp : option (list temp_entry) }.
Definition set_s_db (db : MetadataDb) (s : system) : system := mk_system db (s_git s) (s_temp s).
Definition set_s_git (g : list git_entry) (s : system) : system := mk_system (s_db s) g (s_temp s).
Definition set_s_temp (t : option (list temp_entry)) (s : system) : system := mk_system (s_db s) (s_git s) t.

(** ** Faults *)

(** A durable transaction that reports failure may or may not have been written. *)
Inductive tx_result := TxDone | TxFailed (applied : bool).

(** A recursive removal that fails may leave the directory, gone or in part: what
    is left of a repository may not have the shape of one, and what is left of a
    temporary directory may not have its owner marker. *)
Inductive removal := Removed | RemovalFailed (code : DeletionErrorCode) (gone intact : bool).

Inductive residue := ResidueErased | ResidueUnattributed | ResidueError.

Record faults := mk_faults {
  f_draining : tx_result;
  f_drainVault : bool;
  f_residue : residue;
  f_open_git : bool;             (* opening and reading the git store directory *)
  f_open_temp : bool;            (* opening and reading the temporary directory, when it exists *)
  f_unchanged : bool;            (* assertDeletionRootUnchanged *)
  f_erasing : tx_result;
  f_remove_git : removal;
  f_sync_git : bool;
  f_remove_temp : jstring → removal;
  f_sync_temp : bool;
  f_cleanup : bool;
  f_finalizing : tx_result;
  f_history : bool;
  f_finalize : tx_result;
  f_retry : tx_result
}.
Definition healthy : faults :=
  mk_faults TxDone true ResidueErased true true true TxDone Removed true (λ _, Removed) true true TxDone true TxDone TxDone.

(** ** One attempt *)

(** Steps that change the system and may fail with a [DeletionFailure]; any other
    error counts as [storage_unavailable]. *)
Definition step (A : Type) : Type := system → (DeletionErrorCode + A) * system.
#[export] Instance step_ret : MRet step := λ A a s, (inr a, s).
#[export] Instance step_bind : MBind step := λ A B k m s,
  match m s with (inr a, s) => k a s | (inl code, s) => (inl code, s) end.
Definition fail {A} (code : DeletionErrorCode) : step A := λ s, (inl code, s).
Definition get {A} (f : system → A) : step A := λ s, (inr (f s), s).
Definition guard (ok : bool) (code : DeletionErrorCode) : step unit := if ok then mret () else fail code.
Variable w : World.

Definition commit (db : MetadataDb) : MetadataDb := prepareOperationHistoryMetadata w 1000 (enforceRevocationInvariant db).1.

(** [mutateDurably]. *)
Definition mutateDurably {A} (o : tx_result) (fn : MetadataDb → DeletionErrorCode + (A * MetadataDb)) : step A :=
  λ s, match fn (s_db s), o with
       | inl code, _ => (inl code, s)
       | inr (a, db), TxDone => (inr a, set_s_db (commit db) s)
       | inr (a, db), TxFailed applied => (inl StorageUnavailable, if applied then set_s_db (commit db) s else s)
       end.
Definition pure_tx (fn : MetadataDb → MetadataDb) (db : MetadataDb) : DeletionErrorCode + (unit * MetadataDb) := inr ((), fn db).

(** The checks on one entry of the git store; [None] refuses the directory. *)
Definition git_suffix : jstring := lit ".git".
Definition repository_name : regex := RSeq VAULT_ID_PATTERN (rlit ".git").

Definition git_entry_ok (known : list jstring) (targetName : jstring) (entered : bool) (entry : git_entry) : bool :=
  if ge_name entry =s? targetName then
    negb (ge_symlink entry) && ge_directory entry && (ge_bare entry || entered)
  else
    rtest repository_name (ge_name entry) && ge_directory entry && negb (ge_symlink entry)
    && jmem (take (length (ge_name entry) - 4) (ge_name entry)) known && ge_bare entry.

Definition inspectTempOwnerMarker (entry : temp_entry) : option jstring :=
  match te_owner entry with Some id => if rtest VAULT_ID_PATTERN id then Some id else None | None => None end.

Definition temp_entry_ok (vaultId : jstring) (entry : temp_entry) : bool :=
  negb (te_symlink entry) && te_directory entry && negb (starts_with (lit "merge-index-") (te_name entry))
  && existsb (λ prefix, starts_with prefix (te_name entry)) (lits ["quarantine-"; "merge-"; "semantic-merge-"])
  && oeqb (inspectTempOwnerMarker entry) (Some vaultId).

(** [removeDeletionRootDirectoryChild]. *)
Definition remove_git (o : removal) (name : jstring) : step unit := λ s,
  let named entry := ge_name entry =s? name in
  match o with
  | Removed => (inr (), set_s_git (List.filter (λ entry, negb (named entry)) (s_git s)) s)
  | RemovalFailed code true _ => (inl code, set_s_git (List.filter (λ entry, negb (named entry)) (s_git s)) s)
  | RemovalFailed code false intact =>
    (inl code, set_s_git (update_where named
      (λ entry, mk_git_entry (ge_name entry) (ge_symlink entry) (ge_directory entry) (ge_bare entry && intact)) (s_git s)) s)
  end.
Definition remove_temp (o : removal) (name : jstring) : step unit := λ s,
  let named entry := te_name entry =s? name in
  match o with
  | Removed => (inr (), set_s_temp (List.filter (λ entry, negb (named entry)) <$> s_temp s) s)
  | RemovalFailed code true _ => (inl code, set_s_temp (List.filter (λ entry, negb (named entry)) <$> s_temp s) s)
  | RemovalFailed code false intact =>
    (inl code, set_s_temp (update_where named
      (λ entry, mk_temp_entry (te_name entry) (te_symlink entry) (te_directory entry) (if intact then te_owner entry else None))
      <$> s_temp s) s)
  end.

Fixpoint remove_temps (f : faults) (names : list jstring) : step unit :=
  match names with
  | [] => mret ()
  | name :: names => remove_temp (f_remove_temp f name) name ;; remove_temps f names
  end.

Definition known_vaults (db : MetadataDb) : list jstring :=
  map v_vault_id (db_vaults db) ++ map dj_vault_id (db_deletion_jobs db) ++ map dr_vault_id (db_deletion_receipts db).

Definition job_phase (vaultId : jstring) (db : MetadataDb) : option DeletionPhase :=
  dj_phase <$> find_row (is_job vaultId) (db_deletion_jobs db).
Definition entered_erasure (phase : option DeletionPhase) : bool :=
  match phase with Some PhErasing | Some PhFinalizing => true | _ => false end.

Definition eraseGitAndTemp (f : faults) (vaultId : jstring) : step unit :=
  let targetName := vaultId ++ git_suffix in
  guard (rtest VAULT_ID_PATTERN vaultId) StorageUnavailable ;;
  guard (f_open_git f) StorageUnavailable ;;
  gitEntries ← get s_git;
  metadata ← get s_db;
  let entered := entered_erasure (job_phase vaultId metadata) in
  guard (forallb (git_entry_ok (known_vaults metadata) targetName entered) gitEntries) UnattributedResidue ;;
  let targetGitPresent := existsb (λ entry, ge_name entry =s? targetName) gitEntries in
  guard (targetGitPresent || entered) StorageUnavailable ;;
  temp ← get s_temp;
  guard (match temp with Some _ => f_open_temp f | None => true end) StorageUnavailable ;;
  guard (forallb (temp_entry_ok vaultId) (default [] temp)) UnattributedResidue ;;
  guard (f_unchanged f) StorageUnavailable ;;
  (if entered then mret () else mutateDurably (f_erasing f) (pure_tx (setPhase vaultId PhErasing None))) ;;
  (if targetGitPresent then remove_git (f_remove_git f) targetName ;; guard (f_sync_git f) StorageUnavailable else mret ()) ;;
  remove_temps f (map te_name (default [] temp)) ;;
  guard (match default [] temp with [] => true | _ => f_sync_temp f end) StorageUnavailable.

(** The body of the worker's [try], for a job that exists. No request is admitted
    while the job exists, so the drain of the barrier is not a step here, and only
    the worker drops its job, so the code finds it again after the drain. *)
Definition attempt (f : faults) (vaultId : jstring) (phase : DeletionPhase) : step unit :=
  (if bool_decide (phase = PhIntent) then mutateDurably (f_draining f) (pure_tx (setPhase vaultId PhDraining None)) else mret ()) ;;
  guard (f_drainVault f) StorageUnavailable ;;
  (match f_residue f with
   | ResidueErased => mret ()
   | ResidueUnattributed => fail UnattributedResidue
   | ResidueError => fail StorageUnavailable
   end) ;;
  eraseGitAndTemp f vaultId ;;
  guard (f_cleanup f) StorageUnavailable ;;
  mutateDurably (f_finalizing f) (pure_tx (setPhase vaultId PhFinalizing None)) ;;
  guard (f_history f) StorageUnavailable ;;
  _ ← mutateDurably (f_finalize f) (finalizeDb vaultId (nowIso w 0));
  mret ().

(** One turn of the worker's loop: done, or another turn after a delay. *)
Definition turn (f : faults) (vaultId : jstring) (s : system) : bool * system :=
  match find_row (is_job vaultId) (db_deletion_jobs (s_db s)) with
  | None =>
    match find_row (λ vault, has_vault_id vaultId vault && bool_decide (v_status vault = VDeleting)) (db_vaults (s_db s)) with
    | Some vault => (false, snd (mutateDurably (f_draining f) (pure_tx (reconcile_tx vaultId (v_updated_at vault))) s))
    | None => (true, s)
    end
  | Some job =>
    match attempt f vaultId (dj_phase job) s with
    | (inr _, s) => (true, s)
    | (inl code, s) =>
      (false, snd (mutateDurably (f_retry f) (pure_tx (recordRetry vaultId code (to_iso (w_now w 1 + RETRY_DELAY_MS)))) s))
    end
  end.

(** [runWorker], with the faults of its turns; [false] when it has not ended. *)
Fixpoint runWorker (fs : list faults) (vaultId : jstring) (s : system) : bool * system :=
  match fs with
  | [] => (false, s)
  | f :: fs => match turn f vaultId s with (true, s) => (true, s) | (false, s) => runWorker fs vaultId s end
  end.

End lifecycle.

(** ** What is left of a vault *)

Section erasure.
Context `{D : Dates} `{U : Unicode} (w : World) (v : jstring).

(** A row, counter or index of the vault. *)
Definition mentions (db : MetadataDb) : bool :=
  existsb (has_vault_id v) (db_vaults db) || existsb (λ device, d_vault_id device =s? v) (db_devices db)
  || existsb (λ token, oeqb (t_vault_id token) (Some v)) (db_tokens db)
  || existsb (λ connection, oeqb (c_selected_vault_id connection) (Some v)) (db_connections db)
  || existsb (λ operation, op_vault_id operation =s? v) (db_sync_operations db)
  || existsb (λ conflict, cf_vault_id conflict =s? v) (db_conflicts db)
  || existsb (λ event, e_vault_id event =s? v) (db_events db)
  || existsb (λ audit, oeqb (au_vault_id audit) (Some v)) (db_audit_log db)
  || existsb (λ event, oeqb (dg_vault_id event) (Some v)) (db_diagnostic_events db)
  || existsb (λ result, pr_vault_id result =s? v) (db_directory_proposal_results db)
  || existsb (is_job v) (db_deletion_jobs db) || existsb (λ job, rj_vault_id job =s? v) (db_device_removal_jobs db)
  || existsb (jeqb v) (mkeys (db_operation_history_by_vault db)) || existsb (jeqb v) (mkeys (db_event_seq_by_vault db))
  || existsb (jeqb v) (mkeys (db_merge_sequence_by_vault db)) || existsb (jeqb v) (mkeys (db_directory_state_by_vault db))
  || existsb (jeqb v) (mkeys (db_derived_history_by_vault db)).

Lemma existsb_filter_none {A} (p q : A → bool) l : (∀ x, x ∈ l → p x = true → q x = false) → existsb p (List.filter q l) = false.
Proof.
  intros H. apply not_true_iff_false. intros (x & [Hl Hq]%filter_In & Hp)%existsb_exists.
  rewrite <- list_elem_of_In in Hl. by rewrite (H x Hl Hp) in Hq.
Qed.

Lemma existsb_mdel {A} (m : jmap A) : existsb (jeqb v) (mkeys (mdel_if (λ k, k =s? v) m)) = false.
Proof.
  unfold mkeys, mdel_if. apply not_true_iff_false. intros (k & Hk & E)%existsb_exists.
  apply in_map_iff in Hk as ([k' x] & <- & [_ Hk]%filter_In). cbn in *. by rewrite jeqb_sym, E in Hk.
Qed.

Lemma map_filter_elem {A} (key : A → jstring) (f : A → bool) l x : x ∈ l → f x = true → key x ∈ map key (List.filter f l).
Proof. intros Hl Hf. apply (list_elem_of_fmap_2 key), filter_elem. by split. Qed.

Lemma forget_vault_forgets db : mentions (forget_vault v db) = false.
Proof.
  unfold mentions, forget_vault. cbn. rewrite !orb_false_iff.
  split_and!; try apply existsb_mdel; apply existsb_filter_none; intros x Hl Hx; unfold has_vault_id, is_job, not_vault in *;
    try (rewrite Hx; done).
  - apply negb_false_iff, jmem_elem. unfold device_ids. by apply map_filter_elem.
  - apply negb_false_iff, jmem_elem. unfold connection_ids. apply map_filter_elem; [done|]. by rewrite Hx.
Qed.

(** What a commit adds: ledger descriptors of the vaults in the document. *)
Lemma prepare_keys i db : mkeys (db_operation_history_by_vault (prepareOperationHistoryMetadata w i db)) ⊆
  mkeys (db_operation_history_by_vault db) ++ map v_vault_id (db_vaults db).
Proof.
  unfold prepareOperationHistoryMetadata.
  assert (∀ l cur, (∀ jv, jv ∈ l → v_vault_id jv.2 ∈ map v_vault_id (db_vaults db)) →
    mkeys (db_operation_history_by_vault cur) ⊆ mkeys (db_operation_history_by_vault db) ++ map v_vault_id (db_vaults db) →
    mkeys (db_operation_history_by_vault (fold_left (λ db '(j, vault),
      match mget (db_operation_history_by_vault db) (v_vault_id vault) with
      | Some _ => db
      | None => set_db_operation_history_by_vault
                  (mset (db_operation_history_by_vault db) (v_vault_id vault) (new_history w (i + j) db (v_vault_id vault))) db
      end) l cur)) ⊆ mkeys (db_operation_history_by_vault db) ++ map v_vault_id (db_vaults db)) as H.
  { induction l as [|[j vault] l IH]; intros cur Hl Hcur; [done|]. cbn [fold_left]. apply IH; [intros jv Hj; apply Hl; by right|].
    destruct (mget _ _); [done|]. cbn. intros k [->|Hk]%mkeys_mset; [|by apply Hcur].
    apply elem_of_app. right. apply (Hl (j, vault)). by left. }
  apply H; [|by intros k Hk; apply elem_of_app; left].
  intros [j vault] Hjv. apply list_elem_of_In, in_combine_r in Hjv. apply (list_elem_of_fmap_2 v_vault_id).
  by apply list_elem_of_In.
Qed.

Lemma commit_fields db : ∃ h, commit w db = set_db_operation_history_by_vault h
    (set_db_devices (update_where needs_repair (set_d_status DRevoked) (db_devices db)) db)
  ∧ mkeys h ⊆ mkeys (db_operation_history_by_vault db) ++ map v_vault_id (db_vaults db).
Proof.
  unfold commit. destruct (prepareOperationHistoryMetadata_frame w 1000 (enforceRevocationInvariant db).1) as [h Hh].
  exists h. split; [by rewrite Hh|]. pose proof (prepare_keys 1000 (enforceRevocationInvariant db).1) as H.
  rewrite Hh in H. exact H.
Qed.

Lemma commit_mentions db : mentions db = false → mentions (commit w db) = false.
Proof.
  intros Hm. destruct (commit_fields db) as (h & -> & Hh). unfold mentions in *. cbn. rewrite !orb_false_iff in Hm |- *.
  destruct Hm as [[[[[[[[[[[[[[[[M1 M2] M3] M4] M5] M6] M7] M8] M9] M10] M11] M12] M13] M14] M15] M16] M17].
  split_and!; try done.
  - rewrite <- M2. unfold update_where. clear. induction (db_devices db) as [|d l IH]; cbn; [done|].
    rewrite IH. by destruct (needs_repair d).
  - apply not_true_iff_false. intros (k & Hk & E)%existsb_exists. apply jeqb_eq in E as <-.
    rewrite <- list_elem_of_In in Hk. apply Hh in Hk. apply elem_of_app in Hk as [Hk|Hk].
    + apply not_true_iff_false in M13. apply M13, existsb_exists. exists v. rewrite <- list_elem_of_In. split; [done|apply jeqb_refl].
    + apply not_true_iff_false in M1. apply M1, existsb_exists. apply list_elem_of_fmap in Hk as (vault & Hv & Hin).
      exists vault. rewrite <- list_elem_of_In. split; [done|]. unfold has_vault_id. rewrite Hv. apply jeqb_refl.
Qed.

(** ** What every attempt keeps *)

Definition wp {A} (m : step A) (Q : system → Prop) (R : A → system → Prop) (s : system) : Prop :=
  match m s with (inr a, s) => R a s | (inl _, s) => Q s end.

Lemma wp_bind {A B} (m : step A) (k : A → step B) Q R s : wp m Q (λ a, wp (k a) Q R) s → wp (m ≫= k) Q R s.
Proof. unfold wp, mbind, step_bind. by destruct (m s) as [[code|a] s']. Qed.

Lemma wp_mono {A} (m : step A) Q (R R' : A → system → Prop) s : wp m Q R s → (∀ a s', R a s' → R' a s') → wp m Q R' s.
Proof. unfold wp. destruct (m s) as [[code|a] s']; auto. Qed.

Lemma wp_guard ok code Q (R : unit → system → Prop) s : (ok = false → Q s) → (ok = true → R () s) → wp (guard ok code) Q R s.
Proof. unfold wp, guard. destruct ok; cbn; auto. Qed.

Lemma wp_ret {A} (a : A) Q (R : A → system → Prop) s : R a s → wp (mret a) Q R s.
Proof. done. Qed.

Lemma wp_get {A} (f : system → A) Q (R : A → system → Prop) s : R (f s) s → wp (get f) Q R s.
Proof. done. Qed.

Lemma wp_tx o fn Q (R : unit → system → Prop) s :
  (o ≠ TxDone → Q s ∧ Q (set_s_db (commit w (fn (s_db s))) s)) → R () (set_s_db (commit w (fn (s_db s))) s) →
  wp (mutateDurably w o (pure_tx fn)) Q R s.
Proof. unfold wp, mutateDurably, pure_tx. destruct o as [|[]]; cbn; intros HQ HR; [done| |]; by apply HQ. Qed.

Definition target : jstring := v ++ git_suffix.
Definition is_target (entry : git_entry) : bool := ge_name entry =s? target.
Definition present (s : system) : bool := existsb is_target (s_git s).
Definition phase_of (s : system) : option DeletionPhase := job_phase v (s_db s).
Definition entered (s : system) : bool := entered_erasure (phase_of s).

(** What the document says of everything else: the accounts, and of the tables with a vault in
    every row or key, those of other vaults. *)
Record rest := mk_rest {
  rs_setup : bool; rs_users : list UserRow; rs_sessions : list SessionRow; rs_logins : list LoginAttemptRow;
  rs_vaults : list VaultRow; rs_operations : list SyncOperationRow; rs_conflicts : list ConflictRecord; rs_events : list EventEnvelope;
  rs_results : list DirectoryProposalResultRow; rs_jobs : list DeletionJob; rs_receipts : list DeletionReceipt;
  rs_removals : list DeviceRemovalJob; rs_event_seqs : jmap Z; rs_merge_seqs : jmap Z;
  rs_directories : jmap DirectoryStateRow; rs_derived : jmap (list DerivedHistoryIndexRow)
}.
Definition others_of {A} (id : A → jstring) (rows : list A) : list A := List.filter (λ row, negb (id row =s? v)) rows.
Definition rest_of (db : MetadataDb) : rest :=
  mk_rest (db_setup_complete db) (db_users db) (db_sessions db) (db_login_attempts db)
    (others_of v_vault_id (db_vaults db)) (others_of op_vault_id (db_sync_operations db)) (others_of cf_vault_id (db_conflicts db))
    (others_of e_vault_id (db_events db)) (others_of pr_vault_id (db_directory_proposal_results db))
    (others_of dj_vault_id (db_deletion_jobs db)) (others_of dr_vault_id (db_deletion_receipts db))
    (others_of rj_vault_id (db_device_removal_jobs db)) (mdel_if (λ k, k =s? v) (db_event_seq_by_vault db))
    (mdel_if (λ k, k =s? v) (db_merge_sequence_by_vault db)) (mdel_if (λ k, k =s? v) (db_directory_state_by_vault db))
    (mdel_if (λ k, k =s? v) (db_derived_history_by_vault db)).

Lemma others_update_job f l : (∀ job, dj_vault_id (f job) = dj_vault_id job) → others_of dj_vault_id (update_first (is_job v) f l) = others_of dj_vault_id l.
Proof.
  intros Hf. unfold others_of. induction l as [|job l IH]; cbn; [done|].
  destruct (is_job v job) eqn:E; cbn; [rewrite Hf; unfold is_job in E; by rewrite E|by rewrite IH].
Qed.

Lemma setPhase_rest phase code db : rest_of (setPhase v phase code db) = rest_of db.
Proof. unfold rest_of. f_equal. by apply others_update_job. Qed.

Lemma recordRetry_rest code at_ db : rest_of (recordRetry v code at_ db) = rest_of db.
Proof. unfold rest_of. f_equal. by apply others_update_job. Qed.

(** A vault whose deletion is under way and whose files can be attributed; [others]
    are the entries of the git store that are not the vault's repository, and the
    rest of the document. *)
Definition surroundings : Type := list git_entry * rest.
Record erasable (others : surroundings) (s : system) : Prop := {
  e_id : rtest VAULT_ID_PATTERN v = true;
  e_job : is_Some (phase_of s);
  e_git : forallb (git_entry_ok (known_vaults (s_db s)) target (entered s)) (s_git s) = true;
  e_present : present s || entered s = true;
  e_temp : forallb (temp_entry_ok v) (default [] (s_temp s)) = true;
  e_others : List.filter (λ entry, negb (is_target entry)) (s_git s) = others.1;
  e_rest : rest_of (s_db s) = others.2
}.

(** Nothing of it is left but a receipt. *)
Record erased (others : surroundings) (s : system) : Prop := {
  x_mentions : mentions (s_db s) = false;
  x_receipt : ∃ receipt, receipt ∈ db_deletion_receipts (s_db s) ∧ dr_vault_id receipt = v;
  x_git : s_git s = others.1;
  x_rest : rest_of (s_db s) = others.2;
  x_gone : present s = false;
  x_temp : default [] (s_temp s) = []
}.

Lemma commit_rest db : rest_of (commit w db) = rest_of db.
Proof. by destruct (commit_fields db) as (h & -> & _). Qed.

Lemma commit_known db : known_vaults (commit w db) = known_vaults db ∧ job_phase v (commit w db) = job_phase v db.
Proof. destruct (commit_fields db) as (h & -> & _). done. Qed.

Lemma commit_receipts db : db_deletion_receipts (commit w db) = db_deletion_receipts db.
Proof. by destruct (commit_fields db) as (h & -> & _). Qed.

Lemma setPhase_phase phase code db : is_Some (job_phase v db) → job_phase v (setPhase v phase code db) = Some phase.
Proof.
  unfold job_phase, setPhase. intros [ph Hph]. cbn. destruct (find_row (is_job v) (db_deletion_jobs db)) as [job|] eqn:E; [|done].
  by rewrite (find_row_update_first_self (is_job v) _ _ job).
Qed.

Lemma update_first_none {A} (f : A → bool) g l : find_row f l = None → update_first f g l = l.
Proof.
  unfold find_row. induction l as [|x l IH]; cbn; [done|]. destruct (f x); [done|]. intros H. by rewrite IH.
Qed.

Lemma map_update_first {A} (key : A → jstring) (f : A → bool) g l : (∀ x, key (g x) = key x) →
  map key (update_first f g l) = map key l.
Proof. intros H. induction l as [|x l IH]; cbn; [done|]. destruct (f x); cbn; by rewrite ?H, ?IH. Qed.

Lemma update_known f g db : (∀ job, dj_vault_id (g job) = dj_vault_id job) →
  known_vaults (set_db_deletion_jobs (update_first f g (db_deletion_jobs db)) db) = known_vaults db.
Proof. intros H. unfold known_vaults. cbn. by rewrite map_update_first. Qed.

Lemma git_entry_ok_more known b b' entry : (b = true → b' = true) → git_entry_ok known target b entry = true → git_entry_ok known target b' entry = true.
Proof.
  intros Hb. unfold git_entry_ok. destruct (ge_name entry =s? target); [|done].
  rewrite !andb_true_iff, !orb_true_iff. tauto.
Qed.

(** Deletion metadata may advance as long as the vault stays known and the
    erasure is not forgotten. *)
Lemma erasable_db others s db : erasable others s → known_vaults db = known_vaults (s_db s) → rest_of db = rest_of (s_db s) →
  is_Some (job_phase v db) → (entered s = true → entered_erasure (job_phase v db) = true) → erasable others (set_s_db db s).
Proof.
  intros [H1 H2 H3 H4 H5 H6 H7] Hk Hr Hj He. split; try done; [| |by cbn; rewrite Hr].
  - rewrite forallb_forall in H3 |- *. intros entry Hin. cbn. rewrite Hk. eapply git_entry_ok_more; [exact He|by apply H3].
  - unfold present in *. cbn. apply orb_true_iff in H4 as [H4|H4]; [by rewrite H4|]. unfold entered, phase_of. cbn.
    rewrite (He H4). apply orb_true_r.
Qed.

Lemma erasable_phase others s phase : erasable others s → (entered s = true → entered_erasure (Some phase) = true) →
  let s' := set_s_db (commit w (setPhase v phase None (s_db s))) s in erasable others s' ∧ phase_of s' = Some phase.
Proof.
  intros Hs He s'. pose proof (e_job _ _ Hs) as Hj. pose proof (setPhase_phase phase None _ Hj) as Hp.
  destruct (commit_known (setPhase v phase None (s_db s))) as [Hk1 Hp1]. rewrite Hp in Hp1.
  split; [|done]. apply (erasable_db _ s); [done| |by rewrite commit_rest, ?setPhase_rest, ?recordRetry_rest| |].
  - rewrite Hk1. by apply update_known.
  - by rewrite Hp1.
  - by rewrite Hp1.
Qed.

Lemma erasable_retry others s code at_ : erasable others s →
  erasable others (set_s_db (commit w (recordRetry v code at_ (s_db s))) s).
Proof.
  intros Hs. destruct (commit_known (recordRetry v code at_ (s_db s))) as [Hk Hp].
  assert (job_phase v (recordRetry v code at_ (s_db s)) = phase_of s) as Hsame.
  { unfold phase_of, job_phase, recordRetry. cbn.
    destruct (find_row (is_job v) (db_deletion_jobs (s_db s))) as [job|] eqn:E.
    - by rewrite (find_row_update_first_self (is_job v) _ _ job).
    - destruct (e_job _ _ Hs) as [ph Hph]. unfold phase_of, job_phase in Hph. by rewrite E in Hph. }
  apply (erasable_db _ s); [done| |by rewrite commit_rest, ?setPhase_rest, ?recordRetry_rest| |].
  - rewrite Hk. by apply update_known.
  - rewrite Hp, Hsame. by apply e_job in Hs.
  - by rewrite Hp, Hsame.
Qed.

Lemma erasable_git others s g : erasable others s → entered s = true →
  forallb (git_entry_ok (known_vaults (s_db s)) target true) g = true →
  List.filter (λ entry, negb (is_target entry)) g = others.1 → erasable others (set_s_git g s).
Proof.
  intros [H1 H2 H3 H4 H5 H6 H7] He Hg Ho. split; try done.
  - unfold entered, phase_of in *. cbn. by rewrite He.
  - unfold entered, phase_of in *. cbn. rewrite He. apply orb_true_r.
Qed.

Lemma erasable_temp others s t : erasable others s → forallb (temp_entry_ok v) (default [] t) = true →
  erasable others (set_s_temp t s).
Proof. intros [H1 H2 H3 H4 H5 H6 H7] Ht. by split. Qed.

Lemma forallb_filter {A} (p q : A → bool) l : forallb p l = true → forallb p (List.filter q l) = true.
Proof. rewrite !forallb_forall. intros H x [Hx _]%filter_In. by apply H. Qed.

Lemma filter_twice {A} (q : A → bool) l : List.filter q (List.filter q l) = List.filter q l.
Proof. induction l as [|x l IH]; cbn; [done|]. destruct (q x) eqn:E; cbn; [by rewrite E, IH|done]. Qed.

Lemma remove_git_wp o others s (Q : system → Prop) (R : unit → system → Prop) : erasable others s → entered s = true →
  (∀ s', o ≠ Removed → erasable others s' → Q s') →
  (∀ s', erasable others s' → entered s' = true → present s' = false → s_temp s' = s_temp s → R () s') →
  wp (remove_git o target) Q R s.
Proof.
  intros Hs He HQ HR. pose proof (e_git _ _ Hs) as Hg. rewrite He in Hg. pose proof (e_others _ _ Hs) as Ho.
  assert (erasable others (set_s_git (List.filter (λ entry, negb (is_target entry)) (s_git s)) s)) as Hgone.
  { apply erasable_git; [done|done|by apply forallb_filter|]. by rewrite filter_twice. }
  unfold wp, remove_git. destruct o as [|code [] intact].
  - apply HR; [exact Hgone|done| |done]. unfold present. cbn. apply existsb_filter_none. intros x _ Hx. by apply negb_false_iff.
  - apply HQ; [done|exact Hgone].
  - apply HQ; [done|]. apply erasable_git; try done.
    + rewrite forallb_forall in Hg |- *. intros x (y & Hy & ->)%list_elem_of_In%update_where_elem.
      rewrite list_elem_of_In in Hy. specialize (Hg y Hy). destruct (ge_name y =s? target) eqn:E; [|done].
      unfold git_entry_ok in *. cbn. rewrite E in *. rewrite orb_true_r in *. exact Hg.
    + rewrite <- Ho. unfold update_where. clear. induction (s_git s) as [|x l IH]; cbn; [done|]. unfold is_target in *.
      destruct (ge_name x =s? target) eqn:E; cbn; rewrite E; cbn; by rewrite IH.
Qed.

Definition keeps_markers (f : faults) : Prop := ∀ name code, f_remove_temp f name ≠ RemovalFailed code false false.

Lemma remove_temp_wp o name others s (Q : system → Prop) (R : unit → system → Prop) :
  (∀ code, o ≠ RemovalFailed code false false) → erasable others s →
  (∀ s', o ≠ Removed → erasable others s' → Q s') →
  (∀ s', erasable others s' → entered s' = entered s → present s' = present s →
    default [] (s_temp s') = List.filter (λ entry, negb (te_name entry =s? name)) (default [] (s_temp s)) → R () s') →
  wp (remove_temp o name) Q R s.
Proof.
  intros Hm Hs HQ HR. pose proof (e_temp _ _ Hs) as Ht.
  assert (erasable others (set_s_temp (List.filter (λ entry, negb (te_name entry =s? name)) <$> s_temp s) s)) as Hgone.
  { apply erasable_temp; [done|]. destruct (s_temp s); [|done]. cbn in *. by apply forallb_filter. }
  unfold wp, remove_temp. destruct o as [|code [] intact].
  - apply HR; [exact Hgone|done|done|]. cbn. by destruct (s_temp s).
  - apply HQ; [done|exact Hgone].
  - destruct intact; [|by destruct (Hm code)]. apply HQ; [done|]. apply erasable_temp; [done|].
    destruct (s_temp s) as [l|]; [|done]. cbn in *. rewrite forallb_forall in Ht |- *.
    intros x (y & Hy & ->)%list_elem_of_In%update_where_elem. rewrite list_elem_of_In in Hy. specialize (Ht y Hy).
    destruct (te_name y =s? name); [|done]. by destruct y.
Qed.

Lemma remove_temps_wp f names others : ∀ s (Q : system → Prop) (R : unit → system → Prop),
  keeps_markers f → erasable others s →
  (∀ s', f ≠ healthy → erasable others s' → Q s') →
  (∀ s', erasable others s' → entered s' = entered s → present s' = present s →
    (∀ entry, entry ∈ default [] (s_temp s') → entry ∈ default [] (s_temp s) ∧ te_name entry ∉ names) → R () s') →
  wp (remove_temps f names) Q R s.
Proof.
  induction names as [|name names IH]; intros s Q R Hf Hs HQ HR; cbn [remove_temps].
  - apply wp_ret, HR; try done. intros entry Hin. split; [done|apply not_elem_of_nil].
  - apply wp_bind, (remove_temp_wp _ _ others); [by intros code; apply Hf|done| |].
    + intros s' Ho Hs'. apply HQ; [|done]. intros ->. by apply Ho.
    + intros s1 H1 He1 Hp1 Ht1. apply IH; [done|done|done|]. intros s2 H2 He2 Hp2 Ht2.
      apply HR; [done|by rewrite He2|by rewrite Hp2|]. intros entry Hin. destruct (Ht2 entry Hin) as [Hin1 Hn].
      rewrite Ht1 in Hin1. apply filter_elem in Hin1 as [Hin1 Hne]. split; [done|].
      apply not_elem_of_cons. split; [|done]. apply negb_true_iff in Hne. by apply jeqb_neq.
Qed.

Lemma eraseGitAndTemp_wp f others s (Q : system → Prop) (R : unit → system → Prop) :
  keeps_markers f → erasable others s →
  (∀ s', f ≠ healthy → erasable others s' → Q s') →
  (∀ s', erasable others s' → entered s' = true → present s' = false → default [] (s_temp s') = [] → R () s') →
  wp (eraseGitAndTemp w f v) Q R s.
Proof.
  intros Hf Hs HQ HR. unfold eraseGitAndTemp. fold target.
  apply wp_bind, wp_guard; [rewrite (e_id _ _ Hs); done|intros _].
  apply wp_bind, wp_guard; [intros E; apply HQ; [intros ->; discriminate E|done]|intros _].
  apply wp_bind, wp_get. apply wp_bind, wp_get. fold (phase_of s) (entered s) (present s).
  apply wp_bind, wp_guard; [rewrite (e_git _ _ Hs); done|intros _].
  change (existsb (λ entry, ge_name entry =s? target) (s_git s)) with (present s).
  apply wp_bind, wp_guard; [rewrite (e_present _ _ Hs); done|intros _].
  apply wp_bind, wp_get.
  apply wp_bind, wp_guard; [intros E; apply HQ; [intros ->; by destruct (s_temp s)|done]|intros _].
  apply wp_bind, wp_guard; [rewrite (e_temp _ _ Hs); done|intros _].
  apply wp_bind, wp_guard; [intros E; apply HQ; [intros ->; discriminate E|done]|intros _].
  apply wp_bind.
  assert (∀ s1, erasable others s1 → entered s1 = true → s_git s1 = s_git s → s_temp s1 = s_temp s →
    wp ((if present s then remove_git (f_remove_git f) target;; guard (f_sync_git f) StorageUnavailable else mret ());;
        remove_temps f (map te_name (default [] (s_temp s)));;
        guard (match default [] (s_temp s) with [] => true | _ :: _ => f_sync_temp f end) StorageUnavailable) Q R s1) as Hrest.
  { intros s1 H1 He1 Hg1 Ht1. apply wp_bind.
    assert (∀ s2, erasable others s2 → entered s2 = true → present s2 = false → s_temp s2 = s_temp s →
      wp (remove_temps f (map te_name (default [] (s_temp s)));;
        guard (match default [] (s_temp s) with [] => true | _ :: _ => f_sync_temp f end) StorageUnavailable) Q R s2) as Htemps.
    { intros s2 H2 He2 Hp2 Ht2. apply wp_bind, (remove_temps_wp _ _ others); [done|done|done|].
      intros s3 H3 He3 Hp3 Ht3. rewrite Ht2 in Ht3.
      apply wp_guard; [intros E; apply HQ; [intros ->; by destruct (default [] (s_temp s))|done]|intros _].
      apply HR; [done|by rewrite He3|by rewrite Hp3|].
      destruct (default [] (s_temp s3)) as [|e l]; [done|]. destruct (Ht3 e) as [Hin Hn]; [by left|].
      destruct Hn. by apply list_elem_of_fmap_2. }
    destruct (present s) eqn:Ep.
    - apply wp_bind, (remove_git_wp _ others); [done|done| |].
      { intros s' Ho Hs'. apply HQ; [intros ->; by apply Ho|done]. }
      intros s2 H2 He2 Hp2 Ht2. apply wp_guard; [intros E; apply HQ; [intros ->; discriminate E|done]|intros _].
      apply Htemps; [done|done|done|]. by rewrite Ht2.
    - apply wp_ret, Htemps; [done|done| |done]. unfold present in *. by rewrite Hg1. }
  destruct (entered s) eqn:He; [by apply wp_ret, Hrest|].
  destruct (erasable_phase others s PhErasing Hs) as [H1 H2]; [done|].
  apply wp_tx.
  - intros Ho. split; apply HQ; try done; intros ->; by apply Ho.
  - apply Hrest; [done| |done|done]. unfold entered. by rewrite H2.
Qed.

(** ** The worker *)

Lemma finalizeDb_erases others s at_ receipt db : erasable others s → present s = false → default [] (s_temp s) = [] →
  finalizeDb v at_ (s_db s) = inr (receipt, db) → erased others (set_s_db (commit w db) s).
Proof.
  intros Hs Hp Ht Hf. unfold finalizeDb in Hf. destruct (e_job _ _ Hs) as [ph Hph]. unfold phase_of, job_phase in Hph.
  destruct (find_row (is_job v) (db_deletion_jobs (s_db s))) as [job|] eqn:E; [|done]. injection Hf as <- <-.
  set (r := mk_DeletionReceipt _ _ _ _). split; try done.
  - apply commit_mentions. pose proof (forget_vault_forgets (s_db s)) as H. exact H.
  - exists r. split; [|done]. cbn [s_db set_s_db]. rewrite commit_receipts. apply elem_of_app. right. by left.
  - cbn. rewrite <- (e_others _ _ Hs). symmetry. apply filter_all. intros x Hx. apply negb_true_iff.
    apply not_true_iff_false. intros Hx'. unfold present in Hp. apply not_true_iff_false in Hp. apply Hp, existsb_exists.
    exists x. by rewrite <- list_elem_of_In.
  - cbn [s_db set_s_db]. rewrite commit_rest, <- (e_rest _ _ Hs). unfold rest_of, forget_vault, others_of, mdel_if, is_job, is_receipt. cbn.
    rewrite List.filter_app. cbn. rewrite jeqb_refl. cbn. by rewrite !filter_twice, app_nil_r.
Qed.

Definition either (others : surroundings) (s : system) : Prop := erasable others s ∨ erased others s.

Lemma attempt_wp f others s phase : keeps_markers f → erasable others s → phase_of s = Some phase →
  wp (attempt w f v phase) (λ s', f ≠ healthy ∧ either others s') (λ _ s', erased others s') s.
Proof.
  intros Hf Hs Hphase. unfold attempt. apply wp_bind.
  assert (∀ s1, erasable others s1 →
    wp (guard (f_drainVault f) StorageUnavailable;;
        match f_residue f with
        | ResidueErased => mret ()
        | ResidueUnattributed => fail UnattributedResidue
        | ResidueError => fail StorageUnavailable
        end;;
        eraseGitAndTemp w f v;;
        guard (f_cleanup f) StorageUnavailable;;
        mutateDurably w (f_finalizing f) (pure_tx (setPhase v PhFinalizing None));;
        guard (f_history f) StorageUnavailable;;
        (mutateDurably w (f_finalize f) (finalizeDb v (nowIso w 0)) ≫= λ _, mret ()))
      (λ s', f ≠ healthy ∧ either others s') (λ _ s', erased others s') s1) as Hrest.
  { intros s1 H1. apply wp_bind, wp_guard; [intros E; split; [intros ->; discriminate E|by left]|intros _].
    apply wp_bind. destruct (f_residue f) eqn:Er;
      [|by (split; [intros ->; discriminate Er|left])|by (split; [intros ->; discriminate Er|left])].
    apply wp_ret, wp_bind, (eraseGitAndTemp_wp f others); [done|done|intros; split; [done|by left]|].
    intros s2 H2 He2 Hp2 Ht2.
    apply wp_bind, wp_guard; [intros E; split; [intros ->; discriminate E|by left]|intros _].
    destruct (erasable_phase others s2 PhFinalizing H2) as [H3 H3p]; [done|].
    apply wp_bind, wp_tx; [intros Ho; split; (split; [intros ->; by apply Ho|by left])|].
    set (s3 := set_s_db _ s2) in *.
    apply wp_bind, wp_guard; [intros E; split; [intros ->; discriminate E|by left]|intros _].
    apply wp_bind. unfold wp, mutateDurably.
    destruct (finalizeDb v (nowIso w 0) (s_db s3)) as [code|[receipt db]] eqn:Ef.
    - exfalso. unfold finalizeDb in Ef. unfold phase_of, job_phase in H3p.
      by destruct (find_row (is_job v) (db_deletion_jobs (s_db s3))).
    - pose proof (finalizeDb_erases others s3 _ _ _ H3 Hp2 Ht2 Ef) as Hx.
      destruct (f_finalize f) as [|[]] eqn:Eo; [exact Hx| |];
        (split; [intros ->; discriminate Eo|]); [by right|by left]. }
  destruct (bool_decide (phase = PhIntent)) eqn:Ep; [|by apply wp_ret, Hrest].
  apply bool_decide_eq_true in Ep as ->.
  destruct (erasable_phase others s PhDraining Hs) as [H1 _]; [unfold entered; by rewrite Hphase|].
  apply wp_tx; [|by apply Hrest]. intros Ho. split; (split; [intros ->; by apply Ho|by left]).
Qed.

Lemma erased_no_job others s : erased others s → find_row (is_job v) (db_deletion_jobs (s_db s)) = None ∧
  find_row (λ vault, has_vault_id v vault && bool_decide (v_status vault = VDeleting)) (db_vaults (s_db s)) = None.
Proof.
  intros Hx. pose proof (x_mentions _ _ Hx) as Hm. unfold mentions in Hm. rewrite !orb_false_iff in Hm.
  destruct Hm as [[[[[[[[[[[[[[[[M1 _] _] _] _] _] _] _] _] _] M11] _] _] _] _] _] _].
  assert (∀ {A} (p q : A → bool) l, existsb p l = false → (∀ x, q x = true → p x = true) → find_row q l = None) as H.
  { intros A p q l Hl Hpq. unfold find_row. destruct (List.find q l) as [x|] eqn:E; [|done]. apply find_some in E as [Hin Hq].
    apply not_true_iff_false in Hl. destruct Hl. apply existsb_exists. exists x. auto. }
  split; [by apply (H _ (is_job v))|]. apply (H _ (has_vault_id v)); [done|]. by intros x [? _]%andb_true_iff.
Qed.

Lemma turn_either f others s : keeps_markers f → either others s →
  let '(ended, s') := turn w f v s in either others s' ∧ (ended = true → erased others s') ∧ (f = healthy → ended = true).
Proof.
  intros Hf [Hs|Hx]; unfold turn.
  - destruct (e_job _ _ Hs) as [phase Hphase]. pose proof (attempt_wp f others s phase Hf Hs Hphase) as Ha.
    unfold phase_of, job_phase in Hphase. destruct (find_row (is_job v) (db_deletion_jobs (s_db s))) as [job|] eqn:E; [|done].
    cbn in Hphase. injection Hphase as Hphase. rewrite Hphase. unfold wp in Ha.
    destruct (attempt w f v phase s) as [[code|[]] s']; [|by split_and!; [right| |]]. destruct Ha as [Hne [Hs'|Hx]].
    + pose proof (erasable_retry others s' code (to_iso (w_now w 1 + RETRY_DELAY_MS)) Hs') as Hr.
      unfold mutateDurably, pure_tx. cbn [fst snd]. split_and!; [|done|done].
      destruct (f_retry f) as [|[]]; cbn [snd]; by left.
    + split_and!; [|done|done]. right.
      assert (erased others (set_s_db (commit w (recordRetry v code (to_iso (w_now w 1 + RETRY_DELAY_MS)) (s_db s'))) s')) as Hr.
      { destruct (erased_no_job others s' Hx) as [Hno _].
        assert (recordRetry v code (to_iso (w_now w 1 + RETRY_DELAY_MS)) (s_db s') = s_db s') as ->.
        { unfold recordRetry. rewrite update_first_none by done. by destruct (s_db s'). }
        destruct Hx as [X1 X2 X3 X4 X5 X6]. split; try done; [by apply commit_mentions| |by cbn [s_db set_s_db]; rewrite commit_rest].
        cbn [s_db set_s_db]. by rewrite commit_receipts. }
      unfold mutateDurably, pure_tx. destruct (f_retry f) as [|[]]; cbn [snd]; done.
  - destruct (erased_no_job others s Hx) as [-> ->]. by split_and!; [right| |].
Qed.

Lemma runWorker_either fs others s : Forall keeps_markers fs → either others s →
  let '(ended, s') := runWorker w fs v s in either others s' ∧ (ended = true → erased others s').
Proof.
  intros Hfs. revert s. induction Hfs as [|f fs Hf Hfs IH]; intros s Hs; cbn [runWorker]; [done|].
  pose proof (turn_either f others s Hf Hs) as H. destruct (turn w f v s) as [[] s']; destruct H as (H1 & H2 & _).
  - by split.
  - by apply IH.
Qed.

Lemma runWorker_app fs fs' s : runWorker w (fs ++ fs') v s =
  match runWorker w fs v s with (true, s') => (true, s') | (false, s') => runWorker w fs' v s' end.
Proof.
  revert s. induction fs as [|f fs IH]; intros s; cbn [app runWorker]; [done|]. destruct (turn w f v s) as [[] s']; auto.
Qed.


(** ** A removal that loses the marker *)

(** A temporary directory that cannot be attributed. *)
Definition stuck (s : system) : Prop :=
  is_Some (phase_of s) ∧ forallb (temp_entry_ok v) (default [] (s_temp s)) = false.

Lemma stuck_db s db : stuck s → is_Some (job_phase v db) → stuck (set_s_db db s).
Proof. by intros [_ H] Hj. Qed.

Lemma stuck_phase s phase : stuck s → stuck (set_s_db (commit w (setPhase v phase None (s_db s))) s).
Proof.
  intros Hs. apply stuck_db; [done|]. destruct (commit_known (setPhase v phase None (s_db s))) as [_ ->].
  rewrite setPhase_phase by apply Hs. done.
Qed.

Lemma attempt_stuck f s phase : stuck s → wp (attempt w f v phase) stuck (λ _ _, False) s.
Proof.
  intros Hs. unfold attempt. apply wp_bind.
  assert (∀ s1, stuck s1 → wp (guard (f_drainVault f) StorageUnavailable;;
        match f_residue f with
        | ResidueErased => mret ()
        | ResidueUnattributed => fail UnattributedResidue
        | ResidueError => fail StorageUnavailable
        end;;
        eraseGitAndTemp w f v;;
        guard (f_cleanup f) StorageUnavailable;;
        mutateDurably w (f_finalizing f) (pure_tx (setPhase v PhFinalizing None));;
        guard (f_history f) StorageUnavailable;;
        (mutateDurably w (f_finalize f) (finalizeDb v (nowIso w 0)) ≫= λ _, mret ()))
      stuck (λ _ _, False) s1) as Hrest.
  { intros s1 H1. apply wp_bind, wp_guard; [done|intros _]. apply wp_bind. destruct (f_residue f); [apply wp_ret|exact H1|exact H1].
    apply wp_bind. unfold eraseGitAndTemp.
    apply wp_bind, wp_guard; [done|intros _]. apply wp_bind, wp_guard; [done|intros _].
    apply wp_bind, wp_get, wp_bind, wp_get. apply wp_bind, wp_guard; [done|intros _]. apply wp_bind, wp_guard; [done|intros _].
    apply wp_bind, wp_get. apply wp_bind, wp_guard; [done|intros _].
    apply wp_bind, wp_guard; [done|]. destruct H1 as [_ ->]. done. }
  destruct (bool_decide (phase = PhIntent)); [|by apply wp_ret, Hrest].
  apply wp_tx; [intros _; split; [done|by apply stuck_phase]|by apply Hrest, stuck_phase].
Qed.

(** A temporary directory that lost its owner marker blocks the deletion for good:
    no number of attempts, with or without faults, ends it. *)
Lemma unattributed_residue_blocks fs s : stuck s → (runWorker w fs v s).1 = false.
Proof.
  revert s. induction fs as [|f fs IH]; intros s Hs; cbn [runWorker]; [done|].
  assert (turn w f v s = (false, (turn w f v s).2) ∧ stuck (turn w f v s).2) as [Ht Hs'].
  { destruct (Hs) as [[phase Hphase] _]. unfold turn. unfold phase_of, job_phase in Hphase.
    destruct (find_row (is_job v) (db_deletion_jobs (s_db s))) as [job|] eqn:E; [|done].
    pose proof (attempt_stuck f s (dj_phase job) Hs) as Ha. unfold wp in Ha.
    destruct (attempt w f v (dj_phase job) s) as [[code|[]] s']; [|done]. cbn [fst snd]. split; [done|].
    assert (stuck (set_s_db (commit w (recordRetry v code (to_iso (w_now w 1 + RETRY_DELAY_MS)) (s_db s'))) s')) as Hr.
    { apply stuck_db; [done|].
      destruct (commit_known (recordRetry v code (to_iso (w_now w 1 + RETRY_DELAY_MS)) (s_db s'))) as [_ ->].
      destruct Ha as [[ph Hph] _]. unfold phase_of, job_phase in Hph. unfold job_phase, recordRetry. cbn.
      destruct (find_row (is_job v) (db_deletion_jobs (s_db s'))) as [job'|] eqn:E'; [|done].
      by rewrite (find_row_update_first_self (is_job v) _ _ job'). }
    unfold mutateDurably, pure_tx. destruct (f_retry f) as [|[]]; cbn [snd]; done. }
  rewrite Ht. by apply IH.
Qed.

End erasure.

(** ** A deletion from the request to the receipt *)

Definition sample_world : World := mk_World (λ i, 1700000000000 + Z.of_nat i) (λ i, [N.of_nat i]).
Definition sample_vault (id : string) : VaultRow :=
  mk_VaultRow (lit id) "usr_1" "Notes" VActive (Some (lit "root")) "root" None "t" "t".
Definition sample_db : MetadataDb := set_db_vaults [sample_vault "vlt_1"; sample_vault "vlt_2"] createEmptyDb.
Definition sample_system (db : MetadataDb) : system :=
  mk_system db [mk_git_entry "vlt_1.git" false true true; mk_git_entry "vlt_2.git" false true true]
    (Some [mk_temp_entry "merge-1" false true (Some (lit "vlt_1"))]).

(** The removal of the repository stops half-way, and the write of the next
    attempt fails after it was applied. *)
Definition half_removed : faults :=
  mk_faults TxDone true ResidueErased true true true TxDone (RemovalFailed StorageUnavailable false false) true
    (λ _, Removed) true true TxDone true TxDone TxDone.
Definition written_but_failed : faults :=
  mk_faults TxDone true ResidueErased true true true TxDone Removed true (λ _, Removed) true true (TxFailed true) true TxDone
    (TxFailed false).

Definition accepted_db : MetadataDb :=
  match begin_tx "usr_1" "vlt_1" "t1" sample_db with Ok (_, db) => db | Throw _ => sample_db end.


(** The removal of the temporary directory stops after the marker is gone. *)
Definition marker_removed : faults :=
  mk_faults TxDone true ResidueErased true true true TxDone Removed true (λ _, RemovalFailed StorageUnavailable false false)
    true true TxDone true TxDone TxDone.

Lemma interrupted_removal_never_completes n :
  (runWorker sample_world (marker_removed :: repeat healthy n) "vlt_1" (sample_system accepted_db)).1 = false.
Proof.
  cbn [runWorker]. destruct (turn sample_world marker_removed (lit "vlt_1") (sample_system accepted_db)) as [ended s] eqn:E.
  assert (ended = false ∧ stuck (lit "vlt_1") s) as [-> Hs].
  { vm_compute in E. injection E as <- <-. split; [reflexivity|]. split; [eexists|]; vm_compute; reflexivity. }
  by apply unattributed_residue_blocks.
Qed.

(** The two working directories the git service makes besides the attributable ones
    ([createMovedTree], [createTreeFromIndexEntries]) carry the owner's marker but are
    never accepted: left behind by a crash, they stop the deletion of their own vault. *)
Lemma working_trees_refused (vaultId random : jstring) :
  temp_entry_ok vaultId (mk_temp_entry (lit "rename-tree-" ++ vaultId ++ lit "-" ++ random) false true (Some vaultId)) = false ∧
  temp_entry_ok vaultId (mk_temp_entry (lit "index-tree-" ++ vaultId ++ lit "-" ++ random) false true (Some vaultId)) = false.
Proof. by split. Qed.
