(* ===== verification/Programs.v ===== *)
(** * Programs with durable effects

    A service method that awaits is a program: a tree of calls to the store, to git and
    to the clock, with what it does after each answer.  Calls fail, other methods run
    between two calls, and the process may stop at any of them; what counts then is the
    state the calls have left behind.  [safe] is the logic of such programs: an
    invariant holds of every state the program can be stopped in, and a postcondition
    when it returns. *)

From S2P Require Export Js.

Section programs.
Context {call : Type → Type}.

Inductive prog (A : Type) : Type :=
| Done (a : A)
| Do {B : Type} (c : call B) (k : result B → prog A).
Arguments Done {A} a.
Arguments Do {A B} c k.

Fixpoint after {A B} (m : prog A) (f : A → prog B) : prog B :=
  match m with
  | Done a => f a
  | Do c k => Do c (λ r, after (k r) f)
  end.

(** An async function: it returns a value or throws. *)
Definition io (A : Type) : Type := prog (result A).

Definition perform {B} (c : call B) : io B := Do c Done.
Definition throw {A} (e : js_error) : io A := Done (Throw e).
Definition lift {A} (r : result A) : io A := Done r.

#[export] Instance io_ret : MRet io := λ A a, Done (Ok a).
#[export] Instance io_bind : MBind io := λ A B f m,
  after m (λ r, match r with Ok a => f a | Throw e => Done (Throw e) end).
#[export] Instance io_fmap : FMap io := λ A B f m, after m (λ r, Done (f <$> r)).

(** [try { m } catch (e) { h(e) }]. *)
Definition try_catch {A} (m : io A) (h : js_error → io A) : io A :=
  after m (λ r, match r with Ok a => Done (Ok a) | Throw e => h e end).

(** [try { m } finally { f }] where a failure of [f] counts only if [m] returned. *)
Definition try_finally {A} (m : io A) (f : io unit) : io A :=
  after m (λ r, after f (λ rf, match r, rf with
                               | Ok a, Throw e => Done (Throw e)
                               | r, _ => Done r
                               end)).

(** ** Runs *)

Section runs.
Context {S : Type} (step : ∀ B, call B → S → result B → S → Prop) (rely : S → S → Prop).

Inductive runs {A} : prog A → S → prog A → S → Prop :=
| runs_here p s : runs p s p s
| runs_others p s s' q t : rely s s' → runs p s' q t → runs p s q t
| runs_call {B} (c : call B) k s r s' q t :
    step B c s r s' → runs (k r) s' q t → runs (Do c k) s q t.

(** Every state the program can be in satisfies [I], and [Q] when it returns. *)
Fixpoint safe {A} (I : S → Prop) (Q : A → S → Prop) (p : prog A) (s : S) : Prop :=
  ∀ s1, rely s s1 → I s1 ∧
    match p with
    | Done a => Q a s1
    | Do c k => ∀ r s2, step _ c s1 r s2 → safe I Q (k r) s2
    end.

Context `{!PreOrder rely}.

Lemma safe_now {A} I Q (p : prog A) s : safe I Q p s →
  I s ∧ match p with Done a => Q a s | Do c k => ∀ r s2, step _ c s r s2 → safe I Q (k r) s2 end.
Proof. intros H. destruct p; apply (H s); reflexivity. Qed.

Lemma safe_rely {A} I Q (p : prog A) s s' : rely s s' → safe I Q p s → safe I Q p s'.
Proof. intros Hr H. destruct p; intros s1 H1; apply (H s1); by transitivity s'. Qed.

Lemma safe_runs {A} I Q (p q : prog A) s t : runs p s q t → safe I Q p s → safe I Q q t.
Proof.
  induction 1 as [p s|p s s' q t Hr _ IH|B c k s r s' q t Hs _ IH]; intros H; [done| |].
  - apply IH. by eapply safe_rely.
  - apply IH. exact (proj2 (safe_now _ _ _ _ H) r s' Hs).
Qed.

Lemma safe_mono {A} (I I' : S → Prop) (Q Q' : A → S → Prop) p s :
  (∀ s, I s → I' s) → (∀ a s, Q a s → Q' a s) → safe I Q p s → safe I' Q' p s.
Proof.
  intros HI HQ. revert s. induction p as [a|B c k IH]; intros s H s1 H1; destruct (H s1 H1) as [H2 H3];
    (split; [by apply HI|]); [by apply HQ|]. intros r s2 Hs. by apply IH, H3.
Qed.

Lemma safe_after {A B} I (R : A → S → Prop) (Q : B → S → Prop) (m : prog A) f s :
  safe I R m s → (∀ a s, R a s → safe I Q (f a) s) → safe I Q (after m f) s.
Proof.
  intros H Hf. revert s H. induction m as [a|C c k IH]; intros s H; cbn [after].
  - apply Hf. exact (proj2 (safe_now _ _ _ _ H)).
  - intros s1 H1. destruct (H s1 H1) as [H2 H3]. split; [done|]. intros r s2 Hs. by apply IH, H3.
Qed.

(** ** Triples *)

(** Assertions that the other methods keep. *)
Class Stable (P : S → Prop) := stable s s' : rely s s' → P s → P s'.

Definition triple {A} (I : S → Prop) (P : S → Prop) (p : prog A) (Q : A → S → Prop) : Prop :=
  ∀ s, P s → safe I Q p s.

Lemma triple_done {A} I P (a : A) (Q : A → S → Prop) :
  Stable P → (∀ s, P s → I s) → (∀ s, P s → Q a s) → triple I P (Done a) Q.
Proof. intros HP HI HQ s Hs s1 H1. assert (P s1) by by eapply HP. auto. Qed.

Lemma triple_do {A B} I P (c : call B) (R : result B → S → Prop) (k : result B → prog A) Q :
  Stable P → (∀ s, P s → I s) → (∀ s r s', P s → step _ c s r s' → R r s') →
  (∀ r, triple I (R r) (k r) Q) → triple I P (Do c k) Q.
Proof.
  intros HP HI HR Hk s Hs s1 H1. assert (P s1) by by eapply HP. split; [by apply HI|].
  intros r s2 Hr. apply (Hk r). eauto.
Qed.

Lemma triple_after {A B} I P (R : A → S → Prop) (m : prog A) (f : A → prog B) Q :
  triple I P m R → (∀ a, triple I (R a) (f a) Q) → triple I P (after m f) Q.
Proof. intros Hm Hf s Hs. eapply safe_after; [by apply Hm|]. intros a s' H. by apply (Hf a). Qed.

Lemma triple_weaken {A} I (P P' : S → Prop) (p : prog A) (Q Q' : A → S → Prop) :
  (∀ s, P s → P' s) → (∀ a s, Q' a s → Q a s) → triple I P' p Q' → triple I P p Q.
Proof. intros HP HQ H s Hs. eapply safe_mono; [done|exact HQ|]. by apply H, HP. Qed.

Lemma triple_ex {A X} I (P : X → S → Prop) (p : prog A) Q :
  (∀ x, triple I (P x) p Q) → triple I (λ s, ∃ x, P x s) p Q.
Proof. intros H s [x Hx]. by eapply H. Qed.

Lemma triple_or {A} I (P P' : S → Prop) (p : prog A) Q :
  triple I P p Q → triple I P' p Q → triple I (λ s, P s ∨ P' s) p Q.
Proof. intros H H' s [?|?]; auto. Qed.

Lemma triple_pure {A} I (φ : Prop) (P : S → Prop) (p : prog A) Q :
  (φ → triple I P p Q) → triple I (λ s, φ ∧ P s) p Q.
Proof. intros H s [? ?]. by apply H. Qed.

(** What a triple says about a program that is run and may be stopped. *)
Lemma triple_runs {A} I P (p : prog A) Q s q t : triple I P p Q → P s → runs p s q t →
  I t ∧ ∀ a, q = Done a → Q a t.
Proof.
  intros H Hs Hr. pose proof (safe_now _ _ _ _ (safe_runs _ _ _ _ _ _ Hr (H s Hs))) as [HI HQ].
  split; [done|]. by intros a ->.
Qed.

(** ** Async functions *)

(** What holds while [I] is kept: [R] when the function returns, [E] when it throws. *)
Definition hoare {A} (I P : S → Prop) (m : io A) (R : A → S → Prop) (E : S → Prop) : Prop :=
  triple I P m (λ r s, match r with Ok a => R a s | Throw _ => E s end).

(** An assertion a function may be stopped in. *)
Class Assertion (I P : S → Prop) := {
  assertion_stable :: Stable P;
  assertion_kept s : P s → I s
}.

Lemma hoare_ret {A} I P `{!Assertion I P} (a : A) (R : A → S → Prop) E : (∀ s, P s → R a s) → hoare I P (mret a) R E.
Proof. intros H. apply triple_done; [apply _|apply assertion_kept|done]. Qed.

Lemma hoare_throw {A} I P `{!Assertion I P} e (R : A → S → Prop) (E : S → Prop) : (∀ s, P s → E s) → hoare I P (throw e) R E.
Proof. intros H. apply triple_done; [apply _|apply assertion_kept|done]. Qed.

Lemma hoare_lift {A} I P `{!Assertion I P} (r : result A) (R : A → S → Prop) (E : S → Prop) :
  (∀ a s, r = Ok a → P s → R a s) → (∀ s, P s → E s) → hoare I P (lift r) R E.
Proof. intros H1 H2. apply triple_done; [apply _|apply assertion_kept|]. destruct r; auto. Qed.

Lemma hoare_bind {A B} I P (m : io A) (f : A → io B) R' R E :
  hoare I P m R' E → (∀ a, hoare I (R' a) (f a) R E) → Assertion I E → hoare I P (m ≫= f) R E.
Proof.
  intros Hm Hf [? HE]. eapply triple_after; [exact Hm|]. intros [a|e]; [apply Hf|]. by apply triple_done.
Qed.

Lemma hoare_fmap {A B} I P (m : io A) (f : A → B) (R : B → S → Prop) E :
  hoare I P m (λ a, R (f a)) E → (∀ a, Assertion I (R (f a))) → Assertion I E → hoare I P (f <$> m) R E.
Proof.
  intros Hm HR HE. eapply triple_after; [exact Hm|]. intros [a|e].
  - destruct (HR a). by apply triple_done.
  - destruct HE. by apply triple_done.
Qed.

Lemma hoare_catch {A} I P (m : io A) h (R : A → S → Prop) E E' :
  hoare I P m R E' → (∀ e, hoare I E' (h e) R E) → (∀ a, Assertion I (R a)) → hoare I P (try_catch m h) R E.
Proof.
  intros Hm Hh HR. eapply triple_after; [exact Hm|]. intros [a|e]; [|apply Hh]. destruct (HR a). by apply triple_done.
Qed.

Lemma hoare_after {A B} I P (m : io A) (f : result A → io B) R R' E E' :
  hoare I P m R' E' → (∀ a, hoare I (R' a) (f (Ok a)) R E) → (∀ e, hoare I E' (f (Throw e)) R E) → hoare I P (after m f) R E.
Proof. intros Hm H1 H2. eapply triple_after; [exact Hm|]. intros [a|e]; [apply H1|apply H2]. Qed.

Lemma hoare_weaken {A} I (P P' : S → Prop) (m : io A) (R R' : A → S → Prop) (E E' : S → Prop) :
  hoare I P' m R' E' → (∀ s, P s → P' s) → (∀ a s, R' a s → R a s) → (∀ s, E' s → E s) → hoare I P m R E.
Proof. intros H HP HR HE. eapply triple_weaken; [exact HP| |exact H]. intros [a|e] s; auto. Qed.

Lemma hoare_call {B} I P `{!Assertion I P} (c : call B) (R : B → S → Prop) (E : S → Prop) :
  (∀ s r s', P s → step _ c s r s' → match r with Ok a => R a s' | Throw _ => E s' end) →
  (∀ a, Assertion I (R a)) → Assertion I E → hoare I P (perform c) R E.
Proof.
  intros H HR HE. eapply triple_do; [apply _|apply assertion_kept|exact H|].
  intros [a|e]; [destruct (HR a)|destruct HE]; by apply triple_done.
Qed.

Lemma hoare_ex {A X} I (P : X → S → Prop) (m : io A) R E : (∀ x, hoare I (P x) m R E) → hoare I (λ s, ∃ x, P x s) m R E.
Proof. apply triple_ex. Qed.
Lemma hoare_or {A} I P P' (m : io A) R E : hoare I P m R E → hoare I P' m R E → hoare I (λ s, P s ∨ P' s) m R E.
Proof. apply triple_or. Qed.

(** A function that keeps an assertion, whether it returns or throws. *)
Definition quiet {A} (I P : S → Prop) (m : io A) : Prop := hoare I P m (λ _, P) P.

Lemma quiet_ret {A} I P `{!Assertion I P} (a : A) : quiet I P (mret a).
Proof. by apply hoare_ret. Qed.
Lemma quiet_throw {A} I P `{!Assertion I P} e : quiet I P (throw (A := A) e).
Proof. by apply hoare_throw. Qed.
Lemma quiet_lift {A} I P `{!Assertion I P} (r : result A) : quiet I P (lift r).
Proof. by apply hoare_lift. Qed.
Lemma quiet_bind {A B} I P `{!Assertion I P} (m : io A) (f : A → io B) :
  quiet I P m → (∀ a, quiet I P (f a)) → quiet I P (m ≫= f).
Proof. intros Hm Hf. by eapply hoare_bind. Qed.
Lemma quiet_fmap {A B} I P `{!Assertion I P} (m : io A) (f : A → B) : quiet I P m → quiet I P (f <$> m).
Proof. intros Hm. apply hoare_fmap; auto. Qed.
Lemma quiet_catch {A} I P `{!Assertion I P} (m : io A) h : quiet I P m → (∀ e, quiet I P (h e)) → quiet I P (try_catch m h).
Proof. intros Hm Hh. by eapply hoare_catch. Qed.
Lemma quiet_after {A B} I P (m : io A) (f : result A → io B) :
  quiet I P m → (∀ r, quiet I P (f r)) → quiet I P (after m f).
Proof. intros Hm Hf. eapply hoare_after; [exact Hm| |]; intros; apply Hf. Qed.

End runs.
End programs.

Arguments prog call A : clear implicits.
Arguments io call A : clear implicits.
Arguments Done {call A} a.
Arguments Do {call A B} c k.

#[export] Instance stable_and {S} (rely : S → S → Prop) P P' :
  Stable rely P → Stable rely P' → Stable rely (λ s, P s ∧ P' s).
Proof. intros H H' s s' Hr []. split; [by eapply H|by eapply H']. Qed.
#[export] Instance stable_or {S} (rely : S → S → Prop) P P' :
  Stable rely P → Stable rely P' → Stable rely (λ s, P s ∨ P' s).
Proof. intros H H' s s' Hr [?|?]; [left; by eapply H|right; by eapply H']. Qed.
#[export] Instance stable_ex {S X} (rely : S → S → Prop) (P : X → S → Prop) :
  (∀ x, Stable rely (P x)) → Stable rely (λ s, ∃ x, P x s).
Proof. intros H s s' Hr [x Hx]. exists x. by eapply H. Qed.
#[export] Instance stable_pure {S} (rely : S → S → Prop) (φ : Prop) : Stable rely (λ _, φ).
Proof. by intros s s' _. Qed.
