(* ===== verification/Operations.v ===== *)
(** * The rows of an operation (src/server/syncService.ts)

    A change of a vault's history is an operation row of the metadata document: it is
    started, prepared with what it expects and where it goes, and committed or aborted.
    Here are the parts its transactions share: finding rows, aborting, blocking a vault
    whose references cannot be reconciled, recording the commit a merge produced, and
    the directory changes that travel with it.  A transaction is a function of the
    clock and the random source ([World]) and of the document. *)

From S2P Require Export Validators Auth.

(** ** Assignments *)

Definition set_op_expected_refs (x : list (jstring * option jstring)) (r : SyncOperationRow) :
    SyncOperationRow :=
  mk_SyncOperationRow (op_operation_id r) (op_operation_sequence r) (op_vault_id r) (op_device_id r)
    (op_operation_type r) x (op_target_refs r) (op_target_commit r) (op_status r) (op_proposal_base r)
    (op_prepared_manifest r) (op_result r) (op_created_at r) (op_updated_at r).
Definition set_op_target_refs (x : list (jstring * option jstring)) (r : SyncOperationRow) :
    SyncOperationRow :=
  mk_SyncOperationRow (op_operation_id r) (op_operation_sequence r) (op_vault_id r) (op_device_id r)
    (op_operation_type r) (op_expected_refs r) x (op_target_commit r) (op_status r) (op_proposal_base r)
    (op_prepared_manifest r) (op_result r) (op_created_at r) (op_updated_at r).
Definition set_op_target_commit (x : option jstring) (r : SyncOperationRow) : SyncOperationRow :=
  mk_SyncOperationRow (op_operation_id r) (op_operation_sequence r) (op_vault_id r) (op_device_id r)
    (op_operation_type r) (op_expected_refs r) (op_target_refs r) x (op_status r) (op_proposal_base r)
    (op_prepared_manifest r) (op_result r) (op_created_at r) (op_updated_at r).
Definition set_op_proposal_base (x : option (option jstring)) (r : SyncOperationRow) : SyncOperationRow :=
  mk_SyncOperationRow (op_operation_id r) (op_operation_sequence r) (op_vault_id r) (op_device_id r)
    (op_operation_type r) (op_expected_refs r) (op_target_refs r) (op_target_commit r) (op_status r) x
    (op_prepared_manifest r) (op_result r) (op_created_at r) (op_updated_at r).
Definition set_op_prepared_manifest (x : option record) (r : SyncOperationRow) : SyncOperationRow :=
  mk_SyncOperationRow (op_operation_id r) (op_operation_sequence r) (op_vault_id r) (op_device_id r)
    (op_operation_type r) (op_expected_refs r) (op_target_refs r) (op_target_commit r) (op_status r)
    (op_proposal_base r) x (op_result r) (op_created_at r) (op_updated_at r).
Definition set_op_result (x : option record) (r : SyncOperationRow) : SyncOperationRow :=
  mk_SyncOperationRow (op_operation_id r) (op_operation_sequence r) (op_vault_id r) (op_device_id r)
    (op_operation_type r) (op_expected_refs r) (op_target_refs r) (op_target_commit r) (op_status r)
    (op_proposal_base r) (op_prepared_manifest r) x (op_created_at r) (op_updated_at r).
Definition set_op_updated_at (x : jstring) (r : SyncOperationRow) : SyncOperationRow :=
  mk_SyncOperationRow (op_operation_id r) (op_operation_sequence r) (op_vault_id r) (op_device_id r)
    (op_operation_type r) (op_expected_refs r) (op_target_refs r) (op_target_commit r) (op_status r)
    (op_proposal_base r) (op_prepared_manifest r) (op_result r) (op_created_at r) x.
Definition set_d_device_ref_head (x : option jstring) (r : DeviceRow) : DeviceRow :=
  mk_DeviceRow (d_device_id r) (d_vault_id r) (d_user_id r) (d_device_name r) (d_device_ref r) x (d_status r)
    (d_last_applied_main r) (d_last_applied_event_seq r) (d_last_applied_explicit_dirs r)
    (d_pending_applied_main r) (d_pending_applied_event_seq r) (d_pending_applied_explicit_dirs r)
    (d_last_seen_at r) (d_last_successful_sync_at r) (d_local_status_label r) (d_local_error_code r)
    (d_local_queue_status r) (d_local_main r) (d_local_head r) (d_plugin_version r) (d_path_capabilities r)
    (d_last_status_report_at r) (d_onboarding_status r) (d_onboarding_mode r) (d_initial_proposal_kind r)
    (d_initial_proposal_base r) (d_onboarding_connection_id r) (d_onboarding_completed_at r) (d_created_at
    r) (d_revoked_at r).
Definition set_d_last_successful_sync_at (x : option jstring) (r : DeviceRow) : DeviceRow :=
  mk_DeviceRow (d_device_id r) (d_vault_id r) (d_user_id r) (d_device_name r) (d_device_ref r)
    (d_device_ref_head r) (d_status r) (d_last_applied_main r) (d_last_applied_event_seq r)
    (d_last_applied_explicit_dirs r) (d_pending_applied_main r) (d_pending_applied_event_seq r)
    (d_pending_applied_explicit_dirs r) (d_last_seen_at r) x (d_local_status_label r) (d_local_error_code r)
    (d_local_queue_status r) (d_local_main r) (d_local_head r) (d_plugin_version r) (d_path_capabilities r)
    (d_last_status_report_at r) (d_onboarding_status r) (d_onboarding_mode r) (d_initial_proposal_kind r)
    (d_initial_proposal_base r) (d_onboarding_connection_id r) (d_onboarding_completed_at r) (d_created_at
    r) (d_revoked_at r).
Definition set_v_metadata_conflict_rules (x : option (list jsval)) (r : VaultRow) : VaultRow :=
  mk_VaultRow (v_vault_id r) (v_owner_user_id r) (v_display_name r) (v_status r) (v_root_commit r)
    (v_current_main r) x (v_created_at r) (v_updated_at r).
Definition set_cf_status (x : ConflictStatus) (r : ConflictRecord) : ConflictRecord :=
  mk_ConflictRecord (cf_conflict_id r) (cf_vault_id r) (cf_device_id r) x (cf_base_commit r) (cf_current_main
    r) (cf_device_commit r) (cf_expected_main r) (cf_affected_paths r) (cf_affected_path_count r)
    (cf_merge_sequence r) (cf_merge_policy_version r) (cf_conflict_kind r) (cf_rename_pairs r)
    (cf_directory_context r) (cf_validator_results r) (cf_validator_summary r) (cf_created_at r)
    (cf_resolved_at r) (cf_resolved_by_user_id r) (cf_resolution_kind r) (cf_resolution_commit r)
    (cf_resolution_request_hash r).
Definition set_cf_current_main (x : jstring) (r : ConflictRecord) : ConflictRecord :=
  mk_ConflictRecord (cf_conflict_id r) (cf_vault_id r) (cf_device_id r) (cf_status r) (cf_base_commit r) x
    (cf_device_commit r) (cf_expected_main r) (cf_affected_paths r) (cf_affected_path_count r)
    (cf_merge_sequence r) (cf_merge_policy_version r) (cf_conflict_kind r) (cf_rename_pairs r)
    (cf_directory_context r) (cf_validator_results r) (cf_validator_summary r) (cf_created_at r)
    (cf_resolved_at r) (cf_resolved_by_user_id r) (cf_resolution_kind r) (cf_resolution_commit r)
    (cf_resolution_request_hash r).
Definition set_cf_expected_main (x : jstring) (r : ConflictRecord) : ConflictRecord :=
  mk_ConflictRecord (cf_conflict_id r) (cf_vault_id r) (cf_device_id r) (cf_status r) (cf_base_commit r)
    (cf_current_main r) (cf_device_commit r) x (cf_affected_paths r) (cf_affected_path_count r)
    (cf_merge_sequence r) (cf_merge_policy_version r) (cf_conflict_kind r) (cf_rename_pairs r)
    (cf_directory_context r) (cf_validator_results r) (cf_validator_summary r) (cf_created_at r)
    (cf_resolved_at r) (cf_resolved_by_user_id r) (cf_resolution_kind r) (cf_resolution_commit r)
    (cf_resolution_request_hash r).
Definition set_cf_affected_paths (x : list jstring) (r : ConflictRecord) : ConflictRecord :=
  mk_ConflictRecord (cf_conflict_id r) (cf_vault_id r) (cf_device_id r) (cf_status r) (cf_base_commit r)
    (cf_current_main r) (cf_device_commit r) (cf_expected_main r) x (cf_affected_path_count r)
    (cf_merge_sequence r) (cf_merge_policy_version r) (cf_conflict_kind r) (cf_rename_pairs r)
    (cf_directory_context r) (cf_validator_results r) (cf_validator_summary r) (cf_created_at r)
    (cf_resolved_at r) (cf_resolved_by_user_id r) (cf_resolution_kind r) (cf_resolution_commit r)
    (cf_resolution_request_hash r).
Definition set_cf_affected_path_count (x : Z) (r : ConflictRecord) : ConflictRecord :=
  mk_ConflictRecord (cf_conflict_id r) (cf_vault_id r) (cf_device_id r) (cf_status r) (cf_base_commit r)
    (cf_current_main r) (cf_device_commit r) (cf_expected_main r) (cf_affected_paths r) x (cf_merge_sequence
    r) (cf_merge_policy_version r) (cf_conflict_kind r) (cf_rename_pairs r) (cf_directory_context r)
    (cf_validator_results r) (cf_validator_summary r) (cf_created_at r) (cf_resolved_at r)
    (cf_resolved_by_user_id r) (cf_resolution_kind r) (cf_resolution_commit r) (cf_resolution_request_hash
    r).
Definition set_cf_directory_context (x : option DirectoryConflictContext) (r : ConflictRecord) :
    ConflictRecord :=
  mk_ConflictRecord (cf_conflict_id r) (cf_vault_id r) (cf_device_id r) (cf_status r) (cf_base_commit r)
    (cf_current_main r) (cf_device_commit r) (cf_expected_main r) (cf_affected_paths r)
    (cf_affected_path_count r) (cf_merge_sequence r) (cf_merge_policy_version r) (cf_conflict_kind r)
    (cf_rename_pairs r) x (cf_validator_results r) (cf_validator_summary r) (cf_created_at r)
    (cf_resolved_at r) (cf_resolved_by_user_id r) (cf_resolution_kind r) (cf_resolution_commit r)
    (cf_resolution_request_hash r).
Definition set_cf_validator_results (x : record) (r : ConflictRecord) : ConflictRecord :=
  mk_ConflictRecord (cf_conflict_id r) (cf_vault_id r) (cf_device_id r) (cf_status r) (cf_base_commit r)
    (cf_current_main r) (cf_device_commit r) (cf_expected_main r) (cf_affected_paths r)
    (cf_affected_path_count r) (cf_merge_sequence r) (cf_merge_policy_version r) (cf_conflict_kind r)
    (cf_rename_pairs r) (cf_directory_context r) x (cf_validator_summary r) (cf_created_at r)
    (cf_resolved_at r) (cf_resolved_by_user_id r) (cf_resolution_kind r) (cf_resolution_commit r)
    (cf_resolution_request_hash r).
Definition set_cf_validator_summary (x : record) (r : ConflictRecord) : ConflictRecord :=
  mk_ConflictRecord (cf_conflict_id r) (cf_vault_id r) (cf_device_id r) (cf_status r) (cf_base_commit r)
    (cf_current_main r) (cf_device_commit r) (cf_expected_main r) (cf_affected_paths r)
    (cf_affected_path_count r) (cf_merge_sequence r) (cf_merge_policy_version r) (cf_conflict_kind r)
    (cf_rename_pairs r) (cf_directory_context r) (cf_validator_results r) x (cf_created_at r)
    (cf_resolved_at r) (cf_resolved_by_user_id r) (cf_resolution_kind r) (cf_resolution_commit r)
    (cf_resolution_request_hash r).
Definition set_cf_resolved_at (x : option jstring) (r : ConflictRecord) : ConflictRecord :=
  mk_ConflictRecord (cf_conflict_id r) (cf_vault_id r) (cf_device_id r) (cf_status r) (cf_base_commit r)
    (cf_current_main r) (cf_device_commit r) (cf_expected_main r) (cf_affected_paths r)
    (cf_affected_path_count r) (cf_merge_sequence r) (cf_merge_policy_version r) (cf_conflict_kind r)
    (cf_rename_pairs r) (cf_directory_context r) (cf_validator_results r) (cf_validator_summary r)
    (cf_created_at r) x (cf_resolved_by_user_id r) (cf_resolution_kind r) (cf_resolution_commit r)
    (cf_resolution_request_hash r).
Definition set_cf_resolved_by_user_id (x : option jstring) (r : ConflictRecord) : ConflictRecord :=
  mk_ConflictRecord (cf_conflict_id r) (cf_vault_id r) (cf_device_id r) (cf_status r) (cf_base_commit r)
    (cf_current_main r) (cf_device_commit r) (cf_expected_main r) (cf_affected_paths r)
    (cf_affected_path_count r) (cf_merge_sequence r) (cf_merge_policy_version r) (cf_conflict_kind r)
    (cf_rename_pairs r) (cf_directory_context r) (cf_validator_results r) (cf_validator_summary r)
    (cf_created_at r) (cf_resolved_at r) x (cf_resolution_kind r) (cf_resolution_commit r)
    (cf_resolution_request_hash r).
Definition set_cf_resolution_kind (x : option ConflictResolutionKind) (r : ConflictRecord) : ConflictRecord
    :=
  mk_ConflictRecord (cf_conflict_id r) (cf_vault_id r) (cf_device_id r) (cf_status r) (cf_base_commit r)
    (cf_current_main r) (cf_device_commit r) (cf_expected_main r) (cf_affected_paths r)
    (cf_affected_path_count r) (cf_merge_sequence r) (cf_merge_policy_version r) (cf_conflict_kind r)
    (cf_rename_pairs r) (cf_directory_context r) (cf_validator_results r) (cf_validator_summary r)
    (cf_created_at r) (cf_resolved_at r) (cf_resolved_by_user_id r) x (cf_resolution_commit r)
    (cf_resolution_request_hash r).
Definition set_cf_resolution_commit (x : option jstring) (r : ConflictRecord) : ConflictRecord :=
  mk_ConflictRecord (cf_conflict_id r) (cf_vault_id r) (cf_device_id r) (cf_status r) (cf_base_commit r)
    (cf_current_main r) (cf_device_commit r) (cf_expected_main r) (cf_affected_paths r)
    (cf_affected_path_count r) (cf_merge_sequence r) (cf_merge_policy_version r) (cf_conflict_kind r)
    (cf_rename_pairs r) (cf_directory_context r) (cf_validator_results r) (cf_validator_summary r)
    (cf_created_at r) (cf_resolved_at r) (cf_resolved_by_user_id r) (cf_resolution_kind r) x
    (cf_resolution_request_hash r).
Definition set_cf_resolution_request_hash (x : option jstring) (r : ConflictRecord) : ConflictRecord :=
  mk_ConflictRecord (cf_conflict_id r) (cf_vault_id r) (cf_device_id r) (cf_status r) (cf_base_commit r)
    (cf_current_main r) (cf_device_commit r) (cf_expected_main r) (cf_affected_paths r)
    (cf_affected_path_count r) (cf_merge_sequence r) (cf_merge_policy_version r) (cf_conflict_kind r)
    (cf_rename_pairs r) (cf_directory_context r) (cf_validator_results r) (cf_validator_summary r)
    (cf_created_at r) (cf_resolved_at r) (cf_resolved_by_user_id r) (cf_resolution_kind r)
    (cf_resolution_commit r) x.

(** [{ ...(record ?? {}), ...fields }]. *)
Definition spread (r : option record) (fields : record) : record :=
  fold_left (λ r kv, mset r kv.1 kv.2) fields (default [] r).

Definition jint (z : Z) : jsval := JNum (NInt z).
Definition text_list (l : list jstring) : jsval := JArr (map JStr l).
Definition null_or {A} (f : A → jsval) (v : option A) : jsval := match v with Some a => f a | None => JNull end.

(** [a ?? b]. *)
Definition nullish_or (a b : jsval) : jsval := match a with JUndef | JNull => b | v => v end.

Definition manifest_field (row : SyncOperationRow) (field : string) : jsval := rget (default [] (op_prepared_manifest row)) (lit field).

(** ** Rows *)

Definition transaction (A : Type) : Type := World → MetadataDb → result (A * MetadataDb).

Definition has_operation_id (id : jstring) (o : SyncOperationRow) : bool := op_operation_id o =s? id.
Definition has_vault_id (id : jstring) (v : VaultRow) : bool := v_vault_id v =s? id.
Definition has_device_id (id : jstring) (d : DeviceRow) : bool := d_device_id d =s? id.
Definition has_conflict_id (vaultId id : jstring) (c : ConflictRecord) : bool :=
  (cf_vault_id c =s? vaultId) && (cf_conflict_id c =s? id).

Definition missing_row (what : string) (id : jstring) : js_error := mk_error EPlain "" (lit what ++ id) [].

Definition requireOperation (db : MetadataDb) (id : jstring) : result SyncOperationRow :=
  match find_row (has_operation_id id) (db_sync_operations db) with
  | Some o => Ok o | None => Throw (missing_row "Operation not found: " id)
  end.
Definition requireVault (db : MetadataDb) (id : jstring) : result VaultRow :=
  match find_row (has_vault_id id) (db_vaults db) with
  | Some v => Ok v | None => Throw (missing_row "Vault not found: " id)
  end.
Definition requireConflict (db : MetadataDb) (vaultId id : jstring) : result ConflictRecord :=
  match find_row (has_conflict_id vaultId id) (db_conflicts db) with
  | Some c => Ok c | None => Throw (missing_row "Conflict not found: " id)
  end.

Definition update_operation (id : jstring) (f : SyncOperationRow → SyncOperationRow) (db : MetadataDb) : MetadataDb :=
  set_db_sync_operations (update_first (has_operation_id id) f (db_sync_operations db)) db.
Definition update_vault (id : jstring) (f : VaultRow → VaultRow) (db : MetadataDb) : MetadataDb :=
  set_db_vaults (update_first (has_vault_id id) f (db_vaults db)) db.
Definition update_device (id : jstring) (f : DeviceRow → DeviceRow) (db : MetadataDb) : MetadataDb :=
  set_db_devices (update_first (has_device_id id) f (db_devices db)) db.
Definition update_conflict (vaultId id : jstring) (f : ConflictRecord → ConflictRecord) (db : MetadataDb) : MetadataDb :=
  set_db_conflicts (update_first (has_conflict_id vaultId id) f (db_conflicts db)) db.

Definition latestEventSeq (vaultId : jstring) (db : MetadataDb) : Z :=
  default 0%Z (mget (db_event_seq_by_vault db) vaultId).

Definition findOpenConflict (db : MetadataDb) (vaultId deviceId deviceCommit : jstring) : option ConflictRecord :=
  find_row (λ conflict, (cf_vault_id conflict =s? vaultId) && (cf_device_id conflict =s? deviceId)
    && (cf_device_commit conflict =s? deviceCommit) && bool_decide (cf_status conflict = CfOpen)) (db_conflicts db).

(** ** References *)

Definition MAIN_REF : jstring := lit "refs/heads/main".
Definition DEVICE_REFS : jstring := lit "refs/obts/devices/".
Definition conflictRef (conflictId kind : jstring) : jstring := lit "refs/obts/conflicts/" ++ conflictId ++ lit "/" ++ kind.

Definition conflictProtectedRefs (conflict : ConflictRecord) : list (jstring * jstring) :=
  [(lit "base", cf_base_commit conflict); (lit "current", cf_current_main conflict); (lit "device", cf_device_commit conflict)].

(** [/^[0-9a-f]{40}$/u]. *)
Definition is_oid (s : jstring) : bool := rtest COMMIT_ID_PATTERN s.

(** ** Ending an operation *)

Definition reason_of (reason : jstring) : option record := Some [(lit "reason", JStr reason)].

Definition aborted (now reason : jstring) (o : SyncOperationRow) : SyncOperationRow :=
  set_op_updated_at now (set_op_result (reason_of reason) (set_op_status OpAborted o)).

Definition abort_unless_committed (now reason : jstring) (operation : SyncOperationRow) (db : MetadataDb) : MetadataDb :=
  if bool_decide (op_status operation = OpCommitted) then db
  else update_operation (op_operation_id operation) (aborted now reason) db.

Definition abortOperation (operationId reason : jstring) : transaction unit := λ w db,
  operation ← requireOperation db operationId;
  Ok ((), abort_unless_committed (nowIso w 0) reason operation db).

(** [None] when the vault was blocked already. *)
Definition blockPreparedOperationForIntegrity (operationId reason : jstring) : transaction (option jstring) := λ w db,
  operation ← requireOperation db operationId;
  let db := update_operation operationId (λ o, set_op_updated_at (nowIso w 0) (set_op_result (reason_of reason) o)) db in
  vault ← requireVault db (op_vault_id operation);
  let changed := negb (bool_decide (v_status vault = VBlockedIntegrity)) in
  Ok (if changed then Some (v_vault_id vault) else None,
      update_vault (op_vault_id operation) (λ v, set_v_updated_at (nowIso w 1) (set_v_status VBlockedIntegrity v)) db).

Definition status_text (s : OperationStatus) : string :=
  match s with OpStarted => "started" | OpPrepared => "prepared" | OpCommitted => "committed" | OpAborted => "aborted" end.

(** [prepareMergeRefUpdate] and [prepareConflictResolutionRefUpdate]; they differ in the
    word of the error. *)
Definition prepare_ref_update (what : string) (operationId commit : jstring) : transaction unit := λ w db,
  operation ← requireOperation db operationId;
  if negb (bool_decide (op_status operation = OpPrepared))
  then Throw (mk_error EPlain "" (lit "Operation cannot prepare " ++ lit what ++ lit " ref update from status " ++ lit (status_text (op_status operation)) ++ lit ".") []) else
  Ok ((), update_operation operationId (λ o,
    set_op_updated_at (nowIso w 0)
      (set_op_prepared_manifest (Some (spread (op_prepared_manifest o)
          [(lit "target_refs", JObj [(MAIN_REF, JStr commit)]); (lit "target_commit", JStr commit)]))
        (set_op_target_commit (Some commit) (set_op_target_refs [(MAIN_REF, Some commit)] o)))) db).
Definition prepareMergeRefUpdate := prepare_ref_update "merge".
Definition prepareConflictResolutionRefUpdate := prepare_ref_update "resolution".

(** ** Directory changes *)

Definition proposalIntentAcknowledgements (proposal : DirectoryProposal) : list DirectoryIntentAcknowledgement :=
  map (λ intent, mk_DirectoryIntentAcknowledgement (pi_intent_id intent) (pi_generation intent)) (dp_intents proposal).

Inductive AckStatus := AckAccepted | AckConflicted | AckDuplicate.
Record DirectoryProposalAcknowledgement := mk_ack {
  da_proposal_id : jstring; da_status : AckStatus; da_acknowledged : list DirectoryIntentAcknowledgement
}.
Definition proposalAcknowledgement (proposal : DirectoryProposal) (status : AckStatus) : DirectoryProposalAcknowledgement :=
  mk_ack (dp_proposal_id proposal) status (proposalIntentAcknowledgements proposal).

Definition storedDirectoryPlan (plan : option DirectoryMergePlan) : jsval :=
  match plan with
  | None => JNull
  | Some plan => JObj
      [(lit "proposal", encode_proposal (pl_proposal plan));
       (lit "request_sha256", JStr (pl_requestSha256 plan));
       (lit "base_explicit_dirs", text_list (pl_baseExplicitDirs plan));
       (lit "server_explicit_dirs", text_list (pl_serverExplicitDirs plan));
       (lit "clean_intent_ids", text_list (map pi_intent_id (pl_cleanIntents plan)));
       (lit "conflicting_intent_ids", text_list (map pi_intent_id (pl_conflictingIntents plan)));
       (lit "affected_roots", text_list (pl_affectedRoots plan));
       (lit "expected_event_seq", jint (pl_expectedEventSeq plan))]
  end.

Definition directoryConflictContext (plan : DirectoryMergePlan) : DirectoryConflictContext :=
  mk_DirectoryConflictContext (pl_proposal plan) (pl_baseExplicitDirs plan) (pl_serverExplicitDirs plan)
    (map pi_intent_id (pl_cleanIntents plan)) (map pi_intent_id (pl_conflictingIntents plan))
    (pl_affectedRoots plan) (pl_expectedEventSeq plan).

Definition event_acknowledgements (proposal : DirectoryProposal) (deviceId : jstring) : jsval :=
  JArr (map (λ ack, JObj [(lit "intent_id", JStr (ack_intent_id ack)); (lit "generation", jint (ack_generation ack));
                          (lit "device_id", JStr deviceId)]) (proposalIntentAcknowledgements proposal)).

Definition directoryEventPayload (plan : option DirectoryMergePlan) (deviceId : jstring) : record :=
  match plan with
  | None => []
  | Some plan =>
      [(lit "directory_intents", JArr (map encode_intent (intents_of (dp_intents (pl_proposal plan)))));
       (lit "directory_proposal_id", JStr (dp_proposal_id (pl_proposal plan)));
       (lit "directory_acknowledgements", event_acknowledgements (pl_proposal plan) deviceId)]
  end.

Definition upsertDirectoryProposalResult (db : MetadataDb) (result : DirectoryProposalResultRow) : MetadataDb :=
  let same candidate := pr_proposal_id candidate =s? pr_proposal_id result in
  set_db_directory_proposal_results
    (match find_row same (db_directory_proposal_results db) with
     | Some existing => update_first same (λ _, set_pr_created_at (pr_created_at existing) result) (db_directory_proposal_results db)
     | None => db_directory_proposal_results db ++ [result]
     end) db.

Definition commitDirectoryPlan (w : World) (i : nat) (db : MetadataDb) (vaultId deviceId deviceCommit : jstring)
    (plan : option DirectoryMergePlan) (eventSeq : Z) : MetadataDb :=
  match plan with
  | None => db
  | Some plan =>
      let db := applyDirectoryIntents w i db vaultId (intents_of (dp_intents (pl_proposal plan))) eventSeq in
      upsertDirectoryProposalResult db
        (mk_DirectoryProposalResultRow (dp_proposal_id (pl_proposal plan)) (pl_requestSha256 plan) vaultId deviceId deviceCommit
           PrAccepted None eventSeq (proposalIntentAcknowledgements (pl_proposal plan)) (nowIso w (i + 2)) (nowIso w (i + 3)))
  end.

Definition resolveDirectoryProposalResult (w : World) (i : nat) (db : MetadataDb) (conflict : ConflictRecord) (eventSeq : Z) : MetadataDb :=
  match cf_directory_context conflict with
  | None => db
  | Some context =>
      set_db_directory_proposal_results
        (update_first (λ candidate, pr_proposal_id candidate =s? dp_proposal_id (dc_proposal context))
           (λ result, set_pr_updated_at (nowIso w i) (set_pr_event_seq eventSeq (set_pr_status PrResolved result)))
           (db_directory_proposal_results db)) db
  end.

Definition audit (w : World) (i : nat) (actorUser actorDevice : option jstring) (vaultId : jstring) (action class : string)
    (resource : option jstring) (db : MetadataDb) : MetadataDb :=
  push_audit w i actorUser actorDevice (Some vaultId) (lit action) (lit class) resource (nowIso w (i + 1)) db.
