(* ===== verification/VaultState.v ===== *)
(** * A vault on disk: its metadata and its references

    What survives the server process is the metadata document and the references of the
    repositories.  The services change them by the calls listed here ([call]); every call
    may fail ([call_step]), and the methods of other vaults run in between ([others]).
    A vault is [quiet] when no operation of it is prepared and its references are where
    the metadata says, and [recoverable] when a single prepared operation explains the
    difference. *)

From S2P Require Export Programs Operations MergeDecision.

(** ** Calls *)

(** A [GitObjectReader]: the repository, or the upload in quarantine. *)
Inductive object_source := FromRepository | FromUpload.

Inductive git_query : Type → Type :=
| CommitExists (from : object_source) (vault commit : jstring) : git_query bool
| IsAncestor (from : object_source) (vault ancestor descendant : jstring) : git_query bool
| MergeBase (from : object_source) (vault a b : jstring) : git_query (option jstring)
| ReadTree (from : object_source) (vault commit : jstring) : git_query tree
| BlobReader (vault : jstring) : git_query (tree → jstring → option (list N))
| HistoryReader : git_query GitReads
| RootIgnoreOid (from : object_source) (vault commit : jstring) : git_query (option jstring)
| ValidateTreePathPolicy (from : object_source) (vault commit : jstring) : git_query unit
| ValidateTreeRootIgnorePolicy (from : object_source) (vault treeish : jstring) : git_query (option jstring)
| QuarantineUpload (vault : jstring) : git_query unit
| ImportUpload (vault : jstring) : git_query unit
| TreeHash (vault commit : jstring) : git_query jstring
| RootCommit (vault main : jstring) : git_query jstring
| CheckReady : git_query bool
| CheckRepositoryPermissions (vault : jstring) : git_query bool
| CheckIntegrity (vault : jstring) : git_query bool
| CreateDisjointMergeTree (vault base main device : jstring) : git_query jstring
| CreateOverlayMergeCommit (vault base main device : jstring) (sequence : Z) (deviceId : jstring) : git_query jstring
| TryPolicyMergeTree (vault base main device : jstring) (overlapping : list jstring) (authoredBase : jstring)
    (mainRenames : list GitMergeRename) (rules : list jsval) (pairs : list RenamePair) : git_query (option (jstring * record))
| CreateMergeCommit (vault tree : jstring) (parents : list jstring) (trailer : record) : git_query jstring.

(** The completed operations kept outside the document. *)
Inductive archive_query : Type → Type :=
| FindAttempt (vault device attempt : jstring) : archive_query (option (SyncOperationRow * Z))
| FindTargetCandidates (vault device target : jstring) : archive_query (list (SyncOperationRow * Z)).

Inductive call : Type → Type :=
| Snapshot : call MetadataDb
| Mutate {A} (fn : transaction A) : call A
| GetRef (vault ref : jstring) : call (option jstring)
| UpdateRef (vault ref target : jstring) (expected : option jstring) : call unit
| Git {A} (q : git_query A) : call A
| Archive {A} (q : archive_query A) : call A
| ArchiveCompletedHistory (vault : jstring) : call unit
| FreshConflictId (vault : jstring) : call jstring.

Notation "'sync'" := (io call).

Definition snapshot : sync MetadataDb := perform Snapshot.
Definition mutate {A} (fn : transaction A) : sync A := perform (Mutate fn).
Definition getRef (vault ref : jstring) : sync (option jstring) := perform (GetRef vault ref).
Definition updateRef (vault ref target : jstring) (expected : option jstring) : sync unit :=
  perform (UpdateRef vault ref target expected).
Definition git {A} (q : git_query A) : sync A := perform (Git q).

(** ** The state *)

Record durable := mk_durable { du_db : MetadataDb; du_refs : gmap (jstring * jstring) jstring }.
Definition with_db (db : MetadataDb) (s : durable) : durable := mk_durable db (du_refs s).
Definition ref_at (s : durable) (vault ref : jstring) : option jstring := du_refs s !! (vault, ref).
Definition put_ref (vault ref : jstring) (x : option jstring) (s : durable) : durable :=
  mk_durable (du_db s) (partial_alter (λ _, x) (vault, ref) (du_refs s)).

Section state.
Context (v : jstring).

Definition main_of (db : MetadataDb) : option jstring := v_current_main <$> find_row (has_vault_id v) (db_vaults db).

Definition being_removed (db : MetadataDb) (deviceId : jstring) : bool :=
  existsb (λ job, rj_device_id job =s? deviceId) (db_device_removal_jobs db).

(** The devices of the vault: identifier, reference and head. *)
Definition device_at (db : MetadataDb) (id ref : jstring) (head : option jstring) : Prop :=
  ∃ d, d ∈ db_devices db ∧ d_vault_id d = v ∧ d_device_id d = id ∧ d_device_ref d = ref ∧ d_device_ref_head d = head.

Definition is_live (o : SyncOperationRow) : bool :=
  match op_status o with OpStarted | OpPrepared => true | _ => false end.
Definition live (db : MetadataDb) (o : SyncOperationRow) : Prop :=
  o ∈ db_sync_operations db ∧ op_vault_id o = v ∧ is_live o = true.

(** The references that protect the open conflicts, with their commits. *)
Definition protected_by (c : ConflictRecord) : list (jstring * jstring) :=
  map (λ '(kind, commit), (conflictRef (cf_conflict_id c) kind, commit)) (conflictProtectedRefs c).
Definition is_open (c : ConflictRecord) : bool := (cf_vault_id c =s? v) && bool_decide (cf_status c = CfOpen).
Definition protected_refs (db : MetadataDb) : list (jstring * jstring) :=
  flat_map protected_by (List.filter is_open (db_conflicts db)).

(** Identifiers are unique, a device's reference is named after it, and an operation
    names a device of its vault. *)
Record well_formed (db : MetadataDb) : Prop := {
  operation_ids : NoDup (map op_operation_id (db_sync_operations db));
  device_ids : NoDup (map d_device_id (db_devices db));
  device_ref_names d : d ∈ db_devices db → d_device_ref d = DEVICE_REFS ++ d_device_id d;
  operation_devices o d : o ∈ db_sync_operations db → d ∈ db_devices db →
    op_device_id o = Some (d_device_id d) → op_vault_id o = d_vault_id d
}.

(** Every reference is where the metadata says; those of a conflict may be missing. *)
Record agrees (s : durable) : Prop := {
  agrees_main : is_Some (main_of (du_db s)) ∧ ref_at s v MAIN_REF = main_of (du_db s);
  agrees_heads id ref head : device_at (du_db s) id ref head → being_removed (du_db s) id = false → ref_at s v ref = head;
  agrees_conflicts p : p ∈ protected_refs (du_db s) → ref_at s v p.1 = None ∨ ref_at s v p.1 = Some p.2
}.

(** What archiving completed operations leaves alone: everything but rows that are
    committed or aborted. *)
Record keeps (d : jstring) (s s' : durable) : Prop := {
  same_main : main_of (du_db s') = main_of (du_db s);
  same_live o : live (du_db s') o ↔ live (du_db s) o;
  same_protected : protected_refs (du_db s') = protected_refs (du_db s);
  same_refs r : ref_at s' v r = ref_at s v r;
  known_devices id ref head : device_at (du_db s') id ref head →
    device_at (du_db s) id ref head ∧ (being_removed (du_db s) id = true → being_removed (du_db s') id = true) ∨
    head = None ∧ ref_at s v ref = None;
  own_device ref head : device_at (du_db s) d ref head → device_at (du_db s') d ref head;
  still_well_formed : well_formed (du_db s) → well_formed (du_db s')
}.

(** What other methods leave alone while a request of device [d] holds the vault's lock:
    they may add devices, and remove other devices. *)
Record others (d : jstring) (s s' : durable) : Prop := {
  others_keep : keeps d s s';
  same_operations o : op_vault_id o = v → o ∈ db_sync_operations (du_db s') ↔ o ∈ db_sync_operations (du_db s)
}.

#[export] Instance keeps_preorder d : PreOrder (keeps d).
Proof.
  split.
  - intros s. split; auto.
  - intros s s' s'' [m l p r k o w] [m' l' p' r' k' o' w']. split; try congruence; auto.
    + intros x. by rewrite l', l.
    + intros id ref head H. rewrite <- r. destruct (k' _ _ _ H) as [[H' R]|?]; [|by right].
      destruct (k _ _ _ H') as [[H'' R']|?]; [left; split; auto|]. right. by rewrite r.
Qed.
#[export] Instance others_preorder d : PreOrder (others d).
Proof.
  split.
  - intros s. by split.
  - intros s s' s'' [k o] [k' o']. split; [by transitivity s'|]. intros x Hx. by rewrite o', o.
Qed.

(** ** What a call may do *)

(** Identifiers are new, references hold commits.  The store may fail before or after
    a transaction took effect, and so may an update of a reference, where the faults say. *)
Class Faults := {
  store_may_fail : durable → Prop;
  update_may_fail_late : jstring → Prop
}.

Definition fresh (w : World) (db : MetadataDb) : Prop :=
  ∀ i, new_id w i "op" ∉ map op_operation_id (db_sync_operations db).

Definition failed {A} (r : result A) : Prop := ∃ e, r = Throw e.

Context `{F : Faults} (d : jstring).

Definition call_step (B : Type) (c : call B) (s : durable) : result B → durable → Prop :=
  match c in call B return result B → durable → Prop with
  | Snapshot => λ r s', s' = s ∧ (r = Ok (du_db s) ∨ failed r ∧ store_may_fail s)
  | Mutate fn => λ r s', ∃ w, fresh w (du_db s) ∧
      match run w (fn w) (du_db s) with
      | (Ok a, db) => r = Ok a ∧ s' = with_db db s ∨
                      failed r ∧ store_may_fail s ∧ (s' = s ∨ s' = with_db db s)
      | (Throw e, _) => r = Throw e ∧ s' = s
      end
  | GetRef vault ref => λ r s', s' = s ∧ (r = Ok (ref_at s vault ref) ∨ failed r)
  | UpdateRef vault ref target expected => λ r s',
      failed r ∧ s' = s ∨
      ref_at s vault ref = expected ∧ is_oid target = true ∧ s' = put_ref vault ref (Some target) s ∧
        (r = Ok () ∨ failed r ∧ update_may_fail_late ref)
  | Git q => λ r s', s' = s
  | Archive q => λ r s', s' = s
  | ArchiveCompletedHistory vault => λ r s', keeps d s s'
  | FreshConflictId vault => λ r s', s' = s ∧
      (∀ id, r = Ok id → ∀ kind, ref_at s vault (conflictRef id kind) = None ∧
         ∀ commit, (conflictRef id kind, commit) ∉ protected_refs (du_db s))
  end.

End state.
