(* ===== verification/Startup.v ===== *)
(** * Reconciling interrupted operations (src/server/app.ts)

    When the server starts, operations may have been interrupted. The ones that were
    not prepared are aborted; of the prepared ones, those whose references have moved
    are rolled forward, those whose references have not are aborted, and the vault of
    any other is blocked. Then the references that protect conflicts are restored and
    every vault is compared with its repository. *)

From S2P Require Export VaultState ClientJournals.
From S2P Require Frontmatter.

Local Open Scope Z_scope.

Section startup.
Context `{Nm : Numerals} `{Sh : Sha256}.

(** ** What an operation was about to do *)

Definition stringValue (value : jsval) : option jstring := as_string value.
Definition stringArrayValue (value : jsval) : option (list jstring) :=
  match value with JArr l => mapM as_string l | _ => None end.

Definition add_target (refs : jmap jstring) (ref : jstring) (target : option jstring) : jmap jstring :=
  match target with
  | Some target => if is_oid target then mset refs ref target else refs
  | None => refs
  end.
Definition addTargetRefs (refs : jmap jstring) (targetRefs : list (jstring * option jstring)) : jmap jstring :=
  fold_left (λ refs '(ref, target), add_target refs ref target) targetRefs refs.

Definition moves_main (t : OperationType) : bool :=
  match t with OpServerMerge | OpConflictResolve | OpNoteRestore => true | _ => false end.

Definition index_text (i : nat) : jstring := default [] (json_text (jint (Z.of_nat i))).

Definition recoverableTargetRefs (operation : SyncOperationRow) : jmap jstring :=
  let refs := addTargetRefs [] (op_target_refs operation) in
  let refs := match manifest_field operation "target_refs" with
    | JObj targets => addTargetRefs refs (map (λ '(ref, target), (ref, as_string target)) targets)
    | JArr targets => addTargetRefs refs (imap (λ i target, (index_text i, as_string target)) targets)
    | _ => refs
    end in
  match op_target_commit operation with
  | Some target => if moves_main (op_operation_type operation) && is_oid target && is_none (mget refs MAIN_REF)
                   then mset refs MAIN_REF target else refs
  | None => refs
  end.

(** [operation.expected_refs[ref]]: [None] when the property is absent. *)
Definition expected_ref (operation : SyncOperationRow) (ref : jstring) : option (option jstring) := mget (op_expected_refs operation) ref.

(** ** Stored values *)

Definition stored_op (v : jsval) : option DirOp :=
  if is_lit v "create" then Some DirCreate else if is_lit v "delete" then Some DirDelete else None.
Definition stored_int (v : jsval) : option Z := match v with JNum (NInt z) => Some z | _ => None end.
Definition stored_commit (v : jsval) : option (option jstring) :=
  match v with JStr s => Some (Some s) | JNull => Some None | _ => None end.
Definition stored_bool (v : jsval) : option bool := match v with JBool b => Some b | _ => None end.

Definition stored_intent (v : jsval) : option DirectoryProposalIntent :=
  op ← stored_op (jget v "op");
  path ← as_string (jget v "path");
  id ← as_string (jget v "intent_id");
  generation ← stored_int (jget v "generation");
  baseMain ← stored_commit (jget v "base_main");
  baseSeq ← stored_int (jget v "base_event_seq");
  replaces ← stored_commit (jget v "replaces_intent_id");
  recreated ← stored_bool (jget v "recreated_after_delete");
  created ← stored_commit (jget v "created_at");
  Some (mk_DirectoryProposalIntent op path id generation
          (if is_lit (jget v "provenance") "legacy" then PvLegacy else PvLocalV2) baseMain baseSeq replaces recreated created).

(** [storedDirectoryProposal]: the code trusts what the server itself has stored; a
    proposal whose intents are not of the stored form is none here. *)
Definition storedDirectoryProposal (v : jsval) : option DirectoryProposal :=
  match v with
  | JObj r =>
      if negb (is_int (rget r "schema_version") 2) then None else
      id ← as_string (rget r "proposal_id");
      items ← as_array (rget r "intents");
      intents ← mapM stored_intent items;
      baseMain ← stored_commit (rget r "base_main");
      baseSeq ← stored_int (rget r "base_event_seq");
      Some (mk_DirectoryProposal id baseMain baseSeq intents)
  | _ => None
  end.

Definition strings_in (v : jsval) : option (list jstring) := match v with JArr l => Some (omap as_string l) | _ => None end.

Definition recoveredDirectoryPlan (v : jsval) : option DirectoryMergePlan :=
  r ← as_record v;
  proposal ← storedDirectoryProposal (rget r "proposal");
  hash ← as_string (rget r "request_sha256");
  base ← strings_in (rget r "base_explicit_dirs");
  server ← strings_in (rget r "server_explicit_dirs");
  clean ← strings_in (rget r "clean_intent_ids");
  conflicting ← strings_in (rget r "conflicting_intent_ids");
  roots ← strings_in (rget r "affected_roots");
  seq ← stored_int (rget r "expected_event_seq");
  if MAX_SAFE_INTEGER <? Z.abs seq then None else
  Some (mk_plan proposal hash base server
          (List.filter (λ i, jmem (pi_intent_id i) clean) (dp_intents proposal))
          (List.filter (λ i, jmem (pi_intent_id i) conflicting) (dp_intents proposal)) roots seq).

Definition stored_directory_intent (v : jsval) : option DirectoryIntent :=
  op ← stored_op (jget v "op"); path ← as_string (jget v "path"); Some (mk_intent op path).
Definition storedDirectoryIntents (v : jsval) : list DirectoryIntent :=
  match v with JArr l => omap stored_directory_intent l | _ => [] end.

Definition recoveredDirectoryEventPayload (operation : SyncOperationRow) : record :=
  match recoveredDirectoryPlan (manifest_field operation "directory_plan"), op_device_id operation with
  | Some plan, Some ((_ :: _) as deviceId) => directoryEventPayload (Some plan) deviceId
  | _, deviceId =>
      match storedDirectoryProposal (manifest_field operation "directory_proposal"), deviceId with
      | Some proposal, Some ((_ :: _) as deviceId) =>
          [(lit "directory_intents", JArr (map encode_intent (storedDirectoryIntents (manifest_field operation "resolved_directory_intents"))));
           (lit "directory_proposal_id", JStr (dp_proposal_id proposal));
           (lit "directory_acknowledgements", event_acknowledgements proposal deviceId)]
      | _, _ => []
      end
  end.

Definition commitRecoveredDirectoryState (w : World) (i : nat) (db : MetadataDb) (operation : SyncOperationRow) (eventSeq : Z) : MetadataDb :=
  match recoveredDirectoryPlan (manifest_field operation "directory_plan"), op_device_id operation, op_target_commit operation with
  | Some plan, Some ((_ :: _) as deviceId), Some ((_ :: _) as target) =>
      commitDirectoryPlan w i db (op_vault_id operation) deviceId target (Some plan) eventSeq
  | _, _, _ =>
      match storedDirectoryProposal (manifest_field operation "directory_proposal") with
      | None => db
      | Some _ =>
          let db := applyDirectoryIntents w i db (op_vault_id operation)
                      (storedDirectoryIntents (manifest_field operation "resolved_directory_intents")) eventSeq in
          match manifest_field operation "conflict_id" with
          | JStr ((_ :: _) as conflictId) =>
              match find_row (λ c, cf_conflict_id c =s? conflictId) (db_conflicts db) with
              | Some conflict => resolveDirectoryProposalResult w (i + 5) db conflict eventSeq
              | None => db
              end
          | _ => db
          end
      end
  end.

(** ** Transactions *)

Definition find_operation (db : MetadataDb) (id : jstring) : option SyncOperationRow :=
  find_row (has_operation_id id) (db_sync_operations db).
Definition find_vault (db : MetadataDb) (id : jstring) : option VaultRow := find_row (has_vault_id id) (db_vaults db).
Definition find_device (db : MetadataDb) (id : option jstring) : option DeviceRow :=
  id ← id; find_row (has_device_id id) (db_devices db).
Definition find_conflict (db : MetadataDb) (vaultId conflictId : jstring) : option ConflictRecord :=
  find_row (has_conflict_id vaultId conflictId) (db_conflicts db).

Definition abort_startup_tx (operationId reason : jstring) : transaction unit := λ w db,
  Ok ((), match find_operation db operationId with
          | Some operation => abort_unless_committed (nowIso w 0) reason operation db
          | None => db
          end).

Definition block_vault (w : World) (i : nat) (vaultId : jstring) (db : MetadataDb) : MetadataDb :=
  update_vault vaultId (λ v, set_v_updated_at (nowIso w i) (set_v_status VBlockedIntegrity v)) db.

Definition note_reason (now reason : jstring) : SyncOperationRow → SyncOperationRow :=
  λ o, set_op_updated_at now (set_op_result (reason_of reason) o).

Definition block_integrity_tx (operation : SyncOperationRow) (reason : jstring) : transaction unit := λ w db,
  let id := op_operation_id operation in
  let db := match find_operation db id with
    | Some latest => if bool_decide (op_status latest = OpCommitted) then db else update_operation id (note_reason (nowIso w 0) reason) db
    | None => db
    end in
  Ok ((), block_vault w 1 (op_vault_id operation) db).

(** The prepared operation cannot be reconciled with the metadata. *)
Definition reconciliation_failed (w : World) (operation : SyncOperationRow) (reason : string) (db : MetadataDb) : MetadataDb :=
  block_vault w 1 (op_vault_id operation) (update_operation (op_operation_id operation) (note_reason (nowIso w 0) (lit reason)) db).

Definition finish_operation (now : jstring) (result : record) : SyncOperationRow → SyncOperationRow :=
  λ o, set_op_updated_at now (set_op_result (Some result) (set_op_status OpCommitted o)).

Definition settle (w : World) (i : nat) (operation : SyncOperationRow) (result : record) (db : MetadataDb) : MetadataDb :=
  update_operation (op_operation_id operation) (finish_operation (nowIso w i) result) db.

Definition reconciled : record := [(lit "reconciled_after_startup", JBool true)].

Definition move_main (now main : jstring) (v : VaultRow) : VaultRow := set_v_updated_at now (set_v_current_main main v).

Definition nonempty (s : jstring) : bool := negb (s =s? []).

(** The members of [target_refs] and [expected_refs] for main, compared with a commit. *)
Definition points_at (refs : list (jstring * option jstring)) (ref commit : jstring) : bool :=
  match mget refs ref with Some (Some c) => c =s? commit | _ => false end.
Definition prepared_for (operation : SyncOperationRow) (previous target : jstring) : bool :=
  points_at (op_expected_refs operation) MAIN_REF previous && points_at (op_target_refs operation) MAIN_REF target
  && oeqb (op_target_commit operation) (Some target).

(** [commitPreparedNameRepair], shared with the service. *)
Definition repair_intents (v : jsval) : option (list DirectoryIntent) :=
  match v with JArr l => mapM stored_directory_intent l | _ => None end.

Definition commitPreparedNameRepair (w : World) (db : MetadataDb) (operation : SyncOperationRow) : option MetadataDb :=
  vault ← find_vault db (op_vault_id operation);
  previous ← stringValue (manifest_field operation "previous_main");
  target ← stringValue (manifest_field operation "target_main");
  actor ← stringValue (manifest_field operation "actor_user_id");
  intents ← repair_intents (manifest_field operation "directory_intents");
  if bool_decide (op_operation_type operation = OpNameRepair) && bool_decide (op_status operation = OpPrepared)
     && nonempty previous && nonempty target && nonempty actor && (v_current_main vault =s? previous) && prepared_for operation previous target
  then
    let db := update_vault (op_vault_id operation) (move_main (nowIso w 0) target) db in
    let '(event, db) := appendEvent w 1 db EvMainAdvanced (op_vault_id operation) []
      [(lit "previous_main", Some previous); (lit "main", Some target)]
      [(lit "name_repair", JBool true); (lit "directory_intents", JArr (map encode_intent intents))] in
    let db := applyDirectoryIntents w 5 db (op_vault_id operation) intents (e_event_seq event) in
    let db := audit w 10 (Some actor) None (op_vault_id operation) "vault_name_repair_applied" "vault" (Some (op_vault_id operation)) db in
    Some (settle w 12 operation [(lit "target_main", JStr target); (lit "event_seq", jint (e_event_seq event))] db)
  else None.

Definition roll_forward_name_repair (w : World) (operation : SyncOperationRow) (db : MetadataDb) : MetadataDb :=
  match commitPreparedNameRepair w db operation with
  | Some db => update_operation (op_operation_id operation) (λ o, set_op_result (Some (spread (op_result o) reconciled)) o) db
  | None => reconciliation_failed w operation "name_repair_reconciliation_failed" db
  end.

(** A rule as it is stored: its field and the only strategy. *)
Definition rule_of (field : jstring) : jsval := JObj [(lit "field", JStr field); (lit "strategy", JStr (lit "latest_timestamp"))].

(** [saveVaultSyncSettings] after its reference moved. *)
Definition roll_forward_settings (w : World) (operation : SyncOperationRow) (db : MetadataDb) : MetadataDb :=
  let id := op_vault_id operation in
  let field := manifest_field operation in
  match find_vault db id, stringValue (field "previous_main"), stringValue (field "target_main"), stringValue (field "actor_user_id"),
        stringArrayValue (field "removed_directories"), Frontmatter.validateMetadataConflictRules (field "metadata_conflict_rules") with
  | Some vault, Some previous, Some target, Some actor, Some removed, Ok rules =>
      if nonempty previous && nonempty target && nonempty actor && (v_current_main vault =s? previous) && prepared_for operation previous target
      then
        let rules := map rule_of rules in
        let db := update_vault id (λ v, set_v_updated_at (nowIso w 0) (set_v_metadata_conflict_rules (Some rules) (set_v_current_main target v))) db in
        let '(event, db) := appendEvent w 1 db EvMainAdvanced id [] [(lit "previous_main", Some previous); (lit "main", Some target)]
          [(lit "settings_updated", JBool true); (lit "root_ignore_oid", nullish_or (field "target_root_ignore_oid") JNull);
           (lit "directory_intents", JArr (map (λ path, encode_intent (mk_intent DirDelete path)) removed))] in
        let state := default (mk_DirectoryStateRow [] (nowIso w 5) 0) (mget (db_directory_state_by_vault db) id) in
        let db := set_db_directory_state_by_vault (mset (db_directory_state_by_vault db) id
          (mk_DirectoryStateRow (List.filter (λ path, negb (jmem path removed)) (ds_explicit_dirs state)) (nowIso w 6) (e_event_seq event))) db in
        let db := audit w 7 (Some actor) None id "vault_sync_settings_updated" "vault" (Some id) db in
        settle w 9 operation ([(lit "target_main", JStr target); (lit "event_seq", jint (e_event_seq event))] ++ reconciled) db
      else reconciliation_failed w operation "vault_settings_reconciliation_failed" db
  | _, _, _, _, _, _ => reconciliation_failed w operation "vault_settings_reconciliation_failed" db
  end.

(** ** Rolling forward a refresh of a conflict's review *)

Definition stored_context (v : jsval) : option DirectoryConflictContext :=
  r ← as_record v;
  proposal ← storedDirectoryProposal (rget r "proposal");
  base ← strings_in (rget r "base_explicit_dirs");
  server ← strings_in (rget r "server_explicit_dirs");
  clean ← strings_in (rget r "clean_intent_ids");
  conflicting ← strings_in (rget r "conflicting_intent_ids");
  roots ← strings_in (rget r "affected_roots");
  seq ← stored_int (rget r "expected_event_seq");
  Some (mk_DirectoryConflictContext proposal base server clean conflicting roots seq).

(** [refreshed_directory_context] of a manifest: none, or one of the stored form. *)
Definition refreshed_context (v : jsval) : option (option DirectoryConflictContext) :=
  match v with JNull => Some None | JObj _ => Some <$> stored_context v | _ => None end.

Definition refresh_matches (operation : SyncOperationRow) (conflict : ConflictRecord) (previous refreshed : jstring) : bool :=
  let ref := conflictRef (cf_conflict_id conflict) "current" in
  bool_decide (cf_status conflict = CfOpen) && points_at (op_target_refs operation) ref refreshed
  && oeqb (op_target_commit operation) (Some refreshed) && oeqb (op_device_id operation) (Some (cf_device_id conflict))
  && (length (op_expected_refs operation) =? 1)%nat && points_at (op_expected_refs operation) ref previous
  && match recoverableTargetRefs operation with [(ref', commit)] => (ref' =s? ref) && (commit =s? refreshed) | _ => false end
  && (cf_current_main conflict =s? previous) && (cf_expected_main conflict =s? previous).

Definition refresh_conflict (now previous refreshed : jstring) (paths : list jstring) (context : option DirectoryConflictContext)
    (c : ConflictRecord) : ConflictRecord :=
  let count := Z.of_nat (length paths) in
  let c := set_cf_affected_path_count count (set_cf_affected_paths paths
             (set_cf_expected_main refreshed (set_cf_current_main refreshed c))) in
  let c := match context with Some _ => set_cf_directory_context context c | None => c end in
  set_cf_validator_summary (spread (Some (cf_validator_summary c))
      [(lit "stale", JBool false); (lit "refreshed_from", JStr previous); (lit "path_count", jint count)])
    (set_cf_validator_results (spread (Some (cf_validator_results c))
      [(lit "review_refreshed_from", JStr previous); (lit "review_refreshed_at", JStr now);
       (lit "affected_paths", text_list paths); (lit "affected_path_count", jint count)]) c).

Definition roll_forward_refresh (w : World) (operation : SyncOperationRow) (db : MetadataDb) : MetadataDb :=
  let id := op_vault_id operation in
  let field := manifest_field operation in
  let failed := reconciliation_failed w operation "conflict_refresh_reconciliation_failed" db in
  match stringValue (field "conflict_id"), stringValue (field "previous_main"), stringValue (field "refreshed_main"),
        stringValue (field "actor_user_id"), stringArrayValue (field "affected_paths"), refreshed_context (field "refreshed_directory_context") with
  | Some conflictId, Some previous, Some refreshed, Some actor, Some paths, Some context =>
      match find_vault db id, find_conflict db id conflictId with
      | Some _, Some conflict =>
          if nonempty conflictId && refresh_matches operation conflict previous refreshed then
            let db := update_conflict id conflictId (refresh_conflict (nowIso w 0) previous refreshed paths context) db in
            let db := settle w 0 operation ([(lit "decision", JStr (lit "refreshed")); (lit "conflict_id", JStr conflictId);
              (lit "previous_main", JStr previous); (lit "refreshed_main", JStr refreshed)] ++ reconciled) db in
            let '(_, db) := appendEvent w 1 db EvConflictReviewRefreshed id
              [(lit "conflict_id", conflictId); (lit "device_id", cf_device_id conflict)]
              [(lit "previous_main", Some previous); (lit "main", Some refreshed); (lit "device_commit", Some (cf_device_commit conflict))]
              ((lit "conflict_id", JStr conflictId) :: reconciled) in
            push_audit w 5 (Some actor) None (Some id) (lit "conflict_review_refreshed") (lit "conflict") (Some conflictId) (nowIso w 0) db
          else failed
      | _, _ => failed
      end
  | _, _, _, _, _, _ => failed
  end.

(** ** Rolling forward a push *)

Definition target_device_ref (operation : SyncOperationRow) : option (jstring * option jstring) :=
  find_row (λ rt, starts_with DEVICE_REFS rt.1 && negb (is_none rt.2)) (op_target_refs operation).

Definition roll_forward_push (w : World) (operation : SyncOperationRow) (db : MetadataDb) : MetadataDb :=
  match target_device_ref operation, find_device db (op_device_id operation) with
  | Some (_, Some target), Some device =>
      let id := d_device_id device in
      let db := update_device id (λ d, set_d_last_seen_at (Some (nowIso w 0)) (set_d_status DAhead (set_d_device_ref_head (Some target) d))) db in
      let db := settle w 1 operation ([(lit "device_ref", JStr target)] ++ reconciled) db in
      (appendEvent w 2 db EvDeviceRefUpdated (op_vault_id operation) [(lit "device_id", id)]
         [(lit "device_ref", Some target); (lit "main", v_current_main <$> find_vault db (op_vault_id operation))]
         ((lit "device_id", JStr id) :: reconciled)).2
  | _, _ => reconciliation_failed w operation "device_push_reconciliation_failed" db
  end.

(** ** Rolling forward main *)

Definition resolution_kinds : list (jstring * ConflictResolutionKind) :=
  [(lit "keep_server", RkKeepServer); (lit "use_device", RkUseDevice); (lit "keep_both_files", RkKeepBothFiles);
   (lit "insert_both_blocks", RkInsertBothBlocks); (lit "manual", RkManual); (lit "per_file", RkPerFile)].
Definition stored_kind (v : jsval) : option (jstring * ConflictResolutionKind) :=
  text ← as_string v; kind ← mget resolution_kinds text; Some (text, kind).

Definition redactedPathId (path : jstring) : jstring := lit "path_" ++ take 16 (sha256 path).
Definition redacted (v : jsval) : jsval := match v with JStr path => JStr (redactedPathId path) | _ => JNull end.

(** What a resolution still needs: the conflict, the actor and the kind. *)
Definition recovered_resolution (db : MetadataDb) (operation : SyncOperationRow)
    : option (ConflictRecord * jstring * (jstring * ConflictResolutionKind)) :=
  conflictId ← stringValue (manifest_field operation "conflict_id");
  actor ← stringValue (manifest_field operation "actor_user_id");
  kind ← stored_kind (manifest_field operation "resolution_kind");
  conflict ← find_conflict db (op_vault_id operation) conflictId;
  if nonempty conflictId && nonempty actor then Some (conflict, actor, kind) else None.

Definition resolve_recovered (now main actor : jstring) (kind : ConflictResolutionKind) (hash : option jstring) (c : ConflictRecord) : ConflictRecord :=
  let c := set_cf_resolution_commit (Some main) (set_cf_resolution_kind (Some kind)
             (set_cf_resolved_by_user_id (Some actor) (set_cf_resolved_at (Some now) (set_cf_status CfResolved c)))) in
  match hash with Some hash => set_cf_resolution_request_hash (Some hash) c | None => c end.

Definition decision_text (t : OperationType) : string :=
  match t with OpConflictResolve => "resolved" | OpNoteRestore => "note_restored" | _ => "merged" end.

Definition merge_evidence (operation : SyncOperationRow) : record :=
  if bool_decide (op_operation_type operation = OpServerMerge) then
    [(lit "validator_results", nullish_or (manifest_field operation "validator_results") JNull);
     (lit "metadata_conflict_rules", nullish_or (manifest_field operation "metadata_conflict_rules") JNull);
     (lit "metadata_conflict_rules_sha256", nullish_or (manifest_field operation "metadata_conflict_rules_sha256") JNull)]
  else [].

Definition main_result (operation : SyncOperationRow) (main : jstring) (resolution : option (ConflictRecord * jstring * (jstring * ConflictResolutionKind))) : record :=
  [(lit "decision", JStr (lit (decision_text (op_operation_type operation))))]
  ++ match op_operation_type operation, resolution with
     | OpConflictResolve, Some (conflict, _, (kind, _)) =>
         [(lit "conflict_id", JStr (cf_conflict_id conflict)); (lit "resolution_kind", JStr kind); (lit "resolution_commit", JStr main)]
     | OpNoteRestore, _ =>
         [(lit "restore_commit", JStr main); (lit "source_commit", text_or_null (stringValue (manifest_field operation "source_commit")));
          (lit "path_id", redacted (manifest_field operation "path"))]
     | _, _ => [(lit "merge_commit", JStr main)]
     end
  ++ merge_evidence operation ++ reconciled.

(** The events and the audit record that a resolution or a restored note adds. *)
Definition resolution_events (w : World) (operation : SyncOperationRow) (device : option DeviceRow) (previous : option jstring) (main : jstring)
    (r : ConflictRecord * jstring * (jstring * ConflictResolutionKind)) (db : MetadataDb) : MetadataDb :=
  let '(conflict, actor, (kind, _)) := r in
  let db := (appendEvent w 30 db EvConflictResolved (op_vault_id operation)
    ((lit "conflict_id", cf_conflict_id conflict) :: match device with Some d => [(lit "device_id", d_device_id d)] | None => [] end)
    [(lit "main", Some main); (lit "previous_main", previous); (lit "device_commit", stringValue (manifest_field operation "device_commit"))]
    ([(lit "resolution_kind", JStr kind)]
     ++ match cf_directory_context conflict with
        | Some context => [(lit "directory_proposal_id", JStr (dp_proposal_id (dc_proposal context)))]
        | None => []
        end ++ reconciled)).2 in
  push_audit w 35 (Some actor) None (Some (op_vault_id operation)) (lit "conflict_resolved") (lit "conflict")
    (Some (cf_conflict_id conflict)) (nowIso w 1) db.

Definition restore_events (w : World) (operation : SyncOperationRow) (previous : option jstring) (main : jstring) (db : MetadataDb) : MetadataDb :=
  let id := op_vault_id operation in
  let db := (appendEvent w 40 db EvNoteRestored id [(lit "vault_id", id)]
    [(lit "previous_main", previous); (lit "main", Some main); (lit "source_commit", stringValue (manifest_field operation "source_commit"))]
    ((lit "path_id", redacted (manifest_field operation "path")) :: reconciled)).2 in
  audit w 45 (stringValue (manifest_field operation "actor_user_id")) None id "note_restored" "note" None db.

Definition main_payload (operation : SyncOperationRow) (resolution : option (ConflictRecord * jstring * (jstring * ConflictResolutionKind))) : record :=
  [(lit "decision", JStr (lit (decision_text (op_operation_type operation))));
   (lit "merge_sequence", nullish_or (manifest_field operation "merge_sequence") JNull);
   (lit "merge_policy_version", nullish_or (manifest_field operation "merge_policy_version") JNull)]
  ++ merge_evidence operation
  ++ match resolution with
     | Some (conflict, _, (kind, _)) => [(lit "conflict_id", JStr (cf_conflict_id conflict)); (lit "resolution_kind", JStr kind)]
     | None => []
     end
  ++ reconciled ++ recoveredDirectoryEventPayload operation.

Definition settle_device (now : jstring) (t : OperationType) (d : DeviceRow) : DeviceRow :=
  if bool_decide (d_status d = DRevoked) then d else
  let d := set_d_status DSynced d in
  if bool_decide (t = OpConflictResolve) then set_d_last_successful_sync_at (Some now) d else d.

(** [resolution] is given for a resolution only. *)
Definition advance_main (w : World) (operation : SyncOperationRow) (main : jstring)
    (resolution : option (ConflictRecord * jstring * (jstring * ConflictResolutionKind))) (db : MetadataDb) : MetadataDb :=
  let vaultId := op_vault_id operation in
  let previous := default None (expected_ref operation MAIN_REF) in
  let device := find_device db (op_device_id operation) in
  let now := nowIso w 1 in
  let db := update_vault vaultId (move_main now main) db in
  let db := match device with
    | Some d => update_device (d_device_id d) (settle_device now (op_operation_type operation)) db | None => db
    end in
  let db := match resolution with
    | Some (conflict, actor, (_, kind)) =>
        update_conflict vaultId (cf_conflict_id conflict)
          (resolve_recovered now main actor kind (stringValue (manifest_field operation "resolution_request_hash"))) db
    | None => db
    end in
  let db := update_operation (op_operation_id operation)
    (λ o, finish_operation (nowIso w 2) (main_result operation main resolution) (set_op_target_commit (Some main) o)) db in
  let '(event, db) := appendEvent w 3 db EvMainAdvanced vaultId
    (match device with Some d => [(lit "device_id", d_device_id d)] | None => [] end
     ++ match stringValue (manifest_field operation "conflict_id") with
        | Some ((_ :: _) as conflictId) => [(lit "conflict_id", conflictId)] | _ => []
        end)
    [(lit "previous_main", previous); (lit "main", Some main); (lit "device_commit", stringValue (manifest_field operation "device_commit"))]
    (main_payload operation resolution) in
  let db := commitRecoveredDirectoryState w 10 db (set_op_target_commit (Some main) operation) (e_event_seq event) in
  match op_operation_type operation, resolution with
  | OpConflictResolve, Some r => resolution_events w operation device previous main r db
  | OpNoteRestore, _ => restore_events w operation previous main db
  | _, _ => db
  end.

Definition roll_forward_main (w : World) (operation : SyncOperationRow) (db : MetadataDb) : MetadataDb :=
  match find_vault db (op_vault_id operation), mget (op_target_refs operation) MAIN_REF with
  | Some _, Some (Some main) =>
      if bool_decide (op_operation_type operation = OpConflictResolve) then
        match recovered_resolution db operation, find_device db (op_device_id operation) with
        | Some resolution, Some _ => advance_main w operation main (Some resolution) db
        | _, _ => reconciliation_failed w operation "conflict_resolution_reconciliation_failed" db
        end
      else advance_main w operation main None db
  | _, _ => reconciliation_failed w operation "server_merge_reconciliation_failed" db
  end.

(** ** [rollForwardPreparedOperation] *)

Definition roll_forward_tx (operationId : jstring) : transaction unit := λ w db,
  Ok ((), match find_operation db operationId with
          | Some operation =>
              if negb (bool_decide (op_status operation = OpPrepared)) then db else
              match op_operation_type operation with
              | OpNameRepair => roll_forward_name_repair w operation db
              | OpVaultSettings => roll_forward_settings w operation db
              | OpConflictRefresh => roll_forward_refresh w operation db
              | OpDevicePush => roll_forward_push w operation db
              | OpServerMerge | OpConflictResolve | OpNoteRestore => roll_forward_main w operation db
              | OpConflictCreate | OpGitMaintenance =>
                  update_operation operationId (λ o, note_reason (nowIso w 0)
                    (lit "startup_prepared_operation_without_ref_mutation") (set_op_status OpAborted o)) db
              end
          | None => db
          end).

(** The rules a merge was prepared with are intact. *)
Definition merge_evidence_ok (operation : SyncOperationRow) : bool :=
  if negb (has_own (default [] (op_prepared_manifest operation)) "metadata_conflict_rules") then true else
  match Frontmatter.validateMetadataConflictRules (manifest_field operation "metadata_conflict_rules") with
  | Ok rules =>
      let text := json_text (JArr (map rule_of rules)) in
      is_lit (manifest_field operation "metadata_conflict_rules_sha256") (sha256 (default [] text))
      && is_record (manifest_field operation "validator_results")
  | Throw _ => false
  end.

(** A name repair made the tree it decided on, and kept the root ignore file. *)
Definition repair_evidence_ok (operation : SyncOperationRow) : sync bool :=
  let vaultId := op_vault_id operation in
  match manifest_field operation "target_main", manifest_field operation "previous_main", manifest_field operation "target_tree" with
  | JStr ((_ :: _) as target), JStr ((_ :: _) as previous), JStr tree =>
      found ← git (TreeHash vaultId target);
      if negb (found =s? tree) then mret false else
      proposed ← git (ValidateTreeRootIgnorePolicy FromRepository vaultId target);
      canonical ← git (RootIgnoreOid FromRepository vaultId previous);
      mret (oeqb proposed canonical)
  | _, _, _ => mret false
  end.

Definition settings_evidence_ok (operation : SyncOperationRow) : sync bool :=
  match manifest_field operation "target_main", stored_commit (manifest_field operation "target_root_ignore_oid") with
  | JStr ((_ :: _) as target), Some expected =>
      found ← git (ValidateTreeRootIgnorePolicy FromRepository (op_vault_id operation) target);
      mret (oeqb found expected)
  | _, _ => mret false
  end.

Definition blockVaultIntegrity (operation : SyncOperationRow) (reason : string) : sync unit :=
  mutate (block_integrity_tx operation (lit reason)).

(** [try { if (!ok) throw } catch { block; return }]. *)
Definition verified (check : sync bool) (operation : SyncOperationRow) (reason : string) (next : sync unit) : sync unit :=
  after check (λ r, match r with Ok true => next | _ => blockVaultIntegrity operation reason end).

Definition rollForwardPreparedOperation (operationId : jstring) : sync unit :=
  db ← snapshot;
  let forward := mutate (roll_forward_tx operationId) in
  match find_operation db operationId with
  | None => forward
  | Some pending =>
      match op_operation_type pending with
      | OpServerMerge =>
          if merge_evidence_ok pending then forward else blockVaultIntegrity pending "prepared merge evidence cannot be verified"
      | OpNameRepair => verified (repair_evidence_ok pending) pending "prepared name repair cannot be verified" forward
      | OpVaultSettings => verified (settings_evidence_ok pending) pending "prepared vault settings root policy cannot be verified" forward
      | _ => forward
      end
  end.

(** ** [reconcileStartupOperations] *)

(** [for (const x of l) await f(x)]. *)
Fixpoint for_each {A} (l : list A) (f : A → sync unit) : sync unit :=
  match l with [] => mret () | x :: l => _ ← f x; for_each l f end.

Fixpoint expectedRefsStillCurrent (vaultId : jstring) (expected : list (jstring * option jstring)) : sync bool :=
  match expected with
  | [] => mret true
  | (ref, e) :: expected =>
      actual ← getRef vaultId ref;
      if oeqb actual e then expectedRefsStillCurrent vaultId expected else mret false
  end.

Fixpoint read_refs (vaultId : jstring) (refs : list (jstring * jstring)) : sync (list (jstring * jstring * option jstring)) :=
  match refs with
  | [] => mret []
  | (ref, target) :: refs => actual ← getRef vaultId ref; rest ← read_refs vaultId refs; mret ((ref, target, actual) :: rest)
  end.

Definition abortStartupOperation (operationId : jstring) (reason : string) : sync unit :=
  mutate (abort_startup_tx operationId (lit reason)).

Definition reconcile_prepared (operation : SyncOperationRow) : sync unit :=
  let id := op_operation_id operation in
  match recoverableTargetRefs operation with
  | [] =>
      current ← expectedRefsStillCurrent (op_vault_id operation) (op_expected_refs operation);
      if current : bool then abortStartupOperation id "startup_prepared_ref_not_moved"
      else blockVaultIntegrity operation "prepared operation does not contain a recoverable target ref"
  | targets =>
      refs ← read_refs (op_vault_id operation) targets;
      if forallb (λ '(ref, target, actual), oeqb actual (Some target)) refs then rollForwardPreparedOperation id
      else if forallb (λ '(ref, target, actual), oeqb actual (default None (expected_ref operation ref))) refs
      then abortStartupOperation id "startup_prepared_ref_not_moved"
      else blockVaultIntegrity operation "prepared operation target refs cannot be reconciled"
  end.

Definition has_status (status : OperationStatus) (operation : SyncOperationRow) : bool := bool_decide (op_status operation = status).

Definition reconcileStartupOperations : sync unit :=
  db ← snapshot;
  _ ← for_each (List.filter (λ o, negb (hasDurableDeletionRecord db (op_vault_id o)) && has_status OpStarted o) (db_sync_operations db))
        (λ o, abortStartupOperation (op_operation_id o) "startup_unprepared_operation");
  latest ← snapshot;
  for_each (List.filter (λ o, has_status OpPrepared o && negb (hasDurableDeletionRecord latest (op_vault_id o))) (db_sync_operations latest))
    reconcile_prepared.

(** ** Protecting conflicts, and the integrity of a vault *)

(** [GitService.ensureRef]. *)
Definition ensureRef (vault ref target : jstring) : sync unit :=
  current ← getRef vault ref;
  match current with
  | Some c => if c =s? target then mret ()
              else throw (mk_error EGitCommand "" "Protected Git ref does not match persistent metadata." [])
  | None => updateRef vault ref target None
  end.

Definition block_present_tx (vaultId : jstring) : transaction unit := λ w db, Ok ((), block_vault w 0 vaultId db).
Definition block_active_tx (vaultId : jstring) : transaction unit := λ w db,
  Ok ((), match find_vault db vaultId with
          | Some vault => if bool_decide (v_status vault = VBlockedIntegrity) then db else block_vault w 0 vaultId db
          | None => db
          end).

Definition protect_conflict (conflict : ConflictRecord) : sync unit :=
  try_catch
    (for_each (conflictProtectedRefs conflict) (λ '(kind, commit),
       exists_ ← git (CommitExists FromRepository (cf_vault_id conflict) commit);
       if exists_ : bool then ensureRef (cf_vault_id conflict) (conflictRef (cf_conflict_id conflict) kind) commit
       else throw (mk_error EGitCommand "" "Conflict protection target is missing." [])))
    (λ _, mutate (block_present_tx (cf_vault_id conflict))).

Definition ensureProtectedConflictRefs (onlyVaultId : option jstring) : sync unit :=
  db ← snapshot;
  for_each (List.filter (λ c, bool_decide (cf_status c = CfOpen)
              && match onlyVaultId with Some id => cf_vault_id c =s? id | None => true end
              && negb (hasDurableDeletionRecord db (cf_vault_id c))) (db_conflicts db)) protect_conflict.

Fixpoint read_roots (vaults : list VaultRow) : sync (jmap jstring) :=
  match vaults with
  | [] => mret []
  | v :: vaults =>
      root ← git (RootCommit (v_vault_id v) (v_current_main v));
      roots ← read_roots vaults;
      mret ((v_vault_id v, root) :: roots)
  end.

Definition set_v_root_commit (x : option jstring) (r : VaultRow) : VaultRow :=
  mk_VaultRow (v_vault_id r) (v_owner_user_id r) (v_display_name r) (v_status r) x (v_current_main r)
    (v_metadata_conflict_rules r) (v_created_at r) (v_updated_at r).

Definition populate_tx (roots : jmap jstring) : transaction unit := λ w db,
  Ok ((), set_db_vaults (map (λ v, match mget roots (v_vault_id v) with
                                   | Some ((_ :: _) as root) => set_v_root_commit (Some root) v
                                   | _ => v
                                   end) (db_vaults db)) db).

Definition populateVaultRootCommits : sync unit :=
  db ← snapshot;
  roots ← read_roots (List.filter (λ v, negb (hasDurableDeletionRecord db (v_vault_id v)) && is_none (v_root_commit v)) (db_vaults db));
  match roots with [] => mret () | _ => mutate (populate_tx roots) end.

(** [None] when the vault is consistent. *)
Definition fails (message : string) : sync (option jstring) := mret (Some (lit message)).
Definition and_then (check next : sync (option jstring)) : sync (option jstring) :=
  r ← check; match r with Some error => mret (Some error) | None => next end.
Fixpoint check_each {A} (l : list A) (f : A → sync (option jstring)) : sync (option jstring) :=
  match l with [] => mret None | x :: l => and_then (f x) (check_each l f) end.
Definition needs (query : sync bool) (message : string) : sync (option jstring) :=
  ok ← query; if ok : bool then mret None else fails message.

Definition commit_known (vaultId commit : jstring) (message : string) : sync (option jstring) :=
  needs (git (CommitExists FromRepository vaultId commit)) message.

Definition check_device (db : MetadataDb) (vaultId : jstring) (device : DeviceRow) : sync (option jstring) :=
  deviceRef ← (if being_removed db (d_device_id device) then mret (d_device_ref_head device) else getRef vaultId (d_device_ref device));
  if negb (oeqb (d_device_ref_head device) deviceRef) then fails "device ref is inconsistent with metadata" else
  match d_last_applied_main device with
  | Some main => commit_known vaultId main "device applied main cursor is missing from the Git store"
  | None => mret None
  end.

Definition check_conflict (vaultId : jstring) (conflict : ConflictRecord) : sync (option jstring) :=
  and_then
    (check_each [cf_current_main conflict; cf_device_commit conflict; cf_base_commit conflict] (λ commit,
       if nonempty commit then commit_known vaultId commit "conflict commit is missing from the Git store" else mret None))
    (if bool_decide (cf_status conflict = CfOpen) then
       check_each (conflictProtectedRefs conflict) (λ '(kind, commit),
         actual ← getRef vaultId (conflictRef (cf_conflict_id conflict) kind);
         if oeqb actual (Some commit) then mret None
         else fails "unresolved conflict protection ref is inconsistent with metadata")
     else mret None).

Definition check_history (db : MetadataDb) (vaultId : jstring) (vault : VaultRow) : sync (option jstring) :=
  check_each (default [] (mget (db_derived_history_by_vault db) vaultId)) (λ index,
    if negb (hx_current_main index =s? v_current_main vault) then mret None else
    check_each (hx_versions index) (λ version,
      match rget version "commit" with
      | JStr commit => commit_known vaultId commit "derived note history points at a missing Git commit"
      | _ => fails "derived note history points at a missing Git commit"
      end)).

(** [checkVaultPersistentState] as it is called while nothing is in flight. *)
Definition checkVaultPersistentState (db : MetadataDb) (vaultId : jstring) : sync (option jstring) :=
  match find_vault db vaultId with
  | None => fails "vault metadata is missing"
  | Some vault =>
    if hasDurableDeletionRecord db vaultId then mret None else
    if bool_decide (v_status vault = VBlockedIntegrity) then fails "vault persistent state is blocked by an integrity failure" else
    and_then (needs (git (CheckRepositoryPermissions vaultId)) "repository permissions")
    (and_then (mainRef ← getRef vaultId MAIN_REF;
               if oeqb mainRef (Some (v_current_main vault)) then mret None else fails "vault main ref is inconsistent with metadata")
    (and_then (commit_known vaultId (v_current_main vault) "vault main commit is missing from the Git store")
    (and_then (match v_root_commit vault with
               | Some ((_ :: _) as root) =>
                   and_then (commit_known vaultId root "vault root commit is missing from the Git store")
                     (needs (git (IsAncestor FromRepository vaultId root (v_current_main vault))) "vault root commit is not an ancestor of current main")
               | _ => fails "vault root commit is missing from the Git store"
               end)
    (and_then (needs (git (CheckIntegrity vaultId)) "git integrity")
    (and_then (check_each (List.filter (λ d, d_vault_id d =s? vaultId) (db_devices db)) (check_device db vaultId))
    (and_then (check_each (List.filter (λ c, cf_vault_id c =s? vaultId) (db_conflicts db)) (check_conflict vaultId))
    (check_history db vaultId vault)))))))
  end.

Definition markInconsistentVaults : sync unit :=
  ready ← git CheckReady;
  if negb ready then mret () else
  db ← snapshot;
  for_each (List.filter (λ v, bool_decide (v_status v = VActive) && negb (hasDurableDeletionRecord db (v_vault_id v))) (db_vaults db)) (λ vault,
    r ← checkVaultPersistentState db (v_vault_id vault);
    match r with None => mret () | Some _ => mutate (block_active_tx (v_vault_id vault)) end).

(** The steps of [createObtsServer] that bring vaults and repositories together. *)
Definition startup : sync unit :=
  _ ← populateVaultRootCommits;
  _ ← reconcileStartupOperations;
  _ ← ensureProtectedConflictRefs None;
  markInconsistentVaults.

End startup.
