(* ===== verification/VaultFacts.v ===== *)
(** * What a transaction does to a vault (lemmas on VaultState.v)

    The references of a vault are compared with five columns of the metadata document
    ([core]). Transactions are decomposed into changes of these columns; the changes of
    everything else leave the vault as it is. *)

From S2P Require Export VaultState.

(** ** The names of references *)

Lemma split_last (sep : N) (a b k k' : jstring) : sep ∉ k → sep ∉ k' → a ++ sep :: k = b ++ sep :: k' → a = b ∧ k = k'.
Proof.
  intros Hk Hk'. revert b. induction a as [|x a IH]; intros [|y b] E; cbn in E; simplify_eq.
  - done.
  - exfalso. apply Hk. apply elem_of_app. right. left.
  - exfalso. apply Hk'. apply elem_of_app. right. left.
  - by destruct (IH b) as [-> ->].
Qed.

Definition conflict_kinds : list jstring := [lit "base"; lit "current"; lit "device"].

Lemma conflictRef_inj id id' kind kind' : kind ∈ conflict_kinds → kind' ∈ conflict_kinds →
  conflictRef id kind = conflictRef id' kind' → id = id' ∧ kind = kind'.
Proof.
  intros H H' E. unfold conflictRef in E. apply app_inv_head in E.
  assert (∀ k, k ∈ conflict_kinds → 47%N ∉ k) as Hno.
  { intros k Hk. unfold conflict_kinds in Hk. apply (bool_decide_eq_true_1 (47%N ∉ k)).
    repeat (apply elem_of_cons in Hk as [->|Hk]; [by vm_compute|]). by apply not_elem_of_nil in Hk. }
  change (id ++ 47%N :: kind = id' ++ 47%N :: kind') in E. by apply split_last in E; auto.
Qed.

Lemma conflictRef_kind id kind kind' : conflictRef id kind = conflictRef id kind' → kind = kind'.
Proof. unfold conflictRef. by intros E%app_inv_head%app_inv_head%app_inv_head. Qed.
Lemma conflictRef_main id kind : conflictRef id kind ≠ MAIN_REF.
Proof. by vm_compute. Qed.
Lemma conflictRef_device id kind d : conflictRef id kind ≠ DEVICE_REFS ++ d.
Proof. by vm_compute. Qed.
Lemma device_ref_main d : DEVICE_REFS ++ d ≠ MAIN_REF.
Proof. by vm_compute. Qed.

Lemma protected_kinds c kind commit : (kind, commit) ∈ conflictProtectedRefs c → kind ∈ conflict_kinds.
Proof.
  unfold conflictProtectedRefs, conflict_kinds. intros H.
  repeat (apply elem_of_cons in H as [H|H]; [injection H as -> _; by repeat constructor|]). by apply not_elem_of_nil in H.
Qed.

(** They are compared as a whole from here on. *)
#[global] Opaque MAIN_REF DEVICE_REFS conflictRef.

(** ** The columns *)

Definition vault_key (v : VaultRow) : jstring * jstring := (v_vault_id v, v_current_main v).
Definition device_key (d : DeviceRow) : jstring * jstring * jstring * option jstring :=
  (d_device_id d, d_vault_id d, d_device_ref d, d_device_ref_head d).
Definition conflict_key (c : ConflictRecord) : jstring * jstring * ConflictStatus * list (jstring * jstring) :=
  (cf_conflict_id c, cf_vault_id c, cf_status c, conflictProtectedRefs c).

Record core := mk_core {
  c_vaults : list (jstring * jstring);
  c_devices : list (jstring * jstring * jstring * option jstring);
  c_jobs : list jstring;
  c_operations : list SyncOperationRow;
  c_conflicts : list (jstring * jstring * ConflictStatus * list (jstring * jstring))
}.
Definition core_of (db : MetadataDb) : core :=
  mk_core (map vault_key (db_vaults db)) (map device_key (db_devices db)) (map rj_device_id (db_device_removal_jobs db))
    (db_sync_operations db) (map conflict_key (db_conflicts db)).

Lemma map_key_update_first {A B} (key : A → B) p f (l : list A) : (∀ x, key (f x) = key x) → map key (update_first p f l) = map key l.
Proof. intros H. induction l as [|x l IH]; cbn; [done|]. destruct (p x); cbn; [by rewrite H|by rewrite IH]. Qed.

Lemma map_update_where {A B} (key : A → B) p f (l : list A) : (∀ x, key (f x) = key x) → map key (update_where p f l) = map key l.
Proof. intros H. unfold update_where. rewrite map_map. apply map_ext. intros x. destruct (p x); auto. Qed.

Lemma core_committed h db : core_of (committed h db) = core_of db.
Proof. unfold core_of, committed, enforceRevocationInvariant. cbn. f_equal. by apply map_update_where. Qed.

Lemma core_append_event `{Dates} w i db t v ids cursors payload :
  core_of (appendEvent w i db t v ids cursors payload).2 = core_of db.
Proof. done. Qed.

Lemma core_directory_intents w i db v intents seq : core_of (applyDirectoryIntents w i db v intents seq) = core_of db.
Proof. unfold applyDirectoryIntents. by destruct intents. Qed.

Lemma core_proposal_result db r : core_of (upsertDirectoryProposalResult db r) = core_of db.
Proof. done. Qed.

Lemma core_directory_plan w i db v d c plan seq : core_of (commitDirectoryPlan w i db v d c plan seq) = core_of db.
Proof. destruct plan; cbn [commitDirectoryPlan]; [|done]. rewrite core_proposal_result. apply core_directory_intents. Qed.

Lemma core_resolve_result w i db c seq : core_of (resolveDirectoryProposalResult w i db c seq) = core_of db.
Proof. unfold resolveDirectoryProposalResult. by destruct (cf_directory_context c). Qed.

Lemma core_merge_sequence db v : core_of (nextMergeSequence db v).2 = core_of db.
Proof. done. Qed.

Lemma core_update_device id f db : (∀ d, device_key (f d) = device_key d) → core_of (update_device id f db) = core_of db.
Proof. intros H. unfold core_of, update_device. cbn. f_equal. by apply map_key_update_first. Qed.

Lemma core_update_vault id f db : (∀ x, vault_key (f x) = vault_key x) → core_of (update_vault id f db) = core_of db.
Proof. intros H. unfold core_of, update_vault. cbn. f_equal. by apply map_key_update_first. Qed.

Create Rewrite HintDb columns.
#[export] Hint Rewrite core_committed core_directory_intents core_proposal_result core_directory_plan core_resolve_result : columns.

(** ** A vault is a function of its columns *)

Section views.
Context (v : jstring).

Lemma main_of_core db : main_of v db = snd <$> find_row (λ k : jstring * jstring, k.1 =s? v) (c_vaults (core_of db)).
Proof.
  unfold main_of, find_row. cbn. induction (db_vaults db) as [|x l IH]; cbn; [done|].
  unfold has_vault_id at 1. by destruct (v_vault_id x =s? v).
Qed.

Lemma device_at_core db id ref head : device_at v db id ref head ↔ (id, v, ref, head) ∈ c_devices (core_of db).
Proof.
  unfold device_at. cbn. rewrite list_elem_of_fmap. unfold device_key. split.
  - intros (d & ? & <- & <- & <- & <-). by exists d.
  - intros (d & E & ?). simplify_eq. by exists d.
Qed.

Lemma being_removed_core db id : being_removed db id = jmem id (c_jobs (core_of db)).
Proof.
  unfold being_removed. cbn. induction (db_device_removal_jobs db) as [|j l IH]; cbn; [done|].
  rewrite IH, jeqb_sym. done.
Qed.

Lemma protected_refs_core db : protected_refs v db =
  flat_map (λ '(id, vault, status, refs), if (vault =s? v) && bool_decide (status = CfOpen)
    then map (λ '(kind, commit), (conflictRef id kind, commit)) refs else []) (c_conflicts (core_of db)).
Proof.
  unfold protected_refs. cbn [core_of c_conflicts]. induction (db_conflicts db) as [|c l IH]; [done|].
  cbn [map flat_map List.filter conflict_key]. rewrite <- IH. unfold is_open at 1.
  by destruct ((cf_vault_id c =s? v) && bool_decide (cf_status c = CfOpen)).
Qed.

Lemma live_core db o : live v db o ↔ o ∈ c_operations (core_of db) ∧ op_vault_id o = v ∧ is_live o = true.
Proof. done. Qed.

Lemma well_formed_core db : well_formed db ↔
  NoDup (map op_operation_id (c_operations (core_of db))) ∧ NoDup (map (λ k, k.1.1.1) (c_devices (core_of db))) ∧
  (∀ id vault ref head, (id, vault, ref, head) ∈ c_devices (core_of db) → ref = DEVICE_REFS ++ id) ∧
  (∀ o id vault ref head, o ∈ c_operations (core_of db) → (id, vault, ref, head) ∈ c_devices (core_of db) →
     op_device_id o = Some id → op_vault_id o = vault).
Proof.
  cbn. rewrite map_map. change (λ x, (device_key x).1.1.1) with d_device_id. split.
  - intros [H1 H2 H3 H4]. repeat split; try done.
    + intros id vault ref head (d & E & Hd)%list_elem_of_fmap. unfold device_key in E. simplify_eq. by apply H3.
    + intros o id vault ref head Ho (d & E & Hd)%list_elem_of_fmap Hi. unfold device_key in E. simplify_eq. by apply H4.
  - intros (H1 & H2 & H3 & H4). split; try done.
    + intros d Hd. apply (H3 (d_device_id d) (d_vault_id d) (d_device_ref d) (d_device_ref_head d)).
      apply list_elem_of_fmap. by exists d.
    + intros o d Ho Hd Hi. apply (H4 o (d_device_id d) (d_vault_id d) (d_device_ref d) (d_device_ref_head d) Ho); [|exact Hi].
      apply list_elem_of_fmap. by exists d.
Qed.

(** ** Changes of operations *)

Definition keeps_identity (f : SyncOperationRow → SyncOperationRow) : Prop :=
  ∀ o, op_operation_id (f o) = op_operation_id o ∧ op_vault_id (f o) = op_vault_id o ∧ op_device_id (f o) = op_device_id o.

Lemma elem_of_update_first {A} (key : A → jstring) id f (l : list A) y :
  NoDup (map key l) → (∀ x, key (f x) = key x) →
  y ∈ update_first (λ x, key x =s? id) f l ↔ y ∈ l ∧ key y ≠ id ∨ ∃ x, x ∈ l ∧ key x = id ∧ y = f x.
Proof.
  intros Hnd Hf. induction l as [|x l IH]; cbn [update_first]; [split; [by intros ?%not_elem_of_nil|]|].
  { intros [[?%not_elem_of_nil _]|(x & ?%not_elem_of_nil & _)]; done. }
  apply NoDup_cons in Hnd as [Hx Hnd]. specialize (IH Hnd). destruct (jeqb_spec (key x) id) as [E|E].
  - rewrite elem_of_cons. split.
    + intros [->|Hy]; [right; exists x; split; [left|done]|left; split; [by right|]].
      intros <-. apply Hx. rewrite E. apply list_elem_of_fmap. eauto.
    + intros [[[->|Hy]%elem_of_cons Hk]|(z & [->|Hz]%elem_of_cons & Hk & ->)]; auto; [done|].
      destruct Hx. rewrite E, <- Hk. apply list_elem_of_fmap. eauto.
  - rewrite elem_of_cons, IH. split.
    + intros [->|[[? ?]|(z & ? & ? & ->)]]; [left; split; [left|done]|left; split; [by right|done]|right; exists z; split; [by right|done]].
    + intros [[[->|Hy]%elem_of_cons Hk]|(z & [->|Hz]%elem_of_cons & Hk & ->)]; auto; [done|]. right. right. eauto.
Qed.

(** Only the operations in [X] change. *)
Record step (X : jstring → Prop) (db db' : MetadataDb) : Prop := {
  step_vaults : c_vaults (core_of db') = c_vaults (core_of db);
  step_devices : c_devices (core_of db') = c_devices (core_of db);
  step_jobs : c_jobs (core_of db') = c_jobs (core_of db);
  step_conflicts : c_conflicts (core_of db') = c_conflicts (core_of db);
  step_operations o : ¬ X (op_operation_id o) → o ∈ db_sync_operations db' ↔ o ∈ db_sync_operations db;
  step_well_formed : well_formed db → well_formed db'
}.

Lemma step_same X db db' : core_of db' = core_of db → step X db db'.
Proof.
  intros E. split; try by rewrite E.
  - intros o _. change (o ∈ c_operations (core_of db') ↔ o ∈ c_operations (core_of db)). by rewrite E.
  - rewrite !well_formed_core, E. done.
Qed.

Lemma step_trans X a b c : step X a b → step X b c → step X a c.
Proof.
  intros [v1 d1 j1 c1 o1 w1] [v2 d2 j2 c2 o2 w2]. split; try congruence; auto.
  intros o H. by rewrite o2, o1.
Qed.

Lemma has_operation_id_key id : has_operation_id id = λ o, op_operation_id o =s? id.
Proof. done. Qed.

Lemma elem_of_update_operation id f db o : well_formed db → keeps_identity f →
  o ∈ db_sync_operations (update_operation id f db) ↔
  o ∈ db_sync_operations db ∧ op_operation_id o ≠ id ∨ ∃ x, x ∈ db_sync_operations db ∧ op_operation_id x = id ∧ o = f x.
Proof.
  intros Hwf Hf. apply (elem_of_update_first op_operation_id); [apply Hwf|]. intros x. apply Hf.
Qed.

Lemma step_update_operation (X : jstring → Prop) id f db : well_formed db → keeps_identity f → X id → step X db (update_operation id f db).
Proof.
  intros Hwf Hf HX. split; try done.
  - intros o Ho. rewrite elem_of_update_operation by done. split; [intros [[? _]|(x & _ & E & ->)]; [done|]|].
    + destruct Ho. by rewrite (proj1 (Hf x)), E.
    + intros H. left. split; [done|]. intros E. by rewrite E in Ho.
  - intros _. destruct Hwf as [H1 H2 H3 H4]. split; try done.
    + unfold update_operation. cbn. rewrite map_key_update_first; [done|]. intros x. apply Hf.
    + intros o d Ho Hd Hi. apply elem_of_update_operation in Ho as [[Ho _]|(x & Hx & _ & ->)]; [by apply H4| |by split|done].
      destruct (Hf x) as (_ & -> & Hdev). rewrite Hdev in Hi. by apply H4.
Qed.

(** A new operation. *)
Lemma step_append (X : jstring → Prop) o db db' :
  core_of db' = mk_core (c_vaults (core_of db)) (c_devices (core_of db)) (c_jobs (core_of db)) (db_sync_operations db ++ [o]) (c_conflicts (core_of db)) →
  op_operation_id o ∉ map op_operation_id (db_sync_operations db) → X (op_operation_id o) →
  (∀ id vault ref head, (id, vault, ref, head) ∈ c_devices (core_of db) → op_device_id o = Some id → op_vault_id o = vault) →
  step X db db'.
Proof.
  intros E Hnew HX Hdev. assert (db_sync_operations db' = db_sync_operations db ++ [o]) as Eo by by injection E.
  split; try by rewrite E.
  - intros x Hx. rewrite Eo, elem_of_app, list_elem_of_singleton. split; [intros [?| ->]; [done|by destruct Hx]|by left].
  - rewrite !well_formed_core, E. cbn [c_operations c_devices core_of]. intros (H1 & H2 & H3 & H4). repeat split; try done.
    + rewrite map_app. apply NoDup_app. split; [done|]. split; [|apply NoDup_singleton].
      cbn. intros x Hx ->%list_elem_of_singleton. done.
    + intros x id vault ref head [Hx| ->%list_elem_of_singleton]%elem_of_app Hd Hi; [by eapply H4|by eapply Hdev].
Qed.

Lemma core_start_operation w i db vault d t expected targets target base :
  core_of (startOperation w i db vault d t expected targets target base).2 =
  mk_core (c_vaults (core_of db)) (c_devices (core_of db)) (c_jobs (core_of db))
    (db_sync_operations db ++ [(startOperation w i db vault d t expected targets target base).1]) (c_conflicts (core_of db)).
Proof. done. Qed.

Lemma step_start w i db vault d t expected targets target base o db' :
  startOperation w i db vault d t expected targets target base = (o, db') → fresh w db →
  (∀ id vault' ref head, (id, vault', ref, head) ∈ c_devices (core_of db) → d = Some id → vault = vault') →
  step (λ x, x = op_operation_id o) db db'.
Proof.
  intros E Hfresh Hdev. pose proof (core_start_operation w i db vault d t expected targets target base) as H.
  rewrite E in H. cbn [fst snd] in H. apply (step_append _ o); [done| |done|].
  - change (op_operation_id (o, db').1 ∉ map op_operation_id (db_sync_operations db)). rewrite <- E. apply Hfresh.
  - intros id vault' ref head Hd Hi. change (op_vault_id (o, db').1 = vault'). change (op_device_id (o, db').1 = Some id) in Hi.
    rewrite <- E in *. by apply (Hdev id vault' ref head).
Qed.

End views.

(** A device's row is written again. *)
Lemma formed_update_device id f db :
  (∀ x, d_device_id (f x) = d_device_id x ∧ d_vault_id (f x) = d_vault_id x ∧ d_device_ref (f x) = d_device_ref x) →
  well_formed db → well_formed (update_device id f db).
Proof.
  intros Hf [W1 W2 W3 W4].
  assert (∀ x, x ∈ db_devices (update_device id f db) → ∃ y, y ∈ db_devices db ∧
    d_device_id x = d_device_id y ∧ d_vault_id x = d_vault_id y ∧ d_device_ref x = d_device_ref y) as Hrows.
  { intros x Hx. unfold update_device in Hx. cbn in Hx. apply update_first_elem in Hx as [Hx|(y & Hy & _ & ->)]; [by exists x|].
    exists y. by destruct (Hf y) as (-> & -> & ->). }
  split; [done| | |].
  - unfold update_device. cbn. rewrite map_key_update_first; [done|]. intros y. apply Hf.
  - intros x Hx. destruct (Hrows x Hx) as (y & Hy & -> & _ & ->). by apply W3.
  - intros o x Hox Hx Hi. destruct (Hrows x Hx) as (y & Hy & E1 & -> & _). rewrite E1 in Hi. by apply W4.
Qed.
