(* ===== verification/Recoverable.v ===== *)
(** * When an interrupted operation can be recovered

    While a request changes a vault, at most one of its operations is prepared. Either
    the references are still where the metadata says ([held]), or exactly one reference
    has moved to the operation's target and the operation can be rolled forward
    ([moved]). A vault is [recoverable] in both cases. *)

From S2P Require Export Startup VaultFacts.

Section recoverable.
Context `{Nm : Numerals} `{Sh : Sha256} (v d : jstring).

Definition own_ref : jstring := DEVICE_REFS ++ d.

(** The references agree with the metadata, those in [X] aside. *)
Record agrees_but (X : jstring → Prop) (s : durable) : Prop := {
  but_some : is_Some (main_of v (du_db s));
  but_main : ¬ X MAIN_REF → ref_at s v MAIN_REF = main_of v (du_db s);
  but_heads id ref head : device_at v (du_db s) id ref head → being_removed (du_db s) id = false → ¬ X ref → ref_at s v ref = head;
  but_conflicts p : p ∈ protected_refs v (du_db s) → ¬ X p.1 → ref_at s v p.1 = None ∨ ref_at s v p.1 = Some p.2
}.

Lemma agrees_but_none s : agrees v s ↔ agrees_but (λ _, False) s.
Proof.
  split.
  - intros [[H1 H2] H3 H4]. split; eauto.
  - intros [H1 H2 H3 H4]. split; [split; auto|by eauto|by eauto].
Qed.

(** [M] is the only operation that is prepared, and the device of the request is there. *)
Record base (X : jstring → Prop) (M : option SyncOperationRow) (s : durable) : Prop := {
  base_formed : well_formed (du_db s);
  base_agrees : agrees_but X s;
  base_device : ∃ head, device_at v (du_db s) d own_ref head;
  base_only o : live v (du_db s) o → op_status o = OpPrepared → M = Some o;
  base_live o : M = Some o → live v (du_db s) o ∧ op_status o = OpPrepared
}.

Inductive movable (o : SyncOperationRow) : jstring → jstring → Prop :=
| movable_push target : op_operation_type o = OpDevicePush → op_device_id o = Some d →
    op_target_refs o = [(own_ref, Some target)] → movable o own_ref target
| movable_merge target : op_operation_type o = OpServerMerge → op_target_refs o = [(MAIN_REF, Some target)] →
    merge_evidence_ok o = true → movable o MAIN_REF target.

(** Nothing to move yet, or one reference that is where it was. *)
Definition unmoved (o : SyncOperationRow) (s : durable) : Prop :=
  recoverableTargetRefs o = [] ∨
  ∃ ref target, recoverableTargetRefs o = [(ref, target)] ∧ movable o ref target ∧ ref_at s v ref = default None (expected_ref o ref).

Definition held (M : option SyncOperationRow) (s : durable) : Prop :=
  base (λ _, False) M s ∧ ∀ o, M = Some o → unmoved o s.

Definition moved (o : SyncOperationRow) (ref target : jstring) (s : durable) : Prop :=
  base (λ r, r = ref) (Some o) s ∧ ref_at s v ref = Some target ∧ recoverableTargetRefs o = [(ref, target)] ∧ movable o ref target.

Definition recoverable (s : durable) : Prop := (∃ M, held M s) ∨ ∃ o ref target, moved o ref target s.

(** ** Other methods *)

Lemma base_keeps X M s s' : keeps v d s s' → base X M s → base X M s'.
Proof.
  intros [m l p r k o w] [Hwf [H1 H2 H3 H4] [head Hd] Honly Hlive]. split; [by apply w| | | |].
  - split; rewrite ?m, ?r, ?p; try done.
    + intros id ref h Hat Hrem Hx. rewrite r. destruct (k _ _ _ Hat) as [[Hat' Hrem']|[-> ->]]; [|done].
      apply (H3 id); [done| |done]. destruct (being_removed (du_db s) id) eqn:E; [|done]. by rewrite Hrem' in Hrem.
    + intros q Hq. rewrite r. by apply H4.
  - exists head. by apply o.
  - intros x Hx. apply Honly. by apply l.
  - intros x Hx. destruct (Hlive x Hx). by rewrite l.
Qed.

#[export] Instance held_keeps M : Stable (keeps v d) (held M).
Proof.
  intros s s' Hr [Hb Hu]. split; [by eapply base_keeps|]. intros o Ho. unfold unmoved. setoid_rewrite (same_refs _ _ _ _ Hr). by apply Hu.
Qed.
#[export] Instance moved_keeps o ref t : Stable (keeps v d) (moved o ref t).
Proof. intros s s' Hr (Hb & Ht & ?). split; [by eapply base_keeps|]. by rewrite (same_refs _ _ _ _ Hr). Qed.
#[export] Instance recoverable_keeps : Stable (keeps v d) recoverable.
Proof.
  intros s s' Hr [[M H]|(o & ref & t & H)]; [left; exists M; by eapply held_keeps|right; exists o, ref, t; by eapply moved_keeps].
Qed.
#[export] Instance ref_keeps ref x : Stable (keeps v d) (λ s, ref_at s v ref = x).
Proof. intros s s' Hr <-. by apply (same_refs _ _ _ _ Hr). Qed.
#[export] Instance stable_others P : Stable (keeps v d) P → Stable (others v d) P.
Proof. intros H s s' Hr. by apply H, others_keep. Qed.

(** ** Transactions *)

Lemma base_step X Y M M' s db' : base X M s → step Y (du_db s) db' →
  (∀ o, live v db' o → Y (op_operation_id o) → op_status o = OpPrepared → M' = Some o) →
  (∀ o, M = Some o → ¬ Y (op_operation_id o) → M' = Some o) →
  (∀ o, M' = Some o → live v db' o ∧ op_status o = OpPrepared) → (∀ id, Y id ∨ ¬ Y id) →
  base X M' (with_db db' s).
Proof.
  intros [Hwf [H1 H2 H3 H4] [head Hd] Honly Hlive] [v1 d1 j1 c1 o1 w1] HY HM HM' Hdec.
  split; cbn [du_db with_db]; [auto| | | |done].
  - split; cbn [du_db with_db]; change (ref_at (with_db db' s)) with (ref_at s).
    + by rewrite main_of_core, v1, <- main_of_core.
    + by rewrite main_of_core, v1, <- main_of_core.
    + intros id ref h. rewrite device_at_core, d1, <- device_at_core, being_removed_core, j1, <- being_removed_core. apply H3.
    + intros p. rewrite protected_refs_core, c1, <- protected_refs_core. apply H4.
  - exists head. by rewrite device_at_core, d1, <- device_at_core.
  - intros o Ho Hs. destruct (Hdec (op_operation_id o)) as [Hy|Hn]; [by apply HY|].
    apply HM; [|done]. apply Honly; [|done]. destruct Ho as (Ho & ? & ?). split; [by apply o1|done].
Qed.

Lemma held_step Y M s db' : held M s → step Y (du_db s) db' → (∀ id, Y id ∨ ¬ Y id) →
  (∀ o, live v db' o → Y (op_operation_id o) → op_status o ≠ OpPrepared) → (∀ o, M = Some o → ¬ Y (op_operation_id o)) →
  held M (with_db db' s).
Proof.
  intros [Hb Hu] Hs Hdec HY HM. split; [|exact Hu]. eapply base_step; eauto.
  - intros o Ho Hy Hp. by destruct (HY o Ho Hy).
  - intros o Ho. destruct (base_live _ _ _ Hb o Ho) as [(Hin & Hv & Hl) Hp]. repeat split; try done.
    apply (step_operations _ _ _ Hs); auto.
Qed.

Lemma held_same M s db' : held M s → core_of db' = core_of (du_db s) → held M (with_db db' s).
Proof.
  intros H E. apply (held_step (λ _, False) M); [done|by apply step_same|by auto|by intros ? ? []|by intros ? ? []].
Qed.

Lemma base_same X M s db db' : base X M (with_db db s) → core_of db' = core_of db → base X M (with_db db' s).
Proof.
  intros H E. apply (base_step X (λ _, False) M M (with_db db s) db'); [done|by apply step_same|by intros ? ? []|done| |by auto].
  intros o Ho. destruct (base_live _ _ _ H o Ho) as [(Hin & Hv & Hl) Hp]. repeat split; try done.
  change (o ∈ c_operations (core_of db')). by rewrite E.
Qed.

(** ** Rows *)

Lemma find_row_key {A} (key : A → jstring) (l : list A) x : NoDup (map key l) → x ∈ l → find_row (λ y, key y =s? key x) l = Some x.
Proof.
  unfold find_row. intros Hnd Hx. induction l as [|y l IH]; [by apply not_elem_of_nil in Hx|]. cbn.
  apply NoDup_cons in Hnd as [Hy Hnd]. destruct (jeqb_spec (key y) (key x)) as [E|E].
  - apply elem_of_cons in Hx as [->|Hx]; [done|]. destruct Hy. rewrite E. apply list_elem_of_fmap. eauto.
  - apply elem_of_cons in Hx as [->|Hx]; [done|auto].
Qed.

Lemma require_operation db o : well_formed db → o ∈ db_sync_operations db → requireOperation db (op_operation_id o) = Ok o.
Proof.
  intros [H _ _ _] Ho. unfold requireOperation. change (has_operation_id ?i) with (λ y, op_operation_id y =s? i).
  by rewrite find_row_key.
Qed.

Lemma requireOperation_Ok db id o : requireOperation db id = Ok o → o ∈ db_sync_operations db ∧ op_operation_id o = id.
Proof.
  unfold requireOperation. destruct (find_row _ _) as [x|] eqn:E; [|done]. intros H. apply (inj Ok) in H as ->.
  apply find_row_Some in E as [H1 H2]. split; [done|]. by apply jeqb_eq in H2.
Qed.

Lemma base_own_device X M s : base X M s → ∃ dev, requireDevice (du_db s) d = Ok dev ∧ dev ∈ db_devices (du_db s) ∧
  d_vault_id dev = v ∧ d_device_id dev = d ∧ d_device_ref dev = own_ref.
Proof.
  intros [[_ H _ _] _ [head (dev & Hin & Hv & Hid & Href & _)] _ _]. exists dev. repeat split; try done.
  unfold requireDevice. pose proof (find_row_key d_device_id _ dev H Hin) as F. rewrite Hid in F. by rewrite F.
Qed.

Lemma base_vault X M s : base X M s → ∃ vault, requireVault (du_db s) v = Ok vault ∧ find_vault (du_db s) v = Some vault.
Proof.
  intros [_ [[m H] _ _ _] _ _ _]. unfold main_of in H. unfold requireVault, find_vault.
  destruct (find_row _ _) as [vault|]; [|done]. by exists vault.
Qed.

Lemma base_device_vault X M s id vault ref head : base X M s →
  (id, vault, ref, head) ∈ c_devices (core_of (du_db s)) → Some d = Some id → v = vault.
Proof.
  intros Hb Hin E. simplify_eq. destruct Hb as [[_ Hnd _ _] _ [h (dev & Hdev & <- & Hid & _)] _ _].
  cbn in Hin. apply list_elem_of_fmap in Hin as (dev' & E & Hdev'). unfold device_key in E. injection E as E1 -> _ _.
  pose proof (find_row_key d_device_id _ dev Hnd Hdev) as F1. pose proof (find_row_key d_device_id _ dev' Hnd Hdev') as F2.
  rewrite <- E1, <- Hid in F2. congruence.
Qed.

(** ** The operation of the request *)

(** Its row is in the document, whatever became of it. *)
Definition shaped (id : jstring) (shape : SyncOperationRow → Prop) (s : durable) : Prop :=
  ∃ o, o ∈ db_sync_operations (du_db s) ∧ op_operation_id o = id ∧ op_vault_id o = v ∧ shape o.

#[export] Instance shaped_stable id shape : Stable (others v d) (shaped id shape).
Proof. intros s s' [_ Hs] (o & Ho & Hid & Hv & Hsh). exists o. by rewrite Hs. Qed.

Lemma shaped_row id shape s o : shaped id shape s → well_formed (du_db s) → requireOperation (du_db s) id = Ok o →
  op_vault_id o = v ∧ shape o.
Proof. intros (x & Hx & <- & Hv & Hsh) Hwf Hr. rewrite require_operation in Hr by done. by apply (inj Ok) in Hr as <-. Qed.

Lemma shaped_step Y id shape s db' : shaped id shape s → step Y (du_db s) db' → ¬ Y id → shaped id shape (with_db db' s).
Proof. intros (o & Ho & Hid & Hv & Hsh) Hs HY. exists o. cbn. repeat split; try done. apply (step_operations _ _ _ Hs); [by rewrite Hid|done]. Qed.

Lemma shaped_update id shape s f : shaped id shape s → well_formed (du_db s) → keeps_identity f → (∀ o, shape o → shape (f o)) →
  shaped id shape (with_db (update_operation id f (du_db s)) s).
Proof.
  intros (o & Ho & Hid & Hv & Hsh) Hwf Hf Hk. exists (f o). destruct (Hf o) as (E1 & E2 & _). cbn [du_db with_db]. repeat split.
  - rewrite elem_of_update_operation by done. right. by exists o.
  - by rewrite E1.
  - by rewrite E2.
  - by apply Hk.
Qed.

End recoverable.
