(* ===== verification/PushService.v ===== *)
(** * Accepting a device's commit (src/server/syncService.ts)

    [integrateDeviceCommit] admits an upload, moves the device's reference to it and has
    [mergeDeviceCommit] bring it into the vault's main branch, or records a conflict.
    These are the programs of that path, call by call, with their transactions; the
    decision between their outcomes is [MergeDecision.mergeDeviceCommit]. *)

From S2P Require Export Startup.
From S2P Require Frontmatter.

Local Open Scope Z_scope.

Definition MERGE_POLICY_VERSION : jstring := lit "phase2.semantic-merge.v1".

Inductive PushResult :=
| PushNoop (device_ref main : jstring) (event_seq : Z) (ack : option DirectoryProposalAcknowledgement)
| PushMerged (device_ref main merge_commit : jstring) (event_seq : Z) (ack : option DirectoryProposalAcknowledgement)
| PushConflicted (device_ref main conflict_id : jstring) (event_seq : Z) (ack : option DirectoryProposalAcknowledgement)
| PushRejected (code message : jstring).

Definition rejected (code message : string) : PushResult := PushRejected (lit code) (lit message).

(** The attestation and the rename pairs a merge needs of the manifest. *)
Record attestation := mk_attestation { at_root_ignore : option (option jstring); at_rename_pairs : list RenamePair }.
Definition no_attestation : attestation := mk_attestation None [].
Definition attestation_of (m : DevicePushManifest) : attestation :=
  mk_attestation (pm_root_ignore m) (default [] (pm_rename_pairs m)).

Definition pair_paths (pairs : list RenamePair) : list jstring :=
  flat_map (λ p, [rp_source_path p; rp_destination_path p]) pairs.
Definition pairs_json (pairs : option (list RenamePair)) : jsval := null_or (λ l, JArr (map encode_pair l)) pairs.

Definition base_of (m : DevicePushManifest) : option jstring := default None (pm_base_commit m).

Definition plain_error (message : string) : js_error := mk_error EPlain "" (lit message) [].
Definition blocked_integrity : js_error :=
  AuthError 409 "blocked_integrity" "Vault persistent state failed integrity checks." [].
Definition transfer_unavailable : js_error :=
  AuthError 503 "transfer_unavailable" "Transfer storage is unavailable." [].

Definition is_class (c : error_class) (e : js_error) : bool :=
  match err_class e, c with
  | EPathPolicy, EPathPolicy | ERootIgnore, ERootIgnore | EGitDurability, EGitDurability | EGitCommand, EGitCommand
  | EGitMalformedPack, EGitMalformedPack | EGitMergeOwnership, EGitMergeOwnership => true
  | _, _ => false
  end.
Definition is_policy_error (e : js_error) : bool := is_class EPathPolicy e || is_class ERootIgnore e.
Definition is_auth_error (e : js_error) : bool := match err_class e with EAuth _ => true | _ => false end.

Definition policyConflictPaths (error : js_error) : list jstring :=
  match err_class error, rget (err_details error) "path" with
  | EPathPolicy, JStr path => [path]
  | _, _ => [lit ".gitignore"]
  end.
Definition affected_paths_of (error : js_error) : list jstring :=
  match rget (err_details error) "affectedPaths" with JArr l => omap as_string l | _ => [] end.

Section push.
Context `{D : Dates} `{U : Unicode} `{Nm : Numerals} `{Sh : Sha256} `{GT : GitTools} `{TT : TextTools}.

(** [stableJson] of this service: keys by [localeCompare], [null] for what has no text. *)
Fixpoint stable_text (v : jsval) : jstring :=
  match v with
  | JArr l => 91%N :: join_with 44 (map stable_text l) ++ [93%N]
  | JObj kvs =>
      123%N :: join_with 44 (map (λ kv, quote_json kv.1 ++ 58%N :: kv.2)
        (isort (λ a b, match locale_compare a.1 b.1 with Gt => false | _ => true end)
          (map (λ kv, (kv.1, stable_text kv.2)) kvs))) ++ [125%N]
  | _ => default (lit "null") (json_text v)
  end.

Definition directoryProposalRequestSha256 (proposal : DirectoryProposal) : jstring :=
  sha256 (stable_text (encode_proposal proposal)).

(** ** Rejecting *)

Definition reject_tx (auth : AuthenticatedDevice) (operationId code : jstring) : transaction unit := λ w db,
  operation ← requireOperation db operationId;
  let db := abort_unless_committed (nowIso w 0) code operation db in
  device ← requireDevice db (d_device_id (ad_device auth));
  let db := update_device (d_device_id (ad_device auth)) (set_d_last_seen_at (Some (nowIso w 1))) db in
  vault ← requireVault db (v_vault_id (ad_vault auth));
  Ok ((), (appendEvent w 2 db EvDeviceSyncRejected (v_vault_id (ad_vault auth))
             [(lit "device_id", d_device_id (ad_device auth))]
             [(lit "main", Some (v_current_main vault)); (lit "device_ref", d_device_ref_head device)]
             [(lit "reason", JStr code)]).2).

Definition rejectDevicePush (auth : AuthenticatedDevice) (operationId code message : jstring) : sync PushResult :=
  _ ← mutate (reject_tx auth operationId code);
  mret (PushRejected code message).

(** ** Conflicts *)

Definition conflict_kind (reason : jstring) (plan : option DirectoryMergePlan) : ConflictKind :=
  if reason =s? "directory_overlap" then CkDirectory
  else if (reason =s? "mixed_directory_overlap") || (reason =s? "same_device_history_divergence") && negb (is_none plan) then CkMixed
  else CkContent.

Definition conflict_results (reason : jstring) (affectedPaths : list jstring) : record :=
  [(lit "reason", JStr reason); (lit "affected_paths", text_list affectedPaths);
   (lit "affected_path_count", jint (Z.of_nat (length affectedPaths)))].

Definition given_pairs (pairs : list RenamePair) : record :=
  match pairs with [] => [] | _ => [(lit "rename_pairs", JArr (map encode_pair pairs))] end.

Definition conflict_tx (vaultId deviceId base currentMain deviceCommit conflictId : jstring) (affectedPaths : list jstring)
    (reason : jstring) (plan : option DirectoryMergePlan) (resultDeviceRef : jstring) (pairs : list RenamePair) (mergeSequence : Z)
    : transaction Z := λ w db,
  device ← requireDevice db deviceId;
  let '(operation, db) := startOperation w 0 db vaultId (Some deviceId) OpConflictCreate
    [(MAIN_REF, Some currentMain); (d_device_ref device, Some resultDeviceRef)] [] (Some deviceCommit) None in
  let db := update_operation (op_operation_id operation) (λ o,
    set_op_updated_at (nowIso w 10)
      (set_op_result (Some [(lit "decision", JStr (lit "conflict")); (lit "conflict_id", JStr conflictId)])
        (set_op_prepared_manifest (Some
          ([(lit "merge_sequence", jint mergeSequence); (lit "merge_policy_version", JStr MERGE_POLICY_VERSION);
            (lit "base_commit", JStr base); (lit "current_main", JStr currentMain); (lit "device_commit", JStr deviceCommit);
            (lit "decision", JStr (lit "conflict"))] ++ given_pairs pairs ++
           [(lit "validator_results", JObj (conflict_results reason affectedPaths));
            (lit "directory_plan", storedDirectoryPlan plan)]))
          (set_op_status OpCommitted o)))) db in
  let conflict := mk_ConflictRecord conflictId vaultId deviceId CfOpen base currentMain deviceCommit currentMain affectedPaths
    (Z.of_nat (length affectedPaths)) mergeSequence MERGE_POLICY_VERSION (conflict_kind reason plan)
    (match pairs with [] => None | _ => Some (map (λ p, (rp_source_path p, rp_destination_path p)) pairs) end)
    (directoryConflictContext <$> plan) (conflict_results reason affectedPaths)
    [(lit "decision", JStr (lit "conflict")); (lit "reason", JStr reason);
     (lit "path_count", jint (Z.of_nat (length affectedPaths)))]
    (nowIso w 11) None None None None None in
  let db := set_db_conflicts (db_conflicts db ++ [conflict]) db in
  let db := match plan with
    | None => db
    | Some plan => upsertDirectoryProposalResult db
        (mk_DirectoryProposalResultRow (dp_proposal_id (pl_proposal plan)) (pl_requestSha256 plan) vaultId deviceId deviceCommit
           PrConflicted (Some conflictId) 0 (proposalIntentAcknowledgements (pl_proposal plan)) (nowIso w 12) (nowIso w 13))
    end in
  let db := update_device deviceId (set_d_status DReviewNeeded) db in
  let '(event, db) := appendEvent w 14 db EvConflictCreated vaultId
    [(lit "conflict_id", conflictId); (lit "device_id", deviceId)]
    [(lit "main", Some currentMain); (lit "device_commit", Some deviceCommit); (lit "base", Some base)]
    ([(lit "reason", JStr reason); (lit "path_count", jint (Z.of_nat (length affectedPaths)));
      (lit "merge_sequence", jint mergeSequence); (lit "merge_policy_version", JStr MERGE_POLICY_VERSION);
      (lit "conflict_kind", JStr (lit (match conflict_kind reason plan with
         CkContent => "content" | CkDirectory => "directory" | CkMixed => "mixed" end)))]
     ++ match plan with Some plan => [(lit "directory_proposal_id", JStr (dp_proposal_id (pl_proposal plan)))] | None => [] end) in
  let db := match plan with
    | None => db
    | Some plan => set_db_directory_proposal_results
        (update_first (λ candidate, pr_proposal_id candidate =s? dp_proposal_id (pl_proposal plan))
           (set_pr_event_seq (e_event_seq event)) (db_directory_proposal_results db)) db
    end in
  let db := audit w 20 (Some (d_user_id device)) (Some deviceId) vaultId "conflict_created" "conflict" (Some conflictId) db in
  Ok (e_event_seq event, db).

Definition block_tx (vaultId : jstring) : transaction bool := λ w db,
  vault ← requireVault db vaultId;
  Ok (negb (bool_decide (v_status vault = VBlockedIntegrity)),
      update_vault vaultId (λ v, set_v_updated_at (nowIso w 0) (set_v_status VBlockedIntegrity v)) db).

Definition createConflict (vaultId deviceId base currentMain deviceCommit : jstring) (affectedPaths : list jstring)
    (reason : jstring) (plan : option DirectoryMergePlan) (resultDeviceRef : jstring) (pairs : list RenamePair) : sync PushResult :=
  let affectedPaths := sorted_set (affectedPaths ++ pair_paths pairs) in
  conflictId ← perform (FreshConflictId vaultId);
  mergeSequence ← mutate (λ w db, Ok (nextMergeSequence db vaultId));
  eventSeq ← mutate (conflict_tx vaultId deviceId base currentMain deviceCommit conflictId affectedPaths reason plan
                       resultDeviceRef pairs mergeSequence);
  _ ← try_catch
    (_ ← ensureRef vaultId (conflictRef conflictId "base") base;
     _ ← ensureRef vaultId (conflictRef conflictId "current") currentMain;
     ensureRef vaultId (conflictRef conflictId "device") deviceCommit)
    (λ error, _ ← mutate (block_tx vaultId); throw error);
  mret (PushConflicted resultDeviceRef currentMain conflictId eventSeq
          ((λ plan, proposalAcknowledgement (pl_proposal plan) AckConflicted) <$> plan)).

(** ** Publishing a merge *)

(** The changes of a merge: what [base] and the two sides are. *)
Record merge_context := mk_merge {
  mc_vault : jstring; mc_device : jstring; mc_base : jstring; mc_main : jstring; mc_commit : jstring;
  mc_changes : list GitDiffEntry; mc_plan : option DirectoryMergePlan
}.

Definition merge_facts (m : merge_context) (sequence : Z) : record :=
  [(lit "merge_sequence", jint sequence); (lit "merge_policy_version", JStr MERGE_POLICY_VERSION);
   (lit "base_commit", JStr (mc_base m)); (lit "current_main", JStr (mc_main m)); (lit "device_commit", JStr (mc_commit m))].

(** [results] are the validator results, [rules] the metadata rules of a content merge. *)
Definition prepare_merge_tx (m : merge_context) (results rules : record) : transaction (Z * jstring) := λ w db,
  device ← requireDevice db (mc_device m);
  let '(sequence, db) := nextMergeSequence db (mc_vault m) in
  let '(operation, db) := startOperation w 0 db (mc_vault m) (Some (mc_device m)) OpServerMerge
    [(MAIN_REF, Some (mc_main m)); (d_device_ref device, Some (mc_commit m))] [(MAIN_REF, None)] None None in
  let db := update_operation (op_operation_id operation) (λ o,
    set_op_updated_at (nowIso w 10)
      (set_op_prepared_manifest (Some (merge_facts m sequence ++ [(lit "decision", JStr (lit "merge"));
          (lit "validator_results", JObj results)] ++ rules ++ [(lit "directory_plan", storedDirectoryPlan (mc_plan m))]))
        (set_op_status OpPrepared o))) db in
  Ok ((sequence, op_operation_id operation), db).

Definition commit_merge_tx (m : merge_context) (results : record) (sequence : Z) (operationId mergeCommit : jstring) : transaction Z := λ w db,
  _ ← requireOperation db operationId;
  let db := update_operation operationId (λ o,
    set_op_updated_at (nowIso w 0)
      (set_op_result (Some [(lit "decision", JStr (lit "merged")); (lit "merge_commit", JStr mergeCommit)])
        (set_op_target_commit (Some mergeCommit)
          (set_op_target_refs [(MAIN_REF, Some mergeCommit)] (set_op_status OpCommitted o))))) db in
  _ ← requireVault db (mc_vault m);
  device ← requireDevice db (mc_device m);
  let db := update_vault (mc_vault m) (λ v, set_v_updated_at (nowIso w 1) (set_v_current_main mergeCommit v)) db in
  let db := update_device (mc_device m) (set_d_status DSynced) db in
  let '(event, db) := appendEvent w 2 db EvMainAdvanced (mc_vault m) [(lit "device_id", mc_device m)]
    [(lit "previous_main", Some (mc_main m)); (lit "main", Some mergeCommit); (lit "device_commit", Some (mc_commit m))]
    ([(lit "decision", JStr (lit "merged"))] ++ merge_facts m sequence ++
     [(lit "validator_results", JObj results);
      (lit "changed_path_count", jint (Z.of_nat (length (changedPathSet (mc_changes m)))))]
     ++ directoryEventPayload (mc_plan m) (mc_device m)) in
  let db := commitDirectoryPlan w 10 db (mc_vault m) (mc_device m) (mc_commit m) (mc_plan m) (e_event_seq event) in
  let db := audit w 20 (Some (d_user_id device)) (Some (mc_device m)) (mc_vault m) "main_advanced" "vault" (Some (mc_vault m)) db in
  Ok (e_event_seq event, db).

(** Writing the merge and moving main: the commit, if one was written, and how it ended. *)
Definition write_merge (m : merge_context) (write : Z → sync jstring) (sequence : Z) (operationId : jstring)
    : prog call (option jstring * result unit) :=
  after (write sequence) (λ r, match r with
    | Throw e => Done (None, Throw e)
    | Ok mergeCommit =>
        after (_ ← git (ValidateTreeRootIgnorePolicy FromRepository (mc_vault m) mergeCommit);
               _ ← mutate (prepareMergeRefUpdate operationId mergeCommit);
               updateRef (mc_vault m) MAIN_REF mergeCommit (Some (mc_main m)))
          (λ r, Done (Some mergeCommit, r))
    end).

(** The shared part of the three merges: prepare, write, reconcile a failure with where
    main is, commit. *)
Definition publish_merge (m : merge_context) (results rules : record) (write : Z → sync jstring) (conflictPairs : list RenamePair)
    : sync PushResult :=
  '(sequence, operationId) ← mutate (prepare_merge_tx m results rules);
  let commit mergeCommit :=
    eventSeq ← mutate (commit_merge_tx m results sequence operationId mergeCommit);
    mret (PushMerged (mc_commit m) mergeCommit mergeCommit eventSeq
            ((λ plan, proposalAcknowledgement (pl_proposal plan) AckAccepted) <$> mc_plan m)) in
  after (write_merge m write sequence operationId) (λ '(mergeCommit, r), match r with
  | Throw error =>
      if is_class EGitDurability error then throw error else
      actualMain ← getRef (mc_vault m) MAIN_REF;
      let moved := match mergeCommit with Some mergeCommit => oeqb actualMain (Some mergeCommit) | None => false end in
      if moved then commit (default [] mergeCommit) else
      if negb (oeqb actualMain (Some (mc_main m))) then
        _ ← mutate (blockPreparedOperationForIntegrity operationId "merge main ref cannot be reconciled");
        throw blocked_integrity
      else
        _ ← mutate (abortOperation operationId "merge_git_error");
        if is_policy_error error then
          createConflict (mc_vault m) (mc_device m) (mc_base m) (mc_main m) (mc_commit m) (policyConflictPaths error)
            "root_ignore_merge_policy" (mc_plan m) (mc_commit m) conflictPairs
        else throw error
  | Ok _ =>
      match mergeCommit with
      | Some mergeCommit => commit mergeCommit
      | None => throw (plain_error "Prepared merge did not produce a commit.")
      end
  end).

(** ** [mergeDeviceCommit] *)

Definition hasRootIgnoreAdmission (vaultId commit main : jstring) (a : attestation) : sync bool :=
  proposed ← git (RootIgnoreOid FromRepository vaultId commit);
  canonical ← git (RootIgnoreOid FromRepository vaultId main);
  match at_root_ignore a with
  | None => mret (is_none proposed && is_none canonical)
  | Some oid =>
      if negb (oeqb oid proposed) then mret false else
      _ ← git (ValidateTreeRootIgnorePolicy FromRepository vaultId commit); mret true
  end.

Definition classifyDirectoryProposal (vaultId deviceId : jstring) (proposal : DirectoryProposal) : sync DirectoryMergePlan :=
  db ← snapshot;
  reads ← git HistoryReader;
  lift (@DirectoryIntents.classifyDirectoryProposal U reads directoryProposalRequestSha256 db vaultId deviceId proposal).

Definition classify_if_given (vaultId deviceId : jstring) (proposal : option DirectoryProposal) : sync (option DirectoryMergePlan) :=
  match proposal with
  | None => mret None
  | Some proposal => plan ← classifyDirectoryProposal vaultId deviceId proposal; mret (Some plan)
  end.

(** The fields of the rules; the vault row keeps them as JSON. *)
Definition metadataConflictRules (vaultId : jstring) : sync (list jsval) :=
  db ← snapshot;
  match find_row (has_vault_id vaultId) (db_vaults db) with
  | None => throw (AuthError 404 "not_found" "Resource not found." [])
  | Some vault =>
      fields ← lift (Frontmatter.validateMetadataConflictRules (JArr (default [] (v_metadata_conflict_rules vault))));
      mret (map rule_of fields)
  end.

Definition isNativeTextMergePath (path : jstring) : bool :=
  ends_with (lit ".md") path || ends_with (lit ".canvas") path || ends_with (lit ".base") path.

Definition write_tree_merge (m : merge_context) (tree : jstring) (strategy : string) (sequence : Z) : sync jstring :=
  git (CreateMergeCommit (mc_vault m) tree [mc_main m; mc_commit m]
    [(lit "base", JStr (mc_base m)); (lit "merge_sequence", jint sequence); (lit "device_id", JStr (mc_device m));
     (lit "strategy", JStr (lit strategy))]).

Definition tryIdentityOverlappingMerge (m : merge_context) (overlapping : list jstring) : sync PushResult :=
  publish_merge m [(lit "identity_only_merge", JStr (lit "ok")); (lit "overlapping_path_count", jint (Z.of_nat (length overlapping)))] []
    (λ sequence, git (CreateOverlayMergeCommit (mc_vault m) (mc_base m) (mc_main m) (mc_commit m) sequence (mc_device m))) [].

Definition tryCleanOverlappingMerge (m : merge_context) (overlapping : list jstring) (authoredBase : jstring)
    (mainRenames : list GitMergeRename) (rules : list jsval) (pairs : list RenamePair) : sync (option PushResult) :=
  if negb (forallb isNativeTextMergePath overlapping) then mret None else
  after (git (TryPolicyMergeTree (mc_vault m) (mc_base m) (mc_main m) (mc_commit m) overlapping authoredBase mainRenames rules pairs))
    (λ r, match r return sync (option PushResult) with
    | Throw error =>
        if is_class EGitMergeOwnership error then
          Some <$> createConflict (mc_vault m) (mc_device m) (mc_base m) (mc_main m) (mc_commit m) (affected_paths_of error)
                     "unexplained_native_merge_paths" (mc_plan m) (mc_commit m) pairs
        else throw error
    | Ok None => mret None
    | Ok (Some (tree, validatorResults)) =>
        let strategy := if is_lit (rget validatorResults "semantic_merge") "clean" then "semantic_clean"%string else "native_clean"%string in
        Some <$> publish_merge m validatorResults
          [(lit "metadata_conflict_rules", JArr rules);
           (lit "metadata_conflict_rules_sha256", JStr (sha256 (default [] (json_text (JArr rules)))))]
          (write_tree_merge m tree strategy) []
    end).

Definition disjoint_merge (m : merge_context) (naturalBase : jstring) (pairs : list RenamePair) : sync PushResult :=
  publish_merge m [(lit "disjoint_paths", JStr (lit "ok")); (lit "overlapping_path_count", jint 0)] []
    (λ sequence, tree ← git (CreateDisjointMergeTree (mc_vault m) naturalBase (mc_main m) (mc_commit m));
                 write_tree_merge m tree "disjoint_overlay" sequence) pairs.

(** The device's commit is in main already: only its directory changes count. *)
Definition directory_merge_tx (vaultId deviceId deviceCommit main : jstring) (plan : DirectoryMergePlan) : transaction Z := λ w db,
  _ ← requireDevice db deviceId;
  let db := update_device deviceId (set_d_status DSynced) db in
  let '(event, db) := appendEvent w 0 db EvMainAdvanced vaultId [(lit "device_id", deviceId)]
    [(lit "previous_main", Some main); (lit "main", Some main); (lit "device_commit", Some deviceCommit)]
    ([(lit "decision", JStr (lit "directory_metadata_merged"))] ++ directoryEventPayload (Some plan) deviceId) in
  let db := commitDirectoryPlan w 10 db vaultId deviceId deviceCommit (Some plan) (e_event_seq event) in
  Ok (e_event_seq event, db).

Definition synced_tx (vaultId deviceId : jstring) : transaction Z := λ w db,
  _ ← requireDevice db deviceId;
  Ok (latestEventSeq vaultId db, update_device deviceId (set_d_status DSynced) db).

(** [a || b] on sequence numbers. *)
Definition or_seq (a b : Z) : Z := if a =? 0 then b else a.

Definition find_proposal_result (db : MetadataDb) (vaultId deviceId : jstring) (proposal : option DirectoryProposal)
    : result (option DirectoryProposalResultRow) :=
  match proposal with
  | None => Ok None
  | Some proposal => findDirectoryProposalResult directoryProposalRequestSha256 db vaultId deviceId proposal
  end.

Definition merge_contained (vaultId deviceId deviceCommit main : jstring) (fallbackEventSeq : Z)
    (proposal : option DirectoryProposal) (a : attestation) : sync PushResult :=
  db ← snapshot;
  proposalResult ← lift (find_proposal_result db vaultId deviceId proposal);
  match proposal, proposalResult with
  | Some proposal, None =>
      admitted ← hasRootIgnoreAdmission vaultId deviceCommit main a;
      if negb admitted then
        createConflict vaultId deviceId main main deviceCommit [lit ".gitignore"] "root_ignore_capability_required" None deviceCommit (at_rename_pairs a)
      else
        plan ← classifyDirectoryProposal vaultId deviceId proposal;
        match pl_affectedRoots plan with
        | [] =>
            eventSeq ← mutate (directory_merge_tx vaultId deviceId deviceCommit main plan);
            mret (PushNoop deviceCommit main eventSeq (Some (proposalAcknowledgement proposal AckAccepted)))
        | roots => createConflict vaultId deviceId (default main (dp_base_main proposal)) main deviceCommit roots
                     "directory_overlap" (Some plan) deviceCommit (at_rename_pairs a)
        end
  | _, _ =>
      eventSeq ← mutate (synced_tx vaultId deviceId);
      mret (PushNoop deviceCommit main (or_seq (default eventSeq (pr_event_seq <$> proposalResult)) fallbackEventSeq)
              ((λ proposal, proposalAcknowledgement proposal AckDuplicate) <$> proposal))
  end.

(** The base the changes are compared with: the device's, if it is trusted history. *)
Definition merge_base (vaultId main deviceCommit : jstring) (proposalBase : option jstring) : sync (option (jstring * jstring) + jstring) :=
  naturalBase ← git (MergeBase FromRepository vaultId main deviceCommit);
  match proposalBase with
  | Some ((_ :: _) as base) =>
      exists_ ← git (CommitExists FromRepository vaultId base);
      inMain ← (if exists_ : bool then git (IsAncestor FromRepository vaultId base main) else mret false : sync bool);
      inDevice ← (if inMain : bool then git (IsAncestor FromRepository vaultId base deviceCommit) else mret false : sync bool);
      if inDevice : bool then mret (inl ((λ n, (base, n)) <$> naturalBase)) else mret (inr (lit "invalid_proposal_base"))
  | _ => mret (inl ((λ n, (n, n)) <$> naturalBase))
  end.

Definition merge_divergent (vaultId deviceId deviceCommit main base naturalBase : jstring) (detachedProposal : bool)
    (proposal : option DirectoryProposal) (a : attestation) : sync PushResult :=
  plan ← classify_if_given vaultId deviceId proposal;
  rules ← metadataConflictRules vaultId;
  baseTree ← git (ReadTree FromRepository vaultId base);
  naturalTree ← git (ReadTree FromRepository vaultId naturalBase);
  mainTree ← git (ReadTree FromRepository vaultId main);
  deviceTree ← git (ReadTree FromRepository vaultId deviceCommit);
  readBlob ← git (BlobReader vaultId);
  let pairs := at_rename_pairs a in
  let deviceChanges := git_name_status naturalTree deviceTree in
  let m := mk_merge vaultId deviceId base main deviceCommit deviceChanges plan in
  let conflict paths reason := createConflict vaultId deviceId base main deviceCommit paths reason plan deviceCommit pairs in
  match MergeDecision.mergeDeviceCommit readBlob baseTree naturalTree mainTree deviceTree
          (map (λ p, (rp_source_path p, rp_destination_path p)) pairs) detachedProposal (default [] (pl_affectedRoots <$> plan)) with
  | DConflict paths reason => conflict paths reason
  | DIdentity overlaps => tryIdentityOverlappingMerge m overlaps
  | DOverlap overlapping mainRenames =>
      merged ← tryCleanOverlappingMerge m overlapping naturalBase mainRenames rules pairs;
      match merged with
      | Some r => mret r
      | None => conflict (sorted_set (overlapping ++ pair_paths pairs)) "overlapping_paths"
      end
  | DDisjoint => disjoint_merge m naturalBase pairs
  end.

Definition mergeDeviceCommit (vaultId deviceId deviceCommit : jstring) (fallbackEventSeq : Z) (proposalBase : option jstring)
    (detachedProposal : bool) (proposal : option DirectoryProposal) (a : attestation) : sync PushResult :=
  main ← getRef vaultId MAIN_REF;
  match main with
  | None => mret (rejected "missing_main" "Server main is missing.")
  | Some main =>
    contained ← git (IsAncestor FromRepository vaultId deviceCommit main);
    if contained : bool then merge_contained vaultId deviceId deviceCommit main fallbackEventSeq proposal a else
    db ← snapshot;
    match findOpenConflict db vaultId deviceId deviceCommit with
    | Some existing =>
        db ← snapshot;
        mret (PushConflicted deviceCommit main (cf_conflict_id existing) (or_seq (latestEventSeq vaultId db) fallbackEventSeq) None)
    | None =>
      let conflict base reason paths :=
        createConflict vaultId deviceId base main deviceCommit paths reason None deviceCommit (at_rename_pairs a) in
      admitted ← hasRootIgnoreAdmission vaultId deviceCommit main a;
      if negb admitted then conflict main (lit "root_ignore_capability_required") [lit ".gitignore"] else
      bases ← merge_base vaultId main deviceCommit proposalBase;
      match bases with
      | inr reason => conflict [] reason []
      | inl None => conflict [] (lit "no_merge_base") []
      | inl (Some (base, naturalBase)) =>
          merge_divergent vaultId deviceId deviceCommit main base naturalBase detachedProposal proposal a
      end
    end
  end.


(** ** A commit the device's reference holds already *)

Definition admission_error (auth : AuthenticatedDevice) (operationId : jstring) (message : string) (error : js_error) : sync (option PushResult) :=
  if is_policy_error error then Some <$> rejectDevicePush auth operationId (err_code error) (lit message) else throw error.

Definition checkRootIgnoreAdmission (auth : AuthenticatedDevice) (operationId : jstring) (manifest : DevicePushManifest) (main : jstring)
    : sync (option PushResult) :=
  try_catch
    (admitted ← hasRootIgnoreAdmission (v_vault_id (ad_vault auth)) (pm_target_commit manifest) main (attestation_of manifest);
     if admitted : bool then mret None else
     Some <$> match pm_root_ignore manifest with
       | Some _ => rejectDevicePush auth operationId "root_ignore_oid_mismatch" "Root ignore identity does not match the proposed tree."
       | None => rejectDevicePush auth operationId "root_ignore_capability_required" "Root ignore capability is required."
       end)
    (admission_error auth operationId "Uploaded commit violates the root ignore policy.").

Definition root_ignore_fields (manifest : DevicePushManifest) : record :=
  [(lit "root_ignore_capability", null_or (λ _, JStr ROOT_IGNORE_V1) (pm_root_ignore manifest));
   (lit "root_ignore_oid", null_or text_or_null (pm_root_ignore manifest))].

(** [a.rename_pairs ?? b]. *)
Definition kept_pairs (manifest : option record) (pairs : option (list RenamePair)) : jsval :=
  match rget (default [] manifest) "rename_pairs" with JUndef | JNull => pairs_json pairs | v => v end.

Definition idempotent_tx (operation : SyncOperationRow) (targetCommit : jstring) (manifest : DevicePushManifest)
    (proposal : option DirectoryProposal) : transaction unit := λ w db,
  _ ← requireOperation db (op_operation_id operation);
  let proposalBase := default None (op_proposal_base operation) in
  Ok ((), update_operation (op_operation_id operation) (λ o,
    set_op_updated_at (nowIso w 0)
      (set_op_prepared_manifest (Some (spread (op_prepared_manifest o)
          ([(lit "proposal_base", text_or_null proposalBase);
            (lit "requested_base_commit", text_or_null (base_of manifest));
            (lit "rename_pairs", kept_pairs (op_prepared_manifest o) (pm_rename_pairs manifest))]
           ++ root_ignore_fields manifest ++ [(lit "directory_proposal", null_or encode_proposal proposal)])))
        (set_op_proposal_base (Some proposalBase)
          (set_op_result (Some [(lit "idempotent", JBool true); (lit "target_commit", JStr targetCommit)])
            (set_op_status OpCommitted o))))) db).

Definition finishExistingDeviceCommit (auth : AuthenticatedDevice) (operation : SyncOperationRow) (targetCommit : jstring)
    (proposal : option DirectoryProposal) (manifest : DevicePushManifest) : sync PushResult :=
  let vaultId := v_vault_id (ad_vault auth) in
  let deviceId := d_device_id (ad_device auth) in
  main ← getRef vaultId MAIN_REF;
  match main with
  | None =>
      _ ← mutate (abortOperation (op_operation_id operation) "missing_main");
      mret (rejected "missing_main" "Server main is missing.")
  | Some main =>
    db ← snapshot;
    existingResult ← lift (find_proposal_result db vaultId deviceId proposal);
    conflicts ← snapshot;
    let existingConflict := findOpenConflict conflicts vaultId deviceId targetCommit in
    let fallbackEventSeq := latestEventSeq vaultId db in
    rejection ← (match existingConflict, existingResult with
      | None, None =>
          contained ← git (IsAncestor FromRepository vaultId targetCommit main);
          if negb contained || negb (is_none proposal) then checkRootIgnoreAdmission auth (op_operation_id operation) manifest main
          else mret None
      | _, _ => mret None
      end : sync (option PushResult));
    match rejection with
    | Some r => mret r
    | None =>
      _ ← mutate (idempotent_tx operation targetCommit manifest proposal);
      let conflicted := match existingResult with Some r => bool_decide (pr_status r = PrConflicted) | None => false end in
      if negb (is_none existingConflict) || conflicted then
        match (match existingConflict with Some c => Some (cf_conflict_id c) | None => r ← existingResult; pr_conflict_id r end) with
        | Some ((_ :: _) as conflictId) =>
            mret (PushConflicted targetCommit main conflictId (default fallbackEventSeq (pr_event_seq <$> existingResult))
                    ((λ proposal, proposalAcknowledgement proposal AckConflicted) <$> proposal))
        | _ => throw (plain_error "Conflicted directory proposal is missing its conflict ID.")
        end
      else
        let merge := mergeDeviceCommit vaultId deviceId targetCommit fallbackEventSeq (default None (op_proposal_base operation)) false
                       proposal (attestation_of manifest) in
        contained ← git (IsAncestor FromRepository vaultId targetCommit main);
        if negb contained then merge else
        match proposal, existingResult with
        | Some _, None => merge
        | _, _ => mret (PushNoop targetCommit main (default fallbackEventSeq (pr_event_seq <$> existingResult))
                          ((λ proposal, proposalAcknowledgement proposal AckDuplicate) <$> proposal))
        end
    end
  end.

(** ** Validating the upload *)

Inductive DeviceRelation := RelInitial | RelFastForward | RelSuperseded | RelDivergent.
Definition relation_text (r : DeviceRelation) : string :=
  match r with RelInitial => "initial" | RelFastForward => "fast_forward" | RelSuperseded => "superseded" | RelDivergent => "divergent" end.
Definition UploadValidation : Type := option PushResult * DeviceRelation.

Definition refuse (auth : AuthenticatedDevice) (operationId code : jstring) (message : string) : sync UploadValidation :=
  r ← rejectDevicePush auth operationId code (lit message); mret (Some r, RelDivergent).

(** [None], or the code of the rejection. *)
Definition validateRenamePairEvidence (from : object_source) (vaultId targetCommit : jstring) (baseCommit : option jstring)
    (pairs : list RenamePair) : sync (option jstring) :=
  match baseCommit with
  | None | Some [] => mret (Some (lit "rename_base_required"))
  | Some baseCommit =>
    hasBase ← git (CommitExists from vaultId baseCommit);
    hasTarget ← (if hasBase : bool then git (CommitExists from vaultId targetCommit) else mret false : sync bool);
    if negb hasTarget then mret (Some (lit "invalid_rename_pair")) else
    authored ← git (IsAncestor from vaultId baseCommit targetCommit);
    if negb authored then mret (Some (lit "invalid_rename_pair")) else
    main ← getRef vaultId MAIN_REF;
    trusted ← (match main with Some main => git (IsAncestor from vaultId baseCommit main) | None => mret false end : sync bool);
    if negb trusted then mret (Some (lit "untrusted_base_commit")) else
    base ← git (ReadTree from vaultId baseCommit);
    target ← git (ReadTree from vaultId targetCommit);
    naturalBase ← git (MergeBase from vaultId (default [] main) targetCommit);
    match naturalBase with
    | None | Some [] => mret (Some (lit "no_merge_base"))
    | Some naturalBase =>
      natural ← git (ReadTree from vaultId naturalBase);
      let naturalPaths := changedPathSet (git_name_status natural target) in
      let unsupported p :=
        let source := rp_source_path p in let destination := rp_destination_path p in
        negb (present base source) || present base destination || present target source || negb (present target destination)
        || negb (present natural source) || present natural destination
        || negb (jmem source naturalPaths) || negb (jmem destination naturalPaths) in
      mret (if existsb unsupported pairs then Some (lit "invalid_rename_pair") else None)
    end
  end.

Definition alreadyPinnedLegacy (auth : AuthenticatedDevice) (manifest : DevicePushManifest) (currentDeviceRef : option jstring)
    (currentMain : jstring) : sync bool :=
  let vaultId := v_vault_id (ad_vault auth) in
  if negb (is_none (pm_root_ignore manifest)) || is_none currentDeviceRef then mret false else
  known ← git (CommitExists FromRepository vaultId (pm_target_commit manifest));
  contained ← (if known : bool then git (IsAncestor FromRepository vaultId (pm_target_commit manifest) currentMain) else mret false : sync bool);
  if negb contained then mret false else
  match pm_directory_proposal manifest with
  | None => mret true
  | Some proposal =>
      db ← snapshot;
      r ← lift (find_proposal_result db vaultId (d_device_id (ad_device auth)) (Some proposal));
      mret (negb (is_none r))
  end.

(** The checks of the upload in order; [None] when none refuses it. *)
Definition validate_policy (auth : AuthenticatedDevice) (operationId : jstring) (manifest : DevicePushManifest)
    (currentDeviceRef : option jstring) (currentMain : jstring) : sync (option UploadValidation) :=
  let vaultId := v_vault_id (ad_vault auth) in
  pinned ← alreadyPinnedLegacy auth manifest currentDeviceRef currentMain;
  if pinned : bool then mret None else
  try_catch
    (proposed ← git (RootIgnoreOid FromUpload vaultId (pm_target_commit manifest));
     canonical ← git (RootIgnoreOid FromRepository vaultId currentMain);
     match pm_root_ignore manifest with
     | None =>
         if negb (is_none proposed) || negb (is_none canonical)
         then Some <$> refuse auth operationId "root_ignore_capability_required" "Root ignore capability is required."
         else mret None
     | Some oid =>
         if negb (oeqb oid proposed)
         then Some <$> refuse auth operationId "root_ignore_oid_mismatch" "Root ignore identity does not match the proposed tree."
         else _ ← git (ValidateTreeRootIgnorePolicy FromUpload vaultId (pm_target_commit manifest)); mret None
     end)
    (λ error, if is_policy_error error
              then Some <$> refuse auth operationId (err_code error) "Uploaded commit violates the root ignore policy."
              else throw error).

Definition validate_pairs (auth : AuthenticatedDevice) (operationId : jstring) (manifest : DevicePushManifest) : sync (option UploadValidation) :=
  match pm_rename_pairs manifest with
  | Some ((_ :: _) as pairs) =>
      reason ← validateRenamePairEvidence FromUpload (v_vault_id (ad_vault auth)) (pm_target_commit manifest) (base_of manifest) pairs;
      match reason with
      | Some reason => Some <$> refuse auth operationId reason "Rename pair evidence does not match the proposal trees."
      | None => mret None
      end
  | _ => mret None
  end.

Definition validate_base (auth : AuthenticatedDevice) (operationId : jstring) (manifest : DevicePushManifest) (currentMain : jstring)
    : sync (option UploadValidation) :=
  let vaultId := v_vault_id (ad_vault auth) in
  match base_of manifest with
  | Some ((_ :: _) as base) =>
      exists_ ← git (CommitExists FromUpload vaultId base);
      trusted ← (if exists_ : bool then git (IsAncestor FromUpload vaultId base currentMain) else mret false : sync bool);
      if negb trusted then Some <$> refuse auth operationId "untrusted_base_commit" "Proposal base is not trusted vault history." else
      authored ← git (IsAncestor FromUpload vaultId base (pm_target_commit manifest));
      if negb authored then Some <$> refuse auth operationId "invalid_base_commit" "Proposal base is not an ancestor of the uploaded commit." else
      mret None
  | _ => mret None
  end.

Definition device_relation (vaultId target : jstring) (currentDeviceRef : option jstring) : sync DeviceRelation :=
  match currentDeviceRef with
  | None => mret RelInitial
  | Some current =>
      forward ← git (IsAncestor FromUpload vaultId current target);
      if forward : bool then mret RelFastForward else
      behind ← git (IsAncestor FromUpload vaultId target current);
      mret (if behind : bool then RelSuperseded else RelDivergent)
  end.

(** [if (refusal) return refusal]. *)
Definition or_refusal {A} (check : sync (option A)) (next : sync A) : sync A :=
  refusal ← check; match refusal with Some r => mret r | None => next end.

Definition validateUploadReader (auth : AuthenticatedDevice) (operationId : jstring) (manifest : DevicePushManifest)
    (currentDeviceRef : option jstring) (currentMain : jstring) : sync UploadValidation :=
  let vaultId := v_vault_id (ad_vault auth) in
  let target := pm_target_commit manifest in
  try_catch
    (exists_ ← git (CommitExists FromUpload vaultId target);
     if negb exists_ then refuse auth operationId "missing_target_commit" "Target commit is not present." else
     or_refusal
       (after (git (ValidateTreePathPolicy FromUpload vaultId target)) (λ r, match r return sync (option UploadValidation) with
        | Ok _ => mret None
        | Throw error => if is_class EPathPolicy error
                         then Some <$> refuse auth operationId (err_code error) "Uploaded commit violates the vault path policy."
                         else throw error
        end))
     (or_refusal (validate_policy auth operationId manifest currentDeviceRef currentMain)
     (or_refusal (validate_pairs auth operationId manifest)
     (or_refusal (validate_base auth operationId manifest currentMain)
     (relation ← device_relation vaultId target currentDeviceRef;
      mret (None, relation))))))
    (λ error, if is_policy_error error
              then refuse auth operationId (err_code error) "Uploaded commit violates the vault policy."
              else throw error).

(** With a staged transfer the objects are in place; otherwise the pack is unpacked first. *)
Definition validate_upload (staged : bool) (auth : AuthenticatedDevice) (operationId : jstring) (manifest : DevicePushManifest)
    (currentDeviceRef : option jstring) (currentMain : jstring) : sync UploadValidation :=
  if staged then validateUploadReader auth operationId manifest currentDeviceRef currentMain else
  try_catch
    (_ ← git (QuarantineUpload (v_vault_id (ad_vault auth)));
     validateUploadReader auth operationId manifest currentDeviceRef currentMain)
    (λ error, if is_class EGitMalformedPack error
              then refuse auth operationId "malformed_packfile" "Malformed Git packfile."
              else throw error).


(** ** Admission *)

(** Rows of the document and of the archive by identifier, in order of admission. *)
Definition by_admission (a b : SyncOperationRow * Z) : bool :=
  (a.2 <? b.2) || (a.2 =? b.2) && match locale_compare (op_operation_id a.1) (op_operation_id b.1) with Gt => false | _ => true end.
Definition admissions (hot archived : list (SyncOperationRow * Z)) : list (SyncOperationRow * Z) :=
  isort by_admission (mvalues (fold_left (λ m item, mset m (op_operation_id item.1) item) (hot ++ archived) [])).
Definition with_sequence (row : SyncOperationRow) : SyncOperationRow * Z :=
  (row, default MAX_SAFE_INTEGER (op_operation_sequence row)).

Definition is_push_of (vaultId deviceId : jstring) (row : SyncOperationRow) : bool :=
  (op_vault_id row =s? vaultId) && oeqb (op_device_id row) (Some deviceId) && bool_decide (op_operation_type row = OpDevicePush).

Definition check_attempt (hot : list SyncOperationRow) (archived : option (SyncOperationRow * Z)) (attemptId attemptHash : jstring) : result unit :=
  let hotAttempt := map with_sequence (List.filter (λ row, is_lit (manifest_field row "attempt_id") attemptId) hot) in
  match admissions hotAttempt (match archived with Some item => [item] | None => [] end) with
  | prior :: _ => if is_lit (manifest_field prior.1 "attempt_hash") attemptHash then Ok ()
                  else Throw (AuthError 409 "attempt_mismatch" "Upload attempt does not match its original request." [])
  | [] => Ok ()
  end.

(** The earlier row the new one continues. *)
Definition admitted_row (rows : list (SyncOperationRow * Z)) : option SyncOperationRow :=
  match find_row (λ item, negb (is_none (op_proposal_base item.1))) rows with
  | Some item => Some item.1
  | None => fst <$> find_row (λ item, match op_status item.1 with OpPrepared | OpCommitted => true | _ => false end) rows
  end.

(** A value compared with a commit or [null]. *)
Definition same_commit (v : jsval) (c : option jstring) : bool :=
  match v, c with JStr s, Some c => s =s? c | JNull, None => true | _, _ => false end.

Definition check_admitted (admitted : option SyncOperationRow) (manifest : DevicePushManifest) : result unit :=
  match admitted with
  | None => Ok ()
  | Some row =>
      _ ← (match op_proposal_base row with
           | Some base => if same_commit (nullish_or (manifest_field row "requested_base_commit") (text_or_null base)) (base_of manifest)
                          then Ok () else Throw (AuthError 409 "proposal_base_mismatch" "Proposal base does not match its original admission." [])
           | None => Ok ()
           end : result unit);
      if stable_text (nullish_or (manifest_field row "rename_pairs") JNull) =s? stable_text (pairs_json (pm_rename_pairs manifest))
      then Ok () else Throw (AuthError 409 "rename_pairs_mismatch" "Rename pairs do not match their original admission." [])
  end.

Definition admit_tx (auth : AuthenticatedDevice) (manifest : DevicePushManifest) (attempt : option (jstring * jstring))
    (archivedAttempt : option (SyncOperationRow * Z)) (archivedAdmissions : list (SyncOperationRow * Z)) : transaction SyncOperationRow := λ w db,
  let vaultId := v_vault_id (ad_vault auth) in
  device ← requireDevice db (d_device_id (ad_device auth));
  let pushes := List.filter (is_push_of vaultId (d_device_id device)) (db_sync_operations db) in
  _ ← (match attempt with
       | Some (attemptId, attemptHash) => check_attempt pushes archivedAttempt attemptId attemptHash
       | None => Ok ()
       end : result unit);
  let hotAdmissions := map with_sequence (List.filter (λ row, oeqb (op_target_commit row) (Some (pm_target_commit manifest))) pushes) in
  let admitted := admitted_row (admissions hotAdmissions archivedAdmissions) in
  _ ← check_admitted admitted manifest;
  let '(operation, db) := startOperation w 0 db vaultId (Some (d_device_id device)) OpDevicePush
    [(d_device_ref device, pm_expected_device_ref manifest)] [(d_device_ref device, Some (pm_target_commit manifest))]
    (Some (pm_target_commit manifest)) None in
  let started o := match attempt with
    | Some (attemptId, attemptHash) =>
        set_op_prepared_manifest (Some [(lit "attempt_id", JStr attemptId); (lit "attempt_hash", JStr attemptHash)]) o
    | None => o
    end in
  let continued o := match admitted with
    | Some row =>
        let proposalBase := default None (op_proposal_base row) in
        set_op_prepared_manifest (Some (spread (op_prepared_manifest o)
          [(lit "proposal_base", text_or_null proposalBase); (lit "requested_base_commit", text_or_null (base_of manifest));
           (lit "rename_pairs", nullish_or (manifest_field row "rename_pairs") JNull)]))
          (set_op_proposal_base (Some proposalBase) o)
    | None => o
    end in
  Ok (continued (started operation), update_operation (op_operation_id operation) (λ o, continued (started o)) db).

(** ** [normalizeDirectoryProposal] *)

Definition legacy_intent (device : DeviceRow) (index : nat) (intent : DirectoryIntent) : DirectoryProposalIntent :=
  mk_DirectoryProposalIntent (in_op intent) (in_path intent)
    (lit "legacy_" ++ take 24 (sha256 (op_string (in_op intent) ++ NUL :: in_path intent ++ NUL :: dec (Z.of_nat index))))
    (Z.of_nat index) PvLegacy (d_last_applied_main device) (d_last_applied_event_seq device) None false None.

Definition proposal_body (device : DeviceRow) (intents : list DirectoryProposalIntent) : jsval :=
  JObj [(lit "schema_version", jint 2); (lit "base_main", text_or_null (d_last_applied_main device));
        (lit "base_event_seq", jint (d_last_applied_event_seq device)); (lit "intents", JArr (map encode_proposal_intent intents))].

Definition normalize_proposal (reads : GitReads) (db : MetadataDb) (deviceId targetCommit : jstring) (proposal : option DirectoryProposal)
    (legacyIntents : list DirectoryIntent) : result (option DirectoryProposal) :=
  device ← requireDevice db deviceId;
  match proposal with
  | Some proposal =>
      _ ← findDirectoryProposalResult directoryProposalRequestSha256 db (d_vault_id device) deviceId proposal;
      if @hasUsableDirectoryProposalBaseline reads db device proposal then Ok (Some proposal)
      else Throw (directory_error "stale_directory_proposal_base" "Directory proposal does not match the device acknowledged baseline.")
  | None =>
      match legacyIntents with
      | [] => Ok None
      | _ =>
        if is_none (d_last_applied_explicit_dirs device)
        then Throw (directory_error "directory_snapshot_unavailable" "The device directory baseline is unavailable.") else
        let intents := imap (legacy_intent device) legacyIntents in
        Ok (Some (mk_DirectoryProposal
          (lit "dirprop_" ++ sha256 (stable_text (JArr [JStr deviceId; JStr targetCommit; proposal_body device intents])))
          (d_last_applied_main device) (d_last_applied_event_seq device) intents))
      end
  end.

Definition normalizeDirectoryProposal (manifest : DevicePushManifest) (deviceId : jstring) : sync (option DirectoryProposal) :=
  db ← snapshot;
  reads ← git HistoryReader;
  lift (normalize_proposal reads db deviceId (pm_target_commit manifest) (pm_directory_proposal manifest)
          (default [] (pm_directory_intents manifest))).

(** ** Accepting *)

Definition prepare_push_tx (auth : AuthenticatedDevice) (operation : SyncOperationRow) (manifest : DevicePushManifest)
    (currentDeviceRef : option jstring) (relation : DeviceRelation) (proposal : option DirectoryProposal) : transaction unit := λ w db,
  _ ← requireOperation db (op_operation_id operation);
  let proposalBase := default (base_of manifest) (op_proposal_base operation) in
  Ok ((), update_operation (op_operation_id operation) (λ o,
    set_op_updated_at (nowIso w 0)
      (set_op_prepared_manifest (Some (spread (op_prepared_manifest o)
          ([(lit "actor", JObj [(lit "user_id", JStr (u_user_id (ad_user auth))); (lit "device_id", JStr (d_device_id (ad_device auth)))]);
            (lit "operation_type", JStr (lit "device_push")); (lit "proposal_base", text_or_null proposalBase);
            (lit "requested_base_commit", text_or_null (base_of manifest)); (lit "rename_pairs", pairs_json (pm_rename_pairs manifest));
            (lit "expected_device_ref", text_or_null currentDeviceRef); (lit "target_commit", JStr (pm_target_commit manifest));
            (lit "validation", JObj [(lit "object_integrity", JStr (lit "ok")); (lit "path_policy", JStr (lit "ok"));
               (lit "changed_path_policy", JStr (lit "ok")); (lit "fast_forward", JStr (lit (relation_text relation)));
               (lit "base_commit", text_or_null (base_of manifest))]);
            (lit "directory_proposal", null_or encode_proposal proposal)] ++ root_ignore_fields manifest)))
        (set_op_expected_refs [(d_device_ref (ad_device auth), currentDeviceRef)]
          (set_op_proposal_base (Some proposalBase) (set_op_status OpPrepared o))))) db).

Definition still_prepared_tx (operationId : jstring) : transaction unit := λ w db,
  operation ← requireOperation db operationId;
  if negb (bool_decide (op_status operation = OpPrepared)) then Throw (plain_error "Sync operation is not prepared.") else
  Ok ((), update_operation operationId (set_op_updated_at (nowIso w 0)) db).

Definition commit_push_tx (auth : AuthenticatedDevice) (operationId target : jstring) : transaction Z := λ w db,
  let vaultId := v_vault_id (ad_vault auth) in
  let deviceId := d_device_id (ad_device auth) in
  _ ← requireOperation db operationId;
  let db := update_operation operationId (λ o,
    set_op_updated_at (nowIso w 0) (set_op_result (Some [(lit "device_ref", JStr target)]) (set_op_status OpCommitted o))) db in
  _ ← requireDevice db deviceId;
  let db := update_device deviceId (λ d,
    set_d_last_seen_at (Some (nowIso w 1)) (set_d_status DAhead (set_d_device_ref_head (Some target) d))) db in
  vault ← requireVault db vaultId;
  let '(event, db) := appendEvent w 2 db EvDeviceRefUpdated vaultId [(lit "device_id", deviceId)]
    [(lit "device_ref", Some target); (lit "main", Some (v_current_main vault))] [(lit "device_id", JStr deviceId)] in
  Ok (e_event_seq event, db).

Definition divergent_tx (operationId : jstring) (r : PushResult) : transaction unit := λ w db,
  _ ← requireOperation db operationId;
  Ok ((), update_operation operationId (λ o,
    set_op_updated_at (nowIso w 0)
      (set_op_result (Some [(lit "decision", JStr (lit "conflict"));
          (lit "conflict_id", match r with PushConflicted _ _ id _ _ => JStr id | _ => JNull end)])
        (set_op_status OpCommitted o))) db).

Definition acceptDivergentDeviceCommit (auth : AuthenticatedDevice) (operationId currentDeviceRef currentMain deviceCommit : jstring)
    (proposal : option DirectoryProposal) (pairs : list RenamePair) : sync PushResult :=
  let vaultId := v_vault_id (ad_vault auth) in
  let deviceId := d_device_id (ad_device auth) in
  own ← git (MergeBase FromRepository vaultId currentDeviceRef deviceCommit);
  sharedBase ← (match own with Some _ => mret own | None => git (MergeBase FromRepository vaultId currentMain deviceCommit) end : sync (option jstring));
  deviceTree ← git (ReadTree FromRepository vaultId deviceCommit);
  changed ← (match sharedBase with
    | Some ((_ :: _) as base) => baseTree ← git (ReadTree FromRepository vaultId base); mret (changedPathSet (git_name_status baseTree deviceTree))
    | _ => mret (map_to_list deviceTree).*1
    end : sync (list jstring));
  plan ← classify_if_given vaultId deviceId proposal;
  r ← createConflict vaultId deviceId (default currentMain sharedBase) currentMain deviceCommit
        (sorted_set (changed ++ pair_paths pairs ++ default [] (pl_affectedRoots <$> plan)))
        "same_device_history_divergence" plan currentDeviceRef pairs;
  _ ← mutate (divergent_tx operationId r);
  mret r.

(** The device's commit moves its reference and is merged. *)
Definition acceptDeviceCommit (auth : AuthenticatedDevice) (operation : SyncOperationRow) (manifest : DevicePushManifest)
    (currentDeviceRef : option jstring) (currentMain : jstring) (relation : DeviceRelation) (proposal : option DirectoryProposal)
    : sync PushResult :=
  let vaultId := v_vault_id (ad_vault auth) in
  let device := ad_device auth in
  let target := pm_target_commit manifest in
  _ ← mutate (prepare_push_tx auth operation manifest currentDeviceRef relation proposal);
  _ ← git (ImportUpload vaultId);
  match relation, currentDeviceRef with
  | RelDivergent, Some ((_ :: _) as current) =>
      acceptDivergentDeviceCommit auth (op_operation_id operation) current currentMain target proposal (default [] (pm_rename_pairs manifest))
  | _, _ =>
    _ ← mutate (still_prepared_tx (op_operation_id operation));
    _ ← updateRef vaultId (d_device_ref device) target currentDeviceRef;
    refEventSeq ← mutate (commit_push_tx auth (op_operation_id operation) target);
    let base := base_of manifest in
    let acknowledged :=
      oeqb (d_last_applied_main device) base
      || negb (is_none (d_last_applied_main device)) && oeqb (pm_client_known_main manifest) base in
    let detached := negb (bool_decide (d_onboarding_status device = Some OnbPending)) && is_none currentDeviceRef
      && negb (is_none base) && negb acknowledged in
    mergeDeviceCommit vaultId (d_device_id device) target refEventSeq (default base (op_proposal_base operation)) detached proposal
      (attestation_of manifest)
  end.

Definition deviceBlockRejection (deviceId : jstring) : sync (option (jstring * jstring * DeviceStatus)) :=
  db ← snapshot;
  mret (match d_status <$> find_row (has_device_id deviceId) (db_devices db) with
        | Some DReviewNeeded => Some (lit "device_blocked", lit "Device has an open conflict that requires review.", DReviewNeeded)
        | Some DBlockedRecovery => Some (lit "device_blocked", lit "Device requires recovery before more uploads are accepted.", DBlockedRecovery)
        | _ => None
        end).

(** Why a device that is being connected may not push, if so. *)
Definition onboarding_refusal (device : DeviceRow) (manifest : DevicePushManifest) (currentDeviceRef : option jstring) : option (string * string) :=
  if negb (bool_decide (d_onboarding_status device = Some OnbPending)) then None
  else if bool_decide (d_onboarding_mode device = Some ModeUseServer)
  then Some ("onboarding_apply_required", "Apply server state before uploading local changes.")%string
  else if negb (is_none currentDeviceRef)
  then Some ("onboarding_completion_required", "Complete onboarding before publishing another proposal.")%string
  else if negb (otruthy (d_initial_proposal_base device)) || is_none (d_initial_proposal_kind device)
          || negb (bool_decide (pm_base_commit manifest = Some (d_initial_proposal_base device)))
  then Some ("invalid_onboarding_proposal", "Initial onboarding proposal does not match the approved base.")%string
  else None.

Definition reject_with (auth : AuthenticatedDevice) (operation : SyncOperationRow) (code message : string) : sync PushResult :=
  rejectDevicePush auth (op_operation_id operation) (lit code) (lit message).

(** The rename pairs admitted before count. *)
Definition readmitted (manifest : DevicePushManifest) (admittedPairs : jsval) : sync DevicePushManifest :=
  if is_array admittedPairs then
    match parseRenamePairs admittedPairs with
    | Ok pairs => mret (mk_push (pm_vault_id manifest) (pm_device_id manifest) (pm_expected_device_ref manifest) (pm_target_commit manifest)
        (pm_packfile_sha256 manifest) (pm_packfile_bytes manifest) (pm_client_known_main manifest) (pm_plugin_version manifest)
        (pm_base_commit manifest) (Some pairs) (pm_attempt_id manifest) (pm_root_ignore manifest) (pm_directory_intents manifest)
        (pm_directory_proposal manifest))
    | Throw _ => throw (plain_error "Prepared rename pair identity is invalid.")
    end
  else mret manifest.

(** The device's reference holds the target already. *)
Definition integrate_held (auth : AuthenticatedDevice) (operation : SyncOperationRow) (manifest : DevicePushManifest) (admittedPairs : jsval)
    (proposal : option DirectoryProposal) : sync PushResult :=
  let target := pm_target_commit manifest in
  rejection ← (match pm_rename_pairs manifest with
    | Some ((_ :: _) as pairs) =>
        if is_array admittedPairs then mret None
        else validateRenamePairEvidence FromRepository (v_vault_id (ad_vault auth)) target (base_of manifest) pairs
    | _ => mret None
    end : sync (option jstring));
  match rejection with
  | Some code => rejectDevicePush auth (op_operation_id operation) code (lit "Rename pair evidence does not match the proposal trees.")
  | None => finishExistingDeviceCommit auth operation target proposal manifest
  end.

(** A superseded commit is finished as an existing one; the result names the device's reference. *)
Definition with_device_ref (current : jstring) (r : PushResult) : PushResult :=
  match r with
  | PushNoop _ main seq ack => PushNoop current main seq ack
  | PushMerged _ main commit seq ack => PushMerged current main commit seq ack
  | PushConflicted _ main id seq ack => PushConflicted current main id seq ack
  | PushRejected _ _ => r
  end.

Definition integrate_new (staged : bool) (auth : AuthenticatedDevice) (operation : SyncOperationRow) (manifest : DevicePushManifest)
    (currentDeviceRef : option jstring) (currentMain : jstring) (proposal : option DirectoryProposal) : sync PushResult :=
  match onboarding_refusal (ad_device auth) manifest currentDeviceRef with
  | Some (code, message) => reject_with auth operation code message
  | None =>
    validation ← validate_upload staged auth (op_operation_id operation) manifest currentDeviceRef currentMain;
    match validation, currentDeviceRef with
    | (Some rejection, _), _ => mret rejection
    | (None, RelSuperseded), Some ((_ :: _) as current) =>
        with_device_ref current <$> finishExistingDeviceCommit auth operation (pm_target_commit manifest) proposal manifest
    | (None, relation), _ => acceptDeviceCommit auth operation manifest currentDeviceRef currentMain relation proposal
    end
  end.

(** The body of [integrateDeviceCommit] once the operation row exists. *)
Definition integrate_admitted (maxUploadBytes : Z) (auth : AuthenticatedDevice) (manifest : DevicePushManifest) (pack : option (Z * jstring))
    (operation : SyncOperationRow) : sync PushResult :=
  let vaultId := v_vault_id (ad_vault auth) in
  let device := ad_device auth in
  let admittedPairs := manifest_field operation "rename_pairs" in
  manifest ← readmitted manifest admittedPairs;
  let bad_pack := match pack with
    | Some (bytes, digest) => negb (pm_packfile_bytes manifest =? bytes) || (maxUploadBytes <? bytes) || negb (digest =s? pm_packfile_sha256 manifest)
    | None => false
    end in
  if bad_pack then reject_with auth operation "invalid_packfile" "Packfile does not match the manifest." else
  proposal ← normalizeDirectoryProposal manifest (d_device_id device);
  currentDeviceRef ← getRef vaultId (d_device_ref device);
  currentMain ← getRef vaultId MAIN_REF;
  match currentMain with
  | None => reject_with auth operation "missing_main" "Server main is missing."
  | Some currentMain =>
    block ← deviceBlockRejection (d_device_id device);
    match block with
    | Some (code, message, DBlockedRecovery) => rejectDevicePush auth (op_operation_id operation) code message
    | _ =>
      if oeqb currentDeviceRef (Some (pm_target_commit manifest)) then integrate_held auth operation manifest admittedPairs proposal else
      match block with
      | Some (code, message, _) => rejectDevicePush auth (op_operation_id operation) code message
      | None => integrate_new (is_none pack) auth operation manifest currentDeviceRef currentMain proposal
      end
    end
  end.

Definition failure_reason (e : js_error) : jstring :=
  if is_auth_error e then err_code e else if is_class EGitCommand e then lit "server_git_error" else lit "unexpected_error".

(** [pack] is the size and digest of an upload in one piece, [None] for a staged one. *)
Definition integrateDeviceCommit (maxUploadBytes : Z) (unavailable : bool) (auth : AuthenticatedDevice) (manifest : DevicePushManifest)
    (pack : option (Z * jstring)) : sync PushResult :=
  let vaultId := v_vault_id (ad_vault auth) in
  let deviceId := d_device_id (ad_device auth) in
  if unavailable then throw transfer_unavailable else
  if bool_decide (v_status (ad_vault auth) = VBlockedIntegrity)
  then mret (rejected "blocked_integrity" "Vault persistent state failed integrity checks.") else
  if negb (pm_vault_id manifest =s? vaultId) || negb (pm_device_id manifest =s? deviceId)
  then mret (rejected "not_found" "Resource not found.") else
  let attempt := (λ id, (id, sha256 (stable_text (JObj
    [(lit "manifest", encode_push manifest); (lit "transport", JStr (lit (if is_none pack then "chunk" else "direct")))]))))
    <$> pm_attempt_id manifest in
  try_finally
    (after (archivedAttempt ← (match attempt with
              | Some (attemptId, _) => perform (Archive (FindAttempt vaultId deviceId attemptId))
              | None => mret None
              end : sync (option (SyncOperationRow * Z)));
            archivedAdmissions ← perform (Archive (FindTargetCandidates vaultId deviceId (pm_target_commit manifest)));
            mutate (admit_tx auth manifest attempt archivedAttempt archivedAdmissions))
      (λ admitted, match admitted return sync PushResult with
       | Throw e => throw (if is_class EGitDurability e then transfer_unavailable else e)
       | Ok operation =>
           try_catch (integrate_admitted maxUploadBytes auth manifest pack operation)
             (λ e, let e := if is_class EGitDurability e then transfer_unavailable else e in
                   _ ← mutate (abortOperation (op_operation_id operation) (failure_reason e));
                   throw e)
       end))
    (perform (ArchiveCompletedHistory vaultId)).

End push.
