(* ===== verification/PushFacts.v ===== *)
(** * The transactions of a push, and where they leave the vault (lemmas on PushService.v)

    The push is in one of a few states ([during], [pushing], [pushed], [merging],
    [advanced]); every transaction and every move of a reference leads from one to
    another, and each is recoverable. *)

From S2P Require Export PushService Recoverable.
From S2P Require ClientRecovery.

(** ** Calls *)

Section calls.
Context `{Nm : Numerals} `{Sh : Sha256} `{F : Faults} (v d : jstring).

Local Abbreviation I := (recoverable v d).
Local Abbreviation rely := (others v d).
Local Abbreviation hoare := (hoare (call_step v d) rely I).
Local Abbreviation quiet := (quiet (call_step v d) rely I).

(** An assertion about the references and the columns of the document. *)
Class Settled (P : durable → Prop) := {
  settled_assertion :: Assertion rely I P;
  settled_same s db : P s → core_of db = core_of (du_db s) → P (with_db db s)
}.

Section call_rules.
Context (P : durable → Prop) `{!Settled P}.

Lemma quiet_git {A} (q : git_query A) : quiet P (git q).
Proof. apply hoare_call; [apply _| |intros; apply _|apply _]. intros s r s' Hs ->. by destruct r. Qed.
Lemma quiet_archive {A} (q : archive_query A) : quiet P (perform (Archive q)).
Proof. apply hoare_call; [apply _| |intros; apply _|apply _]. intros s r s' Hs ->. by destruct r. Qed.
Lemma quiet_snapshot : quiet P snapshot.
Proof. apply hoare_call; [apply _| |intros; apply _|apply _]. intros s r s' Hs [-> _]. by destruct r. Qed.
Lemma quiet_get_ref vault ref : quiet P (getRef vault ref).
Proof. apply hoare_call; [apply _| |intros; apply _|apply _]. intros s r s' Hs [-> _]. by destruct r. Qed.

Lemma hoare_mutate {A} (fn : transaction A) R E : (∀ a, Assertion rely I (R a)) → Assertion rely I E →
  (∀ s, P s → E s) →
  (∀ s w a db c, P s → fresh w (du_db s) → fn w (du_db s) = Ok (a, db) → core_of c = core_of db →
     R a (with_db c s) ∧ (store_may_fail s → E (with_db c s))) →
  hoare P (mutate fn) R E.
Proof.
  intros HR HE HPE H. apply hoare_call; [apply _| |done|done]. intros s r s' Hs (w & Hfresh & Hr).
  destruct (run_cases w (fn w) (du_db s)) as [(e & _ & Er)|(a & db & h & Ef & Er)]; rewrite Er in Hr.
  - destruct Hr as [-> ->]. auto.
  - destruct (H s w a db (committed h db) Hs Hfresh Ef (core_committed h db)) as [H1 H2].
    destruct Hr as [[-> ->]|([e ->] & Hmay & [->| ->])]; auto.
Qed.

Lemma quiet_mutate {A} (fn : transaction A) :
  (∀ s w a db, P s → fresh w (du_db s) → fn w (du_db s) = Ok (a, db) → P (with_db db s)) → quiet P (mutate fn).
Proof.
  intros H. apply hoare_mutate; [intros; apply _|apply _|done|]. intros s w a db c Hs Hfresh Hf Hc.
  assert (P (with_db c s)); [|done]. by eapply (settled_same (with_db db s) c); eauto.
Qed.

Lemma quiet_mutate_same {A} (fn : transaction A) :
  (∀ w db a db', fn w db = Ok (a, db') → core_of db' = core_of db) → quiet P (mutate fn).
Proof. intros H. apply quiet_mutate. intros s w a db Hs _ Hf. eapply settled_same; eauto. Qed.

End call_rules.

#[export] Instance settled_and P Q : Settled P → Settled Q → Settled (λ s, P s ∧ Q s).
Proof.
  intros [[H1 H2] H3] [[H4 H5] H6]. split; [split; [apply _|intros s []; auto]|]. intros s db []. eauto.
Qed.

(** An assertion that does not reach [I] by itself, next to one that does. *)
Class Framed (P : durable → Prop) := {
  framed_stable :: Stable rely P;
  framed_same s db : P s → core_of db = core_of (du_db s) → P (with_db db s)
}.
#[export] Instance settled_framed P Q : Settled P → Framed Q → Settled (λ s, P s ∧ Q s).
Proof.
  intros [[H1 H2] H3] [H4 H6]. split; [split; [apply _|intros s []; auto]|]. intros s db []. eauto.
Qed.
#[export] Instance framed_ref ref x : Framed (λ s, ref_at s v ref = x).
Proof. split; [apply _|done]. Qed.
#[export] Instance framed_pure φ : Framed (λ _, φ).
Proof. split; [apply _|done]. Qed.
#[export] Instance framed_shaped id shape : Framed (shaped v id shape).
Proof.
  split; [apply _|]. intros s db (o & Ho & H) E. exists o. split; [|done].
  change (o ∈ c_operations (core_of (du_db (with_db db s)))). cbn [du_db with_db]. by rewrite E.
Qed.
#[export] Instance settled_held M : Settled (held v d M).
Proof. split; [split; [apply _|]|]. { intros s H. left. by exists M. } intros s db H E. by apply held_same. Qed.
#[export] Instance settled_moved o ref t : Settled (moved v d o ref t).
Proof.
  split; [split; [apply _|]|]. { intros s H. right. by exists o, ref, t. }
  intros s db (Hb & H) E. split; [|done]. destruct s as [db0 refs]. by apply (base_same _ _ _ _ (mk_durable db0 refs) db0).
Qed.


#[export] Instance settled_ex {X} (P : X → durable → Prop) : (∀ x, Settled (P x)) → Settled (λ s, ∃ x, P x s).
Proof.
  intros H. split; [split; [apply _|]|].
  - intros s [x Hx]. destruct (H x) as [[_ Hk] _]. by apply Hk.
  - intros s db [x Hx] E. exists x. by apply settled_same.
Qed.
#[export] Instance settled_or P Q : Settled P → Settled Q → Settled (λ s, P s ∨ Q s).
Proof.
  intros [[H1 H2] H3] [[H4 H5] H6]. split; [split; [apply _|intros s []; auto]|]. intros s db []; eauto.
Qed.

(** ** Reading and writing references *)

Lemma hoare_get_ref P `{!Settled P} ref : hoare P (getRef v ref) (λ x s, P s ∧ ref_at s v ref = x) P.
Proof. apply hoare_call; [apply _| |intros; apply _|apply _]. intros s r s' Hs [-> [->|[e ->]]]; auto. Qed.

Lemma hoare_update_ref P `{!Settled P} ref target expected R E : Assertion rely I R → Assertion rely I E → (∀ s, P s → E s) →
  (∀ s, P s → ref_at s v ref = expected → is_oid target = true → R (put_ref v ref (Some target) s)) →
  (∀ s, P s → ref_at s v ref = expected → is_oid target = true → update_may_fail_late ref → E (put_ref v ref (Some target) s)) →
  hoare P (updateRef v ref target expected) (λ _, R) E.
Proof.
  intros HR HE HPE H1 H2. apply hoare_call; [apply _| |intros; apply _|apply _].
  intros s r s' Hs [[[e ->] ->]|(Hexp & Hoid & -> & [->|[[e ->] Hl]])]; auto.
Qed.

End calls.

(** ** Manifests *)

Lemma rget_spread_other r fields k : k ∉ fields.*1 → rget (spread r fields) k = rget (default [] r) k.
Proof.
  unfold spread. generalize (default [] r). induction fields as [|[j x] fields IH]; intros m H; cbn; [done|].
  rewrite IH, ClientRecovery.rget_mset.
  - destruct (jeqb_spec j k) as [->|]; [|done]. destruct H. left.
  - intros Hk. apply H. by right.
Qed.

Lemma manifest_spread o m fields (k : string) : op_prepared_manifest o = Some (spread m fields) → jmem k fields.*1 = false →
  manifest_field o k = rget (default [] m) k.
Proof. unfold manifest_field. intros -> H. cbn. apply rget_spread_other. by apply jmem_not_elem. Qed.

(** ** Stored rules *)

Lemma read_stored_rules items acc fields : Frontmatter.read_rules items acc = Ok fields →
  Frontmatter.read_rules (map rule_of fields) acc = Ok fields ∧ length fields = length items.
Proof.
  revert acc fields. induction items as [|item items IH]; intros acc fields H; cbn [Frontmatter.read_rules] in H.
  { by apply (inj Ok) in H as <-. }
  destruct (as_record item) as [rule|]; [|done]. destruct (rget rule "field") as [| | | |field| |]; try done.
  destruct (negb (Frontmatter.FIELD_NAME field) || (128 <? length field)%nat) eqn:E1; [done|].
  destruct (negb (is_lit (rget rule "strategy") "latest_timestamp")); [done|].
  destruct (jmem field acc) eqn:E2; [done|].
  destruct (Frontmatter.read_rules items (acc ++ [field])) as [fields'|e] eqn:E; [|done].
  apply (inj Ok) in H as <-. destruct (IH _ _ E) as [IH1 IH2]. split; [|cbn; by rewrite IH2].
  cbn [map Frontmatter.read_rules rule_of as_record]. change (rget _ "field") with (JStr field). cbv iota. rewrite E1.
  change (negb (is_lit (rget _ "strategy") "latest_timestamp")) with false. by rewrite E2, IH1.
Qed.

Lemma stored_rules_valid value fields : Frontmatter.validateMetadataConflictRules value = Ok fields →
  Frontmatter.validateMetadataConflictRules (JArr (map rule_of fields)) = Ok fields.
Proof.
  destruct value as [| | | | |items|]; try done. cbn [Frontmatter.validateMetadataConflictRules].
  destruct (64 <? length items)%nat eqn:E; [done|]. intros H. apply read_stored_rules in H as [H1 H2].
  by rewrite length_map, H2, E.
Qed.

(** ** Transactions *)

Section transactions.
Context `{Nm : Numerals} `{Sh : Sha256} (v d : jstring).

Lemma abort_step db id o now reason : well_formed db → o ∈ db_sync_operations db → op_operation_id o = id →
  step (λ x, x = id) db (abort_unless_committed now reason o db) ∧
  ∀ x, x ∈ db_sync_operations (abort_unless_committed now reason o db) → op_operation_id x = id → is_live x = false.
Proof.
  intros Hwf Ho Hid. unfold abort_unless_committed. case_bool_decide as Hc.
  - split; [by apply step_same|]. intros x Hx E. pose proof (require_operation _ _ Hwf Hx) as F1.
    pose proof (require_operation _ _ Hwf Ho) as F2. rewrite E, <- Hid, F2 in F1. apply (inj Ok) in F1 as <-. unfold is_live. by rewrite Hc.
  - assert (keeps_identity (aborted now reason)) as Hf by done. split; [by apply step_update_operation|].
    intros x Hx E. apply elem_of_update_operation in Hx as [[_ Hx]|(y & _ & _ & ->)]; [congruence|done|done|done].
Qed.

(** The request's operation ends. *)
Lemma held_settle M id s db' : held v d M s → step (λ x, x = id) (du_db s) db' →
  (∀ x, x ∈ db_sync_operations db' → op_operation_id x = id → is_live x = false) →
  (∀ o, M = Some o → op_operation_id o = id) → held v d None (with_db db' s).
Proof.
  intros [Hb Hu] Hs Hend HM. split; [|done]. eapply base_step; [exact Hb|exact Hs| | |done|].
  - intros o (Ho & _ & Hl) Hid Hp. by rewrite (Hend o Ho Hid) in Hl.
  - intros o Ho Hn. destruct Hn. by apply HM.
  - intros x. destruct (decide (x = id)); auto.
Qed.

Lemma held_other M id s db' : held v d M s → step (λ x, x = id) (du_db s) db' →
  (∀ x, x ∈ db_sync_operations db' → op_operation_id x = id → is_live x = false ∨ op_status x = OpStarted) →
  (∀ o, M = Some o → op_operation_id o ≠ id) → held v d M (with_db db' s).
Proof.
  intros H Hs Hend HM. eapply held_step; [exact H|exact Hs| | |done].
  - intros x. destruct (decide (x = id)); auto.
  - intros o (Ho & _ & Hl) Hid Hp. destruct (Hend o Ho Hid) as [E|E]; congruence.
Qed.

(** An operation of the vault is prepared. *)
Lemma held_prepare id s db' o : held v d None s → step (λ x, x = id) (du_db s) db' →
  o ∈ db_sync_operations db' → op_operation_id o = id → op_vault_id o = v → op_status o = OpPrepared →
  unmoved v d o s → held v d (Some o) (with_db db' s).
Proof.
  intros [Hb Hu] Hs Ho Hid Hv Hp Hun. assert (well_formed db') as Hwf by by apply Hs, Hb.
  assert (live v db' o) as Hlive by (repeat split; [done|done|unfold is_live; by rewrite Hp]).
  split; [|by intros x [= <-]]. eapply base_step; [exact Hb|exact Hs| |done| |].
  - intros x (Hx & _ & _) E _. pose proof (require_operation _ _ Hwf Hx) as F1. pose proof (require_operation _ _ Hwf Ho) as F2.
    rewrite E, <- Hid, F2 in F1. by apply (inj Ok) in F1 as <-.
  - by intros x [= <-].
  - intros x. destruct (decide (x = id)); auto.
Qed.

(** The prepared operation is written again. *)
Lemma base_rewrite X s o f : base v d X (Some o) s → keeps_identity f → op_status (f o) = OpPrepared →
  base v d X (Some (f o)) (with_db (update_operation (op_operation_id o) f (du_db s)) s).
Proof.
  intros Hb Hf Hp. destruct (base_live _ _ _ _ _ Hb o eq_refl) as [(Ho & Hv & _) _].
  assert (well_formed (du_db s)) as Hwf by apply Hb. destruct (Hf o) as (E1 & E2 & E3).
  assert (f o ∈ db_sync_operations (update_operation (op_operation_id o) f (du_db s))) as Hin.
  { rewrite elem_of_update_operation by done. right. by exists o. }
  eapply base_step; [exact Hb|by apply (step_update_operation (λ x, x = op_operation_id o))| | | |].
  - intros x (Hx & _ & _) E _. apply elem_of_update_operation in Hx as [[_ Hx]|(y & Hy & Ey & ->)]; [done| |done|done].
    pose proof (require_operation _ _ Hwf Hy) as F1. rewrite Ey, (require_operation _ _ Hwf Ho) in F1. by apply (inj Ok) in F1 as <-.
  - intros x [= <-] Hx. by destruct Hx.
  - intros x [= <-]. split; [|done]. repeat split; [done|by rewrite E2|unfold is_live; by rewrite Hp].
  - intros x. destruct (decide (x = op_operation_id o)); auto.
Qed.

(** ** References *)

Lemma ref_at_put s ref x r : ref_at (put_ref v ref x s) v r = if decide (r = ref) then x else ref_at s v r.
Proof.
  unfold ref_at, put_ref. cbn [du_refs]. case_decide as E; [subst; apply lookup_partial_alter_eq|].
  apply lookup_partial_alter_ne. by intros [= ->].
Qed.

Lemma base_put_ref (X X' : jstring → Prop) M s ref x : base v d X M s → (∀ r, X r → X' r) → X' ref → base v d X' M (put_ref v ref x s).
Proof.
  intros [Hwf [H1 H2 H3 H4] Hd Ho Hl] HX Href. split; try done. split; [done| | |].
  - intros Hm. rewrite ref_at_put. case_decide; [subst; done|]. apply H2. auto.
  - intros i r h Hat Hr Hn. rewrite ref_at_put. case_decide; [subst; done|]. eapply H3; eauto.
  - intros p Hp Hn. rewrite ref_at_put. case_decide; [subst; done|]. auto.
Qed.

Lemma base_weaken (X X' : jstring → Prop) M s : base v d X M s → (∀ r, X r → X' r) → base v d X' M s.
Proof. intros [Hwf [H1 H2 H3 H4] Hd Ho Hl] HX. split; try done. split; eauto. Qed.

(** The operation is over; its reference is still ahead of the metadata. *)
Lemma base_end X o s f : base v d X (Some o) s → keeps_identity f → (∀ x, is_live (f x) = false) →
  base v d X None (with_db (update_operation (op_operation_id o) f (du_db s)) s).
Proof.
  intros Hb Hf Hend. assert (well_formed (du_db s)) as Hwf by apply Hb.
  eapply base_step; [exact Hb|by apply (step_update_operation (λ x, x = op_operation_id o))| | |done|].
  - intros x (Hx & _ & Hl) E Hp. apply elem_of_update_operation in Hx as [[_ Hx]|(y & _ & _ & ->)]; [done| |done|done].
    by rewrite Hend in Hl.
  - intros x [= <-] Hn. by destruct Hn.
  - intros x. destruct (decide (x = op_operation_id o)); auto.
Qed.

(** The device's head is set to where its reference is. *)
Lemma device_at_update s f t i r h : well_formed (du_db s) → (∃ h, device_at v (du_db s) d (own_ref d) h) →
  (∀ x, device_key (f x) = (d_device_id x, d_vault_id x, d_device_ref x, Some t)) →
  device_at v (update_device d f (du_db s)) i r h →
  i ≠ d ∧ device_at v (du_db s) i r h ∨ i = d ∧ r = own_ref d ∧ h = Some t.
Proof.
  intros Hwf [h0 (dev & Hdev & Hv & Hid & Hr & _)] Hf (x & Hx & Hxv & Hxi & Hxr & Hxh).
  assert (∀ y, d_device_id (f y) = d_device_id y) as Hfid by (intros y; specialize (Hf y); unfold device_key in Hf; congruence).
  unfold update_device in Hx. cbn in Hx. change (has_device_id d) with (λ y, d_device_id y =s? d) in Hx.
  apply (elem_of_update_first d_device_id) in Hx as [[Hx Hne]|(y & Hy & Hyd & ->)]; [left|right|apply Hwf|done].
  - rewrite Hxi in Hne. split; [done|]. by exists x.
  - pose proof (find_row_key d_device_id _ y (device_ids _ Hwf) Hy) as F1. pose proof (find_row_key d_device_id _ dev (device_ids _ Hwf) Hdev) as F2.
    rewrite Hyd in F1. rewrite Hid, F1 in F2. apply (inj Some) in F2 as ->. specialize (Hf dev). unfold device_key in Hf.
    injection Hf as E1 E2 E3 E4. repeat split; congruence.
Qed.

Lemma own_ref_inj i : DEVICE_REFS ++ i = own_ref d → i = d.
Proof. apply app_inv_head. Qed.

Lemma base_set_head s f t : base v d (λ r, r = own_ref d) None s → ref_at s v (own_ref d) = Some t →
  (∀ x, device_key (f x) = (d_device_id x, d_vault_id x, d_device_ref x, Some t)) →
  base v d (λ _, False) None (with_db (update_device d f (du_db s)) s).
Proof.
  intros [Hwf [H1 H2 H3 H4] Hd Ho Hl] Href Hf.
  assert (∀ y, d_device_id (f y) = d_device_id y ∧ d_vault_id (f y) = d_vault_id y ∧ d_device_ref (f y) = d_device_ref y) as Hk.
  { intros y. specialize (Hf y). unfold device_key in Hf. injection Hf as -> -> -> _. done. }
  split; cbn [du_db with_db]; [by apply formed_update_device| | | |].
  - split; cbn [du_db with_db]; change (ref_at (with_db ?db s)) with (ref_at s).
    + done.
    + intros _. apply H2. intros E. by apply (device_ref_main d).
    + intros i r h Hat Hrem _. eapply device_at_update in Hat as [[Hne Hat]|(-> & -> & ->)]; [| |done|done|done]; [|done].
      eapply H3; [exact Hat|exact Hrem|]. intros ->. destruct Hat as (x & Hx & _ & <- & Er & _).
      apply Hne, own_ref_inj. rewrite <- Er. symmetry. by apply (device_ref_names _ Hwf).
    + intros p Hp _. apply H4; [exact Hp|]. intros E. unfold protected_refs in Hp. apply list_elem_of_In, in_flat_map in Hp as (c & _ & Hp).
      unfold protected_by in Hp. apply in_map_iff in Hp as ([kind commit] & <- & _). by apply (conflictRef_device (cf_conflict_id c) kind d).
  - destruct Hd as [h0 (dev & Hdev & Hv & Hid & Hr & _)]. exists (Some t), (f dev). destruct (Hk dev) as (E1 & E2 & E3).
    repeat split; try congruence.
    + unfold update_device. cbn. change (has_device_id d) with (λ y, d_device_id y =s? d).
      apply (elem_of_update_first d_device_id); [apply Hwf|intros y; apply Hk|]. right. by exists dev.
    + specialize (Hf dev). unfold device_key in Hf. congruence.
  - done.
  - done.
Qed.

Lemma base_set_main s f c : base v d (λ r, r = MAIN_REF) None s → ref_at s v MAIN_REF = Some c →
  (∀ x, vault_key (f x) = (v_vault_id x, c)) → base v d (λ _, False) None (with_db (update_vault v f (du_db s)) s).
Proof.
  intros [Hwf [[m H1] H2 H3 H4] Hd Ho Hl] Href Hf.
  assert (main_of v (update_vault v f (du_db s)) = Some c) as Hmain.
  { unfold main_of in *. destruct (find_row _ (db_vaults (du_db s))) as [x|] eqn:E; [|done].
    unfold update_vault. cbn [db_vaults set_db_vaults]. rewrite (find_row_update_first_self _ f _ x); [| |done].
    - cbn. specialize (Hf x). unfold vault_key in Hf. congruence.
    - intros y. unfold has_vault_id. specialize (Hf y). unfold vault_key in Hf. by injection Hf as -> _. }
  split; cbn [du_db with_db]; [by destruct Hwf| |done|done|done].
  split; cbn [du_db with_db]; change (ref_at (with_db ?db s)) with (ref_at s).
  - by rewrite Hmain.
  - intros _. by rewrite Hmain.
  - intros i r h Hat Hrem _. eapply H3; [exact Hat|exact Hrem|]. destruct Hat as (x & Hx & _ & _ & <- & _).
    rewrite (device_ref_names _ Hwf x Hx). apply device_ref_main.
  - intros p Hp _. apply H4; [exact Hp|]. unfold protected_refs in Hp. apply list_elem_of_In, in_flat_map in Hp as (x & _ & Hp).
    unfold protected_by in Hp. apply in_map_iff in Hp as ([kind commit] & <- & _). apply conflictRef_main.
Qed.

(** ** The transactions of a push *)

Context (id target : jstring).

(** The row of the push, whatever its status. *)
Definition push_shape (o : SyncOperationRow) : Prop :=
  op_operation_type o = OpDevicePush ∧ op_device_id o = Some d ∧ op_target_refs o = [(own_ref d, Some target)] ∧
  manifest_field o "target_refs" = JUndef.

Definition during (M : option SyncOperationRow) (s : durable) : Prop := held v d M s ∧ shaped v id push_shape s.

Lemma during_formed M s : during M s → well_formed (du_db s).
Proof. intros [[Hb _] _]. apply Hb. Qed.

Lemma during_row M s o : during M s → requireOperation (du_db s) id = Ok o →
  o ∈ db_sync_operations (du_db s) ∧ op_operation_id o = id ∧ op_vault_id o = v ∧ push_shape o.
Proof.
  intros H Ho. pose proof (during_formed _ _ H) as Hwf. destruct H as [_ Hs].
  destruct (shaped_row _ _ _ _ _ Hs Hwf Ho) as [? ?]. by destruct (requireOperation_Ok _ _ _ Ho).
Qed.

Lemma during_same M s db : during M s → core_of db = core_of (du_db s) → during M (with_db db s).
Proof. apply (settled_same v d (P := λ s, held v d M s ∧ shaped v id push_shape s)). Qed.

(** The row is written again and is over. *)
Lemma during_end M s f db : during M s → keeps_identity f → (∀ o, push_shape o → push_shape (f o)) → (∀ o, is_live (f o) = false) →
  (∀ o, M = Some o → op_operation_id o = id) → core_of db = core_of (update_operation id f (du_db s)) →
  during None (with_db db s).
Proof.
  intros H Hf Hk Hend HM E. pose proof (during_formed _ _ H) as Hwf. destruct H as [Hh Hs].
  apply (during_same None (with_db (update_operation id f (du_db s)) s)); [|done]. split.
  - eapply held_settle; [exact Hh|by apply step_update_operation| |exact HM].
    intros x Hx Ex. apply elem_of_update_operation in Hx as [[_ Hx]|(y & _ & _ & ->)]; [congruence|done|done|done].
  - by apply shaped_update.
Qed.

Lemma during_abort M s o now reason db : during M s → requireOperation (du_db s) id = Ok o → (∀ o, M = Some o → op_operation_id o = id) →
  core_of db = core_of (abort_unless_committed now reason o (du_db s)) → during None (with_db db s).
Proof.
  intros H Ho HM E. pose proof (during_row _ _ _ H Ho) as (Hin & Hid & Hv & Hsh). pose proof (during_formed _ _ H) as Hwf.
  destruct (abort_step _ _ _ now reason Hwf Hin Hid) as [Hs Hend]. destruct H as [Hh Hshaped].
  apply (during_same None (with_db (abort_unless_committed now reason o (du_db s)) s)); [|done]. split; [by eapply held_settle|].
  unfold abort_unless_committed. case_bool_decide; [by destruct s|]. rewrite Hid. by apply shaped_update.
Qed.

Context `{D : Dates} (auth : AuthenticatedDevice).
Context (auth_vault : v_vault_id (ad_vault auth) = v) (auth_device : d_device_id (ad_device auth) = d)
  (auth_ref : d_device_ref (ad_device auth) = own_ref d).

Lemma reject_during s w code db : during None s → reject_tx auth id code w (du_db s) = Ok ((), db) → during None (with_db db s).
Proof.
  intros H E. unfold reject_tx in E. apply bind_Ok in E as (o & Ho & E). apply bind_Ok in E as (dev & _ & E).
  apply bind_Ok in E as (vault & _ & E). apply (inj Ok) in E. apply pair_equal_spec in E as [_ <-].
  eapply during_abort; [exact H|exact Ho|done|]. rewrite core_append_event. by apply core_update_device.
Qed.

Lemma idempotent_during s w operation manifest proposal db : op_operation_id operation = id → during None s →
  idempotent_tx operation target manifest proposal w (du_db s) = Ok ((), db) → during None (with_db db s).
Proof.
  intros Hid H E. unfold idempotent_tx in E. apply bind_Ok in E as (o & Ho & E). apply (inj Ok) in E.
  apply pair_equal_spec in E as [_ <-]. rewrite Hid in *. eapply during_end; [exact H| | | | |reflexivity]; [done| |done|done].
  intros x (H1 & H2 & H3 & H4). repeat split; try done. by erewrite manifest_spread.
Qed.

Lemma push_targets o : push_shape o → is_oid target = true → recoverableTargetRefs o = [(own_ref d, target)].
Proof.
  intros (Ht & _ & Htargets & Hm) Hoid. unfold recoverableTargetRefs. rewrite Htargets, Hm. unfold addTargetRefs, add_target.
  cbn [fold_left]. rewrite Hoid, Ht. cbn [mset]. by destruct (op_target_commit o).
Qed.

Lemma push_movable o : push_shape o → movable d o (own_ref d) target.
Proof. intros (H1 & H2 & H3 & _). by apply movable_push. Qed.

(** The push is prepared: the device's reference is still where it was. *)
Definition pushing (current : option jstring) (s : durable) : Prop :=
  ∃ o, during (Some o) s ∧ op_operation_id o = id ∧ op_expected_refs o = [(own_ref d, current)].

Lemma pushing_shape s o : during (Some o) s → op_operation_id o = id → push_shape o.
Proof.
  intros H Hid. pose proof (during_formed _ _ H) as Hwf. destruct (base_live _ _ _ _ _ (proj1 (proj1 H)) o eq_refl) as [(Hin & _ & _) _].
  eapply (during_row _ _ o H). rewrite <- Hid. by apply require_operation.
Qed.

Lemma prepare_push_during s w operation manifest current relation proposal db : op_operation_id operation = id → is_oid target = true →
  during None s → ref_at s v (own_ref d) = current →
  prepare_push_tx auth operation manifest current relation proposal w (du_db s) = Ok ((), db) → pushing current (with_db db s).
Proof.
  intros Hid Hoid H Hcur E. unfold prepare_push_tx in E. apply bind_Ok in E as (o & Ho & E). apply (inj Ok) in E.
  apply pair_equal_spec in E as [_ <-]. rewrite Hid, auth_ref in *.
  pose proof (during_row _ _ _ H Ho) as (Hin & Hido & Hv & Hsh). pose proof (during_formed _ _ H) as Hwf.
  match goal with |- context [update_operation id ?f] => set (g := f) end.
  assert (keeps_identity g) as Hg by done. assert (∀ x, push_shape x → push_shape (g x)) as Hk.
  { intros x (H1 & H2 & H3 & H4). repeat split; try done. by erewrite manifest_spread. }
  exists (g o). split; [split|split; [done|done]].
  - eapply (held_prepare id); [apply H|by apply step_update_operation| |done|done|done|].
    + rewrite elem_of_update_operation by done. right. by exists o.
    + right. exists (own_ref d), target. split; [by apply push_targets; auto|]. split; [by apply push_movable; auto|].
      rewrite Hcur. unfold expected_ref, g. cbn [op_expected_refs set_op_updated_at set_op_prepared_manifest set_op_expected_refs mget].
      by rewrite jeqb_refl.
  - apply shaped_update; [apply H|done|done|done].
Qed.


Lemma pushing_row current s o : pushing current s → requireOperation (du_db s) id = Ok o →
  during (Some o) s ∧ op_operation_id o = id ∧ op_expected_refs o = [(own_ref d, current)] ∧ push_shape o.
Proof.
  intros (x & H & Hid & He) Ho. pose proof (during_formed _ _ H) as Hwf.
  destruct (base_live _ _ _ _ _ (proj1 (proj1 H)) x eq_refl) as [(Hin & _ & _) _].
  rewrite <- Hid, require_operation in Ho by done. apply (inj Ok) in Ho as <-. split; [done|]. split; [done|].
  split; [done|]. by eapply pushing_shape.
Qed.

Lemma still_prepared_during s w current db : is_oid target = true → pushing current s → still_prepared_tx id w (du_db s) = Ok ((), db) →
  pushing current (with_db db s).
Proof.
  intros Hoid H E. unfold still_prepared_tx in E. apply bind_Ok in E as (o & Ho & E). destruct (negb _) eqn:Es; [done|].
  apply (inj Ok) in E. apply pair_equal_spec in E as [_ <-].
  destruct (pushing_row _ _ _ H Ho) as ([[Hb Hu] Hsh] & Hid & He & Hshape).
  pose proof (base_formed _ _ _ _ _ Hb) as Hwf. set (g := set_op_updated_at (nowIso w 0)).
  assert (push_shape (g o)) as Hg by done.
  exists (g o). split; [split; [split|]|split; done].
  - rewrite <- Hid. apply base_rewrite; [done|done|]. by destruct (base_live _ _ _ _ _ Hb o eq_refl).
  - intros x [= <-]. right. exists (own_ref d), target. split; [by apply push_targets|]. split; [by apply push_movable|].
    destruct (Hu o eq_refl) as [E|(ref & t & E & _ & Href)]; rewrite (push_targets o) in E by done; [done|].
    injection E as <- <-. exact Href.
  - by apply shaped_update.
Qed.

(** The device's reference has moved. *)
Definition pushed (s : durable) : Prop :=
  (∃ o, moved v d o (own_ref d) target s ∧ op_operation_id o = id) ∧ shaped v id push_shape s.

Lemma pushing_moves current s : is_oid target = true → pushing current s → pushed (put_ref v (own_ref d) (Some target) s).
Proof.
  intros Hoid (o & H & Hid & He). pose proof (pushing_shape _ _ H Hid) as Hsh. destruct H as [[Hb Hu] Hshaped].
  split; [|done]. exists o. split; [|done]. split; [eapply base_put_ref; [exact Hb|done|done]|]. split.
  - rewrite ref_at_put. by rewrite decide_True.
  - split; [by apply push_targets|by apply push_movable].
Qed.

Lemma commit_push_during s w seq db : pushed s → commit_push_tx auth id target w (du_db s) = Ok (seq, db) →
  during None (with_db db s).
Proof.
  intros [(o & (Hb & Href & _) & Hid) Hshaped] E. unfold commit_push_tx in E. apply bind_Ok in E as (x & _ & E).
  apply bind_Ok in E as (dev & _ & E). apply bind_Ok in E as (vault & _ & E). apply (inj Ok) in E.
  apply pair_equal_spec in E as [_ <-]. rewrite auth_device.
  match goal with |- context [update_operation id ?f] => set (g := f) end.
  match goal with |- context [update_device d ?f] => set (h := f) end.
  pose proof (base_formed _ _ _ _ _ Hb) as Hwf.
  assert (base v d (λ r, r = own_ref d) None (with_db (update_operation id g (du_db s)) s)) as Hb2.
  { rewrite <- Hid. by apply base_end. }
  apply (during_same None (with_db (update_device d h (update_operation id g (du_db s))) s)); [|reflexivity].
  split; [split; [|done]|].
  - by apply (base_set_head _ h target Hb2).
  - destruct (shaped_update v id push_shape s g Hshaped Hwf) as (y & Hy & ?); [done|done|]. by exists y.
Qed.

(** It does take effect: the row, the device and the vault are there. *)
Lemma commit_push_succeeds s w : pushed s → ∃ seq db, commit_push_tx auth id target w (du_db s) = Ok (seq, db).
Proof.
  intros [(o & (Hb & _) & Hid) _]. pose proof (base_formed _ _ _ _ _ Hb) as Hwf.
  destruct (base_live _ _ _ _ _ Hb o eq_refl) as [(Hin & _ & _) _]. destruct (base_own_device _ _ _ _ _ Hb) as (dev & Hdev & _).
  destruct (base_vault _ _ _ _ _ Hb) as (vault & Hvault & _).
  unfold commit_push_tx. rewrite auth_vault, auth_device, <- Hid, (require_operation _ _ Hwf Hin). cbn [mbind result_bind].
  change (requireDevice (update_operation _ _ ?db) ?i) with (requireDevice db i). rewrite Hdev. cbn [mbind result_bind].
  change (requireVault (update_device _ _ (update_operation _ _ ?db)) ?i) with (requireVault db i). rewrite Hvault.
  cbn [mbind result_bind]. eexists _, _. reflexivity.
Qed.

Lemma divergent_during current s w r db : pushing current s → divergent_tx id r w (du_db s) = Ok ((), db) → during None (with_db db s).
Proof.
  intros (x & H & Hid & _) E. unfold divergent_tx in E. apply bind_Ok in E as (o & _ & E). apply (inj Ok) in E.
  apply pair_equal_spec in E as [_ <-]. eapply during_end; [exact H| | | | |reflexivity]; [done|done|done|].
  by intros o' [= <-].
Qed.

(** ** New operations *)

Lemma started_held s w i vault expected targets target' base t o db1 M : vault = v → held v d M s → fresh w (du_db s) →
  startOperation w i (du_db s) vault (Some d) t expected targets target' base = (o, db1) →
  step (λ x, x = op_operation_id o) (du_db s) db1 ∧ (∀ x, x ∈ db_sync_operations (du_db s) → op_operation_id x ≠ op_operation_id o) ∧
  (∀ x, x ∈ db_sync_operations db1 → op_operation_id x = op_operation_id o → x = o) ∧ o ∈ db_sync_operations db1.
Proof.
  intros -> Hh Hfresh E. assert (o = (startOperation w i (du_db s) v (Some d) t expected targets target' base).1) as Eo by by rewrite E.
  assert (op_operation_id o ∉ map op_operation_id (db_sync_operations (du_db s))) as Hnew by (rewrite Eo; apply Hfresh).
  assert (∀ x, x ∈ db_sync_operations (du_db s) → op_operation_id x ≠ op_operation_id o) as Hne.
  { intros x Hx Ex. apply Hnew. rewrite <- Ex. apply list_elem_of_fmap. eauto. }
  assert (db_sync_operations db1 = db_sync_operations (du_db s) ++ [o]) as Hops.
  { pose proof (core_start_operation w i (du_db s) v (Some d) t expected targets target' base) as Hc. rewrite E in Hc.
    by injection Hc. }
  split; [|split; [done|split]].
  - eapply step_start; [exact E|exact Hfresh|]. intros j vault' ref head Hin Hj. by eapply base_device_vault; [apply Hh|exact Hin|].
  - intros x Hx Ex. rewrite Hops in Hx. apply elem_of_app in Hx as [Hx|Hx%list_elem_of_singleton]; [|done]. by destruct (Hne x Hx).
  - rewrite Hops. apply elem_of_app. right. left.
Qed.

Lemma started_step s w i vault expected targets target' base t o db1 M : vault = v → during M s → fresh w (du_db s) →
  startOperation w i (du_db s) vault (Some d) t expected targets target' base = (o, db1) →
  step (λ x, x = op_operation_id o) (du_db s) db1 ∧ op_operation_id o ≠ id ∧ (∀ x, M = Some x → op_operation_id x ≠ op_operation_id o) ∧
  (∀ x, x ∈ db_sync_operations db1 → op_operation_id x = op_operation_id o → x = o) ∧ o ∈ db_sync_operations db1.
Proof.
  intros Hv [Hh (y & Hy & Hyid & _)] Hfresh E. destruct (started_held _ _ _ _ _ _ _ _ _ _ _ _ Hv Hh Hfresh E) as (Hs & Hne & Hone & Hin).
  split; [done|]. split; [|split; [|done]].
  - rewrite <- Hyid. intros Ey. by apply (Hne y Hy).
  - intros x ->. apply Hne. destruct (base_live _ _ _ _ _ (proj1 Hh) x eq_refl) as [(? & _) _]. done.
Qed.

Lemma protected_refs_app db c p : p ∈ protected_refs v (set_db_conflicts (db_conflicts db ++ [c]) db) →
  p ∈ protected_refs v db ∨ ∃ kind commit, (kind, commit) ∈ conflictProtectedRefs c ∧ p = (conflictRef (cf_conflict_id c) kind, commit).
Proof.
  intros Hp. unfold protected_refs in Hp. cbn [db_conflicts set_db_conflicts] in Hp. rewrite List.filter_app, flat_map_app in Hp.
  apply elem_of_app in Hp as [Hp|Hp]; [by left|]. right. apply list_elem_of_In, in_flat_map in Hp as (x & Hx & Hp).
  apply filter_In in Hx as [[<-|[]] _]. unfold protected_by in Hp. apply in_map_iff in Hp as ([kind commit] & <- & Hk).
  exists kind, commit. by apply list_elem_of_In in Hk.
Qed.

Lemma during_conflict M s c db : during M s → (∀ kind, ref_at s v (conflictRef (cf_conflict_id c) kind) = None) →
  core_of db = core_of (set_db_conflicts (db_conflicts (du_db s) ++ [c]) (du_db s)) → during M (with_db db s).
Proof.
  intros [[[Hwf [H1 H2 H3 H4] Hd Ho Hl] Hu] Hs] Hfree E.
  apply (during_same M (with_db (set_db_conflicts (db_conflicts (du_db s) ++ [c]) (du_db s)) s)); [|done].
  split; [split; [|done]|done]. split; cbn [du_db with_db]; [by destruct Hwf| |done|done|done].
  split; cbn [du_db with_db]; change (ref_at (with_db ?db s)) with (ref_at s); [done|done|done|].
  intros p Hp _. apply protected_refs_app in Hp as [Hp|(kind & commit & _ & ->)]; [apply H4; [exact Hp|tauto]|]. left. apply Hfree.
Qed.

Lemma conflict_during M s w base main commit conflictId paths reason plan dref pairs sequence seq db :
  during M s → fresh w (du_db s) → (∀ kind, ref_at s v (conflictRef conflictId kind) = None) →
  conflict_tx v d base main commit conflictId paths reason plan dref pairs sequence w (du_db s) = Ok (seq, db) → during M (with_db db s) ∧
  ∀ p, p ∈ protected_refs v db → p ∈ protected_refs v (du_db s) ∨
    ∃ kind c, (kind, c) ∈ [(lit "base", base); (lit "current", main); (lit "device", commit)] ∧ p = (conflictRef conflictId kind, c).
Proof.
  intros H Hfresh Hfree E. unfold conflict_tx in E. apply bind_Ok in E as (dev & _ & E).
  destruct (startOperation _ _ _ _ _ _ _ _ _ _) as [o db1] eqn:Es in E.
  destruct (started_step _ _ _ _ _ _ _ _ _ _ _ M eq_refl H Hfresh Es) as (Hs & Hid & HM & Hone & _).
  apply (inj Ok) in E. apply pair_equal_spec in E as [_ <-].
  match goal with |- context [update_operation (op_operation_id o) ?f] => set (g := f) end.
  match goal with |- context [mk_ConflictRecord ?a ?b ?c0 ?e ?f ?g0 ?h ?i ?j ?k ?l ?m ?n ?p ?q ?r ?t ?u ?x ?y ?z ?aa ?bb] =>
    set (conflict := mk_ConflictRecord a b c0 e f g0 h i j k l m n p q r t u x y z aa bb) end.
  pose proof (during_formed _ _ H) as Hwf. assert (keeps_identity g) as Hg by done.
  assert (well_formed db1) as Hwf1 by by apply Hs.
  assert (step (λ x, x = op_operation_id o) (du_db s) (update_operation (op_operation_id o) g db1)) as Hs2.
  { eapply step_trans; [exact Hs|]. by apply step_update_operation. }
  match goal with |- during M (with_db ?db _) ∧ _ => assert (core_of db = core_of (set_db_conflicts
    (db_conflicts (update_operation (op_operation_id o) g db1) ++ [conflict]) (update_operation (op_operation_id o) g db1))) as Hc end.
  { transitivity (core_of (update_device d (set_d_status DReviewNeeded)
      (set_db_conflicts (db_conflicts (update_operation (op_operation_id o) g db1) ++ [conflict]) (update_operation (op_operation_id o) g db1)))).
    - by destruct plan.
    - by apply core_update_device. }
  split.
  - apply (during_conflict M (with_db (update_operation (op_operation_id o) g db1) s) conflict); [|exact Hfree|exact Hc]. split.
    + eapply held_other; [apply H|exact Hs2| |done].
      intros x Hx Ex. left. apply elem_of_update_operation in Hx as [[_ Hx]|(y & _ & _ & ->)]; [congruence|done|done|done].
    + eapply shaped_step; [apply H|exact Hs2|]. by apply not_eq_sym.
  - intros p Hp. rewrite protected_refs_core, Hc, <- protected_refs_core in Hp. apply protected_refs_app in Hp as [Hp|Hp]; [|by right].
    left. rewrite protected_refs_core in Hp |- *. by rewrite (step_conflicts _ _ _ Hs2) in Hp.
Qed.

Lemma block_core w db vault changed db' : block_tx vault w db = Ok (changed, db') → core_of db' = core_of db.
Proof.
  intros E. unfold block_tx in E. apply bind_Ok in E as (x & _ & E). apply (inj Ok) in E. apply pair_equal_spec in E as [_ <-].
  by apply core_update_vault.
Qed.

Lemma directory_merge_core w db vault device commit main plan seq db' :
  directory_merge_tx vault device commit main plan w db = Ok (seq, db') → core_of db' = core_of db.
Proof.
  intros E. unfold directory_merge_tx in E. apply bind_Ok in E as (x & _ & E). apply (inj Ok) in E. apply pair_equal_spec in E as [_ <-].
  rewrite core_directory_plan. transitivity (core_of (update_device device (set_d_status DSynced) db)); [done|]. by apply core_update_device.
Qed.

Lemma synced_core w db vault device seq db' : synced_tx vault device w db = Ok (seq, db') → core_of db' = core_of db.
Proof.
  intros E. unfold synced_tx in E. apply bind_Ok in E as (x & _ & E). apply (inj Ok) in E. apply pair_equal_spec in E as [_ <-].
  by apply core_update_device.
Qed.

(** ** Merges *)

(** [merging op main commit]: the merge is prepared for its commit, if it is known. *)
Definition merge_row (o : SyncOperationRow) (main : jstring) (commit : option jstring) : Prop :=
  op_operation_type o = OpServerMerge ∧ mget (op_expected_refs o) MAIN_REF = Some (Some main) ∧
  op_target_refs o = [(MAIN_REF, commit)] ∧ op_target_commit o = commit ∧ merge_evidence_ok o = true ∧
  match commit with
  | None => manifest_field o "target_refs" = JUndef
  | Some c => manifest_field o "target_refs" = JObj [(MAIN_REF, JStr c)]
  end.

Definition merging (operationId main : jstring) (commit : option jstring) (s : durable) : Prop :=
  (∃ o, during (Some o) s ∧ op_operation_id o = operationId ∧ operationId ≠ id ∧ merge_row o main commit) ∧ ref_at s v MAIN_REF = Some main.

(** The rules recorded with a merge verify. *)
Definition evidence_fields (results rules : record) : Prop :=
  rules = [] ∨ ∃ fields, rules = [(lit "metadata_conflict_rules", JArr (map rule_of fields));
    (lit "metadata_conflict_rules_sha256", JStr (sha256 (default [] (json_text (JArr (map rule_of fields))))))] ∧
    Frontmatter.validateMetadataConflictRules (JArr (map rule_of fields)) = Ok fields.

Lemma has_own_spread r fields k : jmem k fields.*1 = false → has_own (spread r fields) k = has_own (default [] r) k.
Proof.
  unfold spread. generalize (default [] r). induction fields as [|[j x] fields IH]; intros m H; cbn [fold_left fst snd]; [done|].
  cbn in H. apply orb_false_iff in H as [H1 H2]. rewrite (IH _ H2), ClientRecovery.has_own_mset, jeqb_sym. by rewrite H1.
Qed.

Lemma merge_evidence_spread o o' fields : op_prepared_manifest o' = Some (spread (op_prepared_manifest o) fields) →
  jmem (lit "metadata_conflict_rules") fields.*1 = false → jmem (lit "metadata_conflict_rules_sha256") fields.*1 = false →
  jmem (lit "validator_results") fields.*1 = false → merge_evidence_ok o' = merge_evidence_ok o.
Proof.
  intros E H1 H2 H3. unfold merge_evidence_ok. rewrite E at 1. cbn [from_option Datatypes.id].
  rewrite (has_own_spread _ _ _ H1), (manifest_spread _ _ _ "metadata_conflict_rules" E H1),
    (manifest_spread _ _ _ "metadata_conflict_rules_sha256" E H2), (manifest_spread _ _ _ "validator_results" E H3). reflexivity.
Qed.

Lemma merge_evidence_fields o m sequence results rules plan : evidence_fields results rules →
  op_prepared_manifest o = Some (merge_facts m sequence ++ [(lit "decision", JStr (lit "merge"));
          (lit "validator_results", JObj results)] ++ rules ++ [(lit "directory_plan", storedDirectoryPlan plan)]) →
  merge_evidence_ok o = true ∧ manifest_field o "target_refs" = JUndef.
Proof.
  intros [->|(fields & -> & Hv)] E; unfold merge_evidence_ok, manifest_field; rewrite E; cbn [from_option Datatypes.id].
  - done.
  - split; [|done]. cbn [merge_facts app has_own]. change (has_own _ _) with true. cbn [negb].
    change (rget _ (lit "metadata_conflict_rules")) with (JArr (map rule_of fields)). rewrite Hv.
    cbv zeta. change (rget _ (lit "validator_results")) with (JObj results).
    change (rget _ (lit "metadata_conflict_rules_sha256")) with (JStr (sha256 (default [] (json_text (JArr (map rule_of fields)))))).
    cbn [is_lit is_record]. by rewrite jeqb_refl.
Qed.

Lemma prepare_merge_during s w m results rules sequence operationId db : mc_vault m = v → mc_device m = d → evidence_fields results rules →
  during None s → ref_at s v MAIN_REF = Some (mc_main m) → fresh w (du_db s) →
  prepare_merge_tx m results rules w (du_db s) = Ok ((sequence, operationId), db) →
  merging operationId (mc_main m) None (with_db db s).
Proof.
  intros Hmv Hmd Hev H Href Hfresh E. unfold prepare_merge_tx in E. apply bind_Ok in E as (dev & _ & E).
  destruct (nextMergeSequence (du_db s) (mc_vault m)) as [seq db0] eqn:Eseq in E.
  destruct (startOperation _ _ _ _ _ _ _ _ _ _) as [o db1] eqn:Es in E.
  apply (inj Ok) in E. apply pair_equal_spec in E as [E <-]. apply pair_equal_spec in E as [<- <-].
  assert (core_of db0 = core_of (du_db s)) as Hc0 by (pose proof (core_merge_sequence (du_db s) (mc_vault m)) as X; by rewrite Eseq in X).
  pose proof (during_same _ _ _ H Hc0) as H0. rewrite Hmd in Es.
  assert (fresh w db0) as Hfresh0. { intros i. injection Hc0 as _ _ _ Hops _. rewrite Hops. apply Hfresh. }
  destruct (started_step (with_db db0 s) _ _ _ _ _ _ _ _ _ _ None Hmv H0 Hfresh0 Es) as (Hs & Hid & _ & _ & Hin).
  match goal with |- context [update_operation (op_operation_id o) ?f] => set (g := f) end.
  assert (keeps_identity g) as Hg by done. assert (well_formed db1) as Hwf1 by (apply Hs, (during_formed _ _ H0)).
  assert (step (λ x, x = op_operation_id o) db0 (update_operation (op_operation_id o) g db1)) as Hs2.
  { eapply step_trans; [exact Hs|]. by apply step_update_operation. }
  assert (o = (startOperation w 0 db0 (mc_vault m) (Some d) OpServerMerge [(MAIN_REF, Some (mc_main m)); (d_device_ref dev, Some (mc_commit m))]
    [(MAIN_REF, None)] None None).1) as Eo by by rewrite Es.
  destruct (merge_evidence_fields (g o) m seq results rules (mc_plan m) Hev eq_refl) as [Hok Hm].
  split; [|done]. exists (g o). split; [split|split; [done|split; [done|]]].
  - eapply (held_prepare (op_operation_id o) (with_db db0 s)); [apply H0|exact Hs2| |done| |done|].
    + rewrite elem_of_update_operation by done. right. by exists o.
    + rewrite Eo. exact Hmv.
    + left. unfold recoverableTargetRefs. rewrite Hm.
      change (op_target_refs (g o)) with (op_target_refs o). change (op_target_commit (g o)) with (op_target_commit o).
      rewrite Eo. done.
  - eapply (shaped_step _ _ _ _ (with_db db0 s)); [apply H0|exact Hs2|]. by apply not_eq_sym.
  - change (op_operation_type (g o)) with (op_operation_type o). change (op_target_refs (g o)) with (op_target_refs o).
    change (op_target_commit (g o)) with (op_target_commit o). change (op_expected_refs (g o)) with (op_expected_refs o).
    split; [by rewrite Eo|]. split.
    { rewrite Eo. change (mget [(MAIN_REF, Some (mc_main m)); (d_device_ref dev, Some (mc_commit m))] MAIN_REF = Some (Some (mc_main m))).
      cbn [mget]. by rewrite jeqb_refl. }
    split; [by rewrite Eo|]. split; [by rewrite Eo|]. split; [exact Hok|exact Hm].
Qed.


Lemma merge_targets o main commit : merge_row o main commit →
  recoverableTargetRefs o = match commit with Some c => if is_oid c then [(MAIN_REF, c)] else [] | None => [] end.
Proof.
  intros (Ht & _ & Htargets & Hc & _ & Hm). unfold recoverableTargetRefs. rewrite Htargets, Hc, Ht. unfold addTargetRefs.
  cbn [fold_left add_target moves_main]. destruct commit as [c|]; rewrite Hm; [|done].
  cbn [map fold_left add_target as_string]. destruct (is_oid c) eqn:E; cbn [mset mget andb is_none]; [|done].
  by rewrite !jeqb_refl; cbn [mget]; rewrite jeqb_refl.
Qed.

Lemma merge_movable o main commit : merge_row o main (Some commit) → movable d o MAIN_REF commit.
Proof. intros (H1 & _ & H3 & _ & H5 & _). by apply movable_merge. Qed.

Lemma merging_row operationId main commit s o : merging operationId main commit s → requireOperation (du_db s) operationId = Ok o →
  during (Some o) s ∧ op_operation_id o = operationId ∧ operationId ≠ id ∧ merge_row o main commit ∧ ref_at s v MAIN_REF = Some main.
Proof.
  intros [(x & H & Hid & Hne & Hm) Href] Ho. pose proof (during_formed _ _ H) as Hwf.
  destruct (base_live _ _ _ _ _ (proj1 (proj1 H)) x eq_refl) as [(Hin & _ & _) _].
  rewrite <- Hid, require_operation in Ho by done. by apply (inj Ok) in Ho as <-.
Qed.

Lemma prepare_ref_during s w operationId main commit what db : merging operationId main None s →
  prepare_ref_update what operationId commit w (du_db s) = Ok ((), db) → merging operationId main (Some commit) (with_db db s).
Proof.
  intros H E. unfold prepare_ref_update in E. apply bind_Ok in E as (o & Ho & E). destruct (negb _) eqn:Es; [done|].
  apply (inj Ok) in E. apply pair_equal_spec in E as [_ <-].
  destruct (merging_row _ _ _ _ _ H Ho) as ([[Hb Hu] Hsh] & Hid & Hne & Hm & Href).
  match goal with |- context [update_operation operationId ?f] => set (g := f) end.
  assert (keeps_identity g) as Hg by done.
  assert (merge_row (g o) main (Some commit)) as Hgm.
  { destruct Hm as (H1 & H2 & H3 & H4 & H5 & H6). split; [done|]. split; [done|]. split; [done|]. split; [done|]. split.
    - by rewrite (merge_evidence_spread o (g o) _ eq_refl).
    - unfold manifest_field, g. cbn [op_prepared_manifest set_op_updated_at set_op_prepared_manifest from_option Datatypes.id].
      unfold spread. cbn [fold_left fst snd]. by rewrite !ClientRecovery.rget_mset. }
  split; [|done]. exists (g o). rewrite <- Hid. split; [split; [split|]|split; [done|split; [by rewrite Hid|done]]].
  - apply base_rewrite; [done|done|]. by destruct (base_live _ _ _ _ _ Hb o eq_refl).
  - intros x [= <-]. pose proof (merge_targets _ _ _ Hgm) as Ht. cbv beta iota in Ht. destruct (is_oid commit); [right|by left].
    exists MAIN_REF, commit. split; [exact Ht|]. split; [by eapply merge_movable|]. unfold expected_ref. destruct Hgm as (_ & -> & _). exact Href.
  - eapply shaped_step; [exact Hsh|by apply (step_update_operation (λ x, x = op_operation_id o)); [apply Hb| |]|].
    rewrite Hid. by apply not_eq_sym.
Qed.

(** Main has moved to the merge. *)
Definition advanced (operationId commit : jstring) (s : durable) : Prop :=
  (∃ o, moved v d o MAIN_REF commit s ∧ op_operation_id o = operationId ∧ operationId ≠ id) ∧ shaped v id push_shape s.

Lemma merging_moves operationId main commit s : is_oid commit = true → merging operationId main (Some commit) s →
  advanced operationId commit (put_ref v MAIN_REF (Some commit) s).
Proof.
  intros Hoid [(o & [[Hb Hu] Hsh] & Hid & Hne & Hm) Href]. split; [|done]. exists o. split; [|done].
  split; [eapply base_put_ref; [exact Hb|done|done]|]. split; [rewrite ref_at_put; by rewrite decide_True|].
  pose proof (merge_targets _ _ _ Hm) as Ht. cbv beta iota in Ht. rewrite Hoid in Ht. split; [exact Ht|].
  by eapply merge_movable.
Qed.

Lemma commit_merge_during s w m results sequence operationId commit seq db : mc_vault m = v →
  advanced operationId commit s ∨ (∃ prepared, merging operationId commit prepared s) →
  commit_merge_tx m results sequence operationId commit w (du_db s) = Ok (seq, db) →
  during None (with_db db s) ∧ main_of v db = Some commit.
Proof.
  intros Hmv H E. unfold commit_merge_tx in E. apply bind_Ok in E as (x & _ & E).
  apply bind_Ok in E as (vault & _ & E). apply bind_Ok in E as (dev & _ & E). apply (inj Ok) in E.
  apply pair_equal_spec in E as [_ <-]. rewrite Hmv.
  match goal with |- context [update_operation operationId ?f] => set (g := f) end.
  match goal with |- context [update_vault v ?f] => set (h := f) end.
  assert (∃ o, base v d (λ r, r = MAIN_REF) (Some o) s ∧ op_operation_id o = operationId ∧ operationId ≠ id ∧
    ref_at s v MAIN_REF = Some commit ∧ shaped v id push_shape s) as (o & Hb & Hid & Hne & Href & Hsh).
  { destruct H as [[(o & (Hb & Href & _) & Hid & Hne) Hsh]|(prepared & (o & [[Hb _] Hsh] & Hid & Hne & _) & Href)]; exists o; [done|].
    split; [|done]. by eapply base_weaken. }
  pose proof (base_formed _ _ _ _ _ Hb) as Hwf.
  assert (base v d (λ r, r = MAIN_REF) None (with_db (update_operation operationId g (du_db s)) s)) as Hb2.
  { rewrite <- Hid. by apply base_end. }
  set (db3 := update_vault v h (update_operation operationId g (du_db s))).
  assert (base v d (λ _, False) None (with_db db3 s)) as Hb3 by by apply (base_set_main _ h commit Hb2).
  match goal with |- during None (with_db ?db _) ∧ _ => assert (core_of db = core_of db3) as Hc end.
  { transitivity (core_of (update_device (mc_device m) (set_d_status DSynced) db3)); [|by apply core_update_device].
    etransitivity; [apply core_directory_plan|]. reflexivity. }
  split.
  - apply (during_same None (with_db db3 s)); [|exact Hc]. split; [split; [exact Hb3|done]|].
    destruct (shaped_step v (λ x, x = operationId) id push_shape s (update_operation operationId g (du_db s)) Hsh) as (y & Hy & ?);
      [by apply step_update_operation|done|]. by exists y.
  - rewrite main_of_core, Hc, <- main_of_core.
    pose proof (but_main _ _ _ (base_agrees _ _ _ _ _ Hb3)) as Hm. cbn in Hm. rewrite <- Hm by tauto. exact Href.
Qed.


Lemma abort_merge_during s w operationId main commit reason db : merging operationId main commit s →
  abortOperation operationId reason w (du_db s) = Ok ((), db) → during None (with_db db s).
Proof.
  intros H E. unfold abortOperation in E. apply bind_Ok in E as (o & Ho & E). apply (inj Ok) in E. apply pair_equal_spec in E as [_ <-].
  destruct (merging_row _ _ _ _ _ H Ho) as ([[Hb Hu] Hsh] & Hid & Hne & _).
  destruct (base_live _ _ _ _ _ Hb o eq_refl) as [(Hin & _ & _) _].
  destruct (abort_step _ _ _ (nowIso w 0) reason (base_formed _ _ _ _ _ Hb) Hin Hid) as [Hs Hend]. split.
  - eapply held_settle; [by split|exact Hs|exact Hend|]. by intros x [= <-].
  - eapply shaped_step; [exact Hsh|exact Hs|]. by apply not_eq_sym.
Qed.

(** ** Failing *)

(** The request may be stopped here, and its operation aborted. *)
Definition stopped (s : durable) : Prop :=
  (∃ M, held v d M s) ∨ ∃ o ref t, moved v d o ref t s ∧ op_operation_id o ≠ id.

Lemma during_stopped M s : during M s → stopped s.
Proof. intros [H _]. left. by exists M. Qed.
Lemma advanced_stopped operationId commit s : advanced operationId commit s → stopped s.
Proof. intros [(o & H & Hid & Hne) _]. right. exists o, MAIN_REF, commit. by rewrite Hid. Qed.
Lemma stopped_recoverable s : stopped s → recoverable v d s.
Proof. intros [H|(o & ref & t & H & _)]; [by left|right; eauto]. Qed.

Lemma abort_stopped s w reason db : stopped s → abortOperation id reason w (du_db s) = Ok ((), db) → recoverable v d (with_db db s).
Proof.
  intros H E. unfold abortOperation in E. apply bind_Ok in E as (o & Ho & E). apply (inj Ok) in E. apply pair_equal_spec in E as [_ <-].
  destruct (requireOperation_Ok _ _ _ Ho) as [Hin Hid]. destruct H as [[M H]|(x & ref & t & (Hb & Href & Hrest) & Hne)].
  - destruct (abort_step _ _ _ (nowIso w 0) reason (base_formed _ _ _ _ _ (proj1 H)) Hin Hid) as [Hs Hend]. left.
    destruct M as [x|]; [|by exists None; eapply held_settle].
    destruct (decide (op_operation_id x = id)) as [E|E].
    + exists None. eapply held_settle; [exact H|exact Hs|exact Hend|]. by intros y [= <-].
    + exists (Some x). eapply held_other; [exact H|exact Hs| |]; [intros y Hy Ey; left; by eapply Hend|by intros y [= <-]].
  - destruct (abort_step _ _ _ (nowIso w 0) reason (base_formed _ _ _ _ _ Hb) Hin Hid) as [Hs Hend]. right. exists x, ref, t.
    split; [|done]. destruct (base_live _ _ _ _ _ Hb x eq_refl) as [(Hx & Hxv & Hl) Hp]. eapply base_step; [exact Hb|exact Hs| | | |].
    + intros y (Hy & _ & Hyl) Ey _. by rewrite (Hend y Hy Ey) in Hyl.
    + by intros y [= <-] _.
    + intros y [= <-]. split; [|done]. split; [|done]. by apply (step_operations _ _ _ Hs).
    + intros y. destruct (decide (y = id)); auto.
Qed.

End transactions.
