(* ===== verification/PushSafety.v ===== *)
(** * An interrupted push can be recovered (proofs about PushService.v)

    Whatever call of a push fails, and wherever the process stops, the vault is
    [recoverable]: its references and its metadata differ at most by one prepared
    operation that startup rolls forward. *)

From S2P Require Export PushFacts.

Section safety.
Context `{D : Dates} `{U : Unicode} `{Nm : Numerals} `{Sh : Sha256} `{GT : GitTools} `{TT : TextTools} `{F : Faults}.
Context (v d id target : jstring) (target_oid : is_oid target = true).

Local Abbreviation I := (recoverable v d).
Local Abbreviation rely := (others v d).
Local Abbreviation hoare := (hoare (call_step v d) rely I).
Local Abbreviation quiet := (quiet (call_step v d) rely I).
Local Abbreviation during := (during v d id target).
Local Abbreviation stopped := (stopped v d id).

#[local] Instance settled_during M : Settled v d (during M).
Proof. unfold PushFacts.during. apply _. Qed.
#[local] Instance settled_merging operationId main commit : Settled v d (merging v d id target operationId main commit).
Proof. unfold merging, PushFacts.during. apply _. Qed.
#[local] Instance settled_advanced operationId commit : Settled v d (advanced v d id target operationId commit).
Proof. unfold advanced. apply _. Qed.
#[local] Instance settled_pushing current : Settled v d (pushing v d id target current).
Proof. unfold pushing, PushFacts.during. apply _. Qed.
#[local] Instance settled_pushed : Settled v d (pushed v d id target).
Proof. unfold pushed. apply _. Qed.
#[local] Instance settled_stopped : Settled v d stopped.
Proof. unfold PushFacts.stopped. apply _. Qed.

(** A read before the rest of a function. *)
Lemma hoare_read {A B} P `{!Settled v d P} (m : io call A) (f : A → io call B) R E : quiet P m → (∀ s, P s → E s) →
  Assertion rely I E → (∀ a, hoare P (f a) R E) → hoare P (m ≫= f) R E.
Proof. intros Hm HE HA Hf. eapply hoare_bind; [apply _| |exact Hf|exact HA]. eapply hoare_weaken; [exact Hm|done|done|exact HE]. Qed.

Lemma hoare_quiet {A} P (m : io call A) R (E : durable → Prop) : quiet P m → (∀ a s, P s → R a s) → (∀ s, P s → E s) → hoare P m R E.
Proof. intros Hm HR HE. eapply hoare_weaken; eauto. Qed.

(** ** Recording a conflict *)

(** Only the conflict itself protects these references. *)
Definition protecting (conflictId : jstring) (refs : list (jstring * jstring)) (s : durable) : Prop :=
  ∀ kind commit, (conflictRef conflictId kind, commit) ∈ protected_refs v (du_db s) → (kind, commit) ∈ refs.
Definition unused (conflictId : jstring) (s : durable) : Prop :=
  ∀ kind, ref_at s v (conflictRef conflictId kind) = None ∧ ∀ commit, (conflictRef conflictId kind, commit) ∉ protected_refs v (du_db s).

#[local] Instance framed_protecting conflictId refs : Framed v d (protecting conflictId refs).
Proof.
  split.
  - intros s s' [Hr _] H kind commit. rewrite (same_protected _ _ _ _ Hr). apply H.
  - intros s db H E kind commit. cbn [du_db with_db]. rewrite protected_refs_core, E, <- protected_refs_core. apply H.
Qed.
#[local] Instance framed_unused conflictId : Framed v d (unused conflictId).
Proof.
  split.
  - intros s s' [Hr _] H kind. rewrite (same_protected _ _ _ _ Hr), (same_refs _ _ _ _ Hr). apply H.
  - intros s db H E kind. cbn [du_db with_db]. rewrite protected_refs_core, E, <- protected_refs_core. apply H.
Qed.

Lemma fresh_conflict P `{!Settled v d P} : hoare P (perform (FreshConflictId v)) (λ i s, P s ∧ unused i s) P.
Proof. apply hoare_call; [apply _| |intros; apply _|apply _]. intros s [i|e] s' Hs [-> Hi]; [|done]. split; [done|]. exact (Hi i eq_refl). Qed.

Lemma elem_protected_by c p : p ∈ protected_by c ↔ ∃ kind commit, (kind, commit) ∈ conflictProtectedRefs c ∧ p = (conflictRef (cf_conflict_id c) kind, commit).
Proof.
  unfold protected_by. rewrite list_elem_of_In, in_map_iff. split.
  - intros ([kind commit] & <- & H). exists kind, commit. by rewrite list_elem_of_In.
  - intros (kind & commit & H & ->). exists (kind, commit). by rewrite <- list_elem_of_In.
Qed.

(** The conflict's own references are written one after the other. *)
Lemma ensure_conflict_ref M conflictId kind commit refs : (∀ o, M = Some o → op_operation_id o = id) → (∀ c, (kind, c) ∈ refs → c = commit) →
  quiet (λ s, during M s ∧ protecting conflictId refs s) (ensureRef v (conflictRef conflictId kind) commit).
Proof.
  intros HM Honly. unfold ensureRef. apply quiet_bind; [apply _|apply _|by apply quiet_get_ref, _|]. intros [c|].
  { destruct (c =s? commit); [by apply quiet_ret, _|by apply quiet_throw, _]. }
  assert (∀ s, during M s ∧ protecting conflictId refs s →
    during M (put_ref v (conflictRef conflictId kind) (Some commit) s) ∧ protecting conflictId refs (put_ref v (conflictRef conflictId kind) (Some commit) s)) as Hput.
  { intros s [H Hp]. split; [|done]. pose proof H as [[Hb Hu] Hs]. split; [split|done].
    - destruct Hb as [Hwf [H1 H2 H3 H4] Hd Ho Hl]. split; try done. split; [done| | |].
      + intros _. rewrite ref_at_put. case_decide as E; [by destruct (conflictRef_main _ _ (eq_sym E))|]. apply H2; tauto.
      + intros i r h Hat Hr _. rewrite ref_at_put. case_decide as E; [|apply (H3 i r h Hat Hr); tauto].
        destruct Hat as (x & Hx & _ & _ & Er & _). rewrite (device_ref_names _ Hwf x Hx), E in Er. by destruct (conflictRef_device _ _ _ (eq_sym Er)).
      + intros p Hp' _. rewrite ref_at_put. case_decide as E; [|apply H4; tauto]. right. f_equal. symmetry. apply Honly, Hp. by rewrite <- E; destruct p.
    - intros o Ho. destruct (Hu o Ho) as [E|(r & t & E & Hmov & Hat)]; [by left|right]. exists r, t. split; [done|]. split; [done|].
      rewrite ref_at_put, decide_False; [done|]. clear E Hat. intros E. destruct Hmov; symmetry in E.
      + by apply conflictRef_device in E.
      + by apply conflictRef_main in E. }
  apply hoare_update_ref; [apply _|apply _|apply _|done| |]; intros; by apply Hput.
Qed.

#[local] Hint Resolve quiet_git quiet_archive quiet_snapshot quiet_get_ref : typeclass_instances.

Definition merged (r : PushResult) : option (jstring * jstring) :=
  match r with PushMerged _ main commit _ _ => Some (main, commit) | _ => None end.

Lemma createConflict_safe M base main commit paths reason plan dref pairs : (∀ o, M = Some o → op_operation_id o = id) →
  hoare (during M) (createConflict v d base main commit paths reason plan dref pairs) (λ r s, during M s ∧ merged r = None) (during M).
Proof.
  intros HM. unfold createConflict. cbv zeta. set (affected := sorted_set (paths ++ pair_paths pairs)).
  eapply hoare_bind; [apply _|by apply fresh_conflict, _| |apply _]. intros conflictId.
  set (P := λ s, during M s ∧ unused conflictId s).
  apply hoare_read with (P := P); [apply _| |by intros s []|apply _|].
  { apply quiet_mutate_same; [apply _|]. intros w db a db' E. apply (inj Ok) in E.
    transitivity (core_of (nextMergeSequence db v).2); [by rewrite E|done]. }
  intros sequence. set (refs := [(lit "base", base); (lit "current", main); (lit "device", commit)]).
  eapply hoare_bind with (R' := λ _ s, during M s ∧ protecting conflictId refs s); [apply _| | |apply _].
  - apply hoare_mutate; [apply _|intros; apply _|apply _|by intros s []|].
    intros s w a db c [H Hun] Hfresh E Hc.
    destruct (conflict_during _ _ _ _ M s w _ _ _ conflictId _ _ _ _ _ _ a db H Hfresh (λ kind, proj1 (Hun kind)) E) as [Hd Hp].
    assert (during M (with_db c s)) as Hd' by by apply (during_same _ _ _ _ M (with_db db s)).
    split; [|done]. split; [done|]. intros kind commit' Hin. cbn [du_db with_db] in Hin.
    rewrite protected_refs_core, Hc, <- protected_refs_core in Hin.
    destruct (Hp _ Hin) as [Hold|(kind' & c' & Hk & E')]; [by destruct (proj2 (Hun kind) commit')|].
    apply pair_equal_spec in E' as [E' ->]. by apply conflictRef_kind in E' as ->.
  - intros seq. set (P1 := λ s, during M s ∧ protecting conflictId refs s).
    apply hoare_read with (P := P1); [apply _| |by intros s []|apply _|intros _; by apply hoare_ret; [apply _|intros s [? _]]].
    apply quiet_catch; [apply _|apply _| |].
    + repeat (apply quiet_bind; [apply _|apply _| |intros _]); apply ensure_conflict_ref; try exact HM;
        intros c Hc; unfold refs in Hc; rewrite !elem_of_cons, elem_of_nil in Hc; naive_solver.
    + intros e. apply quiet_bind; [apply _|apply _| |intros _; by apply quiet_throw, _].
      apply quiet_mutate_same; [apply _|]. intros w db a db' E. by eapply block_core.
Qed.

(** ** Publishing a merge *)

#[local] Instance framed_main x : Framed v d (λ s, main_of v (du_db s) = x).
Proof.
  split.
  - intros s s' [Hr _] <-. by apply (same_main _ _ _ _ Hr).
  - intros s db <- E. cbn [du_db with_db]. by rewrite !main_of_core, E.
Qed.

(** The push has ended; a merge is what main is now. *)
Definition settled_with (r : PushResult) (s : durable) : Prop :=
  during None s ∧ ∀ main commit, merged r = Some (main, commit) → main = commit ∧ main_of v (du_db s) = Some commit.

#[local] Instance framed_merged r : Framed v d (λ s, ∀ main commit, merged r = Some (main, commit) → main = commit ∧ main_of v (du_db s) = Some commit).
Proof.
  split.
  - intros s s' [Hr _] H main commit. rewrite (same_main _ _ _ _ Hr). apply H.
  - intros s db H E main commit. cbn [du_db with_db]. rewrite main_of_core, E, <- main_of_core. apply H.
Qed.
#[local] Instance settled_settled_with r : Settled v d (settled_with r).
Proof. unfold settled_with. apply _. Qed.

Lemma settled_unmerged r s : during None s → merged r = None → settled_with r s.
Proof. intros H E. split; [done|]. intros main commit. by rewrite E. Qed.

Lemma conflict_settled base main commit paths reason plan dref pairs :
  hoare (during None) (createConflict v d base main commit paths reason plan dref pairs) settled_with stopped.
Proof.
  eapply hoare_weaken; [by apply (createConflict_safe None)|done| |intros s Hs; by eapply during_stopped]. intros r s [H E]. exact (settled_unmerged r s H E).
Qed.

(** Where a merge that failed may have stopped. *)
Definition unsure (operationId main : jstring) (commit : option jstring) (s : durable) : Prop :=
  (∃ prepared, merging v d id target operationId main prepared s) ∨
  ∃ c, commit = Some c ∧ advanced v d id target operationId c s.

#[local] Instance settled_unsure operationId main commit : Settled v d (unsure operationId main commit).
Proof.
  unfold unsure. apply settled_or; [apply _|]. apply settled_ex. intros c.
  split; [split; [apply _|]|]; [by intros s [_ H]; apply (stopped_recoverable v d id); eapply (advanced_stopped v d id target)|].
  intros s db [-> H] E. split; [done|]. by apply (settled_same v d).
Qed.

Lemma unsure_stopped operationId main commit s : unsure operationId main commit s → stopped s.
Proof.
  intros [(prepared & (o & H & _) & _)|(c & _ & H)]; [by eapply during_stopped|by eapply advanced_stopped].
Qed.

Lemma write_merge_safe m write sequence operationId : mc_vault m = v → (∀ P, Settled v d P → ∀ seq, quiet P (write seq)) →
  triple (call_step v d) rely I (merging v d id target operationId (mc_main m) None) (write_merge m write sequence operationId)
    (λ '(commit, r) s, match r with
     | Ok _ => ∃ c, commit = Some c ∧ advanced v d id target operationId c s
     | Throw _ => unsure operationId (mc_main m) commit s
     end).
Proof.
  intros Hv Hw. unfold write_merge. rewrite Hv. eapply triple_after; [apply _|by apply Hw, _|].
  intros [c|e]; [|by apply triple_done; [apply _|apply (assertion_kept rely)|intros s H; left; by exists None]].
  eapply triple_after with (R := λ r s, match r with
     | Ok _ => advanced v d id target operationId c s
     | Throw _ => unsure operationId (mc_main m) (Some c) s end); [apply _| |].
  - apply hoare_read with (P := merging v d id target operationId (mc_main m) None); [apply _|by apply quiet_git, _| |apply _|].
    { intros s H. left. by exists None. }
    intros _. eapply hoare_bind with (R' := λ _, merging v d id target operationId (mc_main m) (Some c)); [apply _| |intros _|apply _].
    + apply hoare_mutate; [apply _|intros; apply _|apply _|intros s H; left; by exists None|].
      intros s w a db db' H _ E Hc. assert (merging v d id target operationId (mc_main m) (Some c) (with_db db' s)) as H'.
      { apply (settled_same v d (with_db db s)); [|done]. destruct a. by eapply prepare_ref_during. }
      split; [done|]. intros _. left. by exists (Some c).
    + apply hoare_update_ref; [apply _|apply _|apply _| | |].
      * intros s H. left. by exists (Some c).
      * intros s H _ Hoid. by eapply merging_moves.
      * intros s H _ Hoid _. right. exists c. split; [done|]. by eapply merging_moves.
  - intros [u|e]; (apply triple_done; [apply _|apply (assertion_kept rely)|]); [|done]. intros s H. by exists c.
Qed.

Lemma commit_merge_safe m results sequence operationId main commit : mc_vault m = v →
  hoare (λ s, advanced v d id target operationId commit s ∨ ∃ prepared, merging v d id target operationId main prepared s ∧ main = commit)
    (mutate (commit_merge_tx m results sequence operationId commit))
    (λ _ s, during None s ∧ main_of v (du_db s) = Some commit) stopped.
Proof.
  intros Hv. set (P := λ s, _). assert (∀ s, P s → stopped s) as HP.
  { intros s [H|(prepared & [(o & H & _) _] & _)]; [by eapply advanced_stopped|by eapply during_stopped]. }
  apply hoare_mutate; [|intros; apply _|apply _|exact HP|].
  { apply settled_or; [apply _|]. apply settled_ex. intros. apply _. }
  intros s w seq db c H _ E Hc.
  assert (advanced v d id target operationId commit s ∨ (∃ prepared, merging v d id target operationId commit prepared s)) as H'.
  { destruct H as [H|(prepared & H & ->)]; [by left|right; by exists prepared]. }
  destruct (commit_merge_during _ _ _ _ _ _ _ _ _ _ _ _ _ Hv H' E) as [Hd Hm].
  assert (during None (with_db c s)) as Hd' by by apply (during_same _ _ _ _ None (with_db db s)).
  split; [|intros _; by eapply during_stopped]. split; [done|]. cbn [du_db with_db]. by rewrite main_of_core, Hc, <- main_of_core.
Qed.

Lemma publish_merge_safe m results rules write pairs : mc_vault m = v → mc_device m = d → evidence_fields results rules →
  (∀ P, Settled v d P → ∀ seq, quiet P (write seq)) →
  hoare (λ s, during None s ∧ ref_at s v MAIN_REF = Some (mc_main m)) (publish_merge m results rules write pairs) settled_with stopped.
Proof.
  intros Hv Hd Hev Hw. unfold publish_merge.
  eapply hoare_bind with (R' := λ '(_, operationId), merging v d id target operationId (mc_main m) None); [apply _| | |apply _].
  { apply hoare_mutate; [apply _|intros []; apply _|apply _|intros s [H _]; by eapply during_stopped|].
    intros s w [seq operationId] db c [H Href] Hfresh E Hc.
    assert (merging v d id target operationId (mc_main m) None (with_db c s)) as H'.
    { apply (settled_same v d (with_db db s)); [|done]. by eapply prepare_merge_during. }
    split; [done|]. intros _. destruct H' as [(o & H' & _) _]. by eapply during_stopped. }
  intros [sequence operationId]. eapply triple_after; [apply _|by apply write_merge_safe|]. intros [commit r].
  assert (∀ c, hoare (λ s, advanced v d id target operationId c s ∨ ∃ prepared, merging v d id target operationId (mc_main m) prepared s ∧ mc_main m = c)
    (eventSeq ← mutate (commit_merge_tx m results sequence operationId c);
     mret (PushMerged (mc_commit m) c c eventSeq ((λ plan, proposalAcknowledgement (pl_proposal plan) AckAccepted) <$> mc_plan m))) settled_with stopped) as Hcommit.
  { intros c. eapply hoare_bind; [apply _|by apply commit_merge_safe|intros seq|apply _].
    apply hoare_ret; [apply _|]. intros s [H Hm]. split; [done|]. by intros main' commit' [= <- <-]. }
  destruct r as [u|error].
  { destruct commit as [c|]; [|by intros s (c & [=] & _)]. intros s (c' & [= <-] & H). apply Hcommit. by left. }
  destruct (is_class EGitDurability error). { apply hoare_throw; [apply _|apply unsure_stopped]. }
  rewrite Hv. eapply hoare_bind; [apply _| |intros actual|apply _].
  { eapply hoare_weaken; [by apply (hoare_get_ref _ _ _ MAIN_REF)|done|intros a s H; exact H|apply unsure_stopped]. }
  set (P := λ s, unsure operationId (mc_main m) commit s ∧ ref_at s v MAIN_REF = actual).
  assert (∀ s, P s → (∃ c, commit = Some c ∧ actual = Some c ∧ advanced v d id target operationId c s) ∨
    ∃ prepared, merging v d id target operationId (mc_main m) prepared s ∧ actual = Some (mc_main m)) as Hcases.
  { intros s [[(prepared & H)|(c & -> & H)] E]; [right; exists prepared|left; exists c].
    - split; [done|]. rewrite <- E. apply H.
    - pose proof H as [(o & (_ & Href & _) & _) _]. rewrite Href in E. by split. }
  cbv zeta. match goal with |- Programs.hoare _ _ _ _ (if ?b then _ else _) _ _ => destruct b eqn:Em end.
  - destruct commit as [c|]; [|done]. apply oeqb_iff in Em as ->. cbn [from_option Datatypes.id]. 
    eapply hoare_weaken; [apply (Hcommit c)|..]; try done. intros s Hs. destruct (Hcases s Hs) as [(c' & [= <-] & _ & H)|(prepared & H & [= E])]; [by left|].
    right. exists prepared. by split.
  - destruct (negb _) eqn:En.
    { intros s Hs. exfalso. destruct (Hcases s Hs) as [(c' & -> & -> & _)|(prepared & _ & ->)].
      - by rewrite (proj2 (oeqb_iff _ _) eq_refl) in Em.
      - by rewrite (proj2 (oeqb_iff _ _) eq_refl) in En. }
    eapply hoare_bind with (R' := λ _, during None); [apply _| |intros _|apply _].
    + eapply hoare_weaken with (P' := λ s, ∃ prepared, merging v d id target operationId (mc_main m) prepared s)
        (R' := λ _, during None) (E' := stopped); [| |done|done].
      * apply hoare_mutate; [apply _|intros; apply _|apply _| |].
        { intros s (prepared & (o & H & _) & _). by eapply during_stopped. }
        intros s w [] db c (prepared & H) _ E Hc. assert (during None (with_db c s)) as H'.
        { apply (during_same _ _ _ _ None (with_db db s)); [|done]. by eapply abort_merge_during. }
        split; [done|]. intros _. by eapply during_stopped.
      * intros s Hs. destruct (Hcases s Hs) as [(c' & -> & -> & _)|(prepared & H & _)]; [by rewrite (proj2 (oeqb_iff _ _) eq_refl) in Em|by exists prepared].
    + destruct (is_policy_error error); [|by apply hoare_throw; [apply _|intros s Hs; by eapply during_stopped]].
      rewrite Hd. apply conflict_settled.
Qed.

(** ** [mergeDeviceCommit] *)

Ltac quiet_step :=
  first
    [ apply quiet_ret; apply _ | apply quiet_throw; apply _ | apply quiet_lift; apply _
    | apply quiet_git; apply _ | apply quiet_archive; apply _ | apply quiet_snapshot; apply _ | apply quiet_get_ref; apply _
    | apply quiet_bind; [apply _|apply _| |intros ?]
    | apply quiet_fmap; [apply _|apply _|]
    | apply quiet_catch; [apply _|apply _| |intros ?]
    | match goal with |- Programs.quiet _ _ _ _ (match ?x with _ => _ end) => destruct x end ].
Ltac quiets := cbv zeta; repeat quiet_step.

Section reads.
Context (P : durable → Prop) `{!Settled v d P}.

Lemma admission_quiet vault commit main a : quiet P (hasRootIgnoreAdmission vault commit main a).
Proof. unfold hasRootIgnoreAdmission. quiets. Qed.
Lemma classify_quiet vault device proposal : quiet P (PushService.classifyDirectoryProposal vault device proposal).
Proof. unfold PushService.classifyDirectoryProposal. quiets. Qed.
Lemma classify_given_quiet vault device proposal : quiet P (classify_if_given vault device proposal).
Proof. unfold classify_if_given. quiets. Qed.
Lemma merge_base_quiet vault main commit base : quiet P (merge_base vault main commit base).
Proof. unfold merge_base. quiets. Qed.

Lemma rules_safe vault : hoare P (metadataConflictRules vault)
  (λ rules s, P s ∧ ∃ fields, rules = map rule_of fields ∧ Frontmatter.validateMetadataConflictRules (JArr (map rule_of fields)) = Ok fields) P.
Proof.
  unfold metadataConflictRules. apply hoare_read with (P := P); [apply _|by apply quiet_snapshot|done|apply _|intros db].
  destruct (find_row _ _) as [row|]; [|by apply hoare_throw; [apply _|]].
  eapply hoare_bind with (R' := λ fields s, P s ∧ Frontmatter.validateMetadataConflictRules (JArr (map rule_of fields)) = Ok fields);
    [apply _| |intros fields|apply _].
  - apply hoare_lift; [apply _| |done]. intros fields s E Hs. split; [done|]. by eapply stored_rules_valid.
  - apply hoare_ret; [apply _|]. intros s [Hs E]. eauto.
Qed.
End reads.

(** What the merge is decided on. *)
Definition in_main (main : jstring) (s : durable) : Prop := during None s ∧ ref_at s v MAIN_REF = Some main.
#[local] Instance settled_in_main main : Settled v d (in_main main).
Proof. unfold in_main. apply _. Qed.
Lemma in_main_stopped main s : in_main main s → stopped s.
Proof. intros [H _]. by eapply during_stopped. Qed.

Lemma conflict_in_main main' base main commit paths reason plan dref pairs :
  hoare (in_main main') (createConflict v d base main commit paths reason plan dref pairs) settled_with stopped.
Proof. eapply hoare_weaken; [apply conflict_settled|by intros s []|done|done]. Qed.

Lemma merge_contained_safe commit main seq proposal a :
  hoare (in_main main) (merge_contained v d commit main seq proposal a) settled_with stopped.
Proof.
  assert (∀ r, merged r = None → hoare (in_main main) (mret r) settled_with stopped) as Hret.
  { intros r E. apply hoare_ret; [apply _|]. intros s [H _]. by apply settled_unmerged. }
  assert (∀ A (fn : transaction A), (∀ w db a db', fn w db = Ok (a, db') → core_of db' = core_of db) → quiet (in_main main) (mutate fn)) as Hsame.
  { intros A fn H. by apply quiet_mutate_same; [apply _|]. }
  unfold merge_contained. do 2 (eapply hoare_read; [apply _|quiets|apply in_main_stopped|apply _|intros ?]).
  destruct proposal as [proposal|], a1 as [result|]; cbn [fmap option_fmap option_map].
  2: { eapply hoare_read; [apply _|by apply admission_quiet, _|apply in_main_stopped|apply _|intros admitted].
    destruct (negb admitted); [apply conflict_in_main|].
    eapply hoare_read; [apply _|by apply classify_quiet, _|apply in_main_stopped|apply _|intros plan].
    destruct (pl_affectedRoots plan); [|apply conflict_in_main].
    eapply hoare_read; [apply _|apply Hsame|apply in_main_stopped|apply _|intros; by apply Hret].
    intros w db x db' E. by eapply directory_merge_core. }
  all: eapply hoare_read; [apply _|apply Hsame|apply in_main_stopped|apply _|intros; by apply Hret].
  all: intros w db x db' E; by eapply synced_core.
Qed.

Lemma publish_in_main m results rules write pairs : mc_vault m = v → mc_device m = d → evidence_fields results rules →
  (∀ P, Settled v d P → ∀ seq, quiet P (write seq)) →
  hoare (in_main (mc_main m)) (publish_merge m results rules write pairs) settled_with stopped.
Proof. apply publish_merge_safe. Qed.

Lemma clean_merge_safe m overlapping base renames fields pairs : mc_vault m = v → mc_device m = d →
  Frontmatter.validateMetadataConflictRules (JArr (map rule_of fields)) = Ok fields →
  hoare (in_main (mc_main m)) (tryCleanOverlappingMerge m overlapping base renames (map rule_of fields) pairs)
    (λ r s, match r with Some r => settled_with r s | None => in_main (mc_main m) s end) stopped.
Proof.
  intros Hv Hd Hf. unfold tryCleanOverlappingMerge.
  assert (∀ r : option PushResult, Assertion rely I (λ s, match r with Some r => settled_with r s | None => in_main (mc_main m) s end)) as HA.
  { intros [r|]; apply _. }
  destruct (negb _); [by apply hoare_ret; [apply _|]|].
  eapply triple_after; [apply _|by apply quiet_git, _|]. intros [[[tree results]|]|error].
  - apply hoare_fmap; [apply _| |intros; apply _|apply _]. apply publish_in_main; [done|done| |].
    + right. by exists fields.
    + intros P HP seq. unfold write_tree_merge. quiets.
  - by apply hoare_ret; [apply _|].
  - destruct (is_class EGitMergeOwnership error); [|apply hoare_throw; [apply _|apply in_main_stopped]].
    apply hoare_fmap; [apply _| |intros; apply _|apply _]. rewrite Hv, Hd. apply conflict_in_main.
Qed.

Lemma merge_divergent_safe commit main base natural detached proposal a :
  hoare (in_main main) (merge_divergent v d commit main base natural detached proposal a) settled_with stopped.
Proof.
  unfold merge_divergent. eapply hoare_read; [apply _|by apply classify_given_quiet, _|apply in_main_stopped|apply _|intros plan].
  eapply hoare_bind; [apply _|eapply hoare_weaken; [by apply (rules_safe _ v)|done|intros rules s H; exact H|apply in_main_stopped]| |apply _].
  intros rules s [Hs (fields & -> & Hf)]. revert s Hs.
  match goal with |- ∀ s, in_main main s → safe _ _ _ _ ?m s => change (hoare (in_main main) m settled_with stopped) end.
  do 5 (eapply hoare_read; [apply _|quiets|apply in_main_stopped|apply _|intros ?]). cbv zeta.
  match goal with |- context [match ?x with _ => _ end] => destruct x as [paths reason|overlaps|overlapping renames|] end.
  - apply conflict_in_main.
  - apply (publish_in_main (mk_merge v d base main commit _ plan)); [done|done|by left|]. intros P HP seq. quiets.
  - eapply hoare_bind; [apply _|by apply (clean_merge_safe (mk_merge v d base main commit _ plan))| |apply _].
    intros [r|]; [by apply hoare_ret; [apply _|]|apply conflict_in_main].
  - apply (publish_in_main (mk_merge v d base main commit _ plan)); [done|done|by left|]. intros P HP seq. unfold write_tree_merge. quiets.
Qed.

Lemma mergeDeviceCommit_safe commit seq base detached proposal a :
  hoare (during None) (PushService.mergeDeviceCommit v d commit seq base detached proposal a) settled_with stopped.
Proof.
  unfold PushService.mergeDeviceCommit. eapply hoare_bind; [apply _| |intros x|apply _].
  { eapply hoare_weaken; [by apply (hoare_get_ref _ _ (during None) MAIN_REF)|done|intros a' s H; exact H|intros s H; by eapply during_stopped]. }
  destruct x as [main|].
  2: { apply hoare_ret; [apply _|]. intros s [H _]. by apply settled_unmerged. }
  match goal with |- Programs.hoare _ _ _ _ ?m _ _ => change (hoare (in_main main) m settled_with stopped) end.
  eapply hoare_read; [apply _|quiets|apply in_main_stopped|apply _|intros [|]]; [apply merge_contained_safe|].
  eapply hoare_read; [apply _|quiets|apply in_main_stopped|apply _|intros db].
  destruct (findOpenConflict _ _ _ _) as [existing|].
  { eapply hoare_read; [apply _|quiets|apply in_main_stopped|apply _|intros db']. apply hoare_ret; [apply _|].
    intros s [H _]. by apply settled_unmerged. }
  cbv zeta. eapply hoare_read; [apply _|by apply admission_quiet, _|apply in_main_stopped|apply _|intros admitted].
  destruct (negb admitted); [apply conflict_in_main|].
  eapply hoare_read; [apply _|by apply merge_base_quiet, _|apply in_main_stopped|apply _|intros [[[b n]|]|reason]];
    [apply merge_divergent_safe|apply conflict_in_main..].
Qed.

(** ** Refusals *)

Context (auth : AuthenticatedDevice).
Context (auth_vault : v_vault_id (ad_vault auth) = v) (auth_device : d_device_id (ad_device auth) = d)
  (auth_ref : d_device_ref (ad_device auth) = own_ref d).

(** The results that do not claim a merge. *)
Class Unmerged (A : Type) := unmerged : A → Prop.
#[local] Instance unmerged_result : Unmerged PushResult := λ r, merged r = None.
#[local] Instance unmerged_option {A} `{Unmerged A} : Unmerged (option A) := λ o, ∀ a, o = Some a → unmerged a.
#[local] Instance unmerged_pair {A B} `{Unmerged A} : Unmerged (A * B) := λ p, unmerged p.1.
#[local] Instance unmerged_validation : Unmerged UploadValidation := λ p, unmerged p.1.

(** The request's operation is not prepared; the device's reference is where it was read. *)
Definition ready (current : option jstring) (s : durable) : Prop := during None s ∧ ref_at s v (own_ref d) = current.
#[local] Instance settled_ready current : Settled v d (ready current).
Proof. unfold ready. apply _. Qed.
Lemma ready_stopped current s : ready current s → stopped s.
Proof. intros [H _]. by eapply during_stopped. Qed.

Section refusals.
Context (own : option jstring).

Definition mild {A} `{Unmerged A} (m : io call A) : Prop := hoare (ready own) m (λ a s, ready own s ∧ unmerged a) (ready own).

Lemma mild_ret {A} `{Unmerged A} (a : A) : unmerged a → mild (mret a).
Proof. intros Ha. by apply hoare_ret; [apply _|]. Qed.
Lemma mild_throw {A} `{Unmerged A} e : mild (throw (A := A) e).
Proof. by apply hoare_throw; [apply _|]. Qed.
Lemma mild_read {A B} `{Unmerged B} (m : io call A) (f : A → io call B) : quiet (ready own) m → (∀ a, mild (f a)) → mild (m ≫= f).
Proof. intros Hm Hf. apply hoare_read with (P := ready own); [apply _|done|done|apply _|done]. Qed.
Lemma mild_bind {A B} `{Unmerged A} `{Unmerged B} (m : io call A) (f : A → io call B) :
  mild m → (∀ a, unmerged a → mild (f a)) → mild (m ≫= f).
Proof.
  intros Hm Hf. eapply hoare_bind; [apply _|exact Hm| |apply _]. intros a s [Hs Ha]. by apply Hf.
Qed.
Lemma mild_some {A} `{Unmerged A} (m : io call A) : mild m → mild (Some <$> m).
Proof.
  intros Hm. apply hoare_fmap; [apply _| |intros; apply _|apply _]. eapply hoare_weaken; [exact Hm|done| |done].
  intros a s [Hs Ha]. split; [done|]. by intros x [= <-].
Qed.
Lemma mild_catch {A} `{Unmerged A} (m : io call A) h : mild m → (∀ e, mild (h e)) → mild (try_catch m h).
Proof. intros Hm Hh. eapply hoare_catch; [apply _|exact Hm|exact Hh|intros; apply _]. Qed.
Lemma mild_after {A B} `{Unmerged B} (m : io call A) (f : result A → io call B) : quiet (ready own) m → (∀ r, mild (f r)) → mild (after m f).
Proof. intros Hm Hf. eapply triple_after; [apply _|exact Hm|]. intros [a|e]; apply Hf. Qed.
Lemma mild_refusal {A} `{Unmerged A} (check : io call (option A)) next : mild check → mild next → mild (or_refusal check next).
Proof. intros Hc Hn. unfold or_refusal. apply mild_bind; [done|]. intros [r|] Hr; [|done]. apply mild_ret. by apply Hr. Qed.
Lemma unmerged_none {A} `{Unmerged A} : unmerged (None : option A).
Proof. by intros a. Qed.

Lemma reject_mild code message : mild (rejectDevicePush auth id code message).
Proof.
  unfold rejectDevicePush. apply mild_read; [|intros; by apply mild_ret]. apply quiet_mutate; [apply _|].
  intros s w [] db [H Hr] _ E. split; [by eapply reject_during|done].
Qed.
Lemma refuse_mild code message : mild (refuse auth id code message).
Proof. unfold refuse. apply mild_bind; [apply reject_mild|]. intros r Hr. apply mild_ret. by intros x [= <-]. Qed.

Ltac mild_step :=
  first
    [ apply reject_mild | apply refuse_mild
    | apply mild_ret; first [apply unmerged_none | done | by intros ? ?]
    | apply mild_throw
    | apply mild_some
    | apply mild_refusal
    | apply mild_read; [solve [quiets]|intros ?]
    | apply mild_catch; [|intros ?]
    | apply mild_after; [solve [quiets]|intros ?]
    | match goal with |- mild (match ?x with _ => _ end) => destruct x end ].
Ltac milds := cbv zeta; repeat mild_step.

Lemma admission_check_mild manifest main : mild (checkRootIgnoreAdmission auth id manifest main).
Proof.
  unfold checkRootIgnoreAdmission. apply mild_catch; [|intros e; unfold admission_error; milds].
  apply mild_read; [apply admission_quiet, _|]. intros [|]; milds.
Qed.
Lemma rename_evidence_quiet P `{!Settled v d P} from vault commit base pairs : quiet P (validateRenamePairEvidence from vault commit base pairs).
Proof. unfold validateRenamePairEvidence. quiets. Qed.
Lemma policy_mild manifest dref main : mild (validate_policy auth id manifest dref main).
Proof.
  unfold validate_policy, alreadyPinnedLegacy. milds.
Qed.
Lemma pairs_mild manifest : mild (validate_pairs auth id manifest).
Proof.
  unfold validate_pairs. destruct (pm_rename_pairs manifest) as [[|p ps]|]; milds.
  apply mild_read; [apply rename_evidence_quiet, _|intros [reason|]]; milds.
Qed.
Lemma base_mild manifest main : mild (validate_base auth id manifest main).
Proof. unfold validate_base. milds. Qed.
Lemma relation_quiet P `{!Settled v d P} vault commit current : quiet P (device_relation vault commit current).
Proof. unfold device_relation. quiets. Qed.
Lemma validate_reader_mild manifest dref main : mild (validateUploadReader auth id manifest dref main).
Proof.
  unfold validateUploadReader. cbv zeta. apply mild_catch; [|intros e; milds].
  apply mild_read; [quiets|intros [|]]; cbn [negb]; [|milds].
  apply mild_refusal; [milds|]. apply mild_refusal; [apply policy_mild|]. apply mild_refusal; [apply pairs_mild|].
  apply mild_refusal; [apply base_mild|]. apply mild_read; [apply relation_quiet, _|intros relation]. milds.
Qed.
Lemma validate_mild staged manifest dref main : mild (validate_upload staged auth id manifest dref main).
Proof.
  unfold validate_upload. destruct staged; [apply validate_reader_mild|]. apply mild_catch; [|intros e; milds].
  apply mild_read; [quiets|intros _]. apply validate_reader_mild.
Qed.

(** A refusal ends the request. *)
Lemma mild_settled (m : io call PushResult) : mild m → hoare (ready own) m settled_with stopped.
Proof. intros H. eapply hoare_weaken; [exact H|done| |apply ready_stopped]. intros r s [[Hs _] Hr]. by apply settled_unmerged. Qed.

(** ** A commit the device's reference holds already *)

Lemma abort_during s w reason db : during None s → abortOperation id reason w (du_db s) = Ok ((), db) → during None (with_db db s).
Proof.
  intros H E. unfold abortOperation in E. apply bind_Ok in E as (o & Ho & E). apply (inj Ok) in E. apply pair_equal_spec in E as [_ <-].
  eapply during_abort; [exact H|exact Ho|done|reflexivity].
Qed.

Lemma settled_ret r : merged r = None → hoare (during None) (mret r) settled_with stopped.
Proof. intros E. apply hoare_ret; [apply _|]. intros s H. by apply settled_unmerged. Qed.

Lemma finish_safe operation proposal manifest : op_operation_id operation = id →
  hoare (ready own) (finishExistingDeviceCommit auth operation target proposal manifest) settled_with stopped.
Proof.
  intros Hid. unfold finishExistingDeviceCommit. cbv zeta. rewrite Hid, auth_vault, auth_device.
  eapply hoare_read; [apply _|quiets|apply ready_stopped|apply _|intros [main|]].
  2: { eapply hoare_weaken with (P' := during None); [|by intros s []|done|done].
    eapply hoare_read; [apply _| |intros s H; by eapply during_stopped|apply _|intros _; by apply settled_ret].
    apply quiet_mutate; [apply _|]. intros s w [] db H _ E. by eapply abort_during. }
  do 3 (eapply hoare_read; [apply _|quiets|apply ready_stopped|apply _|intros ?]).
  eapply hoare_bind with (R' := λ r s, ready own s ∧ unmerged r); [apply _| |intros rejection|apply _].
  { eapply hoare_weaken with (P' := ready own) (R' := λ r s, ready own s ∧ unmerged r) (E' := ready own);
      [|done|done|apply ready_stopped].
    match goal with |- Programs.hoare _ _ _ _ ?m _ _ => change (mild m) end.
    repeat first [apply admission_check_mild | mild_step]. }
  destruct rejection as [r|].
  { intros s [[H _] Hr]. revert s H. apply settled_ret. by apply Hr. }
  eapply hoare_weaken with (P' := during None); [|by intros s [[]]|done|done].
  eapply hoare_read; [apply _| |intros s H; by eapply during_stopped|apply _|intros _].
  { apply quiet_mutate; [apply _|]. intros s w [] db H _ E. by eapply idempotent_during. }
  match goal with |- Programs.hoare _ _ _ _ (if ?b then _ else _) _ _ => destruct b end.
  - match goal with |- Programs.hoare _ _ _ _ (match ?x with _ => _ end) _ _ => destruct x as [[|c l]|] end.
    2: by apply settled_ret.
    all: apply hoare_throw; [apply _|intros s H; by eapply during_stopped].
  - eapply hoare_read; [apply _|quiets|intros s H; by eapply during_stopped|apply _|intros [|]]; cbn [negb];
      [|apply mergeDeviceCommit_safe].
    destruct proposal, a0; first [by apply settled_ret | apply mergeDeviceCommit_safe].
Qed.
End refusals.

(** ** Moving the device's reference *)

(** The device's reference moves for good when it moves, and the store does not fail
    while it is ahead of the metadata: the request would abort its operation and leave
    the reference unexplained. *)
Context (late_faults : ∀ ref, update_may_fail_late ref → ref ≠ own_ref d)
  (store_faults : ∀ s o t, store_may_fail s → ¬ moved v d o (own_ref d) t s).

Lemma pushing_stopped current s : pushing v d id target current s → stopped s.
Proof. intros (o & H & _). by eapply during_stopped. Qed.

Lemma divergent_safe operationId current main proposal pairs : operationId = id →
  hoare (pushing v d id target (Some current)) (acceptDivergentDeviceCommit auth operationId current main target proposal pairs) settled_with stopped.
Proof.
  intros ->. unfold acceptDivergentDeviceCommit. cbv zeta. rewrite auth_vault, auth_device.
  do 4 (eapply hoare_read; [apply _|quiets|apply pushing_stopped|apply _|intros ?]).
  eapply hoare_read; [apply _|apply classify_given_quiet; apply _|apply pushing_stopped|apply _|intros plan].
  set (P := pushing v d id target (Some current)).
  eapply hoare_bind with (R' := λ r s, P s ∧ merged r = None); [apply _| |intros r|apply _].
  - intros s (o & H & Hid & He). revert s H.
    match goal with |- ∀ s, during (Some o) s → safe _ _ _ _ ?m s => change (hoare (during (Some o)) m (λ r s, P s ∧ merged r = None) stopped) end.
    eapply hoare_weaken; [apply (createConflict_safe (Some o)); by intros x [= <-]|done| |].
    + intros r s [H E]. split; [|done]. by exists o.
    + intros s H. by eapply during_stopped.
  - intros s [H E]. revert s H.
    match goal with |- ∀ s, P s → safe _ _ _ _ ?m s => change (hoare P m settled_with stopped) end.
    eapply hoare_bind with (R' := λ _, during None); [apply _| |intros _; by apply settled_ret|apply _].
    apply hoare_mutate; [apply _|intros; apply _|apply _|apply pushing_stopped|].
    intros s w [] db c H _ Ef Hc. assert (during None (with_db c s)) as H'.
    { apply (during_same _ _ _ _ None (with_db db s)); [|done]. by eapply divergent_during. }
    split; [done|]. intros _. by eapply during_stopped.
Qed.

Lemma commit_push_safe : hoare (pushed v d id target) (mutate (commit_push_tx auth id target)) (λ _, during None) stopped.
Proof.
  apply hoare_call; [apply _| |intros; apply _|apply _]. intros s r s' Hs (w & _ & Hr).
  destruct (run_cases w (commit_push_tx auth id target w) (du_db s)) as [(e & Ee & _)|(a & db & h & Ef & Er)].
  { exfalso. destruct (commit_push_succeeds _ _ _ target auth auth_vault auth_device s w Hs) as (seq & db & Ef). by rewrite Ef in Ee. }
  rewrite Er in Hr. destruct Hr as [[-> ->]|(_ & Hmay & _)].
  - apply (during_same _ _ _ _ None (with_db db s)); [|apply core_committed]. by eapply commit_push_during.
  - exfalso. destruct Hs as [(o & H & _) _]. by eapply store_faults.
Qed.

Lemma accept_safe operation manifest current main relation proposal : op_operation_id operation = id → pm_target_commit manifest = target →
  hoare (ready current) (acceptDeviceCommit auth operation manifest current main relation proposal) settled_with stopped.
Proof.
  intros Hid Ht. unfold acceptDeviceCommit. cbv zeta. rewrite Hid, auth_vault, auth_device, Ht, auth_ref.
  set (P := pushing v d id target current).
  eapply hoare_bind with (R' := λ _, P); [apply _| |intros _|apply _].
  { apply hoare_mutate; [apply _|intros; apply _|apply _|apply ready_stopped|].
    intros s w [] db c [H Hr] _ Ef Hc. assert (P (with_db c s)) as H'.
    { apply (settled_same v d (with_db db s)); [|done]. by eapply prepare_push_during. }
    split; [done|]. intros _. by eapply pushing_stopped. }
  eapply hoare_read with (P := P); [apply _|quiets|apply pushing_stopped|apply _|intros _].
  assert (hoare P (_ ← mutate (still_prepared_tx id); _ ← updateRef v (own_ref d) target current;
    refEventSeq ← mutate (commit_push_tx auth id target);
    PushService.mergeDeviceCommit v d target refEventSeq (default (base_of manifest) (op_proposal_base operation))
      (negb (bool_decide (d_onboarding_status (ad_device auth) = Some OnbPending)) && is_none current && negb (is_none (base_of manifest)) &&
       negb (oeqb (d_last_applied_main (ad_device auth)) (base_of manifest)
         || negb (is_none (d_last_applied_main (ad_device auth))) && oeqb (pm_client_known_main manifest) (base_of manifest)))
      proposal (attestation_of manifest)) settled_with stopped) as Hmove.
  { eapply hoare_read with (P := P); [apply _| |apply pushing_stopped|apply _|intros _].
    { apply quiet_mutate; [apply _|]. intros s w [] db H _ Ef. by eapply still_prepared_during. }
    eapply hoare_bind with (R' := λ _, pushed v d id target); [apply _| |intros _|apply _].
    { apply hoare_update_ref; [apply _|apply _|apply _|apply pushing_stopped| |].
      - intros s H _ _. by eapply pushing_moves.
      - intros s _ _ _ Hl. by destruct (late_faults _ Hl). }
    eapply hoare_bind; [apply _|apply commit_push_safe|intros seq; apply mergeDeviceCommit_safe|apply _]. }
  destruct relation, current as [[|c l]|]; try exact Hmove. by apply divergent_safe.
Qed.

(** ** The admitted request *)

Lemma normalize_quiet P `{!Settled v d P} manifest device : quiet P (normalizeDirectoryProposal manifest device).
Proof. unfold normalizeDirectoryProposal. quiets. Qed.
Lemma block_quiet P `{!Settled v d P} device : quiet P (deviceBlockRejection device).
Proof. unfold deviceBlockRejection. quiets. Qed.

Section admitted.
Context (operation : SyncOperationRow) (operation_id : op_operation_id operation = id).

Lemma reject_settled current code message : hoare (ready current) (rejectDevicePush auth id code message) settled_with stopped.
Proof. apply mild_settled, reject_mild. Qed.

Lemma integrate_held_safe current manifest pairs proposal : pm_target_commit manifest = target →
  hoare (ready current) (integrate_held auth operation manifest pairs proposal) settled_with stopped.
Proof.
  intros Ht. unfold integrate_held. rewrite auth_vault, operation_id, Ht. cbv zeta.
  eapply hoare_read; [apply _| |apply ready_stopped|apply _|intros [code|]]; [|apply reject_settled|by apply finish_safe].
  destruct (pm_rename_pairs manifest) as [[|p ps]|]; [quiets| |quiets]. destruct (is_array pairs); [quiets|].
  by apply rename_evidence_quiet; apply _.
Qed.

Lemma integrate_new_safe staged manifest current main proposal : pm_target_commit manifest = target →
  hoare (ready current) (integrate_new staged auth operation manifest current main proposal) settled_with stopped.
Proof.
  intros Ht. unfold integrate_new, reject_with. rewrite operation_id.
  destruct (onboarding_refusal _ _ _) as [[code message]|]; [apply reject_settled|].
  eapply hoare_bind; [apply _| |intros [[r|] relation]|apply _].
  - eapply hoare_weaken; [by apply (validate_mild current)|done|intros x s H; exact H|apply ready_stopped].
  - apply hoare_ret; [apply _|]. intros s [[H _] Hr]. apply settled_unmerged; [done|]. by apply Hr.
  - eapply hoare_weaken with (P' := ready current); [|by intros s [H _]|done|done].
    destruct relation, current as [[|c l]|]; try by apply accept_safe.
    rewrite Ht. apply hoare_fmap; [apply _| |intros; apply _|apply _].
    eapply hoare_weaken; [by apply finish_safe|done| |done]. intros r s H. by destruct r.
Qed.

Lemma readmitted_target manifest pairs m : readmitted manifest pairs = Done (Ok m) → pm_target_commit m = pm_target_commit manifest.
Proof. unfold readmitted. destruct (is_array pairs); [destruct (parseRenamePairs pairs)|]; by intros [= <-]. Qed.

Lemma integrate_admitted_safe maxUploadBytes manifest pack : pm_target_commit manifest = target →
  hoare (during None) (integrate_admitted maxUploadBytes auth manifest pack operation) settled_with stopped.
Proof.
  intros Ht. assert (∀ s, during None s → stopped s) as Hst by (intros s; apply during_stopped).
  assert (∀ code message, hoare (during None) (rejectDevicePush auth id code message) settled_with stopped) as Hreject.
  { intros code message s H. exact (reject_settled (ref_at s v (own_ref d)) code message s (conj H eq_refl)). }
  unfold integrate_admitted. cbv zeta. 
  eapply hoare_bind with (R' := λ m s, pm_target_commit m = target ∧ during None s); [apply _| |intros m|apply _].
  { destruct (readmitted _ _) as [[m|e]|B c k] eqn:E.
    - apply hoare_ret; [apply _|]. intros s H. split; [|done]. by rewrite (readmitted_target _ _ _ E).
    - by apply hoare_throw; [apply _|].
    - exfalso. revert E. unfold readmitted. destruct (is_array _); [destruct (parseRenamePairs _)|]; done. }
  apply triple_pure. clear manifest Ht. intros Ht. unfold reject_with. rewrite auth_vault, auth_device, operation_id, Ht, auth_ref.
  match goal with |- triple _ _ _ _ (if ?b then _ else _) _ => destruct b end; [apply Hreject|].
  eapply hoare_read; [apply _|by apply normalize_quiet; apply _|exact Hst|apply _|intros proposal].
  eapply hoare_bind; [apply _| |intros current|apply _].
  { eapply hoare_weaken; [by apply (hoare_get_ref _ _ (during None) (own_ref d))|done|intros a s H; exact H|exact Hst]. }
  match goal with |- Programs.hoare _ _ _ _ ?m _ _ => change (hoare (ready current) m settled_with stopped) end.
  eapply hoare_read; [apply _|quiets|apply ready_stopped|apply _|intros [main|]]; [|apply reject_settled].
  eapply hoare_read; [apply _|by apply block_quiet; apply _|apply ready_stopped|apply _|intros block].
  destruct block as [[[code message] []]|]; try apply reject_settled.
  all: destruct (oeqb current (Some target)); [by apply integrate_held_safe|first [apply reject_settled|by apply integrate_new_safe]].
Qed.
End admitted.

End safety.

(** ** The request *)

Section request.
Context `{D : Dates} `{U : Unicode} `{Nm : Numerals} `{Sh : Sha256} `{GT : GitTools} `{TT : TextTools} `{F : Faults}.
Context (v d : jstring).

Local Abbreviation I := (recoverable v d).
Local Abbreviation rely := (others v d).
Local Abbreviation hoare := (hoare (call_step v d) rely I).
Local Abbreviation quiet := (quiet (call_step v d) rely I).

Context (auth : AuthenticatedDevice).
Context (auth_vault : v_vault_id (ad_vault auth) = v) (auth_device : d_device_id (ad_device auth) = d)
  (auth_ref : d_device_ref (ad_device auth) = own_ref d).

(** The request is admitted as a new operation. *)
Lemma admit_during s w manifest attempt archivedAttempt archivedAdmissions o db :
  held v d None s → fresh w (du_db s) → admit_tx auth manifest attempt archivedAttempt archivedAdmissions w (du_db s) = Ok (o, db) →
  during v d (op_operation_id o) (pm_target_commit manifest) None (with_db db s).
Proof.
  intros Hh Hfresh E. unfold admit_tx in E. rewrite auth_vault, auth_device in E.
  destruct (base_own_device _ _ _ _ _ (proj1 Hh)) as (dev & Hdev & _ & _ & Hid & Href).
  apply bind_Ok in E as (dev' & Hdev' & E). rewrite Hdev in Hdev'. apply (inj Ok) in Hdev' as <-.
  apply bind_Ok in E as ([] & _ & E). cbv zeta in E. apply bind_Ok in E as ([] & _ & E).
  destruct (startOperation _ _ _ _ _ _ _ _ _ _) as [row db1] eqn:Es in E. apply (inj Ok) in E.
  match type of E with (_, update_operation _ ?f _) = _ => set (g := f) in E end.
  apply pair_equal_spec in E as [E <-]. change (g row = o) in E. subst o.
  pose proof (base_formed _ _ _ _ _ (proj1 Hh)) as Hwf. rewrite Hid in Es.
  destruct (started_held v d s w 0 v _ _ _ _ _ row db1 None eq_refl Hh Hfresh Es) as (Hstep & Hne & Hone & Hin).
  assert (row = (startOperation w 0 (du_db s) v (Some d) OpDevicePush [(d_device_ref dev, pm_expected_device_ref manifest)]
    [(d_device_ref dev, Some (pm_target_commit manifest))] (Some (pm_target_commit manifest)) None).1) as Erow by by rewrite Es.
  assert (keeps_identity g ∧ op_status (g row) = OpStarted ∧ push_shape d (pm_target_commit manifest) (g row) ∧ op_vault_id (g row) = v)
    as (Hg & Hst & Hsh & Hv).
  { subst row. unfold g, push_shape. rewrite <- Href. destruct (admitted_row _) as [x|], attempt as [[]|]; repeat split.
    all: by erewrite manifest_spread. }
  clearbody g. pose proof (step_well_formed _ _ _ Hstep Hwf) as Hwf1.
  assert (op_operation_id (g row) = op_operation_id row) as Hgid by by destruct (Hg row).
  assert (∀ x, x ∈ db_sync_operations (update_operation (op_operation_id row) g db1) → op_operation_id x = op_operation_id row → x = g row) as Hrow.
  { intros x Hx Ex. apply elem_of_update_operation in Hx as [[_ Hx]|(y & Hy & Ey & ->)]; [done| |done|done]. by rewrite (Hone y Hy Ey). }
  rewrite Hgid. split.
  - eapply held_other; [exact Hh|eapply step_trans; [exact Hstep|by apply step_update_operation]| |done].
    intros x Hx Ex. right. by rewrite (Hrow x Hx Ex).
  - exists (g row). cbn [du_db with_db]. split; [|by destruct Hsh as (? & ? & ? & ?)].
    rewrite elem_of_update_operation by done. right. by exists row.
Qed.

(** The vault is quiet again; a merge that was reported is what main is. *)
Definition outcome (r : PushResult) (s : durable) : Prop :=
  held v d None s ∧ ∀ main commit, merged r = Some (main, commit) → main = commit ∧ main_of v (du_db s) = Some commit.

#[local] Instance outcome_keeps r : Stable (keeps v d) (outcome r).
Proof.
  intros s s' Hr [H Hm]. split; [by eapply held_keeps|]. intros main commit. rewrite (same_main _ _ _ _ Hr). apply Hm.
Qed.
#[local] Instance assertion_outcome r : Assertion rely I (outcome r).
Proof. split; [apply _|]. intros s [H _]. left. by exists None. Qed.
#[local] Instance assertion_recoverable : Assertion rely I I.
Proof. split; [apply _|done]. Qed.
#[local] Instance settled_recoverable : Settled v d I.
Proof. split; [apply _|]. intros s db [[M H]|(o & ref & t & H)] E; [left; exists M|right; exists o, ref, t]; by apply (settled_same v d). Qed.

Lemma archive_history_quiet P vault : Stable (keeps v d) P → Assertion rely I P → quiet P (perform (ArchiveCompletedHistory vault)).
Proof. intros HP HA. apply hoare_call; [apply _| |intros; apply _|apply _]. intros s r s' Hs Hr. destruct r; by eapply HP. Qed.

Lemma held_outcome r s : held v d None s → merged r = None → outcome r s.
Proof. intros H E. split; [done|]. intros main commit. by rewrite E. Qed.
Lemma outcome_recoverable r s : outcome r s → I s.
Proof. intros [H _]. left. by exists None. Qed.

(** Archiving runs after the request, whatever came of it. *)
Lemma finally_archive_safe vault (m : sync PushResult) : hoare (held v d None) m outcome I →
  hoare (held v d None) (try_finally m (perform (ArchiveCompletedHistory vault))) outcome I.
Proof.
  intros Hm. eapply hoare_after; [apply _|exact Hm| |].
  - intros r. eapply triple_after; [apply _|apply (archive_history_quiet (outcome r)); apply _|].
    intros [u|e]; (apply triple_done; [apply _|apply outcome_recoverable|]); [done|apply outcome_recoverable].
  - intros e. eapply triple_after; [apply _|apply (archive_history_quiet I); apply _|].
    intros [u|e']; (apply triple_done; [apply _|done|done]).
Qed.

Context (late_faults : ∀ ref, update_may_fail_late ref → ref ≠ own_ref d)
  (store_faults : ∀ s o t, store_may_fail s → ¬ moved v d o (own_ref d) t s).

Lemma admitted_safe maxUploadBytes manifest pack operation : is_oid (pm_target_commit manifest) = true →
  hoare (during v d (op_operation_id operation) (pm_target_commit manifest) None)
    (try_catch (integrate_admitted maxUploadBytes auth manifest pack operation)
       (λ e, let e := if is_class EGitDurability e then transfer_unavailable else e in
             _ ← mutate (abortOperation (op_operation_id operation) (failure_reason e));
             throw e)) outcome I.
Proof.
  intros Hoid. set (id := op_operation_id operation). set (target := pm_target_commit manifest).
  eapply hoare_catch with (E' := stopped v d id); [apply _| |intros e|intros; apply _].
  - eapply hoare_weaken; [by apply (integrate_admitted_safe v d id target Hoid auth)|done| |done].
    intros r s [[H _] Hm]. by split.
  - cbv zeta. eapply hoare_bind with (R' := λ _, I); [apply _| |intros _; by apply hoare_throw; [apply _|]|apply _].
    apply hoare_mutate; [|intros; apply _|apply _|apply stopped_recoverable|].
    { unfold stopped. apply _. }
    intros s w [] db c H _ E Hc. assert (I (with_db c s)) as H'; [|done].
    apply (settled_same v d (with_db db s)); [|done]. by eapply abort_stopped.
Qed.

Lemma request_safe maxUploadBytes unavailable manifest pack : is_oid (pm_target_commit manifest) = true →
  hoare (held v d None) (integrateDeviceCommit maxUploadBytes unavailable auth manifest pack) outcome I.
Proof.
  intros Hoid. assert (∀ s, held v d None s → I s) as HI by (intros s H; left; by exists None).
  assert (∀ r, merged r = None → hoare (held v d None) (mret r) outcome I) as Hret.
  { intros r E. apply hoare_ret; [apply _|]. intros s H. by apply held_outcome. }
  unfold integrateDeviceCommit. cbv zeta. destruct unavailable; [by apply hoare_throw; [apply _|]|].
  destruct (bool_decide _); [by apply Hret|]. destruct (_ || _); [by apply Hret|].
  apply finally_archive_safe. 
  eapply hoare_after with (R' := λ o, during v d (op_operation_id o) (pm_target_commit manifest) None) (E' := I); [apply _| | |].
  - eapply hoare_read; [apply _| |exact HI|apply _|intros archivedAttempt].
    { destruct (pm_attempt_id manifest); [apply quiet_archive|apply quiet_ret]; apply _. }
    eapply hoare_read; [apply _|apply quiet_archive; apply _|exact HI|apply _|intros archivedAdmissions].
    apply hoare_mutate; [apply _|intros; apply _|apply _|exact HI|].
    intros s w o db c H Hfresh E Hc.
    assert (during v d (op_operation_id o) (pm_target_commit manifest) None (with_db c s)) as H'.
    { apply (during_same _ _ _ _ None (with_db db s)); [|done]. by eapply admit_during. }
    split; [done|]. intros _. by apply HI, H'.
  - intros o. by apply admitted_safe.
  - intros e. by apply hoare_throw; [apply _|].
Qed.
End request.
