(* ===== verification/StartupSafety.v ===== *)
(** * A restart repairs an interrupted push (proofs about Startup.v)

    From any [recoverable] state, reconciling the operations brings references and
    metadata together: the operation whose reference has moved is rolled forward, and
    every other is aborted.  Operations of other vaults leave the vault as it is
    ([apart]); a restart that is interrupted itself leaves a recoverable state. *)

From S2P Require Export PushSafety.

(** ** Changes elsewhere *)

Section elsewhere.
Context (v : jstring).

(** The columns, and what tells whether a vault is being deleted or is blocked. *)
Definition statuses (db : MetadataDb) : list (jstring * VaultStatus) := map (λ x, (v_vault_id x, v_status x)) (db_vaults db).
Definition view (db : MetadataDb) : core * list (jstring * VaultStatus) * list DeletionJob * list DeletionReceipt :=
  (core_of db, statuses db, db_deletion_jobs db, db_deletion_receipts db).

Definition status_of (db : MetadataDb) : option VaultStatus := v_status <$> find_vault db v.

Record unaffected (db db' : MetadataDb) : Prop := {
  ua_formed : well_formed db';
  ua_main : main_of v db' = main_of v db;
  ua_devices id ref head : device_at v db' id ref head ↔ device_at v db id ref head;
  ua_jobs id : being_removed db' id = being_removed db id;
  ua_protected : protected_refs v db' = protected_refs v db;
  ua_operations o : op_vault_id o = v → o ∈ db_sync_operations db' ↔ o ∈ db_sync_operations db;
  ua_deleting : hasDurableDeletionRecord db' v = hasDurableDeletionRecord db v;
  ua_status : status_of db' = status_of db
}.
Definition apart (db db' : MetadataDb) : Prop := well_formed db → unaffected db db'.

#[export] Instance apart_preorder : PreOrder apart.
Proof.
  split.
  - intros db H. by split.
  - intros a b c Hab Hbc Ha. destruct (Hab Ha) as [f m d j p o x s]. destruct (Hbc f) as [f' m' d' j' p' o' x' s'].
    split; try congruence; try done.
    + intros. by rewrite d', d.
    + intros y Hy. by rewrite o', o.
Qed.

Lemma deleting_view db : hasDurableDeletionRecord db v =
  existsb (λ k, (k.1 =s? v) && bool_decide (k.2 = VDeleting)) (statuses db)
  || existsb (λ job, dj_vault_id job =s? v) (db_deletion_jobs db) || existsb (λ receipt, dr_vault_id receipt =s? v) (db_deletion_receipts db).
Proof. unfold hasDurableDeletionRecord, statuses. do 2 f_equal. induction (db_vaults db) as [|x l IH]; cbn; [done|]. by rewrite IH. Qed.

Lemma status_view db : status_of db = snd <$> find_row (λ k, k.1 =s? v) (statuses db).
Proof.
  unfold status_of, find_vault, find_row, statuses. induction (db_vaults db) as [|x l IH]; cbn; [done|].
  unfold has_vault_id at 1. by destruct (v_vault_id x =s? v).
Qed.

Lemma apart_view a b c : apart a b → view c = view b → apart a c.
Proof.
  intros H E. assert (core_of c = core_of b ∧ statuses c = statuses b ∧ db_deletion_jobs c = db_deletion_jobs b ∧
    db_deletion_receipts c = db_deletion_receipts b) as (E1 & E2 & E3 & E4).
  { unfold view in E. apply pair_equal_spec in E as [E E4]. apply pair_equal_spec in E as [E E3]. by apply pair_equal_spec in E as [E1 E2]. }
  transitivity b; [exact H|]. intros Hwf. split.
  - rewrite well_formed_core, E1, <- well_formed_core. exact Hwf.
  - by rewrite !main_of_core, E1.
  - intros. by rewrite !device_at_core, E1.
  - intros. by rewrite !being_removed_core, E1.
  - by rewrite !protected_refs_core, E1.
  - intros o _. change (o ∈ c_operations (core_of c) ↔ o ∈ c_operations (core_of b)). by rewrite E1.
  - by rewrite !deleting_view, E2, E3, E4.
  - by rewrite !status_view, E2.
Qed.

Lemma find_row_update_other {A} (p q : A → bool) f l : (∀ x, q x = true → p x = false ∧ p (f x) = false) →
  find_row p (update_first q f l) = find_row p l.
Proof.
  intros H. unfold find_row. induction l as [|x l IH]; cbn; [done|]. destruct (q x) eqn:E; cbn.
  - by destruct (H x E) as [-> ->].
  - by rewrite IH.
Qed.
Lemma existsb_update_other {A} (p q : A → bool) f l : (∀ x, q x = true → p x = false ∧ p (f x) = false) →
  existsb p (update_first q f l) = existsb p l.
Proof.
  intros H. induction l as [|x l IH]; cbn; [done|]. destruct (q x) eqn:E; cbn; [by destruct (H x E) as [-> ->]|by rewrite IH].
Qed.
Lemma filter_update_other {A} (p q : A → bool) f l : (∀ x, q x = true → p x = false ∧ p (f x) = false) →
  List.filter p (update_first q f l) = List.filter p l.
Proof.
  intros H. induction l as [|x l IH]; cbn; [done|]. destruct (q x) eqn:E; cbn; [by destruct (H x E) as [-> ->]|by rewrite IH].
Qed.

(** ** Updates of single rows *)

Context (a b : MetadataDb) (Hab : apart a b).

Lemma apart_update_vault u f : u ≠ v → (∀ x, v_vault_id (f x) = v_vault_id x) → apart a (update_vault u f b).
Proof.
  intros Hu Hf. transitivity b; [exact Hab|].
  assert (∀ x, has_vault_id u x = true → has_vault_id v x = false ∧ has_vault_id v (f x) = false) as Hother.
  { intros x Hx. unfold has_vault_id in *. rewrite Hf. apply jeqb_eq in Hx as ->. by destruct (jeqb_spec u v). }
  intros Hwf. split; try done; [by destruct Hwf|..].
  - unfold main_of, update_vault. cbn. by rewrite find_row_update_other.
  - unfold hasDurableDeletionRecord, update_vault. cbn. do 2 f_equal. apply existsb_update_other. intros x Hx.
    destruct (Hother x Hx) as [H1 H2]. unfold has_vault_id in *. by rewrite H1, H2.
  - unfold status_of, find_vault, update_vault. cbn. by rewrite find_row_update_other.
Qed.

Lemma apart_update_conflict u id f : u ≠ v → (∀ c, cf_vault_id (f c) = cf_vault_id c) → apart a (update_conflict u id f b).
Proof.
  intros Hu Hf. transitivity b; [exact Hab|]. intros Hwf. split; try done; [by destruct Hwf|].
  unfold protected_refs, update_conflict. cbn. rewrite filter_update_other; [done|]. intros c Hc.
  unfold is_open, has_conflict_id in *. rewrite Hf. apply andb_true_iff in Hc as [->%jeqb_eq _]. by destruct (jeqb_spec u v).
Qed.

(** The rows of the operation are not the vault's. *)
Definition foreign (id : jstring) (db : MetadataDb) : Prop := ∀ o, o ∈ db_sync_operations db → op_operation_id o = id → op_vault_id o ≠ v.

Lemma foreign_apart id : well_formed a → foreign id a → foreign id b.
Proof. intros Hwf H o Ho Hid Hv. apply (H o); [|done|done]. by apply (ua_operations _ _ (Hab Hwf)). Qed.

Lemma apart_update_operation id f : foreign id a → keeps_identity f → apart a (update_operation id f b).
Proof.
  intros Hid Hf Ha. pose proof (foreign_apart id Ha Hid) as Hb. revert Ha. change (apart a (update_operation id f b)).
  transitivity b; [exact Hab|]. intros Hwf. pose proof (step_update_operation (λ x, x = id) id f b Hwf Hf eq_refl) as Hs.
  split; try done; [by apply Hs|]. intros o Hv. rewrite elem_of_update_operation by done. split.
  - intros [[? _]|(x & Hx & Ex & ->)]; [done|]. destruct (Hb x Hx Ex). by rewrite <- (proj1 (proj2 (Hf x))).
  - intros Ho. left. split; [done|]. intros E. by apply (Hb o).
Qed.

Lemma apart_update_device o f : op_vault_id o ≠ v → ∀ id, op_device_id o = Some id →
  (∀ x, d_device_id (f x) = d_device_id x ∧ d_vault_id (f x) = d_vault_id x ∧ d_device_ref (f x) = d_device_ref x) →
  o ∈ db_sync_operations b → apart a (update_device id f b).
Proof.
  intros Hv id Hid Hf Ho. transitivity b; [exact Hab|]. intros Hwf.
  assert (∀ y, y ∈ db_devices b → d_device_id y = id → d_vault_id y ≠ v) as Hne.
  { intros y Hy Ey Hyv. apply Hv. rewrite <- Hyv. apply (operation_devices _ Hwf); [done|done|]. by rewrite Ey. }
  split; try done.
  - by apply formed_update_device.
  - intros i ref h. split; intros (x & Hx & Hxv & Hi & Hr & Hh).
    + unfold update_device in Hx. cbn in Hx. change (has_device_id id) with (λ y, d_device_id y =s? id) in Hx.
      apply (elem_of_update_first d_device_id) in Hx as [[Hx _]|(y & Hy & Ey & ->)]; [by exists x| |apply Hwf|apply Hf].
      destruct (Hne y Hy Ey). by rewrite <- (proj1 (proj2 (Hf y))).
    + exists x. split; [|done]. unfold update_device. cbn. change (has_device_id id) with (λ y, d_device_id y =s? id).
      apply (elem_of_update_first d_device_id); [apply Hwf|apply Hf|]. left. split; [done|]. intros E. by apply (Hne x).
Qed.

End elsewhere.

(** ** Operations of other vaults *)

Section others.
Context `{Nm : Numerals} `{Sh : Sha256} (v : jstring).
Context (w : World) (db : MetadataDb) (operation : SyncOperationRow).
Context (formed : well_formed db) (present : operation ∈ db_sync_operations db) (not_ours : op_vault_id operation ≠ v).

Lemma foreign_row : foreign v (op_operation_id operation) db.
Proof.
  intros o Ho Hid. pose proof (require_operation _ _ formed Ho) as E. rewrite Hid, (require_operation _ _ formed present) in E.
  by apply (inj Ok) in E as <-.
Qed.

Lemma apart_block c i : apart v db c → apart v db (block_vault w i (op_vault_id operation) c).
Proof. intros H. by apply apart_update_vault. Qed.
Lemma apart_operation c f : apart v db c → keeps_identity f → apart v db (update_operation (op_operation_id operation) f c).
Proof. intros H Hf. apply apart_update_operation; [done|apply foreign_row|done]. Qed.
Lemma apart_failed reason : apart v db (reconciliation_failed w operation reason db).
Proof. by apply apart_block, apart_operation. Qed.

Lemma view_directory_intents w' i c vault intents seq : view (applyDirectoryIntents w' i c vault intents seq) = view c.
Proof. unfold applyDirectoryIntents. by destruct intents. Qed.
Lemma view_directory_plan w' i c vault device commit plan seq : view (commitDirectoryPlan w' i c vault device commit plan seq) = view c.
Proof. destruct plan; cbn [commitDirectoryPlan]; [|done]. etransitivity; [|apply view_directory_intents]. reflexivity. Qed.
Lemma view_resolve_result w' i c conflict seq : view (resolveDirectoryProposalResult w' i c conflict seq) = view c.
Proof. unfold resolveDirectoryProposalResult. by destruct (cf_directory_context conflict). Qed.
Lemma view_recovered w' i c o seq : view (commitRecoveredDirectoryState w' i c o seq) = view c.
Proof.
  unfold commitRecoveredDirectoryState.
  assert (∀ x : option DirectoryProposal, view (match x with
      | None => c
      | Some _ =>
          let db := applyDirectoryIntents w' i c (op_vault_id o) (storedDirectoryIntents (manifest_field o "resolved_directory_intents")) seq in
          match manifest_field o "conflict_id" with
          | JStr ((_ :: _) as conflictId) =>
              match find_row (λ c, cf_conflict_id c =s? conflictId) (db_conflicts db) with
              | Some conflict => resolveDirectoryProposalResult w' (i + 5) db conflict seq
              | None => db
              end
          | _ => db
          end
      end) = view c) as H.
  { intros [proposal|]; [|done]. cbv zeta. destruct (manifest_field o "conflict_id") as [| | | |[|]| |]; try apply view_directory_intents.
    destruct (find_row _ _); [rewrite view_resolve_result|]; apply view_directory_intents. }
  destruct (recoveredDirectoryPlan _), (op_device_id o) as [[|]|], (op_target_commit o) as [[|]|]; try apply H. apply view_directory_plan.
Qed.

(** [appendEvent], written out. *)
Lemma apart_event c j l m vault : apart v db c → apart v db (pruneVaultEvents w j (set_db_events l (set_db_event_seq_by_vault m c)) vault).
Proof. intros H. by apply (apart_view v db c). Qed.
Lemma apart_audit c i actor device vault action class resource now : apart v db c →
  apart v db (push_audit w i actor device vault action class resource now c).
Proof. intros H. by apply (apart_view v db c). Qed.
Lemma apart_state c m : apart v db c → apart v db (set_db_directory_state_by_vault m c).
Proof. intros H. by apply (apart_view v db c). Qed.
Lemma apart_intents c i vault intents seq : apart v db c → apart v db (applyDirectoryIntents w i c vault intents seq).
Proof. intros H. apply (apart_view v db c); [done|]. apply view_directory_intents. Qed.
Lemma apart_recovered c i o seq : apart v db c → apart v db (commitRecoveredDirectoryState w i c o seq).
Proof. intros H. apply (apart_view v db c); [done|]. apply view_recovered. Qed.
Lemma apart_vault c f : apart v db c → (∀ x, v_vault_id (f x) = v_vault_id x) → apart v db (update_vault (op_vault_id operation) f c).
Proof. intros H Hf. by apply apart_update_vault. Qed.
Lemma apart_conflict c id f : apart v db c → (∀ x, cf_vault_id (f x) = cf_vault_id x) → apart v db (update_conflict (op_vault_id operation) id f c).
Proof. intros H Hf. by apply apart_update_conflict. Qed.

Ltac apart_step := lazymatch goal with
  | |- apart _ ?a ?a => reflexivity
  | H : apart _ _ ?c |- apart _ _ ?c => exact H
  | |- apart _ _ (reconciliation_failed _ _ _ _) => apply apart_failed
  | |- apart _ _ (pruneVaultEvents _ _ _ _) => apply apart_event
  | |- apart _ _ (push_audit _ _ _ _ _ _ _ _ _ _) => apply apart_audit
  | |- apart _ _ (set_db_directory_state_by_vault _ _) => apply apart_state
  | |- apart _ _ (applyDirectoryIntents _ _ _ _ _ _) => apply apart_intents
  | |- apart _ _ (commitRecoveredDirectoryState _ _ _ _ _) => apply apart_recovered
  | |- apart _ _ (update_operation _ _ _) => apply apart_operation; [|done]
  | |- apart _ _ (update_vault _ _ _) => apply apart_vault; [|done]
  end.
Ltac aparts := unfold settle, audit, appendEvent; cbv zeta; cbn [snd]; repeat apart_step.

Lemma apart_repair c : commitPreparedNameRepair w db operation = Some c → apart v db c.
Proof.
  unfold commitPreparedNameRepair. intros E. do 5 (apply bind_Some in E as (? & _ & E)).
  destruct (_ && _); [|done]. apply (inj Some) in E as <-. aparts.
Qed.

Lemma apart_roll_repair : apart v db (roll_forward_name_repair w operation db).
Proof.
  unfold roll_forward_name_repair. destruct (commitPreparedNameRepair _ _ _) as [c|] eqn:E; [|apply apart_failed].
  apply apart_operation; [by apply apart_repair|done].
Qed.

Lemma apart_roll_settings : apart v db (roll_forward_settings w operation db).
Proof.
  unfold roll_forward_settings, appendEvent. cbv zeta. repeat match goal with |- apart _ _ (match ?x with _ => _ end) => destruct x; try apply apart_failed end.
  aparts.
Qed.

Lemma apart_roll_refresh : apart v db (roll_forward_refresh w operation db).
Proof.
  unfold roll_forward_refresh, appendEvent. cbv zeta. repeat match goal with |- apart _ _ (match ?x with _ => _ end) => destruct x; try apply apart_failed end.
  aparts. apply apart_conflict; [reflexivity|]. intros x. unfold refresh_conflict. by destruct o.
Qed.

Lemma apart_device c f id : apart v db c → op_device_id operation = Some id → operation ∈ db_sync_operations c →
  (∀ x, d_device_id (f x) = d_device_id x ∧ d_vault_id (f x) = d_vault_id x ∧ d_device_ref (f x) = d_device_ref x) →
  apart v db (update_device id f c).
Proof. intros H Hid Hin Hf. by apply (apart_update_device v db c H operation). Qed.

Lemma find_device_id c id dev : find_device c id = Some dev → id = Some (d_device_id dev).
Proof.
  unfold find_device. destruct id as [id|]; [|done]. cbn [mbind option_bind]. intros [_ H]%find_row_Some.
  unfold has_device_id in H. by apply jeqb_eq in H as ->.
Qed.

Lemma apart_roll_push : apart v db (roll_forward_push w operation db).
Proof.
  unfold roll_forward_push, appendEvent. cbv zeta. destruct (target_device_ref operation) as [[ref [target|]]|]; try apply apart_failed.
  destruct (find_device db _) as [dev|] eqn:E; [|apply apart_failed]. apply find_device_id in E.
  aparts. by apply apart_device; [|rewrite E| |].
Qed.

Lemma apart_advance_main main resolution : apart v db (advance_main w operation main resolution db).
Proof.
  unfold advance_main, appendEvent. cbv zeta.
  match goal with |- apart _ _ ?g => match g with context [commitRecoveredDirectoryState w 10 ?c ?o ?seq] =>
    assert (apart v db (commitRecoveredDirectoryState w 10 c o seq)) as H end end.
  { aparts. destruct resolution as [[[conflict actor] [text kind]]|].
    1: apply apart_conflict; [|by intros x; unfold resolve_recovered; destruct (stringValue _)].
    all: destruct (find_device db (op_device_id operation)) as [dev|] eqn:E; [apply find_device_id in E|by aparts].
    all: apply apart_device; [by aparts|by rewrite E|exact present|].
    all: intros x; unfold settle_device; repeat case_bool_decide; repeat split. }
  unfold resolution_events, restore_events, appendEvent.
  destruct (op_operation_type operation), resolution as [[[conflict actor] [text kind]]|]; by aparts.
Qed.

Lemma apart_roll_main : apart v db (roll_forward_main w operation db).
Proof.
  unfold roll_forward_main. repeat match goal with |- apart _ _ (match ?x with _ => _ end) => destruct x; try apply apart_failed end.
  all: apply apart_advance_main.
Qed.

End others.

(** ** What is kept *)

Section restart.
Context `{Nm : Numerals} `{Sh : Sha256} `{F : Faults} (v d : jstring).

Lemma base_apart X M s db : apart v (du_db s) db → base v d X M s → base v d X M (with_db db s).
Proof.
  intros Ha [Hwf [H1 H2 H3 H4] [head Hd] Honly Hlive]. destruct (Ha Hwf) as [f m dv j p o x st].
  assert (∀ y, live v db y ↔ live v (du_db s) y) as Hl.
  { intros y. unfold live. split; intros (Hy & Hv & Hl); (split; [by apply o|done]). }
  split; cbn [du_db with_db]; [done| | | |].
  - split; cbn [du_db with_db]; change (ref_at (with_db db s)) with (ref_at s).
    + by rewrite m.
    + by rewrite m.
    + intros id ref h Hat. rewrite j. apply H3. by apply dv.
    + intros q. rewrite p. apply H4.
  - exists head. by apply dv.
  - intros y Hy. apply Honly. by apply Hl.
  - intros y Hy. rewrite Hl. by apply Hlive.
Qed.

Lemma held_apart M s db : apart v (du_db s) db → held v d M s → held v d M (with_db db s).
Proof. intros Ha [Hb Hu]. split; [by apply base_apart|exact Hu]. Qed.
Lemma moved_apart o ref t s db : apart v (du_db s) db → moved v d o ref t s → moved v d o ref t (with_db db s).
Proof. intros Ha [Hb Hm]. split; [by apply base_apart|exact Hm]. Qed.
Lemma recoverable_apart s db : apart v (du_db s) db → recoverable v d s → recoverable v d (with_db db s).
Proof.
  intros Ha [[M H]|(o & ref & t & H)]; [left; exists M; by apply held_apart|right; exists o, ref, t; by apply moved_apart].
Qed.
Lemma recoverable_formed s : recoverable v d s → well_formed (du_db s).
Proof. by intros [[M [[] _]]|(o & ref & t & [] & _)]. Qed.

(** No operation of the vault was only started. *)
Definition idle (s : durable) : Prop := ∀ o, live v (du_db s) o → op_status o ≠ OpStarted.
Definition kept_vault (s : durable) : Prop := recoverable v d s ∧ hasDurableDeletionRecord (du_db s) v = false.

(** ** Calls of a single process *)

Local Abbreviation hoare := (hoare (call_step v d) eq kept_vault).

#[local] Instance stable_eq (P : durable → Prop) : Stable eq P.
Proof. by intros s s' ->. Qed.
Lemma holding P : (∀ s, P s → kept_vault s) → Assertion eq kept_vault P.
Proof. intros H. split; [apply _|exact H]. Qed.

(** Assertions about the columns a restart looks at. *)
Definition visible (P : durable → Prop) : Prop := ∀ s db, view db = view (du_db s) → P s → P (with_db db s).

Lemma view_committed h db : view (committed h db) = view db.
Proof. unfold view. by rewrite core_committed. Qed.

Lemma restart_mutate {A} P (fn : transaction A) R : (∀ s, P s → kept_vault s) → (∀ a s, R a s → kept_vault s) → (∀ a, visible (R a)) →
  (∀ s w a db, P s → fn w (du_db s) = Ok (a, db) → R a (with_db db s)) → hoare P (mutate fn) R kept_vault.
Proof.
  intros HP HR HV H. pose proof (holding P HP). apply hoare_call; [apply _| |by intros; apply holding, HR|by apply holding].
  intros s r s' Hs (w & _ & Hr). destruct (run_cases w (fn w) (du_db s)) as [(e & _ & Er)|(a & db & h & Ef & Er)]; rewrite Er in Hr.
  - destruct Hr as [-> ->]. by apply HP.
  - assert (R a (with_db (committed h db) s)) as Ha.
    { apply (HV a (with_db db s)); [apply view_committed|by eapply H]. }
    destruct Hr as [[-> ->]|([e ->] & _ & [->| ->])]; [done|by apply HP|by eapply HR].
Qed.

Section calls.
Context (P : durable → Prop) (HP : ∀ s, P s → kept_vault s).

Lemma restart_snapshot : hoare P snapshot (λ db s, P s ∧ db = du_db s) kept_vault.
Proof.
  pose proof (holding P HP). apply hoare_call; [apply _| |by intros; apply holding; intros s []; apply HP|by apply holding].
  intros s r s' Hs [-> [->|[[e ->] _]]]; [done|by apply HP].
Qed.
Lemma restart_git {A} (q : git_query A) : hoare P (git q) (λ _, P) kept_vault.
Proof.
  pose proof (holding P HP). apply hoare_call; [apply _| |by intros; apply holding|by apply holding].
  intros s r s' Hs ->. destruct r; [done|by apply HP].
Qed.
Lemma restart_get_ref u ref : hoare P (getRef u ref) (λ x s, P s ∧ (u = v → ref_at s v ref = x)) kept_vault.
Proof.
  pose proof (holding P HP). apply hoare_call; [apply _| |by intros; apply holding; intros s []; apply HP|by apply holding].
  intros s r s' Hs [-> [->|[e ->]]]; [split; [done|by intros ->]|by apply HP].
Qed.
Lemma restart_ret {A} (a : A) : hoare P (mret a) (λ _, P) kept_vault.
Proof. pose proof (holding P HP). by apply hoare_ret; [apply _|]. Qed.
End calls.

Lemma restart_bind {A B} P (m : sync A) (f : A → sync B) R' R :
  hoare P m R' kept_vault → (∀ a, hoare (R' a) (f a) R kept_vault) → hoare P (m ≫= f) R kept_vault.
Proof. intros Hm Hf. eapply hoare_bind; [apply _|exact Hm|exact Hf|by apply holding]. Qed.

Lemma restart_weaken {A} (P P' : durable → Prop) (m : sync A) R R' : hoare P' m R' kept_vault → (∀ s, P s → P' s) →
  (∀ a s, R' a s → R a s) → hoare P m R kept_vault.
Proof. intros H HP HR. by eapply hoare_weaken. Qed.

Lemma restart_each {A} (P : list A → durable → Prop) (f : A → sync unit) l : (∀ l s, P l s → kept_vault s) →
  (∀ x l, hoare (P (x :: l)) (f x) (λ _, P l) kept_vault) → hoare (P l) (for_each l f) (λ _, P []) kept_vault.
Proof.
  intros HP Hf. induction l as [|x l IH]; cbn [for_each]; [by apply restart_ret, HP|]. by eapply restart_bind.
Qed.

(** ** Operations that were only started *)

(** [l] holds every operation of the vault that was only started. *)
Definition starting (l : list SyncOperationRow) (s : durable) : Prop :=
  kept_vault s ∧
  (∀ x o, x ∈ l → o ∈ db_sync_operations (du_db s) → op_operation_id o = op_operation_id x → op_status o ≠ OpPrepared) ∧
  (∀ o, live v (du_db s) o → op_status o = OpStarted → op_operation_id o ∈ map op_operation_id l).

Lemma kept_view s db : view db = view (du_db s) → kept_vault s → kept_vault (with_db db s).
Proof.
  intros E [H Hd]. assert (apart v (du_db s) db) as Ha by by apply (apart_view v (du_db s) (du_db s)).
  split; [by apply recoverable_apart|]. cbn [du_db with_db]. by rewrite (ua_deleting _ _ _ (Ha (recoverable_formed _ H))).
Qed.
Lemma view_operations db db' : view db' = view db → db_sync_operations db' = db_sync_operations db.
Proof. intros E. change (c_operations (view db').1.1.1 = c_operations (view db).1.1.1). by rewrite E. Qed.

Lemma visible_starting l : visible (starting l).
Proof.
  intros s db E (H1 & H2 & H3). pose proof (view_operations _ _ E) as Eo. split; [by apply kept_view|]. cbn [du_db with_db].
  split; [by rewrite Eo|]. intros o (Ho & Hv & Hl). apply H3. split; [by rewrite <- Eo|done].
Qed.

Lemma find_operation_row db o : well_formed db → o ∈ db_sync_operations db → find_operation db (op_operation_id o) = Some o.
Proof.
  intros Hwf Ho. pose proof (require_operation _ _ Hwf Ho) as E. unfold requireOperation in E. fold (find_operation db (op_operation_id o)) in E.
  destruct (find_operation _ _); [|done]. by apply (inj Ok) in E as ->.
Qed.
Lemma find_operation_Some db id o : find_operation db id = Some o → o ∈ db_sync_operations db ∧ op_operation_id o = id.
Proof. intros [H1 H2]%find_row_Some. split; [done|]. by apply jeqb_eq in H2. Qed.

Lemma deleting_abort now reason o db : hasDurableDeletionRecord (abort_unless_committed now reason o db) v = hasDurableDeletionRecord db v.
Proof. unfold abort_unless_committed. by destruct (bool_decide _). Qed.

Lemma starting_abort x l s w reason db : starting (x :: l) s → abort_startup_tx (op_operation_id x) reason w (du_db s) = Ok ((), db) →
  starting l (with_db db s).
Proof.
  intros ([Hrec Hdel] & Hnot & Hall) E. unfold abort_startup_tx in E. apply (inj Ok) in E. apply pair_equal_spec in E as [_ <-].
  pose proof (recoverable_formed _ Hrec) as Hwf. destruct (find_operation _ _) as [o|] eqn:Ef.
  - apply find_operation_Some in Ef as [Ho Hid]. destruct (abort_step _ _ _ (nowIso w 0) reason Hwf Ho Hid) as [Hstep Hend].
    assert (op_status o ≠ OpPrepared) as Hnp by (apply (Hnot x); [left|done|done]).
    split; [split|split].
    + apply (abort_stopped v d (op_operation_id x) s w reason).
      * destruct Hrec as [H|(p & ref & t & H)]; [by left|right]. exists p, ref, t. split; [done|]. intros E.
        destruct (base_live _ _ _ _ _ (proj1 H) p eq_refl) as [(Hp & _) Hst]. apply (Hnot x p); [left|done|done|done].
      * unfold abortOperation, requireOperation. fold (find_operation (du_db s) (op_operation_id x)).
        by rewrite <- Hid, (find_operation_row _ _ Hwf Ho).
    + cbn [du_db with_db]. by rewrite deleting_abort.
    + intros y z Hy Hz Eid. cbn [du_db with_db] in Hz. unfold abort_unless_committed in Hz. destruct (bool_decide _).
      * by apply (Hnot y z); [right|..].
      * apply elem_of_update_operation in Hz as [[Hz _]|(u & _ & _ & ->)]; [by apply (Hnot y z); [right|..]|done|done|done].
    + intros z (Hz & Hzv & Hzl) Hzs. cbn [du_db with_db] in Hz. assert (op_operation_id z ≠ op_operation_id x) as Hne.
      { intros Ez. by rewrite (Hend z Hz Ez) in Hzl. }
      assert (op_operation_id z ∈ map op_operation_id (x :: l)) as Hin.
      { apply Hall; [|done]. split; [|done]. by apply (step_operations _ _ _ Hstep). }
      by apply elem_of_cons in Hin as [|].
  - destruct s as [db0 refs]. split; [done|split].
    + intros y z Hy. apply Hnot. by right.
    + intros z Hz Hzs. pose proof (Hall z Hz Hzs) as Hin. apply elem_of_cons in Hin as [Ez|]; [|done].
      destruct Hz as (Hz & _). pose proof (find_operation_row _ _ Hwf Hz) as Ez'. rewrite Ez in Ez'. cbn [du_db with_db] in *. congruence.
Qed.

Lemma starting_safe l : hoare (starting l) (for_each l (λ o, abortStartupOperation (op_operation_id o) "startup_unprepared_operation"))
  (λ _, starting []) kept_vault.
Proof.
  apply (restart_each starting); [by intros ? ? []|]. intros x l'. apply restart_mutate.
  - by intros s [].
  - by intros a s [].
  - intros a. apply visible_starting.
  - intros s w [] db H E. by eapply starting_abort.
Qed.

(** ** Operations of other vaults *)

Definition kept (P : durable → Prop) : Prop := ∀ s db, apart v (du_db s) db → P s → P (with_db db s).

Lemma kept_visible P : kept P → visible P.
Proof. intros H s db E. apply H. by apply (apart_view v (du_db s) (du_db s)). Qed.

Section foreign_operation.
Context (P : durable → Prop) (HP : ∀ s, P s → kept_vault s) (HK : kept P).
Context (x : SyncOperationRow) (not_ours : op_vault_id x ≠ v) (Hf : ∀ s, P s → foreign v (op_operation_id x) (du_db s)).

Lemma foreign_mutate {A} (fn : transaction A) :
  (∀ s w a db, P s → well_formed (du_db s) → fn w (du_db s) = Ok (a, db) → apart v (du_db s) db) → hoare P (mutate fn) (λ _, P) kept_vault.
Proof.
  intros H. apply restart_mutate; [done|by intros _|intros _; by apply kept_visible|].
  intros s w a db Hs E. apply HK; [|done]. eapply H; [done| |exact E]. by apply recoverable_formed, HP.
Qed.

Lemma foreign_abort reason : hoare P (abortStartupOperation (op_operation_id x) reason) (λ _, P) kept_vault.
Proof.
  apply foreign_mutate. intros s w [] db Hs Hwf E. unfold abort_startup_tx in E. apply (inj Ok) in E. apply pair_equal_spec in E as [_ <-].
  destruct (find_operation _ _) as [o|] eqn:Ef; [|reflexivity]. apply find_operation_Some in Ef as [Ho Hid].
  unfold abort_unless_committed. destruct (bool_decide _); [reflexivity|]. rewrite Hid.
  apply apart_update_operation; [reflexivity|by apply Hf|done].
Qed.

Lemma foreign_block o reason : op_operation_id o = op_operation_id x → op_vault_id o ≠ v → hoare P (blockVaultIntegrity o reason) (λ _, P) kept_vault.
Proof.
  intros Hid Hv. apply foreign_mutate. intros s w [] db Hs Hwf E. unfold block_integrity_tx in E. apply (inj Ok) in E.
  apply pair_equal_spec in E as [_ <-]. apply apart_update_vault; [|done|done]. rewrite Hid.
  destruct (find_operation _ _) as [y|]; [|reflexivity]. destruct (bool_decide _); [reflexivity|].
  apply apart_update_operation; [reflexivity|by apply Hf|done].
Qed.

Lemma foreign_forward_tx w s db : P s → well_formed (du_db s) → roll_forward_tx (op_operation_id x) w (du_db s) = Ok ((), db) → apart v (du_db s) db.
Proof.
  intros Hs Hwf E. unfold roll_forward_tx in E. apply (inj Ok) in E. apply pair_equal_spec in E as [_ <-].
  destruct (find_operation _ _) as [o|] eqn:Ef; [|reflexivity]. apply find_operation_Some in Ef as [Ho Hid].
  pose proof (Hf s Hs o Ho Hid) as Hv. destruct (negb _); [reflexivity|].
  destruct (op_operation_type o); lazymatch goal with
  | |- apart _ _ (roll_forward_name_repair _ _ _) => by apply apart_roll_repair
  | |- apart _ _ (roll_forward_settings _ _ _) => by apply apart_roll_settings
  | |- apart _ _ (roll_forward_refresh _ _ _) => by apply apart_roll_refresh
  | |- apart _ _ (roll_forward_push _ _ _) => by apply apart_roll_push
  | |- apart _ _ (roll_forward_main _ _ _) => by apply apart_roll_main
  | |- _ => apply apart_update_operation; [reflexivity|by apply Hf|done]
  end.
Qed.

Lemma foreign_forward : hoare P (mutate (roll_forward_tx (op_operation_id x))) (λ _, P) kept_vault.
Proof. apply foreign_mutate. intros s w [] db Hs Hwf E. by eapply foreign_forward_tx. Qed.

End foreign_operation.

(** ** Reads *)

Section reads.
Context (P : durable → Prop) (HP : ∀ s, P s → kept_vault s).
Local Abbreviation quiet := (quiet (call_step v d) eq kept_vault P).
#[local] Instance holds : Assertion eq kept_vault P := holding P HP.

Lemma still_git {A} (q : git_query A) : quiet (git q).
Proof. apply hoare_call; [apply _| |intros; apply _|apply _]. intros s r s' Hs ->. by destruct r. Qed.
Lemma still_get_ref u ref : quiet (getRef u ref).
Proof. apply hoare_call; [apply _| |intros; apply _|apply _]. intros s r s' Hs [-> _]. by destruct r. Qed.

Ltac still_step := first
  [ apply still_git | apply still_get_ref | apply quiet_ret; apply _
  | apply quiet_bind; [apply _|apply _| |intros ?]
  | match goal with |- Programs.quiet _ _ _ _ (match ?x with _ => _ end) => destruct x end ].

Lemma still_repair o : quiet (repair_evidence_ok o).
Proof. unfold repair_evidence_ok. cbv zeta. repeat still_step. Qed.
Lemma still_settings o : quiet (settings_evidence_ok o).
Proof. unfold settings_evidence_ok. repeat still_step. Qed.
Lemma still_expected u refs : quiet (expectedRefsStillCurrent u refs).
Proof. induction refs as [|[ref e] refs IH]; cbn [expectedRefsStillCurrent]; repeat first [exact IH|still_step]. Qed.
Lemma still_read_refs u refs : quiet (read_refs u refs).
Proof. induction refs as [|[ref t] refs IH]; cbn [read_refs]; repeat first [exact IH|still_step]. Qed.

Lemma restart_read {A B} (m : sync A) (f : A → sync B) R : quiet m → (∀ a, hoare P (f a) R kept_vault) → hoare P (m ≫= f) R kept_vault.
Proof. intros Hm. apply restart_bind. eapply hoare_weaken; [exact Hm|done|done|exact HP]. Qed.

Lemma restart_verified check o reason next R : quiet check → hoare P (blockVaultIntegrity o reason) R kept_vault → hoare P next R kept_vault →
  hoare P (verified check o reason next) R kept_vault.
Proof. intros Hc Hb Hn. eapply triple_after; [apply _|exact Hc|]. by intros [[]|e]. Qed.

Context (x : SyncOperationRow) (not_ours : op_vault_id x ≠ v) (HK : kept P) (Hf : ∀ s, P s → foreign v (op_operation_id x) (du_db s)).

Lemma foreign_roll_forward : hoare P (rollForwardPreparedOperation (op_operation_id x)) (λ _, P) kept_vault.
Proof.
  unfold rollForwardPreparedOperation. eapply restart_bind; [by apply restart_snapshot|]. intros db. cbv zeta.
  destruct (find_operation db _) as [o|] eqn:E.
  - apply find_operation_Some in E as [Ho Hid]. intros s [Hs Edb]. assert (op_vault_id o ≠ v) as Hv.
    { apply (Hf s Hs); [by rewrite <- Edb|done]. }
    revert s Hs Edb. match goal with |- ∀ s, P s → _ → safe _ _ _ _ ?m s => enough (hoare P m (λ _, P) kept_vault) as H by (intros s Hs _; by apply H) end.
    pose proof (λ reason, foreign_block P HP HK x Hf o reason Hid Hv) as Hblock. pose proof (foreign_forward P HP HK x Hf) as Hforward.
    destruct (op_operation_type o); try exact Hforward; try (apply restart_verified; [first [apply still_repair|apply still_settings]|apply Hblock|exact Hforward]).
    destruct (merge_evidence_ok o); [exact Hforward|apply Hblock].
  - eapply restart_weaken; [by apply (foreign_forward P HP HK x Hf)|by intros s []|done].
Qed.

Lemma foreign_reconcile : hoare P (reconcile_prepared x) (λ _, P) kept_vault.
Proof.
  pose proof (foreign_abort P HP HK x Hf) as Habort. pose proof (λ reason, foreign_block P HP HK x Hf x reason eq_refl not_ours) as Hblock.
  unfold reconcile_prepared. cbv zeta. destruct (recoverableTargetRefs x) as [|target targets].
  - apply restart_read; [apply still_expected|]. intros []; [apply Habort|apply Hblock].
  - apply restart_read; [apply still_read_refs|]. intros refs. destruct (forallb _ refs); [apply foreign_roll_forward|].
    destruct (forallb _ refs); [apply Habort|apply Hblock].
Qed.

End reads.

(** ** The operation of the vault *)

(** Only the rows of [o] have changed, and they are not started. *)
Definition settles (o : SyncOperationRow) (s s' : durable) : Prop :=
  (∀ y, y ∈ db_sync_operations (du_db s') → op_operation_id y ≠ op_operation_id o → y ∈ db_sync_operations (du_db s)) ∧
  (∀ y, y ∈ db_sync_operations (du_db s') → op_operation_id y = op_operation_id o → op_status y ≠ OpStarted) ∧
  hasDurableDeletionRecord (du_db s') v = false.

Definition restored (s : durable) : Prop :=
  held v d None s ∨ ∃ o, held v d (Some o) s ∧ status_of v (du_db s) = Some VBlockedIntegrity.

Lemma settles_update o s db' g : well_formed (du_db s) → keeps_identity g → (∀ y, y ∈ db_sync_operations (du_db s) → op_operation_id y = op_operation_id o → op_status (g y) ≠ OpStarted) →
  db_sync_operations db' = db_sync_operations (update_operation (op_operation_id o) g (du_db s)) →
  hasDurableDeletionRecord db' v = false → settles o s (with_db db' s).
Proof.
  intros Hwf Hg Hst E Hdel. unfold settles. cbn [du_db with_db]. rewrite E. split; [|split; [|done]].
  - intros y Hy Hne. apply elem_of_update_operation in Hy as [[Hy _]|(z & _ & Ez & ->)]; [done| |done|done].
    destruct Hne. by rewrite (proj1 (Hg z)).
  - intros y Hy Ey. apply elem_of_update_operation in Hy as [[_ Hy]|(z & Hz & Ez & ->)]; [done|by apply Hst|done|done].
Qed.

Lemma deleting_of_view a b : view a = view b → hasDurableDeletionRecord a v = hasDurableDeletionRecord b v.
Proof.
  intros E. unfold view in E. apply pair_equal_spec in E as [E E4]. apply pair_equal_spec in E as [E E3]. apply pair_equal_spec in E as [_ E2].
  by rewrite !deleting_view, E2, E3, E4.
Qed.

Lemma deleting_update_vault u f db : (∀ x, v_vault_id (f x) = v_vault_id x ∧ (v_status (f x) = VDeleting → v_status x = VDeleting)) →
  hasDurableDeletionRecord db v = false → hasDurableDeletionRecord (update_vault u f db) v = false.
Proof.
  intros Hf. unfold hasDurableDeletionRecord, update_vault. cbn [db_vaults db_deletion_jobs db_deletion_receipts set_db_vaults].
  intros H. apply orb_false_iff in H as [H ->]. apply orb_false_iff in H as [H ->]. rewrite !orb_false_r.
  induction (db_vaults db) as [|x l IH]; cbn in *; [done|]. apply orb_false_iff in H as [Hx Hl].
  destruct (has_vault_id u x); cbn; [|by rewrite Hx, IH]. rewrite Hl, orb_false_r. destruct (Hf x) as [-> Hs].
  destruct (v_vault_id x =s? v); [|done]. cbn in *. apply bool_decide_eq_false_2. apply bool_decide_eq_false in Hx. auto.
Qed.

Section own.
Context (o : SyncOperationRow) (s : durable) (not_deleting : hasDurableDeletionRecord (du_db s) v = false).

Lemma own_row X : base v d X (Some o) s → o ∈ db_sync_operations (du_db s) ∧ op_vault_id o = v ∧ op_status o = OpPrepared.
Proof. intros Hb. by destruct (base_live _ _ _ _ _ Hb o eq_refl) as [(? & ? & _) ?]. Qed.

Lemma own_abort w reason db : held v d (Some o) s → abort_startup_tx (op_operation_id o) reason w (du_db s) = Ok ((), db) →
  held v d None (with_db db s) ∧ settles o s (with_db db s).
Proof.
  intros H E. pose proof (base_formed _ _ _ _ _ (proj1 H)) as Hwf. destruct (own_row _ (proj1 H)) as (Ho & Hv & Hst).
  unfold abort_startup_tx in E. rewrite (find_operation_row _ _ Hwf Ho) in E. apply (inj Ok) in E. apply pair_equal_spec in E as [_ <-].
  destruct (abort_step _ _ _ (nowIso w 0) reason Hwf Ho eq_refl) as [Hs Hend]. split.
  - eapply held_settle; [exact H|exact Hs|exact Hend|]. by intros y [= <-].
  - unfold abort_unless_committed in *. rewrite Hst in *. by apply (settles_update o s _ (aborted (nowIso w 0) reason)).
Qed.

Lemma own_block w reason db : held v d (Some o) s → block_integrity_tx o reason w (du_db s) = Ok ((), db) →
  restored (with_db db s) ∧ settles o s (with_db db s).
Proof.
  intros [Hb Hu] E. pose proof (base_formed _ _ _ _ _ Hb) as Hwf. destruct (own_row _ Hb) as (Ho & Hv & Hst).
  unfold block_integrity_tx in E. rewrite (find_operation_row _ _ Hwf Ho), Hst, Hv in E. apply (inj Ok) in E. apply pair_equal_spec in E as [_ <-].
  cbn [bool_decide decide_rel]. set (g := note_reason (nowIso w 0) reason). assert (keeps_identity g) as Hg by done.
  rewrite bool_decide_eq_false_2 by done.
  split.
  - right. exists (g o). split; [split|].
    + apply (base_same _ _ _ _ s (update_operation (op_operation_id o) g (du_db s))); [by apply base_rewrite|by apply core_update_vault].
    + intros y [= <-]. destruct (Hu o eq_refl) as [E|(ref & t & E & Hm & Hat)]; [by left|right]. exists ref, t.
      split; [done|]. split; [|done]. destruct Hm; [by apply movable_push|by apply movable_merge].
    + destruct (base_vault _ _ _ _ _ Hb) as (vault & _ & Hvault). unfold status_of, find_vault, block_vault, update_vault in *.
      cbn [du_db with_db db_vaults set_db_vaults]. 
      by rewrite (find_row_update_first_self _ _ _ vault).
  - apply (settles_update o s _ g); [done|done| |done|].
    + intros y Hy Ey. change (op_status y ≠ OpStarted). pose proof (find_operation_row _ _ Hwf Hy) as E1.
      rewrite Ey, (find_operation_row _ _ Hwf Ho) in E1. apply (inj Some) in E1 as <-. by rewrite Hst.
    + by apply deleting_update_vault.
Qed.

Lemma own_push w db t : moved v d o (own_ref d) t s → op_operation_type o = OpDevicePush → op_device_id o = Some d →
  op_target_refs o = [(own_ref d, Some t)] → db = roll_forward_push w o (du_db s) →
  held v d None (with_db db s) ∧ settles o s (with_db db s).
Proof.
  intros (Hb & Href & _) _ Hdev Ht ->. pose proof (base_formed _ _ _ _ _ Hb) as Hwf. destruct (own_row _ Hb) as (Ho & Hv & Hst).
  destruct (base_own_device _ _ _ _ _ Hb) as (dev & Hreq & Hin & Hdv & Hid & _).
  assert (find_device (du_db s) (op_device_id o) = Some dev) as Hfind.
  { rewrite Hdev. unfold find_device. cbn [mbind option_bind]. unfold requireDevice in Hreq. unfold has_device_id.
    destruct (find_row _ _) as [x|]; [|done]. by apply (inj Ok) in Hreq as ->. }
  unfold roll_forward_push. rewrite Hfind. unfold target_device_ref, find_row. rewrite Ht. cbn [List.find fst snd].
  unfold own_ref at 1. rewrite starts_with_app. cbn [andb negb is_none]. cbv zeta. rewrite Hid.
  match goal with |- context [update_device d ?f] => set (h := f) end.
  match goal with |- context [settle w 1 o ?r _] => set (g := finish_operation (nowIso w 1) r) end.
  assert (keeps_identity g) as Hg by done.
  match goal with |- held _ _ _ (with_db ?db _) ∧ _ => set (db' := db) end.
  assert (core_of db' = core_of (update_device d h (update_operation (op_operation_id o) g (du_db s)))) as Hc by done. split.
  - split; [|done]. apply (base_same _ _ _ _ s (update_device d h (update_operation (op_operation_id o) g (du_db s)))); [|exact Hc].
    assert (base v d (λ r, r = own_ref d) None (with_db (update_operation (op_operation_id o) g (du_db s)) s)) as Hb2 by by apply base_end.
    by apply (base_set_head _ _ _ h t Hb2).
  - by apply (settles_update o s db' g).
Qed.

Lemma own_merge w db t : moved v d o MAIN_REF t s → op_operation_type o = OpServerMerge → op_target_refs o = [(MAIN_REF, Some t)] →
  db = roll_forward_main w o (du_db s) → held v d None (with_db db s) ∧ settles o s (with_db db s).
Proof.
  intros (Hb & Href & _) Htype Ht ->. pose proof (base_formed _ _ _ _ _ Hb) as Hwf. destruct (own_row _ Hb) as (Ho & Hv & Hst).
  destruct (base_vault _ _ _ _ _ Hb) as (vault & _ & Hvault).
  unfold roll_forward_main. rewrite Hv, Hvault, Ht, Htype. cbn [mget]. rewrite jeqb_refl. rewrite bool_decide_eq_false_2 by done.
  unfold advance_main. rewrite Hv, Htype. cbv zeta.
  match goal with |- context [update_operation (op_operation_id o) ?f _] => set (g := f) end.
  set (h := move_main (nowIso w 1) t). assert (keeps_identity g) as Hg by done.
  set (db1 := update_vault v h (update_operation (op_operation_id o) g (du_db s))).
  match goal with |- held _ _ _ (with_db ?db _) ∧ _ => set (db' := db) end.
  assert (view db' = view (match find_device (du_db s) (op_device_id o) with
    | Some x => update_device (d_device_id x) (settle_device (nowIso w 1) (op_operation_type o)) db1 | None => db1 end)) as Hview.
  { unfold db'. rewrite Htype. etransitivity; [apply view_recovered|]. by destruct (find_device _ _). }
  assert (core_of db' = core_of db1) as Hc.
  { change ((view db').1.1.1 = core_of db1). rewrite Hview. destruct (find_device _ _) as [x|]; [|done].
    apply core_update_device. intros y. unfold settle_device. repeat case_bool_decide; done. }
  split.
  - split; [|done]. apply (base_same _ _ _ _ s db1); [|exact Hc].
    assert (base v d (λ r, r = MAIN_REF) None (with_db (update_operation (op_operation_id o) g (du_db s)) s)) as Hb2 by by apply base_end.
    by apply (base_set_main _ _ _ h t Hb2).
  - apply (settles_update o s db' g); [done|done|done| |].
    + change (c_operations (core_of db') = db_sync_operations db1). by rewrite Hc.
    + rewrite (deleting_of_view _ _ Hview). transitivity (hasDurableDeletionRecord db1 v); [by destruct (find_device _ _)|].
      by apply deleting_update_vault.
Qed.

Lemma own_forward w db ref t : moved v d o ref t s → roll_forward_tx (op_operation_id o) w (du_db s) = Ok ((), db) →
  held v d None (with_db db s) ∧ settles o s (with_db db s).
Proof.
  intros Hm E. pose proof Hm as (Hb & _ & _ & Hmov). destruct (own_row _ Hb) as (Ho & Hv & Hst).
  unfold roll_forward_tx in E. rewrite (find_operation_row _ _ (base_formed _ _ _ _ _ Hb) Ho), Hst in E.
  apply (inj Ok) in E. apply pair_equal_spec in E as [_ E]. cbn [negb] in E. rewrite bool_decide_eq_true_2 in E by done. cbn [negb] in E.
  inversion Hmov as [t' Ht Hd Hts|t' Ht Hts Hev]; subst; rewrite Ht in *.
  - by eapply own_push.
  - by eapply own_merge.
Qed.

End own.

(** ** Reconciling it *)

(** [o] is prepared, whether or not its reference has moved. *)
Definition pending (o : SyncOperationRow) (s : durable) : Prop := held v d (Some o) s ∨ ∃ ref t, moved v d o ref t s.

Lemma pending_recoverable o s : pending o s → recoverable v d s.
Proof. intros [H|(ref & t & H)]; [left; by exists (Some o)|right; by exists o, ref, t]. Qed.
Lemma pending_row o s : pending o s → o ∈ db_sync_operations (du_db s) ∧ op_vault_id o = v ∧ op_status o = OpPrepared.
Proof. intros [[Hb _]|(ref & t & Hb & _)]; by eapply own_row. Qed.
Lemma restored_recoverable s : restored s → recoverable v d s.
Proof. intros [H|(o & H & _)]; left; eauto. Qed.

Section reconcile_own.
(** What the transactions are shown to establish. *)
Context (o : SyncOperationRow) (s0 : durable) (pending0 : pending o s0) (not_deleting0 : hasDurableDeletionRecord (du_db s0) v = false).

Definition settled_own (s : durable) : Prop := restored s ∧ settles o s0 s.
Local Abbreviation P := (λ s, s = s0).

Lemma at_start s : P s → kept_vault s.
Proof. intros ->. split; [by eapply pending_recoverable|done]. Qed.
Lemma settled_own_kept s : settled_own s → kept_vault s.
Proof. intros [H (_ & _ & Hd)]. split; [by apply restored_recoverable|done]. Qed.

Lemma visible_settled : visible settled_own.
Proof.
  intros s db E [H (H1 & H2 & H3)]. assert (apart v (du_db s) db) as Ha by by apply (apart_view v (du_db s) (du_db s)).
  pose proof (recoverable_formed _ (restored_recoverable _ H)) as Hwf. split.
  - destruct H as [H|(x & H & Hst)]; [left; by apply held_apart|right; exists x]. split; [by apply held_apart|].
    cbn [du_db with_db]. by rewrite (ua_status _ _ _ (Ha Hwf)).
  - unfold settles. cbn [du_db with_db]. rewrite (view_operations _ _ E). split; [done|split; [done|]].
    by rewrite (ua_deleting _ _ _ (Ha Hwf)).
Qed.

Lemma own_mutate {A} (fn : transaction A) : (∀ w a db, fn w (du_db s0) = Ok (a, db) → settled_own (with_db db s0)) →
  hoare P (mutate fn) (λ _, settled_own) kept_vault.
Proof.
  intros H. apply restart_mutate; [exact at_start|by intros _; apply settled_own_kept|by intros _; apply visible_settled|].
  intros s w a db -> E. by eapply H.
Qed.

Lemma own_aborts reason : held v d (Some o) s0 → hoare P (abortStartupOperation (op_operation_id o) reason) (λ _, settled_own) kept_vault.
Proof.
  intros H. apply own_mutate. intros w [] db E. destruct (own_abort o s0 not_deleting0 _ _ _ H E) as [H1 H2]. split; [by left|done].
Qed.
Lemma own_blocks reason : held v d (Some o) s0 → hoare P (blockVaultIntegrity o reason) (λ _, settled_own) kept_vault.
Proof. intros H. apply own_mutate. intros w [] db E. by apply (own_block o s0 not_deleting0 _ _ _ H E). Qed.

Lemma own_rolls_forward ref t : moved v d o ref t s0 → hoare P (rollForwardPreparedOperation (op_operation_id o)) (λ _, settled_own) kept_vault.
Proof.
  intros Hm. unfold rollForwardPreparedOperation. eapply restart_bind; [apply restart_snapshot, at_start|]. intros db. cbv zeta.
  destruct (pending_row _ _ pending0) as (Ho & Hv & Hst). pose proof Hm as (Hb & _ & _ & Hmov).
  assert (hoare P (mutate (roll_forward_tx (op_operation_id o))) (λ _, settled_own) kept_vault) as Hforward.
  { apply own_mutate. intros w [] db' E. destruct (own_forward o s0 not_deleting0 _ _ _ _ Hm E) as [H1 H2]. split; [by left|done]. }
  intros s [-> ->]. rewrite (find_operation_row _ _ (base_formed _ _ _ _ _ Hb) Ho).
  inversion Hmov as [t' Ht _ _|t' Ht _ Hev]; rewrite Ht; rewrite ?Hev; by apply Hforward.
Qed.

(** [Promise.all] of the targets, of which there is one. *)
Lemma own_reads ref t : hoare P (read_refs v [(ref, t)]) (λ refs s, s = s0 ∧ refs = [(ref, t, ref_at s0 v ref)]) kept_vault.
Proof.
  cbn [read_refs]. eapply restart_bind; [apply restart_get_ref, at_start|]. intros x. cbn [mret io_ret mbind io_bind after].
  assert (Assertion eq kept_vault (λ s, s = s0 ∧ (v = v → ref_at s v ref = x))) as HA.
  { apply holding. intros s [Hs _]. by apply at_start. }
  apply (hoare_ret (call_step v d) eq kept_vault (λ s, s = s0 ∧ (v = v → ref_at s v ref = x)) [(ref, t, x)]).
  intros s [-> Hx]. by rewrite Hx.
Qed.

Lemma own_reconciles : hoare P (reconcile_prepared o) (λ _, settled_own) kept_vault.
Proof.
  destruct (pending_row _ _ pending0) as (Ho & Hv & Hst). unfold reconcile_prepared. cbv zeta. rewrite Hv.
  assert (recoverableTargetRefs o = [] ∧ held v d (Some o) s0 ∨
    ∃ ref t, recoverableTargetRefs o = [(ref, t)] ∧ (moved v d o ref t s0 ∨ held v d (Some o) s0 ∧ ref_at s0 v ref ≠ Some t ∧
      ref_at s0 v ref = default None (expected_ref o ref))) as [[E H]|(ref & t & E & H)].
  { destruct pending0 as [[Hb Hu]|(ref & t & Hm)].
    - destruct (Hu o eq_refl) as [E|(ref & t & E & Hmov & Hat)]; [by left; split|right; exists ref, t]. split; [done|].
      destruct (decide (ref_at s0 v ref = Some t)) as [Er|Er]; [left|by right; split].
      split; [by eapply base_weaken|done].
    - right. exists ref, t. split; [apply Hm|by left]. }
  all: rewrite E.
  - apply restart_read; [exact at_start|apply still_expected, at_start|]. intros []; [by apply own_aborts|by apply own_blocks].
  - eapply restart_bind; [apply own_reads|]. intros refs s [-> ->]. cbn [forallb].
    destruct H as [Hm|(Hh & Hne & Hat)].
    + pose proof Hm as (_ & Hr & _). rewrite Hr, (proj2 (oeqb_iff _ _) eq_refl). cbn [andb]. by eapply own_rolls_forward.
    + destruct (oeqb (ref_at s0 v ref) (Some t)) eqn:Eo; [by apply oeqb_iff in Eo|]. cbn [andb].
      rewrite (proj2 (oeqb_iff _ _) Hat). cbn [andb]. by apply own_aborts.
Qed.

End reconcile_own.

(** ** The prepared operations, one after the other *)

Definition reconciling (l : list SyncOperationRow) (s : durable) : Prop :=
  kept_vault s ∧ idle s ∧ NoDup (map op_operation_id l) ∧
  (∀ x, x ∈ l → op_vault_id x ≠ v → foreign v (op_operation_id x) (du_db s)) ∧
  (restored s ∧ (∀ x, x ∈ l → op_vault_id x ≠ v) ∨
   ∃ o, pending o s ∧ o ∈ l ∧ ∀ x, x ∈ l → op_vault_id x = v → x = o).

Lemma kept_restored : kept restored.
Proof.
  intros s db Ha H. pose proof (recoverable_formed _ (restored_recoverable _ H)) as Hwf.
  destruct H as [H|(x & H & Hst)]; [left; by apply held_apart|right; exists x]. split; [by apply held_apart|].
  cbn [du_db with_db]. by rewrite (ua_status _ _ _ (Ha Hwf)).
Qed.
Lemma kept_pending o : kept (pending o).
Proof. intros s db Ha [H|(ref & t & H)]; [left; by apply held_apart|right; exists ref, t; by apply moved_apart]. Qed.

Lemma kept_reconciling l : kept (reconciling l).
Proof.
  intros s db Ha ([Hrec Hdel] & Hidle & Hnd & Hf & Hst). pose proof (recoverable_formed _ Hrec) as Hwf. destruct (Ha Hwf) as [f m dv j p o x st].
  split; [split; [by apply recoverable_apart|cbn [du_db with_db]; by rewrite x]|]. split.
  - intros y (Hy & Hv & Hl). apply Hidle. split; [|done]. by apply o.
  - split; [done|]. split; [intros y Hy Hv; by apply (foreign_apart v _ _ Ha _ Hwf), Hf|].
    destruct Hst as [[H Hl]|(y & H & Hy)]; [left; split; [by apply kept_restored|done]|right; exists y; split; [by apply kept_pending|done]].
Qed.

Lemma reconciling_rest x l s : op_vault_id x ≠ v → reconciling (x :: l) s → reconciling l s.
Proof.
  intros Hx (Hk & Hidle & Hnd & Hf & Hst). apply NoDup_cons in Hnd as [_ Hnd]. split; [done|]. split; [done|]. split; [done|].
  split; [intros y Hy; apply Hf; by right|]. destruct Hst as [[H Hl]|(o & H & Ho & Hone)]; [left|right].
  - split; [done|]. intros y Hy. apply Hl. by right.
  - exists o. split; [done|]. split; [|intros y Hy; apply Hone; by right]. apply elem_of_cons in Ho as [->|]; [|done].
    by destruct (pending_row _ _ H) as (_ & ? & _).
Qed.

Lemma reconciling_step x l : hoare (reconciling (x :: l)) (reconcile_prepared x) (λ _, reconciling l) kept_vault.
Proof.
  destruct (decide (op_vault_id x = v)) as [Hx|Hx].
  - intros s (Hk & Hidle & Hnd & Hf & [[_ Hl]|(o & H & Ho & Hone)]); [by destruct (Hl x); [left|]|].
    assert (x = o) as -> by (by apply Hone; [left|]). apply NoDup_cons in Hnd as [Hnew Hnd].
    assert (hoare (λ t, t = s) (reconcile_prepared o) (λ _, reconciling l) kept_vault) as Hrun; [|by apply Hrun].
    eapply restart_weaken; [by apply own_reconciles; [|apply Hk]|done|]. intros a t [Hr (Hops & Hown & Hdel)].
    assert (∀ y, y ∈ l → op_operation_id y ≠ op_operation_id o) as Hother.
    { intros y Hy E. apply Hnew. rewrite <- E. apply list_elem_of_fmap. eauto. }
    split; [split; [by apply restored_recoverable|done]|]. split; [|split; [done|split]].
    + intros y (Hy & Hyv & Hyl). destruct (decide (op_operation_id y = op_operation_id o)) as [E|E]; [by apply Hown|].
      apply Hidle. split; [by apply Hops|done].
    + intros y Hy Hyv z Hz Ez. apply (Hf y); [by right|done| |done]. apply Hops; [done|]. rewrite Ez. by apply Hother.
    + left. split; [done|]. intros y Hy Hyv. apply (Hother y Hy). by rewrite (Hone y); [|right|].
  - assert (∀ s, reconciling (x :: l) s → kept_vault s) as HP by by intros s [].
    eapply restart_weaken; [apply (foreign_reconcile (reconciling (x :: l)) HP x Hx (kept_reconciling _))|done|].
    + intros s (_ & _ & _ & Hf & _). by apply Hf; [left|].
    + intros a s. by apply reconciling_rest.
Qed.

(** The vault agrees with its references again; it may be blocked instead of rid of an
    operation that never came to move a reference. *)
Lemma reconcile_safe : hoare kept_vault reconcileStartupOperations (λ _ s, kept_vault s ∧ idle s ∧ restored s) kept_vault.
Proof.
  unfold reconcileStartupOperations. eapply restart_bind; [by apply restart_snapshot|]. intros db.
  eapply restart_bind with (R' := λ _, starting []).
  { eapply restart_weaken; [apply starting_safe| |done]. intros s [[Hrec Hdel] ->]. split; [done|]. split.
    - intros x o Hx Ho Hid. apply list_elem_of_In, filter_In in Hx as [Hx Hs]. apply andb_true_iff in Hs as [_ Hs].
      pose proof (find_operation_row _ _ (recoverable_formed _ Hrec) Ho) as E. apply list_elem_of_In in Hx.
      rewrite Hid, (find_operation_row _ _ (recoverable_formed _ Hrec) Hx) in E. apply (inj Some) in E as <-.
      unfold has_status in Hs. by apply bool_decide_eq_true in Hs as ->.
    - intros o (Ho & Hv & _) Hs. apply list_elem_of_fmap. exists o. split; [done|]. apply list_elem_of_In, filter_In.
      split; [by apply list_elem_of_In|]. rewrite Hv, Hdel. unfold has_status. by rewrite Hs. }
  intros _. eapply restart_bind; [apply restart_snapshot; by intros s []|]. intros latest.
  match goal with |- Programs.hoare _ _ _ _ (for_each ?l _) _ _ => set (prepared := l) end.
  eapply restart_weaken; [apply (restart_each reconciling); [by intros l s []|intros x l; apply reconciling_step]| |].
  - intros s [([Hrec Hdel] & _ & Hnone) ->]. pose proof (recoverable_formed _ Hrec) as Hwf.
    assert (∀ x, x ∈ prepared ↔ x ∈ db_sync_operations (du_db s) ∧ op_status x = OpPrepared ∧ hasDurableDeletionRecord (du_db s) (op_vault_id x) = false) as Hp.
    { intros x. unfold prepared. rewrite list_elem_of_In, filter_In, <- list_elem_of_In, andb_true_iff, negb_true_iff. unfold has_status.
      by rewrite bool_decide_eq_true. }
    split; [done|]. split; [intros o Ho Hs; by apply (not_elem_of_nil (op_operation_id o)), Hnone|]. split.
    { unfold prepared. destruct Hwf as [Hnd _ _ _]. revert Hnd. generalize (db_sync_operations (du_db s)). intros ops.
      induction ops as [|x ops IH]; cbn [map List.filter]; [done|]. intros [Hx Hnd]%NoDup_cons.
      destruct (_ && _); [|by apply IH]. cbn [map]. apply NoDup_cons. split; [|by apply IH]. intros Hin. apply Hx.
      apply list_elem_of_fmap in Hin as (y & -> & Hy). apply list_elem_of_In, filter_In in Hy as [Hy _].
      apply list_elem_of_fmap. exists y. split; [done|]. by apply list_elem_of_In. }
    split; [intros x [Hx _]%Hp Hxv; by apply foreign_row|].
    assert (∀ M, base v d (λ _, True) M s → ∀ x, x ∈ prepared → op_vault_id x = v → M = Some x) as Honly.
    { intros M Hb x [Hx [Hs _]]%Hp Hxv. apply (base_only _ _ _ _ _ Hb); [|done]. split; [done|]. split; [done|]. unfold is_live. by rewrite Hs. }
    assert (∀ o, pending o s → o ∈ prepared) as Hin.
    { intros o Ho. apply Hp. destruct (pending_row _ _ Ho) as (? & Hv & ?). by rewrite Hv. }
    destruct Hrec as [[[o|] H]|(o & ref & t & H)].
    + right. exists o. assert (pending o s) as Ho by by left. split; [done|]. split; [by apply Hin|]. intros x Hx Hxv.
      assert (Some o = Some x) as E; [|by apply (inj Some) in E]. apply Honly; [|done|done]. by eapply base_weaken; [apply H|].
    + left. split; [by left|]. intros x Hx Hxv. enough (None = Some x) by done. apply Honly; [|done|done]. by eapply base_weaken; [apply H|].
    + right. exists o. assert (pending o s) as Ho by (right; eauto). split; [done|]. split; [by apply Hin|]. intros x Hx Hxv.
      assert (Some o = Some x) as E; [|by apply (inj Some) in E]. apply Honly; [|done|done]. by eapply base_weaken; [apply H|].
  - intros a s (Hk & Hidle & _ & _ & [[Hr _]|(o & _ & Ho & _)]); [done|by apply not_elem_of_nil in Ho].
Qed.

(** What is left of a vault that was restored. *)
Lemma restored_agrees s : restored s → idle s → well_formed (du_db s) ∧ agrees v s ∧
  ((∀ o, ¬ live v (du_db s) o) ∨ status_of v (du_db s) = Some VBlockedIntegrity).
Proof.
  intros H Hidle. assert (∃ M, base v d (λ _, False) M s) as [M Hb] by (destruct H as [[? _]|(o & [? _] & _)]; eauto).
  split; [apply Hb|]. split; [by apply agrees_but_none, Hb|]. destruct H as [[Hn _]|(o & _ & Hst)]; [left|by right].
  intros o Ho. assert (op_status o = OpPrepared) as Hp.
  { pose proof (Hidle o Ho). destruct Ho as (_ & _ & Hl). unfold is_live in Hl. by destruct (op_status o). }
  by discriminate (base_only _ _ _ _ _ Hn o Ho Hp).
Qed.

End restart.
