(* ===== verification/PushRecovery.v ===== *)
(** * Pushing, stopping anywhere, and starting again

    The push ([PushService]) and the startup ([Startup]) together: wherever the process stops
    and whatever call fails - but for the update of the device's own reference failing
    after it took effect, and the store failing while that reference is ahead - the next start
    that completes brings the vault's references and its metadata together.  The last part
    runs both programs on a small vault, and shows what the excluded failures do. *)

From S2P Require Export StartupSafety.

(** A program on its own, with the answers of git given. *)
Section exec.
Context (v d : jstring) (oracle : ∀ A, git_query A → result A) (late : jstring → bool).

(** The store never fails; the references of [late] move and then report a failure. *)
#[local] Instance late_faults : Faults := {| store_may_fail _ := False; update_may_fail_late ref := late ref = true |}.

(** New identifiers are longer than all there are. *)
Definition long_world (db : MetadataDb) : World :=
  mk_World (λ i, 1700000000000 + Z.of_nat i)%Z
    (λ i, replicate (S (sum_list_with (length ∘ op_operation_id) (db_sync_operations db))) 0%N).

Lemma long_world_fresh db : fresh (long_world db) db.
Proof.
  intros i Hin. apply list_elem_of_fmap in Hin as (o & E & Ho).
  assert (length (op_operation_id o) ≤ sum_list_with (length ∘ op_operation_id) (db_sync_operations db))%nat as Hle.
  { revert Ho. induction (db_sync_operations db) as [|x l IH]; [by intros ?%not_elem_of_nil|].
    intros [->|Ho]%elem_of_cons; cbn; [lia|]. specialize (IH Ho). lia. }
  rewrite <- E in Hle. unfold new_id, newId in Hle. rewrite !length_app, length_map in Hle.
  cbn [w_random long_world] in Hle. rewrite length_replicate in Hle. cbn [length] in Hle. lia.
Qed.

#[local] Transparent conflictRef.
Definition unused_conflict (vault id : jstring) (s : durable) : bool :=
  forallb (λ k : jstring * jstring * jstring, negb (starts_with (conflictRef id []) k.1.2)) (map_to_list (du_refs s))
  && forallb (λ k : jstring * jstring, negb (starts_with (conflictRef id []) k.1)) (protected_refs v (du_db s)).

Lemma unused_conflict_spec vault id s kind : unused_conflict vault id s = true →
  ref_at s vault (conflictRef id kind) = None ∧ ∀ commit, (conflictRef id kind, commit) ∉ protected_refs v (du_db s).
Proof.
  assert (starts_with (conflictRef id []) (conflictRef id kind) = true) as Hpre.
  { unfold conflictRef. rewrite app_nil_r, !(app_assoc _ _ kind), !app_assoc. apply starts_with_app. }
  unfold unused_conflict. rewrite andb_true_iff, !forallb_forall. intros [H1 H2]. split.
  - unfold ref_at. destruct (du_refs s !! _) as [x|] eqn:E; [|done]. apply elem_of_map_to_list, list_elem_of_In, H1 in E.
    cbn [fst snd] in E. by rewrite Hpre in E.
  - intros commit Hin. apply list_elem_of_In, H2 in Hin. cbn [fst] in Hin. by rewrite Hpre in Hin.
Qed.

#[local] Opaque conflictRef unused_conflict.

Definition answer {B} (c : call B) (s : durable) : result B * durable :=
  match c in call B return result B * durable with
  | Snapshot => (Ok (du_db s), s)
  | Mutate fn =>
      let w := long_world (du_db s) in
      let '(r, db) := run w (fn w) (du_db s) in (r, with_db db s)
  | GetRef vault ref => (Ok (ref_at s vault ref), s)
  | UpdateRef vault ref target expected =>
      if bool_decide (ref_at s vault ref = expected) && is_oid target then (if late ref then Throw (mk_error EGitDurability "" "fsync" []) else Ok (), put_ref vault ref (Some target) s)
      else (Throw (plain_error "update-ref"), s)
  | Git q => (oracle _ q, s)
  | Archive q => (match q in archive_query T return result T with FindAttempt _ _ _ => Ok None | FindTargetCandidates _ _ _ => Ok [] end, s)
  | ArchiveCompletedHistory _ => (Ok (), s)
  | FreshConflictId vault => (if unused_conflict vault (lit "conf_1") s then Ok (lit "conf_1") else Throw (plain_error "no entropy"), s)
  end.

Fixpoint exec {A} (n : nat) (p : prog call A) (s : durable) : prog call A * durable :=
  match n, p with
  | S n, Do c k => let r := answer c s in exec n (k r.1) r.2
  | _, _ => (p, s)
  end.

Lemma answer_step {B} (c : call B) s : call_step v d B c s (answer c s).1 (answer c s).2.
Proof.
  destruct c; cbn; auto.
  - exists (long_world (du_db s)). split; [apply long_world_fresh|].
    destruct (run_cases (long_world (du_db s)) (fn (long_world (du_db s))) (du_db s)) as [(e & _ & ->)|(a & db & h & _ & ->)]; cbn; [|by left].
    split; [done|by destruct s].
  - destruct (bool_decide _ && _) eqn:E; cbn; [right|left; split; [by eexists|done]].
    apply andb_true_iff in E as [E ->]. apply bool_decide_eq_true in E. split; [done|]. split; [done|]. split; [done|].
    destruct (late ref) eqn:El; [right; by split; [eexists|]|by left].
  - reflexivity.
  - split; [done|]. intros id. destruct (unused_conflict _ _ s) eqn:E; [|done]. intros [= <-] kind. by apply unused_conflict_spec.
Qed.

Lemma exec_runs {A} rely n (p : prog call A) s : runs (call_step v d) rely p s (exec n p s).1 (exec n p s).2.
Proof.
  revert p s. induction n as [|n IH]; intros p s; [apply runs_here|]. destruct p as [a|B c k]; [apply runs_here|].
  eapply runs_call; [apply answer_step|apply IH].
Qed.

End exec.

(** ** Theorems *)

Section theorems.
Context `{D : Dates} `{U : Unicode} `{Nm : Numerals} `{Sh : Sha256} `{GT : GitTools} `{TT : TextTools} `{F : Faults}.
Context (auth : AuthenticatedDevice).

Let v : jstring := v_vault_id (ad_vault auth).
Let d : jstring := d_device_id (ad_device auth).

(** [C3] From a vault with no prepared operation whose references are where its metadata
    says, every state a push can be stopped in - by a failing call, by the process
    ending, between any two calls, with other methods running - is [recoverable]: at
    most one operation explains the difference between references and metadata. When
    the push returns, nothing is left to recover, and a merge it reports is what main
    is. Assumed of the faults: the device's reference does not move in an update that
    reports a failure, and the store does not fail while that reference is ahead of the
    metadata. *)
Theorem push_recoverable maxUploadBytes unavailable manifest pack s q t :
  is_oid (pm_target_commit manifest) = true → d_device_ref (ad_device auth) = own_ref d →
  (∀ ref, update_may_fail_late ref → ref ≠ own_ref d) →
  (∀ s o target, store_may_fail s → ¬ moved v d o (own_ref d) target s) →
  held v d None s →
  runs (call_step v d) (others v d) (integrateDeviceCommit maxUploadBytes unavailable auth manifest pack) s q t →
  recoverable v d t ∧
  ∀ r, q = Done (Ok r) → held v d None t ∧
    ∀ main commit, merged r = Some (main, commit) → main = commit ∧ main_of v (du_db t) = Some commit.
Proof.
  intros Hoid Href Hlate Hstore Hs Hrun.
  pose proof (request_safe v d auth eq_refl eq_refl Href Hlate Hstore maxUploadBytes unavailable manifest pack Hoid) as H.
  destruct (triple_runs _ _ _ _ _ _ _ _ _ H Hs Hrun) as [HI HQ]. split; [exact HI|]. intros r E. exact (HQ _ E).
Qed.

(** [C2] A start reconciles a recoverable vault, whatever operations other vaults have:
    every state it can be stopped in itself is recoverable again, and when it returns
    the references are where the metadata says and no operation of the vault is in
    flight, unless the vault was blocked over an operation that has moved nothing. *)
Theorem startup_reconciles v' d' s (q : prog call (result unit)) t :
  recoverable v' d' s → hasDurableDeletionRecord (du_db s) v' = false →
  runs (call_step v' d') eq reconcileStartupOperations s q t →
  recoverable v' d' t ∧
  (q = Done (Ok ()) → well_formed (du_db t) ∧ agrees v' t ∧
     ((∀ o, ¬ live v' (du_db t) o) ∨ status_of v' (du_db t) = Some VBlockedIntegrity)).
Proof.
  intros Hs Hd Hrun. destruct (triple_runs _ _ _ _ _ _ _ _ _ (reconcile_safe v' d') (conj Hs Hd) Hrun) as [[HI _] HQ].
  split; [done|]. intros E. destruct (HQ _ E) as (_ & Hidle & Hr). by destruct (restored_agrees _ _ _ Hr Hidle) as (? & ? & ?).
Qed.

(** [C1] A push to a quiet vault (no operation prepared, the references where the metadata says)
    that was stopped anywhere, and then a start that completes, while no deletion of the
    vault is recorded: the references of the vault are where its metadata says, and
    nothing is in flight unless the vault is blocked. Assumed of the faults, as in
    [push_recoverable]: the device's reference does not move in an update that
    reports a failure, and the store does not fail while that reference is ahead of the
    metadata; [late_failure_unexplained] shows that the first is needed. *)
Theorem push_then_restart maxUploadBytes unavailable manifest pack s q t (u : durable) :
  is_oid (pm_target_commit manifest) = true → d_device_ref (ad_device auth) = own_ref d →
  (∀ ref, update_may_fail_late ref → ref ≠ own_ref d) →
  (∀ s o target, store_may_fail s → ¬ moved v d o (own_ref d) target s) →
  held v d None s →
  runs (call_step v d) (others v d) (integrateDeviceCommit maxUploadBytes unavailable auth manifest pack) s q t →
  hasDurableDeletionRecord (du_db t) v = false →
  runs (call_step v d) eq reconcileStartupOperations t (Done (Ok ())) u →
  agrees v u ∧ ((∀ o, ¬ live v (du_db u) o) ∨ status_of v (du_db u) = Some VBlockedIntegrity).
Proof.
  intros Hoid Href Hlate Hstore Hs Hpush Hdel Hstart.
  pose proof (request_safe v d auth eq_refl eq_refl Href Hlate Hstore maxUploadBytes unavailable manifest pack Hoid) as H.
  destruct (triple_runs _ _ _ _ _ _ _ _ _ H Hs Hpush) as [HI _].
  destruct (triple_runs _ _ _ _ _ _ _ _ _ (reconcile_safe v d) (conj HI Hdel) Hstart) as [_ HQ].
  destruct (HQ _ eq_refl) as (_ & Hidle & Hr). by destruct (restored_agrees _ _ _ Hr Hidle) as (_ & ? & ?).
Qed.

End theorems.

(** ** A push that is interrupted *)

Definition obliging (A : Type) (q : git_query A) : result A :=
  match q in git_query A return result A with
  | CommitExists _ _ _ | IsAncestor _ _ _ _ | CheckReady | CheckRepositoryPermissions _ | CheckIntegrity _ => Ok true
  | RootIgnoreOid _ _ _ | MergeBase _ _ _ _ | ValidateTreeRootIgnorePolicy _ _ _ => Ok None
  | ValidateTreePathPolicy _ _ _ | QuarantineUpload _ | ImportUpload _ => Ok ()
  | HistoryReader => Ok (linear_git [])
  | _ => Throw (plain_error "not available")
  end.

Definition pushing_auth : AuthenticatedDevice :=
  mk_auth_device (sample_user "bob" false) sample_vault Auth.sample_device (sample_token TokDevice "tok" (Some (lit "d1"))).
Definition pushed_commit : jstring := repeat 97%N 40.
Definition pushed_manifest : DevicePushManifest :=
  mk_push (lit "v1") (lit "d1") None pushed_commit (lit "") 0 None None None None None None None None.
Definition quiet_vault : durable := mk_durable sample_db {[ (lit "v1", MAIN_REF) := lit "r0" ]}.
Definition push : sync PushResult :=
  @integrateDeviceCommit iso_dates ascii_unicode toy_numerals toy_sha256 simple_git toy_text 1000 false pushing_auth pushed_manifest None.
Local Abbreviation no_faults := (late_faults (λ _, false)).
Definition interrupted : prog call (result PushResult) * durable := exec (lit "v1") obliging (λ _, false) 15 push quiet_vault.
Definition restarted : prog call (result unit) * durable :=
  exec (lit "v1") obliging (λ _, false) 40 (@reconcileStartupOperations toy_numerals toy_sha256) interrupted.2.

Lemma quiet_vault_held : @held toy_numerals toy_sha256 "v1" "d1" None quiet_vault.
Proof.
  split; [|by intros o]. split.
  - split.
    + by apply NoDup_nil.
    + by apply NoDup_singleton.
    + intros x Hx. apply list_elem_of_singleton in Hx as ->. by vm_compute.
    + by intros o x ?%not_elem_of_nil.
  - split.
    + by eexists.
    + intros _. by vm_compute.
    + intros id ref h (x & Hx & _ & _ & <- & <-) _ _. apply list_elem_of_singleton in Hx as ->. by vm_compute.
    + by intros p ?%not_elem_of_nil.
  - exists None, Auth.sample_device. split; [left|]. by repeat split.
  - by intros o [?%not_elem_of_nil _].
  - done.
Qed.

Lemma no_late_faults ref : @update_may_fail_late no_faults ref → ref ≠ own_ref "d1".
Proof. done. Qed.
Lemma no_store_faults s o target : @store_may_fail no_faults s → ¬ @moved toy_numerals toy_sha256 "v1" "d1" o (own_ref "d1") target s.
Proof. done. Qed.

Lemma interrupted_run rely : runs (call_step (F := no_faults) "v1" "d1") rely push quiet_vault interrupted.1 interrupted.2.
Proof. apply exec_runs. Qed.
Lemma restarted_run rely : runs (call_step (F := no_faults) "v1" "d1") rely (@reconcileStartupOperations toy_numerals toy_sha256) interrupted.2 restarted.1 restarted.2.
Proof. apply exec_runs. Qed.

(** The process stops right after the device's reference has moved. *)
Lemma push_recoverable_witness :
  ref_at interrupted.2 "v1" (own_ref "d1") = Some pushed_commit ∧
  map d_device_ref_head (db_devices (du_db interrupted.2)) = [None] ∧
  @recoverable toy_numerals toy_sha256 "v1" "d1" interrupted.2.
Proof.
  split; [by vm_compute|]. split; [by vm_compute|].
  apply (@push_recoverable iso_dates ascii_unicode toy_numerals toy_sha256 simple_git toy_text no_faults pushing_auth 1000 false pushed_manifest None
    quiet_vault interrupted.1 interrupted.2); [by vm_compute|by vm_compute|exact no_late_faults|exact no_store_faults|exact quiet_vault_held|].
  apply interrupted_run.
Defined.

Lemma interrupted_recoverable : @recoverable toy_numerals toy_sha256 "v1" "d1" interrupted.2.
Proof.
  pose proof (@request_safe iso_dates ascii_unicode toy_numerals toy_sha256 simple_git toy_text no_faults "v1" "d1" pushing_auth eq_refl eq_refl
    ltac:(by vm_compute) no_late_faults no_store_faults 1000 false pushed_manifest None ltac:(by vm_compute)) as H.
  destruct (triple_runs _ _ _ _ _ _ _ _ _ H quiet_vault_held (interrupted_run _)) as [HI _]. exact HI.
Qed.

(** The start that follows records the device's commit. *)
Lemma startup_reconciles_witness :
  map d_device_ref_head (db_devices (du_db restarted.2)) = [Some pushed_commit] ∧
  map op_status (db_sync_operations (du_db restarted.2)) = [OpCommitted] ∧ agrees "v1" restarted.2.
Proof.
  split; [by vm_compute|]. split; [by vm_compute|].
  destruct (@startup_reconciles toy_numerals toy_sha256 no_faults "v1" "d1" interrupted.2 restarted.1 restarted.2 interrupted_recoverable
    ltac:(by vm_compute) (restarted_run _)) as [_ H].
  apply H. by vm_compute.
Defined.

Lemma push_then_restart_witness :
  map d_device_ref_head (db_devices (du_db restarted.2)) = [Some pushed_commit] ∧ agrees "v1" restarted.2.
Proof.
  split; [by vm_compute|].
  assert (restarted.1 = Done (Ok ())) as E by by vm_compute.
  assert (runs (call_step (F := no_faults) "v1" "d1") eq (@reconcileStartupOperations toy_numerals toy_sha256) interrupted.2 (Done (Ok ())) restarted.2)
    as Hrun by (rewrite <- E; apply restarted_run).
  assert (hasDurableDeletionRecord (du_db interrupted.2) "v1" = false) as Hdel by by vm_compute.
  assert (is_oid (pm_target_commit pushed_manifest) = true) as Hoid by by vm_compute.
  assert (d_device_ref (ad_device pushing_auth) = own_ref (lit "d1")) as Href by by vm_compute.
  exact (proj1 (@push_then_restart iso_dates ascii_unicode toy_numerals toy_sha256 simple_git toy_text no_faults pushing_auth 1000 false pushed_manifest None
    quiet_vault interrupted.1 interrupted.2 restarted.2 Hoid Href no_late_faults no_store_faults quiet_vault_held (interrupted_run _) Hdel Hrun)).
Defined.

(** ** Why the faults are restricted *)

Definition late_push : prog call (result PushResult) * durable :=
  exec (lit "v1") obliging (λ ref, ref =s? own_ref (lit "d1")) 40 push quiet_vault.
Definition late_restart : prog call (result unit) * durable :=
  exec (lit "v1") obliging (λ _, false) 40 (@reconcileStartupOperations toy_numerals toy_sha256) late_push.2.

(** On the small vault: when the update of the device's reference moves it and then reports a
    failure (the repository is not flushed), the push aborts its operation; the start that
    follows finds nothing to recover, and the reference stays where the metadata does
    not have it. *)
Example late_failure_unexplained :
  runs (call_step (F := late_faults (λ ref, ref =s? own_ref (lit "d1"))) "v1" "d1") eq push quiet_vault late_push.1 late_push.2 ∧
  (∃ e, late_push.1 = Done (Throw e)) ∧
  runs (call_step (F := no_faults) "v1" "d1") eq (@reconcileStartupOperations toy_numerals toy_sha256) late_push.2 (Done (Ok ())) late_restart.2 ∧
  map op_status (db_sync_operations (du_db late_restart.2)) = [OpAborted] ∧ ¬ agrees "v1" late_restart.2.
Proof.
  split; [apply exec_runs|]. split; [eexists; by vm_compute|]. split.
  { assert (late_restart.1 = Done (Ok ())) as <- by by vm_compute. apply exec_runs. }
  split; [by vm_compute|]. intros [_ H _].
  assert (ref_at late_restart.2 "v1" (own_ref "d1") = None) as Hn; [|by vm_compute in Hn].
  apply (H (lit "d1")); [|by vm_compute]. exists (default Auth.sample_device (head (db_devices (du_db late_restart.2)))).
  split; [by vm_compute; left|]. by vm_compute.
Qed.

(** ** Conflicts without a base *)

Section baseless.
Context `{D : Dates} `{F : Faults} (v d : jstring).

Local Abbreviation hoare := (hoare (call_step v d) eq (λ _, True)).
#[local] Instance anything (P : durable → Prop) : Assertion eq (λ _, True) P.
Proof. split; [by intros s s' ->|done]. Qed.

Lemma mutate_keeps_refs {A} (fn : transaction A) ref x : hoare (λ s, ref_at s v ref = x) (mutate fn) (λ _ s, ref_at s v ref = x) (λ _, True).
Proof.
  apply hoare_call; [apply _| |intros; apply _|apply _]. intros s r s' Hs (w & _ & Hr).
  destruct (run w (fn w) (du_db s)) as [[a|e] db]; [|by destruct Hr as [-> ->]].
  by destruct Hr as [[-> ->]|([e ->] & _ & [-> | ->])].
Qed.

Lemma ensure_nothing ref : hoare (λ s, ref_at s v ref = None) (ensureRef v ref []) (λ _ _, False) (λ _, True).
Proof.
  unfold ensureRef. eapply hoare_bind with (R' := λ x s, x = None); [apply _| |intros x|apply _].
  - apply hoare_call; [apply _| |intros; apply _|apply _]. intros s r s' Hs [-> [->|[e ->]]]; done.
  - intros s ->. enough (hoare (λ _, True) (updateRef v ref [] None) (λ _ _, False) (λ _, True)) as H by by apply H.
    apply hoare_call; [apply _| |intros; apply _|apply _]. intros t r t' _ [[[e ->] _]|(_ & H & _)]; [done|by vm_compute in H].
Qed.

(** A conflict whose base is the empty string - the server's record of a proposal
    without a common ancestor, or with an untrusted base - is never reported: the
    reference that should protect its base cannot be written, whatever the references,
    the faults and the answers of git. *)
Theorem baseless_conflict_fails main commit paths reason plan dref pairs s q t :
  runs (call_step v d) eq (createConflict v d [] main commit paths reason plan dref pairs) s q t → ∀ r, q ≠ Done (Ok r).
Proof.
  intros Hrun r ->. assert (hoare (λ _, True) (createConflict v d [] main commit paths reason plan dref pairs) (λ _ _, False) (λ _, True)) as H.
  { unfold createConflict. cbv zeta.
    eapply hoare_bind with (R' := λ id s, ref_at s v (conflictRef id "base") = None); [apply _| |intros id|apply _].
    { apply hoare_call; [apply _| |intros; apply _|apply _]. intros s0 x s1 _ [-> Hx]. destruct x as [id|e]; [|done]. by apply (Hx id). }
    do 2 (eapply hoare_bind; [apply _|apply mutate_keeps_refs|intros ?|apply _]).
    eapply hoare_bind with (R' := λ _ _, False); [apply _| |by intros ? ? []|apply _].
    eapply hoare_catch with (E' := λ _, True); [apply _| |intros e|intros; apply _].
    - eapply hoare_bind; [apply _|apply ensure_nothing|by intros ? ? []|apply _].
    - eapply hoare_bind with (R' := λ _ _, True); [apply _| |intros ?; by apply hoare_throw; [apply _|]|apply _].
      apply hoare_call; [apply _| |intros; apply _|apply _]. intros s0 x s1 _ _. by destruct x. }
  by destruct (triple_runs _ _ _ _ _ _ _ _ _ H I Hrun) as [_ HQ]; specialize (HQ _ eq_refl).
Qed.
End baseless.

Definition baseless : sync PushResult :=
  @createConflict iso_dates (lit "v1") (lit "d1") [] (lit "r0") pushed_commit [] (lit "no_merge_base") None pushed_commit [].
Definition baseless_run : prog call (result PushResult) * durable := exec (lit "v1") obliging (λ _, false) 40 baseless quiet_vault.

(** It is recorded, and the vault is blocked. *)
Lemma baseless_conflict_fails_witness :
  map cf_base_commit (db_conflicts (du_db baseless_run.2)) = [[]] ∧ map v_status (db_vaults (du_db baseless_run.2)) = [VBlockedIntegrity] ∧
  ∀ r, baseless_run.1 ≠ Done (Ok r).
Proof.
  split; [by vm_compute|]. split; [by vm_compute|].
  apply (@baseless_conflict_fails iso_dates no_faults "v1" "d1" (lit "r0") pushed_commit [] (lit "no_merge_base") None
    pushed_commit [] quiet_vault baseless_run.1 baseless_run.2).
  apply exec_runs.
Defined.
