(* ===== verification/DeletionRequests.v ===== *)
(** * Requests for a deletion (src/server/vaultLifecycleCoordinator.ts)

    [beginDeletion] with the durable writes it makes on the way, any of which may
    fail, and the checks of the durable state that admissions, device leases and
    device work make once they hold the in-memory barrier. *)

From S2P Require Export VaultDeletion.

Local Open Scope Z_scope.

(** [AuthError]s of the component. *)
Definition resource_not_found {A} : result A := Throw (AuthError 404 "not_found" "Resource not found." []).
Definition vault_deleting {A} : result A := Throw (AuthError 409 "vault_deleting" "Vault deletion is in progress." []).
Definition deletion_unavailable {A} (message : string) : result A := Throw (AuthError 503 "deletion_unavailable" (lit message) []).

Section requests.
Context `{D : Dates} `{U : Unicode} (w : World).

(** The metadata document and the [closing] and [closed] flags of the vault's
    barrier. *)
Record desk := mk_desk { k_db : MetadataDb; k_closing : bool; k_closed : bool }.
Definition set_k_db (db : MetadataDb) (k : desk) : desk := mk_desk db (k_closing k) (k_closed k).
Definition close_desk (closed : bool) (k : desk) : desk := mk_desk (k_db k) true closed.

(** [store.mutateDurably]: [None] when the function threw nothing and the write
    is durable. *)
Definition write (o : tx_result) (db : MetadataDb) (k : desk) : bool * desk :=
  match o with
  | TxDone => (true, set_k_db (commit w db) k)
  | TxFailed applied => (false, if applied then set_k_db (commit w db) k else k)
  end.

(** [expireReceipts]; no write when nothing has expired. *)
Definition expireReceipts (o : tx_result) (k : desk) : bool * desk :=
  if existsb (expired (w_now w 0)) (db_deletion_receipts (k_db k))
  then write o (expire_tx (w_now w 0) (k_db k)) k else (true, k).

(** [reconcileDeletingVaultRows(vaultId)]: the loop over the rows of [initial]. *)
Fixpoint reconcile_rows (os : nat → tx_result) (initial : MetadataDb) (vaultId : jstring) (rows : list VaultRow) (k : desk) : bool * desk :=
  match rows with
  | [] => (true, k)
  | vault :: rows =>
      let k := close_desk false k in
      if hasDeletionJobOrReceipt initial vaultId then reconcile_rows os initial vaultId rows k
      else match write (os (length rows)) (reconcile_tx vaultId (v_updated_at vault) (k_db k)) k with
           | (false, k) => (false, k)
           | (true, k) => reconcile_rows os initial vaultId rows k
           end
  end.

Definition deleting_row (vaultId : jstring) (vault : VaultRow) : bool :=
  bool_decide (v_status vault = VDeleting) && has_vault_id vaultId vault.

Definition reconcileDeletingVaultRows (os : nat → tx_result) (vaultId : jstring) (k : desk) : bool * desk :=
  reconcile_rows os (k_db k) vaultId (List.filter (deleting_row vaultId) (db_vaults (k_db k))) k.

(** The outcomes of the durable writes of one request. *)
Record writes := mk_writes { o_expire : tx_result; o_reconcile : nat → tx_result; o_accept : tx_result }.

Definition beginDeletion (o : writes) (ownerUserId vaultId : jstring) (confirmation : option jstring) (k : desk) :
    result VaultDeletionStatus * desk :=
  match expireReceipts (o_expire o) k with
  | (false, k) => (deletion_unavailable "Deletion lifecycle metadata is unavailable.", k)
  | (true, k) =>
  match reconcileDeletingVaultRows (o_reconcile o) vaultId k with
  | (false, k) => (deletion_unavailable "Vault deletion could not be reconciled durably.", close_desk false k)
  | (true, k) =>
  let initial := k_db k in
  match find_row (is_job vaultId) (db_deletion_jobs initial), find_row (is_receipt vaultId) (db_deletion_receipts initial) with
  | Some job, _ =>
      if negb (dj_owner_user_id job =s? ownerUserId) then (resource_not_found, k) else (Ok (publicJob job), close_desk false k)
  | None, Some receipt =>
      if negb (dr_owner_user_id receipt =s? ownerUserId) then (resource_not_found, k) else (Ok (publicReceipt receipt), close_desk true k)
  | None, None =>
    match find_row (has_vault_id vaultId) (db_vaults initial) with
    | None => (resource_not_found, k)
    | Some vault =>
      if negb (v_owner_user_id vault =s? ownerUserId) then (resource_not_found, k) else
      if k_closed k then (deletion_unavailable "Vault deletion lifecycle is unavailable.", k) else
      if negb (oeqb confirmation (Some (lit "DELETE " ++ vaultId)))
      then (Throw (AuthError 400 "invalid_deletion_confirmation" "Type the full vault deletion confirmation phrase." []), k)
      else
        let k := close_desk false k in
        let requestedAt := to_iso (w_now w 1) in
        match begin_tx ownerUserId vaultId requestedAt (k_db k) with
        | Throw e => (Throw e, k)
        | Ok (_, db) =>
          match write (o_accept o) db k with
          | (false, k) => (deletion_unavailable "Vault deletion could not be durably accepted.", k)
          | (true, k) => (Ok (mk_status vaultId false requestedAt None None None None), k)
          end
        end
    end
  end end end.

(** ** What requests are checked against *)

(** [isDurablyClosed], in [acquireAdmission]. *)
Definition isDurablyClosed (vaultId : jstring) (db : MetadataDb) : bool := hasDurableDeletionRecord db vaultId.

(** The read of [acquireDeviceLease]. *)
Definition device_lease_allowed (vaultId deviceId : jstring) (db : MetadataDb) : bool :=
  match find_row (λ candidate, (d_device_id candidate =s? deviceId) && (d_vault_id candidate =s? vaultId)) (db_devices db) with
  | None => false
  | Some device => negb (bool_decide (d_status device = DRevoked)) && is_null_or (d_revoked_at device) &&
      negb (existsb (λ job, rj_device_id job =s? deviceId) (db_device_removal_jobs db))
  end.

(** [checkedDeviceWork]: the token, when the request has one, and the rows. *)
Definition device_token_ok (now : Z) (vaultId userId deviceId tokenId : jstring) (db : MetadataDb) : bool :=
  match find_row (λ candidate, t_token_id candidate =s? tokenId) (db_tokens db) with
  | None => false
  | Some token =>
      bool_decide (t_kind token = TokDevice) && (t_user_id token =s? userId) && oeqb (t_vault_id token) (Some vaultId) &&
      oeqb (t_device_id token) (Some deviceId) && is_null_or (t_revoked_at token) && is_null_or (t_consumed_at token) &&
      match t_expires_at token with
      | None => true
      | Some at_ => match date_parse at_ with None => false | Some expires => negb (expires <=? now) end
      end
  end.

Definition checkedDeviceWork (now : Z) (vaultId userId deviceId : jstring) (tokenId : option jstring) (db : MetadataDb) : result unit :=
  let vault := find_row (has_vault_id vaultId) (db_vaults db) in
  let device := find_row (λ candidate, d_device_id candidate =s? deviceId) (db_devices db) in
  let user := find_row (λ candidate, u_user_id candidate =s? userId) (db_users db) in
  match match tokenId with None => true | Some tokenId => device_token_ok now vaultId userId deviceId tokenId db end, vault, device, user with
  | true, Some vault, Some device, Some user =>
      if u_disabled user || negb (v_owner_user_id vault =s? userId) ||
         negb (bool_decide (v_status vault = VActive) || bool_decide (v_status vault = VBlockedIntegrity)) ||
         negb (d_vault_id device =s? vaultId) || negb (d_user_id device =s? userId) ||
         bool_decide (d_status device = DRevoked) || negb (is_null_or (d_revoked_at device)) ||
         hasDurableDeletionRecord db vaultId
      then resource_not_found else Ok ()
  | _, _, _, _ => resource_not_found
  end.

(** [withOwnerVault]. *)
Definition withOwnerVault (userId vaultId : jstring) (db : MetadataDb) : result unit :=
  match find_row (λ candidate, has_vault_id vaultId candidate && (v_owner_user_id candidate =s? userId)) (db_vaults db) with
  | None => resource_not_found
  | Some _ => if hasDurableDeletionRecord db vaultId then vault_deleting else Ok ()
  end.

(** ** Laws *)

(** What a request that finds a job or a receipt answers. *)
Definition recorded (v : jstring) (db : MetadataDb) : option (jstring * VaultDeletionStatus) :=
  match find_row (is_job v) (db_deletion_jobs db), find_row (is_receipt v) (db_deletion_receipts db) with
  | Some job, _ => Some (dj_owner_user_id job, publicJob job)
  | None, Some receipt => Some (dr_owner_user_id receipt, publicReceipt receipt)
  | None, None => None
  end.

Lemma find_row_existsb {A} (f : A → bool) l x : find_row f l = Some x → existsb f l = true.
Proof. intros [Hl Hf]%find_row_Some. apply existsb_exists. exists x. by rewrite <- list_elem_of_In. Qed.

Lemma recorded_some v db x : recorded v db = Some x → hasDeletionJobOrReceipt db v = true.
Proof.
  unfold recorded, hasDeletionJobOrReceipt. destruct (find_row (is_job v) _) eqn:Ej; [by rewrite (find_row_existsb _ _ _ Ej)|].
  destruct (find_row (is_receipt v) _) eqn:Er; [|done]. intros _. rewrite (find_row_existsb _ _ _ Er). apply orb_true_r.
Qed.

Lemma recorded_durably v db : hasDeletionJobOrReceipt db v = true → hasDurableDeletionRecord db v = true.
Proof.
  unfold hasDeletionJobOrReceipt, hasDurableDeletionRecord, is_job, is_receipt. intros [H|H]%orb_true_iff; rewrite H; by rewrite ?orb_true_r.
Qed.

(** [getDeletion] answers from the record alone. *)
Lemma getDeletion_recorded owner v db st : owner ≠ [] → recorded v db = Some (owner, st) → getDeletion owner v db = Ok st.
Proof.
  intros Ho. destruct owner as [|x owner]; [by destruct Ho|]. set (me := x :: owner).
  assert (∀ answer : VaultDeletionStatus, (if negb (otruthy (Some me)) || negb (me =s? me)
    then Throw (AuthError 404 "not_found" "Resource not found." []) else Ok answer) = Ok answer) as E
    by (intros answer; rewrite jeqb_refl; reflexivity).
  unfold recorded, getDeletion. cbv zeta beta. destruct (find_row (is_job v) _) as [job|].
  - intros [= -> <-]. apply E.
  - destruct (find_row (is_receipt v) _) as [receipt|]; [|discriminate]. intros [= -> <-]. apply E.
Qed.

Lemma reconcile_rows_recorded os initial v rows : hasDeletionJobOrReceipt initial v = true → ∀ k, ∃ k',
  reconcile_rows os initial v rows k = (true, k') ∧ k_db k' = k_db k.
Proof.
  intros Hi. induction rows as [|vault rows IH]; intros k; [by exists k|]. cbn [reconcile_rows]. rewrite Hi.
  destruct (IH (close_desk false k)) as (k' & -> & Hk). by exists k'.
Qed.

(** A recorded deletion is answered without a write. *)
Lemma begin_recorded o owner v confirmation k st : existsb (expired (w_now w 0)) (db_deletion_receipts (k_db k)) = false →
  recorded v (k_db k) = Some (owner, st) →
  ∃ k', beginDeletion o owner v confirmation k = (Ok st, k') ∧ k_db k' = k_db k ∧ k_closing k' = true.
Proof.
  intros He Hr. unfold beginDeletion, expireReceipts. rewrite He. unfold reconcileDeletingVaultRows.
  destruct (reconcile_rows_recorded (o_reconcile o) (k_db k) v (List.filter (deleting_row v) (db_vaults (k_db k)))
    (recorded_some _ _ _ Hr) k) as (k1 & -> & E1). rewrite E1. unfold recorded in Hr.
  destruct (find_row (is_job v) _) as [job|] eqn:Ej.
  - injection Hr as <- <-. rewrite jeqb_refl. by exists (close_desk false k1).
  - destruct (find_row (is_receipt v) _) as [receipt|] eqn:Er; [|done]. injection Hr as <- <-. rewrite jeqb_refl.
    by exists (close_desk true k1).
Qed.

Lemma find_row_app_new {A} (f : A → bool) l x : find_row f l = None → f x = true → find_row f (l ++ [x]) = Some x.
Proof. unfold find_row. induction l as [|y l IH]; cbn; [by intros _ ->|]. destruct (f y); [done|]. apply IH. Qed.

Lemma begin_tx_jobs owner v at_ db db' : begin_tx owner v at_ db = Ok ((), db') →
  db_deletion_jobs db' = db_deletion_jobs db ++ [new_job v owner at_] ∧ db_deletion_receipts db' = db_deletion_receipts db.
Proof.
  unfold begin_tx. destruct (find_row _ _) as [vault|]; [|done]. destruct (negb _); [done|]. destruct (bool_decide _); [done|].
  by intros [= <-].
Qed.

Lemma recorded_commit v db : recorded v (commit w db) = recorded v db.
Proof. destruct (commit_fields w db) as (h & -> & _). done. Qed.

(** An answered request has a durable record of the answer. *)
Lemma begin_Ok o owner v confirmation k st k' : beginDeletion o owner v confirmation k = (Ok st, k') →
  recorded v (k_db k') = Some (owner, st) ∧ k_closing k' = true.
Proof.
  unfold beginDeletion. destruct (expireReceipts _ _) as [[] k1]; [|done].
  destruct (reconcileDeletingVaultRows _ _ k1) as [[] k2]; [|done].
  destruct (find_row (is_job v) _) as [job|] eqn:Ej.
  { destruct (jeqb_spec (dj_owner_user_id job) owner) as [<-|]; [|done]. intros [= <- <-]. split; [|done].
    unfold recorded. cbn. by rewrite Ej. }
  destruct (find_row (is_receipt v) _) as [receipt|] eqn:Er.
  { destruct (jeqb_spec (dr_owner_user_id receipt) owner) as [<-|]; [|done]. intros [= <- <-]. split; [|done].
    unfold recorded. cbn. by rewrite Ej, Er. }
  destruct (find_row (has_vault_id v) _) as [vault|]; [|done]. destruct (negb _); [done|]. destruct (k_closed k2); [done|].
  destruct (negb _); [done|]. destruct (begin_tx _ _ _ _) as [[[] db]|e] eqn:Eb; [|done].
  destruct (o_accept o); [|by destruct applied]. intros [= <- <-]. split; [|done].
  apply begin_tx_jobs in Eb as [Hj Hr]. change (k_db (close_desk false k2)) with (k_db k2) in Hj. cbn [k_db set_k_db write]. rewrite recorded_commit. unfold recorded. rewrite Hj.
  by rewrite (find_row_app_new _ _ (new_job v owner (to_iso (w_now w 1))) Ej (jeqb_refl v)).
Qed.

(** The devices and the tokens of the vault after an accepted request. *)
Definition revoked_all (v : jstring) (db : MetadataDb) : Prop :=
  (∀ device, device ∈ db_devices db → d_vault_id device = v → d_status device = DRevoked ∧ d_revoked_at device ≠ None) ∧
  (∀ token, token ∈ db_tokens db → t_vault_id token = Some v → t_revoked_at token ≠ None).

Lemma or_else_set value otherwise : or_else value otherwise ≠ None.
Proof. by destruct value. Qed.

Lemma revoke_vault_all v at_ db : revoked_all v (revoke_vault v at_ db).
Proof.
  split.
  - intros device (d & Hd & ->)%update_where_elem. destruct (jmem _ _) eqn:E.
    + intros _. cbn. split; [done|]. apply or_else_set.
    + intros Hv. apply not_true_iff_false in E. destruct E. apply jmem_elem. unfold device_ids. apply map_filter_elem; [done|].
      rewrite Hv. apply jeqb_refl.
  - intros token (t & Ht & ->)%update_where_elem. destruct (_ || _) eqn:E; [intros _; apply or_else_set|].
    intros Hv. apply orb_false_iff in E as [E _]. apply not_true_iff_false in E. destruct E. by apply oeqb_iff.
Qed.

Lemma commit_revoked_all v db : revoked_all v db → revoked_all v (commit w db).
Proof.
  destruct (commit_fields w db) as (h & -> & _). intros [Hd Ht]. split; [|done].
  intros device (d & Hin & ->)%update_where_elem Hv. destruct (needs_repair d) eqn:E; [|by apply Hd]. split; [done|]. apply (Hd d); done.
Qed.

Lemma begin_tx_revokes owner v at_ db db' : begin_tx owner v at_ db = Ok ((), db') → revoked_all v db'.
Proof.
  unfold begin_tx. destruct (find_row _ _) as [vault|]; [|done]. destruct (negb _); [done|]. destruct (bool_decide _); [done|].
  intros [= <-]. apply revoke_vault_all.
Qed.

Lemma reconcile_tx_revokes v at_ db : reconcile_tx v at_ db = db ∨ revoked_all v (reconcile_tx v at_ db).
Proof.
  unfold reconcile_tx. destruct (find_row _ _) as [vault|]; [|by left]. destruct (negb _); [by left|].
  destruct (hasDeletionJobOrReceipt db v); [by left|]. right. apply revoke_vault_all.
Qed.

Lemma revoked_no_lease v device db : revoked_all v db → device_lease_allowed v device db = false.
Proof.
  intros [Hd _]. unfold device_lease_allowed. destruct (find_row _ _) as [d|] eqn:E; [|done].
  apply find_row_Some in E as [Hin [_ Hv%jeqb_eq]%andb_true_iff]. destruct (Hd d Hin Hv) as [-> _]. by rewrite bool_decide_true.
Qed.

Lemma recorded_no_work now v user device token db : hasDurableDeletionRecord db v = true →
  checkedDeviceWork now v user device token db ≠ Ok ().
Proof.
  intros H. unfold checkedDeviceWork. rewrite H.
  do 4 (match goal with |- match ?x with _ => _ end ≠ _ => destruct x; try discriminate end).
  rewrite orb_true_r. discriminate.
Qed.

Lemma recorded_no_owner user v db : hasDurableDeletionRecord db v = true → withOwnerVault user v db ≠ Ok ().
Proof. intros H. unfold withOwnerVault. rewrite H. destruct (find_row _ _); discriminate. Qed.

(** Where a deletion is recorded, the devices and tokens of the vault are revoked. *)
Definition closed_down (v : jstring) (db : MetadataDb) : Prop := hasDeletionJobOrReceipt db v = true → revoked_all v db.

Lemma closed_down_commit v db : closed_down v db → closed_down v (commit w db).
Proof.
  intros H Hr. apply commit_revoked_all, H. by destruct (commit_fields w db) as (h & E & _); rewrite E in Hr.
Qed.

Lemma closed_down_write o v db k b k' : write o db k = (b, k') → closed_down v (k_db k) → closed_down v db → closed_down v (k_db k').
Proof. unfold write. intros E Hk Hd. destruct o as [|[]]; injection E as <- <-; try done; by apply closed_down_commit. Qed.

Lemma closed_down_expire v now db : closed_down v db → closed_down v (expire_tx now db).
Proof.
  intros H. unfold expire_tx. destruct (existsb _ _); [|done]. intros Hr. apply H. unfold hasDeletionJobOrReceipt in *.
  cbn in Hr. apply orb_true_iff in Hr as [->|Hr]; [done|]. apply orb_true_iff. right.
  apply existsb_exists in Hr as (x & [Hx _]%filter_In & Hv). apply existsb_exists. by exists x.
Qed.

Lemma closed_down_reconcile v at_ db : closed_down v db → closed_down v (reconcile_tx v at_ db).
Proof. intros H. destruct (reconcile_tx_revokes v at_ db) as [->|H']; [done|by intros _]. Qed.

Lemma closed_down_rows os initial v rows : ∀ k b k', reconcile_rows os initial v rows k = (b, k') →
  closed_down v (k_db k) → closed_down v (k_db k').
Proof.
  induction rows as [|vault rows IH]; intros k b k' E H; cbn [reconcile_rows] in E; [by injection E as <- <-|].
  destruct (hasDeletionJobOrReceipt initial v); [by apply (IH (close_desk false k) b)|].
  destruct (write _ _ _) as [c k1] eqn:Ew. apply (closed_down_write _ v) in Ew; [|done|by apply closed_down_reconcile].
  destruct c; [by apply (IH k1 b)|by injection E as <- <-].
Qed.

Lemma closed_down_begin o owner v confirmation k : closed_down v (k_db k) →
  closed_down v (k_db (beginDeletion o owner v confirmation k).2).
Proof.
  intros H. unfold beginDeletion. destruct (expireReceipts _ k) as [b1 k1] eqn:E1.
  assert (closed_down v (k_db k1)) as H1.
  { unfold expireReceipts in E1. destruct (existsb _ _); [|by injection E1 as <- <-].
    apply (closed_down_write _ v _ _ _ _ E1 H). by apply closed_down_expire. }
  destruct b1; [|done]. destruct (reconcileDeletingVaultRows _ _ k1) as [b2 k2] eqn:E2. apply closed_down_rows in E2; [|done].
  destruct b2; [|done].
  destruct (find_row (is_job v) _); [by destruct (negb _)|]. destruct (find_row (is_receipt v) _); [by destruct (negb _)|].
  destruct (find_row _ _); [|done]. destruct (negb _); [done|]. destruct (k_closed k2); [done|]. destruct (negb _); [done|].
  destruct (begin_tx _ _ _ _) as [[[] db]|e] eqn:Eb; [|done].
  destruct (write _ _ _) as [b3 k3] eqn:E3. assert (closed_down v (k_db k3)) as H3.
  { apply (closed_down_write _ v _ _ _ _ E3 E2). intros _. by apply begin_tx_revokes in Eb. }
  by destruct b3.
Qed.

(** [C40] An answered deletion request stops all work on the vault. Whatever failed
    and however often a deletion was asked for before, when the owner is answered the
    document holds a durable record of the deletion, so that no admission is given
    for the vault, its owner's requests and its devices' checked work are refused, no
    device of the vault gets a lease, and the tokens bound to the vault are revoked. *)
Theorem answered_deletion_stops_work (o : writes) (owner v : jstring) (confirmation : option jstring) (k k' : desk)
    (st : VaultDeletionStatus) :
  closed_down v (k_db k) → beginDeletion o owner v confirmation k = (Ok st, k') →
  k_closing k' = true ∧ isDurablyClosed v (k_db k') = true ∧
  (∀ user, withOwnerVault user v (k_db k') ≠ Ok ()) ∧
  (∀ now user device token, checkedDeviceWork now v user device token (k_db k') ≠ Ok ()) ∧
  (∀ device, device_lease_allowed v device (k_db k') = false) ∧
  (∀ token, token ∈ db_tokens (k_db k') → t_vault_id token = Some v → t_revoked_at token ≠ None).
Proof.
  intros Hc Hb. pose proof (closed_down_begin o owner v confirmation k Hc) as Hc'. rewrite Hb in Hc'. cbn in Hc'.
  apply begin_Ok in Hb as [Hr Hcl]. apply recorded_some in Hr. pose proof (Hc' Hr) as Hrev. apply recorded_durably in Hr.
  split_and!; [done|done| | | |].
  - intros user. by apply recorded_no_owner.
  - intros now user device token. by apply recorded_no_work.
  - intros device. by apply revoked_no_lease.
  - apply Hrev.
Qed.

(** Asking again changes nothing. After a deletion request was answered, the
    same owner's request gets the same answer, without the confirmation phrase, writes
    nothing, and agrees with what [getDeletion] says; the durable writes that failed in
    the first request do not matter. *)
Theorem deletion_request_idempotent (o o' : writes) (owner v : jstring) (confirmation confirmation' : option jstring)
    (k k' : desk) (st : VaultDeletionStatus) :
  owner ≠ [] → beginDeletion o owner v confirmation k = (Ok st, k') →
  existsb (expired (w_now w 0)) (db_deletion_receipts (k_db k')) = false →
  getDeletion owner v (k_db k') = Ok st ∧
  ∃ k'', beginDeletion o' owner v confirmation' k' = (Ok st, k'') ∧ k_db k'' = k_db k' ∧ k_closing k'' = true.
Proof.
  intros Ho Hb He. apply begin_Ok in Hb as [Hr _]. split; [by apply getDeletion_recorded|]. by apply begin_recorded.
Qed.

End requests.

(** ** A deletion whose first acceptance fails after it was written *)

Definition all_done : writes := mk_writes TxDone (λ _, TxDone) TxDone.
Definition accept_lost : writes := mk_writes TxDone (λ _, TxDone) (TxFailed true).

Definition desk_1 : desk := (beginDeletion sample_world accept_lost "usr_1" "vlt_1" (Some (lit "DELETE vlt_1")) (mk_desk sample_db false false)).2.

Lemma deletion_request_idempotent_witness :
  ∃ st k', beginDeletion sample_world all_done "usr_1" "vlt_1" None desk_1 = (Ok st, k') ∧
    getDeletion "usr_1" "vlt_1" (k_db k') = Ok st.
Proof.
  destruct (beginDeletion sample_world all_done (lit "usr_1") (lit "vlt_1") None desk_1) as [[st|e] k'] eqn:E;
    [|vm_compute in E; discriminate E].
  exists st, k'. split; [reflexivity|].
  refine (proj1 (deletion_request_idempotent sample_world all_done all_done (lit "usr_1") (lit "vlt_1") None None desk_1 k' st _ E _)).
  - discriminate.
  - vm_compute in E. injection E as _ <-. vm_compute. reflexivity.
Defined.

Lemma answered_deletion_stops_work_witness :
  ∃ st k', beginDeletion sample_world all_done "usr_1" "vlt_1" (Some (lit "DELETE vlt_1")) (mk_desk sample_db false false) = (Ok st, k') ∧
    ∀ device, device_lease_allowed "vlt_1" device (k_db k') = false.
Proof.
  destruct (beginDeletion sample_world all_done (lit "usr_1") (lit "vlt_1") (Some (lit "DELETE vlt_1")) (mk_desk sample_db false false))
    as [[st|e] k'] eqn:E; [|vm_compute in E; discriminate E].
  exists st, k'. split; [reflexivity|].
  destruct (answered_deletion_stops_work sample_world all_done (lit "usr_1") (lit "vlt_1") (Some (lit "DELETE vlt_1"))
    (mk_desk sample_db false false) k' st) as (_ & _ & _ & _ & H & _); [|exact E|exact H].
  intros H. vm_compute in H. discriminate H.
Defined.
