(* ===== verification/Barriers.v ===== *)
(** * Admissions and barriers (src/server/vaultLifecycleCoordinator.ts)

    Requests hold an admission to the vault they work on, and device work holds a
    lease; a deletion closes the vault's barrier and waits until every admission is
    released before it erases anything. A step is the code between two awaits;
    steps of requests, workers and other services interleave freely. *)

From S2P Require Export VaultDeletion.

Local Open Scope Z_scope.

(** ** Vault barriers *)

(** Where the deletion worker of a vault is: at the head of its loop, before the
    drain, awaiting the drain, woken, or erasing. *)
Inductive worker := AtTop | BeforeDrain | Waiting | Awake | Erasing.

#[export] Instance worker_eq_dec : EqDecision worker.
Proof. solve_decision. Defined.

(** [b_release_drain] tells whether a drain promise is to be resolved. *)
Record barrier := mk_barrier {
  b_active : Z;
  b_closing : bool;
  b_closed : bool;
  b_release_drain : bool;
  b_worker : option worker
}.
Definition new_barrier : barrier := mk_barrier 0 false false false None.

Definition set_active (n : Z) (b : barrier) : barrier := mk_barrier n (b_closing b) (b_closed b) (b_release_drain b) (b_worker b).
Definition set_closing (closing closed : bool) (b : barrier) : barrier :=
  mk_barrier (b_active b) closing closed (b_release_drain b) (b_worker b).
Definition set_worker (r : bool) (p : option worker) (b : barrier) : barrier :=
  mk_barrier (b_active b) (b_closing b) (b_closed b) r p.

(** A call of [acquireAdmission] that passed its first test: the durable state is
    being read, or has been read as open or closed. *)
Inductive reading := Asked | Answered (durablyClosed : bool).

(** [asking] are those calls, [admitted] the admissions not released; both carry
    the number of the call. *)
Record coordinator := mk_coordinator {
  barriers : jmap barrier;
  asking : list (nat * jstring * reading);
  admitted : list (nat * jstring);
  calls : nat;
  stopping : bool;
  db : MetadataDb
}.

Definition barrier_of (v : jstring) (c : coordinator) : barrier := default new_barrier (mget (barriers c) v).
Definition on_barrier (v : jstring) (f : barrier → barrier) (c : coordinator) : coordinator :=
  mk_coordinator (mset (barriers c) v (f (barrier_of v c))) (asking c) (admitted c) (calls c) (stopping c) (db c).
Definition set_requests (a : list (nat * jstring * reading)) (l : list (nat * jstring)) (c : coordinator) : coordinator :=
  mk_coordinator (barriers c) a l (calls c) (stopping c) (db c).
Definition set_db (d : MetadataDb) (c : coordinator) : coordinator :=
  mk_coordinator (barriers c) (asking c) (admitted c) (calls c) (stopping c) d.

Definition isBlocked (v : jstring) (c : coordinator) : bool := b_closing (barrier_of v c).
Definition isDeleting (v : jstring) (c : coordinator) : bool := b_closing (barrier_of v c) && negb (b_closed (barrier_of v c)).
Definition activeAdmissionCount (v : jstring) (c : coordinator) : Z := b_active (barrier_of v c).

(** [restoreDurableBarriers]. *)
Definition restoreDurableBarriers (c : coordinator) : coordinator :=
  let d := db c in
  let c := fold_left (λ c vault,
      if hasDurableDeletionRecord d (v_vault_id vault)
      then on_barrier (v_vault_id vault) (set_closing true (existsb (is_receipt (v_vault_id vault)) (db_deletion_receipts d))) c
      else c) (db_vaults d) c in
  let c := fold_left (λ c job, on_barrier (dj_vault_id job) (set_closing true false) c) (db_deletion_jobs d) c in
  fold_left (λ c receipt, on_barrier (dr_vault_id receipt) (set_closing true true) c) (db_deletion_receipts d) c.

Definition startup (d : MetadataDb) : coordinator := restoreDurableBarriers (mk_coordinator [] [] [] 0 false d).

(** [acquireAdmission]: the first test, the durable read, the second test. *)
Definition refuses (v : jstring) (c : coordinator) : bool := b_closing (barrier_of v c) || b_closed (barrier_of v c).

Definition ask (v : jstring) (c : coordinator) : coordinator :=
  let c := on_barrier v id c in
  if refuses v c then c
  else mk_coordinator (barriers c) (asking c ++ [(calls c, v, Asked)]) (admitted c) (S (calls c)) (stopping c) (db c).

Definition without (id : nat) (l : list (nat * jstring * reading)) : list (nat * jstring * reading) :=
  List.filter (λ r, negb (r.1.1 =? id)%nat) l.

Definition answer (id : nat) (v : jstring) (c : coordinator) : coordinator :=
  set_requests (without id (asking c) ++ [(id, v, Answered (hasDurableDeletionRecord (db c) v))]) (admitted c) c.

Definition admit_call (id : nat) (v : jstring) (durablyClosed : bool) (c : coordinator) : coordinator :=
  let c := set_requests (without id (asking c)) (admitted c) c in
  if durablyClosed || refuses v c then c
  else set_requests (asking c) (admitted c ++ [(id, v)]) (on_barrier v (λ b, set_active (b_active b + 1) b) c).

(** The admission's [release]. *)
Definition release_barrier (b : barrier) : barrier :=
  let b := set_active (b_active b - 1) b in
  if (b_active b =? 0) && b_release_drain b
  then set_worker false (match b_worker b with Some Waiting => Some Awake | p => p end) b
  else b.
Definition release (id : nat) (v : jstring) (c : coordinator) : coordinator :=
  let c := set_requests (asking c) (List.filter (λ a, negb (a.1 =? id)%nat) (admitted c)) c in
  on_barrier v release_barrier c.

(** [startWorker]. *)
Definition startWorker (v : jstring) (c : coordinator) : coordinator :=
  match b_worker (barrier_of v c) with
  | Some _ => c
  | None => if stopping c then c else on_barrier v (set_worker (b_release_drain (barrier_of v c)) (Some AtTop)) c
  end.

(** The head of [runWorker]: the job is there, or the deletion is over. *)
Definition worker_top (v : jstring) (c : coordinator) : coordinator :=
  if existsb (is_job v) (db_deletion_jobs (db c))
  then on_barrier v (λ b, set_worker (b_release_drain b) (Some BeforeDrain) b) c
  else on_barrier v (λ b, set_closing true true (set_worker (b_release_drain b) None b)) c.

(** [waitForDrain]. *)
Definition waitForDrain (b : barrier) : barrier :=
  if b_active b =? 0 then set_worker (b_release_drain b) (Some Erasing) b else set_worker true (Some Waiting) b.

(** ** Interleavings *)

Inductive moves : coordinator → coordinator → Prop :=
| step_ask c v : moves c (ask v c)
| step_answer c id v : (id, v, Asked) ∈ asking c → moves c (answer id v c)
| step_admit c id v closed : (id, v, Answered closed) ∈ asking c → moves c (admit_call id v closed c)
| step_release c id v : (id, v) ∈ admitted c → moves c (release id v c)
| (* another service, or a phase change of a job *)
  step_other c d : map dj_vault_id (db_deletion_jobs d) = map dj_vault_id (db_deletion_jobs (db c)) → moves c (set_db d c)
| (* [beginDeletion] and [reconcileDeletingVaultRows] close the barrier before they
     write the job *)
  step_close c v : moves c (on_barrier v (set_closing true false) c)
| step_accept c v d : b_closing (barrier_of v c) = true →
    map dj_vault_id (db_deletion_jobs d) = map dj_vault_id (db_deletion_jobs (db c)) ++ [v] → moves c (set_db d c)
| step_start c v : moves c (startWorker v c)
| step_top c v : b_worker (barrier_of v c) = Some AtTop → moves c (worker_top v c)
| (* an error before the drain *)
  step_retry c v p : b_worker (barrier_of v c) = Some p → p = BeforeDrain ∨ p = Erasing →
    moves c (on_barrier v (λ b, set_worker (b_release_drain b) (Some AtTop) b) c)
| step_drain c v : b_worker (barrier_of v c) = Some BeforeDrain → moves c (on_barrier v waitForDrain c)
| step_wake c v : b_worker (barrier_of v c) = Some Awake →
    moves c (on_barrier v (λ b, set_worker (b_release_drain b) (Some Erasing) b) c)
| (* the finalizing transaction, and the end of the worker *)
  step_finalize c v d : b_worker (barrier_of v c) = Some Erasing →
    map dj_vault_id (db_deletion_jobs d) = List.filter (λ u, negb (u =s? v)) (map dj_vault_id (db_deletion_jobs (db c))) →
    moves c (on_barrier v (λ b, set_closing true true (set_worker (b_release_drain b) None b)) (set_db d c))
| step_stop c : moves c (mk_coordinator (barriers c) (asking c) (admitted c) (calls c) true (db c)).

(** ** The invariant *)

Definition leases (v : jstring) (c : coordinator) : list (nat * jstring) := List.filter (λ a, a.2 =s? v) (admitted c).

Record sound (c : coordinator) : Prop := {
  s_count v : b_active (barrier_of v c) = Z.of_nat (length (leases v c));
  s_ids : NoDup (map fst (admitted c) ++ map (λ r, r.1.1) (asking c));
  s_calls : Forall (λ id, (id < calls c)%nat) (map fst (admitted c) ++ map (λ r, r.1.1) (asking c));
  s_jobs v : v ∈ map dj_vault_id (db_deletion_jobs (db c)) → b_closing (barrier_of v c) = true;
  s_worker v p : b_worker (barrier_of v c) = Some p → p ≠ AtTop → b_closing (barrier_of v c) = true;
  s_waiting v : b_worker (barrier_of v c) = Some Waiting ↔ b_release_drain (barrier_of v c) = true;
  s_busy v : b_worker (barrier_of v c) = Some Waiting → 0 < b_active (barrier_of v c);
  s_idle v : b_worker (barrier_of v c) = Some Awake ∨ b_worker (barrier_of v c) = Some Erasing → b_active (barrier_of v c) = 0
}.

Lemma barrier_on v u f c : barrier_of u (on_barrier v f c) = if v =s? u then f (barrier_of v c) else barrier_of u c.
Proof.
  unfold barrier_of, on_barrier. cbn. rewrite mget_mset. destruct (v =s? u) eqn:E; [|done]. by apply jeqb_eq in E as ->.
Qed.

(** A step that changes one barrier, and neither the admissions nor the jobs. *)
Lemma sound_on c v f : sound c →
  b_active (f (barrier_of v c)) = b_active (barrier_of v c) →
  (b_closing (barrier_of v c) = true → b_closing (f (barrier_of v c)) = true) →
  (∀ p, b_worker (f (barrier_of v c)) = Some p → p ≠ AtTop → b_closing (f (barrier_of v c)) = true) →
  (b_worker (f (barrier_of v c)) = Some Waiting ↔ b_release_drain (f (barrier_of v c)) = true) →
  (b_worker (f (barrier_of v c)) = Some Waiting → 0 < b_active (barrier_of v c)) →
  (b_worker (f (barrier_of v c)) = Some Awake ∨ b_worker (f (barrier_of v c)) = Some Erasing → b_active (barrier_of v c) = 0) →
  sound (on_barrier v f c).
Proof.
  intros [H1 H2 H3 H4 H5 H6 H7 H8] Ha Hc Hw Hd Hb Hi.
  split; [|done|done| | | | |]; intros u; rewrite barrier_on; destruct (jeqb_spec v u) as [<-|Hne]; rewrite ?Ha; auto;
    first [apply H1 | intros Hj; apply Hc, (H4 v Hj) | apply H4 | apply H5 | apply H6 | apply H7 | apply H8].
Qed.

(** A step that changes the document but no barrier. *)
Lemma sound_db c d : sound c →
  (∀ v, v ∈ map dj_vault_id (db_deletion_jobs d) → b_closing (barrier_of v c) = true) → sound (set_db d c).
Proof. intros [H1 H2 H3 H4 H5 H6 H7 H8] Hd. by split. Qed.

Lemma without_perm id v r l : NoDup (map (λ r : nat * jstring * reading, r.1.1) l) → (id, v, r) ∈ l →
  map (λ r, r.1.1) l ≡ₚ id :: map (λ r, r.1.1) (without id l).
Proof.
  unfold without. induction l as [|x l IH]; cbn [map]; intros Hnd Hx; [by apply not_elem_of_nil in Hx|].
  apply NoDup_cons in Hnd as [Hy Hnd]. cbn [List.filter]. apply elem_of_cons in Hx as [<-|Hx].
  - cbn [fst]. rewrite Nat.eqb_refl. cbn [negb]. rewrite filter_all; [done|].
    intros y Hyl. apply negb_true_iff, Nat.eqb_neq. intros E. apply Hy. cbn. rewrite <- E.
    by apply (list_elem_of_fmap_2 (λ r : nat * jstring * reading, r.1.1)).
  - destruct (x.1.1 =? id)%nat eqn:E; cbn [negb map].
    + apply Nat.eqb_eq in E. destruct Hy. rewrite E. by apply (list_elem_of_fmap_2 (λ r : nat * jstring * reading, r.1.1) _ (id, v, r)).
    + rewrite (IH Hnd Hx) at 1. constructor.
Qed.

(** The calls under way. *)
Definition ids (c : coordinator) : list nat := map fst (admitted c) ++ map (λ r, r.1.1) (asking c).

(** Changes of the requests that leave the barriers alone. *)
Lemma sound_requests c a l n : sound c → (∀ v, List.filter (λ x, x.2 =s? v) l = leases v c) →
  NoDup (map fst l ++ map (λ r, r.1.1) a) → Forall (λ id, (id < n)%nat) (map fst l ++ map (λ r, r.1.1) a) →
  sound (mk_coordinator (barriers c) a l n (stopping c) (db c)).
Proof.
  intros [H1 H2 H3 H4 H5 H6 H7 H8] Hl Hnd Hids. split; try done. intros v. unfold leases. cbn. rewrite Hl. apply H1.
Qed.

Lemma sound_same v c : sound c → sound (on_barrier v id c).
Proof. intros Hc. pose proof Hc as [H1 H2 H3 H4 H5 H6 H7 H8]. apply sound_on; [done|done|done|apply H5|apply H6|apply H7|apply H8]. Qed.

Lemma sound_ask v c : sound c → sound (ask v c).
Proof.
  intros Hc. apply (sound_same v) in Hc. unfold ask. destruct (refuses v (on_barrier v id c)); [done|].
  set (c1 := on_barrier v id c) in *. apply sound_requests; [done|done| |]; rewrite map_app, app_assoc; cbn.
  - apply NoDup_app. split; [apply (s_ids _ Hc)|]. split; [|apply NoDup_singleton].
    intros x Hx ->%list_elem_of_singleton. pose proof (s_calls _ Hc) as H. rewrite Forall_forall in H. apply H in Hx. cbn in Hx. lia.
  - apply Forall_app. split; [|repeat constructor]. eapply Forall_impl; [apply (s_calls _ Hc)|]. cbn. lia.
Qed.

Lemma ids_without id v r c : sound c → (id, v, r) ∈ asking c →
  map fst (admitted c) ++ map (λ r, r.1.1) (asking c) ≡ₚ id :: map fst (admitted c) ++ map (λ r, r.1.1) (without id (asking c)).
Proof.
  intros Hc Hin. pose proof (s_ids _ Hc) as Hnd. apply NoDup_app in Hnd as (_ & _ & Hnd).
  rewrite (without_perm id v r _ Hnd Hin). by rewrite Permutation_middle.
Qed.

Lemma sound_answer id v c : sound c → (id, v, Asked) ∈ asking c → sound (answer id v c).
Proof.
  intros Hc Hin. pose proof (ids_without id v Asked c Hc Hin) as Hp. unfold answer, set_requests.
  assert (map fst (admitted c) ++ map (λ r, r.1.1) (without id (asking c) ++ [(id, v, Answered (hasDurableDeletionRecord (db c) v))])
    ≡ₚ map fst (admitted c) ++ map (λ r, r.1.1) (asking c)) as Hp'.
  { rewrite Hp, map_app, app_assoc. cbn. by rewrite <- Permutation_cons_append. }
  apply sound_requests; [done|done| |]; rewrite Hp'; [apply (s_ids _ Hc)|apply (s_calls _ Hc)].
Qed.

Lemma sound_admit id v d c : sound c → (id, v, Answered d) ∈ asking c → sound (admit_call id v d c).
Proof.
  intros Hc Hin. pose proof (ids_without id v _ c Hc Hin) as Hp. unfold admit_call.
  pose proof (s_ids _ Hc) as Hnd. pose proof (s_calls _ Hc) as Hcalls. rewrite Hp in Hnd, Hcalls.
  apply NoDup_cons in Hnd as Hnd'. destruct Hnd' as [Hid Hnd']. apply Forall_cons in Hcalls as Hcalls'. destruct Hcalls' as [Hlt Hcalls'].
  assert (sound (set_requests (without id (asking c)) (admitted c) c)) as H0 by (by apply sound_requests).
  destruct (d || refuses v _) eqn:E; [done|]. apply orb_false_iff in E as [_ E]. set (c0 := set_requests _ _ c) in *.
  unfold refuses in E. apply orb_false_iff in E as [Eclosing Eclosed].
  destruct H0 as [H1 H2 H3 H4 H5 H6 H7 H8].
  assert (b_worker (barrier_of v c0) ≠ Some Waiting) as Hw.
  { intros Hw. apply H5 in Hw; [|done]. by rewrite Eclosing in Hw. }
  assert (b_worker (barrier_of v c0) ≠ Some Awake ∧ b_worker (barrier_of v c0) ≠ Some Erasing) as [Hw1 Hw2].
  { split; intros Hw'; apply H5 in Hw'; try done; by rewrite Eclosing in Hw'. }
  set (g := λ b, set_active (b_active b + 1) b).
  assert (∀ u, barrier_of u (set_requests (asking c0) (admitted c0 ++ [(id, v)]) (on_barrier v g c0))
    = if v =s? u then g (barrier_of v c0) else barrier_of u c0) as Hb by (intros u; apply barrier_on).
  split; [| | |intros u; rewrite Hb..].
  - intros u. rewrite Hb. unfold leases. cbn [admitted set_requests]. rewrite List.filter_app, length_app. cbn [List.filter snd].
    specialize (H1 u). unfold leases in H1.
    destruct (jeqb_spec v u) as [<-|Hne]; cbn [length]; [|lia]. unfold g. cbn [b_active set_active]. lia.
  - cbn. rewrite map_app, <- app_assoc. cbn. by rewrite <- Permutation_middle.
  - cbn. rewrite map_app, <- app_assoc. cbn. by rewrite <- Permutation_middle.
  - intros Hj. specialize (H4 u Hj). destruct (jeqb_spec v u) as [<-|]; done.
  - intros p Hp1 Hp2. destruct (jeqb_spec v u) as [<-|]; [by apply (H5 v p)|by apply (H5 u p)].
  - destruct (jeqb_spec v u) as [<-|]; [apply (H6 v)|apply (H6 u)].
  - destruct (jeqb_spec v u) as [<-|]; [done|apply (H7 u)].
  - destruct (jeqb_spec v u) as [<-|]; [by intros []|apply (H8 u)].
Qed.

Lemma leases_remove id v l : NoDup (map fst l) → (id, v) ∈ l → ∀ u,
  length (List.filter (λ a : nat * jstring, a.2 =s? u) l) =
  ((if v =s? u then 1 else 0) + length (List.filter (λ a, a.2 =s? u) (List.filter (λ a, negb (a.1 =? id)%nat) l)))%nat.
Proof.
  intros Hnd Hin u. induction l as [|x l IH]; [by apply not_elem_of_nil in Hin|]. cbn [map] in Hnd. apply NoDup_cons in Hnd as [Hx Hnd].
  apply elem_of_cons in Hin as [<-|Hin].
  - cbn [List.filter fst]. rewrite Nat.eqb_refl. cbn [negb snd]. rewrite (filter_all (λ a : nat * jstring, negb (a.1 =? id)%nat)).
    + by destruct (v =s? u).
    + intros y Hy. apply negb_true_iff, Nat.eqb_neq. intros E. apply Hx. cbn. rewrite <- E. by apply list_elem_of_fmap_2.
  - cbn [List.filter]. assert (x.1 ≠ id) as Hne.
    { intros E. apply Hx. rewrite E. by apply (list_elem_of_fmap_2 fst _ (id, v)). }
    rewrite (proj2 (Nat.eqb_neq _ _) Hne). cbn [negb List.filter]. specialize (IH Hnd Hin).
    destruct (x.2 =s? u); cbn [length]; lia.
Qed.

Lemma sound_release id v c : sound c → (id, v) ∈ admitted c → sound (release id v c).
Proof.
  intros Hc Hin. destruct Hc as [H1 H2 H3 H4 H5 H6 H7 H8].
  assert (NoDup (map fst (admitted c))) as Hnd by (apply NoDup_app in H2; tauto).
  set (left := List.filter (λ a : nat * jstring, negb (a.1 =? id)%nat) (admitted c)).
  assert (∀ x, x ∈ map fst left → x ∈ map fst (admitted c)) as Hsub.
  { intros x (y & -> & [Hy _]%filter_elem)%list_elem_of_fmap. by apply list_elem_of_fmap_2. }
  assert (∀ u, barrier_of u (release id v c) = if v =s? u then release_barrier (barrier_of v c) else barrier_of u c) as Hb
    by (intros u; unfold release; by rewrite barrier_on).
  assert (b_active (release_barrier (barrier_of v c)) = b_active (barrier_of v c) - 1) as Hact.
  { unfold release_barrier. by destruct (_ && _). }
  assert (b_closing (release_barrier (barrier_of v c)) = b_closing (barrier_of v c)) as Hclo.
  { unfold release_barrier. by destruct (_ && _). }
  assert (0 < b_active (barrier_of v c)) as Hpos.
  { rewrite H1. unfold leases. rewrite (leases_remove id v (admitted c) Hnd Hin v), jeqb_refl. lia. }
  split; [| | |intros u; rewrite Hb..].
  - intros u. rewrite Hb. unfold leases. cbn [admitted release on_barrier set_requests]. fold left.
    pose proof (leases_remove id v (admitted c) Hnd Hin u) as Hl. fold left in Hl. specialize (H1 u). unfold leases in H1.
    destruct (jeqb_spec v u) as [<-|Hne]; [rewrite Hact|]; lia.
  - cbn. fold left. apply NoDup_app in H2 as (N1 & N2 & N3). apply NoDup_app. split_and!; [|by intros x Hx%Hsub; apply N2|done].
    eapply sublist_NoDup; [exact N1|]. apply (fmap_sublist fst). unfold left. clear.
    induction (admitted c) as [|x l IH]; cbn; [done|]. destruct (negb _); by constructor.
  - cbn. fold left. apply Forall_app in H3 as [F1 F2]. apply Forall_app. split; [|done].
    rewrite Forall_forall in F1 |- *. intros x Hx%Hsub. by apply F1.
  - intros Hj. specialize (H4 u Hj). destruct (jeqb_spec v u) as [<-|]; [by rewrite Hclo|done].
  - intros p Hp1 Hp2. destruct (jeqb_spec v u) as [<-|]; [|by apply (H5 u p)]. rewrite Hclo.
    unfold release_barrier in Hp1. destruct (_ && _) eqn:E; [|by apply (H5 v p)]. cbn in Hp1.
    apply andb_true_iff in E as [_ E]. apply H6 in E. by apply (H5 v _ E).
  - destruct (jeqb_spec v u) as [<-|]; [|apply (H6 u)]. specialize (H6 v). unfold release_barrier.
    destruct (_ && _) eqn:E; [|done]. cbn. split; [|done]. by destruct (b_worker (barrier_of v c)) as [[]|].
  - destruct (jeqb_spec v u) as [<-|]; [|apply (H7 u)]. rewrite Hact. unfold release_barrier. cbn [b_active set_active].
    destruct (b_active (barrier_of v c) - 1 =? 0) eqn:E0; cbn [andb].
    + cbn [b_release_drain set_active]. destruct (b_release_drain (barrier_of v c)) eqn:Er; cbn.
      * by destruct (b_worker (barrier_of v c)) as [[]|].
      * intros Hw%H6. congruence.
    + intros _. apply Z.eqb_neq in E0. lia.
  - destruct (jeqb_spec v u) as [<-|]; [|apply (H8 u)]. rewrite Hact. unfold release_barrier. cbn [b_active set_active].
    destruct (_ && _) eqn:E; cbn.
    + apply andb_true_iff in E as [E _]. apply Z.eqb_eq in E. done.
    + intros Hw. apply H8 in Hw. lia.
Qed.

(** *** Startup *)

(** No requests and no workers yet; some barriers are closing. *)
Record quiet (c : coordinator) : Prop := {
  q_asking : asking c = [];
  q_admitted : admitted c = [];
  q_barrier v : b_active (barrier_of v c) = 0 ∧ b_release_drain (barrier_of v c) = false ∧ b_worker (barrier_of v c) = None
}.

(** Closing barriers: what is closed stays closing, what is named is closing. *)
Lemma quiet_close {A} (key : A → jstring) (closed : A → bool) (test : A → bool) (l : list A) : ∀ c, quiet c →
  let c' := fold_left (λ c x, if test x then on_barrier (key x) (set_closing true (closed x)) c else c) l c in
  quiet c' ∧ db c' = db c ∧
  (∀ v, b_closing (barrier_of v c) = true → b_closing (barrier_of v c') = true) ∧
  (∀ x, x ∈ l → test x = true → b_closing (barrier_of (key x) c') = true).
Proof.
  induction l as [|x l IH]; intros c Hc; [by split_and!; [| | |intros x Hx; by apply not_elem_of_nil in Hx]|].
  cbn [fold_left]. destruct (test x) eqn:E.
  - set (c1 := on_barrier (key x) (set_closing true (closed x)) c).
    assert (∀ v, barrier_of v c1 = if key x =s? v then set_closing true (closed x) (barrier_of (key x) c) else barrier_of v c) as Hb
      by (intros v; apply barrier_on).
    assert (quiet c1) as Hc1.
    { destruct Hc as [Q1 Q2 Q3]. split; [done|done|]. intros v. rewrite Hb. destruct (key x =s? v); [|apply Q3].
      destruct (Q3 (key x)) as (? & ? & ?). done. }
    destruct (IH c1 Hc1) as (I1 & I2 & I3 & I4). split_and!; [done|done| |].
    + intros v Hv. apply I3. rewrite Hb. by destruct (key x =s? v).
    + intros y [->|Hy]%elem_of_cons Hty; [|by apply I4]. apply I3. by rewrite Hb, jeqb_refl.
  - destruct (IH c Hc) as (I1 & I2 & I3 & I4). split_and!; [done|done|done|].
    intros y [->|Hy]%elem_of_cons Hty; [by rewrite E in Hty|by apply I4].
Qed.

Lemma sound_startup d : sound (startup d).
Proof.
  unfold startup, restoreDurableBarriers. cbn [db].
  set (c0 := mk_coordinator [] [] [] 0 false d). assert (quiet c0) as H0 by (by split).
  destruct (quiet_close v_vault_id (λ vault, existsb (is_receipt (v_vault_id vault)) (db_deletion_receipts d))
    (λ vault, hasDurableDeletionRecord d (v_vault_id vault)) (db_vaults d) c0 H0) as (Q1 & D1 & _ & _).
  set (c1 := fold_left _ (db_vaults d) c0) in *.
  destruct (quiet_close dj_vault_id (λ _, false) (λ _, true) (db_deletion_jobs d) c1 Q1) as (Q2 & D2 & _ & J2). cbv beta iota in Q2, D2, J2.
  set (c2 := fold_left _ (db_deletion_jobs d) c1) in *.
  destruct (quiet_close dr_vault_id (λ _, true) (λ _, true) (db_deletion_receipts d) c2 Q2) as (Q3 & D3 & M3 & _). cbv beta iota in Q3, D3, M3.
  set (c3 := fold_left _ (db_deletion_receipts d) c2) in *. destruct Q3 as [E1 E2 E3].
  split; rewrite ?E1, ?E2; try constructor.
  - intros v. unfold leases. rewrite E2. by destruct (E3 v).
  - intros v Hv. rewrite D3, D2, D1 in Hv. cbn in Hv. apply M3. apply list_elem_of_fmap in Hv as (job & -> & Hin). by apply J2.
  - intros v p Hp. destruct (E3 v) as (_ & _ & Hw). by rewrite Hw in Hp.
  - destruct (E3 v) as (_ & -> & ->). done.
  - destruct (E3 v) as (_ & -> & ->). done.
  - intros v Hp. destruct (E3 v) as (_ & _ & Hw). by rewrite Hw in Hp.
  - intros v Hp. destruct (E3 v) as (_ & _ & Hw). rewrite Hw in Hp. by destruct Hp.
Qed.

(** *** Every step *)

Lemma sound_moves c c' : sound c → moves c c' → sound c'.
Proof.
  intros Hc Hm. pose proof Hc as [H1 H2 H3 H4 H5 H6 H7 H8].
  destruct Hm as [c v|c id v Hin|c id v closed Hin|c id v Hin|c d Hd|c v|c v d Hcl Hd|c v|c v Hw|c v p Hw Hp|c v Hw|c v Hw|c v d Hw Hd|c].
  - by apply sound_ask.
  - by apply sound_answer.
  - by apply sound_admit.
  - by apply sound_release.
  - apply sound_db; [done|]. rewrite Hd. apply H4.
  - apply sound_on; [done|done|done|done|apply H6|apply H7|apply H8].
  - apply sound_db; [done|]. rewrite Hd. intros u [Hu|Hu]%elem_of_app; [by apply H4|].
    by apply list_elem_of_singleton in Hu as ->.
  - unfold startWorker. destruct (b_worker (barrier_of v c)) as [p|] eqn:Hw; [done|]. destruct (stopping c); [done|].
    assert (b_release_drain (barrier_of v c) = false) as Hr.
    { apply not_true_iff_false. intros Hr. apply H6 in Hr. by rewrite Hw in Hr. }
    apply sound_on; cbn; try done; [by intros p [= <-]|by rewrite Hr|by intros []].
  - unfold worker_top.
    assert (b_release_drain (barrier_of v c) = false) as Hr.
    { apply not_true_iff_false. intros Hr. apply H6 in Hr. by rewrite Hw in Hr. }
    destruct (existsb _ _) eqn:E; (apply sound_on; cbn; try done); rewrite ?Hr; try done; try (by intros []).
    intros p [= <-] _. apply H4. apply existsb_exists in E as (job & Hin & E). apply jeqb_eq in E as <-.
    apply list_elem_of_fmap_2. by apply list_elem_of_In.
  - assert (b_release_drain (barrier_of v c) = false) as Hr.
    { apply not_true_iff_false. intros Hr. apply H6 in Hr. rewrite Hw in Hr. by destruct Hp as [->| ->]. }
    apply sound_on; cbn; try done; [by intros q [= <-]|by rewrite Hr|by intros []].
  - assert (b_release_drain (barrier_of v c) = false) as Hr.
    { apply not_true_iff_false. intros Hr. apply H6 in Hr. by rewrite Hw in Hr. }
    assert (b_closing (barrier_of v c) = true) as Hcl by (by apply (H5 v BeforeDrain)).
    assert (0 ≤ b_active (barrier_of v c)) as Hpos by (rewrite H1; lia).
    destruct (b_active (barrier_of v c) =? 0) eqn:E0; [apply Z.eqb_eq in E0|apply Z.eqb_neq in E0];
      (apply sound_on; unfold waitForDrain).
    all: rewrite ?E0, ?(proj2 (Z.eqb_neq _ _) E0); cbn; rewrite ?Hr; try done; try (by intros []); intros; lia.
  - assert (b_release_drain (barrier_of v c) = false) as Hr.
    { apply not_true_iff_false. intros Hr. apply H6 in Hr. by rewrite Hw in Hr. }
    apply sound_on; cbn; try done; [intros p [= <-] _; by apply (H5 v Awake)|by rewrite Hr|].
    intros _. apply H8. by left.
  - assert (sound (set_db d c)) as Hd'.
    { apply sound_db; [done|]. rewrite Hd. intros u [Hu _]%filter_elem. by apply H4. }
    assert (b_release_drain (barrier_of v c) = false) as Hr.
    { apply not_true_iff_false. intros Hr. apply H6 in Hr. by rewrite Hw in Hr. }
    change (barrier_of v c) with (barrier_of v (set_db d c)) in Hr.
    apply sound_on; try done; [|by intros []]. split; intros E; [discriminate E|].
    change (b_release_drain (barrier_of v (set_db d c)) = true) in E. by rewrite Hr in E.
  - by split.
Qed.

Lemma sound_reachable d c : rtc moves (startup d) c → sound c.
Proof.
  revert c. apply (rtc_ind_r (R:=moves) sound); [apply sound_startup|]. intros a b _ Hm Ha. by apply (sound_moves a).
Qed.

(** A barrier never opens again. *)
Lemma closing_moves c c' v : moves c c' → b_closing (barrier_of v c) = true → b_closing (barrier_of v c') = true.
Proof.
  intros Hm Hv. destruct Hm; try done.
  all: try (rewrite barrier_on; destruct (jeqb_spec v0 v) as [->|]; done).
  - unfold ask. destruct (refuses _ _); [|change (b_closing (barrier_of v (on_barrier v0 id c)) = true)];
      rewrite barrier_on; by destruct (jeqb_spec v0 v) as [->|].
  - unfold admit_call. destruct (_ || _); [done|]. change (b_closing (barrier_of v (on_barrier v0 (λ b, set_active (b_active b + 1) b) c)) = true).
    rewrite barrier_on; by destruct (jeqb_spec v0 v) as [->|].
  - unfold release. rewrite barrier_on. destruct (jeqb_spec v0 v) as [->|]; [|done]. unfold release_barrier. by destruct (_ && _).
  - unfold startWorker. destruct (b_worker _); [done|]. destruct (stopping c); [done|].
    rewrite barrier_on; by destruct (jeqb_spec v0 v) as [->|].
  - unfold worker_top. destruct (existsb _ _); rewrite barrier_on; by destruct (jeqb_spec v0 v) as [->|].
  - rewrite barrier_on. destruct (jeqb_spec v0 v) as [->|]; [|done]. unfold waitForDrain. by destruct (_ =? _).
Qed.

(** [C38] Nothing is erased under a running request. In every interleaving of
    requests, deletions and other services, from the moment a vault's worker
    erases its files until it ends, the vault has no admission that is not
    released, and no call of [acquireAdmission], not even one that was already
    under way, will get one: the barrier of the vault is closing and never opens
    again. A worker that waits for the drain waits for an admission that is still
    held, and the count of a barrier is the number of its admissions. *)
Theorem erasure_is_exclusive (d : MetadataDb) (c : coordinator) (v : jstring) :
  rtc moves (startup d) c →
  activeAdmissionCount v c = Z.of_nat (length (leases v c)) ∧
  (b_worker (barrier_of v c) = Some Waiting → leases v c ≠ []) ∧
  (b_worker (barrier_of v c) = Some Erasing →
    leases v c = [] ∧
    ∀ c', rtc moves c c' → isBlocked v c' = true ∧
      (∀ id closed, (id, v, Answered closed) ∈ asking c' → leases v (admit_call id v closed c') = leases v c')).
Proof.
  intros Hr. pose proof (sound_reachable d c Hr) as [H1 H2 H3 H4 H5 H6 H7 H8].
  split; [apply H1|]. split.
  - intros Hw El. specialize (H7 v Hw). rewrite H1, El in H7. cbn in H7. lia.
  - intros Hw. split.
    + assert (b_active (barrier_of v c) = 0) as Ha by (apply H8; by right). rewrite H1 in Ha. destruct (leases v c); [done|cbn in Ha; lia].
    + intros c' Hr'. assert (b_closing (barrier_of v c') = true) as Hcl.
      { assert (b_closing (barrier_of v c) = true) as H0 by (by apply (H5 v Erasing)).
        clear - Hr' H0. induction Hr' as [|a b e Hm _ IH]; [done|]. apply IH. by apply (closing_moves a). }
      split; [done|]. intros id closed Hin. unfold admit_call.
      assert (refuses v (set_requests (without id (asking c')) (admitted c') c') = true) as ->.
      { unfold refuses. change (b_closing (barrier_of v c') || b_closed (barrier_of v c') = true). by rewrite Hcl. }
      by rewrite orb_true_r.
Qed.

(** A request holds an admission to a vault when the vault's deletion is accepted. *)
Definition at_1 : coordinator := ask "vlt_1" (startup sample_db).
Definition at_2 : coordinator := answer 0 "vlt_1" at_1.
Definition at_3 : coordinator := admit_call 0 "vlt_1" false at_2.
Definition at_4 : coordinator := on_barrier "vlt_1" (set_closing true false) at_3.
Definition at_5 : coordinator := set_db accepted_db at_4.
Definition at_6 : coordinator := startWorker "vlt_1" at_5.
Definition at_7 : coordinator := worker_top "vlt_1" at_6.
Definition at_8 : coordinator := on_barrier "vlt_1" waitForDrain at_7.
Definition at_9 : coordinator := release 0 "vlt_1" at_8.
Definition at_10 : coordinator := on_barrier "vlt_1" (λ b, set_worker (b_release_drain b) (Some Erasing) b) at_9.

Lemma erasure_is_exclusive_witness :
  activeAdmissionCount "vlt_1" at_8 = 1 ∧ b_worker (barrier_of "vlt_1" at_8) = Some Waiting ∧
  b_worker (barrier_of "vlt_1" at_10) = Some Erasing ∧ leases "vlt_1" at_10 = [] ∧
  ∀ c', rtc moves at_10 c' → isBlocked "vlt_1" c' = true.
Proof.
  split_and!; try (vm_compute; reflexivity).
  assert (rtc moves (startup sample_db) at_10) as H.
  - apply (rtc_l _ _ at_1); [exact (step_ask (startup sample_db) "vlt_1")|].
    apply (rtc_l _ _ at_2); [apply (step_answer at_1 0 "vlt_1"); vm_compute; left|].
    apply (rtc_l _ _ at_3); [apply (step_admit at_2 0 "vlt_1" false); vm_compute; left|].
    apply (rtc_l _ _ at_4); [exact (step_close at_3 "vlt_1")|].
    apply (rtc_l _ _ at_5); [apply (step_accept at_4 "vlt_1"); vm_compute; reflexivity|].
    apply (rtc_l _ _ at_6); [exact (step_start at_5 "vlt_1")|].
    apply (rtc_l _ _ at_7); [apply (step_top at_6 "vlt_1"); vm_compute; reflexivity|].
    apply (rtc_l _ _ at_8); [apply (step_drain at_7 "vlt_1"); vm_compute; reflexivity|].
    apply (rtc_l _ _ at_9); [apply (step_release at_8 0 "vlt_1"); vm_compute; left|].
    apply (rtc_l _ _ at_10); [apply (step_wake at_9 "vlt_1"); vm_compute; reflexivity|].
    constructor.
  - destruct (erasure_is_exclusive sample_db at_10 (lit "vlt_1") H) as (_ & _ & H3).
    destruct (H3 ltac:(vm_compute; reflexivity)) as [_ H5]. intros c' Hc. exact (proj1 (H5 c' Hc)).
Defined.
