(* ===== verification/DeviceLeases.v ===== *)
(** * Device barriers (src/server/vaultLifecycleCoordinator.ts)

    Device work holds a lease of its device; the removal of a device closes the
    device's barrier and waits for the leases. The barriers are objects that leases
    and waiting drains keep a reference to, while the map of barriers forgets the ones
    nobody needs: the model has the store of barrier objects and the addresses, so
    that a lease can hold a barrier the map no longer knows. *)

From S2P Require Export Prelude.
From stdpp Require Import gmap.

Local Open Scope Z_scope.

(** [DeviceBarrier]; [d_idle] are the waiting drains. *)
Record DeviceBarrier := mk_device_barrier { d_active : Z; d_closing : bool; d_idle : list nat }.

(** [d_heap] are the barrier objects, [d_barriers] the map of the coordinator,
    [d_held] the leases not released and [d_waiting] the drains not resolved, each
    with its device and its barrier object; [d_outcomes] are the drains resolved. *)
Record registry := mk_registry {
  d_heap : list DeviceBarrier;
  d_barriers : gmap jstring nat;
  d_held : gmap nat (jstring * nat);
  d_waiting : gmap nat (jstring * nat);
  d_outcomes : gmap nat (jstring * bool)
}.

Definition no_barriers : registry := mk_registry [] ∅ ∅ ∅ ∅.

Definition deviceKey (vaultId deviceId : jstring) : jstring := vaultId ++ [0%N] ++ deviceId.

Definition object (key : jstring) (r : registry) : option (nat * DeviceBarrier) :=
  a ← d_barriers r !! key; b ← d_heap r !! a; Some (a, b).
Definition put (a : nat) (b : DeviceBarrier) (r : registry) : registry :=
  mk_registry (<[a := b]> (d_heap r)) (d_barriers r) (d_held r) (d_waiting r) (d_outcomes r).
Definition forget (key : jstring) (r : registry) : registry :=
  mk_registry (d_heap r) (delete key (d_barriers r)) (d_held r) (d_waiting r) (d_outcomes r).

(** [deviceBarrier]. *)
Definition deviceBarrier (key : jstring) (r : registry) : (nat * DeviceBarrier) * registry :=
  match object key r with
  | Some o => (o, r)
  | None =>
      let a := length (d_heap r) in
      let b := mk_device_barrier 0 false [] in
      ((a, b), mk_registry (d_heap r ++ [b]) (<[key := a]> (d_barriers r)) (d_held r) (d_waiting r) (d_outcomes r))
  end.

Definition activeDeviceLeaseCount (key : jstring) (r : registry) : Z :=
  match object key r with Some (_, b) => d_active b | None => 0 end.
Definition isDeviceRemoving (key : jstring) (r : registry) : bool :=
  match object key r with Some (_, b) => d_closing b | None => false end.

Definition closeDeviceBarrier (key : jstring) (r : registry) : registry :=
  let '((a, b), r) := deviceBarrier key r in put a (mk_device_barrier (d_active b) true (d_idle b)) r.

Definition releaseDeviceBarrier (key : jstring) (r : registry) : registry :=
  match object key r with
  | None => r
  | Some (a, b) =>
      let r := put a (mk_device_barrier (d_active b) false (d_idle b)) r in
      if d_active b =? 0 then forget key r else r
  end.

(** The loop runs over a copy of the map, and its body is the one above. *)
Definition releaseDeviceBarriersForVault (vaultId : jstring) (r : registry) : registry :=
  fold_left (λ r key, if starts_with (vaultId ++ [0%N]) key then releaseDeviceBarrier key r else r)
    (map fst (map_to_list (d_barriers r))) r.

(** [tryAcquireDeviceLease]: the lease gets the number [id]. *)
Definition tryAcquireDeviceLease (id : nat) (key : jstring) (r : registry) : bool * registry :=
  let '((a, b), r) := deviceBarrier key r in
  if d_closing b then (false, r)
  else
    let r := put a (mk_device_barrier (d_active b + 1) (d_closing b) (d_idle b)) r in
    (true, mk_registry (d_heap r) (d_barriers r) (<[id := (key, a)]> (d_held r)) (d_waiting r) (d_outcomes r)).

(** A waiting drain resolves. *)
Definition wake (key : jstring) (outcome : bool) (r : registry) (drain : nat) : registry :=
  mk_registry (d_heap r) (d_barriers r) (d_held r) (delete drain (d_waiting r)) (<[drain := (key, outcome)]> (d_outcomes r)).

(** The lease's [release], which does nothing when it is called again. *)
Definition release_lease (id : nat) (r : registry) : registry :=
  match d_held r !! id with
  | None => r
  | Some (key, a) =>
      match d_heap r !! a with
      | None => r
      | Some b =>
          let r := mk_registry (d_heap r) (d_barriers r) (delete id (d_held r)) (d_waiting r) (d_outcomes r) in
          let b := mk_device_barrier (d_active b - 1) (d_closing b) (d_idle b) in
          if d_active b =? 0 then
            let waiters := d_idle b in
            let r := put a (mk_device_barrier (d_active b) (d_closing b) []) r in
            let r := fold_left (wake key true) waiters r in
            if negb (d_closing b) && bool_decide (d_barriers r !! key = Some a) then forget key r else r
          else put a b r
      end
  end.

(** [drainDeviceLeases], whose drain gets the number [id], and its timer. *)
Definition drainDeviceLeases (id : nat) (key : jstring) (r : registry) : registry :=
  match object key r with
  | None => wake key true r id
  | Some (a, b) =>
      if d_active b =? 0 then wake key true r id
      else
        let r := put a (mk_device_barrier (d_active b) (d_closing b) (d_idle b ++ [id])) r in
        mk_registry (d_heap r) (d_barriers r) (d_held r) (<[id := (key, a)]> (d_waiting r)) (d_outcomes r)
  end.

Definition drain_timeout (id : nat) (r : registry) : registry :=
  match d_waiting r !! id with
  | None => r
  | Some (key, a) =>
      match d_heap r !! a with
      | None => r
      | Some b => wake key false (put a (mk_device_barrier (d_active b) (d_closing b) (List.filter (λ i, negb (i =? id)%nat) (d_idle b))) r) id
      end
  end.

(** Requests, removals, deletions and timers in any order. *)
Inductive dstep : registry → registry → Prop :=
| dstep_close r key : dstep r (closeDeviceBarrier key r)
| dstep_reopen r key : dstep r (releaseDeviceBarrier key r)
| dstep_supersede r vaultId : dstep r (releaseDeviceBarriersForVault vaultId r)
| dstep_acquire r id key : d_held r !! id = None → dstep r (tryAcquireDeviceLease id key r).2
| dstep_release r id : dstep r (release_lease id r)
| dstep_drain r id key : d_waiting r !! id = None → d_outcomes r !! id = None → dstep r (drainDeviceLeases id key r)
| dstep_timeout r id : dstep r (drain_timeout id r).

(** ** The invariant *)

Definition leases_of (key : jstring) (r : registry) : gmap nat (jstring * nat) :=
  filter (λ x, x.2.1 = key) (d_held r).

(** The barrier object of a device counts its leases, is known while it is needed
    and no longer, and its waiting drains wait for a lease. *)
Record entry_ok (r : registry) (key : jstring) (a : nat) (b : DeviceBarrier) : Prop := {
  e_count : d_active b = Z.of_nat (size (leases_of key r));
  e_needed : d_closing b = true ∨ 0 < d_active b;
  e_idle : d_idle b ≠ [] → 0 < d_active b;
  e_waiters id : id ∈ d_idle b ↔ d_waiting r !! id = Some (key, a)
}.

Record exact (r : registry) : Prop := {
  x_entry key a : d_barriers r !! key = Some a → ∃ b, d_heap r !! a = Some b ∧ entry_ok r key a b;
  x_inj k1 k2 a : d_barriers r !! k1 = Some a → d_barriers r !! k2 = Some a → k1 = k2;
  x_held id key a : d_held r !! id = Some (key, a) → d_barriers r !! key = Some a;
  x_waiting id key a : d_waiting r !! id = Some (key, a) → d_barriers r !! key = Some a
}.

Lemma elem_leases key r id x : leases_of key r !! id = Some x ↔ d_held r !! id = Some x ∧ x.1 = key.
Proof. unfold leases_of. by rewrite map_lookup_filter_Some. Qed.

(** A step that concerns one device. *)
Record elsewhere (key : jstring) (r r' : registry) : Prop := {
  o_barriers k : k ≠ key → d_barriers r' !! k = d_barriers r !! k;
  o_heap k a : k ≠ key → d_barriers r !! k = Some a → d_heap r' !! a = d_heap r !! a;
  o_leases k : k ≠ key → leases_of k r' = leases_of k r;
  o_waiting k id a : k ≠ key → d_waiting r' !! id = Some (k, a) ↔ d_waiting r !! id = Some (k, a)
}.

Record here (key : jstring) (r r' : registry) : Prop := {
  h_entry a : d_barriers r' !! key = Some a →
    (∃ b, d_heap r' !! a = Some b ∧ entry_ok r' key a b) ∧ ∀ k, k ≠ key → d_barriers r !! k ≠ Some a;
  h_held id a : d_held r' !! id = Some (key, a) → d_barriers r' !! key = Some a;
  h_waiting id a : d_waiting r' !! id = Some (key, a) → d_barriers r' !! key = Some a
}.

Lemma exact_step key r r' : exact r → elsewhere key r r' → here key r r' → exact r'.
Proof.
  intros [X1 X2 X3 X4] [O1 O2 O3 O4] [H1 H2 H3].
  assert (∀ k1 k2 a, k1 ≠ key → d_barriers r' !! k1 = Some a → d_barriers r' !! k2 = Some a → k1 = k2) as Hinj.
  { intros k1 k2 a Hk1 E1 E2. destruct (decide (k2 = key)) as [->|Hk2].
    - rewrite O1 in E1 by done. by destruct (proj2 (H1 a E2) k1 Hk1).
    - rewrite O1 in E1, E2 by done. by eapply X2. }
  split.
  - intros k a E. destruct (decide (k = key)) as [->|Hk]; [by destruct (H1 a E)|].
    rewrite O1 in E by done. destruct (X1 k a E) as (b & Hb & [C1 C2 C3 C4]). exists b. split; [by rewrite (O2 k a)|].
    split; rewrite ?O3 by done; try done. intros id. by rewrite C4, O4.
  - intros k1 k2 a E1 E2. destruct (decide (k1 = key)) as [->|Hk]; [|by eapply Hinj].
    destruct (decide (k2 = key)) as [->|Hk]; [done|]. symmetry. by eapply Hinj.
  - intros id k a E. destruct (decide (k = key)) as [->|Hk]; [by eapply H2|]. rewrite O1 by done. apply (X3 id).
    assert (leases_of k r' !! id = Some (k, a)) as El by (by apply elem_leases). rewrite O3 in El by done. by apply elem_leases in El as [? _].
  - intros id k a E. destruct (decide (k = key)) as [->|Hk]; [by eapply H3|]. rewrite O1 by done. apply (X4 id). by apply O4.
Qed.

Lemma object_Some key r a b : object key r = Some (a, b) ↔ d_barriers r !! key = Some a ∧ d_heap r !! a = Some b.
Proof.
  unfold object. destruct (d_barriers r !! key) as [a'|]; cbn; [|naive_solver].
  destruct (d_heap r !! a') as [b'|] eqn:E; cbn; naive_solver.
Qed.

Lemma object_None key r : exact r → object key r = None → d_barriers r !! key = None.
Proof.
  intros [X1 _ _ _] E. unfold object in E. destruct (d_barriers r !! key) as [a|] eqn:Ea; [|done].
  destruct (X1 key a Ea) as (b & Hb & _). cbn in E. by rewrite Hb in E.
Qed.

(** The object of a device is not another device's. *)
Lemma object_own key r a b : exact r → object key r = Some (a, b) → ∀ k, k ≠ key → d_barriers r !! k ≠ Some a.
Proof. intros [_ X2 _ _] [E _]%object_Some k Hk E'. by apply Hk, (X2 k key a). Qed.

Lemma object_ok key r a b : exact r → object key r = Some (a, b) → entry_ok r key a b.
Proof. intros [X1 _ _ _] [E Hb]%object_Some. destruct (X1 key a E) as (b' & Hb' & H). congruence. Qed.

Lemma unknown_idle key r : exact r → d_barriers r !! key = None →
  leases_of key r = ∅ ∧ ∀ id a, d_waiting r !! id ≠ Some (key, a).
Proof.
  intros [_ _ X3 X4] E. split.
  - apply map_empty. intros id. apply eq_None_not_Some. intros [[k a] [Hh Hk]%elem_leases]. cbn in Hk. subst k.
    apply X3 in Hh. congruence.
  - intros id a Hw. apply X4 in Hw. congruence.
Qed.

(** *** A new barrier, and the change of a known one *)

(** [deviceBarrier] alone may leave a barrier nobody needs; its callers do not. *)
Lemma deviceBarrier_cases key r a b r' : exact r → deviceBarrier key r = (a, b, r') →
  (r' = r ∧ object key r = Some (a, b)) ∨
  (object key r = None ∧ a = length (d_heap r) ∧ b = mk_device_barrier 0 false [] ∧
   r' = mk_registry (d_heap r ++ [b]) (<[key := a]> (d_barriers r)) (d_held r) (d_waiting r) (d_outcomes r)).
Proof. unfold deviceBarrier. intros _. destruct (object key r) as [[a' b']|]; intros [= <- <- <-]; [by left|by right]. Qed.

(** What [deviceBarrier] gives, however it got it. *)
Record given (key : jstring) (a : nat) (b : DeviceBarrier) (r r' : registry) : Prop := {
  g_barriers : d_barriers r' = <[key := a]> (d_barriers r);
  g_object : d_heap r' !! a = Some b;
  g_heap i : d_barriers r !! key ≠ Some i → (i < length (d_heap r))%nat → d_heap r' !! i = d_heap r !! i;
  g_own k : k ≠ key → d_barriers r !! k ≠ Some a;
  g_held : d_held r' = d_held r;
  g_waiting : d_waiting r' = d_waiting r;
  g_count : d_active b = Z.of_nat (size (leases_of key r));
  g_idle : d_idle b ≠ [] → 0 < d_active b;
  g_waiters id : id ∈ d_idle b ↔ d_waiting r !! id = Some (key, a);
  g_leases id a' : d_held r !! id = Some (key, a') → a' = a;
  g_drains id a' : d_waiting r !! id = Some (key, a') → a' = a
}.

Lemma deviceBarrier_given key r a b r' : exact r → deviceBarrier key r = (a, b, r') → given key a b r r'.
Proof.
  intros Hx E. destruct (deviceBarrier_cases key r a b r' Hx E) as [[-> Ho]|(Ho & -> & -> & ->)].
  - pose proof (object_own key r a b Hx Ho). pose proof (object_ok key r a b Hx Ho) as [].
    pose proof Ho as Ho'. apply object_Some in Ho' as [Ea Eb]. split; try done.
    + by rewrite insert_id.
    + intros id a' Hh. destruct Hx as [_ _ X3 _]. apply X3 in Hh. congruence.
    + intros id a' Hh. destruct Hx as [_ _ _ X4]. apply X4 in Hh. congruence.
  - apply object_None in Ho; [|done]. destruct (unknown_idle key r Hx Ho) as [Hl Hw]. split; cbn; try done.
    + by rewrite lookup_app_r, Nat.sub_diag by done.
    + intros i _ Hi. by rewrite lookup_app_l.
    + intros k Hk Ek. destruct Hx as [X1 _ _ _]. destruct (X1 k _ Ek) as (b & Hb & _). apply lookup_lt_Some in Hb. lia.
    + by rewrite Hl.
    + intros id. rewrite elem_of_nil. split; [done|]. intros H. by destruct (Hw id (length (d_heap r))).
    + intros id a' Hh. destruct Hx as [_ _ X3 _]. apply X3 in Hh. congruence.
    + intros id a' Hh. by destruct (Hw id a').
Qed.

(** A change of the object of one device, and of its own leases and drains. *)
Lemma changed_elsewhere key a b r r' r'' : exact r → given key a b r r' →
  (∃ b', d_heap r'' = <[a := b']> (d_heap r')) →
  (∀ k, k ≠ key → d_barriers r'' !! k = d_barriers r' !! k) →
  (∀ id k a', k ≠ key → d_held r'' !! id = Some (k, a') ↔ d_held r !! id = Some (k, a')) →
  (∀ id k a', k ≠ key → d_waiting r'' !! id = Some (k, a') ↔ d_waiting r !! id = Some (k, a')) →
  elsewhere key r r''.
Proof.
  intros Hx [G1 G2 G3 G4 G5 G6 G7 G8 G9 G10 G11] [b' Hh] Hb Hl Hw. split.
  - intros k Hk. rewrite Hb, G1 by done. by rewrite lookup_insert_ne.
  - intros k i Hk Ei. rewrite Hh. destruct (decide (i = a)) as [->|Hi]; [by destruct (G4 k)|].
    rewrite list_lookup_insert_ne by done. destruct Hx as [X1 X2 _ _]. apply G3.
    + intros E. apply Hk. by apply (X2 k key i).
    + destruct (X1 k i Ei) as (b0 & Hb0 & _). by apply lookup_lt_Some in Hb0.
  - intros k Hk. apply map_eq. intros id. apply option_eq. intros [k' a']. rewrite !elem_leases. cbn.
    split; intros [H <-]; (split; [|done]); by apply (Hl id k').
  - intros k id a' Hk. by apply Hw.
Qed.

Lemma size_leases_insert key id a r r' : d_held r !! id = None → d_held r' = <[id := (key, a)]> (d_held r) →
  size (leases_of key r') = S (size (leases_of key r)).
Proof.
  intros Hn E. unfold leases_of. rewrite E, map_filter_insert_True by done. rewrite map_size_insert_None; [done|].
  apply map_lookup_filter_None. by left.
Qed.

Lemma size_leases_delete key id a r r' : d_held r !! id = Some (key, a) → d_held r' = delete id (d_held r) →
  Z.of_nat (size (leases_of key r')) = Z.of_nat (size (leases_of key r)) - 1.
Proof.
  intros Hs E. unfold leases_of. rewrite E, map_filter_delete. rewrite map_size_delete_Some.
  - assert (size (filter (λ x : nat * (jstring * nat), x.2.1 = key) (d_held r)) ≠ 0%nat); [|lia].
    intros H0%map_size_empty_iff. assert (leases_of key r !! id = Some (key, a)) as H by (by apply elem_leases).
    unfold leases_of in H. by rewrite H0 in H.
  - exists (key, a). by apply map_lookup_filter_Some.
Qed.

Lemma closing_refuses key id r a b r' : deviceBarrier key r = (a, b, r') → d_closing b = true →
  tryAcquireDeviceLease id key r = (false, r').
Proof. intros E Hb. unfold tryAcquireDeviceLease. by rewrite E, Hb. Qed.

Lemma exact_close key r : exact r → exact (closeDeviceBarrier key r).
Proof.
  intros Hx. unfold closeDeviceBarrier. destruct (deviceBarrier key r) as [[a b] r'] eqn:E.
  pose proof (deviceBarrier_given key r a b r' Hx E) as Hg. pose proof Hg as [G1 G2 G3 G4 G5 G6 G7 G8 G9 G10 G11].
  apply (exact_step key r); [done| |].
  - apply (changed_elsewhere key a b r r'); cbn; try done; [by eexists| |]; intros; by rewrite ?G5, ?G6.
  - split; cbn.
    + intros i. rewrite G1, lookup_insert_eq. intros [= <-]. split; [|done].
      exists (mk_device_barrier (d_active b) true (d_idle b)). rewrite list_lookup_insert_eq by (by eapply lookup_lt_Some).
      split; [done|]. split; cbn; rewrite ?G6; try done; [|by left]. unfold leases_of. cbn. by rewrite G5.
    + intros id i. rewrite G5, G1, lookup_insert_eq. intros H. by rewrite (G10 id i H).
    + intros id i. rewrite G6, G1, lookup_insert_eq. intros H. by rewrite (G11 id i H).
Qed.

Lemma exact_acquire id key r : exact r → d_held r !! id = None → exact (tryAcquireDeviceLease id key r).2.
Proof.
  intros Hx Hid. unfold tryAcquireDeviceLease. destruct (deviceBarrier key r) as [[a b] r'] eqn:E.
  pose proof (deviceBarrier_given key r a b r' Hx E) as Hg. destruct (d_closing b) eqn:Ec; cbn.
  { destruct (deviceBarrier_cases key r a b r' Hx E) as [[-> _]|(_ & _ & -> & _)]; done. }
  destruct Hg as [G1 G2 G3 G4 G5 G6 G7 G8 G9 G10 G11] eqn:Eg. clear Eg.
  apply (exact_step key r); [done| |].
  - apply (changed_elsewhere key a b r r'); cbn; try done; [by eexists| |]; intros; rewrite ?G6; [|done].
    rewrite G5, lookup_insert_Some. split; [intros [[-> [= -> ->]]|[_ H']]; done|]. intros H'. right. split; [|done]. congruence.
  - split; cbn.
    + intros i. rewrite G1, lookup_insert_eq. intros [= <-]. split; [|done]. eexists.
      rewrite list_lookup_insert_eq by (by eapply lookup_lt_Some). split; [done|]. split; cbn; rewrite ?G6; try done.
      * rewrite (size_leases_insert key id a r); [lia|done|by rewrite <- G5].
      * right. lia.
      * lia.
    + intros i j. rewrite G1, lookup_insert_eq, G5, lookup_insert_Some. intros [[_ [= <-]]|[_ H']]; [done|]. by rewrite (G10 i j H').
    + intros i j. rewrite G6, G1, lookup_insert_eq. intros H'. by rewrite (G11 i j H').
Qed.

Lemma object_given key r a b : exact r → object key r = Some (a, b) → given key a b r r.
Proof. intros Hx Ho. apply deviceBarrier_given; [done|]. unfold deviceBarrier. by rewrite Ho. Qed.

(** The map forgets a device that has no lease and is not closing. *)
Lemma no_drains key a b r r' : given key a b r r' → d_active b = 0 → leases_of key r = ∅ ∧ ∀ id i, d_waiting r !! id ≠ Some (key, i).
Proof.
  intros Hg Ha. split.
  - apply map_size_empty_iff. pose proof (g_count _ _ _ _ _ Hg). lia.
  - intros id i Hw. pose proof (g_drains _ _ _ _ _ Hg id i Hw) as ->. apply (g_waiters _ _ _ _ _ Hg) in Hw.
    assert (d_idle b ≠ []) as H by (intros E; rewrite E in Hw; by apply not_elem_of_nil in Hw). apply (g_idle _ _ _ _ _ Hg) in H. lia.
Qed.

Lemma exact_reopen key r : exact r → exact (releaseDeviceBarrier key r).
Proof.
  intros Hx. unfold releaseDeviceBarrier. destruct (object key r) as [[a b]|] eqn:Ho; [|done].
  pose proof (object_given key r a b Hx Ho) as Hg. assert (d_barriers r !! key = Some a) as Ea by (by apply object_Some in Ho as [? _]). destruct (d_active b =? 0) eqn:E0.
  - apply Z.eqb_eq in E0. destruct (no_drains key a b r r Hg E0) as [Hl Hw].
    apply (exact_step key r); [done| |].
    + apply (changed_elsewhere key a b r r); cbn; try done; [by eexists|]. intros k Hk. by rewrite lookup_delete_ne.
    + split; cbn.
      * intros i H. by rewrite lookup_delete_eq in H.
      * intros id i Hh. assert (leases_of key r !! id = Some (key, i)) as H by (by apply elem_leases). by rewrite Hl in H.
      * intros id i H. by destruct (Hw id i).
  - apply Z.eqb_neq in E0. destruct Hg as [G1 G2 G3 G4 G5 G6 G7 G8 G9 G10 G11] eqn:Eg.
    apply (exact_step key r); [done| |].
    + apply (changed_elsewhere key a b r r); cbn; try done. by eexists.
    + split; cbn.
      * intros i. rewrite Ea. intros [= <-]. split; [|done]. eexists.
        rewrite list_lookup_insert_eq by (by eapply lookup_lt_Some). split; [done|]. split; cbn; try done. right. lia.
      * intros id i H. rewrite Ea. by rewrite (G10 id i H).
      * intros id i H. rewrite Ea. by rewrite (G11 id i H).
Qed.

Lemma exact_supersede v r : exact r → exact (releaseDeviceBarriersForVault v r).
Proof.
  unfold releaseDeviceBarriersForVault. generalize (map fst (map_to_list (d_barriers r))) as ks. intros ks. revert r.
  induction ks as [|k ks IH]; intros r Hx; [done|]. cbn [fold_left]. apply IH.
  destruct (starts_with _ k); [|done]. by apply exact_reopen.
Qed.

Lemma exact_drain id key r : exact r → d_waiting r !! id = None → exact (drainDeviceLeases id key r).
Proof.
  intros Hx Hid. assert (∀ out, exact (wake key out r id)) as Hwake.
  { intros out. unfold wake. rewrite delete_id by done. destruct Hx as [X1 X2 X3 X4]. split; [|done..].
    intros k a E. destruct (X1 k a E) as (b & Hb & [? ? ? ?]). exists b. by split. }
  unfold drainDeviceLeases. destruct (object key r) as [[a b]|] eqn:Ho; [|done].
  destruct (d_active b =? 0) eqn:E0; [done|]. apply Z.eqb_neq in E0.
  pose proof (object_given key r a b Hx Ho) as Hg. assert (d_barriers r !! key = Some a) as Ea by (by apply object_Some in Ho as [? _]). pose proof (object_ok key r a b Hx Ho) as [C1 C2 C3 C4].
  destruct Hg as [G1 G2 G3 G4 G5 G6 G7 G8 G9 G10 G11] eqn:Eg.
  apply (exact_step key r); [done| |].
  - apply (changed_elsewhere key a b r r); cbn; try done; [by eexists|].
    intros i k j Hk. rewrite lookup_insert_Some. split; [intros [[-> [= -> ->]]|[_ H']]; done|]. intros H'. right. split; [|done]. congruence.
  - split; cbn.
    + intros i. rewrite Ea. intros [= <-]. split; [|done]. eexists.
      rewrite list_lookup_insert_eq by (by eapply lookup_lt_Some). split; [done|]. split; cbn; try done; [lia|].
      intros i. rewrite elem_of_app, list_elem_of_singleton, C4, lookup_insert_Some. split.
      * intros [Hw| ->]; [right; split; [congruence|done]|by left].
      * intros [[<- _]|[_ Hw]]; [by right|by left].
    + intros i j H. rewrite Ea. by rewrite (G10 i j H).
    + intros i j. rewrite Ea, lookup_insert_Some. intros [[_ [= <-]]|[_ H]]; [done|]. by rewrite (G11 i j H).
Qed.

Lemma held_object id key a r : exact r → d_held r !! id = Some (key, a) → ∃ b, d_heap r !! a = Some b ∧ object key r = Some (a, b).
Proof.
  intros [X1 _ X3 _] H. apply X3 in H. destruct (X1 key a H) as (b & Hb & _). exists b. split; [done|]. by apply object_Some.
Qed.

Lemma waiting_object id key a r : exact r → d_waiting r !! id = Some (key, a) → ∃ b, d_heap r !! a = Some b ∧ object key r = Some (a, b).
Proof.
  intros [X1 _ _ X4] H. apply X4 in H. destruct (X1 key a H) as (b & Hb & _). exists b. split; [done|]. by apply object_Some.
Qed.

Lemma exact_timeout id r : exact r → exact (drain_timeout id r).
Proof.
  intros Hx. unfold drain_timeout. destruct (d_waiting r !! id) as [[key a]|] eqn:Hw; [|done].
  destruct (waiting_object id key a r Hx Hw) as (b & Hb & Ho). rewrite Hb.
  pose proof (object_given key r a b Hx Ho) as Hg. assert (d_barriers r !! key = Some a) as Ea by (by apply object_Some in Ho as [? _]). pose proof (object_ok key r a b Hx Ho) as [C1 C2 C3 C4].
  destruct Hg as [G1 G2 G3 G4 G5 G6 G7 G8 G9 G10 G11] eqn:Eg.
  apply (exact_step key r); [done| |].
  - apply (changed_elsewhere key a b r r); cbn; try done; [by eexists|].
    intros i k j Hk. rewrite lookup_delete_Some. split; [by intros [_ H']|]. intros H'. split; [|done]. congruence.
  - split; cbn.
    + intros i. rewrite Ea. intros [= <-]. split; [|done]. eexists.
      rewrite list_lookup_insert_eq by (by eapply lookup_lt_Some). split; [done|]. split; cbn; try done.
      * intros H. apply C3. intros E. apply H. by rewrite E.
      * intros i. rewrite lookup_delete_Some, filter_elem, negb_true_iff, Nat.eqb_neq, C4. naive_solver.
    + intros i j H. rewrite Ea. by rewrite (G10 i j H).
    + intros i j. rewrite lookup_delete_Some, Ea. intros [_ H]. by rewrite (G11 i j H).
Qed.

Lemma wake_all key out ids : ∀ r, let r' := fold_left (wake key out) ids r in
  d_heap r' = d_heap r ∧ d_barriers r' = d_barriers r ∧ d_held r' = d_held r ∧
  (∀ id, d_waiting r' !! id = if bool_decide (id ∈ ids) then None else d_waiting r !! id) ∧
  (∀ id, d_outcomes r' !! id = if bool_decide (id ∈ ids) then Some (key, out) else d_outcomes r !! id).
Proof.
  induction ids as [|i ids IH]; intros r; cbn [fold_left].
  - split_and!; [done..| |]; intros id; by rewrite bool_decide_false by apply not_elem_of_nil.
  - destruct (IH (wake key out r i)) as (I1 & I2 & I3 & I4 & I5). split_and!; [done..| |]; intros id; rewrite ?I4, ?I5; cbn.
    + destruct (decide (id = i)) as [->|Hne].
      * rewrite lookup_delete_eq, (bool_decide_true (i ∈ i :: ids)) by (by left). by destruct (bool_decide _).
      * rewrite lookup_delete_ne by done.
        destruct (decide (id ∈ ids)) as [H|H]; [by rewrite !bool_decide_true by (done || by right)|].
        rewrite !bool_decide_false; [done| |done]. intros [->|?]%elem_of_cons; done.
    + destruct (decide (id = i)) as [->|Hne].
      * rewrite lookup_insert_eq, (bool_decide_true (i ∈ i :: ids)) by (by left). by destruct (bool_decide _).
      * rewrite lookup_insert_ne by done.
        destruct (decide (id ∈ ids)) as [H|H]; [by rewrite !bool_decide_true by (done || by right)|].
        rewrite !bool_decide_false; [done| |done]. intros [->|?]%elem_of_cons; done.
Qed.

Lemma registry_eta r : mk_registry (d_heap r) (d_barriers r) (d_held r) (d_waiting r) (d_outcomes r) = r.
Proof. by destruct r. Qed.

(** A lease that is not the last of its device is counted down. *)
Lemma release_counted id key a b r : exact r → d_held r !! id = Some (key, a) → object key r = Some (a, b) → d_active b - 1 ≠ 0 →
  let r' := mk_registry (<[a := mk_device_barrier (d_active b - 1) (d_closing b) (d_idle b)]> (d_heap r)) (d_barriers r)
              (delete id (d_held r)) (d_waiting r) (d_outcomes r) in
  release_lease id r = r' ∧ exact r'.
Proof.
  intros Hx Hh Ho E0 r'. pose proof Ho as Ho'. apply object_Some in Ho' as [Ea Eb].
  pose proof (object_ok key r a b Hx Ho) as [C1 C2 C3 C4].
  pose proof (size_leases_delete key id a r r' Hh eq_refl) as Hsize. assert (0 ≤ d_active b - 1) by lia.
  split; [unfold release_lease; rewrite Hh, Eb; cbn [d_active]; by rewrite (proj2 (Z.eqb_neq _ _) E0)|].
  apply (exact_step key r); [done| |].
  - apply (changed_elsewhere key a b r r); [done|by apply object_given|by eexists|done| |done].
    intros i k j Hk. cbn. rewrite lookup_delete_Some. split; [by intros [_ H']|]. intros H'. split; [|done]. congruence.
  - split.
    + intros i E. change (d_barriers r !! key = Some i) in E. assert (i = a) as -> by congruence. split; [|by apply (object_own key r a b)].
      eexists. split; [apply list_lookup_insert_eq; by eapply lookup_lt_Some|].
      split; cbn -[leases_of]; [lia|right; lia|intros _; lia|done].
    + intros i j. cbn. rewrite lookup_delete_Some. intros [_ H']. by apply Hx in H'.
    + intros i j H'. by apply Hx in H'.
Qed.

(** The last lease of a device wakes every drain of the device. *)
Lemma release_last id key a b r : exact r → d_held r !! id = Some (key, a) → object key r = Some (a, b) → d_active b - 1 = 0 →
  let r' := release_lease id r in
  exact r' ∧ leases_of key r' = ∅ ∧ activeDeviceLeaseCount key r' = 0 ∧
  (∀ i, d_waiting r' !! i = if bool_decide (i ∈ d_idle b) then None else d_waiting r !! i) ∧
  (∀ i, d_outcomes r' !! i = if bool_decide (i ∈ d_idle b) then Some (key, true) else d_outcomes r !! i).
Proof.
  intros Hx Hh Ho E0 r'. pose proof Ho as Ho'. apply object_Some in Ho' as [Ea Eb].
  pose proof (object_ok key r a b Hx Ho) as [C1 C2 C3 C4]. unfold r', release_lease. rewrite Hh, Eb. cbn [d_active d_idle d_closing]. rewrite E0.
  set (b0 := mk_device_barrier 0 (d_closing b) []).
  set (r0 := put a b0 (mk_registry (d_heap r) (d_barriers r) (delete id (d_held r)) (d_waiting r) (d_outcomes r))).
  change (0 =? 0) with true. cbv iota. destruct (wake_all key true (d_idle b) r0) as (W1 & W2 & W3 & W4 & W5).
  generalize dependent (fold_left (wake key true) (d_idle b) r0). intros r1 W1 W2 W3 W4 W5.
  assert (leases_of key r1 = ∅) as Hl.
  { apply map_size_empty_iff. pose proof (size_leases_delete key id a r r1 Hh W3). lia. }
  rewrite W2, bool_decide_true by done.
  assert (∀ i j, d_waiting r1 !! i ≠ Some (key, j)) as Hw.
  { intros i j. rewrite W4. destruct (decide (i ∈ d_idle b)) as [H|H]; [by rewrite bool_decide_true|]. rewrite bool_decide_false by done.
    intros H'. apply H, C4. change (d_waiting r !! i = Some (key, j)) in H'. rewrite H'. do 2 f_equal. apply Hx in H'. congruence. }
  assert (∀ m, (∀ k, k ≠ key → m !! k = d_barriers r !! k) → elsewhere key r (mk_registry (d_heap r1) m (d_held r1) (d_waiting r1) (d_outcomes r1))) as Helse.
  { intros m Hm. apply (changed_elsewhere key a b r r); [done|by apply object_given|exists b0; cbn; by rewrite W1|done|..].
    - intros i k j Hk. cbn. rewrite W3. cbn. rewrite lookup_delete_Some. split; [by intros [_ H']|]. intros H'. split; [|done]. congruence.
    - intros i k j Hk. cbn. rewrite W4. destruct (decide (i ∈ d_idle b)) as [H|H]; [|by rewrite bool_decide_false].
      rewrite bool_decide_true by done. apply C4 in H. split; congruence. }
  assert (∀ i j, d_held r1 !! i ≠ Some (key, j)) as Hheld.
  { intros i j H. assert (leases_of key r1 !! i = Some (key, j)) as H' by (by apply elem_leases). by rewrite Hl in H'. }
  destruct (d_closing b) eqn:Ec; cbn [negb andb].
  - split_and!; [|done| |done|done].
    + apply (exact_step key r); [done|rewrite <- (registry_eta r1); apply Helse; intros k _; by rewrite W2|]. split.
      * intros i E. rewrite W2 in E. change (d_barriers r !! key = Some i) in E. assert (i = a) as -> by congruence.
        split; [|by apply (object_own key r a b)]. exists b0. rewrite W1. cbn. rewrite list_lookup_insert_eq by (by eapply lookup_lt_Some).
        split; [done|]. split; [by rewrite Hl|left; by rewrite <- Ec|done|]. intros i. cbn. rewrite elem_of_nil. split; [done|]. intros H. by apply Hw in H.
      * intros i j H. by apply Hheld in H.
      * intros i j H. by apply Hw in H.
    + unfold activeDeviceLeaseCount, object. rewrite W1, W2. cbn. rewrite Ea. cbn. by rewrite list_lookup_insert_eq by (by eapply lookup_lt_Some).
  - split_and!; [|done| |done|done].
    + apply (exact_step key r); [done|apply Helse; intros k Hk; rewrite W2; by rewrite lookup_delete_ne|]. split; cbn.
      * intros i H. by rewrite lookup_delete_eq in H.
      * intros i j H. by apply Hheld in H.
      * intros i j H. by apply Hw in H.
    + unfold activeDeviceLeaseCount, object. cbn. by rewrite lookup_delete_eq.
Qed.

Lemma release_lease_exact id r : exact r → exact (release_lease id r).
Proof.
  intros Hx. destruct (d_held r !! id) as [[key a]|] eqn:Hh; [|unfold release_lease; by rewrite Hh].
  destruct (held_object id key a r Hx Hh) as (b & _ & Ho). destruct (decide (d_active b - 1 = 0)) as [E|E].
  - by destruct (release_last id key a b r Hx Hh Ho E).
  - by destruct (release_counted id key a b r Hx Hh Ho E) as [-> ?].
Qed.

Lemma exact_dstep r r' : exact r → dstep r r' → exact r'.
Proof.
  intros Hx Hs. destruct Hs as [q key|q key|q v|q id key Hid|q id|q id key Hid _|q id].
  - by apply exact_close.
  - by apply exact_reopen.
  - by apply exact_supersede.
  - by apply exact_acquire.
  - by apply release_lease_exact.
  - by apply exact_drain.
  - by apply exact_timeout.
Qed.

Lemma exact_reachable r : rtc dstep no_barriers r → exact r.
Proof.
  revert r. apply (rtc_ind_r (R:=dstep) exact); [by split|]. intros a b _ Hs Ha. by apply (exact_dstep a).
Qed.

Lemma count_exact key r : exact r → activeDeviceLeaseCount key r = Z.of_nat (size (leases_of key r)).
Proof.
  intros Hx. unfold activeDeviceLeaseCount. destruct (object key r) as [[a b]|] eqn:Ho; [by apply (object_ok key r a b)|].
  apply object_None in Ho; [|done]. destruct (unknown_idle key r Hx Ho) as [Hl _]. by rewrite Hl.
Qed.

Lemma count_empty key r : exact r → activeDeviceLeaseCount key r = 0 → leases_of key r = ∅.
Proof. intros Hx H. apply map_size_empty_iff. rewrite count_exact in H by done. lia. Qed.

(** Closing, opening and acquiring resolve no drain. *)
Lemma outcomes_put key r : d_outcomes (deviceBarrier key r).2 = d_outcomes r.
Proof. unfold deviceBarrier. by destruct (object key r). Qed.

Lemma outcomes_close key r : d_outcomes (closeDeviceBarrier key r) = d_outcomes r.
Proof. pose proof (outcomes_put key r) as E. unfold closeDeviceBarrier. by destruct (deviceBarrier key r) as [[a b] r']. Qed.

Lemma outcomes_reopen key r : d_outcomes (releaseDeviceBarrier key r) = d_outcomes r.
Proof. unfold releaseDeviceBarrier. destruct (object key r) as [[a b]|]; [|done]. by destruct (_ =? _). Qed.

Lemma outcomes_supersede v r : d_outcomes (releaseDeviceBarriersForVault v r) = d_outcomes r.
Proof.
  unfold releaseDeviceBarriersForVault. generalize (map fst (map_to_list (d_barriers r))) as ks. intros ks. revert r.
  induction ks as [|k ks IH]; intros r; [done|]. cbn [fold_left]. rewrite IH. destruct (starts_with _ k); [|done]. apply outcomes_reopen.
Qed.

Lemma outcomes_acquire id key r : d_outcomes (tryAcquireDeviceLease id key r).2 = d_outcomes r.
Proof.
  pose proof (outcomes_put key r) as E. unfold tryAcquireDeviceLease. destruct (deviceBarrier key r) as [[a b] r']. by destruct (d_closing b).
Qed.

(** A drain resolves with true only where the device has no lease. *)
Lemma drained_idle r r' id key : exact r → dstep r r' →
  d_outcomes r !! id = None → d_outcomes r' !! id = Some (key, true) → leases_of key r' = ∅.
Proof.
  intros Hx Hs Hn Hout. destruct Hs as [q k|q k|q v|q i k Hi|q i|q i k Hi Hi'|q i].
  - rewrite outcomes_close in Hout. congruence.
  - rewrite outcomes_reopen in Hout. congruence.
  - rewrite outcomes_supersede in Hout. congruence.
  - rewrite outcomes_acquire in Hout. congruence.
  - destruct (d_held q !! i) as [[k a]|] eqn:Hh; [|unfold release_lease in Hout; rewrite Hh in Hout; congruence].
    destruct (held_object i k a q Hx Hh) as (b & _ & Ho). destruct (decide (d_active b - 1 = 0)) as [E|E].
    + destruct (release_last i k a b q Hx Hh Ho E) as (_ & Hl & _ & _ & W). rewrite W in Hout.
      destruct (bool_decide _); congruence.
    + destruct (release_counted i k a b q Hx Hh Ho E) as [E' _]. rewrite E' in Hout. cbn in Hout. congruence.
  - unfold drainDeviceLeases in *. destruct (object k q) as [[a b]|] eqn:Ho.
    + destruct (d_active b =? 0) eqn:E0; cbn in Hout; [|congruence]. apply Z.eqb_eq in E0.
      apply lookup_insert_Some in Hout as [[_ [= ->]]|[_ Hout]]; [|congruence].
      by destruct (no_drains key a b q q (object_given key q a b Hx Ho) E0).
    + cbn in Hout. apply lookup_insert_Some in Hout as [[_ [= ->]]|[_ Hout]]; [|congruence].
      apply object_None in Ho; [|done]. by destruct (unknown_idle key q Hx Ho).
  - unfold drain_timeout in Hout. destruct (d_waiting q !! i) as [[k a]|]; [|congruence]. destruct (d_heap q !! a); [|congruence].
    cbn in Hout. apply lookup_insert_Some in Hout as [[_ [= ]]|[_ Hout]]. congruence.
Qed.

(** [C39] Leases and drains of devices are exact. In every interleaving of lease
    requests, releases, drains with their timers, removals and vault deletions: the
    count of a device is the number of its leases that are not released, although
    the map of barriers forgets a device exactly when it is not being removed and has
    no lease; a drain that waits waits for a lease, so that none is forgotten; a drain
    answers true only when the device has no lease; and while a device is being
    removed it gets no lease. *)
Theorem device_leases_exact (r : registry) : rtc dstep no_barriers r →
  (∀ key, activeDeviceLeaseCount key r = Z.of_nat (size (leases_of key r)) ∧
    (is_Some (d_barriers r !! key) ↔ isDeviceRemoving key r = true ∨ leases_of key r ≠ ∅)) ∧
  (∀ id key a, d_waiting r !! id = Some (key, a) → leases_of key r ≠ ∅) ∧
  (∀ r' id key, dstep r r' → d_outcomes r !! id = None → d_outcomes r' !! id = Some (key, true) → leases_of key r' = ∅) ∧
  (∀ id key, isDeviceRemoving key r = true → tryAcquireDeviceLease id key r = (false, r)).
Proof.
  intros Hr. pose proof (exact_reachable r Hr) as Hx. split_and!.
  - intros key. split; [by apply count_exact|]. unfold isDeviceRemoving. destruct (object key r) as [[a b]|] eqn:Ho.
    + pose proof (object_ok key r a b Hx Ho) as [C1 C2 _ _]. apply object_Some in Ho as [-> _]. split; [intros _|done].
      destruct C2 as [?|C2]; [by left|right]. intros E. rewrite E, map_size_empty in C1. lia.
    + apply object_None in Ho; [|done]. destruct (unknown_idle key r Hx Ho) as [-> _]. rewrite Ho.
      split; [by intros []|by intros []].
  - intros id key a Hw E. destruct (waiting_object id key a r Hx Hw) as (b & _ & Ho).
    pose proof (object_ok key r a b Hx Ho) as [C1 _ C3 C4]. apply C4 in Hw. rewrite E, map_size_empty in C1.
    assert (d_idle b ≠ []) as H by (intros E'; rewrite E' in Hw; by apply not_elem_of_nil in Hw). apply C3 in H. lia.
  - intros r' id key Hs Hn Hout. by apply (drained_idle r r' id key).
  - intros id key Hc. unfold isDeviceRemoving in Hc. destruct (object key r) as [[a b]|] eqn:Ho; [|done].
    apply (closing_refuses key id r a b r); [|done]. unfold deviceBarrier. by rewrite Ho.
Qed.

(** A lease is held while its device is removed: the drain waits for it, no new lease
    is given, and the release answers the drain. *)
Definition sample_device : jstring := deviceKey (lit "vlt_1") (lit "dev_1").
Definition lease_1 : registry := (tryAcquireDeviceLease 0 sample_device no_barriers).2.
Definition lease_2 : registry := closeDeviceBarrier sample_device lease_1.
Definition lease_3 : registry := drainDeviceLeases 7 sample_device lease_2.
Definition lease_4 : registry := release_lease 0 lease_3.

Lemma device_leases_exact_witness :
  activeDeviceLeaseCount sample_device lease_3 = 1 ∧ tryAcquireDeviceLease 1 sample_device lease_3 = (false, lease_3) ∧
  d_outcomes lease_4 !! 7%nat = Some (sample_device, true) ∧ leases_of sample_device lease_4 = ∅.
Proof.
  assert (rtc dstep no_barriers lease_3) as H.
  { apply (rtc_l _ _ lease_1); [by apply dstep_acquire|]. apply (rtc_l _ _ lease_2); [apply dstep_close|].
    apply (rtc_l _ _ lease_3); [by apply dstep_drain|]. constructor. }
  destruct (device_leases_exact lease_3 H) as (H1 & _ & H3 & H4).
  split_and!; [vm_compute; reflexivity|apply H4; vm_compute; reflexivity|vm_compute; reflexivity|].
  apply (H3 lease_4 7%nat sample_device); [apply dstep_release|vm_compute; reflexivity..].
Defined.
