(* ===== verification/DeviceRemoval.v ===== *)
(** * The removal of a revoked device (src/server/deviceRemovalService.ts)

    A removal is journaled: a durable intent, the barrier of the device, the drain of
    its work, the deletion of its reference by compare-and-swap, the cleanup of what
    belongs to it, and one transaction that completes it.  The process can stop between
    any two calls; the next start resumes the journal.  The methods are programs
    ([Programs]) over the store, the reference of the device, its staged transfers and
    its barrier. *)

From S2P Require Export Programs Operations.
From S2P Require VaultState.

Local Open Scope Z_scope.

Definition MAX_GENERATIONS_PER_RUN : nat := 3.

(** ** Calls *)

Inductive AncestryVerdict := VdAncestor | VdNotAncestor | VdUnknown.
Inductive RefDeletion := RdDeleted | RdMoved | RdAbsent.

(** [Wait] is never answered. *)
Inductive call : Type → Type :=
| Read : call MetadataDb
| MutateDurably {A} (fn : transaction A) : call A
| ReadRefStrict (vault ref : jstring) : call (option jstring)
| DeleteRefCas (vault ref expected : jstring) : call RefDeletion
| AncestryOf (vault ancestor descendant : jstring) : call AncestryVerdict
| CommitExists (vault commit : jstring) : call bool
| StagedTargetCommits (vault device : jstring) : call (list jstring)
| DrainTransfers (vault device : jstring) : call bool
| DrainDeviceLeases (vault device : jstring) : call bool
| EraseDeviceResidue (vault device : jstring) : call unit
| CloseDeviceBarrier (vault device : jstring) : call unit
| ReleaseDeviceBarrier (vault device : jstring) : call unit
| AcquireAdmission (vault : jstring) : call unit
| ArchiveCompletedHistory (vault : jstring) : call unit
| Wait : call unit.

Notation "'removal'" := (io call).

Definition mutateDurably {A} (fn : transaction A) : removal A := perform (MutateDurably fn).
(** [store.read(select)]. *)
Definition read {A} (select : MetadataDb → result A) : removal A := db ← perform Read; lift (select db).

(** ** Errors *)

Definition RemovalFailure (status : Z) (code message : string) (retryable : bool) (extra : record) : js_error :=
  mk_error (ERemovalFailure status retryable) (lit code) (lit message) extra.
Definition RemovalSuperseded : js_error := mk_error ERemovalSuperseded [] [] [].

Definition unavailable (what : string) : js_error := RemovalFailure 503 "device_removal_unavailable" what true [].
Definition incomplete (what : string) : js_error := RemovalFailure 503 "device_removal_incomplete" what true [].
Definition REF_MISSING_DETAILS : record := [(lit "reason", JStr (lit "ref_missing")); (lit "resolution", JStr (lit "discard_phrase"))].
Definition ref_missing : js_error :=
  RemovalFailure 409 "device_ref_inconsistent"
    "The recorded device ref is missing. If nothing is left to delete, repeat the request with the discard phrase to confirm."
    false REF_MISSING_DETAILS.
Definition refusal (status : Z) (code message : string) (reason : option string) : js_error :=
  AuthError status (lit code) (lit message)
    (match reason with Some reason => [(lit "reason", JStr (lit reason))] | None => [] end).
Definition not_found : js_error := refusal 404 "not_found" "Resource not found." None.
Definition vault_deleting (message : string) : js_error := refusal 409 "vault_deleting" message None.

(** ** What a removal looks at *)

Record DeviceRemovalRequest := mk_request {
  rq_owner : jstring; rq_vault : jstring; rq_device : jstring; rq_confirmation : option jstring; rq_discard : bool }.
Record Target := mk_target { tg_owner : jstring; tg_vault : jstring; tg_device : jstring }.

Record Selected := mk_selected {
  sl_vault_status : VaultStatus;
  sl_current_main : jstring;
  sl_device_ref : jstring;
  sl_device_ref_head : option jstring;
  sl_open_conflict : bool;
  sl_unsettled_operation : bool;
  sl_job : option DeviceRemovalJob }.

Definition is_job (id : jstring) (job : DeviceRemovalJob) : bool := rj_device_id job =s? id.
Definition find_job (db : MetadataDb) (id : jstring) : option DeviceRemovalJob :=
  find_row (is_job id) (db_device_removal_jobs db).

Section removal.
Context (target : Target).

Let vaultId : jstring := tg_vault target.
Let deviceId : jstring := tg_device target.

Definition selected (db : MetadataDb) (vault : VaultRow) (device : DeviceRow) : Selected :=
  mk_selected (v_status vault) (v_current_main vault) (d_device_ref device) (d_device_ref_head device)
    (existsb (λ c, (cf_vault_id c =s? vaultId) && (cf_device_id c =s? deviceId) && bool_decide (cf_status c = CfOpen)) (db_conflicts db))
    (existsb (λ o, (op_vault_id o =s? vaultId) && oeqb (op_device_id o) (Some deviceId)
                   && (bool_decide (op_status o = OpStarted) || bool_decide (op_status o = OpPrepared))) (db_sync_operations db))
    (find_job db deviceId).

(** The checks [select] and [commitIntent] share. *)
Definition eligible (db : MetadataDb) : result (VaultRow * DeviceRow) :=
  match find_row (λ v, (v_vault_id v =s? vaultId) && (v_owner_user_id v =s? tg_owner target)) (db_vaults db) with
  | None => Throw not_found
  | Some vault =>
    if hasDurableDeletionRecord db vaultId then Throw (vault_deleting "Vault deletion is in progress.") else
    match find_row (λ d, (d_device_id d =s? deviceId) && (d_vault_id d =s? vaultId) && (d_user_id d =s? tg_owner target)) (db_devices db) with
    | None => Throw not_found
    | Some device =>
      if isDeviceRevoked device then Ok (vault, device)
      else Throw (refusal 409 "device_not_revoked" "Revoke the device before removing it." None)
    end
  end.

Definition select (db : MetadataDb) : result Selected :=
  '(vault, device) ← eligible db; Ok (selected db vault device).

(** [selectForStep]: also the journal, which must still exist. *)
Definition select_step (db : MetadataDb) : result (Selected * DeviceRemovalJob) :=
  match find_job db deviceId, find_row (has_vault_id vaultId) (db_vaults db),
        find_row (λ d, (d_device_id d =s? deviceId) && (d_vault_id d =s? vaultId)) (db_devices db) with
  | Some job, Some vault, Some device =>
      if hasDurableDeletionRecord db vaultId then Throw RemovalSuperseded else Ok (selected db vault device, job)
  | _, _, _ => Throw RemovalSuperseded
  end.
Definition selectForStep : removal (Selected * DeviceRemovalJob) := read select_step.

Definition assertNoOpenWork (s : Selected) : result unit :=
  if sl_open_conflict s then
    Throw (refusal 409 "device_has_open_work" "Resolve the device conflicts before removing it." (Some "open_conflict"%string))
  else if sl_unsettled_operation s then
    Throw (refusal 409 "device_has_open_work" "Wait for the device operations to settle before removing it." (Some "unsettled_operation"%string))
  else Ok ().

Definition readRef (s : Selected) : removal (option jstring) :=
  if negb (sl_device_ref s =s? DEVICE_REFS ++ deviceId)
  then throw (RemovalFailure 409 "device_ref_inconsistent" "The device ref does not match its identity." false [])
  else try_catch (perform (ReadRefStrict vaultId (sl_device_ref s)))
         (λ _, throw (unavailable "The device ref could not be verified. Retry later.")).

Definition assertCovered (currentMain oid : jstring) (discard : bool) : removal unit :=
  verdict ← try_catch (perform (AncestryOf vaultId oid currentMain)) (λ _, mret VdUnknown);
  match verdict with
  | VdUnknown => throw (unavailable "Device history could not be verified. Retry later.")
  | VdNotAncestor =>
      if discard then mret ()
      else throw (refusal 409 "device_has_unmerged_work" "The device has work that is not in the vault main history." (Some "device_ref"%string))
  | VdAncestor => mret ()
  end.

Definition staged_unavailable : js_error := unavailable "Staged transfers could not be verified. Retry later.".

Definition staged_verdict (currentMain commit : jstring) : removal AncestryVerdict :=
  try_catch
    (known ← perform (CommitExists vaultId commit);
     if known : bool then perform (AncestryOf vaultId commit currentMain) else mret VdNotAncestor)
    (λ _, mret VdUnknown).

Fixpoint check_staged (currentMain : jstring) (commits : list jstring) : removal unit :=
  match commits with
  | [] => mret ()
  | commit :: commits =>
      verdict ← staged_verdict currentMain commit;
      match verdict with
      | VdUnknown => throw staged_unavailable
      | VdNotAncestor => throw (refusal 409 "device_has_unmerged_work"
          "The device has staged transfers that are not in the vault main history." (Some "staged_transfer"%string))
      | VdAncestor => check_staged currentMain commits
      end
  end.

Definition assertStagedCovered (currentMain : jstring) (discard : bool) : removal unit :=
  if discard then mret () else
  commits ← try_catch (perform (StagedTargetCommits vaultId deviceId)) (λ _, throw staged_unavailable);
  check_staged currentMain commits.

Definition verifyRefForIntent (s : Selected) (discard : bool) : removal (option jstring) :=
  oid ← readRef s;
  match oid with
  | None =>
      if negb (is_null_or (sl_device_ref_head s)) && is_null_or (sl_job s) && negb discard then throw ref_missing
      else mret None
  | Some oid => _ ← assertCovered (sl_current_main s) oid discard; mret (Some oid)
  end.

(** ** The journal *)

Definition update_job (f : DeviceRemovalJob → DeviceRemovalJob) (db : MetadataDb) : MetadataDb :=
  set_db_device_removal_jobs (update_first (is_job deviceId) f (db_device_removal_jobs db)) db.

Definition grant_tx (discard : bool) : transaction unit := λ w db,
  Ok ((), match find_job db deviceId with
          | Some job => if Bool.eqb (rj_discard_unmerged job) discard then db
                        else update_job (λ job, set_rj_updated_at (nowIso w 0) (set_rj_discard_unmerged discard job)) db
          | None => db
          end).
Definition persistGrant (discard : bool) : removal unit := mutateDurably (grant_tx discard).

Definition pending (job : DeviceRemovalJob) : DeviceRemovalJob :=
  set_rj_retryable true (set_rj_error_code None (set_rj_state RsPending job)).

Definition intent_tx (oid : option jstring) (discard : bool) : transaction unit := λ w db,
  _ ← eligible db;
  Ok ((), match find_job db deviceId with
          | None => set_db_device_removal_jobs (db_device_removal_jobs db ++
              [mk_DeviceRemovalJob deviceId vaultId (tg_owner target) (nowIso w 0) (nowIso w 0) RpIntent 1 oid discard RsPending None true]) db
          | Some _ => update_job (λ job, set_rj_updated_at (nowIso w 0) (pending (set_rj_discard_unmerged discard job))) db
          end).
Definition commitIntent (oid : option jstring) (discard : bool) : removal unit := mutateDurably (intent_tx oid discard).

Definition failure_tx (code : jstring) (retryable : bool) : transaction unit := λ w db,
  Ok ((), update_job (λ job, set_rj_updated_at (nowIso w 0)
            (set_rj_retryable retryable (set_rj_error_code (Some code) (set_rj_state RsFailed job)))) db).
Definition recordFailure (code : jstring) (retryable : bool) : removal unit :=
  try_catch (mutateDurably (failure_tx code retryable)) (λ _, mret ()).

(** [apply] gives [None] where it leaves the journal as it is. *)
Definition job_tx (apply : DeviceRemovalJob → option DeviceRemovalJob) : transaction (option DeviceRemovalJob) := λ w db,
  match find_job db deviceId with
  | None => Ok (None, db)
  | Some job =>
      match apply job with
      | None => Ok (Some job, db)
      | Some job => let job := set_rj_updated_at (nowIso w 0) job in Ok (Some job, update_job (λ _, job) db)
      end
  end.
Definition updateJob (apply : DeviceRemovalJob → option DeviceRemovalJob) : removal DeviceRemovalJob :=
  committed ← mutateDurably (job_tx apply);
  match committed with Some job => mret job | None => throw RemovalSuperseded end.

Definition settled_pending (job : DeviceRemovalJob) : bool :=
  bool_decide (rj_state job = RsPending) && is_null_or (rj_error_code job).
Definition markPending : removal DeviceRemovalJob :=
  updateJob (λ job, if settled_pending job then None else Some (pending job)).
Definition enter (phase : RemovalPhase) : removal DeviceRemovalJob := updateJob (λ job, Some (set_rj_phase phase job)).
Definition rebase (oid : option jstring) (phase : RemovalPhase) (job : DeviceRemovalJob) : DeviceRemovalJob :=
  set_rj_phase phase (set_rj_expected_ref_oid oid (set_rj_generation (rj_generation job + 1) job)).

(** ** The steps of a committed journal *)

Definition drain : removal unit :=
  settled ← perform (DrainTransfers vaultId deviceId);
  if negb settled then throw (incomplete "Device work is still draining. Retry later.") else
  idle ← perform (DrainDeviceLeases vaultId deviceId);
  if negb idle then throw (incomplete "Device work is still draining. Retry later.") else mret ().

Definition in_phase (phase : RemovalPhase) (job : DeviceRemovalJob) : bool := bool_decide (rj_phase job = phase).

(** Where the reference is not what this generation expects: the end of the step
    ([None]) or a new generation. *)
Definition next_generation (s : Selected) (job : DeviceRemovalJob) (current : option jstring) (moves : nat)
    : removal (option (DeviceRemovalJob * nat)) :=
  if in_phase RpIntent job && is_null_or current then
    _ ← lift (assertNoOpenWork s);
    if negb (rj_discard_unmerged job) then throw ref_missing else
    _ ← updateJob (λ job, Some (rebase None RpCleanup job));
    mret None
  else if (MAX_GENERATIONS_PER_RUN <? S moves)%nat then throw (incomplete "The device ref keeps changing. Retry later.") else
  job ← updateJob (λ job, Some (rebase current RpIntent job));
  mret (Some (job, S moves)).

(** The gates before the deletion; [None] where there is nothing to delete. *)
Definition admit_deletion (s : Selected) (job : DeviceRemovalJob) (current : option jstring) : removal (option DeviceRemovalJob) :=
  let gates (oid : jstring) := assertCovered (sl_current_main s) oid (rj_discard_unmerged job) in
  let staged := assertStagedCovered (sl_current_main s) (rj_discard_unmerged job) in
  if in_phase RpIntent job then
    _ ← lift (assertNoOpenWork s);
    _ ← (match current with Some oid => gates oid | None => mret () end);
    _ ← staged;
    match current with
    | None => _ ← enter RpCleanup; mret None
    | Some _ => job ← enter RpRefDeleting; mret (Some job)
    end
  else
    match current with
    | Some oid => _ ← gates oid; _ ← staged; mret (Some job)
    | None => mret (Some job)
    end.

(** One round of the loop: [None] when it returns, else the moves so far. *)
Definition delete_round (moves : nat) : removal (option nat) :=
  '(s, job) ← selectForStep;
  current ← readRef s;
  if in_phase RpCleanup job && is_null_or current then
    _ ← assertStagedCovered (sl_current_main s) (rj_discard_unmerged job); mret None
  else if in_phase RpRefDeleting job && is_null_or current then
    _ ← assertStagedCovered (sl_current_main s) (rj_discard_unmerged job);
    _ ← enter RpCleanup; mret None
  else
    next ← (if in_phase RpCleanup job || negb (oeqb current (rj_expected_ref_oid job))
            then next_generation s job current moves else mret (Some (job, moves)));
    match next with
    | None => mret None
    | Some (job, moves) =>
        admitted ← admit_deletion s job current;
        match admitted with
        | None => mret None
        | Some job =>
            outcome ← perform (DeleteRefCas vaultId (sl_device_ref s) (default [] (rj_expected_ref_oid job)));
            match outcome with
            | RdMoved => mret (Some moves)
            | RdDeleted | RdAbsent => _ ← enter RpCleanup; mret None
            end
        end
    end.

(** [for (;;)], followed for [rounds] rounds. *)
Fixpoint deleteRefStep (rounds moves : nat) : removal unit :=
  match rounds with
  | O => perform Wait
  | S rounds =>
      again ← delete_round moves;
      match again with None => mret () | Some moves => deleteRefStep rounds moves end
  end.

(** ** The cleanup *)

Definition others_than (id : option jstring) : bool := negb (oeqb id (Some deviceId)).

Definition own_connections (db : MetadataDb) : list jstring :=
  map c_connection_id (List.filter (λ c, oeqb (c_created_device_id c) (Some deviceId)) (db_connections db)).
Definition of_connection (removed : list jstring) (event : DiagnosticEventRow) : bool :=
  match dg_connection_id event with Some id => jmem id removed | None => false end.

Definition drop_tokens (db : MetadataDb) : MetadataDb :=
  set_db_tokens (List.filter (λ t, others_than (t_device_id t)) (db_tokens db)) db.
Definition drop_connections (removed : list jstring) (db : MetadataDb) : MetadataDb :=
  set_db_diagnostic_events (List.filter (λ e, negb (of_connection removed e)) (db_diagnostic_events db))
    (set_db_connections (List.filter (λ c, negb (jmem (c_connection_id c) removed)) (db_connections db)) db).
Definition drop_bookkeeping (db : MetadataDb) : MetadataDb :=
  set_db_directory_proposal_results (List.filter (λ r, negb (pr_device_id r =s? deviceId)) (db_directory_proposal_results db))
    (set_db_diagnostic_events (List.filter (λ e, others_than (dg_device_id e)) (db_diagnostic_events db)) db).

Definition swept (db : MetadataDb) : result unit :=
  match find_job db deviceId with
  | Some job => if in_phase RpCleanup job then Ok () else Throw RemovalSuperseded
  | None => Throw RemovalSuperseded
  end.
Definition sweep_tx (apply : list jstring → MetadataDb → MetadataDb) (ownsConnections : bool) : transaction unit := λ w db,
  _ ← swept db;
  Ok ((), apply (if ownsConnections then own_connections db else []) db).
Definition sweep (apply : list jstring → MetadataDb → MetadataDb) (ownsConnections : bool) : removal unit :=
  mutateDurably (sweep_tx apply ownsConnections).

Definition completion_tx : transaction unit := λ w db,
  _ ← swept db;
  let connections := own_connections db in
  let db := drop_bookkeeping (drop_connections connections (drop_tokens db)) in
  let db := set_db_devices (List.filter (λ d, negb (d_device_id d =s? deviceId)) (db_devices db)) db in
  let db := set_db_device_removal_jobs (List.filter (λ j, negb (is_job deviceId j)) (db_device_removal_jobs db)) db in
  Ok ((), push_audit w 0 (Some (tg_owner target)) None (Some vaultId) (lit "device_removed") (lit "device") (Some deviceId) (nowIso w 1) db).

Definition cleanupAndComplete : removal unit :=
  _ ← sweep (λ _, drop_tokens) false;
  _ ← sweep drop_connections true;
  _ ← perform (EraseDeviceResidue vaultId deviceId);
  _ ← sweep (λ _, drop_bookkeeping) false;
  _ ← mutateDurably completion_tx;
  perform (ReleaseDeviceBarrier vaultId deviceId).

(** ** A run of the journal *)

Definition withAdmission {A} (fn : removal A) : removal A := _ ← perform (AcquireAdmission vaultId); fn.
Definition runWithVaultLock {A} (fn : removal A) : removal A :=
  withAdmission (try_finally fn (perform (ArchiveCompletedHistory vaultId))).

Definition classify (error : js_error) : Z * bool * js_error :=
  match err_class error with
  | ERemovalFailure status retryable => (status, retryable, error)
  | EAuth status => (status, 500 <=? status,
      mk_error (err_class error) (err_code error) (err_message error) (mdel_if (λ k, k =s? lit "retryable") (err_details error)))
  | _ => (503, true, incomplete "Device removal is incomplete and can be retried.")
  end.

Definition is_superseded (error : js_error) : bool := match err_class error with ERemovalSuperseded => true | _ => false end.

Definition failed (error : js_error) : removal bool :=
  if is_superseded error then mret false else
  let '(status, retryable, failure) := classify error in
  _ ← recordFailure (err_code failure) retryable;
  throw (AuthError status (err_code failure) (err_message failure) ((lit "retryable", JBool retryable) :: err_details failure)).

Definition drive (rounds : nat) : removal bool :=
  try_catch
    (_ ← markPending;
     _ ← drain;
     _ ← runWithVaultLock (deleteRefStep rounds 0);
     _ ← withAdmission cleanupAndComplete;
     mret true)
    failed.

End removal.

(** ** The two entries *)

Definition target_of (request : DeviceRemovalRequest) : Target := mk_target (rq_owner request) (rq_vault request) (rq_device request).

Definition expectedPhrase (request : DeviceRemovalRequest) : jstring :=
  lit "DELETE " ++ rq_device request ++ (if rq_discard request then lit " AND DISCARD UNMERGED WORK" else []).
Definition phraseMatches (request : DeviceRemovalRequest) : bool := oeqb (rq_confirmation request) (Some (expectedPhrase request)).
Definition granted (request : DeviceRemovalRequest) : bool := phraseMatches request && rq_discard request.

Definition at_intent (s : Selected) : bool := match sl_job s with Some job => in_phase RpIntent job | None => true end.

Definition remove (rounds : nat) (request : DeviceRemovalRequest) : removal unit :=
  let target := target_of request in
  let discard := rq_discard request in
  s ← read (select target);
  _ ← (match sl_job s with
       | Some job => if Bool.eqb (rj_discard_unmerged job) (granted request) then mret () else persistGrant target (granted request)
       | None => mret ()
       end);
  if negb (phraseMatches request)
  then throw (refusal 400 "confirmation_mismatch" "Type the exact device removal confirmation phrase." None) else
  _ ← lift (assertNoOpenWork s);
  oid ← (if at_intent s then verifyRefForIntent target s discard else mret (sl_job s ≫= rj_expected_ref_oid));
  _ ← (if at_intent s then assertStagedCovered target (sl_current_main s) discard else mret ());
  _ ← commitIntent target oid discard;
  _ ← perform (CloseDeviceBarrier (rq_vault request) (rq_device request));
  finished ← drive target rounds;
  if finished : bool then mret () else throw (vault_deleting "Vault deletion superseded the device removal.").

(** [resumePending], the journals one after the other; a failure is logged. *)
Inductive Orphan := OrSuperseded | OrOrphan | OrNone.
Definition orphan_of (job : DeviceRemovalJob) (db : MetadataDb) : result Orphan :=
  Ok (if hasDurableDeletionRecord db (rj_vault_id job) then OrSuperseded
      else if existsb (λ d, (d_device_id d =s? rj_device_id job) && (d_vault_id d =s? rj_vault_id job)) (db_devices db) then OrNone
      else OrOrphan).

Definition drop_job_tx (id : jstring) : transaction unit := λ w db,
  Ok ((), set_db_device_removal_jobs (List.filter (λ j, negb (is_job id j)) (db_device_removal_jobs db)) db).

Definition resume_job (rounds : nat) (job : DeviceRemovalJob) : removal unit :=
  let target := mk_target (rj_owner_user_id job) (rj_vault_id job) (rj_device_id job) in
  try_catch
    (orphan ← read (orphan_of job);
     match orphan with
     | OrSuperseded => mret ()
     | OrOrphan =>
         _ ← mutateDurably (drop_job_tx (rj_device_id job));
         perform (ReleaseDeviceBarrier (rj_vault_id job) (rj_device_id job))
     | OrNone =>
         _ ← perform (CloseDeviceBarrier (rj_vault_id job) (rj_device_id job));
         if bool_decide (rj_state job = RsFailed) && negb (rj_retryable job) then mret ()
         else _ ← drive target rounds; mret ()
     end)
    (λ _, mret ()).

Fixpoint resume_jobs (rounds : nat) (jobs : list DeviceRemovalJob) : removal unit :=
  match jobs with [] => mret () | job :: jobs => _ ← resume_job rounds job; resume_jobs rounds jobs end.

Definition resumePending (rounds : nat) : removal unit :=
  jobs ← read (λ db, Ok (db_device_removal_jobs db));
  resume_jobs rounds jobs.
