(* ===== verification/RemovalSafety.v ===== *)
(** * A removal erases no unmerged work (proofs about DeviceRemoval.v)

    What the removal of a device erases - its reference and its staged transfers - is in
    the history of main, or the owner has granted the loss.  The argument follows the
    journal: once the barrier is closed and the leases are drained nothing is staged any
    more, and every path to the cleanup passes the gates. *)

From S2P Require Export DeviceRemoval.

Local Open Scope nat_scope.

(** ** The state *)

(** An erased name of a commit, with the document at that time. *)
Record erasure := mk_erasure { er_vault : jstring; er_ref : jstring; er_commit : jstring; er_db : MetadataDb }.

(** References by vault and name; staged transfers, barriers and leases by vault and
    device. *)
Record site := mk_site {
  si_db : MetadataDb;
  si_refs : gmap (jstring * jstring) jstring;
  si_staged : gmap (jstring * jstring) (list jstring);
  si_closing : gset (jstring * jstring);
  si_leases : gmap (jstring * jstring) nat;
  si_erased : list erasure }.

Definition with_db (db : MetadataDb) (s : site) : site :=
  mk_site db (si_refs s) (si_staged s) (si_closing s) (si_leases s) (si_erased s).
Definition with_closing (closing : gset (jstring * jstring)) (s : site) : site :=
  mk_site (si_db s) (si_refs s) (si_staged s) closing (si_leases s) (si_erased s).
Definition ref_of (vault ref : jstring) (s : site) : option jstring := si_refs s !! (vault, ref).
Definition staged_of (vault device : jstring) (s : site) : list jstring := default [] (si_staged s !! (vault, device)).
Definition leases_of (vault device : jstring) (s : site) : nat := default 0 (si_leases s !! (vault, device)).

Definition erase_ref (vault ref commit : jstring) (s : site) : site :=
  mk_site (si_db s) (delete (vault, ref) (si_refs s)) (si_staged s) (si_closing s) (si_leases s)
    (si_erased s ++ [mk_erasure vault ref commit (si_db s)]).
Definition erase_staged (vault device : jstring) (gone kept : list jstring) (s : site) : site :=
  mk_site (si_db s) (si_refs s) (<[(vault, device) := kept]> (si_staged s)) (si_closing s) (si_leases s)
    (si_erased s ++ map (λ commit, mk_erasure vault (DEVICE_REFS ++ device) commit (si_db s)) gone).

Definition alive (vault : jstring) (db : MetadataDb) : Prop :=
  hasDurableDeletionRecord db vault = false ∧ is_Some (VaultState.main_of vault db).

Section steps.
Context (is_ancestor : jstring → jstring → bool).

Definition ancestor (a b : jstring) : Prop := is_ancestor a b = true.
Definition merged (vault : jstring) (db : MetadataDb) (commit : jstring) : Prop :=
  ∃ main, VaultState.main_of vault db = Some main ∧ ancestor commit main.

Definition fails {A} (r : result A) : Prop := ∃ e, r = Throw e.

(** What a call may do: everything may fail, before or after it took effect. *)
Definition call_step (B : Type) (c : call B) (s : site) : result B → site → Prop :=
  match c in call B return result B → site → Prop with
  | Read => λ r s', s' = s ∧ (r = Ok (si_db s) ∨ fails r)
  | MutateDurably fn => λ r s', fails r ∧ s' = s ∨
      ∃ w, match run w (fn w) (si_db s) with
           | (Ok a, db) => (r = Ok a ∨ fails r) ∧ s' = with_db db s
           | (Throw e, _) => r = Throw e ∧ s' = s
           end
  | ReadRefStrict vault ref => λ r s', s' = s ∧ (r = Ok (ref_of vault ref s) ∨ fails r)
  | DeleteRefCas vault ref expected => λ r s',
      fails r ∧ s' = s ∨
      ref_of vault ref s = Some expected ∧ s' = erase_ref vault ref expected s ∧ r ≠ Ok RdMoved ∨
      s' = s ∧ r = Ok RdMoved ∧ ref_of vault ref s ≠ Some expected ∨
      s' = s ∧ r = Ok RdAbsent ∧ ref_of vault ref s = None
  | AncestryOf vault a b => λ r s', s' = s ∧ (r = Ok VdAncestor → ancestor a b)
  | CommitExists vault commit => λ r s', s' = s
  | StagedTargetCommits vault device => λ r s', s' = s ∧ (r = Ok (staged_of vault device s) ∨ fails r)
  | DrainTransfers vault device => λ r s', s' = s
  | DrainDeviceLeases vault device => λ r s', s' = s ∧ (r = Ok true → leases_of vault device s = 0)
  | EraseDeviceResidue vault device => λ r s', ∃ gone kept, s' = erase_staged vault device gone kept s ∧
      gone ⊆ staged_of vault device s ∧ kept ⊆ staged_of vault device s ∧ (r = Ok () → kept = [])
  | CloseDeviceBarrier vault device => λ r s', r = Ok () ∧ s' = with_closing ({[ (vault, device) ]} ∪ si_closing s) s
  | ReleaseDeviceBarrier vault device => λ r s', r = Ok () ∧ s' = with_closing (si_closing s ∖ {[ (vault, device) ]}) s
  | AcquireAdmission vault => λ r s', s' = s
  | ArchiveCompletedHistory vault => λ r s', ∃ operations histories,
      s' = with_db (set_db_operation_history_by_vault histories (set_db_sync_operations operations (si_db s))) s
  | Wait => λ r s', False
  end.

(** ** What other methods leave alone *)

Context (v d : jstring).

Definition own (e : erasure) : bool := (er_vault e =s? v) && (er_ref e =s? DEVICE_REFS ++ d).
Definition erasures (s : site) : list erasure := List.filter own (si_erased s).

(** Removals of the device run one after the other; main only advances; a vault that
    is deleted stays so, and only its deletion drops the journal; while the barrier is
    closed there are no new leases, and without a lease nothing is staged. *)
Record others (s s' : site) : Prop := {
  same_erasures : erasures s' = erasures s;
  alive_before : alive v (si_db s') → alive v (si_db s);
  main_advances m : alive v (si_db s') → VaultState.main_of v (si_db s) = Some m →
    ∃ m', VaultState.main_of v (si_db s') = Some m' ∧ ancestor m m';
  job_kept : find_job (si_db s') d = find_job (si_db s) d ∨ find_job (si_db s') d = None;
  barrier_kept : alive v (si_db s') → (v, d) ∈ si_closing s → (v, d) ∈ si_closing s';
  idle_kept : alive v (si_db s') → (v, d) ∈ si_closing s → leases_of v d s = 0 →
    leases_of v d s' = 0 ∧ staged_of v d s' ⊆ staged_of v d s
}.

Context `{!PreOrder ancestor}.

#[export] Instance others_preorder : PreOrder others.
Proof.
  split.
  - intros s. split; auto. intros m _ E. exists m. split; [done|reflexivity].
  - intros a b c [e l m j k i] [e' l' m' j' k' i']. split.
    + by rewrite e'.
    + auto.
    + intros x Hc Hx. destruct (m x (l' Hc) Hx) as (y & Hy & H1). destruct (m' y Hc Hy) as (z & Hz & H2).
      exists z. split; [done|by transitivity y].
    + destruct j' as [->|?]; [done|by right].
    + auto.
    + intros Hc H1 H2. destruct (i (l' Hc) H1 H2) as [H3 H4]. destruct (i' Hc (k (l' Hc) H1) H3) as [H5 H6].
      split; [done|by transitivity (staged_of v d b)].
Qed.

(** ** Assertions *)

(** What was erased since the start [s0] is merged, while the vault lives. *)
Definition kept_work (s0 s : site) : Prop :=
  ∀ e, e ∈ erasures s → e ∈ erasures s0 ∨ (alive v (er_db e) → merged v (er_db e) (er_commit e)).
Definition ungranted (s : site) : Prop := ∀ job, find_job (si_db s) d = Some job → rj_discard_unmerged job = false.
Definition barred (s : site) : Prop := alive v (si_db s) → (v, d) ∈ si_closing s.
Definition idle (s : site) : Prop := alive v (si_db s) → (v, d) ∈ si_closing s ∧ leases_of v d s = 0.
Definition covered (commit : jstring) (s : site) : Prop := alive v (si_db s) → merged v (si_db s) commit.
Definition staged_covered (s : site) : Prop := alive v (si_db s) → ∀ c, c ∈ staged_of v d s → merged v (si_db s) c.
Definition journal_is (job : option DeviceRemovalJob) (s : site) : Prop :=
  find_job (si_db s) d = job ∨ find_job (si_db s) d = None.

(** A transaction of a removal: it leaves the vaults and the deletions alone and grants
    nothing. *)
Record journaled (db db' : MetadataDb) : Prop := {
  jl_vaults : db_vaults db' = db_vaults db;
  jl_jobs : db_deletion_jobs db' = db_deletion_jobs db;
  jl_receipts : db_deletion_receipts db' = db_deletion_receipts db;
  jl_grant : ∀ job, find_job db' d = Some job → rj_discard_unmerged job = true →
    ∃ job0, find_job db d = Some job0 ∧ rj_discard_unmerged job0 = true
}.

#[export] Instance journaled_preorder : PreOrder journaled.
Proof.
  split.
  - intros db. split; eauto.
  - intros a b c [h1 h2 h3 h4] [k1 k2 k3 k4]. split; try congruence. intros job H1 H2.
    destruct (k4 _ H1 H2) as (j & H3 & H4). eauto.
Qed.

Lemma journaled_alive db db' : journaled db db' → alive v db' ↔ alive v db.
Proof. intros [h1 h2 h3 _]. unfold alive, hasDurableDeletionRecord, VaultState.main_of. by rewrite h1, h2, h3. Qed.
Lemma journaled_main db db' : journaled db db' → VaultState.main_of v db' = VaultState.main_of v db.
Proof. intros [h1 _ _ _]. unfold VaultState.main_of. by rewrite h1. Qed.
Lemma journaled_merged db db' c : journaled db db' → merged v db' c ↔ merged v db c.
Proof. intros H. unfold merged. by rewrite (journaled_main _ _ H). Qed.
Lemma journaled_committed h db : journaled db (committed h db).
Proof. split; try done. unfold find_job, committed. cbn. eauto. Qed.

#[export] Instance kept_work_stable s0 : Stable others (kept_work s0).
Proof. intros s s' [e _ _ _ _ _] H. unfold kept_work. by rewrite e. Qed.
#[export] Instance ungranted_stable : Stable others ungranted.
Proof. intros s s' [_ _ _ j _ _] H job. destruct j as [-> | ->]; [apply H|done]. Qed.
#[export] Instance barred_stable : Stable others barred.
Proof. intros s s' [_ l _ _ k _] H Ha. auto. Qed.
#[export] Instance idle_stable : Stable others idle.
Proof. intros s s' [_ l _ _ k i] H Ha. destruct (H (l Ha)) as [H1 H2]. split; [auto|by apply i]. Qed.
#[export] Instance covered_stable c : Stable others (covered c).
Proof.
  intros s s' [_ l m _ _ _] H Ha. destruct (H (l Ha)) as (x & Hx & H1). destruct (m x Ha Hx) as (y & Hy & H2).
  exists y. split; [done|by transitivity x].
Qed.
#[export] Instance staged_stable : Stable others (λ s, idle s ∧ staged_covered s).
Proof.
  intros s s' Hr [Hi H]. split; [by eapply idle_stable|]. intros Ha c Hc. destruct Hr as [_ l m _ k i].
  destruct (Hi (l Ha)) as [H1 H2]. destruct (i Ha H1 H2) as [_ H3].
  destruct (H (l Ha) c (H3 c Hc)) as (x & Hx & H4). destruct (m x Ha Hx) as (y & Hy & H5).
  exists y. split; [done|by transitivity x].
Qed.
#[export] Instance journal_stable job : Stable others (journal_is job).
Proof. intros s s' [_ _ _ j _ _] H. unfold journal_is in *. destruct j as [-> | ->]; auto. Qed.

End steps.

(** ** Calls *)

Section calls.
Context (is_ancestor : jstring → jstring → bool) `{!PreOrder (ancestor is_ancestor)} (v d : jstring) (s0 : site).

Local Abbreviation step := (call_step is_ancestor).
Local Abbreviation rely := (others is_ancestor v d).
Local Abbreviation I := (kept_work is_ancestor v d s0).
Local Abbreviation hoare := (hoare step rely I).
Local Abbreviation quiet := (quiet step rely I).

(** Assertions that other methods and the transactions of a removal keep. *)
Class Steady (P : site → Prop) := {
  steady_stable :: Stable rely P;
  steady_journaled s db : P s → journaled d (si_db s) db → P (with_db db s)
}.
Class Settled (P : site → Prop) := {
  settled_assertion :: Assertion rely I P;
  settled_journaled s db : P s → journaled d (si_db s) db → P (with_db db s)
}.

#[export] Instance kept_work_settled : Settled I.
Proof. split; [split; [apply _|done]|done]. Qed.
#[export] Instance ungranted_steady : Steady (ungranted d).
Proof.
  split; [apply _|]. intros s db H [_ _ _ Hj] job Hf. destruct (rj_discard_unmerged job) eqn:E; [|done].
  destruct (Hj job Hf E) as (job0 & H1 & H2). by rewrite (H job0 H1) in H2.
Qed.
#[export] Instance barred_steady : Steady (barred v d).
Proof. split; [apply _|]. intros s db H Hj Ha. apply H. by apply (journaled_alive v d) in Hj as [Hj _]; apply Hj. Qed.
#[export] Instance idle_steady : Steady (idle v d).
Proof. split; [apply _|]. intros s db H Hj Ha. apply H. by apply (journaled_alive v d) in Hj as [Hj _]; apply Hj. Qed.
#[export] Instance covered_steady c : Steady (covered is_ancestor v c).
Proof.
  split; [apply _|]. intros s db H Hj Ha. apply (journaled_merged is_ancestor v d (si_db s) db c Hj), H.
  by apply (journaled_alive v d) in Hj as [Hj _]; apply Hj.
Qed.
#[export] Instance staged_steady : Steady (λ s, idle v d s ∧ staged_covered is_ancestor v d s).
Proof.
  split; [apply _|]. intros s db [Hi H] Hj. split; [by apply idle_steady|]. intros Ha c Hc.
  apply (journaled_merged is_ancestor v d (si_db s) db c Hj), H; [|done].
  by apply (journaled_alive v d) in Hj as [Hj _]; apply Hj.
Qed.
#[export] Instance pure_steady (φ : Prop) : Steady (λ _, φ).
Proof. split; [apply _|done]. Qed.
#[export] Instance and_settled P Q : Settled P → Steady Q → Settled (λ s, P s ∧ Q s).
Proof.
  intros [[HP HI] HJ] [HQ HK]. split; [split; [apply _|by intros s []; apply HI]|].
  intros s db []. split; auto.
Qed.
#[export] Instance settled_and_journal P job : Settled P → Assertion rely I (λ s, P s ∧ journal_is d job s).
Proof. intros [[HP HI] _]. split; [apply _|]. by intros s []; apply HI. Qed.
#[export] Instance stable_all {X} (φ : X → Prop) (R : X → site → Prop) : (∀ x, Stable rely (R x)) → Stable rely (λ s, ∀ x, φ x → R x s).
Proof. intros HR s s' Hr H x Hx. eapply HR; [exact Hr|by apply H]. Qed.
#[export] Instance stable_imp (φ : Prop) (R : site → Prop) : Stable rely R → Stable rely (λ s, φ → R s).
Proof. intros HR s s' Hr H Hx. eapply HR; [exact Hr|by apply H]. Qed.
#[export] Instance assertion_stably P Q : Assertion rely I P → Stable rely Q → Assertion rely I (λ s, P s ∧ Q s).
Proof. intros [HP HI] HQ. split; [apply _|]. by intros s []; apply HI. Qed.
#[export] Instance assertion_all {X} (P : site → Prop) (φ : X → Prop) (R : X → site → Prop) :
  Assertion rely I P → (∀ x, Assertion rely I (R x)) → Assertion rely I (λ s, P s ∧ ∀ x, φ x → R x s).
Proof.
  intros [HP HI] HR. split; [|by intros s []; apply HI]. intros s s' Hr [H1 H2]. split; [by eapply HP|].
  intros x Hx. destruct (HR x). by eapply assertion_stable; [|apply H2].
Qed.
#[export] Instance assertion_pure P (φ : Prop) : Assertion rely I P → Assertion rely I (λ s, P s ∧ φ).
Proof. intros [HP HI]. split; [|by intros s []; apply HI]. intros s s' Hr [? ?]. split; [by eapply HP|done]. Qed.

Section precise_rules.
Context (P : site → Prop) `{!Assertion rely I P}.

Lemma removal_hoare_mutate {A} (fn : transaction A) R E : (∀ a, Assertion rely I (R a)) → Assertion rely I E →
  (∀ s, P s → E s) →
  (∀ s w a db h, P s → fn w (si_db s) = Ok (a, db) → R a (with_db (committed h db) s) ∧ E (with_db (committed h db) s)) →
  hoare P (mutateDurably fn) R E.
Proof.
  intros HR HE HPE H. apply hoare_call; [apply _| |done|done]. intros s r s' Hs Hr.
  destruct Hr as [[[e ->] ->]|(w & Hr)]; [auto|].
  destruct (run_cases w (fn w) (si_db s)) as [(e & _ & Er)|(a & db & h & Ef & Er)]; rewrite Er in Hr.
  - destruct Hr as [-> ->]. auto.
  - destruct (H s w a db h Hs Ef). by destruct Hr as [[-> |[e ->]] ->].
Qed.

Lemma removal_hoare_read {A} (sel : MetadataDb → result A) (R : A → site → Prop) : (∀ a, Assertion rely I (R a)) →
  (∀ s a, P s → sel (si_db s) = Ok a → R a s) → hoare P (read sel) R P.
Proof.
  intros HR H. unfold read.
  eapply hoare_bind with (R' := λ db s, P s ∧ ∀ a, sel db = Ok a → R a s); [apply _| |intros db|apply _].
  - apply hoare_call; [apply _| |intros; apply _|apply _]. intros s r s' Hs [-> [->|[e ->]]]; [|done].
    split; [done|]. intros a. by apply H.
  - apply hoare_lift; [apply _| |]; [|by intros s []]. intros a s E [_ Hs]. by apply Hs.
Qed.

Lemma quiet_same {A} (c : call A) : (∀ s r s', step _ c s r s' → s' = s) → quiet P (perform c).
Proof.
  intros H. apply hoare_call; [apply _| |intros; apply _|apply _]. intros s r s' Hs Hr.
  rewrite (H _ _ _ Hr). by destruct r.
Qed.

End precise_rules.

Section call_rules.
Context (P : site → Prop) `{!Settled P}.

Lemma removal_quiet_mutate {A} (fn : transaction A) : (∀ w db a db', fn w db = Ok (a, db') → journaled d db db') → quiet P (mutateDurably fn).
Proof.
  intros H. apply removal_hoare_mutate; [apply _|intros; apply _|apply _|done|]. intros s w a db h Hs Hf.
  assert (P (with_db (committed h db) s)); [|done]. apply settled_journaled; [done|].
  etrans; [by eapply H|apply journaled_committed].
Qed.

Lemma quiet_read {A} (sel : MetadataDb → result A) : quiet P (read sel).
Proof. by apply removal_hoare_read; [apply _|intros; apply _|]. Qed.

Lemma removal_quiet_archive vault : quiet P (perform (ArchiveCompletedHistory vault)).
Proof.
  apply hoare_call; [apply _| |intros; apply _|apply _]. intros s r s' Hs (ops & h & ->).
  assert (P (with_db (set_db_operation_history_by_vault h (set_db_sync_operations ops (si_db s))) s)); [|by destruct r].
  apply settled_journaled; [done|]. by split; eauto.
Qed.

End call_rules.
End calls.

(** ** Transactions *)

Section transactions.
Context (d : jstring).

Lemma find_job_id db id job : find_job db id = Some job → rj_device_id job = id.
Proof. intros [_ H]%find_row_Some. by apply jeqb_eq. Qed.

Lemma find_update_job_own target f db : tg_device target = d → (∀ job, rj_device_id job = d → rj_device_id (f job) = d) →
  find_job (update_job target f db) d = f <$> find_job db d.
Proof.
  intros <- Hf. unfold find_job, update_job, find_row, is_job. cbn. induction (db_device_removal_jobs db) as [|j l IH]; [done|]. cbn.
  destruct (rj_device_id j =s? tg_device target) eqn:E; cbn; [|by rewrite E].
  apply jeqb_eq in E. by rewrite (Hf j E), jeqb_refl.
Qed.

Lemma find_update_job_other target f db : tg_device target ≠ d → (∀ job, rj_device_id job = tg_device target → rj_device_id (f job) = tg_device target) →
  find_job (update_job target f db) d = find_job db d.
Proof.
  intros Hne Hf. unfold find_job, update_job, find_row, is_job. cbn. induction (db_device_removal_jobs db) as [|j l IH]; [done|]. cbn.
  destruct (rj_device_id j =s? tg_device target) eqn:E; cbn; [|by rewrite IH].
  apply jeqb_eq in E. assert ((tg_device target =s? d) = false) as Hn by (apply not_true_iff_false; by rewrite jeqb_eq).
  by rewrite (Hf j E), E, Hn.
Qed.

Lemma journaled_update target f db :
  (∀ job, rj_device_id job = tg_device target → rj_device_id (f job) = tg_device target) →
  (∀ job, find_job db (tg_device target) = Some job → rj_discard_unmerged (f job) = true → rj_discard_unmerged job = true) →
  journaled d db (update_job target f db).
Proof.
  intros Hid Hg. split; try done. intros job. destruct (decide (tg_device target = d)) as [E|E].
  - rewrite (find_update_job_own target f db E) by by rewrite <- E. intros (j & Hj & ->)%fmap_Some H.
    exists j. split; [done|]. apply Hg; [by rewrite E|done].
  - rewrite find_update_job_other by done. eauto.
Qed.

Lemma find_filter_job id db job :
  find_row (is_job d) (List.filter (λ j, negb (is_job id j)) (db_device_removal_jobs db)) = Some job → find_job db d = Some job.
Proof.
  unfold find_job, find_row. induction (db_device_removal_jobs db) as [|j l IH]; [done|]. cbn.
  destruct (is_job id j) eqn:E; cbn; [|by destruct (is_job d j)].
  intros H. pose proof (IH H) as H'. destruct (is_job d j) eqn:E'; [|done].
  exfalso. apply find_some in H as [[_ Hn]%filter_In Hd]. unfold is_job in *.
  rewrite jeqb_eq in E, E', Hd. rewrite Hd, <- E', E, jeqb_refl in Hn. done.
Qed.

Lemma journaled_same db db' : db_vaults db' = db_vaults db → db_deletion_jobs db' = db_deletion_jobs db →
  db_deletion_receipts db' = db_deletion_receipts db → db_device_removal_jobs db' = db_device_removal_jobs db → journaled d db db'.
Proof. intros H1 H2 H3 H4. split; [done..|]. unfold find_job. rewrite H4. eauto. Qed.

Lemma journaled_drop id db :
  journaled d db (set_db_device_removal_jobs (List.filter (λ j, negb (is_job id j)) (db_device_removal_jobs db)) db).
Proof. split; [done..|]. intros job H%find_filter_job. eauto. Qed.

Definition keeps_grant (f : DeviceRemovalJob → DeviceRemovalJob) : Prop :=
  ∀ job, rj_device_id (f job) = rj_device_id job ∧ rj_discard_unmerged (f job) = rj_discard_unmerged job.

Lemma journaled_keep target f db : keeps_grant f → journaled d db (update_job target f db).
Proof. intros H. apply journaled_update; intros job; destruct (H job) as [H1 H2]; [by rewrite H1|by rewrite H2]. Qed.

Definition applies_keep (apply : DeviceRemovalJob → option DeviceRemovalJob) : Prop :=
  ∀ job job', apply job = Some job' → rj_device_id job' = rj_device_id job ∧ rj_discard_unmerged job' = rj_discard_unmerged job.

Lemma journaled_job target apply w db a db' : applies_keep apply → job_tx target apply w db = Ok (a, db') → journaled d db db'.
Proof.
  intros H. unfold job_tx. destruct (find_job db (tg_device target)) as [job|] eqn:E; [|by intros [= <- <-]].
  destruct (apply job) as [job'|] eqn:E'; [|by intros [= <- <-]].
  destruct (H _ _ E') as [H1 H2]. intros [= <- <-]. apply journaled_update; cbn.
  - intros _ _. by rewrite H1, (find_job_id _ _ _ E).
  - intros j Hj. rewrite E in Hj. injection Hj as ->. by rewrite H2.
Qed.

Lemma journaled_grant target w db a db' : grant_tx target false w db = Ok (a, db') → journaled d db db'.
Proof.
  unfold grant_tx. intros E. assert (db' = match find_job db (tg_device target) with Some job => if Bool.eqb (rj_discard_unmerged job) false then db
    else update_job target (λ job, set_rj_updated_at (nowIso w 0) (set_rj_discard_unmerged false job)) db | None => db end) as -> by congruence.
  destruct (find_job _ _) as [job|]; [|done]. destruct (Bool.eqb _ _); [done|]. by apply journaled_update.
Qed.

Lemma find_row_snoc {A} (p : A → bool) l x y : find_row p (l ++ [x]) = Some y → find_row p l = Some y ∨ y = x.
Proof.
  unfold find_row. induction l as [|z l IH]; cbn; [destruct (p x); [|done]; intros [= ->]; by right|]. by destruct (p z); [left|].
Qed.

Lemma journaled_intent target oid w db a db' : intent_tx target oid false w db = Ok (a, db') → journaled d db db'.
Proof.
  unfold intent_tx. destruct (eligible target db) as [x|]; [|done]. cbn [mbind result_bind]. intros [= _ <-].
  destruct (find_job db (tg_device target)) as [job|] eqn:E.
  - by apply journaled_update.
  - split; [done..|]. intros job. unfold find_job. cbn. intros H Hg. apply find_row_snoc in H as [H| ->]; [eauto|done].
Qed.

Lemma journaled_failure target code retryable w db a db' : failure_tx target code retryable w db = Ok (a, db') → journaled d db db'.
Proof. intros [= _ <-]. by apply journaled_keep. Qed.

Lemma journaled_sweep target apply owns w db a db' : (∀ removed db, journaled d db (apply removed db)) →
  sweep_tx target apply owns w db = Ok (a, db') → journaled d db db'.
Proof. intros H. unfold sweep_tx. destruct (swept target db); [|done]. intros [= _ <-]. apply H. Qed.

Lemma journaled_drop_tokens target db : journaled d db (drop_tokens target db).
Proof. by apply journaled_same. Qed.
Lemma journaled_drop_connections removed db : journaled d db (drop_connections removed db).
Proof. by apply journaled_same. Qed.
Lemma journaled_drop_bookkeeping target db : journaled d db (drop_bookkeeping target db).
Proof. by apply journaled_same. Qed.

Lemma journaled_completion target w db a db' : completion_tx target w db = Ok (a, db') → journaled d db db'.
Proof.
  unfold completion_tx. destruct (swept target db); [|done]. cbn [mbind result_bind]. intros [= _ <-].
  etrans; [|by apply journaled_same]. etrans; [apply journaled_drop|]. by apply journaled_same.
Qed.

Lemma journaled_drop_job id w db a db' : drop_job_tx id w db = Ok (a, db') → journaled d db db'.
Proof. intros [= _ <-]. apply journaled_drop. Qed.

End transactions.

Create HintDb journal.
#[export] Hint Resolve journaled_job journaled_failure journaled_grant journaled_intent journaled_completion journaled_drop_job
  journaled_drop_tokens journaled_drop_connections journaled_drop_bookkeeping : journal.

(** ** What every removal keeps *)

Section any_target.
Context (is_ancestor : jstring → jstring → bool) `{!PreOrder (ancestor is_ancestor)} (v d : jstring) (s0 : site) (target : Target).

Local Abbreviation step := (call_step is_ancestor).
Local Abbreviation rely := (others is_ancestor v d).
Local Abbreviation I := (kept_work is_ancestor v d s0).
Local Abbreviation hoare := (hoare step rely I).
Local Abbreviation quiet := (quiet step rely I).

Context (P : site → Prop) `{!Assertion rely I P}.

Lemma quiet_read_ref vault ref : quiet P (perform (ReadRefStrict vault ref)).
Proof. apply (quiet_same is_ancestor v d s0); [apply _|]. by intros s r s' [-> _]. Qed.
Lemma quiet_ancestry vault a b : quiet P (perform (AncestryOf vault a b)).
Proof. apply (quiet_same is_ancestor v d s0); [apply _|]. by intros s r s' [-> _]. Qed.
Lemma quiet_exists vault c : quiet P (perform (CommitExists vault c)).
Proof. apply (quiet_same is_ancestor v d s0); [apply _|]. by intros s r s' ->. Qed.
Lemma quiet_staged vault device : quiet P (perform (StagedTargetCommits vault device)).
Proof. apply (quiet_same is_ancestor v d s0); [apply _|]. by intros s r s' [-> _]. Qed.
Lemma quiet_drain_transfers vault device : quiet P (perform (DrainTransfers vault device)).
Proof. apply (quiet_same is_ancestor v d s0); [apply _|]. by intros s r s' ->. Qed.
Lemma quiet_drain_leases vault device : quiet P (perform (DrainDeviceLeases vault device)).
Proof. apply (quiet_same is_ancestor v d s0); [apply _|]. by intros s r s' [-> _]. Qed.
Lemma quiet_admission vault : quiet P (perform (AcquireAdmission vault)).
Proof. apply (quiet_same is_ancestor v d s0); [apply _|]. by intros s r s' ->. Qed.
Lemma quiet_wait : quiet P (perform Wait).
Proof. apply (quiet_same is_ancestor v d s0); [apply _|]. by intros s r s'. Qed.
Lemma readRef_named s : hoare P (readRef target s) (λ _ st, P st ∧ sl_device_ref s = DEVICE_REFS ++ tg_device target) P.
Proof.
  unfold readRef. destruct (negb _) eqn:E; [by apply hoare_throw; [apply _|]|].
  apply negb_false_iff, jeqb_eq in E. eapply hoare_weaken; [|done| |done].
  - apply quiet_catch; [apply _|apply _|apply quiet_read_ref; apply _|intros e]. apply quiet_throw; apply _.
  - by intros.
Qed.
End any_target.

Ltac removal_step :=
  lazymatch goal with
  | |- Programs.quiet _ _ _ _ (mret _) => apply quiet_ret; apply _
  | |- Programs.quiet _ _ _ _ (throw _) => apply quiet_throw; apply _
  | |- Programs.quiet _ _ _ _ (lift _) => apply quiet_lift; apply _
  | |- Programs.quiet _ _ _ _ (read _) => apply quiet_read; apply _
  | |- Programs.quiet _ _ _ _ (perform (ReadRefStrict _ _)) => apply quiet_read_ref; apply _
  | |- Programs.quiet _ _ _ _ (perform (AncestryOf _ _ _)) => apply quiet_ancestry; apply _
  | |- Programs.quiet _ _ _ _ (perform (CommitExists _ _)) => apply quiet_exists; apply _
  | |- Programs.quiet _ _ _ _ (perform (StagedTargetCommits _ _)) => apply quiet_staged; apply _
  | |- Programs.quiet _ _ _ _ (perform (DrainTransfers _ _)) => apply quiet_drain_transfers; apply _
  | |- Programs.quiet _ _ _ _ (perform (DrainDeviceLeases _ _)) => apply quiet_drain_leases; apply _
  | |- Programs.quiet _ _ _ _ (perform (AcquireAdmission _)) => apply quiet_admission; apply _
  | |- Programs.quiet _ _ _ _ (perform (ArchiveCompletedHistory _)) => apply removal_quiet_archive; apply _
  | |- Programs.quiet _ _ _ _ (perform Wait) => apply quiet_wait; apply _
  | |- Programs.quiet _ _ _ _ (mutateDurably _) => apply removal_quiet_mutate; [apply _|eauto with journal]
  | |- Programs.quiet _ _ _ _ (mbind _ _) => apply quiet_bind; [apply _|apply _| |intros ?]
  | |- Programs.quiet _ _ _ _ (try_catch _ _) => apply quiet_catch; [apply _|apply _| |intros ?]
  | |- Programs.quiet _ _ _ _ (match ?x with _ => _ end) => destruct x
  end.
Ltac removals := cbv zeta; repeat removal_step.

Section any_target_parts.
Context (is_ancestor : jstring → jstring → bool) `{!PreOrder (ancestor is_ancestor)} (v d : jstring) (s0 : site) (target : Target).

Local Abbreviation quiet := (quiet (call_step is_ancestor) (others is_ancestor v d) (kept_work is_ancestor v d s0)).
Context (P : site → Prop) `{!Settled is_ancestor v d s0 P}.

Lemma updateJob_quiet apply : applies_keep apply → quiet P (updateJob target apply).
Proof. intros H. unfold updateJob. removals. Qed.
Lemma phase_keeps phase : applies_keep (λ job, Some (set_rj_phase phase job)).
Proof. by intros job job' [= <-]. Qed.
Lemma rebase_keeps oid phase : applies_keep (λ job, Some (rebase oid phase job)).
Proof. by intros job job' [= <-]. Qed.
Lemma pending_keeps : applies_keep (λ job, if settled_pending job then None else Some (pending job)).
Proof. intros job job'. destruct (settled_pending job); [done|]. by intros [= <-]. Qed.

Lemma recordFailure_quiet code retryable : quiet P (recordFailure target code retryable).
Proof. unfold recordFailure. removals. Qed.
Lemma failed_quiet e : quiet P (failed target e).
Proof. unfold failed. removals. apply recordFailure_quiet. Qed.
Lemma markPending_quiet : quiet P (markPending target).
Proof. apply updateJob_quiet, pending_keeps. Qed.
Lemma drain_quiet : quiet P (drain target).
Proof. unfold drain. removals. Qed.
Lemma readRef_quiet s : quiet P (readRef target s).
Proof. unfold readRef. removals. Qed.
Lemma check_staged_quiet main commits : quiet P (check_staged target main commits).
Proof. induction commits as [|c commits IH]; cbn [check_staged]; [removals|]. unfold staged_verdict. removals. exact IH. Qed.
Lemma assertStagedCovered_quiet main discard : quiet P (assertStagedCovered target main discard).
Proof. unfold assertStagedCovered. removals. apply check_staged_quiet. Qed.
Lemma assertCovered_quiet main oid discard : quiet P (assertCovered target main oid discard).
Proof. unfold assertCovered. removals. Qed.
Lemma verifyRefForIntent_quiet s discard : quiet P (verifyRefForIntent target s discard).
Proof. unfold verifyRefForIntent. removals; [apply readRef_quiet|apply assertCovered_quiet]. Qed.
Lemma next_generation_quiet s job current moves : quiet P (next_generation target s job current moves).
Proof. unfold next_generation. removals; apply updateJob_quiet, rebase_keeps. Qed.
Lemma admit_deletion_quiet s job current : quiet P (admit_deletion target s job current).
Proof.
  unfold admit_deletion, enter. removals;
    first [apply assertCovered_quiet|apply assertStagedCovered_quiet|apply updateJob_quiet, phase_keeps].
Qed.
Lemma sweep_quiet apply owns : (∀ removed db, journaled d db (apply removed db)) → quiet P (sweep target apply owns).
Proof. intros H. unfold sweep. apply removal_quiet_mutate; [apply _|]. intros w db a db'. by eapply journaled_sweep. Qed.
Lemma locked_quiet {A} (m : removal A) : quiet P m → quiet P (runWithVaultLock target m).
Proof.
  intros H. unfold runWithVaultLock, withAdmission, try_finally. removals. apply quiet_after; [apply _|exact H|intros r].
  apply quiet_after; [apply _|apply removal_quiet_archive; apply _|intros rf].
  destruct r as [x|e], rf; first [by apply (quiet_ret _ _ _ P x)|by apply (quiet_throw _ _ _ P)].
Qed.

End any_target_parts.

(** ** The removal of the device *)

Section own_removal.
Context (is_ancestor : jstring → jstring → bool) `{!PreOrder (ancestor is_ancestor)} (v d owner : jstring) (s0 : site).

Local Abbreviation step := (call_step is_ancestor).
Local Abbreviation rely := (others is_ancestor v d).
Local Abbreviation I := (kept_work is_ancestor v d s0).
Local Abbreviation hoare := (hoare step rely I).
Local Abbreviation quiet := (quiet step rely I).
Local Abbreviation Settled := (Settled is_ancestor v d s0).
Local Abbreviation covered := (covered is_ancestor v).
Local Abbreviation T := (mk_target owner v d).

Definition base (s : site) : Prop := I s ∧ ungranted d s.
#[export] Instance base_settled : Settled base.
Proof. unfold base. apply _. Qed.

Section gates.
Context (P : site → Prop) `{!Assertion rely I P}.

Lemma selectForStep_own (Hungranted : ∀ s, P s → ungranted d s) : hoare P (selectForStep T)
  (λ x s, ((P s ∧ covered (sl_current_main x.1) s) ∧ journal_is d (Some x.2) s) ∧ rj_discard_unmerged x.2 = false) P.
Proof.
  apply (removal_hoare_read is_ancestor v d s0); [apply _|intros [x job]; cbn; apply _|]. intros s [x job] Hs. unfold select_step. cbn.
  destruct (find_job (si_db s) d) as [job'|] eqn:Ej; [|done]. destruct (find_row (has_vault_id v) _) as [row|] eqn:Ev; [|done].
  destruct (find_row _ (db_devices _)) as [device|]; [|done]. destruct (hasDurableDeletionRecord (si_db s) v); [done|].
  intros [= <- ->]. split; [|by eapply Hungranted]. split; [|by left]. split; [done|]. intros _.
  exists (v_current_main row). unfold VaultState.main_of. by rewrite Ev.
Qed.

Lemma assertCovered_own main oid : hoare (λ s, P s ∧ covered main s) (assertCovered T main oid false)
  (λ _ s, P s ∧ covered oid s) P.
Proof.
  unfold assertCovered. eapply hoare_bind with (R' := λ verdict s, P s ∧ (verdict = VdAncestor → covered oid s)); [apply _| |intros verdict|apply _].
  - eapply hoare_catch with (E' := P); [apply _| |intros e; by apply hoare_ret; [apply _|]|intros ?].
    2: apply _.
    apply hoare_call; [apply _| |intros ?; apply _|apply _].
    + intros s r s' [Hs Hc] [-> Hr]. destruct r as [verdict|e]; [|done]. split; [done|]. intros -> Ha.
      destruct (Hc Ha) as (m & Hm & H). exists m. split; [done|]. by transitivity main; [apply Hr|].
  - destruct verdict.
    + apply hoare_ret; [apply _|]. intros s [Hs Hc]. auto.
    + apply hoare_throw; [apply _|]. by intros s [].
    + apply hoare_throw; [apply _|]. by intros s [].
Qed.

Lemma updateJob_own `{!Settled P} apply job : applies_keep apply →
  hoare (λ s, P s ∧ journal_is d (Some job) s) (updateJob T apply)
    (λ job' s, (P s ∧ journal_is d (Some job') s) ∧
       match apply job with Some j => ∃ t, job' = set_rj_updated_at t j | None => job' = job end) P.
Proof.
  intros Hk. unfold updateJob.
  eapply hoare_bind with (R' := λ c s, P s ∧ ∀ job', c = Some job' → journal_is d (Some job') s ∧
      match apply job with Some j => ∃ t, job' = set_rj_updated_at t j | None => job' = job end);
    [apply _| |intros c|apply _].
  - apply (removal_hoare_mutate is_ancestor v d s0); [apply _|apply _|apply _|by intros s []|].
    { intros s w c db h [Hs Hj] E.
      assert (P (with_db (committed h db) s)) as HP.
      { apply (settled_journaled is_ancestor v d s0); [done|]. etrans; [by eapply journaled_job|apply journaled_committed]. }
      split; [|done]. split; [done|]. intros job' ->. unfold job_tx in E. cbn in E.
      destruct Hj as [Hj|Hj]; rewrite Hj in E; [|done].
      destruct (apply job) as [j|] eqn:Ea.
      * injection E as <- <-. split; [|by eexists]. left. unfold committed. cbn.
        change (find_job (update_job T (λ _, set_rj_updated_at (nowIso w 0) j) (si_db s)) d = Some (set_rj_updated_at (nowIso w 0) j)).
        rewrite find_update_job_own; [by rewrite Hj|done|]. intros _ _. cbn. destruct (Hk _ _ Ea) as [-> _]. by eapply find_job_id.
      * injection E as <- <-. split; [|done]. by left. }
  - destruct c as [job'|]; [|by apply hoare_throw; [apply _|intros s []]].
    apply hoare_ret; [apply _|]. intros s [H1 H2]. by destruct (H2 _ eq_refl).
Qed.

(** Everything that is staged is in [l] or merged. *)
Definition listed (l : list jstring) (s : site) : Prop :=
  idle v d s ∧ (alive v (si_db s) → ∀ c, c ∈ staged_of v d s → c ∈ l ∨ merged is_ancestor v (si_db s) c).
#[local] Instance listed_stable l : Stable rely (listed l).
Proof.
  intros s s' Hr [Hi H]. split; [by eapply idle_stable|]. intros Ha c Hc. destruct Hr as [_ al m _ k i].
  destruct (Hi (al Ha)) as [H1 H2]. destruct (i Ha H1 H2) as [_ H3].
  destruct (H (al Ha) c (H3 c Hc)) as [?|(x & Hx & H4)]; [by left|]. destruct (m x Ha Hx) as (y & Hy & H5).
  right. exists y. split; [done|by transitivity x].
Qed.

Lemma staged_verdict_own main c l : hoare (λ s, (P s ∧ covered main s) ∧ listed l s) (staged_verdict T main c)
  (λ verdict s, ((P s ∧ covered main s) ∧ listed l s) ∧ (verdict = VdAncestor → covered c s)) P.
Proof.
  unfold staged_verdict.
  eapply hoare_catch with (E' := λ s, (P s ∧ covered main s) ∧ listed l s); [apply _| |intros e|intros ?; apply _].
  - eapply hoare_bind with (R' := λ _ s, (P s ∧ covered main s) ∧ listed l s); [apply _| |intros known|apply _].
    + apply hoare_call; [apply _| |intros; apply _|apply _]. intros s r s' Hs ->. by destruct r.
    + destruct known; [|by apply hoare_ret; [apply _|]].
      apply hoare_call; [apply _| |intros; apply _|apply _]. intros s r s' [[Hs Hc] Hl] [-> Hr].
      destruct r as [verdict|e]; [|done]. split; [done|]. intros -> Ha.
      destruct (Hc Ha) as (m & Hm & H). exists m. split; [done|]. by transitivity main; [apply Hr|].
  - apply hoare_ret; [apply _|]. by intros s Hs.
Qed.

Lemma check_staged_own main l : hoare (λ s, (P s ∧ covered main s) ∧ listed l s) (check_staged T main l)
  (λ _ s, P s ∧ (idle v d s ∧ staged_covered is_ancestor v d s)) P.
Proof.
  induction l as [|c l IH]; cbn [check_staged].
  - apply hoare_ret; [apply _|]. intros s [[Hs _] [Hi H]]. split; [done|]. split; [done|]. intros Ha c Hc.
    by destruct (H Ha c Hc) as [?%not_elem_of_nil|?].
  - eapply hoare_bind; [apply _|apply staged_verdict_own|intros verdict|apply _].
    destruct verdict; [|by apply hoare_throw; [apply _|intros s [[[]]]]..].
    eapply hoare_weaken; [exact IH| |done|done]. intros s [[HP [Hi H]] Hc]. split; [done|]. split; [done|]. intros Ha x Hx.
    destruct (H Ha x Hx) as [[->|?]%elem_of_cons|?]; [right; by apply Hc|by left|by right].
Qed.

Lemma assertStagedCovered_own main : hoare (λ s, (P s ∧ idle v d s) ∧ covered main s) (assertStagedCovered T main false)
  (λ _ s, P s ∧ (idle v d s ∧ staged_covered is_ancestor v d s)) P.
Proof.
  unfold assertStagedCovered. eapply hoare_bind; [apply _| |intros l; apply check_staged_own|apply _].
  eapply hoare_catch with (E' := P); [apply _| |intros e; by apply hoare_throw; [apply _|]|intros l; apply _].
  apply hoare_call; [apply _| |intros; apply _|apply _]. intros s r s' [[Hs Hi] Hc] [-> [->|[e ->]]]; [|done].
  split; [done|]. split; [done|]. intros _ c Hc'. by left.
Qed.

End gates.

Lemma hoare_fact {A} (P : site → Prop) (φ : Prop) (m : removal A) R E : (φ → hoare P m R E) → hoare (λ s, P s ∧ φ) m R E.
Proof. intros H s [Hs Hφ]. by apply H. Qed.
Lemma hoare_escape {A} (P : site → Prop) (m : removal A) R E E' : hoare P m R E → (∀ s, E s → E' s) → hoare P m R E'.
Proof. intros H HE. by eapply hoare_weaken. Qed.

(** While the device is idle, and once its staged transfers are known to be merged. *)
Definition resting (s : site) : Prop := base s ∧ idle v d s.
Definition cleared (s : site) : Prop := base s ∧ (idle v d s ∧ staged_covered is_ancestor v d s).
#[export] Instance resting_settled : Settled resting.
Proof. unfold resting. apply _. Qed.
#[export] Instance cleared_settled : Settled cleared.
Proof. unfold cleared. apply _. Qed.

Lemma erasures_app s s' l e : si_erased s' = si_erased s ++ l → e ∈ erasures v d s' → e ∈ erasures v d s ∨ e ∈ l.
Proof.
  unfold erasures. intros ->. rewrite List.filter_app, elem_of_app. intros [?|H]; [by left|]. right. by apply filter_elem in H as [H _].
Qed.

Lemma delete_own oid : hoare (λ s, cleared s ∧ covered oid s) (perform (DeleteRefCas v (DEVICE_REFS ++ d) oid)) (λ _, cleared) base.
Proof.
  apply hoare_call; [apply _| |intros; apply _|apply _]. intros s r s' [Hs Hc] Hr.
  assert (cleared s') as Hs'; [|destruct r; [exact Hs'|exact (proj1 Hs')]].
  destruct Hr as [[_ ->]|[(_ & -> & _)|[(-> & _)|(-> & _)]]]; [exact Hs| |exact Hs..].
  destruct Hs as [[HI Hu] Hr]. split; [|exact Hr]. split; [|exact Hu].
  intros e He. apply (erasures_app s (erase_ref v (DEVICE_REFS ++ d) oid s) [mk_erasure v (DEVICE_REFS ++ d) oid (si_db s)]) in He as [He|He];
    [exact (HI e He)| |reflexivity].
  apply list_elem_of_singleton in He as ->. right. exact Hc.
Qed.

Lemma next_generation_own main s job current moves : rj_discard_unmerged job = false →
  hoare (λ st, (resting st ∧ covered main st) ∧ journal_is d (Some job) st) (next_generation T s job current moves)
    (λ next st, match next with
                | None => False
                | Some (job, _) => ((resting st ∧ covered main st) ∧ journal_is d (Some job) st) ∧
                    (rj_discard_unmerged job = false ∧ rj_expected_ref_oid job = current ∧ in_phase RpIntent job = true)
                end) base.
Proof.
  intros Hd. unfold next_generation. rewrite Hd. destruct (in_phase RpIntent job && is_null_or current); cbn [negb].
  - eapply hoare_bind with (R' := λ _, base); [apply _| |intros ?; by apply hoare_throw; [apply _|]|apply _].
    apply hoare_lift; [apply _| |]; [intros ? st _|intros st]; by intros [[[? _] _] _].
  - destruct (_ <? _); [by apply hoare_throw; [apply _|intros st [[[]]]]|].
    eapply hoare_bind; [apply _| |intros job'|apply _].
    + eapply hoare_escape; [apply (updateJob_own (λ st, resting st ∧ covered main st)), rebase_keeps|]. by intros st [[? _] _].
    + apply hoare_ret; [apply _|]. intros st [Hs (t & ->)]. done.
Qed.

Lemma admit_deletion_own s job current : rj_discard_unmerged job = false → rj_expected_ref_oid job = current →
  (current = None → in_phase RpIntent job = true) →
  hoare (λ st, (resting st ∧ covered (sl_current_main s) st) ∧ journal_is d (Some job) st) (admit_deletion T s job current)
    (λ admitted st, cleared st ∧ ∀ job, admitted = Some job → covered (default [] (rj_expected_ref_oid job)) st) base.
Proof.
  intros Hd He Hp. unfold admit_deletion. rewrite Hd. cbv zeta.
  set (gated := λ st, (base st ∧ journal_is d (Some job) st) ∧ ∀ oid, current = Some oid → covered oid st).
  assert (∀ st, gated st → base st) as Hgated by by intros st [[? _] _].
  assert (hoare (λ st, (resting st ∧ covered (sl_current_main s) st) ∧ journal_is d (Some job) st)
    (match current with Some oid => assertCovered T (sl_current_main s) oid false | None => mret () end)
    (λ _ st, (gated st ∧ idle v d st) ∧ covered (sl_current_main s) st) base) as Hgate.
  { destruct current as [oid|].
    - eapply hoare_weaken;
        [apply (assertCovered_own (λ st, (resting st ∧ covered (sl_current_main s) st) ∧ journal_is d (Some job) st) (sl_current_main s) oid)
        | |intros ? st|by intros st [[[? _] _] _]].
      + intros st [[? Hc] ?]. done.
      + intros [[[[Hb Hi] Hc] Hj] Ho]. split; [|done]. split; [|done]. split; [done|]. by intros ? [= <-].
    - apply hoare_ret; [apply _|]. intros st [[[Hb Hi] Hc] Hj]. split; [|done]. split; [|done]. by split. }
  assert (hoare (λ st, (gated st ∧ idle v d st) ∧ covered (sl_current_main s) st) (assertStagedCovered T (sl_current_main s) false)
    (λ _ st, (cleared st ∧ journal_is d (Some job) st) ∧ ∀ oid, current = Some oid → covered oid st) base) as Hstaged.
  { eapply hoare_weaken; [apply (assertStagedCovered_own gated (sl_current_main s))|done| |done].
    intros ? st [[[Hb Hj] Ho] Hs]. done. }
  assert (∀ m : removal (option DeviceRemovalJob),
    hoare (λ st, (cleared st ∧ journal_is d (Some job) st) ∧ ∀ oid, current = Some oid → covered oid st) m
      (λ admitted st, cleared st ∧ ∀ job, admitted = Some job → covered (default [] (rj_expected_ref_oid job)) st) base →
    hoare (λ st, (resting st ∧ covered (sl_current_main s) st) ∧ journal_is d (Some job) st)
      (_ ← (match current with Some oid => assertCovered T (sl_current_main s) oid false | None => mret () end);
       _ ← assertStagedCovered T (sl_current_main s) false; m)
      (λ admitted st, cleared st ∧ ∀ job, admitted = Some job → covered (default [] (rj_expected_ref_oid job)) st) base) as Hboth.
  { intros m Hm. eapply hoare_bind; [apply _|exact Hgate|intros ?|apply _]. by eapply hoare_bind; [apply _|exact Hstaged|intros ?|apply _]. }
  destruct (in_phase RpIntent job).
  - eapply hoare_bind with (R' := λ _ st, (resting st ∧ covered (sl_current_main s) st) ∧ journal_is d (Some job) st); [apply _| |intros ?|apply _].
    { apply hoare_lift; [apply _| |]; [done|]. by intros st [[[? _] _] _]. }
    apply Hboth. destruct current as [oid|].
    + eapply hoare_bind; [apply _| |intros job'|apply _].
      * eapply hoare_weaken; [apply (updateJob_own (λ st, cleared st ∧ covered oid st) _ job (phase_keeps RpRefDeleting))
                             | |intros job' st; exact id|by intros st [[? _] _]].
        intros st [[? ?] Ho]. auto.
      * apply hoare_ret; [apply _|]. intros st [[[? ?] _] (t & ->)]. split; [done|]. intros ? [= <-]. cbn. by rewrite He.
    + eapply hoare_bind with (R' := λ _, cleared); [apply _| |intros ?|apply _].
      * eapply hoare_weaken; [apply (updateJob_quiet is_ancestor v d s0 T cleared), (phase_keeps RpCleanup)|by intros st [[]]|done|by intros st []].
      * apply hoare_ret; [apply _|]. by intros st Hs.
  - destruct current as [oid|]; [|by discriminate (Hp eq_refl)]. apply (Hboth (mret (Some job))).
    apply hoare_ret; [apply _|]. intros st [[? _] Ho]. split; [done|]. intros ? [= <-]. rewrite He. by apply Ho.
Qed.

Definition round_done (r : option nat) (st : site) : Prop := match r with None => cleared st | Some _ => resting st end.
#[local] Instance round_settled r : Settled (round_done r).
Proof. destruct r; apply _. Qed.
Lemma cleared_resting st : cleared st → resting st.
Proof. intros [? [? _]]. by split. Qed.
Lemma resting_base st : resting st → base st.
Proof. by intros [? _]. Qed.
Lemma cleared_base st : cleared st → base st.
Proof. by intros [? _]. Qed.

Lemma enter_cleared phase : hoare cleared (_ ← enter T phase; mret (@None nat)) round_done base.
Proof.
  eapply hoare_bind with (R' := λ _, cleared); [apply _| |intros ?|apply _].
  - eapply hoare_escape; [apply (updateJob_quiet is_ancestor v d s0 T cleared), phase_keeps|exact cleared_base].
  - apply hoare_ret; [apply _|]. by intros st.
Qed.

Lemma staged_gate main job : rj_discard_unmerged job = false →
  hoare (λ st, (resting st ∧ covered main st) ∧ journal_is d (Some job) st) (assertStagedCovered T main (rj_discard_unmerged job))
    (λ _, cleared) base.
Proof.
  intros ->. eapply hoare_weaken; [apply (assertStagedCovered_own base main)| |done|done]. by intros st [[[? ?] ?] _].
Qed.

Lemma delete_round_own moves : hoare resting (delete_round T moves) round_done base.
Proof.
  unfold delete_round. eapply hoare_bind; [apply _| |intros [s job]|apply _].
  { eapply hoare_escape; [apply (selectForStep_own resting)|exact resting_base]. by intros st [[]]. }
  cbn [fst snd]. apply hoare_fact. intros Hd. eapply hoare_bind; [apply _| |intros current|apply _].
  { eapply hoare_escape; [apply (readRef_named is_ancestor v d s0 T (λ st, (resting st ∧ covered (sl_current_main s) st) ∧ journal_is d (Some job) st))|].
    by intros st [[[? _] _] _]. }
  apply hoare_fact. intros Href.
  destruct (in_phase RpCleanup job && is_null_or current) eqn:E1.
  { eapply hoare_bind; [apply _|by apply staged_gate|intros ?|apply _]. apply hoare_ret; [apply _|]. by intros st. }
  destruct (in_phase RpRefDeleting job && is_null_or current) eqn:E2.
  { eapply hoare_bind; [apply _|by apply staged_gate|intros ?|apply _]. apply enter_cleared. }
  eapply hoare_bind with (R' := λ next st, match next with
      | None => False
      | Some (job, _) => ((resting st ∧ covered (sl_current_main s) st) ∧ journal_is d (Some job) st) ∧
          (rj_discard_unmerged job = false ∧ rj_expected_ref_oid job = current ∧ (current = None → in_phase RpIntent job = true))
      end); [apply _| |intros [[job' moves']|]|apply _].
  - destruct (in_phase RpCleanup job || negb (oeqb current (rj_expected_ref_oid job))) eqn:E3.
    + eapply hoare_weaken; [by apply (next_generation_own (sl_current_main s) s job current moves)|done| |done].
      intros [[job' moves']|] st; [|done]. by intros [? (? & ? & ?)].
    + apply hoare_ret; [apply _|]. intros st Hs. split; [done|]. split; [done|].
      apply orb_false_iff in E3 as [E3 E4]. apply negb_false_iff, oeqb_iff in E4. split; [done|]. intros ->.
      cbn in E1, E2. rewrite andb_true_r in E1, E2. revert E1 E2. unfold in_phase. by destruct (rj_phase job).
  - apply hoare_fact. intros (Hd' & He & Hp). eapply hoare_bind; [apply _|by apply admit_deletion_own|intros [job''|]|apply _].
    + eapply hoare_bind with (R' := λ _, cleared); [apply _| |intros outcome|apply _].
      * rewrite Href. eapply hoare_weaken; [apply (delete_own (default [] (rj_expected_ref_oid job'')))| |done|done].
        intros st [? H]. split; [done|]. by apply H.
      * destruct outcome; [apply enter_cleared| |apply enter_cleared]. apply hoare_ret; [apply _|]. intros st. apply cleared_resting.
    + apply hoare_ret; [apply _|]. by intros st [].
  - intros st [].
Qed.

Lemma deleteRefStep_own rounds moves : hoare resting (deleteRefStep T rounds moves) (λ _, cleared) base.
Proof.
  revert moves. induction rounds as [|rounds IH]; intros moves; cbn [deleteRefStep].
  - apply hoare_call; [apply _| |intros; apply _|apply _]. by intros s r s'.
  - eapply hoare_bind; [apply _|apply delete_round_own|intros [moves'|]|apply _]; [apply IH|]. apply hoare_ret; [apply _|]. by intros st.
Qed.

Lemma drain_own : hoare (λ s, base s ∧ barred v d s) (drain T) (λ _, resting) base.
Proof.
  unfold drain. eapply hoare_bind with (R' := λ _ s, base s ∧ barred v d s); [apply _| |intros settled|apply _].
  { eapply hoare_escape; [apply (quiet_drain_transfers is_ancestor v d s0 (λ s, base s ∧ barred v d s))|]. by intros s []. }
  destruct settled; cbn [negb]; [|by apply hoare_throw; [apply _|intros s []]].
  eapply hoare_bind with (R' := λ drained s, (base s ∧ barred v d s) ∧ (drained = true → idle v d s)); [apply _| |intros drained|apply _].
  - apply hoare_call; [apply _| |intros; apply _|apply _]. intros s r s' [Hs Hb] [-> Hr]. destruct r as [b|e]; [|done].
    split; [done|]. intros -> Ha. split; [by apply Hb|by apply Hr].
  - destruct drained; cbn [negb]; [|by apply hoare_throw; [apply _|intros s [[]]]].
    apply hoare_ret; [apply _|]. intros st [[? _] Hi]. split; [done|by apply Hi].
Qed.

Lemma erase_own : hoare cleared (perform (EraseDeviceResidue v d)) (λ _, base) base.
Proof.
  apply hoare_call; [apply _| |intros; apply _|apply _]. intros s r s' [[HI Hu] [Hi Hc]] (gone & kept & -> & Hg & _ & _).
  assert (base (erase_staged v d gone kept s)) as Hb; [|destruct r; exact Hb]. split; [|exact Hu].
  intros e He. apply (erasures_app s (erase_staged v d gone kept s) (map (λ c, mk_erasure v (DEVICE_REFS ++ d) c (si_db s)) gone)) in He as [He|He];
    [exact (HI e He)| |reflexivity]. right.
  apply list_elem_of_fmap in He as (c & -> & Hc'). intros Ha. by apply Hc, Hg.
Qed.

Lemma barrier_quiet (c : call unit) closing : (∀ s r s', step _ c s r s' → r = Ok () ∧ s' = with_closing (closing s) s) →
  quiet base (perform c).
Proof. intros H. apply hoare_call; [apply _| |intros; apply _|apply _]. intros s r s' Hs Hr. by destruct (H _ _ _ Hr) as [-> ->]. Qed.

Lemma cleanup_own : hoare cleared (cleanupAndComplete T) (λ _, base) base.
Proof.
  unfold cleanupAndComplete.
  eapply hoare_bind with (R' := λ _, cleared); [apply _| |intros ?|apply _].
  { eapply hoare_escape; [apply (sweep_quiet is_ancestor v d s0 T cleared); eauto with journal|exact cleared_base]. }
  eapply hoare_bind with (R' := λ _, cleared); [apply _| |intros ?|apply _].
  { eapply hoare_escape; [apply (sweep_quiet is_ancestor v d s0 T cleared); eauto with journal|exact cleared_base]. }
  eapply hoare_bind; [apply _|apply erase_own|intros ?|apply _].
  eapply hoare_bind with (R' := λ _, base); [apply _| |intros ?|apply _].
  { apply (sweep_quiet is_ancestor v d s0 T base); eauto with journal. }
  eapply hoare_bind with (R' := λ _, base); [apply _| |intros ?|apply _].
  { apply (removal_quiet_mutate is_ancestor v d s0 base). eauto with journal. }
  apply (barrier_quiet _ (λ s, si_closing s ∖ {[ (v, d) ]})). by intros s r s' [-> ->].
Qed.

Lemma drive_own rounds : hoare (λ s, base s ∧ barred v d s) (drive T rounds) (λ _, base) base.
Proof.
  unfold drive. eapply hoare_catch with (E' := base); [apply _| |intros e; apply (failed_quiet is_ancestor v d s0 T base)|intros ?; apply _].
  eapply hoare_bind with (R' := λ _ s, base s ∧ barred v d s); [apply _| |intros ?|apply _].
  { eapply hoare_escape; [apply (markPending_quiet is_ancestor v d s0 T (λ s, base s ∧ barred v d s))|]. by intros s []. }
  eapply hoare_bind; [apply _|apply drain_own|intros ?|apply _].
  eapply hoare_bind with (R' := λ _, cleared); [apply _| |intros ?|apply _].
  - unfold runWithVaultLock, withAdmission, try_finally.
    eapply hoare_bind with (R' := λ _, resting); [apply _| |intros ?|apply _].
    { eapply hoare_escape; [apply (quiet_admission is_ancestor v d s0 resting)|exact resting_base]. }
    eapply hoare_after; [apply _|apply deleteRefStep_own|intros []|intros e].
    + eapply hoare_after with (R' := λ _, cleared) (E' := cleared); [apply _|apply (removal_quiet_archive is_ancestor v d s0 cleared)|intros ?|intros e].
      * by apply (hoare_ret _ _ _ cleared ()).
      * apply (hoare_throw _ _ _ cleared e). exact cleared_base.
    + eapply hoare_after with (R' := λ _, base) (E' := base); [apply _|apply (removal_quiet_archive is_ancestor v d s0 base)|intros ?|intros e'];
        by apply (hoare_throw _ _ _ base e).
  - unfold withAdmission. eapply hoare_bind with (R' := λ _, base); [apply _| |intros ?; by apply hoare_ret; [apply _|]|apply _].
    eapply hoare_bind with (R' := λ _, cleared); [apply _| |intros ?; apply cleanup_own|apply _].
    eapply hoare_escape; [apply (quiet_admission is_ancestor v d s0 cleared)|exact cleared_base].
Qed.

End own_removal.

(** ** The removal of another device *)

Section other_removal.
Context (is_ancestor : jstring → jstring → bool) `{!PreOrder (ancestor is_ancestor)} (v d : jstring) (s0 : site).

Local Abbreviation step := (call_step is_ancestor).
Local Abbreviation rely := (others is_ancestor v d).
Local Abbreviation I := (kept_work is_ancestor v d s0).
Local Abbreviation hoare := (hoare step rely I).
Local Abbreviation quiet := (quiet step rely I).
Local Abbreviation base := (base is_ancestor v d s0).

Context (target : Target) (Hother : ¬ (tg_vault target = v ∧ tg_device target = d)).

Lemma not_own commit db : own v d (mk_erasure (tg_vault target) (DEVICE_REFS ++ tg_device target) commit db) = false.
Proof. apply not_true_iff_false. unfold own. cbn [er_vault er_ref]. rewrite andb_true_iff, !jeqb_eq. intros [? ?%app_inv_head]. auto. Qed.

Lemma erasures_same s s' l : si_erased s' = si_erased s ++ l → (∀ e, e ∈ l → own v d e = false) → erasures v d s' = erasures v d s.
Proof.
  unfold erasures. intros -> H. rewrite List.filter_app. replace (List.filter (own v d) l) with (@nil erasure); [by rewrite app_nil_r|].
  induction l as [|e l IH]; [done|]. cbn. rewrite (H e) by by left. apply IH. intros x Hx. apply H. by right.
Qed.

Lemma removal_base_same s s' : base s → si_db s' = si_db s → erasures v d s' = erasures v d s → base s'.
Proof. intros [HI Hu] E1 E2. split; [unfold kept_work; by rewrite E2|unfold ungranted; by rewrite E1]. Qed.

Lemma delete_other oid : quiet base (perform (DeleteRefCas (tg_vault target) (DEVICE_REFS ++ tg_device target) oid)).
Proof.
  apply hoare_call; [apply _| |intros; apply _|apply _]. intros s r s' Hs Hr.
  assert (base s') as Hs'; [|destruct r; exact Hs'].
  destruct Hr as [[_ ->]|[(_ & -> & _)|[(-> & _)|(-> & _)]]]; [exact Hs| |exact Hs..].
  apply (removal_base_same s); [exact Hs|done|].
  apply (erasures_same s _ [mk_erasure (tg_vault target) (DEVICE_REFS ++ tg_device target) oid (si_db s)]); [reflexivity|].
  intros e ->%list_elem_of_singleton. apply not_own.
Qed.

Lemma erase_other : quiet base (perform (EraseDeviceResidue (tg_vault target) (tg_device target))).
Proof.
  apply hoare_call; [apply _| |intros; apply _|apply _]. intros s r s' Hs (gone & kept & -> & _).
  assert (base (erase_staged (tg_vault target) (tg_device target) gone kept s)) as Hs'; [|destruct r; exact Hs'].
  apply (removal_base_same s); [exact Hs|done|].
  apply (erasures_same s _ (map (λ c, mk_erasure (tg_vault target) (DEVICE_REFS ++ tg_device target) c (si_db s)) gone)); [reflexivity|].
  intros e (c & -> & _)%list_elem_of_fmap. apply not_own.
Qed.

Lemma delete_round_other moves : quiet base (delete_round target moves).
Proof.
  unfold delete_round. apply quiet_bind; [apply _|apply _|apply quiet_read; apply _|intros [s job]].
  eapply hoare_bind; [apply _|apply (readRef_named is_ancestor v d s0 target base)|intros current|apply _]. apply (hoare_fact is_ancestor v d s0). intros Href.
  lazymatch goal with |- Programs.hoare ?st ?re ?i ?p ?m _ _ => change (Programs.quiet st re i p m) end.
  rewrite Href. unfold enter. removals;
    first [apply assertStagedCovered_quiet; apply _|apply updateJob_quiet; first [apply phase_keeps|apply _]
          |apply next_generation_quiet; apply _|apply admit_deletion_quiet; apply _|apply delete_other].
Qed.

Lemma deleteRefStep_other rounds moves : quiet base (deleteRefStep target rounds moves).
Proof.
  revert moves. induction rounds as [|rounds IH]; intros moves; cbn [deleteRefStep]; removals; [apply delete_round_other|apply IH].
Qed.

Lemma cleanup_other : quiet base (cleanupAndComplete target).
Proof.
  unfold cleanupAndComplete. removals; try (apply sweep_quiet; first [apply _|eauto with journal]); [apply erase_other|].
  apply (barrier_quiet is_ancestor v d s0 _ (λ s, si_closing s ∖ {[ (tg_vault target, tg_device target) ]})). by intros s r s' [-> ->].
Qed.

Lemma drive_other rounds : quiet base (drive target rounds).
Proof.
  unfold drive, withAdmission. removals;
    first [apply failed_quiet; apply _|apply markPending_quiet; apply _|apply drain_quiet; apply _
          |apply locked_quiet; first [apply deleteRefStep_other|apply _]|apply cleanup_other].
Qed.

End other_removal.

(** ** Requests and starts *)

Section entries.
Context (is_ancestor : jstring → jstring → bool) `{!PreOrder (ancestor is_ancestor)} (v d : jstring) (s0 : site).

Local Abbreviation step := (call_step is_ancestor).
Local Abbreviation rely := (others is_ancestor v d).
Local Abbreviation I := (kept_work is_ancestor v d s0).
Local Abbreviation hoare := (hoare step rely I).
Local Abbreviation quiet := (quiet step rely I).
Local Abbreviation base := (base is_ancestor v d s0).

Lemma granted_withdrawn target w db a db' : tg_device target = d → grant_tx target false w db = Ok (a, db') →
  ∀ job, find_job db' d = Some job → rj_discard_unmerged job = false.
Proof.
  intros Hd. unfold grant_tx. intros E.
  assert (db' = match find_job db (tg_device target) with Some job => if Bool.eqb (rj_discard_unmerged job) false then db
    else update_job target (λ job, set_rj_updated_at (nowIso w 0) (set_rj_discard_unmerged false job)) db | None => db end) as -> by congruence.
  intros job. rewrite Hd. destruct (find_job db d) as [j|] eqn:Ej; [|by rewrite Ej].
  destruct (Bool.eqb _ _) eqn:Eb; [apply Bool.eqb_prop in Eb; rewrite Ej; by intros [= <-]|].
  rewrite find_update_job_own by done. rewrite Ej. by intros [= <-].
Qed.

Lemma withdraw_own owner : hoare I (persistGrant (mk_target owner v d) false) (λ _, base) I.
Proof.
  apply (removal_hoare_mutate is_ancestor v d s0); [apply _|intros ?; apply _|apply _|done|]. intros s w a db h Hs E.
  assert (I (with_db (committed h db) s)) as HI by exact Hs. split; [|exact HI]. split; [exact HI|].
  intros job Hj. eapply (granted_withdrawn (mk_target owner v d)); [done|exact E|exact Hj].
Qed.

Lemma close_own : hoare base (perform (CloseDeviceBarrier v d)) (λ _ s, base s ∧ barred v d s) base.
Proof.
  apply hoare_call; [apply _| |intros; apply _|apply _]. intros s r s' Hs [-> ->]. split; [exact Hs|].
  intros _. cbn. set_solver.
Qed.

Lemma remove_own rounds request : rq_vault request = v → rq_device request = d → granted request = false →
  hoare I (remove rounds request) (λ _, I) I.
Proof.
  intros Hv Hd Hg. assert (target_of request = mk_target (rq_owner request) v d) as Ht by (unfold target_of; by rewrite Hv, Hd).
  assert (∀ st, base st → I st) as Hbase by by intros st [].
  unfold remove. cbv zeta. rewrite Ht, Hv, Hd, Hg.
  eapply hoare_bind with (R' := λ x s, I s ∧ journal_is d (sl_job x) s); [apply _| |intros x|apply _].
  { apply (removal_hoare_read is_ancestor v d s0); [apply _|intros ?; apply _|]. intros s x Hs. unfold select.
    destruct (eligible _ _) as [[vault device]|]; [|done]. cbn [mbind result_bind]. intros [= <-]. split; [done|]. by left. }
  eapply hoare_bind with (R' := λ _, base); [apply _| |intros ?|apply _].
  { destruct (sl_job x) as [job|].
    - destruct (Bool.eqb (rj_discard_unmerged job) false) eqn:E.
      + apply Bool.eqb_prop in E. apply hoare_ret; [apply _|]. intros s [HI Hj]. split; [done|]. intros job' Hj'.
        destruct Hj as [Hj|Hj]; rewrite Hj in Hj'; [by injection Hj' as <-|done].
      + eapply hoare_weaken; [apply withdraw_own|by intros s []|done|done].
    - apply hoare_ret; [apply _|]. intros s [HI Hj]. split; [done|]. intros job' Hj'. destruct Hj as [Hj|Hj]; by rewrite Hj in Hj'. }
  destruct (phraseMatches request) eqn:Ep; cbn [negb]; [|by apply hoare_throw; [apply _|]].
  assert (rq_discard request = false) as -> by (unfold granted in Hg; by rewrite Ep in Hg).
  assert (∀ A (m : removal A), quiet base m → hoare base m (λ _, base) I) as Hq by (intros A m Hm; by eapply hoare_weaken).
  eapply hoare_bind with (R' := λ _, base); [apply _|apply Hq, quiet_lift; apply _|intros ?|apply _].
  eapply hoare_bind with (R' := λ _, base); [apply _| |intros oid|apply _].
  { apply Hq. destruct (at_intent x); [apply verifyRefForIntent_quiet; apply _|apply quiet_ret; apply _]. }
  eapply hoare_bind with (R' := λ _, base); [apply _| |intros ?|apply _].
  { apply Hq. destruct (at_intent x); [apply assertStagedCovered_quiet; apply _|apply quiet_ret; apply _]. }
  eapply hoare_bind with (R' := λ _, base); [apply _| |intros ?|apply _].
  { apply Hq, removal_quiet_mutate; first [apply _|eauto with journal]. }
  eapply hoare_bind; [apply _| |intros ?|apply _].
  { eapply hoare_weaken; [apply close_own|done|done|exact Hbase]. }
  eapply hoare_bind with (R' := λ _, base); [apply _| |intros finished|apply _].
  { eapply hoare_weaken; [apply (drive_own is_ancestor v d _ s0)|done|done|exact Hbase]. }
  destruct finished; [apply hoare_ret; [apply _|exact Hbase]|apply hoare_throw; [apply _|exact Hbase]].
Qed.

Lemma close_quiet vault device : quiet base (perform (CloseDeviceBarrier vault device)).
Proof. apply (barrier_quiet is_ancestor v d s0 _ (λ s, {[ (vault, device) ]} ∪ si_closing s)). by intros s r s' [-> ->]. Qed.
Lemma release_quiet vault device : quiet base (perform (ReleaseDeviceBarrier vault device)).
Proof. apply (barrier_quiet is_ancestor v d s0 _ (λ s, si_closing s ∖ {[ (vault, device) ]})). by intros s r s' [-> ->]. Qed.

Lemma resume_job_quiet rounds job : quiet base (resume_job rounds job).
Proof.
  unfold resume_job. cbv zeta. apply quiet_catch; [apply _|apply _| |intros ?; removals].
  apply quiet_bind; [apply _|apply _|apply quiet_read; apply _|intros []].
  - removals.
  - apply quiet_bind; [apply _|apply _|apply removal_quiet_mutate; first [apply _|eauto with journal]|intros ?; apply release_quiet].
  - destruct (decide (rj_vault_id job = v ∧ rj_device_id job = d)) as [[-> ->]|Hn].
    + eapply hoare_bind with (R' := λ _ s, base s ∧ barred v d s); [apply _|apply close_own|intros ?|apply _].
      destruct (bool_decide _ && _); [apply hoare_ret; [apply _|by intros s []]|].
      eapply hoare_bind; [apply _|apply (drive_own is_ancestor v d _ s0)|intros ?|apply _]. apply hoare_ret; [apply _|by intros s].
    + apply quiet_bind; [apply _|apply _|apply close_quiet|intros ?].
      destruct (bool_decide _ && _); [removals|]. apply quiet_bind; [apply _|apply _| |intros ?; removals].
      by apply drive_other.
Qed.

Lemma resumePending_quiet rounds : quiet base (resumePending rounds).
Proof.
  unfold resumePending. apply quiet_bind; [apply _|apply _|apply quiet_read; apply _|intros jobs].
  induction jobs as [|job jobs IH]; cbn [resume_jobs]; removals; [apply resume_job_quiet|exact IH].
Qed.

End entries.
