(* ===== verification/RemovalCompletion.v ===== *)
(** * What a removal erases, and that a start completes it (proofs about DeviceRemoval.v)

    The two safety theorems, over every run with failures and other methods. Then the
    removal run alone and without failures ([exec]): from every phase a journal can
    be left in, the start that resumes it ends with nothing of the device left - no
    reference, no staged transfer, no row - and with everything of others as it was. *)

From S2P Require Export RemovalSafety.

Local Open Scope nat_scope.
#[local] Opaque DEVICE_REFS.

(** ** Running a program alone *)

Section exec.
Context (is_ancestor : jstring → jstring → bool) (w : World).

(** The answers where nothing fails; [Wait] has none. *)
Definition answer {B} (c : call B) (s : site) : option (result B * site) :=
  match c in call B return option (result B * site) with
  | Read => Some (Ok (si_db s), s)
  | MutateDurably fn => Some ((run w (fn w) (si_db s)).1, with_db (run w (fn w) (si_db s)).2 s)
  | ReadRefStrict vault ref => Some (Ok (ref_of vault ref s), s)
  | DeleteRefCas vault ref expected => Some
      match ref_of vault ref s with
      | Some oid => if oid =s? expected then (Ok RdDeleted, erase_ref vault ref oid s) else (Ok RdMoved, s)
      | None => (Ok RdAbsent, s)
      end
  | AncestryOf vault a b => Some (Ok (if is_ancestor a b then VdAncestor else VdNotAncestor), s)
  | CommitExists vault commit => Some (Ok true, s)
  | StagedTargetCommits vault device => Some (Ok (staged_of vault device s), s)
  | DrainTransfers vault device => Some (Ok true, s)
  | DrainDeviceLeases vault device => Some (Ok (leases_of vault device s =? 0), s)
  | EraseDeviceResidue vault device => Some (Ok (), erase_staged vault device (staged_of vault device s) [] s)
  | CloseDeviceBarrier vault device => Some (Ok (), with_closing ({[ (vault, device) ]} ∪ si_closing s) s)
  | ReleaseDeviceBarrier vault device => Some (Ok (), with_closing (si_closing s ∖ {[ (vault, device) ]}) s)
  | AcquireAdmission vault => Some (Ok (), s)
  | ArchiveCompletedHistory vault => Some (Ok (), s)
  | Wait => None
  end.

Fixpoint exec {A} (p : prog call A) (s : site) : prog call A * site :=
  match p with
  | Done a => (Done a, s)
  | Do c k => match answer c s with Some (r, s') => exec (k r) s' | None => (p, s) end
  end.

Lemma removal_answer_step {B} (c : call B) s r s' : answer c s = Some (r, s') → call_step is_ancestor B c s r s'.
Proof.
  destruct c; cbn [answer call_step]; try (intros [= <- <-]); auto; try done.
  - right. exists w. destruct (run w (fn w) (si_db s)) as [[a|e] db] eqn:E; cbn; [auto|]. split; [done|].
    destruct (run_cases w (fn w) (si_db s)) as [(e' & _ & E')|(a & c & h & _ & E')]; rewrite E in E'; [|done].
    injection E' as _ ->. by destruct s.
  - destruct (ref_of vault ref s) as [oid|] eqn:E; [destruct (oid =s? expected) eqn:Eo|]; intros [= <- <-].
    + apply jeqb_eq in Eo as ->. right. left. by split.
    + right. right. left. split; [done|]. split; [done|]. intros [= ->]. by rewrite jeqb_refl in Eo.
    + right. right. right. by split.
  - split; [done|]. by destruct (is_ancestor ancestor descendant) eqn:E.
  - split; [done|]. by intros [= ?%Nat.eqb_eq].
  - exists (staged_of vault device s), []. split; [done|]. split; [done|]. split; [apply list_subseteq_nil|done].
  - exists (db_sync_operations (si_db s)), (db_operation_history_by_vault (si_db s)). by destruct s as [[] ? ? ? ? ?].
Qed.

Lemma removal_exec_runs rely {A} (p : prog call A) s : runs (call_step is_ancestor) rely p s (exec p s).1 (exec p s).2.
Proof.
  revert s. induction p as [a|B c k IH]; intros s; cbn [exec]; [apply runs_here|].
  destruct (answer c s) as [[r s']|] eqn:E; [|apply runs_here]. eapply runs_call; [by apply removal_answer_step|apply IH].
Qed.

(** [m] returns [a] and leaves [t]. *)
Definition gives {A} (m : removal A) (s : site) (a : A) (t : site) : Prop := exec m s = (Done (Ok a), t).

Lemma exec_after {A B} (m : prog call A) (f : A → prog call B) s a t : exec m s = (Done a, t) → exec (after m f) s = exec (f a) t.
Proof.
  revert s. induction m as [a'|C c k IH]; intros s; cbn [exec after]; [by intros [= -> ->]|].
  destruct (answer c s) as [[r s']|]; [apply IH|done].
Qed.
Lemma gives_ret {A} (a : A) s : gives (mret a) s a s.
Proof. done. Qed.
Lemma gives_bind {A B} (m : removal A) (f : A → removal B) s a s' b t : gives m s a s' → gives (f a) s' b t → gives (m ≫= f) s b t.
Proof. intros Hm Hf. unfold gives, mbind, io_bind. by rewrite (exec_after _ _ _ _ _ Hm). Qed.
Lemma gives_catch {A} (m : removal A) h s a t : gives m s a t → gives (try_catch m h) s a t.
Proof. intros Hm. unfold gives, try_catch. by rewrite (exec_after _ _ _ _ _ Hm). Qed.
Lemma gives_finally {A} (m : removal A) f s a s' t : gives m s a s' → gives f s' () t → gives (try_finally m f) s a t.
Proof. intros Hm Hf. unfold gives, try_finally. rewrite (exec_after _ _ _ _ _ Hm). by rewrite (exec_after _ _ _ _ _ Hf). Qed.
Lemma gives_lift {A} (r : result A) s a : r = Ok a → gives (lift r) s a s.
Proof. by intros ->. Qed.
Lemma gives_call {A} (c : call A) s a t : answer c s = Some (Ok a, t) → gives (perform c) s a t.
Proof. intros E. unfold gives. cbn [perform exec]. by rewrite E. Qed.
Lemma gives_read {A} (sel : MetadataDb → result A) s a : sel (si_db s) = Ok a → gives (read sel) s a s.
Proof. intros E. unfold read. eapply gives_bind; [by apply gives_call|]. by apply gives_lift. Qed.
Lemma gives_mutate {A} (fn : transaction A) s a db : fn w (si_db s) = Ok (a, db) →
  ∃ h, gives (mutateDurably fn) s a (with_db (committed h db) s).
Proof.
  intros E. destruct (run_cases w (fn w) (si_db s)) as [(e & E' & _)|(a' & db' & h & E' & Er)]; [congruence|].
  assert (a' = a ∧ db' = db) as [-> ->] by (rewrite E in E'; by injection E').
  exists h. apply gives_call. cbn [answer]. by rewrite Er.
Qed.

End exec.

(** ** What is left, and what is spared *)

Section outcome.
Context (owner v d : jstring).

Local Abbreviation T := (mk_target owner v d).
Definition own_ref : jstring := DEVICE_REFS ++ d.

(** Nothing of the device is left. *)
Record forgotten (s : site) : Prop := {
  fg_ref : ref_of v own_ref s = None;
  fg_staged : staged_of v d s = [];
  fg_barrier : (v, d) ∉ si_closing s;
  fg_device : existsb (λ x, d_device_id x =s? d) (db_devices (si_db s)) = false;
  fg_tokens : existsb (λ t, oeqb (t_device_id t) (Some d)) (db_tokens (si_db s)) = false;
  fg_connections : existsb (λ c, oeqb (c_created_device_id c) (Some d)) (db_connections (si_db s)) = false;
  fg_diagnostics : existsb (λ e, oeqb (dg_device_id e) (Some d)) (db_diagnostic_events (si_db s)) = false;
  fg_proposals : existsb (λ r, pr_device_id r =s? d) (db_directory_proposal_results (si_db s)) = false;
  fg_journal : find_job (si_db s) d = None
}.

(** The rows of others: [C] are the connections that created the device. *)
Definition kept (C : list jstring) (db : MetadataDb) :=
  (db_users db, db_sessions db, db_vaults db, List.filter (λ x, negb (d_device_id x =s? d)) (db_devices db),
   List.filter (λ c, negb (jmem (c_connection_id c) C)) (db_connections db),
   List.filter (λ t, others_than T (t_device_id t)) (db_tokens db), db_sync_operations db, db_conflicts db, db_events db,
   List.filter (λ e, others_than T (dg_device_id e) && negb (of_connection C e)) (db_diagnostic_events db),
   db_directory_state_by_vault db, List.filter (λ r, negb (pr_device_id r =s? d)) (db_directory_proposal_results db),
   db_deletion_jobs db, db_deletion_receipts db, List.filter (λ j, negb (is_job d j)) (db_device_removal_jobs db)).

Record spares (C : list jstring) (s s' : site) : Prop := {
  sp_refs k : k ≠ (v, own_ref) → si_refs s' !! k = si_refs s !! k;
  sp_staged k : k ≠ (v, d) → si_staged s' !! k = si_staged s !! k;
  sp_barriers k : k ≠ (v, d) → k ∈ si_closing s' ↔ k ∈ si_closing s;
  sp_leases : si_leases s' = si_leases s;
  sp_rows : kept C (si_db s') = kept C (si_db s);
  sp_connections : own_connections T (si_db s') ⊆ own_connections T (si_db s);
  sp_audit : ∃ l, db_audit_log (si_db s') = db_audit_log (si_db s) ++ l
}.
#[export] Instance spares_preorder C : PreOrder (spares C).
Proof.
  split; [intros s; split; try done; exists []; by rewrite app_nil_r|].
  intros a b c [r1 s1 b1 l1 k1 c1 [x1 a1]] [r2 s2 b2 l2 k2 c2 [x2 a2]]. split.
  - intros k Hk. by rewrite r2, r1.
  - intros k Hk. by rewrite s2, s1.
  - intros k Hk. by rewrite b2, b1.
  - congruence.
  - congruence.
  - by transitivity (own_connections T (si_db b)).
  - exists (x1 ++ x2). by rewrite a2, a1, app_assoc.
Qed.

(** ** Documents that only the journal tells apart *)

Lemma committed_sound h db : existsb needs_repair (db_devices db) = false → committed h db = set_db_operation_history_by_vault h db.
Proof.
  intros H. unfold committed, enforceRevocationInvariant. cbn [fst]. f_equal.
  replace (update_where needs_repair (set_d_status DRevoked) (db_devices db)) with (db_devices db); [by destruct db|].
  revert H. unfold update_where. induction (db_devices db) as [|x l IH]; [done|]. cbn. rewrite orb_false_iff. intros [-> H].
  f_equal. by apply IH.
Qed.

Lemma removal_filter_twice {A} (p q : A → bool) l : (∀ x, p x = true → q x = true) → List.filter p (List.filter q l) = List.filter p l.
Proof.
  intros H. induction l as [|x l IH]; [done|]. cbn. destruct (q x) eqn:Eq; cbn; [by rewrite IH|].
  destruct (p x) eqn:Ep; [by rewrite (H x Ep) in Eq|done].
Qed.
Lemma existsb_filter_out {A} (p q : A → bool) l : (∀ x, p x = true → q x = false) → existsb p (List.filter q l) = false.
Proof.
  intros H. apply not_true_iff_false. intros (x & [_ Hq]%filter_In & Hp)%existsb_exists. by rewrite (H x Hp) in Hq.
Qed.

(** A journal that is at work on an undisturbed vault. *)
Record ready (job : DeviceRemovalJob) (main : jstring) (s : site) : Prop := {
  rd_job : find_job (si_db s) d = Some job;
  rd_vault : ∃ vault, find_row (has_vault_id v) (db_vaults (si_db s)) = Some vault ∧ v_current_main vault = main;
  rd_device : ∃ device, find_row (λ x, (d_device_id x =s? d) && (d_vault_id x =s? v)) (db_devices (si_db s)) = Some device ∧
    d_device_ref device = own_ref;
  rd_alive : hasDurableDeletionRecord (si_db s) v = false;
  rd_work vault device : assertNoOpenWork (selected T (si_db s) vault device) = Ok ();
  rd_leases : leases_of v d s = 0;
  rd_sound : existsb needs_repair (db_devices (si_db s)) = false
}.

Definition rejournal (jobs : list DeviceRemovalJob) (h : jmap OperationHistoryMetadata) (s : site) : site :=
  with_db (set_db_operation_history_by_vault h (set_db_device_removal_jobs jobs (si_db s))) s.

Lemma ready_rejournal job job' main jobs h s : ready job main s → find_row (is_job d) jobs = Some job' → ready job' main (rejournal jobs h s).
Proof. by intros [? ? ? ? Hw ? ?] Hj; split. Qed.

Lemma update_first_filter_out {A} (p : A → bool) f (l : list A) : (∀ x, p x = true → p (f x) = true) →
  List.filter (λ x, negb (p x)) (update_first p f l) = List.filter (λ x, negb (p x)) l.
Proof.
  intros H. induction l as [|x l IH]; [done|]. cbn. destruct (p x) eqn:E; cbn; [by rewrite (H x E)|by rewrite E, IH].
Qed.

End outcome.

(** ** The steps *)

Section steps.
Context (is_ancestor : jstring → jstring → bool) (w : World) (owner v d : jstring) (C : list jstring).

Local Abbreviation T := (mk_target owner v d).
Local Abbreviation gives := (gives is_ancestor w).
Local Abbreviation ready := (ready owner v d).
Local Abbreviation spares := (spares owner v d C).
Local Abbreviation own_ref := (own_ref d).

Lemma spares_rejournal jobs h s :
  List.filter (λ j, negb (is_job d j)) jobs = List.filter (λ j, negb (is_job d j)) (db_device_removal_jobs (si_db s)) →
  spares s (rejournal jobs h s).
Proof. intros H. split; try done; [unfold kept; cbn; by rewrite H|exists []; by rewrite app_nil_r]. Qed.

(** The journal after [apply]. *)
Definition after_apply (apply : DeviceRemovalJob → option DeviceRemovalJob) (job : DeviceRemovalJob) : DeviceRemovalJob :=
  match apply job with None => job | Some j => set_rj_updated_at (nowIso w 0) j end.

Lemma gives_update job main s apply : ready job main s → applies_keep apply →
  ∃ s', gives (updateJob T apply) s (after_apply apply job) s' ∧ ready (after_apply apply job) main s' ∧
    ref_of v own_ref s' = ref_of v own_ref s ∧ staged_of v d s' = staged_of v d s ∧ spares s s'.
Proof.
  intros Hr Hk. pose proof (rd_job _ _ _ _ _ _ Hr) as Hj.
  set (jobs := match apply job with None => db_device_removal_jobs (si_db s)
               | Some _ => update_first (is_job d) (λ _, after_apply apply job) (db_device_removal_jobs (si_db s)) end).
  assert (job_tx T apply w (si_db s) = Ok (Some (after_apply apply job), set_db_device_removal_jobs jobs (si_db s))) as E.
  { unfold job_tx, jobs, after_apply. cbn [tg_device]. rewrite Hj. destruct (apply job); [done|]. by destruct (si_db s). }
  assert (is_job d (after_apply apply job) = true) as Hid.
  { apply jeqb_eq. unfold after_apply. destruct (apply job) as [j|] eqn:Ea; [cbn; rewrite (proj1 (Hk _ _ Ea))|]; by eapply find_job_id. }
  destruct (gives_mutate is_ancestor w _ s _ _ E) as [h Hg]. rewrite committed_sound in Hg by apply Hr.
  exists (rejournal jobs h s). split; [|split; [|split; [done|split; [done|]]]].
  - unfold updateJob. eapply gives_bind; [exact Hg|done].
  - eapply ready_rejournal; [exact Hr|]. unfold jobs, after_apply. destruct (apply job) as [j|] eqn:Ea; [|done].
    unfold after_apply in Hid. rewrite Ea in Hid.
    change (find_job (update_job T (λ _, set_rj_updated_at (nowIso w 0) j) (si_db s)) d = Some (set_rj_updated_at (nowIso w 0) j)).
    rewrite find_update_job_own; [by rewrite Hj|done|]. intros _ _. by apply jeqb_eq in Hid.
  - apply spares_rejournal. unfold jobs. destruct (apply job); [|done]. by apply update_first_filter_out.
Qed.

Definition unblocked (job : DeviceRemovalJob) (main : jstring) (s : site) : Prop :=
  rj_discard_unmerged job = true ∨
  (∀ oid, ref_of v own_ref s = Some oid → is_ancestor oid main = true) ∧ (∀ c, c ∈ staged_of v d s → is_ancestor c main = true).

Lemma gives_covered main oid discard s : discard = true ∨ is_ancestor oid main = true → gives (assertCovered T main oid discard) s () s.
Proof.
  intros H. unfold assertCovered. eapply gives_bind; [by apply gives_catch, gives_call|]. cbn beta.
  destruct (is_ancestor oid main); [done|]. destruct H as [->|?]; done.
Qed.

Lemma gives_staged main discard s : discard = true ∨ (∀ c, c ∈ staged_of v d s → is_ancestor c main = true) →
  gives (assertStagedCovered T main discard) s () s.
Proof.
  unfold assertStagedCovered. destruct discard; [done|]. intros [?|H]; [done|].
  eapply gives_bind; [by apply gives_catch, gives_call|]. cbn [tg_vault tg_device]. revert H. generalize (staged_of v d s). intros l H.
  induction l as [|c l IH]; cbn [check_staged]; [apply gives_ret|].
  eapply gives_bind; [eapply gives_catch, gives_bind; [by apply gives_call|by apply gives_call]|]. cbn beta.
  rewrite (H c) by by left. apply IH. intros x Hx. apply H. by right.
Qed.

Lemma gives_select job main s : ready job main s → ∃ x, gives (selectForStep T) s (x, job) s ∧
  sl_current_main x = main ∧ sl_device_ref x = own_ref ∧ assertNoOpenWork x = Ok ().
Proof.
  intros Hr. destruct (rd_vault _ _ _ _ _ _ Hr) as (vault & Hv & Hm). destruct (rd_device _ _ _ _ _ _ Hr) as (device & Hdv & Hdr).
  exists (selected T (si_db s) vault device). split; [|split; [done|split; [done|by apply Hr]]].
  apply gives_read. unfold select_step. cbn [tg_device tg_vault].
  by rewrite (rd_job _ _ _ _ _ _ Hr), Hv, Hdv, (rd_alive _ _ _ _ _ _ Hr).
Qed.

Lemma gives_ref x s : sl_device_ref x = own_ref → gives (readRef T x) s (ref_of v own_ref s) s.
Proof. intros E. unfold readRef. cbn [tg_device tg_vault]. rewrite E, jeqb_refl. cbn [negb]. by apply gives_catch, gives_call. Qed.

(** The end of the step: the reference is gone and the journal is at its cleanup. *)
Definition removed (main : jstring) (s s' : site) : Prop :=
  (∃ job, ready job main s' ∧ in_phase RpCleanup job = true) ∧ ref_of v own_ref s' = None ∧ spares s s'.

Lemma gives_enter_cleanup job main s (s0 : site) : ready job main s → ref_of v own_ref s = None → spares s0 s →
  ∃ s', gives (_ ← enter T RpCleanup; mret (@None nat)) s None s' ∧ removed main s0 s'.
Proof.
  intros Hr Hn Hsp. destruct (gives_update job main s _ Hr (phase_keeps RpCleanup)) as (s' & Hg & Hr' & Href & _ & Hs).
  exists s'. split; [eapply gives_bind; [exact Hg|apply gives_ret]|]. split; [|split; [congruence|by etrans]].
  eexists. split; [exact Hr'|]. done.
Qed.

Lemma erase_ready job main s oid : ready job main s → ready job main (erase_ref v own_ref oid s).
Proof. by intros [? ? ? ? ? ? ?]; split. Qed.
Lemma erase_spares s oid : spares s (erase_ref v own_ref oid s).
Proof.
  split; [|reflexivity..|exists []; by rewrite app_nil_r]. intros k Hk. apply lookup_delete_ne. by intros <-.
Qed.
Lemma erase_gone s oid : ref_of v own_ref (erase_ref v own_ref oid s) = None.
Proof. apply lookup_delete_eq. Qed.

Lemma gives_delete x job main s s0 moves oid : ready job main s → sl_device_ref x = own_ref → ref_of v own_ref s = Some oid →
  rj_expected_ref_oid job = Some oid → spares s0 s →
  ∃ s', gives (outcome ← perform (DeleteRefCas v (sl_device_ref x) (default [] (rj_expected_ref_oid job)));
               match outcome with
               | RdMoved => mret (Some moves)
               | RdDeleted | RdAbsent => _ ← enter T RpCleanup; mret (@None nat)
               end) s None s' ∧ removed main s0 s'.
Proof.
  intros Hr Hx Hoid He Hsp. rewrite Hx, He. cbn [default].
  destruct (gives_enter_cleanup job main (erase_ref v own_ref oid s) s0) as (s' & Hg & Hrem);
    [by apply erase_ready|apply erase_gone|etrans; [exact Hsp|apply erase_spares]|].
  exists s'. split; [|done]. eapply gives_bind; [apply gives_call; cbn [answer]; by rewrite Hoid, jeqb_refl|exact Hg].
Qed.

Lemma gives_admitted x job main s s0 moves : ready job main s → sl_current_main x = main → sl_device_ref x = own_ref →
  assertNoOpenWork x = Ok () → unblocked job main s → rj_expected_ref_oid job = ref_of v own_ref s →
  (ref_of v own_ref s = None → in_phase RpIntent job = true) → spares s0 s →
  ∃ s', gives (admitted ← admit_deletion T x job (ref_of v own_ref s);
               match admitted with
               | None => mret None
               | Some job =>
                   outcome ← perform (DeleteRefCas v (sl_device_ref x) (default [] (rj_expected_ref_oid job)));
                   match outcome with
                   | RdMoved => mret (Some moves)
                   | RdDeleted | RdAbsent => _ ← enter T RpCleanup; mret (@None nat)
                   end
               end) s None s' ∧ removed main s0 s'.
Proof.
  intros Hr Hm Hx Hw Hu He Hp Hsp.
  assert (gives (assertStagedCovered T (sl_current_main x) (rj_discard_unmerged job)) s () s) as Hst
    by (apply gives_staged; rewrite Hm; destruct Hu as [?|[_ ?]]; auto).
  unfold admit_deletion. cbv zeta. destruct (ref_of v own_ref s) as [oid|] eqn:Hoid.
  - assert (gives (assertCovered T (sl_current_main x) oid (rj_discard_unmerged job)) s () s) as Hcov
      by (apply gives_covered; rewrite Hm; destruct Hu as [?|[? _]]; auto).
    destruct (in_phase RpIntent job).
    + destruct (gives_update job main s _ Hr (phase_keeps RpRefDeleting)) as (s1 & Hg & Hr1 & Href & _ & Hs1).
      destruct (gives_delete x _ main s1 s0 moves oid Hr1 Hx) as (s' & Hd & Hrem); [congruence|done|by etrans|].
      exists s'. split; [|done]. eapply gives_bind with (a := Some _); [|exact Hd].
      eapply gives_bind; [by apply gives_lift|]. eapply gives_bind; [exact Hcov|]. eapply gives_bind; [exact Hst|].
      eapply gives_bind; [exact Hg|apply gives_ret].
    + destruct (gives_delete x job main s s0 moves oid Hr Hx Hoid He Hsp) as (s' & Hd & Hrem).
      exists s'. split; [|done]. eapply gives_bind with (a := Some _); [|exact Hd]. eapply gives_bind; [exact Hcov|]. eapply gives_bind; [exact Hst|apply gives_ret].
  - rewrite (Hp eq_refl). destruct (gives_update job main s _ Hr (phase_keeps RpCleanup)) as (s1 & Hg & Hr1 & Href & _ & Hs1).
    exists s1. split; [|split; [by eexists|split; [congruence|by etrans]]].
    eapply gives_bind with (a := None); [|apply gives_ret]. eapply gives_bind; [by apply gives_lift|].
    eapply gives_bind; [apply gives_ret|]. eapply gives_bind; [exact Hst|]. eapply gives_bind; [exact Hg|apply gives_ret].
Qed.

Lemma gives_round job main s : ready job main s → unblocked job main s →
  (in_phase RpIntent job = true → ref_of v own_ref s = None → rj_discard_unmerged job = true ∨ rj_expected_ref_oid job = None) →
  ∃ s', gives (delete_round T 0) s None s' ∧ removed main s s'.
Proof.
  intros Hr Hu Hlost. destruct (gives_select job main s Hr) as (x & Hsel & Hm & Hx & Hw).
  assert (gives (assertStagedCovered T (sl_current_main x) (rj_discard_unmerged job)) s () s) as Hst
    by (apply gives_staged; rewrite Hm; destruct Hu as [?|[_ ?]]; auto).
  enough (∃ s', gives (current ← readRef T x; if in_phase RpCleanup job && is_null_or current then
      _ ← assertStagedCovered T (sl_current_main x) (rj_discard_unmerged job); mret None
    else _) s None s' ∧ removed main s s') as (s' & Hg & Hrem)
    by (exists s'; split; [eapply gives_bind; [exact Hsel|exact Hg]|exact Hrem]).
  pose proof (gives_ref x s Hx) as Href. destruct (in_phase RpCleanup job && is_null_or (ref_of v own_ref s)) eqn:E1.
  { apply andb_true_iff in E1 as [Ec En]. exists s. split; [|split; [by exists job|split; [by destruct (ref_of v own_ref s)|done]]].
    eapply gives_bind; [exact Href|]. rewrite Ec, En. cbn [andb]. eapply gives_bind; [exact Hst|apply gives_ret]. }
  destruct (in_phase RpRefDeleting job && is_null_or (ref_of v own_ref s)) eqn:E2.
  { pose proof E2 as [_ En]%andb_true_iff.
    destruct (gives_enter_cleanup job main s s Hr) as (s' & Hg & Hrem); [by destruct (ref_of v own_ref s)|done|].
    exists s'. split; [|exact Hrem]. eapply gives_bind; [exact Href|]. rewrite E1, E2. eapply gives_bind; [exact Hst|exact Hg]. }
  destruct (in_phase RpCleanup job || negb (oeqb (ref_of v own_ref s) (rj_expected_ref_oid job))) eqn:E3.
  - destruct (in_phase RpIntent job && is_null_or (ref_of v own_ref s)) eqn:E4.
    + apply andb_true_iff in E4 as [Ei En]. assert (ref_of v own_ref s = None) as Hn by by destruct (ref_of v own_ref s).
      assert (rj_discard_unmerged job = true) as Hd.
      { destruct (Hlost Ei Hn) as [?|He]; [done|]. rewrite Hn, He in E3. cbn in E3. rewrite orb_false_r in E3.
        revert Ei E3. unfold in_phase. by destruct (rj_phase job). }
      destruct (gives_update job main s _ Hr (rebase_keeps None RpCleanup)) as (s' & Hg & Hr' & Hre & _ & Hs).
      exists s'. split; [|split; [by eexists|split; [congruence|done]]].
      eapply gives_bind; [exact Href|]. rewrite E1, E2, E3. eapply gives_bind with (a := None); [|apply gives_ret].
      unfold next_generation. rewrite Ei, En, Hd. cbn [andb negb]. eapply gives_bind; [by apply gives_lift|].
      eapply gives_bind; [exact Hg|apply gives_ret].
    + destruct (gives_update job main s _ Hr (rebase_keeps (ref_of v own_ref s) RpIntent)) as (s1 & Hg & Hr1 & Hre & Hsta & Hs1).
      destruct (gives_admitted x _ main s1 s 1 Hr1 Hm Hx Hw) as (s' & Ha & Hrem).
      { destruct Hu as [?|[? ?]]; [by left|right]. by rewrite Hre, Hsta. }
      { by rewrite Hre. }
      { done. }
      { done. }
      exists s'. split; [|exact Hrem]. eapply gives_bind; [exact Href|]. rewrite E1, E2, E3.
      eapply gives_bind with (a := Some (_, 1)); [|rewrite <- Hre; exact Ha].
      unfold next_generation. rewrite E4. cbn [Nat.ltb Nat.leb MAX_GENERATIONS_PER_RUN]. eapply gives_bind; [exact Hg|apply gives_ret].
  - apply orb_false_iff in E3 as [E5 E6]. apply negb_false_iff, oeqb_iff in E6.
    destruct (gives_admitted x job main s s 0 Hr Hm Hx Hw Hu) as (s' & Ha & Hrem); [done| |done|].
    { intros Hn. rewrite Hn, E5 in *. cbn in E1, E2. rewrite andb_true_r in E2. revert E2 E5. unfold in_phase. by destruct (rj_phase job). }
    exists s'. split; [|exact Hrem]. eapply gives_bind; [exact Href|]. rewrite E1, E2, E5, <- E6.
    replace (oeqb (ref_of v own_ref s) (ref_of v own_ref s)) with true by (symmetry; by apply oeqb_iff).
    cbn [orb negb]. eapply gives_bind; [apply gives_ret|exact Ha].
Qed.

(** ** The cleanup *)

(** [f] leaves alone what the journal needs. *)
Definition harmless (f : MetadataDb → MetadataDb) : Prop := ∀ db,
  db_vaults (f db) = db_vaults db ∧ db_devices (f db) = db_devices db ∧ db_device_removal_jobs (f db) = db_device_removal_jobs db ∧
  db_deletion_jobs (f db) = db_deletion_jobs db ∧ db_deletion_receipts (f db) = db_deletion_receipts db ∧
  db_conflicts (f db) = db_conflicts db ∧ db_sync_operations (f db) = db_sync_operations db.

Lemma ready_harmless f h job main s : harmless f → ready job main s →
  ready job main (with_db (set_db_operation_history_by_vault h (f (si_db s))) s).
Proof.
  intros Hf [Hj Hv Hd Ha Hw Hl Hn]. destruct (Hf (si_db s)) as (E1 & E2 & E3 & E4 & E5 & E6 & E7).
  split; unfold find_job, hasDurableDeletionRecord, selected in *; cbn in *; rewrite ?E1, ?E2, ?E3, ?E4, ?E5, ?E6, ?E7; try done.
Qed.

Lemma gives_sweep (apply : list jstring → MetadataDb → MetadataDb) (owns : bool) job main s : ready job main s → in_phase RpCleanup job = true →
  harmless (apply (if owns then own_connections T (si_db s) else [])) →
  ∃ h, gives (sweep T apply owns) s () (with_db (set_db_operation_history_by_vault h
         (apply (if owns then own_connections T (si_db s) else []) (si_db s))) s).
Proof.
  intros Hr Hp Hf. set (db := apply (if owns then own_connections T (si_db s) else []) (si_db s)).
  assert (sweep_tx T apply owns w (si_db s) = Ok ((), db)) as E.
  { unfold sweep_tx, swept. cbn [tg_device]. by rewrite (rd_job _ _ _ _ _ _ Hr), Hp. }
  destruct (gives_mutate is_ancestor w _ s _ _ E) as [h Hg]. exists h. rewrite committed_sound in Hg; [exact Hg|].
  destruct (Hf (si_db s)) as (_ & E2 & _). unfold db. rewrite E2. apply Hr.
Qed.

(** A change of the document that spares the rows of others. *)
Lemma spares_db f h s : kept owner v d C (f (si_db s)) = kept owner v d C (si_db s) →
  own_connections T (f (si_db s)) ⊆ own_connections T (si_db s) → (∃ l : list AuditRow, db_audit_log (f (si_db s)) = db_audit_log (si_db s) ++ l) →
  spares s (with_db (set_db_operation_history_by_vault h (f (si_db s))) s).
Proof. intros H1 H2 H3. split; [reflexivity..|exact H1|exact H2|exact H3]. Qed.

Lemma filter_subseteq {A B} (key : A → B) (p q : A → bool) l : map key (List.filter p (List.filter q l)) ⊆ map key (List.filter p l).
Proof.
  intros x (y & -> & [[Hy Hq]%filter_elem Hp]%filter_elem)%list_elem_of_fmap. apply (list_elem_of_fmap_2 key). by apply filter_elem.
Qed.

Ltac rows := unfold kept; cbn -[List.filter]; repeat (apply pair_equal_spec; split); try reflexivity; try (apply removal_filter_twice).

Lemma kept_tokens db : kept owner v d C (drop_tokens T db) = kept owner v d C db.
Proof. rows. done. Qed.

Lemma kept_connections removed db : removed ⊆ C → kept owner v d C (drop_connections removed db) = kept owner v d C db.
Proof.
  intros Hc. assert (∀ id, jmem id removed = true → jmem id C = true) as Hm by (intros id; rewrite !jmem_elem; apply Hc).
  rows.
  - intros c. rewrite !negb_true_iff, <- !not_true_iff_false. auto.
  - intros e. rewrite andb_true_iff, !negb_true_iff, <- !not_true_iff_false. intros [_ H] Hr. apply H.
    unfold of_connection in *. destruct (dg_connection_id e); [by apply Hm|done].
Qed.

Lemma kept_bookkeeping db : kept owner v d C (drop_bookkeeping T db) = kept owner v d C db.
Proof. rows; [|done]. intros e. by rewrite andb_true_iff; intros [? _]. Qed.

Lemma tokens_harmless : harmless (drop_tokens T).
Proof. by intros db. Qed.
Lemma connections_harmless removed : harmless (drop_connections removed).
Proof. by intros db. Qed.
Lemma bookkeeping_harmless : harmless (drop_bookkeeping T).
Proof. by intros db. Qed.

Lemma erase_staged_spares s : spares s (erase_staged v d (staged_of v d s) [] s).
Proof.
  split; [reflexivity| |reflexivity..|exists []; by rewrite app_nil_r]. intros k Hk. apply lookup_insert_ne. by intros <-.
Qed.

(** The document of the completion. *)
Definition completed (db : MetadataDb) : MetadataDb :=
  let connections := own_connections T db in
  let db := drop_bookkeeping T (drop_connections connections (drop_tokens T db)) in
  let db := set_db_devices (List.filter (λ x, negb (d_device_id x =s? d)) (db_devices db)) db in
  let db := set_db_device_removal_jobs (List.filter (λ j, negb (is_job d j)) (db_device_removal_jobs db)) db in
  push_audit w 0 (Some owner) None (Some v) (lit "device_removed") (lit "device") (Some d) (nowIso w 1) db.

Lemma kept_completed db : own_connections T db ⊆ C → kept owner v d C (completed db) = kept owner v d C db.
Proof.
  intros Hc. transitivity (kept owner v d C (drop_bookkeeping T (drop_connections (own_connections T db) (drop_tokens T db)))).
  - unfold completed. cbv zeta. rows; done.
  - rewrite kept_bookkeeping, kept_connections by done. apply kept_tokens.
Qed.

Lemma completed_connections db : own_connections T (completed db) ⊆ own_connections T db.
Proof. apply (filter_subseteq c_connection_id). Qed.
Lemma completed_audit db : ∃ l, db_audit_log (completed db) = db_audit_log db ++ l.
Proof. eexists. unfold completed, push_audit. cbv zeta. reflexivity. Qed.

Lemma jmem_own_connection (c : ConnectionRequestRow) db : c ∈ db_connections db → oeqb (c_created_device_id c) (Some d) = true →
  jmem (c_connection_id c) (own_connections T db) = true.
Proof. intros Hc Ho. apply jmem_elem. unfold own_connections. apply (list_elem_of_fmap_2 c_connection_id). by apply filter_elem. Qed.

Lemma completed_forgets h s : ref_of v own_ref s = None → staged_of v d s = [] →
  forgotten v d (with_closing (si_closing s ∖ {[ (v, d) ]}) (with_db (set_db_operation_history_by_vault h (completed (si_db s))) s)).
Proof.
  intros Href Hst. split; [exact Href|exact Hst|cbn; set_solver| | | | | |].
  - apply (existsb_filter_out (λ x, d_device_id x =s? d) (λ x, negb (d_device_id x =s? d))). by intros x ->.
  - apply (existsb_filter_out (λ t, oeqb (t_device_id t) (Some d)) (λ t, others_than T (t_device_id t))).
    intros x Hx. unfold others_than. cbn [tg_device]. by rewrite Hx.
  - apply not_true_iff_false. intros (c & [Hin Hn]%filter_In & Ho)%existsb_exists. apply list_elem_of_In in Hin.
    by rewrite (jmem_own_connection c (si_db s) Hin Ho) in Hn.
  - apply (existsb_filter_out (λ e, oeqb (dg_device_id e) (Some d)) (λ e, others_than T (dg_device_id e))).
    intros x Hx. unfold others_than. cbn [tg_device]. by rewrite Hx.
  - apply (existsb_filter_out (λ r, pr_device_id r =s? d) (λ r, negb (pr_device_id r =s? d))). by intros x ->.
  - destruct (find_job _ d) as [job|] eqn:E; [|done]. apply find_row_Some in E as [[_ Hn]%filter_elem Hj]. by rewrite Hj in Hn.
Qed.

Lemma gives_cleanup main s s0 : removed main s0 s → own_connections T (si_db s) ⊆ C →
  ∃ t, gives (cleanupAndComplete T) s () t ∧ forgotten v d t ∧ spares s0 t.
Proof.
  intros ([job [Hr Hp]] & Href & Hs0) HC.
  destruct (gives_sweep (λ _, drop_tokens T) false job main s Hr Hp tokens_harmless) as [h1 Hg1].
  set (s1 := with_db _ s) in Hg1. assert (ready job main s1) as Hr1 by (apply ready_harmless; [apply tokens_harmless|exact Hr]).
  assert (spares s s1) as Hs1.
  { apply spares_db; [apply kept_tokens|done|exists []; by rewrite app_nil_r]. }
  assert (own_connections T (si_db s1) ⊆ C) as HC1 by (etrans; [apply (sp_connections _ _ _ _ _ _ Hs1)|done]).
  destruct (gives_sweep drop_connections true job main s1 Hr1 Hp (connections_harmless _)) as [h2 Hg2].
  set (s2 := with_db _ s1) in Hg2. assert (ready job main s2) as Hr2 by (apply ready_harmless; [apply connections_harmless|exact Hr1]).
  assert (spares s1 s2) as Hs2.
  { apply spares_db; [by apply kept_connections|apply filter_subseteq|exists []; by rewrite app_nil_r]. }
  set (s3 := erase_staged v d (staged_of v d s2) [] s2).
  assert (ready job main s3) as Hr3 by (by destruct Hr2; split).
  destruct (gives_sweep (λ _, drop_bookkeeping T) false job main s3 Hr3 Hp bookkeeping_harmless) as [h4 Hg4].
  set (s4 := with_db _ s3) in Hg4. assert (ready job main s4) as Hr4 by (apply ready_harmless; [apply bookkeeping_harmless|exact Hr3]).
  assert (spares s3 s4) as Hs4.
  { apply spares_db; [apply kept_bookkeeping|done|exists []; by rewrite app_nil_r]. }
  assert (spares s s4) as Hall by (etrans; [exact Hs1|]; etrans; [exact Hs2|]; etrans; [apply erase_staged_spares|exact Hs4]).
  assert (own_connections T (si_db s4) ⊆ C) as HC4 by (etrans; [apply (sp_connections _ _ _ _ _ _ Hall)|done]).
  assert (completion_tx T w (si_db s4) = Ok ((), completed (si_db s4))) as E.
  { unfold completion_tx, swept. cbn [tg_device]. by rewrite (rd_job _ _ _ _ _ _ Hr4), Hp. }
  destruct (gives_mutate is_ancestor w _ s4 _ _ E) as [h5 Hg5].
  rewrite committed_sound in Hg5.
  2:{ apply not_true_iff_false. intros (x & [Hx _]%filter_In & Hn)%existsb_exists.
      pose proof (rd_sound _ _ _ _ _ _ Hr4) as Hso. apply not_true_iff_false in Hso. apply Hso, existsb_exists. by exists x. }
  set (s5 := with_db _ s4) in Hg5. exists (with_closing (si_closing s5 ∖ {[ (v, d) ]}) s5). split; [|split].
  - unfold cleanupAndComplete. eapply gives_bind; [exact Hg1|]. eapply gives_bind; [exact Hg2|].
    eapply gives_bind; [by apply gives_call|]. eapply gives_bind; [exact Hg4|]. eapply gives_bind; [exact Hg5|]. by apply gives_call.
  - apply (completed_forgets h5 s4); [exact Href|]. unfold staged_of, s4, s3. cbn. by rewrite lookup_insert_eq.
  - etrans; [exact Hs0|]. etrans; [exact Hall|]. assert (spares s4 s5) as Hs5.
    { apply (spares_db completed); [by apply kept_completed|apply completed_connections|apply completed_audit]. }
    etrans; [exact Hs5|]. split; [reflexivity|reflexivity| |reflexivity|reflexivity|reflexivity|exists []; by rewrite app_nil_r]. intros k Hk. cbn. set_solver.
Qed.

End steps.

(** ** Theorems *)

Section theorems.
Context (is_ancestor : jstring → jstring → bool) (w : World) (owner v d : jstring).

Local Abbreviation T := (mk_target owner v d).
Local Abbreviation gives := (gives is_ancestor w).

Lemma gives_drive rounds job main s C : ready owner v d job main s → unblocked is_ancestor v d job main s →
  (in_phase RpIntent job = true → ref_of v (own_ref d) s = None → rj_discard_unmerged job = true ∨ rj_expected_ref_oid job = None) →
  own_connections T (si_db s) ⊆ C →
  ∃ t, gives (drive T (S rounds)) s true t ∧ forgotten v d t ∧ spares owner v d C s t.
Proof.
  intros Hr Hu Hlost HC.
  destruct (gives_update is_ancestor w owner v d C job main s _ Hr pending_keeps) as (s1 & Hg1 & Hr1 & Href & Hst & Hs1).
  set (job1 := after_apply _ _ _) in Hg1, Hr1.
  assert (rj_phase job1 = rj_phase job ∧ rj_discard_unmerged job1 = rj_discard_unmerged job ∧
    rj_expected_ref_oid job1 = rj_expected_ref_oid job) as (Ep & Ed & Ee)
    by (unfold job1, after_apply; destruct (settled_pending job); done).
  destruct (gives_round is_ancestor w owner v d C job1 main s1 Hr1) as (s2 & Hg2 & Hrem).
  { unfold unblocked in *. by rewrite Ed, Href, Hst. }
  { unfold in_phase in *. by rewrite Ep, Ed, Ee, Href. }
  destruct (gives_cleanup is_ancestor w owner v d C main s2 s1 Hrem) as (t & Hg3 & Hf & Hsp).
  { destruct Hrem as (_ & _ & Hs2). etrans; [apply (sp_connections _ _ _ _ _ _ Hs2)|]. etrans; [apply (sp_connections _ _ _ _ _ _ Hs1)|done]. }
  exists t. split; [|split; [exact Hf|by etrans]]. unfold drive. apply gives_catch.
  eapply gives_bind; [exact Hg1|]. eapply gives_bind with (s' := s1) (a := ()).
  { unfold drain. eapply gives_bind with (a := true); [by apply gives_call|]. cbn [negb].
    eapply gives_bind with (a := true); [apply gives_call; cbn [answer tg_vault tg_device]; by rewrite (rd_leases _ _ _ _ _ _ Hr1)|]. apply gives_ret. }
  eapply gives_bind with (s' := s2) (a := ()).
  { unfold runWithVaultLock, withAdmission. eapply gives_bind; [by apply gives_call|].
    eapply gives_finally; [|by apply gives_call]. cbn [deleteRefStep]. eapply gives_bind; [exact Hg2|apply gives_ret]. }
  eapply gives_bind with (s' := t) (a := ()); [|apply gives_ret].
  unfold withAdmission. eapply gives_bind; [by apply gives_call|exact Hg3].
Qed.

(** [C6] A start that nothing disturbs completes the removal of a device, in whatever phase
    its journal was left: when it returns, the reference, the staged transfers, the
    barrier, the journal and every row of the device are gone, and the references, the
    transfers, the barriers and the rows of others are as they were. Assumed: the
    vault and the row of the device are there and the device has no open work; what
    would be erased is merged or the journal holds the grant; a reference that is
    missing before its deletion was entered was expected to be, or the grant accepts
    that; a failure that needs the owner has not been recorded. *)
Theorem resumption_completes rounds job main s :
  db_device_removal_jobs (si_db s) = [job] → rj_owner_user_id job = owner → rj_vault_id job = v → rj_device_id job = d →
  (rj_state job = RsFailed → rj_retryable job = true) →
  ready owner v d job main s → unblocked is_ancestor v d job main s →
  (in_phase RpIntent job = true → ref_of v (own_ref d) s = None → rj_discard_unmerged job = true ∨ rj_expected_ref_oid job = None) →
  ∃ t, exec is_ancestor w (resumePending (S rounds)) s = (Done (Ok ()), t) ∧
    forgotten v d t ∧ spares owner v d (own_connections T (si_db s)) s t.
Proof.
  intros Hjobs Ho Hv Hd Hfailed Hr Hu Hlost. set (s1 := with_closing ({[ (v, d) ]} ∪ si_closing s) s).
  destruct (gives_drive rounds job main s1 (own_connections T (si_db s))) as (t & Hg & Hf & Hsp); [by destruct Hr; split|done|done|done|].
  exists t. split; [|split; [exact Hf|]].
  - change (gives (resumePending (S rounds)) s () t). unfold resumePending. eapply gives_bind; [by apply gives_read|]. rewrite Hjobs. cbn [resume_jobs].
    eapply gives_bind; [|apply gives_ret]. unfold resume_job. cbv zeta. rewrite Ho, Hv, Hd. apply gives_catch.
    eapply gives_bind; [by apply gives_read|]. rewrite Hv, Hd, (rd_alive _ _ _ _ _ _ Hr).
    destruct (rd_device _ _ _ _ _ _ Hr) as (device & [Hin Hdv]%find_row_Some & _).
    assert (existsb (λ x, (d_device_id x =s? d) && (d_vault_id x =s? v)) (db_devices (si_db s)) = true) as ->
      by (apply existsb_exists; exists device; split; [by apply list_elem_of_In|done]).
    eapply gives_bind; [by apply gives_call|].
    assert (bool_decide (rj_state job = RsFailed) && negb (rj_retryable job) = false) as ->.
    { destruct (rj_state job); [done|]. by rewrite Hfailed. }
    eapply gives_bind; [exact Hg|apply gives_ret].
  - etrans; [|exact Hsp]. split; [reflexivity|reflexivity| |reflexivity|reflexivity|reflexivity|exists []; by rewrite app_nil_r].
    intros k Hk. cbn. set_solver.
Qed.

End theorems.

Section safety_theorems.
Context (is_ancestor : jstring → jstring → bool) `{!PreOrder (ancestor is_ancestor)}.

(** [C4] Whatever fails and wherever it stops, a request to remove a device erases - the
    device's reference or its staged transfers - only commits in the history of main
    at that moment, unless this request itself asks for the loss with the full phrase.
    A grant of an earlier request does not count; a vault that is being deleted is not
    protected. *)
Theorem removal_erases_no_unmerged_work rounds request s q t :
  runs (call_step is_ancestor) (others is_ancestor (rq_vault request) (rq_device request)) (remove rounds request) s q t →
  ∀ e, e ∈ erasures (rq_vault request) (rq_device request) t →
    e ∈ erasures (rq_vault request) (rq_device request) s ∨
    rq_discard request = true ∧ rq_confirmation request = Some (lit "DELETE " ++ rq_device request ++ lit " AND DISCARD UNMERGED WORK") ∨
    (alive (rq_vault request) (er_db e) → merged is_ancestor (rq_vault request) (er_db e) (er_commit e)).
Proof.
  intros Hrun e He. destruct (granted request) eqn:Hg.
  - right. left. unfold granted, phraseMatches, expectedPhrase in Hg. apply andb_true_iff in Hg as [Hp Hd]. split; [done|].
    rewrite Hd in Hp. by apply oeqb_iff in Hp.
  - pose proof (remove_own is_ancestor (rq_vault request) (rq_device request) s rounds request eq_refl eq_refl Hg) as H.
    destruct (triple_runs _ _ _ _ _ _ _ _ _ H (λ e He, or_introl He) Hrun) as [HI _].
    destruct (HI e He) as [?|?]; [by left|by right; right].
Qed.

(** [C5] A start that resumes the journals erases of a device only merged commits, unless
    the device's own journal held the grant of its last request. *)
Theorem resumption_erases_no_unmerged_work vault device rounds s q t :
  runs (call_step is_ancestor) (others is_ancestor vault device) (resumePending rounds) s q t →
  ∀ e, e ∈ erasures vault device t →
    e ∈ erasures vault device s ∨
    (∃ job, find_job (si_db s) device = Some job ∧ rj_discard_unmerged job = true) ∨
    (alive vault (er_db e) → merged is_ancestor vault (er_db e) (er_commit e)).
Proof.
  intros Hrun e He. destruct (find_job (si_db s) device) as [job|] eqn:Hj; [destruct (rj_discard_unmerged job) eqn:Hd; [by right; left; exists job|]|].
  all: assert (base is_ancestor vault device s s) as Hs
    by (split; [intros x Hx; by left|intros job' Hj'; rewrite Hj in Hj'; try (injection Hj' as <-); done]).
  all: destruct (triple_runs _ _ _ _ _ _ _ _ _ (resumePending_quiet is_ancestor vault device s rounds) Hs Hrun) as [HI _];
    destruct (HI e He) as [?|?]; [by left|by right; right].
Qed.

End safety_theorems.

(** ** A device that is removed *)

#[local] Transparent DEVICE_REFS.

#[export] Instance equal_commits : PreOrder (ancestor jeqb).
Proof. split; [intros a; apply jeqb_refl|]. intros a b c Hab Hbc. unfold ancestor in *. by rewrite !jeqb_eq in *; subst. Qed.

Definition small_world : World := mk_World (λ i, 1700000000000 + Z.of_nat i)%Z (λ i, [N.of_nat i]).

Definition revoked_device : DeviceRow := set_d_revoked_at (Some (lit "2026-01-01")) (set_d_status DRevoked Auth.sample_device).
Definition revoked_db : MetadataDb := set_db_devices [revoked_device] sample_db.
Definition revoked_site (jobs : list DeviceRemovalJob) : site :=
  mk_site (set_db_device_removal_jobs jobs revoked_db) {[ (lit "v1", DEVICE_REFS ++ lit "d1") := lit "r0" ]}
    {[ (lit "v1", lit "d1") := [lit "r0"] ]} ∅ ∅ [].

Definition plain_request : DeviceRemovalRequest := mk_request (lit "bob") (lit "v1") (lit "d1") (Some (lit "DELETE d1")) false.
Definition plain_removal : prog call (result unit) * site := exec jeqb small_world (remove 1 plain_request) (revoked_site []).

Lemma removal_erases_no_unmerged_work_witness :
  plain_removal.1 = Done (Ok ()) ∧ map er_commit (erasures "v1" "d1" plain_removal.2) = [lit "r0"; lit "r0"] ∧
  ∀ e, e ∈ erasures "v1" "d1" plain_removal.2 → alive "v1" (er_db e) → merged jeqb "v1" (er_db e) (er_commit e).
Proof.
  split; [by vm_compute|]. split; [by vm_compute|]. intros e He.
  destruct (@removal_erases_no_unmerged_work jeqb equal_commits 1 plain_request (revoked_site []) plain_removal.1 plain_removal.2
    (removal_exec_runs jeqb small_world _ _ _) e He) as [H|[[H _]|H]]; [by apply not_elem_of_nil in H|discriminate H|exact H].
Defined.

(** The journal of a removal that stopped after the deletion of the reference. *)
Definition stopped_job : DeviceRemovalJob :=
  mk_DeviceRemovalJob (lit "d1") (lit "v1") (lit "bob") (lit "2026-01-02") (lit "2026-01-02") RpRefDeleting 1 (Some (lit "r0")) false RsPending None true.
Definition stopped_site : site := erase_ref (lit "v1") (DEVICE_REFS ++ lit "d1") (lit "r0") (revoked_site [stopped_job]).
Definition resumed : prog call (result unit) * site := exec jeqb small_world (resumePending 1) stopped_site.

Lemma resumption_erases_no_unmerged_work_witness :
  map er_commit (erasures "v1" "d1" resumed.2) = [lit "r0"; lit "r0"] ∧
  ∀ e, e ∈ erasures "v1" "d1" resumed.2 → e ∈ erasures "v1" "d1" stopped_site ∨ (alive "v1" (er_db e) → merged jeqb "v1" (er_db e) (er_commit e)).
Proof.
  split; [by vm_compute|]. intros e He.
  destruct (@resumption_erases_no_unmerged_work jeqb equal_commits (lit "v1") (lit "d1") 1 stopped_site resumed.1 resumed.2
    (removal_exec_runs jeqb small_world _ _ _) e He) as [H|[(job & Hj & Hd)|H]]; [by left| |by right].
  assert (find_job (si_db stopped_site) "d1" = Some stopped_job) as E by reflexivity.
  rewrite E in Hj. injection Hj as <-. discriminate Hd.
Defined.

Lemma stopped_ready : ready "bob" "v1" "d1" stopped_job "r0" stopped_site.
Proof.
  split; [reflexivity|eexists; split; reflexivity|eexists; split; [reflexivity|by vm_compute]|reflexivity|by intros|reflexivity|reflexivity].
Qed.
Lemma stopped_unblocked : unblocked jeqb "v1" "d1" stopped_job "r0" stopped_site.
Proof.
  right. split; [|intros c Hc; by apply list_elem_of_singleton in Hc as ->]. intros oid H.
  assert (ref_of "v1" (own_ref "d1") stopped_site = None) as E by by vm_compute. by rewrite E in H.
Qed.

Lemma resumption_completes_witness :
  db_devices (si_db resumed.2) = [] ∧ map t_token_id (db_tokens (si_db resumed.2)) = [lit "rst"] ∧ forgotten "v1" "d1" resumed.2.
Proof.
  split; [by vm_compute|]. split; [by vm_compute|].
  assert (rj_state stopped_job = RsFailed → rj_retryable stopped_job = true) as Hs by discriminate.
  assert (in_phase RpIntent stopped_job = true → ref_of "v1" (own_ref "d1") stopped_site = None →
    rj_discard_unmerged stopped_job = true ∨ rj_expected_ref_oid stopped_job = None) as Hl by discriminate.
  destruct (@resumption_completes jeqb small_world (lit "bob") (lit "v1") (lit "d1") 0 stopped_job (lit "r0") stopped_site
    eq_refl eq_refl eq_refl eq_refl Hs stopped_ready stopped_unblocked Hl) as (t & E & Hf & _).
  assert (t = resumed.2) as <- by (unfold resumed; by rewrite E). exact Hf.
Defined.
