(* ===== verification/RateLimits.v ===== *)
(** * Rate limits (src/server/connectionService.ts)

    The service remembers when each origin created connections and when each
    connection was polled: a map of times, kept to the window that counts and to a
    number of keys, the keys set first being forgotten first.  The theorem bounds what
    is admitted in any window, forgotten keys included. *)

From S2P Require Export Js.

Local Open Scope Z_scope.

Definition CREATION_WINDOW_MS : Z := 60000.
Definition MAX_CREATIONS_PER_WINDOW : nat := 100.
Definition POLL_WINDOW_MS : Z := 1000.
Definition MAX_POLLS_PER_WINDOW : nat := 10.
Definition MAX_RATE_LIMIT_KEYS : nat := Z.to_nat 10000.

(** A [Map] lists its keys in the order they were first set. *)
Fixpoint pruneOldestMapEntries {A} (entries : jmap A) (maximum : nat) : jmap A :=
  match entries with
  | [] => []
  | _ :: rest => if (maximum <? length entries)%nat then pruneOldestMapEntries rest maximum else entries
  end.

(** The times of a key that count at [now]. *)
Definition recent (window now : Z) (key : jstring) (limits : jmap (list Z)) : list Z :=
  List.filter (λ timestamp, now - timestamp <? window) (default [] (mget limits key)).

(** The body the two limits share: [None] where it throws. *)
Definition enforce (window : Z) (maximum : nat) (now : Z) (key : jstring) (limits : jmap (list Z)) : option (jmap (list Z)) :=
  let recent := recent window now key limits in
  if (maximum <=? length recent)%nat then None
  else Some (pruneOldestMapEntries (mset limits key (recent ++ [now])) MAX_RATE_LIMIT_KEYS).

Definition enforceCreationLimit (now : Z) (origin : jstring) : jmap (list Z) → option (jmap (list Z)) :=
  enforce CREATION_WINDOW_MS MAX_CREATIONS_PER_WINDOW now origin.
Definition enforcePollLimit (now : Z) (key : jstring) : jmap (list Z) → option (jmap (list Z)) :=
  enforce POLL_WINDOW_MS MAX_POLLS_PER_WINDOW now key.

(** A sequence of requests: the map afterwards, and those that were admitted. *)
Section requests.
Context (window : Z) (maximum : nat).

Fixpoint admitted (requests : list (Z * jstring)) (limits : jmap (list Z)) : list (Z * jstring) * jmap (list Z) :=
  match requests with
  | [] => ([], limits)
  | (now, key) :: requests =>
      match enforce window maximum now key limits with
      | None => admitted requests limits
      | Some limits => let '(rest, limits) := admitted requests limits in ((now, key) :: rest, limits)
      end
  end.

Definition times_of (key : jstring) (l : list (Z * jstring)) : list Z :=
  map fst (List.filter (λ request, request.2 =s? key) l).
Definition within (from : Z) (l : list Z) : list Z :=
  List.filter (λ t, (from <=? t) && (t <? from + window)) l.

(** The requests at which [key] is pruned from the map. *)
Fixpoint forgettings (key : jstring) (requests : list (Z * jstring)) (limits : jmap (list Z)) : nat :=
  match requests with
  | [] => 0
  | (now, k) :: requests =>
      match enforce window maximum now k limits with
      | None => forgettings key requests limits
      | Some limits' =>
          (if jmem key (mkeys limits) && negb (jmem key (mkeys limits')) then 1 else 0)
          + forgettings key requests limits'
      end
  end.

End requests.

(** ** Laws *)

Lemma prune_length {A} (m : jmap A) n : (length (pruneOldestMapEntries m n) ≤ n)%nat.
Proof.
  induction m as [|x m IH]; cbn [pruneOldestMapEntries]; [cbn; lia|].
  destruct (Nat.ltb_spec n (length (x :: m))); lia.
Qed.

(** What is pruned is a prefix. *)
Lemma prune_suffix {A} (m : jmap A) n : ∃ l, m = l ++ pruneOldestMapEntries m n.
Proof.
  induction m as [|x m [l IH]]; [by exists []|]. cbn [pruneOldestMapEntries].
  destruct (n <? length (x :: m))%nat; [exists (x :: l); cbn; by rewrite <- IH|by exists []].
Qed.

Lemma prune_NoDup {A} (m : jmap A) n : NoDup (mkeys m) → NoDup (mkeys (pruneOldestMapEntries m n)).
Proof. destruct (prune_suffix m n) as [l E]. rewrite E at 1. unfold mkeys. rewrite map_app. by intros (_ & _ & H)%NoDup_app. Qed.

Lemma mget_suffix {A} (l m : jmap A) k : NoDup (mkeys (l ++ m)) → k ∈ mkeys m → mget (l ++ m) k = mget m k.
Proof.
  unfold mkeys. rewrite map_app. intros (_ & Hd & _)%NoDup_app Hk.
  induction l as [|[j v] l IH]; cbn; [done|]. destruct (jeqb_spec j k) as [->|_]; [by destruct (Hd k ltac:(cbn; by left))|].
  apply IH. intros x Hx. apply Hd. cbn. by right.
Qed.

Lemma mget_prune {A} (m : jmap A) n k : NoDup (mkeys m) → k ∈ mkeys (pruneOldestMapEntries m n) →
  mget (pruneOldestMapEntries m n) k = mget m k.
Proof. destruct (prune_suffix m n) as [l E]. intros Hnd Hk. rewrite E in Hnd |- * at 2. symmetry. by apply mget_suffix. Qed.

(** How many keys were set after [k]: they are pruned after it. *)
Fixpoint behind {A} (k : jstring) (m : jmap A) : nat :=
  match m with [] => 0 | (j, _) :: m => if j =s? k then length m else behind k m end.

Lemma behind_le {A} k (m : jmap A) : (behind k m ≤ length m)%nat.
Proof. induction m as [|[j v] m IH]; cbn; [done|]. destruct (_ =s? _); lia. Qed.

Lemma behind_absent {A} k (m : jmap A) : k ∉ mkeys m → behind k m = 0%nat.
Proof.
  unfold mkeys. induction m as [|[j v] m IH]; cbn; [done|]. intros [Hne Hk]%not_elem_of_cons.
  rewrite (proj2 (jeqb_neq j k)) by congruence. by apply IH.
Qed.

Lemma behind_mset {A} k j (v : A) m : j ≠ k → (behind k (mset m j v) ≤ S (behind k m))%nat.
Proof.
  intros Hne. induction m as [|[i w] m IH]; cbn; [rewrite (proj2 (jeqb_neq j k)) by done; lia|].
  destruct (jeqb_spec i j) as [->|Hi]; cbn.
  - rewrite (proj2 (jeqb_neq j k)) by done. lia.
  - destruct (jeqb_spec i k) as [->|_]; [apply mset_length|exact IH].
Qed.

Lemma behind_set {A} k (v : A) m : (behind k (mset m k v) ≤ behind k m)%nat.
Proof.
  induction m as [|[i w] m IH]; cbn; [by rewrite jeqb_refl|]. destruct (jeqb_spec i k) as [->|Hne]; cbn.
  - by rewrite jeqb_refl.
  - by rewrite (proj2 (jeqb_neq i k)).
Qed.

Lemma behind_prune {A} k (m : jmap A) n : NoDup (mkeys m) → k ∈ mkeys (pruneOldestMapEntries m n) →
  behind k (pruneOldestMapEntries m n) = behind k m.
Proof.
  induction m as [|[j v] m IH]; cbn [pruneOldestMapEntries]; [done|]. intros Hnd Hk.
  destruct (n <? length ((j, v) :: m))%nat eqn:E; [|done]. cbn [mkeys map fst] in Hnd. apply NoDup_cons in Hnd as [Hj Hnd].
  rewrite (IH Hnd Hk). cbn. rewrite (proj2 (jeqb_neq j k)); [done|]. intros ->. apply Hj.
  destruct (prune_suffix m n) as [l El]. unfold mkeys in *. rewrite El, map_app, elem_of_app. by right.
Qed.

(** A key is pruned when as many others as the map may hold were set after it. *)
Lemma pruned_behind {A} k (m : jmap A) n : k ∈ mkeys m → k ∉ mkeys (pruneOldestMapEntries m n) → (n ≤ behind k m)%nat.
Proof.
  induction m as [|[j v] m IH]; cbn [pruneOldestMapEntries behind]; [by intros ?%not_elem_of_nil|]. intros Hk Hn.
  destruct (Nat.ltb_spec n (length ((j, v) :: m))) as [Hl|]; [|done]. cbn in Hl.
  destruct (jeqb_spec j k) as [->|Hne]; [lia|]. apply IH; [|done]. by apply elem_of_cons in Hk as [?|?].
Qed.

(** The key set last is kept. *)
Lemma prune_keeps_set {A} (m : jmap A) k v n : (1 ≤ n)%nat → (length m ≤ n)%nat → k ∈ mkeys (pruneOldestMapEntries (mset m k v) n).
Proof.
  intros Hn Hl. destruct (decide (k ∈ mkeys (pruneOldestMapEntries (mset m k v) n))) as [|Hk]; [done|exfalso].
  pose proof (pruned_behind k (mset m k v) n ltac:(apply mkeys_mset; by left) Hk) as Hb. pose proof (behind_set k v m) as Hs.
  destruct (decide (k ∈ mkeys m)) as [Hin|Hin]; [|rewrite (behind_absent k m Hin) in Hs; lia].
  assert (behind k m < length m)%nat; [|lia]. clear -Hin. unfold mkeys in Hin.
  induction m as [|[j w] m IH]; cbn in *; [by apply not_elem_of_nil in Hin|].
  destruct (jeqb_spec j k) as [->|Hne]; [lia|]. apply elem_of_cons in Hin as [->|Hin]; [done|]. specialize (IH Hin). lia.
Qed.

Lemma filter_le {A} (p q : A → bool) l : (∀ x, x ∈ l → p x = true → q x = true) →
  (length (List.filter p l) ≤ length (List.filter q l))%nat.
Proof.
  induction l as [|x l IH]; intros H; cbn; [done|].
  assert (length (List.filter p l) ≤ length (List.filter q l))%nat as Hl by (apply IH; intros y Hy; apply H; by right).
  destruct (p x) eqn:E; [rewrite (H x ltac:(by left) E)|destruct (q x)]; cbn; lia.
Qed.

Lemma filter_both {A} (p q : A → bool) l : (∀ x, x ∈ l → p x = true → q x = true) →
  List.filter p (List.filter q l) = List.filter p l.
Proof.
  induction l as [|x l IH]; intros H; cbn; [done|].
  assert (List.filter p (List.filter q l) = List.filter p l) as Hl by (apply IH; intros y Hy; apply H; by right).
  destruct (q x) eqn:E; cbn; [by rewrite Hl|]. destruct (p x) eqn:Ep; [|done].
  by rewrite (H x ltac:(by left) Ep) in E.
Qed.

Lemma sublist_filter_mono {A} (p : A → bool) l k : l `sublist_of` k → List.filter p l `sublist_of` List.filter p k.
Proof. induction 1 as [|x l k _ IH|x l k _ IH]; cbn; [done| |]; destruct (p x); first [by constructor|done]. Qed.

(** ** The map between requests *)

Definition limits_ok (limits : jmap (list Z)) : Prop := NoDup (mkeys limits) ∧ (length limits ≤ MAX_RATE_LIMIT_KEYS)%nat.

Lemma some_keys : (1 ≤ MAX_RATE_LIMIT_KEYS)%nat.
Proof. unfold MAX_RATE_LIMIT_KEYS. lia. Qed.

Section runs.
Context (window : Z) (maximum : nat).

Local Abbreviation enforce := (enforce window maximum).
Local Abbreviation admitted := (admitted window maximum).

(** What an admission does to the map. *)
Lemma enforce_Some now k limits limits' : enforce now k limits = Some limits' →
  (length (recent window now k limits) < maximum)%nat ∧
  limits' = pruneOldestMapEntries (mset limits k (recent window now k limits ++ [now])) MAX_RATE_LIMIT_KEYS.
Proof. unfold RateLimits.enforce. destruct (Nat.leb_spec maximum (length (recent window now k limits))); [done|]. by intros [= <-]. Qed.

Lemma enforce_ok now k limits limits' : limits_ok limits → enforce now k limits = Some limits' → limits_ok limits'.
Proof.
  intros [Hnd Hl] [_ ->]%enforce_Some. split; [by apply prune_NoDup, NoDup_mset|apply prune_length].
Qed.

Lemma enforce_set now k limits limits' : limits_ok limits → enforce now k limits = Some limits' →
  mget limits' k = Some (recent window now k limits ++ [now]).
Proof.
  intros [Hnd Hl] [_ ->]%enforce_Some.
  rewrite mget_prune; [by rewrite mget_mset, jeqb_refl|by apply NoDup_mset|by apply prune_keeps_set; [apply some_keys|]].
Qed.

Lemma enforce_other now k key limits limits' : limits_ok limits → enforce now k limits = Some limits' → k ≠ key → key ∈ mkeys limits' →
  mget limits' key = mget limits key.
Proof.
  intros [Hnd Hl] [_ ->]%enforce_Some Hne Hk.
  rewrite mget_prune; [|by apply NoDup_mset|done]. rewrite mget_mset. by rewrite (proj2 (jeqb_neq k key)).
Qed.

Lemma admitted_ok requests : ∀ limits, limits_ok limits → limits_ok (admitted requests limits).2.
Proof.
  induction requests as [|[t k] requests IH]; intros limits H; cbn [RateLimits.admitted]; [done|].
  destruct (enforce t k limits) as [limits'|] eqn:E; [|by apply IH].
  pose proof (IH limits' (enforce_ok _ _ _ _ H E)) as H'. by destruct (admitted requests limits').
Qed.

(** ** The bound *)

Context (key : jstring).

(** [times] are the admissions of [key] since it was last forgotten: its entry has those
    that count. *)
Record accounts (now : Z) (limits : jmap (list Z)) (times : list Z) : Prop := {
  ac_past : ∀ t, t ∈ times → t <= now;
  ac_entry : ∀ later, now <= later →
    (length (List.filter (λ t, later - t <? window)%Z times) ≤ length (recent window later key limits))%nat;
  ac_bound : ∀ from, (length (within window from times) ≤ maximum)%nat
}.

Lemma accounts_later now later limits times : now <= later → accounts now limits times → accounts later limits times.
Proof. intros H [p e b]. split; [|intros; apply e; lia|done]. intros t Ht. specialize (p t Ht). lia. Qed.

Lemma accounts_fresh now limits : accounts now limits [].
Proof. split; [by intros ? ?%not_elem_of_nil|intros; cbn; lia|intros; cbn; lia]. Qed.

Lemma within_app from l l' : within window from (l ++ l') = within window from l ++ within window from l'.
Proof. apply List.filter_app. Qed.

Lemma accounts_set now limits limits' times : limits_ok limits → accounts now limits times →
  enforce now key limits = Some limits' → accounts now limits' (times ++ [now]).
Proof.
  intros Hok [Hp He Hb] E. pose proof (enforce_set _ _ _ _ Hok E) as Hset. apply enforce_Some in E as [Hlt _]. split.
  - intros t [Ht| ->%list_elem_of_singleton]%elem_of_app; [by apply Hp|lia].
  - intros later Hl. unfold recent at 1. rewrite Hset. cbn [default]. unfold default, from_option, id. rewrite !List.filter_app, !length_app.
    apply Nat.add_le_mono_r. etrans; [by apply He|]. unfold recent.
    rewrite (filter_both (λ t, later - t <? window) (λ t, now - t <? window)); [done|].
    intros t _ Ht. apply Z.ltb_lt in Ht. apply Z.ltb_lt. lia.
  - intros from. rewrite within_app, length_app. cbn.
    destruct ((from <=? now) && (now <? from + window)) eqn:Ew; [|cbn; specialize (Hb from); lia].
    apply andb_true_iff in Ew as [E1%Z.leb_le E2%Z.ltb_lt].
    assert (length (within window from times) ≤ length (recent window now key limits))%nat; [|cbn; lia].
    etrans; [|by apply He; lia]. apply filter_le. intros t _ [Ht%Z.leb_le _]%andb_true_iff. apply Z.ltb_lt. lia.
Qed.

Lemma accounts_other now k limits limits' times : limits_ok limits → accounts now limits times →
  enforce now k limits = Some limits' → k ≠ key → (key ∈ mkeys limits → key ∈ mkeys limits') → accounts now limits' times.
Proof.
  intros Hok [Hp He Hb] E Hne Hkeep. split; [done| |done]. intros later Hl. etrans; [by apply He|]. unfold recent.
  destruct (mget limits key) as [e|] eqn:Ee; [|cbn; lia].
  rewrite (enforce_other _ _ _ _ _ Hok E Hne), Ee; [done|]. apply Hkeep, mget_keys. by exists e.
Qed.

(** Each time the key is forgotten, it has [maximum] admissions anew. *)
Lemma admitted_bound requests : ∀ now limits times, limits_ok limits → StronglySorted Z.le (now :: map fst requests) →
  accounts now limits times →
  ∀ from, (length (within window from (times ++ times_of key (admitted requests limits).1))
           ≤ maximum * S (forgettings window maximum key requests limits))%nat.
Proof.
  induction requests as [|[t k] requests IH]; intros now limits times Hok Hs Ha from.
  - cbn. rewrite app_nil_r. pose proof (ac_bound _ _ _ Ha from). lia.
  - apply StronglySorted_inv in Hs as [Hs Hf]. cbn [map fst] in Hs, Hf.
    assert (now <= t) as Hle by by inversion Hf.
    apply (accounts_later now t) in Ha; [|done]. cbn [RateLimits.admitted forgettings].
    destruct (enforce t k limits) as [limits'|] eqn:E; [|by apply (IH t)].
    pose proof (enforce_ok _ _ _ _ Hok E) as Hok'. specialize (IH t limits').
    destruct (jmem key (mkeys limits) && negb (jmem key (mkeys limits'))) eqn:El.
    + apply andb_true_iff in El as [_ El%negb_true_iff].
      assert (k ≠ key) as Hne.
      { intros ->. apply not_true_iff_false in El. apply El, jmem_elem, mget_keys. rewrite (enforce_set _ _ _ _ Hok E). by eexists. }
      pose proof (IH [] Hok' Hs (accounts_fresh t limits') from) as Hb. pose proof (ac_bound _ _ _ Ha from) as Ht.
      destruct (admitted requests limits') as [rest last]. cbn [fst snd app] in *. unfold times_of in *. cbn [List.filter snd].
      rewrite (proj2 (jeqb_neq k key)) by done. rewrite within_app, length_app. lia.
    + rewrite Nat.add_0_l.
      assert (accounts t limits' (times ++ (if k =s? key then [t] else []))) as Ha'.
      { destruct (jeqb_spec k key) as [->|Hne]; [eapply accounts_set; [exact Hok|exact Ha|exact E]|]. rewrite app_nil_r.
        eapply accounts_other; [exact Hok|exact Ha|exact E|exact Hne|]. intros Hin%jmem_elem. rewrite Hin in El. cbn in El.
        by apply negb_false_iff, jmem_elem in El. }
      specialize (IH _ Hok' Hs Ha' from). destruct (admitted requests limits') as [rest last]. cbn [fst] in *.
      unfold times_of in *. cbn [List.filter snd]. rewrite <- app_assoc in IH. by destruct (k =s? key).
Qed.

(** To be forgotten, a key is outlasted by as many admissions of others as the map has keys. *)
Lemma forgettings_paid requests : ∀ limits, limits_ok limits →
  (forgettings window maximum key requests limits * MAX_RATE_LIMIT_KEYS
   ≤ behind key limits + length (List.filter (λ request, negb (request.2 =s? key)) (admitted requests limits).1))%nat.
Proof.
  induction requests as [|[t k] requests IH]; intros limits Hok; cbn [forgettings RateLimits.admitted]; [lia|].
  destruct (enforce t k limits) as [limits'|] eqn:E; [|by apply IH].
  specialize (IH limits' (enforce_ok _ _ _ _ Hok E)). pose proof (enforce_set _ _ _ _ Hok E) as Hset. apply enforce_Some in E as [_ E].
  set (entry := recent window t k limits ++ [t]) in *. pose proof (NoDup_mset limits k entry (proj1 Hok)) as Hnd.
  assert (k ≠ key → behind key (mset limits k entry) ≤ S (behind key limits))%nat as Hother by apply behind_mset.
  assert (k = key → behind key (mset limits k entry) ≤ behind key limits)%nat as Hself by (intros ->; apply behind_set).
  destruct (admitted requests limits') as [rest last]. cbn [fst snd List.filter] in *.
  destruct (decide (key ∈ mkeys limits')) as [Hin|Hout].
  - rewrite (proj2 (jmem_elem _ _) Hin), andb_false_r. 
    assert (behind key limits' = behind key (mset limits k entry)) as Hb
      by (rewrite E in Hin |- *; by apply behind_prune).
    destruct (jeqb_spec k key) as [->|Hne]; cbn [negb length]; [specialize (Hself eq_refl)|specialize (Hother Hne)]; lia.
  - rewrite (behind_absent _ _ Hout) in IH.
    assert (k ≠ key) as Hne by (intros ->; apply Hout, mget_keys; rewrite Hset; by eexists).
    rewrite (proj2 (jeqb_neq k key) Hne). cbn [negb length]. specialize (Hother Hne).
    destruct (jmem key (mkeys limits)) eqn:Em; cbn [andb]; [|lia].
    assert (jmem key (mkeys limits') = false) as -> by (apply not_true_iff_false; by rewrite jmem_elem). cbn [negb].
    assert (MAX_RATE_LIMIT_KEYS ≤ behind key (mset limits k entry))%nat; [|lia].
    apply pruned_behind; [apply mkeys_mset; right; by apply jmem_elem|by rewrite <- E].
Qed.

(** ** Refusals *)

(** The entries are admitted requests. *)
Lemma admitted_entries requests : ∀ limits (times : list Z), limits_ok limits →
  default [] (mget limits key) `sublist_of` times →
  default [] (mget (admitted requests limits).2 key) `sublist_of` times ++ times_of key (admitted requests limits).1.
Proof.
  induction requests as [|[t k] requests IH]; intros limits times Hok Hs; cbn [RateLimits.admitted]; [by rewrite app_nil_r|].
  destruct (enforce t k limits) as [limits'|] eqn:E; [|by apply IH].
  assert (default [] (mget limits' key) `sublist_of` times ++ (if k =s? key then [t] else [])) as Hs'.
  { destruct (jeqb_spec k key) as [->|Hne].
    - rewrite (enforce_set _ _ _ _ Hok E). cbn. apply sublist_app; [|done]. etrans; [|exact Hs]. apply filter_sublist.
    - rewrite app_nil_r. destruct (decide (key ∈ mkeys limits')) as [Hin|Hout]; [by rewrite (enforce_other _ _ _ _ _ Hok E Hne Hin)|].
      rewrite <- mget_keys, <- eq_None_not_Some in Hout. rewrite Hout. apply sublist_nil_l. }
  specialize (IH limits' _ (enforce_ok _ _ _ _ Hok E) Hs'). destruct (admitted requests limits') as [rest last]. cbn [fst snd] in *.
  unfold times_of in *. cbn [List.filter snd]. rewrite <- app_assoc in IH. by destruct (k =s? key).
Qed.

End runs.

(** [C11] Rate limiting, for any history of requests of any origins.  After it, as long as
    the clock does not go back: in a window of the configured length, wherever it
    starts, at most [maximum] requests of an origin are admitted, and [maximum] more for each
    time its entry is pruned meanwhile; the entry is pruned at most once, and once more
    for every [MAX_RATE_LIMIT_KEYS] admitted requests of other origins; a request is refused only
    when [maximum] requests of its origin were admitted within the window before it; and the
    map never holds more than [MAX_RATE_LIMIT_KEYS] origins. *)
Theorem admissions_bounded window maximum history requests key from :
  StronglySorted Z.le (map fst requests) →
  let limits := (admitted window maximum history []).2 in
  let later := admitted window maximum requests limits in
  let forgotten := forgettings window maximum key requests limits in
  (length (within window from (times_of key later.1)) ≤ maximum * S forgotten)%nat ∧
  (forgotten * MAX_RATE_LIMIT_KEYS ≤ MAX_RATE_LIMIT_KEYS + length (List.filter (λ request, negb (request.2 =s? key)) later.1))%nat ∧
  (∀ now, enforce window maximum now key limits = None →
    (maximum ≤ length (List.filter (λ t, now - t <? window)%Z (times_of key (admitted window maximum history []).1)))%nat) ∧
  (length later.2 ≤ MAX_RATE_LIMIT_KEYS)%nat.
Proof.
  intros Hs limits later forgotten.
  assert (limits_ok limits) as Hok by (apply admitted_ok; split; [apply NoDup_nil_2|cbn; lia]). split_and!.
  - unfold later, forgotten. destruct requests as [|[t k] requests]; [cbn; lia|].
    apply (admitted_bound window maximum key ((t, k) :: requests) t limits []); [done| |apply accounts_fresh].
    constructor; [done|]. apply StronglySorted_inv in Hs as [_ Hf]. constructor; [cbn; lia|done].
  - pose proof (forgettings_paid window maximum key requests limits Hok) as Hf. pose proof (behind_le key limits) as Hb.
    destruct Hok as [_ Hl]. fold later forgotten in Hf. lia.
  - intros now. unfold enforce. destruct (Nat.leb_spec maximum (length (recent window now key limits))) as [Hle|]; [intros _|done].
    etrans; [exact Hle|]. apply sublist_length, sublist_filter_mono.
    apply (admitted_entries window maximum key history [] []); [split; [apply NoDup_nil_2|cbn; lia]|apply sublist_nil_l].
  - by apply admitted_ok.
Qed.

Definition polls (n : nat) : list (Z * jstring) := repeat (5%Z, lit "10.0.0.1:con_1") n.

Lemma admissions_bounded_witness :
  let limits := (admitted POLL_WINDOW_MS MAX_POLLS_PER_WINDOW (polls 4) []).2 in
  let later := admitted POLL_WINDOW_MS MAX_POLLS_PER_WINDOW (polls 12) limits in
  length later.1 = 6%nat ∧ (length (within POLL_WINDOW_MS 0 (times_of (lit "10.0.0.1:con_1") later.1)) ≤ MAX_POLLS_PER_WINDOW)%nat.
Proof.
  intros limits later. split; [vm_compute; reflexivity|].
  destruct (admissions_bounded POLL_WINDOW_MS MAX_POLLS_PER_WINDOW (polls 4) (polls 12) (lit "10.0.0.1:con_1") 0) as (H & _).
  - cbn [polls repeat map fst]. repeat constructor; lia.
  - etrans; [exact H|]. vm_compute. lia.
Defined.
