(* ===== verification/Connections.v ===== *)
(** * Connections of new devices (src/server/connectionService.ts)

    A device joins by a connection: the plugin registers one and holds its secret, the
    owner approves it in the dashboard for a vault, and the plugin completes it, which
    creates the device and its token.  The methods are programs ([Programs]) over the
    store, the rate limits in memory, the clock, the admissions of a vault and git. *)

From S2P Require Export Programs Operations RateLimits.
From S2P Require DeletionRequests.

Local Open Scope Z_scope.

(** ** Calls *)

Record RateLimits := mk_RateLimits { creationLimits : jmap (list Z); pollLimits : jmap (list Z) }.

(** What a method hands to [store.mutate]: a function of the document that may also
    use the service's own limits. *)
Definition job (A : Type) : Type := World → RateLimits → MetadataDb → result (A * MetadataDb) * RateLimits.
Definition plain {A} (fn : transaction A) : job A := λ w limits db, (fn w db, limits).

(** [Ambient] is the clock and the random source between two awaits. *)
Inductive call : Type → Type :=
| Ambient : call World
| Snapshot : call MetadataDb
| Mutate {A} (fn : job A) : call A
| LimitCreation (origin : jstring) : call unit
| AcquireAdmission (vault : jstring) : call unit
| ReleaseAdmission (vault : jstring) : call unit
| ReserveVaultCreation (vault : jstring) : call unit
| ReleaseVaultCreation (vault : jstring) : call unit
| InitializeVault (vault : jstring) : call jstring
| CommitExists (vault commit : jstring) : call bool
| IsAncestor (vault ancestor descendant : jstring) : call bool
| RootIgnoreOid (vault commit : jstring) : call (option jstring)
| ListTreePaths (vault commit : jstring) : call (list jstring)
| ExportPack (vault commit : jstring) : call (list N).

Notation "'service'" := (io call).

Definition ambient : service World := perform Ambient.
Definition snapshot : service MetadataDb := perform Snapshot.
Definition mutate {A} (fn : job A) : service A := perform (Mutate fn).

(** ** Constants and errors *)

Definition PENDING_CONNECTION_TTL_MS : Z := 10 * 60 * 1000.
Definition APPROVED_CONNECTION_TTL_MS : Z := 60 * 60 * 1000.
Definition POLL_INTERVAL_MS : Z := 2000.

Definition refused (status : Z) (code message : string) : js_error := AuthError status (lit code) (lit message) [].
Definition connection_inconsistent (message : string) : js_error := refused 409 "connection_inconsistent" message.
Definition incomplete_state : js_error := connection_inconsistent "Connection state is incomplete.".
Definition invalid_connection : js_error :=
  refused 401 "invalid_connection" "Connection authorization is invalid or expired.".
Definition connection_not_pending : js_error :=
  refused 409 "connection_not_pending" "Connection is no longer awaiting approval.".
Definition connection_changed (doing : string) : js_error := refused 409 "connection_changed" doing.
Definition being_deleted : js_error := refused 409 "vault_deleting" "Vault deletion is in progress.".
Definition failed_integrity : js_error := refused 409 "blocked_integrity" "Vault persistent state failed integrity checks.".
Definition invalid_proposal (message : string) : js_error := refused 400 "invalid_proposal_base" message.
Definition capability_required : js_error :=
  refused 409 "root_ignore_capability_required" "Update to a capable device before joining this vault.".
Definition creation_limited : js_error :=
  refused 429 "connection_rate_limited" "Too many connection requests. Try again later.".
Definition poll_limited : js_error :=
  refused 429 "connection_rate_limited" "Connection status is being polled too quickly.".

Definition connectionStatusError (c : ConnectionRequestRow) : js_error :=
  match c_status c with
  | CExpired => refused 409 "connection_expired" "Connection approval has expired."
  | CDenied => refused 409 "connection_denied" "Connection was denied."
  | _ => refused 409 "connection_not_approved" "Connection has not been approved."
  end.

(** The error of a vault that is not active. *)
Definition not_active (vault : VaultRow) : js_error :=
  refused 409 (if bool_decide (v_status vault = VDeleting) then "vault_deleting" else "blocked_integrity")
    "Vault persistent state failed integrity checks.".

Definition requireValue {A} (value : option A) : result A :=
  match value with Some a => Ok a | None => Throw incomplete_state end.

(** ** Secrets *)

(** HMAC-SHA256 of the platform: key, message, digest. *)
Class Hmac := { hmac_sha256 : jstring → jstring → list N }.

Section secrets.
Context `{C : Crypto}.

Definition deriveDeviceToken (secret salt : jstring) : jstring :=
  lit "obts_dev_" ++ hmac_base64url salt (lit "obts-device-token-v1" ++ [0%N] ++ secret).

Context `{H : Hmac}.

Definition ALPHABET : jstring := lit "ABCDEFGHJKLMNPQRSTUVWXYZ23456789".
Definition verification_letter (bytes : list N) (index : nat) : N :=
  nth (N.to_nat (nth index bytes 0 mod N.of_nat (length ALPHABET))%N) ALPHABET 0%N.
Definition verificationCodeFromId (connectionId : jstring) : jstring :=
  let value := map (verification_letter (hmac_sha256 (lit "obts-verification-code") connectionId)) (seq 0 8) in
  take 4 value ++ lit "-" ++ drop 4 value.

(** [base.replace(/\/+$/u, '')]. *)
Fixpoint drop_slashes (s : jstring) : jstring :=
  match s with c :: s' => if (c =? 47)%N then drop_slashes s' else s | [] => [] end.
Definition without_trailing_slashes (s : jstring) : jstring := rev (drop_slashes (rev s)).

End secrets.

(** ** Rows *)

Section rows.
Context `{D : Dates}.

Definition has_connection_id (id : jstring) (c : ConnectionRequestRow) : bool := c_connection_id c =s? id.

(** [expireConnections]: the clock is read anew for every row. *)
Definition awaiting (c : ConnectionRequestRow) : bool :=
  bool_decide (c_status c = CPending) || bool_decide (c_status c = CApproved).
Definition expire_at (now : Z) (c : ConnectionRequestRow) : ConnectionRequestRow :=
  if awaiting c && parsed_le (c_expires_at c) now then set_c_status CExpired c else c.
Fixpoint expire_rows (w : World) (i : nat) (connections : list ConnectionRequestRow) : list ConnectionRequestRow :=
  match connections with
  | [] => []
  | c :: connections => expire_at (w_now w i) c :: expire_rows w (S i) connections
  end.
Definition expireConnections (w : World) (connections : list ConnectionRequestRow) : list ConnectionRequestRow :=
  expire_rows w 2000 connections.

Context `{C : Crypto}.

(** [authenticatedConnection] assigns [status] through the row it found: the row with
    that assignment, and the rows with it in place. *)
Definition authenticates (id secret : jstring) (c : ConnectionRequestRow) : bool :=
  (c_connection_id c =s? id) && (c_secret_lookup_prefix c =s? (hashToken secret).1) && (c_secret_hash c =s? (hashToken secret).2).
Definition lapse (now : Z) (c : ConnectionRequestRow) : ConnectionRequestRow :=
  if negb (bool_decide (c_status c = CConsumed)) && parsed_le (c_expires_at c) now then set_c_status CExpired c else c.
Definition authenticatedConnection (now : Z) (id secret : jstring) (connections : list ConnectionRequestRow) :
    result (ConnectionRequestRow * list ConnectionRequestRow) :=
  match find_row (authenticates id secret) connections with
  | None => Throw invalid_connection
  | Some c => Ok (lapse now c, update_first (authenticates id secret) (lapse now) connections)
  end.

(** On a snapshot the rows are a copy. *)
Definition authenticated (now : Z) (id secret : jstring) (db : MetadataDb) : result ConnectionRequestRow :=
  fst <$> authenticatedConnection now id secret (db_connections db).

Definition created_device (db : MetadataDb) (c : ConnectionRequestRow) : option DeviceRow :=
  match c_created_device_id c with
  | Some (u :: id) => find_row (has_device_id (u :: id)) (db_devices db)
  | _ => None
  end.

Definition connectionTargetVaultId (db : MetadataDb) (c : ConnectionRequestRow) : option jstring :=
  if otruthy (c_selected_vault_id c) then c_selected_vault_id c else d_vault_id <$> created_device db c.

Definition selectedVaultName (vaults : list VaultRow) (c : ConnectionRequestRow) : result jstring :=
  match find_row (λ candidate, oeqb (Some (v_vault_id candidate)) (c_selected_vault_id c)) vaults with
  | Some vault => Ok (v_display_name vault)
  | None => Throw (connection_inconsistent "Selected vault is unavailable.")
  end.

End rows.

(** ** Brackets *)

Definition withAdmission {A} (vault : jstring) (fn : service A) : service A :=
  _ ← perform (AcquireAdmission vault);
  try_finally fn (perform (ReleaseAdmission vault)).
Definition withOwnerVault {A} (user vault : jstring) (fn : service A) : service A :=
  withAdmission vault (db ← snapshot; _ ← lift (DeletionRequests.withOwnerVault user vault db); fn).

(** The check after a bracket: the connection still targets the vault, which is not
    being deleted. *)
Definition still_targets (connectionId vaultId : jstring) (after : MetadataDb) : result unit :=
  match find_row (has_connection_id connectionId) (db_connections after) with
  | None => Throw being_deleted
  | Some c => if negb (oeqb (connectionTargetVaultId after c) (Some vaultId)) || hasDurableDeletionRecord after vaultId
              then Throw being_deleted else Ok ()
  end.

(** ** Registration, review and approval *)

Record CreateConnectionRequest := mk_CreateConnectionRequest {
  cr_plugin_version : jstring; cr_device_name : jstring; cr_local_vault_name : jstring; cr_local_summary : ConnectionSummary }.
Record CreateConnectionResponse := mk_CreateConnectionResponse {
  ca_connection_id : jstring; ca_connection_secret : jstring; ca_authorization_url : jstring;
  ca_verification_code : jstring; ca_credential_salt : jstring; ca_expires_at : jstring; ca_poll_interval_ms : Z }.

Section methods.
Context `{D : Dates} `{C : Crypto} `{H : Hmac}.

(** What is drawn before the transaction of [create]. *)
Definition fresh_secret (w : World) : jstring := new_secret w 0 "obts_conn".
Definition fresh_connection_id (w : World) : jstring := new_id w 1 "con".
Definition fresh_salt (w : World) : jstring := base64url (w_random w 2).

Definition register_tx (w0 : World) (input : CreateConnectionRequest) : transaction unit := λ w db,
  let secretHash := hashToken (fresh_secret w0) in
  let connectionId := fresh_connection_id w0 in
  let row := mk_ConnectionRequestRow connectionId secretHash.1 secretHash.2 (fresh_salt w0)
    (verificationCodeFromId connectionId) CPending (cr_plugin_version input) (cr_device_name input)
    (cr_local_vault_name input) (cr_local_summary input) None None None None None None (nowIso w 0) None None
    (to_iso (w_now w0 3 + PENDING_CONNECTION_TTL_MS)) in
  Ok ((), set_db_connections (expireConnections w (db_connections db) ++ [row]) db).

Definition create (publicBaseUrl : jstring) (input : CreateConnectionRequest) (origin : jstring) : service CreateConnectionResponse :=
  _ ← perform (LimitCreation origin);
  w ← ambient;
  _ ← mutate (plain (register_tx w input));
  let connectionId := fresh_connection_id w in
  mret (mk_CreateConnectionResponse connectionId (fresh_secret w)
    (without_trailing_slashes publicBaseUrl ++ lit "/connect/" ++ connectionId) (verificationCodeFromId connectionId)
    (fresh_salt w) (to_iso (w_now w 3 + PENDING_CONNECTION_TTL_MS)) POLL_INTERVAL_MS).

Definition review_tx (connectionId : jstring) : transaction ConnectionRequestRow := λ w db,
  let db := set_db_connections (expireConnections w (db_connections db)) db in
  match find_row (has_connection_id connectionId) (db_connections db) with
  | None => Throw (refused 404 "not_found" "Resource not found.")
  | Some c => if bool_decide (c_status c = CExpired) then Throw (refused 404 "not_found" "Resource not found.") else Ok (c, db)
  end.
Definition review (connectionId : jstring) : service ConnectionRequestRow := mutate (plain (review_tx connectionId)).

Record Approval := mk_Approval {
  ap_connectionId : jstring; ap_user : UserRow; ap_selection : ConnectionSelection;
  ap_vaultId : option jstring; ap_displayName : option jstring }.

(** The target assigned to the row. *)
Definition approval_target (input : Approval) (db : MetadataDb) (c : ConnectionRequestRow) : result ConnectionRequestRow :=
  match ap_selection input with
  | SelExistingVault =>
      vault ← ownedVaultOrThrow db (u_user_id (ap_user input)) (default [] (ap_vaultId input));
      if negb (bool_decide (v_status vault = VActive)) then Throw failed_integrity else
      Ok (set_c_new_vault_display_name None
           (set_c_expected_main (Some (v_current_main vault))
             (set_c_selected_vault_id (Some (v_vault_id vault)) c)))
  | SelNewVault =>
      match trim <$> ap_displayName input with
      | None | Some [] => Throw (refused 400 "invalid_display_name" "Vault name is required.")
      | Some displayName =>
          Ok (set_c_new_vault_display_name (Some displayName) (set_c_expected_main None (set_c_selected_vault_id None c)))
      end
  end.

(** [new Date(Date.parse(text) + ms).toISOString()]. *)
Definition later_iso (text : jstring) (ms : Z) : result jstring :=
  match date_parse text with
  | Some t => Ok (to_iso (t + ms))
  | None => Throw (mk_error EPlain "" "Invalid time value" [])
  end.

Definition approve_tx (input : Approval) : transaction unit := λ w db,
  let db := set_db_connections (expireConnections w (db_connections db)) db in
  match find_row (has_connection_id (ap_connectionId input)) (db_connections db) with
  | None => Throw connection_not_pending
  | Some c =>
    if negb (bool_decide (c_status c = CPending)) then Throw connection_not_pending else
    c ← approval_target input db c;
    let approvedAt := nowIso w 0 in
    expiresAt ← later_iso approvedAt APPROVED_CONNECTION_TTL_MS;
    let c := set_c_expires_at expiresAt
      (set_c_approved_at (Some approvedAt)
        (set_c_selection (Some (ap_selection input))
          (set_c_approved_user_id (Some (u_user_id (ap_user input))) (set_c_status CApproved c)))) in
    let db := set_db_connections (update_first (has_connection_id (ap_connectionId input)) (λ _, c) (db_connections db)) db in
    Ok ((), push_audit w 1 (Some (u_user_id (ap_user input))) None (c_selected_vault_id c) (lit "connection_approved")
              (lit "connection") (Some (c_connection_id c)) (nowIso w 2) db)
  end.

Definition deny_tx (connectionId : jstring) (user : UserRow) : transaction unit := λ w db,
  match find_row (has_connection_id connectionId) (db_connections db) with
  | None => Throw connection_not_pending
  | Some c =>
    if negb (bool_decide (c_status c = CPending)) then Throw connection_not_pending else
    let db := set_db_connections (update_first (has_connection_id connectionId)
      (λ c, set_c_approved_user_id (Some (u_user_id user)) (set_c_status CDenied c)) (db_connections db)) db in
    Ok ((), push_audit w 0 (Some (u_user_id user)) None None (lit "connection_denied") (lit "connection")
              (Some (c_connection_id c)) (nowIso w 1) db)
  end.
Definition deny (connectionId : jstring) (user : UserRow) : service unit := mutate (plain (deny_tx connectionId user)).

(** ** Status *)

Inductive ConnectionStatusResponse :=
| StPending (expires_at : jstring)
| StDenied
| StExpired
| StConsumed (selection : ConnectionSelection) (expected_main : option jstring) (mode : OnboardingMode)
    (vault_id vault_name device_id : jstring)
| StApproved (selection : ConnectionSelection) (vault_id : option jstring) (vault_name : jstring)
    (expected_main : option jstring) (expires_at : jstring).

(** The token the connection's secret derives, live and the device's own. *)
Definition is_device_token (device : DeviceRow) (vault : VaultRow) (hash : jstring) (t : TokenRow) : bool :=
  bool_decide (t_kind t = TokDevice) && oeqb (t_device_id t) (Some (d_device_id device)) &&
  oeqb (t_vault_id t) (Some (v_vault_id vault)) && (t_user_id t =s? d_user_id device) &&
  is_null_or (t_revoked_at t) && is_null_or (t_consumed_at t) && (t_token_hash t =s? hash).

(** The rows a consumed connection must have left behind. *)
Definition onboarded (c : ConnectionRequestRow) (token : jstring) (db : MetadataDb) (device : DeviceRow) (vault : VaultRow) : bool :=
  existsb (is_device_token device vault (hashToken token).2) (db_tokens db) &&
  (match find_row (has_user_id (d_user_id device)) (db_users db) with Some owner => negb (u_disabled owner) | None => false end) &&
  negb (bool_decide (d_status device = DRevoked)) && is_null_or (d_revoked_at device) &&
  (d_user_id device =s? v_owner_user_id vault) && oeqb (c_approved_user_id c) (Some (d_user_id device)) &&
  oeqb (d_onboarding_connection_id device) (Some (c_connection_id c)) &&
  negb (bool_decide (c_selection c = Some SelExistingVault) && negb (oeqb (c_selected_vault_id c) (Some (v_vault_id vault)))).

(** [devices.find(device => device.device_id === connection.created_device_id)] and its vault. *)
Definition enrolled_device (c : ConnectionRequestRow) (db : MetadataDb) : option DeviceRow :=
  find_row (λ device, oeqb (Some (d_device_id device)) (c_created_device_id c)) (db_devices db).
Definition vault_of (device : DeviceRow) (db : MetadataDb) : option VaultRow :=
  find_row (has_vault_id (d_vault_id device)) (db_vaults db).

Definition status_of (secret : jstring) (db : MetadataDb) (c : ConnectionRequestRow) : result ConnectionStatusResponse :=
  match c_status c with
  | CPending => Ok (StPending (c_expires_at c))
  | CDenied => Ok StDenied
  | CExpired => Ok StExpired
  | CConsumed =>
      match enrolled_device c db with
      | None => Throw incomplete_state
      | Some device =>
        match vault_of device db, d_onboarding_mode device, c_selection c with
        | Some vault, Some mode, Some selection =>
            if onboarded c (deriveDeviceToken secret (c_credential_salt c)) db device vault
            then Ok (StConsumed selection (c_expected_main c) mode (v_vault_id vault) (v_display_name vault) (d_device_id device))
            else Throw incomplete_state
        | _, _, _ => Throw incomplete_state
        end
      end
  | CApproved =>
      selection ← requireValue (c_selection c);
      name ← (match c_new_vault_display_name c with Some name => Ok name | None => selectedVaultName (db_vaults db) c end);
      Ok (StApproved selection (c_selected_vault_id c) name (c_expected_main c) (c_expires_at c))
  end.

Definition status_job (connectionId secret origin : jstring) : job ConnectionStatusResponse := λ w limits db,
  let db := set_db_connections (expireConnections w (db_connections db)) db in
  match authenticatedConnection (w_now w 0) connectionId secret (db_connections db) with
  | Throw e => (Throw e, limits)
  | Ok (c, connections) =>
    let db := set_db_connections connections db in
    match enforcePollLimit (w_now w 1) (origin ++ lit ":" ++ connectionId) (pollLimits limits) with
    | None => (Throw poll_limited, limits)
    | Some polls => ((response ← status_of secret db c; Ok (response, db)), mk_RateLimits (creationLimits limits) polls)
    end
  end.
Definition statusInternal (connectionId secret origin : jstring) : service ConnectionStatusResponse :=
  mutate (status_job connectionId secret origin).

(** The coordinator is an optional argument of the service. *)
Context (lifecycle : bool).

Definition status (connectionId secret origin : jstring) : service ConnectionStatusResponse :=
  if negb lifecycle then statusInternal connectionId secret origin else
  db ← snapshot; w ← ambient;
  c ← lift (authenticated (w_now w 0) connectionId secret db);
  let target := match c_selected_vault_id c with Some id => Some id | None => d_vault_id <$> created_device db c end in
  let owner := match c_approved_user_id c with Some id => Some id | None => d_user_id <$> created_device db c end in
  match target, owner with
  | Some (t :: target), Some (u :: owner) =>
      withOwnerVault (u :: owner) (t :: target)
        (before ← snapshot; w ← ambient;
         c ← lift (authenticated (w_now w 0) connectionId secret before);
         if negb (oeqb (connectionTargetVaultId before c) (Some (t :: target)))
         then throw (connection_changed "Connection state changed while it was being read.") else
         result ← statusInternal connectionId secret origin;
         after ← snapshot;
         _ ← lift (still_targets connectionId (t :: target) after);
         mret result)
  | _, _ => statusInternal connectionId secret origin
  end.

Definition approve (input : Approval) : service unit :=
  match ap_selection input, ap_vaultId input, lifecycle with
  | SelExistingVault, Some (t :: target), true =>
      withOwnerVault (u_user_id (ap_user input)) (t :: target)
        (_ ← mutate (plain (approve_tx input));
         after ← snapshot;
         if hasDurableDeletionRecord after (t :: target) then throw being_deleted else mret ())
  | _, _, _ => mutate (plain (approve_tx input))
  end.

Definition diagnostics_tx (connectionId secret : jstring) : transaction (ConnectionRequestRow * UserRow) := λ w db,
  '(c, connections) ← authenticatedConnection (w_now w 0) connectionId secret (db_connections db);
  let not_found := Throw (refused 404 "not_found" "Resource not found.") in
  if negb (bool_decide (c_status c = CApproved)) || negb (otruthy (c_approved_user_id c)) then not_found else
  match find_row (λ user, oeqb (Some (u_user_id user)) (c_approved_user_id c)) (db_users db) with
  | None => not_found
  | Some user => if u_disabled user then not_found else Ok ((c, user), set_db_connections connections db)
  end.
Definition authenticateDiagnostics (connectionId secret : jstring) : service (ConnectionRequestRow * UserRow) :=
  mutate (plain (diagnostics_tx connectionId secret)).

(** ** Bootstrap of an existing vault *)

Record BootstrapMetadata := mk_BootstrapMetadata {
  bs_connection : ConnectionRequestRow; bs_vaultId : jstring; bs_vaultName : jstring; bs_rootCommit : jstring;
  bs_targetMain : jstring; bs_changedPaths : list jstring; bs_explicitDirectories : list jstring }.

Definition bootstrap_tx (connectionId secret : jstring) : transaction (MetadataDb * ConnectionRequestRow) := λ w db,
  let db := set_db_connections (expireConnections w (db_connections db)) db in
  '(c, connections) ← authenticatedConnection (w_now w 0) connectionId secret (db_connections db);
  let db := set_db_connections connections db in
  Ok ((db, c), db).

Definition build_metadata (db : MetadataDb) (c : ConnectionRequestRow) (vault : VaultRow) (rootCommit targetMain : jstring) :
    service BootstrapMetadata :=
  let unavailable := throw (refused 409 "blocked_integrity" "Approved onboarding baseline is unavailable.") in
  exists_ ← perform (CommitExists (v_vault_id vault) targetMain);
  if negb exists_ then unavailable else
  reached ← perform (IsAncestor (v_vault_id vault) targetMain (v_current_main vault));
  if negb reached then unavailable else
  changed ← perform (ListTreePaths (v_vault_id vault) targetMain);
  mret (mk_BootstrapMetadata c (v_vault_id vault) (v_display_name vault) rootCommit targetMain changed
    (match mget (db_directory_state_by_vault db) (v_vault_id vault) with Some state => ds_explicit_dirs state | None => [] end)).

Definition bootstrapMetadata (connectionId secret : jstring) : service BootstrapMetadata :=
  '(db, c) ← mutate (plain (bootstrap_tx connectionId secret));
  if negb (bool_decide (c_status c = CApproved)) || negb (bool_decide (c_selection c = Some SelExistingVault))
     || negb (otruthy (c_selected_vault_id c))
  then throw (refused 409 "connection_not_bootstrappable" "Connection does not target an existing vault.") else
  user ← lift (requireValue (c_approved_user_id c));
  vault ← lift (ownedVaultOrThrow db user (default [] (c_selected_vault_id c)));
  match v_status vault, v_root_commit vault with
  | VActive, Some (r :: root) =>
      targetMain ← lift (requireValue (c_expected_main c));
      let build := build_metadata db c vault (r :: root) targetMain in
      if lifecycle then withOwnerVault user (v_vault_id vault) build else build
  | _, _ => throw failed_integrity
  end.

Definition bootstrap (connectionId secret : jstring) : service (BootstrapMetadata * list N) :=
  metadata ← bootstrapMetadata connectionId secret;
  let export := perform (ExportPack (bs_vaultId metadata) (bs_targetMain metadata)) in
  packfile ← (if lifecycle
              then user ← lift (requireValue (c_approved_user_id (bs_connection metadata)));
                   withOwnerVault user (bs_vaultId metadata) export
              else export);
  mret (metadata, packfile).

(** ** Completion *)

Record CompleteConnectionRequest := mk_CompleteConnectionRequest {
  cq_mode : OnboardingMode; cq_expected_main : option jstring; cq_root_ignore_capability : bool;
  cq_proposal_kind : option ProposalKind; cq_proposal_base : option jstring }.
Record CompleteConnectionResponse := mk_CompleteConnectionResponse {
  co_user_id : jstring; co_vault_id : jstring; co_vault_name : jstring; co_root_commit : jstring; co_current_main : jstring;
  co_device_id : jstring; co_device_token : jstring; co_device_ref : jstring; co_mode : OnboardingMode }.

Definition responseFor (vault : VaultRow) (device : DeviceRow) (deviceToken : jstring) (mode : OnboardingMode) : result CompleteConnectionResponse :=
  match v_root_commit vault with
  | Some (r :: root) =>
      Ok (mk_CompleteConnectionResponse (d_user_id device) (v_vault_id vault) (v_display_name vault) (r :: root)
        (v_current_main vault) (d_device_id device) deviceToken (d_device_ref device) mode)
  | _ => Throw (connection_inconsistent "Vault root commit is unavailable.")
  end.

Definition existing_completion (deviceToken : jstring) (db : MetadataDb) (c : ConnectionRequestRow) : result (option CompleteConnectionResponse) :=
  if negb (bool_decide (c_status c = CConsumed)) then Ok None else
  match enrolled_device c db with
  | None => Throw incomplete_state
  | Some device =>
    match vault_of device db, d_onboarding_mode device with
    | Some vault, Some mode =>
        if negb (otruthy (v_root_commit vault)) then Throw incomplete_state
        else if negb (bool_decide (v_status vault = VActive)) || hasDurableDeletionRecord db (v_vault_id vault) then Throw (not_active vault)
        else if negb (onboarded c deviceToken db device vault) then Throw incomplete_state
        else Some <$> responseFor vault device deviceToken mode
    | _, _ => Throw incomplete_state
    end
  end.

Definition existingCompletion (connectionId secret deviceToken : jstring) : service (option CompleteConnectionResponse) :=
  db ← snapshot; w ← ambient;
  c ← lift (authenticated (w_now w 0) connectionId secret db);
  lift (existing_completion deviceToken db c).

Definition connectionSalt (connectionId secret : jstring) : service jstring :=
  db ← snapshot; w ← ambient;
  c ← lift (authenticated (w_now w 0) connectionId secret db);
  mret (c_credential_salt c).

Definition validateProposal (db : MetadataDb) (c : ConnectionRequestRow) (vaultId rootCommit : jstring)
    (request : CompleteConnectionRequest) : service (option ProposalKind * option jstring) :=
  if bool_decide (cq_mode request = ModeUseServer) then mret (None, None) else
  match (if bool_decide (c_selection c = Some SelNewVault) then Some NewVaultImport else cq_proposal_kind request) with
  | None => throw (invalid_proposal "Onboarding proposal kind is required.")
  | Some NewVaultImport => mret (Some NewVaultImport, Some rootCommit)
  | Some kind =>
    match cq_proposal_base request with
    | None | Some [] => throw (invalid_proposal "Onboarding proposal base is required.")
    | Some base =>
      if bool_decide (kind = IndependentVaultMerge) then
        if negb (base =s? rootCommit) then throw (invalid_proposal "Independent onboarding must use the vault root commit.")
        else mret (Some kind, Some base)
      else
        let untrusted := throw (invalid_proposal "Shared onboarding baseline is not trusted vault history.") in
        match find_row (has_vault_id vaultId) (db_vaults db) with
        | None => untrusted
        | Some vault =>
            exists_ ← perform (CommitExists vaultId base);
            if negb exists_ then untrusted else
            reached ← perform (IsAncestor vaultId base (v_current_main vault));
            if negb reached then untrusted else mret (Some kind, Some base)
        end
    end
  end.

(** The rows a completion adds. *)
Definition new_vault (vaultId owner displayName rootCommit timestamp : jstring) : VaultRow :=
  mk_VaultRow vaultId owner displayName VActive (Some rootCommit) rootCommit None timestamp timestamp.

Definition new_device (deviceId timestamp : jstring) (c : ConnectionRequestRow) (vault : VaultRow) (mode : OnboardingMode)
    (proposal : option ProposalKind * option jstring) : DeviceRow :=
  mk_DeviceRow deviceId (v_vault_id vault) (v_owner_user_id vault) (c_proposed_device_name c) (lit "refs/obts/devices/" ++ deviceId)
    None DPaired None 0 (Some []) None 0 None (Some timestamp) None None None None None None (Some (c_plugin_version c))
    None None (Some OnbPending) (Some mode) proposal.1 proposal.2 (Some (c_connection_id c)) None timestamp None.

Definition new_token (tokenId deviceToken timestamp : jstring) (device : DeviceRow) : TokenRow :=
  mk_TokenRow tokenId TokDevice (hashToken deviceToken).1 (hashToken deviceToken).2 (d_user_id device)
    (Some (d_vault_id device)) (Some (d_device_id device)) None None 0 None
    [(lit "device_name", JStr (d_device_name device))] timestamp.

Definition target_vault (w : World) (vaultId rootCommit timestamp : jstring) (c : ConnectionRequestRow) (db : MetadataDb) :
    result (VaultRow * MetadataDb) :=
  match find_row (has_vault_id vaultId) (db_vaults db) with
  | Some vault =>
      if negb (oeqb (Some (v_owner_user_id vault)) (c_approved_user_id c)) || negb (bool_decide (v_status vault = VActive))
      then Throw (not_active vault) else Ok (vault, db)
  | None =>
      owner ← requireValue (c_approved_user_id c);
      displayName ← requireValue (c_new_vault_display_name c);
      let vault := new_vault vaultId owner displayName rootCommit timestamp in
      Ok (vault, (appendEvent w 1 (set_db_vaults (db_vaults db ++ [vault]) db) EvMainAdvanced vaultId
        [(lit "vault_id", vaultId)] [(lit "main", Some rootCommit); (lit "previous_main", None)]
        [(lit "reason", JStr (lit "empty_root"))]).2)
  end.

Definition consume (vaultId deviceId timestamp : jstring) (c : ConnectionRequestRow) : ConnectionRequestRow :=
  set_c_consumed_at (Some timestamp)
    (set_c_created_device_id (Some deviceId)
      (set_c_selected_vault_id (Some vaultId) (set_c_status CConsumed c))).

Definition completion_tx (connectionId secret deviceToken vaultId rootCommit deviceId timestamp : jstring) (mode : OnboardingMode)
    (proposal : option ProposalKind * option jstring) : transaction (VaultRow * DeviceRow * jstring) := λ w db,
  '(c, connections) ← authenticatedConnection (w_now w 0) connectionId secret (db_connections db);
  let db := set_db_connections connections db in
  if negb (bool_decide (c_status c = CApproved)) then Throw (connectionStatusError c) else
  if hasDurableDeletionRecord db vaultId then Throw being_deleted else
  '(vault, db) ← target_vault w vaultId rootCommit timestamp c db;
  let device := new_device deviceId timestamp c vault mode proposal in
  let tokenId := new_id w 4 "tok" in
  let db := set_db_devices (db_devices db ++ [device]) db in
  let db := set_db_tokens (db_tokens db ++ [new_token tokenId deviceToken timestamp device]) db in
  let db := set_db_connections (update_first (authenticates connectionId secret)
    (consume (v_vault_id vault) deviceId timestamp) (db_connections db)) db in
  let db := set_db_diagnostic_events (update_where (λ event, oeqb (dg_connection_id event) (Some (c_connection_id c)))
    (λ event, set_dg_device_id (Some deviceId) (set_dg_vault_id (Some (v_vault_id vault)) event)) (db_diagnostic_events db)) db in
  Ok ((vault, device, tokenId),
      push_audit w 5 (Some (v_owner_user_id vault)) (Some deviceId) (Some (v_vault_id vault)) (lit "connection_completed")
        (lit "device") (Some deviceId) timestamp db).

(** The rows read back after the transaction. *)
Definition is_authoritative_token (vaultId deviceId : jstring) (user : option jstring) (t : TokenRow) : bool :=
  bool_decide (t_kind t = TokDevice) && oeqb (t_vault_id t) (Some vaultId) && oeqb (t_device_id t) (Some deviceId) &&
  oeqb (Some (t_user_id t)) user && is_null_or (t_revoked_at t) && is_null_or (t_consumed_at t).

Definition authoritative (c : ConnectionRequestRow) (vaultId deviceId tokenId : jstring) (db : MetadataDb) : result (VaultRow * DeviceRow) :=
  match find_row (has_vault_id vaultId) (db_vaults db), find_row (has_device_id deviceId) (db_devices db),
        find_row (λ t, t_token_id t =s? tokenId) (db_tokens db) with
  | Some vault, Some device, Some token =>
      if hasDurableDeletionRecord db vaultId ||
         negb (bool_decide (v_status vault = VActive)) || negb (oeqb (Some (v_owner_user_id vault)) (c_approved_user_id c)) ||
         negb (d_vault_id device =s? vaultId) || negb (oeqb (Some (d_user_id device)) (c_approved_user_id c)) ||
         negb (is_null_or (d_revoked_at device)) || bool_decide (d_status device = DRevoked) ||
         negb (is_authoritative_token vaultId (d_device_id device) (c_approved_user_id c) token)
      then Throw being_deleted else Ok (vault, device)
  | _, _, _ => Throw being_deleted
  end.

(** From the admission of the target to the response. *)
Definition enroll (connectionId secret deviceToken : jstring) (request : CompleteConnectionRequest) (before : MetadataDb)
    (c : ConnectionRequestRow) (vaultId rootCommit : jstring) : service CompleteConnectionResponse :=
  proposal ← validateProposal before c vaultId rootCommit request;
  w ← ambient;
  let deviceId := new_id w 1 "dev" in
  '(_, device, tokenId) ← mutate (plain (completion_tx connectionId secret deviceToken vaultId rootCommit deviceId (nowIso w 0)
                                   (cq_mode request) proposal));
  after ← snapshot;
  '(vault, device) ← lift (authoritative c vaultId (d_device_id device) tokenId after);
  lift (responseFor vault device deviceToken (cq_mode request)).

Definition enroll_new (connectionId secret deviceToken : jstring) (request : CompleteConnectionRequest) (before : MetadataDb)
    (c : ConnectionRequestRow) : service CompleteConnectionResponse :=
  if bool_decide (cq_mode request = ModeMerge)
  then throw (refused 400 "invalid_onboarding_mode" "New vault onboarding mode is invalid.") else
  w ← ambient;
  let vaultId := new_id w 0 "vlt" in
  let reserved :=
    _ ← perform (ReserveVaultCreation vaultId);
    try_finally (rootCommit ← perform (InitializeVault vaultId);
                 enroll connectionId secret deviceToken request before c vaultId rootCommit)
      (perform (ReleaseVaultCreation vaultId)) in
  if lifecycle then withAdmission vaultId reserved else reserved.

Definition enroll_existing (connectionId secret deviceToken : jstring) (request : CompleteConnectionRequest) (before : MetadataDb)
    (c : ConnectionRequestRow) (user : jstring) : service CompleteConnectionResponse :=
  vault ← lift (ownedVaultOrThrow before user (default [] (c_selected_vault_id c)));
  if negb (bool_decide (v_status vault = VActive)) then throw (not_active vault) else
  match v_root_commit vault with
  | None | Some [] => throw (refused 409 "blocked_integrity" "Vault root commit is unavailable.")
  | Some rootCommit =>
    if negb (oeqb (cq_expected_main request) (c_expected_main c))
    then throw (refused 409 "onboarding_target_stale" "Approved onboarding baseline no longer matches this setup attempt.") else
    policy ← perform (RootIgnoreOid (v_vault_id vault) (v_current_main vault));
    if negb (is_null_or policy) && negb (cq_root_ignore_capability request) then throw capability_required else
    match c_selected_vault_id c with
    | None | Some [] => throw (connection_inconsistent "Connection target is incomplete.")
    | Some vaultId => enroll connectionId secret deviceToken request before c vaultId rootCommit
    end
  end.

(** A repeated completion answers with what the first one enrolled. *)
Definition replay (connectionId secret : jstring) (request : CompleteConnectionRequest) (existing : CompleteConnectionResponse) :
    service CompleteConnectionResponse :=
  current ← snapshot; w ← ambient;
  match find_row (has_vault_id (co_vault_id existing)) (db_vaults current) with
  | None => throw (refused 404 "not_found" "Resource not found.")
  | Some vault =>
      c ← lift (authenticated (w_now w 0) connectionId secret current);
      if negb (bool_decide (cq_mode request = co_mode existing)) || negb (oeqb (cq_expected_main request) (c_expected_main c))
      then throw (refused 409 "onboarding_identity_mismatch" "Completion does not match the accepted enrollment.") else
      policy ← perform (RootIgnoreOid (co_vault_id existing) (v_current_main vault));
      if negb (is_null_or policy) && negb (cq_root_ignore_capability request) then throw capability_required else
      mret existing
  end.

(** The transaction that only authenticates, and so records the expiry. *)
Definition authenticate_tx (connectionId secret : jstring) : transaction unit := λ w db,
  '(_, connections) ← authenticatedConnection (w_now w 0) connectionId secret (db_connections db);
  Ok ((), set_db_connections connections db).

Definition completeInternal (connectionId secret : jstring) (request : CompleteConnectionRequest) : service CompleteConnectionResponse :=
  salt ← connectionSalt connectionId secret;
  let deviceToken := deriveDeviceToken secret salt in
  existing ← existingCompletion connectionId secret deviceToken;
  match existing with
  | Some existing => replay connectionId secret request existing
  | None =>
    before ← snapshot; w ← ambient;
    c ← lift (authenticated (w_now w 0) connectionId secret before);
    _ ← (if bool_decide (c_status c = CExpired) then mutate (plain (authenticate_tx connectionId secret)) else mret ());
    match c_status c, c_approved_user_id c, c_selection c with
    | CApproved, Some (u :: user), Some SelNewVault => enroll_new connectionId secret deviceToken request before c
    | CApproved, Some (u :: user), Some SelExistingVault => enroll_existing connectionId secret deviceToken request before c (u :: user)
    | _, _, _ => throw (connectionStatusError c)
    end
  end.

Definition complete (connectionId secret : jstring) (request : CompleteConnectionRequest) : service CompleteConnectionResponse :=
  if negb lifecycle then completeInternal connectionId secret request else
  db ← snapshot; w ← ambient;
  c ← lift (authenticated (w_now w 0) connectionId secret db);
  match connectionTargetVaultId db c, c_approved_user_id c with
  | Some (t :: target), Some (u :: user) =>
      withOwnerVault (u :: user) (t :: target)
        (before ← snapshot; w ← ambient;
         c' ← lift (authenticated (w_now w 0) connectionId secret before);
         if negb (oeqb (connectionTargetVaultId before c') (Some (t :: target)))
            || negb (oeqb (c_approved_user_id c') (c_approved_user_id c))
         then throw (connection_changed "Connection state changed while it was being completed.") else
         result ← completeInternal connectionId secret request;
         after ← snapshot;
         _ ← lift (still_targets connectionId (t :: target) after);
         mret result)
  | _, _ => completeInternal connectionId secret request
  end.

End methods.
