(* ===== verification/ConnectionSafety.v ===== *)
(** * Connections of new devices, under concurrent requests (proofs about Connections.v)

    A connection moves through its states in one direction, and a completed connection
    has exactly the device its row names.  Every method of the service keeps this whatever
    the other requests do in between ([evolves]): the argument is by rely and guarantee,
    with the identifiers a request has drawn reserved to it. *)

From S2P Require Export Connections.

Local Open Scope nat_scope.

(** ** The life of a connection *)

Record same_identity (c c' : ConnectionRequestRow) : Prop := {
  si_id : c_connection_id c' = c_connection_id c;
  si_prefix : c_secret_lookup_prefix c' = c_secret_lookup_prefix c;
  si_hash : c_secret_hash c' = c_secret_hash c;
  si_salt : c_credential_salt c' = c_credential_salt c;
  si_device : c_proposed_device_name c' = c_proposed_device_name c
}.

Inductive edge (c c' : ConnectionRequestRow) : Prop :=
| edge_approve : c_status c = CPending → c_status c' = CApproved → same_identity c c' →
    is_Some (c_approved_user_id c') →
    (c_selection c' = Some SelExistingVault → is_Some (c_selected_vault_id c') ∧ c_new_vault_display_name c' = None) → edge c c'
| edge_deny : c_status c = CPending ∨ c_status c = CApproved → c_status c' = CDenied → same_identity c c' → edge c c'
| edge_expire : c_status c = CPending ∨ c_status c = CApproved ∨ c_status c = CDenied → c' = set_c_status CExpired c → edge c c'
| edge_consume vault device timestamp : c_status c = CApproved → c' = consume vault device timestamp c → edge c c'.

Definition progress : ConnectionRequestRow → ConnectionRequestRow → Prop := rtc edge.

Definition rank (s : ConnectionStatus) : nat :=
  match s with CPending => 0 | CApproved => 1 | CDenied => 2 | CExpired | CConsumed => 3 end.

Lemma edge_rank c c' : edge c c' → rank (c_status c) < rank (c_status c').
Proof.
  intros [Hs Hs' _ _ _|Hs Hs' _|Hs ->|v d t Hs ->].
  - rewrite Hs, Hs'. cbn. lia.
  - destruct Hs as [-> | ->]; rewrite Hs'; cbn; lia.
  - destruct Hs as [-> |[-> | ->]]; cbn; lia.
  - rewrite Hs. cbn. lia.
Qed.

Lemma progress_rank c c' : progress c c' → c' = c ∨ rank (c_status c) < rank (c_status c').
Proof.
  induction 1 as [c|c c1 c' He _ [->|IH]]; [by left|right; by apply edge_rank|right].
  apply edge_rank in He. lia.
Qed.

Lemma progress_same c c' : progress c c' → rank (c_status c) = rank (c_status c') → c' = c.
Proof. intros [->|H]%progress_rank Hr; [done|lia]. Qed.

Lemma edge_identity c c' : edge c c' → same_identity c c'.
Proof. intros [? ? H _ _|? ? H|? ->|? ? ? ? ->]; first [done|by split]. Qed.

Lemma progress_identity c c' : progress c c' → same_identity c c'.
Proof.
  induction 1 as [c|c c1 c' H%edge_identity _ [i p h s d]]; [by split|]. destruct H as [i' p' h' s' d']. split; congruence.
Qed.

(** What was approved is what is consumed. *)
Lemma denied_not_consumed c c' : c_status c = CDenied → progress c c' → c_status c' ≠ CConsumed.
Proof.
  intros Hc Hp Hs. destruct Hp as [c|c c1 c' He Hp]; [congruence|].
  destruct He as [H|[H|H]|_ ->|vault device timestamp H ->]; try congruence.
  apply progress_same in Hp; [|by rewrite Hs]. by subst c'.
Qed.

Lemma progress_consumed c c' : c_status c = CApproved ∨ c_status c = CConsumed → progress c c' → c_status c' = CConsumed →
  c_selection c' = c_selection c ∧ c_expected_main c' = c_expected_main c.
Proof.
  intros Hc Hp Hs. destruct Hp as [c|c c1 c' He Hp]; [done|].
  destruct He as [H|H H1 _|H ->|vault device timestamp H ->].
  - destruct Hc; congruence.
  - by destruct (denied_not_consumed _ _ H1 Hp).
  - apply progress_same in Hp; [|by rewrite Hs]. by subst c'.
  - apply progress_same in Hp; [|by rewrite Hs]. by subst c'.
Qed.

(** A step that consumes nothing. *)
Definition keeps (c c' : ConnectionRequestRow) : Prop := progress c c' ∧ (c_status c' = CConsumed → c' = c).

#[export] Instance keeps_preorder : PreOrder keeps.
Proof.
  split.
  - intros c. split; [constructor|done].
  - intros a b c [p1 h1] [p2 h2]. split; [by etrans|]. intros Hc. pose proof (h2 Hc) as ->. auto.
Qed.

Lemma keeps_edge c c' : edge c c' → c_status c' ≠ CConsumed → keeps c c'.
Proof. intros H Hn. split; [by apply rtc_once|done]. Qed.

(** ** What other requests may do *)

Definition conn_at (id : jstring) (db : MetadataDb) : option ConnectionRequestRow :=
  find_row (has_connection_id id) (db_connections db).

Definition device_ident (d : DeviceRow) : jstring * jstring * jstring * option jstring :=
  (d_device_id d, d_vault_id d, d_user_id d, d_onboarding_connection_id d).

Record absent (id : jstring) (db : MetadataDb) : Prop := {
  ab_connection : id ∉ map c_connection_id (db_connections db);
  ab_device d : d ∈ db_devices db → d_device_id d ≠ id ∧ d_onboarding_connection_id d ≠ Some id;
  ab_vault : id ∉ map v_vault_id (db_vaults db)
}.

(** Identifiers are unique; a device that came by a connection is the one its row
    names, in the vault of its row, and owned by the user who approved it. *)
Record well_kept (db : MetadataDb) : Prop := {
  wk_connections : NoDup (map c_connection_id (db_connections db));
  wk_devices : NoDup (map d_device_id (db_devices db));
  wk_vaults : NoDup (map v_vault_id (db_vaults db));
  wk_enrolled c d : c ∈ db_connections db → d ∈ db_devices db → d_onboarding_connection_id d = Some (c_connection_id c) →
    c_status c = CConsumed ∧ c_created_device_id c = Some (d_device_id d) ∧
    c_selected_vault_id c = Some (d_vault_id d) ∧ c_approved_user_id c = Some (d_user_id d);
  wk_once d d' k : d ∈ db_devices db → d' ∈ db_devices db →
    d_onboarding_connection_id d = Some k → d_onboarding_connection_id d' = Some k → d_device_id d = d_device_id d';
  wk_target c : c ∈ db_connections db → c_status c = CApproved → c_selection c = Some SelExistingVault →
    c_new_vault_display_name c = None
}.

Section evolution.
(** The connections the requests are about: none of them is registered anew. *)
Context (tracked : jstring → Prop).

(** [mine] are the identifiers reserved to a request: others do not use them. *)
Record evolves (mine : jstring → Prop) (db db' : MetadataDb) : Prop := {
  ev_kept : well_kept db → well_kept db';
  ev_absent id : mine id → absent id db → absent id db';
  ev_row k c : tracked k → conn_at k db = Some c → ∀ c', conn_at k db' = Some c' → progress c c';
  ev_gone k : tracked k → conn_at k db = None → conn_at k db' = None
}.

#[export] Instance evolves_preorder mine : PreOrder (evolves mine).
Proof.
  split.
  - intros db. split; auto. intros k c _ E c' E'. rewrite E in E'. injection E' as ->. constructor.
  - intros a b c [k1 a1 r1 g1] [k2 a2 r2 g2]. split; auto. intros k x Hk Hx x'' Hx''.
    destruct (conn_at k b) as [x'|] eqn:E; [|by rewrite (g2 k Hk E) in Hx'']. etrans; [by eapply r1|by eapply r2].
Qed.

(** A transaction that only moves connections along. *)
Record moves_rows (db db' : MetadataDb) : Prop := {
  mr_connections : Forall2 keeps (db_connections db) (db_connections db');
  mr_devices : map device_ident (db_devices db') = map device_ident (db_devices db);
  mr_vaults : map v_vault_id (db_vaults db') = map v_vault_id (db_vaults db)
}.

#[export] Instance moves_rows_preorder : PreOrder moves_rows.
Proof.
  split.
  - intros db. split; [|done|done]. by apply Reflexive_instance_0.
  - intros a b c [k1 d1 v1] [k2 d2 v2]. split; [by etrans|congruence|congruence].
Qed.

Lemma keeps_ids l l' : Forall2 keeps l l' → map c_connection_id l' = map c_connection_id l.
Proof. induction 1 as [|c c' l l' [H _] _ IH]; [done|]. cbn. by rewrite IH, (si_id _ _ (progress_identity _ _ H)). Qed.

Lemma keeps_find k l l' : Forall2 keeps l l' →
  match find_row (has_connection_id k) l, find_row (has_connection_id k) l' with
  | Some c, Some c' => keeps c c'
  | None, None => True
  | _, _ => False
  end.
Proof.
  unfold find_row. induction 1 as [|c c' l l' H _ IH]; [done|]. cbn. unfold has_connection_id in *.
  rewrite (si_id _ _ (progress_identity _ _ (proj1 H))). by destruct (_ =s? _).
Qed.

Lemma ident_elem (l l' : list DeviceRow) d : map device_ident l' = map device_ident l → d ∈ l' → ∃ d0, d0 ∈ l ∧ device_ident d0 = device_ident d.
Proof.
  intros H Hd. assert (device_ident d ∈ map device_ident l) as Hin.
  { rewrite <- H. apply list_elem_of_In, in_map. by apply list_elem_of_In. }
  apply list_elem_of_In, in_map_iff in Hin as (d0 & E & ?). exists d0. by rewrite list_elem_of_In.
Qed.

Lemma ident_device_ids (l l' : list DeviceRow) : map device_ident l' = map device_ident l → map d_device_id l' = map d_device_id l.
Proof. intros H. apply (f_equal (map (λ x, x.1.1.1))) in H. by rewrite !map_map in H. Qed.

Lemma moves_rows_evolves mine db db' : moves_rows db db' → evolves mine db db'.
Proof.
  intros [Hc Hd Hv]. split.
  - intros [w1 w2 w3 w4 w5 w6]. split.
    + by rewrite (keeps_ids _ _ Hc).
    + by rewrite (ident_device_ids _ _ Hd).
    + by rewrite Hv.
    + intros c d Hin Hdin Ho. destruct (ident_elem _ _ d Hd Hdin) as (d0 & Hd0 & [= E1 E2 E3 E4]).
      apply list_elem_of_lookup in Hin as [i Hi]. destruct (Forall2_lookup_r _ _ _ _ _ Hc Hi) as (c0 & Hi0 & [Hk1 Hk2]).
      pose proof (si_id _ _ (progress_identity _ _ Hk1)) as Hid.
      destruct (w4 c0 d0) as (H1 & H2 & H3 & H4); [by eapply list_elem_of_lookup_2|done|congruence|].
      assert (c = c0) as ->; [|rewrite <- E1, <- E2, <- E3; auto].
      destruct (progress_rank _ _ Hk1) as [|Hr]; [done|]. rewrite H1 in Hr. cbn in Hr. destruct (c_status c); cbn in Hr; lia.
    + intros d d' k Hin Hin' Ho Ho'. destruct (ident_elem _ _ d Hd Hin) as (d0 & Hd0 & [= E1 E2 E3 E4]).
      destruct (ident_elem _ _ d' Hd Hin') as (d0' & Hd0' & [= F1 F2 F3 F4]).
      rewrite <- E1, <- F1. apply (w5 d0 d0' k); [done|done|congruence|congruence].
    + intros c Hin. apply list_elem_of_lookup in Hin as [i Hi]. destruct (Forall2_lookup_r _ _ _ _ _ Hc Hi) as (c0 & Hi0 & [Hk1 _]).
      assert (c0 ∈ db_connections db) as Hin0 by by eapply list_elem_of_lookup_2.
      apply rtc_inv_r in Hk1 as [->|(c1 & _ & He)]; [by apply w6|]. intros Hs Hsel.
      destruct He as [_ _ _ _ H|_ Hs' _|_ ->|v d t _ ->]; [by apply H|congruence|by cbn in Hs|by cbn in Hs].
  - intros id _ [a1 a2 a3]. split; [by rewrite (keeps_ids _ _ Hc)| |by rewrite Hv].
    intros d Hin. destruct (ident_elem _ _ d Hd Hin) as (d0 & Hd0 & [= <- _ _ <-]). by apply a2.
  - intros k c _ E c' E'. pose proof (keeps_find k _ _ Hc) as H. unfold conn_at in *. rewrite E, E' in H. apply H.
  - intros k _ E. pose proof (keeps_find k _ _ Hc) as H. unfold conn_at in *. rewrite E in H. destruct (find_row _ (db_connections db')) eqn:E'; [destruct H|done].
Qed.

End evolution.

(** ** The transactions *)

Lemma committed_moves h db : moves_rows db (committed h db).
Proof.
  split; [|cbn|done].
  - cbn. induction (db_connections db) as [|c l IH]; constructor; [reflexivity|done].
  - unfold update_where. rewrite map_map. apply map_ext. intros d. by destruct (needs_repair d).
Qed.

Section transactions.
Context `{D : Dates}.

Lemma set_status_same s c : c_status c = s → set_c_status s c = c.
Proof. destruct c. cbn. by intros ->. Qed.

Lemma keeps_expire c : c_status c ≠ CConsumed → keeps c (set_c_status CExpired c).
Proof.
  intros H. destruct (decide (c_status c = CExpired)) as [E|E]; [by rewrite set_status_same|].
  apply keeps_edge; [|done]. apply edge_expire; [|done]. destruct (c_status c); tauto.
Qed.

Lemma keeps_expire_at now c : keeps c (expire_at now c).
Proof.
  unfold expire_at, awaiting. destruct (_ && _) eqn:E; [|reflexivity]. apply keeps_expire.
  apply andb_true_iff in E as [E _]. intros Hc. rewrite Hc in E. done.
Qed.

Lemma keeps_lapse now c : keeps c (lapse now c).
Proof.
  unfold lapse. case_bool_decide as Hc; [reflexivity|]. cbn. destruct (parsed_le _ _); [|reflexivity]. by apply keeps_expire.
Qed.

Lemma keeps_expire_rows w i l : Forall2 keeps l (expire_rows w i l).
Proof. revert i. induction l as [|c l IH]; intros i; constructor; [apply keeps_expire_at|apply IH]. Qed.

Lemma keeps_all l : Forall2 keeps l l.
Proof. induction l; constructor; [reflexivity|done]. Qed.

Lemma keeps_update_first f g l : (∀ c, find_row f l = Some c → keeps c (g c)) → Forall2 keeps l (update_first f g l).
Proof.
  unfold find_row. induction l as [|c l IH]; cbn; intros H; [constructor|]. destruct (f c).
  - constructor; [by apply H|apply keeps_all].
  - constructor; [reflexivity|by apply IH].
Qed.

Lemma moves_connections l db : Forall2 keeps (db_connections db) l → moves_rows db (set_db_connections l db).
Proof. by intros H; split. Qed.

Lemma moves_expire w db : moves_rows db (set_db_connections (expireConnections w (db_connections db)) db).
Proof. apply moves_connections, keeps_expire_rows. Qed.

Context `{C : Crypto}.

Lemma moves_authenticated now id secret c l db : authenticatedConnection now id secret (db_connections db) = Ok (c, l) →
  moves_rows db (set_db_connections l db).
Proof.
  unfold authenticatedConnection. destruct (find_row _ _); [|done]. intros [= <- <-]. apply moves_connections, keeps_update_first.
  intros c' _. apply keeps_lapse.
Qed.

Lemma authenticated_row now id secret c l rows : authenticatedConnection now id secret rows = Ok (c, l) →
  ∃ c0, find_row (authenticates id secret) rows = Some c0 ∧ c = lapse now c0 ∧ l = update_first (authenticates id secret) (lapse now) rows.
Proof. unfold authenticatedConnection. destruct (find_row _ _) as [c0|]; [|done]. intros [= <- <-]. by exists c0. Qed.

Lemma moves_audit w i a d v x y r t db : moves_rows db (push_audit w i a d v x y r t db).
Proof. split; [apply keeps_all|done|done]. Qed.

Lemma approval_target_row input db c c' : approval_target input db c = Ok c' →
  same_identity c c' ∧ c_status c' = c_status c ∧
  (ap_selection input = SelExistingVault → is_Some (c_selected_vault_id c') ∧ c_new_vault_display_name c' = None).
Proof.
  unfold approval_target. intros H. destruct (ap_selection input); inv_ok; (split; [by split|]); (split; [reflexivity|]);
  first [discriminate|intros _; split; [eexists|]; reflexivity].
Qed.

Lemma moves_approve input w db u db' : approve_tx input w db = Ok (u, db') → moves_rows db db'.
Proof.
  intros H. etrans; [apply (moves_expire w)|]. unfold approve_tx in H. cbv zeta in H. revert H.
  set (db1 := set_db_connections (expireConnections w (db_connections db)) db).
  destruct (find_row _ _) as [c|] eqn:Ef; [|done]. case_bool_decide as Hs; cbn [negb]; [|intros H; discriminate H].
  intros H. apply bind_Ok in H as (c1 & Ht & H). apply bind_Ok in H as (at_ & _ & [= _ <-]).
  apply approval_target_row in Ht as ([i p h s n] & Hst & Hsel).
  etrans; [|apply moves_audit]. apply moves_connections, keeps_update_first. intros c' Hc'. assert (Some c = Some c') as [= <-] by (rewrite <- Ef; exact Hc').
  apply keeps_edge; [|done]. apply edge_approve; [done|done|by split|done|]. cbn. intros [= Hx]. by apply Hsel.
Qed.

Lemma moves_deny id user w db u db' : deny_tx id user w db = Ok (u, db') → moves_rows db db'.
Proof.
  unfold deny_tx. destruct (find_row _ _) as [c|] eqn:Ef; [|done]. case_bool_decide as Hs; [|done]. intros [= _ <-].
  etrans; [|apply moves_audit]. apply moves_connections, keeps_update_first. intros c' Hc'. rewrite Ef in Hc'. injection Hc' as <-.
  apply keeps_edge; [|done]. apply edge_deny; [by left|done|by split].
Qed.

Lemma moves_review id w db c db' : review_tx id w db = Ok (c, db') → moves_rows db db'.
Proof.
  intros H. assert (db' = set_db_connections (expireConnections w (db_connections db)) db) as ->; [|apply moves_expire].
  unfold review_tx in H. cbv zeta in H. destruct (find_row _ _); [|done]. by case_bool_decide; simplify_eq.
Qed.

Lemma moves_status id secret origin w limits db r db' limits' : status_job id secret origin w limits db = (Ok (r, db'), limits') → moves_rows db db'.
Proof.
  unfold status_job. destruct (authenticatedConnection _ _ _ _) as [[c l]|] eqn:E; [|done].
  destruct (enforcePollLimit _ _ _); [|done]. intros [= H _]. inv_ok.
  etrans; [apply (moves_expire w)|]. by eapply moves_authenticated.
Qed.

Lemma moves_bootstrap id secret w db r db' : bootstrap_tx id secret w db = Ok (r, db') → moves_rows db db'.
Proof.
  unfold bootstrap_tx. intros H. cbv zeta in H. apply bind_Ok in H as ([c l] & E & [= _ <-]).
  etrans; [apply (moves_expire w)|]. by eapply moves_authenticated.
Qed.

Lemma moves_diagnostics id secret w db r db' : diagnostics_tx id secret w db = Ok (r, db') → moves_rows db db'.
Proof.
  unfold diagnostics_tx. intros H. apply bind_Ok in H as ([c l] & E & H). apply moves_authenticated in E.
  destruct (_ || _); [done|]. destruct (find_row _ _) as [u|]; [|done]. destruct (u_disabled u); [done|]. by injection H as _ <-.
Qed.

Lemma moves_authenticate id secret w db r db' : authenticate_tx id secret w db = Ok (r, db') → moves_rows db db'.
Proof. unfold authenticate_tx. intros H. apply bind_Ok in H as ([c l] & E & [= _ <-]). by eapply moves_authenticated. Qed.

End transactions.

(** ** What a completion does to the document *)

Section completion.
Context `{D : Dates} `{C : Crypto}.

Lemma update_first_lapse now id secret rows c : find_row (authenticates id secret) rows = Some c → lapse now c = c →
  update_first (authenticates id secret) (lapse now) rows = rows.
Proof.
  unfold find_row. induction rows as [|x rows IH]; cbn; [done|]. destruct (authenticates _ _ x); [by intros [= ->] ->|].
  intros Hf Hl. by rewrite IH.
Qed.

Lemma lapse_status now c : c_status (lapse now c) = c_status c ∨ c_status (lapse now c) = CExpired.
Proof. unfold lapse. destruct (_ && _); [by right|by left]. Qed.

Lemma lapse_approved now c : c_status (lapse now c) = CApproved → lapse now c = c ∧ c_status c = CApproved ∧ parsed_le (c_expires_at c) now = false.
Proof.
  unfold lapse. case_bool_decide as Hc; cbn [negb andb]; [intros H; congruence|].
  destruct (parsed_le _ _); [done|]. auto.
Qed.

(** The document after a completion: nothing but the new rows, the consumed connection
    and the diagnostics it now belongs to. *)
Record enrollment (id secret token vaultId rootCommit deviceId timestamp : jstring) (mode : OnboardingMode)
    (proposal : option ProposalKind * option jstring) (w : World) (db : MetadataDb)
    (vault : VaultRow) (device : DeviceRow) (tokenId : jstring) (c : ConnectionRequestRow) (db' : MetadataDb) : Prop := {
  en_found : find_row (authenticates id secret) (db_connections db) = Some c;
  en_approved : c_status c = CApproved;
  en_unexpired : parsed_le (c_expires_at c) (w_now w 0) = false;
  en_kept : hasDurableDeletionRecord db vaultId = false;
  en_vault : v_vault_id vault = vaultId ∧ v_status vault = VActive ∧ c_approved_user_id c = Some (v_owner_user_id vault);
  en_device : device = new_device deviceId timestamp c vault mode proposal;
  en_vaults : find_row (has_vault_id vaultId) (db_vaults db) = Some vault ∧ db_vaults db' = db_vaults db ∨
    find_row (has_vault_id vaultId) (db_vaults db) = None ∧ db_vaults db' = db_vaults db ++ [vault] ∧
      ∃ name, c_new_vault_display_name c = Some name ∧ vault = new_vault vaultId (v_owner_user_id vault) name rootCommit timestamp;
  en_devices : db_devices db' = db_devices db ++ [device];
  en_tokens : db_tokens db' = db_tokens db ++ [new_token tokenId token timestamp device];
  en_connections : db_connections db' = update_first (authenticates id secret) (consume vaultId deviceId timestamp) (db_connections db);
  en_rest : db_users db' = db_users db ∧ db_sessions db' = db_sessions db ∧ db_sync_operations db' = db_sync_operations db ∧
    db_conflicts db' = db_conflicts db ∧ db_deletion_jobs db' = db_deletion_jobs db ∧
    db_deletion_receipts db' = db_deletion_receipts db ∧ db_device_removal_jobs db' = db_device_removal_jobs db
}.

Lemma target_vault_spec w vaultId rootCommit timestamp c db vault db' : target_vault w vaultId rootCommit timestamp c db = Ok (vault, db') →
  (v_vault_id vault = vaultId ∧ v_status vault = VActive ∧ c_approved_user_id c = Some (v_owner_user_id vault)) ∧
  ((find_row (has_vault_id vaultId) (db_vaults db) = Some vault ∧ db' = db) ∨
   find_row (has_vault_id vaultId) (db_vaults db) = None ∧ ∃ name, c_new_vault_display_name c = Some name ∧
     vault = new_vault vaultId (v_owner_user_id vault) name rootCommit timestamp ∧
     db' = set_db_events (db_events db') (set_db_event_seq_by_vault (db_event_seq_by_vault db') (set_db_vaults (db_vaults db ++ [vault]) db))).
Proof.
  unfold target_vault. destruct (find_row _ _) as [x|] eqn:Ef.
  - destruct (oeqb (Some (v_owner_user_id x)) (c_approved_user_id c)) eqn:Eo; [|done].
    case_bool_decide as Hs; [|done]. intros [= -> ->]. apply find_row_Some in Ef as [_ Hid%jeqb_eq].
    split; [|by left]. split; [done|]. split; [done|]. destruct (c_approved_user_id c); [|done]. cbn in Eo. apply jeqb_eq in Eo. by subst.
  - intros H. apply bind_Ok in H as (owner & Ho & H). apply bind_Ok in H as (name & Hn & H).
    unfold requireValue in *. destruct (c_approved_user_id c) as [o|]; [|done]. destruct (c_new_vault_display_name c) as [n|]; [|done].
    injection Ho as <-. injection Hn as <-. injection H as <- <-. split; [done|]. right. split; [done|]. exists n. split; [done|]. split; [done|].
    unfold appendEvent, pruneVaultEvents. by destruct db.
Qed.

Lemma completion_enrollment id secret token vaultId rootCommit deviceId timestamp mode proposal w db vault device tokenId db' :
  completion_tx id secret token vaultId rootCommit deviceId timestamp mode proposal w db = Ok ((vault, device, tokenId), db') →
  ∃ c, enrollment id secret token vaultId rootCommit deviceId timestamp mode proposal w db vault device tokenId c db'.
Proof.
  unfold completion_tx. intros H. apply bind_Ok in H as ([c l] & E & H).
  apply authenticated_row in E as (c0 & Ef & -> & ->). cbv zeta in H.
  case_bool_decide as Hs; cbn [negb] in H; [|discriminate H].
  apply lapse_approved in Hs as (El & Hs & Hx). rewrite El in H. rewrite (update_first_lapse _ _ _ _ _ Ef El) in H.
  replace (set_db_connections (db_connections db) db) with db in H by by destruct db.
  destruct (hasDurableDeletionRecord db vaultId) eqn:Ed; [discriminate H|].
  apply bind_Ok in H as ([x db1] & Ht & H). injection H as <- <- <- <-.
  apply target_vault_spec in Ht as (Hv & Ht). exists c0.
  assert (db_connections db1 = db_connections db ∧ db_devices db1 = db_devices db ∧ db_tokens db1 = db_tokens db ∧
    db_users db1 = db_users db ∧ db_sessions db1 = db_sessions db ∧ db_sync_operations db1 = db_sync_operations db ∧
    db_conflicts db1 = db_conflicts db ∧ db_deletion_jobs db1 = db_deletion_jobs db ∧
    db_deletion_receipts db1 = db_deletion_receipts db ∧ db_device_removal_jobs db1 = db_device_removal_jobs db) as
    (E1 & E2 & E3 & E4 & E5 & E6 & E7 & E8 & E9 & E10).
  { destruct Ht as [[_ ->]|(_ & n & _ & _ & ->)]; by repeat split. }
  split; try assumption; try reflexivity.
  - destruct Ht as [[Hf ->]|(Hf & n & Hn & Hw & Hd)]; [by left|right]. split; [done|]. split; [|by exists n].
    cbn. rewrite Hd. reflexivity.
  - cbn. by rewrite E2.
  - cbn. by rewrite E3.
  - cbn. rewrite E1. by destruct Hv as (-> & _ & _).
  - cbn. auto 10.
Qed.

Lemma key_unique {A B} (key : A → B) (l : list A) x y : NoDup (map key l) → x ∈ l → y ∈ l → key x = key y → x = y.
Proof.
  induction l as [|z l IH]; [by intros _ ?%not_elem_of_nil|]. cbn. intros [Hz Hn]%NoDup_cons.
  assert (∀ u, u ∈ l → key u ∈ map key l) as Hin by (intros u Hu; apply list_elem_of_In, in_map; by apply list_elem_of_In).
  intros [-> |Hx]%elem_of_cons [-> |Hy]%elem_of_cons E; [done| | |by apply IH].
  - destruct Hz. rewrite E. auto.
  - destruct Hz. rewrite <- E. auto.
Qed.

Lemma authenticates_id id secret c : authenticates id secret c = true → c_connection_id c = id.
Proof. unfold authenticates. intros H. apply andb_true_iff in H as [[H _]%andb_true_iff _]. by apply jeqb_eq. Qed.

End completion.

(** ** Rows that are added *)

Section additions.
Context `{D : Dates} `{C : Crypto} (tracked mine : jstring → Prop).
Local Abbreviation evolves := (evolves tracked mine).

Lemma conn_at_elem k db c : conn_at k db = Some c → c ∈ db_connections db ∧ c_connection_id c = k.
Proof. intros [H1 H2%jeqb_eq]%find_row_Some. done. Qed.

Lemma find_row_app_none {A} (p : A → bool) l x : find_row p l = None → find_row p (l ++ [x]) = if p x then Some x else None.
Proof. unfold find_row. induction l as [|y l IH]; cbn; [done|]. destruct (p y); [done|exact IH]. Qed.

Lemma find_row_key_none k (l : list ConnectionRequestRow) : k ∉ map c_connection_id l → find_row (has_connection_id k) l = None.
Proof.
  intros H. destruct (find_row _ _) as [c|] eqn:E; [|done]. apply find_row_Some in E as [Hin <-%jeqb_eq].
  destruct H. apply list_elem_of_In, in_map. by apply list_elem_of_In.
Qed.

Lemma evolves_register db row : absent (c_connection_id row) db → c_status row = CPending →
  ¬ mine (c_connection_id row) → ¬ tracked (c_connection_id row) →
  evolves db (set_db_connections (db_connections db ++ [row]) db).
Proof.
  intros [a1 a2 a3] Hp Hm Ht. split.
  - intros [w1 w2 w3 w4 w5 w6]. split; cbn; [| done | done | | done |].
    + rewrite map_app. apply NoDup_app. split; [done|]. split; [|apply NoDup_singleton]. by intros x Hx ->%list_elem_of_singleton.
    + intros c d [Hc| ->%list_elem_of_singleton]%elem_of_app Hd Ho; [by apply w4|]. by destruct (a2 d Hd).
    + intros c [Hc| ->%list_elem_of_singleton]%elem_of_app Hs; [by apply w6|]. by rewrite Hp in Hs.
  - intros id Hid [b1 b2 b3]. split; cbn; [|done|done]. rewrite map_app. intros [?|He%list_elem_of_singleton]%elem_of_app; [done|].
    by rewrite He in Hid.
  - intros k c _ E c' E'. unfold conn_at in *. cbn in E'. rewrite (find_row_app _ _ _ _ E) in E'. injection E' as <-. constructor.
  - intros k Hk E. unfold conn_at in *. cbn. rewrite (find_row_app_none _ _ _ E). unfold has_connection_id.
    destruct (jeqb_spec (c_connection_id row) k) as [<-|]; [done|done].
Qed.

Lemma evolves_vault db vault : find_row (has_vault_id (v_vault_id vault)) (db_vaults db) = None → ¬ mine (v_vault_id vault) →
  evolves db (set_db_vaults (db_vaults db ++ [vault]) db).
Proof.
  intros Hf Hm. split.
  - intros [w1 w2 w3 w4 w5 w6]. split; cbn; [done|done| |done|done|done].
    rewrite map_app. apply NoDup_app. split; [done|]. split; [|apply NoDup_singleton]. intros x Hx ->%list_elem_of_singleton.
    apply list_elem_of_In, in_map_iff in Hx as (y & Ey & Hy%list_elem_of_In).
    pose proof (find_row_None _ _ _ Hf Hy) as Hn. unfold has_vault_id in Hn. rewrite Ey, jeqb_refl in Hn. done.
  - intros id Hid [b1 b2 b3]. split; cbn; [done|done|]. rewrite map_app. intros [?|He%list_elem_of_singleton]%elem_of_app; [done|].
    by rewrite He in Hid.
  - intros k c _ E c' E'. unfold conn_at in *. cbn in E'. rewrite E in E'. injection E' as <-. constructor.
  - done.
Qed.

Lemma consume_elem id secret v d ts rows c x : find_row (authenticates id secret) rows = Some c →
  NoDup (map c_connection_id rows) → x ∈ update_first (authenticates id secret) (consume v d ts) rows →
  x = consume v d ts c ∨ x ∈ rows ∧ c_connection_id x ≠ id.
Proof.
  intros Hf Hn Hx.
  assert (c ∈ rows ∧ c_connection_id c = id) as [Hc Hid].
  { apply find_row_Some in Hf as [? ?%authenticates_id]. done. }
  assert (map c_connection_id (update_first (authenticates id secret) (consume v d ts) rows) = map c_connection_id rows) as Em.
  { clear. induction rows as [|y rows IH]; cbn; [done|]. destruct (authenticates id secret y); cbn; [done|by rewrite IH]. }
  assert (consume v d ts c ∈ update_first (authenticates id secret) (consume v d ts) rows) as Hin.
  { clear -Hf. unfold find_row in Hf. induction rows as [|y rows IH]; cbn in *; [done|].
    destruct (authenticates id secret y); [injection Hf as ->; by left|right; auto]. }
  destruct (decide (c_connection_id x = id)) as [E|E].
  - left. apply (key_unique c_connection_id (update_first (authenticates id secret) (consume v d ts) rows)); [by rewrite Em|done|done|].
    cbn. congruence.
  - right. split; [|done]. destruct (update_first_elem _ _ _ _ Hx) as [|(y & Hy & Ha & ->)]; [done|]. by apply authenticates_id in Ha.
Qed.

Lemma consume_progress id secret v d ts rows : (∀ c, find_row (authenticates id secret) rows = Some c → c_status c = CApproved) →
  Forall2 progress rows (update_first (authenticates id secret) (consume v d ts) rows).
Proof.
  unfold find_row. induction rows as [|y rows IH]; cbn; intros H; [constructor|].
  assert (Forall2 progress rows rows) as Hr by (clear; induction rows; constructor; [constructor|done]).
  destruct (authenticates id secret y); constructor; [|done|constructor|by apply IH].
  apply rtc_once. by eapply edge_consume; [apply H|].
Qed.

Lemma progress_find k l l' : Forall2 progress l l' →
  match find_row (has_connection_id k) l, find_row (has_connection_id k) l' with
  | Some c, Some c' => progress c c'
  | None, None => True
  | _, _ => False
  end.
Proof.
  unfold find_row. induction 1 as [|c c' l l' H _ IH]; [done|]. cbn. unfold has_connection_id in *.
  rewrite (si_id _ _ (progress_identity _ _ H)). by destruct (_ =s? _).
Qed.

(** A device and the connection it consumes. *)
Lemma evolves_device db db' id secret v ts c d : find_row (authenticates id secret) (db_connections db) = Some c → c_status c = CApproved →
  absent (d_device_id d) db → ¬ mine (d_device_id d) →
  d_vault_id d = v → c_approved_user_id c = Some (d_user_id d) → d_onboarding_connection_id d = Some (c_connection_id c) →
  db_devices db' = db_devices db ++ [d] → db_vaults db' = db_vaults db →
  db_connections db' = update_first (authenticates id secret) (consume v (d_device_id d) ts) (db_connections db) →
  evolves db db'.
Proof.
  intros Hf Hs [a1 a2 a3] Hm Hv Hu Ho Ed Ev Ec.
  pose proof (find_row_Some _ _ _ Hf) as [Hc Hid%authenticates_id].
  assert (Forall2 progress (db_connections db) (db_connections db')) as Hp.
  { rewrite Ec. apply consume_progress. intros c' Hc'. rewrite Hf in Hc'. by injection Hc' as <-. }
  assert (map c_connection_id (db_connections db') = map c_connection_id (db_connections db)) as Em.
  { clear -Hp. induction Hp as [|x y l l' H _ IH]; [done|]. cbn. by rewrite IH, (si_id _ _ (progress_identity _ _ H)). }
  split.
  - intros [w1 w2 w3 w4 w5 w6].
    assert (∀ x, x ∈ db_devices db → d_onboarding_connection_id x ≠ Some id) as Hfree.
    { intros x Hx E. destruct (w4 c x Hc Hx) as [H _]; [by rewrite E, Hid|]. by rewrite Hs in H. }
    split.
    + by rewrite Em.
    + rewrite Ed, map_app. apply NoDup_app. split; [done|]. split; [|apply NoDup_singleton]. intros x Hx ->%list_elem_of_singleton.
      apply list_elem_of_In, in_map_iff in Hx as (y & Ey & Hy%list_elem_of_In). by destruct (a2 y Hy).
    + by rewrite Ev.
    + intros x y Hx Hy Hxy. rewrite Ec in Hx. rewrite Ed in Hy.
      destruct (consume_elem _ _ _ _ _ _ _ _ Hf w1 Hx) as [->|[Hx' Hne]].
      * apply elem_of_app in Hy as [Hy| ->%list_elem_of_singleton].
        -- destruct (Hfree y Hy). by rewrite Hxy, <- Hid.
        -- split; [done|]. split; [done|]. split; [cbn; by rewrite Hv|done].
      * apply elem_of_app in Hy as [Hy| ->%list_elem_of_singleton]; [by apply w4|]. rewrite Ho in Hxy. injection Hxy as Hxy. congruence.
    + intros x y k Hx Hy Ex Ey. rewrite Ed in Hx, Hy.
      apply elem_of_app in Hx as [Hx| ->%list_elem_of_singleton]; apply elem_of_app in Hy as [Hy| ->%list_elem_of_singleton].
      * by eapply w5.
      * destruct (Hfree x Hx). congruence.
      * destruct (Hfree y Hy). congruence.
      * done.
    + intros x Hx. rewrite Ec in Hx. destruct (consume_elem _ _ _ _ _ _ _ _ Hf w1 Hx) as [->|[Hx' _]]; [done|by apply w6].
  - intros k Hk [b1 b2 b3]. split; [by rewrite Em| |by rewrite Ev]. intros x Hx. rewrite Ed in Hx.
    apply elem_of_app in Hx as [Hx| ->%list_elem_of_singleton]; [by apply b2|]. split; [congruence|].
    rewrite Ho. intros [= E]. destruct b1. rewrite <- E. apply list_elem_of_In, in_map. by apply list_elem_of_In.
  - intros k x _ E x' E'. pose proof (progress_find k _ _ Hp) as H. unfold conn_at in *. by rewrite E, E' in H.
  - intros k _ E. pose proof (progress_find k _ _ Hp) as H. unfold conn_at in *. rewrite E in H.
    destruct (find_row _ (db_connections db')); [destruct H|done].
Qed.

Lemma evolves_completion id secret token vaultId rootCommit deviceId ts mode proposal w db vault device tokenId c db' :
  enrollment id secret token vaultId rootCommit deviceId ts mode proposal w db vault device tokenId c db' →
  absent deviceId db → ¬ mine deviceId → (is_Some (c_new_vault_display_name c) → deviceId ≠ vaultId ∧ ¬ mine vaultId) →
  evolves db db'.
Proof.
  intros [Hf Hs Hx Hk (Hv1 & Hv2 & Hv3) -> Hv Hd _ Hc _] Ha Hm Hn.
  pose proof (find_row_Some _ _ _ Hf) as [_ Hid%authenticates_id].
  assert (∀ db1, evolves db db1 → db_connections db1 = db_connections db → db_devices db1 = db_devices db →
    db_vaults db' = db_vaults db1 → absent deviceId db1 → evolves db db') as Hlast.
  { intros db1 H1 E1 E2 E3 Ha1. etrans; [exact H1|].
    apply (evolves_device db1 db' id secret vaultId ts c (new_device deviceId ts c vault mode proposal)); rewrite ?E1, ?E2, ?Hd; try done. }
  destruct Hv as [[_ E]|(Hnone & E & name & En & _)].
  - by apply (Hlast db).
  - destruct Hn as [Hne Hmv]; [by exists name|].
    apply (Hlast (set_db_vaults (db_vaults db ++ [vault]) db)); [|done|done|by rewrite E|].
    + apply evolves_vault; by rewrite Hv1.
    + destruct Ha as [a1 a2 a3]. split; [done|done|]. cbn. rewrite map_app.
      intros [?|He%list_elem_of_singleton]%elem_of_app; [done|]. by rewrite Hv1 in He.
Qed.

End additions.
