(* ===== verification/ConnectionRuns.v ===== *)
(** * What the methods of the connection service do in a run (proofs about Connections.v)

    The state the calls act on, what each call may do - fail, before or after it took
    effect, included - and the methods as citizens of [evolves]: each keeps what the
    others rely on, and a completion that answers has enrolled the device it names. *)

From S2P Require Export ConnectionSafety.

Local Open Scope nat_scope.

Record room := mk_room { rm_db : MetadataDb; rm_limits : RateLimits }.

Definition fails {A} (r : result A) : Prop := ∃ e, r = Throw e.

Section calls.
Context `{D : Dates} `{C : Crypto} `{H : Hmac} (mine : jstring → Prop).

(** The identifiers a method draws are new, and no other request draws them. *)
Definition draws (w : World) (db : MetadataDb) : Prop :=
  ∀ id, id ∈ [fresh_connection_id w; new_id w 0 "vlt"; new_id w 1 "dev"] → mine id ∧ absent id db.

Definition call_step (B : Type) (c : call B) (s : room) : result B → room → Prop :=
  match c in call B return result B → room → Prop with
  | Ambient => λ r s', s' = s ∧ ∃ w, r = Ok w ∧ draws w (rm_db s)
  | Snapshot => λ r s', s' = s ∧ (r = Ok (rm_db s) ∨ fails r)
  | Mutate fn => λ r s', fails r ∧ s' = s ∨
      ∃ w, let limits := (fn w (rm_limits s) (rm_db s)).2 in
           match run w (λ db, (fn w (rm_limits s) db).1) (rm_db s) with
           | (Ok a, db) => (r = Ok a ∨ fails r) ∧ s' = mk_room db limits ∨ fails r ∧ s' = mk_room (rm_db s) limits
           | (Throw e, _) => r = Throw e ∧ s' = mk_room (rm_db s) limits
           end
  | LimitCreation origin => λ r s', ∃ now,
      match enforceCreationLimit now origin (creationLimits (rm_limits s)) with
      | Some creations => r = Ok () ∧ s' = mk_room (rm_db s) (mk_RateLimits creations (pollLimits (rm_limits s)))
      | None => r = Throw creation_limited ∧ s' = s
      end
  | AcquireAdmission vault => λ r s', s' = s
  | ReleaseAdmission vault => λ r s', s' = s ∧ r = Ok ()
  | ReserveVaultCreation vault => λ r s', s' = s
  | ReleaseVaultCreation vault => λ r s', s' = s ∧ r = Ok ()
  | InitializeVault vault => λ r s', s' = s
  | CommitExists vault commit => λ r s', s' = s
  | IsAncestor vault a b => λ r s', s' = s
  | RootIgnoreOid vault commit => λ r s', s' = s
  | ListTreePaths vault commit => λ r s', s' = s
  | ExportPack vault commit => λ r s', s' = s
  end.

(** ** Rules *)

(** [others] are the requests in between; [theirs] what one of them counts on. *)
Context (tracked theirs : jstring → Prop) (others : room → room → Prop) `{!PreOrder others} (s0 : room).
Hypothesis others_mine : ∀ s s', others s s' → evolves tracked mine (rm_db s) (rm_db s').
Hypothesis others_theirs : ∀ s s', others s s' → evolves tracked theirs (rm_db s) (rm_db s').
Hypothesis apart : ∀ id, mine id → ¬ theirs id ∧ ¬ tracked id.

Definition kept (s : room) : Prop := evolves tracked theirs (rm_db s0) (rm_db s).

Local Abbreviation hoare := (hoare call_step others kept).
Local Abbreviation quiet := (quiet call_step others kept).
Local Abbreviation Assertion := (Assertion others kept).

#[export] Instance kept_stable : Stable others kept.
Proof. intros s s' Hr Hk. unfold kept in *. etrans; [exact Hk|by apply others_theirs]. Qed.
#[export] Instance kept_assertion : Assertion kept.
Proof. split; [apply _|done]. Qed.

Lemma is_kept P `{HP : !Assertion P} s : P s → kept s.
Proof. destruct HP as [_ Hk]. apply Hk. Qed.

(** What is stably the case beside [kept]. *)
#[export] Instance and_assertion P Q : Assertion P → Stable others Q → Assertion (λ s, P s ∧ Q s).
Proof. intros [HP HI] HQ. split; [apply _|]. by intros s []; apply HI. Qed.

Section rules.
Context (P : room → Prop) `{!Assertion P}.

(** Calls that change nothing. *)
Lemma quiet_still {A} (c : call A) : (∀ s r s', call_step _ c s r s' → s' = s) → quiet P (perform c).
Proof.
  intros Hc. apply hoare_call; [apply _| |intros; apply _|apply _]. intros s r s' Hs Hr. rewrite (Hc _ _ _ Hr). by destruct r.
Qed.

Lemma hoare_snapshot (R : MetadataDb → room → Prop) : (∀ db, Assertion (R db)) → (∀ s, P s → R (rm_db s) s) →
  hoare P snapshot R P.
Proof.
  intros HR HPR. apply hoare_call; [apply _| |done|apply _]. intros s r s' Hs [-> [->|[e ->]]]; [by apply HPR|done].
Qed.

Lemma hoare_ambient (R : World → room → Prop) : (∀ w, Assertion (R w)) → (∀ s w, P s → draws w (rm_db s) → R w s) →
  hoare P ambient R P.
Proof. intros HR HPR. apply hoare_call; [apply _| |done|apply _]. intros s r s' Hs (-> & w & -> & Hw). by apply HPR. Qed.

Lemma hoare_mutate_job {A} (fn : job A) (R : A → room → Prop) (E : room → Prop) : (∀ a, Assertion (R a)) → Assertion E →
  (∀ s limits, P s → P (mk_room (rm_db s) limits)) → (∀ s, P s → E s) →
  (∀ s w limits limits' a db h, P s → fn w limits (rm_db s) = (Ok (a, db), limits') →
     R a (mk_room (committed h db) limits') ∧ E (mk_room (committed h db) limits')) →
  hoare P (mutate fn) R E.
Proof.
  intros HR HE HP HPE Hf. apply hoare_call; [apply _| |done|done]. intros s r s' Hs Hr.
  destruct Hr as [[[e ->] ->]|(w & Hr)]; [auto|]. cbv zeta in Hr.
  destruct (run_cases w (λ db, (fn w (rm_limits s) db).1) (rm_db s)) as [(e & _ & Er)|(a & db & h & Ef & Er)]; rewrite Er in Hr.
  - destruct Hr as [-> ->]. auto.
  - destruct (fn w (rm_limits s) (rm_db s)) as [body limits'] eqn:Efn. cbn [fst] in Ef. subst body. cbn [snd] in Hr.
    destruct (Hf s w (rm_limits s) limits' a db h Hs Efn). destruct Hr as [[[-> |[e ->]] ->]|[[e ->] ->]]; auto.
Qed.

End rules.

(** What survives a step of this request: it moves rows along. *)
Class Robust (P : room → Prop) := robust s limits db : P s → kept s → moves_rows (rm_db s) db → P (mk_room db limits).

#[export] Instance kept_robust : Robust kept.
Proof. intros s limits db Hs _ Hm. unfold kept in *. etrans; [exact Hs|]. by apply moves_rows_evolves. Qed.

Lemma kept_limits (P : room → Prop) `{!Robust P} s limits : P s → kept s → P (mk_room (rm_db s) limits).
Proof. intros Hs Hk. apply (robust s); [done|done|reflexivity]. Qed.

Lemma quiet_moves {A} P `{!Assertion P} `{!Robust P} (fn : job A) :
  (∀ w limits db a db' limits', fn w limits db = (Ok (a, db'), limits') → moves_rows db db') → quiet P (mutate fn).
Proof.
  intros Hf. assert (∀ s, P s → kept s) as Hk by (intros s Hs; by apply (is_kept P)). apply (hoare_mutate_job P fn (λ _, P) P); [intros; apply _|apply _| |done|].
  - intros s limits Hs. apply (kept_limits P); [done|by apply Hk].
  - intros s w limits limits' a db h Hs E. assert (P (mk_room (committed h db) limits')); [|done].
    apply (robust s); [done|by apply Hk|]. etrans; [by eapply Hf|apply committed_moves].
Qed.

Lemma hoare_then {A B} P (m : service A) (f : A → service B) R' R E `{!Assertion E} :
  hoare P m R' E → (∀ a, hoare (R' a) (f a) R E) → hoare P (m ≫= f) R E.
Proof. intros Hm Hf. by eapply hoare_bind. Qed.

(** Brackets. *)
#[export] Instance never_assertion : Assertion (λ _, False).
Proof. split; [by intros s s' _|done]. Qed.

Lemma hoare_sure P `{!Assertion P} (c : call unit) : (∀ s r s', call_step _ c s r s' → s' = s ∧ r = Ok ()) →
  hoare P (perform c) (λ _, P) (λ _, False).
Proof. intros Hc. apply hoare_call; [apply _| |intros; apply _|apply _]. intros s r s' Hs Hr. by apply Hc in Hr as [-> ->]. Qed.

Lemma hoare_finally {A} P (m : service A) (c : call unit) (R : A → room → Prop) E : (∀ a, Assertion (R a)) → Assertion E →
  (∀ s r s', call_step _ c s r s' → s' = s ∧ r = Ok ()) → hoare P m R E → hoare P (try_finally m (perform c)) R E.
Proof.
  intros HR HE Hc Hm. unfold try_finally. eapply hoare_after; [apply _|exact Hm| |]; [intros a|intros e].
  - eapply hoare_after; [apply _|by apply (hoare_sure (R a))| |intros e s []]. intros []. by apply (hoare_ret _ _ _ (R a)).
  - eapply hoare_after; [apply _|by apply (hoare_sure E)| |intros e' s []]. intros []. by apply (hoare_throw _ _ _ E).
Qed.

Lemma hoare_withAdmission {A} P `{!Assertion P} vault (m : service A) (R : A → room → Prop) : (∀ a, Assertion (R a)) →
  hoare P m R P → hoare P (withAdmission vault m) R P.
Proof.
  intros HR Hm. unfold withAdmission. apply hoare_then with (R' := λ _, P); [apply _|by apply quiet_still|]. intros ?.
  apply hoare_finally; [done|apply _| |done]. by intros s r s' [-> ->].
Qed.

Lemma hoare_withOwnerVault {A} P `{!Assertion P} user vault (m : service A) (R : A → room → Prop) : (∀ a, Assertion (R a)) →
  hoare P m R P → hoare P (withOwnerVault user vault m) R P.
Proof.
  intros HR Hm. apply hoare_withAdmission; [apply _|done|].
  apply hoare_then with (R' := λ _, P); [apply _|by apply (hoare_snapshot P); [intros; apply _|]|]. intros db.
  apply hoare_then with (R' := λ _, P); [apply _|by apply (quiet_lift _ _ _ P)|]. intros ?. exact Hm.
Qed.

(** ** Methods that enroll nothing *)

#[export] Instance reserved_stable id : Stable others (λ s, mine id ∧ absent id (rm_db s)).
Proof. intros s s' Hr [Hm Ha]. split; [done|]. by apply (ev_absent _ _ _ _ (others_mine _ _ Hr)). Qed.

Lemma quiet_status_internal id secret origin : quiet kept (statusInternal id secret origin).
Proof. apply quiet_moves; [apply _|apply _|]. intros. by eapply moves_status. Qed.

Lemma quiet_plain {A} (fn : transaction A) : (∀ w db a db', fn w db = Ok (a, db') → moves_rows db db') → quiet kept (mutate (plain fn)).
Proof. intros Hf. apply quiet_moves; [apply _|apply _|]. intros w limits db a db' limits' [= Ha _]. by eapply Hf. Qed.

Ltac step_quietly :=
  first
  [ apply (quiet_ret _ _ _ kept) | apply (quiet_throw _ _ _ kept) | apply (quiet_lift _ _ _ kept)
  | apply quiet_status_internal
  | apply (hoare_withOwnerVault kept); [intros; apply _|]
  | apply (hoare_snapshot kept (λ _, kept)); [intros; apply _|done]
  | apply (hoare_ambient kept (λ _, kept)); [intros; apply _|done]
  | apply (quiet_still kept); done
  | eapply (hoare_then kept) with (R' := λ _, kept); [apply _| |intros ?] ].
Ltac quietly := repeat step_quietly.

Lemma quiet_status lifecycle id secret origin : quiet kept (status lifecycle id secret origin).
Proof.
  unfold status. destruct lifecycle; cbn [negb]; quietly. cbv zeta.
  destruct (match c_selected_vault_id _ with Some _ => _ | None => _ end) as [[|t target]|]; [quietly| |quietly].
  destruct (match c_approved_user_id _ with Some _ => _ | None => _ end) as [[|u owner]|]; [quietly| |quietly].
  quietly. destruct (negb _); quietly.
Qed.

Lemma quiet_approve lifecycle input : quiet kept (approve lifecycle input).
Proof.
  assert (quiet kept (mutate (plain (approve_tx input)))) as Ht by (apply quiet_plain; intros; by eapply moves_approve).
  unfold approve. destruct (ap_selection input); [exact Ht|]. destruct (ap_vaultId input) as [[|t target]|]; [exact Ht| |exact Ht].
  destruct lifecycle; [|exact Ht]. step_quietly. eapply (hoare_then kept) with (R' := λ _, kept); [apply _|exact Ht|]. intros ?.
  quietly. destruct (hasDurableDeletionRecord _ _); quietly.
Qed.

Lemma quiet_deny id user : quiet kept (deny id user).
Proof. apply quiet_plain. intros. by eapply moves_deny. Qed.
Lemma quiet_review id : quiet kept (review id).
Proof. apply quiet_plain. intros. by eapply moves_review. Qed.
Lemma quiet_diagnostics id secret : quiet kept (authenticateDiagnostics id secret).
Proof. apply quiet_plain. intros. by eapply moves_diagnostics. Qed.

Lemma quiet_build_metadata db c vault root main : quiet kept (build_metadata db c vault root main).
Proof. unfold build_metadata. quietly. destruct (negb _); quietly. destruct (negb _); quietly. Qed.

Lemma quiet_bootstrapMetadata lifecycle id secret : quiet kept (bootstrapMetadata lifecycle id secret).
Proof.
  unfold bootstrapMetadata. eapply (hoare_then kept) with (R' := λ _, kept); [apply _| |].
  { apply quiet_plain. intros. by eapply moves_bootstrap. }
  intros [db c]. destruct (_ || _); [quietly|]. quietly. destruct (v_status _); [|quietly|quietly].
  destruct (v_root_commit _) as [[|r root]|]; [quietly| |quietly]. quietly. cbv zeta.
  destruct lifecycle; [step_quietly|]; apply quiet_build_metadata.
Qed.

Lemma quiet_bootstrap lifecycle id secret : quiet kept (bootstrap lifecycle id secret).
Proof.
  unfold bootstrap. eapply (hoare_then kept) with (R' := λ _, kept); [apply _|apply quiet_bootstrapMetadata|]. intros metadata.
  destruct lifecycle; quietly.
Qed.

Lemma quiet_create base input origin : quiet kept (create base input origin).
Proof.
  unfold create. eapply (hoare_then kept) with (R' := λ _, kept); [apply _| |intros ?].
  { apply hoare_call; [apply _| |intros; apply _|apply _]. intros s r s' Hs (now & Hl).
    destruct (enforceCreationLimit _ _ _); destruct Hl as [-> ->]; [|done]. by apply (kept_limits kept). }
  eapply (hoare_then kept) with (R' := λ w s, kept s ∧ mine (fresh_connection_id w) ∧ absent (fresh_connection_id w) (rm_db s)); [apply _| |].
  { apply (hoare_ambient kept); [intros; apply _|]. intros s w Hs Hw. split; [done|]. apply Hw. by left. }
  intros w. eapply hoare_then with (R' := λ _, kept); [apply _| |intros ?; quietly].
  apply hoare_mutate_job; [apply _|intros; apply _|apply _| |by intros s []|].
  { intros s limits [Hs Hw]. split; [|done]. by apply (kept_limits kept). }
  intros s w' limits limits' u db h [Hs [Hm Hfresh]] [= <- <- <-].
  set (db1 := set_db_connections (expireConnections w' (db_connections (rm_db s))) (rm_db s)).
  assert (moves_rows (rm_db s) db1) as Hmv by apply moves_expire.
  assert (∀ db2, evolves tracked theirs db1 db2 → kept (mk_room (committed h db2) limits)) as Hk.
  { intros db2 H2. unfold kept in *. etrans; [exact Hs|]. etrans; [by apply moves_rows_evolves|]. etrans; [exact H2|].
    apply moves_rows_evolves, committed_moves. }
  destruct (apart _ Hm) as [Hnt Hnk].
  assert (absent (fresh_connection_id w) db1) as Ha1 by exact (ev_absent _ _ _ _ (moves_rows_evolves tracked mine _ _ Hmv) _ Hm Hfresh).
  split; apply Hk; (apply (evolves_register tracked theirs db1); [exact Ha1|reflexivity|exact Hnt|exact Hnk]).
Qed.

(** ** Completions *)

(** A device that came by the connection, with everything it needs. *)
Record enrolled_as (id secret user vault device token : jstring) (mode : OnboardingMode) (db : MetadataDb) : Prop := {
  ea_row : ∃ c, conn_at id db = Some c ∧ authenticates id secret c = true ∧ c_status c = CConsumed ∧
    c_created_device_id c = Some device ∧ c_approved_user_id c = Some user ∧ token = deriveDeviceToken secret (c_credential_salt c);
  ea_device : ∃ d, d ∈ db_devices db ∧ d_device_id d = device ∧ d_vault_id d = vault ∧ d_user_id d = user ∧
    d_onboarding_connection_id d = Some id ∧ d_onboarding_mode d = Some mode ∧ isDeviceRevoked d = false;
  ea_token : ∃ t, t ∈ db_tokens db ∧ t_kind t = TokDevice ∧ t_device_id t = Some device ∧ t_vault_id t = Some vault ∧
    t_user_id t = user ∧ t_revoked_at t = None ∧ t_consumed_at t = None ∧ t_token_hash t = (hashToken token).2;
  ea_vault : ∃ v, find_row (has_vault_id vault) (db_vaults db) = Some v ∧ v_owner_user_id v = user ∧ v_status v = VActive;
  ea_kept : hasDurableDeletionRecord db vault = false
}.

(** The rows a response shows. *)
Definition shown (response : CompleteConnectionResponse) (db : MetadataDb) : Prop :=
  ∃ v d, find_row (has_vault_id (co_vault_id response)) (db_vaults db) = Some v ∧
    find_row (has_device_id (co_device_id response)) (db_devices db) = Some d ∧
    responseFor v d (co_device_token response) (co_mode response) = Ok response.

Definition enrolled_response (id secret : jstring) (response : CompleteConnectionResponse) : MetadataDb → Prop :=
  enrolled_as id secret (co_user_id response) (co_vault_id response) (co_device_id response) (co_device_token response) (co_mode response).

(** At some moment the device was enrolled, and later the response was what the rows said. *)
Definition answered (id secret : jstring) (response : CompleteConnectionResponse) (s : room) : Prop :=
  ∃ s1 s2, kept s1 ∧ enrolled_response id secret response (rm_db s1) ∧ others s1 s2 ∧ shown response (rm_db s2) ∧ others s2 s.

#[export] Instance answered_assertion id secret response : Assertion (answered id secret response).
Proof.
  split.
  - intros s s' Hr (s1 & s2 & H1 & H2 & H3 & H4 & H5). exists s1, s2. by split_and!; try etrans.
  - intros s (s1 & s2 & H1 & _ & H3 & _ & H5). eapply kept_stable; [exact H5|]. by eapply kept_stable.
Qed.

Context (well0 : well_kept (rm_db s0)) (id : jstring) (known : tracked id) (secret : jstring).

Lemma kept_well s : kept s → well_kept (rm_db s).
Proof. intros H1. by apply (ev_kept _ _ _ _ H1). Qed.

(** The row has only moved along since it was [c]. *)
Definition since (c : ConnectionRequestRow) (s : room) : Prop := ∀ c', conn_at id (rm_db s) = Some c' → progress c c'.
Definition salted (salt : jstring) (s : room) : Prop := ∀ c', conn_at id (rm_db s) = Some c' → c_credential_salt c' = salt.

#[export] Instance since_stable c : Stable others (since c).
Proof.
  intros s s' Hr Hs c' E'. destruct (conn_at id (rm_db s)) as [c1|] eqn:E.
  - etrans; [by apply Hs|]. by apply (ev_row _ _ _ _ (others_theirs _ _ Hr) _ _ known E).
  - rewrite (ev_gone _ _ _ _ (others_theirs _ _ Hr) _ known E) in E'. discriminate E'.
Qed.
#[export] Instance salted_stable salt : Stable others (salted salt).
Proof.
  intros s s' Hr Hs c' E'. destruct (conn_at id (rm_db s)) as [c1|] eqn:E.
  - pose proof (ev_row _ _ _ _ (others_theirs _ _ Hr) _ _ known E _ E') as Hp. rewrite (si_salt _ _ (progress_identity _ _ Hp)). by apply Hs.
  - rewrite (ev_gone _ _ _ _ (others_theirs _ _ Hr) _ known E) in E'. discriminate E'.
Qed.

(** With unique identifiers, the secret finds the connection's row. *)
Lemma found_conn_at db c : well_kept db → find_row (authenticates id secret) (db_connections db) = Some c → conn_at id db = Some c.
Proof.
  intros Hw Hf. pose proof (find_row_Some _ _ _ Hf) as [Hin Ha]. apply authenticates_id in Ha.
  unfold conn_at. destruct (find_row (has_connection_id id) _) as [c'|] eqn:E.
  - f_equal. apply find_row_Some in E as [Hin' Hid%jeqb_eq]. apply (key_unique c_connection_id (db_connections db)); [apply Hw|done|done|congruence].
  - pose proof (find_row_None _ _ _ E Hin) as Hn. unfold has_connection_id in Hn. rewrite Ha, jeqb_refl in Hn. discriminate Hn.
Qed.

Lemma authenticated_found now db c : authenticated now id secret db = Ok c →
  ∃ c0, find_row (authenticates id secret) (db_connections db) = Some c0 ∧ c = lapse now c0.
Proof.
  unfold authenticated. intros H1. apply fmap_Ok in H1 as ([c1 l] & E & ->).
  apply authenticated_row in E as (c0 & Hf & -> & _). by exists c0.
Qed.

Lemma lapse_salt now c : c_credential_salt (lapse now c) = c_credential_salt c.
Proof. unfold lapse. by destruct (_ && _). Qed.

Lemma lapse_consumed now c : c_status (lapse now c) = CConsumed → lapse now c = c.
Proof. unfold lapse. case_bool_decide as Hc; cbn [negb andb]; [done|]. by destruct (parsed_le _ _). Qed.

(** What an existing completion answers is true of the document. *)
Lemma existing_enrolled now token db c response : well_kept db → authenticated now id secret db = Ok c →
  token = deriveDeviceToken secret (c_credential_salt c) → existing_completion token db c = Ok (Some response) →
  enrolled_response id secret response db ∧ shown response db.
Proof.
  intros Hw Ha Ht He. apply authenticated_found in Ha as (c0 & Hf & ->). rewrite lapse_salt in Ht.
  pose proof (found_conn_at _ _ Hw Hf) as Hat. pose proof (find_row_Some _ _ _ Hf) as [Hin Hau].
  pose proof (authenticates_id _ _ _ Hau) as Hid.
  unfold existing_completion in He. case_bool_decide as Hs; cbn [negb] in He; [|discriminate He].
  pose proof (lapse_consumed _ _ Hs) as El. rewrite El in He, Hs. clear El.
  destruct (enrolled_device c0 db) as [d|] eqn:Ed; [|discriminate He].
  destruct (vault_of d db) as [v|] eqn:Ev; [|discriminate He].
  destruct (d_onboarding_mode d) as [mode|] eqn:Em; [|discriminate He].
  destruct (negb (otruthy (v_root_commit v))); [discriminate He|].
  destruct (negb (bool_decide (v_status v = VActive)) || hasDurableDeletionRecord db (v_vault_id v)) eqn:Es; [discriminate He|].
  destruct (onboarded c0 token db d v) eqn:Eo; cbn [negb] in He; [|discriminate He].
  apply fmap_Ok in He as (r & Er & [= <-]).
  apply orb_false_iff in Es as [Es Edel]. apply negb_false_iff, bool_decide_eq_true in Es.
  pose proof (find_row_Some _ _ _ Ed) as [Hdin Hdc]. pose proof (find_row_Some _ _ _ Ev) as [Hvin Hvd%jeqb_eq].
  assert (c_created_device_id c0 = Some (d_device_id d)) as Hcreated.
  { destruct (c_created_device_id c0) as [x|]; [|discriminate Hdc]. apply jeqb_eq in Hdc. by rewrite Hdc. }
  unfold onboarded in Eo. repeat (apply andb_true_iff in Eo as [Eo ?]).
  assert (c_approved_user_id c0 = Some (d_user_id d)) as Happ.
  { match goal with Hx : oeqb (c_approved_user_id c0) _ = true |- _ => destruct (c_approved_user_id c0); [apply jeqb_eq in Hx; by rewrite Hx|discriminate Hx] end. }
  assert (d_onboarding_connection_id d = Some id) as Honb.
  { match goal with Hx : oeqb (d_onboarding_connection_id d) _ = true |- _ =>
      destruct (d_onboarding_connection_id d); [apply jeqb_eq in Hx; by rewrite Hx, Hid|discriminate Hx] end. }
  assert (d_user_id d = v_owner_user_id v) as Hown by by apply jeqb_eq.
  unfold responseFor in Er. destruct (v_root_commit v) as [[|x root]|] eqn:Eroot; [discriminate Er| |discriminate Er]. injection Er as <-.
  split.
  - split; cbn [co_user_id co_vault_id co_device_id co_device_token co_mode].
    + by exists c0.
    + exists d. split_and!; try done. unfold isDeviceRevoked.
      match goal with Hx : negb (bool_decide (d_status d = DRevoked)) = true |- _ => apply negb_true_iff in Hx; rewrite Hx end.
      match goal with Hx : is_null_or (d_revoked_at d) = true |- _ => by rewrite Hx end.
    + apply existsb_exists in Eo as (t & Htin & Htok). exists t. rewrite list_elem_of_In. split; [done|].
      unfold is_device_token in Htok. repeat (apply andb_true_iff in Htok as [Htok ?]).
      repeat match goal with
      | Hx : oeqb (t_device_id t) _ = true |- _ => destruct (t_device_id t); [apply jeqb_eq in Hx; subst|discriminate Hx]
      | Hx : oeqb (t_vault_id t) _ = true |- _ => destruct (t_vault_id t); [apply jeqb_eq in Hx; subst|discriminate Hx]
      | Hx : is_null_or (t_revoked_at t) = true |- _ => destruct (t_revoked_at t); [discriminate Hx|]
      | Hx : is_null_or (t_consumed_at t) = true |- _ => destruct (t_consumed_at t); [discriminate Hx|]
      | Hx : (t_user_id t =s? _) = true |- _ => apply jeqb_eq in Hx
      | Hx : (t_token_hash t =s? _) = true |- _ => apply jeqb_eq in Hx
      end. apply bool_decide_eq_true in Htok. by split_and!.
    + exists v. split_and!; [|done|done]. unfold vault_of in Ev. by rewrite Hvd.
    + done.
  - exists v, d. cbn [co_user_id co_vault_id co_device_id co_device_token co_mode]. split_and!.
    + unfold vault_of in Ev. by rewrite Hvd.
    + unfold enrolled_device in Ed. rewrite Hcreated in Ed. exact Ed.
    + unfold responseFor. by rewrite Eroot.
Qed.

(** ** The enrolment itself *)

Lemma is_new_device deviceId ts c v mode proposal : d_device_id (new_device deviceId ts c v mode proposal) = deviceId.
Proof. done. Qed.

Lemma deletion_record_vaults db db' vaultId :
  db_deletion_jobs db' = db_deletion_jobs db → db_deletion_receipts db' = db_deletion_receipts db →
  (∀ v, v ∈ db_vaults db' → v ∈ db_vaults db ∨ v_status v ≠ VDeleting) →
  hasDurableDeletionRecord db vaultId = false → hasDurableDeletionRecord db' vaultId = false.
Proof.
  intros Hj Hr Hv H1. unfold hasDurableDeletionRecord in *. rewrite Hj, Hr. apply orb_false_iff in H1 as [[H1 H2]%orb_false_iff H3].
  rewrite H2, H3, !orb_false_r. apply not_true_iff_false. intros (v & Hin & Hd)%existsb_exists.
  apply list_elem_of_In in Hin. destruct (Hv v Hin) as [Hin'|Hn].
  - apply not_true_iff_false in H1. destruct H1. apply existsb_exists. exists v. by rewrite <- list_elem_of_In.
  - apply andb_true_iff in Hd as [_ Hd%bool_decide_eq_true]. done.
Qed.

Lemma repaired_elem db h d : d ∈ db_devices db → needs_repair d = false → d ∈ db_devices (committed h db).
Proof.
  intros Hd Hn. cbn. apply update_where_elem. exists d. by rewrite Hn.
Qed.

Lemma consumed_at deviceId ts vaultId db db' h c : well_kept db → find_row (authenticates id secret) (db_connections db) = Some c →
  db_connections db' = update_first (authenticates id secret) (consume vaultId deviceId ts) (db_connections db) →
  conn_at id (committed h db') = Some (consume vaultId deviceId ts c).
Proof.
  intros Hw Hf Hc. unfold conn_at. change (db_connections (committed h db')) with (db_connections db'). rewrite Hc. clear Hc h db'.
  pose proof (found_conn_at _ _ Hw Hf) as Hat. unfold conn_at in Hat. clear Hw. unfold find_row in *.
  induction (db_connections db) as [|x l IH]; cbn in *; [done|].
  destruct (authenticates id secret x) eqn:Ex; cbn.
  - injection Hf as ->. apply authenticates_id in Ex. unfold has_connection_id. cbn. by rewrite Ex, jeqb_refl.
  - destruct (has_connection_id id x) eqn:Ei; [|by apply IH].
    injection Hat as ->. pose proof (find_row_Some _ _ _ Hf) as [_ Ha]. congruence.
Qed.

(** Right after its transaction a completion has enrolled the device. *)
Lemma enrollment_enrolled token vaultId root deviceId ts mode proposal w db v device tokenId c c0 db' h :
  well_kept db → progress c0 c → c_status c0 = CApproved → token = deriveDeviceToken secret (c_credential_salt c0) →
  enrollment id secret token vaultId root deviceId ts mode proposal w db v device tokenId c db' →
  c = c0 ∧ enrolled_as id secret (v_owner_user_id v) vaultId deviceId token mode (committed h db').
Proof.
  intros Hw Hp Hs0 Ht [Hf Hs Hx Hk (Hv1 & Hv2 & Hv3) -> Hv Hd Hto Hc Hrest].
  assert (c = c0) as ->. { apply (progress_same _ _ Hp). by rewrite Hs, Hs0. }
  split; [done|]. pose proof (find_row_Some _ _ _ Hf) as [Hin Hau]. destruct Hrest as (_ & _ & _ & _ & Hj & Hr & _).
  split.
  - exists (consume vaultId deviceId ts c0). split; [by apply (consumed_at deviceId ts vaultId db)|].
    split; [exact Hau|]. split_and!; [reflexivity|reflexivity|exact Hv3|exact Ht].
  - exists (new_device deviceId ts c0 v mode proposal). split_and!; [|reflexivity|exact Hv1|reflexivity| |reflexivity|reflexivity].
    + apply repaired_elem; [|reflexivity]. rewrite Hd. apply elem_of_app. right. by left.
    + cbn. f_equal. exact (authenticates_id _ _ _ Hau).
  - exists (new_token tokenId token ts (new_device deviceId ts c0 v mode proposal)).
    split_and!; [|reflexivity|reflexivity|cbn; by rewrite Hv1|reflexivity|reflexivity|reflexivity|reflexivity].
    change (db_tokens (committed h db')) with (db_tokens db'). rewrite Hto. apply elem_of_app. right. by left.
  - exists v. split_and!; [|done|done]. change (db_vaults (committed h db')) with (db_vaults db').
    destruct Hv as [[Hfv ->]|(Hn & -> & _)]; [done|]. rewrite (find_row_app_none _ _ _ Hn). unfold has_vault_id. by rewrite Hv1, jeqb_refl.
  - apply (deletion_record_vaults db); [done|done| |done]. intros x Hx'. change (db_vaults (committed h db')) with (db_vaults db') in Hx'.
    destruct Hv as [[_ E]|(_ & E & _)]; rewrite E in Hx'; [by left|]. apply elem_of_app in Hx' as [?| ->%list_elem_of_singleton]; [by left|right].
    by rewrite Hv2.
Qed.

#[export] Instance then_assertion (φ : Prop) P : Assertion P → Assertion (λ s, P s ∧ φ).
Proof. intros [HP HI]. split; [apply _|]. by intros s [Hs _]; apply HI. Qed.

(** The program of a completion may be left by an error at any point. *)
Lemma hoare_kept {A} P `{!Assertion P} (m : service A) R : hoare P m R P → hoare P m R kept.
Proof. intros Hm. eapply hoare_weaken; [exact Hm|done|done|]. intros s. by apply (is_kept P). Qed.

Lemma quiet_validateProposal P `{!Assertion P} db c vaultId root request : quiet P (validateProposal db c vaultId root request).
Proof.
  assert (∀ e, quiet P (throw (A := option ProposalKind * option jstring) e)) as Ht by (intros e; by apply (quiet_throw _ _ _ P)).
  assert (∀ a : option ProposalKind * option jstring, quiet P (mret a)) as Hr by (intros a; by apply (quiet_ret _ _ _ P)).
  unfold validateProposal. destruct (bool_decide _); [apply Hr|].
  destruct (if bool_decide _ then _ else _) as [[]|]; [apply Hr| | |apply Ht].
  all: destruct (cq_proposal_base request) as [[|b base]|]; [apply Ht| |apply Ht]; case_bool_decide; try (exfalso; congruence).
  - destruct (negb _); [apply Ht|apply Hr].
  - cbv zeta. destruct (find_row _ _); [|apply Ht].
    eapply (hoare_then P) with (R' := λ _, P); [apply _|by apply (quiet_still P)|]. intros known_. destruct (negb _); [apply Ht|].
    eapply (hoare_then P) with (R' := λ _, P); [apply _|by apply (quiet_still P)|]. intros reached. destruct (negb _); [apply Ht|apply Hr].
Qed.

Lemma hoare_pure {A} (φ : Prop) P (m : service A) R E : (φ → hoare P m R E) → hoare (λ s, P s ∧ φ) m R E.
Proof. intros Hm s [Hs Hφ]. by apply Hm. Qed.

Lemma new_ids_differ w w' i j : new_id w i "dev" ≠ new_id w' j "vlt".
Proof. unfold new_id, newId. intros [= E]. Qed.

#[export] Instance stable_conjunct P Q : Assertion P → Stable others Q → Assertion (λ s, P s ∧ Q s).
Proof.
  intros [HP HI] HQ. split; [|by intros s [Hs _]; apply HI]. intros s s' Hr [H1 H2]. split; [by eapply HP|by eapply HQ].
Qed.

(** The connection was approved as the request has it: for an existing vault, with the
    main it expects. *)
Definition accepted (request : CompleteConnectionRequest) (s : room) : Prop :=
  ∃ c, (c_status c = CApproved ∨ c_status c = CConsumed) ∧ since c s ∧
    (c_selection c = Some SelExistingVault → cq_expected_main request = c_expected_main c).

#[export] Instance accepted_stable request : Stable others (accepted request).
Proof. intros s s' Hr (c & Hc & Hs & He). exists c. split_and!; [done|by eapply since_stable|done]. Qed.

Definition outcome_of (request : CompleteConnectionRequest) (r : CompleteConnectionResponse) (s : room) : Prop :=
  (answered id secret r s ∧ accepted request s) ∧ co_mode r = cq_mode request.

#[export] Instance outcome_assertion request r : Assertion (outcome_of request r).
Proof. apply _. Qed.

(** What holds from the transaction on. *)
Definition committed_enrollment (c : ConnectionRequestRow) (token vaultId deviceId : jstring) (mode : OnboardingMode) (s : room) : Prop :=
  since c s ∧
  ∃ user s1, kept s1 ∧ c_approved_user_id c = Some user ∧ enrolled_as id secret user vaultId deviceId token mode (rm_db s1) ∧ others s1 s.

#[export] Instance committed_assertion c token vaultId deviceId mode : Assertion (committed_enrollment c token vaultId deviceId mode).
Proof.
  split.
  - intros s s' Hr (Hc & user & s1 & H1 & H2 & H3 & H4). split; [by eapply since_stable|]. exists user, s1. by split_and!; try etrans.
  - intros s (_ & user & s1 & H1 & _ & _ & H4). by eapply kept_stable.
Qed.

Definition snapshot_is (c : ConnectionRequestRow) (token vaultId deviceId : jstring) (mode : OnboardingMode) (db : MetadataDb) (s : room) : Prop :=
  since c s ∧
  ∃ user s1 s2, kept s1 ∧ c_approved_user_id c = Some user ∧ enrolled_as id secret user vaultId deviceId token mode (rm_db s1) ∧
    others s1 s2 ∧ rm_db s2 = db ∧ others s2 s.

#[export] Instance snapshot_assertion c token vaultId deviceId mode db : Assertion (snapshot_is c token vaultId deviceId mode db).
Proof.
  split.
  - intros s s' Hr (Hc & user & s1 & s2 & H1 & H2 & H3 & H4 & H5 & H6). split; [by eapply since_stable|]. exists user, s1, s2. by split_and!; try etrans.
  - intros s (_ & user & s1 & s2 & H1 & _ & _ & H4 & _ & H6). eapply kept_stable; [exact H6|]. by eapply kept_stable.
Qed.

Lemma authoritative_rows c vaultId deviceId tokenId db v d user : c_approved_user_id c = Some user →
  authoritative c vaultId deviceId tokenId db = Ok (v, d) →
  find_row (has_vault_id vaultId) (db_vaults db) = Some v ∧ v_vault_id v = vaultId ∧
  find_row (has_device_id deviceId) (db_devices db) = Some d ∧ d_device_id d = deviceId ∧ d_user_id d = user.
Proof.
  intros Hc. unfold authoritative. rewrite Hc. destruct (find_row (has_vault_id vaultId) _) as [v'|] eqn:Ev; [|done].
  destruct (find_row (has_device_id deviceId) _) as [d'|] eqn:Ed; [|done]. destruct (find_row _ (db_tokens db)); [|done].
  destruct (_ || _) eqn:E; [done|]. intros [= -> ->].
  pose proof (find_row_Some _ _ _ Ev) as [_ Hv%jeqb_eq]. pose proof (find_row_Some _ _ _ Ed) as [_ Hd%jeqb_eq].
  split_and!; try done. repeat (apply orb_false_iff in E as [E ?]).
  match goal with Hx : negb (oeqb (Some (d_user_id d)) _) = false |- _ => apply negb_false_iff in Hx; by apply jeqb_eq in Hx end.
Qed.

Lemma hoare_enroll before c token request vaultId root : c_status c = CApproved → token = deriveDeviceToken secret (c_credential_salt c) →
  c_new_vault_display_name c = None ∨ mine vaultId ∧ (∃ w, vaultId = new_id w 0 "vlt") →
  (c_selection c = Some SelExistingVault → cq_expected_main request = c_expected_main c) →
  hoare (λ s, kept s ∧ since c s) (enroll id secret token request before c vaultId root) (outcome_of request) kept.
Proof.
  intros Hs Ht Hname Hmain. set (P := λ s, kept s ∧ since c s). unfold enroll.
  apply hoare_then with (R' := λ _, P); [apply _|by apply hoare_kept; [apply _|]; apply quiet_validateProposal; apply _|]. intros proposal.
  apply hoare_then with (R' := λ w s, P s ∧ mine (new_id w 1 "dev") ∧ absent (new_id w 1 "dev") (rm_db s)); [apply _| |].
  { apply hoare_kept; [apply _|]. apply hoare_ambient; [apply _|intros; apply _|]. intros s w Hp Hw. split; [done|]. apply Hw. right. right. by left. }
  intros w. set (deviceId := new_id w 1 "dev").
  apply hoare_then with (R' := λ r s, committed_enrollment c token vaultId deviceId (cq_mode request) s ∧ d_device_id r.1.2 = deviceId); [apply _| |].
  { apply hoare_mutate_job; [apply _|intros; apply _|apply _| |by intros s [[? _] _]|].
    - intros s limits [[H1 H2] H3]. split; [split; [by apply (kept_limits kept)|done]|done].
    - intros s w' limits limits' [[v device] tokenId] db h [[H1 H2] [Hm Ha]] [= E _].
      apply completion_enrollment in E as (c1 & He).
      pose proof (kept_well s H1) as Hw. pose proof (found_conn_at _ _ Hw (en_found _ _ _ _ _ _ _ _ _ _ _ _ _ _ _ _ He)) as Hat.
      destruct (enrollment_enrolled _ _ _ _ _ _ _ _ _ _ _ _ _ _ _ h Hw (H2 _ Hat) Hs Ht He) as [-> Hen].
      destruct (apart _ Hm) as [Hnt _].
      assert (kept (mk_room (committed h db) limits')) as Hk'.
      { unfold kept in *. etrans; [exact H1|]. etrans; [|by apply moves_rows_evolves, committed_moves].
        eapply evolves_completion; [exact He|exact Ha|exact Hnt|]. intros [name Hn]. destruct Hname as [Hnone|[Hmv [wv ->]]]; [congruence|].
        split; [apply new_ids_differ|by apply apart]. }
      split; [|exact Hk']. destruct (en_vault _ _ _ _ _ _ _ _ _ _ _ _ _ _ _ _ He) as (_ & _ & Hu). split.
      + split.
        * intros c' Hc'. cbn [rm_db] in Hc'.
          rewrite (consumed_at deviceId (nowIso w 0) vaultId (rm_db s) db h c Hw (en_found _ _ _ _ _ _ _ _ _ _ _ _ _ _ _ _ He)) in Hc'
            by exact (en_connections _ _ _ _ _ _ _ _ _ _ _ _ _ _ _ _ He).
          injection Hc' as <-. apply rtc_once. by eapply edge_consume.
        * exists (v_owner_user_id v), (mk_room (committed h db) limits'). split_and!; [exact Hk'|exact Hu|exact Hen|reflexivity].
      + rewrite (en_device _ _ _ _ _ _ _ _ _ _ _ _ _ _ _ _ He). apply is_new_device. }
  intros [[v0 device] tokenId]. cbn [fst snd]. apply hoare_pure. intros ->.
  apply hoare_then with (R' := λ after s, snapshot_is c token vaultId deviceId (cq_mode request) after s); [apply _| |].
  { apply hoare_kept; [apply _|]. apply hoare_snapshot; [apply _|intros; apply _|]. intros s (Hc & user & s1 & H1 & H2 & H3 & H4).
    split; [exact Hc|]. exists user, s1, s. by split_and!. }
  intros after. set (Q := snapshot_is c token vaultId deviceId (cq_mode request) after).
  apply hoare_then with (R' := λ r s, Q s ∧ authoritative c vaultId deviceId tokenId after = Ok r); [apply _| |].
  { apply (hoare_kept Q). apply (hoare_lift _ _ _ Q); [intros r s Er Hq; by split|by intros s Hq]. }
  intros [v d]. apply hoare_pure. intros Hauth. apply (hoare_kept Q).
  apply (hoare_lift _ _ _ Q); [|done]. intros r s Hr (Hc & user & s1 & s2 & H1 & H2 & H3 & H4 & H5 & H6).
  destruct (authoritative_rows _ _ _ _ _ _ _ _ H2 Hauth) as (Hfv & Hv & Hfd & Hd & Hu).
  pose proof Hr as Hr'. unfold responseFor in Hr. destruct (v_root_commit v) as [[|x root']|]; [discriminate Hr| |discriminate Hr].
  injection Hr as <-. split; [|done]. split; [|exists c; split_and!; [by left|exact Hc|exact Hmain]]. exists s1, s2. split_and!; [done| |done| |done].
  - unfold enrolled_response. cbn [co_user_id co_vault_id co_device_id co_device_token co_mode]. by rewrite Hu, Hv, Hd.
  - exists v, d. cbn [co_user_id co_vault_id co_device_id co_device_token co_mode]. rewrite H5. split_and!; [by rewrite Hv|by rewrite Hd|exact Hr'].
Qed.

Lemma hoare_enroll_new lifecycle before c token request : c_status c = CApproved → c_selection c = Some SelNewVault → token = deriveDeviceToken secret (c_credential_salt c) →
  hoare (λ s, kept s ∧ since c s) (enroll_new lifecycle id secret token request before c) (outcome_of request) kept.
Proof.
  intros Hs Hsel Ht. set (P := λ s, kept s ∧ since c s). assert (∀ s, P s → kept s) as HP by by intros s [].
  unfold enroll_new. destruct (bool_decide _); [by apply (hoare_throw _ _ _ P)|].
  apply hoare_then with (R' := λ w s, P s ∧ mine (new_id w 0 "vlt")); [apply _| |].
  { apply (hoare_kept P). apply hoare_ambient; [apply _|intros; apply _|]. intros s w Hp Hw. split; [done|]. apply Hw. right. by left. }
  intros w. apply hoare_pure. intros Hm. cbv zeta.
  set (reserved := perform (ReserveVaultCreation _) ≫= _).
  assert (hoare P reserved (outcome_of request) kept) as Hr.
  { apply hoare_then with (R' := λ _, P); [apply _|by apply (hoare_kept P), (quiet_still P)|]. intros ?.
    apply hoare_finally; [apply _|apply _|by intros s r s' [-> ->]|].
    apply hoare_then with (R' := λ _, P); [apply _|by apply (hoare_kept P), (quiet_still P)|]. intros root.
    apply hoare_enroll; [done|done|right; split; [done|by exists w]|congruence]. }
  destruct lifecycle; [|exact Hr]. unfold withAdmission.
  apply hoare_then with (R' := λ _, P); [apply _|by apply (hoare_kept P), (quiet_still P)|]. intros ?.
  apply hoare_finally; [apply _|apply _|by intros s r s' [-> ->]|exact Hr].
Qed.

Lemma hoare_enroll_existing before c token request user : c_status c = CApproved → token = deriveDeviceToken secret (c_credential_salt c) →
  c_new_vault_display_name c = None →
  hoare (λ s, kept s ∧ since c s) (enroll_existing id secret token request before c user) (outcome_of request) kept.
Proof.
  intros Hs Ht Hn. set (P := λ s, kept s ∧ since c s). assert (∀ s, P s → kept s) as HP by by intros s [].
  assert (∀ e, hoare P (throw e) (outcome_of request) kept) as Hthrow by (intros e; by apply (hoare_throw _ _ _ P)).
  unfold enroll_existing.
  apply hoare_then with (R' := λ _, P); [apply _|by apply (hoare_kept P), (quiet_lift _ _ _ P)|]. intros v.
  destruct (negb _); [apply Hthrow|]. destruct (v_root_commit v) as [[|x root]|]; [apply Hthrow| |apply Hthrow].
  destruct (oeqb (cq_expected_main request) (c_expected_main c)) eqn:Emain; cbn [negb]; [|apply Hthrow].
  apply oeqb_iff in Emain.
  apply hoare_then with (R' := λ _, P); [apply _|by apply (hoare_kept P), (quiet_still P)|]. intros policy.
  destruct (_ && _); [apply Hthrow|]. destruct (c_selected_vault_id c) as [[|y vaultId]|]; [apply Hthrow| |apply Hthrow].
  apply hoare_enroll; [done|done|by left|done].
Qed.

(** The row of a connection that has its device stays as it is. *)
Lemma answered_row r s c : answered id secret r s → conn_at id (rm_db s) = Some c → c_status c = CConsumed ∧ since c s.
Proof.
  intros (s1 & s2 & _ & [(c1 & Hc1 & _ & Hs1 & _) _ _ _ _] & H12 & _ & H2) Hc. split.
  - assert (others s1 s) as Hr by by etrans.
    pose proof (ev_row _ _ _ _ (others_theirs _ _ Hr) _ _ known Hc1 _ Hc) as Hp.
    apply progress_rank in Hp as [->|Hp]; [done|]. rewrite Hs1 in Hp. destruct (c_status c); cbn in Hp; lia.
  - intros c' Hc'. rewrite Hc in Hc'. injection Hc' as <-. constructor.
Qed.

Lemma hoare_replay request r : hoare (answered id secret r) (replay id secret request r) (outcome_of request) kept.
Proof.
  set (Q := λ db s, answered id secret r s ∧ (well_kept db ∧ ∀ c, conn_at id db = Some c → c_status c = CConsumed ∧ since c s)).
  assert (∀ db, Assertion (Q db)) as HQ.
  { intros db. split; [|by intros s [Hs _]; eapply (is_kept (answered id secret r))].
    intros s s' Hr (Ha & Hw & Hc). split; [by eapply answered_assertion|]. split; [done|]. intros c Ec.
    destruct (Hc c Ec) as [? ?]. split; [done|by eapply since_stable]. }
  assert (∀ db s, Q db s → kept s) as HP by (intros db s; apply (is_kept (Q db))).
  assert (∀ db e, hoare (Q db) (throw e) (outcome_of request) kept) as Hthrow by (intros db e; apply (hoare_throw _ _ _ (Q db)), HP).
  unfold replay.
  apply hoare_then with (R' := Q); [apply _| |intros current].
  { apply (hoare_kept (answered id secret r)), hoare_snapshot; [apply _|done|]. intros s Hs. split; [done|].
    split; [by apply kept_well, (is_kept (answered id secret r))|]. intros c Hc. by eapply answered_row. }
  apply hoare_then with (R' := λ _, Q current); [apply _|by apply (hoare_kept (Q current)), hoare_ambient; [apply _|intros; apply _|]|]. intros w.
  destruct (find_row _ _) as [v|]; [|apply Hthrow].
  apply hoare_then with (R' := λ c s, Q current s ∧ authenticated (w_now w 0) id secret current = Ok c); [apply _| |].
  { apply (hoare_kept (Q current)), (hoare_lift _ _ _ (Q current)); [intros c s Ec Hs; by split|done]. }
  intros c. apply hoare_pure. intros (c0 & Hf & ->)%authenticated_found.
  case_bool_decide as Hmode; cbn [negb orb]; [|apply Hthrow].
  destruct (oeqb (cq_expected_main request) _) eqn:Emain; cbn [negb]; [|apply Hthrow]. apply oeqb_iff in Emain.
  apply hoare_then with (R' := λ _, Q current); [apply _|by apply (hoare_kept (Q current)), (quiet_still (Q current))|]. intros policy.
  destruct (_ && _); [apply Hthrow|]. apply (hoare_ret _ _ _ (Q current)). intros s (Ha & Hw & Hc). split; [|by symmetry].
  split; [exact Ha|]. destruct (Hc _ (found_conn_at _ _ Hw Hf)) as [Hs Hsince]. exists c0. split_and!; [by right|exact Hsince|].
  intros _. rewrite Emain. unfold lapse. by rewrite Hs.
Qed.

(** The salt read first is the connection's, for as long as it exists. *)
Lemma hoare_salt : hoare kept (connectionSalt id secret) (λ salt s, kept s ∧ salted salt s) kept.
Proof.
  unfold connectionSalt.
  apply hoare_then with (R' := λ db s, kept s ∧ (well_kept db ∧ (∀ c, conn_at id db = Some c → salted (c_credential_salt c) s))); [apply _| |].
  { apply hoare_snapshot; [apply _| |]. 2:{ intros s Hs. split; [done|]. split; [by apply kept_well|]. intros c Hc c' Hc'. congruence. }
    intros db. split.
    - intros s s' Hr (Hk & Hw & Hc). split; [by eapply kept_stable|]. split; [done|]. intros c Ec. eapply salted_stable; [exact Hr|by apply Hc].
    - by intros s []. }
  intros db. set (P := λ s, kept s ∧ (well_kept db ∧ (∀ c, conn_at id db = Some c → salted (c_credential_salt c) s))).
  assert (Assertion P) as HPa.
  { split.
    - intros s s' Hr (Hk & Hw & Hc). split; [by eapply kept_stable|]. split; [done|]. intros c Ec. eapply salted_stable; [exact Hr|by apply Hc].
    - by intros s []. }
  assert (∀ s, P s → kept s) as HP by by intros s [].
  apply hoare_then with (R' := λ _, P); [apply _|by apply (hoare_kept P), hoare_ambient; [apply _|intros; apply _|]|]. intros w.
  apply hoare_then with (R' := λ c s, kept s ∧ salted (c_credential_salt c) s); [apply _| |].
  - apply (hoare_lift _ _ _ P); [|done]. intros c s Hc (Hk & Hw & Hsalt). split; [done|].
    apply authenticated_found in Hc as (c0 & Hf & ->). rewrite lapse_salt. apply Hsalt. by apply found_conn_at.
  - intros c. apply (hoare_ret _ _ _ (λ s, kept s ∧ salted (c_credential_salt c) s)). done.
Qed.

Lemma hoare_existing token salt : token = deriveDeviceToken secret salt →
  hoare (λ s, kept s ∧ salted salt s) (existingCompletion id secret token)
    (λ o s, (kept s ∧ salted salt s) ∧ match o with Some r => answered id secret r s | None => True end) kept.
Proof.
  intros Ht. set (P := λ s, kept s ∧ salted salt s). assert (∀ s, P s → kept s) as HP by by intros s [].
  unfold existingCompletion.
  set (Q := λ db s, P s ∧ ∃ s1, kept s1 ∧ salted salt s1 ∧ rm_db s1 = db ∧ others s1 s).
  assert (∀ db, Assertion (Q db)) as HQ.
  { intros db. split; [|by intros s [[] _]]. intros s s' Hr [Hp (s1 & H1 & H2 & H3 & H4)].
    split; [split; [eapply kept_stable|eapply salted_stable]; [exact Hr|apply Hp|exact Hr|apply Hp]|]. exists s1. split_and!; try done. by etrans. }
  apply hoare_then with (R' := Q); [apply _| |].
  { apply (hoare_kept P). apply hoare_snapshot; [apply _|done|]. intros s Hs. split; [done|]. exists s. destruct Hs. by split_and!. }
  intros db. assert (∀ s, Q db s → kept s) as HQk by by intros s [[] _].
  apply hoare_then with (R' := λ _, Q db); [apply _|by apply (hoare_kept (Q db)), hoare_ambient; [apply _|intros; apply _|]|]. intros w.
  apply hoare_then with (R' := λ c s, Q db s ∧ authenticated (w_now w 0) id secret db = Ok c); [apply _| |].
  { apply (hoare_kept (Q db)), (hoare_lift _ _ _ (Q db)); [intros c s Ec Hq; by split|done]. }
  intros c. apply hoare_pure. intros Hc.
  apply (hoare_lift _ _ _ (Q db)); [|done]. intros o s Ho [Hp (s1 & H1 & H2 & H3 & H4)]. split; [done|].
  destruct o as [r|]; [|done]. pose proof (kept_well s1 H1) as Hw. rewrite H3 in Hw.
  assert (token = deriveDeviceToken secret (c_credential_salt c)) as Htok.
  { rewrite Ht. f_equal. apply authenticated_found in Hc as (c0 & Hf & ->). rewrite lapse_salt. symmetry. apply H2. rewrite H3. by apply found_conn_at. }
  destruct (existing_enrolled _ _ _ _ _ Hw Hc Htok Ho) as [He Hsh].
  exists s1, s1. rewrite H3. by split_and!.
Qed.

Lemma hoare_completeInternal lifecycle request :
  hoare kept (completeInternal lifecycle id secret request) (outcome_of request) kept.
Proof.
  unfold completeInternal.
  apply hoare_then with (R' := λ salt s, kept s ∧ salted salt s); [apply _|apply hoare_salt|]. intros salt.
  set (token := deriveDeviceToken secret salt). cbv zeta.
  eapply hoare_then; [apply _|by apply (hoare_existing token salt)|]. intros [r|].
  { eapply hoare_weaken; [apply (hoare_replay request r)|by intros s []|done|done]. }
  set (P := λ s, kept s ∧ salted salt s). assert (∀ s, P s → kept s) as HP by by intros s [].
  eapply (hoare_weaken _ _ _ _ P); [|by intros s []|intros r s Hr; exact Hr|intros s Hs; exact Hs].
  set (Q := λ db s, P s ∧ ((well_kept db ∧ (∀ c, conn_at id db = Some c → c_credential_salt c = salt)) ∧ (∀ c, conn_at id db = Some c → since c s))).
  assert (∀ db, Assertion (Q db)) as HQ.
  { intros db. split; [|by intros s [[] _]]. intros s s' Hr [Hp [Hw Hc]].
    split; [split; [eapply kept_stable|eapply salted_stable]; [exact Hr|apply Hp|exact Hr|apply Hp]|].
    split; [done|]. intros c Ec. eapply since_stable; [exact Hr|by apply Hc]. }
  apply hoare_then with (R' := Q); [apply _| |].
  { apply (hoare_kept P). apply hoare_snapshot; [apply _|done|]. intros s [Hk Hs]. split; [done|]. split; [split; [by apply kept_well|exact Hs]|].
    intros c Ec c' Ec'. rewrite Ec in Ec'. injection Ec' as <-. constructor. }
  intros db. assert (∀ s, Q db s → kept s) as HQk by by intros s [[] _].
  apply hoare_then with (R' := λ _, Q db); [apply _|by apply (hoare_kept (Q db)), hoare_ambient; [apply _|intros; apply _|]|]. intros w.
  apply hoare_then with (R' := λ c s, Q db s ∧ authenticated (w_now w 0) id secret db = Ok c); [apply _| |].
  { apply (hoare_kept (Q db)), (hoare_lift _ _ _ (Q db)); [intros c s Ec Hq; by split|done]. }
  intros c. apply hoare_pure. intros Hc. apply authenticated_found in Hc as (c0 & Hf & Ec).
  assert (∀ e, hoare kept (throw e) (outcome_of request) kept) as Hthrow by (intros e; by apply (hoare_throw _ _ _ kept)).
  assert (∀ (e : js_error) (b : bool), hoare (Q db) (_ ← (if b then mutate (plain (authenticate_tx id secret)) else mret ());
    throw e) (outcome_of request) kept) as Hgive_up.
  { intros e b. eapply (hoare_weaken _ _ _ _ kept); [|exact HQk|intros r s Hr; exact Hr|intros s Hs; exact Hs].
    apply hoare_then with (R' := λ _, kept); [apply _| |intros ?; apply Hthrow].
    destruct b; [|by apply (quiet_ret _ _ _ kept)]. apply quiet_plain. intros. by eapply moves_authenticate. }
  destruct (c_status c) eqn:Es; try apply Hgive_up. rewrite bool_decide_eq_false_2 by done.
  apply hoare_then with (R' := λ _, Q db); [apply _|by apply (hoare_kept (Q db)), (quiet_ret _ _ _ (Q db))|]. intros ?.
  assert (c = c0) as -> by (rewrite Ec; apply (lapse_approved (w_now w 0)); by rewrite <- Ec). clear Ec.
  assert (hoare (Q db) (throw (connectionStatusError c0)) (outcome_of request) kept) as Hno by (by apply (hoare_throw _ _ _ (Q db))).
  destruct (c_approved_user_id c0) as [[|u user]|]; [exact Hno| |exact Hno].
  eapply (hoare_weaken _ _ _ _ (λ s, (kept s ∧ since c0 s) ∧ (well_kept db ∧ c_credential_salt c0 = salt))).
  2:{ intros s ([Hk Hs] & (Hw & Hsalt) & Hc). pose proof (found_conn_at _ _ Hw Hf). split; [split; auto|]. split; auto. }
  2: intros r s Hr; exact Hr. 2: intros s Hs; exact Hs.
  apply hoare_pure. intros [Hw Hsalt].
  destruct (c_selection c0) as [[]|] eqn:Esel.
  - apply hoare_enroll_new; [done|done|]. by rewrite Hsalt.
  - apply hoare_enroll_existing; [done|by rewrite Hsalt|]. apply (wk_target _ Hw); [|done|done]. by apply find_row_Some in Hf as [? _].
  - apply (hoare_throw _ _ _ (λ s, kept s ∧ since c0 s)). by intros s [].
Qed.

Lemma hoare_complete lifecycle request : hoare kept (complete lifecycle id secret request) (outcome_of request) kept.
Proof.
  assert (∀ e, hoare kept (throw e) (outcome_of request) kept) as Hthrow by (intros e; by apply (hoare_throw _ _ _ kept)).
  unfold complete. destruct lifecycle; cbn [negb]; [|apply hoare_completeInternal].
  apply hoare_then with (R' := λ _, kept); [apply _|quietly|]. intros db.
  apply hoare_then with (R' := λ _, kept); [apply _|quietly|]. intros w.
  apply hoare_then with (R' := λ _, kept); [apply _|quietly|]. intros c.
  destruct (connectionTargetVaultId db c) as [[|t target]|]; [apply hoare_completeInternal| |apply hoare_completeInternal].
  destruct (c_approved_user_id c) as [[|u user]|]; [apply hoare_completeInternal| |apply hoare_completeInternal].
  apply (hoare_withOwnerVault kept); [intros; apply _|].
  apply hoare_then with (R' := λ _, kept); [apply _|quietly|]. intros before.
  apply hoare_then with (R' := λ _, kept); [apply _|quietly|]. intros w'.
  apply hoare_then with (R' := λ _, kept); [apply _|quietly|]. intros c'.
  destruct (_ || _); [apply Hthrow|].
  apply hoare_then with (R' := outcome_of request); [apply _|apply hoare_completeInternal|]. intros r.
  set (P := outcome_of request r). assert (∀ s, P s → kept s) as HP by (intros s; apply (is_kept P)).
  apply hoare_then with (R' := λ _, P); [apply _|by apply (hoare_kept P), hoare_snapshot; [apply _|intros; apply _|]|]. intros after.
  apply hoare_then with (R' := λ _, P); [apply _|by apply (hoare_kept P), (quiet_lift _ _ _ P)|]. intros ?.
  by apply (hoare_ret _ _ _ P).
Qed.

End calls.
