(* ===== verification/ConnectionEnrollment.v ===== *)
(** * What a completed connection is (theorems about Connections.v)

    A device is created only for an approved connection, at most one for each, and a
    response says what was enrolled - whatever other requests do meanwhile.  A method run
    alone ([exec]) shows what the repetition of an answered completion answers. *)

From S2P Require Export ConnectionRuns.

Local Open Scope nat_scope.

(** ** Running a method alone *)

(** The answers of git. *)
Record repositories := mk_repositories {
  rp_root : jstring → jstring;
  rp_exists : jstring → jstring → bool;
  rp_ancestor : jstring → jstring → jstring → bool;
  rp_ignore : jstring → jstring → option jstring;
  rp_paths : jstring → jstring → list jstring;
  rp_pack : jstring → jstring → list N
}.

Section exec.
Context `{D : Dates} `{C : Crypto} `{H : Hmac} (git : repositories).
(** The clock and the random source at each call. *)
Context (tape : nat → World).

(** The answers where nothing fails. *)
Definition answer {B} (n : nat) (c : call B) (s : room) : result B * room :=
  match c in call B return result B * room with
  | Ambient => (Ok (tape n), s)
  | Snapshot => (Ok (rm_db s), s)
  | Mutate fn =>
      let r := run (tape n) (λ db, (fn (tape n) (rm_limits s) db).1) (rm_db s) in
      (r.1, mk_room r.2 (fn (tape n) (rm_limits s) (rm_db s)).2)
  | LimitCreation origin =>
      match enforceCreationLimit (w_now (tape n) 0) origin (creationLimits (rm_limits s)) with
      | Some creations => (Ok (), mk_room (rm_db s) (mk_RateLimits creations (pollLimits (rm_limits s))))
      | None => (Throw creation_limited, s)
      end
  | AcquireAdmission vault => (Ok (), s)
  | ReleaseAdmission vault => (Ok (), s)
  | ReserveVaultCreation vault => (Ok (), s)
  | ReleaseVaultCreation vault => (Ok (), s)
  | InitializeVault vault => (Ok (rp_root git vault), s)
  | CommitExists vault commit => (Ok (rp_exists git vault commit), s)
  | IsAncestor vault a b => (Ok (rp_ancestor git vault a b), s)
  | RootIgnoreOid vault commit => (Ok (rp_ignore git vault commit), s)
  | ListTreePaths vault commit => (Ok (rp_paths git vault commit), s)
  | ExportPack vault commit => (Ok (rp_pack git vault commit), s)
  end.

Fixpoint exec {A} (n : nat) (p : prog call A) (s : room) : A * nat * room :=
  match p with
  | Done a => (a, n, s)
  | Do c k => let r := answer n c s in exec (S n) (k r.1) r.2
  end.

(** The identifiers drawn on the way are among [ids] and new. *)
Definition absentb (id : jstring) (db : MetadataDb) : bool :=
  negb (jmem id (map c_connection_id (db_connections db))) &&
  forallb (λ d, negb (d_device_id d =s? id) && negb (oeqb (d_onboarding_connection_id d) (Some id))) (db_devices db) &&
  negb (jmem id (map v_vault_id (db_vaults db))).
Definition drawsb (ids : list jstring) (w : World) (db : MetadataDb) : bool :=
  forallb (λ id, jmem id ids && absentb id db) [fresh_connection_id w; new_id w 0 "vlt"; new_id w 1 "dev"].
Fixpoint draws_freely {A} (ids : list jstring) (n : nat) (p : prog call A) (s : room) : bool :=
  match p with
  | Done a => true
  | Do c k =>
      (match c with Ambient => drawsb ids (tape n) (rm_db s) | _ => true end) &&
      (let r := answer n c s in draws_freely ids (S n) (k r.1) r.2)
  end.

Lemma absentb_spec id db : absentb id db = true → absent id db.
Proof.
  unfold absentb. intros [[H1%negb_true_iff H2]%andb_true_iff H3%negb_true_iff]%andb_true_iff. split.
  - intros Hin%jmem_elem. congruence.
  - intros d Hd. rewrite forallb_forall in H2. specialize (H2 d). rewrite <- list_elem_of_In in H2.
    apply H2, andb_true_iff in Hd as [Ha%negb_true_iff Hb%negb_true_iff]. split.
    + intros E. rewrite E, jeqb_refl in Ha. done.
    + intros E. rewrite E in Hb. cbn in Hb. by rewrite jeqb_refl in Hb.
  - intros Hin%jmem_elem. congruence.
Qed.

Lemma connection_answer_step mine ids {B} n (c : call B) s : (∀ id, id ∈ ids → mine id) →
  (match c with Ambient => drawsb ids (tape n) (rm_db s) | _ => true end = true) →
  call_step mine B c s (answer n c s).1 (answer n c s).2.
Proof.
  intros Hids Hd. destruct c; cbn [answer call_step fst snd]; auto.
  - split; [done|]. exists (tape n). split; [done|]. intros id Hid.
    unfold drawsb in Hd. rewrite forallb_forall in Hd. apply list_elem_of_In, Hd, andb_true_iff in Hid as [Hm%jmem_elem Ha%absentb_spec].
    split; [by apply Hids|done].
  - right. exists (tape n). destruct (run (tape n) _ (rm_db s)) as [[a|e] db] eqn:E; cbn [fst snd]; [by left; split; [left|]|].
    split; [done|]. destruct (run_cases (tape n) (λ db, (fn (tape n) (rm_limits s) db).1) (rm_db s)) as [(e' & _ & E')|(a & c & h & _ & E')];
      rewrite E in E'; [|done]. by injection E' as _ ->.
  - exists (w_now (tape n) 0). by destruct (enforceCreationLimit _ _ _).
Qed.

Lemma connection_exec_runs mine ids others {A} n (p : prog call A) s : (∀ id, id ∈ ids → mine id) → draws_freely ids n p s = true →
  runs (call_step mine) others p s (Done (exec n p s).1.1) (exec n p s).2.
Proof.
  intros Hids. revert n s. induction p as [a|B c k IH]; intros n s; cbn [exec draws_freely]; [intros _; apply runs_here|].
  intros [Hd Hk]%andb_true_iff. eapply runs_call; [by eapply connection_answer_step|]. by apply IH.
Qed.

(** [m] ends with [r] and leaves the state as it is. *)
Definition yields {A} (s : room) (m : service A) (r : result A) : Prop := ∀ n, ∃ n', exec n m s = (r, n', s).

Lemma exec_bind {A B} (m : prog call A) (f : A → prog call B) n s a n' s' : exec n m s = (a, n', s') → exec n (after m f) s = exec n' (f a) s'.
Proof.
  revert n s. induction m as [a'|T c k IH]; intros n s; cbn [exec after]; [by intros [= -> -> ->]|]. apply IH.
Qed.

Lemma yields_ret {A} s (a : A) : yields s (mret a) (Ok a).
Proof. intros n. by exists n. Qed.
Lemma yields_throw {A} s e : yields s (throw (A := A) e) (Throw e).
Proof. intros n. by exists n. Qed.
Lemma yields_lift {A} s (r : result A) r' : r = r' → yields s (lift r) r'.
Proof. intros -> n. exists n. by destruct r'. Qed.
Lemma yields_bind {A B} s (m : service A) (f : A → service B) a r : yields s m (Ok a) → yields s (f a) r → yields s (m ≫= f) r.
Proof.
  intros Hm Hf n. destruct (Hm n) as [n1 E1]. destruct (Hf n1) as [n2 E2]. exists n2.
  unfold mbind, io_bind. by rewrite (exec_bind _ _ _ _ _ _ _ E1).
Qed.
Lemma yields_fail {A B} s (m : service A) (f : A → service B) e : yields s m (Throw e) → yields s (m ≫= f) (Throw e).
Proof.
  intros Hm n. destruct (Hm n) as [n1 E1]. exists n1. unfold mbind, io_bind. by rewrite (exec_bind _ _ _ _ _ _ _ E1).
Qed.
Lemma yields_snapshot s : yields s snapshot (Ok (rm_db s)).
Proof. intros n. by exists (S n). Qed.
Lemma yields_ambient {B} s (f : World → service B) r : (∀ w, yields s (f w) r) → yields s (ambient ≫= f) r.
Proof. intros Hf n. destruct (Hf (tape n) (S n)) as [n' E]. by exists n'. Qed.
Lemma yields_call {B} s (c : call B) r : (∀ n, answer n c s = (r, s)) → yields s (perform c) r.
Proof. intros Hc n. exists (S n). unfold perform. cbn [exec]. by rewrite Hc. Qed.
Lemma yields_finally {A} s (m : service A) r c : yields s m r → (∀ n, answer n c s = (Ok (), s)) → yields s (try_finally m (perform c)) r.
Proof.
  intros Hm Hc n. destruct (Hm n) as [n1 E1]. exists (S n1). unfold try_finally. rewrite (exec_bind _ _ _ _ _ _ _ E1).
  unfold perform. cbn [after exec]. rewrite Hc. by destruct r.
Qed.

Lemma yields_withOwnerVault {A} s user vault (m : service A) r : DeletionRequests.withOwnerVault user vault (rm_db s) = Ok () →
  yields s m r → yields s (withOwnerVault user vault m) r.
Proof.
  intros Ho Hm. unfold withOwnerVault, withAdmission. eapply yields_bind; [by apply yields_call|].
  apply yields_finally; [|done]. eapply yields_bind; [apply yields_snapshot|]. eapply yields_bind; [apply yields_lift, Ho|done].
Qed.

(** ** A repeated completion *)

Context (id secret : jstring) (request : CompleteConnectionRequest) (response : CompleteConnectionResponse) (s : room).
Let db : MetadataDb := rm_db s.

(** The device is still enrolled, as the response says, and its owner may sign in. *)
Record still_enrolled : Prop := {
  ry_enrolled : enrolled_response id secret response db;
  ry_shown : shown response db;
  ry_owner : ∃ u, find_row (has_user_id (co_user_id response)) (db_users db) = Some u ∧ u_disabled u = false
}.

(** What a completion of the connection answers then. *)
Definition repetition (c : ConnectionRequestRow) : result CompleteConnectionResponse :=
  if negb (bool_decide (cq_mode request = co_mode response)) || negb (oeqb (cq_expected_main request) (c_expected_main c))
  then Throw (refused 409 "onboarding_identity_mismatch" "Completion does not match the accepted enrollment.")
  else if negb (is_null_or (rp_ignore git (co_vault_id response) (co_current_main response))) && negb (cq_root_ignore_capability request)
  then Throw capability_required else Ok response.

Lemma find_row_exists {A} (p : A → bool) (l : list A) x : x ∈ l → p x = true → ∃ y, find_row p l = Some y.
Proof. intros Hx Hp. destruct (find_row p l) as [y|] eqn:E; [by exists y|]. by rewrite (find_row_None _ _ _ E Hx) in Hp. Qed.

Lemma consumed_authenticated now c : well_kept db → conn_at id db = Some c → authenticates id secret c = true → c_status c = CConsumed →
  authenticated now id secret db = Ok c.
Proof.
  intros Hw Hat Ha Hs. apply conn_at_elem in Hat as [Hin Hid].
  destruct (find_row_exists _ _ _ Hin Ha) as [c1 E]. pose proof (find_row_Some _ _ _ E) as [Hin1 Ha1%authenticates_id].
  assert (c1 = c) as -> by (apply (key_unique c_connection_id (db_connections db)); [apply Hw|done|done|congruence]).
  unfold authenticated, authenticatedConnection. rewrite E. cbn. unfold lapse. by rewrite Hs.
Qed.

(** The rows of an enrolment, as the methods find them. *)
Lemma enrolled_rows : well_kept db → still_enrolled → ∃ c v, (∀ now, authenticated now id secret db = Ok c) ∧ conn_at id db = Some c ∧
  c_approved_user_id c = Some (co_user_id response) ∧ c_selected_vault_id c = Some (co_vault_id response) ∧
  co_device_token response = deriveDeviceToken secret (c_credential_salt c) ∧
  existing_completion (co_device_token response) db c = Ok (Some response) ∧
  find_row (has_vault_id (co_vault_id response)) (db_vaults db) = Some v ∧ v_current_main v = co_current_main response ∧
  v_owner_user_id v = co_user_id response ∧
  (∀ d, created_device db c = Some d → d_vault_id d = co_vault_id response).
Proof.
  intros Hw [[(c & Hat & Ha & Hs & Hcr & Hap & Ht) (d & Hd & Hdid & Hdv & Hdu & Hdo & Hdm & Hrev) (t & Hti & Htk & Htd & Htv & Htu & Htr & Htc & Hth)
    (v & Hv & Hvo & Hva) Hdel] (v' & d' & Hv' & Hd' & Hr) (u & Hu & Hud)].
  rewrite Hv in Hv'. injection Hv' as <-. pose proof (conn_at_elem _ _ _ Hat) as [Hin Hid].
  pose proof (find_row_Some _ _ _ Hv) as [_ Hvid%jeqb_eq]. pose proof (find_row_Some _ _ _ Hd') as [Hdin' Hdid'%jeqb_eq].
  assert (d' = d) as -> by (apply (key_unique d_device_id (db_devices db)); [apply Hw|done|done|congruence]).
  destruct (wk_enrolled _ Hw c d Hin Hd) as (_ & _ & Hsel & _); [by rewrite Hdo, Hid|]. rewrite Hdv in Hsel.
  exists c, v. split_and!; try done.
  - intros now. by apply consumed_authenticated.
  - unfold existing_completion. rewrite Hs, bool_decide_eq_true_2 by done. cbn [negb].
    assert (enrolled_device c db = Some d) as -> by (unfold enrolled_device; rewrite Hcr; exact Hd').
    assert (vault_of d db = Some v) as -> by (unfold vault_of; by rewrite Hdv).
    rewrite Hdm, Hva, Hvid, Hdel, bool_decide_eq_true_2 by done. cbn [negb orb].
    assert (otruthy (v_root_commit v) = true) as ->.
    { unfold responseFor in Hr. by destruct (v_root_commit v) as [[|? ?]|]. }
    assert (onboarded c (co_device_token response) db d v = true) as ->; [|cbn [negb]; by rewrite Hr].
    unfold onboarded. rewrite Hdu, Hu, Hud, Hap, Hdo, Hsel, Hvo, Hvid, Hid, !oeqb_own, jeqb_refl.
    unfold isDeviceRevoked in Hrev. apply orb_false_iff in Hrev as [Hr1 Hr2]. apply negb_false_iff in Hr1. rewrite Hr1, Hr2.
    assert (existsb (is_device_token d v (hashToken (co_device_token response)).2) (db_tokens db) = true) as ->; [|cbn; by rewrite andb_false_r].
    apply existsb_exists. exists t. rewrite <- list_elem_of_In. split; [done|]. unfold is_device_token.
    rewrite Htk, Htd, Htv, Htu, Htr, Htc, Hth, Hdid, Hdu, Hvid, bool_decide_eq_true_2 by done. cbn [oeqb is_null_or]. by rewrite !jeqb_refl.
  - unfold responseFor in Hr. destruct (v_root_commit v) as [[|? ?]|]; [done| |done]. by injection Hr as <-.
  - intros x Hx. unfold created_device in Hx. rewrite Hcr in Hx. destruct (co_device_id response) as [|y device]; [done|].
    rewrite Hd' in Hx. by injection Hx as <-.
Qed.

Lemma yields_completeInternal lifecycle c : well_kept db → still_enrolled → conn_at id db = Some c →
  yields s (completeInternal lifecycle id secret request) (repetition c).
Proof.
  intros Hw Hy Hc. destruct (enrolled_rows Hw Hy) as (c1 & v & Ha & Hat & _ & _ & Ht & He & Hv & Hmain & _).
  rewrite Hc in Hat. injection Hat as <-. unfold completeInternal.
  eapply yields_bind.
  { unfold connectionSalt. eapply yields_bind; [apply yields_snapshot|]. apply yields_ambient. intros w.
    eapply yields_bind; [apply yields_lift, Ha|apply yields_ret]. }
  cbv zeta. rewrite <- Ht. eapply yields_bind.
  { unfold existingCompletion. eapply yields_bind; [apply yields_snapshot|]. apply yields_ambient. intros w.
    eapply yields_bind; [apply yields_lift, Ha|]. by apply yields_lift. }
  unfold replay. eapply yields_bind; [apply yields_snapshot|]. apply yields_ambient. intros w.
  change (find_row (has_vault_id (co_vault_id response)) (db_vaults (rm_db s))) with (find_row (has_vault_id (co_vault_id response)) (db_vaults db)).
  rewrite Hv. eapply yields_bind; [apply yields_lift, Ha|]. unfold repetition.
  destruct (_ || _); [apply yields_throw|].
  eapply yields_bind; [by apply yields_call|]. rewrite Hmain. destruct (_ && _); [apply yields_throw|apply yields_ret].
Qed.

Lemma owner_admitted : well_kept db → still_enrolled → DeletionRequests.withOwnerVault (co_user_id response) (co_vault_id response) db = Ok ().
Proof.
  intros Hw Hy. destruct (enrolled_rows Hw Hy) as (c & v & _ & _ & _ & _ & _ & _ & Hv & _ & Ho & _).
  pose proof (find_row_Some _ _ _ Hv) as [Hin Hid]. unfold DeletionRequests.withOwnerVault.
  match goal with |- context [find_row ?p (db_vaults db)] => destruct (find_row_exists p (db_vaults db) v Hin) as [x ->] end.
  { apply andb_true_iff. split; [exact Hid|by apply jeqb_eq]. }
  by rewrite (ea_kept _ _ _ _ _ _ _ _ (ry_enrolled Hy)).
Qed.

Lemma yields_complete lifecycle c : well_kept db → still_enrolled → conn_at id db = Some c →
  yields s (complete lifecycle id secret request) (repetition c).
Proof.
  intros Hw Hy Hc. pose proof (yields_completeInternal lifecycle c Hw Hy Hc) as Hin.
  destruct (enrolled_rows Hw Hy) as (c1 & v & Ha & Hat & Hap & Hsel & _ & _ & _ & _ & _ & Hcd).
  rewrite Hc in Hat. injection Hat as <-.
  unfold complete. destruct lifecycle; cbn [negb]; [|exact Hin].
  eapply yields_bind; [apply yields_snapshot|]. apply yields_ambient. intros w. eapply yields_bind; [apply yields_lift, Ha|].
  change (connectionTargetVaultId (rm_db s) c) with (connectionTargetVaultId db c).
  assert (connectionTargetVaultId db c = Some (co_vault_id response) ∨ connectionTargetVaultId db c = None) as [Et|Et]; [|rewrite Et|rewrite Et; exact Hin].
  { unfold connectionTargetVaultId. destruct (otruthy _); [by left|]. destruct (created_device db c) as [x|] eqn:Ex; [left|by right].
    cbn. by rewrite (Hcd x eq_refl). }
  rewrite Hap. pose proof (owner_admitted Hw Hy) as Hadm.
  destruct (co_vault_id response) as [|t target] eqn:Evault; [exact Hin|]. destruct (co_user_id response) as [|u user]; [exact Hin|].
  apply yields_withOwnerVault; [exact Hadm|].
  eapply yields_bind; [apply yields_snapshot|]. apply yields_ambient. intros w'. eapply yields_bind; [apply yields_lift, Ha|].
  change (connectionTargetVaultId (rm_db s) c) with (connectionTargetVaultId db c). rewrite Et, Hap, !oeqb_own. cbn [negb orb].
  destruct (repetition c) as [r|e] eqn:Er; [|by apply yields_fail].
  eapply yields_bind; [exact Hin|]. eapply yields_bind; [apply yields_snapshot|]. eapply yields_bind; [|apply yields_ret].
  apply yields_lift. unfold still_targets. change (find_row (has_connection_id id) (db_connections (rm_db s))) with (conn_at id db).
  rewrite Hc. change (connectionTargetVaultId (rm_db s) c) with (connectionTargetVaultId db c). rewrite Et, oeqb_own.
  pose proof (ea_kept _ _ _ _ _ _ _ _ (ry_enrolled Hy)) as Hdel. rewrite Evault in Hdel. unfold db in Hdel. by rewrite Hdel.
Qed.

End exec.

(** ** Theorems *)

Section theorems.
Context `{D : Dates} `{C : Crypto} `{H : Hmac}.

(** The methods of the service; a completion is of a connection the requests know. *)
Inductive method (tracked : jstring → Prop) : ∀ A, service A → Prop :=
| m_create base input origin : method tracked _ (create base input origin)
| m_status lifecycle id secret origin : method tracked _ (status lifecycle id secret origin)
| m_review id : method tracked _ (review id)
| m_approve lifecycle input : method tracked _ (approve lifecycle input)
| m_deny id user : method tracked _ (deny id user)
| m_bootstrap lifecycle id secret : method tracked _ (bootstrap lifecycle id secret)
| m_complete lifecycle id secret request : tracked id → method tracked _ (complete lifecycle id secret request)
| m_diagnostics id secret : method tracked _ (authenticateDiagnostics id secret).

(** What the requests in between keep: what this one and another count on. *)
Definition between (tracked mine theirs : jstring → Prop) (s s' : room) : Prop :=
  evolves tracked mine (rm_db s) (rm_db s') ∧ evolves tracked theirs (rm_db s) (rm_db s').

#[export] Instance between_preorder tracked mine theirs : PreOrder (between tracked mine theirs).
Proof. split; [intros s; split; reflexivity|]. intros a b c [H1 H2] [H3 H4]. split; by etrans. Qed.

(** [C8] The methods of the service are good company for each other.
    Whatever one of them has done so far - failed calls, and other requests in between,
    included - every connection another request knows has only moved forward in its life
    (pending, then approved or denied, then consumed or expired; its secret and its
    salt unchanged), identifiers another request has drawn are still free, and the
    document is well kept: each connection has at most one device, the one its consumed row
    names, in its vault, owned by the user who approved it. *)
Theorem methods_keep_connections (tracked mine theirs : jstring → Prop) A (p : service A) s q t :
  (∀ id, mine id → ¬ theirs id ∧ ¬ tracked id) → well_kept (rm_db s) → method tracked A p →
  runs (call_step mine) (between tracked mine theirs) p s q t →
  evolves tracked theirs (rm_db s) (rm_db t) ∧ well_kept (rm_db t).
Proof.
  intros Hapart Hw Hm Hrun.
  assert (evolves tracked theirs (rm_db s) (rm_db t)) as He; [|split; [done|by apply (ev_kept _ _ _ _ He)]].
  assert (∃ R E, hoare (call_step mine) (between tracked mine theirs) (kept tracked theirs s) (kept tracked theirs s) p R E) as (R & E & Hh).
  { destruct Hm.
    - eexists _, _. apply quiet_create; first [done|apply _|by intros ? ? []].
    - eexists _, _. apply quiet_status; first [done|apply _|by intros ? ? []].
    - eexists _, _. apply quiet_review; first [done|apply _|by intros ? ? []].
    - eexists _, _. apply quiet_approve; first [done|apply _|by intros ? ? []].
    - eexists _, _. apply quiet_deny; first [done|apply _|by intros ? ? []].
    - eexists _, _. apply quiet_bootstrap; first [done|apply _|by intros ? ? []].
    - eexists _, _. apply hoare_complete; first [done|apply _|by intros ? ? []].
    - eexists _, _. apply quiet_diagnostics; first [done|apply _|by intros ? ? []]. }
  assert (kept tracked theirs s s) as Hs by (unfold kept; reflexivity).
  destruct (triple_runs _ _ _ _ _ _ _ _ _ Hh Hs Hrun) as [HI _]. exact HI.
Qed.

(** [C7] A completion that answers has enrolled a device, or found the one it enrolled
    before: at some moment during the call the connection's row, with the caller's secret,
    was consumed and named the device; the device was in the named vault, which was
    active and owned by the user who approved the connection; and a live token with the
    hash of the returned one was the device's.  What the response says of vault and device was in the
    document at a later moment of the call.  Other requests, other completions of
    the same connection included, may run in between, and calls may fail. *)
Theorem completion_enrolls (tracked mine : jstring → Prop) lifecycle id secret request response s t :
  (∀ x, mine x → ¬ tracked x) → tracked id → well_kept (rm_db s) →
  runs (call_step mine) (λ s s', evolves tracked mine (rm_db s) (rm_db s')) (complete lifecycle id secret request) s (Done (Ok response)) t →
  co_mode response = cq_mode request ∧
  ∃ s1 s2, evolves tracked (λ _, False) (rm_db s) (rm_db s1) ∧ enrolled_response id secret response (rm_db s1) ∧
    evolves tracked mine (rm_db s1) (rm_db s2) ∧ shown response (rm_db s2).
Proof.
  intros Hapart Hid Hw Hrun.
  assert (PreOrder (λ s s' : room, evolves tracked mine (rm_db s) (rm_db s'))) as Hpre.
  { split; [intros x; reflexivity|intros a b c Ha Hb; by etrans]. }
  assert (∀ s s' : room, evolves tracked mine (rm_db s) (rm_db s') → evolves tracked (λ _, False) (rm_db s) (rm_db s')) as Hweak.
  { intros a b [k x r g]. by split. }
  pose proof (hoare_complete mine tracked (λ _, False) (λ s s', evolves tracked mine (rm_db s) (rm_db s')) s (λ _ _ Hx, Hx) Hweak
    (λ x Hx, conj (λ F, F) (Hapart x Hx)) Hw id Hid secret lifecycle request) as Hh.
  assert (kept tracked (λ _, False) s s) as Hs by (unfold kept; reflexivity).
  destruct (triple_runs _ _ _ _ _ _ _ _ _ Hh Hs Hrun) as [_ HQ].
  destruct (HQ _ eq_refl) as [[(s1 & s2 & H1 & H2 & H3 & H4 & H5) _] Hmode]. split; [done|]. by exists s1, s2.
Qed.

(** [C9] The transaction that creates a device.  If it succeeds, the secret is that of a
    connection that was approved and had not expired, the vault is active, not being deleted,
    and owned by the approving user, and the document has the new device, its token, the consumed
    connection - and the new vault, for a connection approved for one - and is otherwise
    unchanged; if it throws, the document is unchanged.  For an unknown, pending, denied, expired or
    consumed connection it throws, and for a vault that is being deleted. *)
Theorem only_approved_connections_enroll id secret token vaultId root deviceId ts mode proposal w db :
  (match run w (completion_tx id secret token vaultId root deviceId ts mode proposal w) db with
   | (Ok (vault, device, tokenId), db') => ∃ c candidate h,
       enrollment id secret token vaultId root deviceId ts mode proposal w db vault device tokenId c candidate ∧ db' = committed h candidate
   | (Throw _, db') => db' = db
   end) ∧
  ((∀ c, find_row (authenticates id secret) (db_connections db) = Some c → c_status c ≠ CApproved ∨ parsed_le (c_expires_at c) (w_now w 0) = true) ∨
   hasDurableDeletionRecord db vaultId = true →
   is_ok (run w (completion_tx id secret token vaultId root deviceId ts mode proposal w) db).1 = false).
Proof.
  destruct (run_cases w (completion_tx id secret token vaultId root deviceId ts mode proposal w) db)
    as [(e & _ & ->)|([[v d] tokenId] & candidate & h & E & ->)]; [done|].
  apply completion_enrollment in E as (c & He). split; [by exists c, candidate, h|].
  intros [Hc|Hdel].
  - destruct (Hc c (en_found _ _ _ _ _ _ _ _ _ _ _ _ _ _ _ _ He)) as [Hs|Hx].
    + by destruct (Hs (en_approved _ _ _ _ _ _ _ _ _ _ _ _ _ _ _ _ He)).
    + by rewrite (en_unexpired _ _ _ _ _ _ _ _ _ _ _ _ _ _ _ _ He) in Hx.
  - by rewrite (en_kept _ _ _ _ _ _ _ _ _ _ _ _ _ _ _ _ He) in Hdel.
Qed.

(** What an answered completion leaves to its repetition: the row it consumed is the one
    found later, and was approved for what the request asked. *)
Lemma answered_completion (tracked mine : jstring → Prop) lifecycle id secret request response s t u :
  (∀ x, mine x → ¬ tracked x) → tracked id → well_kept (rm_db s) →
  runs (call_step mine) (λ s s', evolves tracked mine (rm_db s) (rm_db s')) (complete lifecycle id secret request) s (Done (Ok response)) t →
  evolves tracked mine (rm_db t) (rm_db u) →
  well_kept (rm_db u) ∧ co_mode response = cq_mode request ∧
  ∀ c, conn_at id (rm_db u) = Some c →
    c_created_device_id c = Some (co_device_id response) ∧ c_approved_user_id c = Some (co_user_id response) ∧
    c_selected_vault_id c = Some (co_vault_id response) ∧ co_device_token response = deriveDeviceToken secret (c_credential_salt c) ∧
    (c_selection c = Some SelExistingVault → cq_expected_main request = c_expected_main c).
Proof.
  intros Hapart Hid Hw Hrun Hu.
  set (others := λ s s' : room, evolves tracked mine (rm_db s) (rm_db s')).
  assert (PreOrder others) as Hpre by (split; [intros x; unfold others; reflexivity|intros a b c Ha Hb; unfold others in *; by etrans]).
  assert (∀ s s' : room, others s s' → evolves tracked (λ _, False) (rm_db s) (rm_db s')) as Hweak by (intros a b [k x r g]; by split).
  pose proof (hoare_complete mine tracked (λ _, False) others s (λ _ _ Hx, Hx) Hweak
    (λ x Hx, conj (λ F, F) (Hapart x Hx)) Hw id Hid secret lifecycle request) as Hh.
  assert (kept tracked (λ _, False) s s) as Hs by (unfold kept; reflexivity).
  destruct (triple_runs _ _ _ _ _ _ _ _ _ Hh Hs Hrun) as [Ht HQ].
  destruct (HQ _ eq_refl) as [[(s1 & s2 & H1 & [(c1 & Hc1 & _ & Hs1 & Hd1 & Hu1 & Ht1) (d & Hd & Hdid & Hdv & _ & Hdo & _) _ _ _] & H12 & _ & H2) Hacc] Hmode].
  split; [by apply (ev_kept _ _ _ _ Hu), (ev_kept _ _ _ _ Ht)|]. split; [done|]. intros c Hc.
  assert (others s1 u) as H1u by (etrans; [exact H12|]; etrans; [exact H2|exact Hu]).
  pose proof (ev_row _ _ _ _ H1u _ _ Hid Hc1 _ Hc) as Hp.
  assert (c = c1) as ->.
  { apply progress_rank in Hp as [->|Hp]; [done|]. rewrite Hs1 in Hp. destruct (c_status c); cbn in Hp; lia. }
  pose proof (conn_at_elem _ _ _ Hc1) as [Hin Hcid].
  destruct (wk_enrolled _ (ev_kept _ _ _ _ H1 Hw) c1 d Hin Hd) as (_ & _ & Hsel & _); [by rewrite Hdo, Hcid|].
  split_and!; [done|done|by rewrite Hsel, Hdv|done|].
  destruct Hacc as (c0 & Hc0 & Hsince & Hmain). intros Hexisting.
  assert (since id c0 u) as Hsu by (eapply (since_stable tracked (λ _, False) others Hweak id Hid c0); [exact Hu|exact Hsince]).
  destruct (progress_consumed _ _ Hc0 (Hsu _ Hc) Hs1) as [E1 E2]. rewrite E2. apply Hmain. congruence.
Qed.


End theorems.

(** ** A device that joins *)

Section samples.

Definition well_keptb (db : MetadataDb) : bool :=
  bool_decide (NoDup (map c_connection_id (db_connections db))) && bool_decide (NoDup (map d_device_id (db_devices db))) &&
  bool_decide (NoDup (map v_vault_id (db_vaults db))) &&
  forallb (λ c, forallb (λ d,
    if oeqb (d_onboarding_connection_id d) (Some (c_connection_id c))
    then bool_decide (c_status c = CConsumed) && oeqb (c_created_device_id c) (Some (d_device_id d)) &&
         oeqb (c_selected_vault_id c) (Some (d_vault_id d)) && oeqb (c_approved_user_id c) (Some (d_user_id d))
    else true) (db_devices db)) (db_connections db) &&
  forallb (λ d, forallb (λ d',
    if oeqb (d_onboarding_connection_id d) (d_onboarding_connection_id d') && negb (is_null_or (d_onboarding_connection_id d))
    then d_device_id d =s? d_device_id d' else true) (db_devices db)) (db_devices db) &&
  forallb (λ c, if bool_decide (c_status c = CApproved) && bool_decide (c_selection c = Some SelExistingVault)
                then is_null_or (c_new_vault_display_name c) else true) (db_connections db).

Lemma forallb_elem {A} (f : A → bool) l x : forallb f l = true → x ∈ l → f x = true.
Proof. rewrite forallb_forall, list_elem_of_In. auto. Qed.

Lemma well_keptb_spec db : well_keptb db = true → well_kept db.
Proof.
  unfold well_keptb. intros [[[[[H1 H2]%andb_true_iff H3]%andb_true_iff H4]%andb_true_iff H5]%andb_true_iff H6]%andb_true_iff.
  apply bool_decide_eq_true in H1, H2, H3. split; [done|done|done| | |].
  - intros c d Hc Hd Ho. pose proof (forallb_elem _ _ _ (forallb_elem _ _ _ H4 Hc) Hd) as Hf. cbv beta in Hf. rewrite Ho in Hf.
    cbn in Hf. rewrite jeqb_refl in Hf. apply andb_true_iff in Hf as [[[Hf1%bool_decide_eq_true Hf2]%andb_true_iff Hf3]%andb_true_iff Hf4].
    split_and!; [done|by apply oeqb_iff|by apply oeqb_iff|by apply oeqb_iff].
  - intros d d' k Hd Hd' Ho Ho'. pose proof (forallb_elem _ _ _ (forallb_elem _ _ _ H5 Hd) Hd') as Hf. cbv beta in Hf.
    rewrite Ho, Ho' in Hf. cbn in Hf. rewrite jeqb_refl in Hf. by apply jeqb_eq.
  - intros c Hc Hs Hsel. pose proof (forallb_elem _ _ _ H6 Hc) as Hf. cbv beta in Hf. rewrite Hs, Hsel in Hf.
    cbn in Hf. by destruct (c_new_vault_display_name c).
Qed.

#[export] Instance toy_hmac : Hmac := {| hmac_sha256 key message := [1; 2; 3; 4; 5; 6; 7; 8]%N |}.

Definition toy_tape (n : nat) : World := mk_World (λ i, day1 + Z.of_nat n)%Z (λ i, [N.of_nat n; N.of_nat i]).
Definition toy_git : repositories :=
  mk_repositories (λ _, "r0") (λ _ _, true) (λ _ _ _, true) (λ _ _, None) (λ _ _, []) (λ _ _, []).

Definition empty_room : room := mk_room (set_db_users [sample_user "bob" false] createEmptyDb) (mk_RateLimits [] []).
Definition registration : CreateConnectionRequest :=
  mk_CreateConnectionRequest "1.0.0" "Laptop" "Notes" (mk_ConnectionSummary true 3 100 false).

(** Registered, then approved by bob for a new vault. *)
Definition registered : result CreateConnectionResponse * nat * room :=
  exec toy_git toy_tape 0 (create "https://obts.example/" registration "10.0.0.1") empty_room.
Definition sample_id : jstring := match registered.1.1 with Ok r => ca_connection_id r | Throw _ => [] end.
Definition sample_secret : jstring := match registered.1.1 with Ok r => ca_connection_secret r | Throw _ => [] end.
Definition approved : result unit * nat * room :=
  exec toy_git toy_tape 10 (approve true (mk_Approval sample_id (sample_user "bob" false) SelNewVault None (Some (lit " Notes ")))) registered.2.

Definition setup_request (expected_main : option jstring) : CompleteConnectionRequest :=
  mk_CompleteConnectionRequest ModeInitialize expected_main false None None.
Definition completed (expected_main : option jstring) : result CompleteConnectionResponse * nat * room :=
  exec toy_git toy_tape 20 (complete true sample_id sample_secret (setup_request expected_main)) approved.2.
Definition sample_response : CompleteConnectionResponse :=
  match (completed None).1.1 with Ok r => r | Throw _ => mk_CompleteConnectionResponse [] [] [] [] [] [] [] [] ModeMerge end.

Definition drawn : list jstring :=
  flat_map (λ n, [fresh_connection_id (toy_tape n); new_id (toy_tape n) 0 "vlt"; new_id (toy_tape n) 1 "dev"]) (seq 20 20).

Lemma registered_ok : is_ok registered.1.1 = true.
Proof. by vm_compute. Qed.
Lemma approved_ok : is_ok approved.1.1 = true.
Proof. by vm_compute. Qed.
Lemma completed_ok : (completed None).1.1 = Ok sample_response.
Proof. by vm_compute. Qed.
Lemma approved_well : well_kept (rm_db approved.2).
Proof. apply well_keptb_spec. by vm_compute. Qed.
Lemma completed_well : well_kept (rm_db (completed None).2).
Proof. apply well_keptb_spec. by vm_compute. Qed.

Definition only (id : jstring) : jstring → Prop := λ x, x = id.
Definition mine_drawn : jstring → Prop := λ x, x ∈ drawn.
Definition sample_completion (expected_main : option jstring) : service CompleteConnectionResponse :=
  complete true sample_id sample_secret (setup_request expected_main).

Lemma sample_not_drawn : sample_id ∉ drawn ∧ lit "dev_other" ∉ drawn.
Proof. by apply (bool_decide_eq_true (sample_id ∉ drawn ∧ lit "dev_other" ∉ drawn)); vm_compute. Qed.

Lemma sample_apart id : mine_drawn id → ¬ only (lit "dev_other") id ∧ ¬ only sample_id id.
Proof. destruct sample_not_drawn as [Hs Ho]. intros Hid. by split; intros ->. Qed.

Lemma completed_runs others : runs (call_step mine_drawn) others (sample_completion None) approved.2 (Done (Ok sample_response)) (completed None).2.
Proof.
  rewrite <- completed_ok. apply (connection_exec_runs toy_git toy_tape mine_drawn drawn others 20 (sample_completion None) approved.2); [done|].
  by vm_compute.
Qed.

Lemma completed_enrolled : still_enrolled sample_id sample_secret sample_response (completed None).2.
Proof.
  assert (∃ c, authenticated day1 sample_id sample_secret (rm_db (completed None).2) = Ok c ∧
    existing_completion (deriveDeviceToken sample_secret (c_credential_salt c)) (rm_db (completed None).2) c = Ok (Some sample_response))
    as (c & Hc & He) by (eexists; split; vm_compute; reflexivity).
  destruct (existing_enrolled (only sample_id) sample_id eq_refl sample_secret day1 _ _ c sample_response completed_well Hc eq_refl He) as [Hen Hsh].
  split; [exact Hen|exact Hsh|]. eexists. split; vm_compute; reflexivity.
Qed.

End samples.

Lemma methods_keep_connections_witness :
  runs (call_step mine_drawn) (between (only sample_id) mine_drawn (only (lit "dev_other"))) (sample_completion None) approved.2
    (Done (Ok sample_response)) (completed None).2 ∧ well_kept (rm_db (completed None).2).
Proof.
  split; [apply completed_runs|].
  exact (proj2 (methods_keep_connections (only sample_id) mine_drawn (only (lit "dev_other")) CompleteConnectionResponse (sample_completion None)
    approved.2 (Done (Ok sample_response)) (completed None).2 sample_apart approved_well
    (m_complete (only sample_id) true sample_id sample_secret (setup_request None) eq_refl) (completed_runs _))).
Defined.

Lemma completion_enrolls_witness : co_mode sample_response = ModeInitialize ∧ co_vault_name sample_response = lit "Notes".
Proof.
  split; [|by vm_compute].
  exact (proj1 (completion_enrolls (only sample_id) mine_drawn true sample_id sample_secret (setup_request None) sample_response approved.2 (completed None).2
    (λ x Hx, proj2 (sample_apart x Hx)) eq_refl approved_well (completed_runs _))).
Defined.


(** A connection for a new vault is completed whatever [expected_main] the request
    carries, but the repetition compares it with the connection's, which has none: a
    request that carried one is accepted, and refused when it is repeated. *)
Lemma repeated_setup_refused : is_ok (completed (Some (lit "r0"))).1.1 = true ∧
  (exec toy_git toy_tape 50 (sample_completion (Some (lit "r0"))) (completed (Some (lit "r0"))).2).1.1 =
    Throw (refused 409 "onboarding_identity_mismatch" "Completion does not match the accepted enrollment.").
Proof. by split; vm_compute. Qed.
